(* ===== verification/_CoqProject ===== *)
-Q . S2P
Prelude.v
Deque.v
Queue.v
BitVec.v
OrderedMap.v
HashSet.v
Stack.v
MonotoneMap.v
Env.v
Core.v
Ranges.v
Iterx.v
Errorx.v
Formatter.v
GoSort.v
Strconv.v
PdqSort.v
StableSort.v
LineTable.v
GoUtf8.v
Utf8Encode.v
PrintTables.v
Quote.v
GoSearch.v
GoStrings.v
BytesBuffer.v
Utf8.v
Uniseg.v
GoFilepath.v
GoSplit.v
CleanSpec.v
Lexical.v
PathComponents.v
RelSpec.v
PathTypes.v
PathLaws.v
PathxTestkit.v
Token.v
CancelConc.v
GoCalendar.v
GoTime.v
Durations.v
GoSlice.v
Timex.v
ClockToken.v
FlatTree.v
FsOpt.v
Fsx.v
RootedFS.v
Config.v
ExeSearch.v
FsWalk.v
WalkSpec.v
WalkErrors.v
Cmdx.v
CmdRunner.v
SyncBranch.v
SyncPR.v
KidoBenchmark.v
KidoList.v
KidoMain.v
FsTemp.v
TempNames.v
Golden.v
GoldenSpec.v
