(* ===== verification/Prelude.v ===== *)
(** * The Kibou base libraries and tools: a verification development (root file)

    The repository holds the Go libraries of Kibou ([base/]), the tools built on
    them ([misc/]) and forks of the Go toolchain, of Delve and of the Go tools.
    This development models the logic of [base/] and [misc/], and the parts of
    the Go standard library ([go/src]) that their correctness rests on.

    ** Conventions

    A Go computation is a value of [go A] (below): it returns, panics with a
    category, or has run out of the fuel of a loop.  Every theorem about code
    says that it returns (or which panic it makes), so an [OutOfFuel] is never
    taken for success.  Fixed-width integers are [Z] with the wrap-around of
    their type written out where it can matter.  Strings and byte slices are
    lists of byte values ([gostring]).  A nil error is [None].  Mutable state is
    passed and returned; where the code shares it, it lives in an explicit store:
    tokens in the heap of Token, the backing arrays of slices in GoSlice, the
    effects of commands in the trace of Cmdx.  Iteration over a Go map takes the
    visiting order as an argument.  [windows] selects the platform where the code
    does; theorems that need one say so.  What is not under [src/], or only
    reaches the operating system, is a parameter, constrained by named
    hypotheses that state what it documents; witnesses instantiate them.

    ** The parts, bottom up

    Shared: Prelude ([base/assert], the [go] monad, lemmas on lists, [Z] and
    bits), Queue (the interface between Deque and its clients), Iterx
    ([base/iterx]; [Enumerates] is the interface between what builds an iterator
    and what consumes it), GoSlice (aliasing slices, [slices.Clip]).

    Containers: Deque, BitVec, OrderedMap, HashSet, Stack, MonotoneMap model the
    files of [base/collections] of those names; Env models [base/envx].  Each has
    a field invariant kept by every operation, and a refinement theorem: any
    sequence of operations makes the observations of a mathematical object (a
    list, a set of indices, an association list in insertion order).  PdqSort and
    StableSort model the sorting of [go/src/slices], proved to give the sorted
    list that they and the tools assume of it (StableSort: the one that keeps
    equal elements in order), and BytesBuffer the [Buffer] of [go/src/bytes],
    which refines a queue of bytes; the contract of its [UnreadByte] is open where
    the code departs from its documentation.

    Values: Core ([base/core/option], [result], [op], [pair], [limited], and
    [cmpx], [enum], [zero]), Ranges ([base/ranges]: spans over any integer type),
    GoCalendar and GoTime ([go/src/time/time.go]: the calendar of the
    multiply-and-shift conversion against the Gregorian rules; saturating
    arithmetic), Durations (their text in [time.go] and [format.go], read back
    exactly through binary64; rounding), Timex ([base/timex]).

    Text: GoUtf8 and Utf8Encode ([go/src/unicode/utf8]: decoder, encoder and validator
    against the grammar of RFC 3629), Strconv ([go/src/internal/strconv]: integers in
    any base), PrintTables and Quote ([go/src/strconv]: quoting, which [Unquote] reads
    back exactly), GoStrings ([strings.TrimSpace], [Fields] and [FieldsFunc] against
    the words of a text), GoSearch ([strings.Index] and [LastIndex], with their
    Rabin-Karp search, find the first and the last occurrence), GoSplit ([Split],
    [Count], [Cut], [Join], [Repeat] of [strings], against the pieces around a
    separator, the code points if it is empty), Utf8 ([base/utf8]), Uniseg ([base/internal/uniseg]), GoSort
    ([sort.Search]) and LineTable ([base/source_code]).

    Paths: GoFilepath ([path/filepath] and its internals), CleanSpec (Clean
    against a stack of elements), RelSpec (Rel and Join), Lexical
    ([pathx.LexicallyNormalize]), PathComponents ([base/internal/pathx]),
    PathTypes ([base/core/pathx], [base/fsx/fsx_name]) and PathLaws (each of its
    operations computed on lists of elements; this is what every user of paths
    below is proved with), PathxTestkit ([pathx_testkit]: the paths that the
    generators of the property tests draw do, and do not, stay below their root).

    Errors: Errorx ([base/errorx]: chains, root causes, problems) and Formatter
    (the stable formatter against a recursive rendering of the calls).

    Cancellation: Token ([base/cancel/token.go] one caller at a time), CancelConc
    (any number of goroutines interleaved lock section by lock section: no panic,
    no call that is stuck or runs forever, first error kept, every descendant
    canceled once the calls are over; a section is one step, as each takes one
    mutex and releases it before the next is taken, so the order of locks is not a
    question the model asks), ClockToken ([cancel/clock_token.go],
    [cancel/deadline]: over any scheduler, which may perform its work at once).

    File systems: FsOpt ([fsx_opt], [fsx/open.go]), Fsx ([fsx/fsx.go], [fsx/stat.go]
    and the class [FS] its users are proved against), RootedFS (its operations that
    forward to the base, and [MkdirTemp]), FsTemp ([fsx_temp]), TempNames
    ([syscaps/temp_file.go]), ExeSearch ([envx/envx_path]), FsWalk and WalkSpec
    ([fsx_walk]: iterators over shared slices refine a pure walk; a walk of a
    subdirectory agrees with the walk from the root), WalkErrors (their messages: no
    error a walk makes panics when it is printed), Golden ([check/golden]: pruning
    stale snapshots), FlatTree ([check/pbt/flat]).

    Tools: Config ([misc/internal/config]), CmdRunner ([syscaps.CmdRunner] and
    [logx/cmd_loggers.go]: what is captured and logged of a process), Cmdx
    ([base/cmdx]: programs over a trace of commands, with a logic of the traces they
    emit), SyncBranch, SyncPR, KidoBenchmark and KidoList ([misc/cmd/kido]: what is
    pushed, merged, measured and removed, whatever command fails; a benchmark is
    proved against the contract of a [BenchmarkConfig], which [MakeBashBenchmark]
    meets), and KidoMain (the whole program from the values of its flags to its
    exit code, which puts Config, KidoList, SyncBranch, SyncPR and the text routines
    above together; what the flags ask for is stated apart from the code that reads
    them).

    ** Fuel

    Loops whose measure is not structural take fuel, and the theorem says how
    much is enough: 64 rounds for [sort.Search] (each halves an interval of fewer
    than 2^63); the length of the range for sorting; one round per byte, and one
    to leave the loop, for scanners of text and paths; the number of slots or
    bits for containers; the nesting limit of the code itself for error chains;
    the size of the live part of the heap for cancellation (the concurrent model
    has no fuel: its termination is a bound on the length of any run); the number
    of directories for the walk and for pruning, as an existential bound that any
    larger fuel satisfies too.

    ** Not modelled

    The third-party logger below [base/logx]; the operating system (the clocks of
    [base/syscaps], processes, file handles of [fsx/file.go]); the test harness of
    [base/check] other than snapshot pruning and flat trees; the JSON decoder and
    the argument parser of [misc/cmd/kido] (a third-party library: what it hands to
    each command is modelled), which are parameters; licence checks; third-party
    code.  Of the
    Go standard library only what is named above; the compiler, the rest of the
    toolchain, Delve and the Go tools are forks of upstream repositories whose
    logic is not Kibou's. *)

From stdpp Require Export base tactics decidable option list numbers gmap sets fin_maps.
From Stdlib Require Export ZArith Lia.
From Stdlib Require Import Zbitwise.
From stdpp Require Export strings.

#[global] Delimit Scope string_scope with string.
#[global] Open Scope Z_scope.

(** ** Outcomes of Go code

    Go code of this repository reports contract violations with the panicking
    helpers of [base/assert], and the language itself panics on out-of-range
    accesses.  A Go computation is a value of [go A]: it returns a value,
    panics, or (only for loops modelled with explicit fuel) has not finished. *)
Inductive panic_kind :=
  | PreconditionViolation
  | InvariantViolation
  | PostconditionViolation
  | UnknownCase
  | AlwaysViolation
  | IndexOutOfRange
  | SliceBoundsOutOfRange
  | MakeLenOutOfRange
  | NilMapWrite
  | NilDereference
  | CloseOfClosedChannel
  | ExplicitPanic.

#[global] Instance panic_kind_eq_dec : EqDecision panic_kind.
Proof. solve_decision. Defined.

Inductive go (A : Type) : Type :=
  | Ret (a : A)
  | Panic (k : panic_kind)
  | OutOfFuel.
Arguments Ret {_} _.
Arguments Panic {_} _.
Arguments OutOfFuel {_}.

#[global] Instance go_ret : MRet go := fun A a => Ret a.
#[global] Instance go_bind : MBind go := fun A B f m =>
  match m with
  | Ret a => f a
  | Panic k => Panic k
  | OutOfFuel => OutOfFuel
  end.
#[global] Instance go_fmap : FMap go := fun A B f m =>
  match m with
  | Ret a => Ret (f a)
  | Panic k => Panic k
  | OutOfFuel => OutOfFuel
  end.

(** A computation that returns, that is, neither panics nor runs out of fuel. *)
Definition returns {A} (m : go A) : Prop := exists a, m = Ret a.

(** ** The assertion helpers of [base/assert/assert.go]

    [assert.Precondition(b, msg)] and its siblings panic exactly when [b] is
    false.  The message is not modelled, its prefix is the [panic_kind]. *)
Definition Always (b : bool) : go unit := if b then Ret tt else Panic AlwaysViolation.
Definition Precondition (b : bool) : go unit := if b then Ret tt else Panic PreconditionViolation.
Definition Invariant (b : bool) : go unit := if b then Ret tt else Panic InvariantViolation.
Definition Postcondition (b : bool) : go unit := if b then Ret tt else Panic PostconditionViolation.
Definition PanicInvariantViolation {R} : go R := Panic InvariantViolation.
Definition PanicUnknownCase {R} : go R := Panic UnknownCase.

(** ** Machine integers

    [int] is a 64-bit two's complement integer (the repository supports 64-bit
    platforms); [int64] is the wrap-around of the signed operations and
    [uint_wrap w] that of the unsigned ones. *)
Definition MaxInt : Z := 2 ^ 63 - 1.
Definition MinInt : Z := - 2 ^ 63.
Definition sint_wrap (w z : Z) : Z := (z + 2 ^ (w - 1)) mod 2 ^ w - 2 ^ (w - 1).
Definition uint_wrap (w z : Z) : Z := z mod 2 ^ w.
Definition int64 (z : Z) : Z := sint_wrap 64 z.
Definition int32 (z : Z) : Z := sint_wrap 32 z.
Definition is_int (z : Z) : Prop := MinInt <= z <= MaxInt.

Lemma sint_wrap_id w z : 0 < w -> - 2 ^ (w - 1) <= z < 2 ^ (w - 1) -> sint_wrap w z = z.
Proof.
  intros Hw Hz. unfold sint_wrap.
  assert (2 ^ w = 2 * 2 ^ (w - 1)) as E.
  { rewrite <- Z.pow_succ_r by lia. f_equal. lia. }
  rewrite Z.mod_small; lia.
Qed.

Lemma uint_wrap_id w z : 0 <= z < 2 ^ w -> uint_wrap w z = z.
Proof. apply Z.mod_small. Qed.

Lemma int64_id z : is_int z -> int64 z = z.
Proof. unfold is_int, MinInt, MaxInt, int64. intros. apply sint_wrap_id; lia. Qed.

Lemma int32_id z : - 2 ^ 31 <= z < 2 ^ 31 -> int32 z = z.
Proof. intros. by apply sint_wrap_id. Qed.

(** Truncated division of a non-negative number. *)
Lemma quot_bounds x n : 0 <= x -> 0 < n -> n * Z.quot x n <= x < n * Z.quot x n + n.
Proof. intros Hx Hn. rewrite Z.quot_div_nonneg by lia. pose proof (Z.div_mod x n ltac:(lia)). pose proof (Z.mod_pos_bound x n ltac:(lia)). lia. Qed.

(** ** Slices and strings

    A Go slice (or string) whose spare capacity the code does not use is the
    list of its elements; indices are [Z], and the operations panic as Go does. *)
Definition zlen {A} (l : list A) : Z := Z.of_nat (length l).

Definition index {A} (l : list A) (i : Z) : go A :=
  if (0 <=? i) then
    match l !! Z.to_nat i with Some x => Ret x | None => Panic IndexOutOfRange end
  else Panic IndexOutOfRange.

Definition store {A} (l : list A) (i : Z) (x : A) : go (list A) :=
  if (0 <=? i) && (i <? zlen l) then Ret (<[Z.to_nat i := x]> l) else Panic IndexOutOfRange.

Definition slice {A} (l : list A) (i j : Z) : go (list A) :=
  if (0 <=? i) && (i <=? j) && (j <=? zlen l)
  then Ret (take (Z.to_nat (j - i)) (drop (Z.to_nat i) l))
  else Panic SliceBoundsOutOfRange.

Definition slice_from {A} (l : list A) (i : Z) : go (list A) := slice l i (zlen l).
Definition slice_to {A} (l : list A) (j : Z) : go (list A) := slice l 0 j.

(** [make([]T, n)] for a non-negative [n]. *)
Definition make_slice {A} (zero : A) (n : Z) : go (list A) :=
  if 0 <=? n then Ret (replicate (Z.to_nat n) zero) else Panic MakeLenOutOfRange.

(** [copy(dst, src)]: the first [min(len(dst), len(src))] elements are overwritten. *)
Definition copy_slice {A} (dst src : list A) : list A :=
  take (length dst) src ++ drop (length src) dst.

(** ** Shared automation *)

Create HintDb zlen_db.
Create Rewrite HintDb zlen_db.

(** Case analysis on the integer comparisons of the goal. *)
Ltac zcase1 :=
  match goal with
  | |- context [Z.ltb ?a ?b] => destruct (Z.ltb_spec a b)
  | |- context [Z.leb ?a ?b] => destruct (Z.leb_spec a b)
  | |- context [Z.eqb ?a ?b] => destruct (Z.eqb_spec a b)
  end.
Ltac zcase := repeat (zcase1; cbn [andb orb negb]; try lia).

Ltac zcase1_in H :=
  match type of H with
  | context [Z.ltb ?a ?b] => destruct (Z.ltb_spec a b)
  | context [Z.leb ?a ?b] => destruct (Z.leb_spec a b)
  | context [Z.eqb ?a ?b] => destruct (Z.eqb_spec a b)
  end.
Ltac zcase_in H := repeat (zcase1_in H; cbn [andb orb negb] in H; try lia).

(** Short-circuiting conditions whose operands may panic. *)
Definition go_and (a b : go bool) : go bool :=
  match a with Ret true => b | _ => a end.
Definition go_or (a b : go bool) : go bool :=
  match a with Ret false => b | _ => a end.
Notation "a '&&&' b" := (go_and a b) (at level 40, left associativity).
Notation "a '|||' b" := (go_or a b) (at level 50, left associativity).

Lemma bind_ret {A B} (a : A) (f : A -> go B) : Ret a ≫= f = f a.
Proof. done. Qed.

Lemma bind_Ret_iff {A B} (m : go A) (f : A -> go B) (b : B) :
  m ≫= f = Ret b <-> exists a, m = Ret a /\ f a = Ret b.
Proof.
  split.
  - destruct m; cbn; [|done..]. eauto.
  - intros (a & -> & <-). done.
Qed.

Lemma fmap_Ret_iff {A B} (m : go A) (f : A -> B) (b : B) :
  f <$> m = Ret b <-> exists a, m = Ret a /\ f a = b.
Proof.
  split.
  - destruct m; cbn; [|done..]. intros [= <-]. eauto.
  - intros (a & -> & <-). done.
Qed.

Lemma bind_assoc {A B C} (m : go A) (f : A -> go B) (g : B -> go C) :
  (m ≫= f) ≫= g = m ≫= (fun a => f a ≫= g).
Proof. by destruct m. Qed.

(** Invert a hypothesis [m ≫= f = Ret b] into its steps. *)
Ltac go_inv H :=
  let a := fresh "a" in let H1 := fresh "Hrun" in
  apply bind_Ret_iff in H; destruct H as (a & H1 & H).

(** Run the first computation of the goal with an equation proved by [tac]. *)
Ltac go_run_with E := rewrite E; rewrite ?bind_ret.

Lemma Precondition_true b : b = true -> Precondition b = Ret tt.
Proof. by intros ->. Qed.
Lemma Precondition_Ret b u : Precondition b = Ret u <-> b = true.
Proof. destruct b, u; naive_solver. Qed.
Lemma Invariant_true b : b = true -> Invariant b = Ret tt.
Proof. by intros ->. Qed.

(** *** Lengths *)
Section zlen.
Context {A : Type}.
Implicit Types (l : list A) (i j : Z) (x : A).

Lemma zlen_nonneg l : 0 <= zlen l.
Proof. unfold zlen. lia. Qed.
Lemma zlen_nil : zlen (@nil A) = 0.
Proof. done. Qed.
Lemma zlen_cons x l : zlen (x :: l) = zlen l + 1.
Proof. unfold zlen. cbn [length]. lia. Qed.
Lemma zlen_app l k : zlen (l ++ k) = zlen l + zlen k.
Proof. unfold zlen. rewrite length_app. lia. Qed.
Lemma zlen_insert l (n : nat) x : zlen (<[n := x]> l) = zlen l.
Proof. unfold zlen. by rewrite length_insert. Qed.
Lemma zlen_take l (n : nat) : zlen (take n l) = Z.min (Z.of_nat n) (zlen l).
Proof. unfold zlen. rewrite length_take. lia. Qed.
Lemma zlen_drop l (n : nat) : zlen (drop n l) = Z.max 0 (zlen l - Z.of_nat n).
Proof. unfold zlen. rewrite length_drop. lia. Qed.
Lemma zlen_replicate (n : nat) x : zlen (replicate n x) = Z.of_nat n.
Proof. unfold zlen. by rewrite length_replicate. Qed.
Lemma zlen_0 l : zlen l = 0 -> l = [].
Proof. unfold zlen. destruct l; [done|cbn; lia]. Qed.
Lemma zlen_reverse l : zlen (reverse l) = zlen l.
Proof. unfold zlen. by rewrite length_reverse. Qed.

(** *** Accesses *)
Lemma index_lookup l i x :
  index l i = Ret x <-> 0 <= i /\ l !! Z.to_nat i = Some x.
Proof.
  unfold index. destruct (Z.leb_spec 0 i).
  - destruct (l !! Z.to_nat i); split; [intros [= ->]; auto|intros [? [= ->]]; done|
      done|intros [? ?]; done].
  - split; [done|lia].
Qed.

Lemma index_in_range l i : 0 <= i < zlen l -> exists x, index l i = Ret x.
Proof.
  intros Hi. destruct (lookup_lt_is_Some_2 l (Z.to_nat i)) as [x Hx].
  { unfold zlen in Hi. lia. }
  exists x. apply index_lookup. split; [lia|done].
Qed.

Lemma index_Ret_range l i x : index l i = Ret x -> 0 <= i < zlen l.
Proof.
  intros [Hi Hx]%index_lookup. apply lookup_lt_Some in Hx. unfold zlen. lia.
Qed.

Lemma index_nat l (n : nat) x : l !! n = Some x -> index l (Z.of_nat n) = Ret x.
Proof. intros. apply index_lookup. rewrite Nat2Z.id. split; [lia|done]. Qed.

Lemma index_app_r l k i : 0 <= i -> index (l ++ k) (zlen l + i) = index k i.
Proof.
  intros Hi. unfold index. pose proof (zlen_nonneg l).
  rewrite (proj2 (Z.leb_le 0 (zlen l + i))), (proj2 (Z.leb_le 0 i)) by lia.
  replace (Z.to_nat (zlen l + i)) with (length l + Z.to_nat i)%nat by (unfold zlen; lia).
  rewrite lookup_app_r by lia. by replace (length l + Z.to_nat i - length l)%nat with (Z.to_nat i) by lia.
Qed.

Lemma slice_from_app_r l k : slice_from (l ++ k) (zlen l) = Ret k.
Proof.
  assert (Z.to_nat (zlen (l ++ k) - zlen l) = length k) as E.
  { unfold zlen. rewrite length_app. lia. }
  unfold slice_from, slice. rewrite E. unfold zlen. rewrite length_app.
  rewrite !(proj2 (Z.leb_le _ _)) by lia. cbn [andb].
  by rewrite Nat2Z.id, drop_app_length, take_ge.
Qed.

Lemma slice_app_mid l k m : slice (l ++ k ++ m) (zlen l) (zlen l + zlen k) = Ret k.
Proof.
  unfold slice. replace (Z.to_nat (zlen l + zlen k - zlen l)) with (length k) by (unfold zlen; lia).
  unfold zlen. rewrite !length_app. rewrite !(proj2 (Z.leb_le _ _)) by lia. cbn [andb].
  by rewrite Nat2Z.id, drop_app_length, take_app_length.
Qed.

Lemma store_in_range l i x :
  0 <= i < zlen l -> store l i x = Ret (<[Z.to_nat i := x]> l).
Proof. intros. unfold store. zcase. done. Qed.

Lemma store_Ret_inv l i x l' :
  store l i x = Ret l' -> 0 <= i < zlen l /\ l' = <[Z.to_nat i := x]> l.
Proof. unfold store. zcase; naive_solver lia. Qed.

Lemma slice_in_range l i j :
  0 <= i <= j -> j <= zlen l ->
  slice l i j = Ret (take (Z.to_nat (j - i)) (drop (Z.to_nat i) l)).
Proof. intros. unfold slice. zcase. done. Qed.

Lemma slice_Ret_inv l i j l' :
  slice l i j = Ret l' ->
  0 <= i <= j /\ j <= zlen l /\ l' = take (Z.to_nat (j - i)) (drop (Z.to_nat i) l).
Proof. unfold slice. zcase; naive_solver lia. Qed.

Lemma slice_from_in_range l i :
  0 <= i <= zlen l -> slice_from l i = Ret (drop (Z.to_nat i) l).
Proof.
  intros. unfold slice_from. rewrite slice_in_range by lia. f_equal.
  apply take_ge. rewrite length_drop. unfold zlen in *. lia.
Qed.

Lemma slice_to_in_range l j :
  0 <= j <= zlen l -> slice_to l j = Ret (take (Z.to_nat j) l).
Proof.
  intros. unfold slice_to. rewrite slice_in_range by lia.
  cbn. by rewrite Z.sub_0_r, drop_0.
Qed.

Lemma copy_slice_short (dst src : list A) :
  zlen src <= zlen dst -> copy_slice dst src = src ++ drop (length src) dst.
Proof. intros H. unfold copy_slice, zlen in *. by rewrite take_ge by lia. Qed.

Lemma zlen_copy_slice (dst src : list A) : zlen (copy_slice dst src) = zlen dst.
Proof.
  unfold copy_slice. rewrite zlen_app, zlen_take, zlen_drop. unfold zlen. lia.
Qed.
End zlen.

#[global] Hint Rewrite @zlen_nil @zlen_cons @zlen_app @zlen_insert @zlen_take @zlen_drop
  @zlen_replicate @zlen_copy_slice @zlen_reverse : zlen_db.
#[global] Hint Resolve zlen_nonneg : zlen_db.

(** Arithmetic on slice lengths. *)
Ltac zlia :=
  autorewrite with zlen_db in *; unfold zlen in *;
  rewrite ?length_app, ?length_replicate, ?length_insert, ?length_take, ?length_drop in *; lia.

(** ** Push iterators ([iter.Seq])

    An [iter.Seq[T]] calls a callback [yield] on each value and stops as soon
    as the callback returns [false].  The callback is a state transformer: its
    effects are the state [S].  [range_yield l] is the loop
    [for _, v := range l { if !yield(v) { return } }]; the returned boolean
    says whether the loop ran to its end. *)
Definition yield_fn (T S : Type) : Type := T -> S -> S * bool.

Fixpoint range_yield {T S} (l : list T) (yield : yield_fn T S) (s : S) : S * bool :=
  match l with
  | [] => (s, true)
  | v :: l' =>
      let '(s', continue) := yield v s in
      if continue then range_yield l' yield s' else (s', false)
  end.

Lemma range_yield_app {T S} (l k : list T) (yield : yield_fn T S) s :
  range_yield (l ++ k) yield s =
    let '(s', continue) := range_yield l yield s in
    if continue then range_yield k yield s' else (s', false).
Proof.
  revert s. induction l as [|v l IH]; intros s; cbn; [done|].
  destruct (yield v s) as [s' []]; [apply IH|done].
Qed.

(** Remove the wrap-around of additions whose result is in range. *)
Ltac int_range := unfold is_int, MinInt, MaxInt in *; lia.
Ltac int64_simpl :=
  repeat match goal with
  | |- context [int64 ?z] =>
      lazymatch z with
      | context [int64 _] => fail
      | _ => rewrite (int64_id z) by int_range
      end
  end.

(** ** Generic list lemmas *)
Section list_lemmas.
Context {A B : Type}.

Lemma omap_id_app (l k : list (option A)) : omap id (l ++ k) = omap id l ++ omap id k.
Proof. apply omap_app. Qed.

Lemma omap_id_replicate_None n : omap id (replicate n (@None A)) = [].
Proof. by induction n. Qed.

Lemma omap_id_nil (l : list (option A)) :
  (forall q y, l !! q = Some (Some y) -> False) -> omap id l = [].
Proof.
  induction l as [|[y|] l IH]; intros Hl; [done|destruct (Hl 0%nat y eq_refl)|].
  apply IH. intros q y. apply (Hl (S q) y).
Qed.

Lemma omap_id_split (l : list (option A)) p y :
  l !! p = Some y ->
  omap id l = omap id (take p l) ++ option_list y ++ omap id (drop (S p) l).
Proof.
  intros Hp. rewrite <- (take_drop_middle l p y Hp) at 1.
  rewrite omap_id_app. by destruct y.
Qed.

Lemma omap_id_insert (l : list (option A)) p x :
  (p < length l)%nat ->
  omap id (<[p := x]> l) = omap id (take p l) ++ option_list x ++ omap id (drop (S p) l).
Proof. intros Hp. rewrite insert_take_drop by done. rewrite omap_id_app. by destruct x. Qed.

(** [concat] of blocks of the same length is indexed by division. *)
Lemma concat_lookup_block (w : nat) (bs : list (list A)) (i o : nat) :
  Forall (fun b => length b = w) bs -> (o < w)%nat ->
  concat bs !! (w * i + o)%nat = (bs !! i) ≫= (fun b => b !! o).
Proof.
  intros Hall Ho. revert i. induction Hall as [|b bs Hb Hall IH]; intros i.
  - by rewrite lookup_nil.
  - destruct i as [|i]; cbn.
    + rewrite Nat.mul_0_r, lookup_app_l by lia. done.
    + rewrite lookup_app_r by lia.
      replace (w * S i + o - length b)%nat with (w * i + o)%nat by lia. apply IH.
Qed.

Lemma concat_length_block (w : nat) (bs : list (list A)) :
  Forall (fun b => length b = w) bs -> length (concat bs) = (w * length bs)%nat.
Proof. induction 1 as [|b bs Hb _ IH]; cbn; [lia|]. rewrite length_app. lia. Qed.

Lemma concat_insert_block (w : nat) (bs : list (list A)) (i o : nat) (b : list A) (x : A) :
  Forall (fun b => length b = w) bs -> (o < w)%nat -> bs !! i = Some b ->
  concat (<[i := <[o := x]> b]> bs) = <[(w * i + o)%nat := x]> (concat bs).
Proof.
  intros Hall Ho. revert i. induction Hall as [|b0 bs Hb Hall IH]; intros i Hi; [done|].
  destruct i as [|i]; cbn in *.
  - injection Hi as ->. rewrite Nat.mul_0_r, insert_app_l by lia. done.
  - rewrite IH by done. rewrite insert_app_r_alt by lia. do 2 f_equal. lia.
Qed.
End list_lemmas.

(** ** Packing two fields in one integer *)
Lemma land_shiftl_low a n b : 0 <= n -> 0 <= b < 2 ^ n -> Z.land (Z.shiftl a n) b = 0.
Proof.
  intros Hn Hb. apply Z.bits_inj'. intros k Hk. rewrite Z.land_spec, Z.testbit_0_l.
  destruct (Z.ltb_spec k n).
  - by rewrite Z.shiftl_spec_low.
  - destruct (decide (b = 0)) as [->|]; [by rewrite Z.testbit_0_l, andb_false_r|].
    rewrite (Z.bits_above_log2 b k); [apply andb_false_r|lia|].
    assert (Z.log2 b < n) by (apply Z.log2_lt_pow2; lia). lia.
Qed.

Lemma lor_shiftl_add a n b : 0 <= n -> 0 <= b < 2 ^ n -> Z.lor (Z.shiftl a n) b = a * 2 ^ n + b.
Proof.
  intros Hn Hb. pose proof (Z.add_lor_land (Z.shiftl a n) b) as E.
  rewrite land_shiftl_low in E by done. rewrite Z.shiftl_mul_pow2 in * by done. lia.
Qed.

(** ** Association lists: the specification of the insertion-ordered maps *)
Section assoc_lists.
Context {K V : Type} `{EqDecision K}.

Fixpoint al_lookup (k : K) (l : list (K * V)) : option V :=
  match l with
  | [] => None
  | (k', v) :: l' => if decide (k' = k) then Some v else al_lookup k l'
  end.
Definition al_replace (k : K) (v : V) (l : list (K * V)) : list (K * V) :=
  map (fun kv => if decide (kv.1 = k) then (k, v) else kv) l.
Definition al_delete (k : K) (l : list (K * V)) : list (K * V) :=
  filter (fun kv => kv.1 <> k) l.

Lemma al_lookup_Some (l : list (K * V)) k v :
  NoDup (l.*1) -> al_lookup k l = Some v <-> (k, v) ∈ l.
Proof.
  induction l as [|[k' w] l IH]; cbn; intros Hnd.
  - split; [done|]. by intros ?%not_elem_of_nil.
  - apply NoDup_cons in Hnd as [Hni Hnd]. rewrite elem_of_cons. case_decide as Hk.
    + subst k'. split; [intros [= ->]; by left|]. intros [[= ->]|Hin]; [done|].
      destruct Hni. apply list_elem_of_fmap. by exists (k, v).
    + rewrite IH by done. naive_solver.
Qed.

Lemma al_lookup_None (l : list (K * V)) k :
  NoDup (l.*1) -> al_lookup k l = None <-> forall v, (k, v) ∉ l.
Proof.
  intros Hnd. destruct (al_lookup k l) as [w|] eqn:E; split; try done.
  - intros Hno. apply al_lookup_Some in E; [|done]. destruct (Hno w E).
  - intros _ v Hv. apply (al_lookup_Some l k v Hnd) in Hv. congruence.
Qed.

Lemma al_replace_none l k v : k ∉ (l.*1) -> al_replace k v l = l.
Proof.
  induction l as [|[k' w] l IH]; cbn; [done|]. intros Hn.
  apply not_elem_of_cons in Hn as [Hk Hn]. case_decide; [congruence|]. f_equal. by apply IH.
Qed.

Lemma al_delete_none l k : k ∉ (l.*1) -> al_delete k l = l.
Proof.
  unfold al_delete. induction l as [|[k' w] l IH]; [done|]. intros Hn.
  rewrite fmap_cons in Hn. apply not_elem_of_cons in Hn as [Hk Hn]. rewrite filter_cons_True by (cbn in *; naive_solver).
  f_equal. by apply IH.
Qed.

Lemma al_replace_at l1 l2 k w v :
  k ∉ (l1.*1) -> k ∉ (l2.*1) -> al_replace k v (l1 ++ (k, w) :: l2) = l1 ++ (k, v) :: l2.
Proof.
  intros H1 H2. unfold al_replace. rewrite map_app. cbn. rewrite decide_True by done.
  fold (al_replace k v l1) (al_replace k v l2). by rewrite !al_replace_none.
Qed.

Lemma al_delete_at l1 l2 k w :
  k ∉ (l1.*1) -> k ∉ (l2.*1) -> al_delete k (l1 ++ (k, w) :: l2) = l1 ++ l2.
Proof.
  intros H1 H2. unfold al_delete. rewrite filter_app, filter_cons_False by (cbn; tauto).
  fold (al_delete k l1) (al_delete k l2). by rewrite !al_delete_none.
Qed.


(** Lookups after an update. *)
Lemma al_lookup_app l1 l2 (k : K) :
  al_lookup k (l1 ++ l2) = match al_lookup k l1 with Some v => Some v | None => al_lookup k l2 end
  :> option V.
Proof. induction l1 as [|[k' w] l1 IH]; cbn; [done|]. by case_decide. Qed.

Lemma al_lookup_replace l (k k' : K) (v : V) :
  al_lookup k' (al_replace k v l) =
    if decide (k = k') then match al_lookup k l with Some _ => Some v | None => None end
    else al_lookup k' l.
Proof.
  induction l as [|[k0 w] l IH]; cbn; [by case_decide|].
  destruct (decide (k0 = k)) as [->|]; cbn; repeat case_decide; try congruence; exact IH.
Qed.

Lemma al_lookup_delete l (k k' : K) :
  al_lookup k' (al_delete k l) = (if decide (k = k') then None else al_lookup k' l) :> option V.
Proof.
  unfold al_delete. induction l as [|[k0 w] l IH]; [by case_decide|].
  destruct (decide (k0 = k)) as [->|].
  - rewrite filter_cons_False by (cbn; tauto). rewrite IH. cbn. by repeat case_decide.
  - rewrite filter_cons_True by done. cbn [al_lookup]. rewrite IH.
    repeat case_decide; congruence.
Qed.

Lemma al_replace_keys l (k : K) (v : V) : (al_replace k v l).*1 = l.*1.
Proof.
  induction l as [|[k0 w] l IH]; [done|].
  change (al_replace k v ((k0, w) :: l)) with
    ((if decide (k0 = k) then (k, v) else (k0, w)) :: al_replace k v l).
  rewrite !fmap_cons, IH. by case_decide; subst.
Qed.
End assoc_lists.

(** A Go string is the sequence of its bytes; [str] is a string literal. *)
Abbreviation gostring := (list Z) (only parsing).

Definition str (s : String.string) : gostring :=
  map (fun c => Z.of_N (Ascii.N_of_ascii c)) (String.list_ascii_of_string s).
Arguments str _%_string.

Definition is_byte (b : Z) : Prop := 0 <= b < 256.
Definition is_gostring (s : gostring) : Prop := Forall is_byte s.

(** [cmp.Compare] on an ordered numeric type. *)
Definition cmp_Compare (x y : Z) : Z := if x <? y then -1 else if y <? x then 1 else 0.
