(* ===== verification/Deque.v ===== *)
(** * [base/collections/deque.go]: a growable ring buffer

    The state is the Go struct; every method is one definition.  The component
    is specified by the list of its elements ([contents]); [Inv] is the field
    invariant written in the source. *)
From S2P Require Import Prelude.

Section deque.
Context {T : Type} (zero : T).

(** [cap(values) = len(values)]: the buffer always comes from
    [make([]T, newCap)]. *)
Record Deque := MkDeque { values : list T; head : Z; len : Z }.

Definition cap (b : Deque) : Z := zlen (values b).

Definition NewDeque : Deque := MkDeque [] 0 0.
Definition Len (b : Deque) : Z := len b.
Definition IsEmpty (b : Deque) : bool := Len b =? 0.

(** [int] additions and multiplications, with their wrap-around. *)
Definition splitContiguous (b : Deque) : go (list T * list T) :=
  let firstLen := Z.min (len b) (int64 (cap b - head b)) in
  first ← slice (values b) (head b) (int64 (head b + firstLen));
  second ← slice_to (values b) (int64 (len b - firstLen));
  Ret (first, second).

Definition Iter {S} (b : Deque) (yield : yield_fn T S) (s : S) : go S :=
  '(first, second) ← splitContiguous b;
  let '(s1, continue) := range_yield first yield s in
  if continue then Ret (range_yield second yield s1).1 else Ret s1.

Definition dequeCapacityFor (wantCap oldCap : Z) : go Z :=
  _ ← Precondition (negb ((wantCap <=? oldCap) || (oldCap <? 0)));
  let newCap := Z.max wantCap 4 in
  Ret (if oldCap <=? MaxInt / 2 then Z.max newCap (int64 (2 * oldCap)) else newCap).

Definition reserveCapacity (b : Deque) (wantCap : Z) : go Deque :=
  _ ← Precondition (negb (wantCap <? len b));
  let oldCap := cap b in
  if wantCap <=? oldCap then Ret b else
  newCap ← dequeCapacityFor wantCap oldCap;
  newValues ← make_slice zero newCap;
  '(first, second) ← splitContiguous b;
  let newValues := copy_slice newValues first in
  tail ← slice_from newValues (zlen first);
  Ret (MkDeque (take (length first) newValues ++ copy_slice tail second) 0 (len b)).

Definition grow (b : Deque) : go Deque :=
  _ ← Precondition (len b =? cap b);
  reserveCapacity b (int64 (len b + 1)).

Definition ReserveMore (b : Deque) (n : Z) : go Deque :=
  _ ← Precondition (negb ((n <? 0) || (int64 (MaxInt - len b) <? n)));
  reserveCapacity b (int64 (len b + n)).

Definition physicalIndex (b : Deque) (offset : Z) : Z :=
  let tailLen := int64 (cap b - head b) in
  if offset <? tailLen then int64 (head b + offset) else int64 (offset - tailLen).
Definition nextBackIndex (b : Deque) : Z := physicalIndex b (len b).
Definition lastIndex (b : Deque) : Z := physicalIndex b (int64 (len b - 1)).

Definition PushFront (b : Deque) (value : T) : go Deque :=
  _ ← Precondition (negb (len b =? MaxInt));
  b ← (if len b =? cap b then grow b else Ret b);
  let head1 := int64 (head b - 1) in
  let head2 := if head1 <? 0 then int64 (cap b - 1) else head1 in
  values' ← store (values b) head2 value;
  Ret (MkDeque values' head2 (int64 (len b + 1))).

Definition PushBack (b : Deque) (value : T) : go Deque :=
  _ ← Precondition (negb (len b =? MaxInt));
  b ← (if len b =? cap b then grow b else Ret b);
  let idx := nextBackIndex b in
  values' ← store (values b) idx value;
  Ret (MkDeque values' (head b) (int64 (len b + 1))).

Definition PopFront (b : Deque) : go (T * Deque) :=
  _ ← Precondition (negb (len b =? 0));
  value ← index (values b) (head b);
  values' ← store (values b) (head b) zero;
  let len' := int64 (len b - 1) in
  if len' =? 0 then Ret (value, MkDeque values' 0 len') else
  let head' := int64 (head b + 1) in
  Ret (value, MkDeque values' (if head' =? zlen values' then 0 else head') len').

Definition TryPopFront (b : Deque) : go (option T * Deque) :=
  if len b =? 0 then Ret (None, b) else
  '(v, b') ← PopFront b;
  Ret (Some v, b').

Definition PopBack (b : Deque) : go (T * Deque) :=
  _ ← Precondition (negb (len b <=? 0));
  let idx := lastIndex b in
  value ← index (values b) idx;
  values' ← store (values b) idx zero;
  let len' := int64 (len b - 1) in
  Ret (value, MkDeque values' (if len' =? 0 then 0 else head b) len').

(** ** Specification *)

(** The logical element at offset [i] is stored at [(head+i) % cap]. *)
Definition contents (b : Deque) : list T :=
  take (Z.to_nat (len b))
    (drop (Z.to_nat (head b)) (values b) ++ take (Z.to_nat (head b)) (values b)).

Record Inv (b : Deque) : Prop := {
  inv_head : (cap b = 0 /\ head b = 0) \/ 0 <= head b < cap b;
  inv_len : 0 <= len b <= cap b;
  inv_cap : cap b <= MaxInt
}.

(** ** Where a logical offset lives *)

Definition phys (b : Deque) (i : nat) : nat :=
  if Z.of_nat i <? cap b - head b then Z.to_nat (head b) + i
  else i - Z.to_nat (cap b - head b).

Ltac inv_deque H :=
  destruct H as [?Hhead ?Hlen ?Hcap]; unfold cap in *;
  cbn [values head len] in *.

Lemma deque_contents_lookup b (i : nat) :
  Inv b ->
  contents b !! i = if Z.of_nat i <? len b then values b !! phys b i else None.
Proof.
  intros H. inv_deque H. unfold contents, phys, cap, zlen in *.
  destruct (Z.ltb_spec (Z.of_nat i) (len b)).
  - rewrite lookup_take_lt by lia. zcase.
    + rewrite lookup_app_l by (rewrite length_drop; lia). by rewrite lookup_drop.
    + rewrite lookup_app_r by (rewrite length_drop; lia).
      rewrite length_drop, lookup_take_lt by lia. f_equal. lia.
  - apply lookup_take_ge. lia.
Qed.

Lemma deque_contents_length b : Inv b -> zlen (contents b) = len b.
Proof.
  intros H. inv_deque H. unfold contents, zlen in *.
  rewrite length_take, length_app, length_drop, length_take. lia.
Qed.

Lemma deque_splitContiguous_spec b :
  Inv b ->
  exists first second, splitContiguous b = Ret (first, second) /\
    first ++ second = contents b.
Proof.
  intros H. inv_deque H. unfold splitContiguous, cap, contents, zlen in *.
  int64_simpl.
  rewrite slice_in_range by (unfold zlen; lia). rewrite bind_ret.
  rewrite slice_to_in_range by (unfold zlen; lia). rewrite bind_ret.
  do 2 eexists. split; [done|].
  rewrite take_app, length_drop, take_take. f_equal.
  - destruct (decide (len b <= Z.of_nat (length (values b)) - head b)).
    + f_equal. lia.
    + rewrite !take_ge; [done|rewrite length_drop; lia..].
  - f_equal. lia.
Qed.

Lemma deque_Inv_intro vs h n :
  (zlen vs = 0 /\ h = 0) \/ 0 <= h < zlen vs -> 0 <= n <= zlen vs -> zlen vs <= MaxInt ->
  Inv (MkDeque vs h n).
Proof. intros. split; unfold cap; cbn; lia. Qed.
Lemma deque_contents_at_front vs rest n :
  zlen vs = n -> contents (MkDeque (vs ++ rest) 0 n) = vs.
Proof.
  intros <-. unfold contents, zlen; cbn. rewrite drop_0, app_nil_r.
  rewrite take_app_le by lia. apply take_ge. lia.
Qed.

Lemma deque_capacity_spec wantCap oldCap :
  0 <= oldCap -> oldCap < wantCap <= MaxInt ->
  exists c, dequeCapacityFor wantCap oldCap = Ret c /\
    Z.max 4 wantCap <= c <= MaxInt /\ (oldCap <= MaxInt / 2 -> 2 * oldCap <= c).
Proof.
  intros H0 H1. unfold dequeCapacityFor.
  rewrite Precondition_true by zcase. rewrite bind_ret.
  eexists. split; [done|].
  change (MaxInt / 2) with 4611686018427387903.
  destruct (Z.leb_spec oldCap 4611686018427387903).
  - assert (2 * oldCap <= MaxInt) by (unfold MaxInt in *; lia).
    int64_simpl. int_range.
  - int_range.
Qed.

Lemma deque_copy_twice (n : nat) (first second : list T) :
  (length first + length second <= n)%nat ->
  let nv := copy_slice (replicate n zero) first in
  take (length first) nv ++ copy_slice (drop (length first) nv) second =
    (first ++ second) ++ replicate (n - length first - length second) zero.
Proof.
  intros Hn nv. unfold nv.
  rewrite (copy_slice_short (replicate n zero)) by zlia.
  rewrite take_app_length, drop_app_length, drop_replicate.
  rewrite copy_slice_short by zlia.
  by rewrite drop_replicate, <- app_assoc.
Qed.

Lemma deque_reserveCapacity_spec b wantCap :
  Inv b -> len b <= wantCap <= MaxInt ->
  exists b', reserveCapacity b wantCap = Ret b' /\ Inv b' /\
    contents b' = contents b /\ len b' = len b /\
    wantCap <= cap b' /\ (cap b < wantCap -> head b' = 0) /\
    (wantCap <= cap b -> b' = b).
Proof.
  intros HI Hw. unfold reserveCapacity.
  rewrite Precondition_true by zcase. rewrite bind_ret.
  destruct (Z.leb_spec wantCap (cap b)) as [Hle|Hgt].
  { exists b. repeat split; try done; try apply HI. lia. }
  destruct (deque_capacity_spec wantCap (cap b)) as (c & Ec & Hc & _).
  { unfold cap. zlia. } { lia. }
  rewrite Ec, bind_ret. unfold make_slice.
  destruct (Z.leb_spec 0 c) as [_|]; [|lia]. rewrite bind_ret.
  destruct (deque_splitContiguous_spec b HI) as (f & s & Es & Efs).
  rewrite Es, bind_ret.
  pose proof (deque_contents_length b HI) as Hl. rewrite <- Efs in Hl.
  pose proof (inv_len b HI) as Hlen.
  rewrite slice_from_in_range by zlia. rewrite bind_ret.
  replace (Z.to_nat (zlen f)) with (length f) by (unfold zlen; lia).
  rewrite deque_copy_twice by (unfold zlen in *; rewrite length_app in *; lia).
  eexists. split; [done|].
  assert (cap (MkDeque ((f ++ s) ++ replicate (Z.to_nat c - length f - length s) zero) 0 (len b)) = c) as Hcap'.
  { unfold cap, zlen in *; cbn. rewrite !length_app, length_replicate in *. lia. }
  repeat split.
  - rewrite Hcap'. cbn. lia.
  - cbn. lia.
  - rewrite Hcap'. cbn. lia.
  - lia.
  - rewrite deque_contents_at_front; [done|]. exact Hl.
  - lia.
  - lia.
Qed.

Lemma deque_grow_spec b :
  Inv b -> len b = cap b -> len b < MaxInt ->
  exists b', grow b = Ret b' /\ Inv b' /\ contents b' = contents b /\ len b' = len b /\
    len b < cap b' /\ head b' = 0.
Proof.
  intros HI Hf Hm. unfold grow.
  rewrite Precondition_true by zcase. rewrite bind_ret.
  pose proof (inv_len b HI). int64_simpl.
  destruct (deque_reserveCapacity_spec b (len b + 1)) as (b' & ? & ? & ? & ? & ? & Hh & _); [done|lia|].
  exists b'. repeat split; try done; try apply H1; [lia|]. apply Hh. lia.
Qed.

(** Room for one more value: the first step of both push operations. *)
Lemma deque_make_room b :
  Inv b -> len b < MaxInt ->
  exists b', (if len b =? cap b then grow b else Ret b) = Ret b' /\ Inv b' /\
    contents b' = contents b /\ len b' = len b /\ len b' < cap b'.
Proof.
  intros HI Hm. pose proof (inv_len b HI).
  destruct (Z.eqb_spec (len b) (cap b)).
  - destruct (deque_grow_spec b HI) as (b' & ? & ? & ? & ? & ? & ?); [done..|].
    exists b'. repeat split; try done; try apply H1. lia.
  - exists b. repeat split; try done; try apply HI. lia.
Qed.
(** ** Contents after an update *)

Lemma deque_contents_eq b (l : list T) :
  Inv b -> zlen l = len b ->
  (forall i : nat, Z.of_nat i < len b -> values b !! phys b i = l !! i) -> contents b = l.
Proof.
  intros HI Hl Hall. apply list_eq. intros i. rewrite deque_contents_lookup by done.
  destruct (Z.ltb_spec (Z.of_nat i) (len b)); [auto|].
  symmetry. apply lookup_ge_None. unfold zlen in Hl. lia.
Qed.

Lemma deque_contents_at b (i : nat) :
  Inv b -> Z.of_nat i < len b -> contents b !! i = values b !! phys b i.
Proof. intros. rewrite deque_contents_lookup by done. zcase. done. Qed.

Lemma deque_phys_range b (i : nat) :
  Inv b -> Z.of_nat i < cap b -> (phys b i < length (values b))%nat.
Proof. intros HI Hi. inv_deque HI. unfold phys, cap, zlen in *. zcase. Qed.

Lemma deque_phys_inj b (i j : nat) :
  Inv b -> Z.of_nat i < cap b -> Z.of_nat j < cap b -> phys b i = phys b j -> i = j.
Proof. intros HI Hi Hj. inv_deque HI. unfold phys, cap, zlen in *. zcase. Qed.

Lemma deque_phys_ext b b' (i : nat) :
  zlen (values b) = zlen (values b') -> head b = head b' -> phys b i = phys b' i.
Proof. intros Hl Hh. unfold phys, cap. by rewrite Hl, Hh. Qed.

Lemma deque_physicalIndex b offset :
  Inv b -> 0 <= offset < cap b ->
  physicalIndex b offset = Z.of_nat (phys b (Z.to_nat offset)).
Proof.
  intros HI Ho. inv_deque HI. unfold physicalIndex, phys, cap in *.
  assert (0 <= cap b - head b <= MaxInt) by (unfold cap; zlia). unfold cap in *.
  int64_simpl. rewrite Z2Nat.id by lia.
  destruct (Z.ltb_spec offset (zlen (values b) - head b)); int64_simpl; lia.
Qed.

Lemma deque_contents_push_back b v :
  Inv b -> len b < cap b ->
  contents (MkDeque (<[phys b (Z.to_nat (len b)) := v]> (values b)) (head b) (len b + 1)) =
    contents b ++ [v].
Proof.
  intros HI Hc. pose proof (inv_len b HI) as Hl.
  pose proof (deque_contents_length b HI) as Hlen.
  apply deque_contents_eq.
  { inv_deque HI. apply deque_Inv_intro; zlia. }
  { cbn. zlia. }
  intros i Hi. rewrite (deque_phys_ext _ b) by (done || apply zlen_insert).
  cbn [values head len] in *.
  destruct (decide (i = Z.to_nat (len b))) as [->|Hne].
  - rewrite list_lookup_insert_eq by (apply deque_phys_range; [done|lia]).
    rewrite lookup_app_r by zlia.
    replace (_ - _)%nat with 0%nat by zlia. done.
  - rewrite list_lookup_insert_ne.
    2:{ intros Heq. apply Hne, (deque_phys_inj b); [done|lia..|done]. }
    rewrite lookup_app_l by zlia. rewrite deque_contents_at by (done || lia). done.
Qed.

Definition prev_head (b : Deque) : Z := if head b - 1 <? 0 then cap b - 1 else head b - 1.

Lemma deque_contents_push_front b v :
  Inv b -> len b < cap b ->
  contents (MkDeque (<[Z.to_nat (prev_head b) := v]> (values b)) (prev_head b) (len b + 1)) =
    v :: contents b.
Proof.
  intros HI Hc. pose proof (deque_contents_length b HI) as Hlen.
  pose proof HI as HI'. inv_deque HI'. unfold prev_head, cap in *.
  apply deque_contents_eq.
  { apply deque_Inv_intro; zcase; zlia. }
  { cbn. zlia. }
  intros i Hi. cbn [values head len] in *.
  destruct i as [|i]; cbn.
  - rewrite <- (list_lookup_insert_eq (values b) (Z.to_nat (prev_head b)) v).
    2:{ unfold prev_head, cap, zlen in *. zcase. }
    f_equal. unfold phys, prev_head, cap; cbn. rewrite zlen_insert. zcase.
  - rewrite deque_contents_at by (done || lia).
    rewrite list_lookup_insert_ne.
    2:{ unfold phys, cap; cbn. rewrite zlen_insert. unfold zlen in *. zcase. }
    f_equal. unfold phys, cap; cbn. rewrite zlen_insert. unfold zlen in *. zcase.
Qed.
(** ** The operations refine those of a list *)

Lemma deque_push_back_spec b v :
  Inv b -> len b < MaxInt ->
  exists b', PushBack b v = Ret b' /\ Inv b' /\ contents b' = contents b ++ [v].
Proof.
  intros HI Hm. unfold PushBack. rewrite Precondition_true by zcase. rewrite bind_ret.
  destruct (deque_make_room b HI Hm) as (b1 & E1 & HI1 & Hc1 & Hl1 & Hr1).
  rewrite E1, bind_ret.
  pose proof (inv_len b1 HI1). pose proof (inv_cap b1 HI1).
  unfold nextBackIndex. rewrite deque_physicalIndex by (done || lia).
  pose proof (deque_phys_range b1 (Z.to_nat (len b1)) HI1 ltac:(lia)).
  rewrite store_in_range by zlia. rewrite bind_ret, Nat2Z.id. int64_simpl.
  eexists. split; [done|]. split.
  - inv_deque HI1. apply deque_Inv_intro; zlia.
  - rewrite deque_contents_push_back by done. by rewrite Hc1.
Qed.

Lemma deque_push_front_spec b v :
  Inv b -> len b < MaxInt ->
  exists b', PushFront b v = Ret b' /\ Inv b' /\ contents b' = v :: contents b.
Proof.
  intros HI Hm. unfold PushFront. rewrite Precondition_true by zcase. rewrite bind_ret.
  destruct (deque_make_room b HI Hm) as (b1 & E1 & HI1 & Hc1 & Hl1 & Hr1).
  rewrite E1, bind_ret.
  pose proof (inv_len b1 HI1). pose proof (inv_cap b1 HI1). pose proof (inv_head b1 HI1).
  int64_simpl.
  assert (0 <= prev_head b1 < cap b1) as Hp by (unfold prev_head; zcase).
  change (if head b1 - 1 <? 0 then cap b1 - 1 else head b1 - 1) with (prev_head b1).
  rewrite store_in_range by exact Hp. rewrite bind_ret.
  eexists. split; [done|]. split.
  - inv_deque HI1. apply deque_Inv_intro; zlia.
  - rewrite deque_contents_push_front by done. by rewrite Hc1.
Qed.

Lemma deque_pop_front_spec b v l :
  Inv b -> contents b = v :: l ->
  exists b', PopFront b = Ret (v, b') /\ Inv b' /\ contents b' = l /\ cap b' = cap b.
Proof.
  intros HI Hc. pose proof (deque_contents_length b HI) as Hl. rewrite Hc in Hl.
  pose proof (inv_len b HI). pose proof (inv_cap b HI). pose proof (inv_head b HI).
  autorewrite with zlen_db in Hl. pose proof (zlen_nonneg l).
  unfold PopFront. rewrite Precondition_true by zcase. rewrite bind_ret.
  assert (index (values b) (head b) = Ret v) as ->.
  { apply index_lookup. split; [lia|].
    assert (contents b !! 0%nat = Some v) as Hv by (by rewrite Hc).
    rewrite deque_contents_at in Hv by (done || lia).
    rewrite <- Hv. f_equal. unfold phys. zcase. }
  rewrite bind_ret, store_in_range by (unfold cap in *; lia). rewrite bind_ret. int64_simpl.
  rewrite zlen_insert. fold (cap b).
  set (vs := <[Z.to_nat (head b):=zero]> (values b)).
  assert (zlen vs = cap b) as Hvs by apply zlen_insert.
  destruct (Z.eqb_spec (len b - 1) 0) as [He|He].
  - eexists. split; [done|]. split; [apply deque_Inv_intro; unfold cap in *; lia|].
    split; [|unfold cap at 1; cbn; lia].
    rewrite He. rewrite (zlen_0 l) by lia. done.
  - set (h' := if head b + 1 =? cap b then 0 else head b + 1).
    assert (0 <= h' < cap b) by (unfold h'; zcase).
    eexists. split; [done|].
    assert (Inv (MkDeque vs h' (len b - 1))) by (apply deque_Inv_intro; lia).
    split; [done|]. split; [|exact Hvs].
    apply deque_contents_eq; [done|cbn; lia|]. cbn [len values]. intros i Hi.
    assert (contents b !! S i = l !! i) as <- by (by rewrite Hc).
    rewrite deque_contents_at by (done || lia).
    assert (phys (MkDeque vs h' (len b - 1)) i = phys b (S i)) as ->.
    { unfold phys, cap in *; cbn. rewrite Hvs. unfold h', cap in *. zcase. }
    apply list_lookup_insert_ne. unfold phys, cap in *. zcase.
Qed.

Lemma deque_pop_back_spec b v l :
  Inv b -> contents b = l ++ [v] ->
  exists b', PopBack b = Ret (v, b') /\ Inv b' /\ contents b' = l /\ cap b' = cap b.
Proof.
  intros HI Hc. pose proof (deque_contents_length b HI) as Hl. rewrite Hc in Hl.
  pose proof (inv_len b HI). pose proof (inv_cap b HI). pose proof (inv_head b HI).
  autorewrite with zlen_db in Hl. pose proof (zlen_nonneg l).
  unfold PopBack. rewrite Precondition_true by zcase. rewrite bind_ret.
  unfold lastIndex. int64_simpl. rewrite deque_physicalIndex by (done || lia).
  pose proof (deque_phys_range b (Z.to_nat (len b - 1)) HI ltac:(lia)) as Hr.
  set (k := phys b (Z.to_nat (len b - 1))) in *.
  assert (index (values b) (Z.of_nat k) = Ret v) as ->.
  { apply index_nat. unfold k. rewrite <- deque_contents_at by (done || lia).
    rewrite Hc, lookup_app_r by zlia. replace (_ - _)%nat with 0%nat by zlia. done. }
  rewrite bind_ret, store_in_range by zlia. rewrite bind_ret, Nat2Z.id.
  set (vs := <[k:=zero]> (values b)).
  assert (zlen vs = cap b) as Hvs by apply zlen_insert.
  set (h' := if len b - 1 =? 0 then 0 else head b).
  assert (0 <= h' < cap b) by (unfold h'; zcase).
  eexists. split; [done|].
  assert (Inv (MkDeque vs h' (len b - 1))) by (apply deque_Inv_intro; lia).
  split; [done|]. split; [|exact Hvs].
  apply deque_contents_eq; [done|cbn; lia|]. cbn [len values]. intros i Hi.
  assert (contents b !! i = l !! i) as <- by (rewrite Hc, lookup_app_l by zlia; done).
  rewrite deque_contents_at by (done || lia).
  assert (h' = head b) as Hh by (unfold h'; zcase).
  rewrite (deque_phys_ext _ b) by done.
  apply list_lookup_insert_ne. intros Hk.
  apply (deque_phys_inj b) in Hk; [lia|done|lia|lia].
Qed.

Lemma deque_reserve_more_spec b n :
  Inv b -> 0 <= n <= MaxInt - len b ->
  exists b', ReserveMore b n = Ret b' /\ Inv b' /\ contents b' = contents b /\
    len b + n <= cap b'.
Proof.
  intros HI Hn. pose proof (inv_len b HI). pose proof (inv_cap b HI).
  unfold ReserveMore. int64_simpl. rewrite Precondition_true by zcase. rewrite bind_ret.
  destruct (deque_reserveCapacity_spec b (len b + n) HI ltac:(lia)) as (b' & ? & ? & ? & ? & ? & _).
  eauto 6.
Qed.

Lemma deque_iter_spec {S} b (yield : yield_fn T S) s :
  Inv b -> Iter b yield s = Ret (range_yield (contents b) yield s).1.
Proof.
  intros HI. unfold Iter.
  destruct (deque_splitContiguous_spec b HI) as (f & sn & -> & <-). rewrite bind_ret.
  rewrite range_yield_app. by destruct (range_yield f yield s) as [s1 []].
Qed.
(** ** Traces of operations *)

Inductive op :=
  | OPushFront (v : T) | OPushBack (v : T) | OPopFront | OPopBack | OTryPopFront
  | OReserveMore (n : Z) | OLen | OIsEmpty | OIter.

Inductive obs := ObsNone | ObsValue (v : T) | ObsOption (v : option T)
  | ObsInt (z : Z) | ObsBool (x : bool) | ObsList (l : list T).

(** Collecting all the values an iterator yields. *)
Definition collect_yield : yield_fn T (list T) := fun v acc => (acc ++ [v], true).

Definition run_op (o : op) (b : Deque) : go (obs * Deque) :=
  match o with
  | OPushFront v => b' ← PushFront b v; Ret (ObsNone, b')
  | OPushBack v => b' ← PushBack b v; Ret (ObsNone, b')
  | OPopFront => '(v, b') ← PopFront b; Ret (ObsValue v, b')
  | OPopBack => '(v, b') ← PopBack b; Ret (ObsValue v, b')
  | OTryPopFront => '(v, b') ← TryPopFront b; Ret (ObsOption v, b')
  | OReserveMore n => b' ← ReserveMore b n; Ret (ObsNone, b')
  | OLen => Ret (ObsInt (Len b), b)
  | OIsEmpty => Ret (ObsBool (IsEmpty b), b)
  | OIter => l ← Iter b collect_yield []; Ret (ObsList l, b)
  end.

(** The same operations on the abstract state, a list: what the doc comments
    promise, contract violations included. *)
Definition spec_op (o : op) (l : list T) : go (obs * list T) :=
  match o with
  | OPushFront v => if zlen l =? MaxInt then Panic PreconditionViolation
                    else Ret (ObsNone, v :: l)
  | OPushBack v => if zlen l =? MaxInt then Panic PreconditionViolation
                   else Ret (ObsNone, l ++ [v])
  | OPopFront => match l with [] => Panic PreconditionViolation | v :: l' => Ret (ObsValue v, l') end
  | OPopBack => match last l with
                | None => Panic PreconditionViolation
                | Some v => Ret (ObsValue v, removelast l) end
  | OTryPopFront => match l with [] => Ret (ObsOption None, []) | v :: l' => Ret (ObsOption (Some v), l') end
  | OReserveMore n => if (n <? 0) || (MaxInt - zlen l <? n) then Panic PreconditionViolation
                      else Ret (ObsNone, l)
  | OLen => Ret (ObsInt (zlen l), l)
  | OIsEmpty => Ret (ObsBool (zlen l =? 0), l)
  | OIter => Ret (ObsList l, l)
  end.

Fixpoint run_ops (os : list op) (b : Deque) : go (list obs) :=
  match os with
  | [] => Ret []
  | o :: os' => '(r, b') ← run_op o b; rs ← run_ops os' b'; Ret (r :: rs)
  end.

Fixpoint spec_ops (os : list op) (l : list T) : go (list obs) :=
  match os with
  | [] => Ret []
  | o :: os' => '(r, l') ← spec_op o l; rs ← spec_ops os' l'; Ret (r :: rs)
  end.

Definition deque_simulates (m : go (obs * Deque)) (s : go (obs * list T)) : Prop :=
  match m, s with
  | Ret (r, b), Ret (r', l) => r = r' /\ Inv b /\ contents b = l
  | Panic k, Panic k' => k = k'
  | _, _ => False
  end.

Lemma deque_range_yield_collect (l acc : list T) :
  range_yield l collect_yield acc = (acc ++ l, true).
Proof.
  revert acc. induction l as [|v l IH]; intros acc; cbn.
  - by rewrite app_nil_r.
  - by rewrite IH, <- app_assoc.
Qed.

Lemma deque_len_contents b : Inv b -> len b = zlen (contents b).
Proof. intros. symmetry. by apply deque_contents_length. Qed.

Lemma deque_op_simulates o b : Inv b -> deque_simulates (run_op o b) (spec_op o (contents b)).
Proof.
  intros HI. pose proof (deque_len_contents b HI) as Hl.
  pose proof (inv_len b HI). pose proof (inv_cap b HI).
  destruct o; cbn [run_op spec_op].
  - rewrite <- Hl. destruct (Z.eqb_spec (len b) MaxInt) as [He|He].
    + unfold PushFront. rewrite He. done.
    + destruct (deque_push_front_spec b v HI ltac:(lia)) as (b' & -> & ? & ?). done.
  - rewrite <- Hl. destruct (Z.eqb_spec (len b) MaxInt) as [He|He].
    + unfold PushBack. rewrite He. done.
    + destruct (deque_push_back_spec b v HI ltac:(lia)) as (b' & -> & ? & ?). done.
  - destruct (contents b) as [|v l] eqn:Hc.
    + unfold PopFront. rewrite Hl. done.
    + destruct (deque_pop_front_spec b v l HI Hc) as (b' & -> & ? & ? & ?). done.
  - destruct (last (contents b)) as [v|] eqn:Hla.
    + apply last_Some in Hla as [l Hc].
      destruct (deque_pop_back_spec b v l HI Hc) as (b' & -> & ? & ? & ?).
      cbn. rewrite Hc, removelast_last. done.
    + apply last_None in Hla. unfold PopBack. rewrite Hl, Hla. done.
  - unfold TryPopFront. destruct (contents b) as [|v l] eqn:Hc.
    + rewrite Hl. done.
    + destruct (Z.eqb_spec (len b) 0) as [He|He]; [rewrite Hl in He; zlia|].
      destruct (deque_pop_front_spec b v l HI Hc) as (b' & -> & ? & ? & ?). done.
  - rewrite <- Hl. destruct ((n <? 0) || (MaxInt - len b <? n)) eqn:Hn.
    + unfold ReserveMore. int64_simpl. rewrite Hn. done.
    + apply orb_false_iff in Hn as [?%Z.ltb_ge ?%Z.ltb_ge].
      destruct (deque_reserve_more_spec b n HI ltac:(lia)) as (b' & -> & ? & ? & ?). done.
  - cbn. unfold Len. rewrite Hl. done.
  - cbn. unfold IsEmpty, Len. rewrite Hl. done.
  - rewrite deque_iter_spec, bind_ret by done. by rewrite deque_range_yield_collect.
Qed.

Lemma deque_ops_simulate os b : Inv b -> run_ops os b = spec_ops os (contents b).
Proof.
  revert b. induction os as [|o os IH]; intros b HI; [done|].
  cbn. pose proof (deque_op_simulates o b HI) as Hsim.
  destruct (run_op o b) as [[r b']| |], (spec_op o (contents b)) as [[r' l]| |];
    cbn in *; try done; [|by subst].
  destruct Hsim as (-> & HI' & <-). by rewrite IH.
Qed.

Lemma deque_Inv_NewDeque : Inv NewDeque.
Proof. apply deque_Inv_intro; unfold zlen; cbn; unfold MaxInt; lia. Qed.

(** C1: from a new deque, every sequence of operations (pushes and pops at both
    ends, reservations, length queries, iteration) makes exactly the
    observations of the same sequence on a plain list, and panics exactly when
    a documented precondition is violated: growing, wrapping around the end of
    the buffer and clearing slots are not observable. *)
Theorem deque_refines_list (os : list op) : run_ops os NewDeque = spec_ops os [].
Proof. rewrite (deque_ops_simulate os NewDeque deque_Inv_NewDeque). done. Qed.

(** Pushing [vs] one after the other. *)
Fixpoint push_all (vs : list T) (b : Deque) : go Deque :=
  match vs with [] => Ret b | v :: vs' => b' ← PushBack b v; push_all vs' b' end.

Lemma deque_push_back_cap b v :
  Inv b -> len b < cap b -> exists b', PushBack b v = Ret b' /\ Inv b' /\
    len b' = len b + 1 /\ cap b' = cap b.
Proof.
  intros HI Hc. pose proof (inv_len b HI). pose proof (inv_cap b HI).
  destruct (deque_push_back_spec b v HI ltac:(lia)) as (b' & E & HI' & Hcn).
  exists b'. repeat split; [done|apply HI'..| |].
  - rewrite !deque_len_contents, Hcn by done. zlia.
  - revert E. unfold PushBack. rewrite Precondition_true by zcase. rewrite bind_ret.
    destruct (Z.eqb_spec (len b) (cap b)) as [?|?]; [lia|]. rewrite bind_ret.
    intros Hs. go_inv Hs. injection Hs as <-. apply store_Ret_inv in Hrun as [_ ->].
    unfold cap; cbn. apply zlen_insert.
Qed.

Lemma deque_push_all_cap vs b :
  Inv b -> len b + zlen vs <= cap b -> exists b', push_all vs b = Ret b' /\ cap b' = cap b.
Proof.
  revert b. induction vs as [|v vs IH]; intros b HI Hcap; cbn; [eauto|].
  autorewrite with zlen_db in *. pose proof (zlen_nonneg vs).
  destruct (deque_push_back_cap b v HI ltac:(lia)) as (b' & -> & HI' & Hl' & Hc').
  rewrite bind_ret, <- Hc'. apply IH; [done|lia].
Qed.

(** the post-condition of [ReserveMore]: the elements keep their order and
    the next [n] values can be pushed without reallocating the backing array. *)
Theorem deque_reserve_more_no_realloc (b : Deque) (vs : list T) :
  Inv b -> zlen vs <= MaxInt - len b ->
  exists b1 b2, ReserveMore b (zlen vs) = Ret b1 /\ contents b1 = contents b /\
    push_all vs b1 = Ret b2 /\ cap b2 = cap b1.
Proof.
  intros HI Hn. pose proof (zlen_nonneg vs).
  destruct (deque_reserve_more_spec b (zlen vs) HI ltac:(lia)) as (b1 & E1 & HI1 & Hc1 & Hcap).
  assert (len b1 = len b) as Hl by (by rewrite !deque_len_contents, Hc1 by done).
  destruct (deque_push_all_cap vs b1 HI1 ltac:(lia)) as (b2 & ? & ?).
  eauto 10.
Qed.
End deque.
Arguments Deque T : clear implicits.

(** A full buffer of capacity 4 whose contents wrap around. *)
Definition wrapped_deque : Deque Z := MkDeque [3; 4; 1; 2] 2 4.

Lemma deque_reserve_more_no_realloc_witness :
  Inv wrapped_deque /\
  exists b1 b2, ReserveMore 0 wrapped_deque 3 = Ret b1 /\ contents b1 = [1; 2; 3; 4] /\
    push_all 0 [5; 6; 7] b1 = Ret b2 /\ cap b2 = cap b1.
Proof.
  assert (Inv wrapped_deque) as HI by (apply deque_Inv_intro; unfold zlen, MaxInt; cbn; lia).
  split; [exact HI|].
  apply (deque_reserve_more_no_realloc 0 wrapped_deque [5; 6; 7] HI). unfold zlen, MaxInt; cbn. lia.
Defined.
