(* ===== verification/Queue.v ===== *)
(** * The first-in first-out queue interface

    Code that only queues work uses [collections.Deque] through four methods.
    The class states what they promise in terms of the list of queued values;
    the Deque discharges it, and the clients (the cancellation tokens) are
    verified against the class alone. *)
From S2P Require Import Prelude Deque.

Class Queue (T : Type) := {
  queue : Type;
  queue_new : queue;
  queue_ReserveMore : queue -> Z -> go queue;
  queue_PushBack : queue -> T -> go queue;
  queue_TryPopFront : queue -> go (option T * queue);
  (** [holds q l]: the values of [q], front first, are [l]. *)
  holds : queue -> list T -> Prop;
  holds_new : holds queue_new [];
  holds_ReserveMore q l n :
    holds q l -> 0 <= n <= MaxInt - zlen l -> exists q', queue_ReserveMore q n = Ret q' /\ holds q' l;
  holds_PushBack q l v :
    holds q l -> zlen l < MaxInt -> exists q', queue_PushBack q v = Ret q' /\ holds q' (l ++ [v]);
  holds_TryPopFront q l :
    holds q l -> exists q', queue_TryPopFront q = Ret (hd_error l, q') /\ holds q' (tl l)
}.

#[export] Program Instance deque_queue {T} (zero : T) : Queue T := {|
  queue := Deque T;
  queue_new := NewDeque;
  queue_ReserveMore := ReserveMore zero;
  queue_PushBack := PushBack zero;
  queue_TryPopFront := TryPopFront zero;
  holds q l := Deque.Inv q /\ contents q = l
|}.
Next Obligation. split; [apply deque_Inv_NewDeque|done]. Qed.
Next Obligation.
  intros T zero q l n [HI <-] Hn. rewrite <- deque_len_contents in Hn by done.
  destruct (deque_reserve_more_spec zero q n HI Hn) as (q' & E & HI' & Hc & _). eauto.
Qed.
Next Obligation.
  intros T zero q l v [HI <-] Hn. rewrite <- deque_len_contents in Hn by done.
  destruct (deque_push_back_spec zero q v HI Hn) as (q' & E & HI' & Hc). eauto.
Qed.
Next Obligation.
  intros T zero q l [HI <-]. unfold TryPopFront. pose proof (deque_len_contents q HI) as Hl.
  destruct (contents q) as [|v l] eqn:Hc.
  - rewrite Hl. exists q. cbn. done.
  - rewrite zlen_cons in Hl. pose proof (zlen_nonneg l). rewrite (proj2 (Z.eqb_neq _ _)) by lia.
    destruct (deque_pop_front_spec zero q v l HI Hc) as (q' & -> & HI' & Hc' & _).
    exists q'. cbn. done.
Qed.

(** Pushing a list of values, in order. *)
Fixpoint push_values {T} `{Queue T} (vs : list T) (q : queue) : go queue :=
  match vs with [] => Ret q | v :: vs' => q' ← queue_PushBack q v; push_values vs' q' end.

Lemma holds_push_values {T} `{Queue T} vs q l :
  holds q l -> zlen l + zlen vs <= MaxInt -> exists q', push_values vs q = Ret q' /\ holds q' (l ++ vs).
Proof.
  revert q l. induction vs as [|v vs IH]; intros q l Hq Hn.
  - exists q. by rewrite app_nil_r.
  - rewrite zlen_cons in Hn. pose proof (zlen_nonneg vs).
    destruct (holds_PushBack q l v Hq) as (q1 & E & Hq1); [lia|]. cbn [push_values]. rewrite E, bind_ret.
    destruct (IH q1 (l ++ [v]) Hq1) as (q' & E' & Hq'); [zlia|].
    exists q'. split; [done|]. by rewrite <- app_assoc in Hq'.
Qed.
