(* ===== verification/BitVec.v ===== *)
(** * [base/collections/bit_vec.go]: a fixed-length vector of bits

    Bits are packed in 64-bit words.  The words are [Z] values in [0, 2^64);
    the operations use the masks and shifts of the source.  The component is
    specified by the bits it stores ([bit_at]). *)
From S2P Require Import Prelude.

Record BitVec := MkBitVec { blocks : list Z; len : Z }.

(** [bits.LeadingZeros64] and [bits.TrailingZeros64] of [math/bits]. *)
Definition LeadingZeros64 (x : Z) : Z := if x =? 0 then 64 else 63 - Z.log2 x.

Fixpoint pos_trailing_zeros (p : positive) : Z :=
  match p with xO q => 1 + pos_trailing_zeros q | _ => 0 end.
Definition TrailingZeros64 (x : Z) : Z :=
  match x with Zpos p => pos_trailing_zeros p | _ => 64 end.

Definition blocksForBits (n : Z) : Z :=
  let blocks := Z.shiftr n 6 in
  if negb (Z.land n 63 =? 0) then blocks + 1 else blocks.
Definition blockIndex (i : Z) : Z := Z.shiftr i 6.
Definition bitMask (i : Z) : Z := uint_wrap 64 (Z.shiftl 1 (Z.land i 63)).
Definition lowBitsMask (n : Z) : Z := uint_wrap 64 (uint_wrap 64 (Z.shiftl 1 n) - 1).

Definition NewBitVec (n : Z) : go BitVec :=
  _ ← Precondition (negb (n <? 0));
  blocks ← make_slice 0 (blocksForBits n);
  Ret (MkBitVec blocks n).

Definition Len (b : BitVec) : Z := len b.

Definition checkIndex (b : BitVec) (i : Z) : go unit :=
  Precondition (negb ((i <? 0) || (len b <=? i))).

Definition Get (b : BitVec) (i : Z) : go bool :=
  _ ← checkIndex b i;
  w ← index (blocks b) (blockIndex i);
  Ret (negb (Z.land w (bitMask i) =? 0)).

Definition Set_ (b : BitVec) (i : Z) : go BitVec :=
  _ ← checkIndex b i;
  w ← index (blocks b) (blockIndex i);
  blocks' ← store (blocks b) (blockIndex i) (Z.lor w (bitMask i));
  Ret (MkBitVec blocks' (len b)).

Definition Clear (b : BitVec) (i : Z) : go BitVec :=
  _ ← checkIndex b i;
  w ← index (blocks b) (blockIndex i);
  blocks' ← store (blocks b) (blockIndex i) (Z.ldiff w (bitMask i));
  Ret (MkBitVec blocks' (len b)).

(** [for oi := startBlock; 0 <= oi; oi--]: [n] is [oi + 1]. *)
Fixpoint findBefore_loop (b : BitVec) (i startBlock : Z) (n : nat) : go (option Z) :=
  match n with
  | O => Ret None
  | S n' =>
      let oi := Z.of_nat n' in
      blockBits ← index (blocks b) oi;
      let blockBits :=
        if oi =? startBlock then Z.land blockBits (lowBitsMask (Z.land i 63 + 1)) else blockBits in
      if negb (blockBits =? 0) then Ret (Some (oi * 64 + 63 - LeadingZeros64 blockBits))
      else findBefore_loop b i startBlock n'
  end.

Definition FindAtOrBefore (b : BitVec) (i : Z) : go (option Z) :=
  _ ← checkIndex b i;
  let startBlock := blockIndex i in
  findBefore_loop b i startBlock (Z.to_nat (startBlock + 1)).

(** [for oi := startBlock; oi < len(b.blocks); oi++]: [n] is [len(b.blocks) - oi]. *)
Fixpoint findAfter_loop (b : BitVec) (i startBlock : Z) (n : nat) : go (option Z) :=
  match n with
  | O => Ret None
  | S n' =>
      let oi := zlen (blocks b) - Z.of_nat n in
      blockBits ← index (blocks b) oi;
      let blockBits :=
        if oi =? startBlock then Z.ldiff blockBits (lowBitsMask (Z.land i 63)) else blockBits in
      if negb (blockBits =? 0) then
        let idx := oi * 64 + TrailingZeros64 blockBits in
        _ ← Invariant (negb (len b <=? idx));
        Ret (Some idx)
      else findAfter_loop b i startBlock n'
  end.

Definition FindAtOrAfter (b : BitVec) (i : Z) : go (option Z) :=
  _ ← checkIndex b i;
  let startBlock := blockIndex i in
  findAfter_loop b i startBlock (Z.to_nat (zlen (blocks b) - startBlock)).

(** ** Specification *)

(** Bit [i] is bit [i & 63] of [blocks[i >> 6]]. *)
Definition bit_at (b : BitVec) (i : Z) : bool :=
  match blocks b !! Z.to_nat (i / 64) with
  | Some w => Z.testbit w (i mod 64)
  | None => false
  end.

Record Inv (b : BitVec) : Prop := {
  inv_len : 0 <= len b;
  inv_blocks : zlen (blocks b) = blocksForBits (len b);
  inv_words : Forall (fun w => 0 <= w < 2 ^ 64) (blocks b);
  inv_unused : forall i, len b <= i -> bit_at b i = false
}.

(** ** Words *)

Lemma land_63 i : Z.land i 63 = i mod 64.
Proof. change 63 with (Z.ones 6). by rewrite Z.land_ones. Qed.

Lemma shiftr_6 i : Z.shiftr i 6 = i / 64.
Proof. by rewrite Z.shiftr_div_pow2. Qed.

Lemma blocksForBits_spec n : 0 <= n -> blocksForBits n = (n + 63) / 64.
Proof.
  intros Hn. unfold blocksForBits. rewrite shiftr_6, land_63.
  destruct (Z.eqb_spec (n mod 64) 0); cbn [negb]; Z.to_euclidean_division_equations; lia.
Qed.

Lemma bitMask_spec i : bitMask i = 2 ^ (i mod 64).
Proof.
  unfold bitMask. rewrite land_63, Z.shiftl_1_l. apply uint_wrap_id.
  assert (0 <= i mod 64 < 64) by (apply Z.mod_pos_bound; lia).
  split; [apply Z.pow_nonneg; lia|apply Z.pow_lt_mono_r; lia].
Qed.

Lemma lowBitsMask_spec n : 0 <= n <= 64 -> lowBitsMask n = Z.ones n.
Proof.
  intros Hn. unfold lowBitsMask. rewrite Z.shiftl_1_l, Z.ones_equiv.
  destruct (decide (n = 64)) as [->|]; [done|].
  assert (0 < 2 ^ n < 2 ^ 64) by (split; [apply Z.pow_pos_nonneg|apply Z.pow_lt_mono_r]; lia).
  unfold Z.pred. rewrite !uint_wrap_id; try rewrite uint_wrap_id; lia.
Qed.

Lemma testbit_mask i k : 0 <= k -> Z.testbit (2 ^ (i mod 64)) k = (k =? i mod 64).
Proof.
  intros Hk. assert (0 <= i mod 64 < 64) by (apply Z.mod_pos_bound; lia).
  rewrite Z.pow2_bits_eqb by lia. apply Z.eqb_sym.
Qed.

Lemma testbit_low n k : 0 <= n -> 0 <= k -> Z.testbit (Z.ones n) k = (k <? n).
Proof.
  intros. destruct (Z.ltb_spec k n).
  - by apply Z.ones_spec_low.
  - by apply Z.ones_spec_high.
Qed.

Lemma word_high_bits w k : 0 <= w < 2 ^ 64 -> 64 <= k -> Z.testbit w k = false.
Proof.
  intros Hw Hk. destruct (decide (w = 0)) as [->|]; [apply Z.testbit_0_l|].
  apply Z.bits_above_log2; [lia|].
  assert (Z.log2 w < 64) by (apply Z.log2_lt_pow2; lia). lia.
Qed.

Lemma word_of_bits w : 0 <= w -> (forall k, 64 <= k -> Z.testbit w k = false) -> w < 2 ^ 64.
Proof.
  intros Hw Hk. destruct (decide (w = 0)) as [->|]; [lia|].
  apply Z.log2_lt_pow2; [lia|].
  destruct (decide (Z.log2 w < 64)); [done|].
  pose proof (Z.bit_log2 w ltac:(lia)) as Hb. rewrite Hk in Hb; [done|lia].
Qed.

Lemma leading_zeros_spec w :
  0 < w < 2 ^ 64 ->
  let k := 63 - LeadingZeros64 w in
  0 <= k < 64 /\ Z.testbit w k = true /\ (forall j, k < j -> Z.testbit w j = false).
Proof.
  intros Hw k. unfold k, LeadingZeros64. destruct (Z.eqb_spec w 0); [lia|].
  replace (63 - (63 - Z.log2 w)) with (Z.log2 w) by lia.
  assert (Z.log2 w < 64) by (apply Z.log2_lt_pow2; lia).
  split; [pose proof (Z.log2_nonneg w); lia|]. split.
  - apply Z.bit_log2; lia.
  - intros. apply Z.bits_above_log2; lia.
Qed.

Lemma pos_trailing_zeros_spec p :
  0 <= pos_trailing_zeros p /\ Z.testbit (Zpos p) (pos_trailing_zeros p) = true /\
  (forall j, 0 <= j < pos_trailing_zeros p -> Z.testbit (Zpos p) j = false).
Proof.
  induction p as [p _|p (H0 & H1 & H2)|]; cbn [pos_trailing_zeros].
  - split; [lia|]. split; [done|lia].
  - split; [lia|].
    replace (Z.pos p~0) with (2 * Z.pos p) by done. split.
    + rewrite Z.add_comm, Z.add_1_r, Z.double_bits_succ. done.
    + intros j Hj. destruct (decide (j = 0)) as [->|]; [apply Z.testbit_even_0|].
      replace j with (Z.succ (j - 1)) by lia. rewrite Z.double_bits_succ. apply H2. lia.
  - split; [lia|]. split; [done|lia].
Qed.

Lemma trailing_zeros_spec w :
  0 < w < 2 ^ 64 ->
  let k := TrailingZeros64 w in
  0 <= k < 64 /\ Z.testbit w k = true /\ (forall j, 0 <= j < k -> Z.testbit w j = false).
Proof.
  intros Hw. destruct w as [|p|p]; try lia. cbn [TrailingZeros64].
  destruct (pos_trailing_zeros_spec p) as (H0 & H1 & H2).
  split; [|done]. split; [done|].
  destruct (decide (pos_trailing_zeros p < 64)); [done|].
  rewrite word_high_bits in H1; [done|lia|lia].
Qed.

(** ** Reading and updating *)

Lemma bitvec_block_range b i : Inv b -> 0 <= i < len b -> 0 <= i / 64 < zlen (blocks b).
Proof.
  intros HI Hi. rewrite (inv_blocks b HI), blocksForBits_spec by lia.
  Z.to_euclidean_division_equations; lia.
Qed.

Lemma bitvec_word_at b k w : Inv b -> blocks b !! k = Some w -> 0 <= w < 2 ^ 64.
Proof. intros HI Hw. exact (proj1 (Forall_lookup _ _) (inv_words b HI) k w Hw). Qed.

Lemma bitvec_lookup_word b i :
  Inv b -> 0 <= i < len b ->
  exists w, index (blocks b) (blockIndex i) = Ret w /\ blocks b !! Z.to_nat (i / 64) = Some w /\
    0 <= w < 2 ^ 64 /\ bit_at b i = Z.testbit w (i mod 64).
Proof.
  intros HI Hi. unfold blockIndex, bit_at. rewrite shiftr_6.
  destruct (index_in_range (blocks b) (i / 64)) as [w Hw]; [by apply bitvec_block_range|].
  exists w. pose proof Hw as [_ Hl]%index_lookup. rewrite Hl.
  split; [done|]. split; [done|]. split; [|done].
  exact (bitvec_word_at b _ w HI Hl).
Qed.

Lemma bitvec_checkIndex b i : 0 <= i < len b -> checkIndex b i = Ret tt.
Proof. intros. unfold checkIndex. apply Precondition_true. by zcase. Qed.

Lemma bitvec_checkIndex_fail b i : ~ (0 <= i < len b) -> checkIndex b i = Panic PreconditionViolation.
Proof. intros. unfold checkIndex. zcase; done. Qed.

Lemma land_mask_nonzero w i : 0 <= w -> negb (Z.land w (2 ^ (i mod 64)) =? 0) = Z.testbit w (i mod 64).
Proof.
  intros Hw. assert (0 <= i mod 64 < 64) by (apply Z.mod_pos_bound; lia).
  destruct (Z.testbit w (i mod 64)) eqn:Hb.
  - apply negb_true_iff, Z.eqb_neq. intros H0.
    apply (f_equal (fun z => Z.testbit z (i mod 64))) in H0.
    rewrite Z.land_spec, Hb, testbit_mask, Z.testbit_0_l, Z.eqb_refl in H0 by lia. done.
  - apply negb_false_iff, Z.eqb_eq, Z.bits_inj'. intros k Hk.
    rewrite Z.land_spec, testbit_mask, Z.testbit_0_l by lia.
    destruct (Z.eqb_spec k (i mod 64)) as [->|]; [by rewrite Hb|apply andb_false_r].
Qed.

Lemma bitvec_get_spec b i : Inv b -> 0 <= i < len b -> Get b i = Ret (bit_at b i).
Proof.
  intros HI Hi. unfold Get. rewrite bitvec_checkIndex by done.
  destruct (bitvec_lookup_word b i HI Hi) as (w & -> & _ & Hw & ->).
  rewrite !bind_ret, bitMask_spec, land_mask_nonzero by lia. done.
Qed.

(** Replacing the word of bit [i] by one that differs at most in that bit. *)
Lemma bitvec_update_word b i w w' x :
  Inv b -> 0 <= i < len b -> blocks b !! Z.to_nat (i / 64) = Some w -> 0 <= w' ->
  (forall k, 0 <= k -> Z.testbit w' k = if k =? i mod 64 then x else Z.testbit w k) ->
  let b' := MkBitVec (<[Z.to_nat (i / 64) := w']> (blocks b)) (len b) in
  Inv b' /\ forall j, 0 <= j -> bit_at b' j = if j =? i then x else bit_at b j.
Proof.
  intros HI Hi Hw Hw0 Hbits b'.
  pose proof (bitvec_word_at b _ w HI Hw) as Hwr.
  assert (0 <= i mod 64 < 64) by (apply Z.mod_pos_bound; lia).
  assert (Hat : forall j, 0 <= j -> bit_at b' j = if j =? i then x else bit_at b j).
  { intros j Hj. unfold bit_at, b'; cbn [blocks].
    assert (0 <= j / 64) by (apply Z.div_pos; lia).
    assert (0 <= j mod 64 < 64) by (apply Z.mod_pos_bound; lia).
    pose proof (Z.div_mod j 64 ltac:(lia)) as Ej. pose proof (Z.div_mod i 64 ltac:(lia)) as Ei.
    destruct (decide (j / 64 = i / 64)) as [Hd|Hd].
    - rewrite Hd, list_lookup_insert_eq, Hw by (by eapply lookup_lt_Some).
      rewrite Hbits by lia. zcase; done.
    - assert (0 <= i / 64) by (apply Z.div_pos; lia).
      rewrite list_lookup_insert_ne by lia. destruct (Z.eqb_spec j i); [congruence|done]. }
  split; [|done]. split.
  - apply (inv_len b HI).
  - cbn. rewrite zlen_insert. apply (inv_blocks b HI).
  - apply Forall_insert; [apply (inv_words b HI)|]. split; [done|].
    apply word_of_bits; [done|]. intros k Hk. rewrite Hbits by lia.
    destruct (Z.eqb_spec k (i mod 64)); [lia|]. by apply word_high_bits.
  - intros j Hj. cbn in Hj. rewrite Hat by lia.
    destruct (Z.eqb_spec j i); [lia|]. by apply (inv_unused b HI).
Qed.

Lemma bitvec_set_spec b i :
  Inv b -> 0 <= i < len b ->
  exists b', Set_ b i = Ret b' /\ Inv b' /\ len b' = len b /\
    forall j, 0 <= j -> bit_at b' j = if j =? i then true else bit_at b j.
Proof.
  intros HI Hi. unfold Set_. rewrite bitvec_checkIndex by done.
  destruct (bitvec_lookup_word b i HI Hi) as (w & Ew & Hw & Hwr & _).
  rewrite bind_ret, Ew, bind_ret. unfold blockIndex. rewrite shiftr_6, bitMask_spec.
  rewrite store_in_range by (by apply bitvec_block_range). rewrite bind_ret.
  eexists. split; [done|].
  destruct (bitvec_update_word b i w (Z.lor w (2 ^ (i mod 64))) true) as [? ?]; try done.
  - apply Z.lor_nonneg. split; [lia|apply Z.pow_nonneg; lia].
  - intros k Hk. rewrite Z.lor_spec, testbit_mask by done.
    destruct (k =? i mod 64); [apply orb_true_r|apply orb_false_r].
Qed.

Lemma bitvec_clear_spec b i :
  Inv b -> 0 <= i < len b ->
  exists b', Clear b i = Ret b' /\ Inv b' /\ len b' = len b /\
    forall j, 0 <= j -> bit_at b' j = if j =? i then false else bit_at b j.
Proof.
  intros HI Hi. unfold Clear. rewrite bitvec_checkIndex by done.
  destruct (bitvec_lookup_word b i HI Hi) as (w & Ew & Hw & Hwr & _).
  rewrite bind_ret, Ew, bind_ret. unfold blockIndex. rewrite shiftr_6, bitMask_spec.
  rewrite store_in_range by (by apply bitvec_block_range). rewrite bind_ret.
  eexists. split; [done|].
  destruct (bitvec_update_word b i w (Z.ldiff w (2 ^ (i mod 64))) false) as [? ?]; try done.
  - apply Z.ldiff_nonneg. left. lia.
  - intros k Hk. rewrite Z.ldiff_spec, testbit_mask by done.
    destruct (k =? i mod 64); [apply andb_false_r|apply andb_true_r].
Qed.

Lemma bitvec_new_spec n :
  0 <= n -> exists b, NewBitVec n = Ret b /\ Inv b /\ len b = n /\ forall i, bit_at b i = false.
Proof.
  intros Hn. unfold NewBitVec. rewrite Precondition_true by zcase. rewrite bind_ret.
  assert (0 <= blocksForBits n) by (rewrite blocksForBits_spec by lia; apply Z.div_pos; lia).
  unfold make_slice. destruct (Z.leb_spec 0 (blocksForBits n)); [|lia]. rewrite bind_ret.
  eexists. split; [done|].
  assert (Hz : forall i, bit_at (MkBitVec (replicate (Z.to_nat (blocksForBits n)) 0) n) i = false).
  { intros i. unfold bit_at; cbn. destruct (_ !! _) eqn:E; [|done].
    apply lookup_replicate in E as [-> _]. apply Z.testbit_0_l. }
  split; [|done]. split; cbn; [lia| | |auto].
  - rewrite zlen_replicate. lia.
  - apply Forall_replicate. lia.
Qed.

(** ** Searching *)

(** Block [k] holds bits [64 k, 64 k + 64). *)
Lemma bitvec_bit_in_block b k w j :
  Inv b -> blocks b !! k = Some w -> 0 <= j < 64 ->
  bit_at b (Z.of_nat k * 64 + j) = Z.testbit w j.
Proof.
  intros HI Hw Hj. unfold bit_at.
  replace ((Z.of_nat k * 64 + j) / 64) with (Z.of_nat k) by (Z.to_euclidean_division_equations; lia).
  replace ((Z.of_nat k * 64 + j) mod 64) with j by (Z.to_euclidean_division_equations; lia).
  by rewrite Nat2Z.id, Hw.
Qed.

Lemma masked_word_range w m :
  0 <= w < 2 ^ 64 -> 0 <= Z.land w m < 2 ^ 64.
Proof.
  intros Hw. assert (0 <= Z.land w m) by (apply Z.land_nonneg; lia).
  split; [done|]. apply word_of_bits; [done|].
  intros k Hk. rewrite Z.land_spec, word_high_bits by done. done.
Qed.

Lemma masked_word_range_ldiff w m :
  0 <= w < 2 ^ 64 -> 0 <= Z.ldiff w m < 2 ^ 64.
Proof.
  intros Hw. assert (0 <= Z.ldiff w m) by (apply Z.ldiff_nonneg; lia).
  split; [done|]. apply word_of_bits; [done|].
  intros k Hk. rewrite Z.ldiff_spec, word_high_bits by done. done.
Qed.

(** [j] is the greatest set bit of [b] at or before [i]. *)
Definition is_last_at_or_before (b : BitVec) (i : Z) (r : option Z) : Prop :=
  match r with
  | Some j => 0 <= j <= i /\ bit_at b j = true /\ forall k, j < k <= i -> bit_at b k = false
  | None => forall k, 0 <= k <= i -> bit_at b k = false
  end.

(** [j] is the least set bit of [b] at or after [i]. *)
Definition is_first_at_or_after (b : BitVec) (i : Z) (r : option Z) : Prop :=
  match r with
  | Some j => i <= j < len b /\ bit_at b j = true /\ forall k, i <= k < j -> bit_at b k = false
  | None => forall k, i <= k < len b -> bit_at b k = false
  end.

(** The part of block [oi] the backward search looks at. *)
Lemma bitvec_before_word b i oi w :
  Inv b -> 0 <= i < len b -> blocks b !! oi = Some w -> Z.of_nat oi <= i / 64 ->
  let w' := if Z.of_nat oi =? i / 64 then Z.land w (lowBitsMask (i mod 64 + 1)) else w in
  0 <= w' < 2 ^ 64 /\
  forall j, 0 <= j < 64 ->
    Z.testbit w' j = (Z.of_nat oi * 64 + j <=? i) && bit_at b (Z.of_nat oi * 64 + j).
Proof.
  intros HI Hi Hw Hoi w'. pose proof (bitvec_word_at b _ w HI Hw) as Hr.
  assert (0 <= i mod 64 < 64) by (apply Z.mod_pos_bound; lia).
  pose proof (Z.div_mod i 64 ltac:(lia)) as Ei. unfold w'.
  destruct (Z.eqb_spec (Z.of_nat oi) (i / 64)) as [He|He].
  - split; [by apply masked_word_range|]. intros j Hj.
    rewrite (bitvec_bit_in_block b oi w j) by done.
    rewrite Z.land_spec, lowBitsMask_spec, testbit_low by lia.
    rewrite andb_comm. f_equal. by zcase.
  - split; [done|]. intros j Hj. rewrite (bitvec_bit_in_block b oi w j) by done.
    by zcase.
Qed.

Lemma bitvec_before_loop_spec b i n :
  Inv b -> 0 <= i < len b -> Z.of_nat n <= i / 64 + 1 ->
  (forall k, Z.of_nat n * 64 <= k <= i -> bit_at b k = false) ->
  exists r, findBefore_loop b i (i / 64) n = Ret r /\ is_last_at_or_before b i r.
Proof.
  intros HI Hi. induction n as [|oi IH]; intros Hn Hclear; cbn [findBefore_loop].
  { exists None. split; [done|]. intros k Hk. apply Hclear. lia. }
  destruct (lookup_lt_is_Some_2 (blocks b) oi) as [w Hw].
  { pose proof (bitvec_block_range b i HI Hi). unfold zlen in *. lia. }
  rewrite (index_nat _ _ w Hw), bind_ret, land_63.
  destruct (bitvec_before_word b i oi w HI Hi Hw ltac:(lia)) as [Hr Hbits].
  set (w' := if _ =? _ then _ else _) in *.
  destruct (Z.eqb_spec w' 0) as [H0|H0]; cbn [negb].
  - apply IH; [lia|]. intros k Hk.
    destruct (decide (Z.of_nat (S oi) * 64 <= k)); [apply Hclear; lia|].
    specialize (Hbits (k - Z.of_nat oi * 64) ltac:(lia)). rewrite H0, Z.testbit_0_l in Hbits.
    replace (Z.of_nat oi * 64 + (k - Z.of_nat oi * 64)) with k in Hbits by lia.
    destruct (Z.leb_spec k i); [done|lia].
  - destruct (leading_zeros_spec w' ltac:(lia)) as (Hk & Hset & Habove).
    set (k := 63 - LeadingZeros64 w') in *.
    eexists. split; [done|].
    replace (Z.of_nat oi * 64 + 63 - LeadingZeros64 w') with (Z.of_nat oi * 64 + k) by lia.
    rewrite Hbits in Hset by done. apply andb_true_iff in Hset as [Hle%Z.leb_le Hset].
    split; [lia|]. split; [done|]. intros j Hj.
    destruct (decide (Z.of_nat (S oi) * 64 <= j)); [apply Hclear; lia|].
    specialize (Hbits (j - Z.of_nat oi * 64) ltac:(lia)).
    rewrite Habove in Hbits by lia.
    replace (Z.of_nat oi * 64 + (j - Z.of_nat oi * 64)) with j in Hbits by lia.
    destruct (Z.leb_spec j i); [done|lia].
Qed.

Lemma bitvec_find_before_spec b i :
  Inv b -> 0 <= i < len b ->
  exists r, FindAtOrBefore b i = Ret r /\ is_last_at_or_before b i r.
Proof.
  intros HI Hi. unfold FindAtOrBefore. rewrite bitvec_checkIndex by done.
  rewrite bind_ret. unfold blockIndex. rewrite shiftr_6.
  assert (0 <= i / 64) by (apply Z.div_pos; lia).
  apply bitvec_before_loop_spec; [done..|lia|].
  intros k Hk. Z.to_euclidean_division_equations; lia.
Qed.

(** The part of block [oi] the forward search looks at. *)
Lemma bitvec_after_word b i oi w :
  Inv b -> 0 <= i < len b -> blocks b !! oi = Some w -> i / 64 <= Z.of_nat oi ->
  let w' := if Z.of_nat oi =? i / 64 then Z.ldiff w (lowBitsMask (i mod 64)) else w in
  0 <= w' < 2 ^ 64 /\
  forall j, 0 <= j < 64 ->
    Z.testbit w' j = (i <=? Z.of_nat oi * 64 + j) && bit_at b (Z.of_nat oi * 64 + j).
Proof.
  intros HI Hi Hw Hoi w'. pose proof (bitvec_word_at b _ w HI Hw) as Hr.
  assert (0 <= i mod 64 < 64) by (apply Z.mod_pos_bound; lia).
  pose proof (Z.div_mod i 64 ltac:(lia)) as Ei. unfold w'.
  destruct (Z.eqb_spec (Z.of_nat oi) (i / 64)) as [He|He].
  - split; [by apply masked_word_range_ldiff|]. intros j Hj.
    rewrite (bitvec_bit_in_block b oi w j) by done.
    rewrite Z.ldiff_spec, lowBitsMask_spec, testbit_low by lia.
    rewrite andb_comm. f_equal. by zcase.
  - split; [done|]. intros j Hj. rewrite (bitvec_bit_in_block b oi w j) by done.
    by zcase.
Qed.

Lemma bitvec_after_loop_spec b i n :
  Inv b -> 0 <= i < len b -> i / 64 <= zlen (blocks b) - Z.of_nat n ->
  (forall k, i <= k < (zlen (blocks b) - Z.of_nat n) * 64 -> bit_at b k = false) ->
  exists r, findAfter_loop b i (i / 64) n = Ret r /\ is_first_at_or_after b i r.
Proof.
  intros HI Hi. induction n as [|n IH]; intros Hn Hclear; cbn [findAfter_loop].
  { exists None. split; [done|]. intros k Hk. apply Hclear.
    rewrite (inv_blocks b HI), blocksForBits_spec by lia.
    Z.to_euclidean_division_equations; lia. }
  assert (0 <= i / 64) by (apply Z.div_pos; lia).
  remember (Z.to_nat (zlen (blocks b) - Z.of_nat (S n))) as oi eqn:Eoi.
  assert (zlen (blocks b) - Z.of_nat (S n) = Z.of_nat oi) as Eo by lia.
  rewrite Eo in Hn, Hclear |- *.
  destruct (lookup_lt_is_Some_2 (blocks b) oi) as [w Hw]; [unfold zlen in *; lia|].
  rewrite (index_nat _ _ w Hw), bind_ret, land_63.
  destruct (bitvec_after_word b i oi w HI Hi Hw ltac:(lia)) as [Hr Hbits].
  set (w' := if _ =? _ then _ else _) in *.
  destruct (Z.eqb_spec w' 0) as [H0|H0]; cbn [negb].
  - apply IH; [lia|]. intros k Hk.
    destruct (decide (k < Z.of_nat oi * 64)); [apply Hclear; lia|].
    specialize (Hbits (k - Z.of_nat oi * 64) ltac:(lia)). rewrite H0, Z.testbit_0_l in Hbits.
    replace (Z.of_nat oi * 64 + (k - Z.of_nat oi * 64)) with k in Hbits by lia.
    destruct (Z.leb_spec i k); [done|lia].
  - destruct (trailing_zeros_spec w' ltac:(lia)) as (Hk & Hset & Hbelow).
    set (k := TrailingZeros64 w') in *.
    rewrite Hbits in Hset by done. apply andb_true_iff in Hset as [Hle%Z.leb_le Hset].
    assert (Z.of_nat oi * 64 + k < len b).
    { destruct (decide (Z.of_nat oi * 64 + k < len b)); [done|].
      rewrite (inv_unused b HI) in Hset; [done|lia]. }
    rewrite Invariant_true by zcase. rewrite bind_ret.
    eexists. split; [done|]. split; [lia|]. split; [done|]. intros j Hj.
    destruct (decide (j < Z.of_nat oi * 64)); [apply Hclear; lia|].
    specialize (Hbits (j - Z.of_nat oi * 64) ltac:(lia)).
    rewrite Hbelow in Hbits by lia.
    replace (Z.of_nat oi * 64 + (j - Z.of_nat oi * 64)) with j in Hbits by lia.
    destruct (Z.leb_spec i j); [done|lia].
Qed.

Lemma bitvec_find_after_spec b i :
  Inv b -> 0 <= i < len b ->
  exists r, FindAtOrAfter b i = Ret r /\ is_first_at_or_after b i r.
Proof.
  intros HI Hi. unfold FindAtOrAfter. rewrite bitvec_checkIndex by done.
  rewrite bind_ret. unfold blockIndex. rewrite shiftr_6.
  pose proof (bitvec_block_range b i HI Hi).
  apply bitvec_after_loop_spec; [done..|lia|].
  intros k Hk. Z.to_euclidean_division_equations; lia.
Qed.

(** ** Refinement: a bit vector is a set of indices *)

Inductive op := OSet (i : Z) | OClear (i : Z) | OGet (i : Z) | OLen
  | OFindBefore (i : Z) | OFindAfter (i : Z).
Inductive obs := ObsNone | ObsBool (x : bool) | ObsInt (z : Z) | ObsOption (r : option Z).

Definition run_op (o : op) (b : BitVec) : go (obs * BitVec) :=
  match o with
  | OSet i => b' ← Set_ b i; Ret (ObsNone, b')
  | OClear i => b' ← Clear b i; Ret (ObsNone, b')
  | OGet i => x ← Get b i; Ret (ObsBool x, b)
  | OLen => Ret (ObsInt (Len b), b)
  | OFindBefore i => r ← FindAtOrBefore b i; Ret (ObsOption r, b)
  | OFindAfter i => r ← FindAtOrAfter b i; Ret (ObsOption r, b)
  end.

Fixpoint run_ops (os : list op) (b : BitVec) : go (list obs) :=
  match os with
  | [] => Ret []
  | o :: os' => '(r, b') ← run_op o b; rs ← run_ops os' b'; Ret (r :: rs)
  end.

(** The greatest element below [n], and the least of [i], ..., [i + n - 1]. *)
Fixpoint greatest_below (s : gset Z) (n : nat) : option Z :=
  match n with
  | O => None
  | S n' => if decide (Z.of_nat n' ∈ s) then Some (Z.of_nat n') else greatest_below s n'
  end.
Fixpoint least_from (s : gset Z) (i : Z) (n : nat) : option Z :=
  match n with
  | O => None
  | S n' => if decide (i ∈ s) then Some i else least_from s (i + 1) n'
  end.

(** The set-level operations on a set of indices below [n]. *)
Definition spec_op (n : Z) (o : op) (s : gset Z) : go (obs * gset Z) :=
  let guarded i (r : obs * gset Z) :=
    if (i <? 0) || (n <=? i) then Panic PreconditionViolation else Ret r in
  match o with
  | OSet i => guarded i (ObsNone, {[i]} ∪ s)
  | OClear i => guarded i (ObsNone, s ∖ {[i]})
  | OGet i => guarded i (ObsBool (bool_decide (i ∈ s)), s)
  | OLen => Ret (ObsInt n, s)
  | OFindBefore i => guarded i (ObsOption (greatest_below s (Z.to_nat (i + 1))), s)
  | OFindAfter i => guarded i (ObsOption (least_from s i (Z.to_nat (n - i))), s)
  end.

Fixpoint spec_ops (n : Z) (os : list op) (s : gset Z) : go (list obs) :=
  match os with
  | [] => Ret []
  | o :: os' => '(r, s') ← spec_op n o s; rs ← spec_ops n os' s'; Ret (r :: rs)
  end.

(** [b] represents the set [s] of indices below [n]. *)
Definition represents (n : Z) (b : BitVec) (s : gset Z) : Prop :=
  Inv b /\ len b = n /\ forall i, 0 <= i < n -> bit_at b i = bool_decide (i ∈ s).

Lemma greatest_below_spec n b s i :
  represents n b s -> 0 <= i < n -> is_last_at_or_before b i (greatest_below s (Z.to_nat (i + 1))).
Proof.
  intros (HI & Hn & Hs) Hi. remember (Z.to_nat (i + 1)) as m eqn:Em.
  assert (Hgen : forall m', (m' <= m)%nat -> (forall k, Z.of_nat m' <= k <= i -> bit_at b k = false) ->
    is_last_at_or_before b i (greatest_below s m')).
  { induction m' as [|m' IH]; intros Hle Hc; cbn.
    - intros k Hk. apply Hc. lia.
    - pose proof (Hs (Z.of_nat m') ltac:(lia)) as Hb. case_decide as Hin.
      + rewrite bool_decide_true in Hb by done.
        split; [lia|]. split; [done|]. intros k Hk. apply Hc. lia.
      + rewrite bool_decide_false in Hb by done. apply IH; [lia|].
        intros k Hk. destruct (decide (k = Z.of_nat m')) as [->|]; [done|]. apply Hc. lia. }
  apply Hgen; [lia|]. lia.
Qed.

Lemma least_from_spec n b s i :
  represents n b s -> 0 <= i < n -> is_first_at_or_after b i (least_from s i (Z.to_nat (n - i))).
Proof.
  intros (HI & Hn & Hs) Hi.
  assert (Hgen : forall m j, i <= j -> j + Z.of_nat m = n -> (forall k, i <= k < j -> bit_at b k = false) ->
    is_first_at_or_after b i (least_from s j m)).
  { induction m as [|m IH]; intros j Hij Hj Hc; cbn.
    - intros k Hk. apply Hc. lia.
    - pose proof (Hs j ltac:(lia)) as Hb. case_decide as Hin.
      + rewrite bool_decide_true in Hb by done. split; [lia|]. done.
      + rewrite bool_decide_false in Hb by done. apply IH; [lia..|].
        intros k Hk. destruct (decide (k = j)) as [->|]; [done|]. apply Hc. lia. }
  apply Hgen; [lia|lia|]. lia.
Qed.

Lemma is_last_unique b i r r' :
  is_last_at_or_before b i r -> is_last_at_or_before b i r' -> r = r'.
Proof.
  intros H H'. destruct r as [j|], r' as [j'|]; [|..|done].
  - destruct H as (? & Hj & H), H' as (? & Hj' & H').
    destruct (decide (j < j')); [rewrite H in Hj'; [done|lia]|].
    destruct (decide (j' < j)); [rewrite H' in Hj; [done|lia]|]. f_equal. lia.
  - destruct H as (? & Hj & _). rewrite H' in Hj; [done|lia].
  - destruct H' as (? & Hj & _). rewrite H in Hj; [done|lia].
Qed.

Lemma is_first_unique b i r r' :
  is_first_at_or_after b i r -> is_first_at_or_after b i r' -> r = r'.
Proof.
  intros H H'. destruct r as [j|], r' as [j'|]; [|..|done].
  - destruct H as (? & Hj & H), H' as (? & Hj' & H').
    destruct (decide (j' < j)); [rewrite H in Hj'; [done|lia]|].
    destruct (decide (j < j')); [rewrite H' in Hj; [done|lia]|]. f_equal. lia.
  - destruct H as (? & Hj & _). rewrite H' in Hj; [done|lia].
  - destruct H' as (? & Hj & _). rewrite H in Hj; [done|lia].
Qed.

Definition bitvec_simulates (n : Z) (m : go (obs * BitVec)) (s : go (obs * gset Z)) : Prop :=
  match m, s with
  | Ret (r, b), Ret (r', l) => r = r' /\ represents n b l
  | Panic k, Panic k' => k = k'
  | _, _ => False
  end.

(** Out-of-range indices panic in every indexed operation. *)
Lemma bitvec_op_out_of_range o b i :
  ~ (0 <= i < len b) ->
  o = OSet i \/ o = OClear i \/ o = OGet i \/ o = OFindBefore i \/ o = OFindAfter i ->
  run_op o b = Panic PreconditionViolation.
Proof.
  intros Hi Ho. pose proof (bitvec_checkIndex_fail b i Hi) as Hc.
  destruct Ho as [Ho|[Ho|[Ho|[Ho|Ho]]]]; subst o; cbn;
    unfold Set_, Clear, Get, FindAtOrBefore, FindAtOrAfter; by rewrite Hc.
Qed.

Lemma bitvec_op_simulates n o b s :
  represents n b s -> bitvec_simulates n (run_op o b) (spec_op n o s).
Proof.
  intros HR. pose proof HR as (HI & Hn & Hs).
  assert (Hout : forall i (r : obs * gset Z) (m : go (obs * BitVec)),
    (~ (0 <= i < len b) -> m = Panic PreconditionViolation) ->
    (0 <= i < len b -> bitvec_simulates n m (Ret r)) ->
    bitvec_simulates n m (if (i <? 0) || (n <=? i) then Panic PreconditionViolation else Ret r)).
  { intros i r m Hno Hyes. zcase; try (rewrite Hno by lia; done). apply Hyes. lia. }
  destruct o as [i|i|i| |i|i]; cbn [spec_op]; try (apply Hout;
    [intros; eapply bitvec_op_out_of_range; eauto 7|intros Hi]); cbn [run_op].
  - destruct (bitvec_set_spec b i HI Hi) as (b' & -> & HI' & Hl' & Hb').
    rewrite bind_ret. split; [done|]. split; [done|]. split; [lia|].
    intros j Hj. rewrite Hb' by lia. destruct (Z.eqb_spec j i) as [->|].
    + rewrite bool_decide_true; [done|set_solver].
    + rewrite Hs by lia. apply bool_decide_ext. set_solver.
  - destruct (bitvec_clear_spec b i HI Hi) as (b' & -> & HI' & Hl' & Hb').
    rewrite bind_ret. split; [done|]. split; [done|]. split; [lia|].
    intros j Hj. rewrite Hb' by lia. destruct (Z.eqb_spec j i) as [->|].
    + rewrite bool_decide_false; [done|set_solver].
    + rewrite Hs by lia. apply bool_decide_ext. set_solver.
  - rewrite bitvec_get_spec, bind_ret, Hs by (done || lia). done.
  - cbn. unfold Len. by rewrite Hn.
  - destruct (bitvec_find_before_spec b i HI Hi) as (r & -> & Hr). rewrite bind_ret.
    split; [|done]. f_equal. eapply is_last_unique; [done|].
    apply (greatest_below_spec n); [done|lia].
  - destruct (bitvec_find_after_spec b i HI Hi) as (r & -> & Hr). rewrite bind_ret.
    split; [|done]. f_equal. eapply is_first_unique; [done|].
    apply (least_from_spec n); [done|lia].
Qed.

Lemma bitvec_ops_simulate n os b s : represents n b s -> run_ops os b = spec_ops n os s.
Proof.
  revert b s. induction os as [|o os IH]; intros b s HR; [done|]. cbn.
  pose proof (bitvec_op_simulates n o b s HR) as Hsim.
  destruct (run_op o b) as [[r b']| |], (spec_op n o s) as [[r' s']| |];
    cbn in *; try done; [|by subst].
  destruct Hsim as (-> & HR'). by rewrite (IH b' s').
Qed.

(** C4: a bit vector of [n] bits is a mutable set of indices in [0, n): every
    sequence of [Set], [Clear], [Get], [Len], [FindAtOrBefore] and
    [FindAtOrAfter] makes the observations of the set, the two searches return
    the greatest element at or before, and the least element at or after, the
    given index; out-of-range indices (and only those) panic. *)
Theorem bitvec_refines_set (n : Z) (os : list op) :
  (b ← NewBitVec n; run_ops os b) =
    if n <? 0 then Panic PreconditionViolation else spec_ops n os ∅.
Proof.
  destruct (Z.ltb_spec n 0) as [Hn|Hn].
  - unfold NewBitVec. destruct (Z.ltb_spec n 0); [done|lia].
  - destruct (bitvec_new_spec n Hn) as (b & -> & HI & Hl & Hz). rewrite bind_ret.
    apply bitvec_ops_simulate. split; [done|]. split; [done|].
    intros i Hi. rewrite Hz. symmetry. apply bool_decide_false. set_solver.
Qed.
