(* ===== verification/OrderedMap.v ===== *)
(** * [base/collections/ordered_map.go]: a map that remembers insertion order

    Entries live in chunks of four slots with a presence bitmap; deletion
    leaves tombstones and the map compacts itself.  The specification is an
    association list in insertion order ([entries]). *)
From S2P Require Import Prelude.

Section ordered_map.
Context {K V : Type} `{Countable K} (zeroK : K) (zeroV : V).

Record orderedMapChunk := MkChunk { keys : list K; values : list V; present : Z }.

(** A nil [positions] map is [None]. *)
Record OrderedMap := MkOrderedMap {
  chunks : list orderedMapChunk;
  positions : option (gmap K Z);
  nextOffset : Z
}.

Definition orderedMapChunkSize : Z := 4.
Definition orderedMapMaxEntries : Z := 2 ^ 48.
Definition orderedMapMaxChunks : Z := orderedMapMaxEntries / orderedMapChunkSize.

Definition NewOrderedMap : OrderedMap := MkOrderedMap [] None 0.

(** Reads of a nil map behave as reads of an empty one. *)
Definition positions_of (m : OrderedMap) : gmap K Z := default ∅ (positions m).

Definition newPosition (chunk offset : Z) : go Z :=
  _ ← Invariant (negb ((chunk <? 0) || (orderedMapMaxChunks <=? chunk) ||
                       (offset <? 0) || (orderedMapChunkSize <=? offset)));
  Ret (Z.lor (Z.shiftl chunk 2) offset).

Definition split (pos : Z) : Z * Z := (Z.shiftr pos 2, Z.land pos (orderedMapChunkSize - 1)).

Definition orderedMapBit (offset : Z) : Z := uint_wrap 8 (Z.shiftl 1 offset).

Definition Lookup (m : OrderedMap) (key : K) : go (option V) :=
  match positions_of m !! key with
  | None => Ret None
  | Some pos =>
      let '(chunkIndex, offset) := split pos in
      c ← index (chunks m) chunkIndex;
      v ← index (values c) offset;
      Ret (Some v)
  end.

Definition Len (m : OrderedMap) : Z := Z.of_nat (size (positions_of m)).

(** [for _, chunk := range m.chunks { for offset := range 4 { if absent
    { continue }; body } }]; the boolean of [body] is [false] to return. *)
Fixpoint for_offsets {S} (c : orderedMapChunk) (offsets : list Z)
    (body : orderedMapChunk -> Z -> S -> go (S * bool)) (s : S) : go (S * bool) :=
  match offsets with
  | [] => Ret (s, true)
  | offset :: rest =>
      if Z.land (present c) (orderedMapBit offset) =? 0 then for_offsets c rest body s else
      '(s', continue) ← body c offset s;
      if (continue : bool) then for_offsets c rest body s' else Ret (s', false)
  end.

Fixpoint for_present {S} (cs : list orderedMapChunk)
    (body : orderedMapChunk -> Z -> S -> go (S * bool)) (s : S) : go (S * bool) :=
  match cs with
  | [] => Ret (s, true)
  | c :: cs' =>
      '(s', continue) ← for_offsets c [0; 1; 2; 3] body s;
      if (continue : bool) then for_present cs' body s' else Ret (s', false)
  end.

Definition Keys {S} (m : OrderedMap) (yield : yield_fn K S) (s : S) : go S :=
  '(s', _) ← for_present (chunks m)
    (fun c offset s => k ← index (keys c) offset; Ret (yield k s)) s;
  Ret s'.

Definition zeroChunk : orderedMapChunk := MkChunk (replicate 4 zeroK) (replicate 4 zeroV) 0.

Definition insertNew (m : OrderedMap) (key : K) (value : V) : go OrderedMap :=
  let positions1 := positions_of m in
  let '(chunks1, offset) :=
    if (zlen (chunks m) =? 0) || (nextOffset m =? orderedMapChunkSize)
    then (chunks m ++ [zeroChunk], 0) else (chunks m, nextOffset m) in
  let chunkIndex := zlen chunks1 - 1 in
  c ← index chunks1 chunkIndex;
  keys' ← store (keys c) offset key;
  values' ← store (values c) offset value;
  chunks2 ← store chunks1 chunkIndex (MkChunk keys' values' (Z.lor (present c) (orderedMapBit offset)));
  pos ← newPosition chunkIndex offset;
  Ret (MkOrderedMap chunks2 (Some (<[key := pos]> positions1)) (offset + 1)).

Definition usedSlots (m : OrderedMap) : Z :=
  if zlen (chunks m) =? 0 then 0
  else (zlen (chunks m) - 1) * orderedMapChunkSize + nextOffset m.

Definition compactIfNeeded (m : OrderedMap) : go OrderedMap :=
  let used := usedSlots m in
  if (used =? 0) || (used <? 4 * Len m) then Ret m else
  '(compacted, _) ← for_present (chunks m)
    (fun c offset acc =>
       k ← index (keys c) offset; v ← index (values c) offset;
       acc' ← insertNew acc k v; Ret (acc', true))
    NewOrderedMap;
  Ret compacted.

(** The returned boolean is [op.InsertResult]: [true] is [InsertedNew]. *)
Definition InsertOrKeep (m : OrderedMap) (key : K) (value : V) : go (OrderedMap * bool) :=
  match positions_of m !! key with
  | Some _ => Ret (m, false)
  | None => m' ← insertNew m key value; Ret (m', true)
  end.

Definition InsertOrReplace (m : OrderedMap) (key : K) (value : V) : go (OrderedMap * option V) :=
  match positions_of m !! key with
  | None => m' ← insertNew m key value; Ret (m', None)
  | Some pos =>
      let '(chunkIndex, offset) := split pos in
      c ← index (chunks m) chunkIndex;
      old ← index (values c) offset;
      values' ← store (values c) offset value;
      chunks' ← store (chunks m) chunkIndex (MkChunk (keys c) values' (present c));
      Ret (MkOrderedMap chunks' (positions m) (nextOffset m), Some old)
  end.

Definition Delete (m : OrderedMap) (key : K) : go (OrderedMap * option V) :=
  match positions_of m !! key with
  | None => Ret (m, None)
  | Some pos =>
      let '(chunkIndex, offset) := split pos in
      c ← index (chunks m) chunkIndex;
      old ← index (values c) offset;
      let positions' := delete key (positions_of m) in
      keys' ← store (keys c) offset zeroK;
      values' ← store (values c) offset zeroV;
      chunks' ← store (chunks m) chunkIndex
        (MkChunk keys' values' (Z.ldiff (present c) (orderedMapBit offset)));
      m' ← compactIfNeeded (MkOrderedMap chunks' (Some positions') (nextOffset m));
      Ret (m', Some old)
  end.

(** ** Specification *)

(** The four slots of a chunk, absent ones as [None]. *)
Definition chunk_slot (c : orderedMapChunk) (o : nat) : option (K * V) :=
  if Z.testbit (present c) (Z.of_nat o) then
    match keys c !! o, values c !! o with Some k, Some v => Some (k, v) | _, _ => None end
  else None.
Definition chunk_slots (c : orderedMapChunk) : list (option (K * V)) :=
  map (chunk_slot c) (seq 0 4).
Definition slots (m : OrderedMap) : list (option (K * V)) := concat (map chunk_slots (chunks m)).

(** Live entries, in insertion order. *)
Definition entries (m : OrderedMap) : list (K * V) := omap id (slots m).

Definition chunk_ok (c : orderedMapChunk) : Prop :=
  length (keys c) = 4%nat /\ length (values c) = 4%nat /\ 0 <= present c < 16.

Record Inv0 (m : OrderedMap) : Prop := {
  inv_chunks : Forall chunk_ok (chunks m);
  inv_offset : if zlen (chunks m) =? 0 then nextOffset m = 0 else 1 <= nextOffset m <= 4;
  (* a packed position is the index of the slot *)
  inv_positions : forall k p, positions_of m !! k = Some p <->
    0 <= p /\ exists v, slots m !! Z.to_nat p = Some (Some (k, v));
  inv_unused : forall p x, slots m !! p = Some (Some x) -> Z.of_nat p < usedSlots m
}.

(** The space invariant: the used slots are fewer than four times the entries. *)
Definition Inv (m : OrderedMap) : Prop :=
  Inv0 m /\ (usedSlots m = 0 \/ usedSlots m < 4 * Len m).

(** ** Chunks *)

Lemma chunk_offset_cases o : 0 <= o < 4 -> o = 0 \/ o = 1 \/ o = 2 \/ o = 3.
Proof. lia. Qed.

Lemma orderedMapBit_spec o : 0 <= o < 4 -> orderedMapBit o = 2 ^ o.
Proof. intros Ho. destruct (chunk_offset_cases o Ho) as [H1|[H1|[H1|H1]]]; by subst o. Qed.

Lemma small_word_range x : 0 <= x -> (forall k, 4 <= k -> Z.testbit x k = false) -> x < 16.
Proof.
  intros Hx Hk. destruct (decide (x = 0)) as [->|]; [lia|].
  change 16 with (2 ^ 4). apply Z.log2_lt_pow2; [lia|].
  destruct (decide (Z.log2 x < 4)); [done|].
  pose proof (Z.bit_log2 x ltac:(lia)) as Hb. rewrite Hk in Hb; [done|lia].
Qed.

Lemma small_word_high x k : 0 <= x < 16 -> 4 <= k -> Z.testbit x k = false.
Proof.
  intros Hx Hk. destruct (decide (x = 0)) as [->|]; [apply Z.testbit_0_l|].
  apply Z.bits_above_log2; [lia|].
  assert (Z.log2 x < 4) by (apply Z.log2_lt_pow2; lia). lia.
Qed.

Lemma present_set x o :
  0 <= x < 16 -> 0 <= o < 4 ->
  0 <= Z.lor x (orderedMapBit o) < 16 /\
  forall j, 0 <= j -> Z.testbit (Z.lor x (orderedMapBit o)) j = (o =? j) || Z.testbit x j.
Proof.
  intros Hx Ho. rewrite orderedMapBit_spec by done.
  assert (Hb : forall j, 0 <= j -> Z.testbit (Z.lor x (2 ^ o)) j = (o =? j) || Z.testbit x j).
  { intros j Hj. rewrite Z.lor_spec, Z.pow2_bits_eqb by lia. apply orb_comm. }
  split; [|done].
  assert (0 <= Z.lor x (2 ^ o)) by (apply Z.lor_nonneg; split; [lia|apply Z.pow_nonneg; lia]).
  split; [done|]. apply small_word_range; [done|]. intros k Hk.
  rewrite Hb by lia. rewrite small_word_high by lia.
  destruct (Z.eqb_spec o k); [lia|done].
Qed.

Lemma present_clear x o :
  0 <= x < 16 -> 0 <= o < 4 ->
  0 <= Z.ldiff x (orderedMapBit o) < 16 /\
  forall j, 0 <= j -> Z.testbit (Z.ldiff x (orderedMapBit o)) j = negb (o =? j) && Z.testbit x j.
Proof.
  intros Hx Ho. rewrite orderedMapBit_spec by done.
  assert (Hb : forall j, 0 <= j -> Z.testbit (Z.ldiff x (2 ^ o)) j = negb (o =? j) && Z.testbit x j).
  { intros j Hj. rewrite Z.ldiff_spec, Z.pow2_bits_eqb by lia. apply andb_comm. }
  split; [|done].
  assert (0 <= Z.ldiff x (2 ^ o)) by (apply Z.ldiff_nonneg; lia).
  split; [done|]. apply small_word_range; [done|]. intros k Hk.
  rewrite Hb by lia. rewrite small_word_high by lia. apply andb_false_r.
Qed.

Lemma chunk_slots_length c : length (chunk_slots c) = 4%nat.
Proof. done. Qed.

Lemma chunk_slots_lookup c o : (o < 4)%nat -> chunk_slots c !! o = Some (chunk_slot c o).
Proof. intros Ho. destruct o as [|[|[|[|]]]]; [done..|lia]. Qed.

(** An update of slot [o] of a chunk, as an update of its slot list. *)
Lemma chunk_slots_update c c' o x :
  (o < 4)%nat -> chunk_slot c' o = x ->
  (forall j, (j < 4)%nat -> j <> o -> chunk_slot c' j = chunk_slot c j) ->
  chunk_slots c' = <[o := x]> (chunk_slots c).
Proof.
  intros Ho Hx Hj. apply list_eq. intros j.
  destruct (decide (j < 4)%nat).
  - rewrite chunk_slots_lookup by done. destruct (decide (o = j)) as [->|].
    + rewrite list_lookup_insert_eq by (by rewrite chunk_slots_length). by rewrite Hx.
    + rewrite list_lookup_insert_ne, chunk_slots_lookup by done. by rewrite Hj.
  - rewrite !lookup_ge_None_2; [done|rewrite length_insert|]; rewrite chunk_slots_length; lia.
Qed.

Lemma chunk_put c o k v :
  chunk_ok c -> (o < 4)%nat ->
  let c' := MkChunk (<[o := k]> (keys c)) (<[o := v]> (values c))
              (Z.lor (present c) (orderedMapBit (Z.of_nat o))) in
  chunk_ok c' /\ chunk_slots c' = <[o := Some (k, v)]> (chunk_slots c).
Proof.
  intros (Hk & Hv & Hp) Ho c'.
  destruct (present_set (present c) (Z.of_nat o) Hp ltac:(lia)) as [Hr Hb].
  split.
  - unfold c'. split; [|split]; cbn; [by rewrite length_insert..|done].
  - apply chunk_slots_update; [done|..].
    + unfold chunk_slot, c'; cbn. rewrite Hb, Z.eqb_refl by lia. cbn.
      rewrite !list_lookup_insert_eq by lia. done.
    + intros j Hj Hne. unfold chunk_slot, c'; cbn. rewrite Hb by lia.
      rewrite !list_lookup_insert_ne by done. by destruct (Z.eqb_spec (Z.of_nat o) (Z.of_nat j)); [lia|].
Qed.

Lemma chunk_remove c o k v :
  chunk_ok c -> (o < 4)%nat ->
  let c' := MkChunk (<[o := k]> (keys c)) (<[o := v]> (values c))
              (Z.ldiff (present c) (orderedMapBit (Z.of_nat o))) in
  chunk_ok c' /\ chunk_slots c' = <[o := None]> (chunk_slots c).
Proof.
  intros (Hk & Hv & Hp) Ho c'.
  destruct (present_clear (present c) (Z.of_nat o) Hp ltac:(lia)) as [Hr Hb].
  split.
  - unfold c'. split; [|split]; cbn; [by rewrite length_insert..|done].
  - apply chunk_slots_update; [done|..].
    + unfold chunk_slot, c'; cbn. by rewrite Hb, Z.eqb_refl by lia.
    + intros j Hj Hne. unfold chunk_slot, c'; cbn. rewrite Hb by lia.
      rewrite !list_lookup_insert_ne by done. by destruct (Z.eqb_spec (Z.of_nat o) (Z.of_nat j)); [lia|].
Qed.

Lemma chunk_replace c o k v v' :
  chunk_ok c -> (o < 4)%nat -> chunk_slot c o = Some (k, v) ->
  let c' := MkChunk (keys c) (<[o := v']> (values c)) (present c) in
  chunk_ok c' /\ chunk_slots c' = <[o := Some (k, v')]> (chunk_slots c).
Proof.
  intros (Hk & Hv & Hp) Ho Hs c'. split.
  - unfold c'. split; [|split]; cbn; [done|by rewrite length_insert|done].
  - apply chunk_slots_update; [done|..].
    + unfold chunk_slot, c' in *; cbn. destruct (Z.testbit _ _); [|done].
      rewrite list_lookup_insert_eq by lia.
      destruct (keys c !! o), (values c !! o); naive_solver.
    + intros j Hj Hne. unfold chunk_slot, c'; cbn. by rewrite list_lookup_insert_ne by done.
Qed.
(** ** Slots of the whole map *)

Lemma chunks_blocks (cs : list orderedMapChunk) :
  Forall (fun b => length b = 4%nat) (map chunk_slots cs).
Proof. apply Forall_map, Forall_true. intros c. apply chunk_slots_length. Qed.

Lemma slots_length m : length (slots m) = (4 * length (chunks m))%nat.
Proof.
  unfold slots. rewrite (concat_length_block 4) by apply chunks_blocks. by rewrite length_map.
Qed.

Lemma slots_lookup m (i o : nat) :
  (o < 4)%nat -> slots m !! (4 * i + o)%nat = (chunks m !! i) ≫= (fun c => Some (chunk_slot c o)).
Proof.
  intros Ho. unfold slots. rewrite concat_lookup_block by (done || apply chunks_blocks).
  rewrite list_lookup_fmap. destruct (chunks m !! i); [|done]. cbn [fmap option_fmap option_map].
  by apply chunk_slots_lookup.
Qed.

Lemma slots_store m i o c c' x ps off :
  (o < 4)%nat -> chunks m !! i = Some c -> chunk_slots c' = <[o := x]> (chunk_slots c) ->
  slots (MkOrderedMap (<[i := c']> (chunks m)) ps off) = <[(4 * i + o)%nat := x]> (slots m).
Proof.
  intros Ho Hc Hc'. unfold slots; cbn [chunks].
  rewrite <- (concat_insert_block 4 _ i o (chunk_slots c)); [|apply chunks_blocks|done|].
  - by rewrite <- Hc', list_fmap_insert.
  - by rewrite list_lookup_fmap, Hc.
Qed.

Lemma split_spec p : split p = (p / 4, p mod 4).
Proof.
  unfold split, orderedMapChunkSize. rewrite Z.shiftr_div_pow2 by lia.
  change (4 - 1) with (Z.ones 2). by rewrite Z.land_ones by lia.
Qed.

Lemma newPosition_spec ci o :
  0 <= ci < 2 ^ 46 -> 0 <= o < 4 -> newPosition ci o = Ret (4 * ci + o).
Proof.
  intros Hci Ho. unfold newPosition.
  change orderedMapMaxChunks with (2 ^ 46). unfold orderedMapChunkSize.
  rewrite Invariant_true by zcase. rewrite bind_ret. f_equal.
  rewrite lor_shiftl_add by lia. lia.
Qed.

(** The slot of a live key. *)
Lemma slot_live m p k v :
  slots m !! p = Some (Some (k, v)) ->
  exists c, chunks m !! (p / 4)%nat = Some c /\ chunk_slot c (p mod 4)%nat = Some (k, v) /\
    keys c !! (p mod 4)%nat = Some k /\ values c !! (p mod 4)%nat = Some v.
Proof.
  intros Hp. pose proof (Nat.div_mod_eq p 4) as E.
  pose proof (Nat.mod_upper_bound p 4 ltac:(lia)).
  rewrite E, slots_lookup in Hp by done. destruct (chunks m !! (p / 4)%nat) as [c|]; [|done].
  injection Hp as Hs. exists c. split; [done|]. split; [done|].
  unfold chunk_slot in Hs. destruct (Z.testbit _ _); [|done].
  destruct (keys c !! _), (values c !! _); naive_solver.
Qed.

Lemma inv_unique m p q k v w :
  Inv0 m -> slots m !! p = Some (Some (k, v)) -> slots m !! q = Some (Some (k, w)) -> p = q.
Proof.
  intros HI Hp Hq.
  assert (positions_of m !! k = Some (Z.of_nat p)) as E1.
  { apply (inv_positions m HI). rewrite Nat2Z.id. split; [lia|eauto]. }
  assert (positions_of m !! k = Some (Z.of_nat q)) as E2.
  { apply (inv_positions m HI). rewrite Nat2Z.id. split; [lia|eauto]. }
  rewrite E1 in E2. injection E2. lia.
Qed.

Lemma used_range m : Inv0 m -> 0 <= usedSlots m <= 4 * zlen (chunks m).
Proof.
  intros HI. pose proof (inv_offset m HI). pose proof (zlen_nonneg (chunks m)).
  unfold usedSlots, orderedMapChunkSize. destruct (Z.eqb_spec (zlen (chunks m)) 0); lia.
Qed.

(** ** Insertion of a new key *)

Lemma slots_extend cs : concat (map chunk_slots (cs ++ [zeroChunk])) =
  concat (map chunk_slots cs) ++ replicate 4 None.
Proof. rewrite map_app, concat_app. done. Qed.

(** The chunk and offset the next entry goes to: slot [usedSlots m]. *)
Lemma insert_room m :
  Inv0 m ->
  exists cs o c, (if (zlen (chunks m) =? 0) || (nextOffset m =? orderedMapChunkSize)
    then (chunks m ++ [zeroChunk], 0) else (chunks m, nextOffset m)) = (cs, Z.of_nat o) /\
    (o < 4)%nat /\ Forall chunk_ok cs /\ cs !! (length cs - 1)%nat = Some c /\ (0 < length cs)%nat /\
    usedSlots m = 4 * (zlen cs - 1) + Z.of_nat o /\
    exists n, concat (map chunk_slots cs) = slots m ++ replicate n None.
Proof.
  intros HI. pose proof (inv_offset m HI) as Ho. pose proof (zlen_nonneg (chunks m)) as Hn.
  unfold usedSlots, orderedMapChunkSize.
  destruct ((zlen (chunks m) =? 0) || (nextOffset m =? 4)) eqn:E.
  - exists (chunks m ++ [zeroChunk]), 0%nat, zeroChunk.
    split; [done|]. split; [lia|]. split.
    { apply Forall_app. split; [apply (inv_chunks m HI)|]. apply Forall_singleton. done. }
    split; [rewrite length_app; cbn; rewrite Nat.add_sub; by apply list_lookup_middle|].
    split; [rewrite length_app; cbn; lia|]. split; [|exists 4%nat; apply slots_extend].
    rewrite zlen_app. change (zlen [zeroChunk]) with 1.
    apply orb_true_iff in E as [E|E]; apply Z.eqb_eq in E.
    + by rewrite E.
    + rewrite E in *. destruct (Z.eqb_spec (zlen (chunks m)) 0); lia.
  - apply orb_false_iff in E as [E1%Z.eqb_neq E2%Z.eqb_neq].
    destruct (Z.eqb_spec (zlen (chunks m)) 0); [done|].
    destruct (lookup_lt_is_Some_2 (chunks m) (length (chunks m) - 1)) as [c Hc]; [zlia|].
    exists (chunks m), (Z.to_nat (nextOffset m)), c. rewrite Z2Nat.id by lia.
    split; [done|]. split; [lia|]. split; [apply (inv_chunks m HI)|]. split; [done|].
    split; [zlia|]. split; [lia|]. exists 0%nat. by rewrite app_nil_r.
Qed.

Lemma lookup_app_None_Some {A} (l : list (option A)) n p x :
  (l ++ replicate n None) !! p = Some (Some x) <-> l !! p = Some (Some x).
Proof.
  destruct (decide (p < length l)%nat).
  - by rewrite lookup_app_l by lia.
  - rewrite lookup_app_r by lia. split.
    + intros [? _]%lookup_replicate. done.
    + intros Hl%lookup_lt_Some. lia.
Qed.

Lemma omap_id_insert_last {A} (l : list (option A)) n p x :
  (forall q y, l !! q = Some (Some y) -> (q < p)%nat) -> (p < length l + n)%nat ->
  omap id (<[p := Some x]> (l ++ replicate n None)) = omap id l ++ [x].
Proof.
  intros Hl Hp. set (L := l ++ replicate n None).
  assert (HL : forall q y, L !! q = Some (Some y) -> (q < p)%nat).
  { intros q y Hq. apply lookup_app_None_Some in Hq. eauto. }
  assert (p < length L)%nat as HpL by (unfold L; rewrite length_app, length_replicate; lia).
  assert (omap id l = omap id L) as ->.
  { unfold L. by rewrite omap_id_app, omap_id_replicate_None, app_nil_r. }
  assert (omap id (drop (S p) L) = []) as Hd.
  { apply omap_id_nil. intros q y. rewrite lookup_drop. intros Hq%HL. lia. }
  rewrite omap_id_insert by done.
  destruct (lookup_lt_is_Some_2 L p HpL) as [[y|] Hy]; [apply HL in Hy; lia|].
  rewrite (omap_id_split L p None Hy), Hd. cbn. by rewrite app_nil_r.
Qed.

(** Storing an entry of a new key at the first unused slot keeps the fields of the invariant that
    tie keys to slots. *)
Lemma insert_positions m m' k v p n :
  Inv0 m -> positions_of m !! k = None -> Z.of_nat p = usedSlots m -> (p < length (slots m) + n)%nat ->
  slots m' = <[p := Some (k, v)]> (slots m ++ replicate n None) ->
  positions_of m' = <[k := usedSlots m]> (positions_of m) ->
  forall k' q, positions_of m' !! k' = Some q <->
    0 <= q /\ exists w, slots m' !! Z.to_nat q = Some (Some (k', w)).
Proof.
  intros HI Hk Hpz Hpl Hslots' Hpos k' q. pose proof (used_range m HI) as Hur. rewrite Hslots', Hpos.
  destruct (decide (k = k')) as [<-|Hne'].
  - rewrite lookup_insert_eq. split.
    + intros [= <-]. split; [lia|]. exists v. replace (Z.to_nat (usedSlots m)) with p by lia.
      apply list_lookup_insert_eq. by rewrite length_app, length_replicate.
    + intros (Hq & w & Hw). f_equal. destruct (decide (p = Z.to_nat q)); [lia|].
      rewrite list_lookup_insert_ne in Hw by done. apply lookup_app_None_Some in Hw.
      assert (positions_of m !! k = Some q) by (apply (inv_positions m HI); eauto). congruence.
  - rewrite lookup_insert_ne by done. rewrite (inv_positions m HI).
    apply and_iff_compat_l. apply exist_proper; intros w. destruct (decide (p = Z.to_nat q)) as [<-|].
    + rewrite list_lookup_insert_eq by (rewrite length_app, length_replicate; done).
      split; [|congruence]. intros Hw%(inv_unused m HI). lia.
    + rewrite list_lookup_insert_ne by done. by rewrite lookup_app_None_Some.
Qed.

Lemma insert_unused m m' (x : K * V) p n :
  Inv0 m -> Z.of_nat p = usedSlots m -> slots m' = <[p := Some x]> (slots m ++ replicate n None) ->
  forall q y, slots m' !! q = Some (Some y) -> Z.of_nat q < usedSlots m + 1.
Proof.
  intros HI Hpz -> q y. destruct (decide (p = q)) as [<-|]; [lia|].
  rewrite list_lookup_insert_ne by done. intros Hq%lookup_app_None_Some%(inv_unused m HI). lia.
Qed.

Lemma insertNew_spec m k v :
  Inv0 m -> positions_of m !! k = None -> usedSlots m < 2 ^ 48 ->
  exists m', insertNew m k v = Ret m' /\ Inv0 m' /\ entries m' = entries m ++ [(k, v)] /\
    usedSlots m' = usedSlots m + 1 /\ positions_of m' = <[k := usedSlots m]> (positions_of m).
Proof.
  intros HI Hk Hu. pose proof (used_range m HI) as Hur.
  destruct (insert_room m HI) as (cs & o & c & E & Ho & Hcs & Hc & Hne & Hused & n & Hslots).
  unfold insertNew. rewrite E.
  pose proof (proj1 (Forall_lookup _ _) Hcs _ _ Hc) as Hok. pose proof Hok as (Hkl & Hvl & Hp).
  assert (zlen cs - 1 = Z.of_nat (length cs - 1)) as Hz by (unfold zlen; lia).
  rewrite Hz, (index_nat _ _ _ Hc), bind_ret.
  rewrite !store_in_range, !bind_ret by (unfold zlen in *; lia).
  rewrite store_in_range by (unfold zlen in *; lia). rewrite bind_ret, !Nat2Z.id.
  rewrite newPosition_spec by lia. rewrite bind_ret.
  destruct (chunk_put c o k v Hok Ho) as [Hok' Hs'].
  set (c' := MkChunk _ _ _) in *.
  assert (4 * Z.of_nat (length cs - 1) + Z.of_nat o = usedSlots m) as -> by lia.
  set (m1 := MkOrderedMap cs (positions m) 0).
  eexists. split; [done|]. set (m' := MkOrderedMap _ _ _).
  set (p := (4 * (length cs - 1) + o)%nat).
  assert (Hpz : Z.of_nat p = usedSlots m) by lia.
  assert (slots m' = <[p := Some (k, v)]> (slots m ++ replicate n None)) as Hslots'.
  { rewrite <- Hslots. apply (slots_store m1 (length cs - 1) o c); done. }
  assert (usedSlots m' = usedSlots m + 1) as Hu'.
  { unfold usedSlots at 1, orderedMapChunkSize; cbn [chunks nextOffset m'].
    unfold m'; cbn [chunks nextOffset]. rewrite zlen_insert.
    destruct (Z.eqb_spec (zlen cs) 0); lia. }
  assert (p < length (slots m) + n)%nat as Hpl.
  { rewrite <- (length_replicate n (@None (K * V))), <- length_app, <- Hslots.
    change (concat _) with (slots m1). rewrite slots_length. unfold m1; cbn [chunks]. lia. }
  split; [|split; [|split]]; [|..|done].
  - split.
    + apply Forall_insert; done.
    + unfold m'; cbn [chunks nextOffset]. rewrite zlen_insert.
      destruct (Z.eqb_spec (zlen cs) 0); lia.
    + by apply (insert_positions m _ k v p n).
    + rewrite Hu'. by apply (insert_unused m _ (k, v) p n).
  - unfold entries. rewrite Hslots'. apply omap_id_insert_last; [|done].
    intros q x Hq%(inv_unused m HI). lia.
  - done.
Qed.

(** ** Entries and positions *)

Lemma entries_elem m k v :
  (k, v) ∈ entries m <-> exists p, slots m !! p = Some (Some (k, v)).
Proof.
  unfold entries. rewrite list_elem_of_omap. split.
  - intros (x & Hx & Hs). cbn in Hs. subst x. by apply list_elem_of_lookup.
  - intros (p & Hp). exists (Some (k, v)). split; [|done]. apply list_elem_of_lookup. eauto.
Qed.

Lemma omap_id_NoDup (l : list (option (K * V))) :
  (forall p q k v w, l !! p = Some (Some (k, v)) -> l !! q = Some (Some (k, w)) -> p = q) ->
  NoDup (omap id l).*1.
Proof.
  induction l as [|x l IH]; intros Hl; [constructor|].
  assert (NoDup (omap id l).*1) as Hnd.
  { apply IH. intros p q k v w Hp Hq. specialize (Hl (S p) (S q) k v w Hp Hq). lia. }
  destruct x as [[k v]|]; [|exact Hnd]. cbn. constructor; [|exact Hnd].
  intros ([k' w] & -> & Hin)%list_elem_of_fmap. cbn in *.
  apply list_elem_of_omap in Hin as (y & Hy & Hyid). cbn in Hyid. subst y.
  apply list_elem_of_lookup in Hy as [q Hq].
  specialize (Hl 0%nat (S q) k' v w eq_refl Hq). lia.
Qed.

Lemma entries_NoDup m : Inv0 m -> NoDup (entries m).*1.
Proof. intros HI. apply omap_id_NoDup. intros p q k v w. by apply inv_unique. Qed.

Lemma positions_dom m : Inv0 m -> dom (positions_of m) =@{gset K} list_to_set (entries m).*1.
Proof.
  intros HI. apply set_eq. intros k.
  rewrite elem_of_dom, elem_of_list_to_set, list_elem_of_fmap. split.
  - intros [p Hp]. apply (inv_positions m HI) in Hp as (_ & v & Hv).
    exists (k, v). split; [done|]. apply entries_elem. eauto.
  - intros ([k' v] & -> & (p & Hp)%entries_elem). exists (Z.of_nat p).
    apply (inv_positions m HI). rewrite Nat2Z.id. split; [lia|eauto].
Qed.

Lemma Len_entries m : Inv0 m -> Len m = zlen (entries m).
Proof.
  intros HI. unfold Len, zlen. f_equal.
  rewrite <- size_dom, positions_dom, size_list_to_set by (done || by apply entries_NoDup).
  by rewrite length_fmap.
Qed.

(** A key is live exactly when the position map knows it, and its slot holds
    the value of the association list. *)
Lemma position_lookup m k :
  Inv0 m ->
  match positions_of m !! k with
  | Some p => 0 <= p /\ exists v, slots m !! Z.to_nat p = Some (Some (k, v)) /\
                al_lookup k (entries m) = Some v
  | None => al_lookup k (entries m) = None
  end.
Proof.
  intros HI. pose proof (entries_NoDup m HI) as Hnd.
  destruct (positions_of m !! k) as [p|] eqn:Hp.
  - apply (inv_positions m HI) in Hp as (H0 & v & Hv). split; [done|].
    exists v. split; [done|]. apply al_lookup_Some; [done|]. apply entries_elem. eauto.
  - apply al_lookup_None; [done|]. intros v (q & Hq)%entries_elem.
    assert (positions_of m !! k = Some (Z.of_nat q)); [|congruence].
    apply (inv_positions m HI). rewrite Nat2Z.id. split; [lia|eauto].
Qed.

(** The chunk and offset of a live key, as the code reads them. *)
Lemma live_access m p k v :
  0 <= p -> slots m !! Z.to_nat p = Some (Some (k, v)) ->
  exists i o c, split p = (Z.of_nat i, Z.of_nat o) /\ (o < 4)%nat /\ Z.to_nat p = (4 * i + o)%nat /\
    chunks m !! i = Some c /\ chunk_slot c o = Some (k, v) /\ values c !! o = Some v.
Proof.
  intros H0 Hs. destruct (slot_live m _ k v Hs) as (c & Hc & Hcs & _ & Hv).
  exists (Z.to_nat p / 4)%nat, (Z.to_nat p mod 4)%nat, c.
  rewrite split_spec. split; [by rewrite Nat2Z.inj_div, Nat2Z.inj_mod, Z2Nat.id by lia|].
  split; [by apply Nat.mod_upper_bound|]. split; [apply Nat.div_mod_eq|]. done.
Qed.

Lemma omap_Lookup_spec m k : Inv0 m -> Lookup m k = Ret (al_lookup k (entries m)).
Proof.
  intros HI. unfold Lookup. pose proof (position_lookup m k HI) as Hp.
  destruct (positions_of m !! k) as [p|]; [|by rewrite Hp].
  destruct Hp as (H0 & v & Hs & ->).
  destruct (live_access m p k v H0 Hs) as (i & o & c & -> & Ho & _ & Hc & _ & Hv).
  rewrite (index_nat _ _ _ Hc), bind_ret, (index_nat _ _ _ Hv). done.
Qed.

(** ** Iteration *)

(** A loop over the live entries. *)
Fixpoint range_go {T S} (l : list T) (body : T -> S -> go (S * bool)) (s : S) : go (S * bool) :=
  match l with
  | [] => Ret (s, true)
  | x :: l' =>
      '(s', continue) ← body x s;
      if (continue : bool) then range_go l' body s' else Ret (s', false)
  end.

Lemma range_go_app {T S} (l k : list T) (body : T -> S -> go (S * bool)) s :
  range_go (l ++ k) body s =
    '(s', continue) ← range_go l body s;
    if (continue : bool) then range_go k body s' else Ret (s', false).
Proof.
  revert s. induction l as [|x l IH]; intros s; cbn; [done|].
  destruct (body x s) as [[s' []]| |]; cbn; [apply IH|done..].
Qed.

Lemma present_bit c o : (o < 4)%nat ->
  (Z.land (present c) (orderedMapBit (Z.of_nat o)) =? 0) = negb (Z.testbit (present c) (Z.of_nat o)).
Proof.
  intros Ho. rewrite orderedMapBit_spec by lia.
  destruct (Z.testbit (present c) (Z.of_nat o)) eqn:E; cbn.
  - apply Z.eqb_neq. intros H0. apply (f_equal (fun z => Z.testbit z (Z.of_nat o))) in H0.
    rewrite Z.land_spec, E, Z.pow2_bits_true, Z.testbit_0_l in H0 by lia. done.
  - apply Z.eqb_eq, Z.bits_inj'. intros k Hk.
    rewrite Z.land_spec, Z.pow2_bits_eqb, Z.testbit_0_l by lia.
    destruct (Z.eqb_spec (Z.of_nat o) k) as [<-|]; [by rewrite E|apply andb_false_r].
Qed.

Lemma for_offsets_spec {S} c (os : list nat) body (step : K * V -> S -> go (S * bool)) s :
  chunk_ok c -> Forall (fun o => o < 4)%nat os ->
  (forall o k v s, (o < 4)%nat -> keys c !! o = Some k -> values c !! o = Some v ->
    body c (Z.of_nat o) s = step (k, v) s) ->
  for_offsets c (map Z.of_nat os) body s = range_go (omap (chunk_slot c) os) step s.
Proof.
  intros (Hk & Hv & _) Hos Hbody. revert s. induction Hos as [|o os Ho Hos IH]; intros s; [done|].
  cbn [map for_offsets]. rewrite present_bit by done. cbn [omap list_omap].
  unfold chunk_slot at 1. destruct (Z.testbit _ _); cbn [negb]; [|apply IH].
  destruct (lookup_lt_is_Some_2 (keys c) o) as [k Ek]; [lia|].
  destruct (lookup_lt_is_Some_2 (values c) o) as [v Ev]; [lia|].
  rewrite Ek, Ev. cbn [range_go]. rewrite (Hbody o k v s Ho Ek Ev).
  destruct (step (k, v) s) as [[s' []]| |]; cbn; [apply IH|done..].
Qed.

Lemma for_present_spec {S} cs body (step : K * V -> S -> go (S * bool)) s :
  Forall chunk_ok cs ->
  (forall c o k v s, (o < 4)%nat -> keys c !! o = Some k -> values c !! o = Some v ->
    body c (Z.of_nat o) s = step (k, v) s) ->
  for_present cs body s = range_go (omap id (concat (map chunk_slots cs))) step s.
Proof.
  intros Hcs Hbody. revert s. induction Hcs as [|c cs Hc Hcs IH]; intros s; [done|].
  cbn [for_present map concat]. rewrite omap_id_app, range_go_app.
  change [0; 1; 2; 3] with (map Z.of_nat (seq 0 4)).
  rewrite (for_offsets_spec c _ body step); [|done|by repeat constructor; lia|eauto].
  assert (omap id (chunk_slots c) = omap (chunk_slot c) (seq 0 4)) as ->.
  { unfold chunk_slots. cbn. by repeat (case_match; [|]). }
  destruct (range_go _ step s) as [[s' []]| |]; cbn; [apply IH|done..].
Qed.

Lemma omap_Keys_spec {S} m (yield : yield_fn K S) s :
  Inv0 m -> Keys m yield s = Ret (range_yield (entries m).*1 yield s).1.
Proof.
  intros HI. unfold Keys.
  rewrite (for_present_spec _ _ (fun kv s => Ret (yield kv.1 s))).
  2: apply (inv_chunks m HI).
  2:{ intros c o k v s' Ho Hk Hv. by rewrite (index_nat _ _ _ Hk), bind_ret. }
  change (omap id _) with (entries m).
  assert (forall l s, range_go l (fun kv s => Ret (yield kv.1 s)) s = Ret (range_yield l.*1 yield s)) as ->.
  { intros l. induction l as [|[k v] l IH]; intros s'; cbn; [done|].
    destruct (yield k s') as [s2 []]; cbn; [apply IH|done]. }
  cbn. by destruct (range_yield _ _ _).
Qed.

(** ** Replacing and deleting *)

Lemma al_lookup_None_positions m k :
  Inv0 m -> al_lookup k (entries m) = None <-> positions_of m !! k = None.
Proof.
  intros HI. pose proof (position_lookup m k HI) as Hp.
  destruct (positions_of m !! k) as [p|].
  - destruct Hp as (_ & v & _ & ->). done.
  - done.
Qed.

(** Splitting the entries at a live slot. *)
Lemma entries_at m p k w :
  Inv0 m -> slots m !! p = Some (Some (k, w)) ->
  exists l1 l2, entries m = l1 ++ (k, w) :: l2 /\ k ∉ (l1.*1) /\ k ∉ (l2.*1) /\
    forall m' x, slots m' = <[p := x]> (slots m) -> entries m' = l1 ++ option_list x ++ l2.
Proof.
  intros HI Hp. pose proof (entries_NoDup m HI) as Hnd.
  exists (omap id (take p (slots m))), (omap id (drop (S p) (slots m))).
  assert (entries m = omap id (take p (slots m)) ++ (k, w) :: omap id (drop (S p) (slots m))) as E.
  { unfold entries. by rewrite (omap_id_split _ p _ Hp). }
  rewrite E, fmap_app in Hnd. apply NoDup_app in Hnd as (_ & Hd1 & Hnd).
  cbn in Hnd. apply NoDup_cons in Hnd as [Hd2 _].
  split; [done|]. split; [|split; [done|]].
  - intros Hin. apply (Hd1 k Hin). cbn. by left.
  - intros m' x Hx. unfold entries. rewrite Hx, omap_id_insert; [done|].
    by eapply lookup_lt_Some.
Qed.

(** Overwriting the value of a live slot keeps the invariant. *)
Lemma replace_Inv0 m p k w v i o c c' :
  Inv0 m -> slots m !! p = Some (Some (k, w)) -> p = (4 * i + o)%nat -> (o < 4)%nat ->
  chunks m !! i = Some c -> chunk_ok c' -> chunk_slots c' = <[o := Some (k, v)]> (chunk_slots c) ->
  let m' := MkOrderedMap (<[i := c']> (chunks m)) (positions m) (nextOffset m) in
  Inv0 m' /\ slots m' = <[p := Some (k, v)]> (slots m) /\ usedSlots m' = usedSlots m.
Proof.
  intros HI Hp -> Ho Hc Hok Hcs m'.
  assert (slots m' = <[(4 * i + o)%nat := Some (k, v)]> (slots m)) as Hs by (by apply (slots_store _ _ _ c)).
  assert (usedSlots m' = usedSlots m) as Hu by (unfold usedSlots, m'; cbn; by rewrite zlen_insert).
  split; [|done]. split.
  - apply Forall_insert; [apply (inv_chunks m HI)|done].
  - unfold m'; cbn [chunks nextOffset]. rewrite zlen_insert. apply (inv_offset m HI).
  - intros k' q. change (positions_of m') with (positions_of m).
    rewrite (inv_positions m HI), Hs. apply and_iff_compat_l.
    destruct (decide (4 * i + o = Z.to_nat q)%nat) as [Eq|].
    + rewrite Eq, list_lookup_insert_eq by (rewrite <- Eq; by eapply lookup_lt_Some).
      rewrite <- Eq, Hp. naive_solver.
    + by rewrite list_lookup_insert_ne.
  - intros q x. rewrite Hu, Hs. destruct (decide (4 * i + o = q)%nat) as [<-|].
    + intros _. by apply (inv_unused m HI) in Hp.
    + rewrite list_lookup_insert_ne by done. apply (inv_unused m HI).
Qed.

Lemma delete_Inv0 m p k w i o c c' :
  Inv0 m -> slots m !! p = Some (Some (k, w)) -> p = (4 * i + o)%nat -> (o < 4)%nat ->
  chunks m !! i = Some c -> chunk_ok c' -> chunk_slots c' = <[o := None]> (chunk_slots c) ->
  let m' := MkOrderedMap (<[i := c']> (chunks m)) (Some (delete k (positions_of m))) (nextOffset m) in
  Inv0 m' /\ slots m' = <[p := None]> (slots m) /\ usedSlots m' = usedSlots m.
Proof.
  intros HI Hp -> Ho Hc Hok Hcs m'.
  assert (slots m' = <[(4 * i + o)%nat := None]> (slots m)) as Hs by (by apply (slots_store _ _ _ c)).
  assert (usedSlots m' = usedSlots m) as Hu by (unfold usedSlots, m'; cbn; by rewrite zlen_insert).
  split; [|done]. split.
  - apply Forall_insert; [apply (inv_chunks m HI)|done].
  - unfold m'; cbn [chunks nextOffset]. rewrite zlen_insert. apply (inv_offset m HI).
  - intros k' q. change (positions_of m') with (delete k (positions_of m)). rewrite Hs.
    destruct (decide (k = k')) as [<-|Hne].
    + rewrite lookup_delete_eq. split; [done|]. intros (Hq & v & Hv).
      destruct (decide (4 * i + o = Z.to_nat q)%nat) as [Eq|Hneq].
      * rewrite Eq, list_lookup_insert_eq in Hv by (rewrite <- Eq; by eapply lookup_lt_Some). done.
      * rewrite list_lookup_insert_ne in Hv by done. by destruct (Hneq (inv_unique m _ _ _ _ _ HI Hp Hv)).
    + rewrite lookup_delete_ne by done. rewrite (inv_positions m HI). apply and_iff_compat_l.
      destruct (decide (4 * i + o = Z.to_nat q)%nat) as [Eq|].
      * rewrite Eq, list_lookup_insert_eq by (rewrite <- Eq; by eapply lookup_lt_Some).
        rewrite <- Eq, Hp. naive_solver.
      * by rewrite list_lookup_insert_ne.
  - intros q x. rewrite Hu, Hs. destruct (decide (4 * i + o = q)%nat) as [<-|].
    + rewrite list_lookup_insert_eq by (by eapply lookup_lt_Some). done.
    + rewrite list_lookup_insert_ne by done. apply (inv_unused m HI).
Qed.

(** ** Compaction *)

Lemma compact_loop_spec l acc :
  Inv0 acc -> NoDup (entries acc ++ l).*1 -> usedSlots acc + zlen l <= 2 ^ 48 ->
  exists m', range_go l (fun kv acc => acc' ← insertNew acc kv.1 kv.2; Ret (acc', true)) acc = Ret (m', true) /\
    Inv0 m' /\ entries m' = entries acc ++ l /\ usedSlots m' = usedSlots acc + zlen l.
Proof.
  revert acc. induction l as [|[k v] l IH]; intros acc HI Hnd Hu; cbn [range_go fst snd].
  { exists acc. rewrite app_nil_r. change (zlen []) with 0. split; [done|]. split; [done|]. split; [done|lia]. }
  autorewrite with zlen_db in *. pose proof (zlen_nonneg l).
  destruct (insertNew_spec acc k v HI) as (m1 & -> & HI1 & He1 & Hu1 & _); [|lia|].
  { apply al_lookup_None_positions, al_lookup_None; [done|by apply entries_NoDup|].
    intros w Hw. rewrite fmap_app in Hnd. apply NoDup_app in Hnd as (_ & Hd & _).
    apply (Hd k); [apply list_elem_of_fmap; by exists (k, w)|cbn; by left]. }
  cbn [mbind go_bind]. destruct (IH m1 HI1) as (m' & -> & ? & E & ?).
  - by rewrite He1, <- app_assoc.
  - lia.
  - exists m'. rewrite E, He1, <- app_assoc. split; [done|]. split; [done|]. split; [done|lia].
Qed.

Lemma Inv0_New : Inv0 NewOrderedMap.
Proof.
  split; cbn; [constructor|done| |].
  - intros k p. unfold positions_of; cbn. rewrite lookup_empty. split; [done|].
    intros (_ & v & Hv). done.
  - intros p x Hp. done.
Qed.

Lemma compactIfNeeded_spec m :
  Inv0 m -> usedSlots m <= 2 ^ 48 ->
  exists m', compactIfNeeded m = Ret m' /\ Inv m' /\ entries m' = entries m /\
    usedSlots m' <= usedSlots m.
Proof.
  intros HI Hu. unfold compactIfNeeded. pose proof (used_range m HI) as Hur.
  pose proof (Len_entries m HI) as HL.
  destruct ((usedSlots m =? 0) || (usedSlots m <? 4 * Len m)) eqn:E.
  { exists m. split; [done|]. split; [|split; [done|lia]]. split; [done|].
    apply orb_true_iff in E as [?%Z.eqb_eq|?%Z.ltb_lt]; lia. }
  apply orb_false_iff in E as [?%Z.eqb_neq ?%Z.ltb_ge].
  rewrite (for_present_spec _ _ (fun kv acc => acc' ← insertNew acc kv.1 kv.2; Ret (acc', true))).
  2: apply (inv_chunks m HI).
  2:{ intros c o k v s Ho Hk Hv. by rewrite (index_nat _ _ _ Hk), bind_ret, (index_nat _ _ _ Hv). }
  change (omap id _) with (entries m).
  destruct (compact_loop_spec (entries m) NewOrderedMap Inv0_New) as (m' & -> & HI' & He & Hu').
  - by apply entries_NoDup.
  - change (usedSlots NewOrderedMap) with 0. lia.
  - change (usedSlots NewOrderedMap) with 0 in Hu'. change (entries NewOrderedMap) with (@nil (K * V)) in He.
    cbn in He. exists m'. cbn. split; [done|]. split; [|split; [done|lia]].
    split; [done|]. rewrite (Len_entries m' HI'), He.
    pose proof (zlen_nonneg (entries m)). lia.
Qed.

(** ** The operations *)

Lemma omap_insert_spec m k v :
  Inv m -> al_lookup k (entries m) = None -> usedSlots m < 2 ^ 48 ->
  exists m', insertNew m k v = Ret m' /\ Inv m' /\ entries m' = entries m ++ [(k, v)] /\
    usedSlots m' = usedSlots m + 1.
Proof.
  intros [HI Hsp] Hk Hu. apply (al_lookup_None_positions m k HI) in Hk.
  destruct (insertNew_spec m k v HI Hk Hu) as (m' & E & HI' & He & Hu' & _).
  exists m'. split; [done|]. split; [|done]. split; [done|].
  pose proof (Len_entries m' HI') as HL'. rewrite He in HL'.
  pose proof (Len_entries m HI). pose proof (zlen_nonneg (entries m)).
  rewrite zlen_app in HL'. change (zlen [(k, v)]) with 1 in HL'. lia.
Qed.

Lemma omap_InsertOrKeep_spec m k v :
  Inv m -> usedSlots m < 2 ^ 48 ->
  exists m', InsertOrKeep m k v = Ret (m', bool_decide (al_lookup k (entries m) = None)) /\ Inv m' /\
    entries m' = (if bool_decide (al_lookup k (entries m) = None) then entries m ++ [(k, v)] else entries m) /\
    usedSlots m' <= usedSlots m + 1.
Proof.
  intros HI Hu. unfold InsertOrKeep. pose proof (position_lookup m k (proj1 HI)) as Hp.
  destruct (positions_of m !! k) as [p|].
  - destruct Hp as (_ & w & _ & ->). exists m. split; [done|]. split; [done|]. split; [done|lia].
  - destruct (omap_insert_spec m k v HI Hp Hu) as (m' & -> & ? & ? & ?). rewrite Hp.
    exists m'. split; [done|]. split; [done|]. split; [done|lia].
Qed.

Lemma omap_InsertOrReplace_spec m k v :
  Inv m -> usedSlots m < 2 ^ 48 ->
  exists m', InsertOrReplace m k v = Ret (m', al_lookup k (entries m)) /\ Inv m' /\
    entries m' = (if bool_decide (al_lookup k (entries m) = None) then entries m ++ [(k, v)]
                  else al_replace k v (entries m)) /\
    usedSlots m' <= usedSlots m + 1.
Proof.
  intros HI Hu. unfold InsertOrReplace. pose proof HI as [HI0 Hsp].
  pose proof (position_lookup m k HI0) as Hp.
  destruct (positions_of m !! k) as [p|].
  - destruct Hp as (H0 & w & Hs & ->).
    destruct (live_access m p k w H0 Hs) as (i & o & c & -> & Ho & Ep & Hc & Hcs & Hv).
    pose proof (proj1 (Forall_lookup _ _) (inv_chunks m HI0) _ _ Hc) as Hok.
    pose proof Hok as (_ & Hvl & _). pose proof (lookup_lt_Some _ _ _ Hc).
    rewrite (index_nat _ _ _ Hc), bind_ret, (index_nat _ _ _ Hv), bind_ret.
    rewrite store_in_range, bind_ret by zlia. rewrite store_in_range, bind_ret, !Nat2Z.id by zlia.
    destruct (chunk_replace c o k w v Hok Ho Hcs) as [Hok' Hcs'].
    destruct (replace_Inv0 m _ k w v i o c _ HI0 Hs Ep Ho Hc Hok' Hcs') as (HI' & Hs' & Hu').
    eexists. split; [done|]. set (m' := MkOrderedMap _ _ _) in *.
    destruct (entries_at m _ k w HI0 Hs) as (l1 & l2 & E & Hn1 & Hn2 & Hupd).
    apply Hupd in Hs'. cbn [option_list app] in Hs'.
    rewrite E, al_replace_at by done. split; [|split; [done|lia]].
    split; [done|]. rewrite Hu'. by change (Len m') with (Len m).
  - destruct (omap_insert_spec m k v HI Hp Hu) as (m' & -> & ? & ? & ?). rewrite Hp.
    exists m'. split; [done|]. split; [done|]. split; [done|lia].
Qed.

Lemma omap_Delete_spec m k :
  Inv m -> usedSlots m <= 2 ^ 48 ->
  exists m', Delete m k = Ret (m', al_lookup k (entries m)) /\ Inv m' /\
    entries m' = al_delete k (entries m) /\ usedSlots m' <= usedSlots m.
Proof.
  intros HI Hu. unfold Delete. pose proof HI as [HI0 Hsp].
  pose proof (position_lookup m k HI0) as Hp.
  destruct (positions_of m !! k) as [p|].
  - destruct Hp as (H0 & w & Hs & ->).
    destruct (live_access m p k w H0 Hs) as (i & o & c & -> & Ho & Ep & Hc & Hcs & Hv).
    pose proof (proj1 (Forall_lookup _ _) (inv_chunks m HI0) _ _ Hc) as Hok.
    pose proof Hok as (Hkl & Hvl & _). pose proof (lookup_lt_Some _ _ _ Hc).
    rewrite (index_nat _ _ _ Hc), bind_ret, (index_nat _ _ _ Hv), bind_ret.
    rewrite !store_in_range, !bind_ret by zlia. rewrite store_in_range, bind_ret, !Nat2Z.id by zlia.
    destruct (chunk_remove c o zeroK zeroV Hok Ho) as [Hok' Hcs'].
    destruct (delete_Inv0 m _ k w i o c _ HI0 Hs Ep Ho Hc Hok' Hcs') as (HI' & Hs' & Hu').
    set (m1 := MkOrderedMap _ _ _) in *.
    destruct (compactIfNeeded_spec m1 HI' ltac:(lia)) as (m' & -> & HI2 & He2 & Hu2).
    cbn. exists m'. split; [done|]. split; [done|]. split; [|lia].
    destruct (entries_at m _ k w HI0 Hs) as (l1 & l2 & E & Hn1 & Hn2 & Hupd).
    rewrite He2, (Hupd _ _ Hs'), E, al_delete_at by done. done.
  - rewrite Hp. exists m. split; [done|]. split; [done|]. split; [|lia].
    symmetry. apply al_delete_none. intros Hin. apply list_elem_of_fmap in Hin as ([k' w] & -> & Hin).
    revert Hp. rewrite al_lookup_None by (by apply entries_NoDup). intros Hno. by apply (Hno w).
Qed.

(** ** Traces of operations *)

Inductive op := OLookup (k : K) | OLen | OKeys | OInsertOrKeep (k : K) (v : V)
  | OInsertOrReplace (k : K) (v : V) | ODelete (k : K).
Inductive obs := ObsOption (v : option V) | ObsInt (z : Z) | ObsKeys (l : list K) | ObsBool (b : bool).

Definition collect_keys : yield_fn K (list K) := fun k acc => (acc ++ [k], true).

Definition run_op (o : op) (m : OrderedMap) : go (obs * OrderedMap) :=
  match o with
  | OLookup k => r ← Lookup m k; Ret (ObsOption r, m)
  | OLen => Ret (ObsInt (Len m), m)
  | OKeys => l ← Keys m collect_keys []; Ret (ObsKeys l, m)
  | OInsertOrKeep k v => '(m', b) ← InsertOrKeep m k v; Ret (ObsBool b, m')
  | OInsertOrReplace k v => '(m', r) ← InsertOrReplace m k v; Ret (ObsOption r, m')
  | ODelete k => '(m', r) ← Delete m k; Ret (ObsOption r, m')
  end.

(** The association-list operations; none of them can fail. *)
Definition spec_op (o : op) (l : list (K * V)) : obs * list (K * V) :=
  let absent k := bool_decide (al_lookup k l = None) in
  match o with
  | OLookup k => (ObsOption (al_lookup k l), l)
  | OLen => (ObsInt (zlen l), l)
  | OKeys => (ObsKeys l.*1, l)
  | OInsertOrKeep k v => (ObsBool (absent k), if absent k then l ++ [(k, v)] else l)
  | OInsertOrReplace k v =>
      (ObsOption (al_lookup k l), if absent k then l ++ [(k, v)] else al_replace k v l)
  | ODelete k => (ObsOption (al_lookup k l), al_delete k l)
  end.

Fixpoint run_ops (os : list op) (m : OrderedMap) : go (list obs * OrderedMap) :=
  match os with
  | [] => Ret ([], m)
  | o :: os' => '(r, m1) ← run_op o m; '(rs, m2) ← run_ops os' m1; Ret (r :: rs, m2)
  end.

Fixpoint spec_ops (os : list op) (l : list (K * V)) : list obs * list (K * V) :=
  match os with
  | [] => ([], l)
  | o :: os' => let '(r, l1) := spec_op o l in let '(rs, l2) := spec_ops os' l1 in (r :: rs, l2)
  end.

Lemma omap_op_simulates o m :
  Inv m -> usedSlots m < 2 ^ 48 ->
  exists m', run_op o m = Ret ((spec_op o (entries m)).1, m') /\ Inv m' /\
    entries m' = (spec_op o (entries m)).2 /\ usedSlots m' <= usedSlots m + 1.
Proof.
  intros HI Hu. pose proof (proj1 HI) as HI0.
  destruct o as [k| | |k v|k v|k]; cbn [run_op spec_op fst snd].
  - rewrite omap_Lookup_spec by done. exists m. split; [done|]. split; [done|]. split; [done|lia].
  - rewrite Len_entries by done. exists m. split; [done|]. split; [done|]. split; [done|lia].
  - rewrite omap_Keys_spec by done. cbn. exists m. split; [|split; [done|split; [done|lia]]].
    do 3 f_equal.
    assert (forall l acc, range_yield l collect_keys acc = (acc ++ l, true)) as ->; [|done].
    induction l as [|k l IH]; intros acc; cbn; [by rewrite app_nil_r|]. by rewrite IH, <- app_assoc.
  - destruct (omap_InsertOrKeep_spec m k v HI Hu) as (m' & -> & ? & ? & ?). by exists m'.
  - destruct (omap_InsertOrReplace_spec m k v HI Hu) as (m' & -> & ? & ? & ?). by exists m'.
  - destruct (omap_Delete_spec m k HI ltac:(lia)) as (m' & -> & ? & ? & ?).
    exists m'. split; [done|]. split; [done|]. split; [done|lia].
Qed.

Lemma omap_ops_simulate os m :
  Inv m -> usedSlots m + zlen os <= 2 ^ 48 ->
  exists m', run_ops os m = Ret ((spec_ops os (entries m)).1, m') /\ Inv m' /\
    entries m' = (spec_ops os (entries m)).2.
Proof.
  revert m. induction os as [|o os IH]; intros m HI Hu; cbn [run_ops spec_ops].
  { by exists m. }
  autorewrite with zlen_db in Hu. pose proof (zlen_nonneg os).
  destruct (omap_op_simulates o m HI ltac:(lia)) as (m1 & -> & HI1 & He1 & Hu1).
  destruct (spec_op o (entries m)) as [r l1]. cbn in *. subst l1.
  destruct (IH m1 HI1 ltac:(lia)) as (m2 & -> & HI2 & He2).
  destruct (spec_ops os (entries m1)) as [rs l2]. cbn in *. by exists m2.
Qed.

Lemma Inv_New : Inv NewOrderedMap.
Proof. split; [apply Inv0_New|by left]. Qed.

(** C3: an ordered map is an association list in insertion order: any sequence
    of at most 2^48 operations from an empty map makes the observations of the
    list (keys iterate in insertion order, replacing a value keeps its place,
    deleting and re-inserting moves to the end), without a panic; chunks,
    tombstones and compaction are not observable. *)
Theorem omap_refines_assoc_list (os : list op) :
  zlen os <= 2 ^ 48 ->
  exists m, run_ops os NewOrderedMap = Ret ((spec_ops os []).1, m) /\
    entries m = (spec_ops os []).2.
Proof.
  intros Hos. destruct (omap_ops_simulate os NewOrderedMap Inv_New) as (m & E & _ & He).
  - change (usedSlots NewOrderedMap) with 0. lia.
  - by exists m.
Qed.

(** Deletions never leave a mostly empty map: after any sequence of
    operations the slots in use are fewer than four times the live entries (or
    there are none). *)
Theorem omap_space_bound (os : list op) :
  zlen os <= 2 ^ 48 ->
  exists m obs, run_ops os NewOrderedMap = Ret (obs, m) /\
    (usedSlots m = 0 \/ usedSlots m < 4 * Len m).
Proof.
  intros Hos. destruct (omap_ops_simulate os NewOrderedMap Inv_New) as (m & E & [_ Hs] & _).
  - change (usedSlots NewOrderedMap) with 0. lia.
  - eauto.
Qed.
End ordered_map.
Arguments orderedMapChunk K V : clear implicits.
Arguments OrderedMap K V {_ _}.
Arguments op K V : clear implicits.
Arguments obs K V : clear implicits.

(** Five insertions, three deletions (the last one compacts), a re-insertion. *)
Definition sample_ops : list (op Z Z) :=
  [OInsertOrKeep 1 10; OInsertOrKeep 2 20; OInsertOrKeep 3 30; OInsertOrKeep 4 40;
   OInsertOrKeep 5 50; OInsertOrReplace 2 21; ODelete 1; ODelete 3; ODelete 4; ODelete 5;
   OInsertOrKeep 1 11; OKeys; OLookup 2; OLen].

Lemma omap_refines_assoc_list_witness :
  zlen sample_ops <= 2 ^ 48 /\
  exists m, run_ops 0 0 sample_ops NewOrderedMap = Ret ((spec_ops sample_ops []).1, m) /\
    entries m = [(2, 21); (1, 11)].
Proof.
  split; [vm_compute; discriminate|].
  assert ([(2, 21); (1, 11)] = (spec_ops sample_ops []).2) as -> by (by vm_compute).
  apply (omap_refines_assoc_list 0 0 sample_ops). vm_compute. discriminate.
Defined.

Lemma omap_space_bound_witness :
  exists m obs, run_ops 0 0 sample_ops NewOrderedMap = Ret (obs, m) /\
    (usedSlots m = 0 \/ usedSlots m < 4 * Len m).
Proof. apply (omap_space_bound 0 0 sample_ops). vm_compute. discriminate. Defined.
