(* ===== verification/HashSet.v ===== *)
(** * [base/collections/set.go], [map.go], [slice.go]: hash sets and map helpers

    A Go map used as a set is a [gset].  Ranging over a Go map visits its keys
    in an unspecified order: operations that do so take the visiting order as
    an argument, a permutation of the elements ([is_order]). *)
From S2P Require Import Prelude.
From stdpp Require Import sorting.
Open Scope Z_scope.

Section hash_set.
Context {T : Type} `{Countable T}.

Record Set_ := MkSet { values : gset T }.

(** [order] is a possible visiting order of [range s.values]. *)
Definition is_order (s : Set_) (order : list T) : Prop := order ≡ₚ elements (values s).

Definition NewSet : Set_ := MkSet ∅.

(** [op.InsertResult]: [true] is [InsertedNew], [false] is [KeptOld]. *)
Definition Insert (s : Set_) (value : T) : Set_ * bool :=
  if decide (value ∈ values s) then (s, false) else (MkSet ({[value]} ∪ values s), true).

Definition InsertNew (s : Set_) (value : T) : go Set_ :=
  let ok := bool_decide (value ∈ values s) in
  _ ← Precondition (negb ok);
  Ret (MkSet ({[value]} ∪ values s)).

Definition Contains (s : Set_) (value : T) : bool := bool_decide (value ∈ values s).

Definition Len (s : Set_) : Z := Z.of_nat (size (values s)).

(** [for value := range s.values { if !bigger.Contains(value) { return false } }]. *)
Fixpoint contains_all (order : list T) (bigger : Set_) : bool :=
  match order with
  | [] => true
  | value :: rest => if Contains bigger value then contains_all rest bigger else false
  end.

Definition IsSubsetOf (order : list T) (s bigger : Set_) : bool :=
  if Len bigger <? Len s then false else contains_all order bigger.

Definition ValuesNonDet {S} (order : list T) (yield : yield_fn T S) (s : S) : S :=
  (range_yield order yield s).1.

(** [sort.Slice] with a strict order [lt]: a sorted permutation. *)
Definition sort_Slice {A} (le : relation A) `{!forall x y, Decision (le x y)} (l : list A) : list A :=
  merge_sort le l.

Definition SortedValues (le : relation T) `{!forall x y, Decision (le x y)} (order : list T) : list T :=
  sort_Slice le order.

Lemma contains_all_spec order bigger :
  contains_all order bigger = true <-> Forall (fun v => v ∈ values bigger) order.
Proof.
  induction order as [|v order IH]; cbn; [by split|].
  rewrite Forall_cons, <- IH. unfold Contains. case_bool_decide; naive_solver.
Qed.

Lemma set_IsSubsetOf_spec order s bigger :
  is_order s order -> IsSubsetOf order s bigger = bool_decide (values s ⊆ values bigger).
Proof.
  intros Ho. unfold IsSubsetOf, Len.
  destruct (Z.ltb_spec (Z.of_nat (size (values bigger))) (Z.of_nat (size (values s)))) as [Hlt|Hle].
  - symmetry. apply bool_decide_false. intros Hs%subseteq_size. lia.
  - apply eq_bool_prop_intro. rewrite bool_decide_spec, Is_true_true, contains_all_spec, Ho.
    rewrite Forall_forall. split; [intros Hf x Hx; apply Hf, elem_of_elements, Hx|].
    intros Hs x Hx. apply Hs. by apply elem_of_elements.
Qed.
End hash_set.
Arguments Set_ T {_ _}.

(** ** Map helpers ([map.go], [slice.go]) *)
Section map_helpers.
Context {K V : Type} `{Countable K}.

(** [for k := range m { keys = append(keys, k) }], then a sort. *)
Definition SortedMapKeys (le : relation K) `{!forall x y, Decision (le x y)} (order : list K) : list K :=
  sort_Slice le order.

Definition SortedMapKeysFunc (le : relation K) `{!forall x y, Decision (le x y)} (order : list K) : list K :=
  sort_Slice le order.

(** [order] lists the entries in the visiting order. *)
Definition SortedMapValues (le : relation V) `{!forall x y, Decision (le x y)} (order : list (K * V)) : list V :=
  sort_Slice le order.*2.

Fixpoint FilterSlice_loop {T} (s : list T) (pred : T -> bool) (result : list T) : list T :=
  match s with
  | [] => result
  | v :: s' => FilterSlice_loop s' pred (if pred v then result ++ [v] else result)
  end.
Definition FilterSlice {T} (s : list T) (pred : T -> bool) : list T := FilterSlice_loop s pred [].

Lemma FilterSlice_spec {T} (s : list T) (pred : T -> bool) : FilterSlice s pred = List.filter pred s.
Proof.
  unfold FilterSlice. change (List.filter pred s) with ([] ++ List.filter pred s).
  generalize (@nil T). induction s as [|v s IH]; intros acc; cbn; [by rewrite app_nil_r|].
  rewrite IH. destruct (pred v); [by rewrite <- app_assoc|done].
Qed.
End map_helpers.

Section sorted.
Context {T : Type} (le : relation T) `{!forall x y, Decision (le x y)} `{!TotalOrder le}.

Lemma sort_Slice_unique (l k : list T) : l ≡ₚ k -> sort_Slice le l = sort_Slice le k.
Proof.
  intros Hlk. unfold sort_Slice. apply (StronglySorted_unique le).
  - apply StronglySorted_merge_sort; apply _.
  - apply StronglySorted_merge_sort; apply _.
  - by rewrite !merge_sort_Permutation.
Qed.
End sorted.
