(* ===== verification/Stack.v ===== *)
(** * [base/collections/stack.go]: a LIFO stack

    The slice grows at its end; the abstract stack lists the top first. *)
From S2P Require Import Prelude.

Section stack.
Context {T : Type}.

Record Stack := MkStack { values : list T }.

Definition NewStack : Stack := MkStack [].
Definition Len (s : Stack) : Z := zlen (values s).
Definition Push (s : Stack) (value : T) : Stack := MkStack (values s ++ [value]).
Definition Pop (s : Stack) : go (T * Stack) :=
  let l := Len s in
  _ ← Precondition (0 <? l);
  let n := l - 1 in
  value ← index (values s) n;
  values' ← slice_to (values s) n;
  Ret (value, MkStack values').
Definition IsEmpty (s : Stack) : bool := Len s =? 0.

Definition contents (s : Stack) : list T := reverse (values s).

Lemma stack_push_spec s v : contents (Push s v) = v :: contents s.
Proof. unfold contents, Push. cbn [values]. by rewrite reverse_snoc. Qed.

Lemma stack_pop_spec s :
  Pop s = match contents s with
          | [] => Panic PreconditionViolation
          | v :: l => Ret (v, MkStack (reverse l))
          end.
Proof.
  unfold Pop, Len, contents. destruct s as [vs]; cbn [values].
  destruct vs as [|v vs _] using rev_ind; [done|].
  rewrite reverse_snoc, reverse_involutive, zlen_app. change (zlen [v]) with 1.
  pose proof (zlen_nonneg vs). rewrite Precondition_true by zcase. rewrite bind_ret.
  replace (zlen vs + 1 - 1) with (zlen vs) by lia.
  rewrite (index_nat _ (length vs) v) by (by apply list_lookup_middle). rewrite bind_ret.
  rewrite slice_to_in_range by zlia. rewrite bind_ret.
  unfold zlen. by rewrite Nat2Z.id, take_app_length.
Qed.
End stack.
Arguments Stack T : clear implicits.
