(* ===== verification/MonotoneMap.v ===== *)
(** * [base/collections/monotone_map.go]: a grow-only map in insertion order

    The struct holds a key slice and a Go map.  The values of this type are
    used linearly by their clients (a clone is made before every change), so
    the model passes the struct as a value. *)
From S2P Require Import Prelude HashSet.

Section monotone_map.
Context {K V : Type} `{Countable K} (zeroV : V).

Record MonotoneMap := MkMonotoneMap { keys : list K; values : gmap K V }.

Definition NewMonotoneMap : MonotoneMap := MkMonotoneMap [] ∅.

Definition Lookup (m : MonotoneMap) (key : K) : option V := values m !! key.
Definition Len (m : MonotoneMap) : Z := Z.of_nat (size (values m)).

(** The loop of [CloneWithout]; [m.values[key]] of an absent key is the zero value. *)
Fixpoint CloneWithout_loop (m : MonotoneMap) (omit : HashSet.Set_ K) (ks : list K) (acc : MonotoneMap)
  : MonotoneMap :=
  match ks with
  | [] => acc
  | key :: ks' =>
      if Contains omit key then CloneWithout_loop m omit ks' acc else
      let value := default zeroV (values m !! key) in
      CloneWithout_loop m omit ks'
        (MkMonotoneMap (keys acc ++ [key]) (<[key := value]> (values acc)))
  end.
Definition CloneWithout (m : MonotoneMap) (omit : HashSet.Set_ K) : MonotoneMap :=
  CloneWithout_loop m omit (keys m) (MkMonotoneMap [] ∅).

Definition Keys {S} (m : MonotoneMap) (yield : yield_fn K S) (s : S) : S :=
  (range_yield (keys m) yield s).1.

Definition InsertOrKeep (m : MonotoneMap) (key : K) (value : V) : MonotoneMap * bool :=
  match values m !! key with
  | Some _ => (m, false)
  | None => (MkMonotoneMap (keys m ++ [key]) (<[key := value]> (values m)), true)
  end.

Definition InsertOrReplace (m : MonotoneMap) (key : K) (value : V) : MonotoneMap * option V :=
  let old := values m !! key in
  let keys' := match old with Some _ => keys m | None => keys m ++ [key] end in
  (MkMonotoneMap keys' (<[key := value]> (values m)), old).

(** ** Specification *)

(** Every key is listed once, and the listed keys are those of the map. *)
Record Inv (m : MonotoneMap) : Prop := {
  inv_NoDup : NoDup (keys m);
  inv_dom : forall k, k ∈ keys m <-> is_Some (values m !! k)
}.

Lemma mono_Inv_New : Inv NewMonotoneMap.
Proof. split; cbn; [constructor|]. intros k. rewrite lookup_empty. split; [by intros ?%not_elem_of_nil|by intros []]. Qed.

Lemma mono_Inv_insert m k v :
  Inv m -> values m !! k = None -> Inv (MkMonotoneMap (keys m ++ [k]) (<[k := v]> (values m))).
Proof.
  intros [Hnd Hd] Hk. split; cbn.
  - apply NoDup_app. split; [done|]. split; [|apply NoDup_singleton].
    intros x Hx ->%list_elem_of_singleton. apply Hd in Hx. rewrite Hk in Hx. by destruct Hx.
  - intros x. rewrite elem_of_app, list_elem_of_singleton, Hd. destruct (decide (k = x)) as [->|].
    + rewrite lookup_insert_eq. naive_solver.
    + rewrite lookup_insert_ne by done. naive_solver.
Qed.

Lemma mono_Inv_overwrite m k v :
  Inv m -> is_Some (values m !! k) -> Inv (MkMonotoneMap (keys m) (<[k := v]> (values m))).
Proof.
  intros [Hnd Hd] Hk. split; cbn; [done|]. intros x. rewrite Hd.
  destruct (decide (k = x)) as [->|].
  - rewrite lookup_insert_eq. naive_solver.
  - by rewrite lookup_insert_ne.
Qed.

Lemma mono_Inv_InsertOrKeep m k v : Inv m -> Inv (InsertOrKeep m k v).1.
Proof.
  intros HI. unfold InsertOrKeep. destruct (values m !! k) eqn:E; [done|]. by apply mono_Inv_insert.
Qed.

Lemma mono_Inv_InsertOrReplace m k v : Inv m -> Inv (InsertOrReplace m k v).1.
Proof.
  intros HI. unfold InsertOrReplace. destruct (values m !! k) eqn:E; cbn.
  - apply mono_Inv_overwrite; [done|by rewrite E].
  - by apply mono_Inv_insert.
Qed.

Lemma mono_clone_loop m omit ks acc :
  (forall k, k ∈ ks -> is_Some (values m !! k)) -> Inv acc ->
  NoDup ks -> (forall k, k ∈ ks -> values acc !! k = None) ->
  let r := CloneWithout_loop m omit ks acc in
  Inv r /\ keys r = keys acc ++ filter (fun k => k ∉ HashSet.values omit) ks /\
  forall k, values r !! k = if decide (k ∈ ks /\ k ∉ HashSet.values omit) then values m !! k else values acc !! k.
Proof.
  revert acc. induction ks as [|key ks IH]; intros acc Hm HI Hnd Hfresh; cbn [CloneWithout_loop].
  { split; [done|]. split; [by rewrite filter_nil, app_nil_r|].
    intros k. rewrite decide_False; [done|]. intros [Hk _]. by apply not_elem_of_nil in Hk. }
  apply NoDup_cons in Hnd as [Hni Hnd].
  unfold Contains. case_bool_decide as Ho.
  - destruct (IH acc) as (HI' & Hk' & Hv'); [set_solver|done|done|set_solver|].
    split; [done|]. split; [by rewrite filter_cons_False by naive_solver|].
    intros k. rewrite Hv'. apply decide_ext. rewrite elem_of_cons. naive_solver.
  - destruct (Hm key ltac:(by left)) as [w Hw]. rewrite Hw. change (default zeroV (Some w)) with w.
    destruct (IH (MkMonotoneMap (keys acc ++ [key]) (<[key := w]> (values acc)))) as (HI' & Hk' & Hv').
    + set_solver.
    + apply mono_Inv_insert; [done|]. apply Hfresh. by left.
    + done.
    + intros k Hk. cbn. rewrite lookup_insert_ne by (intros ->; done). apply Hfresh. by right.
    + split; [done|]. split.
      * rewrite Hk'. cbn [keys]. rewrite filter_cons_True by done. by rewrite <- app_assoc.
      * intros k. rewrite Hv'. cbn [values]. destruct (decide (k = key)) as [->|Hne].
        -- rewrite (decide_False (P := key ∈ ks /\ _)) by naive_solver.
           rewrite lookup_insert_eq, decide_True by (split; [by left|done]). by rewrite Hw.
        -- rewrite lookup_insert_ne by done. apply decide_ext. rewrite elem_of_cons. naive_solver.
Qed.

(** A clone keeps the remaining keys in their order, with their values. *)
Lemma mono_CloneWithout_spec m omit :
  Inv m ->
  let r := CloneWithout m omit in
  Inv r /\ keys r = filter (fun k => k ∉ HashSet.values omit) (keys m) /\
  forall k, values r !! k = if decide (k ∈ HashSet.values omit) then None else values m !! k.
Proof.
  intros HI r. destruct (mono_clone_loop m omit (keys m) (MkMonotoneMap [] ∅)) as (HI' & Hk & Hv).
  - intros k. apply (inv_dom m HI).
  - apply mono_Inv_New.
  - apply (inv_NoDup m HI).
  - intros k _. apply lookup_empty.
  - split; [exact HI'|]. split; [exact Hk|]. intros k. unfold r, CloneWithout. rewrite Hv.
    cbn [values]. rewrite lookup_empty. pose proof (inv_dom m HI k) as Hd.
    destruct (values m !! k); repeat case_decide; naive_solver.
Qed.

(** The map as an association list in insertion order. *)
Definition to_list (m : MonotoneMap) : list (K * V) :=
  omap (fun k => (fun v => (k, v)) <$> values m !! k) (keys m).

Lemma mono_to_list_keys m : Inv m -> (to_list m).*1 = keys m.
Proof.
  intros HI. unfold to_list.
  assert (forall k, k ∈ keys m -> is_Some (values m !! k)) as Hk by (intros k; apply (inv_dom m HI)).
  induction (keys m) as [|k ks IH]; [done|]. cbn.
  destruct (Hk k ltac:(by left)) as [v Hv]. rewrite Hv. cbn. f_equal.
  apply IH. intros k' Hk'. apply Hk. by right.
Qed.

Lemma mono_to_list_lookup m k : Inv m -> al_lookup k (to_list m) = values m !! k.
Proof.
  intros HI. assert (NoDup (to_list m).*1) as Hnd.
  { rewrite mono_to_list_keys by done. apply (inv_NoDup m HI). }
  destruct (values m !! k) as [v|] eqn:Hv.
  - apply al_lookup_Some; [done|]. unfold to_list. apply list_elem_of_omap. exists k.
    rewrite Hv. split; [|done]. apply (inv_dom m HI). by rewrite Hv.
  - apply al_lookup_None; [done|]. intros v Hin. apply list_elem_of_omap in Hin as (k' & _ & E).
    destruct (values m !! k') eqn:E'; [|done]. cbn in E. congruence.
Qed.

Lemma omap_ext_in {A B} (f g : A -> option B) (l : list A) :
  (forall x, x ∈ l -> f x = g x) -> omap f l = omap g l.
Proof.
  induction l as [|x l IH]; intros Hfg; [done|]. cbn. rewrite Hfg by (by left).
  rewrite (IH ltac:(intros y Hy; apply Hfg; by right)). done.
Qed.

Lemma mono_to_list_insert m k v :
  Inv m -> values m !! k = None ->
  to_list (MkMonotoneMap (keys m ++ [k]) (<[k := v]> (values m))) = to_list m ++ [(k, v)].
Proof.
  intros HI Hk. unfold to_list; cbn [keys values]. rewrite omap_app. f_equal.
  - apply omap_ext_in. intros x Hx. rewrite lookup_insert_ne; [done|].
    intros ->. apply (inv_dom m HI) in Hx. rewrite Hk in Hx. by destruct Hx.
  - cbn. by rewrite lookup_insert_eq.
Qed.

Lemma mono_to_list_overwrite m k v :
  Inv m -> is_Some (values m !! k) ->
  to_list (MkMonotoneMap (keys m) (<[k := v]> (values m))) = al_replace k v (to_list m).
Proof.
  intros HI Hk. unfold to_list; cbn [keys values].
  assert (forall x, x ∈ keys m -> is_Some (values m !! x)) as Hks by (intros x; apply (inv_dom m HI)).
  induction (keys m) as [|x ks IH]; [done|]. cbn.
  assert (forall x, x ∈ ks -> is_Some (values m !! x)) as Hks' by (intros y Hy; apply Hks; by right).
  destruct (Hks x ltac:(by left)) as [w Hw]. rewrite Hw. cbn. destruct (decide (k = x)) as [->|].
  - rewrite lookup_insert_eq, decide_True by done. cbn. f_equal. by apply IH.
  - rewrite lookup_insert_ne, decide_False, Hw by done. cbn. f_equal. by apply IH.
Qed.

Lemma mono_InsertOrKeep_list m k v :
  Inv m ->
  let r := InsertOrKeep m k v in
  Inv r.1 /\ r.2 = bool_decide (al_lookup k (to_list m) = None) /\
  to_list r.1 = match al_lookup k (to_list m) with None => to_list m ++ [(k, v)] | Some _ => to_list m end.
Proof.
  intros HI r. unfold r, InsertOrKeep. rewrite mono_to_list_lookup by done.
  destruct (values m !! k) eqn:E; [done|]. cbn. split; [by apply mono_Inv_insert|].
  split; [done|]. by apply mono_to_list_insert.
Qed.

Lemma mono_InsertOrReplace_list m k v :
  Inv m ->
  let r := InsertOrReplace m k v in
  Inv r.1 /\ r.2 = al_lookup k (to_list m) /\
  to_list r.1 = match al_lookup k (to_list m) with
                | None => to_list m ++ [(k, v)]
                | Some _ => al_replace k v (to_list m)
                end.
Proof.
  intros HI r. unfold r, InsertOrReplace. rewrite mono_to_list_lookup by done.
  destruct (values m !! k) eqn:E; cbn.
  - split; [apply mono_Inv_overwrite; [done|by rewrite E]|]. split; [done|].
    apply mono_to_list_overwrite; [done|by rewrite E].
  - split; [by apply mono_Inv_insert|]. split; [done|]. by apply mono_to_list_insert.
Qed.

Lemma mono_CloneWithout_list m omit :
  Inv m ->
  let r := CloneWithout m omit in
  Inv r /\ to_list r = filter (fun kv => kv.1 ∉ HashSet.values omit) (to_list m).
Proof.
  intros HI r. destruct (mono_CloneWithout_spec m omit HI) as (HI' & Hk & Hv). fold r in HI', Hk, Hv.
  split; [done|]. unfold to_list. rewrite Hk. clear Hk HI'.
  assert (forall x, x ∈ keys m -> is_Some (values m !! x)) as Hks by (intros x; apply (inv_dom m HI)).
  induction (keys m) as [|x ks IH]; [done|].
  assert (forall x, x ∈ ks -> is_Some (values m !! x)) as Hks' by (intros y Hy; apply Hks; by right).
  destruct (Hks x ltac:(by left)) as [w Hw]. cbn [omap list_omap]. rewrite Hw. cbn [fmap option_fmap option_map].
  destruct (decide (x ∈ HashSet.values omit)).
  - rewrite !filter_cons_False by (cbn; tauto). by apply IH.
  - rewrite !filter_cons_True by (cbn; tauto). cbn [omap list_omap]. rewrite Hv, decide_False, Hw by done.
    cbn. f_equal. by apply IH.
Qed.

Lemma mono_Len m : Inv m -> Len m = zlen (to_list m).
Proof.
  intros HI. unfold Len, zlen. rewrite <- (length_fmap fst), mono_to_list_keys by done. f_equal.
  rewrite <- (size_list_to_set (C := gset K) (keys m)) by apply (inv_NoDup m HI).
  rewrite <- (size_dom (D := gset K)). f_equal. apply set_eq. intros k.
  by rewrite elem_of_dom, elem_of_list_to_set, (inv_dom m HI).
Qed.
End monotone_map.
Arguments MonotoneMap K V {_ _}.
