(* ===== verification/Env.v ===== *)
(** * [base/envx/envx.go]: immutable environment mappings

    An [Env] maps canonicalized keys to the latest spelling of the key and its
    value.  On Windows the canonical key is the upper-cased key: the operating
    system flag and [strings.ToUpper] are arguments of the model. *)
From S2P Require Import Prelude HashSet MonotoneMap.

Section env.
Context (windows : bool) (ToUpper : gostring -> gostring).

Record envEntry := MkEntry { key : gostring; value : gostring }.
Record Env := MkEnv { entries : MonotoneMap.MonotoneMap gostring envEntry }.

Definition zeroEntry : envEntry := MkEntry [] [].

Definition Empty : Env := MkEnv MonotoneMap.NewMonotoneMap.

Definition canonicalKey (k : gostring) : gostring := if negb windows then k else ToUpper k.

Fixpoint New_loop (kvs : list (gostring * gostring)) (acc : MonotoneMap gostring envEntry)
  : go (MonotoneMap gostring envEntry) :=
  match kvs with
  | [] => Ret acc
  | (k, v) :: kvs' =>
      let ck := canonicalKey k in
      let '(acc', inserted) := MonotoneMap.InsertOrKeep acc ck (MkEntry k v) in
      if inserted then New_loop kvs' acc' else Panic PreconditionViolation
  end.
Definition New (kvs : list (gostring * gostring)) : go Env :=
  m ← New_loop kvs MonotoneMap.NewMonotoneMap; Ret (MkEnv m).

Definition NewIgnoringDupes (kvs : list (gostring * gostring)) : Env :=
  MkEnv (fold_left (fun acc '(k, v) =>
    (MonotoneMap.InsertOrReplace acc (canonicalKey k) (MkEntry k v)).1) kvs MonotoneMap.NewMonotoneMap).

Definition Lookup (env : Env) (k : gostring) : option gostring :=
  match MonotoneMap.Lookup (entries env) (canonicalKey k) with
  | None => None
  | Some entry => Some (value entry)
  end.

(** ["="] *)
Definition equals_sign : gostring := [61].

Fixpoint Entries_loop (env : Env) (ks : list gostring) (acc : list gostring) : go (list gostring) :=
  match ks with
  | [] => Ret acc
  | k :: ks' =>
      match MonotoneMap.Lookup (entries env) k with
      | None => Panic InvariantViolation
      | Some entry => Entries_loop env ks' (acc ++ [key entry ++ equals_sign ++ value entry])
      end
  end.
Definition Entries (env : Env) : go (list gostring) := Entries_loop env (MonotoneMap.keys (entries env)) [].

Definition InsertOrKeep (env : Env) (k v : gostring) : go (Env * bool) :=
  let canonical := canonicalKey k in
  match MonotoneMap.Lookup (entries env) canonical with
  | Some _ => Ret (env, false)
  | None =>
      let next := MonotoneMap.CloneWithout zeroEntry (entries env) HashSet.NewSet in
      let '(next', res) := MonotoneMap.InsertOrKeep next canonical (MkEntry k v) in
      _ ← Invariant res;
      Ret (MkEnv next', res)
  end.

Definition InsertOrReplace (env : Env) (k v : gostring) : Env * option gostring :=
  let canonical := canonicalKey k in
  let replace :=
    let next := MonotoneMap.CloneWithout zeroEntry (entries env) HashSet.NewSet in
    let '(next', prev) := MonotoneMap.InsertOrReplace next canonical (MkEntry k v) in
    (MkEnv next', value <$> prev) in
  match MonotoneMap.Lookup (entries env) canonical with
  | Some old =>
      if bool_decide (key old = k) && bool_decide (value old = v)
      then (env, Some (value old)) else replace
  | None => replace
  end.

(** [order] is the visiting order of [omit.ValuesNonDet()]. *)
Fixpoint canonicalOmit_loop (env : Env) (order : list gostring) (acc : HashSet.Set_ gostring)
  : go (HashSet.Set_ gostring) :=
  match order with
  | [] => Ret acc
  | k :: order' =>
      let canonical := canonicalKey k in
      match MonotoneMap.Lookup (entries env) canonical with
      | Some _ => acc' ← HashSet.InsertNew acc canonical; canonicalOmit_loop env order' acc'
      | None => canonicalOmit_loop env order' acc
      end
  end.
Definition CloneWithout (env : Env) (omit : HashSet.Set_ gostring) (order : list gostring) : go Env :=
  if HashSet.Len omit =? 0 then Ret env else
  canonicalOmit ← canonicalOmit_loop env order HashSet.NewSet;
  if HashSet.Len canonicalOmit =? 0 then Ret env else
  Ret (MkEnv (MonotoneMap.CloneWithout zeroEntry (entries env) canonicalOmit)).

(** ** Specification: an association list from canonical keys to entries *)

Definition abs (env : Env) : list (gostring * envEntry) := MonotoneMap.to_list (entries env).
Definition Inv (env : Env) : Prop := MonotoneMap.Inv (entries env).

Lemma env_filter_true {A} (l : list A) : filter (fun _ => True) l = l.
Proof. induction l as [|x l IH]; [done|]. rewrite filter_cons_True by done. by rewrite IH. Qed.

Lemma env_clone_all env :
  Inv env ->
  let next := MonotoneMap.CloneWithout zeroEntry (entries env) HashSet.NewSet in
  MonotoneMap.Inv next /\ MonotoneMap.to_list next = abs env.
Proof.
  intros HI next. destruct (MonotoneMap.mono_CloneWithout_list zeroEntry (entries env) HashSet.NewSet HI) as [? E].
  split; [done|]. unfold next. rewrite E. fold (abs env). etrans; [|apply env_filter_true].
  apply list_filter_iff. intros x. cbn. set_solver.
Qed.

Lemma env_Lookup_abs env k : Inv env -> Lookup env k = value <$> al_lookup (canonicalKey k) (abs env).
Proof.
  intros HI. unfold Lookup, MonotoneMap.Lookup, abs. rewrite MonotoneMap.mono_to_list_lookup by done.
  by destruct (_ !! _).
Qed.

Lemma env_lookup_abs env k : Inv env -> MonotoneMap.Lookup (entries env) k = al_lookup k (abs env).
Proof. intros HI. symmetry. by apply MonotoneMap.mono_to_list_lookup. Qed.

Lemma env_InsertOrKeep_abs env k v :
  Inv env ->
  exists env', InsertOrKeep env k v = Ret (env', bool_decide (al_lookup (canonicalKey k) (abs env) = None)) /\
    Inv env' /\
    abs env' = match al_lookup (canonicalKey k) (abs env) with
               | Some _ => abs env
               | None => abs env ++ [(canonicalKey k, MkEntry k v)]
               end.
Proof.
  intros HI. unfold InsertOrKeep. rewrite env_lookup_abs by done.
  destruct (al_lookup (canonicalKey k) (abs env)) as [e|] eqn:E; [by exists env|].
  destruct (env_clone_all env HI) as [HI' Ha]. set (next := MonotoneMap.CloneWithout _ _ _) in *.
  destruct (MonotoneMap.mono_InsertOrKeep_list next (canonicalKey k) (MkEntry k v) HI') as (Hi & Hr & Hl).
  rewrite Ha, E in Hr, Hl. destruct (MonotoneMap.InsertOrKeep next _ _) as [next' res]. cbn in *. subst res.
  by exists (MkEnv next').
Qed.

Lemma env_InsertOrReplace_abs env k v :
  Inv env ->
  let r := InsertOrReplace env k v in
  r.2 = value <$> al_lookup (canonicalKey k) (abs env) /\ Inv r.1 /\
  abs r.1 = match al_lookup (canonicalKey k) (abs env) with
            | Some _ => al_replace (canonicalKey k) (MkEntry k v) (abs env)
            | None => abs env ++ [(canonicalKey k, MkEntry k v)]
            end.
Proof.
  intros HI r. unfold r, InsertOrReplace. rewrite env_lookup_abs by done.
  destruct (env_clone_all env HI) as [HI' Ha]. set (next := MonotoneMap.CloneWithout _ _ _) in *.
  destruct (MonotoneMap.mono_InsertOrReplace_list next (canonicalKey k) (MkEntry k v) HI') as (Hi & Hr & Hl).
  rewrite Ha in Hr, Hl. destruct (MonotoneMap.InsertOrReplace next _ _) as [next' prev]. cbn in *. subst prev.
  destruct (al_lookup (canonicalKey k) (abs env)) as [old|] eqn:E; [|done].
  destruct (bool_decide (key old = k) && bool_decide (value old = v)) eqn:Eq; [|done].
  apply andb_true_iff in Eq as [Ek%bool_decide_eq_true Ev%bool_decide_eq_true].
  split; [done|]. split; [done|]. cbn.
  symmetry. destruct old as [k0 v0]; cbn in *; subst. clear -E HI.
  assert (NoDup (abs env).*1) as Hnd.
  { unfold abs. rewrite MonotoneMap.mono_to_list_keys by done. apply (MonotoneMap.inv_NoDup _ HI). }
  apply al_lookup_Some in E; [|done].
  revert E Hnd. induction (abs env) as [|[k' e'] l IH]; [by intros ?%not_elem_of_nil|].
  intros Hin Hnd. cbn in Hnd. apply NoDup_cons in Hnd as [Hni Hnd]. cbn.
  apply elem_of_cons in Hin as [[= <- <-]|Hin].
  - rewrite decide_True by done. f_equal. by apply al_replace_none.
  - rewrite decide_False; [f_equal; by apply IH|].
    intros ->. apply Hni, list_elem_of_fmap. eexists. split; [|exact Hin]. done.
Qed.

Lemma env_Entries_abs env :
  Inv env -> Entries env = Ret (map (fun ke => key ke.2 ++ equals_sign ++ value ke.2) (abs env)).
Proof.
  intros HI. unfold Entries, abs, MonotoneMap.to_list.
  assert (forall ks acc, (forall k, k ∈ ks -> is_Some (MonotoneMap.values (entries env) !! k)) ->
    Entries_loop env ks acc = Ret (acc ++ map (fun ke => key ke.2 ++ equals_sign ++ value ke.2)
      (omap (fun k => (fun v => (k, v)) <$> MonotoneMap.values (entries env) !! k) ks))) as Hgen.
  { induction ks as [|k ks IH]; intros acc Hks; cbn [Entries_loop]; [cbn; by rewrite app_nil_r|].
    destruct (Hks k ltac:(by left)) as [e He]. unfold MonotoneMap.Lookup. rewrite He.
    rewrite IH by (intros k' Hk'; apply Hks; by right).
    cbn [omap list_omap]. rewrite He. cbn. by rewrite <- app_assoc. }
  apply Hgen. intros k. apply (MonotoneMap.inv_dom _ HI).
Qed.

(** ** Construction and removal *)

(** The entries of a list of key-value pairs, later pairs replacing earlier ones. *)
Definition spec_insert (k v : gostring) (l : list (gostring * envEntry)) : list (gostring * envEntry) :=
  match al_lookup (canonicalKey k) l with
  | Some _ => al_replace (canonicalKey k) (MkEntry k v) l
  | None => l ++ [(canonicalKey k, MkEntry k v)]
  end.

Lemma env_NewIgnoringDupes_abs kvs :
  Inv (NewIgnoringDupes kvs) /\
  abs (NewIgnoringDupes kvs) = fold_left (fun l '(k, v) => spec_insert k v l) kvs [].
Proof.
  unfold NewIgnoringDupes, Inv, abs; cbn [entries].
  assert (forall m l, MonotoneMap.Inv m -> MonotoneMap.to_list m = l ->
    let m' := fold_left (fun acc '(k, v) => (MonotoneMap.InsertOrReplace acc (canonicalKey k) (MkEntry k v)).1) kvs m in
    MonotoneMap.Inv m' /\ MonotoneMap.to_list m' = fold_left (fun l '(k, v) => spec_insert k v l) kvs l) as Hgen.
  { induction kvs as [|[k v] kvs IH]; intros m l HI Hl; [done|].
    destruct (MonotoneMap.mono_InsertOrReplace_list m (canonicalKey k) (MkEntry k v) HI) as (HI' & _ & Hl').
    cbn [fold_left]. apply IH; [done|]. rewrite Hl', Hl. unfold spec_insert. by destruct (al_lookup _ l). }
  apply Hgen; [apply MonotoneMap.mono_Inv_New|done].
Qed.

Lemma env_New_loop_spec kvs m :
  MonotoneMap.Inv m ->
  if decide (NoDup ((MonotoneMap.to_list m).*1 ++ map (fun kv => canonicalKey kv.1) kvs)) then
    exists m', New_loop kvs m = Ret m' /\ MonotoneMap.Inv m' /\
      MonotoneMap.to_list m' = MonotoneMap.to_list m ++
        map (fun kv => (canonicalKey kv.1, MkEntry kv.1 kv.2)) kvs
  else New_loop kvs m = Panic PreconditionViolation.
Proof.
  revert m. induction kvs as [|[k v] kvs IH]; intros m HI.
  { cbn. rewrite !app_nil_r. rewrite decide_True; [by exists m|].
    rewrite MonotoneMap.mono_to_list_keys by done. apply (MonotoneMap.inv_NoDup _ HI). }
  cbn [New_loop map fst snd].
  assert (NoDup (MonotoneMap.to_list m).*1) as Hnd.
  { rewrite MonotoneMap.mono_to_list_keys by done. apply (MonotoneMap.inv_NoDup _ HI). }
  destruct (MonotoneMap.mono_InsertOrKeep_list m (canonicalKey k) (MkEntry k v) HI) as (HI' & Hr & Hl').
  destruct (MonotoneMap.InsertOrKeep m _ _) as [m' res]. cbn [fst snd] in *. subst res.
  destruct (al_lookup (canonicalKey k) (MonotoneMap.to_list m)) as [e|] eqn:E; cbn.
  - rewrite decide_False; [done|]. intros (_ & Hd & _)%NoDup_app.
    apply al_lookup_Some in E; [|done]. apply (Hd (canonicalKey k)); [|by left].
    apply list_elem_of_fmap. by exists (canonicalKey k, e).
  - specialize (IH m' HI'). rewrite Hl', fmap_app, <- app_assoc in IH. cbn in IH.
    case_decide; [|done]. destruct IH as (m2 & ? & ? & E2). exists m2. rewrite E2.
    split; [done|]. split; [done|]. by rewrite <- app_assoc.
Qed.

Lemma env_canonicalOmit_spec env order acc :
  Inv env ->
  NoDup (map canonicalKey order) -> (forall k, k ∈ order -> canonicalKey k ∉ HashSet.values acc) ->
  exists s, canonicalOmit_loop env order acc = Ret s /\
    forall c, c ∈ HashSet.values s <-> c ∈ HashSet.values acc \/
      (is_Some (al_lookup c (abs env)) /\ c ∈ map canonicalKey order).
Proof.
  intros HI. revert acc. induction order as [|k order IH]; intros acc Hnd Hf; cbn [canonicalOmit_loop].
  { exists acc. split; [done|]. intros c. cbn. rewrite elem_of_nil. naive_solver. }
  cbn in Hnd. apply NoDup_cons in Hnd as [Hni Hnd]. rewrite env_lookup_abs by done.
  destruct (al_lookup (canonicalKey k) (abs env)) as [e|] eqn:E.
  - unfold HashSet.InsertNew. rewrite bool_decide_false by (apply Hf; by left). cbn [negb Precondition].
    rewrite !bind_ret. destruct (IH (HashSet.MkSet ({[canonicalKey k]} ∪ HashSet.values acc)) Hnd) as (s & -> & Hs).
    { intros k' Hk'. cbn. rewrite not_elem_of_union, not_elem_of_singleton. split.
      - intros Heq. apply Hni. rewrite <- Heq. apply list_elem_of_fmap. by exists k'.
      - apply Hf. by right. }
    exists s. split; [done|]. intros c. rewrite Hs. cbn. rewrite elem_of_union, elem_of_singleton, elem_of_cons.
    naive_solver.
  - destruct (IH acc Hnd) as (s & -> & Hs); [intros k' Hk'; apply Hf; by right|].
    exists s. split; [done|]. intros c. rewrite Hs. cbn. rewrite elem_of_cons.
    split; [naive_solver|]. intros [?|[[e He] [->|?]]]; [by left|congruence|right; eauto].
Qed.

(** [CloneWithout] drops exactly the keys whose canonical form is the canonical
    form of an omitted key, whatever order the omit set is visited in. *)
Lemma env_CloneWithout_spec (env : Env) (omit : HashSet.Set_ gostring) (order : list gostring) :
  Inv env -> HashSet.is_order omit order -> NoDup (map canonicalKey order) ->
  exists env', CloneWithout env omit order = Ret env' /\ Inv env' /\
    abs env' = filter (fun ke => ke.1 ∉ map canonicalKey order) (abs env).
Proof.
  intros HI Ho Hnd. unfold CloneWithout.
  assert (filter (fun ke => ke.1 ∉ @nil gostring) (abs env) = abs env) as Hnil.
  { etrans; [|apply env_filter_true]. apply list_filter_iff. intros x. rewrite elem_of_nil. tauto. }
  destruct (Z.eqb_spec (HashSet.Len omit) 0) as [Hz|Hz].
  { assert (order = []) as ->.
    { apply Permutation_nil. rewrite Ho. unfold HashSet.Len in Hz.
      assert (size (HashSet.values omit) = 0%nat) as Hs by lia.
      apply size_empty_inv in Hs. rewrite (elements_proper _ _ Hs). by rewrite elements_empty. }
    exists env. cbn. by rewrite Hnil. }
  destruct (env_canonicalOmit_spec env order HashSet.NewSet HI Hnd) as (s & -> & Hs); [set_solver|].
  rewrite bind_ret.
  assert (forall ke, ke ∈ abs env -> ke.1 ∈ HashSet.values s <-> ke.1 ∈ map canonicalKey order) as Hke.
  { intros [c e] Hin. cbn. rewrite Hs.
    assert (is_Some (al_lookup c (abs env))) as Hsome.
    { exists e. apply al_lookup_Some; [|done]. unfold abs.
      rewrite MonotoneMap.mono_to_list_keys by done. apply (MonotoneMap.inv_NoDup _ HI). }
    set_solver. }
  assert (filter (fun ke => ke.1 ∉ HashSet.values s) (abs env) =
          filter (fun ke => ke.1 ∉ map canonicalKey order) (abs env)) as <-.
  { clear -Hke. induction (abs env) as [|ke l IH]; [done|].
    assert (ke.1 ∈ HashSet.values s <-> ke.1 ∈ map canonicalKey order) as E by (apply Hke; by left).
    destruct (decide (ke.1 ∈ HashSet.values s)) as [Hin|Hin].
    - rewrite !filter_cons_False by (cbn; tauto). apply IH. intros ke' Hk'. apply Hke. by right.
    - rewrite !filter_cons_True by (cbn; tauto). f_equal. apply IH. intros ke' Hk'. apply Hke. by right. }
  destruct (Z.eqb_spec (HashSet.Len s) 0) as [Hz'|Hz'].
  - exists env. split; [done|]. split; [done|]. symmetry. etrans; [|apply env_filter_true].
    apply list_filter_iff. intros x. unfold HashSet.Len in Hz'.
    assert (size (HashSet.values s) = 0%nat) as Hsz by lia. apply size_empty_inv in Hsz. set_solver.
  - eexists. split; [done|]. by apply (MonotoneMap.mono_CloneWithout_list zeroEntry).
Qed.

(** ** Traces of operations *)

Inductive op := OLookup (k : gostring) | OEntries | OInsertOrKeep (k v : gostring)
  | OInsertOrReplace (k v : gostring) | OCloneWithout (omit : HashSet.Set_ gostring) (order : list gostring).
Inductive obs := ObsOption (r : option gostring) | ObsEntries (l : list gostring) | ObsBool (b : bool) | ObsNone.
(** [order] is an order in which the set can be visited, and the documented
    pre-condition: no two of its keys are the same to the operating system. *)
Definition wf_op (o : op) : Prop :=
  match o with
  | OCloneWithout omit order => HashSet.is_order omit order /\ NoDup (map canonicalKey order)
  | _ => True
  end.

Definition run_op (o : op) (env : Env) : go (obs * Env) :=
  match o with
  | OLookup k => Ret (ObsOption (Lookup env k), env)
  | OEntries => l ← Entries env; Ret (ObsEntries l, env)
  | OInsertOrKeep k v => '(env', b) ← InsertOrKeep env k v; Ret (ObsBool b, env')
  | OInsertOrReplace k v => let '(env', old) := InsertOrReplace env k v in Ret (ObsOption old, env')
  | OCloneWithout omit order => env' ← CloneWithout env omit order; Ret (ObsNone, env')
  end.

(** The same operations on the association list from canonical keys. *)
Definition spec_op (o : op) (l : list (gostring * envEntry)) : obs * list (gostring * envEntry) :=
  match o with
  | OLookup k => (ObsOption (value <$> al_lookup (canonicalKey k) l), l)
  | OEntries => (ObsEntries (map (fun ke => key ke.2 ++ equals_sign ++ value ke.2) l), l)
  | OInsertOrKeep k v =>
      match al_lookup (canonicalKey k) l with
      | Some _ => (ObsBool false, l)
      | None => (ObsBool true, l ++ [(canonicalKey k, MkEntry k v)])
      end
  | OInsertOrReplace k v =>
      (ObsOption (value <$> al_lookup (canonicalKey k) l), spec_insert k v l)
  | OCloneWithout _ order => (ObsNone, filter (fun ke => ke.1 ∉ map canonicalKey order) l)
  end.

Fixpoint run_ops (os : list op) (env : Env) : go (list obs) :=
  match os with
  | [] => Ret []
  | o :: os' => '(r, env') ← run_op o env; rs ← run_ops os' env'; Ret (r :: rs)
  end.
Fixpoint spec_ops (os : list op) (l : list (gostring * envEntry)) : list obs :=
  match os with
  | [] => []
  | o :: os' => let '(r, l') := spec_op o l in r :: spec_ops os' l'
  end.

Lemma env_op_simulates o env :
  Inv env -> wf_op o -> exists env', run_op o env = Ret ((spec_op o (abs env)).1, env') /\
    Inv env' /\ abs env' = (spec_op o (abs env)).2.
Proof.
  intros HI Hwf. destruct o as [k| |k v|k v|omit order]; cbn [run_op spec_op].
  - rewrite env_Lookup_abs by done. by exists env.
  - rewrite env_Entries_abs by done. by exists env.
  - destruct (env_InsertOrKeep_abs env k v HI) as (env' & -> & HI' & Ha). rewrite bind_ret.
    exists env'. by destruct (al_lookup (canonicalKey k) (abs env)).
  - destruct (env_InsertOrReplace_abs env k v HI) as (Hr & HI' & Ha).
    destruct (InsertOrReplace env k v) as [env' old]. cbn in *. subst old.
    exists env'. by rewrite Ha.
  - destruct Hwf as [Ho Hnd]. destruct (env_CloneWithout_spec env omit order HI Ho Hnd) as (env' & -> & HI' & Ha).
    by exists env'.
Qed.

Lemma env_ops_simulate os env : Forall wf_op os -> Inv env -> run_ops os env = Ret (spec_ops os (abs env)).
Proof.
  intros Hwf. revert env. induction Hwf as [|o os Ho _ IH]; intros env HI; [done|]. cbn [run_ops spec_ops].
  destruct (env_op_simulates o env HI Ho) as (env' & -> & HI' & Ha).
  rewrite bind_ret. destruct (spec_op o (abs env)) as [r l]. cbn in *. subst l.
  by rewrite IH.
Qed.

(** C36: an [Env] built with [NewIgnoringDupes] behaves, under any sequence of
    lookups, insertions, enumerations and removals, as an association list indexed
    by canonical keys: no operation panics, a replacement keeps the position of the
    key and records its latest spelling, [CloneWithout] removes exactly the keys
    whose canonical form is that of an omitted key, in whatever order the set is
    visited, and [Entries] lists "key=value" strings in the order of first
    insertion.  The omitted sets meet their documented pre-condition: no two of
    their keys have the same canonical form. *)
Theorem env_refines_assoc_list (kvs : list (gostring * gostring)) (os : list op) (Hwf : Forall wf_op os) :
  run_ops os (NewIgnoringDupes kvs) =
    Ret (spec_ops os (fold_left (fun l '(k, v) => spec_insert k v l) kvs [])).
Proof.
  destruct (env_NewIgnoringDupes_abs kvs) as [HI <-]. by apply env_ops_simulate.
Qed.

(** [New] accepts exactly the inputs whose canonical keys are distinct, and
    then holds the pairs in their order; otherwise it panics. *)
Lemma env_New_spec (kvs : list (gostring * gostring)) :
  if decide (NoDup (map (fun kv => canonicalKey kv.1) kvs)) then
    exists env, New kvs = Ret env /\ Inv env /\
      abs env = map (fun kv => (canonicalKey kv.1, MkEntry kv.1 kv.2)) kvs
  else New kvs = Panic PreconditionViolation.
Proof.
  pose proof (env_New_loop_spec kvs MonotoneMap.NewMonotoneMap MonotoneMap.mono_Inv_New) as Hs.
  change ((MonotoneMap.to_list MonotoneMap.NewMonotoneMap).*1) with (@nil gostring) in Hs.
  cbn [app] in Hs. unfold New. case_decide.
  - destruct Hs as (m & -> & HI & Hl). by exists (MkEnv m).
  - by rewrite Hs.
Qed.

End env.

Definition upper_ascii (s : gostring) : gostring := map (fun c => if (97 <=? c) && (c <=? 122) then c - 32 else c) s.
(** On Windows, a key removed by another spelling. *)
Definition sample_ops : list op :=
  [OInsertOrReplace (str "Path") (str "b"); OInsertOrKeep (str "HOME") (str "c"); OEntries;
   OCloneWithout (HashSet.MkSet {[str "PATH"]}) [str "PATH"]; OLookup (str "path"); OEntries].
Lemma env_refines_assoc_list_witness :
  Forall (wf_op true upper_ascii) sample_ops /\
  run_ops true upper_ascii sample_ops (NewIgnoringDupes true upper_ascii [(str "path", str "a")]) =
    Ret [ObsOption (Some (str "a")); ObsBool true; ObsEntries [str "Path=b"; str "HOME=c"]; ObsNone; ObsOption None; ObsEntries [str "HOME=c"]].
Proof.
  assert (Forall (wf_op true upper_ascii) sample_ops) as Hwf.
  { repeat first [apply List.Forall_cons | apply List.Forall_nil]; try exact I. split; [|by apply NoDup_singleton].
    unfold HashSet.is_order. cbn [HashSet.values]. by rewrite elements_singleton. }
  split; [exact Hwf|]. rewrite (env_refines_assoc_list true upper_ascii [(str "path", str "a")] sample_ops Hwf). vm_compute. reflexivity.
Defined.
