(* ===== verification/Core.v ===== *)
(** * Small core types ([core/option], [core/result], [core/op], [core/limited],
    [core/pair], [cmpx], [enum], [zero])

    Go's zero value of a type parameter is the argument [zero] of the
    definitions that build one.  A [nil] error is [None]. *)
From S2P Require Import Prelude.

(** ** cmpx *)

Definition CompareBool (b1 b2 : bool) : Z :=
  if b1 then (if b2 then 0 else 1)
  else if b2 then -1 else 0.

(** ** core/option *)
Record Option (T : Type) := MkOption { value : T; valid : bool }.
Arguments MkOption {_} _ _.
Arguments value {_} _.
Arguments valid {_} _.

Record BoundsChecked (T : Type) := MkBoundsChecked { bvalue : T; overflowed : bool }.
Arguments MkBoundsChecked {_} _ _.
Arguments bvalue {_} _.
Arguments overflowed {_} _.

Definition Zero {T} (zero : T) : T := zero.

Section option.
Context {T : Type} (zero : T).

Definition None_ : Option T := MkOption zero false.
Definition Some_ (v : T) : Option T := MkOption v true.
Definition NewOption (v : T) (ok : bool) : Option T := if ok then MkOption v true else None_.
Definition Get (o : Option T) : T * bool := (value o, valid o).
Definition Unwrap (o : Option T) : go T := _ ← Precondition (valid o); Ret (value o).
Definition Expect (o : Option T) : go T :=
  _ ← (if negb (valid o) then Invariant false else Ret tt); Ret (value o).
Definition IsSome (o : Option T) : bool := valid o.
Definition IsNone (o : Option T) : bool := negb (valid o).
Definition ValueOr (o : Option T) (fallback : T) : T := if valid o then value o else fallback.

(** [json.Marshal] and [json.Unmarshal] at type [T] are arguments: bytes, or an error. *)
Context {E : Type} (Marshal : T -> gostring + E) (Unmarshal : gostring -> T + E).

Definition MarshalJSON (o : Option T) : gostring + E :=
  if negb (valid o) then inl (str "null") else Marshal (value o).

(** The result is the new value of the receiver and the error. *)
Definition UnmarshalJSON (o : Option T) (data : gostring) : Option T * option E :=
  if decide (data = str "null") then (None_, None)
  else match Unmarshal data with
       | inr err => (o, Some err)
       | inl v => (Some_ v, None)
       end.

Definition InRange (t : T) : BoundsChecked T := MkBoundsChecked t false.
Definition Overflowed : BoundsChecked T := MkBoundsChecked zero true.
Definition bGet (b : BoundsChecked T) : T * bool := (bvalue b, negb (overflowed b)).
Definition IsOverflowed (b : BoundsChecked T) : bool := overflowed b.
Definition bUnwrap (b : BoundsChecked T) : go T :=
  _ ← (if overflowed b then Precondition false else Ret tt); Ret (bvalue b).
End option.

Definition Compare (o1 o2 : Option Z) : Z :=
  let '(v1, ok1) := Get o1 in
  let '(v2, ok2) := Get o2 in
  if ok1 && ok2 then cmp_Compare v1 v2 else CompareBool ok1 ok2.

(** ** core/result *)
Record Result (T E : Type) := MkResult { rvalue : T; err : option E }.
Arguments MkResult {_ _} _ _.
Arguments rvalue {_ _} _.
Arguments err {_ _} _.

Section result.
Context {T E : Type} (zero : T).

Definition Success (value : T) : Result T E := MkResult value None.
Definition Failure (e : option E) : go (Result T E) :=
  _ ← Precondition (bool_decide (e <> None)); Ret (MkResult zero e).
Definition New (value : T) (e : option E) : go (Result T E) :=
  if bool_decide (e <> None) then Failure e else Ret (Success value).
Definition rGet (r : Result T E) : T * option E := (rvalue r, err r).
Definition ErrOrNil (r : Result T E) : option E := err r.
End result.

(** ** core/op *)
Definition InsertResult := bool.
Definition InsertedNew : InsertResult := true.
Definition KeptOld : InsertResult := false.
Definition AsBool (res : InsertResult) : bool := res.
Definition PlatformSupport := bool.
Definition Supported : PlatformSupport := true.
Definition Unsupported : PlatformSupport := false.
Definition IsSupported (s : PlatformSupport) : bool := s.
Definition IsUnsupported (s : PlatformSupport) : bool := negb s.
Definition Next := bool.
Definition KeepGoing : Next := true.
Definition NoGo : Next := false.

(** ** core/pair *)
Record KeyValue (K V : Type) := NewKeyValue { Key : K; Value : V }.
Record Pair (A B : Type) := NewPair { First : A; Second : B }.
Definition Unpack {A B} (p : Pair A B) : A * B := (First _ _ p, Second _ _ p).

(** ** core/limited: a counter of [w] bits *)
Section counter.
Context (w : Z).

Record Counter := MkCounter { limit : Z; hits : Z }.

Definition NewCounter (limit : Z) : Counter := MkCounter limit 0.
Definition Inc (c : Counter) : go (Counter * Next) :=
  let c := MkCounter (limit c) (uint_wrap w (hits c + 1)) in
  _ ← (if hits c =? 0 then Precondition false else Ret tt);
  if hits c <=? limit c then Ret (c, KeepGoing) else Ret (c, NoGo).
Definition Dropped (c : Counter) : Z :=
  if hits c <=? limit c then 0 else uint_wrap w (hits c - limit c).
Definition Hits (c : Counter) : Z := hits c.
Definition Limit (c : Counter) : Z := limit c.
End counter.

(** ** enum *)
Inductive EnumFilterKind := FilterKind_All | FilterKind_Exact | FilterKind_Other (k : Z).
#[global] Instance EnumFilterKind_eq_dec : EqDecision EnumFilterKind.
Proof. solve_decision. Defined.
Record EnumFilter (E : Type) := MkEnumFilter { specificData : E; kind : EnumFilterKind }.
Arguments MkEnumFilter {_} _ _.
Arguments specificData {_} _.
Arguments kind {_} _.

Section enum.
Context {E : Type} (zero : E).

Definition NewAllFilter : EnumFilter E := MkEnumFilter zero FilterKind_All.
Definition NewExactFilter (value : E) : EnumFilter E := MkEnumFilter value FilterKind_Exact.
Definition Kind (ef : EnumFilter E) : EnumFilterKind := kind ef.
Definition ExactValue (ef : EnumFilter E) : go E :=
  _ ← Precondition (bool_decide (kind ef = FilterKind_Exact)); Ret (specificData ef).
End enum.

Definition EnumFilterKind_String (k : EnumFilterKind) : go gostring :=
  match k with
  | FilterKind_All => Ret (str "all")
  | FilterKind_Exact => Ret (str "exact")
  | FilterKind_Other _ => PanicUnknownCase
  end.

(** ** Lemmas *)

(** The abstract value of an [Option]. *)
Definition to_option {T} (o : Option T) : option T := if valid o then Some (value o) else None.

Lemma option_json_roundtrip {T E} (zero : T) (Marshal : T -> gostring + E)
    (Unmarshal : gostring -> T + E) (o o0 : Option T) data :
  (forall v, Marshal v <> inl (str "null")) ->
  (forall v d, Marshal v = inl d -> Unmarshal d = inl v) ->
  MarshalJSON Marshal o = inl data ->
  (UnmarshalJSON zero Unmarshal o0 data).2 = None /\
  to_option (UnmarshalJSON zero Unmarshal o0 data).1 = to_option o.
Proof.
  intros Hnull Hrt. destruct o as [v []]; unfold MarshalJSON, UnmarshalJSON; cbn [negb valid value].
  - intros HM. case_decide as Hd; [subst; destruct (Hnull v HM)|].
    by rewrite (Hrt v data HM).
  - intros [= <-]. by rewrite decide_True by done.
Qed.

(** The order on options: [None] first, then the order on the values. *)
Lemma option_Compare_spec (o1 o2 : Option Z) :
  Compare o1 o2 = match to_option o1, to_option o2 with
                  | None, None => 0
                  | None, Some _ => -1
                  | Some _, None => 1
                  | Some a, Some b => cmp_Compare a b
                  end.
Proof. by destruct o1 as [? []], o2 as [? []]. Qed.

Lemma result_New_spec {T E} (zero v : T) (e : option E) :
  exists r, New zero v e = Ret r /\ err r = e /\ (e = None -> rvalue r = v).
Proof. destruct e as [e|]; eexists; split; try reflexivity; done. Qed.

(** [n] increments in a row, collecting what the caller is told. *)
Fixpoint Inc_n (w : Z) (n : nat) (c : Counter) : go (Counter * list Next) :=
  match n with
  | O => Ret (c, [])
  | S n' => '(c, r) ← Inc w c; '(c, rs) ← Inc_n w n' c; Ret (c, r :: rs)
  end.

Lemma counter_Inc_spec w c :
  0 < w -> 0 <= hits c -> hits c + 1 < 2 ^ w ->
  Inc w c = Ret (MkCounter (limit c) (hits c + 1), bool_decide (hits c < limit c)).
Proof.
  intros Hw H0 Hh. unfold Inc. cbn [limit hits]. rewrite !uint_wrap_id by lia.
  rewrite (proj2 (Z.eqb_neq _ _)) by lia. rewrite bind_ret.
  case_bool_decide; zcase; done.
Qed.

Lemma counter_Inc_overflow w c :
  0 < w -> hits c = 2 ^ w - 1 -> Inc w c = Panic PreconditionViolation.
Proof.
  intros Hw Hh. unfold Inc. cbn [limit hits]. rewrite Hh.
  replace (uint_wrap w (2 ^ w - 1 + 1)) with 0; [done|].
  unfold uint_wrap. replace (2 ^ w - 1 + 1) with (1 * 2 ^ w) by lia.
  symmetry. apply Z_mod_mult.
Qed.

Lemma counter_Inc_n_spec w (n : nat) lim h :
  0 < w -> 0 <= h -> h + Z.of_nat n < 2 ^ w ->
  Inc_n w n (MkCounter lim h) =
    Ret (MkCounter lim (h + Z.of_nat n),
         map (fun i => bool_decide (h + Z.of_nat i < lim)) (seq 0 n)).
Proof.
  intros Hw. revert h. induction n as [|n IH]; intros h H0 Hh.
  - cbn. by rewrite Z.add_0_r.
  - cbn [Inc_n]. rewrite counter_Inc_spec by (cbn; lia). cbn [limit hits]. rewrite bind_ret.
    rewrite IH by lia. rewrite bind_ret. cbn [seq map]. f_equal. f_equal; [f_equal; lia|].
    rewrite Z.add_0_r. f_equal. rewrite <- seq_shift, map_map. apply map_ext. intros i.
    apply bool_decide_ext. lia.
Qed.

(** a counter of any width [w] and limit, incremented [n] times from zero,
    tells the caller to keep going exactly [limit] times, then to stop; it
    reports [n] hits and [n - limit] dropped operations; and it panics on the
    increment that would not be representable, never earlier and never
    wrapping around to let operations through again. *)
Theorem limited_counter_spec (w lim : Z) (n : nat) :
  0 < w -> 0 <= lim < 2 ^ w ->
  (Z.of_nat n < 2 ^ w ->
     exists c, Inc_n w n (NewCounter lim) =
                 Ret (c, map (fun i => bool_decide (Z.of_nat i < lim)) (seq 0 n)) /\
               Hits c = Z.of_nat n /\ Limit c = lim /\
               Dropped w c = Z.max 0 (Z.of_nat n - lim)) /\
  (2 ^ w <= Z.of_nat n -> Inc_n w n (NewCounter lim) = Panic PreconditionViolation).
Proof.
  intros Hw Hlim. split.
  - intros Hn. exists (MkCounter lim (Z.of_nat n)). unfold NewCounter.
    rewrite counter_Inc_n_spec by lia. split_and!; [done..|].
    unfold Dropped. cbn [limit hits]. zcase. rewrite uint_wrap_id; lia.
  - intros Hn.
    assert (exists m, (n = Z.to_nat (2 ^ w - 1) + S m)%nat) as [m ->].
    { exists (n - Z.to_nat (2 ^ w - 1) - 1)%nat. lia. }
    assert (forall a b c, Inc_n w (a + b) c =
              '(c, rs) ← Inc_n w a c; '(c, rs') ← Inc_n w b c; Ret (c, rs ++ rs')) as Happ.
    { intros a b. induction a as [|a IH]; intros c; cbn [Nat.add Inc_n].
      - rewrite bind_ret. by destruct (Inc_n w b c) as [[? ?]| |].
      - destruct (Inc w c) as [[c1 r]| |]; [|done..]. rewrite !bind_ret, IH.
        destruct (Inc_n w a c1) as [[c2 rs]| |]; [|done..]. rewrite !bind_ret.
        by destruct (Inc_n w b c2) as [[? ?]| |]. }
    rewrite Happ. unfold NewCounter. rewrite counter_Inc_n_spec by lia.
    rewrite bind_ret. cbn [Inc_n]. rewrite counter_Inc_overflow; [done|lia|cbn; lia].
Qed.

Lemma limited_counter_spec_witness :
  exists c, Inc_n 8 5 (NewCounter 3) = Ret (c, [true; true; true; false; false]) /\
            Dropped 8 c = 2.
Proof.
  destruct (limited_counter_spec 8 3 5) as [[c (H & _ & _ & HD)] _];
    [lia|lia|vm_compute; reflexivity|].
  exists c. split; [exact H|exact HD].
Defined.
