(* ===== verification/Ranges.v ===== *)
(** * Half-open spans ([ranges/ranges.go], [ranges/bound.go])

    A span over any of Go's integer types: the type is a [Numeric] (signedness
    and width) and arithmetic wraps around in it. *)
From S2P Require Import Prelude Core.

(** ** Bounds *)
Definition Bound := bool.
Definition Bound_Start : Bound := false.
Definition Bound_End : Bound := true.
Definition Bound_String (b : Bound) : gostring := if b then str "end" else str "start".

(** ** Spans *)
Record Numeric := MkNumeric { signed : bool; bits : Z }.
Definition wrap (T : Numeric) (z : Z) : Z :=
  if signed T then sint_wrap (bits T) z else uint_wrap (bits T) z.
Definition min_value (T : Numeric) : Z := if signed T then - 2 ^ (bits T - 1) else 0.
Definition max_value (T : Numeric) : Z := if signed T then 2 ^ (bits T - 1) - 1 else 2 ^ bits T - 1.
Definition in_type (T : Numeric) (z : Z) : Prop := min_value T <= z <= max_value T.
Definition int_ : Numeric := MkNumeric true 64.

Record Span := MkSpan { start : Z; end_ : Z }.
#[global] Instance Span_eq_dec : EqDecision Span.
Proof. solve_decision. Defined.

Definition NewSpan (start end_ : Z) : go Span :=
  _ ← (if end_ <? start then Precondition false else Ret tt); Ret (MkSpan start end_).
Definition Start (s : Span) : Z := start s.
Definition End (s : Span) : Z := end_ s.
Definition IsEmpty (s : Span) : bool := start s =? end_ s.
Definition Contains (s : Span) (v : Z) : bool := (start s <=? v) && (v <? end_ s).

Definition Length (T : Numeric) (s : Span) : BoundsChecked Z :=
  let length := wrap T (end_ s - start s) in
  if length <? 0 then Overflowed 0 else InRange length.

Definition CompareStrict (s other : Span) : Z :=
  let c := cmp_Compare (start s) (start other) in
  if negb (c =? 0) then c else cmp_Compare (end_ s) (end_ other).

Inductive Relation :=
  | Relation_BeforeStart
  | Relation_OverlapsStart
  | Relation_IsCoveredBy
  | Relation_Equal
  | Relation_Covers
  | Relation_OverlapsEnd
  | Relation_AfterEnd
  | Relation_Other (r : Z).
#[global] Instance Relation_eq_dec : EqDecision Relation.
Proof. solve_decision. Defined.

Definition Overlaps (s other : Span) : Relation :=
  if (start s =? start other) && (end_ s =? end_ other) then Relation_Equal
  else if end_ s <=? start other then Relation_BeforeStart
  else if end_ other <=? start s then Relation_AfterEnd
  else if (start s <=? start other) && (end_ other <=? end_ s) then Relation_Covers
  else if (start other <=? start s) && (end_ s <=? end_ other) then Relation_IsCoveredBy
  else if start s <? start other then Relation_OverlapsStart
  else Relation_OverlapsEnd.

Definition Inverse (r : Relation) : go Relation :=
  match r with
  | Relation_BeforeStart => Ret Relation_AfterEnd
  | Relation_AfterEnd => Ret Relation_BeforeStart
  | Relation_Covers => Ret Relation_IsCoveredBy
  | Relation_IsCoveredBy => Ret Relation_Covers
  | Relation_OverlapsStart => Ret Relation_OverlapsEnd
  | Relation_OverlapsEnd => Ret Relation_OverlapsStart
  | Relation_Equal => Ret Relation_Equal
  | Relation_Other _ => PanicUnknownCase
  end.

Definition Relation_String (r : Relation) : go gostring :=
  match r with
  | Relation_BeforeStart => Ret (str "before-start")
  | Relation_OverlapsStart => Ret (str "overlaps-start")
  | Relation_IsCoveredBy => Ret (str "is-covered-by")
  | Relation_Equal => Ret (str "equal")
  | Relation_Covers => Ret (str "covers")
  | Relation_OverlapsEnd => Ret (str "overlaps-end")
  | Relation_AfterEnd => Ret (str "after-end")
  | Relation_Other _ => PanicUnknownCase
  end.

(** ** Specification *)

(** What [NewSpan] establishes. *)
Definition valid (s : Span) : Prop := start s <= end_ s.
(** The integers of a span. *)
Definition member (s : Span) (v : Z) : Prop := start s <= v < end_ s.

Lemma ranges_NewSpan_spec a b :
  NewSpan a b = if b <? a then Panic PreconditionViolation else Ret (MkSpan a b).
Proof. unfold NewSpan. by destruct (b <? a). Qed.

Lemma ranges_NewSpan_ok a b : a <= b -> NewSpan a b = Ret (MkSpan a b).
Proof. intros. rewrite ranges_NewSpan_spec. zcase. done. Qed.

Lemma ranges_Contains_member s v : Contains s v = true <-> member s v.
Proof. unfold Contains, member. rewrite andb_true_iff. lia. Qed.

(** The wrapped difference of two values of a type: exact when it fits. *)
Lemma ranges_wrap_diff T a b :
  0 < bits T -> in_type T a -> in_type T b -> a <= b ->
  wrap T (b - a) = if b - a <=? max_value T then b - a else b - a - 2 ^ bits T.
Proof.
  destruct T as [[] w]; unfold in_type, min_value, max_value, wrap; cbn [signed bits];
    intros Hw Ha Hb Hab.
  - assert (2 ^ w = 2 * 2 ^ (w - 1)) as E.
    { rewrite <- Z.pow_succ_r by lia. f_equal. lia. }
    zcase; [apply sint_wrap_id; lia|].
    unfold sint_wrap.
    replace (b - a + 2 ^ (w - 1)) with (b - a + 2 ^ (w - 1) - 2 ^ w + 1 * 2 ^ w) by lia.
    rewrite Z_mod_plus_full. rewrite Z.mod_small by lia. lia.
  - zcase. apply uint_wrap_id; lia.
Qed.

(** At every integer type, the length of a valid span is exact when it is
    representable and reported as overflowed otherwise; the sign test on the
    wrapped difference never mistakes one for the other. *)
Theorem ranges_Length_exact (T : Numeric) (a b : Z) (s : Span) :
  0 < bits T -> in_type T a -> in_type T b -> NewSpan a b = Ret s ->
  bGet (Length T s) = if b - a <=? max_value T then (b - a, true) else (0, false).
Proof.
  intros Hw Ha Hb. rewrite ranges_NewSpan_spec. destruct (Z.ltb_spec b a); [done|].
  intros [= <-]. unfold Length. cbn [start end_]. rewrite ranges_wrap_diff by done.
  destruct (Z.leb_spec (b - a) (max_value T)).
  - by rewrite (proj2 (Z.ltb_ge _ _)) by lia.
  - assert (b - a - 2 ^ bits T < 0); [|by rewrite (proj2 (Z.ltb_lt _ _)) by lia].
    destruct T as [[] w]; unfold in_type, min_value, max_value in *; cbn [signed bits] in *; [|lia].
    assert (2 ^ w = 2 * 2 ^ (w - 1)) as E; [|lia].
    rewrite <- Z.pow_succ_r by lia. f_equal. lia.
Qed.

Lemma ranges_Length_exact_witness :
  bGet (Length (MkNumeric true 8) (MkSpan (-100) 27)) = (127, true) /\
  bGet (Length (MkNumeric true 8) (MkSpan (-100) 28)) = (0, false).
Proof.
  assert (in_type (MkNumeric true 8) (-100)) by (split; vm_compute; discriminate).
  assert (in_type (MkNumeric true 8) 27) by (split; vm_compute; discriminate).
  assert (in_type (MkNumeric true 8) 28) by (split; vm_compute; discriminate).
  split.
  - apply (ranges_Length_exact (MkNumeric true 8) (-100) 27); [done..|reflexivity].
  - apply (ranges_Length_exact (MkNumeric true 8) (-100) 28); [done..|reflexivity].
Defined.

(** What each relation says about the integers of the spans. *)
Definition relation_holds (r : Relation) (s o : Span) : Prop :=
  match r with
  | Relation_Equal => s = o
  | Relation_BeforeStart => (forall v w, member s v -> member o w -> v < w)
  | Relation_AfterEnd => (forall v w, member s v -> member o w -> w < v)
  | Relation_Covers => (forall v, member o v -> member s v) /\ exists v, member s v /\ ~ member o v
  | Relation_IsCoveredBy => (forall v, member s v -> member o v) /\ exists v, member o v /\ ~ member s v
  | Relation_OverlapsStart =>
      (exists v, member s v /\ member o v) /\ (exists v, member s v /\ forall w, member o w -> v < w)
      /\ (exists w, member o w /\ forall v, member s v -> v < w)
  | Relation_OverlapsEnd =>
      (exists v, member s v /\ member o v) /\ (exists v, member s v /\ forall w, member o w -> w < v)
      /\ (exists w, member o w /\ forall v, member s v -> w < v)
  | Relation_Other _ => False
  end.

(** Decide the comparisons [Overlaps] makes and prove the goal in each case. *)
Ltac overlaps_cases := unfold Overlaps; cbn [start end_]; zcase; cbn.

Lemma ranges_Overlaps_holds s o : valid s -> valid o -> relation_holds (Overlaps s o) s o.
Proof.
  destruct s as [a b], o as [c d]. unfold valid. cbn [start end_]. intros Hs Ho.
  overlaps_cases; unfold member; cbn [start end_].
  all: first
    [ f_equal; lia
    | intros; lia
    | split; [intros; lia|]; first [exists d; lia|exists a; lia|exists b; lia|exists c; lia]
    | split_and!; [exists (Z.max a c); lia
        |first [exists a; split; [lia|intros; lia]|exists (b - 1); split; [lia|intros; lia]]
        |first [exists c; split; [lia|intros; lia]|exists (d - 1); split; [lia|intros; lia]]] ].
Qed.

(** [Overlaps] classifies two valid spans correctly as sets of integers
    (equal, before, after, strictly covering, strictly covered, or overlapping
    at one end), exactly one case applies to non-empty spans, and
    swapping the arguments gives the [Inverse] relation, which never panics on
    a result of [Overlaps]. *)
Theorem ranges_Overlaps_spec (s o : Span) :
  valid s -> valid o ->
  relation_holds (Overlaps s o) s o /\
  (IsEmpty s = false -> IsEmpty o = false ->
     forall r, relation_holds r s o -> r = Overlaps s o) /\
  Inverse (Overlaps s o) = Ret (Overlaps o s).
Proof.
  intros Hs Ho. split; [by apply ranges_Overlaps_holds|]. destruct s as [a b], o as [c d].
  unfold valid, IsEmpty in *. cbn [start end_] in *. split.
  - intros Hes%Z.eqb_neq Heo%Z.eqb_neq r Hr.
    destruct r; cbn in Hr; unfold member in Hr; cbn [start end_] in Hr.
    + specialize (Hr (b - 1) c). overlaps_cases; (done || lia).
    + destruct Hr as ((v & Hv) & (v1 & Hv1 & Hv1') & (w & Hw & Hw')).
      specialize (Hv1' c). specialize (Hw' (b - 1)). overlaps_cases; (done || lia).
    + destruct Hr as (Hr & v & Hv). pose proof (Hr a). pose proof (Hr (b - 1)).
      overlaps_cases; (done || lia).
    + injection Hr as -> ->. overlaps_cases; (done || lia).
    + destruct Hr as (Hr & v & Hv). pose proof (Hr c). pose proof (Hr (d - 1)).
      overlaps_cases; (done || lia).
    + destruct Hr as ((v & Hv) & (v1 & Hv1 & Hv1') & (w & Hw & Hw')).
      specialize (Hv1' (d - 1)). specialize (Hw' a). overlaps_cases; (done || lia).
    + specialize (Hr a (d - 1)). overlaps_cases; (done || lia).
    + done.
  - overlaps_cases; done.
Qed.

Lemma ranges_Overlaps_spec_witness :
  Inverse (Overlaps (MkSpan 0 5) (MkSpan 3 9)) = Ret Relation_OverlapsEnd /\
  Overlaps (MkSpan 0 5) (MkSpan 3 9) = Relation_OverlapsStart.
Proof.
  destruct (ranges_Overlaps_spec (MkSpan 0 5) (MkSpan 3 9)) as (_ & _ & H);
    [vm_compute; discriminate..|].
  split; [exact H|reflexivity].
Defined.

(** [cmp.Compare] and the strict lexicographic order of [CompareStrict]. *)
Lemma cmp_Compare_antisym x y : cmp_Compare y x = - cmp_Compare x y.
Proof. unfold cmp_Compare. zcase; done. Qed.

Lemma ranges_CompareStrict_total s o :
  CompareStrict o s = - CompareStrict s o /\ (CompareStrict s o = 0 <-> s = o).
Proof.
  destruct s as [a b], o as [c d]. unfold CompareStrict, cmp_Compare. cbn [start end_].
  split; zcase; try done; split; try done; intros; simplify_eq; try lia; f_equal; lia.
Qed.

Lemma ranges_CompareStrict_trans s o u :
  CompareStrict s o < 0 -> CompareStrict o u < 0 -> CompareStrict s u < 0.
Proof. unfold CompareStrict, cmp_Compare. zcase; lia. Qed.
