(* ===== verification/Iterx.v ===== *)
(** * Iterators ([iterx/iterx.go])

    An [iter.Seq[A]] is a function that passes values to a callback threading the
    caller's state.  [Enumerates seq l] is the interface between the packages that
    build iterators and the code that consumes them: the iterator passes exactly
    the values of [l], in order, and stops where the callback says so.  The body
    of a [for v := range seq] loop may panic; [for_range] runs such a body. *)
From S2P Require Import Prelude Core.

Definition Seq (A : Type) : Type := forall St, yield_fn A St -> St -> go St.

Class Enumerates {A} (seq : Seq A) (l : list A) : Prop :=
  enumerates St (yield : yield_fn A St) st : seq St yield st = Ret (fst (range_yield l yield st)).

(** [for v := range seq { body }]; the body says whether to continue. *)
Definition for_range {A St} (seq : Seq A) (body : A -> St -> go (St * bool)) (st : St) : go St :=
  r ← seq (go St)
    (fun v s =>
       match s with
       | Ret s => match body v s with
                  | Ret (s', continue) => (Ret s', continue)
                  | Panic k => (Panic k, false)
                  | OutOfFuel => (OutOfFuel, false)
                  end
       | _ => (s, false)
       end) (Ret st);
  r.

Fixpoint for_list {A St} (l : list A) (body : A -> St -> go (St * bool)) (st : St) : go St :=
  match l with
  | [] => Ret st
  | v :: l =>
      '(st, continue) ← body v st;
      if (continue : bool) then for_list l body st else Ret st
  end.

(** ** The functions of the package *)
Section iterx.
Context {A B : Type}.

Definition Empty : Seq A := fun St yield st => Ret st.
Definition FromSlice (slice : list A) : Seq A := fun St yield st => Ret (fst (range_yield slice yield st)).
Definition Collect (seq : Seq A) : go (list A) := for_range seq (fun v acc => Ret (acc ++ [v], true)) [].
Definition Last (seq : Seq A) (zero : A) : go A :=
  '(last, sawValue) ← for_range seq (fun v _ => Ret ((v, true), true)) (zero, false);
  _ ← Precondition sawValue;
  Ret last.
Definition Find (seq : Seq A) (f : A -> go (option B)) : go (option B) :=
  for_range seq (fun v _ => r ← f v; match r with Some _ => Ret (r, false) | None => Ret (None, true) end) None.
Definition Map (seq : Seq A) (f : A -> B) : Seq B := fun St yield st => seq St (fun v st => yield (f v) st) st.

(** A nested loop whose body may return from the function. *)
Fixpoint Chain (seqs : list (Seq A)) : Seq A := fun St yield st =>
  match seqs with
  | [] => Ret st
  | seq :: seqs =>
      '(st, returned) ← seq (St * bool)%type (fun v s => let '(st, c) := yield v s.1 in ((st, negb c), c)) (st, false);
      if (returned : bool) then Ret st else Chain seqs St yield st
  end.
End iterx.

Definition CollectMap {K V} `{Countable K} (seq : Seq (K * V)) : go (gmap K V) :=
  for_range seq
    (fun kv result =>
       _ ← Precondition (bool_decide (result !! kv.1 = None)); Ret (<[kv.1 := kv.2]> result, true)) ∅.

(** [order] is the iteration order of the Go map [kvs], which is unspecified. *)
Definition FromMap {K V} `{Countable K} (order : gmap K V -> list (K * V)) (kvs : gmap K V) : Seq (K * V) :=
  fun St yield st => Ret (fst (range_yield (order kvs) yield st)).

(** The state of the loop over a batch: did the function return? *)
Definition Unbatch {A E} (zero : A) (seq : Seq (Result (list A) E)) : Seq (Result A E) := fun St yield st =>
  '(st, _) ← for_range seq
    (fun batchRes s =>
       let '(batch, e) := rGet batchRes in
       match e with
       | Some _ => r ← Failure zero e; Ret (((fst (yield r s.1)), true), false)
       | None =>
           let '(st, continue) := range_yield (map Success batch) yield s.1 in
           Ret ((st, negb continue), continue)
       end) (st, false);
  Ret st.

(** ** Loops over an enumerating iterator *)
Section spec.
Context {A B : Type}.
Implicit Types (seq : Seq A) (l : list A).

Lemma for_range_spec {St} seq l (body : A -> St -> go (St * bool)) st :
  Enumerates seq l -> for_range seq body st = for_list l body st.
Proof.
  intros Hs. unfold for_range. rewrite Hs, bind_ret. clear Hs. revert st.
  induction l as [|v l IH]; intros st; [done|]. cbn [range_yield for_list].
  destruct (body v st) as [[st' []]| |]; done.
Qed.

#[export] Instance Empty_enumerates : Enumerates (@Empty A) [].
Proof. done. Qed.
#[export] Instance FromSlice_enumerates l : Enumerates (FromSlice l) l.
Proof. done. Qed.

#[export] Instance Map_enumerates seq l (f : A -> B) : Enumerates seq l -> Enumerates (Map seq f) (map f l).
Proof.
  intros Hs St yield st. unfold Map. rewrite Hs. f_equal. clear Hs. revert st. induction l as [|v l IH]; intros st; [done|].
  cbn [range_yield map]. destruct (yield (f v) st) as [st' []]; [apply IH|done].
Qed.

Lemma range_yield_returned l {St} (yield : yield_fn A St) st :
  range_yield l (fun v s => let '(st, c) := yield v s.1 in ((st, negb c), c)) (st, false) =
    let '(st', c) := range_yield l yield st in ((st', negb c), c).
Proof.
  revert st. induction l as [|v l IH]; intros st; [done|]. cbn [range_yield fst].
  destruct (yield v st) as [st' []]; cbn; [apply IH|done].
Qed.

#[export] Instance Chain_enumerates (seqs : list (Seq A)) ls :
  Forall2 Enumerates seqs ls -> Enumerates (Chain seqs) (concat ls).
Proof.
  intros Hs St yield. induction Hs as [|seq l seqs ls H1 _ IH]; intros st; [done|].
  cbn [Chain concat]. rewrite H1, bind_ret, range_yield_returned, range_yield_app.
  destruct (range_yield l yield st) as [st' []]; cbn; [apply IH|done].
Qed.

Lemma Collect_spec seq l : Enumerates seq l -> Collect seq = Ret l.
Proof.
  intros Hs. unfold Collect. rewrite (for_range_spec seq l) by done.
  enough (forall acc, for_list l (fun v acc => Ret (acc ++ [v], true)) acc = Ret (acc ++ l)) as -> by done.
  clear Hs. induction l as [|v l IH]; intros acc; cbn [for_list]; [by rewrite app_nil_r|].
  rewrite bind_ret, IH. by rewrite <- app_assoc.
Qed.

Lemma Last_spec seq l zero :
  Enumerates seq l -> Last seq zero = match last l with Some v => Ret v | None => Panic PreconditionViolation end.
Proof.
  intros Hs. unfold Last. rewrite (for_range_spec seq l) by done.
  assert (forall z b, for_list l (fun v _ => Ret (v, true, true)) (z, b) =
    Ret (match last l with Some v => (v, true) | None => (z, b) end)) as ->.
  { clear. induction l as [|v l IH]; intros z b; [done|]. cbn [for_list]. rewrite bind_ret, IH, last_cons.
    by destruct (last l). }
  by destruct (last l).
Qed.

(** The first [Some] of [f] over the values, a panic of [f] on the way included. *)
Fixpoint find_list (l : list A) (f : A -> go (option B)) : go (option B) :=
  match l with
  | [] => Ret None
  | v :: l => r ← f v; match r with Some _ => Ret r | None => find_list l f end
  end.
Lemma Find_spec seq l f : Enumerates seq l -> Find seq f = find_list l f.
Proof.
  intros Hs. unfold Find. rewrite (for_range_spec seq l) by done. clear Hs.
  induction l as [|v l IH]; [done|]. cbn [for_list find_list]. by destruct (f v) as [[r|]| |].
Qed.
End spec.

Lemma CollectMap_spec {K V} `{Countable K} (seq : Seq (K * V)) l :
  Enumerates seq l ->
  CollectMap seq = if decide (NoDup l.*1) then Ret (list_to_map l) else Panic PreconditionViolation.
Proof.
  intros Hs. unfold CollectMap. rewrite (for_range_spec seq l) by done. clear Hs.
  enough (forall m : gmap K V,
    for_list l (fun kv result => _ ← Precondition (bool_decide (result !! kv.1 = None)); Ret (<[kv.1:=kv.2]> result, true)) m =
    if decide (NoDup l.*1 /\ Forall (fun kv => m !! kv.1 = None) l) then Ret (list_to_map l ∪ m) else Panic PreconditionViolation) as ->.
  { assert (Forall (fun kv => (∅ : gmap K V) !! kv.1 = None) l) as Hall by (apply Forall_true; intros; apply lookup_empty).
    destruct (decide (NoDup l.*1)); [rewrite decide_True by done; by rewrite map_union_empty|].
    by rewrite decide_False by tauto. }
  induction l as [|[k v] l IH]; intros m; cbn [for_list].
  { rewrite decide_True by (split; constructor). cbn. by rewrite map_empty_union. }
  cbn [fst snd]. destruct (m !! k) eqn:Hk.
  { rewrite bool_decide_false by congruence. cbn. rewrite decide_False; [done|].
    intros [_ Hall]. inversion Hall as [|? ? Hk']. cbn in Hk'. congruence. }
  rewrite bool_decide_true by done. cbn [Precondition]. rewrite !bind_ret, IH. cbn [fmap list_fmap].
  destruct (decide _) as [[Hn Hall]|Hno]; [rewrite decide_True|rewrite decide_False; [done|]].
  - cbn [list_to_map foldr]. cbn [fst snd]. f_equal. rewrite <- insert_union_l, insert_union_r; [done|].
    apply not_elem_of_list_to_map_1. intros ([k' v'] & -> & Hin)%list_elem_of_fmap. rewrite Forall_forall in Hall.
    specialize (Hall _ Hin). cbn in Hall. by rewrite lookup_insert_eq in Hall.
  - rewrite Forall_forall in Hall. split.
    + constructor; [cbn [fst]|done]. intros ([k' v'] & -> & Hin)%list_elem_of_fmap. specialize (Hall _ Hin). cbn in Hall.
      by rewrite lookup_insert_eq in Hall.
    + constructor; [done|]. apply Forall_forall. intros kv Hin. specialize (Hall _ Hin).
      by apply lookup_insert_None in Hall as [? _].
  - intros [Hn Hall]. apply Hno. cbn [fmap list_fmap] in Hn. inversion Hn as [|? ? Hnk Hn']; subst. inversion Hall as [|? ? _ Hall']; subst. split; [done|].
    apply Forall_forall. intros kv Hin. rewrite Forall_forall in Hall'. rewrite lookup_insert_ne; [by apply Hall'|].
    intros ->. apply Hnk. by apply list_elem_of_fmap_2.
Qed.

(** A failure ends the stream; batches before it are flattened. *)
Fixpoint unbatched {A E} (zero : A) (l : list (Result (list A) E)) : list (Result A E) :=
  match l with
  | [] => []
  | r :: l =>
      match err r with
      | Some e => [MkResult zero (Some e)]
      | None => map Success (rvalue r) ++ unbatched zero l
      end
  end.
Lemma Unbatch_enumerates {A E} (zero : A) (seq : Seq (Result (list A) E)) l :
  Enumerates seq l -> Enumerates (Unbatch zero seq) (unbatched zero l).
Proof.
  intros Hs St yield st. unfold Unbatch. rewrite (for_range_spec seq l) by done. clear Hs.
  revert st. induction l as [|[batch e] l IH]; intros st; [done|].
  cbn [for_list rGet unbatched err rvalue fst snd]. destruct e as [e|].
  - unfold Failure. rewrite Precondition_true by (by apply bool_decide_true).
    cbn. by destruct (yield _ st) as [st' []].
  - rewrite range_yield_app. destruct (range_yield (map Success batch) yield st) as [st' []]; cbn; [|done].
    apply IH.
Qed.

(** ** Main theorem *)

(** on an iterator that passes the values [l], [Collect] returns [l], [Last]
    its last value (and panics only on an empty one), [Find] the first result of
    the search with no later call of [f], and [Map] and [Chain] pass the mapped
    and the concatenated values, each stopping as soon as its consumer does. *)
Theorem iterx_spec {A} (seq : Seq A) (l : list A) (Hs : Enumerates seq l) :
  Collect seq = Ret l /\
  (forall zero, Last seq zero = match last l with Some v => Ret v | None => Panic PreconditionViolation end) /\
  (forall B (f : A -> go (option B)), Find seq f = find_list l f) /\
  (forall B (f : A -> B), Enumerates (Map seq f) (map f l)) /\
  (forall seqs ls, Forall2 Enumerates seqs ls -> Enumerates (Chain (seq :: seqs)) (l ++ concat ls)).
Proof.
  split_and!.
  - by apply Collect_spec.
  - intros zero. by apply Last_spec.
  - intros B f. by apply Find_spec.
  - intros B f. by apply Map_enumerates.
  - intros seqs ls Hss. apply (Chain_enumerates (seq :: seqs) (l :: ls)). by constructor.
Qed.
Lemma iterx_spec_witness :
  Enumerates (FromSlice [1; 2; 3]) [1; 2; 3] /\
  Collect (FromSlice [1; 2; 3]) = Ret [1; 2; 3] /\ Last (FromSlice [1; 2; 3]) 0 = Ret 3.
Proof.
  split; [apply FromSlice_enumerates|].
  destruct (iterx_spec (FromSlice [1; 2; 3]) [1; 2; 3] (FromSlice_enumerates _)) as (H1 & H2 & _).
  split; [exact H1|]. rewrite (H2 0). reflexivity.
Defined.
