(* ===== verification/Errorx.v ===== *)
(** * Error chains ([errorx/errorx.go])

    A non-nil error is a value of [E], and what the code can learn about it by a
    type switch is given by [methods]; errors may wrap each other cyclically.
    The constructors of the package only call third-party code. *)
From S2P Require Import Prelude Core Iterx.

(** The methods a type switch on an error looks for, with what they return. *)
Record method_set (E : Type) := MkMethods {
  unwrap_list : option (list (option E));  (** [Unwrap() []error] *)
  unwrap_one : option (option E);  (** [Unwrap() error] *)
  cause : option (option E);  (** [Cause() error] *)
  is_method : option (E -> bool)  (** [Is(error) bool] *)
}.
Arguments unwrap_list {_} _.
Arguments unwrap_one {_} _.
Arguments cause {_} _.
Arguments is_method {_} _.

Inductive linkKind := linkNormal | linkMultiError | linkNestingLimit.
#[export] Instance linkKind_eq_dec : EqDecision linkKind.
Proof. solve_decision. Defined.

Definition linkKind_String (k : linkKind) : gostring :=
  match k with
  | linkNormal => str "normal"
  | linkMultiError => str "multi-error"
  | linkNestingLimit => str "nesting-limit"
  end.

Definition NESTING_LIMIT : nat := 1000.

Section errorx.
Context {E : Type} `{EqDecision E} (methods : E -> method_set E).

Record ChainLink := MkChainLink { Current : E; kind : linkKind }.
Definition HitMultiError (c : ChainLink) : bool := bool_decide (kind c = linkMultiError).
Definition HitNestingLimit (c : ChainLink) : bool := bool_decide (kind c = linkNestingLimit).

(** The switch of [Chain]: the kind of the link at [cur], and the next error. *)
Definition chain_switch (cur : E) : linkKind * option E :=
  match unwrap_list (methods cur) with
  | Some [] => (linkNormal, None)
  | Some [e] => (linkNormal, e)
  | Some _ => (linkMultiError, None)
  | None =>
      match unwrap_one (methods cur) with
      | Some e => (linkNormal, e)
      | None => match cause (methods cur) with Some e => (linkNormal, e) | None => (linkNormal, None) end
      end
  end.

Fixpoint chain_loop {St} (n : nat) (cur : E) (yield : yield_fn ChainLink St) (st : St) : St :=
  match n with
  | O => fst (yield (MkChainLink cur linkNestingLimit) st)
  | S n =>
      let '(kind, next) := chain_switch cur in
      let '(st, continue) := yield (MkChainLink cur kind) st in
      if negb continue then st
      else match kind, next with
           | linkNormal, Some next => chain_loop n next yield st
           | _, _ => st
           end
  end.
Definition Chain (err : option E) : go (Seq ChainLink) :=
  match err with
  | None => Panic PreconditionViolation
  | Some err => Ret (fun St yield st => Ret (chain_loop NESTING_LIMIT err yield st))
  end.

Record RootCauseResult := MkRootCauseResult { rerr : E; rkind : linkKind }.
Definition rHitNestingLimit (r : RootCauseResult) : bool := bool_decide (rkind r = linkNestingLimit).
Definition rHitMultiError (r : RootCauseResult) : bool := bool_decide (rkind r = linkMultiError).
Definition GetMultiError (r : RootCauseResult) : go E :=
  _ ← Precondition (bool_decide (rkind r = linkMultiError)); Ret (rerr r).
Definition rGetRootCause (r : RootCauseResult) : go E :=
  _ ← Precondition (bool_decide (rkind r = linkNormal)); Ret (rerr r).

(** [zero] is the zero value of a [ChainLink], which [iterx.Last] starts from. *)
Definition GetRootCause (zero : ChainLink) (err : option E) : go RootCauseResult :=
  chain ← Chain err;
  last ← Last chain zero;
  Ret (MkRootCauseResult (Current last) (kind last)).

(** [as_T] is the type assertion [err.(T)]. *)
Definition GetRootCauseAs {T} (as_T : E -> option T) (zero : ChainLink) (err : option E) : go (option T) :=
  r ← GetRootCause zero err;
  _ ← Precondition (negb (rHitNestingLimit r));
  if rHitMultiError r then Ret None
  else rc ← rGetRootCause r; Ret (as_T rc).

Definition FindInChainAs {T} (as_T : E -> option T) (err : option E) : go (option T) :=
  chain ← Chain err;
  Find chain (fun link => _ ← Precondition (negb (HitNestingLimit link)); Ret (as_T (Current link))).

Definition GetRootCauseAsValue (zero : ChainLink) (err reference : option E) : go bool :=
  match reference with
  | None => Panic PreconditionViolation
  | Some reference =>
      r ← GetRootCause zero err;
      _ ← Precondition (negb (rHitNestingLimit r));
      if rHitMultiError r then Ret false
      else
        rc ← rGetRootCause r;
        Ret (match is_method (methods rc) with Some is_eq => is_eq reference | None => bool_decide (rc = reference) end)
  end.

(** ** The chain as a list *)
Fixpoint links (n : nat) (cur : E) : list ChainLink :=
  match n with
  | O => [MkChainLink cur linkNestingLimit]
  | S n =>
      let '(kind, next) := chain_switch cur in
      MkChainLink cur kind ::
        match kind, next with linkNormal, Some next => links n next | _, _ => [] end
  end.

Lemma chain_loop_links {St} n cur (yield : yield_fn ChainLink St) st :
  chain_loop n cur yield st = fst (range_yield (links n cur) yield st).
Proof.
  revert cur st. induction n as [|n IH]; intros cur st; cbn [chain_loop links range_yield].
  { by destruct (yield _ st) as [st' []]. }
  destruct (chain_switch cur) as [k next]. cbn [range_yield]. destruct (yield _ st) as [st' []]; cbn; [|done].
  destruct k, next; cbn; done.
Qed.

Lemma Chain_enumerates (err : E) :
  exists seq, Chain (Some err) = Ret seq /\ Enumerates seq (links NESTING_LIMIT err).
Proof. eexists. split; [done|]. intros St yield st. by rewrite chain_loop_links. Qed.

Lemma links_length n cur : (0 < length (links n cur) <= S n)%nat.
Proof.
  revert cur. induction n as [|n IH]; intros cur; cbn [links]; [cbn; lia|].
  destruct (chain_switch cur) as [[] [next|]]; cbn [length]; try lia. specialize (IH next). lia.
Qed.
Lemma links_head n cur : exists k ls, links n cur = MkChainLink cur k :: ls.
Proof. destruct n; cbn [links]; [eauto|]. destruct (chain_switch cur). eauto. Qed.

(** [unwraps n e e']: [e'] is [n] unwrappings below [e], all of them linear. *)
Inductive unwraps : nat -> E -> E -> Prop :=
  | UnwrapsHere e : unwraps 0 e e
  | UnwrapsNext n e e1 e' : chain_switch e = (linkNormal, Some e1) -> unwraps n e1 e' -> unwraps (S n) e e'.

(** How a chain of at most [n] unwrappings ends. *)
Inductive chain_end (n : nat) (e : E) : ChainLink -> Prop :=
  | EndsAtRoot k e' : (k < n)%nat -> unwraps k e e' -> chain_switch e' = (linkNormal, None) ->
      chain_end n e (MkChainLink e' linkNormal)
  | EndsAtFork k e' : (k < n)%nat -> unwraps k e e' -> fst (chain_switch e') = linkMultiError ->
      chain_end n e (MkChainLink e' linkMultiError)
  | EndsAtLimit e' : unwraps n e e' -> chain_end n e (MkChainLink e' linkNestingLimit).

Lemma chain_switch_kind cur k next : chain_switch cur = (k, next) -> k <> linkNestingLimit.
Proof. unfold chain_switch. repeat case_match; intros [= <- _]; done. Qed.
Lemma chain_switch_fork cur next : chain_switch cur = (linkMultiError, next) -> next = None.
Proof. unfold chain_switch. repeat case_match; intros [=]; done. Qed.

Lemma chain_end_step n e e1 l : chain_switch e = (linkNormal, Some e1) -> chain_end n e1 l -> chain_end (S n) e l.
Proof.
  intros Hs [k e' Hk Hu He|k e' Hk Hu He|e' Hu].
  - apply (EndsAtRoot _ _ (S k)); [lia|by econstructor|done].
  - apply (EndsAtFork _ _ (S k)); [lia|by econstructor|done].
  - apply EndsAtLimit. by econstructor.
Qed.

Lemma links_last n e : exists l, last (links n e) = Some l /\ chain_end n e l.
Proof.
  revert e. induction n as [|n IH]; intros e; cbn [links].
  { eexists. split; [done|]. apply EndsAtLimit. constructor. }
  destruct (chain_switch e) as [k next] eqn:Hs. pose proof (chain_switch_kind e k next Hs) as Hk.
  destruct k; [|pose proof (chain_switch_fork e next Hs) as ->|done].
  - destruct next as [e1|].
    + destruct (IH e1) as (l & Hl & He). exists l. rewrite last_cons, Hl. split; [done|]. by eapply chain_end_step.
    + eexists. split; [done|]. apply (EndsAtRoot _ _ 0); [lia|constructor|done].
  - eexists. split; [done|]. apply (EndsAtFork _ _ 0); [lia|constructor|by rewrite Hs].
Qed.

Lemma unwraps_app k e e' : unwraps k e e' -> forall n l, chain_end n e' l -> chain_end (k + n) e l.
Proof. induction 1 as [|k e e1 e' Hs _ IH]; intros n l Hl; [done|]. cbn. eapply chain_end_step; [done|by apply IH]. Qed.

(** The end is unique: unwrapping is a function. *)
Lemma chain_end_unique n e l l' : chain_end n e l -> chain_end n e l' -> l = l'.
Proof.
  assert (forall n e l, chain_end n e l -> last (links n e) = Some l) as Hlast.
  { clear. intros n. induction n as [|n IH]; intros e l Hl.
    - inversion Hl; subst; [lia..|]. match goal with H : unwraps 0 _ _ |- _ => inversion H; subst end. done.
    - inversion Hl as [k e' Hk Hu He|k e' Hk Hu He|e' Hu]; subst; cbn [links].
      + inversion Hu as [|k' ? e1 ? Hs Hu']; subst; [by rewrite He|]. rewrite Hs, last_cons, (IH e1 (MkChainLink e' linkNormal)); [done|].
        apply (EndsAtRoot _ _ k'); [lia|done|done].
      + inversion Hu as [|k' ? e1 ? Hs Hu']; subst.
        * destruct (chain_switch e') as [k next] eqn:Hs. cbn in He. by subst k.
        * rewrite Hs, last_cons, (IH e1 (MkChainLink e' linkMultiError)); [done|]. apply (EndsAtFork _ _ k'); [lia|done|done].
      + inversion Hu as [|k' ? e1 ? Hs Hu']; subst. rewrite Hs, last_cons, (IH e1 (MkChainLink e' linkNestingLimit)); [done|].
        by apply EndsAtLimit. }
  intros H1%Hlast H2%Hlast. congruence.
Qed.

Lemma GetRootCause_end zero e :
  exists l, GetRootCause zero (Some e) = Ret (MkRootCauseResult (Current l) (kind l)) /\ chain_end NESTING_LIMIT e l.
Proof.
  unfold GetRootCause. destruct (Chain_enumerates e) as (seq & -> & Hs). rewrite bind_ret.
  rewrite (Last_spec seq _ zero Hs). destruct (links_last NESTING_LIMIT e) as (l & -> & Hl). exists l. done.
Qed.

(** The first error of the chain that [as_T] accepts. *)
Fixpoint first_match {T} (as_T : E -> option T) (ls : list ChainLink) : option T :=
  match ls with
  | [] => None
  | l :: ls => match as_T (Current l) with Some v => Some v | None => first_match as_T ls end
  end.
Definition within_limit (ls : list ChainLink) : list ChainLink :=
  List.filter (fun l => negb (HitNestingLimit l)) ls.

Lemma find_links {T} (as_T : E -> option T) n e l :
  last (links n e) = Some l ->
  find_list (links n e) (fun link => _ ← Precondition (negb (HitNestingLimit link)); Ret (as_T (Current link))) =
    match first_match as_T (within_limit (links n e)) with
    | Some v => Ret (Some v)
    | None => if HitNestingLimit l then Panic PreconditionViolation else Ret None
    end.
Proof.
  revert e. induction n as [|n IH]; intros e; cbn [links].
  { intros [= <-]. done. }
  destruct (chain_switch e) as [k next] eqn:Hs. pose proof (chain_switch_kind e k next Hs) as Hk.
  assert (HitNestingLimit (MkChainLink e k) = false) as Hh by (by apply bool_decide_false).
  cbn [find_list]. rewrite Hh. cbn [negb Precondition within_limit List.filter]. rewrite !bind_ret, Hh. cbn [negb first_match Current].
  intros Hl. destruct (as_T e) as [v|]; [done|].
  destruct k; [|by pose proof (chain_switch_fork e next Hs) as ->; injection Hl as <-|done].
  destruct next as [e1|]; [|by injection Hl as <-].
  apply IH. rewrite last_cons in Hl. destruct (links_last n e1) as (l' & Hl' & _). by rewrite Hl' in Hl |- *.
Qed.

(** ** Main theorems *)

(** [Chain] always ends, even on cyclic errors: it yields between 1 and
    1001 links, the first being the error itself, and [GetRootCause] returns the
    unique end of the chain: the error where linear unwrapping stops, or the
    first fork, if that is reached within 1000 unwrappings, and the error after
    1000 unwrappings, flagged as such, otherwise. *)
Theorem error_chain_spec (zero : ChainLink) (e : E) :
  exists seq ls l, Chain (Some e) = Ret seq /\ Enumerates seq ls /\ (0 < length ls <= 1001)%nat /\
    (Current <$> hd_error ls) = Some e /\
    GetRootCause zero (Some e) = Ret (MkRootCauseResult (Current l) (kind l)) /\
    (forall l', chain_end NESTING_LIMIT e l' <-> l' = l).
Proof.
  destruct (Chain_enumerates e) as (seq & Hc & Hs). destruct (GetRootCause_end zero e) as (l & Hr & Hl).
  exists seq, (links NESTING_LIMIT e), l. split_and!; try done.
  - apply links_length.
  - apply links_length.
  - destruct (links_head NESTING_LIMIT e) as (k & ls & ->). done.
  - intros l'. split; [intros Hl'; by eapply chain_end_unique|by intros ->].
Qed.

(** the typed searches, by how the chain ends: [GetRootCauseAs] and
    [GetRootCauseAsValue] look only at a root cause, answer no at a fork and
    panic at the nesting limit; [FindInChainAs] returns the first match on the
    way and panics only if the limit is reached without one. *)
Theorem error_search_spec {T} (as_T : E -> option T) (zero : ChainLink) (e reference : E) (l : ChainLink)
  (Hl : chain_end NESTING_LIMIT e l) :
  GetRootCauseAs as_T zero (Some e) =
    match kind l with
    | linkNormal => Ret (as_T (Current l)) | linkMultiError => Ret None | linkNestingLimit => Panic PreconditionViolation
    end /\
  GetRootCauseAsValue zero (Some e) (Some reference) =
    match kind l with
    | linkNormal => Ret (match is_method (methods (Current l)) with
                         | Some is_eq => is_eq reference | None => bool_decide (Current l = reference) end)
    | linkMultiError => Ret false
    | linkNestingLimit => Panic PreconditionViolation
    end /\
  FindInChainAs as_T (Some e) =
    match first_match as_T (within_limit (links NESTING_LIMIT e)) with
    | Some v => Ret (Some v)
    | None => match kind l with linkNestingLimit => Panic PreconditionViolation | _ => Ret None end
    end.
Proof.
  destruct (GetRootCause_end zero e) as (l' & Hr & Hl'). assert (l' = l) as -> by (by eapply chain_end_unique).
  split_and!.
  - unfold GetRootCauseAs. rewrite Hr, bind_ret. unfold rHitNestingLimit, rHitMultiError, rGetRootCause. cbn [rkind rerr].
    by destruct (kind l).
  - unfold GetRootCauseAsValue. rewrite Hr, bind_ret. unfold rHitNestingLimit, rHitMultiError, rGetRootCause. cbn [rkind rerr].
    by destruct (kind l).
  - unfold FindInChainAs. destruct (Chain_enumerates e) as (seq & -> & Hs). rewrite bind_ret, (Find_spec seq _ _ Hs).
    destruct (links_last NESTING_LIMIT e) as (l' & Hlast & Hend). assert (l' = l) as -> by (by eapply chain_end_unique).
    rewrite (find_links as_T _ _ _ Hlast). destruct (first_match _ _); [done|]. unfold HitNestingLimit.
    by destruct (kind l).
Qed.
End errorx.

(** Errors 3 -> 2 -> 1, 1 being a leaf; 0 wraps itself. *)
Definition sample_methods (e : Z) : method_set Z :=
  if e =? 3 then MkMethods Z (Some [Some 2]) None None None
  else if e =? 2 then MkMethods Z None (Some (Some 1)) None None
  else if e =? 0 then MkMethods Z None None (Some (Some 0)) None
  else MkMethods Z None None None None.
Lemma error_search_spec_witness :
  chain_end sample_methods NESTING_LIMIT 3 (MkChainLink 1 linkNormal) /\
  GetRootCauseAs sample_methods (fun e => Some (e * 2)) (MkChainLink 0 linkNormal) (Some 3) = Ret (Some 2).
Proof.
  assert (chain_end sample_methods NESTING_LIMIT 3 (MkChainLink 1 linkNormal)) as Hend.
  { apply (EndsAtRoot _ _ _ 2); [unfold NESTING_LIMIT; lia| |reflexivity].
    apply (UnwrapsNext _ _ _ 2); [reflexivity|]. apply (UnwrapsNext _ _ _ 1); [reflexivity|constructor]. }
  split; [exact Hend|].
  destruct (error_search_spec sample_methods (fun e => Some (e * 2)) (MkChainLink 0 linkNormal) 3 1 _ Hend) as [H _].
  exact H.
Defined.

(** ** Problems ([errorx/problem.go]) *)
Definition Code_InvalidArgument : gostring := str "invalid argument".
Definition Code_AccessDenied : gostring := str "access denied".
Definition isValidCode (code : gostring) : bool :=
  bool_decide (code = Code_InvalidArgument) || bool_decide (code = Code_AccessDenied).
Record Problem := MkProblem { pcode : gostring; pmsg : gostring }.
Definition NewProblem (code msg : gostring) : go Problem :=
  _ ← Precondition (isValidCode code); Ret (MkProblem code msg).
Definition Problem_Error (p : Problem) : gostring := pmsg p ++ str " (" ++ pcode p ++ str ")".
Definition Problem_Code (p : Problem) : gostring := pcode p.
Definition Problem_Msg (p : Problem) : gostring := pmsg p.
