(* ===== verification/Formatter.v ===== *)
(** * The stable error formatter ([errorx/formatter.go], [errorx/stable_formatter.go])

    What a client does with an [errorx.Formatter] is the list of its calls, a
    [FormatGroup] holding the calls of its callback.  [StableFormatter] is a
    mutable state machine that writes into one buffer as the calls come; the
    reference renders the structure of the calls instead.

    [strconv.AppendQuote] and [strconv.AppendFloat(_, _, 'g', -1, 64)] append
    [quote s] and [float f]; [fieldCount] is smaller than the buffer's length,
    so it cannot overflow and is a plain integer. *)
From stdpp Require Import pretty.
From S2P Require Import Prelude Core.
#[local] Open Scope Z_scope.

Definition ValueKind_Bool : Z := 1.
Definition ValueKind_Uint64 : Z := 2.
Definition ValueKind_Uintptr : Z := 3.
Definition ValueKind_Int64 : Z := 4.
Definition ValueKind_Float64 : Z := 5.
Definition ValueKind_ConstString : Z := 6.
Definition ValueKind_Path : Z := 7.
Definition ValueKind_StdMax : Z := ValueKind_Path.
Definition ValueKind_StdMin : Z := 1.

Section formatter.
Context {F : Type} (quote : gostring -> gostring) (float : F -> gostring).

(** The methods of the interface. *)
Inductive call :=
  | FormatDynamic (vk : Z) (key value : gostring)
  | FormatBool (key : gostring) (value : bool)
  | FormatUint64 (key : gostring) (value : Z)
  | FormatUintptr (key : gostring) (value : Z)
  | FormatInt64 (key : gostring) (value : Z)
  | FormatFloat64 (key : gostring) (value : F)
  | FormatConstMsg (value : gostring)
  | FormatConstString (key value : gostring)
  | FormatGroup (key : gostring) (forEach : list call).

Inductive fmtState := fmtState_Empty | fmtState_Text | fmtState_ParenFields | fmtState_Other (n : Z).

(** [self] is the address stored at construction, [None] being nil. *)
Record StableFormatter := MkFormatter {
  self : option positive; buf : gostring; state : fmtState; fieldCount : Z }.

Definition NewStableFormatter (this : positive) : StableFormatter :=
  MkFormatter (Some this) [] fmtState_Empty 0.

Definition copyCheck (this : positive) (f : StableFormatter) : go unit :=
  if decide (self f = Some this) then Ret tt
  else _ ← (if decide (self f = None) then Invariant false else Ret tt); Invariant false.

Definition with_buf (f : StableFormatter) (b : gostring) : StableFormatter :=
  MkFormatter (self f) b (state f) (fieldCount f).

Definition appendKeyPrefix (b key : gostring) : gostring :=
  match key with [] => b | _ => b ++ key ++ str "=" end.

Definition openFieldList (f : StableFormatter) : go StableFormatter :=
  match state f with
  | fmtState_Empty => Ret (MkFormatter (self f) (buf f ++ str "(") fmtState_ParenFields 0)
  | fmtState_Text => Ret (MkFormatter (self f) (buf f ++ str " (") fmtState_ParenFields 0)
  | fmtState_ParenFields => PanicInvariantViolation
  | fmtState_Other _ => PanicUnknownCase
  end.

Definition closeFieldList (f : StableFormatter) : go StableFormatter :=
  match state f with
  | fmtState_Empty | fmtState_Text => Ret (MkFormatter (self f) (buf f) (state f) 0)
  | fmtState_ParenFields => Ret (MkFormatter (self f) (buf f ++ str ")") fmtState_Text 0)
  | fmtState_Other _ => PanicUnknownCase
  end.

Definition appendField (f : StableFormatter) (write : gostring -> gostring) : go StableFormatter :=
  f ← match state f with
      | fmtState_Empty | fmtState_Text => openFieldList f
      | fmtState_ParenFields => Ret f
      | fmtState_Other _ => PanicUnknownCase
      end;
  let b := if 0 <? fieldCount f then buf f ++ str ", " else buf f in
  Ret (MkFormatter (self f) (write b) (state f) (fieldCount f + 1)).

(** [strconv.AppendUint] and [AppendInt] in base 10, and [AppendBool]. *)
Definition decimal (z : Z) : gostring := str (pretty z).
Definition bool_text (b : bool) : gostring := if b then str "true" else str "false".

(** Each method, on the formatter at [this]. *)
Fixpoint run_call (this : positive) (f : StableFormatter) (c : call) : go StableFormatter :=
  _ ← copyCheck this f;
  match c with
  | FormatDynamic vk key value =>
      _ ← (if (vk <? ValueKind_StdMin) || (ValueKind_StdMax <? vk) then Precondition false else Ret tt);
      appendField f (fun b => appendKeyPrefix b key ++ quote value)
  | FormatBool key value => appendField f (fun b => appendKeyPrefix b key ++ bool_text value)
  | FormatUint64 key value | FormatUintptr key value | FormatInt64 key value =>
      appendField f (fun b => appendKeyPrefix b key ++ decimal value)
  | FormatFloat64 key value => appendField f (fun b => appendKeyPrefix b key ++ float value)
  | FormatConstMsg value =>
      f ← closeFieldList f;
      match value with
      | [] => Ret f
      | _ => Ret (MkFormatter (self f) (buf f ++ value) fmtState_Text (fieldCount f))
      end
  | FormatConstString key value => appendField f (fun b => appendKeyPrefix b key ++ quote value)
  | FormatGroup key forEach =>
      f ← appendField f (fun b => appendKeyPrefix b key ++ str "{");
      let parentState := state f in
      let parentFieldCount := fieldCount f in
      f ← foldl (fun acc c => f ← acc; run_call this f c)
            (Ret (MkFormatter (self f) (buf f) fmtState_Empty 0)) forEach;
      f ← closeFieldList f;
      Ret (MkFormatter (self f) (buf f ++ str "}") parentState parentFieldCount)
  end.
Definition run_calls (this : positive) (f : StableFormatter) (cs : list call) : go StableFormatter :=
  foldl (fun acc c => f ← acc; run_call this f c) (Ret f) cs.

Definition Finish (this : positive) (f : StableFormatter) : go (gostring * StableFormatter) :=
  _ ← copyCheck this f;
  b ← match state f with
      | fmtState_Empty | fmtState_Text => Ret (buf f)
      | fmtState_ParenFields => Ret (buf f ++ str ")")
      | fmtState_Other _ => PanicUnknownCase
      end;
  Ret (b, MkFormatter (self f) [] fmtState_Empty 0).

Definition Err (this : positive) (f : StableFormatter) : go (option unit) := _ ← copyCheck this f; Ret None.

(** ** The reference

    The calls form sections: each message with the fields that follow it.  A
    non-empty run of fields is parenthesised, separated by commas, and set off
    by a space from any text before it. *)
Inductive item := IMsg (m : gostring) | IField (r : gostring).

Fixpoint sections (items : list item) : list gostring * list (gostring * list gostring) :=
  match items with
  | [] => ([], [])
  | IField r :: items => let '(fs, ss) := sections items in (r :: fs, ss)
  | IMsg m :: items => let '(fs, ss) := sections items in ([], (m, fs) :: ss)
  end.

Definition nonempty {A} (l : list A) : bool := match l with [] => false | _ => true end.

Fixpoint commas (fs : list gostring) : gostring :=
  match fs with
  | [] => []
  | [r] => r
  | r :: fs => r ++ str ", " ++ commas fs
  end.
Definition field_list (after_text : bool) (fs : list gostring) : gostring :=
  match fs with
  | [] => []
  | _ => (if after_text then str " (" else str "(") ++ commas fs ++ str ")"
  end.
Fixpoint render_sections (after_text : bool) (ss : list (gostring * list gostring)) : gostring :=
  match ss with
  | [] => []
  | (m, fs) :: ss =>
      let after_text := after_text || nonempty m in
      m ++ field_list after_text fs ++ render_sections (after_text || nonempty fs) ss
  end.
Definition render_items (after_text : bool) (items : list item) : gostring :=
  let '(fs, ss) := sections items in
  field_list after_text fs ++ render_sections (after_text || nonempty fs) ss.

Definition keyed (key text : gostring) : gostring :=
  match key with [] => text | _ => key ++ str "=" ++ text end.
Fixpoint to_item (c : call) : item :=
  match c with
  | FormatDynamic _ key value | FormatConstString key value => IField (keyed key (quote value))
  | FormatBool key value => IField (keyed key (bool_text value))
  | FormatUint64 key value | FormatUintptr key value | FormatInt64 key value => IField (keyed key (decimal value))
  | FormatFloat64 key value => IField (keyed key (float value))
  | FormatConstMsg value => IMsg value
  | FormatGroup key cs => IField (keyed key (str "{" ++ render_items false (map to_item cs) ++ str "}"))
  end.
Definition render (cs : list call) : gostring := render_items false (map to_item cs).

(** Every [FormatDynamic] has a standard kind. *)
Fixpoint kinds_ok (c : call) : bool :=
  match c with
  | FormatDynamic vk _ _ => (ValueKind_StdMin <=? vk) && (vk <=? ValueKind_StdMax)
  | FormatGroup _ cs => forallb kinds_ok cs
  | _ => true
  end.

(** ** What remains to be written

    [out st items]: the text the formatter still owes for [items] when it is in
    state [st], the parenthesis it has open included. *)
#[local] Opaque str.

Definition lead (st : fmtState) : gostring :=
  match st with fmtState_Empty => str "(" | fmtState_Text => str " (" | _ => str ", " end.
Definition tail_items (items : list item) : gostring :=
  let '(fs, ss) := sections items in
  foldr (fun r acc => str ", " ++ r ++ acc) (str ")" ++ render_sections true ss) fs.
Definition out (st : fmtState) (items : list item) : gostring :=
  match st with
  | fmtState_Empty => render_items false items
  | fmtState_Text => render_items true items
  | fmtState_ParenFields => tail_items items
  | fmtState_Other _ => []
  end.
Definition valid (this : positive) (f : StableFormatter) : Prop :=
  self f = Some this /\
  match state f with fmtState_Other _ => False | fmtState_ParenFields => 0 < fieldCount f | _ => True end.

Lemma commas_tail r fs (rest : gostring) :
  commas (r :: fs) ++ str ")" ++ rest = r ++ foldr (fun r acc => str ", " ++ r ++ acc) (str ")" ++ rest) fs.
Proof.
  revert r. induction fs as [|r' fs IH]; intros r; [done|].
  change (commas (r :: r' :: fs)) with (r ++ str ", " ++ commas (r' :: fs)).
  cbn [foldr]. rewrite <- !app_assoc, IH. done.
Qed.

Lemma render_items_field after_text r items :
  render_items after_text (IField r :: items) = (if after_text then str " (" else str "(") ++ r ++ tail_items items.
Proof.
  unfold render_items, tail_items. cbn [sections]. destruct (sections items) as [fs ss]. cbn [nonempty].
  rewrite orb_true_r. unfold field_list. rewrite <- !app_assoc. f_equal. apply commas_tail.
Qed.
Lemma render_items_msg after_text m items :
  render_items after_text (IMsg m :: items) = m ++ render_items (after_text || nonempty m) items.
Proof.
  unfold render_items. cbn [sections]. destruct (sections items) as [fs ss]. cbn [nonempty field_list render_sections app].
  rewrite orb_false_r. done.
Qed.

Lemma out_field st items r :
  (match st with fmtState_Other _ => False | _ => True end) ->
  out st (IField r :: items) = lead st ++ r ++ out fmtState_ParenFields items.
Proof.
  destruct st; intros Hst; cbn [out lead]; try done; [apply render_items_field..|].
  unfold tail_items. cbn [sections]. destruct (sections items) as [fs ss]. cbn [foldr]. done.
Qed.
Lemma tail_items_msg m items : tail_items (IMsg m :: items) = str ")" ++ m ++ render_items true items.
Proof.
  unfold tail_items, render_items. cbn [sections]. destruct (sections items) as [fs ss]. cbn [foldr render_sections]. done.
Qed.
Lemma out_nil st : out st [] = match st with fmtState_ParenFields => str ")" | _ => [] end.
Proof. by destruct st. Qed.

(** ** Single steps *)
Lemma copyCheck_ok this f : valid this f -> copyCheck this f = Ret tt.
Proof. intros [Hs _]. unfold copyCheck. by rewrite decide_True. Qed.

(** [wrote f r f']: [f'] is [f] after the text [r] of one more field. *)
Definition wrote this f r f' : Prop :=
  valid this f' /\ state f' = fmtState_ParenFields /\ buf f' = buf f ++ lead (state f) ++ r.

Lemma appendField_spec this f write r :
  valid this f -> (forall b, write b = b ++ r) -> exists f', appendField f write = Ret f' /\ wrote this f r f'.
Proof.
  intros [Hs Hst] Hw. unfold appendField, openFieldList. destruct (state f) eqn:Est; try done; rewrite bind_ret; cbv zeta.
  - cbn [fieldCount buf]. eexists. split; [done|]. split; [split; cbn; [done|lia]|]. cbn. rewrite Hw, Est, <- app_assoc. done.
  - cbn [fieldCount buf]. eexists. split; [done|]. split; [split; cbn; [done|lia]|]. cbn. rewrite Hw, Est, <- app_assoc. done.
  - rewrite (proj2 (Z.ltb_lt _ _)) by done. eexists. split; [done|]. split; [split; cbn; [done|rewrite Est; lia]|].
    cbn. rewrite Hw, Est, <- app_assoc. done.
Qed.

Lemma wrote_out this f r f' items :
  valid this f -> wrote this f r f' -> buf f ++ out (state f) (IField r :: items) = buf f' ++ out (state f') items.
Proof.
  intros [_ Hst] (_ & Hp & Hb). rewrite Hp, Hb, out_field by (by destruct (state f)). by rewrite <- !app_assoc.
Qed.

Lemma appendKeyPrefix_keyed b key text : appendKeyPrefix b key ++ text = b ++ keyed key text.
Proof. destruct key; [done|]. unfold appendKeyPrefix, keyed. by rewrite <- !app_assoc. Qed.
Lemma keyed_app key a b : keyed key (a ++ b) = keyed key a ++ b.
Proof. destruct key; [done|]. unfold keyed. by rewrite <- !app_assoc. Qed.

Lemma closeFieldList_spec this f :
  valid this f -> exists f', closeFieldList f = Ret f' /\ valid this f' /\ buf f' = buf f ++ out (state f) [] /\
    state f' = (match state f with fmtState_ParenFields => fmtState_Text | st => st end).
Proof.
  intros [Hs Hst]. unfold closeFieldList, valid. rewrite out_nil.
  destruct (state f); try done; eexists; (split; [done|]); cbn; by rewrite ?app_nil_r.
Qed.

(** The calls nest: an induction principle with the hypothesis for group bodies. *)
Fixpoint call_nested_ind (P : call -> Prop)
  (Hgroup : forall key cs, Forall P cs -> P (FormatGroup key cs))
  (Hother : forall c, (forall key cs, c <> FormatGroup key cs) -> P c) (c : call) : P c.
Proof.
  destruct c; try (apply Hother; discriminate).
  apply Hgroup. induction forEach as [|c cs IH]; constructor; [by apply call_nested_ind|exact IH].
Qed.

Definition step_spec this (c : call) : Prop :=
  forall f, valid this f ->
  if kinds_ok c then
    exists f', run_call this f c = Ret f' /\ valid this f' /\
      forall items, buf f ++ out (state f) (to_item c :: items) = buf f' ++ out (state f') items
  else run_call this f c = Panic PreconditionViolation.

Lemma run_fold_panic this cs k :
  foldl (fun acc c => f ← acc; run_call this f c) (Panic k) cs = Panic k.
Proof. induction cs as [|c cs IH]; [done|]. apply IH. Qed.

Lemma run_calls_spec this cs f :
  Forall (step_spec this) cs -> valid this f ->
  if forallb kinds_ok cs then
    exists f', run_calls this f cs = Ret f' /\ valid this f' /\
      forall items, buf f ++ out (state f) (map (to_item) cs ++ items) = buf f' ++ out (state f') items
  else run_calls this f cs = Panic PreconditionViolation.
Proof.
  unfold run_calls. revert f. induction cs as [|c cs IH]; intros f Hcs Hf; cbn [forallb foldl map app].
  { exists f. done. }
  inversion Hcs as [|? ? Hc Hcs']; subst. specialize (Hc f Hf). rewrite bind_ret.
  destruct (kinds_ok c); cbn [andb]; [|by rewrite Hc, run_fold_panic].
  destruct Hc as (f1 & E1 & Hf1 & Hout). rewrite E1. specialize (IH f1 Hcs' Hf1).
  destruct (forallb kinds_ok cs); [|done]. destruct IH as (f' & E' & Hf' & Hout').
  exists f'. split_and!; [done..|]. intros items. by rewrite Hout.
Qed.

Lemma field_step this c r :
  kinds_ok c = true -> to_item c = IField r ->
  (forall f, valid this f -> run_call this f c = appendField f (fun b => b ++ r)) -> step_spec this c.
Proof.
  intros Hk Hi Hrun f Hf. rewrite Hk. destruct (appendField_spec this f (fun b => b ++ r) r Hf) as (f' & E & Hw); [done|].
  exists f'. rewrite Hrun, Hi by done. split_and!; [done|apply Hw|]. intros items. by apply (wrote_out this).
Qed.

Lemma run_field this f c write r :
  valid this f -> run_call this f c = (_ ← copyCheck this f; appendField f write) -> (forall b, write b = b ++ r) ->
  run_call this f c = appendField f (fun b => b ++ r).
Proof.
  intros Hf -> Hw. rewrite copyCheck_ok, bind_ret by done. unfold appendField.
  destruct (match state f with fmtState_Empty | fmtState_Text => _ | _ => _ end); [|done..]. cbn. by rewrite Hw.
Qed.

Lemma step_other this c : (forall key cs, c <> FormatGroup key cs) -> step_spec this c.
Proof.
  intros Hc. destruct c as [vk key v|key b|key z|key z|key z|key fl|m|key v|key cs]; try by (eapply field_step; [done|done|];
    intros f Hf; eapply run_field; [done|done|]; intros b0; apply appendKeyPrefix_keyed).
  - intros f Hf. cbn [kinds_ok]. destruct ((ValueKind_StdMin <=? vk) && (vk <=? ValueKind_StdMax)) eqn:Hk.
    + assert (step_spec this (FormatDynamic vk key v)) as Hs.
      { eapply field_step; [done|done|]. intros f0 Hf0. eapply run_field; [done| |intros b0; apply appendKeyPrefix_keyed].
        cbn [run_call]. assert ((vk <? ValueKind_StdMin) || (ValueKind_StdMax <? vk) = false) as -> by lia. done. }
      specialize (Hs f Hf). cbn [kinds_ok] in Hs. by rewrite Hk in Hs.
    + cbn [run_call]. rewrite copyCheck_ok, bind_ret by done.
      assert ((vk <? ValueKind_StdMin) || (ValueKind_StdMax <? vk) = true) as -> by lia. done.
  - intros f Hf. cbn [kinds_ok run_call to_item]. rewrite copyCheck_ok, bind_ret by done.
    destruct (closeFieldList_spec this f Hf) as (f1 & -> & Hf1 & Hb & Hst). rewrite bind_ret.
    assert (forall items, buf f ++ out (state f) (IMsg m :: items) =
              buf f1 ++ m ++ out (if nonempty m then fmtState_Text else state f1) items) as Hout.
    { intros items. rewrite Hb, Hst, out_nil, <- app_assoc. f_equal. destruct Hf as [_ Hf].
      destruct (state f); try done; cbn [out]; rewrite ?tail_items_msg, ?render_items_msg; destruct m; done. }
    destruct m as [|a m]; [exists f1; done|]. eexists. split; [done|]. split; [destruct Hf1 as [? _]; split; done|].
    intros items. cbn [buf state]. by rewrite Hout, <- app_assoc.
  - by destruct (Hc key cs).
Qed.

Lemma step_all this c : step_spec this c.
Proof.
  induction c as [key cs Hcs|c Hc] using call_nested_ind; [|by apply step_other].
  intros f Hf. cbn [kinds_ok run_call to_item]. rewrite copyCheck_ok, bind_ret by done.
  destruct (appendField_spec this f (fun b => appendKeyPrefix b key ++ str "{") (keyed key (str "{")) Hf) as (f1 & -> & Hw).
  { intros b. apply appendKeyPrefix_keyed. }
  rewrite bind_ret. cbv zeta. destruct Hw as (Hf1 & Hp & Hb).
  pose proof (run_calls_spec this cs (MkFormatter (self f1) (buf f1) fmtState_Empty 0) Hcs) as Hin.
  unfold run_calls in Hin. destruct (forallb kinds_ok cs).
  - destruct Hin as (f2 & -> & Hf2 & Hout); [split; [apply Hf1|done]|]. rewrite bind_ret.
    destruct (closeFieldList_spec this f2 Hf2) as (f3 & -> & Hf3 & Hb3 & _). rewrite bind_ret.
    specialize (Hout []). rewrite app_nil_r in Hout. cbn [buf state out] in Hout.
    set (r := keyed key (str "{" ++ render_items false (map to_item cs) ++ str "}")).
    assert (wrote this f r (MkFormatter (self f3) (buf f3 ++ str "}") (state f1) (fieldCount f1))) as Hw.
    { split; [split; [apply Hf3|apply Hf1]|]. split; [exact Hp|]. cbn [buf]. rewrite Hb3, <- Hout, Hb. unfold r.
      rewrite (keyed_app key (str "{")). by rewrite <- !app_assoc. }
    eexists. split; [done|]. split; [apply Hw|]. intros items. by apply (wrote_out this).
  - rewrite Hin; [done|]. split; [apply Hf1|done].
Qed.

(** ** Main theorem *)

(** C38: whatever calls a client makes, nested groups included, [Finish] returns
    the rendering of their structure and leaves the formatter as newly built;
    the only panic is that of a [FormatDynamic] with a non-standard kind. *)
Theorem stable_formatter_renders (this : positive) (cs : list call) :
  (f ← run_calls this (NewStableFormatter this) cs; Finish this f) =
    if forallb kinds_ok cs then Ret (render cs, NewStableFormatter this) else Panic PreconditionViolation.
Proof.
  pose proof (run_calls_spec this cs (NewStableFormatter this)) as H.
  destruct (forallb kinds_ok cs).
  - destruct H as (f & -> & Hf & Hout); [apply Forall_true, step_all|done|]. rewrite bind_ret.
    unfold Finish. rewrite copyCheck_ok, bind_ret by done. specialize (Hout []). rewrite app_nil_r in Hout.
    cbn [buf state NewStableFormatter out app] in Hout. fold (render cs) in Hout. rewrite Hout, out_nil.
    destruct Hf as [Hs Hst]. unfold NewStableFormatter. rewrite <- Hs.
    destruct (state f); try done; rewrite bind_ret, ?app_nil_r; done.
  - rewrite H; [done|apply Forall_true, step_all|done].
Qed.
End formatter.

Example formatter_group_example :

  render (fun s => s) (fun _ : unit => []) [FormatConstMsg (str "msg"); FormatUint64 (str "n") 3; FormatGroup (str "g") [FormatBool [] true]]
    = str "msg (n=3, g={(true)})".
Proof. reflexivity. Qed.
