(* ===== verification/GoSort.v ===== *)
(** * Binary search of the Go standard library ([go/src/sort/search.go])

    [Search] is a loop: 64 rounds of fuel are enough, because every round
    halves an interval of fewer than 2^63 indices ([Search_least]). *)
From S2P Require Import Prelude.

Fixpoint Search_loop (fuel : nat) (i j : Z) (f : Z -> go bool) : go Z :=
  match fuel with
  | O => OutOfFuel
  | S fuel =>
      if i <? j then
        let h := int64 (Z.shiftr (uint_wrap 64 (int64 (i + j))) 1) in
        b ← f h;
        if negb b then Search_loop fuel (int64 (h + 1)) j f else Search_loop fuel i h f
      else Ret i
  end.

Definition Search (n : Z) (f : Z -> go bool) : go Z := Search_loop 64 0 n f.

(** The midpoint is exact, even when [i + j] overflows [int]. *)
Lemma Search_mid i j :
  0 <= i < j -> j <= MaxInt ->
  int64 (Z.shiftr (uint_wrap 64 (int64 (i + j))) 1) = (i + j) / 2.
Proof.
  intros Hi Hj. assert (uint_wrap 64 (int64 (i + j)) = i + j) as ->.
  { unfold uint_wrap, int64, sint_wrap. rewrite Zminus_mod_idemp_l.
    replace (i + j + 2 ^ (64 - 1) - 2 ^ (64 - 1)) with (i + j) by lia.
    apply Z.mod_small. unfold MaxInt in Hj. lia. }
  rewrite Z.shiftr_div_pow2 by lia. change (2 ^ 1) with 2. apply int64_id.
  pose proof (Z.div_lt_upper_bound (i + j) 2 j). pose proof (Z.div_pos (i + j) 2). int_range.
Qed.

(** [Search] finds the least index where a monotone predicate holds, or [n];
    the predicate is evaluated inside [0, n) only. *)
Lemma Search_least n (f : Z -> go bool) (p : Z -> bool) :
  0 <= n <= MaxInt ->
  (forall i, 0 <= i < n -> f i = Ret (p i)) ->
  (forall i j, 0 <= i <= j -> j < n -> p i = true -> p j = true) ->
  exists r, Search n f = Ret r /\ 0 <= r <= n /\
            (forall i, 0 <= i < r -> p i = false) /\ (forall i, r <= i < n -> p i = true).
Proof.
  intros Hn Hf Hmono.
  assert (forall fuel i j,
    0 <= i <= j -> j <= n -> j - i < 2 ^ (Z.of_nat fuel - 1) ->
    (forall k, 0 <= k < i -> p k = false) -> (forall k, j <= k < n -> p k = true) ->
    exists r, Search_loop fuel i j f = Ret r /\ 0 <= r <= n /\
            (forall k, 0 <= k < r -> p k = false) /\ (forall k, r <= k < n -> p k = true)) as IH.
  { induction fuel as [|fuel IH]; intros i j Hi Hj Hfuel Hlo Hhi.
    { exfalso. rewrite Z.pow_neg_r in Hfuel by lia. lia. }
    cbn [Search_loop]. destruct (Z.ltb_spec i j) as [Hij|Hij].
    2:{ assert (i = j) as -> by lia. exists j. split_and!; [done|lia|lia|done|done]. }
    rewrite Search_mid by lia. set (h := (i + j) / 2) in *.
    assert (2 * h <= i + j <= 2 * h + 1) as Hh2.
    { pose proof (Z.div_mod (i + j) 2). pose proof (Z.mod_pos_bound (i + j) 2). lia. }
    assert (i <= h < j) as Hh by lia. clearbody h.
    assert (1 <= Z.of_nat fuel) as Hf1.
    { destruct fuel; [|lia]. cbn in Hfuel. lia. }
    replace (Z.of_nat (S fuel) - 1) with (Z.succ (Z.of_nat fuel - 1)) in Hfuel by lia.
    rewrite Z.pow_succ_r in Hfuel by lia.
    rewrite Hf by lia. rewrite bind_ret. destruct (p h) eqn:Eh; cbn [negb].
    - apply IH; [lia|lia|lia|done|].
      intros k Hk. apply (Hmono h k); [lia|lia|done].
    - rewrite int64_id by int_range. apply IH; [lia|lia|lia| |done].
      intros k Hk. destruct (p k) eqn:Ek; [|done].
      rewrite (Hmono k h) in Eh; [done|lia|lia|done]. }
  unfold Search. apply IH; try lia. cbn. unfold MaxInt in Hn. lia.
Qed.
