(* ===== verification/Strconv.v ===== *)
(** * Integers as text ([go/src/internal/strconv/itoa.go], [atoi.go], [uscale.go])

    The formatter writes pairs of digits into a buffer from the right, the
    parser reads any base with underscores and prefixes; [Atoi] has a fast path.
    The specification is the numeral of a number: its digits in a base, most
    significant first, without leading zeros.  [bits.Len64] is the number of bits. *)
From stdpp Require Import pretty.
From S2P Require Import Prelude BitVec.
#[local] Open Scope Z_scope.

Definition digits : gostring := str "0123456789abcdefghijklmnopqrstuvwxyz".
Definition smalls : gostring := str "00010203040506070809101112131415161718192021222324252627282930313233343536373839404142434445464748495051525354555657585960616263646566676869707172737475767778798081828384858687888990919293949596979899".
Definition nSmalls : Z := 100.
Definition Len64 (x : Z) : Z := if x =? 0 then 0 else Z.log2 x + 1.

(** ** uscale.go *)
Definition uint64pow10 : list Z :=
  [1; 10; 100; 1000; 10000; 100000; 1000000; 10000000; 100000000; 1000000000;
   10000000000; 100000000000; 1000000000000; 10000000000000; 100000000000000; 1000000000000000;
   10000000000000000; 100000000000000000; 1000000000000000000; 10000000000000000000].
Definition bool2 (b : bool) : Z := if b then 1 else 0.
Definition log10Pow2 (x : Z) : Z := Z.shiftr (x * 78913) 18.
Definition numDigits (d : Z) : go Z :=
  let nd := log10Pow2 (Len64 d) in
  p ← index uint64pow10 nd;
  Ret (nd + bool2 (p <=? d)).

(** ** itoa.go *)
Definition small (i : Z) : go gostring :=
  if i <? 10 then slice digits i (i + 1) else slice smalls (i * 2) (i * 2 + 2).
Definition isPowerOfTwo (x : Z) : bool := Z.land x (x - 1) =? 0.

(** [a[p-1], a[p-2] = smalls[x+1], smalls[x]] *)
Definition put2 (a : gostring) (p x : Z) : go gostring :=
  d1 ← index smalls (x + 1); d0 ← index smalls x;
  a ← store a (p - 1) d1; store a (p - 2) d0.

Fixpoint formatBase10_loop (fuel : nat) (a : gostring) (nd u : Z) : go (gostring * Z * Z) :=
  if 8 <=? nd then
    match fuel with
    | O => OutOfFuel
    | S fuel =>
        let x3210 := uint_wrap 32 (u mod 100000000) in
        let u := u / 100000000 in
        let x32 := x3210 / 10000 in let x10 := x3210 mod 10000 in
        let x1 := x10 / 100 * 2 in let x0 := x10 mod 100 * 2 in
        let x3 := x32 / 100 * 2 in let x2 := x32 mod 100 * 2 in
        a ← put2 a nd x0; a ← put2 a (nd - 2) x1; a ← put2 a (nd - 4) x2; a ← put2 a (nd - 6) x3;
        formatBase10_loop fuel a (nd - 8) u
    end
  else Ret (a, nd, u).
(** The result is the buffer [a] after the call; each round writes eight bytes. *)
Definition formatBase10 (a : gostring) (u : Z) : go gostring :=
  '(a, nd, u) ← formatBase10_loop (length a) a (zlen a) u;
  let x := uint_wrap 32 u in
  '(a, nd, x) ← (if 4 <=? nd then
      let x10 := x mod 10000 in
      let x := x / 10000 in
      let x1 := x10 / 100 * 2 in let x0 := x10 mod 100 * 2 in
      a ← put2 a nd x0; a ← put2 a (nd - 2) x1; Ret (a, nd - 4, x)
    else Ret (a, nd, x));
  '(a, nd, x) ← (if 2 <=? nd then
      let x0 := x mod 100 * 2 in
      let x := x / 100 in
      a ← put2 a nd x0; Ret (a, nd - 2, x)
    else Ret (a, nd, x));
  if 0 <? nd then store a 0 (uint_wrap 8 (48 + x)) else Ret a.

(** The digits of [u] in the bytes before [i] of [a]: the buffer has room for 64 binary digits and a sign. *)
Fixpoint formatBits_shift (fuel : nat) (a : gostring) (i u b m shift : Z) : go (gostring * Z * Z) :=
  if b <=? u then
    match fuel with
    | O => OutOfFuel
    | S fuel =>
        let i := i - 1 in
        d ← index digits (Z.land u m); a ← store a i d;
        formatBits_shift fuel a i (Z.shiftr u shift) b m shift
    end
  else Ret (a, i, u).
Fixpoint formatBits_div (fuel : nat) (a : gostring) (i u b : Z) : go (gostring * Z * Z) :=
  if b <=? u then
    match fuel with
    | O => OutOfFuel
    | S fuel =>
        let i := i - 1 in
        let q := u / b in
        d ← index digits (uint_wrap 64 (u - uint_wrap 64 (q * b))); a ← store a i d;
        formatBits_div fuel a i q b
    end
  else Ret (a, i, u).
(** What is written, [a[i:]]: the two results of the code are this text appended to [dst], and this text. *)
Definition formatBits (u base : Z) (neg : bool) : go gostring :=
  if (base <? 2) || (base =? 10) || (zlen digits <? base) then Panic ExplicitPanic
  else
    let a := replicate 65 0 in
    let u := if neg then uint_wrap 64 (- u) else u in
    '(a, i, u) ← (if isPowerOfTwo base then formatBits_shift 64 a (zlen a) u base (base - 1) (TrailingZeros64 base)
                  else formatBits_div 64 a (zlen a) u base);
    let i := i - 1 in
    d ← index digits u; a ← store a i d;
    '(a, i) ← (if neg then a ← store a (i - 1) 45; Ret (a, i - 1) else Ret (a, i));
    slice_from a i.

Definition FormatUint (i base : Z) : go gostring :=
  if base =? 10 then
    if i <? nSmalls then small i
    else
      let a := replicate 24 0 in
      nd ← numDigits i;
      b ← slice_to a nd; b ← formatBase10 b i;
      Ret b
  else formatBits i base false.

Definition FormatInt (i base : Z) : go gostring :=
  if base =? 10 then
    if (0 <=? i) && (i <? nSmalls) then small i
    else
      let a := replicate 24 0 in
      let u := uint_wrap 64 i in
      let u := if i <? 0 then uint_wrap 64 (- u) else u in
      nd ← numDigits u;
      b ← slice a 1 (1 + nd); b ← formatBase10 b u;
      let a := take 1 a ++ b ++ drop (Z.to_nat (1 + nd)) a in
      if i <? 0 then a ← store a 0 45; slice_to a (1 + nd) else slice a 1 (1 + nd)
  else formatBits (uint_wrap 64 i) base (i <? 0).
Definition Itoa (i : Z) : go gostring := FormatInt i 10.

Definition AppendUint (dst : gostring) (i base : Z) : go gostring :=
  if base =? 10 then
    if i <? nSmalls then s ← small i; Ret (dst ++ s)
    else
      let a := replicate 24 0 in
      nd ← numDigits i;
      b ← slice_to a nd; b ← formatBase10 b i;
      Ret (dst ++ b)
  else s ← formatBits i base false; Ret (dst ++ s).
Definition AppendInt (dst : gostring) (i base : Z) : go gostring :=
  let u := uint_wrap 64 i in
  let '(dst, u) := if i <? 0 then (dst ++ [45], uint_wrap 64 (- u)) else (dst, u) in
  AppendUint dst u base.

(** ** atoi.go *)
Inductive Error := ErrRange | ErrSyntax | ErrBase | ErrBitSize.
#[export] Instance Error_eq_dec : EqDecision Error.
Proof. solve_decision. Defined.
Definition Error_Error (e : Error) : gostring :=
  match e with
  | ErrRange => str "value out of range" | ErrSyntax => str "invalid syntax"
  | ErrBase => str "invalid base" | ErrBitSize => str "invalid bit size"
  end.
Definition IntSize : Z := 64.
Definition lower (c : Z) : Z := Z.lor c 32.
Definition maxUint64 : Z := 2 ^ 64 - 1.

(** The underscores of a base-0 literal; [saw] is the class of the last byte. *)
Definition is_hex_letter (c : Z) : bool := (97 <=? lower c) && (lower c <=? 102).
Fixpoint underscore_loop (hex : bool) (s : gostring) (saw : Z) : bool :=
  match s with
  | [] => negb (saw =? 95)
  | c :: s =>
      if (48 <=? c) && (c <=? 57) || hex && is_hex_letter c then underscore_loop hex s 48
      else if c =? 95 then if negb (saw =? 48) then false else underscore_loop hex s 95
      else if saw =? 95 then false
      else underscore_loop hex s 33
  end.
Definition underscoreOK (s : gostring) : bool :=
  let s := match s with c :: t => if (c =? 45) || (c =? 43) then t else s | [] => s end in
  match s with
  | c0 :: c1 :: t =>
      if (c0 =? 48) && ((lower c1 =? 98) || (lower c1 =? 111) || (lower c1 =? 120)) then underscore_loop (lower c1 =? 120) t 48
      else underscore_loop false s 94
  | _ => underscore_loop false s 94
  end.

(** The base and the digits that the base argument stands for. *)
Definition literal_base (s : gostring) (base : Z) : option (Z * gostring) :=
  if (2 <=? base) && (base <=? 36) then Some (base, s)
  else if base =? 0 then
    match s with
    | c0 :: t =>
        if c0 =? 48 then
          match t with
          | c1 :: t' =>
              if (3 <=? zlen s) && (lower c1 =? 98) then Some (2, t')
              else if (3 <=? zlen s) && (lower c1 =? 111) then Some (8, t')
              else if (3 <=? zlen s) && (lower c1 =? 120) then Some (16, t')
              else Some (8, t)
          | [] => Some (8, t)
          end
        else Some (10, s)
    | [] => Some (10, s)
    end
  else None.

Fixpoint parse_loop (base0 : bool) (base cutoff maxVal : Z) (s : gostring) (underscores : bool) (n : Z) : (Z * bool) + (Z * Error) :=
  match s with
  | [] => inl (n, underscores)
  | c :: s =>
      if (c =? 95) && base0 then parse_loop base0 base cutoff maxVal s true n
      else
        let d := if (48 <=? c) && (c <=? 57) then Some (c - 48)
                 else if (97 <=? lower c) && (lower c <=? 122) then Some (uint_wrap 8 (lower c - 97 + 10)) else None in
        match d with
        | None => inr (0, ErrSyntax)
        | Some d =>
            if base <=? d then inr (0, ErrSyntax)
            else if cutoff <=? n then inr (maxVal, ErrRange)
            else
              let n := uint_wrap 64 (n * base) in
              let n1 := uint_wrap 64 (n + d) in
              if (n1 <? n) || (maxVal <? n1) then inr (maxVal, ErrRange)
              else parse_loop base0 base cutoff maxVal s underscores n1
        end
  end.
Definition ParseUint (s : gostring) (base bitSize : Z) : Z * option Error :=
  if bool_decide (s = []) then (0, Some ErrSyntax)
  else
    let base0 := base =? 0 in
    let s0 := s in
    match literal_base s base with
    | None => (0, Some ErrBase)
    | Some (base, s) =>
        if negb (bitSize =? 0) && ((bitSize <? 0) || (64 <? bitSize)) then (0, Some ErrBitSize)
        else
          let bitSize := if bitSize =? 0 then IntSize else bitSize in
          let cutoff := maxUint64 / base + 1 in
          let maxVal := uint_wrap 64 (uint_wrap 64 (Z.shiftl 1 bitSize) - 1) in
          match parse_loop base0 base cutoff maxVal s false 0 with
          | inr (v, e) => (v, Some e)
          | inl (n, underscores) => if underscores && negb (underscoreOK s0) then (0, Some ErrSyntax) else (n, None)
          end
    end.

Definition ParseInt (s : gostring) (base bitSize : Z) : Z * option Error :=
  match s with
  | [] => (0, Some ErrSyntax)
  | c :: t =>
      let '(s, neg) := if c =? 43 then (t, false) else if c =? 45 then (t, true) else (s, false) in
      let '(un, err) := ParseUint s base bitSize in
      if bool_decide (err <> None) && bool_decide (err <> Some ErrRange) then (0, err)
      else
        let bitSize := if bitSize =? 0 then IntSize else bitSize in
        let cutoff := uint_wrap 64 (Z.shiftl 1 (bitSize - 1)) in
        if negb neg && (cutoff <=? un) then (int64 (cutoff - 1), Some ErrRange)
        else if neg && (cutoff <? un) then (int64 (- int64 cutoff), Some ErrRange)
        else
          let n := int64 un in
          (if neg then int64 (- n) else n, None)
  end.

Fixpoint atoi_loop (s : gostring) (n : Z) : option Z :=
  match s with
  | [] => Some n
  | ch :: s =>
      let ch := uint_wrap 8 (ch - 48) in
      if 9 <? ch then None else atoi_loop s (int64 (int64 (n * 10) + ch))
  end.
Definition Atoi (s : gostring) : Z * option Error :=
  if (0 <? zlen s) && (zlen s <? 19) then
    match s with
    | c :: t =>
        if (c =? 45) || (c =? 43) then
          if bool_decide (t = []) then (0, Some ErrSyntax)
          else match atoi_loop t 0 with None => (0, Some ErrSyntax) | Some n => (if c =? 45 then int64 (- n) else n, None) end
        else match atoi_loop s 0 with None => (0, Some ErrSyntax) | Some n => (n, None) end
    | [] => (0, None)
    end
  else ParseInt s 10 0.

Example format_samples :
  FormatInt (-9223372036854775808) 10 = Ret (str "-9223372036854775808") /\ FormatInt (-255) 16 = Ret (str "-ff") /\
  FormatInt 35 36 = Ret (str "z") /\ AppendInt (str "n=") 1234567890123 10 = Ret (str "n=1234567890123") /\ FormatUint 0 2 = Ret (str "0") /\
  FormatInt 5 1 = Panic ExplicitPanic.
Proof. vm_compute. done. Qed.
Example parse_samples :
  ParseInt (str "-0x_ff") 0 64 = (-255, None) /\ ParseUint (str "1__0") 0 64 = (0, Some ErrSyntax) /\ ParseInt (str "-128") 10 8 = (-128, None) /\
  ParseInt (str "128") 10 8 = (127, Some ErrRange) /\ Atoi (str "+42") = (42, None) /\ Atoi (str "-") = (0, Some ErrSyntax).
Proof. vm_compute. done. Qed.

(** ** Numerals *)
Definition digit (d : Z) : Z := if d <? 10 then 48 + d else 87 + d.

Fixpoint repr (fuel : nat) (b u : Z) : gostring :=
  match fuel with
  | O => []
  | S fuel => (if u <? b then [] else repr fuel b (u / b)) ++ [digit (u mod b)]
  end.
(** The digits of a 64-bit number. *)
Definition numeral (b u : Z) : gostring := repr 64 b u.
(** The last [n] decimal digits. *)
Fixpoint pad (n : nat) (u : Z) : gostring := match n with O => [] | S n => pad n (u / 10) ++ [48 + u mod 10] end.

#[local] Instance go_eq_dec {A} `{EqDecision A} : EqDecision (go A).
Proof. solve_decision. Defined.

Lemma forall_below (n : nat) (P : Z -> Prop) `{!forall z, Decision (P z)} :
  forallb (fun k => bool_decide (P (Z.of_nat k))) (List.seq 0 n) = true -> forall z, 0 <= z < Z.of_nat n -> P z.
Proof.
  intros Hall z Hz. rewrite forallb_forall in Hall. specialize (Hall (Z.to_nat z)). rewrite Z2Nat.id, bool_decide_eq_true in Hall by lia.
  apply Hall, in_seq. lia.
Qed.

Lemma index_digits d : 0 <= d < 36 -> index digits d = Ret (digit d).
Proof. apply (forall_below 36 (fun d => index digits d = Ret (digit d))). vm_compute. reflexivity. Qed.

Lemma index_smalls x : 0 <= x < 100 -> index smalls (x * 2) = Ret (48 + x / 10) /\ index smalls (x * 2 + 1) = Ret (48 + x mod 10).
Proof. apply (forall_below 100 (fun x => index smalls (x * 2) = Ret (48 + x / 10) /\ index smalls (x * 2 + 1) = Ret (48 + x mod 10))). vm_compute. reflexivity. Qed.

Lemma small_spec i : 0 <= i < 100 -> small i = Ret (numeral 10 i).
Proof. apply (forall_below 100 (fun i => small i = Ret (numeral 10 i))). vm_compute. reflexivity. Qed.

Lemma repr_length fuel b u : (length (repr fuel b u) <= fuel)%nat.
Proof.
  revert u. induction fuel as [|fuel IH]; intros u; [done|]. cbn [repr]. rewrite length_app. cbn [length].
  destruct (u <? b); [cbn; lia|]. specialize (IH (u / b)). lia.
Qed.

(** Enough fuel for the digits gives the same numeral as more. *)
Lemma repr_more fuel k b u : 2 <= b -> 0 <= u < b ^ Z.of_nat fuel -> (0 < fuel)%nat -> repr (fuel + k) b u = repr fuel b u.
Proof.
  intros Hb. revert u. induction fuel as [|fuel IH]; intros u Hu Hf; [lia|]. cbn [Nat.add repr]. f_equal.
  destruct (Z.ltb_spec u b); [done|]. rewrite Nat2Z.inj_succ, Z.pow_succ_r in Hu by lia.
  assert (u / b < b ^ Z.of_nat fuel) by (apply Z.div_lt_upper_bound; lia). assert (1 <= u / b) by (apply Z.div_le_lower_bound; lia).
  apply IH; [lia|]. destruct fuel; [cbn in *; lia|lia].
Qed.

(** ** Formatting in any base *)
Lemma store_mid (pre suf : gostring) x d : store (pre ++ x :: suf) (zlen pre) d = Ret (pre ++ d :: suf).
Proof.
  rewrite store_in_range by (rewrite zlen_app, zlen_cons; zlia). f_equal. unfold zlen. rewrite Nat2Z.id.
  rewrite insert_app_r_alt by lia. by rewrite Nat.sub_diag.
Qed.

Lemma formatBits_shift_div fuel a i u k : 1 <= k -> 0 <= u < 2 ^ 64 ->
  formatBits_shift fuel a i u (2 ^ k) (2 ^ k - 1) k = formatBits_div fuel a i u (2 ^ k).
Proof.
  intros Hk. revert a i u. induction fuel as [|fuel IH]; intros a i u Hu; [done|]. cbn [formatBits_shift formatBits_div].
  assert (0 < 2 ^ k) by lia. pose proof (Z.div_mod u (2 ^ k) ltac:(lia)). pose proof (Z.mod_pos_bound u (2 ^ k) ltac:(lia)).
  assert (0 <= u / 2 ^ k <= u) by (split; [apply Z.div_pos; lia|apply Z.div_le_upper_bound; nia]).
  destruct (2 ^ k <=? u); [|done]. rewrite (uint_wrap_id 64 (_ * _)) by nia. rewrite uint_wrap_id by nia.
  replace (2 ^ k - 1) with (Z.ones k) by (rewrite Z.ones_equiv; lia). rewrite Z.land_ones by lia. replace (u - u / 2 ^ k * 2 ^ k) with (u mod 2 ^ k) by lia.
  destruct (index digits _) as [d| |]; [|done..]. rewrite !bind_ret. destruct (store a (i - 1) d); [|done..]. rewrite !bind_ret.
  rewrite Z.shiftr_div_pow2 by lia. rewrite <- IH by lia. rewrite Z.ones_equiv. by f_equal.
Qed.

Lemma formatBits_div_spec fuel (pre suf : gostring) u b :
  2 <= b <= 36 -> 0 <= u < 2 ^ 64 -> u < b ^ Z.of_nat (S fuel) -> (fuel < length pre)%nat ->
  exists pre' tail u', formatBits_div fuel (pre ++ suf) (zlen pre) u b = Ret (pre' ++ tail ++ suf, zlen pre', u') /\
    0 <= u' < b /\ [digit u'] ++ tail = repr (S fuel) b u /\ (length pre' + length tail = length pre)%nat.
Proof.
  intros Hb. revert pre suf u. induction fuel as [|fuel IH]; intros pre suf u Hu Hlt Hpre.
  - exists pre, [], u. cbn [formatBits_div repr app length]. rewrite Z.pow_1_r in Hlt. replace (b <=? u) with false by lia.
    replace (u <? b) with true by lia. rewrite Z.mod_small by lia. split_and!; done || lia.
  - cbn [formatBits_div]. pose proof (Z.div_mod u b ltac:(lia)). pose proof (Z.mod_pos_bound u b ltac:(lia)).
    assert (0 <= u / b <= u) by (split; [apply Z.div_pos; lia|apply Z.div_le_upper_bound; nia]).
    change (repr (S (S fuel)) b u) with ((if u <? b then [] else repr (S fuel) b (u / b)) ++ [digit (u mod b)]).
    destruct (Z.leb_spec b u) as [Hle|Hlt'].
    + replace (u <? b) with false by lia. rewrite (uint_wrap_id 64 (_ * _)) by nia. rewrite uint_wrap_id by nia.
      replace (u - u / b * b) with (u mod b) by lia. rewrite index_digits, bind_ret by lia.
      destruct pre as [|x pre _] using rev_ind; [cbn in Hpre; lia|]. rewrite length_app in Hpre. cbn in Hpre.
      rewrite zlen_app. change (zlen [x]) with 1. replace (zlen pre + 1 - 1) with (zlen pre) by lia.
      rewrite <- app_assoc. cbn [app]. rewrite store_mid, bind_ret.
      destruct (IH pre (digit (u mod b) :: suf) (u / b)) as (pre' & tail & u' & -> & Hu' & Hr & Hlen); [lia| |lia|].
      { rewrite Nat2Z.inj_succ, Z.pow_succ_r in Hlt by lia. apply Z.div_lt_upper_bound; lia. }
      exists pre', (tail ++ [digit (u mod b)]), u'. rewrite <- Hr, <- !app_assoc. rewrite !length_app. cbn [length]. split_and!; done || lia.
    + replace (u <? b) with true by lia. exists pre, [], u. rewrite Z.mod_small by lia. split_and!; done || cbn; lia.
Qed.

Definition sign (neg : bool) : gostring := if neg then [45] else [].

Lemma formatBits_spec u b (neg : bool) :
  2 <= b <= 36 -> b <> 10 -> 0 <= u < 2 ^ 64 ->
  formatBits u b neg = Ret (sign neg ++ numeral b (if neg then uint_wrap 64 (- u) else u)).
Proof.
  intros Hb H10 Hu. unfold formatBits. change (zlen digits) with 36. zcase. set (v := if neg then _ else u).
  assert (0 <= v < 2 ^ 64) as Hv by (subst v; destruct neg; [apply Z.mod_pos_bound; lia|done]).
  assert (v < b ^ Z.of_nat 64) as Hv64 by (eapply Z.lt_le_trans; [apply Hv|]; change (Z.of_nat 64) with 64; apply Z.pow_le_mono_l; lia).
  assert ((if isPowerOfTwo b then formatBits_shift 64 (replicate 65 0) (zlen (replicate 65 0)) v b (b - 1) (TrailingZeros64 b)
           else formatBits_div 64 (replicate 65 0) (zlen (replicate 65 0)) v b) =
          formatBits_div 64 (replicate 65 0) (zlen (replicate 65 0)) v b) as ->.
  { destruct (isPowerOfTwo b) eqn:Hpow; [|done].
    assert (b = 2 ^ TrailingZeros64 b /\ 1 <= TrailingZeros64 b) as [Hb2 Hk].
    { assert (b - 2 < 35) by lia. revert Hpow. replace b with (b - 2 + 2) by lia.
      apply (forall_below 35 (fun z => isPowerOfTwo (z + 2) = true -> z + 2 = 2 ^ TrailingZeros64 (z + 2) /\ 1 <= TrailingZeros64 (z + 2))); [|lia].
      vm_compute. reflexivity. }
    rewrite Hb2 at 1 2 4. by apply formatBits_shift_div. }
  destruct (formatBits_div_spec 64 (replicate 65 0) [] v b Hb Hv) as (pre & tail & u' & Hrun & Hu' & Hr & Hlen).
  { eapply Z.lt_le_trans; [exact Hv64|]. apply Z.pow_le_mono_r; lia. }
  { rewrite length_replicate. lia. }
  rewrite app_nil_r in Hrun. rewrite Hrun, bind_ret. rewrite app_nil_r. clear Hrun.
  assert ([digit u'] ++ tail = numeral b v) as Hnum by (rewrite Hr; apply (repr_more 64 1 b v (proj1 Hb) (conj (proj1 Hv) Hv64)), Nat.lt_0_succ). clear Hr Hv64.
  assert (length tail < 64)%nat as Htail.
  { pose proof (repr_length 64 b v) as Hl. change (repr 64 b v) with (numeral b v) in Hl. rewrite <- Hnum in Hl. cbn in Hl. lia. }
  rewrite length_replicate in Hlen. rewrite index_digits, bind_ret by lia.
  destruct pre as [|x pre _] using rev_ind; [cbn in Hlen; lia|]. rewrite zlen_app. change (zlen [x]) with 1.
  replace (zlen pre + 1 - 1) with (zlen pre) by lia. rewrite <- app_assoc. cbn [app]. rewrite store_mid, bind_ret. change (digit u' :: tail) with ([digit u'] ++ tail). rewrite Hnum.
  rewrite length_app in Hlen. cbn in Hlen. destruct neg; cbn [sign app].
  - destruct pre as [|y pre _] using rev_ind; [cbn in Hlen; lia|]. rewrite zlen_app. change (zlen [y]) with 1.
    replace (zlen pre + 1 - 1) with (zlen pre) by lia. rewrite <- app_assoc. cbn [app]. rewrite store_mid, !bind_ret. apply slice_from_app_r.
  - rewrite bind_ret. apply slice_from_app_r.
Qed.

(** ** Formatting in base 10 *)
Lemma pad_length n u : length (pad n u) = n.
Proof. revert u. induction n as [|n IH]; intros u; [done|]. cbn [pad]. rewrite length_app, IH. cbn. lia. Qed.

Lemma pad_split n m u : 0 <= u -> pad (n + m) u = pad n (u / 10 ^ Z.of_nat m) ++ pad m u.
Proof.
  revert u. induction m as [|m IH]; intros u Hu.
  - rewrite Nat.add_0_r, Z.div_1_r. by rewrite app_nil_r.
  - rewrite Nat.add_succ_r. cbn [pad]. rewrite IH by (apply Z.div_pos; lia). rewrite app_assoc. do 3 f_equal.
    rewrite Nat2Z.inj_succ, Z.pow_succ_r, Z.div_div by lia. done.
Qed.

Lemma pad_mod n u : 0 <= u -> pad n (u mod 10 ^ Z.of_nat n) = pad n u.
Proof.
  revert u. induction n as [|n IH]; intros u Hu; [done|]. cbn [pad]. rewrite Nat2Z.inj_succ, Z.pow_succ_r by lia.
  pose proof (Z.pow_pos_nonneg 10 (Z.of_nat n) ltac:(lia) ltac:(lia)). f_equal.
  - rewrite <- (IH (u / 10)) by (apply Z.div_pos; lia). f_equal.
    rewrite Z.rem_mul_r by lia. replace (u mod 10 + 10 * ((u / 10) mod 10 ^ Z.of_nat n)) with ((u / 10) mod 10 ^ Z.of_nat n * 10 + u mod 10) by lia.
    rewrite Z.div_add_l by lia. rewrite (Z.div_small (u mod 10)); [lia|apply Z.mod_pos_bound; lia].
  - do 2 f_equal. apply Z.mod_mod_divide. exists (10 ^ Z.of_nat n). lia.
Qed.

Lemma pad2 x : 0 <= x < 100 -> pad 2 x = [48 + x / 10; 48 + x mod 10].
Proof. intros Hx. cbn. rewrite (Z.mod_small (x / 10)); [done|]. split; [apply Z.div_pos; lia|apply Z.div_lt_upper_bound; lia]. Qed.

(** A pair of digits written before [suf]. *)
Lemma put2_spec (pre suf : gostring) n x : length pre = S (S n) -> 0 <= x < 100 ->
  exists pre', length pre' = n /\ put2 (pre ++ suf) (zlen pre) (x * 2) = Ret (pre' ++ pad 2 x ++ suf).
Proof.
  intros Hpre Hx. destruct pre as [|b1 pre _] using rev_ind; [done|]. destruct pre as [|b0 pre _] using rev_ind; [done|].
  rewrite !length_app in Hpre. cbn in Hpre. exists pre. split; [lia|]. unfold put2. destruct (index_smalls x Hx) as [-> ->]. rewrite !bind_ret, pad2 by done.
  rewrite !zlen_app. change (zlen [b1]) with 1. change (zlen [b0]) with 1. rewrite <- !app_assoc. cbn [app].
  replace (zlen pre + 1 + 1 - 1) with (zlen (pre ++ [b0])) by (rewrite zlen_app; change (zlen [b0]) with 1; lia).
  rewrite (app_assoc pre [b0] (b1 :: suf) : pre ++ b0 :: b1 :: suf = _), store_mid, bind_ret, <- app_assoc. cbn [app].
  replace (zlen pre + 1 + 1 - 2) with (zlen pre) by lia. apply store_mid.
Qed.

(** Two pairs, as the code writes them from the right. *)
Lemma put4_spec {B} (pre suf : gostring) n x p (K : gostring -> go B) : length pre = (4 + n)%nat -> 0 <= x < 10000 -> p = zlen pre ->
  exists pre', length pre' = n /\
    (a ← put2 (pre ++ suf) p (x mod 100 * 2); a ← put2 a (p - 2) (x / 100 * 2); K a) = K (pre' ++ pad 4 x ++ suf).
Proof.
  intros Hpre Hx ->. assert (0 <= x / 100 < 100) by (split; [apply Z.div_pos; lia|apply Z.div_lt_upper_bound; lia]).
  destruct (put2_spec pre suf (2 + n) (x mod 100)) as (pre1 & H1 & ->); [done|apply Z.mod_pos_bound; lia|]. rewrite bind_ret.
  replace (zlen pre - 2) with (zlen pre1) by (unfold zlen; lia).
  destruct (put2_spec pre1 (pad 2 (x mod 100) ++ suf) n (x / 100)) as (pre2 & H2 & ->); [done|done|]. rewrite bind_ret.
  exists pre2. split; [done|]. change (pad 4 x) with (pad (2 + 2) x). rewrite (pad_split 2 2 x), <- app_assoc by lia. change (10 ^ Z.of_nat 2) with 100.
  change 100 with (10 ^ Z.of_nat 2) at 2. by rewrite (pad_mod 2 x) by lia.
Qed.

Lemma pad_8_4 u : 0 <= u -> pad 8 u = pad 4 (u mod 100000000 / 10000) ++ pad 4 (u mod 100000000 mod 10000).
Proof.
  intros Hu. rewrite <- (pad_mod 8 u Hu). change (10 ^ Z.of_nat 8) with 100000000. assert (0 <= u mod 100000000) by (apply Z.mod_pos_bound; lia).
  change (pad 8 (u mod 100000000)) with (pad (4 + 4) (u mod 100000000)). rewrite (pad_split 4 4) by done. f_equal. change 10000 with (10 ^ Z.of_nat 4). by rewrite pad_mod.
Qed.

Lemma formatBase10_loop_spec fuel n (pre suf : gostring) u :
  length pre = n -> (n <= fuel)%nat -> 0 <= u ->
  exists n' pre' k, (n' < 8)%nat /\ length pre' = n' /\ n = (n' + k)%nat /\
    formatBase10_loop fuel (pre ++ suf) (Z.of_nat n) u = Ret (pre' ++ pad k u ++ suf, Z.of_nat n', u / 10 ^ Z.of_nat k).
Proof.
  revert n pre suf u. induction fuel as [|fuel IH]; intros n pre suf u Hpre Hn Hu.
  - exists n, pre, 0%nat. cbn [formatBase10_loop pad app]. replace (8 <=? Z.of_nat n) with false by lia. rewrite Z.div_1_r. split_and!; done || lia.
  - cbn [formatBase10_loop]. destruct (Z.leb_spec 8 (Z.of_nat n)) as [H8|H8].
    2:{ exists n, pre, 0%nat. cbn [pad app]. rewrite Z.div_1_r. split_and!; done || lia. }
    assert (0 <= u mod 100000000 < 100000000) as Hw by (apply Z.mod_pos_bound; lia).
    rewrite (uint_wrap_id 32) by lia. cbv zeta. pose proof (pad_8_4 u Hu) as Hpad. set (w := u mod 100000000) in *.
    assert (0 <= w mod 10000 < 10000) by (apply Z.mod_pos_bound; lia). assert (0 <= w / 10000 < 10000) by (split; [apply Z.div_pos; lia|apply Z.div_lt_upper_bound; lia]).
    match goal with |- context [a ← put2 _ _ _; a ← put2 a _ _; @?K a] =>
      destruct (put4_spec pre suf (n - 4) (w mod 10000) (Z.of_nat n) K) as (pre1 & H1 & E); [lia|done|unfold zlen; lia|]; rewrite E; clear E; cbv beta end.
    replace (Z.of_nat n - 6) with (Z.of_nat n - 4 - 2) by lia.
    match goal with |- context [a ← put2 _ _ _; a ← put2 a _ _; @?K a] =>
      destruct (put4_spec pre1 (pad 4 (w mod 10000) ++ suf) (n - 8) (w / 10000) (Z.of_nat n - 4) K) as (pre2 & H2 & E); [lia|done|unfold zlen; lia|]; rewrite E; clear E; cbv beta end.
    rewrite (app_assoc (pad 4 _)), <- Hpad. replace (Z.of_nat n - 8) with (Z.of_nat (n - 8)) by lia.
    destruct (IH (n - 8)%nat pre2 (pad 8 u ++ suf) (u / 100000000)) as (n' & pre' & k & Hn' & Hpre' & Hk & ->); [done|lia|apply Z.div_pos; lia|].
    exists n', pre', (k + 8)%nat. split_and!; [done..|lia|]. rewrite (pad_split k 8 u), <- app_assoc by lia. change (10 ^ Z.of_nat 8) with 100000000.
    rewrite Nat2Z.inj_add, Z.add_comm, Z.pow_add_r, <- Z.div_div by lia. done.
Qed.

Lemma formatBase10_spec a u : 0 <= u < 10 ^ zlen a -> formatBase10 a u = Ret (pad (length a) u).
Proof.
  intros Hu. unfold formatBase10. destruct (formatBase10_loop_spec (length a) (length a) a [] u) as (n & pre & k & Hn & Hpre & Hk & Hrun); [done|lia|lia|].
  rewrite app_nil_r in Hrun. change (zlen a) with (Z.of_nat (length a)). rewrite Hrun, bind_ret, Hk, pad_split, app_nil_r by lia. clear Hrun.
  assert (0 <= u / 10 ^ Z.of_nat k < 10 ^ Z.of_nat n) as Hx.
  { split; [apply Z.div_pos; lia|]. apply Z.div_lt_upper_bound; [lia|]. rewrite <- Z.pow_add_r by lia. replace (Z.of_nat k + Z.of_nat n) with (zlen a) by (unfold zlen; lia). lia. }
  set (x := u / _) in *. set (suf := pad k u). clearbody x suf. clear Hk Hu.
  rewrite uint_wrap_id by (split; [lia|]; eapply Z.lt_trans; [apply Hx|]; eapply Z.le_lt_trans; [apply (Z.pow_le_mono_r 10 _ 7); lia|lia]).
  assert (0 <= x < 10000000) as Hx7 by (split; [lia|]; eapply Z.lt_le_trans; [apply Hx|]; apply (Z.pow_le_mono_r 10 _ 7); lia).
  (* the first conditional: four digits *)
  assert (exists n1 pre1 suf1 x1, (n1 < 4)%nat /\ length pre1 = n1 /\ 0 <= x1 < 10 ^ Z.of_nat n1 /\ pad n1 x1 ++ suf1 = pad n x ++ suf /\
    (if 4 <=? Z.of_nat n then
       a0 ← put2 (pre ++ suf) (Z.of_nat n) (x mod 10000 mod 100 * 2); a1 ← put2 a0 (Z.of_nat n - 2) (x mod 10000 / 100 * 2); Ret (a1, Z.of_nat n - 4, x / 10000)
     else Ret (pre ++ suf, Z.of_nat n, x)) = Ret (pre1 ++ suf1, Z.of_nat n1, x1)) as (n1 & pre1 & suf1 & x1 & Hn1 & Hpre1 & Hx1 & Hpad1 & ->).
  { destruct (Z.leb_spec 4 (Z.of_nat n)); [|exists n, pre, suf, x; split_and!; done || lia].
    destruct (put4_spec pre suf (n - 4) (x mod 10000) (Z.of_nat n) (fun a1 => Ret (a1, Z.of_nat n - 4, x / 10000))) as (pre' & Hl & ->);
      [lia|apply Z.mod_pos_bound; lia|unfold zlen; lia|].
    exists (n - 4)%nat, pre', (pad 4 (x mod 10000) ++ suf), (x / 10000). split_and!; [lia|done|apply Z.div_pos; lia| | |do 3 f_equal; lia].
    - apply Z.div_lt_upper_bound; [lia|]. change 10000 with (10 ^ 4). rewrite <- Z.pow_add_r by lia. replace (4 + _) with (Z.of_nat n) by lia. lia.
    - replace (pad n x) with (pad (n - 4 + 4) x) by (f_equal; lia). rewrite (pad_split (n - 4) 4 x), <- app_assoc by lia. change 10000 with (10 ^ Z.of_nat 4). by rewrite pad_mod by lia. }
  rewrite bind_ret. cbv iota beta.
  assert (exists n2 pre2 suf2 x2, (n2 < 2)%nat /\ length pre2 = n2 /\ 0 <= x2 < 10 ^ Z.of_nat n2 /\ pad n2 x2 ++ suf2 = pad n x ++ suf /\
    (if 2 <=? Z.of_nat n1 then a0 ← put2 (pre1 ++ suf1) (Z.of_nat n1) (x1 mod 100 * 2); Ret (a0, Z.of_nat n1 - 2, x1 / 100)
     else Ret (pre1 ++ suf1, Z.of_nat n1, x1)) = Ret (pre2 ++ suf2, Z.of_nat n2, x2)) as (n2 & pre2 & suf2 & x2 & Hn2 & Hpre2 & Hx2 & Hpad2 & ->).
  { rewrite <- Hpad1. destruct (Z.leb_spec 2 (Z.of_nat n1)); [|exists n1, pre1, suf1, x1; split_and!; done || lia].
    destruct (put2_spec pre1 suf1 (n1 - 2) (x1 mod 100)) as (pre' & Hl & E); [lia|apply Z.mod_pos_bound; lia|].
    replace (zlen pre1) with (Z.of_nat n1) in E by (unfold zlen; lia). rewrite E, bind_ret.
    exists (n1 - 2)%nat, pre', (pad 2 (x1 mod 100) ++ suf1), (x1 / 100). split_and!; [lia|done|apply Z.div_pos; lia| | |do 3 f_equal; lia].
    - apply Z.div_lt_upper_bound; [lia|]. change 100 with (10 ^ 2). rewrite <- Z.pow_add_r by lia. replace (2 + _) with (Z.of_nat n1) by lia. lia.
    - replace (pad n1 x1) with (pad (n1 - 2 + 2) x1) by (f_equal; lia). rewrite (pad_split (n1 - 2) 2 x1), <- app_assoc by lia. change 100 with (10 ^ Z.of_nat 2). by rewrite pad_mod by lia. }
  rewrite bind_ret. cbv iota beta. rewrite <- Hpad2. destruct n2 as [|[|n2]]; [| |lia].
  - by destruct pre2.
  - destruct pre2 as [|c [|? ?]]; [done| |done]. change (Z.of_nat 1) with 1 in *. cbn [Z.ltb]. rewrite Z.pow_1_r in Hx2.
    rewrite uint_wrap_id by lia. cbn [app pad]. rewrite Z.mod_small by lia. change (0 <? 1) with true. cbv iota. by rewrite (store_mid [] suf2 c).
Qed.

Lemma numDigits_spec u : 1 <= u < 2 ^ 64 ->
  exists n, (n < 20)%nat /\ numDigits u = Ret (Z.of_nat (S n)) /\ 10 ^ Z.of_nat n <= u < 10 ^ Z.of_nat (S n).
Proof.
  intros Hu. unfold numDigits, Len64. replace (u =? 0) with false by lia.
  assert (0 <= Z.log2 u < 64) as HL by (split; [apply Z.log2_nonneg|apply Z.log2_lt_pow2; lia]).
  destruct (Z.log2_spec u ltac:(lia)) as [Hlo Hhi]. set (L := Z.log2 u) in *. clearbody L.
  assert (0 <= log10Pow2 (L + 1) < 20 /\ index uint64pow10 (log10Pow2 (L + 1)) = Ret (10 ^ log10Pow2 (L + 1)) /\
          10 ^ log10Pow2 (L + 1) <= 10 * 2 ^ L /\ 2 ^ (L + 1) <= 10 ^ (log10Pow2 (L + 1) + 1)) as (Hr & -> & Ha & Hb).
  { revert HL. apply (forall_below 64 (fun L => 0 <= log10Pow2 (L + 1) < 20 /\ index uint64pow10 (log10Pow2 (L + 1)) = Ret (10 ^ log10Pow2 (L + 1)) /\
      10 ^ log10Pow2 (L + 1) <= 10 * 2 ^ L /\ 2 ^ (L + 1) <= 10 ^ (log10Pow2 (L + 1) + 1))). vm_compute. reflexivity. }
  rewrite bind_ret. set (d := log10Pow2 (L + 1)) in *. clearbody d. rewrite <- Z.add_1_r in Hhi. unfold bool2.
  destruct (Z.leb_spec (10 ^ d) u) as [Hge|Hlt].
  - exists (Z.to_nat d). rewrite Nat2Z.inj_succ, Z2Nat.id by lia. split_and!; [lia|by rewrite Z.add_1_r|done|rewrite <- Z.add_1_r; lia].
  - assert (d <> 0) by (intros ->; cbn in Hlt; lia).
    exists (Z.to_nat (d - 1)). rewrite Nat2Z.inj_succ, Z2Nat.id, <- Z.add_1_r, Z.sub_add, Z.add_0_r by lia. split_and!; [lia|done| |done].
    replace d with (d - 1 + 1) in Ha by lia. rewrite Z.pow_add_r, Z.pow_1_r in Ha by lia. lia.
Qed.

Lemma repr_pad fuel n u : 10 ^ Z.of_nat n <= u < 10 ^ Z.of_nat (S n) -> (n < fuel)%nat -> repr fuel 10 u = pad (S n) u.
Proof.
  revert fuel u. induction n as [|n IH]; intros [|fuel] u Hu Hf; [lia| |lia|].
  - cbn in Hu. cbn [repr pad]. replace (u <? 10) with true by lia. unfold digit. rewrite Z.mod_small by lia. by replace (u <? 10) with true by lia.
  - rewrite !(Nat2Z.inj_succ (S n)), !(Nat2Z.inj_succ n), !Z.pow_succ_r in Hu by lia. pose proof (Z.mod_pos_bound u 10 ltac:(lia)).
    cbn [repr]. change (pad (S (S n)) u) with (pad (S n) (u / 10) ++ [48 + u mod 10]). replace (u <? 10) with false by lia. f_equal.
    + apply IH; [|lia]. rewrite Nat2Z.inj_succ, Z.pow_succ_r by lia. split; [apply Z.div_le_lower_bound; lia|apply Z.div_lt_upper_bound; lia].
    + unfold digit. by replace (u mod 10 <? 10) with true by lia.
Qed.

(** What the buffered formatters write: [numDigits] bytes of a large enough part of the buffer. *)
Lemma formatBase10_numeral u (a : gostring) n :
  10 ^ Z.of_nat n <= u < 10 ^ Z.of_nat (S n) -> (n < 20)%nat -> length a = S n -> formatBase10 a u = Ret (numeral 10 u).
Proof.
  intros Hu Hn Ha. assert (0 < 10 ^ Z.of_nat n) by lia. rewrite formatBase10_spec, Ha; [|unfold zlen; rewrite Ha; lia].
  f_equal. symmetry. apply repr_pad; [done|lia].
Qed.

Lemma numeral_10_buffer u : 100 <= u < 2 ^ 64 ->
  (nd ← numDigits u; b ← slice_to (replicate 24 0) nd; formatBase10 b u) = Ret (numeral 10 u).
Proof.
  intros Hu. destruct (numDigits_spec u) as (n & Hn & -> & Hp); [lia|]. rewrite bind_ret, slice_to_in_range, bind_ret by (rewrite zlen_replicate; lia).
  rewrite Nat2Z.id. apply formatBase10_numeral with n; [done|done|]. by rewrite length_take, length_replicate, Nat.min_l by lia.
Qed.

Lemma AppendUint_spec dst u b : 2 <= b <= 36 -> 0 <= u < 2 ^ 64 -> AppendUint dst u b = Ret (dst ++ numeral b u).
Proof.
  intros Hb Hu. unfold AppendUint. destruct (Z.eqb_spec b 10) as [->|Hne]; [|by rewrite formatBits_spec by done].
  unfold nSmalls. destruct (Z.ltb_spec u 100); [by rewrite small_spec by lia|].
  pose proof (numeral_10_buffer u ltac:(lia)) as Hn. destruct (numDigits u) as [nd| |]; [|done..]. rewrite bind_ret in Hn |- *.
  destruct (slice_to _ nd) as [bs| |]; [|done..]. rewrite bind_ret in Hn |- *. by rewrite Hn.
Qed.
Lemma FormatUint_spec u b : 2 <= b <= 36 -> 0 <= u < 2 ^ 64 -> FormatUint u b = Ret (numeral b u).
Proof.
  intros Hb Hu. pose proof (AppendUint_spec [] u b Hb Hu) as H. unfold AppendUint in H. unfold FormatUint.
  destruct (b =? 10); [destruct (u <? nSmalls)|]; cbn [app] in H.
  - destruct (small u); by rewrite ?bind_ret in H.
  - exact H.
  - destruct (formatBits u b false); by rewrite ?bind_ret in H.
Qed.

Lemma abs_wrap i : is_int i -> (if i <? 0 then uint_wrap 64 (- uint_wrap 64 i) else uint_wrap 64 i) = Z.abs i /\ 0 <= Z.abs i < 2 ^ 64.
Proof.
  unfold is_int, MinInt, MaxInt. intros Hi. split; [|lia]. unfold uint_wrap. destruct (Z.ltb_spec i 0).
  - rewrite <- (Z.mod_unique i (2 ^ 64) (-1) (i + 2 ^ 64)) by lia. rewrite <- (Z.mod_unique (- (i + 2 ^ 64)) (2 ^ 64) (-1) (- i)) by lia. lia.
  - rewrite Z.mod_small by lia. lia.
Qed.

Definition text_of (b i : Z) : gostring := sign (i <? 0) ++ numeral b (Z.abs i).

Lemma AppendInt_spec dst i b : 2 <= b <= 36 -> is_int i -> AppendInt dst i b = Ret (dst ++ text_of b i).
Proof.
  intros Hb Hi. destruct (abs_wrap i Hi) as [Ha Hu]. unfold AppendInt, text_of. destruct (i <? 0); cbn [sign]; rewrite Ha, AppendUint_spec by done;
    by rewrite <- ?app_assoc.
Qed.

Lemma FormatInt_spec i b : 2 <= b <= 36 -> is_int i -> FormatInt i b = Ret (text_of b i).
Proof.
  intros Hb Hi. destruct (abs_wrap i Hi) as [Ha Hu]. unfold FormatInt, text_of. destruct (Z.eqb_spec b 10) as [->|Hne].
  2:{ rewrite formatBits_spec by (done || apply Z.mod_pos_bound; lia). by rewrite Ha. }
  destruct ((0 <=? i) && (i <? nSmalls)) eqn:Hs.
  { apply andb_true_iff in Hs as [H1 H2]. unfold nSmalls in H2. rewrite small_spec, Z.abs_eq by lia. by replace (i <? 0) with false by lia. }
  cbv zeta. rewrite Ha. assert (1 <= Z.abs i) as H1 by (unfold nSmalls in Hs; apply andb_false_iff in Hs; lia).
  destruct (numDigits_spec (Z.abs i)) as (n & Hn & -> & Hp); [lia|]. rewrite bind_ret, slice_in_range, bind_ret by (rewrite ?zlen_replicate; lia).
  rewrite (formatBase10_numeral _ _ n) by (done || (rewrite length_take, length_drop, length_replicate; lia)). rewrite bind_ret.
  assert (length (numeral 10 (Z.abs i)) = S n) as Hlen by (unfold numeral; rewrite (repr_pad _ n) by (done || lia); apply pad_length).
  set (s := numeral 10 (Z.abs i)) in *. clearbody s. change (take 1 (replicate 24 0)) with [0]. set (rest := drop _ _). destruct (i <? 0); cbn [sign].
  - change (store ([0] ++ s ++ rest) 0 45) with (store ([] ++ 0 :: s ++ rest) (zlen (@nil Z)) 45). rewrite store_mid, bind_ret. cbn [app]. change (45 :: s ++ rest) with ((45 :: s) ++ rest).
    replace (1 + Z.of_nat (S n)) with (zlen (45 :: s)) by (rewrite zlen_cons; unfold zlen; lia).
    rewrite slice_to_in_range by (rewrite zlen_app; zlia). f_equal. unfold zlen. by rewrite Nat2Z.id, take_app_length.
  - change 1 with (zlen [0]) at 1 2. replace (zlen [0] + Z.of_nat (S n)) with (zlen [0] + zlen s) by (unfold zlen; lia). apply slice_app_mid.
Qed.

(** ** The decimal notation used elsewhere *)
Lemma pretty_go_repr fuel u s : 0 < u < 10 ^ Z.of_nat fuel -> str (pretty_N_go (Z.to_N u) s) = repr fuel 10 u ++ str s.
Proof.
  revert u s. induction fuel as [|fuel IH]; intros u s Hu; [cbn in Hu; lia|].
  rewrite Nat2Z.inj_succ, Z.pow_succ_r in Hu by lia. pose proof (Z.mod_pos_bound u 10 ltac:(lia)) as Hm.
  rewrite pretty_N_go_step by lia. change 10%N with (Z.to_N 10). rewrite <- Z2N.inj_div, <- Z2N.inj_mod by lia.
  assert (str (String.String (pretty_N_char (Z.to_N (u mod 10))) s) = [digit (u mod 10)] ++ str s) as Hd.
  { cbn [app]. unfold str. cbn. f_equal. revert Hm.
    apply (forall_below 10 (fun d => Z.of_N (Ascii.N_of_ascii (pretty_N_char (Z.to_N d))) = digit d)). vm_compute. reflexivity. }
  cbn [repr]. destruct (Z.ltb_spec u 10).
  - rewrite Z.div_small by lia. rewrite pretty_N_go_0. exact Hd.
  - rewrite IH, Hd, app_assoc; [done|]. split; [apply Z.div_str_pos; lia|apply Z.div_lt_upper_bound; lia].
Qed.

Lemma text_of_pretty i : is_int i -> text_of 10 i = str (pretty i).
Proof.
  unfold is_int, MinInt, MaxInt, text_of. intros Hi.
  assert (forall p, Zpos p < 2 ^ 64 -> numeral 10 (Zpos p) = str (pretty_N_go (N.pos p) "")) as Hp.
  { intros p Hp. pose proof (pretty_go_repr 64 (Zpos p) "") as H. rewrite app_nil_r in H. symmetry. apply H. split; [lia|].
    eapply Z.lt_trans; [exact Hp|]. reflexivity. }
  destruct i as [|p|p]; [reflexivity|change (Z.abs (Zpos p)) with (Zpos p)|]; cbn [Z.ltb Z.compare sign app].
  - rewrite (Hp p) by lia. done.
  - change (Z.abs (Zneg p)) with (Zpos p). rewrite (Hp p) by lia. done.
Qed.

(** ** Parsing *)
Definition digit_of (c : Z) : option Z :=
  if (48 <=? c) && (c <=? 57) then Some (c - 48)
  else if (97 <=? lower c) && (lower c <=? 122) then Some (uint_wrap 8 (lower c - 97 + 10)) else None.
(** The value of a string of digits. *)
Fixpoint value (b : Z) (s : gostring) (n : Z) : option Z :=
  match s with
  | [] => Some n
  | c :: s => match digit_of c with Some d => if d <? b then value b s (n * b + d) else None | None => None end
  end.
(** The scan stops at the first byte that is not a digit or makes the value too large. *)
Fixpoint scan (b max : Z) (s : gostring) (n : Z) : Z + (Z * Error) :=
  match s with
  | [] => inl n
  | c :: s =>
      match digit_of c with
      | Some d => if d <? b then if n * b + d <=? max then scan b max s (n * b + d) else inr (max, ErrRange) else inr (0, ErrSyntax)
      | None => inr (0, ErrSyntax)
      end
  end.

Lemma digit_of_nonneg c d : digit_of c = Some d -> 0 <= d.
Proof.
  unfold digit_of. destruct ((48 <=? c) && (c <=? 57)) eqn:H; [intros [= <-]; apply andb_true_iff in H; lia|]. destruct ((97 <=? lower c) && _); [|done].
  intros [= <-]. apply Z.mod_pos_bound. lia.
Qed.
Lemma digit_of_digit d : 0 <= d < 36 -> digit_of (digit d) = Some d.
Proof. apply (forall_below 36 (fun d => digit_of (digit d) = Some d)). vm_compute. reflexivity. Qed.

Lemma value_app b s t n : value b (s ++ t) n = match value b s n with Some v => value b t v | None => None end.
Proof. revert n. induction s as [|c s IH]; intros n; [done|]. cbn. destruct (digit_of c) as [d|]; [|done]. by destruct (d <? b). Qed.

Lemma value_repr fuel b u : 2 <= b <= 36 -> 0 <= u < b ^ Z.of_nat fuel -> value b (repr fuel b u) 0 = Some u.
Proof.
  intros Hb. revert u. induction fuel as [|fuel IH]; intros u Hu; [cbn in *; f_equal; lia|].
  rewrite Nat2Z.inj_succ, Z.pow_succ_r in Hu by lia. pose proof (Z.mod_pos_bound u b ltac:(lia)). cbn [repr]. rewrite value_app.
  assert (value b [digit (u mod b)] (u / b) = Some u) as Hlast.
  { cbn. rewrite digit_of_digit by lia. replace (u mod b <? b) with true by lia. f_equal. pose proof (Z.div_mod u b ltac:(lia)). lia. }
  destruct (Z.ltb_spec u b).
  - cbn [value]. by rewrite Z.div_small in Hlast by lia.
  - rewrite IH; [done|]. split; [apply Z.div_pos; lia|apply Z.div_lt_upper_bound; lia].
Qed.

Lemma value_ge b s n v : 1 <= b -> 0 <= n -> value b s n = Some v -> n <= v.
Proof.
  intros Hb. revert n. induction s as [|c s IH]; intros n Hn; [intros [= ->]; lia|]. cbn. destruct (digit_of c) as [d|] eqn:Hd; [|done].
  apply digit_of_nonneg in Hd. destruct (d <? b); [|done]. intros H%IH; nia.
Qed.

Lemma scan_inl b max s n v : 1 <= b -> 0 <= n <= max -> scan b max s n = inl v <-> value b s n = Some v /\ v <= max.
Proof.
  intros Hb. revert n. induction s as [|c s IH]; intros n Hn; cbn.
  - split; [intros [= ->]; split; [done|lia]|]. by intros [[= ->] _].
  - destruct (digit_of c) as [d|] eqn:Hd; [|split; [done|by intros [? _]]]. apply digit_of_nonneg in Hd.
    destruct (d <? b); [|split; [done|by intros [? _]]]. destruct (Z.leb_spec (n * b + d) max); [apply IH; nia|].
    split; [done|]. intros [H1%value_ge ?]; nia.
Qed.

Lemma parse_loop_scan b max s und n :
  2 <= b <= 36 -> 0 <= n <= max -> max <= maxUint64 ->
  parse_loop false b (maxUint64 / b + 1) max s und n = match scan b max s n with inl v => inl (v, und) | inr e => inr e end.
Proof.
  intros Hb Hn Hmax. revert n Hn. induction s as [|c s IH]; intros n Hn; [done|]. cbn [parse_loop scan]. rewrite andb_false_r.
  cbv iota zeta. fold (digit_of c). destruct (digit_of c) as [d|] eqn:Hd; [|done]. apply digit_of_nonneg in Hd. rewrite (Z.ltb_antisym b d). destruct (Z.leb_spec b d); [done|]. cbn [negb].
  pose proof (Z.div_mod maxUint64 b ltac:(lia)). pose proof (Z.mod_pos_bound maxUint64 b ltac:(lia)). unfold maxUint64 in *.
  set (q := (2 ^ 64 - 1) / b) in *.
  destruct (Z.leb_spec (q + 1) n).
  - replace (n * b + d <=? max) with false by nia. done.
  - rewrite (uint_wrap_id 64 (n * b)) by nia. destruct (Z.leb_spec (n * b + d) max) as [Hle|Hgt].
    + rewrite uint_wrap_id by nia. replace (n * b + d <? n * b) with false by lia. replace (max <? n * b + d) with false by lia. apply IH. nia.
    + destruct (Z.lt_ge_cases (n * b + d) (2 ^ 64)).
      * rewrite uint_wrap_id by nia. replace (max <? n * b + d) with true by lia. by rewrite orb_true_r.
      * replace (uint_wrap 64 (n * b + d)) with (n * b + d - 2 ^ 64); [replace (n * b + d - 2 ^ 64 <? n * b) with true by lia; done|].
        apply (Z.mod_unique _ _ 1); nia.
Qed.

Definition bits (bitSize : Z) : Z := if bitSize =? 0 then 64 else bitSize.

Lemma ParseUint_spec s b bs : 2 <= b <= 36 -> 0 <= bs <= 64 ->
  ParseUint s b bs = match s with
                     | [] => (0, Some ErrSyntax)
                     | _ => match scan b (2 ^ bits bs - 1) s 0 with inl v => (v, None) | inr (v, e) => (v, Some e) end
                     end.
Proof.
  intros Hb Hbs. unfold ParseUint. destruct s as [|c s]; [done|]. rewrite bool_decide_false by done. replace (b =? 0) with false by lia.
  unfold literal_base. replace ((2 <=? b) && (b <=? 36)) with true by lia. replace (negb (bs =? 0) && ((bs <? 0) || (64 <? bs))) with false by lia.
  fold (bits bs). assert (0 <= bits bs <= 64) as HB by (unfold bits; destruct (Z.eqb_spec bs 0); lia). unfold IntSize. fold (bits bs). set (B := bits bs) in *. clearbody B.
  assert (1 <= 2 ^ B <= 2 ^ 64) as Hpow by (split; [lia|apply Z.pow_le_mono_r; lia]).
  replace (uint_wrap 64 (uint_wrap 64 (Z.shiftl 1 B) - 1)) with (2 ^ B - 1).
  2:{ rewrite Z.shiftl_mul_pow2, Z.mul_1_l by lia. destruct (Z.eq_dec B 64) as [->|]; [reflexivity|].
      assert (2 ^ B < 2 ^ 64) by (apply Z.pow_lt_mono_r; lia). rewrite (uint_wrap_id 64 (2 ^ B)), uint_wrap_id; lia. }
  rewrite parse_loop_scan by (unfold maxUint64; lia). destruct (scan b _ _ _) as [v|[v e]]; done.
Qed.

Lemma scan_inr b max s n w e : scan b max s n = inr (w, e) -> (w = 0 /\ e = ErrSyntax) \/ (w = max /\ e = ErrRange).
Proof.
  revert n. induction s as [|c s IH]; intros n; [done|]. cbn. destruct (digit_of c) as [d|]; [|intros [= <- <-]; by left].
  destruct (d <? b); [|intros [= <- <-]; by left]. destruct (n * b + d <=? max); [apply IH|intros [= <- <-]; by right].
Qed.

Definition parse_signed (b bs : Z) (ds : gostring) (neg : bool) : Z * option Error :=
  let '(un, err) := ParseUint ds b bs in
  if bool_decide (err <> None) && bool_decide (err <> Some ErrRange) then (0, err)
  else
    let cutoff := uint_wrap 64 (Z.shiftl 1 (bits bs - 1)) in
    if negb neg && (cutoff <=? un) then (int64 (cutoff - 1), Some ErrRange)
    else if neg && (cutoff <? un) then (int64 (- int64 cutoff), Some ErrRange)
    else (if neg then int64 (- int64 un) else int64 un, None).
Lemma ParseInt_signed s b bs :
  ParseInt s b bs = match s with
                    | [] => (0, Some ErrSyntax)
                    | c :: t => if c =? 43 then parse_signed b bs t false else if c =? 45 then parse_signed b bs t true else parse_signed b bs s false
                    end.
Proof. destruct s as [|c t]; [done|]. unfold ParseInt, parse_signed. by destruct (c =? 43), (c =? 45). Qed.

Lemma parse_signed_ok b bs ds neg v : 2 <= b <= 36 -> bs = 0 \/ 2 <= bs <= 64 ->
  parse_signed b bs ds neg = (v, None) <->
  ds <> [] /\ exists u, value b ds 0 = Some u /\ v = (if neg then - u else u) /\ - 2 ^ (bits bs - 1) <= v < 2 ^ (bits bs - 1).
Proof.
  intros Hb Hbs. unfold parse_signed. rewrite ParseUint_spec by lia. destruct ds as [|c ds]; [split; [done|by intros [? _]]|].
  assert (2 <= bits bs <= 64) as HB by (unfold bits; destruct (Z.eqb_spec bs 0); lia). set (B := bits bs) in *. clearbody B.
  set (C := 2 ^ (B - 1)). assert (2 ^ B = 2 * C) as HC by (subst C; rewrite <- Z.pow_succ_r by lia; f_equal; lia).
  assert (2 <= C <= 2 ^ 63) as HC2 by (split; [apply (Z.pow_le_mono_r 2 1)|apply Z.pow_le_mono_r]; lia).
  replace (uint_wrap 64 (Z.shiftl 1 (B - 1))) with C by (rewrite Z.shiftl_mul_pow2, Z.mul_1_l, uint_wrap_id by (try fold C; lia); done).
  rewrite HC. clearbody C. clear HC HB B. pose proof (scan_inl b (2 * C - 1) (c :: ds) 0) as Hinl.
  destruct (scan b (2 * C - 1) (c :: ds) 0) as [u|[w e]] eqn:Hscan.
  - destruct (Hinl u ltac:(lia) ltac:(lia)) as [[Hv Hu] _]; [done|]. assert (0 <= u) as Hu0 by (eapply value_ge; [| |exact Hv]; lia). clear Hinl Hscan.
    rewrite bool_decide_false by (intros ?; done). cbn [andb]. rewrite Hv. destruct neg; cbn [negb andb].
    + destruct (Z.ltb_spec C u); [split; [done|intros (_ & u' & [= <-] & -> & ?); lia]|].
      assert (int64 (- int64 u) = - u) as ->.
      { destruct (Z.eq_dec u (2 ^ 63)) as [->|]; [reflexivity|]. rewrite (int64_id u) by int_range. rewrite int64_id by int_range. done. }
      split; [intros [= <-]; split; [done|]; exists u; split_and!; done || lia|by intros (_ & u' & [= <-] & -> & _)].
    + destruct (Z.leb_spec C u); [split; [done|intros (_ & u' & [= <-] & -> & ?); lia]|]. rewrite int64_id by int_range.
      split; [intros [= <-]; split; [done|]; exists u; split_and!; done || lia|by intros (_ & u' & [= <-] & -> & _)].
  - assert (~ (c :: ds <> [] /\ exists u, value b (c :: ds) 0 = Some u /\ v = (if neg then - u else u) /\ - C <= v < C)) as Hno.
    { intros (_ & u & Hv & -> & Hr). assert (0 <= u) by (eapply value_ge; [| |exact Hv]; lia).
      destruct (Hinl u ltac:(lia) ltac:(lia)) as [_ Hx]. discriminate Hx. split; [done|]. destruct neg; lia. }
    split; [|by intros ?]. intros Hx. exfalso. destruct (scan_inr _ _ _ _ _ _ Hscan) as [[-> ->] | [-> ->]]; [done|].
    rewrite (bool_decide_false (Some ErrRange <> Some ErrRange)), andb_false_r in Hx by (intros ?; done).
    destruct neg; cbn [negb andb] in Hx; [replace (C <? 2 * C - 1) with true in Hx by lia|replace (C <=? 2 * C - 1) with true in Hx by lia]; done.
Qed.

Lemma value_first_sign b c t n u : value b (c :: t) n = Some u -> c <> 43 /\ c <> 45.
Proof. cbn. intros H. split; intros ->; done. Qed.

Lemma ParseInt_ok s b bs v : 2 <= b <= 36 -> bs = 0 \/ 2 <= bs <= 64 ->
  ParseInt s b bs = (v, None) <->
  exists sg ds u, s = sg ++ ds /\ (sg = [] \/ sg = [43] \/ sg = [45]) /\ ds <> [] /\ value b ds 0 = Some u /\
    v = (if bool_decide (sg = [45]) then - u else u) /\ - 2 ^ (bits bs - 1) <= v < 2 ^ (bits bs - 1).
Proof.
  intros Hb Hbs. rewrite ParseInt_signed. split.
  - destruct s as [|c t]; [done|]. destruct (Z.eqb_spec c 43) as [->|H43]; [|destruct (Z.eqb_spec c 45) as [->|H45]];
      intros (Hne & u & Hv & Hr)%parse_signed_ok; try done.
    + exists [43], t, u. split_and!; try done; [by right; left|apply Hr|apply Hr..].
    + exists [45], t, u. split_and!; try done; [by right; right|apply Hr|apply Hr..].
    + exists [], (c :: t), u. split_and!; try done; [by left|apply Hr|apply Hr..].
  - intros (sg & ds & u & -> & Hsg & Hne & Hv & Hr). destruct Hsg as [-> | [-> | ->]]; cbn [app].
    + destruct ds as [|c t]; [done|]. destruct (value_first_sign _ _ _ _ _ Hv) as [H1 H2].
      replace (c =? 43) with false by lia. replace (c =? 45) with false by lia. apply parse_signed_ok; [done..|]. split; [done|]. by exists u.
    + cbn [Z.eqb Pos.eqb]. apply parse_signed_ok; [done..|]. split; [done|]. by exists u.
    + cbn [Z.eqb Pos.eqb]. apply parse_signed_ok; [done..|]. split; [done|]. by exists u.
Qed.

Lemma numeral_not_nil b u : numeral b u <> [].
Proof. unfold numeral. change 64%nat with (S 63). cbn [repr]. by intros [_ ?]%app_nil. Qed.

(** C22: formatting and parsing integers are inverse.  In every base from 2 to 36, the text of
    a 64-bit integer is its sign and its digits without leading zeros (in base 10, the decimal
    notation), whichever of the buffered, the shifting and the dividing formatter writes it,
    and appending writes the same text; parsing that text at any bit size that holds the
    integer, except one bit, gives it back.  In any other base formatting panics. *)
Theorem format_parse_roundtrip (i b : Z) (Hi : is_int i) :
  (2 <= b <= 36 ->
     FormatInt i b = Ret (text_of b i) /\ (forall dst, AppendInt dst i b = Ret (dst ++ text_of b i)) /\
     (b = 10 -> text_of b i = str (pretty i)) /\
     (forall bs, bs = 0 \/ 2 <= bs <= 64 -> - 2 ^ (bits bs - 1) <= i < 2 ^ (bits bs - 1) -> ParseInt (text_of b i) b bs = (i, None))) /\
  (~ 2 <= b <= 36 -> FormatInt i b = Panic ExplicitPanic).
Proof.
  split.
  - intros Hb. split_and!; [by apply FormatInt_spec|intros; by apply AppendInt_spec|intros ->; by apply text_of_pretty|].
    intros bs Hbs Hr. apply ParseInt_ok; [done..|]. unfold text_of. exists (sign (i <? 0)), (numeral b (Z.abs i)), (Z.abs i).
    split_and!; [done|destruct (i <? 0); tauto|apply numeral_not_nil| | |apply Hr..].
    + apply value_repr; [done|]. unfold is_int, MinInt, MaxInt in Hi. split; [lia|]. apply Z.lt_le_trans with (2 ^ 64); [lia|]. apply (Z.pow_le_mono_l 2 b 64). lia.
    + destruct (Z.ltb_spec i 0); [rewrite bool_decide_true by done|rewrite bool_decide_false by done]; lia.
  - intros Hb. unfold FormatInt, formatBits. change (zlen digits) with 36. replace (b =? 10) with false by lia.
    by replace ((b <? 2) || false || (36 <? b)) with true by lia.
Qed.

Lemma format_parse_roundtrip_witness : is_int (-1000) /\ ParseInt (text_of 16 (-1000)) 16 16 = (-1000, None).
Proof.
  assert (is_int (-1000)) as Hi by (unfold is_int, MinInt, MaxInt; lia). split; [exact Hi|].
  destruct (format_parse_roundtrip (-1000) 16 Hi) as [H _]. destruct H as (_ & _ & _ & H); [lia|]. apply H; [right; lia|cbn; lia].
Defined.

(** At one bit the check of the range misses: everything below the range parses as -1. *)
Lemma parse_int_one_bit : ParseInt (str "-5") 10 1 = (-1, None) /\ ParseInt (str "-5") 10 2 = (-2, Some ErrRange).
Proof. by vm_compute. Qed.

Lemma atoi_loop_scan s n (k : nat) :
  is_gostring s -> 0 <= n < 10 ^ Z.of_nat k -> (k + length s <= 18)%nat ->
  match atoi_loop s n with
  | Some v => scan 10 (2 ^ 64 - 1) s n = inl v /\ 0 <= v < 10 ^ 18
  | None => scan 10 (2 ^ 64 - 1) s n = inr (0, ErrSyntax)
  end.
Proof.
  intros Hs. revert n k. induction Hs as [|c s Hc _ IH]; intros n k Hn Hk; cbn [atoi_loop scan].
  - split; [done|]. split; [lia|]. eapply Z.lt_le_trans; [apply Hn|]. apply Z.pow_le_mono_r; cbn in Hk; lia.
  - unfold is_byte in Hc. cbn [length] in Hk. assert (10 ^ Z.of_nat k <= 10 ^ 17) by (apply Z.pow_le_mono_r; lia).
    destruct ((48 <=? c) && (c <=? 57)) eqn:Hdig.
    + pose proof Hdig as [H1 H2]%andb_true_iff. rewrite uint_wrap_id by lia. replace (9 <? c - 48) with false by lia.
      unfold digit_of. rewrite Hdig. replace (c - 48 <? 10) with true by lia. rewrite (int64_id (n * 10)), int64_id by int_range.
      replace (n * 10 + (c - 48) <=? 2 ^ 64 - 1) with true by lia. apply (IH _ (S k)); [|lia]. rewrite Nat2Z.inj_succ, Z.pow_succ_r by lia. lia.
    + assert ((9 <? uint_wrap 8 (c - 48)) = true /\ default 10 (digit_of c) >= 10) as [-> Hno].
      { revert Hdig. revert c Hc. apply (forall_below 256 (fun c => (48 <=? c) && (c <=? 57) = false ->
          (9 <? uint_wrap 8 (c - 48)) = true /\ default 10 (digit_of c) >= 10)). vm_compute. reflexivity. }
      destruct (digit_of c) as [d|]; [|done]. cbn in Hno. by replace (d <? 10) with false by lia.
Qed.

Lemma atoi_loop_parse s neg :
  is_gostring s -> (length s <= 18)%nat -> s <> [] ->
  parse_signed 10 0 s neg = match atoi_loop s 0 with None => (0, Some ErrSyntax) | Some n => (if neg then int64 (- n) else n, None) end.
Proof.
  intros Hs Hl Hne. unfold parse_signed. rewrite ParseUint_spec by lia. destruct s as [|c s]; [done|].
  pose proof (atoi_loop_scan (c :: s) 0 0 Hs ltac:(cbn; lia) ltac:(lia)) as H. change (2 ^ bits 0 - 1) with (2 ^ 64 - 1).
  destruct (atoi_loop (c :: s) 0) as [n|]; [destruct H as [-> Hn]|rewrite H; done].
  rewrite bool_decide_false by (intros ?; done). cbn [andb]. change (uint_wrap 64 (Z.shiftl 1 (bits 0 - 1))) with (2 ^ 63).
  replace (2 ^ 63 <=? n) with false by lia. replace (2 ^ 63 <? n) with false by lia. rewrite !andb_false_r. rewrite (int64_id n) by int_range. done.
Qed.

(** [Atoi] is [ParseInt(s, 10, 0)] on every string, although it reads short ones on a path
    of its own without overflow checks; and it accepts exactly an optional sign followed by
    one or more decimal digits whose value fits an [int], which it returns. *)
Theorem atoi_is_parse_int (s : gostring) (Hs : is_gostring s) :
  Atoi s = ParseInt s 10 0 /\
  forall v, Atoi s = (v, None) <->
    exists sg ds u, s = sg ++ ds /\ (sg = [] \/ sg = [43] \/ sg = [45]) /\ ds <> [] /\ value 10 ds 0 = Some u /\
      v = (if bool_decide (sg = [45]) then - u else u) /\ is_int v.
Proof.
  assert (Atoi s = ParseInt s 10 0) as Heq.
  { unfold Atoi. destruct ((0 <? zlen s) && (zlen s <? 19)) eqn:Hl; [|done]. apply andb_true_iff in Hl as [H1%Z.ltb_lt H2%Z.ltb_lt]. unfold zlen in *.
    rewrite ParseInt_signed. destruct s as [|c t]; [done|]. cbn [length] in *. pose proof (Forall_inv_tail Hs) as Ht.
    destruct (Z.eqb_spec c 43) as [->|H43]; [|destruct (Z.eqb_spec c 45) as [->|H45]]; cbn [orb Z.eqb Pos.eqb].
    - destruct t as [|d t]; [done|]. assert (length (d :: t) <= 18)%nat by (cbn [length] in *; lia). rewrite bool_decide_false by done. by rewrite atoi_loop_parse.
    - destruct t as [|d t]; [done|]. assert (length (d :: t) <= 18)%nat by (cbn [length] in *; lia). rewrite bool_decide_false by done. by rewrite atoi_loop_parse.
    - assert (length (c :: t) <= 18)%nat by (cbn [length] in *; lia). by rewrite atoi_loop_parse. }
  split; [done|]. intros v. rewrite Heq, ParseInt_ok by (lia || by left). change (bits 0 - 1) with 63.
  split; intros (sg & ds & u & H1 & H2 & H3 & H4 & H5 & H6); exists sg, ds, u; split_and!; try done; unfold is_int, MinInt, MaxInt in *; lia.
Qed.

Lemma atoi_is_parse_int_witness : is_gostring (str "-120") /\ ParseInt (str "-120") 10 0 = (-120, None).
Proof.
  assert (is_gostring (str "-120")) as Hs by (repeat first [apply List.Forall_cons; [unfold is_byte; cbn; lia|] | apply List.Forall_nil]).
  split; [exact Hs|]. destruct (atoi_is_parse_int (str "-120") Hs) as [H _]. rewrite <- H. vm_compute. reflexivity.
Defined.
