(* ===== verification/PdqSort.v ===== *)
(** * Sorting ([go/src/slices/sort.go], [zsortanyfunc.go])

    Pattern-defeating quicksort on a slice of which every part shares the backing
    array: an operation on [data[a:b]] takes the whole list and two indices.  The
    comparison is any function, as the code cannot check that it is an order;
    indices do not overflow as long as twice the length is an [int]. *)
From stdpp Require Import sorting.
From S2P Require Import Prelude HashSet Strconv.
#[local] Open Scope Z_scope.

Section sort.
Context {E : Type} (cmp : E -> E -> Z).

(** [cmp(data[i], data[j]) < 0] *)
Definition less (data : list E) (i j : Z) : go bool :=
  x ← index data i; y ← index data j; Ret (cmp x y <? 0).
(** [data[i], data[j] = data[j], data[i]] *)
Definition swap (data : list E) (i j : Z) : go (list E) :=
  x ← index data j; y ← index data i; data ← store data i x; store data j y.

(** ** Insertion sort *)
Fixpoint insert_loop (fuel : nat) (data : list E) (a j : Z) : go (list E) :=
  if a <? j then
    match fuel with
    | O => OutOfFuel
    | S fuel =>
        l ← less data j (j - 1);
        if (l : bool) then data ← swap data j (j - 1); insert_loop fuel data a (j - 1) else Ret data
    end
  else Ret data.
Fixpoint insertion_loop (fuel : nat) (data : list E) (a b i : Z) : go (list E) :=
  if i <? b then
    match fuel with
    | O => OutOfFuel
    | S fuel => data ← insert_loop (length data) data a i; insertion_loop fuel data a b (i + 1)
    end
  else Ret data.
Definition insertionSortCmpFunc (data : list E) (a b : Z) : go (list E) := insertion_loop (length data) data a b (a + 1).

(** ** Heap sort *)
Fixpoint siftDown_loop (fuel : nat) (data : list E) (root hi first : Z) : go (list E) :=
  let child := int64 (2 * root + 1) in
  if hi <=? child then Ret data
  else
    match fuel with
    | O => OutOfFuel
    | S fuel =>
        right ← (if child + 1 <? hi then less data (first + child) (first + child + 1) else Ret false);
        let child := if (right : bool) then child + 1 else child in
        l ← less data (first + root) (first + child);
        if negb l then Ret data
        else data ← swap data (first + root) (first + child); siftDown_loop fuel data child hi first
    end.
Definition siftDownCmpFunc (data : list E) (lo hi first : Z) : go (list E) := siftDown_loop (length data) data lo hi first.
Fixpoint heapify_loop (fuel : nat) (data : list E) (i hi first : Z) : go (list E) :=
  if 0 <=? i then
    match fuel with
    | O => OutOfFuel
    | S fuel => data ← siftDownCmpFunc data i hi first; heapify_loop fuel data (i - 1) hi first
    end
  else Ret data.
Fixpoint pop_loop (fuel : nat) (data : list E) (i lo first : Z) : go (list E) :=
  if 0 <=? i then
    match fuel with
    | O => OutOfFuel
    | S fuel => data ← swap data first (first + i); data ← siftDownCmpFunc data lo i first; pop_loop fuel data (i - 1) lo first
    end
  else Ret data.
Definition heapSortCmpFunc (data : list E) (a b : Z) : go (list E) :=
  let first := a in let lo := 0 in let hi := b - a in
  data ← heapify_loop (S (length data)) data (Z.quot (hi - 1) 2) hi first;
  pop_loop (S (length data)) data (hi - 1) lo first.

(** ** Partitioning *)

(** [for i <= j && p(i) { i++ }] and [for i <= j && p(j) { j-- }] *)
Fixpoint scan_up (fuel : nat) (p : Z -> go bool) (i j : Z) : go Z :=
  if i <=? j then
    match fuel with
    | O => OutOfFuel
    | S fuel => c ← p i; if (c : bool) then scan_up fuel p (i + 1) j else Ret i
    end
  else Ret i.
Fixpoint scan_down (fuel : nat) (p : Z -> go bool) (i j : Z) : go Z :=
  if i <=? j then
    match fuel with
    | O => OutOfFuel
    | S fuel => c ← p j; if (c : bool) then scan_down fuel p i (j - 1) else Ret j
    end
  else Ret j.
Definition go_not (b : go bool) : go bool := b ← b; Ret (negb b).

Fixpoint partition_loop (fuel : nat) (data : list E) (a i j : Z) : go (list E * Z) :=
  i ← scan_up (length data) (fun i => less data i a) i j;
  j ← scan_down (length data) (fun j => go_not (less data j a)) i j;
  if j <? i then Ret (data, j)
  else
    match fuel with
    | O => OutOfFuel
    | S fuel => data ← swap data i j; partition_loop fuel data a (i + 1) (j - 1)
    end.
Definition partitionCmpFunc (data : list E) (a b pivot : Z) : go (list E * Z * bool) :=
  data ← swap data a pivot;
  i ← scan_up (length data) (fun i => less data i a) (a + 1) (b - 1);
  j ← scan_down (length data) (fun j => go_not (less data j a)) i (b - 1);
  if j <? i then data ← swap data j a; Ret (data, j, true)
  else
    data ← swap data i j;
    '(data, j) ← partition_loop (length data) data a (i + 1) (j - 1);
    data ← swap data j a;
    Ret (data, j, false).

Fixpoint partitionEqual_loop (fuel : nat) (data : list E) (a i j : Z) : go (list E * Z) :=
  i ← scan_up (length data) (fun i => go_not (less data a i)) i j;
  j ← scan_down (length data) (fun j => less data a j) i j;
  if j <? i then Ret (data, i)
  else
    match fuel with
    | O => OutOfFuel
    | S fuel => data ← swap data i j; partitionEqual_loop fuel data a (i + 1) (j - 1)
    end.
Definition partitionEqualCmpFunc (data : list E) (a b pivot : Z) : go (list E * Z) :=
  data ← swap data a pivot; partitionEqual_loop (length data) data a (a + 1) (b - 1).

(** ** Detecting sorted slices *)
Fixpoint skip_sorted (fuel : nat) (data : list E) (i b : Z) : go Z :=
  if i <? b then
    match fuel with
    | O => OutOfFuel
    | S fuel => l ← less data i (i - 1); if negb l then skip_sorted fuel data (i + 1) b else Ret i
    end
  else Ret i.
Fixpoint shift_left (fuel : nat) (data : list E) (j : Z) : go (list E) :=
  if 1 <=? j then
    match fuel with
    | O => OutOfFuel
    | S fuel => l ← less data j (j - 1); if negb l then Ret data else data ← swap data j (j - 1); shift_left fuel data (j - 1)
    end
  else Ret data.
Fixpoint shift_right (fuel : nat) (data : list E) (j b : Z) : go (list E) :=
  if j <? b then
    match fuel with
    | O => OutOfFuel
    | S fuel => l ← less data j (j - 1); if negb l then Ret data else data ← swap data j (j - 1); shift_right fuel data (j + 1) b
    end
  else Ret data.
Definition shortestShifting : Z := 50.
Fixpoint partialInsertion_loop (steps : nat) (data : list E) (a b i : Z) : go (list E * bool) :=
  match steps with
  | O => Ret (data, false)
  | S steps =>
      i ← skip_sorted (length data) data i b;
      if i =? b then Ret (data, true)
      else if b - a <? shortestShifting then Ret (data, false)
      else
        data ← swap data i (i - 1);
        data ← (if 2 <=? i - a then shift_left (length data) data (i - 1) else Ret data);
        data ← (if 2 <=? b - i then shift_right (length data) data (i + 1) b else Ret data);
        partialInsertion_loop steps data a b i
  end.
Definition partialInsertionSortCmpFunc (data : list E) (a b : Z) : go (list E * bool) := partialInsertion_loop 5 data a b (a + 1).

(** ** Choosing a pivot *)
Inductive sortedHint := unknownHint | increasingHint | decreasingHint.

Definition Next (r : Z) : Z :=
  let r := Z.lxor r (uint_wrap 64 (Z.shiftl r 13)) in
  let r := Z.lxor r (Z.shiftr r 7) in
  Z.lxor r (uint_wrap 64 (Z.shiftl r 17)).
Definition nextPowerOfTwo (length : Z) : Z := uint_wrap 64 (Z.shiftl 1 (Len64 length)).
Fixpoint breakPatterns_loop (n : nat) (data : list E) (a length modulus random idx : Z) : go (list E) :=
  match n with
  | O => Ret data
  | S n =>
      let random := Next random in
      let other := Z.land random (modulus - 1) in
      let other := if length <=? other then other - length else other in
      data ← swap data idx (a + other);
      breakPatterns_loop n data a length modulus random (idx + 1)
  end.
Definition breakPatternsCmpFunc (data : list E) (a b : Z) : go (list E) :=
  let length := b - a in
  if 8 <=? length then
    breakPatterns_loop 3 data a length (nextPowerOfTwo length) length (a + Z.quot length 4 * 2 - 1)
  else Ret data.

Definition order2CmpFunc (data : list E) (a b swaps : Z) : go (Z * Z * Z) :=
  l ← less data b a; if (l : bool) then Ret (b, a, swaps + 1) else Ret (a, b, swaps).
Definition medianCmpFunc (data : list E) (a b c swaps : Z) : go (Z * Z) :=
  '(a, b, swaps) ← order2CmpFunc data a b swaps;
  '(b, c, swaps) ← order2CmpFunc data b c swaps;
  '(a, b, swaps) ← order2CmpFunc data a b swaps;
  Ret (b, swaps).
Definition medianAdjacentCmpFunc (data : list E) (a swaps : Z) : go (Z * Z) := medianCmpFunc data (a - 1) a (a + 1) swaps.
Definition shortestNinther : Z := 50.
Definition maxSwaps : Z := 4 * 3.
Definition choosePivotCmpFunc (data : list E) (a b : Z) : go (Z * sortedHint) :=
  let l := b - a in
  let i := a + Z.quot l 4 * 1 in let j := a + Z.quot l 4 * 2 in let k := a + Z.quot l 4 * 3 in
  '(j, swaps) ← (
    if 8 <=? l then
      '(i, j, k, swaps) ← (
        if shortestNinther <=? l then
          '(i, swaps) ← medianAdjacentCmpFunc data i 0;
          '(j, swaps) ← medianAdjacentCmpFunc data j swaps;
          '(k, swaps) ← medianAdjacentCmpFunc data k swaps;
          Ret (i, j, k, swaps)
        else Ret (i, j, k, 0));
      medianCmpFunc data i j k swaps
    else Ret (j, 0));
  Ret (j, if swaps =? 0 then increasingHint else if swaps =? maxSwaps then decreasingHint else unknownHint).

Fixpoint reverse_loop (fuel : nat) (data : list E) (i j : Z) : go (list E) :=
  if i <? j then
    match fuel with
    | O => OutOfFuel
    | S fuel => data ← swap data i j; reverse_loop fuel data (i + 1) (j - 1)
    end
  else Ret data.
Definition reverseRangeCmpFunc (data : list E) (a b : Z) : go (list E) := reverse_loop (length data) data a (b - 1).

(** ** Pattern-defeating quicksort *)
Definition maxInsertion : Z := 12.
(** The steps before partitioning: the data, the pivot, and whether the range is sorted now. *)
Definition prepare (data : list E) (a b : Z) (wasBalanced wasPartitioned : bool) : go (list E * Z * bool) :=
  data ← (if negb wasBalanced then breakPatternsCmpFunc data a b else Ret data);
  '(pivot, hint) ← choosePivotCmpFunc data a b;
  '(data, pivot, hint) ← (match hint with
    | decreasingHint => data ← reverseRangeCmpFunc data a b; Ret (data, (b - 1) - (pivot - a), increasingHint)
    | _ => Ret (data, pivot, hint)
    end);
  '(data, sorted) ← (if wasBalanced && wasPartitioned && match hint with increasingHint => true | _ => false end
                     then partialInsertionSortCmpFunc data a b else Ret (data, false));
  Ret (data, pivot, sorted).
(** One round of fuel for each iteration and each recursive call. *)
Fixpoint pdqsort_loop (fuel : nat) (data : list E) (a b limit : Z) (wasBalanced wasPartitioned : bool) : go (list E) :=
  let length := b - a in
  if length <=? maxInsertion then insertionSortCmpFunc data a b
  else if limit =? 0 then heapSortCmpFunc data a b
  else
    match fuel with
    | O => OutOfFuel
    | S fuel =>
        let limit := if negb wasBalanced then limit - 1 else limit in
        '(data, pivot, sorted) ← prepare data a b wasBalanced wasPartitioned;
        if (sorted : bool) then Ret data
        else
          equal ← (if 0 <? a then go_not (less data (a - 1) pivot) else Ret false);
          if (equal : bool) then
            '(data, mid) ← partitionEqualCmpFunc data a b pivot;
            pdqsort_loop fuel data mid b limit wasBalanced wasPartitioned
          else
            '(data, mid, alreadyPartitioned) ← partitionCmpFunc data a b pivot;
            let leftLen := mid - a in let rightLen := b - mid in
            let balanceThreshold := Z.quot length 8 in
            if leftLen <? rightLen then
              data ← pdqsort_loop fuel data a mid limit true true;
              pdqsort_loop fuel data (mid + 1) b limit (balanceThreshold <=? leftLen) alreadyPartitioned
            else
              data ← pdqsort_loop fuel data (mid + 1) b limit true true;
              pdqsort_loop fuel data a mid limit (balanceThreshold <=? rightLen) alreadyPartitioned
    end.
Definition pdqsortCmpFunc (data : list E) (a b limit : Z) : go (list E) := pdqsort_loop (Z.to_nat (b - a)) data a b limit true true.

Definition SortFunc (x : list E) : go (list E) := pdqsortCmpFunc x 0 (zlen x) (Len64 (zlen x)).
Fixpoint isSorted_loop (fuel : nat) (x : list E) (i : Z) : go bool :=
  if 0 <? i then
    match fuel with
    | O => OutOfFuel
    | S fuel => l ← less x i (i - 1); if (l : bool) then Ret false else isSorted_loop fuel x (i - 1)
    end
  else Ret true.
Definition IsSortedFunc (x : list E) : go bool := isSorted_loop (length x) x (zlen x - 1).
End sort.

#[local] Notation nums n := (List.map (fun k => (Z.of_nat k * 7919 + 13) mod 1009) (List.seq 0 n)) (only parsing).
Example sort_samples :
  (forallb (fun n => match SortFunc Z.sub (nums n) with Ret l => bool_decide (l = merge_sort Z.le (nums n)) | _ => false end) [0; 1; 5; 12; 13; 40; 50; 51; 120; 200]%nat) = true /\
  SortFunc Z.sub (rev (seqZ 0 100)) = Ret (seqZ 0 100) /\ SortFunc Z.sub (seqZ 0 60 ++ seqZ 0 60) = Ret (merge_sort Z.le (seqZ 0 60 ++ seqZ 0 60)) /\
  heapSortCmpFunc Z.sub (nums 30) 0 30 = Ret (merge_sort Z.le (nums 30)).
Proof. vm_compute. done. Qed.

(** ** Elements and ranges *)
Definition yields {A} (m : go A) (Q : A -> Prop) : Prop := exists a, m = Ret a /\ Q a.
Lemma yields_ret {A} (a : A) (Q : A -> Prop) : Q a -> yields (Ret a) Q.
Proof. by exists a. Qed.
Lemma yields_bind {A B} (m : go A) (f : A -> go B) (P : A -> Prop) Q : yields m P -> (forall a, P a -> yields (f a) Q) -> yields (a ← m; f a) Q.
Proof. intros (a & -> & Ha) H. rewrite bind_ret. by apply H. Qed.
Lemma yields_mono {A} (m : go A) (P Q : A -> Prop) : yields m P -> (forall a, P a -> Q a) -> yields m Q.
Proof. intros (a & -> & Ha) H. exists a. auto. Qed.

Section laws.
Context {E : Type} `{!Inhabited E} (cmp : E -> E -> Z).

Definition at_ (d : list E) (i : Z) : E := d !!! Z.to_nat i.
Definition lt (x y : E) : bool := cmp x y <? 0.
Definition le (x y : E) : Prop := lt y x = false.
(** [cmp] is a strict weak ordering. *)
Record weak_order : Prop := { wo_asym x y : lt x y = true -> lt y x = false; wo_trans x y z : le x y -> le y z -> le x z }.

Definition swp (d : list E) (i j : Z) : list E := <[Z.to_nat j := at_ d i]> (<[Z.to_nat i := at_ d j]> d).
(** The elements of [d'] are those of [d], moved only within [a, b). *)
Definition same (a b : Z) (d d' : list E) : Prop := d ≡ₚ d' /\ forall k, 0 <= k -> k < a \/ b <= k -> at_ d' k = at_ d k.
Definition sorted (a b : Z) (d : list E) : Prop := forall p q, a <= p -> p < q -> q < b -> le (at_ d p) (at_ d q).

Lemma index_value d i : 0 <= i < zlen d -> index d i = Ret (at_ d i).
Proof. intros Hi. apply index_lookup. split; [lia|]. apply list_lookup_lookup_total_lt. unfold zlen in Hi. lia. Qed.

Lemma less_at d i j : 0 <= i < zlen d -> 0 <= j < zlen d -> less cmp d i j = Ret (lt (at_ d i) (at_ d j)).
Proof. intros. unfold less. by rewrite !index_value, !bind_ret by done. Qed.

Lemma swap_at d i j : 0 <= i < zlen d -> 0 <= j < zlen d -> swap d i j = Ret (swp d i j).
Proof.
  intros Hi Hj. unfold swap. rewrite !index_value, !bind_ret by done. rewrite store_in_range, bind_ret by done.
  by rewrite store_in_range by (by rewrite zlen_insert).
Qed.

Lemma zlen_swp d i j : zlen (swp d i j) = zlen d.
Proof. unfold swp. by rewrite !zlen_insert. Qed.
Lemma length_swp d i j : length (swp d i j) = length d.
Proof. unfold swp. by rewrite !length_insert. Qed.

Lemma at_insert d i x k : 0 <= i < zlen d -> 0 <= k -> at_ (<[Z.to_nat i := x]> d) k = if decide (k = i) then x else at_ d k.
Proof.
  intros Hi Hk. unfold at_. case_decide; subst.
  - rewrite list_lookup_total_insert_eq; [done|]. unfold zlen in Hi. lia.
  - rewrite list_lookup_total_insert_ne by lia. done.
Qed.

Lemma at_swp d i j k : 0 <= i < zlen d -> 0 <= j < zlen d -> 0 <= k ->
  at_ (swp d i j) k = if decide (k = i) then at_ d j else if decide (k = j) then at_ d i else at_ d k.
Proof.
  intros Hi Hj Hk. unfold swp. rewrite at_insert, at_insert by (rewrite ?zlen_insert; done). repeat case_decide; congruence.
Qed.

Lemma lookup_at d (n : nat) : (n < length d)%nat -> d !! n = Some (at_ d (Z.of_nat n)).
Proof. intros Hn. unfold at_. rewrite Nat2Z.id. by apply list_lookup_lookup_total_lt. Qed.

Lemma swp_perm d i j : 0 <= i < zlen d -> 0 <= j < zlen d -> d ≡ₚ swp d i j.
Proof.
  intros Hi Hj. unfold zlen in *. symmetry. unfold swp. apply Permutation_insert_swap; unfold at_; apply list_lookup_lookup_total_lt; lia.
Qed.

Lemma perm_zlen (d d' : list E) : d ≡ₚ d' -> zlen d' = zlen d.
Proof. intros H. unfold zlen. by rewrite H. Qed.
Lemma same_zlen a b d d' : same a b d d' -> zlen d' = zlen d.
Proof. intros [H _]. by apply perm_zlen. Qed.
Lemma same_refl a b d : same a b d d.
Proof. by split. Qed.
Lemma same_trans a b d1 d2 d3 : same a b d1 d2 -> same a b d2 d3 -> same a b d1 d3.
Proof. intros [H1 H2] [H3 H4]. split; [by etrans|]. intros k Hk Hout. by rewrite H4, H2. Qed.
Lemma same_widen a b a' b' d d' : same a b d d' -> a' <= a -> b <= b' -> same a' b' d d'.
Proof. intros [H1 H2] Ha Hb. split; [done|]. intros k Hk Hout. apply H2; lia. Qed.
Lemma same_swp a b d i j : 0 <= i < zlen d -> 0 <= j < zlen d -> a <= i < b -> a <= j < b -> same a b d (swp d i j).
Proof.
  intros Hi Hj Hi' Hj'. split; [by apply swp_perm|]. intros k Hk Hout. rewrite at_swp by done. by rewrite !decide_False by lia.
Qed.

Lemma same_step a b a' b' d i j d' : 0 <= i < zlen d -> 0 <= j < zlen d -> a <= i < b -> a <= j < b -> a <= a' -> b' <= b ->
  same a' b' (swp d i j) d' -> same a b d d'.
Proof. intros. eapply same_trans; [by apply (same_swp a b d i j)|by eapply same_widen]. Qed.

(** What holds of all elements of a range holds of them wherever they moved to. *)
Lemma same_all (P : E -> Prop) a b d d' : 0 <= a -> b <= zlen d -> same a b d d' ->
  (forall k, a <= k < b -> P (at_ d k)) -> forall k, a <= k < b -> P (at_ d' k).
Proof.
  intros Ha Hb Hs HP k Hk. pose proof (same_zlen _ _ _ _ Hs) as Hl. destruct Hs as [Hperm Hout]. unfold zlen in *.
  set (n := Z.to_nat a). set (m := Z.to_nat b). assert (n <= m <= length d)%nat by lia.
  assert (take n d' = take n d) as Ht.
  { apply list_eq. intros i. destruct (decide (i < n)%nat); [|by rewrite !lookup_take_ge by lia].
    rewrite !lookup_take_lt, !lookup_at by lia. f_equal. apply Hout; lia. }
  assert (drop m d' = drop m d) as Hd.
  { apply list_eq. intros i. rewrite !lookup_drop. destruct (decide (m + i < length d)%nat); [|by rewrite !lookup_ge_None_2 by lia].
    rewrite !lookup_at by lia. f_equal. apply Hout; lia. }
  assert (forall l : list E, (m <= length l)%nat -> l = take n l ++ take (m - n) (drop n l) ++ drop m l) as Hsplit.
  { intros l Hlen. rewrite <- (take_drop n l) at 1. f_equal. rewrite <- (take_drop (m - n) (drop n l)) at 1. f_equal. rewrite drop_drop. f_equal. lia. }
  rewrite (Hsplit d), (Hsplit d'), Ht, Hd in Hperm by lia. apply Permutation_app_inv_l, Permutation_app_inv_r in Hperm.
  assert (Forall P (take (m - n) (drop n d))) as Hall.
  { apply Forall_lookup. intros i x Hx. apply lookup_take_Some in Hx as [Hx Hi]. rewrite lookup_drop, lookup_at in Hx by lia. injection Hx as <-. apply HP. lia. }
  rewrite Hperm, Forall_lookup in Hall. apply (Hall (Z.to_nat k - n)%nat). rewrite lookup_take_lt, lookup_drop, lookup_at by lia. f_equal. f_equal. lia.
Qed.

Lemma le_refl (H : weak_order) x : le x x.
Proof. unfold le. destruct (lt x x) eqn:Hx; [|done]. pose proof (wo_asym H x x Hx). congruence. Qed.
Lemma lt_le (H : weak_order) x y : lt x y = true -> le x y.
Proof. intros Hxy. by apply (wo_asym H). Qed.

#[local] Ltac at_simpl := rewrite ?at_swp in * by (rewrite ?zlen_swp; lia); repeat (case_decide; subst; try lia).

(** ** Insertion sort *)

(** [a, hi) is sorted up to the element at [j], which is not greater than those after it. *)
Definition hole (a j hi : Z) (d : list E) : Prop :=
  (forall p q, a <= p -> p < q -> q < hi -> p <> j -> q <> j -> le (at_ d p) (at_ d q)) /\
  (forall q, j < q < hi -> le (at_ d j) (at_ d q)).

Lemma hole_move (H : weak_order) a j hi d : 0 <= a -> a < j -> j < hi -> hi <= zlen d -> lt (at_ d j) (at_ d (j - 1)) = true -> hole a j hi d ->
  hole a (j - 1) hi (swp d j (j - 1)).
Proof.
  intros Ha Hj Hhi Hlen Hlt [H1 H2]. split.
  - intros p q Hp Hpq Hq Hpj Hqj. at_simpl; [apply H1; lia|apply H1; lia|by apply H1; lia].
  - intros q Hq. at_simpl; [by apply lt_le|apply H2; lia].
Qed.

Lemma hole_stop (H : weak_order) a j hi d : (a < j -> le (at_ d (j - 1)) (at_ d j)) -> hole a j hi d -> sorted a hi d.
Proof.
  intros Hle [H1 H2] p q Hp Hpq Hq. destruct (Z.eq_dec p j) as [->|]; [by apply H2|]. destruct (Z.eq_dec q j) as [->|]; [|by apply H1].
  destruct (Z.eq_dec p (j - 1)) as [->|]; [apply Hle; lia|]. apply (wo_trans H _ (at_ d (j - 1))); [apply H1; lia|apply Hle; lia].
Qed.

Lemma insert_loop_spec fuel d a j hi : 0 <= a <= j -> j < hi -> hi <= zlen d -> j - a <= Z.of_nat fuel ->
  yields (insert_loop cmp fuel d a j) (fun d' => same a (j + 1) d d' /\ (weak_order -> hole a j hi d -> sorted a hi d')).
Proof.
  revert d j. induction fuel as [|fuel IH]; intros d j Hj Hhi Hlen Hf; cbn [insert_loop]; destruct (Z.ltb_spec a j); try lia.
  1,3: apply yields_ret; split; [apply same_refl|intros Hwo; apply hole_stop; [done|lia]].
  rewrite less_at, bind_ret by lia. destruct (lt (at_ d j) (at_ d (j - 1))) eqn:Hlt.
  - rewrite swap_at, bind_ret by lia. eapply yields_mono; [apply IH; rewrite ?zlen_swp; lia|]. intros d' [Hs Ho]. split.
    + eapply same_step; [..|exact Hs]; lia.
    + intros Hwo Hh. apply Ho; [done|]. apply hole_move; (done || lia).
  - apply yields_ret. split; [apply same_refl|]. intros Hwo. apply hole_stop; [done|intros _; exact Hlt].
Qed.

Lemma insertion_loop_spec fuel d a b i : 0 <= a < i -> b <= zlen d -> b - i <= Z.of_nat fuel ->
  yields (insertion_loop cmp fuel d a b i) (fun d' => same a b d d' /\ (weak_order -> sorted a i d -> sorted a b d')).
Proof.
  revert d i. induction fuel as [|fuel IH]; intros d i Hi Hb Hf; cbn [insertion_loop]; destruct (Z.ltb_spec i b); try lia.
  1,3: apply yields_ret; split; [apply same_refl|intros _ Hs p q ???; apply Hs; lia].
  eapply yields_bind; [apply (insert_loop_spec _ d a i (i + 1)); unfold zlen in *; lia|]. intros d1 [Hs1 Ho1].
  eapply yields_mono; [apply IH; rewrite ?(same_zlen _ _ _ _ Hs1); lia|]. intros d2 [Hs2 Ho2]. split.
  - eapply same_trans; [|exact Hs2]. eapply same_widen; [exact Hs1|lia|lia].
  - intros Hwo Hs. apply Ho2; [done|]. apply Ho1; [done|]. split; [intros; apply Hs; lia|lia].
Qed.

Lemma insertionSort_spec d a b : 0 <= a -> b <= zlen d ->
  yields (insertionSortCmpFunc cmp d a b) (fun d' => same a b d d' /\ (weak_order -> sorted a b d')).
Proof.
  intros Ha Hb. eapply yields_mono; [apply (insertion_loop_spec _ d a b (a + 1)); unfold zlen in *; lia|]. intros d' [Hs Ho]. split; [done|].
  intros H. apply Ho; [done|]. intros p q ???. lia.
Qed.

(** ** Partitioning *)
Lemma scan_up_spec fuel p (f : Z -> bool) i j : (forall k, i <= k <= j -> p k = Ret (f k)) -> j - i < Z.of_nat fuel -> i <= j + 1 ->
  yields (scan_up fuel p i j) (fun i' => i <= i' <= j + 1 /\ (forall k, i <= k < i' -> f k = true) /\ (i' <= j -> f i' = false)).
Proof.
  revert i. induction fuel as [|fuel IH]; intros i Hp Hf Hij; cbn [scan_up]; destruct (Z.leb_spec i j); try lia.
  1,3: apply yields_ret; split_and!; lia.
  rewrite Hp, bind_ret by lia. destruct (f i) eqn:Hi; [|apply yields_ret; split_and!; [lia..|done]].
  eapply yields_mono; [apply IH; [intros; apply Hp; lia|lia..]|]. intros i' (H1 & H2 & H3). split_and!; [lia..| |done].
  intros k Hk. destruct (Z.eq_dec k i) as [->|]; [done|apply H2; lia].
Qed.

Lemma scan_down_spec fuel p (f : Z -> bool) i j : (forall k, i <= k <= j -> p k = Ret (f k)) -> j - i < Z.of_nat fuel -> i <= j + 1 ->
  yields (scan_down fuel p i j) (fun j' => i - 1 <= j' <= j /\ (forall k, j' < k <= j -> f k = true) /\ (i <= j' -> f j' = false)).
Proof.
  revert j. induction fuel as [|fuel IH]; intros j Hp Hf Hij; cbn [scan_down]; destruct (Z.leb_spec i j); try lia.
  1,3: apply yields_ret; split_and!; lia.
  rewrite Hp, bind_ret by lia. destruct (f j) eqn:Hj; [|apply yields_ret; split_and!; [lia..|done]].
  eapply yields_mono; [apply IH; [intros; apply Hp; lia|lia..]|]. intros j' (H1 & H2 & H3). split_and!; [lia..| |done].
  intros k Hk. destruct (Z.eq_dec k j) as [->|]; [done|apply H2; lia].
Qed.

(** The two scans of a round, and the swap between rounds; [f] is the side an element belongs to. *)
Lemma partition_loop_spec fuel d a i j : 0 <= a < i -> i <= j + 1 -> j < zlen d -> j - i < Z.of_nat fuel ->
  yields (partition_loop cmp fuel d a i j) (fun '(d', j') => same i (j + 1) d d' /\ i - 1 <= j' <= j /\
    (forall k, i <= k <= j' -> lt (at_ d' k) (at_ d a) = true) /\ (forall k, j' < k <= j -> lt (at_ d' k) (at_ d a) = false)).
Proof.
  revert d i j. induction fuel as [|fuel IH]; intros d i j Ha Hij Hj Hf; cbn [partition_loop].
  all: eapply yields_bind; [apply (scan_up_spec _ _ (fun k => lt (at_ d k) (at_ d a))); [intros; apply less_at; lia|unfold zlen in *; lia|lia]|];
    intros i1 (Hi1 & Hup & Hstop1);
    (eapply yields_bind; [apply (scan_down_spec _ _ (fun k => negb (lt (at_ d k) (at_ d a)))); [intros; unfold go_not; by rewrite less_at, bind_ret by lia|unfold zlen in *; lia|lia]|]);
    intros j1 (Hj1 & Hdown & Hstop2); destruct (Z.ltb_spec j1 i1); try lia.
  1,2: apply yields_ret; split_and!; [apply same_refl|lia..|intros k Hk; apply Hup; lia|intros k Hk; apply negb_true_iff, Hdown; lia].
  assert (i1 <> j1) as Hne by (intros ->; rewrite Hstop1 in Hstop2 by lia; by discriminate Hstop2).
  rewrite swap_at, bind_ret by lia. eapply yields_mono; [apply IH; rewrite ?zlen_swp; lia|]. intros [d' j'] (Hs & Hj' & H1 & H2).
  assert (at_ (swp d i1 j1) a = at_ d a) as Hp by (at_simpl; done). rewrite Hp in H1, H2.
  assert (forall k, 0 <= k -> k < i1 + 1 \/ j1 - 1 + 1 <= k -> at_ d' k = at_ (swp d i1 j1) k) as Hout by apply Hs.
  split_and!; [|lia..| |].
  - eapply same_step; [..|exact Hs]; lia.
  - intros k Hk. destruct (decide (i1 < k)) as [|Hle]; [apply H1; lia|]. rewrite Hout by lia. at_simpl; [|apply Hup; lia]. apply negb_false_iff, Hstop2. lia.
  - intros k Hk. destruct (decide (k < j1)) as [|Hle]; [apply H2; lia|]. rewrite Hout by lia. at_simpl; [apply Hstop1; lia|]. apply negb_true_iff, Hdown. lia.
Qed.

Lemma same_at a b d d' k : same a b d d' -> 0 <= k -> k < a \/ b <= k -> at_ d' k = at_ d k.
Proof. intros [_ H]. apply H. Qed.

(** The last swap of a partition puts the pivot between the two sides. *)
Lemma partition_finish d a b j : 0 <= a -> a <= j < b -> b <= zlen d ->
  (forall k, a < k <= j -> lt (at_ d k) (at_ d a) = true) -> (forall k, j < k < b -> lt (at_ d k) (at_ d a) = false) ->
  same a b d (swp d j a) /\ (forall k, a <= k < j -> lt (at_ (swp d j a) k) (at_ (swp d j a) j) = true) /\
  (forall k, j < k < b -> lt (at_ (swp d j a) k) (at_ (swp d j a) j) = false).
Proof.
  intros Ha Hj Hb H1 H2. assert (at_ (swp d j a) j = at_ d a) as -> by (at_simpl; done). split_and!.
  - apply same_swp; lia.
  - intros k Hk. at_simpl; apply H1; lia.
  - intros k Hk. at_simpl. apply H2. lia.
Qed.

Lemma partition_spec d a b pivot : 0 <= a -> a <= pivot < b -> b <= zlen d ->
  yields (partitionCmpFunc cmp d a b pivot) (fun '(d', mid, _) => same a b d d' /\ a <= mid < b /\
    (forall k, a <= k < mid -> lt (at_ d' k) (at_ d' mid) = true) /\ (forall k, mid < k < b -> lt (at_ d' k) (at_ d' mid) = false)).
Proof.
  intros Ha Hp Hb. unfold partitionCmpFunc. rewrite swap_at, bind_ret by lia. set (d1 := swp d a pivot).
  assert (zlen d1 = zlen d) as Hl1 by apply zlen_swp. assert (same a b d d1) as Hs1 by (apply same_swp; lia).
  eapply yields_bind; [apply (scan_up_spec _ _ (fun k => lt (at_ d1 k) (at_ d1 a))); [intros; apply less_at; lia|unfold zlen in *; lia|lia]|]. intros i (Hi & Hup & Hstop1).
  eapply yields_bind; [apply (scan_down_spec _ _ (fun k => negb (lt (at_ d1 k) (at_ d1 a)))); [intros; unfold go_not; by rewrite less_at, bind_ret by lia|unfold zlen in *; lia|lia]|].
  intros j (Hj & Hdown & Hstop2). destruct (Z.ltb_spec j i).
  - rewrite swap_at, bind_ret by lia. apply yields_ret.
    destruct (partition_finish d1 a b j) as (Hs & H1 & H2); [lia..|intros; apply Hup; lia|intros; apply negb_true_iff, Hdown; lia|].
    split_and!; [by eapply same_trans|lia..|done|done].
  - assert (i <> j) as Hne by (intros ->; rewrite Hstop1 in Hstop2 by lia; by discriminate Hstop2).
    rewrite swap_at, bind_ret by lia. set (d2 := swp d1 i j). assert (zlen d2 = zlen d1) as Hl2 by apply zlen_swp.
    assert (forall k, 0 <= k -> at_ d2 k = if decide (k = i) then at_ d1 j else if decide (k = j) then at_ d1 i else at_ d1 k) as Hd2 by (intros; apply at_swp; lia).
    eapply yields_bind; [apply partition_loop_spec; unfold zlen in *; lia|]. intros [d3 j'] (Hs3 & Hj' & H1 & H2).
    pose proof (same_zlen _ _ _ _ Hs3) as Hl3. rewrite swap_at, bind_ret by lia. apply yields_ret.
    assert (at_ d2 a = at_ d1 a) as Hpiv by (rewrite Hd2 by lia; repeat case_decide; lia || done).
    assert (at_ d3 a = at_ d1 a) as Hpiv3 by (rewrite (same_at _ _ _ _ _ Hs3); [done|lia..]). rewrite Hpiv in H1, H2.
    destruct (partition_finish d3 a b j') as (Hs4 & H3 & H4); [lia..| | |].
    + rewrite Hpiv3. intros k Hk. destruct (decide (i < k)) as [|Hle]; [apply H1; lia|]. rewrite (same_at _ _ _ _ _ Hs3), Hd2 by lia.
      repeat case_decide; try lia; [apply negb_false_iff, Hstop2; lia|apply Hup; lia].
    + rewrite Hpiv3. intros k Hk. destruct (decide (k < j)) as [|Hle]; [apply H2; lia|]. rewrite (same_at _ _ _ _ _ Hs3), Hd2 by lia.
      repeat case_decide; try lia; [apply Hstop1; lia|apply negb_true_iff, Hdown; lia].
    + split_and!; [|lia..|done|done]. eapply same_trans; [exact Hs1|]. eapply same_trans; [|exact Hs4]. eapply same_step; [..|exact Hs3]; lia.
Qed.

Lemma partitionEqual_loop_spec fuel d a i j : 0 <= a < i -> i <= j + 1 -> j < zlen d -> j - i < Z.of_nat fuel ->
  yields (partitionEqual_loop cmp fuel d a i j) (fun '(d', i') => same i (j + 1) d d' /\ i <= i' <= j + 1 /\
    (forall k, i <= k < i' -> lt (at_ d a) (at_ d' k) = false) /\ (forall k, i' <= k <= j -> lt (at_ d a) (at_ d' k) = true)).
Proof.
  revert d i j. induction fuel as [|fuel IH]; intros d i j Ha Hij Hj Hf; cbn [partitionEqual_loop].
  all: eapply yields_bind; [apply (scan_up_spec _ _ (fun k => negb (lt (at_ d a) (at_ d k)))); [intros; unfold go_not; by rewrite less_at, bind_ret by lia|unfold zlen in *; lia|lia]|];
    intros i1 (Hi1 & Hup & Hstop1);
    (eapply yields_bind; [apply (scan_down_spec _ _ (fun k => lt (at_ d a) (at_ d k))); [intros; by apply less_at; lia|unfold zlen in *; lia|lia]|]);
    intros j1 (Hj1 & Hdown & Hstop2); destruct (Z.ltb_spec j1 i1); try lia.
  1,2: apply yields_ret; split_and!; [apply same_refl|lia..|intros k Hk; apply negb_true_iff, Hup; lia|intros k Hk; apply Hdown; lia].
  assert (i1 <> j1) as Hne by (intros ->; rewrite Hstop2 in Hstop1 by lia; by specialize (Hstop1 ltac:(lia))).
  rewrite swap_at, bind_ret by lia. eapply yields_mono; [apply IH; rewrite ?zlen_swp; lia|]. intros [d' i'] (Hs & Hi' & H1 & H2).
  assert (at_ (swp d i1 j1) a = at_ d a) as Hp by (at_simpl; done). rewrite Hp in H1, H2.
  split_and!; [eapply same_step; [..|exact Hs]; lia|lia..| |].
  - intros k Hk. destruct (decide (i1 < k)) as [|Hle]; [apply H1; lia|]. rewrite (same_at _ _ _ _ _ Hs) by lia. at_simpl; [apply Hstop2; lia|]. apply negb_true_iff, Hup. lia.
  - intros k Hk. destruct (decide (k < j1)) as [|Hle]; [apply H2; lia|]. rewrite (same_at _ _ _ _ _ Hs) by lia. at_simpl; [|apply Hdown; lia]. apply negb_false_iff, Hstop1. lia.
Qed.

Lemma partitionEqual_spec d a b pivot : 0 <= a -> a <= pivot < b -> b <= zlen d ->
  yields (partitionEqualCmpFunc cmp d a b pivot) (fun '(d', mid) => same a b d d' /\ a < mid <= b /\ at_ d' a = at_ d pivot /\
    (forall k, a < k < mid -> le (at_ d' k) (at_ d pivot)) /\ (forall k, mid <= k < b -> lt (at_ d pivot) (at_ d' k) = true)).
Proof.
  intros Ha Hp Hb. unfold partitionEqualCmpFunc. rewrite swap_at, bind_ret by lia. set (d1 := swp d a pivot).
  assert (zlen d1 = zlen d) as Hl1 by apply zlen_swp. assert (at_ d1 a = at_ d pivot) as Hpiv by (unfold d1; at_simpl; done).
  eapply yields_mono; [apply partitionEqual_loop_spec; unfold zlen in *; lia|]. intros [d' mid] (Hs & Hm & H1 & H2). rewrite Hpiv in H1, H2.
  split_and!; [eapply same_step; [..|exact Hs]; lia|lia..| | |].
  - rewrite (same_at _ _ _ _ _ Hs) by lia. done.
  - intros k Hk. apply H1. lia.
  - intros k Hk. apply H2. lia.
Qed.

(** ** Pivots, patterns and reversal *)
Lemma order2_spec d a b s (P : Z -> Prop) : 0 <= a < zlen d -> 0 <= b < zlen d -> P a -> P b ->
  yields (order2CmpFunc cmp d a b s) (fun '(x, y, _) => (0 <= x < zlen d /\ P x) /\ (0 <= y < zlen d /\ P y)).
Proof. intros Ha Hb HPa HPb. unfold order2CmpFunc. rewrite less_at, bind_ret by done. destruct (lt _ _); apply yields_ret; done. Qed.

Lemma median_spec d a b c s (P : Z -> Prop) : 0 <= a < zlen d -> 0 <= b < zlen d -> 0 <= c < zlen d -> P a -> P b -> P c ->
  yields (medianCmpFunc cmp d a b c s) (fun '(x, _) => 0 <= x < zlen d /\ P x).
Proof.
  intros Ha Hb Hc HPa HPb HPc. unfold medianCmpFunc. eapply yields_bind; [by apply (order2_spec _ _ _ _ P)|]. intros [[a1 b1] s1] [[??] [??]].
  eapply yields_bind; [by apply (order2_spec _ b1 c _ P)|]. intros [[b2 c2] s2] [[??] [??]].
  eapply yields_bind; [by apply (order2_spec _ a1 b2 _ P)|]. intros [[a3 b3] s3] [[??] [??]]. by apply yields_ret.
Qed.

Lemma choosePivot_spec d a b : 0 <= a -> 8 <= b - a -> b <= zlen d -> yields (choosePivotCmpFunc cmp d a b) (fun '(pivot, _) => a <= pivot < b).
Proof.
  intros Ha Hl Hb. unfold choosePivotCmpFunc. replace (8 <=? b - a) with true by lia.
  pose proof (quot_bounds (b - a) 4 ltac:(lia) ltac:(lia)) as Hq.
  eapply (yields_bind _ _ (fun '(p, _) => a <= p < b)); [|intros [p s] Hp; by apply yields_ret].
  eapply (yields_bind _ _ (fun '(i, j, k, _) => (a <= i < b) /\ (a <= j < b) /\ (a <= k < b))).
  - unfold shortestNinther. destruct (Z.leb_spec 50 (b - a)); [|apply yields_ret; lia].
    unfold medianAdjacentCmpFunc.
    eapply yields_bind; [apply (median_spec _ _ _ _ _ (fun x => a <= x < b)); lia|]. intros [i s1] [_ ?].
    eapply yields_bind; [apply (median_spec _ _ _ _ _ (fun x => a <= x < b)); lia|]. intros [j s2] [_ ?].
    eapply yields_bind; [apply (median_spec _ _ _ _ _ (fun x => a <= x < b)); lia|]. intros [k s3] [_ ?]. by apply yields_ret.
  - intros [[[i j] k] s] (? & ? & ?). eapply yields_mono; [apply (median_spec _ i j k _ (fun x => a <= x < b)); lia|]. by intros [p ?] [_ ?].
Qed.

Lemma breakPatterns_loop_spec n d a b m r idx : 0 <= a -> b <= zlen d -> a <= idx -> idx + Z.of_nat n <= b -> 0 <= m -> 2 ^ m <= 2 * (b - a) ->
  yields (breakPatterns_loop n d a (b - a) (2 ^ m) r idx) (same a b d).
Proof.
  intros Ha Hb. revert d r idx Hb. induction n as [|n IH]; intros d r idx Hb Hi Hn Hm Hmod; cbn [breakPatterns_loop]; [apply yields_ret, same_refl|].
  rewrite Z.sub_1_r, <- Z.ones_equiv, Z.land_ones by lia. set (x := Next r mod 2 ^ m). assert (0 <= x < 2 ^ m) by (apply Z.mod_pos_bound; lia).
  set (other := if b - a <=? x then x - (b - a) else x). assert (0 <= other < b - a) by (unfold other; destruct (Z.leb_spec (b - a) x); lia).
  rewrite swap_at, bind_ret by lia. eapply yields_mono; [apply IH; rewrite ?zlen_swp; lia|]. intros d' Hs. eapply same_step; [..|exact Hs]; lia.
Qed.

Lemma breakPatterns_spec d a b : 0 <= a -> b <= zlen d -> b - a < 2 ^ 63 -> yields (breakPatternsCmpFunc d a b) (same a b d).
Proof.
  intros Ha Hb Hl. unfold breakPatternsCmpFunc. destruct (Z.leb_spec 8 (b - a)); [|apply yields_ret, same_refl].
  pose proof (quot_bounds (b - a) 4 ltac:(lia) ltac:(lia)) as Hq.
  unfold nextPowerOfTwo, Len64. replace (b - a =? 0) with false by lia. rewrite Z.shiftl_1_l. pose proof (Z.log2_nonneg (b - a)).
  destruct (Z.log2_spec (b - a)) as [Hlo Hhi]; [lia|]. assert (Z.log2 (b - a) < 63) by (apply Z.log2_lt_pow2; lia).
  rewrite <- Z.add_1_r in Hhi. rewrite Z.pow_add_r in Hhi by lia.
  rewrite uint_wrap_id by (split; [lia|apply Z.pow_lt_mono_r; lia]). apply breakPatterns_loop_spec; [lia..|]. rewrite Z.pow_add_r by lia. lia.
Qed.

Lemma reverse_loop_spec fuel d a b i j : 0 <= a <= i -> j < b -> b <= zlen d -> j - i <= Z.of_nat fuel -> yields (reverse_loop fuel d i j) (same a b d).
Proof.
  revert d i j. induction fuel as [|fuel IH]; intros d i j Hi Hj Hb Hf; cbn [reverse_loop]; destruct (Z.ltb_spec i j); try lia.
  1,3: apply yields_ret, same_refl.
  rewrite swap_at, bind_ret by lia. eapply yields_mono; [apply IH; rewrite ?zlen_swp; lia|]. intros d' Hs. eapply same_step; [..|exact Hs]; lia.
Qed.

Lemma reverseRange_spec d a b : 0 <= a -> b <= zlen d -> yields (reverseRangeCmpFunc d a b) (same a b d).
Proof. intros Ha Hb. apply reverse_loop_spec; unfold zlen in *; lia. Qed.

(** ** Partial insertion sort *)

(** The element before a range is not greater than those of the range. *)
Definition bound (a b : Z) (d : list E) : Prop := 0 < a -> forall k, a <= k < b -> le (at_ d (a - 1)) (at_ d k).

Lemma bound_same a b d d' : 0 <= a -> b <= zlen d -> same a b d d' -> bound a b d -> bound a b d'.
Proof.
  intros Ha Hb Hs Hbd Ha'. rewrite (same_at _ _ _ _ (a - 1) Hs) by lia. by apply (same_all _ a b d d'); [..|exact (Hbd Ha')].
Qed.

Lemma sorted_snoc (H : weak_order) a i d : a < i -> sorted a i d -> le (at_ d (i - 1)) (at_ d i) -> sorted a (i + 1) d.
Proof.
  intros Ha Hs Hle p q Hp Hpq Hq. destruct (Z.eq_dec q i) as [->|]; [|apply Hs; lia].
  destruct (Z.eq_dec p (i - 1)) as [->|]; [done|]. eapply (wo_trans H); [|exact Hle]. apply Hs; lia.
Qed.

Lemma skip_sorted_spec fuel d a b i : 0 <= a < i -> i <= b -> b <= zlen d -> b - i <= Z.of_nat fuel ->
  yields (skip_sorted cmp fuel d i b) (fun i' => i <= i' <= b /\ (weak_order -> sorted a i d -> sorted a i' d)).
Proof.
  revert i. induction fuel as [|fuel IH]; intros i Hi Hib Hb Hf; cbn [skip_sorted]; destruct (Z.ltb_spec i b); try lia.
  1,3: apply yields_ret; split; [lia|done].
  rewrite less_at, bind_ret by lia. destruct (lt (at_ d i) (at_ d (i - 1))) eqn:Hlt; cbn [negb]; [apply yields_ret; split; [lia|done]|].
  eapply yields_mono; [apply IH; lia|]. intros i' [Hi' Ho]. split; [lia|]. intros Hwo Hs. apply Ho; [done|]. apply sorted_snoc; [done|lia|done|exact Hlt].
Qed.

Lemma shift_left_perm fuel d j : 0 <= j < zlen d -> j <= Z.of_nat fuel -> yields (shift_left cmp fuel d j) (fun d' => d ≡ₚ d').
Proof.
  revert d j. induction fuel as [|fuel IH]; intros d j Hj Hf; cbn [shift_left]; destruct (Z.leb_spec 1 j); try lia.
  1,3: by apply yields_ret.
  rewrite less_at, bind_ret by lia. destruct (lt _ _); cbn [negb]; [|by apply yields_ret].
  rewrite swap_at, bind_ret by lia. eapply yields_mono; [apply IH; rewrite ?zlen_swp; lia|]. intros d' Hp. etrans; [|exact Hp]. apply swp_perm; lia.
Qed.

(** The loop runs down to index 1, but does not leave the range. *)
Lemma shift_left_sorted (H : weak_order) fuel d a j hi : 0 <= a <= j -> j < hi -> hi <= zlen d -> j <= Z.of_nat fuel ->
  (0 < a -> le (at_ d (a - 1)) (at_ d j)) -> hole a j hi d ->
  yields (shift_left cmp fuel d j) (fun d' => same a (j + 1) d d' /\ sorted a hi d').
Proof.
  revert d j. induction fuel as [|fuel IH]; intros d j Hj Hhi Hlen Hf Hbd Hh; cbn [shift_left]; destruct (Z.leb_spec 1 j); try lia.
  1,3: apply yields_ret; split; [apply same_refl|apply (hole_stop H _ j); [lia|done]].
  rewrite less_at, bind_ret by lia. destruct (lt (at_ d j) (at_ d (j - 1))) eqn:Hlt; cbn [negb].
  - assert (a < j). { destruct (Z.eq_dec a j) as [->|]; [|lia]. specialize (Hbd ltac:(lia)). unfold le in Hbd. congruence. }
    rewrite swap_at, bind_ret by lia. eapply yields_mono; [apply IH; rewrite ?zlen_swp; try lia|].
    + intros Ha. at_simpl. by apply Hbd.
    + apply hole_move; (done || lia).
    + intros d' [Hs Ho]. split; [|done]. eapply same_step; [..|exact Hs]; lia.
  - apply yields_ret. split; [apply same_refl|]. apply (hole_stop H _ j); [intros _; exact Hlt|done].
Qed.

Lemma shift_right_spec fuel d j b : 1 <= j -> b <= zlen d -> b - j <= Z.of_nat fuel -> yields (shift_right cmp fuel d j b) (same (j - 1) b d).
Proof.
  revert d j. induction fuel as [|fuel IH]; intros d j Hj Hb Hf; cbn [shift_right]; destruct (Z.ltb_spec j b); try lia.
  1,3: apply yields_ret, same_refl.
  rewrite less_at, bind_ret by lia. destruct (lt _ _); cbn [negb]; [|apply yields_ret, same_refl].
  rewrite swap_at, bind_ret by lia. eapply yields_mono; [apply IH; rewrite ?zlen_swp; lia|]. intros d' Hs. eapply same_step; [..|exact Hs]; lia.
Qed.

Lemma partialInsertion_perm steps d a b i : 0 <= a < i -> i <= b -> b <= zlen d ->
  yields (partialInsertion_loop cmp steps d a b i) (fun '(d', _) => d ≡ₚ d').
Proof.
  revert d i. induction steps as [|steps IH]; intros d i Hi Hib Hb; cbn [partialInsertion_loop]; [by apply yields_ret|].
  eapply yields_bind; [apply (skip_sorted_spec _ d a b i); unfold zlen in *; lia|]. intros i' [Hi' _].
  destruct (Z.eqb_spec i' b); [by apply yields_ret|]. destruct (b - a <? shortestShifting); [by apply yields_ret|].
  rewrite swap_at, bind_ret by lia. eapply (yields_bind _ _ (fun d' => d ≡ₚ d')).
  { assert (d ≡ₚ swp d i' (i' - 1)) as Hp by (apply swp_perm; lia). destruct (2 <=? i' - a); [|by apply yields_ret].
    eapply yields_mono; [apply shift_left_perm; rewrite ?zlen_swp, ?length_swp; unfold zlen in *; lia|]. intros d' Hp'. by etrans. }
  intros d1 Hp1. pose proof (perm_zlen _ _ Hp1). eapply (yields_bind _ _ (fun d' => d1 ≡ₚ d')).
  { destruct (2 <=? b - i'); [|by apply yields_ret]. eapply yields_mono; [apply shift_right_spec; unfold zlen in *; lia|]. by intros d' [Hp' _]. }
  intros d2 Hp2. pose proof (perm_zlen _ _ Hp2). eapply yields_mono; [apply IH; lia|]. intros [d3 ?] Hp3. by rewrite Hp1, Hp2.
Qed.

Lemma partialInsertion_sorted (H : weak_order) steps d a b i : 0 <= a < i -> i <= b -> b <= zlen d -> bound a b d -> sorted a i d ->
  yields (partialInsertion_loop cmp steps d a b i) (fun '(d', r) => same a b d d' /\ (r = true -> sorted a b d')).
Proof.
  revert d i. induction steps as [|steps IH]; intros d i Hi Hib Hb Hbd Hs; cbn [partialInsertion_loop]; [by apply yields_ret|].
  eapply yields_bind; [apply (skip_sorted_spec _ d a b i); unfold zlen in *; lia|]. intros i' [Hi' Ho]. specialize (Ho H Hs).
  destruct (Z.eqb_spec i' b) as [->|]; [by apply yields_ret|]. destruct (b - a <? shortestShifting); [by apply yields_ret|].
  rewrite swap_at, bind_ret by lia. set (d1 := swp d i' (i' - 1)). assert (same a b d d1) as Hs1 by (apply same_swp; lia).
  assert (zlen d1 = zlen d) as Hl1 by apply zlen_swp. assert (bound a b d1) as Hbd1 by (apply (bound_same a b d); [lia|lia|done|done]).
  eapply (yields_bind _ _ (fun d2 => same a b d d2 /\ sorted a i' d2)).
  { destruct (Z.leb_spec 2 (i' - a)); [|apply yields_ret; split; [done|intros p q ???; lia]].
    eapply yields_mono; [apply (shift_left_sorted H _ _ a (i' - 1) i')|].
    1-4: unfold zlen in *; lia.
    - intros Ha. apply Hbd1; lia.
    - split; [|intros; lia]. intros p q ?????. unfold d1. at_simpl. apply Ho; lia.
    - intros d2 [Hs2 Ho2]. split; [|done]. eapply same_trans; [exact Hs1|]. eapply same_widen; [exact Hs2|lia|lia]. }
  intros d2 [Hs2 Ho2]. pose proof (same_zlen _ _ _ _ Hs2). eapply (yields_bind _ _ (fun d3 => same a b d d3 /\ sorted a i' d3)).
  { destruct (Z.leb_spec 2 (b - i')); [|by apply yields_ret]. eapply yields_mono; [apply shift_right_spec; unfold zlen in *; lia|]. intros d3 Hs3. split.
    - eapply same_trans; [exact Hs2|]. eapply same_widen; [exact Hs3|lia|lia].
    - intros p q ???. rewrite !(same_at _ _ _ _ _ Hs3) by lia. apply Ho2; lia. }
  intros d3 [Hs3 Ho3]. pose proof (same_zlen _ _ _ _ Hs3).
  eapply yields_mono; [apply IH; [lia..|apply (bound_same a b d); [lia|lia|done|done]|done]|]. intros [d4 r] [Hs4 Ho4]. split; [by eapply same_trans|done].
Qed.

(** ** Heap sort *)
Definition is_child (p c : Z) : Prop := c = 2 * p + 1 \/ c = 2 * p + 2.
Definition heap (first lo hi : Z) (d : list E) : Prop :=
  forall p c, lo <= p -> is_child p c -> c < hi -> le (at_ d (first + c)) (at_ d (first + p)).
(** Except that [r] may be less than its children. *)
Definition heap_except (first lo hi r : Z) (d : list E) : Prop :=
  (forall p c, lo <= p -> p <> r -> is_child p c -> c < hi -> le (at_ d (first + c)) (at_ d (first + p))) /\
  (forall p c, lo <= p -> is_child p r -> is_child r c -> c < hi -> le (at_ d (first + c)) (at_ d (first + p))).

(** [c] is the greater child of [r]. *)
Definition greater_child (first hi r c : Z) (d : list E) : Prop :=
  is_child r c /\ c < hi /\ forall c', is_child r c' -> c' < hi -> le (at_ d (first + c')) (at_ d (first + c)).

Lemma heap_swap (H : weak_order) first lo hi r c d : 0 <= first -> 0 <= lo <= r -> first + hi <= zlen d -> greater_child first hi r c d ->
  lt (at_ d (first + r)) (at_ d (first + c)) = true -> heap_except first lo hi r d -> heap_except first lo hi c (swp d (first + r) (first + c)).
Proof.
  intros Hf Hlo Hlen (Hc & Hhi & Hg) Hlt [H1 H2]. unfold is_child in *.
  assert (forall k, 0 <= k -> at_ (swp d (first + r) (first + c)) (first + k) = if decide (k = r) then at_ d (first + c) else if decide (k = c) then at_ d (first + r) else at_ d (first + k)) as Hat.
  { intros k Hk. rewrite at_swp by lia. repeat case_decide; subst; try lia; done. }
  split; intros p c' Hp.
  - intros Hpc Hc' Hhi'. unfold is_child in *. rewrite !Hat by lia. repeat case_decide; subst; try lia; first [by apply lt_le|apply Hg; lia|apply (H2 _ c); lia|apply H1; lia].
  - intros Hpc Hc' Hhi'. unfold is_child in *. assert (p = r) as -> by lia. rewrite !Hat by lia. rewrite (decide_True (P := r = r)) by done. rewrite !decide_False by lia. apply H1; lia.
Qed.

Lemma heap_stop (H : weak_order) first lo hi r d : (forall c, is_child r c -> c < hi -> le (at_ d (first + c)) (at_ d (first + r))) ->
  heap_except first lo hi r d -> heap first lo hi d.
Proof. intros Hr [H1 _] p c Hp Hc Hhi. destruct (Z.eq_dec p r) as [->|]; [by apply Hr|by apply H1]. Qed.

Lemma siftDown_loop_spec fuel d lo root hi first : 0 <= first -> 0 <= lo <= root -> root <= zlen d -> first + hi <= zlen d -> zlen d <= 2 ^ 61 -> hi - root <= Z.of_nat fuel ->
  yields (siftDown_loop cmp fuel d root hi first) (fun d' => same (first + lo) (first + hi) d d' /\ (weak_order -> heap_except first lo hi root d -> heap first lo hi d')).
Proof.
  revert d root. induction fuel as [|fuel IH]; intros d root Hfi Hlo Hroot Hlen Hmax Hf; cbn [siftDown_loop]; rewrite int64_id by int_range;
    destruct (Z.leb_spec hi (2 * root + 1)); try lia.
  1,2: apply yields_ret; split; [apply same_refl|intros Hwo; apply (heap_stop Hwo); unfold is_child; lia].
  eapply (yields_bind _ _ (fun right : bool => exists c, (if right then 2 * root + 1 + 1 else 2 * root + 1) = c /\ is_child root c /\ c < hi /\ (weak_order -> greater_child first hi root c d))).
  { destruct (Z.ltb_spec (2 * root + 1 + 1) hi).
    - rewrite less_at by lia. apply yields_ret. eexists. split; [done|].
      replace (first + (2 * root + 1) + 1) with (first + (2 * root + 1 + 1)) by lia.
      destruct (lt (at_ d (first + (2 * root + 1))) (at_ d (first + (2 * root + 1 + 1)))) eqn:Hlt; unfold greater_child, is_child; split_and!; try lia.
      + intros Hwo. split_and!; [lia..|]. intros c' [-> | ->] _; [by apply lt_le|]. replace (2 * root + 2) with (2 * root + 1 + 1) by lia. by apply le_refl.
      + intros Hwo. split_and!; [lia..|]. intros c' [-> | ->] _; [by apply le_refl|]. replace (2 * root + 2) with (2 * root + 1 + 1) by lia. exact Hlt.
    - apply yields_ret. eexists. split; [done|]. unfold greater_child, is_child. split_and!; try lia. intros Hwo. split_and!; [lia..|].
      intros c' [-> | ->] ?; [by apply le_refl|lia]. }
  intros right (c & -> & Hc & Hchi & Hg). unfold is_child in Hc. rewrite less_at, bind_ret by lia.
  destruct (lt (at_ d (first + root)) (at_ d (first + c))) eqn:Hlt; cbn [negb].
  - rewrite swap_at, bind_ret by lia. eapply yields_mono; [apply IH; rewrite ?zlen_swp; lia|]. intros d' [Hs Ho]. split; [eapply same_step; [..|exact Hs]; lia|].
    intros Hwo Hh. apply Ho; [done|]. apply heap_swap; try done; try lia. by apply Hg.
  - apply yields_ret. split; [apply same_refl|]. intros Hwo. apply (heap_stop Hwo). intros c' Hc' Hhi'. destruct (Hg Hwo) as (_ & _ & Hmaxc).
    apply (wo_trans Hwo _ (at_ d (first + c))); [by apply Hmaxc|exact Hlt].
Qed.

Lemma heapify_loop_spec fuel d i hi first : 0 <= first -> i <= zlen d -> first + hi <= zlen d -> zlen d <= 2 ^ 61 -> i < Z.of_nat fuel ->
  yields (heapify_loop cmp fuel d i hi first) (fun d' => same first (first + hi) d d' /\ (weak_order -> heap first (i + 1) hi d -> -1 <= i -> heap first 0 hi d')).
Proof.
  revert d i. induction fuel as [|fuel IH]; intros d i Hfi Hi Hlen Hmax Hf; cbn [heapify_loop]; destruct (Z.leb_spec 0 i); try lia.
  1,3: apply yields_ret; split; [apply same_refl|]; intros _ Hh Hi'; replace (i + 1) with 0 in Hh by lia; done.
  eapply yields_bind; [apply (siftDown_loop_spec _ d i i hi first); unfold zlen in *; lia|]. intros d1 [Hs1 Ho1]. pose proof (same_zlen _ _ _ _ Hs1).
  eapply yields_mono; [apply IH; lia|]. intros d2 [Hs2 Ho2]. split.
  - eapply same_trans; [|exact Hs2]. eapply same_widen; [exact Hs1|lia|lia].
  - intros Hwo Hh Hi'. apply Ho2; [done| |lia]. replace (i - 1 + 1) with i by lia. apply Ho1; [done|]. split; [intros; apply Hh; (done || lia)|].
    unfold is_child. lia.
Qed.

Lemma heap_root (H : weak_order) first hi d k : heap first 0 hi d -> 0 <= k < hi -> le (at_ d (first + k)) (at_ d first).
Proof.
  intros Hh [Hk0 Hk]. revert Hk. refine (Zlt_0_ind (fun k => k < hi -> le (at_ d (first + k)) (at_ d first)) _ k Hk0).
  clear k Hk0. intros k IH Hk0 Hk. destruct (Z.eq_dec k 0) as [->|]; [rewrite Z.add_0_r; by apply le_refl|].
  assert (exists p, is_child p k) as [p Hp].
  { unfold is_child. destruct (Z.Even_or_Odd k) as [[m ->]|[m ->]]; [exists (m - 1)|exists m]; lia. }
  apply (wo_trans H _ (at_ d (first + p))); [apply Hh; [unfold is_child in Hp; lia|done|done]|]. apply IH; unfold is_child in Hp; lia.
Qed.

(** The elements after [i] are in their final places. *)
Definition tail_sorted (first i n : Z) (d : list E) : Prop := forall p q, 0 <= p -> p < q -> q < n -> i < q -> le (at_ d (first + p)) (at_ d (first + q)).

Lemma pop_tail (H : weak_order) first i n d d2 : 0 <= first -> 0 <= i < n -> first + n <= zlen d -> heap first 0 (i + 1) d -> tail_sorted first i n d ->
  same (first + 0) (first + i) (swp d first (first + i)) d2 -> tail_sorted first (i - 1) n d2.
Proof.
  intros Hf Hi Hlen Hh Ht Hs p q Hp Hpq Hq Hiq. rewrite Z.add_0_r in Hs.
  assert (forall P : E -> Prop, (forall k, 0 <= k <= i -> P (at_ d (first + k))) -> p < i -> P (at_ d2 (first + p))) as Hall.
  { intros P HP Hpi. apply (same_all P first (first + i) (swp d first (first + i)) d2); [lia|rewrite zlen_swp; lia|done| |lia].
    intros k Hk. replace k with (first + (k - first)) by lia. at_simpl; apply HP; lia || (replace first with (first + 0) by lia; apply HP; lia). }
  destruct (Z.eq_dec q i) as [->|].
  - rewrite (same_at _ _ _ _ (first + i) Hs) by lia. assert (at_ (swp d first (first + i)) (first + i) = at_ d first) as -> by (at_simpl; f_equal; lia).
    apply (Hall (fun x => le x (at_ d first))); [|lia]. intros k Hk. apply (heap_root H _ (i + 1)); [done|lia].
  - rewrite (same_at _ _ _ _ (first + q) Hs) by lia. assert (at_ (swp d first (first + i)) (first + q) = at_ d (first + q)) as -> by (at_simpl; done).
    destruct (Z_lt_le_dec p i); [apply (Hall (fun x => le x (at_ d (first + q)))); [intros k Hk; apply Ht; lia|lia]|].
    rewrite (same_at _ _ _ _ (first + p) Hs) by lia. at_simpl; first [apply Ht; lia|replace first with (first + 0) at 1 by lia; apply Ht; lia].
Qed.

Lemma pop_heap first i d : 0 <= first -> 0 <= i -> first + i < zlen d -> heap first 0 (i + 1) d -> heap_except first 0 i 0 (swp d first (first + i)).
Proof.
  intros Hf Hi Hlen Hh. unfold heap, is_child in Hh. split; unfold is_child; [|lia]. intros p c Hp Hp0 Hc Hci. at_simpl. apply Hh; lia.
Qed.

Lemma pop_loop_spec fuel d i n first : 0 <= first -> i < n -> first + n <= zlen d -> zlen d <= 2 ^ 61 -> i < Z.of_nat fuel ->
  yields (pop_loop cmp fuel d i 0 first) (fun d' => same first (first + n) d d' /\
    (weak_order -> -1 <= i -> heap first 0 (i + 1) d -> tail_sorted first i n d -> sorted first (first + n) d')).
Proof.
  revert d i. induction fuel as [|fuel IH]; intros d i Hfi Hi Hlen Hmax Hf; cbn [pop_loop]; destruct (Z.leb_spec 0 i); try lia.
  1,3: apply yields_ret; split; [apply same_refl|]; intros _ Hi' _ Ht p q Hp Hpq Hq;
    replace p with (first + (p - first)) by lia; replace q with (first + (q - first)) by lia; apply Ht; lia.
  rewrite swap_at, bind_ret by lia. set (d1 := swp d first (first + i)). assert (zlen d1 = zlen d) as Hl1 by apply zlen_swp.
  eapply yields_bind; [apply (siftDown_loop_spec _ d1 0 0 i first); unfold zlen in *; lia|]. intros d2 [Hs2 Ho2]. pose proof (same_zlen _ _ _ _ Hs2).
  eapply yields_mono; [apply IH; lia|]. intros d3 [Hs3 Ho3]. split.
  - eapply same_trans; [|exact Hs3]. eapply same_step; [..|exact Hs2]; lia.
  - intros Hwo Hi' Hh Ht. apply Ho3; [done|lia| |by apply (pop_tail Hwo first i n d)]. replace (i - 1 + 1) with i by lia. apply Ho2; [done|]. apply pop_heap; (done || lia).
Qed.

Lemma heapSort_spec d a b : 0 <= a < b -> b <= zlen d -> zlen d <= 2 ^ 61 ->
  yields (heapSortCmpFunc cmp d a b) (fun d' => same a b d d' /\ (weak_order -> sorted a b d')).
Proof.
  intros Ha Hb Hmax. unfold heapSortCmpFunc. pose proof (quot_bounds (b - a - 1) 2 ltac:(lia) ltac:(lia)) as Hq.
  eapply yields_bind; [apply (heapify_loop_spec _ d (Z.quot (b - a - 1) 2) (b - a) a); unfold zlen in *; lia|]. intros d1 [Hs1 Ho1]. pose proof (same_zlen _ _ _ _ Hs1).
  eapply yields_mono; [apply (pop_loop_spec _ d1 (b - a - 1) (b - a) a); unfold zlen in *; lia|]. replace (a + (b - a)) with b in * by lia. intros d2 [Hs2 Ho2]. split; [by eapply same_trans|].
  intros Hwo. apply Ho2; [done|lia| |intros p q; lia]. replace (b - a - 1 + 1) with (b - a) by lia. apply Ho1; [done| |lia].
  intros p c Hp Hc Hhi. unfold is_child in Hc. lia.
Qed.

(** ** Quicksort *)
Lemma yields_and {A} (m : go A) (P : Prop) (Q1 Q2 : A -> Prop) : yields m Q1 -> (P -> yields m Q2) -> yields m (fun a => Q1 a /\ (P -> Q2 a)).
Proof. intros (a & Ha & H1) H2. exists a. split_and!; [done..|]. intros HP. destruct (H2 HP) as (a' & Ha' & Hq). congruence. Qed.

Lemma prepare_spec d a b wb wp : 0 <= a -> 12 < b - a -> b <= zlen d -> zlen d <= 2 ^ 61 ->
  yields (prepare cmp d a b wb wp) (fun '(d', pivot, s) => d ≡ₚ d' /\ a <= pivot < b /\
    (weak_order -> bound a b d -> same a b d d' /\ (s = true -> sorted a b d'))).
Proof.
  intros Ha Hl Hb Hmax. unfold prepare. eapply (yields_bind _ _ (same a b d)).
  { destruct wb; cbn [negb]; [apply yields_ret, same_refl|apply breakPatterns_spec; lia]. }
  intros d1 Hs1. pose proof (same_zlen _ _ _ _ Hs1). eapply yields_bind; [apply choosePivot_spec; lia|]. intros [pivot hint] Hp.
  eapply (yields_bind _ _ (fun '(d2, p, _) => same a b d d2 /\ a <= p < b)).
  { destruct hint; [by apply yields_ret|by apply yields_ret|]. eapply yields_bind; [apply reverseRange_spec; lia|]. intros d2 Hs2. apply yields_ret. split; [by eapply same_trans|lia]. }
  intros [[d2 p] h] [Hs2 Hp2]. pose proof (same_zlen _ _ _ _ Hs2).
  eapply (yields_bind _ _ (fun '(d3, s) => d2 ≡ₚ d3 /\ (weak_order -> bound a b d2 -> same a b d2 d3 /\ (s = true -> sorted a b d3)))).
  { destruct (_ && _); [|by apply yields_ret]. eapply yields_mono; [apply (yields_and _ (weak_order /\ bound a b d2)); [apply partialInsertion_perm; lia|]|].
    - intros [Hwo Hbd]. apply (partialInsertion_sorted Hwo); [lia..|done|]. intros p' q ???. lia.
    - intros [d3 s] [Hperm Ho]. split; [done|]. intros Hwo Hbd. by apply Ho. }
  intros [d3 s] [Hperm Ho]. apply yields_ret. split_and!; [etrans; [apply Hs2|done]|lia..|]. intros Hwo Hbd.
  destruct (Ho Hwo) as [Hs3 Hsorted]; [by apply (bound_same a b d)|]. split; [by eapply same_trans|done].
Qed.

Lemma sorted_outside a b a' b' d d' : 0 <= a -> same a' b' d d' -> b <= a' \/ b' <= a -> sorted a b d -> sorted a b d'.
Proof. intros Ha Hs Hout Ho p q ???. rewrite !(same_at _ _ _ _ _ Hs) by lia. by apply Ho. Qed.

(** Two sorted ranges around a pivot. *)
Lemma glue (H : weak_order) a mid b d : (forall k, a <= k < mid -> le (at_ d k) (at_ d mid)) -> (forall k, mid < k < b -> le (at_ d mid) (at_ d k)) ->
  sorted a mid d -> sorted (mid + 1) b d -> sorted a b d.
Proof.
  intros H1 H2 Hs1 Hs2 p q Hp Hpq Hq. destruct (Z_lt_le_dec q mid); [apply Hs1; lia|]. destruct (Z_lt_le_dec mid p); [apply Hs2; lia|].
  destruct (Z.eq_dec p mid) as [->|]; [apply H2; lia|]. destruct (Z.eq_dec q mid) as [->|]; [apply H1; lia|].
  apply (wo_trans H _ (at_ d mid)); [apply H1|apply H2]; lia.
Qed.

(** What sorting the two sides of a partition gives, in either order. *)
Lemma sides_sorted (H : weak_order) a mid b d d' : 0 <= a -> a <= mid < b -> b <= zlen d ->
  (forall k, a <= k < mid -> lt (at_ d k) (at_ d mid) = true) -> (forall k, mid < k < b -> lt (at_ d k) (at_ d mid) = false) ->
  (exists d1, same a mid d d1 /\ same (mid + 1) b d1 d' /\ sorted a mid d1 /\ sorted (mid + 1) b d') \/
  (exists d1, same (mid + 1) b d d1 /\ same a mid d1 d' /\ sorted (mid + 1) b d1 /\ sorted a mid d') ->
  same a b d d' /\ sorted a b d'.
Proof.
  intros Ha Hm Hb H1 H2 [(d1 & Hs1 & Hs2 & Ho1 & Ho2)|(d1 & Hs1 & Hs2 & Ho1 & Ho2)]; pose proof (same_zlen _ _ _ _ Hs1);
    (split; [eapply same_trans; (eapply same_widen; [eassumption|lia|lia])|]);
    (assert (at_ d1 mid = at_ d mid) as E1 by (apply (same_at _ _ _ _ _ Hs1); lia)); (assert (at_ d' mid = at_ d1 mid) as E2 by (apply (same_at _ _ _ _ _ Hs2); lia));
    apply (glue H a mid b); rewrite ?E2, ?E1.
  - intros k Hk. rewrite (same_at _ _ _ _ _ Hs2) by lia. apply (same_all (fun x => le x (at_ d mid)) a mid d d1); [lia..|done| |done]. intros; by apply lt_le, H1.
  - intros k0 Hk0. apply (same_all (fun x => le (at_ d mid) x) (mid + 1) b d1 d'); [lia..|done| |lia]. intros k Hk. rewrite (same_at _ _ _ _ _ Hs1) by lia. apply H2. lia.
  - by apply (sorted_outside _ _ (mid + 1) b d1); [lia|done|lia|].
  - done.
  - apply (same_all (fun x => le x (at_ d mid)) a mid d1 d'); [lia..|done|]. intros k Hk. rewrite (same_at _ _ _ _ _ Hs1) by lia. by apply lt_le, H1.
  - intros k Hk. rewrite (same_at _ _ _ _ _ Hs2) by lia. apply (same_all (fun x => le (at_ d mid) x) (mid + 1) b d d1); [lia..|done| |lia]. intros; apply H2; lia.
  - done.
  - by apply (sorted_outside _ _ a mid d1); [lia|done|lia|].
Qed.

(** Elements that are equal to the pivot, then a sorted range of greater ones. *)
Lemma equal_sorted (H : weak_order) a mid b d d' x : 0 <= a -> a < mid <= b -> b <= zlen d ->
  (forall k, a <= k < mid -> le (at_ d k) x /\ le x (at_ d k)) -> (forall k, mid <= k < b -> lt x (at_ d k) = true) ->
  same mid b d d' -> sorted mid b d' -> sorted a b d'.
Proof.
  intros Ha Hm Hb H1 H2 Hs Ho p q Hp Hpq Hq. destruct (Z_lt_le_dec p mid); [|by apply Ho]. rewrite (same_at _ _ _ _ p Hs) by lia.
  apply (wo_trans H _ x); [apply H1; lia|]. destruct (Z_lt_le_dec q mid); [rewrite (same_at _ _ _ _ q Hs) by lia; apply H1; lia|].
  apply (same_all (fun y => le x y) mid b d d'); [lia..|done| |lia]. intros; by apply lt_le, H2.
Qed.

Definition sorts (a b : Z) (d d' : list E) : Prop := d ≡ₚ d' /\ (weak_order -> bound a b d -> same a b d d' /\ sorted a b d').

Lemma pdqsort_loop_spec fuel d a b limit wb wp : 0 <= a -> b <= zlen d -> zlen d <= 2 ^ 61 -> b - a <= Z.of_nat fuel ->
  yields (pdqsort_loop cmp fuel d a b limit wb wp) (sorts a b d).
Proof.
  revert d a b limit wb wp. induction fuel as [|fuel IH]; intros d a b limit wb wp Ha Hb Hmax Hf; cbn [pdqsort_loop]; unfold maxInsertion;
    destruct (Z.leb_spec (b - a) 12); try lia.
  1,2: eapply yields_mono; [by apply insertionSort_spec|]; intros d' [Hs Ho]; split; [apply Hs|]; intros Hwo _; split; [done|by apply Ho].
  destruct (limit =? 0). { eapply yields_mono; [apply heapSort_spec; lia|]. intros d' [Hs Ho]. split; [apply Hs|]. intros Hwo _. split; [done|by apply Ho]. }
  eapply yields_bind; [apply prepare_spec; lia|]. intros [[d1 pivot] s] (Hp1 & Hpiv & Ho1). pose proof (perm_zlen _ _ Hp1).
  destruct s; [apply yields_ret; split; [done|]; intros Hwo Hbd; destruct (Ho1 Hwo Hbd) as [? Hsorted]; split; [done|by apply Hsorted]|].
  eapply (yields_bind _ _ (fun equal : bool => equal = true -> 0 < a /\ le (at_ d1 pivot) (at_ d1 (a - 1)))).
  { destruct (Z.ltb_spec 0 a); [|by apply yields_ret]. unfold go_not. rewrite less_at, bind_ret by lia. apply yields_ret. intros Hn%negb_true_iff. split; [done|exact Hn]. }
  intros [] Heq.
  - destruct (Heq eq_refl) as [Ha0 Hle]. eapply yields_bind; [apply (partitionEqual_spec d1 a b pivot); lia|]. intros [d2 mid] (Hs2 & Hm & Hat & H1 & H2). pose proof (same_zlen _ _ _ _ Hs2).
    eapply yields_mono; [apply IH; lia|]. intros d3 [Hp3 Ho3]. split; [rewrite Hp1, <- Hp3; apply Hs2|]. intros Hwo Hbd. destruct (Ho1 Hwo Hbd) as [Hs1 _].
    assert (bound a b d1) as Hbd1 by (by apply (bound_same a b d)). assert (bound a b d2) as Hbd2 by (apply (bound_same a b d1); [lia..|done|done]).
    assert (forall k, a <= k < mid -> le (at_ d2 k) (at_ d1 pivot) /\ le (at_ d1 pivot) (at_ d2 k)) as Hall.
    { intros k Hk. split; [destruct (Z.eq_dec k a) as [->|]; [rewrite Hat; by apply le_refl|apply H1; lia]|].
      apply (wo_trans Hwo _ (at_ d1 (a - 1))); [done|]. rewrite <- (same_at _ _ _ _ (a - 1) Hs2) by lia. apply Hbd2; lia. }
    destruct (Ho3 Hwo) as [Hs3 Hsorted].
    { intros _ k Hk. apply (wo_trans Hwo _ (at_ d1 pivot)); [apply Hall; lia|by apply lt_le, H2]. }
    split; [|by apply (equal_sorted Hwo a mid b d2 d3 (at_ d1 pivot)); [lia..|done|done|done|done]].
    eapply same_trans; [exact Hs1|]. eapply same_trans; [exact Hs2|]. eapply same_widen; [exact Hs3|lia|lia].
  - clear Heq. eapply yields_bind; [apply (partition_spec d1 a b pivot); lia|]. intros [[d2 mid] already] (Hs2 & Hm & H1 & H2). pose proof (same_zlen _ _ _ _ Hs2).
    assert (d ≡ₚ d2) as Hp2 by (rewrite Hp1; apply Hs2).
    assert (weak_order -> bound a b d -> same a b d d2 /\ bound a mid d2 /\ bound (mid + 1) b d2) as Hprep.
    { intros Hwo Hbd. destruct (Ho1 Hwo Hbd) as [Hs1 _]. assert (same a b d d2) as Hs by (by eapply same_trans). split; [done|].
      assert (bound a b d2) as Hbd2 by (by apply (bound_same a b d)). split; [intros Ha' k Hk; apply Hbd2; lia|]. intros _ k Hk. rewrite Z.add_simpl_r. apply H2. lia. }
    destruct (mid - a <? b - mid).
    + eapply yields_bind; [apply IH; lia|]. intros d3 [Hp3 Ho3]. pose proof (perm_zlen _ _ Hp3). eapply yields_mono; [apply IH; lia|]. intros d4 [Hp4 Ho4].
      split; [by rewrite Hp2, Hp3|]. intros Hwo Hbd. destruct (Hprep Hwo Hbd) as (Hs & Hbl & Hbr). destruct (Ho3 Hwo Hbl) as [Hs3 Hsort3].
      destruct (Ho4 Hwo) as [Hs4 Hsort4]; [intros _ k Hk; rewrite !(same_at _ _ _ _ _ Hs3) by lia; apply Hbr; lia|].
      destruct (sides_sorted Hwo a mid b d2 d4) as [Hs' Hsorted]; [lia..|done|done|left; by exists d3|]. split; [by eapply same_trans|done].
    + eapply yields_bind; [apply IH; lia|]. intros d3 [Hp3 Ho3]. pose proof (perm_zlen _ _ Hp3). eapply yields_mono; [apply IH; lia|]. intros d4 [Hp4 Ho4].
      split; [by rewrite Hp2, Hp3|]. intros Hwo Hbd. destruct (Hprep Hwo Hbd) as (Hs & Hbl & Hbr). destruct (Ho3 Hwo Hbr) as [Hs3 Hsort3].
      destruct (Ho4 Hwo) as [Hs4 Hsort4]; [intros Ha' k Hk; rewrite !(same_at _ _ _ _ _ Hs3) by lia; apply Hbl; lia|].
      destruct (sides_sorted Hwo a mid b d2 d4) as [Hs' Hsorted]; [lia..|done|done|right; by exists d3|]. split; [by eapply same_trans|done].
Qed.

Lemma isSorted_loop_spec fuel x i : i < zlen x -> i <= Z.of_nat fuel -> (forall k, 0 < k <= i -> le (at_ x (k - 1)) (at_ x k)) -> isSorted_loop cmp fuel x i = Ret true.
Proof.
  revert i. induction fuel as [|fuel IH]; intros i Hi Hf Hs; cbn [isSorted_loop]; destruct (Z.ltb_spec 0 i); try lia; [done| |done].
  rewrite less_at, bind_ret by lia. assert (lt (at_ x i) (at_ x (i - 1)) = false) as -> by (apply Hs; lia). apply IH; [lia..|]. intros; apply Hs; lia.
Qed.
End laws.

Lemma StronglySorted_lookup {A} (R : relation A) (l : list A) :
  (forall (i j : nat) x y, (i < j)%nat -> l !! i = Some x -> l !! j = Some y -> R x y) -> StronglySorted R l.
Proof.
  induction l as [|x l IH]; intros H; constructor; [apply IH; intros i j y z Hij Hy Hz; by apply (H (S i) (S j)); [lia|..]|].
  apply Forall_lookup. intros i y Hy. by apply (H O (S i)); [lia|..].
Qed.

Lemma SortFunc_spec {E} (cmp : E -> E -> Z) (x : list E) : zlen x <= 2 ^ 61 -> exists x', SortFunc cmp x = Ret x' /\ x ≡ₚ x' /\
  (weak_order cmp -> StronglySorted (le cmp) x' /\ IsSortedFunc cmp x' = Ret true).
Proof.
  intros Hlen. destruct x as [|e x]; [exists []; split_and!; [done..|]; intros _; split; [constructor|done]|].
  pose proof (populate e : Inhabited E) as HE. destruct (pdqsort_loop_spec cmp (Z.to_nat (zlen (e :: x) - 0)) (e :: x) 0 (zlen (e :: x)) (Len64 (zlen (e :: x))) true true) as (x' & Ex & Hp & Ho); [lia..|].
  exists x'. split; [exact Ex|]. split; [done|]. intros Hwo. destruct (Ho Hwo ltac:(done)) as [Hs Hsorted]. pose proof (perm_zlen _ _ Hp) as Hl. rewrite <- Hl in Hsorted. split.
  - apply StronglySorted_lookup. intros i j y z Hij Hy Hz. pose proof (lookup_lt_Some _ _ _ Hy). pose proof (lookup_lt_Some _ _ _ Hz).
    rewrite lookup_at in Hy, Hz by done. injection Hy as <-. injection Hz as <-. apply Hsorted; unfold zlen; lia.
  - apply isSorted_loop_spec; [lia|unfold zlen; lia|]. intros k Hk. apply Hsorted; lia.
Qed.

(** C23: [slices.SortFunc] with any comparison function whatever returns a permutation of
    the slice, without a panic or a loop that does not end, although [cmp] need
    not be an order.  If it is a strict weak ordering the result is sorted, as
    [IsSortedFunc] finds; and if in addition it only identifies equal elements,
    the result is the sorted list, which the sets, maps and directory listings of
    this development assume of it. *)
Theorem sort_func_spec {E : Type} (cmp : E -> E -> Z) (x : list E) (Hlen : zlen x <= 2 ^ 61) :
  exists x', SortFunc cmp x = Ret x' /\ x ≡ₚ x' /\
    (weak_order cmp -> StronglySorted (le cmp) x' /\ IsSortedFunc cmp x' = Ret true /\
       forall (R : relation E) `{!RelDecision R}, (forall a b, R a b <-> le cmp a b) -> AntiSymm eq R -> x' = sort_Slice R x).
Proof.
  destruct (SortFunc_spec cmp x Hlen) as (x' & E1 & Hp & Ho). exists x'. split_and!; [done..|]. intros Hwo. destruct (Ho Hwo) as [Hs Hi].
  split_and!; [done..|]. intros R HR Hle Hanti. unfold sort_Slice.
  assert (Transitive R) by (intros y z w; rewrite !Hle; apply (wo_trans cmp Hwo)).
  assert (Total R). { intros y z. rewrite !Hle. unfold le. destruct (lt cmp z y) eqn:Hzy; [right; by apply (wo_asym cmp Hwo)|by left]. }
  apply (StronglySorted_unique R).
  - clear -Hs Hle. induction Hs as [|y l Hl IH Hy]; constructor; [done|]. eapply Forall_impl; [exact Hy|]. intros z. apply Hle.
  - apply StronglySorted_merge_sort; apply _.
  - by rewrite merge_sort_Permutation.
Qed.
Lemma sort_func_spec_witness :
  SortFunc Z.sub [3; 1; 2] = Ret [1; 2; 3] /\ exists x', SortFunc (fun _ _ => -1) (seqZ 0 30) = Ret x' /\ seqZ 0 30 ≡ₚ x'.
Proof.
  split; [vm_compute; reflexivity|]. destruct (sort_func_spec (fun _ _ : Z => -1) (seqZ 0 30)) as (x' & E1 & Hp & _); [vm_compute; discriminate|].
  exists x'. split; assumption.
Defined.
