(* ===== verification/StableSort.v ===== *)
(** * Stable sorting and searching ([go/src/slices/sort.go], [zsortanyfunc.go])

    Insertion sort of blocks of twenty elements, merged in place by SymMerge: a
    binary search finds the parts of two sorted runs that have to change places, a
    rotation by block swaps moves them, and both halves are merged recursively.
    Slices are indexed as in [PdqSort]: indices do not overflow as long as twice the
    length is an [int]; the sizes of the blocks are computed with the width of [int].

    A stable sort is specified by what it does to the elements equivalent to a
    given one: it leaves them as they are, in their order ([stable]).  Together with
    the order of the result this determines it ([sorted_stable_unique]). *)
From stdpp Require Import sorting.
From S2P Require Import Prelude GoSort Strconv PdqSort.
#[local] Open Scope Z_scope.

Section stable_sort.
Context {E : Type} (cmp : E -> E -> Z).

(** [int(uint(i+j) >> 1)] *)
Definition middle (i j : Z) : Z := int64 (Z.shiftr (uint_wrap 64 (int64 (i + j))) 1).
(** [for i < j { h := middle; if p(h) { i = h + 1 } else { j = h } }], the loop of all the searches *)
Fixpoint bisect (fuel : nat) (p : Z -> go bool) (i j : Z) : go Z :=
  if i <? j then
    match fuel with
    | O => OutOfFuel
    | S fuel => let h := middle i j in c ← p h; if (c : bool) then bisect fuel p (h + 1) j else bisect fuel p i h
    end
  else Ret i.

(** ** Rotation *)
Fixpoint swapRange_loop (fuel : nat) (data : list E) (a b n i : Z) : go (list E) :=
  if i <? n then
    match fuel with
    | O => OutOfFuel
    | S fuel => data ← swap data (a + i) (b + i); swapRange_loop fuel data a b n (i + 1)
    end
  else Ret data.
Definition swapRangeCmpFunc (data : list E) (a b n : Z) : go (list E) := swapRange_loop (length data) data a b n 0.
Fixpoint rotate_loop (fuel : nat) (data : list E) (m i j : Z) : go (list E) :=
  if i =? j then swapRangeCmpFunc data (m - i) m i
  else
    match fuel with
    | O => OutOfFuel
    | S fuel =>
        if j <? i then data ← swapRangeCmpFunc data (m - i) m j; rotate_loop fuel data m (i - j) j
        else data ← swapRangeCmpFunc data (m - i) (m + j - i) i; rotate_loop fuel data m i (j - i)
    end.
Definition rotateCmpFunc (data : list E) (a m b : Z) : go (list E) := rotate_loop (length data) data m (m - a) (b - m).

(** ** SymMerge *)

(** [for k := a; k < hi; k++ { swap(k, k+1) }] and [for k := m; k > i; k-- { swap(k, k-1) }] *)
Fixpoint bubble_up (fuel : nat) (data : list E) (k hi : Z) : go (list E) :=
  if k <? hi then
    match fuel with
    | O => OutOfFuel
    | S fuel => data ← swap data k (k + 1); bubble_up fuel data (k + 1) hi
    end
  else Ret data.
Fixpoint bubble_down (fuel : nat) (data : list E) (k i : Z) : go (list E) :=
  if i <? k then
    match fuel with
    | O => OutOfFuel
    | S fuel => data ← swap data k (k - 1); bubble_down fuel data (k - 1) i
    end
  else Ret data.
(** The insertion of the only element of the left or of the right run. *)
Definition insert_left (data : list E) (a m b : Z) : go (list E) :=
  i ← bisect (length data) (fun h => less cmp data h a) m b;
  bubble_up (length data) data a (i - 1).
Definition insert_right (data : list E) (a m : Z) : go (list E) :=
  i ← bisect (length data) (fun h => go_not (less cmp data m h)) a m;
  bubble_down (length data) data m i.
(** The search of the symmetric decomposition: the start and the end of what is rotated, and the data after it. *)
Definition decompose (data : list E) (a m b : Z) : go (list E * Z * Z * Z) :=
  let mid := middle a b in
  let n := mid + m in
  let '(start, r) := if mid <? m then (n - b, mid) else (a, m) in
  let p := n - 1 in
  start ← bisect (length data) (fun c => go_not (less cmp data (p - c) c)) start r;
  let end_ := n - start in
  data ← (if (start <? m) && (m <? end_) then rotateCmpFunc data start m end_ else Ret data);
  Ret (data, start, mid, end_).
(** One unit of fuel for each level of the recursion. *)
Fixpoint symMerge_loop (fuel : nat) (data : list E) (a m b : Z) : go (list E) :=
  match fuel with
  | O => OutOfFuel
  | S fuel =>
      if m - a =? 1 then insert_left data a m b
      else if b - m =? 1 then insert_right data a m
      else
        '(data, start, mid, end_) ← decompose data a m b;
        data ← (if (a <? start) && (start <? mid) then symMerge_loop fuel data a start mid else Ret data);
        if (mid <? end_) && (end_ <? b) then symMerge_loop fuel data mid end_ b else Ret data
  end.
Definition symMergeCmpFunc (data : list E) (a m b : Z) : go (list E) := symMerge_loop (length data) data a m b.

(** ** The sort *)
Fixpoint blocks_loop (fuel : nat) (data : list E) (n blockSize a b : Z) : go (list E) :=
  if b <=? n then
    match fuel with
    | O => OutOfFuel
    | S fuel => data ← insertionSortCmpFunc cmp data a b; blocks_loop fuel data n blockSize b (b + blockSize)
    end
  else insertionSortCmpFunc cmp data a n.
Fixpoint merge_pass (fuel : nat) (data : list E) (n blockSize a b : Z) : go (list E) :=
  if b <=? n then
    match fuel with
    | O => OutOfFuel
    | S fuel =>
        data ← symMergeCmpFunc data a (a + blockSize) b;
        merge_pass fuel data n blockSize b (int64 (b + int64 (2 * blockSize)))
    end
  else
    let m := a + blockSize in
    if m <? n then symMergeCmpFunc data a m n else Ret data.
Fixpoint passes_loop (fuel : nat) (data : list E) (n blockSize : Z) : go (list E) :=
  if blockSize <? n then
    match fuel with
    | O => OutOfFuel
    | S fuel =>
        data ← merge_pass (length data) data n blockSize 0 (int64 (2 * blockSize));
        passes_loop fuel data n (int64 (blockSize * 2))
    end
  else Ret data.
Definition stableBlock : Z := 20.
Definition stableCmpFunc (data : list E) (n : Z) : go (list E) :=
  data ← blocks_loop (length data) data n stableBlock 0 stableBlock;
  passes_loop (length data) data n stableBlock.
Definition SortStableFunc (x : list E) : go (list E) := stableCmpFunc x (zlen x).

(** ** Searching and extremes *)
Fixpoint extreme_loop (fuel : nat) (better : E -> E -> bool) (x : list E) (i : Z) (m : E) : go E :=
  if i <? zlen x then
    match fuel with
    | O => OutOfFuel
    | S fuel => y ← index x i; extreme_loop fuel better x (i + 1) (if better y m then y else m)
    end
  else Ret m.
Definition MinFunc (x : list E) : go E :=
  if zlen x <? 1 then Panic ExplicitPanic else m ← index x 0; extreme_loop (length x) (fun y m => cmp y m <? 0) x 1 m.
Definition MaxFunc (x : list E) : go E :=
  if zlen x <? 1 then Panic ExplicitPanic else m ← index x 0; extreme_loop (length x) (fun y m => 0 <? cmp y m) x 1 m.
End stable_sort.
Definition BinarySearchFunc {E T : Type} (x : list E) (target : T) (cmp : E -> T -> Z) : go (Z * bool) :=
  i ← bisect (length x) (fun h => y ← index x h; Ret (cmp y target <? 0)) 0 (zlen x);
  found ← (if i <? zlen x then y ← index x i; Ret (cmp y target =? 0) else Ret false);
  Ret (i, found).

(** The reference: an element is inserted before the first that is not less. *)
Section reference.
Context {E : Type} (cmp : E -> E -> Z).
Fixpoint stable_insert (x : E) (l : list E) : list E :=
  match l with
  | [] => [x]
  | y :: l' => if lt cmp y x then y :: stable_insert x l' else x :: l
  end.
Definition stable_sort (l : list E) : list E := foldr stable_insert [] l.
(** Neither comes before the other. *)
Definition equivalent (x y : E) : bool := negb (lt cmp x y) && negb (lt cmp y x).
(** The elements equivalent to any given one are the same, in the same order. *)
Definition stable (l l' : list E) : Prop := forall x, List.filter (equivalent x) l' = List.filter (equivalent x) l.
End reference.

#[local] Notation keyed n q := (List.map (fun k => ((Z.of_nat k * 7919 + 13) mod q, Z.of_nat k)) (List.seq 0 n)) (only parsing).
#[local] Notation by_key := (fun x y : Z * Z => fst x - fst y) (only parsing).
Example stable_samples :
  forallb (fun n => match SortStableFunc by_key (keyed n 17) with Ret l => bool_decide (l = stable_sort by_key (keyed n 17)) | _ => false end)
    [0; 1; 2; 19; 20; 21; 40; 41; 60; 61; 75; 100; 137]%nat = true /\
  rotateCmpFunc (seqZ 0 10) 2 5 9 = Ret [0; 1; 5; 6; 7; 8; 2; 3; 4; 9] /\
  MinFunc by_key [(2, 0); (1, 1); (1, 2)] = Ret (1, 1) /\ MaxFunc by_key [(1, 0); (2, 1); (2, 2)] = Ret (2, 1) /\ MinFunc by_key [] = Panic ExplicitPanic /\
  BinarySearchFunc [1; 3; 5] 4 Z.sub = Ret (2, false) /\ BinarySearchFunc [1; 3; 5] 5 Z.sub = Ret (2, true).
Proof. vm_compute. done. Qed.

Section laws.
Context {E : Type} `{!Inhabited E} (cmp : E -> E -> Z).
#[local] Notation le := (le cmp).
#[local] Notation lt := (lt cmp).
#[local] Notation weak_order := (weak_order cmp).
#[local] Notation sorted := (sorted cmp).
#[local] Notation stable := (stable cmp).

(** ** Searching by halves *)
Lemma middle_spec i j : 0 <= i < j -> j <= MaxInt -> i <= middle i j < j /\ 2 * middle i j <= i + j <= 2 * middle i j + 1.
Proof.
  intros Hi Hj. unfold middle. rewrite Search_mid by done. pose proof (Z.div_mod (i + j) 2). pose proof (Z.mod_pos_bound (i + j) 2). lia.
Qed.

Lemma bisect_spec fuel p (f : Z -> bool) lo i j hi : 0 <= lo <= i -> i <= j -> j <= hi -> hi <= MaxInt -> j - i <= Z.of_nat fuel ->
  (forall k, lo <= k < hi -> p k = Ret (f k)) -> (lo < i -> f (i - 1) = true) -> (j < hi -> f j = false) ->
  yields (bisect fuel p i j) (fun r => i <= r <= j /\ (lo < r -> f (r - 1) = true) /\ (r < hi -> f r = false)).
Proof.
  revert i j. induction fuel as [|fuel IH]; intros i j Hi Hij Hj Hm Hf Hp Hlo Hhi; cbn [bisect]; destruct (Z.ltb_spec i j); try lia.
  1,3: assert (i = j) as <- by lia; by apply yields_ret.
  destruct (middle_spec i j) as [Hh _]; [lia..|]. set (h := middle i j) in *. clearbody h. rewrite Hp, bind_ret by lia. destruct (f h) eqn:Eh.
  - eapply yields_mono; [apply IH; try (done || lia)|].
    + intros _. by replace (h + 1 - 1) with h by lia.
    + intros r (? & ? & ?). split_and!; (done || lia).
  - eapply yields_mono; [apply IH; try (done || lia)|]. intros r (? & ? & ?). split_and!; (done || lia).
Qed.

(** ** Lists by their elements *)
Lemma at_ext (d d' : list E) : zlen d' = zlen d -> (forall k, 0 <= k < zlen d' -> at_ d' k = at_ d k) -> d' = d.
Proof.
  intros Hl H. unfold zlen in *. apply list_eq. intros i. destruct (decide (i < length d)%nat); [|by rewrite !lookup_ge_None_2 by lia].
  rewrite !lookup_at by lia. f_equal. apply H. lia.
Qed.
Lemma at_app (l1 l2 : list E) k : 0 <= k -> at_ (l1 ++ l2) k = if decide (k < zlen l1) then at_ l1 k else at_ l2 (k - zlen l1).
Proof.
  intros Hk. unfold at_, zlen. case_decide; [apply lookup_total_app_l; lia|]. rewrite lookup_total_app_r by lia. f_equal. lia.
Qed.
Lemma at_slice (d : list E) (n m : Z) k : 0 <= n -> 0 <= k < m -> at_ (take (Z.to_nat m) (drop (Z.to_nat n) d)) k = at_ d (n + k).
Proof.
  intros Hn Hk. unfold at_. rewrite lookup_total_take_lt, lookup_total_drop by lia. f_equal. lia.
Qed.

(** ** Rotation *)

(** Where the element that ends up at [k] comes from. *)
Definition exch (a b n k : Z) : Z := if decide (a <= k < a + n) then k - a + b else if decide (b <= k < b + n) then k - b + a else k.
Definition rot (a m b k : Z) : Z := if decide (a <= k < a + (b - m)) then k - a + m else if decide (a + (b - m) <= k < b) then k - (b - m) else k.
Definition moved (f : Z -> Z) (d d' : list E) : Prop := zlen d' = zlen d /\ forall k, 0 <= k -> at_ d' k = at_ d (f k).

Lemma moved_trans f g h d d1 d2 : moved f d d1 -> moved g d1 d2 -> (forall k, 0 <= k -> 0 <= g k /\ f (g k) = h k) -> moved h d d2.
Proof. intros [L1 H1] [L2 H2] H. split; [by rewrite L2|]. intros k Hk. destruct (H k Hk) as [Hg <-]. by rewrite H2, H1. Qed.
Lemma moved_id f d : (forall k, 0 <= k -> f k = k) -> moved f d d.
Proof. intros H. split; [done|]. intros k Hk. by rewrite H. Qed.
Lemma moved_swp d i j : 0 <= i < zlen d -> 0 <= j < zlen d -> moved (exch i j 1) d (swp d i j).
Proof.
  intros Hi Hj. split; [apply zlen_swp|]. intros k Hk. rewrite at_swp by done. unfold exch. repeat case_decide; subst; try lia; f_equal; lia.
Qed.
#[local] Ltac places :=
  intros; unfold exch, rot;
  repeat match goal with |- context [decide ?P] => lazymatch P with context [decide _] => fail | _ => destruct (decide P) end end; lia.

Lemma swapRange_loop_spec fuel d a b n i : 0 <= a -> 0 <= i <= n -> a + n <= b -> b + n <= zlen d -> n - i <= Z.of_nat fuel ->
  yields (swapRange_loop fuel d a b n i) (moved (exch (a + i) (b + i) (n - i)) d).
Proof.
  revert d i. induction fuel as [|fuel IH]; intros d i Ha Hi Hb Hl Hf; cbn [swapRange_loop]; destruct (Z.ltb_spec i n); try lia.
  1,3: apply yields_ret, moved_id; places.
  rewrite swap_at, bind_ret by lia. eapply yields_mono; [apply IH; rewrite ?zlen_swp; lia|]. intros d' Hm.
  eapply moved_trans; [apply (moved_swp d (a + i) (b + i)); lia|exact Hm|]. places.
Qed.
Lemma swapRange_spec d a b n : 0 <= a -> 0 <= n -> a + n <= b -> b + n <= zlen d -> yields (swapRangeCmpFunc d a b n) (moved (exch a b n) d).
Proof.
  intros. eapply yields_mono; [apply swapRange_loop_spec; unfold zlen in *; lia|]. by rewrite !Z.add_0_r, Z.sub_0_r.
Qed.

Lemma rotate_loop_spec fuel d m i j : 0 < i -> 0 < j -> i <= m -> m + j <= zlen d -> i + j <= Z.of_nat fuel + 2 ->
  yields (rotate_loop fuel d m i j) (moved (rot (m - i) m (m + j)) d).
Proof.
  revert d i j. induction fuel as [|fuel IH]; intros d i j Hi Hj Hm Hl Hf; cbn [rotate_loop]; destruct (Z.eqb_spec i j); try lia.
  1,2: subst j; eapply yields_mono; [apply swapRange_spec; lia|]; intros d' [Hz Hd]; split; [done|]; intros k Hk; rewrite Hd by done; f_equal; places.
  destruct (Z.ltb_spec j i).
  - eapply yields_bind; [apply swapRange_spec; lia|]. intros d1 H1. pose proof (proj1 H1) as Hz.
    eapply yields_mono; [apply IH; rewrite ?Hz; lia|]. intros d2 H2. eapply moved_trans; [exact H1|exact H2|]. places.
  - eapply yields_bind; [apply swapRange_spec; lia|]. intros d1 H1. pose proof (proj1 H1) as Hz.
    eapply yields_mono; [apply IH; rewrite ?Hz; lia|]. intros d2 H2. eapply moved_trans; [exact H1|exact H2|]. places.
Qed.
Lemma rotate_spec d a m b : 0 <= a -> a < m -> m < b -> b <= zlen d -> yields (rotateCmpFunc d a m b) (moved (rot a m b) d).
Proof.
  intros. eapply yields_mono; [apply rotate_loop_spec; unfold zlen in *; lia|]. intros d'.
  by replace (m - (m - a)) with a by lia; replace (m + (b - m)) with b by lia.
Qed.

(** A rotation exchanges two adjacent parts of the list. *)
Lemma rot_parts a m b d d' : 0 <= a -> a <= m -> m <= b -> b <= zlen d -> moved (rot a m b) d d' ->
  exists pre u v post, d = pre ++ u ++ v ++ post /\ d' = pre ++ v ++ u ++ post /\ zlen pre = a /\ zlen u = m - a /\ zlen v = b - m.
Proof.
  intros Ha Hm Hb Hl [Hz Hd]. set (part n k := take (Z.to_nat k) (drop (Z.to_nat n) d)).
  assert (forall n k, 0 <= n -> 0 <= k -> n + k <= zlen d -> zlen (part n k) = k) as Hlen.
  { intros. unfold part, zlen in *. rewrite length_take, length_drop. lia. }
  exists (part 0 a), (part a (m - a)), (part m (b - m)), (part b (zlen d - b)).
  split_and!; [apply at_ext; rewrite ?zlen_app, ?Hlen by lia; [lia|]|apply at_ext; rewrite ?zlen_app, ?Hlen by lia; [lia|]|apply Hlen; lia..].
  - intros k Hk. repeat (rewrite at_app by lia; rewrite Hlen by lia; case_decide). all: unfold part; rewrite at_slice by lia; f_equal; lia.
  - intros k Hk. rewrite Hd by lia. repeat (rewrite at_app by lia; rewrite Hlen by lia; case_decide). all: unfold part; rewrite at_slice by lia; f_equal; places.
Qed.

Lemma rot_same a m b d d' : 0 <= a -> a <= m -> m <= b -> b <= zlen d -> moved (rot a m b) d d' -> same a b d d'.
Proof.
  intros Ha Hm Hb Hl H. split.
  - destruct (rot_parts a m b d d') as (pre & u & v & post & -> & -> & _); [done..|]. apply Permutation_app_head. rewrite !app_assoc.
    apply Permutation_app_tail, Permutation_app_comm.
  - intros k Hk Hout. rewrite (proj2 H) by done. f_equal. places.
Qed.

(** ** Stability *)
Lemma stable_refl d : stable d d.
Proof. done. Qed.
Lemma stable_trans d1 d2 d3 : stable d1 d2 -> stable d2 d3 -> stable d1 d3.
Proof. intros H1 H2 x. by rewrite H2. Qed.

Lemma lt_irrefl (H : weak_order) x : lt x x = false.
Proof. exact (le_refl cmp H x). Qed.
Lemma le_lt_trans (H : weak_order) x y z : le x y -> lt y z = true -> lt x z = true.
Proof.
  intros Hxy Hyz. destruct (lt x z) eqn:Hxz; [done|]. assert (le z y) as Hzy by (by apply (wo_trans _ H _ x)). unfold PdqSort.le in Hzy. congruence.
Qed.
Lemma lt_le_trans (H : weak_order) x y z : lt x y = true -> le y z -> lt x z = true.
Proof.
  intros Hxy Hyz. destruct (lt x z) eqn:Hxz; [done|]. assert (le y x) as Hyx by (by apply (wo_trans _ H _ z)). unfold PdqSort.le in Hyx. congruence.
Qed.

Lemma equivalent_spec x y : equivalent cmp x y = true <-> le x y /\ le y x.
Proof. unfold equivalent, PdqSort.le. rewrite andb_true_iff, !negb_true_iff. tauto. Qed.

Lemma filter_none (f : E -> bool) l : (forall x, x ∈ l -> f x = false) -> List.filter f l = [].
Proof.
  induction l as [|x l IH]; intros H; [done|]. cbn. rewrite H by apply list_elem_of_here. apply IH. intros y Hy. apply H. by apply list_elem_of_further.
Qed.
Lemma elem_part (pre l post : list E) x : x ∈ l -> exists k, zlen pre <= k < zlen pre + zlen l /\ x = at_ (pre ++ l ++ post) k.
Proof.
  intros [i Hi]%list_elem_of_lookup. pose proof (lookup_lt_Some _ _ _ Hi). exists (zlen pre + Z.of_nat i). split; [unfold zlen; lia|].
  rewrite at_app, decide_False by (unfold zlen; lia). replace (zlen pre + Z.of_nat i - zlen pre) with (Z.of_nat i) by lia.
  rewrite at_app, decide_True by (unfold zlen; lia). rewrite lookup_at in Hi by done. by injection Hi.
Qed.

(** Exchanging two parts is stable when everything in one is strictly below everything in the other. *)
Lemma rot_stable (H : weak_order) a m b d d' : 0 <= a -> a <= m -> m <= b -> b <= zlen d -> moved (rot a m b) d d' ->
  (forall i j, a <= i < m -> m <= j < b -> lt (at_ d j) (at_ d i) = true) -> stable d d'.
Proof.
  intros Ha Hm Hb Hl Hd Hlt x. destruct (rot_parts a m b d d') as (pre & u & v & post & -> & -> & H1 & H2 & H3); [done..|].
  rewrite !List.filter_app. f_equal. rewrite !app_assoc. f_equal.
  assert (forall y z, y ∈ u -> z ∈ v -> lt z y = true) as Hyz.
  { intros y z (i & Hi & ->)%(elem_part pre u (v ++ post)) (j & Hj & ->)%(elem_part (pre ++ u) v post). rewrite <- app_assoc, zlen_app in *. apply Hlt; lia. }
  destruct (decide (Exists (fun y => equivalent cmp x y = true) u)) as [(y & Hy & [Hxy Hyx]%equivalent_spec)%Exists_exists|Hnone].
  - rewrite (filter_none _ v), app_nil_r; [done|]. intros z Hz. apply not_true_iff_false. intros [Hxz Hzx]%equivalent_spec.
    pose proof (Hyz y z Hy Hz) as Hzy. assert (le y z) as Hyz' by (by apply (wo_trans _ H _ x)). unfold PdqSort.le in Hyz'. congruence.
  - rewrite (filter_none _ u), app_nil_r; [done|]. intros y Hy. apply not_true_iff_false. intros Hxy. apply Hnone, Exists_exists. by exists y.
Qed.

(** ** The reference *)
Lemma stable_insert_perm x l : stable_insert cmp x l ≡ₚ x :: l.
Proof. induction l as [|y l IH]; cbn; [done|]. destruct (lt y x); [|done]. rewrite IH. apply Permutation_swap. Qed.
Lemma stable_insert_sorted (H : weak_order) x l : StronglySorted le l -> StronglySorted le (stable_insert cmp x l).
Proof.
  induction 1 as [|y l Hl IH Hy]; cbn; [by repeat constructor|]. destruct (lt y x) eqn:Hyx.
  - constructor; [done|]. rewrite stable_insert_perm. constructor; [by apply lt_le|done].
  - constructor; [by constructor|]. constructor; [done|]. eapply Forall_impl; [exact Hy|]. intros z. by apply (wo_trans _ H).
Qed.
Lemma stable_insert_stable (H : weak_order) x l : stable (x :: l) (stable_insert cmp x l).
Proof.
  intros z. induction l as [|y l IH]; [done|]. cbn [stable_insert]. destruct (lt y x) eqn:Hyx; [|done]. cbn [List.filter] in *. rewrite IH.
  destruct (equivalent cmp z x) eqn:Hx, (equivalent cmp z y) eqn:Hy; try done. apply equivalent_spec in Hx as [_ Hxz], Hy as [Hzy _].
  assert (le x y) as Hxy by (by apply (wo_trans _ H _ z)). unfold PdqSort.le in Hxy. congruence.
Qed.
Lemma stable_sort_sorted (H : weak_order) l : StronglySorted le (stable_sort cmp l).
Proof. induction l as [|x l IH]; cbn; [constructor|by apply stable_insert_sorted]. Qed.
Lemma stable_sort_stable (H : weak_order) l : stable l (stable_sort cmp l).
Proof.
  induction l as [|x l IH]; [done|]. change (stable_sort cmp (x :: l)) with (stable_insert cmp x (stable_sort cmp l)).
  eapply stable_trans; [|by apply stable_insert_stable]. intros z. cbn [List.filter]. by rewrite (IH z).
Qed.

Lemma stable_elem (H : weak_order) l l' x : stable l l' -> x ∈ l' -> x ∈ l.
Proof.
  intros Hs Hx. apply list_elem_of_In. apply (List.filter_In (equivalent cmp x)). rewrite <- Hs. apply List.filter_In. split; [by apply list_elem_of_In|].
  apply equivalent_spec. by split; apply le_refl.
Qed.
(** Two sorted lists that agree on the elements equivalent to any given one are equal. *)
Lemma sorted_stable_unique (H : weak_order) l l' : StronglySorted le l -> StronglySorted le l' -> stable l l' -> l' = l.
Proof.
  intros Hl. revert l'. induction Hl as [|x l Hl IH Hx]; intros l' Hl' Hs.
  { destruct l' as [|y l']; [done|]. pose proof (stable_elem H _ _ y Hs (list_elem_of_here _ _)) as Hy. by apply elem_of_nil in Hy. }
  destruct Hl' as [|y l' Hl' Hy].
  { assert (stable [] (x :: l)) as Hs' by (intros z; by rewrite Hs). pose proof (stable_elem H _ _ x Hs' (list_elem_of_here _ _)) as Hin. by apply elem_of_nil in Hin. }
  assert (stable (y :: l') (x :: l)) as Hs' by (intros z; by rewrite Hs).
  assert (le x y) as Hxy.
  { pose proof (stable_elem H _ _ y Hs (list_elem_of_here _ _)) as [->|Hin]%elem_of_cons; [by apply le_refl|]. rewrite Forall_forall in Hx. by apply Hx. }
  assert (le y x) as Hyx.
  { pose proof (stable_elem H _ _ x Hs' (list_elem_of_here _ _)) as [->|Hin]%elem_of_cons; [by apply le_refl|]. rewrite Forall_forall in Hy. by apply Hy. }
  assert (y = x) as ->.
  { pose proof (Hs x) as Hf. cbn [List.filter] in Hf. rewrite (proj2 (equivalent_spec x y) (conj Hxy Hyx)) in Hf.
    rewrite (proj2 (equivalent_spec x x) (conj (le_refl _ H x) (le_refl _ H x))) in Hf. by injection Hf. }
  f_equal. apply IH; [done|]. intros z. pose proof (Hs z) as Hf. cbn [List.filter] in Hf. destruct (equivalent cmp z x); [by injection Hf|done].
Qed.

(** ** Insertion *)

(** What an operation that orders [a, b) in place does, whatever the comparison, and when it is an order. *)
Definition ordered (a b : Z) (d d' : list E) : Prop := same a b d d' /\ (weak_order -> sorted a b d' /\ stable d d').

Lemma swp_stable (H : weak_order) d j : 0 < j < zlen d -> lt (at_ d j) (at_ d (j - 1)) = true -> stable d (swp d j (j - 1)).
Proof.
  intros Hj Hlt. apply (rot_stable H (j - 1) j (j + 1)); [lia..| |].
  - eapply moved_trans; [apply (moved_swp d j (j - 1)); lia|apply (moved_id (fun k => k)); done|]. places.
  - intros p q Hp Hq. replace q with j by lia. by replace p with (j - 1) by lia.
Qed.
Lemma insert_loop_stable (H : weak_order) fuel d a j d' : 0 <= a -> j < zlen d -> insert_loop cmp fuel d a j = Ret d' -> stable d d'.
Proof.
  revert d j. induction fuel as [|fuel IH]; intros d j Ha Hj; cbn [insert_loop]; destruct (Z.ltb_spec a j).
  1: by intros [=]. 1,3: by intros [= ->].
  rewrite less_at, bind_ret by lia. destruct (lt (at_ d j) (at_ d (j - 1))) eqn:Hlt; [|by intros [= ->]].
  rewrite swap_at, bind_ret by lia. intros Hr. eapply stable_trans; [apply (swp_stable H d j); [lia|done]|]. eapply IH; [..|exact Hr]; rewrite ?zlen_swp; lia.
Qed.
Lemma insertion_loop_stable (H : weak_order) fuel d a b i d' : 0 <= a < i -> b <= zlen d -> insertion_loop cmp fuel d a b i = Ret d' -> stable d d'.
Proof.
  revert d i. induction fuel as [|fuel IH]; intros d i Hi Hb; cbn [insertion_loop]; destruct (Z.ltb_spec i b).
  1: by intros [=]. 1,3: by intros [= ->].
  destruct (insert_loop_spec cmp (length d) d a i (i + 1)) as (d1 & E1 & Hs & _); [unfold zlen in *; lia..|]. rewrite E1, bind_ret. intros Hr.
  apply (stable_trans _ d1); [eapply (insert_loop_stable H); [..|exact E1]; lia|]. eapply IH; [..|exact Hr]; [lia|]. by rewrite (same_zlen _ _ _ _ Hs).
Qed.
Lemma insertionSort_ordered d a b : 0 <= a -> b <= zlen d -> yields (insertionSortCmpFunc cmp d a b) (ordered a b d).
Proof.
  intros Ha Hb. destruct (insertionSort_spec cmp d a b Ha Hb) as (d' & E1 & Hs & Ho). exists d'. split; [done|]. split; [done|]. intros H. split; [by apply Ho|].
  eapply (insertion_loop_stable H); [..|exact E1]; lia.
Qed.

(** ** Merging by a rotation *)
Lemma sorted_mono a b a' b' d : sorted a b d -> a <= a' -> b' <= b -> sorted a' b' d.
Proof. intros Hs Ha Hb p q ???. apply Hs; lia. Qed.
Lemma sorted_le (H : weak_order) a b d p q : sorted a b d -> a <= p -> p <= q -> q < b -> le (at_ d p) (at_ d q).
Proof. intros Hs Hp Hpq Hq. destruct (Z.eq_dec p q) as [->|]; [by apply le_refl|apply Hs; lia]. Qed.
Lemma sorted_moved f a b c d d' : 0 <= a -> moved f d d' -> sorted (a + c) (b + c) d -> (forall k, a <= k < b -> f k = k + c) -> sorted a b d'.
Proof. intros Ha [_ Hd] Hs Hf p q Hp Hpq Hq. rewrite !Hd, !Hf by lia. apply Hs; lia. Qed.
Definition cross (a mid b : Z) (d : list E) : Prop := forall p q, a <= p < mid -> mid <= q < b -> le (at_ d p) (at_ d q).
Lemma sorted_cross a mid b d : sorted a mid d -> sorted mid b d -> cross a mid b d -> sorted a b d.
Proof.
  intros H1 H2 Hc p q Hp Hpq Hq. destruct (Z_lt_le_dec q mid); [apply H1; lia|]. destruct (Z_lt_le_dec p mid); [apply Hc; lia|apply H2; lia].
Qed.
Lemma sorted_join (H : weak_order) a mid b d : sorted a mid d -> sorted mid b d -> (a < mid -> mid < b -> le (at_ d (mid - 1)) (at_ d mid)) -> sorted a b d.
Proof.
  intros H1 H2 Hm. apply (sorted_cross _ mid); [done..|]. intros p q Hp Hq. apply (wo_trans _ H _ (at_ d (mid - 1))); [by apply (sorted_le H a mid); [|lia..]|].
  apply (wo_trans _ H _ (at_ d mid)); [apply Hm; lia|by apply (sorted_le H mid b); [|lia..]].
Qed.

(** Two sorted runs [a, m) and [m, b), of which [s, m) is above [m, e), and [a, s) below [e, b),
    once the middle parts have changed places. *)
Record halves (a s mid e b : Z) (d : list E) : Prop := {
  h_cross : cross a mid b d; h_1 : sorted a s d; h_2 : sorted s mid d; h_3 : sorted mid e d; h_4 : sorted e b d }.
Lemma rot_halves (H : weak_order) a s m e b d d' : 0 <= a -> a <= s -> s <= m -> m <= e -> e <= b -> b <= zlen d -> moved (rot s m e) d d' ->
  sorted a m d -> sorted m b d -> (s < m -> m < e -> lt (at_ d (e - 1)) (at_ d s) = true) -> (a < s -> e < b -> le (at_ d (s - 1)) (at_ d e)) ->
  stable d d' /\ halves a s (s + (e - m)) e b d'.
Proof.
  intros Ha Hs Hm He Hb Hl Hd S1 S2 Hlt Hle. split.
  { apply (rot_stable H s m e); [lia..|done|]. intros i j Hi Hj. eapply le_lt_trans; [done|by apply (sorted_le H m b _ j (e - 1)); [|lia..]|].
    eapply lt_le_trans; [done|apply Hlt; lia|]. by apply (sorted_le H a m); [|lia..]. }
  constructor.
  - intros p q Hp Hq. rewrite !(proj2 Hd) by lia.
    assert ((a <= rot s m e p < s \/ m <= rot s m e p < e) /\ (s <= rot s m e q < m \/ e <= rot s m e q < b)) as [Hp' Hq'] by (clear -Hp Hq Hs Hm He; places).
    revert Hp' Hq'. generalize (rot s m e p) as p', (rot s m e q) as q'. intros p' q' [Hp'|Hp'] [Hq'|Hq'].
    + apply S1; lia.
    + apply (wo_trans _ H _ (at_ d (s - 1))); [by apply (sorted_le H a m); [|lia..]|]. apply (wo_trans _ H _ (at_ d e)); [apply Hle; lia|by apply (sorted_le H m b); [|lia..]].
    + apply lt_le; [done|]. eapply le_lt_trans; [done|by apply (sorted_le H m b _ _ (e - 1)); [|lia..]|]. eapply lt_le_trans; [done|apply Hlt; lia|].
      by apply (sorted_le H a m); [|lia..].
    + apply S2; lia.
  - eapply (sorted_moved _ _ _ 0); [lia|exact Hd| |]; [by apply (sorted_mono a m); [|lia..]|]. clear -Hs Hm He. places.
  - eapply (sorted_moved _ _ _ (m - s)); [lia|exact Hd| |]; [by apply (sorted_mono m b); [|lia..]|]. clear -Hs Hm He. places.
  - eapply (sorted_moved _ _ _ (m - e)); [lia|exact Hd| |]; [by apply (sorted_mono a m); [|lia..]|]. clear -Hs Hm He. places.
  - eapply (sorted_moved _ _ _ 0); [lia|exact Hd| |]; [by apply (sorted_mono m b); [|lia..]|]. clear -Hs Hm He. places.
Qed.

(** ** SymMerge *)
Definition merged (a m b : Z) (d d' : list E) : Prop :=
  same a b d d' /\ (weak_order -> sorted a m d -> sorted m b d -> sorted a b d' /\ stable d d').

Lemma bubble_up_spec fuel d k hi : 0 <= k <= hi -> hi < zlen d -> hi - k <= Z.of_nat fuel -> yields (bubble_up fuel d k hi) (moved (rot k (k + 1) (hi + 1)) d).
Proof.
  revert d k. induction fuel as [|fuel IH]; intros d k Hk Hl Hf; cbn [bubble_up]; destruct (Z.ltb_spec k hi); try lia.
  1,3: apply yields_ret, moved_id; places.
  rewrite swap_at, bind_ret by lia. eapply yields_mono; [apply IH; rewrite ?zlen_swp; lia|]. intros d' Hm.
  eapply moved_trans; [apply (moved_swp d k (k + 1)); lia|exact Hm|]. places.
Qed.
Lemma bubble_down_spec fuel d k i : 0 <= i <= k -> k < zlen d -> k - i <= Z.of_nat fuel -> yields (bubble_down fuel d k i) (moved (rot i k (k + 1)) d).
Proof.
  revert d k. induction fuel as [|fuel IH]; intros d k Hk Hl Hf; cbn [bubble_down]; destruct (Z.ltb_spec i k); try lia.
  1,3: apply yields_ret, moved_id; places.
  rewrite swap_at, bind_ret by lia. eapply yields_mono; [apply IH; rewrite ?zlen_swp; lia|]. intros d' Hm.
  eapply moved_trans; [apply (moved_swp d k (k - 1)); lia|exact Hm|]. places.
Qed.

Lemma insert_left_merged d a m b : 0 <= a -> m = a + 1 -> m <= b -> b <= zlen d -> b <= MaxInt -> yields (insert_left cmp d a m b) (merged a m b d).
Proof.
  intros Ha -> Hb Hl HM. eapply yields_bind.
  { apply (bisect_spec _ _ (fun h => lt (at_ d h) (at_ d a)) (a + 1) _ _ b); [unfold zlen in *; lia..| |lia|lia]. intros. apply less_at; lia. }
  intros i (Hi & Hlo & Hhi). eapply yields_mono; [apply bubble_up_spec; unfold zlen in *; lia|]. intros d' Hd. replace (i - 1 + 1) with i in Hd by lia. split.
  { eapply same_widen; [by apply (rot_same a (a + 1) i); [lia..|]|lia|lia]. }
  intros H S1 S2. destruct (rot_halves H a a (a + 1) i b d d') as (Hst & [Hc _ H2 H3 H4]); [lia..|done|done|done|intros _ ?; apply Hlo; lia|lia|].
  split; [|done]. apply (sorted_cross _ (a + (i - (a + 1)))); [done| |done]. apply (sorted_join H _ i); [done..|]. intros _ Hib. rewrite !(proj2 Hd) by lia.
  replace (rot a (a + 1) i (i - 1)) with a by places. replace (rot a (a + 1) i i) with i by places. by apply Hhi.
Qed.
Lemma insert_right_merged d a m b : 0 <= a -> b = m + 1 -> a <= m -> b <= zlen d -> b <= MaxInt -> yields (insert_right cmp d a m) (merged a m b d).
Proof.
  intros Ha -> Hm Hl HM. eapply yields_bind.
  { apply (bisect_spec _ _ (fun h => negb (lt (at_ d m) (at_ d h))) a _ _ m); [unfold zlen in *; lia..| |lia|lia].
    intros. unfold go_not. by rewrite less_at, bind_ret by lia. }
  intros i (Hi & Hlo & Hhi). eapply yields_mono; [apply bubble_down_spec; unfold zlen in *; lia|]. intros d' Hd. split.
  { eapply same_widen; [by apply (rot_same i m (m + 1)); [lia..|]|lia|lia]. }
  intros H S1 S2. destruct (rot_halves H a i m (m + 1) (m + 1) d d') as (Hst & [Hc H1 H2 H3 _]); [lia..|done|done|done| |lia|].
  { intros Him _. replace (m + 1 - 1) with m by lia. by apply negb_false_iff, Hhi. }
  replace (i + (m + 1 - m)) with (i + 1) in * by lia. split; [|done]. apply (sorted_cross _ (i + 1)); [|done..]. apply (sorted_join H _ i); [done..|].
  intros Hai _. rewrite !(proj2 Hd) by lia. replace (rot i m (m + 1) (i - 1)) with (i - 1) by places. replace (rot i m (m + 1) i) with m by places.
  apply negb_true_iff, Hlo. lia.
Qed.

Lemma decompose_spec d a m b : 0 <= a -> a < m -> m < b -> b <= zlen d -> 2 * b <= MaxInt ->
  yields (decompose cmp d a m b) (fun '(d', s, mid, e) => a <= s <= mid /\ mid <= e <= b /\ a < mid < b /\ same a b d d' /\
    (weak_order -> sorted a m d -> sorted m b d -> stable d d' /\ halves a s mid e b d')).
Proof.
  intros Ha Hm Hb Hl HM. unfold decompose. destruct (middle_spec a b) as [Hmid Hmid2]; [lia..|]. set (mid := middle a b) in *. clearbody mid.
  destruct (if mid <? m then (mid + m - b, mid) else (a, m)) as [lo hi] eqn:Elh.
  assert (a <= lo /\ lo <= hi /\ hi <= m /\ hi <= mid /\ (lo = a \/ mid + m - lo = b) /\ (hi = m \/ hi = mid)) as (B1 & B2 & B3 & B4 & B5 & B6).
  { destruct (Z.ltb_spec mid m); injection Elh as <- <-; lia. }
  assert (mid + m - lo <= b) as B7 by (destruct (Z.ltb_spec mid m); injection Elh as <- <-; lia). clear Elh.
  eapply yields_bind.
  { apply (bisect_spec _ _ (fun c => negb (lt (at_ d (mid + m - 1 - c)) (at_ d c))) lo _ _ hi); [unfold zlen in *; lia..| |lia|lia].
    intros. unfold go_not. by rewrite less_at, bind_ret by lia. }
  intros s (Hs & Hlo & Hhi). set (e := mid + m - s). assert (m <= e <= b) as He by lia.
  eapply (yields_bind _ _ (moved (rot s m e) d)).
  { destruct (Z.ltb_spec s m), (Z.ltb_spec m e); cbn [andb]; [apply rotate_spec; lia|..]; apply yields_ret, moved_id; clear -Hs He B3 H H0; places. }
  intros d' Hd. apply yields_ret. split; [lia|]. split; [lia|]. split; [lia|]. split.
  { eapply same_widen; [by apply (rot_same s m e); [lia..|]|lia|lia]. }
  intros H S1 S2. replace mid with (s + (e - m)) by lia. apply (rot_halves H a s m e b); [lia..|done|done|done| |].
  - intros Hsm Hme. replace (e - 1) with (mid + m - 1 - s) by lia. apply negb_false_iff, Hhi. lia.
  - intros Has Heb. replace e with (mid + m - 1 - (s - 1)) by lia. apply negb_true_iff, Hlo. lia.
Qed.

Lemma merged_trivial a m b d : m = a \/ m = b -> merged a m b d d.
Proof. intros Hm. split; [apply same_refl|]. intros _ S1 S2. split; [|done]. by destruct Hm as [-> | ->]. Qed.
Lemma cross_same_l a mid b d d' : 0 <= a -> mid <= zlen d -> same a mid d d' -> cross a mid b d -> cross a mid b d'.
Proof.
  intros Ha Hl Hs Hc p q Hp Hq. rewrite (same_at _ _ _ _ q Hs) by lia.
  apply (same_all (fun x => le x (at_ d q)) a mid d d'); [done..| |done]. intros k Hk. by apply Hc.
Qed.
Lemma cross_same_r a mid b d d' : 0 <= a -> 0 <= mid -> b <= zlen d -> same mid b d d' -> cross a mid b d -> cross a mid b d'.
Proof.
  intros Ha Hm Hl Hs Hc p q Hp Hq. rewrite (same_at _ _ _ _ p Hs) by lia.
  apply (same_all (fun x => le (at_ d p) x) mid b d d'); [done..| |done]. intros k Hk. by apply Hc.
Qed.

(** Merging the two halves merges the whole. *)
Lemma halves_merged a s mid e b d d1 d2 : 0 <= a -> a <= s <= mid -> mid <= e <= b -> b <= zlen d ->
  merged a s mid d d1 -> merged mid e b d1 d2 -> same a b d d2 /\ (weak_order -> halves a s mid e b d -> sorted a b d2 /\ stable d d2).
Proof.
  intros Ha Hs He Hl [M1 O1] [M2 O2]. pose proof (same_zlen _ _ _ _ M1) as Z1. split.
  { eapply same_trans; eapply same_widen; [exact M1|lia|lia|exact M2|lia|lia]. }
  intros H [Hc H1 H2 H3 H4]. destruct (O1 H H1 H2) as [S1 T1].
  destruct (O2 H) as [S2 T2]; [eapply sorted_outside; [|exact M1|lia|done]; lia..|]. split; [|by eapply stable_trans].
  apply (sorted_cross _ mid); [by apply (sorted_outside _ _ _ mid b d1); [|done|lia|]|done|].
  apply (cross_same_r _ _ _ d1); [lia..|done|]. by apply (cross_same_l _ _ _ d); [lia..|done|].
Qed.

Lemma symMerge_loop_spec fuel d a m b : 0 <= a -> a < m -> m < b -> b <= zlen d -> 2 * b <= MaxInt -> b - a <= Z.of_nat fuel ->
  yields (symMerge_loop cmp fuel d a m b) (merged a m b d).
Proof.
  revert d a m b. induction fuel as [|fuel IH]; intros d a m b Ha Hm Hb Hl HM Hf; cbn [symMerge_loop]; [lia|].
  destruct (Z.eqb_spec (m - a) 1); [apply insert_left_merged; lia|]. destruct (Z.eqb_spec (b - m) 1); [apply insert_right_merged; lia|].
  eapply yields_bind; [by apply (decompose_spec d a m b)|]. intros [[[d1 s] mid] e] (Hs & He & Hmid & M1 & O1). pose proof (same_zlen _ _ _ _ M1) as Z1.
  eapply (yields_bind _ _ (merged a s mid d1)).
  { destruct (Z.ltb_spec a s), (Z.ltb_spec s mid); cbn [andb]; [apply IH; lia|..]; apply yields_ret, merged_trivial; lia. }
  intros d2 M2. pose proof (same_zlen _ _ _ _ (proj1 M2)) as Z2. eapply (yields_mono _ (merged mid e b d2)).
  { destruct (Z.ltb_spec mid e), (Z.ltb_spec e b); cbn [andb]; [apply IH; lia|..]; apply yields_ret, merged_trivial; lia. }
  intros d3 M3. destruct (halves_merged a s mid e b d1 d2 d3) as [M O]; [lia..|done|done|]. split; [by eapply same_trans|].
  intros Hwo S1 S2. destruct (O1 Hwo S1 S2) as [T1 Hh]. destruct (O Hwo Hh) as [S T]. split; [done|by eapply stable_trans].
Qed.
Lemma symMerge_spec d a m b : 0 <= a -> a < m -> m < b -> b <= zlen d -> 2 * b <= MaxInt -> yields (symMergeCmpFunc cmp d a m b) (merged a m b d).
Proof. intros. apply symMerge_loop_spec; unfold zlen in *; lia. Qed.

(** ** The passes *)

(** From the block [q0] on, blocks of [size] elements are sorted. *)
Definition blocks (size n q0 q1 : Z) (d : list E) : Prop := forall q, q0 <= q < q1 -> sorted (q * size) (Z.min ((q + 1) * size) n) d.

Lemma blocks_same size n q0 q1 a b d d' : 0 <= q0 -> 0 < size -> same a b d d' -> b <= q0 * size \/ q1 * size <= a \/ n <= a -> blocks size n q0 q1 d -> blocks size n q0 q1 d'.
Proof.
  intros H0 Hs Hsame Hout Hb q Hq. eapply sorted_outside; [|exact Hsame| |by apply Hb]; [nia|].
  assert (q0 * size <= q * size) by nia. assert ((q + 1) * size <= q1 * size) by nia. lia.
Qed.

Lemma blocks_loop_spec fuel d n size q : 0 < size -> 0 <= q -> q * size <= n -> n <= zlen d -> n - q * size < (Z.of_nat fuel + 1) * size ->
  yields (blocks_loop cmp fuel d n size (q * size) (q * size + size)) (fun d' => same (q * size) n d d' /\
    (weak_order -> stable d d' /\ forall q1, blocks size n 0 q d -> n <= q1 * size -> blocks size n 0 q1 d')).
Proof.
  intros Hsz.
  assert (forall d q, 0 <= q -> q * size <= n -> n <= zlen d -> n < q * size + size -> yields (insertionSortCmpFunc cmp d (q * size) n) (fun d' => same (q * size) n d d' /\
    (weak_order -> stable d d' /\ forall q1, blocks size n 0 q d -> n <= q1 * size -> blocks size n 0 q1 d'))) as Hlast.
  { clear d q. intros d q Hq Hqn Hl Hlast. eapply yields_mono; [apply (insertionSort_ordered d (q * size)); lia|]. intros d1 [M1 O1]. split; [done|].
    intros H. destruct (O1 H) as [S1 T1]. split; [done|]. intros q1 Hb Hq1 p Hp. destruct (Z_lt_le_dec p q).
    - eapply (blocks_same size n 0 q); [lia|lia|exact M1|lia|done|lia].
    - destruct (Z.eq_dec p q) as [->|]; [by rewrite Z.min_r by lia|]. intros x y ???. assert ((q + 1) * size <= p * size) by nia. lia. }
  revert d q. induction fuel as [|fuel IH]; intros d q Hq Hqn Hl Hf; cbn [blocks_loop]; destruct (Z.leb_spec (q * size + size) n); try lia.
  1,3: by apply Hlast.
  eapply yields_bind; [apply (insertionSort_ordered d (q * size)); lia|]. intros d1 [M1 O1]. pose proof (same_zlen _ _ _ _ M1) as Z1.
  replace (q * size + size) with ((q + 1) * size) in * by lia. eapply yields_mono; [apply IH; lia|]. intros d2 [M2 O2]. split.
  { eapply same_trans; eapply same_widen; [exact M1|lia|lia|exact M2|lia|lia]. }
  intros Hwo. destruct (O1 Hwo) as [S1 T1], (O2 Hwo) as [T2 B2]. split; [by eapply stable_trans|]. intros q1 Hb Hq1. apply B2; [|done].
  intros p Hp. destruct (Z.eq_dec p q) as [->|]; [by rewrite Z.min_l by lia|]. eapply (blocks_same size n 0 q); [lia|lia|exact M1|lia|done|lia].
Qed.

(** A sorted block completes the list of blocks. *)
Lemma blocks_snoc size n q q1 d d' : 0 <= q -> 0 < size -> same (q * size) (Z.min ((q + 1) * size) n) d d' -> sorted (q * size) (Z.min ((q + 1) * size) n) d' ->
  q1 = q + 1 \/ n < (q + 1) * size -> blocks size n 0 q d -> blocks size n 0 q1 d'.
Proof.
  intros Hq Hsz Hs Ho Hend Hb p Hp. destruct (Z_lt_le_dec p q); [eapply (blocks_same size n 0 q); [lia|lia|exact Hs|lia|done|lia]|].
  destruct (Z.eq_dec p q) as [->|]; [done|]. intros x y ???. assert ((q + 1) * size <= p * size) by nia. lia.
Qed.

(** Merging the two blocks of [size] at [q * (2 * size)], or the first with what there is of the second. *)
Lemma block_merged size n q e d d' : 0 <= q -> 0 < size -> e = Z.min ((q + 1) * (2 * size)) n -> q * (2 * size) + size < e ->
  merged (q * (2 * size)) (q * (2 * size) + size) e d d' -> weak_order -> (forall Q, blocks size n (2 * q) Q d) ->
  sorted (q * (2 * size)) e d' /\ stable d d'.
Proof.
  intros Hq Hsz -> He [_ HO] H Hb. apply HO; [done|..].
  - intros x y ???. apply (Hb (2 * q + 1) (2 * q)); lia.
  - intros x y ???. apply (Hb (2 * q + 2) (2 * q + 1)); lia.
Qed.

Lemma merge_pass_spec fuel d n size q : 0 < size -> size < n -> n <= 2 ^ 61 -> n <= zlen d -> 0 <= q -> q * (2 * size) <= n -> n - q * (2 * size) < (Z.of_nat fuel + 1) * (2 * size) ->
  yields (merge_pass cmp fuel d n size (q * (2 * size)) ((q + 1) * (2 * size))) (fun d' => same (q * (2 * size)) n d d' /\
    (weak_order -> blocks (2 * size) n 0 q d -> (forall Q, blocks size n (2 * q) Q d) -> stable d d' /\ forall q1, n <= q1 * (2 * size) -> blocks (2 * size) n 0 q1 d')).
Proof.
  intros Hsz Hsn Hn61. revert d q. induction fuel as [|fuel IH]; intros d q Hl Hq Hqn Hf; cbn [merge_pass]; destruct (Z.leb_spec ((q + 1) * (2 * size)) n); try lia.
  2: { eapply yields_bind; [apply symMerge_spec; unfold MaxInt; lia|]. intros d1 M1. pose proof (same_zlen _ _ _ _ (proj1 M1)) as Z1.
    replace (int64 ((q + 1) * (2 * size) + int64 (2 * size))) with ((q + 1 + 1) * (2 * size))
      by (rewrite (int64_id (2 * size)) by int_range; rewrite int64_id by int_range; lia).
    eapply yields_mono; [apply IH; lia|]. intros d2 [M2 O2]. split.
    { eapply same_trans; eapply same_widen; [exact (proj1 M1)|lia|lia|exact M2|lia|lia]. }
    intros Hwo B1 B2. destruct (block_merged size n q ((q + 1) * (2 * size)) d d1) as [S1 T1]; [lia..|done|done|done|].
    destruct O2 as [T2 B]; [done|..|split; [by eapply stable_trans|done]].
    - eapply (blocks_snoc _ _ q); [done|lia|rewrite Z.min_l by lia; exact (proj1 M1)|by rewrite Z.min_l by lia|lia|done].
    - intros Q. eapply (blocks_same size n (2 * (q + 1)) Q); [lia|lia|exact (proj1 M1)|lia|]. intros p Hp. apply (B2 Q). lia. }
  all: eapply (yields_mono _ (fun d' => same (q * (2 * size)) n d d' /\ (weak_order -> (forall Q, blocks size n (2 * q) Q d) -> sorted (q * (2 * size)) n d' /\ stable d d'))).
  1,3: destruct (Z.ltb_spec (q * (2 * size) + size) n); [eapply yields_mono; [apply symMerge_spec; unfold MaxInt; lia|]; intros d1 M1; split; [exact (proj1 M1)|];
      intros; by apply (block_merged size n q n); [lia..|done|done|done]
    |apply yields_ret; split; [apply same_refl|]; intros Hwo B2; split; [intros x y ???; apply (B2 (2 * q + 1) (2 * q)); lia|done]].
  all: intros d1 [M1 O1]; split; [done|]; intros Hwo B1 B2; destruct (O1 Hwo B2) as [S1 T1]; split; [done|]; intros q1 Hq1;
    eapply (blocks_snoc _ _ q); [done|lia|by rewrite Z.min_r by lia|by rewrite Z.min_r by lia|lia|done].
Qed.

Lemma passes_loop_spec fuel d n size : 0 < size -> n <= 2 ^ 61 -> n = zlen d -> n <= size + Z.of_nat fuel ->
  yields (passes_loop cmp fuel d n size) (fun d' => same 0 n d d' /\ (weak_order -> (forall Q, blocks size n 0 Q d) -> sorted 0 n d' /\ stable d d')).
Proof.
  intros Hsz Hn. revert d size Hsz. induction fuel as [|fuel IH]; intros d size Hsz Hl Hf; cbn [passes_loop]; destruct (Z.ltb_spec size n); try lia.
  1,3: apply yields_ret; split; [apply same_refl|]; intros Hwo B; split; [intros x y ???; apply (B 1 0); lia|done].
  replace (int64 (2 * size)) with ((0 + 1) * (2 * size)) by (rewrite int64_id by int_range; lia).
  replace (int64 (size * 2)) with (2 * size) by (rewrite int64_id by int_range; lia).
  eapply yields_bind; [apply (merge_pass_spec _ d n size 0); [lia..|unfold zlen in *; nia]|]. intros d1 [M1 O1]. pose proof (same_zlen _ _ _ _ M1) as Z1.
  eapply yields_mono; [apply IH; lia|]. intros d2 [M2 O2]. split; [by eapply same_trans|]. intros Hwo B.
  destruct O1 as [T1 B1]; [done|intros q Hq; lia|by intros Q|]. destruct O2 as [S2 T2]; [done| |split; [done|by eapply stable_trans]].
  intros Q q Hq. apply (B1 (Z.max Q n)); [|lia]. nia.
Qed.
Lemma SortStableFunc_spec x : zlen x <= 2 ^ 61 -> yields (SortStableFunc cmp x) (ordered 0 (zlen x) x).
Proof.
  intros Hx. unfold SortStableFunc, stableCmpFunc. eapply yields_bind.
  { apply (blocks_loop_spec _ x (zlen x) stableBlock 0); unfold stableBlock, zlen; lia. }
  intros d1 [M1 O1]. pose proof (same_zlen _ _ _ _ M1) as Z1. eapply yields_mono; [apply passes_loop_spec; [done|done|done|unfold zlen, stableBlock in *; lia]|].
  intros d2 [M2 O2]. split; [by eapply same_trans|]. intros Hwo. destruct (O1 Hwo) as [T1 B1].
  destruct O2 as [S2 T2]; [done| |split; [done|by eapply stable_trans]]. intros Q q Hq. apply (B1 (Z.max Q (zlen x))); [intros p Hp; lia| |lia].
  unfold stableBlock. lia.
Qed.
End laws.

(** ** Searching and extremes *)

(** [i] is the index of the first of the best elements. *)
Definition first_best {E : Type} (better : E -> E -> bool) (x : list E) (m : E) : Prop :=
  exists r, x !! r = Some m /\ (forall (k : nat) y, (k < r)%nat -> x !! k = Some y -> better m y = true) /\ (forall y, y ∈ x -> better y m = false).

Lemma extreme_loop_spec {E : Type} `{!Inhabited E} (cmp : E -> E -> Z) better fuel x i r : weak_order cmp -> (forall y z, better y z = lt cmp y z) ->
  0 <= r < i -> i <= zlen x -> zlen x - i <= Z.of_nat fuel ->
  (forall k, 0 <= k < r -> better (at_ x r) (at_ x k) = true) -> (forall k, 0 <= k < i -> better (at_ x k) (at_ x r) = false) ->
  yields (extreme_loop fuel better x i (at_ x r)) (first_best better x).
Proof.
  intros H Hb. revert i r. induction fuel as [|fuel IH]; intros i r Hr Hi Hf H1 H2; cbn [extreme_loop]; destruct (Z.ltb_spec i (zlen x)); try lia.
  1,3: apply yields_ret; exists (Z.to_nat r); split_and!; [rewrite lookup_at by (unfold zlen in *; lia); by rewrite Z2Nat.id by lia
    |intros k y Hk Hy; rewrite lookup_at in Hy by (unfold zlen in *; lia); injection Hy as <-; apply H1; lia
    |intros y [k Hk]%list_elem_of_lookup; pose proof (lookup_lt_Some _ _ _ Hk); rewrite lookup_at in Hk by done; injection Hk as <-; apply H2; unfold zlen in *; lia].
  rewrite index_value, bind_ret by lia. destruct (better (at_ x i) (at_ x r)) eqn:Hir.
  - apply IH; [lia..| |].
    + intros k Hk. rewrite Hb in *. eapply lt_le_trans; [done|exact Hir|]. unfold le. rewrite <- Hb. apply H2. lia.
    + intros k Hk. rewrite Hb. destruct (Z.eq_dec k i) as [->|]; [by apply lt_irrefl|]. rewrite Hb in Hir. apply (wo_asym _ H).
      eapply lt_le_trans; [done|exact Hir|]. unfold le. rewrite <- Hb. apply H2. lia.
  - apply IH; [lia..|done|]. intros k Hk. destruct (Z.eq_dec k i) as [->|]; [done|apply H2; lia].
Qed.

(** [MinFunc] and [MaxFunc] return the first of the extreme elements; an empty slice panics. *)
Lemma MinFunc_spec {E : Type} (cmp : E -> E -> Z) x : weak_order cmp ->
  match x with [] => MinFunc cmp x = Panic ExplicitPanic | _ => yields (MinFunc cmp x) (first_best (lt cmp) x) end.
Proof.
  intros H. destruct x as [|y x]; [done|]. pose proof (populate y : Inhabited E) as HI. unfold MinFunc. rewrite (proj2 (Z.ltb_ge _ _)) by (rewrite zlen_cons; pose proof (zlen_nonneg x); lia).
  rewrite index_value, bind_ret by (rewrite zlen_cons; pose proof (zlen_nonneg x); lia).
  apply (extreme_loop_spec cmp (lt cmp)); [done|done|lia|rewrite zlen_cons; pose proof (zlen_nonneg x); lia|unfold zlen; lia|lia|].
  intros k Hk. replace k with 0 by lia. by apply lt_irrefl.
Qed.
Lemma MaxFunc_spec {E : Type} (cmp : E -> E -> Z) x : weak_order cmp -> (forall y z, 0 < cmp y z <-> cmp z y < 0) ->
  match x with [] => MaxFunc cmp x = Panic ExplicitPanic | _ => yields (MaxFunc cmp x) (first_best (fun y z => lt cmp z y) x) end.
Proof.
  intros H Hflip. destruct x as [|y x]; [done|]. pose proof (populate y : Inhabited E) as HI. pose proof (zlen_nonneg x) as Hx.
  assert (weak_order (fun y z => cmp z y)) as H'.
  { constructor; [intros; by apply (wo_asym _ H)|]. intros u v w Huv Hvw. by apply (wo_trans _ H w v u). }
  assert (forall y z, (0 <? cmp y z) = lt cmp z y) as Hb by (intros; unfold lt; pose proof (Hflip y0 z); lia).
  unfold MaxFunc. rewrite (proj2 (Z.ltb_ge _ _)) by (rewrite zlen_cons; lia). rewrite index_value, bind_ret by (rewrite zlen_cons; lia).
  eapply yields_mono; [apply (extreme_loop_spec (fun y z => cmp z y)); [done|exact Hb|lia|rewrite zlen_cons; lia|unfold zlen; lia|lia|]|].
  - intros k Hk. replace k with 0 by lia. rewrite Hb. by apply lt_irrefl.
  - intros m (r & H1 & H2 & H3). exists r. split_and!; [done|..]; intros; rewrite <- Hb; [by eapply H2|by apply H3].
Qed.

(** [BinarySearchFunc] finds the first element not before the target, in a list in
    which the elements before the target come first. *)
Lemma BinarySearchFunc_spec {E T : Type} (x : list E) (t : T) (cmp : E -> T -> Z) : zlen x <= MaxInt ->
  (forall (i j : nat) y z, (i < j)%nat -> x !! i = Some y -> x !! j = Some z -> cmp z t < 0 -> cmp y t < 0) ->
  yields (BinarySearchFunc x t cmp) (fun '(i, found) => 0 <= i <= zlen x /\
    (forall k y, x !! k = Some y -> cmp y t < 0 <-> Z.of_nat k < i) /\
    (found = true <-> exists y, x !! Z.to_nat i = Some y /\ cmp y t = 0)).
Proof.
  intros HM Hmono. destruct (decide (x = [])) as [->|Hne].
  { apply yields_ret. split_and!; [done..|intros k y Hk; by rewrite lookup_nil in Hk|]. split; [done|]. intros (y & Hy & _). by rewrite lookup_nil in Hy. }
  assert (Inhabited E) as HI by (destruct x as [|y x]; [done|exact (populate y)]).
  eapply yields_bind.
  { apply (bisect_spec _ _ (fun h => cmp (at_ x h) t <? 0) 0 _ _ (zlen x)); [pose proof (zlen_nonneg x); unfold zlen in *; lia..| |lia|lia].
    intros k Hk. by rewrite index_value, bind_ret by lia. }
  intros i (Hi & Hlo & Hhi). eapply (yields_bind _ _ (fun b => b = ((i <? zlen x) && (cmp (at_ x i) t =? 0)))).
  { destruct (Z.ltb_spec i (zlen x)); [|by apply yields_ret]. rewrite index_value, bind_ret by lia. by apply yields_ret. }
  intros b ->. apply yields_ret. split; [done|]. split.
  - intros k y Hk. pose proof (lookup_lt_Some _ _ _ Hk) as Hlt. split.
    + intros Hy. apply Z.nle_gt. intros Hik. assert (i < zlen x) as Hil by (unfold zlen; lia). specialize (Hhi Hil). apply Z.ltb_ge in Hhi.
      destruct (Z.eq_dec i (Z.of_nat k)) as [->|]; [rewrite lookup_at in Hk by done; injection Hk as <-; lia|].
      pose proof (Hmono (Z.to_nat i) k (at_ x i) y ltac:(lia)) as Hm. rewrite lookup_at in Hm by lia. rewrite Z2Nat.id in Hm by lia. specialize (Hm eq_refl Hk Hy). lia.
    + intros Hki. specialize (Hlo ltac:(lia)). apply Z.ltb_lt in Hlo. destruct (Z.eq_dec (i - 1) (Z.of_nat k)) as [E1|].
      { rewrite lookup_at in Hk by done. injection Hk as <-. by rewrite <- E1. }
      apply (Hmono k (Z.to_nat (i - 1)) y (at_ x (i - 1))); [lia|done| |done]. rewrite lookup_at by (unfold zlen in *; lia). by rewrite Z2Nat.id by lia.
  - rewrite andb_true_iff, Z.ltb_lt, Z.eqb_eq. split.
    + intros [Hl Hc]. exists (at_ x i). split; [|done]. rewrite lookup_at by (unfold zlen in *; lia). by rewrite Z2Nat.id by lia.
    + intros (y & Hy & Hc). pose proof (lookup_lt_Some _ _ _ Hy). rewrite lookup_at in Hy by done. rewrite Z2Nat.id in Hy by lia. injection Hy as ->. unfold zlen. split; [lia|done].
Qed.

(** C24: [slices.SortStableFunc] with any comparison function whatever returns a
    permutation of the slice without a panic or a loop that does not end.  If the
    comparison is a strict weak ordering the result is the one of the reference
    insertion sort: it is sorted, and the elements equivalent to any given one are
    in it as they were in the slice, in the same order. *)
Theorem sort_stable_func_spec {E : Type} (cmp : E -> E -> Z) (x : list E) (Hlen : zlen x <= 2 ^ 61) :
  exists x', SortStableFunc cmp x = Ret x' /\ x ≡ₚ x' /\ (weak_order cmp -> x' = stable_sort cmp x /\ StronglySorted (le cmp) x' /\ stable cmp x x').
Proof.
  destruct x as [|e x]; [exists []; split_and!; [done..|]; intros _; split_and!; [done|constructor|done]|].
  pose proof (populate e : Inhabited E) as HI. destruct (SortStableFunc_spec cmp (e :: x) Hlen) as (x' & E1 & [Hp _] & Ho). exists x'. split_and!; [done..|].
  intros H. destruct (Ho H) as [Hs Ht]. pose proof (perm_zlen _ _ Hp) as Hl. assert (StronglySorted (le cmp) x') as Hss.
  { apply StronglySorted_lookup. intros i j y z Hij Hy Hz. pose proof (lookup_lt_Some _ _ _ Hy). pose proof (lookup_lt_Some _ _ _ Hz).
    rewrite lookup_at in Hy, Hz by done. injection Hy as <-. injection Hz as <-. apply Hs; unfold zlen in *; lia. }
  split_and!; [|done..]. apply (sorted_stable_unique cmp H); [by apply stable_sort_sorted|done|].
  intros y. rewrite (Ht y). symmetry. by apply stable_sort_stable.
Qed.
Lemma sort_stable_func_spec_witness :
  exists x', SortStableFunc (fun x y : Z * Z => fst x - fst y) [(2, 0); (1, 1); (2, 2); (1, 3)] = Ret x' /\ x' = [(1, 1); (1, 3); (2, 0); (2, 2)].
Proof.
  destruct (sort_stable_func_spec (fun x y : Z * Z => fst x - fst y) [(2, 0); (1, 1); (2, 2); (1, 3)]) as (x' & E1 & _ & Ho); [vm_compute; discriminate|].
  exists x'. split; [exact E1|]. destruct Ho as [-> _]; [|reflexivity]. constructor; intros [x1 x2] [y1 y2]; [|intros [z1 z2]]; unfold le, lt; cbn [fst]; lia.
Defined.
