(* ===== verification/LineTable.v ===== *)
(** * Line tables ([source_code/line_table.go], [source_code/source_code.go])

    The scan of [NewLineTableAt] is a loop over byte indices; one round per
    byte and one to leave the loop are enough fuel. *)
From S2P Require Import Prelude Core Ranges GoSort.

(** ** Positions and snippets *)
Record Position := MkPosition { line_ : Z; column : Z }.
Definition NewPosition (line column : Z) : go Position :=
  _ ← Precondition (0 <? line);
  _ ← Precondition (0 <? column);
  Ret (MkPosition line column).
Record FilePosition := MkFilePosition { fpPath : gostring; fpPosition : Position }.
Record Snippet := MkSnippet { Path : gostring; snPosition : Position; snText : gostring }.
Definition Snippet_FilePosition (s : Snippet) : FilePosition :=
  MkFilePosition (Path s) (snPosition s).
Definition Snippet_Line (s : Snippet) : Z := line_ (snPosition s).
Definition Snippet_Column (s : Snippet) : Z := column (snPosition s).
Definition FilePosition_Line (p : FilePosition) : Z := line_ (fpPosition p).
Definition FilePosition_Column (p : FilePosition) : Z := column (fpPosition p).

(** ** Line tables *)
Record LineTable := MkLineTable {
  text : gostring; startLineNumber : Z; lineOffsets : list Span }.
Record Line := MkLine { ltext : gostring; span : Span; lineNo : Z }.

Definition CR : Z := 13.
Definition LF : Z := 10.

Fixpoint NewLineTableAt_loop (fuel : nat) (s : gostring) (i start : Z) (lineOffsets : list Span)
    : go (list Span) :=
  match fuel with
  | O => OutOfFuel
  | S fuel =>
      if i <? zlen s then
        c ← index s i;
        sep ← (if c =? CR then
                 let sepEnd := i + 1 in
                 if sepEnd <? zlen s then
                   d ← index s sepEnd;
                   Ret (Some (if d =? LF then sepEnd + 1 else sepEnd))
                 else Ret (Some sepEnd)
               else if c =? LF then Ret (Some (i + 1))
               else Ret None);
        match sep with
        | None => NewLineTableAt_loop fuel s (i + 1) start lineOffsets
        | Some sepEnd =>
            sp ← NewSpan start i;
            NewLineTableAt_loop fuel s sepEnd sepEnd (lineOffsets ++ [sp])
        end
      else
        sp ← NewSpan start (zlen s);
        Ret (lineOffsets ++ [sp])
  end.

Definition NewLineTableAt (s : gostring) (startLineNumber : Z) : go LineTable :=
  _ ← (if startLineNumber <? 1 then Precondition false else Ret tt);
  lineOffsets ← NewLineTableAt_loop (S (length s)) s 0 0 [];
  Ret (MkLineTable s startLineNumber lineOffsets).

Definition NewLineTable (s : gostring) : go LineTable := NewLineTableAt s 1.
Definition TextLen (t : LineTable) : Z := zlen (text t).
Definition LineCount (t : LineTable) : Z := zlen (lineOffsets t).

Definition line (t : LineTable) (i : Z) (lineOffset : Span) : go Line :=
  txt ← slice (text t) (Start lineOffset) (End lineOffset);
  Ret (MkLine txt lineOffset (int64 (startLineNumber t + i))).

(** [Lines] as the sequence of its values, for a consumer that takes them all. *)
Fixpoint Lines_from (t : LineTable) (i : Z) (offsets : list Span) : go (list Line) :=
  match offsets with
  | [] => Ret []
  | lineOffset :: offsets' =>
      l ← line t i lineOffset; ls ← Lines_from t (i + 1) offsets'; Ret (l :: ls)
  end.
Definition Lines (t : LineTable) : go (list Line) := Lines_from t 0 (lineOffsets t).

Definition LineAtByteOffset (t : LineTable) (byteOffset : Z) : go Line :=
  _ ← (if byteOffset <? 0 then Precondition false else Ret tt);
  _ ← (if zlen (text t) <? byteOffset then Precondition false else Ret tt);
  if byteOffset =? zlen (text t) then
    let last := zlen (lineOffsets t) - 1 in
    sp ← index (lineOffsets t) last; line t last sp
  else
    nextLine ← Search (zlen (lineOffsets t))
                 (fun i => sp ← index (lineOffsets t) i; Ret (byteOffset <? Start sp));
    _ ← (if nextLine =? 0 then Invariant false else Ret tt);
    let lineIndex := nextLine - 1 in
    sp ← index (lineOffsets t) lineIndex; line t lineIndex sp.

Definition Text (l : Line) : gostring := ltext l.
Definition LineSpan (l : Line) : Span := span l.
Definition LineNumber (l : Line) : Z := lineNo l.

(** ** Specification: the lines of a text with their terminators *)
Fixpoint split_lines (cur s : gostring) : list (gostring * gostring) :=
  match s with
  | [] => [(cur, [])]
  | c :: s' =>
      if c =? CR then
        match s' with
        | d :: s'' => if d =? LF then (cur, [CR; LF]) :: split_lines [] s''
                      else (cur, [CR]) :: split_lines [] s'
        | [] => (cur, [CR]) :: split_lines [] s'
        end
      else if c =? LF then (cur, [LF]) :: split_lines [] s'
      else split_lines (cur ++ [c]) s'
  end.

(** The spans of consecutive lines that start at offset [off]. *)
Fixpoint spans_from (off : Z) (ls : list (gostring * gostring)) : list Span :=
  match ls with
  | [] => []
  | (l, t) :: ls' => MkSpan off (off + zlen l) :: spans_from (off + zlen l + zlen t) ls'
  end.

Definition join_lines (ls : list (gostring * gostring)) : gostring :=
  concat (map (fun lt => lt.1 ++ lt.2) ls).

Definition no_terminator (l : gostring) : Prop := (CR ∉ l) /\ (LF ∉ l).

(** Induction on the length of the rest of the text, two bytes at a time. *)
Lemma line_split_ind (P : gostring -> gostring -> Prop) :
  (forall cur, P cur []) ->
  (forall cur c s, (c =? CR) = false -> (c =? LF) = false -> P (cur ++ [c]) s -> P cur (c :: s)) ->
  (forall cur s, P [] s -> P cur (LF :: s)) ->
  (forall cur, P [] [] -> P cur [CR]) ->
  (forall cur d s, (d =? LF) = false -> P [] (d :: s) -> P cur (CR :: d :: s)) ->
  (forall cur s, P [] s -> P cur (CR :: LF :: s)) ->
  forall s cur, P cur s.
Proof.
  intros H0 H1 H2 H3 H4 H5 s. remember (length s) as n eqn:En.
  revert s En. induction n as [n IH] using lt_wf_ind. intros s -> cur.
  destruct s as [|c s]; [done|].
  destruct (c =? CR) eqn:Ec.
  - apply Z.eqb_eq in Ec as ->. destruct s as [|d s].
    { apply H3. by apply (IH 0%nat); [cbn; lia|]. }
    destruct (d =? LF) eqn:Ed.
    + apply Z.eqb_eq in Ed as ->. apply H5. apply (IH (length s)); [cbn; lia|done].
    + apply H4; [done|]. apply (IH (length (d :: s))); [cbn; lia|done].
  - destruct (c =? LF) eqn:El.
    + apply Z.eqb_eq in El as ->. apply H2. apply (IH (length s)); [cbn; lia|done].
    + apply H1; [done..|]. apply (IH (length s)); [cbn; lia|done].
Qed.

Lemma split_lines_plain cur c s :
  (c =? CR) = false -> (c =? LF) = false -> split_lines cur (c :: s) = split_lines (cur ++ [c]) s.
Proof. intros E1 E2. cbn [split_lines]. by rewrite E1, E2. Qed.
Lemma split_lines_lf cur s : split_lines cur (LF :: s) = (cur, [LF]) :: split_lines [] s.
Proof. done. Qed.
Lemma split_lines_crlf cur s :
  split_lines cur (CR :: LF :: s) = (cur, [CR; LF]) :: split_lines [] s.
Proof. done. Qed.
Lemma split_lines_cr cur d s :
  (d =? LF) = false -> split_lines cur (CR :: d :: s) = (cur, [CR]) :: split_lines [] (d :: s).
Proof. intros Ed. cbn [split_lines]. by rewrite Ed. Qed.
Lemma split_lines_cr_end cur : split_lines cur [CR] = (cur, [CR]) :: split_lines [] [].
Proof. done. Qed.
Lemma join_lines_cons l t ls : join_lines ((l, t) :: ls) = l ++ t ++ join_lines ls.
Proof. unfold join_lines. cbn. by rewrite <- app_assoc. Qed.

Lemma line_split_concat s cur : join_lines (split_lines cur s) = cur ++ s.
Proof.
  revert s cur. apply (line_split_ind (fun cur s => join_lines (split_lines cur s) = cur ++ s)).
  - intros cur. unfold join_lines. cbn. by rewrite !app_nil_r.
  - intros cur c s E1 E2 IH. rewrite split_lines_plain, IH by done. by rewrite <- app_assoc.
  - intros cur s IH. by rewrite split_lines_lf, join_lines_cons, IH.
  - intros cur IH. by rewrite split_lines_cr_end, join_lines_cons, IH.
  - intros cur d s Ed IH. by rewrite split_lines_cr, join_lines_cons, IH.
  - intros cur s IH. by rewrite split_lines_crlf, join_lines_cons, IH.
Qed.

(** The lines of [split_lines]: no terminator byte inside a line, every
    terminator is one of the three, a lone '\r' is not followed by '\n', and only
    the last line has no terminator. *)
Fixpoint lines_ok (ls : list (gostring * gostring)) : Prop :=
  match ls with
  | [] => False
  | (l, t) :: ls' =>
      no_terminator l /\
      match ls' with
      | [] => t = []
      | _ => (t = [LF] \/ t = [CR; LF] \/ (t = [CR] /\ head (join_lines ls') <> Some LF))
             /\ lines_ok ls'
      end
  end.

Lemma split_lines_cons cur s : exists p ls, split_lines cur s = p :: ls.
Proof.
  revert s cur. apply (line_split_ind (fun cur s => exists p ls, split_lines cur s = p :: ls));
    try (intros; eexists _, _; reflexivity).
  - intros cur c s E1 E2 IH. by rewrite split_lines_plain.
  - intros cur d s Ed _. rewrite split_lines_cr by done. eauto.
Qed.

Lemma lines_ok_cons l t s :
  no_terminator l -> (t = [LF] \/ t = [CR; LF] \/ (t = [CR] /\ head s <> Some LF)) ->
  lines_ok (split_lines [] s) -> lines_ok ((l, t) :: split_lines [] s).
Proof.
  intros Hl Ht Hok. pose proof (line_split_concat s []) as Hj.
  destruct (split_lines_cons [] s) as (p & ls & E). rewrite E in *.
  cbn [lines_ok]. split; [done|]. split; [|done].
  rewrite app_nil_l in Hj. by rewrite Hj.
Qed.

Lemma line_split_ok s cur : no_terminator cur -> lines_ok (split_lines cur s).
Proof.
  assert (no_terminator []) as Hnil by (split; apply not_elem_of_nil).
  revert s cur.
  apply (line_split_ind (fun cur s => no_terminator cur -> lines_ok (split_lines cur s))).
  - done.
  - intros cur c s E1%Z.eqb_neq E2%Z.eqb_neq IH [H1 H2].
    rewrite split_lines_plain by (by apply Z.eqb_neq). apply IH.
    split; rewrite not_elem_of_app, list_elem_of_singleton; naive_solver.
  - intros cur s IH Hc. rewrite split_lines_lf. apply lines_ok_cons; auto.
  - intros cur IH Hc. rewrite split_lines_cr_end. apply lines_ok_cons; auto.
  - intros cur d s Ed IH Hc. rewrite split_lines_cr by done.
    apply lines_ok_cons; [done| |by apply IH].
    apply Z.eqb_neq in Ed. right; right. split; [done|]. cbn. congruence.
  - intros cur s IH Hc. rewrite split_lines_crlf. apply lines_ok_cons; auto.
Qed.

(** ** The scan computes the spans of the lines *)
Lemma line_index_at (l : gostring) c rest : index (l ++ c :: rest) (zlen l) = Ret c.
Proof. apply index_nat. by apply list_lookup_middle. Qed.

(** The line terminator that a text starts with. *)
Definition terminator (s : gostring) : option gostring :=
  match s with
  | [] => None
  | c :: s' =>
      if c =? CR then match s' with d :: _ => if d =? LF then Some [CR; LF] else Some [CR] | [] => Some [CR] end
      else if c =? LF then Some [LF] else None
  end.
Lemma terminator_Some s t : terminator s = Some t -> t <> [] /\ exists rest, s = t ++ rest /\ forall cur, split_lines cur s = (cur, t) :: split_lines [] rest.
Proof.
  unfold terminator. destruct s as [|c s]; [done|]. destruct (Z.eqb_spec c CR) as [->|]; [destruct s as [|d s]; [|destruct (d =? LF) eqn:Ed]|destruct (Z.eqb_spec c LF) as [->|]; [|done]]; intros [= <-]; (split; [done|]).
  - by exists [].
  - apply Z.eqb_eq in Ed as ->. by exists s.
  - exists (d :: s). split; [done|]. intros cur. by apply split_lines_cr.
  - by exists s.
Qed.
Lemma terminator_None c s cur : terminator (c :: s) = None -> split_lines cur (c :: s) = split_lines (cur ++ [c]) s.
Proof. unfold terminator. destruct (c =? CR) eqn:E1; [by repeat case_match|]. destruct (c =? LF) eqn:E2; [done|]. intros _. by apply split_lines_plain. Qed.
Lemma line_sep_end a c rest :
  (if c =? CR then
     let sepEnd := zlen a + 1 in
     if sepEnd <? zlen (a ++ c :: rest) then d ← index (a ++ c :: rest) sepEnd; Ret (Some (if d =? LF then sepEnd + 1 else sepEnd)) else Ret (Some sepEnd)
   else if c =? LF then Ret (Some (zlen a + 1)) else Ret None) = Ret ((fun t => zlen a + zlen t) <$> terminator (c :: rest)).
Proof.
  unfold terminator. destruct (c =? CR); [|by destruct (c =? LF)]. cbv zeta. rewrite zlen_app, zlen_cons. destruct rest as [|d rest].
  - rewrite zlen_nil, (proj2 (Z.ltb_ge _ _)) by lia. done.
  - rewrite zlen_cons. pose proof (zlen_nonneg rest). rewrite (proj2 (Z.ltb_lt _ _)) by lia. rewrite index_app_r by lia. change (index (c :: d :: rest) 1) with (Ret d). rewrite bind_ret.
    destruct (d =? LF); [|done]. cbn [fmap option_fmap option_map]. change (zlen [CR; LF]) with 2. do 2 f_equal. lia.
Qed.

Lemma line_table_loop_spec s fuel : forall pre cur rest offs,
  s = pre ++ cur ++ rest -> (length rest < fuel)%nat ->
  NewLineTableAt_loop fuel s (zlen (pre ++ cur)) (zlen pre) offs = Ret (offs ++ spans_from (zlen pre) (split_lines cur rest)).
Proof.
  induction fuel as [|fuel IH]; intros pre cur rest offs Hs Hf; [lia|]. cbn [NewLineTableAt_loop].
  assert (NewSpan (zlen pre) (zlen (pre ++ cur)) = Ret (MkSpan (zlen pre) (zlen pre + zlen cur))) as Hspan by (rewrite ranges_NewSpan_ok by zlia; by rewrite zlen_app).
  destruct rest as [|c rest]; [rewrite app_nil_r in Hs; subst s; by rewrite Z.ltb_irrefl, Hspan|]. cbn [length] in Hf.
  rewrite (proj2 (Z.ltb_lt _ _)) by (subst s; zlia). rewrite app_assoc in Hs. rewrite Hs at 1. rewrite line_index_at, bind_ret, Hs, line_sep_end, bind_ret, <- Hs.
  destruct (terminator (c :: rest)) as [t|] eqn:Et; cbn [fmap option_fmap option_map].
  - apply terminator_Some in Et as (Hne & rest' & Heq & ->). rewrite Hspan, bind_ret. specialize (IH (pre ++ cur ++ t) [] rest' (offs ++ [MkSpan (zlen pre) (zlen pre + zlen cur)])). rewrite app_nil_r in IH.
    replace (zlen (pre ++ cur) + zlen t) with (zlen (pre ++ cur ++ t)) by (rewrite !zlen_app; lia). rewrite IH; [|by rewrite Hs, Heq, <- !app_assoc|apply (f_equal length) in Heq; rewrite length_app in Heq; destruct t; [done|cbn in Heq; lia]].
    rewrite <- app_assoc. cbn [app spans_from]. by rewrite !zlen_app, Z.add_assoc.
  - rewrite (terminator_None c rest cur Et), <- (IH pre (cur ++ [c])); [|by rewrite Hs, <- !app_assoc|lia]. f_equal. rewrite !zlen_app. change (zlen [c]) with 1. lia.
Qed.

(** ** The spans index the text *)
Lemma spans_from_length off ls : length (spans_from off ls) = length ls.
Proof. revert off. induction ls as [|[l t] ls IH]; intros off; cbn; [done|]. by rewrite IH. Qed.

Lemma spans_from_bounds off ls i sp :
  spans_from off ls !! i = Some sp ->
  off <= start sp <= end_ sp /\ end_ sp <= off + zlen (join_lines ls).
Proof.
  revert off i. induction ls as [|[l t] ls IH]; intros off i; cbn [spans_from]; [done|].
  rewrite join_lines_cons, !zlen_app. pose proof (zlen_nonneg l). pose proof (zlen_nonneg t).
  pose proof (zlen_nonneg (join_lines ls)).
  destruct i as [|i]; cbn; [intros [= <-]; cbn; lia|]. intros H2%IH. lia.
Qed.

Lemma spans_from_sorted off ls i j a b :
  (i <= j)%nat -> spans_from off ls !! i = Some a -> spans_from off ls !! j = Some b ->
  start a <= start b.
Proof.
  revert off i j. induction ls as [|[l t] ls IH]; intros off i j Hij; [done|].
  cbn [spans_from]. pose proof (zlen_nonneg l). pose proof (zlen_nonneg t).
  destruct i as [|i], j as [|j]; cbn; intros Ha Hb; simplify_eq; try lia; cbn.
  - apply spans_from_bounds in Hb. lia.
  - by apply (IH _ i j) in Hb; [|lia|].
Qed.

Lemma spans_from_slice pre ls i sp :
  spans_from (zlen pre) ls !! i = Some sp ->
  exists l, ls.*1 !! i = Some l /\
            slice (pre ++ join_lines ls) (start sp) (end_ sp) = Ret l.
Proof.
  revert pre i. induction ls as [|[l t] ls IH]; intros pre i; [done|].
  cbn [spans_from]. rewrite join_lines_cons. destruct i as [|i]; cbn.
  - intros [= <-]. exists l. split; [done|]. cbn [start end_].
    rewrite slice_in_range by zlia. f_equal.
    replace (Z.to_nat (zlen pre)) with (length pre) by (unfold zlen; lia).
    rewrite drop_app_length. replace (Z.to_nat (zlen pre + zlen l - zlen pre)) with (length l)
      by (unfold zlen; lia). by rewrite take_app_length.
  - intros Hi. replace (zlen pre + zlen l + zlen t) with (zlen (pre ++ l ++ t)) in Hi by zlia.
    destruct (IH _ _ Hi) as (l' & Hl' & Hs). exists l'. split; [done|].
    by rewrite <- !app_assoc in Hs.
Qed.

Lemma split_lines_count s cur : zlen (split_lines cur s) <= zlen s + 1.
Proof.
  revert s cur. apply (line_split_ind (fun cur s => zlen (split_lines cur s) <= zlen s + 1)).
  - done.
  - intros cur c s E1 E2 IH. rewrite split_lines_plain by done. zlia.
  - intros cur s IH. rewrite split_lines_lf. zlia.
  - done.
  - intros cur d s Ed IH. rewrite split_lines_cr by done. zlia.
  - intros cur s IH. rewrite split_lines_crlf. zlia.
Qed.

Lemma line_table_new s n :
  NewLineTableAt s n =
    if n <? 1 then Panic PreconditionViolation
    else Ret (MkLineTable s n (spans_from 0 (split_lines [] s))).
Proof.
  unfold NewLineTableAt. destruct (n <? 1); [done|]. rewrite bind_ret.
  pose proof (line_table_loop_spec s (S (length s)) [] [] s [] eq_refl ltac:(lia)) as E.
  change (zlen (@nil Z ++ [])) with 0 in E. change (zlen (@nil Z)) with 0 in E. by rewrite E.
Qed.

(** One line of the table. *)
Lemma line_table_line s n (i : nat) sp :
  spans_from 0 (split_lines [] s) !! i = Some sp ->
  exists l, (split_lines [] s).*1 !! i = Some l /\ forall k,
    line (MkLineTable s n (spans_from 0 (split_lines [] s))) k sp = Ret (MkLine l sp (int64 (n + k))).
Proof.
  intros Hi. pose proof (line_split_concat s []) as Hj. cbn in Hj.
  destruct (spans_from_slice [] _ _ _ Hi) as (l & Hl & Hs). exists l. split; [done|].
  intros k. unfold line, Start, End. cbn [text startLineNumber].
  rewrite app_nil_l, Hj in Hs. by rewrite Hs.
Qed.

Lemma line_table_Lines_from s n (k : nat) offs :
  drop k (spans_from 0 (split_lines [] s)) = offs ->
  exists lines,
    Lines_from (MkLineTable s n (spans_from 0 (split_lines [] s))) (Z.of_nat k) offs = Ret lines /\
    map ltext lines = drop k ((split_lines [] s).*1) /\ map span lines = offs /\
    map lineNo lines = map (fun i => int64 (n + Z.of_nat i)) (seq k (length offs)).
Proof.
  revert k. induction offs as [|sp offs IH]; intros k Hk.
  - exists []. cbn. split_and!; try done. symmetry. apply drop_ge.
    apply (f_equal length) in Hk. rewrite length_drop, spans_from_length in Hk.
    rewrite length_fmap. cbn in Hk. lia.
  - assert (spans_from 0 (split_lines [] s) !! k = Some sp) as Hsp.
    { pose proof (lookup_drop (spans_from 0 (split_lines [] s)) k 0) as E.
      rewrite Hk, Nat.add_0_r in E. by rewrite <- E. }
    destruct (line_table_line s n k sp Hsp) as (l & Hl & Hline).
    destruct (IH (S k)) as (lines & HL & Ht & Hs & Hno).
    { by rewrite <- Nat.add_1_r, <- drop_drop, Hk. }
    exists (MkLine l sp (int64 (n + Z.of_nat k)) :: lines).
    cbn [Lines_from]. rewrite Hline, bind_ret.
    replace (Z.of_nat k + 1) with (Z.of_nat (S k)) by lia. rewrite HL. split; [done|].
    cbn [map ltext span lineNo length seq]. rewrite Ht, Hs, Hno. split_and!; try done.
    symmetry. by apply drop_S.
Qed.

(** a line table splits its text exactly: the texts of its lines and their
    terminators ("\r\n", "\n", or a '\r' not followed by '\n') concatenate to
    the text, no line contains a terminator byte, the lines are numbered from
    the given number, their spans are cumulative offsets, and iterating over
    them never slices out of range; a start number below 1 is rejected. *)
Theorem line_table_lines (s : gostring) (n : Z) :
  if n <? 1 then NewLineTableAt s n = Panic PreconditionViolation
  else exists t ls lines,
    NewLineTableAt s n = Ret t /\ TextLen t = zlen s /\
    join_lines ls = s /\ lines_ok ls /\ LineCount t = zlen ls /\
    Lines t = Ret lines /\ map Text lines = ls.*1 /\ map LineSpan lines = spans_from 0 ls /\
    map LineNumber lines = map (fun i => int64 (n + Z.of_nat i)) (seq 0 (length ls)).
Proof.
  rewrite line_table_new. destruct (n <? 1); [done|].
  destruct (line_table_Lines_from s n 0 _ eq_refl) as (lines & HL & Ht & Hs & Hno).
  rewrite drop_0 in *. rewrite spans_from_length in Hno.
  exists (MkLineTable s n (spans_from 0 (split_lines [] s))), (split_lines [] s), lines.
  split_and!; try done.
  - by rewrite line_split_concat.
  - apply line_split_ok. split; apply not_elem_of_nil.
  - unfold LineCount, zlen. cbn [lineOffsets]. by rewrite spans_from_length.
Qed.

(** Looking up a byte offset of the text returns the line with the last
    start at or before that offset (so an offset inside a terminator belongs to
    the line it ends, and the offset after the text to the last line), by a
    binary search that always terminates and never panics; any other offset is
    rejected. *)
Theorem line_table_lookup (s : gostring) (n o : Z) :
  1 <= n -> zlen s < MaxInt ->
  exists t, NewLineTableAt s n = Ret t /\
    if (0 <=? o) && (o <=? zlen s) then
      exists (i : nat) l sp,
        LineAtByteOffset t o = Ret l /\ lineOffsets t !! i = Some sp /\
        LineSpan l = sp /\ LineNumber l = int64 (n + Z.of_nat i) /\
        (split_lines [] s).*1 !! i = Some (Text l) /\ Start sp <= o /\
        (forall sp', lineOffsets t !! S i = Some sp' -> o < Start sp')
    else LineAtByteOffset t o = Panic PreconditionViolation.
Proof.
  intros Hn Hlen. rewrite line_table_new, (proj2 (Z.ltb_ge n 1)) by lia.
  set (offs := spans_from 0 (split_lines [] s)). exists (MkLineTable s n offs). split; [done|].
  unfold LineAtByteOffset. cbn [text lineOffsets].
  destruct (Z.leb_spec 0 o) as [H0|H0]; cbn [andb]; [|by rewrite (proj2 (Z.ltb_lt o 0)) by lia].
  rewrite (proj2 (Z.ltb_ge o 0)) by lia. rewrite bind_ret.
  destruct (Z.leb_spec o (zlen s)) as [H1|H1]; [|by rewrite (proj2 (Z.ltb_lt _ o)) by lia].
  rewrite (proj2 (Z.ltb_ge _ o)) by lia. rewrite bind_ret.
  assert (0 < zlen offs) as Hpos.
  { unfold offs, zlen. rewrite spans_from_length.
    destruct (split_lines_cons [] s) as (p & ls & ->). cbn. lia. }
  assert (zlen offs <= MaxInt) as Hmax.
  { unfold offs, zlen. rewrite spans_from_length. pose proof (split_lines_count s []).
    unfold zlen in *. lia. }
  assert (forall i : nat, Z.of_nat i < zlen offs -> exists sp, offs !! i = Some sp) as Hget.
  { intros i Hi. apply lookup_lt_is_Some_2. unfold zlen in Hi. lia. }
  assert (zlen (join_lines (split_lines [] s)) = zlen s) as Hj by (by rewrite line_split_concat).
  destruct (Z.eqb_spec o (zlen s)) as [Ho|Ho].
  - destruct (Hget (Z.to_nat (zlen offs - 1))) as [sp Hsp]; [lia|].
    destruct (line_table_line s n _ sp Hsp) as (l & Hl & Hline). fold offs in Hline.
    exists (Z.to_nat (zlen offs - 1)), (MkLine l sp (int64 (n + (zlen offs - 1)))), sp.
    rewrite (proj2 (index_lookup _ _ sp)) by (split; [lia|done]).
    rewrite bind_ret, Hline. split_and!; try done.
    + cbn. do 2 f_equal. lia.
    + apply spans_from_bounds in Hsp. unfold Start. lia.
    + intros sp' H%lookup_lt_Some. unfold zlen in Hpos, H. lia.
  - set (q := fun i => default false ((fun sp => o <? Start sp) <$> (offs !! Z.to_nat i))).
    destruct (Search_least (zlen offs)
      (fun i => sp ← index offs i; Ret (o <? Start sp)) q) as (r & Hr & Hr0 & Hlo & Hhi).
    + lia.
    + intros i Hi. destruct (Hget (Z.to_nat i)) as [sp Hsp]; [lia|].
      rewrite (proj2 (index_lookup _ _ sp)) by (split; [lia|done]). unfold q. by rewrite Hsp.
    + intros i j Hij Hjn. unfold q. destruct (Hget (Z.to_nat i)) as [a Ha]; [lia|].
      destruct (Hget (Z.to_nat j)) as [b Hb]; [lia|]. rewrite Ha, Hb.
      change ((o <? Start a) = true -> (o <? Start b) = true).
      pose proof (spans_from_sorted 0 _ (Z.to_nat i) (Z.to_nat j) a b ltac:(lia) Ha Hb).
      unfold Start. lia.
    + rewrite Hr, bind_ret.
      assert (1 <= r) as Hr1.
      { destruct (decide (r = 0)) as [->|]; [exfalso|lia]. specialize (Hhi 0 ltac:(lia)).
        unfold q, offs in Hhi. destruct (split_lines_cons [] s) as ((l0 & t0) & ls & E).
        rewrite E in Hhi. change ((o <? 0) = true) in Hhi. lia. }
      rewrite (proj2 (Z.eqb_neq r 0)) by lia. rewrite bind_ret.
      destruct (Hget (Z.to_nat (r - 1))) as [sp Hsp]; [lia|].
      destruct (line_table_line s n _ sp Hsp) as (l & Hl & Hline). fold offs in Hline.
      exists (Z.to_nat (r - 1)), (MkLine l sp (int64 (n + (r - 1)))), sp.
      rewrite (proj2 (index_lookup _ _ sp)) by (split; [lia|done]).
      rewrite bind_ret, Hline. split_and!; try done.
      * cbn. do 2 f_equal. lia.
      * specialize (Hlo (r - 1) ltac:(lia)). unfold q in Hlo. rewrite Hsp in Hlo.
        change ((o <? Start sp) = false) in Hlo. lia.
      * intros sp' Hsp'. pose proof (lookup_lt_Some _ _ _ Hsp') as Hlt.
        specialize (Hhi r ltac:(unfold zlen; lia)). unfold q in Hhi.
        replace (Z.to_nat r) with (S (Z.to_nat (r - 1))) in Hhi by lia. rewrite Hsp' in Hhi.
        change ((o <? Start sp') = true) in Hhi. lia.
Qed.

Lemma line_table_lookup_witness :
  exists t, NewLineTableAt (str "ab") 1 = Ret t /\
    exists l sp, LineAtByteOffset t 1 = Ret l /\ LineSpan l = sp /\ Start sp <= 1.
Proof.
  destruct (line_table_lookup (str "ab") 1 1) as (t & Ht & H); [lia|vm_compute; reflexivity|].
  exists t. split; [exact Ht|].
  change ((0 <=? 1) && (1 <=? zlen (str "ab"))) with true in H.
  destruct H as (i & l & sp & H1 & _ & H2 & _ & _ & H3 & _). exists l, sp. auto.
Defined.
