(* ===== verification/GoUtf8.v ===== *)
(** * UTF-8 decoding of the Go standard library ([go/src/unicode/utf8/utf8.go])

    The functions [base/utf8] is built on, against the grammar of RFC 3629
    section 4.  A rune has at most 21 bits, so the shifts of the decoder, done
    in Go on 32-bit integers, lose no bits. *)
From S2P Require Import Prelude.

Definition RuneError : Z := 0xFFFD.
Definition RuneSelf : Z := 0x80.
Definition MaxRune : Z := 0x10FFFF.
Definition surrogateMin : Z := 0xD800.
Definition surrogateMax : Z := 0xDFFF.
Definition maskx : Z := 63.
Definition mask2 : Z := 31.
Definition mask3 : Z := 15.
Definition mask4 : Z := 7.
Definition rune1Max : Z := 2 ^ 7 - 1.
Definition rune2Max : Z := 2 ^ 11 - 1.
Definition rune3Max : Z := 2 ^ 16 - 1.
Definition locb : Z := 128.
Definition hicb : Z := 191.
Definition xx : Z := 0xF1.
Definition as_ : Z := 0xF0.
Definition s1 : Z := 0x02.
Definition s2 : Z := 0x13.
Definition s3 : Z := 0x03.
Definition s4 : Z := 0x23.
Definition s5 : Z := 0x34.
Definition s6 : Z := 0x04.
Definition s7 : Z := 0x44.

(** The table of the first bytes, row by row. *)
Definition first : list Z :=
  replicate 128 as_ ++
  replicate 64 xx ++
  [xx; xx; s1; s1; s1; s1; s1; s1; s1; s1; s1; s1; s1; s1; s1; s1] ++
  replicate 16 s1 ++
  [s2; s3; s3; s3; s3; s3; s3; s3; s3; s3; s3; s3; s3; s4; s3; s3] ++
  [s5; s6; s6; s6; s7; xx; xx; xx; xx; xx; xx; xx; xx; xx; xx; xx].

Record acceptRange := MkAcceptRange { lo : Z; hi : Z }.
Definition acceptRanges : list acceptRange :=
  [MkAcceptRange locb hicb; MkAcceptRange 0xA0 hicb; MkAcceptRange locb 0x9F;
   MkAcceptRange 0x90 hicb; MkAcceptRange locb 0x8F] ++ replicate 11 (MkAcceptRange 0 0).

Definition FullRune (p : gostring) : go bool :=
  let n := zlen p in
  if n =? 0 then Ret false
  else
    p0 ← index p 0;
    x ← index first p0;
    if Z.land x 7 <=? n then Ret true
    else
      accept ← index acceptRanges (Z.shiftr x 4);
      bad1 ← (if 1 <? n then p1 ← index p 1; Ret ((p1 <? lo accept) || (hi accept <? p1)) else Ret false);
      if (bad1 : bool) then Ret true
      else
        bad2 ← (if 2 <? n then p2 ← index p 2; Ret ((p2 <? locb) || (hicb <? p2)) else Ret false);
        if (bad2 : bool) then Ret true else Ret false.

Definition decodeRuneInStringSlow (s : gostring) : go (Z * Z) :=
  let n := zlen s in
  if n <? 1 then Ret (RuneError, 0)
  else
    b0 ← index s 0;
    x ← index first b0;
    if as_ <=? x then
      let mask := Z.shiftr (sint_wrap 32 (Z.shiftl x 31)) 31 in
      Ret (Z.lor (Z.ldiff b0 mask) (Z.land RuneError mask), 1)
    else
      let sz := Z.land x 7 in
      accept ← index acceptRanges (Z.shiftr x 4);
      if n <? sz then Ret (RuneError, 1)
      else
        b1 ← index s 1;
        if (b1 <? lo accept) || (hi accept <? b1) then Ret (RuneError, 1)
        else if sz <=? 2 then
          Ret (Z.lor (Z.shiftl (Z.land b0 mask2) 6) (Z.land b1 maskx), 2)
        else
          b2 ← index s 2;
          if (b2 <? locb) || (hicb <? b2) then Ret (RuneError, 1)
          else if sz <=? 3 then
            Ret (Z.lor (Z.lor (Z.shiftl (Z.land b0 mask3) 12) (Z.shiftl (Z.land b1 maskx) 6))
                   (Z.land b2 maskx), 3)
          else
            b3 ← index s 3;
            if (b3 <? locb) || (hicb <? b3) then Ret (RuneError, 1)
            else
              Ret (Z.lor (Z.lor (Z.lor (Z.shiftl (Z.land b0 mask4) 18) (Z.shiftl (Z.land b1 maskx) 12))
                     (Z.shiftl (Z.land b2 maskx) 6)) (Z.land b3 maskx), 4).

Definition DecodeRuneInString (s : gostring) : go (Z * Z) :=
  ascii ← (if bool_decide (s <> []) then b0 ← index s 0; Ret (b0 <? RuneSelf) else Ret false);
  if (ascii : bool) then b0 ← index s 0; Ret (b0, 1) else decodeRuneInStringSlow s.

Definition RuneLen (r : Z) : Z :=
  if r <? 0 then -1
  else if r <=? rune1Max then 1
  else if r <=? rune2Max then 2
  else if (surrogateMin <=? r) && (r <=? surrogateMax) then -1
  else if r <=? rune3Max then 3
  else if r <=? MaxRune then 4
  else -1.

Definition RuneStart (b : Z) : bool := negb (Z.land b 0xC0 =? 0x80).

(** ** The grammar of RFC 3629 *)
Definition tail_byte (b : Z) : bool := (0x80 <=? b) && (b <=? 0xBF).

Definition utf8_char (e : gostring) : bool :=
  match e with
  | [b0] => (0 <=? b0) && (b0 <=? 0x7F)
  | [b0; b1] => (0xC2 <=? b0) && (b0 <=? 0xDF) && tail_byte b1
  | [b0; b1; b2] =>
      (((b0 =? 0xE0) && (0xA0 <=? b1) && (b1 <=? 0xBF))
       || ((0xE1 <=? b0) && (b0 <=? 0xEC) && tail_byte b1)
       || ((b0 =? 0xED) && (0x80 <=? b1) && (b1 <=? 0x9F))
       || ((0xEE <=? b0) && (b0 <=? 0xEF) && tail_byte b1)) && tail_byte b2
  | [b0; b1; b2; b3] =>
      (((b0 =? 0xF0) && (0x90 <=? b1) && (b1 <=? 0xBF))
       || ((0xF1 <=? b0) && (b0 <=? 0xF3) && tail_byte b1)
       || ((b0 =? 0xF4) && (0x80 <=? b1) && (b1 <=? 0x8F))) && tail_byte b2 && tail_byte b3
  | _ => false
  end.

(** The scalar value an encoding stands for. *)
Definition utf8_value (e : gostring) : Z :=
  match e with
  | [b0] => b0
  | [b0; b1] => (b0 - 0xC0) * 2 ^ 6 + (b1 - 0x80)
  | [b0; b1; b2] => (b0 - 0xE0) * 2 ^ 12 + (b1 - 0x80) * 2 ^ 6 + (b2 - 0x80)
  | [b0; b1; b2; b3] =>
      (b0 - 0xF0) * 2 ^ 18 + (b1 - 0x80) * 2 ^ 12 + (b2 - 0x80) * 2 ^ 6 + (b3 - 0x80)
  | _ => -1
  end.

Definition valid_utf8 (s : gostring) : Prop := exists es, Forall (fun e => utf8_char e = true) es /\ concat es = s.

(** ** The table agrees with the grammar *)

(** The lead bytes: the width of the encoding and the range of the second byte. *)
Definition lead_info (b : Z) : option (Z * Z * Z) :=
  if (0xC2 <=? b) && (b <=? 0xDF) then Some (2, 0x80, 0xBF)
  else if b =? 0xE0 then Some (3, 0xA0, 0xBF)
  else if (0xE1 <=? b) && (b <=? 0xEC) then Some (3, 0x80, 0xBF)
  else if b =? 0xED then Some (3, 0x80, 0x9F)
  else if (0xEE <=? b) && (b <=? 0xEF) then Some (3, 0x80, 0xBF)
  else if b =? 0xF0 then Some (4, 0x90, 0xBF)
  else if (0xF1 <=? b) && (b <=? 0xF3) then Some (4, 0x80, 0xBF)
  else if b =? 0xF4 then Some (4, 0x80, 0x8F)
  else None.

(** Decide a property of all bytes by evaluation. *)
Lemma byte_forall (P : Z -> bool) :
  forallb P (map Z.of_nat (seq 0 256)) = true -> forall b, is_byte b -> P b = true.
Proof.
  intros H b Hb. rewrite forallb_forall in H. apply H. apply in_map_iff.
  exists (Z.to_nat b). unfold is_byte in Hb. split; [lia|]. apply in_seq. lia.
Qed.

Definition first_check (b : Z) : bool :=
  match index first b with
  | Ret x =>
      match lead_info b with
      | None => if b <? 0x80 then x =? as_ else x =? xx
      | Some (w, l, h) =>
          (x <? as_) && (Z.land x 7 =? w) && (0x80 <=? b) &&
          match index acceptRanges (Z.shiftr x 4) with
          | Ret a => (lo a =? l) && (hi a =? h)
          | _ => false
          end
      end
  | _ => false
  end.

Lemma utf8_first_spec b :
  is_byte b ->
  exists x, index first b = Ret x /\
    match lead_info b with
    | None => x = if b <? 0x80 then as_ else xx
    | Some (w, l, h) =>
        x < as_ /\ Z.land x 7 = w /\ 0x80 <= b /\
        index acceptRanges (Z.shiftr x 4) = Ret (MkAcceptRange l h)
    end.
Proof.
  intros Hb. assert (first_check b = true) as H.
  { revert b Hb. apply byte_forall. vm_compute. reflexivity. }
  unfold first_check in H. destruct (index first b) as [x| |]; try done.
  exists x. split; [done|]. destruct (lead_info b) as [[[w l] h]|].
  - rewrite !andb_true_iff in H. destruct H as (((H1 & H2) & H3) & H4).
    destruct (index acceptRanges _) as [[l' h']| |]; try done. cbn in H4.
    rewrite andb_true_iff in H4. split_and!; [lia..|]. do 2 f_equal; lia.
  - destruct (b <? 0x80); lia.
Qed.

Lemma utf8_RuneStart b : is_byte b -> RuneStart b = negb (tail_byte b).
Proof.
  intros Hb. apply eqb_true_iff. revert b Hb. apply byte_forall. vm_compute. reflexivity.
Qed.

(** The payload of a byte below a mask of ones. *)
Lemma utf8_land_payload b n t :
  0 <= n -> 2 ^ n * t <= b < 2 ^ n * (t + 1) -> Z.land b (Z.ones n) = b - 2 ^ n * t.
Proof.
  intros Hn Hb. rewrite Z.land_ones by done. symmetry.
  apply (Z.mod_unique_pos _ _ t); lia.
Qed.

(** [lead_info] of a byte determines its range. *)
Ltac lead_cases b :=
  unfold lead_info;
  repeat match goal with
  | |- context [if ?c then _ else _] => destruct c eqn:?
  end.

Lemma utf8_lead_range b w l h :
  lead_info b = Some (w, l, h) ->
  0x80 <= l /\ h <= 0xBF /\
  ((w = 2 /\ 0xC2 <= b <= 0xDF) \/ (w = 3 /\ 0xE0 <= b <= 0xEF) \/ (w = 4 /\ 0xF0 <= b <= 0xF4)).
Proof. lead_cases b; intros [= <- <- <-]; lia. Qed.

(** The grammar in terms of [lead_info]. *)
Lemma utf8_char_1 b0 : utf8_char [b0] = (0 <=? b0) && (b0 <=? 0x7F).
Proof. done. Qed.
Lemma utf8_char_lead b0 rest :
  rest <> [] ->
  utf8_char (b0 :: rest) =
    match lead_info b0 with
    | None => false
    | Some (w, l, h) =>
        (zlen rest =? w - 1) && (forallb tail_byte (tl rest)) &&
        match rest with b1 :: _ => (l <=? b1) && (b1 <=? h) | [] => false end
    end.
Proof.
  intros Hne. apply eq_true_iff_eq.
  destruct rest as [|b1 [|b2 [|b3 [|b4 rest]]]]; [done|..].
  all: cbn [utf8_char tl forallb]; unfold tail_byte.
  all: rewrite ?zlen_cons, ?zlen_nil.
  all: lead_cases b0; try pose proof (zlen_nonneg rest); cbn [andb]; try lia.
Qed.

(** ** The decoder *)

(** The encoded code point a string starts with, if any. *)
Definition lead_width (b : Z) : Z := match lead_info b with Some (w, _, _) => w | None => 1 end.
Definition utf8_prefix (s : gostring) : option gostring :=
  match s with
  | [] => None
  | b0 :: _ => let e := take (Z.to_nat (lead_width b0)) s in if utf8_char e then Some e else None
  end.

Lemma utf8_char_width e b rest : e = b :: rest -> utf8_char e = true -> zlen e = lead_width b.
Proof.
  intros -> He. unfold lead_width. destruct rest as [|b1 rest].
  - rewrite utf8_char_1 in He. destruct (lead_info b) as [[[w l] h]|] eqn:E; [|done].
    apply utf8_lead_range in E. lia.
  - rewrite utf8_char_lead in He by done. destruct (lead_info b) as [[[w l] h]|]; [|done].
    rewrite !andb_true_iff in He. rewrite zlen_cons. lia.
Qed.

Lemma utf8_char_length e : utf8_char e = true -> 1 <= zlen e <= 4.
Proof. destruct e as [|? [|? [|? [|? [|? ?]]]]]; cbn; try done; intros _; unfold zlen; cbn; lia. Qed.

Lemma utf8_prefix_char e rest : utf8_char e = true -> utf8_prefix (e ++ rest) = Some e.
Proof.
  intros He. destruct e as [|b e]; [done|]. cbn [app utf8_prefix].
  rewrite <- (utf8_char_width (b :: e) b e eq_refl He).
  replace (Z.to_nat (zlen (b :: e))) with (length (b :: e)) by (unfold zlen; lia).
  change (b :: e ++ rest) with ((b :: e) ++ rest). by rewrite (take_app_length (b :: e) rest), He.
Qed.

Lemma utf8_prefix_Some s e :
  utf8_prefix s = Some e -> utf8_char e = true /\ exists rest, s = e ++ rest.
Proof.
  destruct s as [|b s]; [done|]. unfold utf8_prefix.
  destruct (utf8_char (take _ _)) eqn:E; [|done]. intros [= <-]. split; [done|].
  eexists. symmetry. apply take_drop.
Qed.

Lemma utf8_take_S {A} (b : A) w l :
  1 <= w -> take (Z.to_nat w) (b :: l) = b :: take (Z.to_nat (w - 1)) l.
Proof. intros. by replace (Z.to_nat w) with (S (Z.to_nat (w - 1))) by lia. Qed.

(** The arithmetic of the payload bits. *)
Lemma utf8_payloads b n x :
  x = 2 ^ n - 1 -> 0 <= n -> forall t, 2 ^ n * t <= b < 2 ^ n * (t + 1) ->
  Z.land b x = b - 2 ^ n * t.
Proof. intros -> Hn t Hb. rewrite <- utf8_land_payload by done. f_equal. rewrite Z.ones_equiv. lia. Qed.

Lemma utf8_tail_payload b : tail_byte b = true -> Z.land b maskx = b - 0x80 /\ 0 <= b - 0x80 < 2 ^ 6.
Proof.
  unfold tail_byte. rewrite andb_true_iff. intros Hb.
  split; [|lia]. apply (utf8_payloads b 6 maskx eq_refl ltac:(lia) 2). lia.
Qed.

Lemma utf8_value_lors a p q r :
  0 <= p < 2 ^ 6 -> 0 <= q < 2 ^ 6 -> 0 <= r < 2 ^ 6 ->
  Z.lor (Z.shiftl a 6) r = a * 2 ^ 6 + r /\
  Z.lor (Z.lor (Z.shiftl a 12) (Z.shiftl q 6)) r = a * 2 ^ 12 + q * 2 ^ 6 + r /\
  Z.lor (Z.lor (Z.lor (Z.shiftl a 18) (Z.shiftl p 12)) (Z.shiftl q 6)) r =
    a * 2 ^ 18 + p * 2 ^ 12 + q * 2 ^ 6 + r.
Proof.
  intros Hp Hq Hr. rewrite <- !Z.lor_assoc.
  rewrite (lor_shiftl_add q 6 r) by lia. rewrite (lor_shiftl_add a 6 r) by lia.
  rewrite (lor_shiftl_add a 12) by lia. rewrite (lor_shiftl_add p 12) by lia.
  rewrite (lor_shiftl_add a 18) by lia. lia.
Qed.

(** [decodeRuneInStringSlow] on a lead byte of a longer encoding. *)
Lemma utf8_decode_long b0 rest w l h :
  is_byte b0 -> lead_info b0 = Some (w, l, h) ->
  DecodeRuneInString (b0 :: rest) =
    Ret (match utf8_prefix (b0 :: rest) with
         | Some e => (utf8_value e, zlen e)
         | None => (RuneError, 1)
         end).
Proof.
  intros Hb E. destruct (utf8_first_spec b0 Hb) as (x & Hx & H). rewrite E in H.
  destruct H as (Hxa & Hw & H80 & Hacc). pose proof (utf8_lead_range _ _ _ _ E) as (Hl & Hh & Hr).
  unfold DecodeRuneInString. rewrite bool_decide_true by done.
  change (index (b0 :: rest) 0) with (Ret b0). rewrite !bind_ret.
  unfold RuneSelf. rewrite (proj2 (Z.ltb_ge b0 0x80)) by lia. rewrite ?bind_ret.
  unfold decodeRuneInStringSlow. rewrite zlen_cons. pose proof (zlen_nonneg rest).
  rewrite (proj2 (Z.ltb_ge _ 1)) by lia.
  change (index (b0 :: rest) 0) with (Ret b0). rewrite bind_ret, Hx, bind_ret.
  rewrite (proj2 (Z.leb_gt _ _)) by lia. rewrite Hacc, Hw, bind_ret. cbn [lo hi].
  unfold utf8_prefix, lead_width. rewrite E, utf8_take_S by lia.
  destruct (Z.ltb_spec (zlen rest + 1) w) as [Hs|Hs].
  { destruct (utf8_char (b0 :: _)) eqn:Ec; [exfalso|done].
    apply (utf8_char_width _ _ _ eq_refl) in Ec. unfold lead_width in Ec. rewrite E in Ec.
    rewrite zlen_cons, zlen_take in Ec. lia. }
  destruct rest as [|b1 rest]; [rewrite zlen_nil in Hs; lia|]. rewrite zlen_cons in *.
  change (index (b0 :: b1 :: rest) 1) with (Ret b1). rewrite !bind_ret.
  rewrite (utf8_take_S b1) by lia. rewrite utf8_char_lead by done. rewrite E. cbn [tl].
  rewrite zlen_cons, zlen_take, (Z.min_l (Z.of_nat _)) by lia.
  rewrite Z2Nat.id by lia. rewrite (proj2 (Z.eqb_eq _ (w - 1))) by lia. rewrite andb_true_l.
  destruct ((b1 <? l) || (h <? b1)) eqn:E1.
  { replace ((l <=? b1) && (b1 <=? h)) with false by lia. by rewrite andb_false_r. }
  replace ((l <=? b1) && (b1 <=? h)) with true by lia. rewrite andb_true_r.
  assert (tail_byte b1 = true) as Ht1 by (unfold tail_byte; lia).
  destruct (utf8_tail_payload b1 Ht1) as [Hp1 Hp1'].
  destruct Hr as [[-> Hr]|[[-> Hr]|[-> Hr]]]; cbn [Z.leb Z.compare Pos.compare Pos.compare_cont].
  - change (take (Z.to_nat (2 - 1 - 1)) rest) with (@nil Z). cbn [forallb].
    f_equal. f_equal. rewrite Hp1.
    rewrite (utf8_payloads b0 5 mask2 eq_refl ltac:(lia) 6) by lia.
    rewrite (proj1 (utf8_value_lors _ 0 0 _ ltac:(lia) ltac:(lia) Hp1')). cbn [utf8_value].
    lia.
  - destruct rest as [|b2 rest]; [rewrite zlen_nil in Hs; lia|].
    change (index (b0 :: b1 :: b2 :: rest) 2) with (Ret b2). rewrite !bind_ret.
    change (take (Z.to_nat (3 - 1 - 1)) (b2 :: rest)) with [b2]. cbn [forallb].
    rewrite andb_true_r. unfold locb, hicb.
    replace ((b2 <? 128) || (191 <? b2)) with (negb (tail_byte b2)) by (unfold tail_byte; lia).
    destruct (tail_byte b2) eqn:Ht2; cbn [negb]; [|done].
    destruct (utf8_tail_payload b2 Ht2) as [Hp2 Hp2']. f_equal. f_equal. rewrite Hp1, Hp2.
    rewrite (utf8_payloads b0 4 mask3 eq_refl ltac:(lia) 14) by lia.
    rewrite (proj1 (proj2 (utf8_value_lors _ 0 _ _ ltac:(lia) Hp1' Hp2'))). cbn [utf8_value]. lia.
  - destruct rest as [|b2 [|b3 rest]];
      [rewrite zlen_nil in Hs; lia|rewrite zlen_cons, zlen_nil in Hs; lia|].
    change (index (b0 :: b1 :: b2 :: b3 :: rest) 2) with (Ret b2).
    change (index (b0 :: b1 :: b2 :: b3 :: rest) 3) with (Ret b3). rewrite !bind_ret.
    change (take (Z.to_nat (4 - 1 - 1)) (b2 :: b3 :: rest)) with [b2; b3]. cbn [forallb].
    rewrite andb_true_r. unfold locb, hicb.
    replace ((b2 <? 128) || (191 <? b2)) with (negb (tail_byte b2)) by (unfold tail_byte; lia).
    destruct (tail_byte b2) eqn:Ht2; cbn [negb andb]; [|done]. rewrite ?bind_ret.
    replace ((b3 <? 128) || (191 <? b3)) with (negb (tail_byte b3)) by (unfold tail_byte; lia).
    destruct (tail_byte b3) eqn:Ht3; cbn [negb andb]; [|done].
    destruct (utf8_tail_payload b2 Ht2) as [Hp2 Hp2']. destruct (utf8_tail_payload b3 Ht3) as [Hp3 Hp3'].
    f_equal. f_equal. rewrite Hp1, Hp2, Hp3.
    rewrite (utf8_payloads b0 3 mask4 eq_refl ltac:(lia) 30) by lia.
    rewrite (proj2 (proj2 (utf8_value_lors _ _ _ _ Hp1' Hp2' Hp3'))). cbn [utf8_value]. lia.
Qed.

Lemma utf8_decode_spec s :
  is_gostring s ->
  DecodeRuneInString s =
    Ret (match s with
         | [] => (RuneError, 0)
         | _ => match utf8_prefix s with
                | Some e => (utf8_value e, zlen e)
                | None => (RuneError, 1)
                end
         end).
Proof.
  intros Hs. destruct s as [|b0 rest]; [done|].
  assert (is_byte b0) as Hb by (by inversion Hs).
  destruct (lead_info b0) as [[[w l] h]|] eqn:E; [by apply (utf8_decode_long b0 rest w l h)|].
  destruct (utf8_first_spec b0 Hb) as (x & Hx & H). rewrite E in H.
  unfold utf8_prefix, lead_width. rewrite E. change (Z.to_nat 1) with 1%nat. cbn [take].
  rewrite utf8_char_1. unfold DecodeRuneInString. rewrite bool_decide_true by done.
  change (index (b0 :: rest) 0) with (Ret b0). rewrite !bind_ret. unfold RuneSelf, is_byte in *.
  destruct (Z.ltb_spec b0 0x80).
  - replace ((0 <=? b0) && (b0 <=? 127)) with true by lia. done.
  - replace ((0 <=? b0) && (b0 <=? 127)) with false by lia. rewrite ?bind_ret.
    unfold decodeRuneInStringSlow. rewrite zlen_cons. pose proof (zlen_nonneg rest).
    rewrite (proj2 (Z.ltb_ge _ 1)) by lia.
    change (index (b0 :: rest) 0) with (Ret b0). rewrite bind_ret, Hx, H, bind_ret.
    change (as_ <=? xx) with true. cbn match.
    replace (Z.shiftr (sint_wrap 32 (Z.shiftl xx 31)) 31) with (-1) by (vm_compute; reflexivity).
    f_equal. f_equal. rewrite Z.ldiff_m1_r. by vm_compute.
Qed.

(** The encoding is the shortest one of a scalar value. *)
Lemma utf8_RuneLen_value e : utf8_char e = true -> RuneLen (utf8_value e) = zlen e.
Proof.
  unfold RuneLen, rune1Max, rune2Max, rune3Max, surrogateMin, surrogateMax, MaxRune.
  destruct e as [|b0 [|b1 [|b2 [|b3 [|b4 e]]]]]; cbn [utf8_char utf8_value]; try done;
    unfold tail_byte; intros H; zcase; try lia; unfold zlen; cbn; lia.
Qed.

(** No encoding is a proper prefix of another, so a valid text splits in one way. *)
Lemma utf8_chars_unique es es' :
  Forall (fun e => utf8_char e = true) es -> Forall (fun e => utf8_char e = true) es' ->
  concat es = concat es' -> es = es'.
Proof.
  intros H. revert es'. induction H as [|e es He Hes IH]; intros es' H' Heq.
  - destruct H' as [|e' es' He' _]; [done|]. destruct e'; [done|]. done.
  - destruct H' as [|e' es' He' Hes'].
    { destruct e; [done|]. done. }
    cbn [concat] in Heq. pose proof (utf8_prefix_char e (concat es) He) as P.
    rewrite Heq, utf8_prefix_char in P by done. injection P as ->.
    apply app_inv_head in Heq. f_equal. by apply IH.
Qed.

(** The truncated and malformed beginnings: [FullRune] is false exactly on the
    proper prefixes of encodings. *)
Lemma utf8_FullRune_true (s : gostring) b0 :
  is_byte b0 -> (zlen (b0 :: s) >= lead_width b0 \/
    exists w l h b1 s', lead_info b0 = Some (w, l, h) /\ s = b1 :: s' /\
      ((b1 < l \/ h < b1) \/ exists b2 s'', s' = b2 :: s'' /\ tail_byte b2 = false)) ->
  FullRune (b0 :: s) = Ret true.
Proof.
  intros Hb H. destruct (utf8_first_spec b0 Hb) as (x & Hx & Hinfo).
  unfold FullRune. pose proof (zlen_nonneg s). rewrite zlen_cons in *.
  rewrite (proj2 (Z.eqb_neq _ 0)) by lia.
  change (index (b0 :: s) 0) with (Ret b0). rewrite bind_ret, Hx, bind_ret.
  unfold lead_width in H. destruct (lead_info b0) as [[[w l] h]|] eqn:E.
  - destruct Hinfo as (_ & Hw & _ & Hacc). rewrite Hw.
    destruct (Z.leb_spec w (zlen s + 1)); [done|].
    destruct H as [H|(w' & l' & h' & b1 & s' & [= <- <- <-] & -> & Hbad)]; [lia|].
    rewrite Hacc, bind_ret. cbn [lo hi]. rewrite zlen_cons. pose proof (zlen_nonneg s').
    rewrite (proj2 (Z.ltb_lt 1 _)) by lia.
    change (index (b0 :: b1 :: s') 1) with (Ret b1). rewrite !bind_ret.
    destruct ((b1 <? l) || (h <? b1)) eqn:E1; [done|].
    destruct Hbad as [Hbad|(b2 & s'' & -> & Ht)]; [lia|].
    pose proof (zlen_nonneg s''). rewrite zlen_cons. rewrite (proj2 (Z.ltb_lt 2 _)) by lia.
    change (index (b0 :: b1 :: b2 :: s'') 2) with (Ret b2). rewrite !bind_ret.
    unfold tail_byte, locb, hicb in *. by replace ((b2 <? 128) || (191 <? b2)) with true by lia.
  - subst x. destruct (b0 <? 0x80); [change (Z.land as_ 7) with 0|change (Z.land xx 7) with 1];
      by rewrite (proj2 (Z.leb_le _ _)) by lia.
Qed.

Lemma utf8_FullRune_total s : is_gostring s -> exists x, FullRune s = Ret x.
Proof.
  intros Hs. destruct s as [|b0 s]; [by exists false|].
  assert (is_byte b0) as Hb by (by inversion Hs).
  destruct (lead_info b0) as [[[w l] h]|] eqn:E.
  - destruct (utf8_first_spec b0 Hb) as (x & Hx & Hinfo). rewrite E in Hinfo.
    destruct Hinfo as (_ & Hw & _ & Hacc). unfold FullRune.
    pose proof (zlen_nonneg s). rewrite zlen_cons. rewrite (proj2 (Z.eqb_neq _ 0)) by lia.
    change (index (b0 :: s) 0) with (Ret b0). rewrite bind_ret, Hx, bind_ret, Hw.
    destruct (w <=? zlen s + 1); [by eexists|]. rewrite Hacc, bind_ret.
    destruct s as [|b1 s]; [by exists false|]. rewrite zlen_cons. pose proof (zlen_nonneg s).
    rewrite (proj2 (Z.ltb_lt 1 _)) by lia. change (index (b0 :: b1 :: s) 1) with (Ret b1).
    rewrite !bind_ret. case_match; [by eexists|].
    destruct s as [|b2 s]; [by exists false|]. rewrite zlen_cons. pose proof (zlen_nonneg s).
    rewrite (proj2 (Z.ltb_lt 2 _)) by lia. change (index (b0 :: b1 :: b2 :: s) 2) with (Ret b2).
    rewrite !bind_ret. case_match; by eexists.
  - exists true. apply utf8_FullRune_true; [done|]. left. unfold lead_width. rewrite E, zlen_cons.
    pose proof (zlen_nonneg s). lia.
Qed.

(** ** Code points inside a valid text *)
Abbreviation utf8_chars es := (Forall (fun e => utf8_char e = true) es).

Lemma utf8_char_bytes e : utf8_char e = true -> is_gostring e.
Proof.
  unfold is_gostring, is_byte.
  destruct e as [|b0 [|b1 [|b2 [|b3 [|b4 e]]]]]; cbn [utf8_char]; try done; unfold tail_byte;
    intros H; repeat constructor; lia.
Qed.

Lemma utf8_chars_bytes es : utf8_chars es -> is_gostring (concat es).
Proof.
  induction 1 as [|e es He _ IH]; [by constructor|]. apply Forall_app. split; [|done].
  by apply utf8_char_bytes.
Qed.

(** A first byte followed by tail bytes. *)
Lemma utf8_char_shape e :
  utf8_char e = true -> exists b bs, e = b :: bs /\ tail_byte b = false /\ forallb tail_byte bs = true.
Proof.
  destruct e as [|b0 bs]; [done|]. intros H. exists b0, bs. split; [done|].
  destruct bs as [|b1 bs].
  - rewrite utf8_char_1 in H. unfold tail_byte. cbn. split; [lia|done].
  - rewrite utf8_char_lead in H by done. destruct (lead_info b0) as [[[w l] h]|] eqn:E; [|done].
    apply utf8_lead_range in E. rewrite !andb_true_iff in H. cbn [tl forallb] in *.
    destruct H as ((_ & H) & H1). rewrite H, andb_true_r. unfold tail_byte. lia.
Qed.

(** The code point of the byte at an offset. *)
Lemma utf8_locate (es : list gostring) p :
  0 <= p < zlen (concat es) ->
  exists es1 e es2, es = es1 ++ e :: es2 /\ zlen (concat es1) <= p < zlen (concat es1) + zlen e.
Proof.
  revert p. induction es as [|e es IH]; intros p; cbn [concat]; [unfold zlen; cbn; lia|].
  rewrite zlen_app. intros Hp. destruct (Z.ltb_spec p (zlen e)).
  - exists [], e, es. split; [done|]. change (zlen (concat [])) with 0. lia.
  - destruct (IH (p - zlen e)) as (es1 & e' & es2 & -> & H1); [lia|].
    exists (e :: es1), e', es2. split; [done|]. cbn [concat]. rewrite zlen_app. lia.
Qed.

Lemma utf8_concat_split (es1 : list gostring) (e : gostring) es2 :
  concat (es1 ++ e :: es2) = concat es1 ++ e ++ concat es2.
Proof. by rewrite concat_app. Qed.

(** Reading the byte at an offset of a code point. *)
Lemma utf8_byte_at (pre : gostring) b bs post k :
  is_byte b -> tail_byte b = false -> forallb tail_byte bs = true -> 0 <= k <= zlen bs ->
  exists c, index (pre ++ (b :: bs) ++ post) (zlen pre + k) = Ret c /\ RuneStart c = (k =? 0).
Proof.
  intros Hb Ht Hts Hk. rewrite index_app_r by lia. destruct (Z.eqb_spec k 0) as [->|Hk0].
  - exists b. split; [done|]. by rewrite utf8_RuneStart, Ht.
  - destruct (index_in_range bs (k - 1)) as [c Hc]; [lia|]. exists c. split.
    + replace k with (zlen [b] + (k - 1)) by (unfold zlen; cbn; lia).
      change ((b :: bs) ++ post) with ([b] ++ bs ++ post). rewrite index_app_r by lia.
      apply index_lookup in Hc as [H0 Hc]. apply index_lookup. split; [done|].
      by apply lookup_app_l_Some.
    + apply index_lookup in Hc as [_ Hc]. apply list_elem_of_lookup_2 in Hc.
      rewrite forallb_forall in Hts. apply list_elem_of_In in Hc. specialize (Hts _ Hc).
      rewrite utf8_RuneStart by (unfold tail_byte, is_byte in *; lia). by rewrite Hts.
Qed.
