(* ===== verification/Utf8Encode.v ===== *)
(** * UTF-8 encoding and validation of the Go standard library ([go/src/unicode/utf8/utf8.go])

    The encoder, the validator with its word-at-a-time scan of ASCII text, the
    decoder of the last rune and the rune count, against the grammar of GoUtf8.
    Platforms have 64-bit words. *)
From Stdlib Require Import Btauto.
From S2P Require Import Prelude GoUtf8.
#[local] Open Scope Z_scope.

Definition UTFMax : Z := 4.
Definition tx : Z := 0x80.
Definition t2 : Z := 0xC0.
Definition t3 : Z := 0xE0.
Definition t4 : Z := 0xF0.
Definition runeErrorByte0 : Z := Z.lor t3 (Z.shiftr RuneError 12).
Definition runeErrorByte1 : Z := Z.lor tx (Z.land (Z.shiftr RuneError 6) maskx).
Definition runeErrorByte2 : Z := Z.lor tx (Z.land RuneError maskx).

(** [byte(x)] and [uint32(r)] *)
Definition byte (x : Z) : Z := uint_wrap 8 x.
Definition uint32 (r : Z) : Z := uint_wrap 32 r.
(** [byte(r>>k)&maskx] with the mark of a continuation byte *)
Definition tail_of (r k : Z) : Z := Z.lor tx (Z.land (byte (Z.shiftr r k)) maskx).

Definition ValidRune (r : Z) : bool :=
  if (0 <=? r) && (r <? surrogateMin) then true else (surrogateMax <? r) && (r <=? MaxRune).

Definition appendRuneNonASCII (p : gostring) (r : Z) : gostring :=
  let i := uint32 r in
  if i <=? rune2Max then p ++ [Z.lor t2 (byte (Z.shiftr r 6)); tail_of r 0]
  else if (i <? surrogateMin) || ((surrogateMax <? i) && (i <=? rune3Max)) then
    p ++ [Z.lor t3 (byte (Z.shiftr r 12)); tail_of r 6; tail_of r 0]
  else if (rune3Max <? i) && (i <=? MaxRune) then
    p ++ [Z.lor t4 (byte (Z.shiftr r 18)); tail_of r 12; tail_of r 6; tail_of r 0]
  else p ++ [runeErrorByte0; runeErrorByte1; runeErrorByte2].
Definition AppendRune (p : gostring) (r : Z) : gostring :=
  if uint32 r <=? rune1Max then p ++ [byte r] else appendRuneNonASCII p r.

(** The stores into [p], after the bounds check of the last index. *)
Definition encodeRuneNonASCII (p : gostring) (r : Z) : go (gostring * Z) :=
  let i := uint32 r in
  if i <=? rune2Max then
    _ ← index p 1;
    p ← store p 0 (Z.lor t2 (byte (Z.shiftr r 6))); p ← store p 1 (tail_of r 0); Ret (p, 2)
  else if (i <? surrogateMin) || ((surrogateMax <? i) && (i <=? rune3Max)) then
    _ ← index p 2;
    p ← store p 0 (Z.lor t3 (byte (Z.shiftr r 12))); p ← store p 1 (tail_of r 6); p ← store p 2 (tail_of r 0); Ret (p, 3)
  else if (rune3Max <? i) && (i <=? MaxRune) then
    _ ← index p 3;
    p ← store p 0 (Z.lor t4 (byte (Z.shiftr r 18))); p ← store p 1 (tail_of r 12);
    p ← store p 2 (tail_of r 6); p ← store p 3 (tail_of r 0); Ret (p, 4)
  else
    _ ← index p 2;
    p ← store p 0 runeErrorByte0; p ← store p 1 runeErrorByte1; p ← store p 2 runeErrorByte2; Ret (p, 3).
Definition EncodeRune (p : gostring) (r : Z) : go (gostring * Z) :=
  if uint32 r <=? rune1Max then p ← store p 0 (byte r); Ret (p, 1) else encodeRuneNonASCII p r.

(** The decoder of byte slices has the text of that of strings. *)
Definition DecodeRune (p : gostring) : go (Z * Z) :=
  match p with b :: _ => if b <? RuneSelf then Ret (b, 1) else decodeRuneInStringSlow p | [] => decodeRuneInStringSlow p end.

Fixpoint last_start (fuel : nat) (p : gostring) (start lim : Z) : go Z :=
  if lim <=? start then
    match fuel with
    | O => OutOfFuel
    | S fuel => b ← index p start; if RuneStart b then Ret start else last_start fuel p (start - 1) lim
    end
  else Ret start.
Definition DecodeLastRune (p : gostring) : go (Z * Z) :=
  let end_ := zlen p in
  if end_ =? 0 then Ret (RuneError, 0)
  else
    let start := end_ - 1 in
    r ← index p start;
    if r <? RuneSelf then Ret (r, 1)
    else
      let lim := Z.max (end_ - UTFMax) 0 in
      start ← last_start 4 p (start - 1) lim;
      let start := if start <? 0 then 0 else start in
      q ← slice p start end_;
      '(r, size) ← DecodeRune q;
      if negb (start + size =? end_) then Ret (RuneError, 1) else Ret (r, size).

(** [for range s]: one decoded rune per iteration *)
Fixpoint RuneCountInString_loop (fuel : nat) (s : gostring) (n : Z) : go Z :=
  match s with
  | [] => Ret n
  | _ =>
      match fuel with
      | O => OutOfFuel
      | S fuel => '(_, size) ← DecodeRuneInString s; s ← slice_from s size; RuneCountInString_loop fuel s (n + 1)
      end
  end.
Definition RuneCountInString (s : gostring) : go Z := RuneCountInString_loop (length s) s 0.
Fixpoint RuneCount_loop (fuel : nat) (p : gostring) (n : Z) : go Z :=
  if n <? zlen p then
    match fuel with
    | O => OutOfFuel
    | S fuel =>
        c ← index p n;
        if RuneSelf <=? c then q ← slice_from p n; k ← RuneCountInString q; Ret (n + k)
        else RuneCount_loop fuel p (n + 1)
    end
  else Ret n.
Definition RuneCount (p : gostring) : go Z := RuneCount_loop (length p) p 0.

(** ** Validation *)
Definition ptrSize : Z := 8.
Definition hiBits : Z := 0x8080808080808080.
Fixpoint word_loop (s : gostring) (i : Z) (n : nat) : go Z :=
  match n with
  | O => Ret 0
  | S n => b ← index s i; w ← word_loop s (i + 1) n; Ret (Z.lor (Z.shiftl b (8 * i)) w)
  end.
Definition word (s : gostring) : go Z := word_loop s 0 8.
(** The union of the words of [p] from offset [i] on. *)
Definition word_at (p : gostring) (i : Z) : go Z := q ← slice_from p i; word q.

Fixpoint skip_ascii (fuel : nat) (p : gostring) : go gostring :=
  if 4 * ptrSize <? zlen p then
    w0 ← word p; w1 ← word_at p ptrSize; w2 ← word_at p (2 * ptrSize); w3 ← word_at p (3 * ptrSize);
    if Z.land (Z.lor (Z.lor w0 w1) (Z.lor w2 w3)) hiBits =? 0 then
      match fuel with
      | O => OutOfFuel
      | S fuel => p ← slice_from p (4 * ptrSize); skip_ascii fuel p
      end
    else Ret p
  else Ret p.
Definition after_ascii (p : gostring) : go gostring :=
  p ← slice_from p 1;
  one ← (if ptrSize <? zlen p then w ← word p; Ret (Z.land w hiBits =? 0) else Ret false);
  if (one : bool) then
    p ← slice_from p ptrSize;
    two ← (if 2 * ptrSize <? zlen p then w0 ← word p; w1 ← word_at p ptrSize; Ret (Z.land (Z.lor w0 w1) hiBits =? 0) else Ret false);
    if (two : bool) then p ← slice_from p (2 * ptrSize); skip_ascii (length p) p else Ret p
  else Ret p.

(** [p[i] < lo || hi < p[i]] *)
Definition outside (p : gostring) (i l h : Z) : go bool := b ← index p i; Ret ((b <? l) || (h <? b)).
(** The checks of a multi-byte encoding. *)
Definition multibyte_bad (p : gostring) (size : Z) (accept : acceptRange) : go bool :=
  if size =? 2 then go_or (Ret (zlen p <? 2)) (outside p 1 (lo accept) (hi accept))
  else if size =? 3 then
    go_or (Ret (zlen p <? 3)) (go_or (outside p 1 (lo accept) (hi accept)) (outside p 2 locb hicb))
  else if size =? 4 then
    go_or (Ret (zlen p <? 4)) (go_or (outside p 1 (lo accept) (hi accept)) (go_or (outside p 2 locb hicb) (outside p 3 locb hicb)))
  else Ret true.
Fixpoint Valid_loop (fuel : nat) (p : gostring) : go bool :=
  if 0 <? zlen p then
    match fuel with
    | O => OutOfFuel
    | S fuel =>
        p0 ← index p 0;
        if p0 <? RuneSelf then p ← after_ascii p; Valid_loop fuel p
        else
          x ← index first p0;
          let size := Z.land x 7 in
          accept ← index acceptRanges (Z.shiftr x 4);
          bad ← multibyte_bad p size accept;
          if (bad : bool) then Ret false else p ← slice_from p size; Valid_loop fuel p
    end
  else Ret true.
Definition Valid (p : gostring) : go bool := Valid_loop (length p) p.

Example encode_samples :
  AppendRune [] 0x20AC = [0xE2; 0x82; 0xAC] /\ AppendRune [] (-1) = [0xEF; 0xBF; 0xBD] /\ AppendRune [] 0xD800 = [0xEF; 0xBF; 0xBD] /\
  EncodeRune (replicate 4 0) 0x1F642 = Ret ([0xF0; 0x9F; 0x99; 0x82], 4) /\ EncodeRune (replicate 3 0) 0x1F642 = Panic IndexOutOfRange /\
  DecodeLastRune [0x41; 0xE2; 0x82; 0xAC] = Ret (0x20AC, 3) /\ DecodeLastRune [0x82; 0xAC] = Ret (RuneError, 1) /\
  Valid (replicate 70 0x41 ++ [0xE2; 0x82; 0xAC] ++ replicate 40 0x42) = Ret true /\ Valid (replicate 70 0x41 ++ [0xE2; 0x82] ++ replicate 40 0x42) = Ret false /\
  RuneCount [0x41; 0xE2; 0x82; 0xAC; 0xFF] = Ret 3.
Proof. vm_compute. done. Qed.

(** ** The encoder against the grammar *)
Lemma lor_mark a n x : 0 <= n -> 0 <= x < 2 ^ n -> Z.lor (a * 2 ^ n) x = a * 2 ^ n + x.
Proof. intros Hn Hx. rewrite <- lor_shiftl_add by done. by rewrite Z.shiftl_mul_pow2. Qed.

Lemma tail_of_eq r k : 0 <= k -> tail_of r k = 128 + Z.shiftr r k mod 64.
Proof.
  intros Hk. unfold tail_of, byte, uint_wrap, maskx, tx. change 63 with (Z.ones 6). rewrite Z.land_ones by done. change (2 ^ 6) with 64.
  assert (0 <= (Z.shiftr r k mod 2 ^ 8) mod 64 < 2 ^ 6) by (change (2 ^ 6) with 64; apply Z.mod_pos_bound; lia).
  change 0x80 with (2 * 2 ^ 6). rewrite lor_mark by done. change (2 * 2 ^ 6) with 128. change (2 ^ 8) with (64 * 4). rewrite Z.rem_mul_r, (Z.mul_comm 64), Z.mod_add, Z.mod_mod by lia. done.
Qed.

Lemma lead_of_eq a n x : 0 <= n <= 8 -> 0 <= x < 2 ^ n -> Z.lor (a * 2 ^ n) (byte x) = a * 2 ^ n + x.
Proof.
  intros Hn Hx. unfold byte. rewrite uint_wrap_id; [apply lor_mark; [lia|done]|]. split; [lia|]. eapply Z.lt_le_trans; [apply Hx|]. apply Z.pow_le_mono_r; lia.
Qed.

(** The digits of a number in base 64. *)
Lemma base64_digits r : 0 <= r -> exists a b c d, r = ((a * 64 + b) * 64 + c) * 64 + d /\ 0 <= a /\ 0 <= b < 64 /\ 0 <= c < 64 /\ 0 <= d < 64 /\
  r mod 64 = d /\ (r / 2 ^ 6) = (a * 64 + b) * 64 + c /\ (r / 2 ^ 6) mod 64 = c /\ (r / 2 ^ 12) = a * 64 + b /\ (r / 2 ^ 12) mod 64 = b /\ r / 2 ^ 18 = a.
Proof.
  intros Hr. exists (r / 64 / 64 / 64), (r / 64 / 64 mod 64), (r / 64 mod 64), (r mod 64).
  assert (r / 2 ^ 12 = r / 64 / 64) as E2 by (rewrite Z.div_div by lia; done). assert (r / 2 ^ 18 = r / 64 / 64 / 64) as E3 by (rewrite !Z.div_div by lia; done).
  rewrite E2, E3. change (2 ^ 6) with 64. clear E2 E3. pose proof (Z.div_mod r 64) as D1. pose proof (Z.div_mod (r / 64) 64) as D2. pose proof (Z.div_mod (r / 64 / 64) 64) as D3.
  pose proof (Z.mod_pos_bound r 64). pose proof (Z.mod_pos_bound (r / 64) 64). pose proof (Z.mod_pos_bound (r / 64 / 64) 64).
  assert (0 <= r / 64 / 64 / 64) by (repeat apply Z.div_pos; lia). split_and!; try lia.
Qed.

(** The encoding of [r], or of the replacement character. *)
Definition encoding (r : Z) : gostring := AppendRune [] r.
Lemma encoding_spec r : - 2 ^ 31 <= r < 2 ^ 31 ->
  utf8_char (encoding r) = true /\ utf8_value (encoding r) = (if ValidRune r then r else RuneError).
Proof.
  intros Hr. unfold encoding, AppendRune, appendRuneNonASCII, ValidRune, uint32. rewrite !tail_of_eq by lia. rewrite !Z.shiftr_0_r.
  unfold rune1Max, rune2Max, rune3Max, surrogateMin, surrogateMax, MaxRune. cbn [app].
  assert (uint_wrap 32 r = if r <? 0 then r + 2 ^ 32 else r) as ->.
  { unfold uint_wrap. destruct (Z.ltb_spec r 0); [|by rewrite Z.mod_small by lia]. symmetry. apply (Z.mod_unique_pos _ _ (-1)); lia. }
  destruct (Z.ltb_spec r 0).
  { replace ((0 <=? r) && (r <? 55296)) with false by lia. replace ((57343 <? r) && (r <=? 1114111)) with false by lia. zcase. vm_compute. done. }
  destruct (Z.leb_spec r (2 ^ 7 - 1)). { unfold byte. rewrite uint_wrap_id by lia. cbn [utf8_char utf8_value]. split; [lia|]. zcase. }
  rewrite !(Z.shiftr_div_pow2 r) by lia. destruct (base64_digits r) as (a & b & c & d & Hrd & Ha & Hb & Hc & Hd & -> & E1 & -> & E2 & -> & ->); [done|]. rewrite ?E1, ?E2. clear E1 E2.
  destruct (Z.leb_spec r (2 ^ 11 - 1)).
  { unfold t2. change 0xC0 with (6 * 2 ^ 5). rewrite lead_of_eq by lia. cbn [utf8_char utf8_value]. unfold tail_byte. split; [lia|]. zcase. }
  destruct ((r <? 55296) || ((57343 <? r) && (r <=? 2 ^ 16 - 1))) eqn:E3.
  { unfold t3. change 0xE0 with (14 * 2 ^ 4). rewrite lead_of_eq by lia. cbn [utf8_char utf8_value]. unfold tail_byte. split; [lia|]. zcase. }
  destruct ((2 ^ 16 - 1 <? r) && (r <=? 1114111)) eqn:E4.
  { unfold t4. change 0xF0 with (30 * 2 ^ 3). rewrite lead_of_eq by lia. cbn [utf8_char utf8_value]. unfold tail_byte. split; [lia|]. zcase. }
  replace ((0 <=? r) && (r <? 55296)) with false by lia. replace ((57343 <? r) && (r <=? 1114111)) with false by lia. vm_compute. done.
Qed.

Lemma encoding_length r : - 2 ^ 31 <= r < 2 ^ 31 -> 1 <= zlen (encoding r) <= 4.
Proof. intros Hr. apply utf8_char_length, encoding_spec, Hr. Qed.

Lemma AppendRune_encoding p r : AppendRune p r = p ++ encoding r.
Proof. unfold encoding, AppendRune, appendRuneNonASCII. destruct (_ <=? _); [done|]. destruct (_ <=? _); [done|]. destruct (_ || _); [done|]. by destruct (_ && _). Qed.

Lemma store_nat {A} (l : list A) (n : nat) x : (n < length l)%nat -> store l (Z.of_nat n) x = Ret (<[n := x]> l).
Proof. intros Hn. rewrite store_in_range by (unfold zlen; lia). by rewrite Nat2Z.id. Qed.

#[local] Ltac enc_step :=
  match goal with
  | |- context [index ?l ?i] =>
      first [ change (index l i) with (@Panic Z IndexOutOfRange)
            | let n := eval vm_compute in (Z.to_nat i) in change (index l i) with (index l (Z.of_nat n)); rewrite (index_nat l n _ eq_refl) ]
  | |- context [store ?l ?i ?x] =>
      first [ change (store l i x) with (@Panic (list Z) IndexOutOfRange)
            | let n := eval vm_compute in (Z.to_nat i) in change (store l i x) with (store l (Z.of_nat n) x); rewrite (store_nat l n x) by (cbn [length]; lia); cbn [insert list_insert] ]
  end; rewrite ?bind_ret.
Lemma EncodeRune_encoding p r : EncodeRune p r =
  if zlen (encoding r) <=? zlen p then Ret (encoding r ++ drop (length (encoding r)) p, zlen (encoding r)) else Panic IndexOutOfRange.
Proof.
  unfold encoding, AppendRune, appendRuneNonASCII, EncodeRune, encodeRuneNonASCII.
  destruct (_ <=? _); [|destruct (_ <=? _); [|destruct (_ || _); [|destruct (_ && _)]]]; destruct p as [|a [|b [|c [|d p]]]]; cbn [app];
    (match goal with |- context [zlen ?x <=? zlen ?y] => destruct (Z.leb_spec (zlen x) (zlen y)) as [Hl|Hl] end; unfold zlen in Hl; cbn [length] in Hl; try lia); repeat enc_step; done.
Qed.

Lemma DecodeRune_string p : DecodeRune p = DecodeRuneInString p.
Proof. destruct p as [|b p]; [done|]. unfold DecodeRune, DecodeRuneInString. rewrite bool_decide_true by done. change (index (b :: p) 0) with (Ret b). rewrite !bind_ret. done. Qed.

Lemma DecodeRune_char e rest : is_gostring (e ++ rest) -> utf8_char e = true -> DecodeRune (e ++ rest) = Ret (utf8_value e, zlen e).
Proof.
  intros Hs He. rewrite DecodeRune_string, utf8_decode_spec, (utf8_prefix_char e rest He) by done. by destruct e.
Qed.

(** ** The last rune *)
Lemma last_start_total fuel p start lim : start < zlen p -> 0 <= lim -> start - lim < Z.of_nat fuel ->
  lim - 1 <= start -> exists k, last_start fuel p start lim = Ret k /\ lim - 1 <= k <= start.
Proof.
  revert start. induction fuel as [|fuel IH]; intros start Hs Hl Hf Hle; cbn [last_start]; destruct (Z.leb_spec lim start); try lia.
  1,3: exists start; split; [done|lia].
  destruct (index_in_range p start) as [b Hb]; [lia|]. rewrite Hb, bind_ret. destruct (RuneStart b); [exists start; split; [done|lia]|].
  destruct (IH (start - 1)) as (k & Hk & ?); [lia..|]. exists k. split; [done|lia].
Qed.

Lemma index_app_nat (p e : gostring) (n : nat) x : e !! n = Some x -> index (p ++ e) (zlen p + Z.of_nat n) = Ret x.
Proof. intros Hx. rewrite index_app_r by lia. by apply index_nat. Qed.

(** The bytes of a long encoding: the first is the only one that starts a rune. *)
Lemma char_starts e : is_gostring e -> utf8_char e = true -> 2 <= zlen e -> forall (n : nat) b, e !! n = Some b -> RuneStart b = bool_decide (n = O).
Proof.
  intros Hs He Hl n b Hb. rewrite utf8_RuneStart by (by eapply Forall_lookup_1). destruct e as [|b0 rest]; [done|].
  rewrite utf8_char_lead in He by (intros ->; unfold zlen in Hl; cbn in Hl; lia). destruct (lead_info b0) as [[[w l] h]|] eqn:E; [|done]. apply utf8_lead_range in E.
  destruct n as [|n]; cbn in Hb; [injection Hb as <-; unfold tail_byte; rewrite bool_decide_true by done; lia|].
  rewrite bool_decide_false by done. apply negb_false_iff. rewrite !andb_true_iff in He. destruct He as [[_ Ht] Hb1]. destruct rest as [|b1 rest]; [done|].
  destruct n as [|n]; cbn in Hb; [injection Hb as <-; unfold tail_byte; lia|].
  rewrite forallb_forall in Ht. apply Ht. cbn [tl]. apply list_elem_of_In. by eapply list_elem_of_lookup_2.
Qed.

Lemma last_start_back fuel p e (n : nat) lim : (forall k b, e !! k = Some b -> RuneStart b = bool_decide (k = O)) -> (n < length e)%nat -> (n < fuel)%nat ->
  lim <= zlen p -> last_start fuel (p ++ e) (zlen p + Z.of_nat n) lim = Ret (zlen p).
Proof.
  intros Hst. revert fuel. induction n as [|n IH]; intros [|fuel] He Hf Hl; [lia| |lia|]; cbn [last_start]; rewrite (proj2 (Z.leb_le _ _)) by lia.
  all: match goal with |- context [Z.of_nat ?k] => destruct (lookup_lt_is_Some_2 e k ltac:(lia)) as [b Hb] end.
  all: rewrite (index_app_nat p e _ b Hb), bind_ret, (Hst _ b Hb).
  - cbn. f_equal. lia.
  - rewrite bool_decide_false by done. replace (zlen p + Z.of_nat (S n) - 1) with (zlen p + Z.of_nat n) by lia. apply IH; lia.
Qed.

Lemma DecodeLastRune_char p e : is_gostring (p ++ e) -> utf8_char e = true -> DecodeLastRune (p ++ e) = Ret (utf8_value e, zlen e).
Proof.
  intros Hs He. pose proof (utf8_char_length e He) as Hlen. pose proof (zlen_nonneg p). assert (is_gostring e) as Hse by (by apply Forall_app in Hs as [_ ?]).
  assert (0 < length e)%nat as Hpos by (unfold zlen in Hlen; lia). assert (zlen e = Z.of_nat (length e)) as Hze by done.
  unfold DecodeLastRune. rewrite zlen_app. rewrite (proj2 (Z.eqb_neq _ 0)) by lia.
  destruct (lookup_lt_is_Some_2 e (length e - 1)) as [b Hb]; [lia|].
  replace (zlen p + zlen e - 1) with (zlen p + Z.of_nat (length e - 1)) by lia. rewrite (index_app_nat p e _ b Hb), bind_ret.
  destruct (Z.eq_dec (zlen e) 1) as [H1|H1].
  - destruct e as [|b0 [|b1 e]]; [done| |rewrite !zlen_cons in H1; pose proof (zlen_nonneg e); lia]. injection Hb as <-. cbn [utf8_char] in He.
    unfold RuneSelf. rewrite (proj2 (Z.ltb_lt _ _)) by lia. done.
  - pose proof (char_starts e Hse He ltac:(lia)) as Hst. pose proof (Hst _ _ Hb) as Hb'. rewrite bool_decide_false in Hb' by lia.
    assert (is_byte b) as Hbyte by (by eapply Forall_lookup_1). rewrite utf8_RuneStart in Hb' by done. apply negb_false_iff in Hb'. unfold tail_byte in Hb'.
    unfold RuneSelf. rewrite (proj2 (Z.ltb_ge _ _)) by lia. replace (zlen p + Z.of_nat (length e - 1) - 1) with (zlen p + Z.of_nat (length e - 2)) by lia.
    rewrite last_start_back, bind_ret by (unfold UTFMax; (done || lia)). rewrite (proj2 (Z.ltb_ge _ _)) by lia.
    assert (slice (p ++ e) (zlen p) (zlen p + zlen e) = Ret e) as -> by (pose proof (slice_app_mid p e []) as Hm; by rewrite app_nil_r in Hm).
    rewrite bind_ret. pose proof (DecodeRune_char e []) as Hd. rewrite app_nil_r in Hd. rewrite Hd, bind_ret by done. by rewrite Z.eqb_refl.
Qed.

(** Without a code point at its end a text ends in a replacement character of width one. *)
Lemma DecodeLastRune_invalid s : is_gostring s -> s <> [] -> (forall p e, s = p ++ e -> utf8_char e = false) -> DecodeLastRune s = Ret (RuneError, 1).
Proof.
  intros Hs Hne Hno. assert (0 < zlen s) by (destruct s; [done|rewrite zlen_cons; pose proof (zlen_nonneg s); lia]).
  unfold DecodeLastRune. rewrite (proj2 (Z.eqb_neq _ 0)) by lia. destruct (index_in_range s (zlen s - 1)) as [b Hb]; [lia|]. rewrite Hb, bind_ret.
  destruct (Z.ltb_spec b RuneSelf) as [Hlt|_].
  { apply index_lookup in Hb as [_ Hb]. assert (is_byte b) as Hbyte by (by eapply Forall_lookup_1).
    assert (s = take (Z.to_nat (zlen s - 1)) s ++ [b]) as Hsplit. { rewrite <- (take_drop (Z.to_nat (zlen s - 1)) s) at 1. f_equal. apply list_eq. intros [|i]; rewrite lookup_drop; [rewrite Nat.add_0_r; by rewrite Hb|].
      cbn. apply lookup_ge_None_2. unfold zlen. lia. }
    specialize (Hno _ _ Hsplit). cbn [utf8_char] in Hno. unfold is_byte, RuneSelf in *. lia. }
  destruct (last_start_total 4 s (zlen s - 1 - 1) (Z.max (zlen s - UTFMax) 0)) as (k & -> & Hk); [unfold UTFMax; lia..|]. rewrite bind_ret.
  set (k' := if k <? 0 then 0 else k). assert (0 <= k' <= zlen s) by (unfold k'; destruct (Z.ltb_spec k 0); lia).
  rewrite slice_in_range, bind_ret by lia. set (q := take _ _). assert (s = take (Z.to_nat k') s ++ q) as Hsplit.
  { unfold q. rewrite (take_ge (drop _ s)) by (rewrite length_drop; unfold zlen in *; lia). symmetry. apply take_drop. }
  assert (zlen q = zlen s - k') as Hq by (rewrite Hsplit at 1; rewrite zlen_app, zlen_take; lia).
  assert (is_gostring q) as Hsq by (rewrite Hsplit in Hs; by apply Forall_app in Hs as [_ ?]). rewrite DecodeRune_string, utf8_decode_spec by done.
  assert (q <> []) as Hqne by (intros ->; rewrite zlen_nil in Hq; unfold k' in *; destruct (Z.ltb_spec k 0); lia).
  destruct q as [|q0 q'] eqn:Hqe; [done|]. rewrite <- Hqe in *. destruct (utf8_prefix q) as [e|] eqn:He; rewrite bind_ret.
  - apply utf8_prefix_Some in He as [He [rest Hr]]. destruct (Z.eqb_spec (k' + zlen e) (zlen s)) as [Heq|]; [|done]. exfalso.
    assert (rest = []) as -> by (apply zlen_0; rewrite Hr, zlen_app in Hq; lia). rewrite app_nil_r in Hr. rewrite (Hno _ q Hsplit) in He || (subst e; rewrite (Hno _ q Hsplit) in He); done.
  - by destruct (negb _).
Qed.

(** ** Words of ASCII text *)
Definition ascii (b : Z) : Prop := b < RuneSelf.
Lemma testbit_ascii b : is_byte b -> Z.testbit b 7 = false -> ascii b.
Proof.
  intros Hb Ht. assert (implb (negb (Z.testbit b 7)) (b <? RuneSelf) = true) as H by (revert b Hb Ht; intros b Hb _; revert b Hb; apply byte_forall; vm_compute; reflexivity).
  rewrite Ht in H. cbn in H. unfold ascii. lia.
Qed.

Lemma word_loop_spec (s : gostring) (n : nat) (i : nat) : is_gostring s -> (i + n <= length s)%nat -> exists w, word_loop s (Z.of_nat i) n = Ret w /\
  forall j b, (i <= j < i + n)%nat -> s !! j = Some b -> Z.testbit b 7 = true -> Z.testbit w (8 * Z.of_nat j + 7) = true.
Proof.
  intros Hs. revert i. induction n as [|n IH]; intros i Hl; cbn [word_loop]; [exists 0; split; [done|lia]|].
  destruct (lookup_lt_is_Some_2 s i ltac:(lia)) as [b Hb]. rewrite (index_nat s i b Hb), bind_ret. destruct (IH (S i)) as (w & Hw & Hbits); [lia|].
  replace (Z.of_nat i + 1) with (Z.of_nat (S i)) by lia. rewrite Hw, bind_ret. eexists. split; [done|]. intros j b' Hj Hb' Ht. rewrite Z.lor_spec.
  destruct (decide (j = i)) as [->|]; [|rewrite (Hbits j b') by (done || lia); by rewrite orb_true_r].
  assert (b' = b) as -> by congruence. rewrite Z.shiftl_spec by lia. replace (8 * Z.of_nat i + 7 - 8 * Z.of_nat i) with 7 by lia. by rewrite Ht.
Qed.

Lemma hiBits_testbit (j : nat) : (j < 8)%nat -> Z.testbit hiBits (8 * Z.of_nat j + 7) = true.
Proof. intros Hj. do 8 (destruct j as [|j]; [done|]). lia. Qed.

Lemma word_spec s : is_gostring s -> 8 <= zlen s -> exists w, word s = Ret w /\ (Z.land w hiBits = 0 -> Forall ascii (take 8 s)).
Proof.
  intros Hs Hl. destruct (word_loop_spec s 8 0 Hs) as (w & Hw & Hbits); [unfold zlen in Hl; lia|]. exists w. split; [done|]. intros H0.
  apply Forall_lookup. intros j b Hb. apply lookup_take_Some in Hb as [Hb Hj]. apply testbit_ascii; [by eapply Forall_lookup_1|].
  destruct (Z.testbit b 7) eqn:Ht; [|done]. assert (Z.testbit (Z.land w hiBits) (8 * Z.of_nat j + 7) = true); [|by rewrite H0, Z.bits_0 in *].
  rewrite Z.land_spec, hiBits_testbit, (Hbits j b) by (done || lia). done.
Qed.

Lemma word_at_spec p (k : nat) : is_gostring p -> Z.of_nat k + 8 <= zlen p -> exists w, word_at p (Z.of_nat k) = Ret w /\ (Z.land w hiBits = 0 -> Forall ascii (take 8 (drop k p))).
Proof.
  intros Hp Hl. unfold word_at. rewrite slice_from_in_range, bind_ret, Nat2Z.id by lia. apply word_spec; [by apply Forall_drop|rewrite zlen_drop; lia].
Qed.

Lemma land_lor_zero a b h : Z.land (Z.lor a b) h = 0 -> Z.land a h = 0 /\ Z.land b h = 0.
Proof. rewrite Z.land_lor_distr_l. apply Z.lor_eq_0_iff. Qed.

Lemma Forall_ascii_more p n : Forall ascii (take n p) -> Forall ascii (take 8 (drop n p)) -> Forall ascii (take (n + 8) p).
Proof. intros H1 H2. rewrite <- (take_drop n p). rewrite take_app. apply Forall_app. split; [by rewrite take_take, Nat.min_r by lia|]. rewrite length_take. destruct (decide (n <= length p)%nat); [by replace (n + 8 - n `min` length p)%nat with 8%nat by lia|]. rewrite (drop_ge p) by lia. by rewrite take_nil. Qed.

(** What the fast path leaves out is ASCII text. *)
Definition skipped (p q : gostring) : Prop := exists a, p = a ++ q /\ Forall ascii a.
Lemma skipped_refl p : skipped p p.
Proof. by exists []. Qed.
Lemma skipped_trans p q r : skipped p q -> skipped q r -> skipped p r.
Proof. intros (a & -> & Ha) (b & -> & Hb). exists (a ++ b). rewrite app_assoc. split; [done|by apply Forall_app]. Qed.
Lemma skipped_drop p n : Forall ascii (take n p) -> skipped p (drop n p).
Proof. intros H. exists (take n p). by rewrite take_drop. Qed.
Lemma skipped_bytes p q : is_gostring p -> skipped p q -> is_gostring q.
Proof. intros Hp (a & -> & _). by apply Forall_app in Hp as [_ ?]. Qed.

Lemma skip_ascii_spec fuel p : is_gostring p -> (length p <= fuel)%nat -> exists q, skip_ascii fuel p = Ret q /\ skipped p q.
Proof.
  revert p. induction fuel as [|fuel IH]; intros p Hp Hf; cbn [skip_ascii]; unfold ptrSize.
  { destruct p; [|cbn in Hf; lia]. exists []. split; [done|apply skipped_refl]. }
  destruct (Z.ltb_spec (4 * 8) (zlen p)); [|exists p; split; [done|apply skipped_refl]].
  destruct (word_spec p Hp) as (w0 & -> & H0); [lia|]. rewrite bind_ret.
  destruct (word_at_spec p 8 Hp) as (w1 & Hw1 & H1); [lia|]. change (Z.of_nat 8) with 8 in Hw1. rewrite Hw1, bind_ret.
  destruct (word_at_spec p 16 Hp) as (w2 & Hw2 & H2); [lia|]. change (Z.of_nat 16) with (2 * 8) in Hw2. rewrite Hw2, bind_ret.
  destruct (word_at_spec p 24 Hp) as (w3 & Hw3 & H3); [lia|]. change (Z.of_nat 24) with (3 * 8) in Hw3. rewrite Hw3, bind_ret.
  destruct (Z.eqb_spec (Z.land (Z.lor (Z.lor w0 w1) (Z.lor w2 w3)) hiBits) 0) as [Hz|]; [|exists p; split; [done|apply skipped_refl]].
  apply land_lor_zero in Hz as [[Hz0 Hz1]%land_lor_zero [Hz2 Hz3]%land_lor_zero].
  assert (skipped p (drop 32 p)) as Hsk.
  { apply skipped_drop. change 32%nat with (8 + 8 + 8 + 8)%nat. repeat apply Forall_ascii_more; auto. }
  rewrite slice_from_in_range, bind_ret by lia. change (Z.to_nat (4 * 8)) with 32%nat.
  destruct (IH (drop 32 p)) as (q & Hq & Hs); [by apply Forall_drop|rewrite length_drop; lia|]. exists q. split; [done|by eapply skipped_trans].
Qed.

Lemma after_ascii_spec b p : is_gostring (b :: p) -> ascii b -> exists q, after_ascii (b :: p) = Ret q /\ skipped p q.
Proof.
  intros Hbp Hb. pose proof (zlen_nonneg p). assert (is_gostring p) as Hp by (by inversion Hbp). unfold after_ascii, ptrSize.
  rewrite (slice_from_app_r [b] p : slice_from (b :: p) 1 = Ret p), bind_ret.
  destruct (Z.ltb_spec 8 (zlen p)); [|rewrite bind_ret; exists p; split; [done|apply skipped_refl]].
  destruct (word_spec p Hp) as (w0 & -> & W0); [lia|]. rewrite !bind_ret.
  destruct (Z.eqb_spec (Z.land w0 hiBits) 0) as [Hz|]; [|exists p; split; [done|apply skipped_refl]].
  specialize (skipped_drop p 8 (W0 Hz)) as Hs1. rewrite slice_from_in_range, bind_ret by lia. change (Z.to_nat 8) with 8%nat. set (p1 := drop 8 p) in *.
  assert (is_gostring p1) as Hp1 by (by apply Forall_drop).
  destruct (Z.ltb_spec (2 * 8) (zlen p1)); [|rewrite bind_ret; by exists p1].
  destruct (word_spec p1 Hp1) as (v0 & -> & G0); [lia|]. rewrite !bind_ret.
  destruct (word_at_spec p1 8 Hp1) as (v1 & Hv1 & G1); [lia|]. change (Z.of_nat 8) with 8 in Hv1. rewrite Hv1, !bind_ret.
  destruct (Z.eqb_spec (Z.land (Z.lor v0 v1) hiBits) 0) as [Hz2|]; [|by exists p1].
  apply land_lor_zero in Hz2 as [Hz20 Hz21]. rewrite slice_from_in_range, bind_ret by lia. change (Z.to_nat (2 * 8)) with 16%nat.
  assert (skipped p1 (drop 16 p1)) as Hs2 by (apply skipped_drop; change 16%nat with (8 + 8)%nat; apply Forall_ascii_more; auto).
  destruct (skip_ascii_spec (length (drop 16 p1)) (drop 16 p1)) as (q & Hq & Hs3); [by apply Forall_drop|done|].
  exists q. split; [done|]. eapply skipped_trans; [exact Hs1|]. by eapply skipped_trans.
Qed.

(** ** Validation and counting *)
Lemma utf8_valid_app e s : utf8_char e = true -> valid_utf8 (e ++ s) <-> valid_utf8 s.
Proof.
  intros He. split; intros (es & Hes & Heq).
  - destruct Hes as [|e' es' He' Hes']; [by destruct e|]. cbn [concat] in Heq. pose proof (utf8_prefix_char e s He) as P. rewrite <- Heq, utf8_prefix_char in P by done.
    injection P as ->. apply app_inv_head in Heq. by exists es'.
  - exists (e :: es). split; [by constructor|]. cbn. by rewrite Heq.
Qed.
Lemma utf8_valid_nil : valid_utf8 [].
Proof. by exists []. Qed.
Lemma utf8_valid_none s : s <> [] -> utf8_prefix s = None -> ~ valid_utf8 s.
Proof.
  intros Hne Hn (es & Hes & Heq). destruct Hes as [|e es He Hes]; [done|]. cbn in Heq. rewrite <- Heq, utf8_prefix_char in Hn by done. done.
Qed.
Lemma ascii_char b : is_byte b -> ascii b -> utf8_char [b] = true.
Proof. unfold ascii, RuneSelf, is_byte. cbn. lia. Qed.
Lemma utf8_valid_skipped p q : is_gostring p -> skipped p q -> valid_utf8 p <-> valid_utf8 q.
Proof.
  intros Hp (a & -> & Ha). induction Ha as [|b a Hb Ha IH]; [done|]. inversion_clear Hp as [|? ? Hbyte Hp']. cbn [app].
  change (b :: a ++ q) with ([b] ++ (a ++ q)). rewrite utf8_valid_app by (by apply ascii_char). by apply IH.
Qed.

Lemma outside_1 a b p l h : outside (a :: b :: p) 1 l h = Ret (negb ((l <=? b) && (b <=? h))).
Proof. unfold outside. change 1 with (Z.of_nat 1). rewrite (index_nat (a :: b :: p) 1 b eq_refl), bind_ret. f_equal. lia. Qed.
Lemma outside_2 a b c p : outside (a :: b :: c :: p) 2 locb hicb = Ret (negb (tail_byte c)).
Proof. unfold outside, locb, hicb, tail_byte. change 2 with (Z.of_nat 2). rewrite (index_nat (a :: b :: c :: p) 2 c eq_refl), bind_ret. f_equal. lia. Qed.
Lemma outside_3 a b c d p : outside (a :: b :: c :: d :: p) 3 locb hicb = Ret (negb (tail_byte d)).
Proof. unfold outside, locb, hicb, tail_byte. change 3 with (Z.of_nat 3). rewrite (index_nat (a :: b :: c :: d :: p) 3 d eq_refl), bind_ret. f_equal. lia. Qed.
Lemma go_or_rets a b : go_or (Ret a) (Ret b) = Ret (a || b).
Proof. by destruct a. Qed.
Lemma go_or_true (m : go bool) : go_or (Ret true) m = Ret true.
Proof. done. Qed.

Lemma multibyte_bad_spec b0 rest w l h : lead_info b0 = Some (w, l, h) ->
  multibyte_bad (b0 :: rest) w (MkAcceptRange l h) = Ret (negb (utf8_char (take (Z.to_nat w) (b0 :: rest)))).
Proof.
  intros E. destruct (utf8_lead_range b0 w l h E) as (_ & _ & Hw). unfold multibyte_bad. cbn [lo hi].
  assert (w = 2 \/ w = 3 \/ w = 4) as [-> |[-> | ->]] by lia; cbn [Z.eqb Pos.eqb];
    change (Z.to_nat 2) with 2%nat; change (Z.to_nat 3) with 3%nat; change (Z.to_nat 4) with 4%nat;
    (destruct rest as [|b1 rest]; [cbn [take utf8_char]; replace ((0 <=? b0) && (b0 <=? 127)) with false by lia; done|]).
  all: cbn [take]; rewrite utf8_char_lead, E by done; clear E.
  all: destruct rest as [|b2 [|b3 rest]]; cbn [take tl forallb].
  all: rewrite ?outside_1, ?outside_2, ?outside_3, ?go_or_rets; rewrite !zlen_cons, ?zlen_nil.
  all: try pose proof (zlen_nonneg rest); repeat match goal with |- context [?a <? ?b] => first [rewrite (proj2 (Z.ltb_lt a b)) by lia | rewrite (proj2 (Z.ltb_ge a b)) by lia] end.
  all: rewrite ?go_or_true, ?go_or_rets, ?take_0, ?zlen_nil; f_equal; cbn [orb]; rewrite ?andb_true_r, ?negb_andb; try lia.
  all: repeat match goal with |- context [?a =? ?b] => rewrite (proj2 (Z.eqb_eq a b)) by lia end; cbn [negb orb]; btauto.
Qed.

Lemma lead_size_multibyte b0 w l h : lead_info b0 = Some (w, l, h) -> 2 <= w <= 4.
Proof. intros E. destruct (utf8_lead_range b0 w l h E) as (_ & _ & ?). lia. Qed.

Lemma Valid_loop_spec fuel p : is_gostring p -> (length p <= fuel)%nat -> exists b, Valid_loop fuel p = Ret b /\ (b = true <-> valid_utf8 p).
Proof.
  revert p. induction fuel as [|fuel IH]; intros p Hp Hf; (destruct p as [|b0 rest]; [exists true; split; [done|]; split; [intros _; apply utf8_valid_nil|done]|]); [cbn in Hf; lia|].
  cbn [Valid_loop]. rewrite zlen_cons. pose proof (zlen_nonneg rest). rewrite (proj2 (Z.ltb_lt _ _)) by lia. change (index (b0 :: rest) 0) with (Ret b0). rewrite bind_ret.
  assert (is_byte b0 /\ is_gostring rest) as [Hb Hrest] by (inversion Hp; done). cbn [length] in Hf. destruct (Z.ltb_spec b0 RuneSelf) as [Hlt|Hge].
  - destruct (after_ascii_spec b0 rest Hp Hlt) as (q & -> & Hq). rewrite bind_ret. pose proof (skipped_bytes _ _ Hrest Hq) as Hqb.
    destruct (IH q) as (b & Hr & Hb'); [done|destruct Hq as (a & -> & _); rewrite length_app in Hf; lia|]. exists b. split; [done|]. rewrite Hb'.
    change (b0 :: rest) with ([b0] ++ rest). rewrite utf8_valid_app by (by apply ascii_char). by rewrite (utf8_valid_skipped rest q).
  - destruct (utf8_first_spec b0 Hb) as (x & -> & Hx). rewrite bind_ret. destruct (lead_info b0) as [[[w l] h]|] eqn:E.
    + destruct Hx as (_ & -> & _ & ->). rewrite bind_ret. rewrite (multibyte_bad_spec b0 rest w l h E), bind_ret.
      assert (utf8_prefix (b0 :: rest) = if utf8_char (take (Z.to_nat w) (b0 :: rest)) then Some (take (Z.to_nat w) (b0 :: rest)) else None) as Hpre by (unfold utf8_prefix, lead_width; by rewrite E).
      destruct (utf8_char (take _ _)) eqn:Hc; cbn [negb].
      * pose proof (lead_size_multibyte b0 w l h E). apply utf8_prefix_Some in Hpre as [_ [q Hq]]. set (e := take (Z.to_nat w) (b0 :: rest)) in *.
        assert (slice_from (b0 :: rest) w = Ret q) as ->.
        { rewrite Hq. assert (zlen e = w) as Hew; [|rewrite <- Hew; apply slice_from_app_r]. rewrite (utf8_char_width e b0 (take (Z.to_nat (w - 1)) rest)); [by unfold lead_width; rewrite E| |done]. unfold e. by rewrite utf8_take_S by lia. }
        rewrite bind_ret. rewrite Hq. pose proof (utf8_char_length e Hc) as Hlen. assert (length (b0 :: rest) = length (e ++ q)) as Hll by (by rewrite Hq). rewrite length_app in Hll. unfold zlen in Hlen. cbn in Hll.
        destruct (IH q) as (b & -> & Hb'); [rewrite Hq in Hp; by apply Forall_app in Hp as [_ ?]|lia|]. exists b. split; [done|]. by rewrite utf8_valid_app.
      * exists false. split; [done|]. split; [done|]. intros Hv. exfalso. by apply (utf8_valid_none (b0 :: rest)).
    + subst x. rewrite (proj2 (Z.ltb_ge _ _)) by (unfold RuneSelf in Hge; lia). change (Z.land xx 7) with 1. change (index acceptRanges (Z.shiftr xx 4)) with (Ret (MkAcceptRange 0 0)). rewrite bind_ret. unfold multibyte_bad. cbn [Z.eqb Pos.eqb]. rewrite bind_ret.
      exists false. split; [done|]. split; [done|]. intros Hv. exfalso. apply (utf8_valid_none (b0 :: rest)); [done| |done].
      unfold utf8_prefix, lead_width. rewrite E. change (Z.to_nat 1) with 1%nat. cbn [take]. rewrite utf8_char_1. unfold RuneSelf in Hge. by replace ((0 <=? b0) && (b0 <=? 127)) with false by lia.
Qed.

(** The decoder cuts a text into code points and single invalid bytes. *)
Inductive pieces : gostring -> list gostring -> Prop :=
  | pieces_nil : pieces [] []
  | pieces_char e s es : utf8_char e = true -> pieces s es -> pieces (e ++ s) (e :: es)
  | pieces_bad b s es : utf8_prefix (b :: s) = None -> pieces s es -> pieces (b :: s) ([b] :: es).

Lemma RuneCountInString_loop_spec fuel s n : is_gostring s -> (length s <= fuel)%nat -> exists es, pieces s es /\ RuneCountInString_loop fuel s n = Ret (n + zlen es).
Proof.
  revert s n. induction fuel as [|fuel IH]; intros s n Hs Hf; (destruct s as [|b s]; [exists []; split; [constructor|cbn; by rewrite Z.add_0_r]|]); [cbn in Hf; lia|].
  cbn [RuneCountInString_loop]. rewrite utf8_decode_spec by done. destruct (utf8_prefix (b :: s)) as [e|] eqn:He; rewrite bind_ret.
  - apply utf8_prefix_Some in He as [He [q Hq]]. rewrite Hq, slice_from_app_r, bind_ret. pose proof (utf8_char_length e He) as Hl. rewrite Hq, length_app in Hf. unfold zlen in Hl.
    rewrite Hq in Hs. apply Forall_app in Hs as [_ Hs]. destruct (IH q (n + 1) Hs) as (es & Hes & ->); [lia|]. exists (e :: es). split; [by constructor|]. rewrite zlen_cons. f_equal. lia.
  - rewrite (slice_from_app_r [b] s : slice_from (b :: s) 1 = Ret s), bind_ret. cbn in Hf. inversion_clear Hs as [|? ? _ Hs']. destruct (IH s (n + 1) Hs') as (es & Hes & ->); [lia|].
    exists ([b] :: es). split; [by constructor|]. rewrite zlen_cons. f_equal. lia.
Qed.

Lemma pieces_skipped a q es : is_gostring a -> Forall ascii a -> pieces q es -> pieces (a ++ q) (List.map (fun b => [b]) a ++ es).
Proof.
  intros Ha. induction Ha as [|b a Hb Ha IH]; intros Hasc Hes; [done|]. inversion_clear Hasc. cbn [app List.map].
  change (b :: a ++ q) with ([b] ++ (a ++ q)). constructor; [by apply ascii_char|by apply IH].
Qed.

Lemma RuneCount_loop_spec fuel a q : is_gostring (a ++ q) -> Forall ascii a -> (length q <= fuel)%nat ->
  exists es, pieces (a ++ q) es /\ RuneCount_loop fuel (a ++ q) (zlen a) = Ret (zlen es).
Proof.
  revert a q. induction fuel as [|fuel IH]; intros a q Hs Ha Hf; cbn [RuneCount_loop]; rewrite zlen_app; apply Forall_app in Hs as [Hsa Hsq].
  all: destruct q as [|b q]; [rewrite zlen_nil, Z.add_0_r, Z.ltb_irrefl; exists (List.map (fun b => [b]) a ++ []); split; [by apply pieces_skipped; [..|constructor]|]; rewrite app_nil_r; unfold zlen; by rewrite List.length_map|].
  - cbn in Hf. lia.
  - rewrite zlen_cons. pose proof (zlen_nonneg q). rewrite (proj2 (Z.ltb_lt _ _)) by lia.
    assert (index (a ++ b :: q) (zlen a) = Ret b) as -> by (pose proof (index_app_nat a (b :: q) 0 b eq_refl) as Hi; by rewrite Z.add_0_r in Hi). rewrite bind_ret. destruct (Z.leb_spec RuneSelf b) as [Hge|Hlt].
    + rewrite slice_from_app_r, bind_ret. destruct (RuneCountInString_loop_spec (length (b :: q)) (b :: q) 0 Hsq) as (es & Hes & Hc); [done|]. unfold RuneCountInString. rewrite Hc, bind_ret.
      exists (List.map (fun b => [b]) a ++ es). split; [by apply pieces_skipped|]. rewrite zlen_app. unfold zlen at 3. rewrite List.length_map. done.
    + inversion_clear Hsq as [|? ? Hb Hsq']. destruct (IH (a ++ [b]) q) as (es & Hes & Hc); [apply Forall_app; split; [by apply Forall_app; split; [done|by constructor]|done]|by apply Forall_app; split; [done|by constructor]|cbn in Hf; lia|].
      rewrite zlen_app, <- app_assoc in Hc. rewrite <- app_assoc in Hes. exists es. split; [done|exact Hc].
Qed.

Lemma RuneCount_pieces p : is_gostring p -> exists es, pieces p es /\ RuneCount p = Ret (zlen es).
Proof. intros Hp. by apply (RuneCount_loop_spec (length p) [] p). Qed.

(** A text is valid when every piece is a code point. *)
Lemma pieces_valid p es : pieces p es -> concat es = p /\ (valid_utf8 p <-> Forall (fun e => utf8_char e = true) es).
Proof.
  induction 1 as [|e s es He _ [IHc IHv]|b s es Hb _ [IHc IHv]].
  - split; [done|]. split; [constructor|intros _; apply utf8_valid_nil].
  - split; [cbn; by rewrite IHc|]. rewrite utf8_valid_app, Forall_cons by done. tauto.
  - split; [cbn; by rewrite IHc|]. split; [intros Hv; exfalso; by apply (utf8_valid_none (b :: s))|]. intros Hall. inversion_clear Hall as [|? ? Hc _].
    by rewrite (utf8_prefix_char [b] s Hc : utf8_prefix (b :: s) = _) in Hb.
Qed.

(** encoding any 32-bit rune, appended to a buffer or stored into one that is
    long enough (a shorter one panics before it is changed), gives one code point
    of RFC 3629: that of the rune, or of the replacement character where the rune
    is not a scalar value.  [RuneLen] is its length, or -1; and both decoding it
    at the front and decoding the last rune of a text that ends in it give it
    back, while a text that ends in no code point ends in a replacement character
    of one byte. *)
Theorem rune_encoding_roundtrip (r : Z) (p rest buf : gostring) (Hr : - 2 ^ 31 <= r < 2 ^ 31) (Hp : is_gostring p) (Hrest : is_gostring rest) :
  let v := if ValidRune r then r else RuneError in
  exists e, utf8_char e = true /\ utf8_value e = v /\ AppendRune p r = p ++ e /\
    EncodeRune buf r = (if zlen e <=? zlen buf then Ret (e ++ drop (length e) buf, zlen e) else Panic IndexOutOfRange) /\
    RuneLen r = (if ValidRune r then zlen e else -1) /\
    DecodeRune (e ++ rest) = Ret (v, zlen e) /\ DecodeLastRune (AppendRune p r) = Ret (v, zlen e) /\
    (p <> [] -> (forall p1 p2, p = p1 ++ p2 -> utf8_char p2 = false) -> DecodeLastRune p = Ret (RuneError, 1)).
Proof.
  destruct (encoding_spec r Hr) as [He Hv]. exists (encoding r). pose proof (utf8_char_bytes _ He) as Hb. rewrite AppendRune_encoding. split_and!; [done|done|done|apply EncodeRune_encoding| | | |].
  - destruct (ValidRune r) eqn:Hval; [by rewrite <- Hv at 1; rewrite utf8_RuneLen_value|].
    unfold ValidRune in Hval. unfold RuneLen, rune1Max, rune2Max, rune3Max, surrogateMin, surrogateMax, MaxRune in *. destruct ((0 <=? r) && (r <? 55296)) eqn:Hlow; [done|]. zcase.
  - rewrite DecodeRune_char, Hv by (done || by apply Forall_app). done.
  - rewrite DecodeLastRune_char, Hv by (done || by apply Forall_app). done.
  - by apply DecodeLastRune_invalid.
Qed.
Lemma rune_encoding_roundtrip_witness : DecodeLastRune (AppendRune [0x41] 0x20AC) = Ret (0x20AC, 3).
Proof.
  destruct (rune_encoding_roundtrip 0x20AC [0x41] [] []) as (e & _ & _ & Ha & _ & _ & _ & Hd & _); [lia|by repeat constructor; unfold is_byte|constructor|].
  rewrite Hd. apply (f_equal length) in Ha. change (4%nat = S (length e)) in Ha. injection Ha as Ha. unfold zlen. rewrite <- Ha. reflexivity.
Defined.

(** [Valid], which scans ASCII text in words of eight bytes, is validity by
    the grammar of RFC 3629, on every byte string; and [RuneCount] counts the
    code points and the invalid bytes a text is cut into, which are code points
    alone exactly when the text is valid. *)
Theorem utf8_validation (p : gostring) (Hp : is_gostring p) :
  (exists b, Valid p = Ret b /\ (b = true <-> valid_utf8 p)) /\
  exists es, pieces p es /\ RuneCount p = Ret (zlen es) /\ concat es = p /\ (valid_utf8 p <-> Forall (fun e => utf8_char e = true) es).
Proof.
  split; [by apply Valid_loop_spec|]. destruct (RuneCount_pieces p Hp) as (es & Hes & Hc). exists es. split_and!; [done|done|by apply pieces_valid|by apply pieces_valid].
Qed.
Lemma utf8_validation_witness : exists b, Valid (replicate 40 0x41 ++ [0xC3; 0x28]) = Ret b /\ (b = true <-> valid_utf8 (replicate 40 0x41 ++ [0xC3; 0x28])).
Proof. apply utf8_validation. repeat constructor; unfold is_byte; lia. Defined.
