(* ===== verification/Quote.v ===== *)
(** * Quoting of the Go standard library ([go/src/strconv/quote.go])

    What [%q] and [%+q] print, and its inverse.  Buffers are the bytes appended
    to them.  A rune is an [int32]; the shifts of [UnquoteChar] wrap around as
    they do in Go. *)
From stdpp Require Import sorting.
From S2P Require Import Prelude GoUtf8 Utf8Encode PrintTables.

Definition lowerhex : gostring := str "0123456789abcdef".
Inductive quote_error := ErrSyntax.

(** [bytealg.IndexByteString], as the bootstrap compiler has it. *)
Fixpoint index_loop (fuel : nat) (s : gostring) (c i : Z) : go Z :=
  if i <? zlen s then
    match fuel with
    | O => OutOfFuel
    | S fuel => b ← Prelude.index s i; if b =? c then Ret i else index_loop fuel s c (i + 1)
    end
  else Ret (-1).
Definition index_byte (s : gostring) (c : Z) : go Z := index_loop (length s) s c 0.
Definition contains (s : gostring) (c : Z) : go bool := i ← index_byte s c; Ret (negb (i =? -1)).

(** ** The tables of printable runes *)
Fixpoint bsearch_loop (fuel : nat) (s : list Z) (v i j : Z) : go Z :=
  if i <? j then
    match fuel with
    | O => OutOfFuel
    | S fuel =>
        let h := i + Z.shiftr (j - i) 1 in
        x ← Prelude.index s h;
        if x <? v then bsearch_loop fuel s v (h + 1) j else bsearch_loop fuel s v i h
    end
  else Ret i.
Definition bsearch (s : list Z) (v : Z) : go (Z * bool) :=
  let n := zlen s in
  i ← bsearch_loop (length s) s v 0 n;
  if i <? n then x ← Prelude.index s i; Ret (i, x =? v) else Ret (i, false).
(** [i >= len(isPrint) || rr < isPrint[i&^1] || isPrint[i|1] < rr] *)
Definition outside_intervals (isPrint : list Z) (i rr : Z) : go bool :=
  go_or (Ret (zlen isPrint <=? i)) (go_or (x ← Prelude.index isPrint (Z.ldiff i 1); Ret (rr <? x)) (x ← Prelude.index isPrint (Z.lor i 1); Ret (x <? rr))).
Definition IsPrint (r : Z) : go bool :=
  if r <=? 0xFF then
    if (0x20 <=? r) && (r <=? 0x7E) then Ret true
    else if (0xA1 <=? r) && (r <=? 0xFF) then Ret (negb (r =? 0xAD))
    else Ret false
  else if (0 <=? r) && (r <? 2 ^ 16) then
    let rr := uint_wrap 16 r in
    '(i, _) ← bsearch isPrint16 rr;
    out ← outside_intervals isPrint16 i rr;
    if (out : bool) then Ret false else '(_, found) ← bsearch isNotPrint16 rr; Ret (negb found)
  else
    let rr := uint_wrap 32 r in
    '(i, _) ← bsearch isPrint32 rr;
    out ← outside_intervals isPrint32 i rr;
    if (out : bool) then Ret false
    else if 0x20000 <=? r then Ret true
    else '(_, found) ← bsearch isNotPrint32 (uint_wrap 16 (r - 0x10000)); Ret (negb found).
Definition isInGraphicList (r : Z) : go bool :=
  if 0xFFFF <? r then Ret false else '(_, found) ← bsearch isGraphic (uint_wrap 16 r); Ret found.
Definition IsGraphic (r : Z) : go bool :=
  p ← IsPrint r; if (p : bool) then Ret true else isInGraphicList r.

(** ** Quoting *)

(** [\x] and two digits; [\u] or [\U] and the digits above the shifts down from [s]. *)
Definition hex_byte (buf : gostring) (b : Z) : go gostring :=
  h ← Prelude.index lowerhex (Z.shiftr b 4); l ← Prelude.index lowerhex (Z.land b 0xF); Ret (buf ++ str "\x" ++ [h; l]).
Fixpoint hex_digits (n : nat) (buf : gostring) (r : Z) : go gostring :=
  match n with
  | O => Ret buf
  | S n => d ← Prelude.index lowerhex (Z.land (Z.shiftr r (4 * Z.of_nat n)) 0xF); hex_digits n (buf ++ [d]) r
  end.
Definition escape_rune (buf : gostring) (r : Z) : go gostring :=
  if r =? 7 then Ret (buf ++ str "\a") else if r =? 8 then Ret (buf ++ str "\b") else if r =? 12 then Ret (buf ++ str "\f")
  else if r =? 10 then Ret (buf ++ str "\n") else if r =? 13 then Ret (buf ++ str "\r") else if r =? 9 then Ret (buf ++ str "\t")
  else if r =? 11 then Ret (buf ++ str "\v")
  else if (r <? 32) || (r =? 0x7f) then hex_byte buf (byte r)
  else if negb (ValidRune r) then hex_digits 4 (buf ++ str "\u") 0xFFFD
  else if r <? 0x10000 then hex_digits 4 (buf ++ str "\u") r
  else hex_digits 8 (buf ++ str "\U") r.
Definition appendEscapedRune (buf : gostring) (r quote : Z) (ASCIIonly graphicOnly : bool) : go gostring :=
  if (r =? quote) || (r =? 92) then Ret (buf ++ [92; byte r])
  else if ASCIIonly then
    p ← go_and (Ret (r <? RuneSelf)) (IsPrint r);
    if (p : bool) then Ret (buf ++ [byte r]) else escape_rune buf r
  else
    p ← go_or (IsPrint r) (go_and (Ret graphicOnly) (isInGraphicList r));
    if (p : bool) then Ret (AppendRune buf r) else escape_rune buf r.
Fixpoint quote_loop (fuel : nat) (buf s : gostring) (quote : Z) (ASCIIonly graphicOnly : bool) : go gostring :=
  if 0 <? zlen s then
    match fuel with
    | O => OutOfFuel
    | S fuel =>
        '(r, width) ← DecodeRuneInString s;
        buf ← (if (width =? 1) && (r =? RuneError) then b ← Prelude.index s 0; hex_byte buf b else appendEscapedRune buf r quote ASCIIonly graphicOnly);
        s ← slice_from s width;
        quote_loop fuel buf s quote ASCIIonly graphicOnly
    end
  else Ret buf.
Definition appendQuotedWith (buf s : gostring) (quote : Z) (ASCIIonly graphicOnly : bool) : go gostring :=
  buf ← quote_loop (length s) (buf ++ [quote]) s quote ASCIIonly graphicOnly;
  Ret (buf ++ [quote]).
Definition appendQuotedRuneWith (buf : gostring) (r quote : Z) (ASCIIonly graphicOnly : bool) : go gostring :=
  let buf := buf ++ [quote] in
  let r := if negb (ValidRune r) then RuneError else r in
  buf ← appendEscapedRune buf r quote ASCIIonly graphicOnly;
  Ret (buf ++ [quote]).
Definition quoteWith (s : gostring) (quote : Z) (ASCIIonly graphicOnly : bool) : go gostring := appendQuotedWith [] s quote ASCIIonly graphicOnly.
Definition quoteRuneWith (r quote : Z) (ASCIIonly graphicOnly : bool) : go gostring := appendQuotedRuneWith [] r quote ASCIIonly graphicOnly.
Definition Quote (s : gostring) : go gostring := quoteWith s 34 false false.
Definition AppendQuote (dst s : gostring) : go gostring := appendQuotedWith dst s 34 false false.
Definition QuoteToASCII (s : gostring) : go gostring := quoteWith s 34 true false.
Definition AppendQuoteToASCII (dst s : gostring) : go gostring := appendQuotedWith dst s 34 true false.
Definition QuoteToGraphic (s : gostring) : go gostring := quoteWith s 34 false true.
Definition AppendQuoteToGraphic (dst s : gostring) : go gostring := appendQuotedWith dst s 34 false true.
Definition QuoteRune (r : Z) : go gostring := quoteRuneWith r 39 false false.
Definition AppendQuoteRune (dst : gostring) (r : Z) : go gostring := appendQuotedRuneWith dst r 39 false false.
Definition QuoteRuneToASCII (r : Z) : go gostring := quoteRuneWith r 39 true false.
Definition AppendQuoteRuneToASCII (dst : gostring) (r : Z) : go gostring := appendQuotedRuneWith dst r 39 true false.
Definition QuoteRuneToGraphic (r : Z) : go gostring := quoteRuneWith r 39 false true.
Definition AppendQuoteRuneToGraphic (dst : gostring) (r : Z) : go gostring := appendQuotedRuneWith dst r 39 false true.

Fixpoint CanBackquote_loop (fuel : nat) (s : gostring) : go bool :=
  if 0 <? zlen s then
    match fuel with
    | O => OutOfFuel
    | S fuel =>
        '(r, wid) ← DecodeRuneInString s;
        s ← slice_from s wid;
        if 1 <? wid then if r =? 0xFEFF then Ret false else CanBackquote_loop fuel s
        else if r =? RuneError then Ret false
        else if ((r <? 32) && negb (r =? 9)) || (r =? 96) || (r =? 0x7F) then Ret false
        else CanBackquote_loop fuel s
    end
  else Ret true.
Definition CanBackquote (s : gostring) : go bool := CanBackquote_loop (length s) s.

(** ** Unquoting *)
Definition unhex (b : Z) : option Z :=
  if (48 <=? b) && (b <=? 57) then Some (b - 48)
  else if (97 <=? b) && (b <=? 102) then Some (b - 97 + 10)
  else if (65 <=? b) && (b <=? 70) then Some (b - 65 + 10)
  else None.
(** The [n] hexadecimal digits from [j] on; the digits of an octal escape. *)
Fixpoint unhex_loop (n : nat) (s : gostring) (j v : Z) : go (option Z) :=
  match n with
  | O => Ret (Some v)
  | S n => b ← Prelude.index s j; match unhex b with None => Ret None | Some x => unhex_loop n s (j + 1) (Z.lor (int32 (Z.shiftl v 4)) x) end
  end.
Fixpoint unoct_loop (n : nat) (s : gostring) (j v : Z) : go (option Z) :=
  match n with
  | O => Ret (Some v)
  | S n => b ← Prelude.index s j; let x := b - 48 in if (x <? 0) || (7 <? x) then Ret None else unoct_loop n s (j + 1) (Z.lor (int32 (Z.shiftl v 3)) x)
  end.
(** The case of a hexadecimal escape [c]; [None] is [ErrSyntax]. *)
Definition unquote_hex (s : gostring) (c : Z) : go (option (Z * bool * gostring)) :=
  let n := if c =? 120 then 2 else if c =? 117 then 4 else 8 in
  if zlen s <? n then Ret None
  else
    v ← unhex_loop (Z.to_nat n) s 0 0;
    match v with
    | None => Ret None
    | Some v =>
        s ← slice_from s n;
        if c =? 120 then Ret (Some (v, false, s))
        else if negb (ValidRune v) then Ret None
        else Ret (Some (v, true, s))
    end.
Definition unquote_octal (s : gostring) (c : Z) : go (option (Z * bool * gostring)) :=
  let v := c - 48 in
  if zlen s <? 2 then Ret None
  else
    v ← unoct_loop 2 s 0 v;
    match v with
    | None => Ret None
    | Some v => s ← slice_from s 2; if 255 <? v then Ret None else Ret (Some (v, false, s))
    end.
Definition unquote_escape (s : gostring) (c quote : Z) : go (option (Z * bool * gostring)) :=
  if c =? 97 then Ret (Some (7, false, s)) else if c =? 98 then Ret (Some (8, false, s)) else if c =? 102 then Ret (Some (12, false, s))
  else if c =? 110 then Ret (Some (10, false, s)) else if c =? 114 then Ret (Some (13, false, s)) else if c =? 116 then Ret (Some (9, false, s))
  else if c =? 118 then Ret (Some (11, false, s))
  else if (c =? 120) || (c =? 117) || (c =? 85) then unquote_hex s c
  else if (48 <=? c) && (c <=? 55) then unquote_octal s c
  else if c =? 92 then Ret (Some (92, false, s))
  else if (c =? 39) || (c =? 34) then if negb (c =? quote) then Ret None else Ret (Some (c, false, s))
  else Ret None.
Definition UnquoteChar (s : gostring) (quote : Z) : go (option (Z * bool * gostring)) :=
  if zlen s =? 0 then Ret None
  else
    c ← Prelude.index s 0;
    if (c =? quote) && ((quote =? 39) || (quote =? 34)) then Ret None
    else if RuneSelf <=? c then '(r, size) ← DecodeRuneInString s; tail ← slice_from s size; Ret (Some (r, true, tail))
    else if negb (c =? 92) then tail ← slice_from s 1; Ret (Some (c, false, tail))
    else if zlen s <=? 1 then Ret None
    else c ← Prelude.index s 1; s ← slice_from s 2; unquote_escape s c quote.

(** The results of [unquote]: output, remainder and error. *)
Definition unquoted : Type := gostring * gostring * option quote_error.
Definition drop_cr (s : gostring) : gostring := List.filter (fun b => negb (b =? 13)) s.
Definition unquote_raw (in_ : gostring) (end_ : Z) (unescape : bool) : go unquoted :=
  quoted ← slice_to in_ end_;
  out ← (if negb unescape then Ret quoted
         else cr ← contains quoted 13; body ← slice in_ 1 (end_ - 1); Ret (if negb cr then body else drop_cr body));
  rem ← slice_from in_ end_;
  Ret (out, rem, None).
Definition plain_literal (in_ : gostring) (quote end_ : Z) : go bool :=
  body ← slice in_ 1 (end_ - 1);
  if quote =? 34 then Valid body
  else '(r, n) ← DecodeRuneInString body; Ret ((1 + n + 1 =? end_) && (negb (r =? RuneError) || negb (n =? 1))).
(** The loop over the characters: the buffer and the input left, or [ErrSyntax]. *)
Fixpoint unquote_loop (fuel : nat) (in_ buf : gostring) (quote : Z) (unescape : bool) : go (option (gostring * gostring)) :=
  stop ← go_or (Ret (zlen in_ <=? 0)) (b ← Prelude.index in_ 0; Ret (b =? quote));
  if (stop : bool) then Ret (Some (buf, in_))
  else
    match fuel with
    | O => OutOfFuel
    | S fuel =>
        res ← UnquoteChar in_ quote;
        b ← Prelude.index in_ 0;
        match res with
        | None => Ret None
        | Some (r, multibyte, rem) =>
            if b =? 10 then Ret None
            else
              let buf := if unescape then if (r <? RuneSelf) || negb multibyte then buf ++ [byte r] else AppendRune buf r else buf in
              if quote =? 39 then Ret (Some (buf, rem)) else unquote_loop fuel rem buf quote unescape
        end
    end.
Definition unquote_escaped (in0 : gostring) (quote : Z) (unescape : bool) : go unquoted :=
  in_ ← slice_from in0 1;
  res ← unquote_loop (length in_) in_ [] quote unescape;
  match res with
  | None => Ret ([], in0, Some ErrSyntax)
  | Some (buf, in_) =>
      closed ← go_and (Ret (0 <? zlen in_)) (b ← Prelude.index in_ 0; Ret (b =? quote));
      if negb closed then Ret ([], in0, Some ErrSyntax)
      else
        in_ ← slice_from in_ 1;
        if unescape then Ret (buf, in_, None)
        else out ← slice_to in0 (zlen in0 - zlen in_); Ret (out, in_, None)
  end.
Definition unquote (in_ : gostring) (unescape : bool) : go unquoted :=
  if zlen in_ <? 2 then Ret ([], in_, Some ErrSyntax)
  else
    quote ← Prelude.index in_ 0;
    tl ← slice_from in_ 1;
    end_ ← index_byte tl quote;
    if end_ <? 0 then Ret ([], in_, Some ErrSyntax)
    else
      let end_ := end_ + 2 in
      if quote =? 96 then unquote_raw in_ end_ unescape
      else if (quote =? 34) || (quote =? 39) then
        quoted ← slice_to in_ end_;
        escapes ← go_or (contains quoted 92) (contains quoted 10);
        valid ← (if negb escapes then plain_literal in_ quote end_ else Ret false);
        if (valid : bool) then
          out ← (if unescape then slice quoted 1 (end_ - 1) else Ret quoted);
          rem ← slice_from in_ end_;
          Ret (out, rem, None)
        else unquote_escaped in_ quote unescape
      else Ret ([], in_, Some ErrSyntax).
Definition QuotedPrefix (s : gostring) : go (gostring * option quote_error) :=
  '(out, _, err) ← unquote s false; Ret (out, err).
Definition Unquote (s : gostring) : go (gostring * option quote_error) :=
  '(out, rem, err) ← unquote s true;
  if 0 <? zlen rem then Ret ([], Some ErrSyntax) else Ret (out, err).

Example quote_runs : Quote (str "a\b" ++ [10; 0xFF; 0xE2; 0x82; 0xAC; 0xC2; 0xA0; 34]) = Ret ([34] ++ str "a\\b\n\xff" ++ [0xE2; 0x82; 0xAC] ++ str "\u00a0\" ++ [34; 34]).
Proof. vm_compute. reflexivity. Qed.
Example unquote_runs : Unquote ([34] ++ str "a\\b\n\xff\U0001F600\u00a0\" ++ [34; 34]) = Ret (str "a\b" ++ [10; 0xFF; 0xF0; 0x9F; 0x98; 0x80; 0xC2; 0xA0; 34], None) /\
  Unquote (str "'\''") = Ret ([39], None) /\ Unquote (str "''") = Ret ([], None) /\ QuotedPrefix (str "`a`b") = Ret (str "`a`", None).
Proof. vm_compute. done. Qed.

(** ** Searching the tables *)

(** How many leading elements are below [v]. *)
Fixpoint lower (s : list Z) (v : Z) : nat :=
  match s with x :: s => if x <? v then S (lower s v) else O | [] => O end.
Lemma lower_unique s v (i : nat) : (i <= length s)%nat -> (forall k x, s !! k = Some x -> (k < i)%nat -> x < v) -> (forall k x, s !! k = Some x -> (i <= k)%nat -> v <= x) -> lower s v = i.
Proof.
  revert i. induction s as [|x s IH]; intros i Hi Hlt Hge; cbn [lower length] in *; [lia|]. destruct i as [|i].
  - specialize (Hge 0%nat x eq_refl). zcase.
  - specialize (Hlt 0%nat x eq_refl) as Hx. zcase. f_equal. apply IH; [lia|..]; intros k y Hk Hki; [apply (Hlt (S k))|apply (Hge (S k))]; (done || lia).
Qed.
Lemma lower_le s v : (lower s v <= length s)%nat.
Proof. induction s as [|x s IH]; cbn [lower length]; [lia|]. destruct (x <? v); lia. Qed.
Lemma sorted_lookup s : StronglySorted Z.le s -> forall i j x y, s !! i = Some x -> s !! j = Some y -> (i <= j)%nat -> x <= y.
Proof.
  induction 1 as [|a s _ IH Hall]; intros i j x y Hi Hj Hij; [done|]. rewrite Forall_lookup in Hall. destruct i as [|i], j as [|j]; cbn in *; simplify_eq.
  - lia.
  - by apply (Hall j).
  - lia.
  - apply (IH i j x y Hi Hj). lia.
Qed.

Lemma bsearch_loop_spec fuel s v i j : StronglySorted Z.le s -> 0 <= i <= j -> j <= zlen s -> j - i <= Z.of_nat fuel ->
  (forall k x, s !! k = Some x -> Z.of_nat k < i -> x < v) -> (forall k x, s !! k = Some x -> j <= Z.of_nat k -> v <= x) ->
  bsearch_loop fuel s v i j = Ret (Z.of_nat (lower s v)).
Proof.
  intros Hs. revert i j. induction fuel as [|fuel IH]; intros i j Hij Hj Hf Hlt Hge; cbn [bsearch_loop]; destruct (Z.ltb_spec i j); try lia.
  1,3: f_equal; rewrite (lower_unique s v (Z.to_nat i)); [lia|unfold zlen in Hj; lia|intros k x Hk ?; apply (Hlt k x Hk); lia|intros k x Hk ?; apply (Hge k x Hk); lia].
  rewrite Z.shiftr_div_pow2 by lia. change (2 ^ 1) with 2. pose proof (Z.div_mod (j - i) 2 ltac:(lia)). pose proof (Z.mod_pos_bound (j - i) 2 ltac:(lia)). set (h := i + (j - i) / 2) in *.
  assert (i <= h < j) as Hh by lia. destruct (index_in_range s h) as [x Hx]; [lia|]. rewrite Hx, bind_ret. apply index_lookup in Hx as [_ Hx].
  destruct (Z.ltb_spec x v).
  - apply IH; [lia..| |done]. intros k y Hk Hkh. pose proof (sorted_lookup s Hs k _ y x Hk Hx). lia.
  - apply IH; [lia..|done|]. intros k y Hk Hkh. pose proof (sorted_lookup s Hs _ k x y Hx Hk). lia.
Qed.
Lemma bsearch_spec s v : StronglySorted Z.le s -> bsearch s v = Ret (Z.of_nat (lower s v), bool_decide (s !! lower s v = Some v)).
Proof.
  intros Hs. unfold bsearch. pose proof (zlen_nonneg s). pose proof (lower_le s v). rewrite bsearch_loop_spec, bind_ret; [|done|lia|lia|unfold zlen; lia|lia|].
  2:{ intros k x Hk%lookup_lt_Some ?. unfold zlen in *. lia. }
  destruct (s !! lower s v) as [x|] eqn:Hx.
  - pose proof (lookup_lt_Some _ _ _ Hx). rewrite (proj2 (Z.ltb_lt _ _)) by (unfold zlen; lia). rewrite (index_nat _ _ _ Hx), bind_ret. do 2 f_equal. case_bool_decide; [simplify_eq; lia|]. apply Z.eqb_neq. congruence.
  - apply lookup_ge_None in Hx. rewrite (proj2 (Z.ltb_ge _ _)) by (unfold zlen; lia). done.
Qed.
Lemma lower_elem s v : StronglySorted Z.le s -> s !! lower s v = Some v <-> v ∈ s.
Proof.
  intros Hs. split; [apply list_elem_of_lookup_2|]. induction Hs as [|x s _ IH Hall]; [by intros ?%not_elem_of_nil|]. intros [-> |Hin]%elem_of_cons; cbn [lower].
  - by rewrite Z.ltb_irrefl.
  - rewrite Forall_forall in Hall. specialize (Hall v Hin). destruct (Z.ltb_spec x v); [by apply IH|]. by replace x with v by lia.
Qed.
Lemma increasing_sorted l lo : increasing l lo = true -> StronglySorted Z.le l /\ Forall (fun x => lo < x) l.
Proof.
  revert lo. induction l as [|a l IH]; intros lo H; [by repeat constructor|]. cbn [increasing] in H. apply andb_true_iff in H as [Ha Hl]. destruct (IH a Hl) as [Hs Hall].
  split; constructor; [done|eapply Forall_impl; [done|]; cbn; lia|lia|eapply Forall_impl; [done|]; cbn; lia].
Qed.
Lemma intervals_nondecreasing l lo : intervals_sorted l lo = true -> StronglySorted Z.le l /\ Forall (fun x => lo < x) l.
Proof.
  revert lo. induction l as [l IH] using (induction_ltof1 _ (@length Z)). intros lo H. destruct l as [|a [|b l]]; [by repeat constructor|done|]. cbn [intervals_sorted] in H.
  rewrite !andb_true_iff in H. destruct H as [[Ha Hb] Hl]. destruct (IH l ltac:(unfold ltof; cbn; lia) b Hl) as [Hs Hall].
  assert (forall c, c <= b -> Forall (fun x => c < x) l) as Hmore by (intros c Hc; eapply Forall_impl; [exact Hall|]; cbn; lia).
  assert (forall c, c <= b -> Forall (Z.le c) l) as Hle by (intros c Hc; eapply Forall_impl; [exact Hall|]; cbn; lia).
  split; repeat constructor; try done; try lia; try (apply Hle; lia); apply Hmore; lia.
Qed.

(** Membership in the intervals, and what the code computes from a position. *)
Fixpoint in_intervals (l : list Z) (x : Z) : bool :=
  match l with
  | a :: l => match l with b :: l' => ((a <=? x) && (x <=? b)) || in_intervals l' x | [] => false end
  | [] => false
  end.
Lemma in_intervals_above l lo x : intervals_sorted l lo = true -> x <= lo -> in_intervals l x = false.
Proof.
  revert lo. induction l as [l IH] using (induction_ltof1 _ (@length Z)). intros lo H Hx. destruct l as [|a [|b l]]; [done|done|]. cbn [intervals_sorted in_intervals] in *.
  rewrite !andb_true_iff in H. destruct H as [[Ha Hb] Hl]. rewrite (IH l ltac:(unfold ltof; cbn; lia) b Hl) by lia. by zcase.
Qed.
Lemma pair_positions (i : nat) : Z.ldiff (Z.of_nat (S (S i))) 1 = Z.ldiff (Z.of_nat i) 1 + 2 /\ Z.lor (Z.of_nat (S (S i))) 1 = Z.lor (Z.of_nat i) 1 + 2 /\ 0 <= Z.ldiff (Z.of_nat i) 1 /\ 0 <= Z.lor (Z.of_nat i) 1.
Proof.
  replace (Z.of_nat (S (S i))) with (Z.of_nat i + 2) by lia. assert (0 <= Z.of_nat i) as Hi by lia. revert Hi. generalize (Z.of_nat i). intros z Hz.
  destruct z as [|[p|p|]|p]; [done| | |done|lia]; (destruct p; cbn; split_and!; done || lia).
Qed.
Lemma index_skip2 {A} (a b : A) l i : 0 <= i -> Prelude.index (a :: b :: l) (i + 2) = Prelude.index l i.
Proof. intros Hi. change (a :: b :: l) with ([a; b] ++ l). rewrite <- (index_app_r [a; b] l i Hi). f_equal. change (zlen [a; b]) with 2. lia. Qed.
Lemma outside_intervals_spec l lo x : intervals_sorted l lo = true -> outside_intervals l (Z.of_nat (lower l x)) x = Ret (negb (in_intervals l x)).
Proof.
  revert lo. induction l as [l IH] using (induction_ltof1 _ (@length Z)). intros lo H. destruct l as [|a [|b l]]; [done|done|]. cbn [intervals_sorted] in H.
  rewrite !andb_true_iff in H. destruct H as [[Ha Hb] Hl]. cbn [lower in_intervals]. destruct (Z.ltb_spec a x) as [Hax|Hax]; [destruct (Z.ltb_spec b x) as [Hbx|Hbx]|].
  - rewrite (proj2 (Z.leb_gt x b)), andb_false_r by lia. cbn [orb]. rewrite <- (IH l ltac:(unfold ltof; cbn; lia) b Hl).
    unfold outside_intervals. destruct (pair_positions (lower l x)) as (-> & -> & H0 & H1). rewrite !index_skip2 by done. f_equal. f_equal. rewrite !zlen_cons. zcase; done.
  - rewrite (proj2 (Z.leb_le a x)), (proj2 (Z.leb_le x b)) by lia. unfold outside_intervals. rewrite !zlen_cons. pose proof (zlen_nonneg l).
    rewrite (proj2 (Z.leb_gt _ _)) by lia. change (Z.ldiff (Z.of_nat 1) 1) with 0. change (Z.lor (Z.of_nat 1) 1) with 1. change (Prelude.index (a :: b :: l) 0) with (Ret a). change (Prelude.index (a :: b :: l) 1) with (Ret b).
    rewrite !bind_ret. cbn [go_or]. rewrite (proj2 (Z.ltb_ge x a)), (proj2 (Z.ltb_ge b x)) by lia. done.
  - rewrite (in_intervals_above l b x Hl) by lia. rewrite orb_false_r. unfold outside_intervals. rewrite !zlen_cons. pose proof (zlen_nonneg l).
    rewrite (proj2 (Z.leb_gt _ _)) by lia. change (Z.ldiff (Z.of_nat 0) 1) with 0. change (Z.lor (Z.of_nat 0) 1) with 1. change (Prelude.index (a :: b :: l) 0) with (Ret a). change (Prelude.index (a :: b :: l) 1) with (Ret b).
    rewrite !bind_ret. cbn [go_or]. zcase; done.
Qed.

(** The runes that are printable by the tables. *)
Definition printable (r : Z) : bool :=
  if r <? 2 ^ 16 then in_intervals isPrint16 r && negb (bool_decide (r ∈ isNotPrint16))
  else in_intervals isPrint32 r && ((0x20000 <=? r) || negb (bool_decide (r - 0x10000 ∈ isNotPrint32))).
Definition graphic (r : Z) : bool := printable r || bool_decide (r ∈ isGraphic).
Lemma IsPrint_spec r : 0 <= r < 2 ^ 31 -> IsPrint r = Ret (printable r).
Proof.
  intros Hr. destruct tables_sorted as (H16 & H32 & N16 & N32 & _).
  pose proof (proj1 (intervals_nondecreasing _ _ H16)) as S16. pose proof (proj1 (intervals_nondecreasing _ _ H32)) as S32.
  pose proof (proj1 (increasing_sorted _ _ N16)) as M16. pose proof (proj1 (increasing_sorted _ _ N32)) as M32. unfold IsPrint. destruct (Z.leb_spec r 0xFF).
  { assert (is_byte r) as Hb by (unfold is_byte; lia). clear Hr. 
    assert (Bool.eqb (if (0x20 <=? r) && (r <=? 0x7E) then true else if (0xA1 <=? r) && (r <=? 0xFF) then negb (r =? 0xAD) else false) (printable r) = true) as E.
    { revert r Hb H. intros r Hb _. revert r Hb. apply byte_forall. vm_compute. reflexivity. }
    apply (proj1 (eqb_true_iff _ _)) in E. rewrite <- E, (proj2 (Z.leb_le r 0xFF)) by done. clear. destruct ((32 <=? r) && _); [done|]. by destruct ((161 <=? r) && _). }
  unfold printable. rewrite (proj2 (Z.leb_le 0 r)) by lia. destruct (Z.ltb_spec r (2 ^ 16)); cbn [andb].
  - rewrite uint_wrap_id by lia. cbv zeta. rewrite (bsearch_spec isPrint16), bind_ret by done. cbv beta iota. rewrite (outside_intervals_spec isPrint16 (-1)), bind_ret by done.
    destruct (in_intervals isPrint16 r); [|done]. cbn [negb andb]. cbv zeta. rewrite (bsearch_spec isNotPrint16), bind_ret by done. cbv beta iota. do 2 f_equal. by apply bool_decide_ext, lower_elem.
  - rewrite (uint_wrap_id 32) by lia. cbv zeta. rewrite (bsearch_spec isPrint32), bind_ret by done. cbv beta iota. rewrite (outside_intervals_spec isPrint32 (-1)), bind_ret by done.
    destruct (in_intervals isPrint32 r); [|done]. cbn [negb andb]. destruct (Z.leb_spec 0x20000 r); [done|]. rewrite uint_wrap_id by lia.
    cbv zeta. rewrite (bsearch_spec isNotPrint32), bind_ret by done. cbv beta iota. cbn [orb]. do 2 f_equal. by apply bool_decide_ext, lower_elem.
Qed.
Lemma isInGraphicList_spec r : 0 <= r < 2 ^ 31 -> isInGraphicList r = Ret (bool_decide (r ∈ isGraphic)).
Proof.
  intros Hr. destruct tables_sorted as (_ & _ & _ & _ & Hg). pose proof (proj1 (increasing_sorted _ _ Hg)) as Sg. unfold isInGraphicList. destruct (Z.ltb_spec 0xFFFF r).
  - rewrite bool_decide_eq_false_2; [done|]. intros Hin. assert (Forall (fun x => x <= 0xFFFF) isGraphic) as Hall by (by apply (bool_decide_unpack _); vm_compute). rewrite Forall_forall in Hall. specialize (Hall r Hin). lia.
  - rewrite uint_wrap_id by lia. cbv zeta. rewrite bsearch_spec, bind_ret by done. cbv beta iota. do 2 f_equal. by apply bool_decide_ext, lower_elem.
Qed.

(** ** Hexadecimal digits *)
Definition hex_char (d : Z) : Z := if d <? 10 then 48 + d else 87 + d.
Fixpoint hex_text (n : nat) (r : Z) : gostring :=
  match n with O => [] | S n => hex_char (r / 16 ^ Z.of_nat n mod 16) :: hex_text n r end.
Lemma zlen_hex_text n r : zlen (hex_text n r) = Z.of_nat n.
Proof. induction n as [|n IH]; [done|]. cbn [hex_text]. rewrite zlen_cons. lia. Qed.
Lemma lowerhex_digit d : 0 <= d < 16 -> Prelude.index lowerhex d = Ret (hex_char d) /\ unhex (hex_char d) = Some d.
Proof.
  intros Hd. assert (exists n : nat, (n < 16)%nat /\ d = Z.of_nat n) as (n & Hn & ->) by (exists (Z.to_nat d); lia).
  do 16 (destruct n as [|n]; [split; reflexivity|]). lia.
Qed.
Lemma nibble x : 0 <= x mod 16 < 16.
Proof. apply Z.mod_pos_bound. lia. Qed.
Lemma land_nibble x : Z.land x 0xF = x mod 16.
Proof. change 0xF with (Z.ones 4). by rewrite Z.land_ones. Qed.
Lemma hex_digits_spec n buf r : hex_digits n buf r = Ret (buf ++ hex_text n r).
Proof.
  revert buf. induction n as [|n IH]; intros buf; cbn [hex_digits hex_text]; [by rewrite app_nil_r|].
  rewrite land_nibble, Z.shiftr_div_pow2 by lia. replace (2 ^ (4 * Z.of_nat n)) with (16 ^ Z.of_nat n) by (rewrite Z.pow_mul_r by lia; done).
  rewrite (proj1 (lowerhex_digit _ (nibble _))), bind_ret, IH. by rewrite <- app_assoc.
Qed.
Lemma hex_byte_spec buf b : is_byte b -> hex_byte buf b = Ret (buf ++ 92 :: 120 :: hex_text 2 b).
Proof.
  unfold is_byte. intros Hb. unfold hex_byte. rewrite land_nibble, Z.shiftr_div_pow2 by lia. change (2 ^ 4) with 16.
  assert (0 <= b / 16 < 16) as Hh by (split; [apply Z.div_pos; lia|apply Z.div_lt_upper_bound; lia]).
  rewrite (proj1 (lowerhex_digit _ Hh)), bind_ret, (proj1 (lowerhex_digit _ (nibble _))), bind_ret. cbn [hex_text]. change (16 ^ Z.of_nat 1) with 16. change (16 ^ Z.of_nat 0) with 1.
  by rewrite (Z.mod_small (b / 16)), Z.div_1_r by done.
Qed.
Lemma unhex_loop_spec n a r rest v : 0 <= v -> 0 <= r -> v * 16 ^ Z.of_nat n + r mod 16 ^ Z.of_nat n < 2 ^ 31 ->
  unhex_loop n (a ++ hex_text n r ++ rest) (zlen a) v = Ret (Some (v * 16 ^ Z.of_nat n + r mod 16 ^ Z.of_nat n)).
Proof.
  revert a v. induction n as [|n IH]; intros a v Hv Hr Hlt; cbn [unhex_loop hex_text].
  { do 2 f_equal. change (16 ^ Z.of_nat 0) with 1. rewrite Z.mod_1_r. lia. }
  set (d := r / 16 ^ Z.of_nat n mod 16). pose proof (nibble (r / 16 ^ Z.of_nat n)) as Hd. fold d in Hd.
  assert (0 < 16 ^ Z.of_nat n) as Hp by (apply Z.pow_pos_nonneg; lia). pose proof (Z.mod_pos_bound r _ Hp) as Hm.
  assert (16 ^ Z.of_nat (S n) = 16 * 16 ^ Z.of_nat n) as Hpow by (rewrite Nat2Z.inj_succ, Z.pow_succ_r by lia; done).
  assert (r mod 16 ^ Z.of_nat (S n) = r mod 16 ^ Z.of_nat n + 16 ^ Z.of_nat n * d) as Hmod by (rewrite Hpow, Z.mul_comm, Z.rem_mul_r by lia; done).
  pose proof (index_app_r a (hex_char d :: hex_text n r ++ rest) 0 ltac:(lia)) as Hi. rewrite Z.add_0_r in Hi. cbn [app]. rewrite Hi. change (Prelude.index (hex_char d :: hex_text n r ++ rest) 0) with (Ret (hex_char d)). rewrite bind_ret, (proj2 (lowerhex_digit d Hd)).
  rewrite Hmod, Hpow in Hlt |- *. assert (v * 16 < 2 ^ 31) as Hv16 by nia.
  rewrite int32_id by (rewrite Z.shiftl_mul_pow2 by lia; change (2 ^ 4) with 16; lia). rewrite lor_shiftl_add by lia. change (2 ^ 4) with 16.
  pose proof (IH (a ++ [hex_char d]) (v * 16 + d) ltac:(lia) Hr ltac:(lia)) as E. rewrite <- app_assoc in E. cbn [app] in E.
  replace (zlen (a ++ [hex_char d])) with (zlen a + 1) in E by (rewrite zlen_app; done). rewrite E. do 2 f_equal. lia.
Qed.

(** ** Characters of a literal *)

(** What the parser appends for a character. *)
Definition appended (r : Z) (multibyte : bool) : gostring := if (r <? RuneSelf) || negb multibyte then [byte r] else encoding r.
Definition ascii_printable (b : Z) : Prop := 0x20 <= b < 0x7F.
(** The text of a character, and the bytes it stands for: a code point that needs no
    escape, or an escape. *)
Inductive literal_char (quote : Z) : gostring -> gostring -> Prop :=
  | literal_raw e : utf8_char e = true -> e <> [quote] -> e <> [92] -> e <> [10] -> literal_char quote e e
  | literal_escape t piece v multibyte : appended v multibyte = piece -> Forall ascii_printable t ->
      (forall rest, is_gostring rest -> UnquoteChar (92 :: t ++ rest) quote = Ret (Some (v, multibyte, rest))) -> literal_char quote (92 :: t) piece.

Lemma utf8_value_inj e e' : utf8_char e = true -> utf8_char e' = true -> utf8_value e = utf8_value e' -> e = e'.
Proof.
  intros He He' Hv. assert (zlen e = zlen e') as Hl by (by rewrite <- !utf8_RuneLen_value, Hv).
  destruct e as [|a [|b [|c [|d [|? ?]]]]]; try done; destruct e' as [|a' [|b' [|c' [|d' [|? ?]]]]]; try done; rewrite ?zlen_cons, ?zlen_nil in Hl; try lia.
  all: cbn [utf8_char utf8_value] in *; unfold tail_byte in *; change (2 ^ 6) with 64 in *; change (2 ^ 12) with 4096 in *; change (2 ^ 18) with 262144 in *.
  all: repeat match goal with |- ?x :: _ = ?y :: _ => replace x with y by lia; f_equal end; done.
Qed.
Lemma utf8_value_range e : utf8_char e = true -> 0 <= utf8_value e <= MaxRune /\ ValidRune (utf8_value e) = true.
Proof.
  unfold ValidRune, surrogateMin, surrogateMax, MaxRune. destruct e as [|a [|b [|c [|d [|? ?]]]]]; try done; cbn [utf8_char utf8_value]; unfold tail_byte; intros He;
    change (2 ^ 6) with 64; change (2 ^ 12) with 4096; change (2 ^ 18) with 262144; (split; [lia|]); match goal with |- (if ?c then _ else _) = true => destruct c eqn:?; [done|lia] end.
Qed.
Lemma encoding_value e : utf8_char e = true -> encoding (utf8_value e) = e.
Proof.
  intros He. destruct (utf8_value_range e He) as [Hr Hv]. destruct (encoding_spec (utf8_value e)) as [Hc Hval]; [unfold MaxRune in Hr; lia|]. rewrite Hv in Hval.
  by apply utf8_value_inj.
Qed.
Lemma ValidRune_range r : ValidRune r = true -> 0 <= r <= MaxRune.
Proof. unfold ValidRune, surrogateMin, surrogateMax, MaxRune. destruct (_ && _) eqn:E; lia. Qed.
Lemma encoding_valid r : ValidRune r = true -> utf8_char (encoding r) = true /\ utf8_value (encoding r) = r.
Proof. intros Hv. pose proof (ValidRune_range r Hv) as Hr. unfold MaxRune in Hr. destruct (encoding_spec r) as [Hc Hval]; [lia|]. by rewrite Hv in Hval. Qed.
Lemma encoding_ascii r : 0 <= r < RuneSelf -> encoding r = [r].
Proof. intros Hr. unfold RuneSelf in Hr. rewrite <- (encoding_value [r]); [done|]. cbn. lia. Qed.

Lemma index_0 {A} (x : A) l : Prelude.index (x :: l) 0 = Ret x.
Proof. done. Qed.
Lemma index_1 {A} (x y : A) l : Prelude.index (x :: y :: l) 1 = Ret y.
Proof. done. Qed.
Lemma slice_from_1 {A} (x : A) l : slice_from (x :: l) 1 = Ret l.
Proof. exact (slice_from_app_r [x] l). Qed.
Lemma slice_from_2 {A} (x y : A) l : slice_from (x :: y :: l) 2 = Ret l.
Proof. exact (slice_from_app_r [x; y] l). Qed.

(** Parsing gives back what a character stands for. *)
Lemma literal_char_parse quote t piece rest : quote = 34 \/ quote = 39 -> literal_char quote t piece -> is_gostring rest ->
  exists b t' r multibyte, t = b :: t' /\ b <> quote /\ b <> 10 /\ UnquoteChar (t ++ rest) quote = Ret (Some (r, multibyte, rest)) /\ appended r multibyte = piece.
Proof.
  intros Hq Ht Hrest. destruct Ht as [e He Hne Hn92 Hn10|t piece v multibyte Hp Hasc Hrun].
  2:{ exists 92, t, v, multibyte. split_and!; [done|lia|lia|by apply Hrun|done]. }
  pose proof (utf8_char_bytes e He) as Hbytes. destruct e as [|b e]; [done|]. exists b, e. cbn [app]. unfold UnquoteChar. rewrite zlen_cons. pose proof (zlen_nonneg (e ++ rest)).
  rewrite (proj2 (Z.eqb_neq _ 0)) by lia. rewrite index_0, bind_ret. destruct (Z.leb_spec RuneSelf b) as [Hb|Hb]; unfold RuneSelf in Hb.
  - exists (utf8_value (b :: e)), true. split_and!; [done|lia|lia| |].
    + rewrite (proj2 (Z.eqb_neq b quote)) by lia. cbn [andb]. change (b :: e ++ rest) with ((b :: e) ++ rest).
      rewrite utf8_decode_spec by (by apply Forall_app). cbn [app]. change (b :: e ++ rest) with ((b :: e) ++ rest). rewrite (utf8_prefix_char _ rest He), bind_ret. cbv beta iota. rewrite slice_from_app_r. done.
    + unfold appended. rewrite encoding_value by done. destruct (Z.ltb_spec (utf8_value (b :: e)) RuneSelf) as [Hlt|]; [|done]. exfalso.
      destruct (utf8_value_range (b :: e) He) as [[Hv _] _]. pose proof (encoding_ascii _ (conj Hv Hlt)) as Ha. rewrite encoding_value in Ha by done. apply (f_equal (List.hd 0)) in Ha. cbn [List.hd] in Ha. unfold RuneSelf in Hlt. lia.
  - assert (e = []) as ->. { destruct e as [|c e]; [done|]. rewrite utf8_char_lead in He by done. destruct (lead_info b) as [[[w l] h]|] eqn:El; [|done]. apply utf8_lead_range in El. lia. }
    exists b, false. assert (b <> quote /\ b <> 92 /\ b <> 10) as (? & ? & ?) by (split_and!; congruence). split_and!; [done..| |].
    + rewrite (proj2 (Z.eqb_neq b quote)), (proj2 (Z.eqb_neq b 92)) by done. cbn [andb negb app]. by rewrite slice_from_1.
    + unfold appended. cbn [negb]. rewrite orb_true_r. unfold byte. rewrite utf8_char_1 in He. by rewrite uint_wrap_id by lia.
Qed.

(** The escapes that are printed. *)
Lemma simple_escape quote c v : quote = 34 \/ quote = 39 ->
  ((c, v) ∈ [(97, 7); (98, 8); (102, 12); (110, 10); (114, 13); (116, 9); (118, 11); (92, 92); (quote, quote)]) -> literal_char quote [92; c] [v].
Proof.
  intros Hq Hin. apply (literal_escape quote [c] [v] v false).
  - rewrite !elem_of_cons, elem_of_nil in Hin. destruct_or! Hin; simplify_eq; destruct Hq as [-> | ->]; done.
  - rewrite !elem_of_cons, elem_of_nil in Hin. constructor; [|done]. unfold ascii_printable. destruct_or! Hin; simplify_eq; lia.
  - intros rest _. unfold UnquoteChar. cbn [app]. rewrite !zlen_cons. pose proof (zlen_nonneg rest). rewrite (proj2 (Z.eqb_neq _ 0)), (proj2 (Z.leb_gt _ 1)) by lia.
    rewrite index_0, bind_ret, index_1, bind_ret, slice_from_2, bind_ret. rewrite !elem_of_cons, elem_of_nil in Hin.
    destruct_or! Hin; simplify_eq; destruct Hq as [-> | ->]; done.
Qed.
Lemma hex_text_printable n r : Forall ascii_printable (hex_text n r).
Proof.
  induction n as [|n IH]; constructor; [|done]. pose proof (nibble (r / 16 ^ Z.of_nat n)) as Hd. unfold hex_char, ascii_printable. zcase.
Qed.
Lemma hex_escape quote c (n : nat) r multibyte : quote = 34 \/ quote = 39 ->
  (c, n, multibyte) ∈ [(120, 2%nat, false); (117, 4%nat, true); (85, 8%nat, true)] -> 0 <= r < 16 ^ Z.of_nat n -> r < 2 ^ 31 -> (multibyte = true -> ValidRune r = true) ->
  literal_char quote (92 :: c :: hex_text n r) (appended r multibyte).
Proof.
  intros Hq Hin Hr H31 Hval. apply (literal_escape quote (c :: hex_text n r) _ r multibyte); [done| |].
  - constructor; [|apply hex_text_printable]. rewrite !elem_of_cons, elem_of_nil in Hin. unfold ascii_printable. destruct_or! Hin; simplify_eq; lia.
  - intros rest _. unfold UnquoteChar. cbn [app]. rewrite !zlen_cons. pose proof (zlen_nonneg (hex_text n r ++ rest)). rewrite (proj2 (Z.eqb_neq _ 0)), (proj2 (Z.leb_gt _ 1)) by lia.
    rewrite index_0, bind_ret, index_1, bind_ret, slice_from_2, bind_ret.
    replace ((92 =? quote) && ((quote =? 39) || (quote =? 34))) with false by lia. cbn [Z.leb RuneSelf Z.eqb Pos.eqb negb].
    pose proof (unhex_loop_spec n [] r rest 0 ltac:(lia) ltac:(lia)) as Hloop. rewrite Z.mul_0_l, Z.add_0_l, Z.mod_small in Hloop by done. specialize (Hloop H31).
    assert (slice_from (hex_text n r ++ rest) (Z.of_nat n) = Ret rest) as Hs by (rewrite <- (zlen_hex_text n r); apply slice_from_app_r).
    assert ((zlen (hex_text n r ++ rest) <? Z.of_nat n) = false) as Hlen by (rewrite zlen_app, zlen_hex_text; pose proof (zlen_nonneg rest); lia).
    rewrite !elem_of_cons, elem_of_nil in Hin. destruct_or! Hin; simplify_eq; unfold unquote_escape, unquote_hex; cbn [Z.eqb Pos.eqb orb]; cbn [app] in Hloop.
    all: match type of Hs with context [Z.of_nat ?k] => let z := eval vm_compute in (Z.of_nat k) in change (Z.of_nat k) with z in Hs, Hlen; change (Z.to_nat z) with k end.
    all: rewrite Hlen; change (zlen []) with 0 in Hloop; rewrite Hloop, bind_ret, Hs, bind_ret.
    all: rewrite ?Hval by done; done.
Qed.

(** ** What quoting prints *)

(** A printed character is printable ASCII, or a code point that is kept because it is
    printable (or graphic, where that was asked for). *)
Definition shown (ASCIIonly graphicOnly : bool) (t : gostring) : Prop :=
  Forall ascii_printable t \/ (ASCIIonly = false /\ utf8_char t = true /\ (printable (utf8_value t) || (graphicOnly && bool_decide (utf8_value t ∈ isGraphic))) = true).

Lemma printable_ascii r : 0 <= r < RuneSelf -> printable r = (0x20 <=? r) && (r <=? 0x7E).
Proof.
  unfold RuneSelf. intros Hr. assert (is_byte r) as Hb by (unfold is_byte; lia).
  assert (implb (r <? 0x80) (Bool.eqb (printable r) ((0x20 <=? r) && (r <=? 0x7E))) = true) as E by (clear Hr; revert r Hb; apply byte_forall; vm_compute; reflexivity).
  rewrite (proj2 (Z.ltb_lt r 0x80)) in E by lia. by apply (proj1 (eqb_true_iff _ _)) in E.
Qed.
Lemma not_graphic_low r : r < 0xA0 -> bool_decide (r ∈ isGraphic) = false.
Proof.
  intros Hr. apply bool_decide_eq_false_2. intros Hin. assert (Forall (fun x => 0xA0 <= x) isGraphic) as Hall by (by apply (bool_decide_unpack _); vm_compute).
  rewrite Forall_forall in Hall. specialize (Hall r Hin). lia.
Qed.
Lemma appended_valid r multibyte : ValidRune r = true -> multibyte = true \/ r < RuneSelf -> appended r multibyte = encoding r.
Proof.
  intros Hv Hm. pose proof (ValidRune_range r Hv). unfold appended. destruct (Z.ltb_spec r RuneSelf); cbn [orb].
  - rewrite encoding_ascii by lia. unfold RuneSelf, byte in *. by rewrite uint_wrap_id by lia.
  - destruct multibyte; [done|]. destruct Hm; [done|lia].
Qed.

Lemma escape_rune_spec buf r quote : quote = 34 \/ quote = 39 -> ValidRune r = true ->
  exists t, escape_rune buf r = Ret (buf ++ t) /\ literal_char quote t (encoding r) /\ Forall ascii_printable t.
Proof.
  intros Hq Hv. pose proof (ValidRune_range r Hv) as Hr. unfold MaxRune in Hr. unfold escape_rune.
  assert (forall c v, r = v -> 0 <= v < 128 -> ((c, v) ∈ [(97, 7); (98, 8); (102, 12); (110, 10); (114, 13); (116, 9); (118, 11); (92, 92); (quote, quote)]) -> ascii_printable c ->
    exists t, Ret (buf ++ [92; c]) = Ret (buf ++ t) /\ literal_char quote t (encoding r) /\ Forall ascii_printable t) as Hsimple.
  { intros c v -> Hv128 Hin Hc. exists [92; c]. rewrite encoding_ascii by (unfold RuneSelf; lia). split_and!; [done|by apply simple_escape|]. repeat constructor; (lia || apply Hc). }
  destruct (Z.eqb_spec r 7) as [E|_]; [apply (Hsimple 97 7 E); [lia|set_solver|unfold ascii_printable; lia]|].
  destruct (Z.eqb_spec r 8) as [E|_]; [apply (Hsimple 98 8 E); [lia|set_solver|unfold ascii_printable; lia]|].
  destruct (Z.eqb_spec r 12) as [E|_]; [apply (Hsimple 102 12 E); [lia|set_solver|unfold ascii_printable; lia]|].
  destruct (Z.eqb_spec r 10) as [E|_]; [apply (Hsimple 110 10 E); [lia|set_solver|unfold ascii_printable; lia]|].
  destruct (Z.eqb_spec r 13) as [E|_]; [apply (Hsimple 114 13 E); [lia|set_solver|unfold ascii_printable; lia]|].
  destruct (Z.eqb_spec r 9) as [E|_]; [apply (Hsimple 116 9 E); [lia|set_solver|unfold ascii_printable; lia]|].
  destruct (Z.eqb_spec r 11) as [E|_]; [apply (Hsimple 118 11 E); [lia|set_solver|unfold ascii_printable; lia]|]. clear Hsimple.
  assert (forall c (n : nat) multibyte, (c, n, multibyte) ∈ [(120, 2%nat, false); (117, 4%nat, true); (85, 8%nat, true)] -> r < 16 ^ Z.of_nat n -> multibyte = true \/ r < RuneSelf ->
    exists t, Ret ((buf ++ [92; c]) ++ hex_text n r) = Ret (buf ++ t) /\ literal_char quote t (encoding r) /\ Forall ascii_printable t) as Hhex.
  { intros c n multibyte Hin Hrn Hm. exists (92 :: c :: hex_text n r). split_and!; [by rewrite <- app_assoc|rewrite <- (appended_valid r multibyte) by done; apply hex_escape; (done || lia)|].
    rewrite !elem_of_cons, elem_of_nil in Hin. repeat constructor; try apply hex_text_printable; destruct_or! Hin; simplify_eq; lia. }
  destruct ((r <? 32) || (r =? 0x7F)) eqn:Hctl.
  - unfold byte. rewrite uint_wrap_id by lia. rewrite hex_byte_spec by (unfold is_byte; lia).
    destruct (Hhex 120 2%nat false) as (t & E & Ht); [set_solver|change (16 ^ Z.of_nat 2) with 256; lia|right; unfold RuneSelf; lia|]. exists t. split; [|exact Ht]. rewrite <- E. by rewrite <- app_assoc.
  - rewrite Hv. cbn [negb]. destruct (Z.ltb_spec r 0x10000); rewrite hex_digits_spec; [apply (Hhex 117 4%nat true)|apply (Hhex 85 8%nat true)]; try set_solver; try (by left).
    change (16 ^ Z.of_nat 8) with 4294967296. lia.
Qed.
Lemma appendEscapedRune_spec buf r quote A G : quote = 34 \/ quote = 39 -> ValidRune r = true ->
  exists t, appendEscapedRune buf r quote A G = Ret (buf ++ t) /\ literal_char quote t (encoding r) /\ shown A G t.
Proof.
  intros Hq Hv. pose proof (ValidRune_range r Hv) as Hr. unfold MaxRune in Hr. unfold appendEscapedRune.
  destruct ((r =? quote) || (r =? 92)) eqn:Hback.
  { exists [92; r]. unfold byte. rewrite uint_wrap_id, encoding_ascii by (unfold RuneSelf; lia). split_and!; [done| |left; repeat constructor; lia].
    apply simple_escape; [done|]. assert (r = quote \/ r = 92) as [-> | ->] by lia; set_solver. }
  assert (exists t, escape_rune buf r = Ret (buf ++ t) /\ literal_char quote t (encoding r) /\ shown A G t) as Hesc.
  { destruct (escape_rune_spec buf r quote Hq Hv) as (t & Ht & Hl & Hp). exists t. split_and!; [done|done|by left]. }
  assert (forall g, (printable r || g && bool_decide (r ∈ isGraphic)) = true -> literal_char quote (encoding r) (encoding r)) as Hraw.
  { intros g Hp. destruct (encoding_valid r Hv) as [Hc Hval]. assert (r <> 10) as H10.
    { intros ->. rewrite not_graphic_low, andb_false_r, printable_ascii in Hp by (unfold RuneSelf; lia). done. }
    apply literal_raw; [done|..]; intros E; rewrite E in Hval; cbn in Hval; lia. }
  destruct A.
  - destruct (Z.ltb_spec r RuneSelf) as [Hlt|]; cbn [go_and]; [|exact Hesc]. rewrite IsPrint_spec, bind_ret by lia. destruct (printable r) eqn:Hp; [|exact Hesc].
    exists [r]. unfold byte. rewrite uint_wrap_id by (unfold RuneSelf in Hlt; lia). specialize (Hraw false ltac:(done)). rewrite encoding_ascii in * by lia. split_and!; [done|done|].
    left. rewrite printable_ascii in Hp by lia. repeat constructor; lia.
  - rewrite IsPrint_spec, isInGraphicList_spec by lia. destruct (printable r || G && bool_decide (r ∈ isGraphic)) eqn:Hp.
    + exists (encoding r). destruct (encoding_valid r Hv) as [Hc Hval]. split_and!; [|by apply (Hraw G)|right; by rewrite Hval].
      rewrite <- AppendRune_encoding. destruct (printable r), G; cbn [go_or go_and orb andb] in *; rewrite ?Hp; rewrite ?bind_ret; done.
    + destruct (printable r); [done|]. cbn [go_or orb] in *. destruct G; cbn [go_and andb] in *; rewrite ?Hp; rewrite ?bind_ret; exact Hesc.
Qed.

Lemma single_not_error e : utf8_char e = true -> (zlen e =? 1) && (utf8_value e =? RuneError) = false.
Proof.
  intros He. destruct e as [|a [|b e]]; [done| |rewrite !zlen_cons; pose proof (zlen_nonneg e); lia]. cbn in *. unfold RuneError. lia.
Qed.
Lemma quote_pieces_spec s es quote A G : pieces s es -> quote = 34 \/ quote = 39 -> is_gostring s -> forall fuel buf, (length s <= fuel)%nat ->
  exists ts, quote_loop fuel buf s quote A G = Ret (buf ++ concat ts) /\ Forall2 (literal_char quote) ts es /\ Forall (shown A G) ts.
Proof.
  intros Hp Hq. induction Hp as [|e s es He Hp IH|b s es Hb Hp IH]; intros Hs fuel buf Hf.
  - exists []. rewrite app_nil_r. by destruct fuel.
  - pose proof (utf8_char_length e He) as Hl. rewrite length_app in Hf. unfold zlen in Hl. destruct fuel as [|fuel]; [lia|]. cbn [quote_loop].
    rewrite zlen_app. pose proof (zlen_nonneg s). rewrite (proj2 (Z.ltb_lt _ _)) by (unfold zlen in *; lia).
    rewrite utf8_decode_spec, (utf8_prefix_char e s He) by done. destruct e as [|b e]; [done|]. cbn [app]. rewrite bind_ret. cbv beta iota. change (b :: e ++ s) with ((b :: e) ++ s).
    rewrite single_not_error by done. destruct (appendEscapedRune_spec buf (utf8_value (b :: e)) quote A G Hq) as (t & -> & Ht & Hsh); [by apply utf8_value_range|].
    rewrite encoding_value in Ht by done. rewrite bind_ret, slice_from_app_r, bind_ret. apply Forall_app in Hs as [_ Hs].
    destruct (IH Hs fuel (buf ++ t)) as (ts & -> & Hts & Hall); [lia|]. exists (t :: ts). split_and!; [by cbn; rewrite <- app_assoc|by constructor|by constructor].
  - cbn [length] in Hf. destruct fuel as [|fuel]; [lia|]. cbn [quote_loop]. rewrite zlen_cons. pose proof (zlen_nonneg s). rewrite (proj2 (Z.ltb_lt _ _)) by lia.
    rewrite utf8_decode_spec, Hb, bind_ret by done. cbv beta iota. cbn [Z.eqb Pos.eqb RuneError andb]. rewrite index_0, bind_ret. inversion_clear Hs as [|? ? Hbyte Hs'].
    rewrite hex_byte_spec, bind_ret, slice_from_1, bind_ret by done. destruct (IH Hs' fuel (buf ++ 92 :: 120 :: hex_text 2 b)) as (ts & -> & Hts & Hall); [lia|].
    exists ((92 :: 120 :: hex_text 2 b) :: ts). split_and!; [by cbn [concat app]; rewrite <- app_assoc| |].
    + constructor; [|done]. unfold is_byte in Hbyte. replace [b] with (appended b false).
      * apply hex_escape; [done|set_solver|change (16 ^ Z.of_nat 2) with 256; lia|lia|done].
      * unfold appended, byte. rewrite orb_true_r, uint_wrap_id by lia. done.
    + constructor; [|done]. left. do 2 (constructor; [unfold ascii_printable; lia|]). exact (hex_text_printable 2 b).
Qed.

(** ** Searching a byte *)
Lemma index_loop_found a b1 c b2 fuel : c ∉ b1 -> (length b1 < fuel)%nat -> index_loop fuel (a ++ b1 ++ c :: b2) c (zlen a) = Ret (zlen a + zlen b1).
Proof.
  revert a fuel. induction b1 as [|x b1 IH]; intros a fuel Hc Hf; (destruct fuel as [|fuel]; [cbn in Hf; lia|]); cbn [index_loop app]; rewrite !zlen_app, !zlen_cons; pose proof (zlen_nonneg b2).
  - rewrite (proj2 (Z.ltb_lt _ _)) by lia. pose proof (index_app_r a (c :: b2) 0 ltac:(lia)) as E. rewrite Z.add_0_r in E. rewrite E, index_0, bind_ret, Z.eqb_refl, zlen_nil. f_equal. lia.
  - pose proof (zlen_nonneg (b1 ++ c :: b2)). rewrite (proj2 (Z.ltb_lt _ _)) by lia. apply not_elem_of_cons in Hc as [Hx Hc]. pose proof (index_app_r a (x :: b1 ++ c :: b2) 0 ltac:(lia)) as E. rewrite Z.add_0_r in E. rewrite E, index_0, bind_ret.
    rewrite (proj2 (Z.eqb_neq x c)) by congruence. specialize (IH (a ++ [x]) fuel Hc). rewrite <- app_assoc in IH. cbn [app] in IH. replace (zlen (a ++ [x])) with (zlen a + 1) in IH by (rewrite zlen_app; done).
    rewrite IH by (cbn in Hf; lia). f_equal. lia.
Qed.
Lemma index_loop_missing a b c fuel : c ∉ b -> (length b <= fuel)%nat -> index_loop fuel (a ++ b) c (zlen a) = Ret (-1).
Proof.
  revert a fuel. induction b as [|x b IH]; intros a fuel Hc Hf.
  - rewrite app_nil_r. by destruct fuel; cbn [index_loop]; rewrite Z.ltb_irrefl.
  - destruct fuel as [|fuel]; [cbn in Hf; lia|]. cbn [index_loop]. rewrite zlen_app, zlen_cons. pose proof (zlen_nonneg b). rewrite (proj2 (Z.ltb_lt _ _)) by lia. apply not_elem_of_cons in Hc as [Hx Hc].
    pose proof (index_app_r a (x :: b) 0 ltac:(lia)) as E. rewrite Z.add_0_r in E. rewrite E, index_0, bind_ret, (proj2 (Z.eqb_neq x c)) by congruence.
    specialize (IH (a ++ [x]) fuel Hc). rewrite <- app_assoc in IH. cbn [app] in IH. replace (zlen (a ++ [x])) with (zlen a + 1) in IH by (rewrite zlen_app; done). apply IH. cbn in Hf. lia.
Qed.
Lemma index_byte_found a c b : c ∉ a -> index_byte (a ++ c :: b) c = Ret (zlen a).
Proof. intros Hc. apply (index_loop_found [] a c b); [done|]. rewrite length_app. cbn. lia. Qed.
Lemma index_byte_missing s c : c ∉ s -> index_byte s c = Ret (-1).
Proof. intros Hc. by apply (index_loop_missing [] s c). Qed.
Lemma contains_spec s c : contains s c = Ret (bool_decide (c ∈ s)).
Proof.
  unfold contains. destruct (decide (c ∈ s)) as [Hc|Hc].
  - apply list_elem_of_split_l in Hc as Hs. destruct Hs as (a & b & -> & Ha). rewrite index_byte_found, bind_ret by done. rewrite bool_decide_true by done. pose proof (zlen_nonneg a). by rewrite (proj2 (Z.eqb_neq _ _)) by lia.
  - rewrite index_byte_missing, bind_ret by done. by rewrite bool_decide_false.
Qed.

(** ** Parsing a quoted literal *)
Lemma char_low_byte e c : utf8_char e = true -> c < RuneSelf -> c ∈ e -> e = [c].
Proof.
  unfold RuneSelf. intros He Hc Hin. destruct e as [|a [|b [|d [|f [|? ?]]]]]; try done; rewrite !elem_of_cons, elem_of_nil in Hin; cbn in He; unfold tail_byte in He; destruct_or! Hin; try done; subst; try done; exfalso; lia.
Qed.
Definition raw_char (quote : Z) (e : gostring) : Prop := utf8_char e = true /\ e <> [quote] /\ e <> [92] /\ e <> [10].
Lemma raw_chars_avoid quote ts c : quote = 34 \/ quote = 39 -> Forall (raw_char quote) ts -> c ∈ [quote; 92; 10] -> c ∉ concat ts.
Proof.
  intros Hq Hraw Hc Hin. apply list_elem_of_In, in_concat in Hin as (e & He%list_elem_of_In & Hce%list_elem_of_In). rewrite Forall_forall in Hraw. destruct (Hraw e He) as (Hch & H1 & H2 & H3).
  rewrite !elem_of_cons, elem_of_nil in Hc. assert (e = [c]) as -> by (apply char_low_byte; [done|unfold RuneSelf; destruct_or! Hc; lia|done]). destruct_or! Hc; congruence.
Qed.
(** Either all characters are raw, or there is a backslash before any closing quote. *)
Lemma literal_split quote ts es : quote = 34 \/ quote = 39 -> Forall2 (literal_char quote) ts es ->
  (ts = es /\ Forall (raw_char quote) ts) \/ exists a b, concat ts = a ++ 92 :: b /\ quote ∉ a.
Proof.
  intros Hq. induction 1 as [|t e ts es Ht _ IH]; [by left; split|]. destruct Ht as [e He H1 H2 H3|t piece v multibyte _ _ _]; [|right; exists [], (t ++ concat ts); split; [done|apply not_elem_of_nil]].
  destruct IH as [[-> Hraw]|(a & b & Heq & Ha)]; [left; split; [done|by constructor]|]. right. exists (e ++ a), b. cbn. rewrite Heq. split; [by rewrite app_assoc|].
  apply not_elem_of_app. split; [|done]. intros Hin. apply H1, char_low_byte; [done|unfold RuneSelf; lia|done].
Qed.
Lemma literal_char_bytes quote t e : literal_char quote t e -> is_gostring t.
Proof.
  destruct 1 as [e He _ _ _|t piece v multibyte _ Ht _]; [by apply utf8_char_bytes|]. constructor; [unfold is_byte; lia|]. eapply Forall_impl; [exact Ht|]. unfold ascii_printable, is_byte. lia.
Qed.
Lemma literal_bytes quote ts es : Forall2 (literal_char quote) ts es -> is_gostring (concat ts).
Proof. induction 1 as [|t e ts es Ht _ IH]; [constructor|]. apply Forall_app. split; [by eapply literal_char_bytes|done]. Qed.

Lemma unquote_loop_step quote t e rest fuel buf unescape : quote = 34 \/ quote = 39 -> literal_char quote t e -> is_gostring rest ->
  unquote_loop (S fuel) (t ++ rest) buf quote unescape =
    let buf := if unescape then buf ++ e else buf in if quote =? 39 then Ret (Some (buf, rest)) else unquote_loop fuel rest buf quote unescape.
Proof.
  intros Hq Ht Hrest. destruct (literal_char_parse quote t e rest Hq Ht Hrest) as (b & t' & r & multibyte & -> & Hb & Hb10 & Hrun & Ha). cbn [unquote_loop].
  cbn [app] in *. rewrite zlen_cons. pose proof (zlen_nonneg (t' ++ rest)). rewrite (proj2 (Z.leb_gt _ _)) by lia. cbn [go_or]. rewrite index_0, bind_ret, (proj2 (Z.eqb_neq b quote)), bind_ret by done.
  rewrite Hrun, bind_ret, bind_ret. rewrite (proj2 (Z.eqb_neq b 10)) by done. cbv zeta. replace (if (r <? RuneSelf) || negb multibyte then buf ++ [byte r] else AppendRune buf r) with (buf ++ e); [done|].
  rewrite <- Ha. unfold appended. destruct (_ || _); [done|]. by rewrite AppendRune_encoding.
Qed.
Lemma unquote_loop_stop quote rest fuel buf unescape : unquote_loop fuel (quote :: rest) buf quote unescape = Ret (Some (buf, quote :: rest)).
Proof.
  assert (go_or (Ret (zlen (quote :: rest) <=? 0)) (b ← Prelude.index (quote :: rest) 0; Ret (b =? quote)) = Ret true) as E.
  { rewrite zlen_cons, index_0, bind_ret, Z.eqb_refl. pose proof (zlen_nonneg rest). by rewrite (proj2 (Z.leb_gt _ _)) by lia. }
  by destruct fuel; cbn [unquote_loop]; rewrite E, bind_ret.
Qed.
Lemma unquote_loop_literal quote ts es rest unescape : quote = 34 \/ quote = 39 /\ length ts = 1%nat -> Forall2 (literal_char quote) ts es -> is_gostring rest -> forall fuel buf, (length (concat ts) <= fuel)%nat ->
  unquote_loop fuel (concat ts ++ quote :: rest) buf quote unescape = Ret (Some (if unescape then buf ++ concat es else buf, quote :: rest)).
Proof.
  intros Hq Hts Hrest. assert (is_gostring (quote :: rest)) as Hqr by (constructor; [unfold is_byte; lia|done]). assert (quote = 34 \/ quote = 39) as Hq' by tauto.
  assert (forall t e, literal_char quote t e -> (1 <= length t)%nat) as Hlen.
  { intros t e Ht. destruct (literal_char_parse quote t e [] Hq' Ht) as (b & t' & _ & _ & -> & _); [constructor|cbn; lia]. }
  induction Hts as [|t e ts es Ht Hts IH]; intros fuel buf Hf.
  - cbn [concat app]. rewrite unquote_loop_stop. destruct unescape; by rewrite ?app_nil_r.
  - cbn [concat] in *. rewrite length_app in Hf. specialize (Hlen t e Ht). destruct fuel as [|fuel]; [lia|]. rewrite <- app_assoc. rewrite (unquote_loop_step quote t e) by (done || (apply Forall_app; split; [by eapply literal_bytes|done])).
    cbv zeta. destruct Hq as [-> |[-> Hone]].
    + cbn [Z.eqb Pos.eqb]. rewrite IH by (by left || lia). destruct unescape; by rewrite ?app_assoc.
    + cbn [Z.eqb Pos.eqb]. destruct Hts as [|]; [|done]. cbn [concat app]. destruct unescape; by rewrite ?app_nil_r.
Qed.

(** The pieces of an input whose first closing quote is known. *)
Lemma quoted_slices (quote : Z) (body rest : gostring) : let s := quote :: body ++ quote :: rest in
  (zlen s <? 2) = false /\ Prelude.index s 0 = Ret quote /\ slice_from s 1 = Ret (body ++ quote :: rest) /\ slice_to s (zlen body + 2) = Ret (quote :: body ++ [quote]) /\
  slice s 1 (zlen body + 2 - 1) = Ret body /\ slice (quote :: body ++ [quote]) 1 (zlen body + 2 - 1) = Ret body /\ slice_from s (zlen body + 2) = Ret rest.
Proof.
  intros s. pose proof (zlen_nonneg body). pose proof (zlen_nonneg rest).
  assert (zlen s = zlen body + 2 + zlen rest) as Hs by (unfold s; rewrite zlen_cons, zlen_app, zlen_cons; lia).
  assert (s = (quote :: body ++ [quote]) ++ rest) as Hs' by (unfold s; cbn; by rewrite <- app_assoc).
  assert (zlen (quote :: body ++ [quote]) = zlen body + 2) as Hl by (rewrite zlen_cons, zlen_app, zlen_cons, zlen_nil; lia).
  split_and!; [lia|done|apply slice_from_1| | | |].
  - rewrite Hs'. unfold slice_to. pose proof (slice_app_mid [] (quote :: body ++ [quote]) rest) as E. rewrite Hl in E. exact E.
  - pose proof (slice_app_mid [quote] body (quote :: rest)) as E. change (zlen [quote]) with 1 in E. replace (zlen body + 2 - 1) with (1 + zlen body) by lia. exact E.
  - pose proof (slice_app_mid [quote] body [quote]) as E. change (zlen [quote]) with 1 in E. replace (zlen body + 2 - 1) with (1 + zlen body) by lia. exact E.
  - rewrite Hs', <- Hl. apply slice_from_app_r.
Qed.

(** ** The parser returns on every text *)
Lemma unhex_loop_total n s j v : 0 <= j -> j + Z.of_nat n <= zlen s -> returns (unhex_loop n s j v).
Proof.
  revert j v. induction n as [|n IH]; intros j v Hj Hn; [by eexists|]. cbn [unhex_loop]. destruct (index_in_range s j) as [b Hb]; [lia|]. rewrite Hb, bind_ret. destruct (unhex b); [|by eexists]. apply IH; lia.
Qed.
Lemma unoct_loop_total n s j v : 0 <= j -> j + Z.of_nat n <= zlen s -> returns (unoct_loop n s j v).
Proof.
  revert j v. induction n as [|n IH]; intros j v Hj Hn; [by eexists|]. cbn [unoct_loop]. destruct (index_in_range s j) as [b Hb]; [lia|]. rewrite Hb, bind_ret. cbv zeta. destruct (_ || _); [by eexists|]. apply IH; lia.
Qed.
(** It returns, and what is left is a part of [s]. *)
Definition parses (m : go (option (Z * bool * gostring))) (s : gostring) : Prop :=
  exists res, m = Ret res /\ match res with Some (_, _, rest) => exists n, rest = drop n s | None => True end.
Lemma slice_from_drop (s : gostring) n : 0 <= n <= zlen s -> slice_from s n = Ret (drop (Z.to_nat n) s).
Proof. apply slice_from_in_range. Qed.
Lemma unquote_hex_total s c : parses (unquote_hex s c) s.
Proof.
  unfold unquote_hex. set (n := if c =? 120 then 2 else if c =? 117 then 4 else 8). assert (0 < n) as Hn by (unfold n; by repeat case_match).
  destruct (Z.ltb_spec (zlen s) n); [by exists None|]. destruct (unhex_loop_total (Z.to_nat n) s 0 0) as [[v|] ->]; [lia|lia| |by exists None]. rewrite bind_ret, slice_from_drop, bind_ret by lia.
  destruct (c =? 120); [eexists; split; [done|]; by eexists|]. destruct (negb _); [by exists None|]. eexists. split; [done|]. by eexists.
Qed.
Lemma unquote_octal_total s c : parses (unquote_octal s c) s.
Proof.
  unfold unquote_octal. cbv zeta. destruct (Z.ltb_spec (zlen s) 2); [by exists None|]. destruct (unoct_loop_total 2 s 0 (c - 48)) as [[v|] ->]; [lia|lia| |by exists None].
  rewrite bind_ret, slice_from_drop, bind_ret by lia. destruct (_ <? _); [by exists None|]. eexists. split; [done|]. by eexists.
Qed.
Lemma unquote_escape_total s c quote : parses (unquote_escape s c quote) s.
Proof.
  assert (forall v m, parses (Ret (Some (v, m, s))) s) as Hs by (intros v m; eexists; split; [done|]; by exists 0%nat). unfold unquote_escape.
  repeat match goal with |- parses (if ?c then _ else _) _ => destruct c; [first [apply Hs|apply unquote_hex_total|apply unquote_octal_total|idtac]|]; try apply Hs; try (by exists None) end.
Qed.
Lemma UnquoteChar_total s quote : is_gostring s -> exists res, UnquoteChar s quote = Ret res /\ match res with Some (_, _, rest) => is_gostring rest /\ (length rest < length s)%nat | None => True end.
Proof.
  intros Hs. destruct s as [|b s]; [by exists None|]. unfold UnquoteChar. rewrite zlen_cons. pose proof (zlen_nonneg s). rewrite (proj2 (Z.eqb_neq _ 0)) by lia. rewrite index_0, bind_ret.
  pose proof Hs as Hs'. inversion_clear Hs' as [|? ? _ Hrest]. destruct (_ && _); [by exists None|]. destruct (RuneSelf <=? b).
  { rewrite utf8_decode_spec by done. destruct (utf8_prefix (b :: s)) as [e|] eqn:He; rewrite bind_ret; cbv beta iota.
    - apply utf8_prefix_Some in He as [He [rest Heq]]. rewrite Heq in *. rewrite slice_from_app_r, bind_ret. eexists. split; [done|]. apply Forall_app in Hs as [_ ?]. split; [done|]. rewrite length_app. pose proof (utf8_char_length e He). unfold zlen in *. lia.
    - rewrite slice_from_1, bind_ret. eexists. split; [done|]. split; [done|]. cbn. lia. }
  destruct (negb _). { rewrite slice_from_1, bind_ret. eexists. split; [done|]. split; [done|]. cbn. lia. }
  destruct (Z.leb_spec (zlen s + 1) 1); [by exists None|]. destruct s as [|c s]; [unfold zlen in *; cbn [length] in *; lia|]. rewrite index_1, bind_ret, slice_from_2, bind_ret.
  destruct (unquote_escape_total s c quote) as (res & -> & Hres). exists res. split; [done|]. destruct res as [[[v m] rest]|]; [|done]. destruct Hres as [n ->]. inversion_clear Hrest. split; [by apply Forall_drop|]. rewrite length_drop. cbn. lia.
Qed.
Lemma unquote_loop_total fuel in_ buf quote unescape : is_gostring in_ -> (length in_ <= fuel)%nat ->
  exists res, unquote_loop fuel in_ buf quote unescape = Ret res /\ match res with Some (_, rest) => (length rest <= length in_)%nat | None => True end.
Proof.
  revert in_ buf. induction fuel as [|fuel IH]; intros in_ buf Hin Hf; (destruct in_ as [|b in_]; [eexists; split; [done|cbn; lia]|]); [cbn in Hf; lia|]. cbn [unquote_loop]. rewrite zlen_cons. pose proof (zlen_nonneg in_). rewrite (proj2 (Z.leb_gt _ _)) by lia.
  cbn [go_or]. rewrite !index_0, !bind_ret. destruct (b =? quote); [eexists; split; [done|cbn; lia]|]. destruct (UnquoteChar_total (b :: in_) quote Hin) as ([[[r m] rest]|] & -> & Hres); rewrite !bind_ret; [|by exists None].
  destruct (b =? 10); [by exists None|]. cbv zeta. destruct Hres as [Hrest Hlt]. destruct (quote =? 39); [eexists; split; [done|cbn in *; lia]|]. cbn [length] in *.
  edestruct (IH rest) as (res & -> & Hle); [done|lia|]. exists res. split; [done|]. destruct res as [[? ?]|]; [lia|done].
Qed.
Lemma unquote_escaped_total in0 quote unescape : is_gostring in0 -> 1 <= zlen in0 -> returns (unquote_escaped in0 quote unescape).
Proof.
  intros Hin Hl. destruct in0 as [|b in0]; [done|]. unfold unquote_escaped. rewrite slice_from_1, bind_ret. inversion_clear Hin as [|? ? _ Hin'].
  destruct (unquote_loop_total (length in0) in0 [] quote unescape Hin' ltac:(lia)) as ([[buf rest]|] & -> & Hle); rewrite bind_ret; [|by eexists]. cbv beta iota. destruct rest as [|c rest]; [by eexists|].
  pose proof (zlen_nonneg rest). rewrite (proj2 (Z.ltb_lt 0 (zlen (c :: rest)))) by (rewrite zlen_cons; lia). cbn [go_and]. rewrite index_0, !bind_ret. destruct (negb _); [by eexists|]. rewrite slice_from_1, bind_ret. destruct unescape; [by eexists|].
  rewrite slice_to_in_range, bind_ret; [by eexists|]. rewrite zlen_cons. unfold zlen in *. cbn [length] in Hle. lia.
Qed.
Lemma Unquote_total s : is_gostring s -> returns (Unquote s).
Proof.
  intros Hs. unfold Unquote. assert (returns (unquote s true)) as [[[out rem] err] ->]; [|rewrite bind_ret; destruct (_ <? _); by eexists]. unfold unquote.
  destruct (Z.ltb_spec (zlen s) 2); [by eexists|]. destruct s as [|quote s]; [done|]. rewrite index_0, bind_ret, slice_from_1, bind_ret.
  destruct (decide (quote ∈ s)) as [Hin|Hin]; [|rewrite index_byte_missing, bind_ret by done; by eexists]. apply list_elem_of_split_l in Hin as (body & rest & -> & Hno). rewrite index_byte_found, bind_ret by done.
  destruct (quoted_slices quote body rest) as (_ & _ & _ & Hto & Hbody & Hbody' & Hfrom). pose proof (zlen_nonneg body). rewrite (proj2 (Z.ltb_ge _ 0)) by lia. cbv zeta. destruct (quote =? 96) eqn:H96.
  { unfold unquote_raw. rewrite Hto, bind_ret. cbn [negb]. rewrite contains_spec, bind_ret, Hbody, !bind_ret, Hfrom, bind_ret. by eexists. }
  destruct (_ || _); [|by eexists]. rewrite Hto, bind_ret, !contains_spec. assert (is_gostring body) as Hb by (inversion_clear Hs as [|? ? _ Hs']; by apply Forall_app in Hs' as [? _]).
  assert (returns (plain_literal (quote :: body ++ quote :: rest) quote (zlen body + 2))) as [v Hv].
  { unfold plain_literal. rewrite Hbody, bind_ret. destruct (quote =? 34); [destruct (Valid_loop_spec (length body) body Hb ltac:(lia)) as (b & Hr & _); by exists b|]. rewrite utf8_decode_spec, bind_ret by done. destruct body; [by eexists|]. destruct (utf8_prefix _); by eexists. }
  pose proof (unquote_escaped_total (quote :: body ++ quote :: rest) quote true Hs ltac:(lia)) as [r Hr].
  destruct (bool_decide (92 ∈ quote :: body ++ [quote])), (bool_decide (10 ∈ quote :: body ++ [quote])); cbn [go_or]; rewrite bind_ret; cbn [negb]; rewrite ?Hv, bind_ret, ?Hbody', ?Hr; try (by eexists). destruct v; rewrite ?bind_ret, ?Hfrom, ?Hr; by eexists.
Qed.

Lemma unquote_escaped_literal quote ts es rest unescape : quote = 34 \/ quote = 39 /\ length ts = 1%nat -> Forall2 (literal_char quote) ts es -> is_gostring rest ->
  unquote_escaped (quote :: concat ts ++ quote :: rest) quote unescape = Ret (if unescape then concat es else quote :: concat ts ++ [quote], rest, None).
Proof.
  intros Hq Hts Hrest. destruct (quoted_slices quote (concat ts) rest) as (_ & _ & Hs1 & Hto & _ & _ & _). unfold unquote_escaped. rewrite Hs1, bind_ret.
  rewrite (unquote_loop_literal quote ts es) by (done || (rewrite length_app; lia)). rewrite bind_ret. cbv beta iota. pose proof (zlen_nonneg rest). rewrite (proj2 (Z.ltb_lt 0 (zlen (quote :: rest)))) by (rewrite zlen_cons; lia).
  cbn [go_and]. rewrite index_0, bind_ret, Z.eqb_refl, bind_ret. cbn [negb]. rewrite slice_from_1, bind_ret. destruct unescape; [done|].
  replace (zlen (quote :: concat ts ++ quote :: rest) - zlen rest) with (zlen (concat ts) + 2) by (rewrite zlen_cons, zlen_app, zlen_cons; lia). by rewrite Hto.
Qed.
Lemma raw_literal quote es rest : quote = 34 \/ quote = 39 /\ length es = 1%nat -> Forall (raw_char quote) es ->
  plain_literal (quote :: concat es ++ quote :: rest) quote (zlen (concat es) + 2) = Ret true.
Proof.
  intros Hq Hraw. destruct (quoted_slices quote (concat es) rest) as (_ & _ & _ & _ & Hbody & _). unfold plain_literal. rewrite Hbody, bind_ret.
  assert (Forall (fun e => utf8_char e = true) es) as Hchars by (eapply Forall_impl; [exact Hraw|]; by intros e [? _]).
  destruct Hq as [-> |[-> Hone]]; cbn [Z.eqb Pos.eqb].
  - destruct (Valid_loop_spec (length (concat es)) (concat es)) as (b & Hb & Hiff); [by apply utf8_chars_bytes|done|]. unfold Valid. rewrite Hb. f_equal. apply Hiff. by exists es.
  - destruct es as [|e [|? ?]]; try done. inversion_clear Hchars as [|? ? He _]. cbn [concat]. rewrite app_nil_r. pose proof (DecodeRune_char e [] ltac:(rewrite app_nil_r; by apply utf8_char_bytes) He) as Hd.
    rewrite DecodeRune_string, app_nil_r in Hd. rewrite Hd, bind_ret. f_equal. pose proof (single_not_error e He). pose proof (utf8_char_length e He). lia.
Qed.
Lemma unquote_literal quote ts es rest unescape : quote = 34 \/ quote = 39 /\ length ts = 1%nat -> Forall2 (literal_char quote) ts es -> is_gostring rest ->
  unquote (quote :: concat ts ++ quote :: rest) unescape = Ret (if unescape then concat es else quote :: concat ts ++ [quote], rest, None).
Proof.
  intros Hq Hts Hrest. assert (quote = 34 \/ quote = 39) as Hq' by tauto. unfold unquote.
  destruct (literal_split quote ts es Hq' Hts) as [[<- Hraw]|(a & b & Heq & Ha)].
  - destruct (quoted_slices quote (concat ts) rest) as (-> & -> & -> & Hto & Hbody & Hbody' & Hfrom). rewrite !bind_ret.
    rewrite index_byte_found, bind_ret by (eapply raw_chars_avoid; [done|done|set_solver]). pose proof (zlen_nonneg (concat ts)). rewrite (proj2 (Z.ltb_ge _ 0)) by lia. cbv zeta.
    rewrite (proj2 (Z.eqb_neq quote 96)) by lia. replace ((quote =? 34) || (quote =? 39)) with true by lia. rewrite Hto, bind_ret, !contains_spec.
    assert (forall c, c ∈ [92; 10] -> bool_decide (c ∈ quote :: concat ts ++ [quote]) = false) as Hno.
    { intros c Hc. apply bool_decide_eq_false_2. rewrite elem_of_cons, elem_of_app, list_elem_of_singleton. assert (c <> quote) by (rewrite !elem_of_cons, elem_of_nil in Hc; lia).
      pose proof (raw_chars_avoid quote ts c Hq' Hraw ltac:(set_solver)). naive_solver. }
    rewrite !Hno by set_solver. cbn [go_or]. rewrite bind_ret. cbn [negb]. rewrite raw_literal, bind_ret by done. destruct unescape; rewrite ?Hbody', !bind_ret, Hfrom, bind_ret; done.
  - assert (quote ∈ concat ts ++ quote :: rest) as Hin by set_solver. apply list_elem_of_split_l in Hin as (l & r & Hl & Hnl).
    assert (92 ∈ l) as H92.
    { rewrite Heq, <- app_assoc in Hl. cbn [app] in Hl. apply app_eq_app in Hl as (m & [[-> Hm]|[-> Hm]]).
      - destruct m as [|x m]; cbn in Hm; injection Hm as Hx _; [lia|]. subst x. destruct Ha. set_solver.
      - destruct m as [|x m]; cbn in Hm; injection Hm as Hx _; [lia|]. subst x. set_solver. }
    rewrite Hl. destruct (quoted_slices quote l r) as (-> & -> & -> & Hto & _). rewrite !bind_ret. rewrite index_byte_found, bind_ret by done. pose proof (zlen_nonneg l). rewrite (proj2 (Z.ltb_ge _ 0)) by lia. cbv zeta.
    rewrite (proj2 (Z.eqb_neq quote 96)) by lia. replace ((quote =? 34) || (quote =? 39)) with true by lia. rewrite Hto, bind_ret, !contains_spec.
    rewrite (bool_decide_eq_true_2 (92 ∈ quote :: l ++ [quote])) by set_solver. cbn [go_or]. rewrite bind_ret. cbn [negb]. rewrite bind_ret. rewrite <- Hl. by apply unquote_escaped_literal.
Qed.

(** Raw strings: the code points that need no quoting. *)
Definition backquotable (e : gostring) : Prop :=
  utf8_char e = true /\ utf8_value e <> 0xFEFF /\ utf8_value e <> 96 /\ utf8_value e <> 0x7F /\ (0x20 <= utf8_value e \/ utf8_value e = 9).
Lemma RuneLen_one v : 0 <= v -> RuneLen v = 1 <-> v < 128.
Proof. intros Hv. unfold RuneLen, rune1Max, rune2Max, rune3Max, surrogateMin, surrogateMax, MaxRune. zcase. Qed.
Lemma CanBackquote_loop_spec s es : pieces s es -> is_gostring s -> forall fuel, (length s <= fuel)%nat ->
  exists b, CanBackquote_loop fuel s = Ret b /\ (b = true <-> Forall backquotable es).
Proof.
  induction 1 as [|e s es He Hp IH|b s es Hb Hp IH]; intros Hs fuel Hf.
  - exists true. by destruct fuel.
  - pose proof (utf8_char_length e He) as Hl. rewrite length_app in Hf. unfold zlen in Hl. destruct fuel as [|fuel]; [lia|]. cbn [CanBackquote_loop].
    rewrite zlen_app. pose proof (zlen_nonneg s). rewrite (proj2 (Z.ltb_lt _ _)) by (unfold zlen in *; lia).
    rewrite utf8_decode_spec, (utf8_prefix_char e s He) by done. destruct e as [|b e]; [done|]. cbn [app]. rewrite bind_ret. cbv beta iota. change (b :: e ++ s) with ((b :: e) ++ s). rewrite slice_from_app_r, bind_ret.
    apply Forall_app in Hs as [_ Hs]. destruct (IH Hs fuel ltac:(lia)) as (r & Hr & Hiff). destruct (utf8_value_range (b :: e) He) as [[H0 _] _]. pose proof (RuneLen_one _ H0) as H1. rewrite utf8_RuneLen_value in H1 by done.
    set (v := utf8_value (b :: e)) in *.
    assert (Forall backquotable ((b :: e) :: es) <-> (v <> 0xFEFF /\ v <> 96 /\ v <> 0x7F /\ (0x20 <= v \/ v = 9)) /\ r = true) as Hcons by (rewrite Forall_cons, Hiff; unfold backquotable at 1; fold v; tauto). clearbody v.
    destruct (Z.ltb_spec 1 (zlen (b :: e))) as [Hw|Hw].
    + assert (128 <= v) by lia. destruct (Z.eqb_spec v 0xFEFF); [exists false; split; [done|]; rewrite Hcons; split; [done|naive_solver]|]. exists r. split; [done|]. rewrite Hcons. assert (v <> 96 /\ v <> 127 /\ 32 <= v) by lia. tauto.
    + assert (v < 128) by (unfold zlen in *; lia). unfold RuneError. rewrite (proj2 (Z.eqb_neq v 0xFFFD)) by lia. destruct (((v <? 32) && negb (v =? 9)) || (v =? 96) || (v =? 0x7F)) eqn:Hc.
      * exists false. split; [done|]. rewrite Hcons. split; [done|]. intros [(? & ? & ? & ?) _]. lia.
      * exists r. split; [done|]. rewrite Hcons. assert (v <> 0xFEFF /\ v <> 96 /\ v <> 127 /\ (32 <= v \/ v = 9)) by lia. tauto.
  - cbn [length] in Hf. destruct fuel as [|fuel]; [lia|]. cbn [CanBackquote_loop]. rewrite zlen_cons. pose proof (zlen_nonneg s). rewrite (proj2 (Z.ltb_lt _ _)) by lia.
    rewrite utf8_decode_spec, Hb, bind_ret by done. cbv beta iota. rewrite slice_from_1, bind_ret. cbn [Z.ltb Z.compare Pos.compare Pos.compare_cont]. rewrite Z.eqb_refl. exists false. split; [done|]. split; [done|].
    rewrite Forall_cons. intros [[Hc _] _]. by rewrite (utf8_prefix_char [b] s Hc : utf8_prefix (b :: s) = _) in Hb.
Qed.
Lemma backquotable_avoid es c : Forall backquotable es -> c = 96 \/ c = 13 -> c ∉ concat es.
Proof.
  intros Hall Hc Hin. apply list_elem_of_In, in_concat in Hin as (e & He%list_elem_of_In & Hce%list_elem_of_In). rewrite Forall_forall in Hall. destruct (Hall e He) as (Hch & _ & H96 & _ & Hlow).
  assert (e = [c]) as -> by (apply char_low_byte; [done|unfold RuneSelf; lia|done]). cbn in *. lia.
Qed.
Lemma unquote_backquoted s rest : 96 ∉ s -> 13 ∉ s -> unquote (96 :: s ++ 96 :: rest) true = Ret (s, rest, None).
Proof.
  intros H96 H13. unfold unquote. destruct (quoted_slices 96 s rest) as (-> & -> & -> & Hto & Hbody & _ & Hfrom). rewrite !bind_ret, index_byte_found, bind_ret by done. pose proof (zlen_nonneg s).
  rewrite (proj2 (Z.ltb_ge _ 0)) by lia. cbv zeta. cbn [Z.eqb Pos.eqb]. unfold unquote_raw. rewrite Hto, bind_ret. cbn [negb]. rewrite contains_spec, bind_ret, Hbody, bind_ret.
  rewrite bool_decide_eq_false_2 by set_solver. cbn [negb]. by rewrite bind_ret, Hfrom, bind_ret.
Qed.
Lemma pieces_exist s : is_gostring s -> exists es, pieces s es.
Proof. intros Hs. destruct (RuneCountInString_loop_spec (length s) s 0 Hs ltac:(lia)) as (es & Hes & _). by exists es. Qed.

(** What [Quote] returns. *)
Definition quoted (s : gostring) : gostring := match Quote s with Ret q => q | _ => [] end.
Lemma quoted_returns s : is_gostring s -> Quote s = Ret (quoted s).
Proof.
  intros Hs. destruct (pieces_exist s Hs) as (es & Hes). unfold quoted. assert (returns (Quote s)) as [q ->]; [|done]. unfold Quote, quoteWith, appendQuotedWith.
  destruct (quote_pieces_spec s es 34 false false Hes ltac:(by left) Hs (length s) ([] ++ [34]) ltac:(lia)) as (ts & -> & _). by eexists.
Qed.

(** C27: quoting and unquoting.  For every byte string, valid UTF-8 or not, and
    each way to quote (ASCII only, and keeping graphic code points or only
    printable ones), the literal that is appended is made of printable ASCII and,
    unless only ASCII was asked for, of the code points that are kept; the parser
    gives back exactly the string, and finds the literal at the front of any
    text.  The same holds for the literal of a rune, which stands for its
    encoding (that of the replacement character if it is no code point).  A
    string can be backquoted exactly when it is made of code points other than
    controls, backquotes and byte order marks, and then that literal is parsed back.
    And the parser returns, with a value or [ErrSyntax], on every text. *)
Theorem quote_roundtrip (buf s rest : gostring) (r : Z) (ASCIIonly graphicOnly : bool) (Hs : is_gostring s) (Hrest : is_gostring rest) (Hr : - 2 ^ 31 <= r < 2 ^ 31) :
  (exists ts, appendQuotedWith buf s 34 ASCIIonly graphicOnly = Ret (buf ++ 34 :: concat ts ++ [34]) /\ Forall (shown ASCIIonly graphicOnly) ts /\
     let q := 34 :: concat ts ++ [34] in Unquote q = Ret (s, None) /\ QuotedPrefix (q ++ rest) = Ret (q, None)) /\
  (exists t, appendQuotedRuneWith buf r 39 ASCIIonly graphicOnly = Ret (buf ++ 39 :: t ++ [39]) /\ shown ASCIIonly graphicOnly t /\
     Unquote (39 :: t ++ [39]) = Ret (encoding r, None)) /\
  (exists es b, pieces s es /\ CanBackquote s = Ret b /\ (b = true <-> Forall backquotable es) /\ (b = true -> Unquote (96 :: s ++ [96]) = Ret (s, None))) /\
  returns (Unquote rest).
Proof.
  destruct (pieces_exist s Hs) as (es & Hes). pose proof (proj1 (pieces_valid s es Hes)) as Hcat. split_and!.
  - destruct (quote_pieces_spec s es 34 ASCIIonly graphicOnly Hes ltac:(by left) Hs (length s) (buf ++ [34]) ltac:(lia)) as (ts & Hrun & Hts & Hsh). exists ts. unfold appendQuotedWith. rewrite Hrun, bind_ret.
    split; [by rewrite <- !app_assoc|]. split; [done|]. cbv zeta. unfold Unquote, QuotedPrefix. split.
    + rewrite (unquote_literal 34 ts es [] true) by (by left || done || constructor). rewrite bind_ret. cbv beta iota. by rewrite Hcat.
    + cbn [app]. rewrite <- app_assoc. cbn [app]. by rewrite (unquote_literal 34 ts es rest false) by (by left || done).
  - unfold appendQuotedRuneWith. set (v := if negb (ValidRune r) then RuneError else r). assert (ValidRune v = true) as Hv by (unfold v; by destruct (ValidRune r) eqn:?).
    destruct (appendEscapedRune_spec (buf ++ [39]) v 39 ASCIIonly graphicOnly ltac:(by right) Hv) as (t & Hrun & Ht & Hsh). exists t. cbv zeta. rewrite Hrun, bind_ret. split; [by rewrite <- !app_assoc|]. split; [done|].
    assert (Forall2 (literal_char 39) [t] [encoding v]) as H2 by (by repeat constructor). pose proof (unquote_literal 39 [t] [encoding v] [] true ltac:(by right) H2 ltac:(constructor)) as Hu. cbn [concat] in Hu. rewrite !app_nil_r in Hu.
    unfold Unquote. rewrite Hu, bind_ret. cbv beta iota. cbn [zlen length Z.of_nat Z.ltb Z.compare]. do 2 f_equal. apply utf8_value_inj; [by apply encoding_valid|by apply encoding_spec|].
    rewrite (proj2 (encoding_valid v Hv)), (proj2 (encoding_spec r Hr)). unfold v. by destruct (ValidRune r).
  - destruct (CanBackquote_loop_spec s es Hes Hs (length s) ltac:(lia)) as (b & Hb & Hiff). exists es, b. split_and!; [done|done|done|]. intros Hall%Hiff. unfold Unquote.
    pose proof (backquotable_avoid es 96 Hall ltac:(lia)) as H96. pose proof (backquotable_avoid es 13 Hall ltac:(lia)) as H13. rewrite Hcat in *.
    by rewrite (unquote_backquoted s [] H96 H13).
  - by apply Unquote_total.
Qed.
Lemma quote_roundtrip_witness : is_gostring [0xFF; 0x41; 10] /\ Unquote ([34] ++ str "\xffA\n" ++ [34]) = Ret ([0xFF; 0x41; 10], None).
Proof.
  assert (is_gostring [0xFF; 0x41; 10]) as Hs by (repeat constructor; unfold is_byte; lia). split; [exact Hs|].
  destruct (quote_roundtrip [] [0xFF; 0x41; 10] [] 0 false false Hs ltac:(constructor) ltac:(lia)) as ((ts & Hq & _ & Hu & _) & _).
  assert (appendQuotedWith [] [0xFF; 0x41; 10] 34 false false = Ret ([34] ++ str "\xffA\n" ++ [34])) as E by (vm_compute; reflexivity).
  rewrite Hq in E. apply (f_equal (fun m => match m with Ret q => q | _ => [] end)) in E. cbv beta iota in E. change ([] ++ 34 :: concat ts ++ [34]) with (34 :: concat ts ++ [34]) in E. rewrite <- E. exact Hu.
Defined.
