(* ===== verification/GoSearch.v ===== *)
(** * Searching a text for another
    ([go/src/internal/bytealg/bytealg.go], [internal/stringslite/strings.go], [strings/strings.go])

    The Rabin-Karp searches from either end, with their rolling hash on 32 bits,
    and [Index], which tries single bytes first and gives up on them after too
    many false positives.  Both are proved to find the first (the last)
    occurrence: a hash that collides costs time, and none is ever missed.  The
    constants are those of amd64, where [bytealg.IndexString] is assembly: it is a
    parameter, as is the longest pattern it takes, which depends on the processor.
    The searches for one byte are the portable ones. *)
From S2P Require Import Prelude Quote.
#[local] Open Scope Z_scope.

(** ** Rabin-Karp *)
Definition primeRK : Z := 16777619.
Definition u32 (z : Z) : Z := uint_wrap 32 z.

Fixpoint pow_loop (fuel : nat) (i pow sq : Z) : go Z :=
  match fuel with
  | O => OutOfFuel
  | S fuel =>
      if 0 <? i then
        let pow := if negb (Z.land i 1 =? 0) then u32 (pow * sq) else pow in
        pow_loop fuel (Z.shiftr i 1) pow (u32 (sq * sq))
      else Ret pow
  end.
(** [for i := 0; i < len(sep); i++], over the bytes that are left. *)
Fixpoint hash_loop (sep : gostring) (hash : Z) : Z :=
  match sep with [] => hash | c :: sep => hash_loop sep (u32 (u32 (hash * primeRK) + c)) end.
Definition hashStr (sep : gostring) : go (Z * Z) :=
  pow ← pow_loop 64 (zlen sep) 1 primeRK; Ret (hash_loop sep 0, pow).
Definition hashStrRev (sep : gostring) : go (Z * Z) :=
  pow ← pow_loop 64 (zlen sep) 1 primeRK; Ret (hash_loop (rev sep) 0, pow).

(** [n] rounds that add the bytes from [i] on, up or down, to the hash. *)
Fixpoint hash_window (n : nat) (s : gostring) (i step h : Z) : go Z :=
  match n with
  | O => Ret h
  | S n => c ← index s i; hash_window n s (i + step) step (u32 (u32 (h * primeRK) + c))
  end.

Fixpoint IndexRabinKarp_loop (fuel : nat) (s sep : gostring) (n hashss pow i h : Z) : go Z :=
  match fuel with
  | O => OutOfFuel
  | S fuel =>
      if i <? zlen s then
        let h := u32 (h * primeRK) in
        c ← index s i;
        let h := u32 (h + c) in
        old ← index s (i - n);
        let h := u32 (h - u32 (pow * old)) in
        let i := i + 1 in
        found ← (if h =? hashss then w ← slice s (i - n) i; Ret (bool_decide (w = sep)) else Ret false);
        if (found : bool) then Ret (i - n) else IndexRabinKarp_loop fuel s sep n hashss pow i h
      else Ret (-1)
  end.
Definition IndexRabinKarp (s sep : gostring) : go Z :=
  '(hashss, pow) ← hashStr sep;
  let n := zlen sep in
  h ← hash_window (length sep) s 0 1 0;
  found ← (if h =? hashss then w ← slice_to s n; Ret (bool_decide (w = sep)) else Ret false);
  if (found : bool) then Ret 0 else IndexRabinKarp_loop (S (length s)) s sep n hashss pow n h.

Fixpoint LastIndexRabinKarp_loop (fuel : nat) (s sep : gostring) (n hashss pow i h : Z) : go Z :=
  match fuel with
  | O => OutOfFuel
  | S fuel =>
      if 0 <=? i then
        let h := u32 (h * primeRK) in
        c ← index s i;
        let h := u32 (h + c) in
        old ← index s (i + n);
        let h := u32 (h - u32 (pow * old)) in
        found ← (if h =? hashss then w ← slice s i (i + n); Ret (bool_decide (w = sep)) else Ret false);
        if (found : bool) then Ret i else LastIndexRabinKarp_loop fuel s sep n hashss pow (i - 1) h
      else Ret (-1)
  end.
Definition LastIndexRabinKarp (s sep : gostring) : go Z :=
  '(hashss, pow) ← hashStrRev sep;
  let n := zlen sep in
  let last := zlen s - n in
  h ← hash_window (length sep) s (zlen s - 1) (-1) 0;
  found ← (if h =? hashss then w ← slice_from s last; Ret (bool_decide (w = sep)) else Ret false);
  if (found : bool) then Ret last else LastIndexRabinKarp_loop (S (length s)) s sep n hashss pow (last - 1) h.

(** ** [Index] *)
Definition MaxBruteForce : Z := 64.
Definition Cutover (n : Z) : Z := (n + 16) / 8.
(** [bytealg.IndexByteString]: the loop of its portable version is that of [Quote.index_byte]. *)
Definition IndexByte (s : gostring) (c : Z) : go Z := index_byte s c.

Fixpoint LastIndexByteString_loop (fuel : nat) (s : gostring) (c i : Z) : go Z :=
  match fuel with
  | O => OutOfFuel
  | S fuel =>
      if 0 <=? i then x ← index s i; if x =? c then Ret i else LastIndexByteString_loop fuel s c (i - 1)
      else Ret (-1)
  end.
Definition LastIndexByteString (s : gostring) (c : Z) : go Z := LastIndexByteString_loop (S (length s)) s c (zlen s - 1).

Section search.
Context (MaxLen : Z) (IndexString : gostring -> gostring -> go Z).

Fixpoint Index_loop (fuel : nat) (s substr : gostring) (n c0 c1 t i fails : Z) : go Z :=
  match fuel with
  | O => OutOfFuel
  | S fuel =>
      if i <? t then
        c ← index s i;
        next ← (if negb (c =? c0) then
                  rest ← slice s (i + 1) t;
                  o ← IndexByte rest c0;
                  Ret (if o <? 0 then None else Some (i + (o + 1)))
                else Ret (Some i));
        match next with
        | None => Ret (-1)
        | Some i =>
            d ← index s (i + 1);
            found ← (if d =? c1 then w ← slice s i (i + n); Ret (bool_decide (w = substr)) else Ret false);
            if (found : bool) then Ret i
            else
              let i := i + 1 in
              let fails := fails + 1 in
              if (n <=? MaxLen) && (Cutover i <? fails) then
                rest ← slice_from s i;
                r ← IndexString rest substr;
                Ret (if 0 <=? r then r + i else -1)
              else if (MaxLen <? n) && (4 + Z.shiftr i 4 <=? fails) && (i <? t) then
                rest ← slice_from s i;
                j ← IndexRabinKarp rest substr;
                Ret (if j <? 0 then -1 else i + j)
              else Index_loop fuel s substr n c0 c1 t i fails
        end
      else Ret (-1)
  end.
Definition Index (s substr : gostring) : go Z :=
  let n := zlen substr in
  if (n =? 0) || bool_decide (substr = s) then Ret 0
  else if n =? 1 then c ← index substr 0; IndexByte s c
  else if zlen s <=? n then Ret (-1)
  else if (n <=? MaxLen) && (zlen s <=? MaxBruteForce) then IndexString s substr
  else
    c0 ← index substr 0;
    c1 ← index substr 1;
    Index_loop (S (length s)) s substr n c0 c1 (zlen s - n + 1) 0 0.

Definition Contains (s substr : gostring) : go bool := i ← Index s substr; Ret (0 <=? i).
Definition LastIndex (s substr : gostring) : go Z :=
  let n := zlen substr in
  if n =? 0 then Ret (zlen s)
  else if n =? 1 then c ← index substr 0; LastIndexByteString s c
  else if n =? zlen s then Ret (if bool_decide (substr = s) then 0 else -1)
  else if zlen s <? n then Ret (-1)
  else LastIndexRabinKarp s substr.
End search.

(** ** Occurrences *)
Definition occurs (s sep : gostring) (i : nat) : Prop := exists pre post, s = pre ++ sep ++ post /\ length pre = i.
(** [r] is the index of the first (last) occurrence of [sep] in [s], or -1 if there is none. *)
Definition first_at (s sep : gostring) (r : Z) : Prop :=
  (exists i : nat, r = Z.of_nat i /\ occurs s sep i /\ forall j, (j < i)%nat -> ~ occurs s sep j) \/
  (r = -1 /\ forall j, ~ occurs s sep j).
Definition last_at (s sep : gostring) (r : Z) : Prop :=
  (exists i : nat, r = Z.of_nat i /\ occurs s sep i /\ forall j, (i < j)%nat -> ~ occurs s sep j) \/
  (r = -1 /\ forall j, ~ occurs s sep j).

Lemma occurs_window pre win post sep : length win = length sep -> occurs (pre ++ win ++ post) sep (length pre) <-> win = sep.
Proof.
  intros Hl. split; [|intros ->; by exists pre, post]. intros (pre' & post' & E & Hp).
  apply app_inj_1 in E as [_ E]; [|done]. by apply app_inj_1 in E as [-> _].
Qed.
Lemma occurs_take s sep i : occurs s sep i <-> (i + length sep <= length s)%nat /\ take (length sep) (drop i s) = sep.
Proof.
  split.
  - intros (pre & post & -> & <-). rewrite !length_app, drop_app_length, take_app_length. split; [lia|done].
  - intros [Hl Ht]. exists (take i s), (drop (length sep) (drop i s)). split; [|rewrite length_take; lia].
    rewrite <- Ht at 1. by rewrite take_drop, take_drop.
Qed.
Lemma occurs_fits s sep i : occurs s sep i -> (i + length sep <= length s)%nat.
Proof. by intros [? _]%occurs_take. Qed.
Lemma occurs_drop s sep i j : (i <= length s)%nat -> occurs (drop i s) sep j <-> occurs s sep (i + j).
Proof. intros Hi. rewrite !occurs_take, length_drop, drop_drop. split; intros [H1 H2]; (split; [lia|done]). Qed.
Lemma occurs_byte s c sep i k : occurs s sep i -> sep !! k = Some c -> s !! (i + k)%nat = Some c.
Proof.
  intros (pre & post & -> & <-) Hk. rewrite lookup_app_r by lia. replace (length pre + k - length pre)%nat with k by lia.
  rewrite lookup_app_l; [done|by eapply lookup_lt_Some].
Qed.

(** Searching the rest of a text whose beginning has no occurrence. *)
Lemma first_at_rest s sep i r :
  (i <= length s)%nat -> (forall j, (j < i)%nat -> ~ occurs s sep j) -> first_at (drop i s) sep r ->
  first_at s sep (if 0 <=? r then r + Z.of_nat i else -1).
Proof.
  intros Hi Hno [(k & -> & Hk & Hlt)|[-> Hnone]].
  - left. exists (i + k)%nat. rewrite (proj2 (Z.leb_le _ _)) by lia. split; [lia|]. split; [by apply occurs_drop|].
    intros j Hj. destruct (decide (j < i)%nat); [by apply Hno|]. replace j with (i + (j - i))%nat by lia.
    rewrite <- occurs_drop by done. apply Hlt. lia.
  - right. split; [done|]. intros j. destruct (decide (j < i)%nat); [by apply Hno|]. replace j with (i + (j - i))%nat by lia.
    rewrite <- occurs_drop by done. apply Hnone.
Qed.

(** ** The rolling hash *)
Definition poly (l : gostring) (x : Z) : Z := fold_left (fun h c => h * primeRK + c) l x.

Lemma u32_mul_l a b : u32 (u32 a * b) = u32 (a * b).
Proof. apply Zmult_mod_idemp_l. Qed.
Lemma u32_mul_r a b : u32 (a * u32 b) = u32 (a * b).
Proof. apply Zmult_mod_idemp_r. Qed.
Lemma u32_add_l a b : u32 (u32 a + b) = u32 (a + b).
Proof. apply Zplus_mod_idemp_l. Qed.
Lemma u32_sub_l a b : u32 (u32 a - b) = u32 (a - b).
Proof. apply Zminus_mod_idemp_l. Qed.
Lemma u32_sub_r a b : u32 (a - u32 b) = u32 (a - b).
Proof. apply Zminus_mod_idemp_r. Qed.

Lemma poly_app l k x : poly (l ++ k) x = poly k (poly l x).
Proof. apply fold_left_app. Qed.
Lemma poly_cons l x : poly l x = x * primeRK ^ zlen l + poly l 0.
Proof.
  induction l as [|c l IH] using rev_ind; [change (x = x * 1 + 0); lia|]. rewrite !poly_app, zlen_app. change (zlen [c]) with 1.
  rewrite Z.pow_add_r, Z.pow_1_r by (pose proof (zlen_nonneg l); lia). change (poly [c] ?y) with (y * primeRK + c). rewrite IH.
  change (poly [c] (poly l 0)) with (poly l 0 * primeRK + c). lia.
Qed.
Lemma hash_step h c : u32 (u32 (u32 h * primeRK) + c) = u32 (h * primeRK + c).
Proof. by rewrite u32_mul_l, u32_add_l. Qed.
Lemma hash_loop_spec sep x : hash_loop sep (u32 x) = u32 (poly sep x).
Proof. revert x. induction sep as [|c sep IH]; intros x; [done|]. cbn [hash_loop]. by rewrite hash_step, IH. Qed.
Lemma hash_loop_0 sep : hash_loop sep 0 = u32 (poly sep 0).
Proof. exact (hash_loop_spec sep 0). Qed.
(** Dropping the oldest byte [a] of a window and adding [b]. *)
Lemma hash_roll a w b :
  u32 (u32 (u32 (u32 (poly (a :: w) 0) * primeRK) + b) - u32 (u32 (primeRK ^ (zlen w + 1)) * a)) = u32 (poly (w ++ [b]) 0).
Proof.
  rewrite hash_step, u32_mul_l, u32_sub_r, u32_sub_l. f_equal. rewrite poly_app. change (poly (a :: w) 0) with (poly w a). rewrite (poly_cons w a).
  change (poly [b] (poly w 0)) with (poly w 0 * primeRK + b). rewrite Z.pow_add_r, Z.pow_1_r by (pose proof (zlen_nonneg w); lia). lia.
Qed.

Lemma pow_loop_step fuel i pow sq :
  pow_loop (S fuel) i pow sq =
    if 0 <? i then pow_loop fuel (Z.shiftr i 1) (if negb (Z.land i 1 =? 0) then u32 (pow * sq) else pow) (u32 (sq * sq)) else Ret pow.
Proof. done. Qed.
Lemma pow_loop_spec fuel i x y :
  0 <= i < 2 ^ Z.of_nat fuel -> pow_loop (S fuel) i (u32 x) (u32 y) = Ret (u32 (x * y ^ i)).
Proof.
  revert i x y. induction fuel as [|fuel IH]; intros i x y Hi; rewrite pow_loop_step.
  { replace i with 0 by lia. change (0 <? 0) with false. by rewrite Z.pow_0_r, Z.mul_1_r. }
  destruct (Z.ltb_spec 0 i) as [Hpos|Hpos]; [|replace i with 0 by lia; by rewrite Z.pow_0_r, Z.mul_1_r].
  pose proof (Z.land_ones i 1 ltac:(lia)) as Hl. change (Z.ones 1) with 1 in Hl. rewrite Hl, Z.shiftr_div_pow2 by lia. change (2 ^ 1) with 2.
  pose proof (Z.div_mod i 2 ltac:(lia)) as Hdiv. pose proof (Z.mod_pos_bound i 2 ltac:(lia)) as Hmod.
  assert (0 <= i / 2 < 2 ^ Z.of_nat fuel) as Hhalf.
  { rewrite Nat2Z.inj_succ, Z.pow_succ_r in Hi by lia. lia. }
  rewrite u32_mul_l, u32_mul_r, u32_mul_l, u32_mul_r. assert (x * y ^ i = (if negb (i mod 2 =? 0) then x * y else x) * (y * y) ^ (i / 2)) as ->.
  { rewrite Hdiv at 1. rewrite Z.pow_add_r, Z.pow_mul_r by lia. change (y ^ 2) with (y * (y * 1)). rewrite Z.mul_1_r.
    destruct (Z.eqb_spec (i mod 2) 0) as [->|]; cbn [negb]; [ring|]. replace (i mod 2) with 1 by lia. ring. }
  destruct (negb (i mod 2 =? 0)); by apply IH.
Qed.
Lemma hashStr_pow (sep : gostring) : zlen sep <= MaxInt -> pow_loop 64 (zlen sep) 1 primeRK = Ret (u32 (primeRK ^ zlen sep)).
Proof.
  intros Hl. pose proof (zlen_nonneg sep). pose proof (pow_loop_spec 63 (zlen sep) 1 primeRK) as H'. rewrite Z.mul_1_l in H'.
  apply H'. unfold MaxInt in Hl. change (Z.of_nat 63) with 63. lia.
Qed.

(** ** The search from the front *)
Lemma byte_behind (pre rest : gostring) c : index (pre ++ c :: rest) (zlen pre) = Ret c.
Proof. rewrite <- (Z.add_0_r (zlen pre)). by rewrite index_app_r by lia. Qed.
Lemma hash_window_up n : forall (pre win post : gostring) x, length win = n ->
  hash_window n (pre ++ win ++ post) (zlen pre) 1 (u32 x) = Ret (u32 (poly win x)).
Proof.
  induction n as [|n IH]; intros pre win post x Hn; [by destruct win|]. destruct win as [|c win]; [done|]. cbn [hash_window].
  cbn [app]. rewrite byte_behind, bind_ret, hash_step. specialize (IH (pre ++ [c]) win post (x * primeRK + c) ltac:(by injection Hn)).
  rewrite zlen_app, <- app_assoc in IH. exact IH.
Qed.

(** A window is compared only when its hash is right, which is the case of every occurrence. *)
Lemma found_window (win sep : gostring) (m : go gostring) :
  m = Ret win ->
  (if u32 (poly win 0) =? u32 (poly sep 0) then w ← m; Ret (bool_decide (w = sep)) else Ret false) = Ret (bool_decide (win = sep)).
Proof.
  intros ->. destruct (Z.eqb_spec (u32 (poly win 0)) (u32 (poly sep 0))) as [E|E]; [done|].
  rewrite bool_decide_false; [done|]. by intros ->.
Qed.
Lemma slice_window (pre win post : gostring) i j : i = zlen pre -> j = zlen pre + zlen win -> slice (pre ++ win ++ post) i j = Ret win.
Proof.
  intros -> ->. rewrite slice_in_range by (rewrite ?zlen_app; pose proof (zlen_nonneg pre); pose proof (zlen_nonneg win); pose proof (zlen_nonneg post); lia).
  replace (Z.to_nat (zlen pre)) with (length pre) by (unfold zlen; lia). replace (Z.to_nat (zlen pre + zlen win - zlen pre)) with (length win) by (unfold zlen; lia).
  by rewrite drop_app_length, take_app_length.
Qed.
Lemma u32_small x : u32 (u32 x) = u32 x.
Proof. apply Zmod_mod. Qed.

Lemma rabin_karp_loop sep fuel : forall pre win post,
  length win = length sep -> (0 < length sep)%nat -> (length post < fuel)%nat ->
  (forall j, (j <= length pre)%nat -> ~ occurs (pre ++ win ++ post) sep j) ->
  exists r, IndexRabinKarp_loop fuel (pre ++ win ++ post) sep (zlen sep) (u32 (poly sep 0)) (u32 (primeRK ^ zlen sep)) (zlen pre + zlen win) (u32 (poly win 0)) = Ret r /\
    first_at (pre ++ win ++ post) sep r.
Proof.
  induction fuel as [|fuel IH]; intros pre win post Hl Hpos Hf Hno; [lia|]. cbn [IndexRabinKarp_loop].
  assert (zlen win = zlen sep) as Hz by (unfold zlen; lia).
  destruct post as [|b post].
  { rewrite (proj2 (Z.ltb_ge _ _)) by (rewrite app_nil_r, zlen_app; lia). exists (-1). split; [done|]. right. split; [done|].
    intros j Hj. apply occurs_fits in Hj as Hfit. rewrite app_nil_r, length_app in Hfit. by apply (Hno j ltac:(lia)). }
  destruct win as [|a w]; [cbn in Hl; lia|]. set (s := pre ++ (a :: w) ++ b :: post) in *.
  assert (s = (pre ++ [a]) ++ (w ++ [b]) ++ post) as Es by (subst s; by rewrite <- !app_assoc).
  rewrite (proj2 (Z.ltb_lt _ _)) by (subst s; rewrite !zlen_app, !zlen_cons; pose proof (zlen_nonneg post); lia).
  assert (index s (zlen pre + zlen (a :: w)) = Ret b) as -> by (subst s; rewrite app_assoc, <- zlen_app; apply byte_behind).
  rewrite bind_ret. replace (zlen pre + zlen (a :: w) - zlen sep) with (zlen pre) by lia.
  assert (index s (zlen pre) = Ret a) as -> by apply byte_behind. rewrite bind_ret.
  pose proof (hash_roll a w b) as Hroll. replace (zlen w + 1) with (zlen sep) in Hroll by (rewrite <- Hz, zlen_cons; lia). rewrite Hroll.
  rewrite (found_window (w ++ [b]) sep) by (rewrite Es; apply slice_window; rewrite zlen_cons in Hz; rewrite !zlen_app, zlen_cons; change (zlen [a]) with 1; change (zlen [b]) with 1; lia).
  rewrite bind_ret. pose proof (occurs_window (pre ++ [a]) (w ++ [b]) post sep) as Hocc. rewrite <- Es in Hocc.
  assert (length (w ++ [b]) = length sep) as Hl' by (rewrite length_app; cbn in *; lia). specialize (Hocc Hl').
  assert (length (pre ++ [a]) = S (length pre)) as Hp by (rewrite length_app; cbn; lia).
  case_bool_decide as Hw.
  - eexists. split; [done|]. left. exists (S (length pre)). split; [rewrite zlen_cons in *; unfold zlen in *; lia|]. rewrite <- Hp at 1. split; [by apply Hocc|].
    intros j Hj. apply Hno. lia.
  - destruct (IH (pre ++ [a]) (w ++ [b]) post) as (r & Hr & Hfirst); [done|done|cbn in Hf; lia| |].
    + rewrite <- Es. intros j Hj. destruct (decide (j = S (length pre))) as [->|]; [rewrite <- Hp; by rewrite Hocc|]. apply Hno. lia.
    + rewrite <- Es in Hr, Hfirst. exists r. split; [|done]. rewrite <- Hr. f_equal; rewrite ?zlen_app, zlen_cons; change (zlen [a]) with 1; change (zlen [b]) with 1; lia.
Qed.

Lemma rabin_karp_first s sep : zlen sep <= MaxInt -> (length sep <= length s)%nat -> exists r, IndexRabinKarp s sep = Ret r /\ first_at s sep r.
Proof.
  intros Hmax Hle. unfold IndexRabinKarp, hashStr. rewrite hashStr_pow, !bind_ret, hash_loop_0 by done.
  rewrite <- (take_drop (length sep) s). set (win := take (length sep) s). set (post := drop (length sep) s).
  assert (length win = length sep) as Hl by (subst win; rewrite length_take; lia).
  pose proof (hash_window_up (length sep) [] win post 0 Hl) as Hh. cbn [app] in Hh. change (u32 0) with 0 in Hh. change (zlen (@nil Z)) with 0 in Hh.
  rewrite Hh, bind_ret. rewrite found_window; [|by apply (slice_window [] win post); [|unfold zlen; rewrite Hl; cbn; lia]].
  rewrite bind_ret. pose proof (occurs_window [] win post sep Hl) as Hocc. cbn [app length] in Hocc.
  case_bool_decide as Hw.
  - exists 0. split; [done|]. left. exists 0%nat. split; [done|]. split; [by apply Hocc|]. lia.
  - destruct (rabin_karp_loop sep (S (length (win ++ post))) [] win post) as (r & Hr & Hfirst); [done| |rewrite length_app; lia| |].
    + destruct sep; [|cbn; lia]. by destruct win.
    + cbn [app length]. intros j Hj. replace j with 0%nat by lia. by rewrite Hocc.
    + exists r. split; [|done]. rewrite <- Hr. cbn [app]. f_equal. change (zlen (@nil Z)) with 0. unfold zlen. lia.
Qed.

(** ** The search from the back: the window runs down, and is hashed in reverse *)
Lemma byte_before (pre win post : gostring) c : index (pre ++ (win ++ [c]) ++ post) (zlen pre + zlen win) = Ret c.
Proof. rewrite <- app_assoc, app_assoc, <- zlen_app. apply byte_behind. Qed.
Lemma hash_window_down n : forall (pre win post : gostring) x, length win = n ->
  hash_window n (pre ++ win ++ post) (zlen pre + zlen win - 1) (-1) (u32 x) = Ret (u32 (poly (rev win) x)).
Proof.
  induction n as [|n IH]; intros pre win post x Hn; [by destruct win|]. destruct win as [|c win _] using rev_ind; [done|]. cbn [hash_window].
  rewrite length_app in Hn. cbn [length] in Hn. rewrite zlen_app. change (zlen [c]) with 1. replace (zlen pre + (zlen win + 1) - 1) with (zlen pre + zlen win) by lia.
  rewrite byte_before, bind_ret, hash_step, rev_app_distr. cbn [rev app]. specialize (IH pre win ([c] ++ post) (x * primeRK + c) ltac:(lia)).
  rewrite <- app_assoc. exact IH.
Qed.
Lemma found_window_rev (win sep : gostring) (m : go gostring) :
  m = Ret win ->
  (if u32 (poly (rev win) 0) =? u32 (poly (rev sep) 0) then w ← m; Ret (bool_decide (w = sep)) else Ret false) = Ret (bool_decide (win = sep)).
Proof.
  intros ->. destruct (Z.eqb_spec (u32 (poly (rev win) 0)) (u32 (poly (rev sep) 0))) as [E|E]; [done|].
  rewrite bool_decide_false; [done|]. by intros ->.
Qed.

Lemma rabin_karp_last_loop sep fuel : forall pre win post,
  length win = length sep -> (0 < length sep)%nat -> (length pre < fuel)%nat ->
  (forall j, (length pre <= j)%nat -> ~ occurs (pre ++ win ++ post) sep j) ->
  exists r, LastIndexRabinKarp_loop fuel (pre ++ win ++ post) sep (zlen sep) (u32 (poly (rev sep) 0)) (u32 (primeRK ^ zlen sep)) (zlen pre - 1) (u32 (poly (rev win) 0)) = Ret r /\
    last_at (pre ++ win ++ post) sep r.
Proof.
  induction fuel as [|fuel IH]; intros pre win post Hl Hpos Hf Hno; [lia|]. cbn [LastIndexRabinKarp_loop].
  assert (zlen win = zlen sep) as Hz by (unfold zlen; lia).
  destruct pre as [|b pre _] using rev_ind.
  { change (zlen (@nil Z) - 1) with (-1). change (0 <=? -1) with false. exists (-1). split; [done|]. right. split; [done|]. intros j. apply Hno. cbn. lia. }
  destruct win as [|a w _] using rev_ind; [cbn in Hl; lia|]. set (s := (pre ++ [b]) ++ (w ++ [a]) ++ post) in *.
  assert (s = pre ++ (b :: w) ++ a :: post) as Es by (subst s; by rewrite <- !app_assoc).
  assert (zlen w + 1 = zlen sep) as Hw1 by (rewrite zlen_app in Hz; change (zlen [a]) with 1 in Hz; lia).
  rewrite !zlen_app. change (zlen [b]) with 1. replace (zlen pre + 1 - 1) with (zlen pre) by lia. pose proof (zlen_nonneg pre). rewrite (proj2 (Z.leb_le _ _)) by lia.
  assert (index s (zlen pre) = Ret b) as -> by (rewrite Es; apply byte_behind). rewrite bind_ret.
  assert (index s (zlen pre + zlen sep) = Ret a) as ->.
  { replace (zlen pre + zlen sep) with (zlen (pre ++ [b]) + zlen w) by (rewrite zlen_app; change (zlen [b]) with 1; lia). apply byte_before. }
  rewrite bind_ret, rev_app_distr. cbn [rev app]. pose proof (hash_roll a (rev w) b) as Hroll.
  replace (zlen (rev w) + 1) with (zlen sep) in Hroll by (unfold zlen in *; rewrite length_rev; lia). rewrite Hroll. change (rev w ++ [b]) with (rev (b :: w)).
  rewrite (found_window_rev (b :: w) sep) by (rewrite Es; apply slice_window; rewrite ?zlen_cons; lia).
  rewrite bind_ret. assert (length (b :: w) = length sep) as Hl' by (rewrite length_app in Hl; cbn in *; lia).
  pose proof (occurs_window pre (b :: w) (a :: post) sep Hl') as Hocc. rewrite <- Es in Hocc. rewrite length_app in Hf, Hno. cbn [length] in Hf, Hno.
  case_bool_decide as Hw.
  - exists (zlen pre). split; [done|]. left. exists (length pre). split; [done|]. split; [by apply Hocc|]. intros j Hj. apply Hno. lia.
  - destruct (IH pre (b :: w) (a :: post)) as (r & Hr & Hlast); [done|done|lia| |].
    + rewrite <- Es. intros j Hj. destruct (decide (j = length pre)) as [->|]; [by rewrite Hocc|]. apply Hno. lia.
    + rewrite <- Es in Hr, Hlast. by exists r.
Qed.
Lemma rabin_karp_last s sep : zlen sep <= MaxInt -> (0 < length sep <= length s)%nat -> exists r, LastIndexRabinKarp s sep = Ret r /\ last_at s sep r.
Proof.
  intros Hmax Hle. unfold LastIndexRabinKarp, hashStrRev. rewrite hashStr_pow, !bind_ret, hash_loop_0 by done.
  set (k := (length s - length sep)%nat). rewrite <- (take_drop k s). set (pre := take k s). set (win := drop k s).
  assert (length win = length sep) as Hl by (subst win k; rewrite length_drop; lia).
  assert (zlen win = zlen sep) as Hz by (unfold zlen; lia). replace (pre ++ win) with (pre ++ win ++ []) by by rewrite app_nil_r.
  pose proof (hash_window_down (length sep) pre win [] 0 Hl) as Hh. change (u32 0) with 0 in Hh.
  rewrite zlen_app, (zlen_app win), zlen_nil, Z.add_0_r, Hh, bind_ret, Hz. replace (zlen pre + zlen sep - zlen sep) with (zlen pre) by lia.
  rewrite found_window_rev; [|unfold slice_from; apply slice_window; [done|rewrite !zlen_app, zlen_nil; lia]].
  rewrite bind_ret. pose proof (occurs_window pre win [] sep Hl) as Hocc.
  assert (forall j, (length pre < j)%nat -> ~ occurs (pre ++ win ++ []) sep j) as Hafter.
  { intros j Hj Ho. apply occurs_fits in Ho. rewrite !length_app in Ho. cbn in Ho. lia. }
  case_bool_decide as Hw.
  - exists (zlen pre). split; [done|]. left. exists (length pre). split; [done|]. split; [by apply Hocc|done].
  - apply rabin_karp_last_loop; [done|lia|rewrite length_app; lia|].
    intros j Hj. destruct (decide (j = length pre)) as [->|]; [by rewrite Hocc|]. apply Hafter. lia.
Qed.

(** ** [Index] *)
Lemma index_byte_first s c : exists r, index_byte s c = Ret r /\
  ((r = -1 /\ c ∉ s) \/ exists a b, s = a ++ c :: b /\ c ∉ a /\ r = zlen a).
Proof.
  destruct (decide (c ∈ s)) as [Hin|Hin].
  - apply list_elem_of_split_l in Hin as (a & b & -> & Ha). exists (zlen a). split; [by apply index_byte_found|]. right. by exists a, b.
  - exists (-1). split; [by apply index_byte_missing|]. by left.
Qed.
Lemma occurs_single s c i : occurs s [c] i <-> s !! i = Some c.
Proof.
  split; [intros H; rewrite <- (Nat.add_0_r i); by eapply occurs_byte|]. intros Hi. exists (take i s), (drop (S i) s).
  split; [symmetry; by apply take_drop_middle|]. apply lookup_lt_Some in Hi. rewrite length_take. lia.
Qed.
Lemma index_single s c : exists r, index_byte s c = Ret r /\ first_at s [c] r.
Proof.
  destruct (index_byte_first s c) as (r & Hr & [[-> Hc]|(a & b & -> & Ha & ->)]); eexists; (split; [exact Hr|]).
  - right. split; [done|]. intros j Hj. apply occurs_single, list_elem_of_lookup_2 in Hj. done.
  - left. exists (length a). split; [done|]. rewrite occurs_single. split; [by apply list_lookup_middle|]. intros j Hj. rewrite occurs_single, lookup_app_l by done.
    intros H. by apply list_elem_of_lookup_2 in H.
Qed.
Lemma not_found_byte s sep i c c0 : s !! i = Some c -> sep !! 0%nat = Some c0 -> c <> c0 -> ~ occurs s sep i.
Proof. intros Hs H0 Hne Ho. pose proof (occurs_byte _ _ _ _ _ Ho H0) as H. rewrite Nat.add_0_r, Hs in H. congruence. Qed.
Lemma occurs_last s sep i : occurs s sep i -> Z.of_nat i < zlen s - zlen sep + 1.
Proof. intros H%occurs_fits. unfold zlen. lia. Qed.
Lemma lookup_range (s : gostring) lo n j : (lo <= j < lo + n)%nat -> take n (drop lo s) !! (j - lo)%nat = s !! j.
Proof. intros Hj. rewrite lookup_take_lt, lookup_drop by lia. f_equal. lia. Qed.

(** The next place where the first byte of the pattern is. *)
Lemma Index_next (s sep : gostring) c0 (i : nat) :
  sep !! 0%nat = Some c0 -> zlen sep <= zlen s -> Z.of_nat i < zlen s - zlen sep + 1 -> (forall j, (j < i)%nat -> ~ occurs s sep j) ->
  exists o, (forall B (K : option Z -> go B),
      (c ← index s (Z.of_nat i);
       (if negb (c =? c0) then
          rest ← slice s (Z.of_nat i + 1) (zlen s - zlen sep + 1); o ← IndexByte rest c0;
          Ret (if o <? 0 then None else Some (Z.of_nat i + (o + 1)))
        else Ret (Some (Z.of_nat i))) ≫= K) = K o) /\
    match o with
    | None => forall j, ~ occurs s sep j
    | Some i' => exists k : nat, i' = Z.of_nat k /\ (i <= k)%nat /\ i' < zlen s - zlen sep + 1 /\ forall j, (j < k)%nat -> ~ occurs s sep j
    end.
Proof.
  intros H0 Hle Hi Hno. assert (0 < zlen sep) as Hpos by (apply lookup_lt_Some in H0; unfold zlen; lia).
  destruct (lookup_lt_is_Some_2 s i) as [c Hc]; [unfold zlen in *; lia|].
  rewrite (proj2 (index_lookup s (Z.of_nat i) c)) by (rewrite Nat2Z.id; split; [lia|done]).
  destruct (Z.eqb_spec c c0) as [->|Hne]; [exists (Some (Z.of_nat i)); split; [intros B K; rewrite bind_ret, Z.eqb_refl; cbn [negb]; by rewrite bind_ret|]; by exists i|].
  assert (negb (c =? c0) = true) as Hcc by (by rewrite (proj2 (Z.eqb_neq _ _) Hne)).
  pose proof (not_found_byte s sep i c c0 Hc H0 Hne) as Hnot. rewrite slice_in_range by lia.
  set (len := Z.to_nat (zlen s - zlen sep + 1 - (Z.of_nat i + 1))). replace (Z.to_nat (Z.of_nat i + 1)) with (S i) by lia.
  set (rest := take len (drop (S i) s)). assert (forall j, (i < j < S i + len)%nat -> rest !! (j - S i)%nat = s !! j) as Hrest by (intros j Hj; apply lookup_range; lia).
  assert (length rest = len) as Hlen by (subst rest len; rewrite length_take, length_drop; unfold zlen in *; lia).
  unfold IndexByte. destruct (index_byte_first rest c0) as (r & Hrest' & Hr). exists (if r <? 0 then None else Some (Z.of_nat i + (r + 1))).
  split; [intros B K; by rewrite bind_ret, Hcc, bind_ret, Hrest', !bind_ret|].
  destruct Hr as [[-> Hn]|(a & b & E & Ha & ->)].
  - change (-1 <? 0) with true. cbv iota. intros j Hj. pose proof (occurs_last _ _ _ Hj) as Hl. destruct (decide (j < i)%nat); [by apply (Hno j)|].
    destruct (decide (j = i)) as [->|]; [done|]. apply Hn. pose proof (occurs_byte _ _ _ _ _ Hj H0) as Hb. rewrite Nat.add_0_r, <- Hrest in Hb by (subst len; lia).
    by apply list_elem_of_lookup_2 in Hb.
  - pose proof (zlen_nonneg a). rewrite (proj2 (Z.ltb_ge _ 0)) by lia. exists (i + S (length a))%nat. split; [unfold zlen; lia|]. split; [lia|].
    rewrite E in Hlen. rewrite length_app in Hlen. cbn in Hlen. split; [subst len; unfold zlen in *; lia|]. intros j Hj Ho.
    destruct (decide (j < i)%nat); [by apply (Hno j)|]. destruct (decide (j = i)) as [->|]; [done|]. apply Ha.
    pose proof (occurs_byte _ _ _ _ _ Ho H0) as Hb. rewrite Nat.add_0_r, <- Hrest, E, lookup_app_l in Hb by lia. by apply list_elem_of_lookup_2 in Hb.
Qed.

(** The comparison at a place, second byte first. *)
Lemma Index_compare (s sep : gostring) c1 (i : nat) :
  sep !! 1%nat = Some c1 -> Z.of_nat i < zlen s - zlen sep + 1 ->
  exists b, (forall B (K : bool -> go B),
      (d ← index s (Z.of_nat i + 1);
       (if d =? c1 then w ← slice s (Z.of_nat i) (Z.of_nat i + zlen sep); Ret (bool_decide (w = sep)) else Ret false) ≫= K) = K b) /\
    (b = true <-> occurs s sep i).
Proof.
  intros H1 Hi. assert (2 <= zlen sep) as Hn by (apply lookup_lt_Some in H1; unfold zlen; lia).
  destruct (lookup_lt_is_Some_2 s (i + 1)) as [d Hd]; [unfold zlen in *; lia|].
  rewrite (proj2 (index_lookup s _ d)) by (split; [lia|]; by replace (Z.to_nat (Z.of_nat i + 1)) with (i + 1)%nat by lia).
  destruct (Z.eqb_spec d c1) as [->|Hne].
  - rewrite slice_in_range by lia. eexists. split; [intros B K; by rewrite bind_ret, Z.eqb_refl, !bind_ret|]. rewrite bool_decide_eq_true, occurs_take, Nat2Z.id.
    replace (Z.to_nat (Z.of_nat i + zlen sep - Z.of_nat i)) with (length sep) by (unfold zlen; lia). split; [intros ->; split; [unfold zlen in *; lia|done]|by intros [_ ?]].
  - exists false. split; [intros B K; by rewrite bind_ret, (proj2 (Z.eqb_neq _ _) Hne), bind_ret|]. split; [done|]. intros Ho. pose proof (occurs_byte _ _ _ _ _ Ho H1) as H. congruence.
Qed.

Section search_spec.
Context (MaxLen : Z) (IndexString : gostring -> gostring -> go Z).
(** The documented contract of the assembly: it finds the first occurrence of patterns it takes. *)
Context (IndexString_first : forall a b, 2 <= zlen b <= MaxLen -> exists r, IndexString a b = Ret r /\ first_at a b r).

Lemma Index_loop_spec (s sep : gostring) c0 c1 : sep !! 0%nat = Some c0 -> sep !! 1%nat = Some c1 -> zlen sep <= zlen s -> zlen sep <= MaxInt ->
  forall fuel (i : nat) fails, (length s < fuel + i)%nat -> (i <= length s)%nat -> (forall j, (j < i)%nat -> ~ occurs s sep j) ->
  exists r, Index_loop MaxLen IndexString fuel s sep (zlen sep) c0 c1 (zlen s - zlen sep + 1) (Z.of_nat i) fails = Ret r /\ first_at s sep r.
Proof.
  intros H0 H1 Hle Hmax. assert (2 <= zlen sep) as Hn by (apply lookup_lt_Some in H1; unfold zlen; lia).
  induction fuel as [|fuel IH]; intros i fails Hf Hi Hno; [lia|]. cbn [Index_loop].
  destruct (Z.ltb_spec (Z.of_nat i) (zlen s - zlen sep + 1)) as [Ht|Ht].
  2:{ exists (-1). split; [done|]. right. split; [done|]. intros j Hj. pose proof (occurs_last _ _ _ Hj). apply (Hno j); [lia|done]. }
  destruct (Index_next s sep c0 i H0 Hle Ht Hno) as (o & -> & Hnext).
  destruct o as [?|]; [destruct Hnext as (k & -> & Hik & Hkt & Hk)|exists (-1); split; [done|by right]].
  destruct (Index_compare s sep c1 k H1 Hkt) as (b & -> & Hb). destruct b.
  { exists (Z.of_nat k). split; [done|]. left. exists k. split_and!; [done|by apply Hb|done]. }
  assert (S k <= length s)%nat as Hsk by (unfold zlen in *; lia).
  assert (forall j, (j < S k)%nat -> ~ occurs s sep j) as Hno'.
  { intros j Hj. destruct (decide (j = k)) as [->|]; [intros Ho; by apply Hb in Ho|apply Hk; lia]. }
  cbv zeta. replace (Z.of_nat k + 1) with (Z.of_nat (S k)) by lia. rewrite slice_from_in_range by (unfold zlen; lia). rewrite Nat2Z.id, !bind_ret.
  destruct ((zlen sep <=? MaxLen) && _) eqn:Ecut.
  { apply andb_true_iff in Ecut as [Hm%Z.leb_le _]. destruct (IndexString_first (drop (S k) s) sep ltac:(lia)) as (r & -> & Hr).
    rewrite bind_ret. eexists. split; [done|]. by apply first_at_rest. }
  destruct ((MaxLen <? zlen sep) && (4 + _ <=? _) && _) eqn:Erk.
  { apply andb_true_iff in Erk as [_ Hk't%Z.ltb_lt]. destruct (rabin_karp_first (drop (S k) s) sep Hmax) as (r & -> & Hr); [rewrite length_drop; unfold zlen in *; lia|].
    rewrite bind_ret. eexists. split; [done|]. pose proof (first_at_rest s sep (S k) r Hsk Hno' Hr) as H.
    destruct (Z.leb_spec 0 r); [rewrite (proj2 (Z.ltb_ge _ _)) by lia|rewrite (proj2 (Z.ltb_lt _ _)) by lia]; [|done]. by rewrite Z.add_comm. }
  apply IH; [lia|done|done].
Qed.

Lemma Index_first s sep : zlen sep <= MaxInt -> exists r, Index MaxLen IndexString s sep = Ret r /\ first_at s sep r.
Proof.
  intros Hmax. unfold Index. pose proof (zlen_nonneg sep). destruct (Z.eqb_spec (zlen sep) 0) as [E|E]; cbn [orb].
  { apply zlen_0 in E as ->. exists 0. split; [done|]. left. exists 0%nat. split_and!; [done|by exists [], s|lia]. }
  case_bool_decide as Heq; cbn [orb].
  { subst s. exists 0. split; [done|]. left. exists 0%nat. split_and!; [done|exists [], []; by rewrite app_nil_r|lia]. }
  destruct sep as [|c0 sep]; [done|]. change (index (c0 :: sep) 0) with (Ret c0). rewrite !bind_ret.
  destruct (Z.eqb_spec (zlen (c0 :: sep)) 1) as [E1|E1].
  { rewrite zlen_cons in E1. assert (sep = []) as -> by (apply zlen_0; lia). apply index_single. }
  destruct sep as [|c1 sep]; [done|]. change (index (c0 :: c1 :: sep) 1) with (Ret c1). rewrite !bind_ret. set (p := c0 :: c1 :: sep) in *.
  assert (2 <= zlen p) as Hn by (subst p; rewrite !zlen_cons; pose proof (zlen_nonneg sep); lia).
  destruct (Z.leb_spec (zlen s) (zlen p)) as [Hle|Hlt].
  { exists (-1). split; [done|]. right. split; [done|]. intros j (pre & post & -> & _). apply Heq. rewrite !zlen_app in Hle.
    pose proof (zlen_nonneg pre). pose proof (zlen_nonneg post). rewrite (zlen_0 pre), (zlen_0 post) by lia. by rewrite app_nil_r. }
  destruct ((zlen p <=? MaxLen) && _) eqn:Eb.
  { apply andb_true_iff in Eb as [Hm%Z.leb_le _]. apply IndexString_first. lia. }
  change 0 with (Z.of_nat 0) at 1. apply Index_loop_spec; [done|done|lia|done|lia|lia|lia].
Qed.
End search_spec.

(** ** [LastIndex] *)
Lemma last_byte_loop fuel : forall (pre post : gostring) c, (length pre < fuel)%nat -> c ∉ post ->
  exists r, LastIndexByteString_loop fuel (pre ++ post) c (zlen pre - 1) = Ret r /\ last_at (pre ++ post) [c] r.
Proof.
  induction fuel as [|fuel IH]; intros pre post c Hf Hc; [lia|]. cbn [LastIndexByteString_loop].
  destruct pre as [|x pre _] using rev_ind.
  { exists (-1). split; [done|]. right. split; [done|]. intros j Hj. cbn [app] in Hj. by apply occurs_single, list_elem_of_lookup_2 in Hj. }
  rewrite zlen_app. change (zlen [x]) with 1. replace (zlen pre + 1 - 1) with (zlen pre) by lia. rewrite (proj2 (Z.leb_le 0 (zlen pre))) by apply zlen_nonneg.
  rewrite <- app_assoc. cbn [app]. rewrite byte_behind, bind_ret. destruct (Z.eqb_spec x c) as [->|Hne].
  - exists (zlen pre). split; [done|]. left. exists (length pre). rewrite occurs_single. split_and!; [done|by apply list_lookup_middle|].
    intros j Hj Ho. apply occurs_single in Ho. rewrite lookup_app_r in Ho by lia. destruct (j - length pre)%nat eqn:Ej; [lia|].
    by apply (list_elem_of_lookup_2 post n) in Ho.
  - rewrite length_app in Hf. cbn in Hf. apply IH; [lia|set_solver].
Qed.
Lemma LastIndex_last s sep : zlen sep <= MaxInt -> exists r, LastIndex s sep = Ret r /\ last_at s sep r.
Proof.
  intros Hmax. unfold LastIndex. pose proof (zlen_nonneg sep). destruct (Z.eqb_spec (zlen sep) 0) as [E|E].
  { apply zlen_0 in E as ->. exists (zlen s). split; [done|]. left. exists (length s). split; [done|]. split; [exists s, []; by rewrite app_nil_r|].
    intros j Hj Ho. apply occurs_fits in Ho. lia. }
  destruct sep as [|c sep]; [done|]. change (index (c :: sep) 0) with (Ret c). rewrite bind_ret. destruct (Z.eqb_spec (zlen (c :: sep)) 1) as [E1|E1].
  { rewrite zlen_cons in E1. assert (sep = []) as -> by (apply zlen_0; lia). 
    pose proof (last_byte_loop (S (length s)) s [] c ltac:(lia) ltac:(set_solver)) as Hb. rewrite app_nil_r in Hb. exact Hb. }
  destruct (Z.eqb_spec (zlen (c :: sep)) (zlen s)) as [E2|E2].
  { eexists. split; [done|]. assert (occurs s (c :: sep) 0 <-> s = c :: sep) as Hocc.
    { pose proof (occurs_window [] s [] (c :: sep)) as Ho. cbn [app length] in Ho. rewrite app_nil_r in Ho. apply Ho. unfold zlen in E2. cbn [length] in E2. lia. }
    assert (forall j, (0 < j)%nat -> ~ occurs s (c :: sep) j) as Hno by (intros j Hj Ho; apply occurs_fits in Ho; unfold zlen in E2; lia).
    case_bool_decide as Heq; [left; exists 0%nat; split_and!; [done|by apply Hocc|done]|]. right. split; [done|].
    intros [|j]; [rewrite Hocc; congruence|apply Hno; lia]. }
  destruct (Z.ltb_spec (zlen s) (zlen (c :: sep))) as [Hlt|Hge].
  { exists (-1). split; [done|]. right. split; [done|]. intros j Ho. apply occurs_fits in Ho. unfold zlen in *. lia. }
  apply rabin_karp_last; [done|]. unfold zlen in *. cbn [length] in *. lia.
Qed.

Lemma first_at_found s sep r : first_at s sep r -> (0 <=? r) = true <-> exists i, occurs s sep i.
Proof.
  intros [(i & -> & Hi & _)|[-> Hno]].
  - rewrite Z.leb_le. split; [by exists i|lia].
  - split; [done|]. intros [i Hi]. by destruct (Hno i).
Qed.

(** C25: Given the contract of the assembly for short patterns, [Index] returns the
    index of the first occurrence of a pattern, or -1 if there is none, whichever
    of its methods it uses and wherever it changes from one to another; [Contains]
    says whether there is one; [LastIndex] returns the last. *)
Theorem text_search_spec (MaxLen : Z) (IndexString : gostring -> gostring -> go Z)
    (IndexString_first : forall a b, 2 <= zlen b <= MaxLen -> exists r, IndexString a b = Ret r /\ first_at a b r)
    (s sep : gostring) (Hmax : zlen sep <= MaxInt) :
  (exists r, Index MaxLen IndexString s sep = Ret r /\ first_at s sep r) /\
  (exists b, Contains MaxLen IndexString s sep = Ret b /\ (b = true <-> exists i, occurs s sep i)) /\
  (exists r, LastIndex s sep = Ret r /\ last_at s sep r).
Proof.
  destruct (Index_first MaxLen IndexString IndexString_first s sep Hmax) as (r & Hr & Hfirst). split_and!.
  - by exists r.
  - exists (0 <=? r). split; [unfold Contains; by rewrite Hr|by apply first_at_found].
  - by apply LastIndex_last.
Qed.

(** A search with the assembly's contract, for the patterns that it takes. *)
Definition sample_IndexString (a b : gostring) : go Z := if zlen a <? zlen b then Ret (-1) else IndexRabinKarp a b.
Lemma sample_IndexString_first a b : 2 <= zlen b <= 63 -> exists r, sample_IndexString a b = Ret r /\ first_at a b r.
Proof.
  intros Hb. unfold sample_IndexString. destruct (Z.ltb_spec (zlen a) (zlen b)) as [Hlt|Hge].
  - exists (-1). split; [done|]. right. split; [done|]. intros j Ho. apply occurs_fits in Ho. unfold zlen in Hlt. lia.
  - apply rabin_karp_first; [unfold MaxInt; lia|unfold zlen in Hge; lia].
Qed.
Example search_samples :
  Index 63 sample_IndexString (str "abracadabra") (str "cad") = Ret 4 /\ Index 0 sample_IndexString (str "abracadabra") (str "bra") = Ret 1 /\
  Index 0 sample_IndexString (str "aabaabaabaabaabaabaabaac") (str "aac") = Ret 21 /\ Index 2 sample_IndexString (str "aaaaaaaaaaaaaaaab") (str "abc") = Ret (-1) /\
  LastIndex (str "abracadabra") (str "bra") = Ret 8 /\ LastIndex (str "abracadabra") (str "a") = Ret 10 /\
  IndexRabinKarp (str "abracadabra") (str "dab") = Ret 6 /\ IndexRabinKarp (str "ab") (str "abc") = Panic IndexOutOfRange.
Proof. by vm_compute. Qed.
Lemma text_search_spec_witness :
  exists r, Index 63 sample_IndexString (str "mississippi") (str "ssip") = Ret r /\ r = 5 /\ first_at (str "mississippi") (str "ssip") r.
Proof.
  destruct (text_search_spec 63 sample_IndexString sample_IndexString_first (str "mississippi") (str "ssip") ltac:(by vm_compute)) as ((r & Hr & Hf) & _).
  exists r. split; [exact Hr|]. split; [|exact Hf].
  assert (Index 63 sample_IndexString (str "mississippi") (str "ssip") = Ret 5) as E by (vm_compute; reflexivity). rewrite E in Hr. by injection Hr as <-.
Defined.
