(* ===== verification/GoStrings.v ===== *)
(** * Words of the Go standard library ([go/src/strings/strings.go], [go/src/unicode])

    [TrimSpace] and [Fields], with their fast paths for ASCII, against the text
    cut into code points and invalid bytes ([pieces] of Utf8Encode); the tools
    read the output of commands with them. *)
From Stdlib Require Import Btauto.
From S2P Require Import Prelude GoUtf8 Utf8Encode Quote.

(** ** White space *)
Definition MaxLatin1 : Z := 0xFF.
Definition linearMax : Z := 18.
Record Range16 := MkRange16 { Lo : Z; Hi : Z; Stride : Z }.
Record RangeTable := MkRangeTable { R16 : list Range16; LatinOffset : Z }.
Definition White_Space : RangeTable :=
  MkRangeTable [MkRange16 0x0009 0x000d 1; MkRange16 0x0020 0x0085 101; MkRange16 0x00a0 0x1680 5600; MkRange16 0x2000 0x200a 1; MkRange16 0x2028 0x2029 1;
                MkRange16 0x202f 0x205f 48; MkRange16 0x3000 0x3000 1] 2.
Definition in_stride (range_ : Range16) (r : Z) : bool := (Stride range_ =? 1) || ((r - Lo range_) mod Stride range_ =? 0).
Fixpoint is16_linear (ranges : list Range16) (r : Z) : bool :=
  match ranges with
  | [] => false
  | range_ :: ranges => if r <? Lo range_ then false else if r <=? Hi range_ then in_stride range_ r else is16_linear ranges r
  end.
Fixpoint is16_search (fuel : nat) (ranges : list Range16) (r lo hi : Z) : go bool :=
  if lo <? hi then
    match fuel with
    | O => OutOfFuel
    | S fuel =>
        let m := Z.shiftr (lo + hi) 1 in
        range_ ← index ranges m;
        if (Lo range_ <=? r) && (r <=? Hi range_) then Ret (in_stride range_ r)
        else if r <? Lo range_ then is16_search fuel ranges r lo m else is16_search fuel ranges r (m + 1) hi
    end
  else Ret false.
Definition is16 (ranges : list Range16) (r : Z) : go bool :=
  if (zlen ranges <=? linearMax) || (r <=? MaxLatin1) then Ret (is16_linear ranges r) else is16_search (length ranges) ranges r 0 (zlen ranges).
(** [isExcludingLatin] of a table without 32-bit ranges. *)
Definition isExcludingLatin (rangeTab : RangeTable) (r : Z) : go bool :=
  let r16 := R16 rangeTab in
  let off := LatinOffset rangeTab in
  in16 ← go_and (Ret (off <? zlen r16)) (last ← index r16 (zlen r16 - 1); Ret (uint32 r <=? Hi last));
  if (in16 : bool) then s ← slice_from r16 off; is16 s (uint_wrap 16 r) else Ret false.
Definition latin1_spaces : list Z := [9; 10; 11; 12; 13; 32; 0x85; 0xA0].
Definition IsSpace (r : Z) : go bool :=
  if uint32 r <=? MaxLatin1 then Ret (bool_decide (r ∈ latin1_spaces)) else isExcludingLatin White_Space r.
(** [IsSpace] of [internal/stringslite]. *)
Definition stringslite_spaces : list Z :=
  [9; 10; 11; 12; 13; 32; 0x0085; 0x00A0; 0x1680; 0x2000; 0x2001; 0x2002; 0x2003; 0x2004; 0x2005; 0x2006; 0x2007; 0x2008; 0x2009; 0x200A; 0x2028; 0x2029; 0x202F; 0x205F; 0x3000].
Definition stringslite_IsSpace (r : Z) : bool := bool_decide (r ∈ stringslite_spaces).
(** The table of the ASCII fast paths. *)
Definition asciiSpace : list Z := <[9%nat := 1]> (<[10%nat := 1]> (<[11%nat := 1]> (<[12%nat := 1]> (<[13%nat := 1]> (<[32%nat := 1]> (replicate 256 0)))))).

(** ** Trimming *)
Definition DecodeLastRuneInString (s : gostring) : go (Z * Z) :=
  let end_ := zlen s in
  if end_ =? 0 then Ret (RuneError, 0)
  else
    let start := end_ - 1 in
    r ← index s start;
    if r <? RuneSelf then Ret (r, 1)
    else
      let lim := Z.max (end_ - UTFMax) 0 in
      start ← last_start 4 s (start - 1) lim;
      let start := if start <? 0 then 0 else start in
      q ← slice s start end_;
      '(r, size) ← DecodeRuneInString q;
      if negb (start + size =? end_) then Ret (RuneError, 1) else Ret (r, size).
Fixpoint trimRight_loop (fuel : nat) (s : gostring) : go gostring :=
  if 0 <? zlen s then
    match fuel with
    | O => OutOfFuel
    | S fuel =>
        b ← index s (zlen s - 1);
        '(r, n) ← (if RuneSelf <=? b then DecodeLastRuneInString s else Ret (b, 1));
        if negb (stringslite_IsSpace r) then Ret s else s ← slice_to s (zlen s - n); trimRight_loop fuel s
    end
  else Ret s.
Definition trimRightSpaceUnicode (s : gostring) : go gostring := trimRight_loop (length s) s.
Fixpoint trimLeft_loop (fuel : nat) (s : gostring) : go gostring :=
  if 0 <? zlen s then
    match fuel with
    | O => OutOfFuel
    | S fuel => '(r, n) ← DecodeRuneInString s; if negb (stringslite_IsSpace r) then Ret s else s ← slice_from s n; trimLeft_loop fuel s
    end
  else Ret s.
Definition trimSpaceUnicode (s : gostring) : go gostring := s ← trimLeft_loop (length s) s; trimRightSpaceUnicode s.
(** The loop from the end: what it returns, if it does. *)
Fixpoint trim_hi (fuel : nat) (s : gostring) (hi : Z) : go (option gostring) :=
  if 0 <=? hi then
    match fuel with
    | O => OutOfFuel
    | S fuel =>
        c ← index s hi;
        if RuneSelf <=? c then s ← slice_to s (hi + 1); r ← trimRightSpaceUnicode s; Ret (Some r)
        else sp ← index asciiSpace c; if sp =? 0 then s ← slice_to s (hi + 1); Ret (Some s) else trim_hi fuel s (hi - 1)
    end
  else Ret None.
(** [for lo, c := range []byte(s)]: the bytes are those of the argument, while [s] changes. *)
Fixpoint trim_lo (bytes s : gostring) (lo : Z) : go gostring :=
  match bytes with
  | [] => Ret []
  | c :: bytes =>
      if RuneSelf <=? c then s ← slice_from s lo; trimSpaceUnicode s
      else
        sp ← index asciiSpace c;
        if negb (sp =? 0) then trim_lo bytes s (lo + 1)
        else
          s ← slice_from s lo;
          r ← trim_hi (length s) s (zlen s - 1);
          match r with Some r => Ret r | None => trim_lo bytes s (lo + 1) end
  end.
Definition TrimSpace (s : gostring) : go gostring := trim_lo s s 0.

(** ** Fields *)

(** The numbers that the first pass computes: [n], [wasSpace], [setBits]. *)
Fixpoint count_fields (s : gostring) (n wasSpace setBits : Z) : go (Z * Z) :=
  match s with
  | [] => Ret (n, setBits)
  | r :: s => isSpace ← index asciiSpace r; count_fields s (n + Z.land wasSpace (Z.lnot isSpace)) isSpace (Z.lor setBits r)
  end.
Fixpoint skip_spaces (fuel : nat) (s : gostring) (i : Z) : go Z :=
  space ← go_and (Ret (i <? zlen s)) (b ← index s i; sp ← index asciiSpace b; Ret (negb (sp =? 0)));
  if (space : bool) then match fuel with O => OutOfFuel | S fuel => skip_spaces fuel s (i + 1) end else Ret i.
Fixpoint fields_loop (fuel : nat) (s : gostring) (a : list gostring) (na fieldStart i : Z) : go (list gostring * Z * Z) :=
  if i <? zlen s then
    match fuel with
    | O => OutOfFuel
    | S fuel =>
        b ← index s i;
        sp ← index asciiSpace b;
        if sp =? 0 then fields_loop fuel s a na fieldStart (i + 1)
        else
          field ← slice s fieldStart i;
          a ← store a na field;
          i ← skip_spaces (length s) s (i + 1);
          fields_loop fuel s a (na + 1) i i
    end
  else Ret (a, na, fieldStart).
Fixpoint spans_loop (fuel : nat) (f : Z -> go bool) (s : gostring) (end_ start : Z) (spans : list (Z * Z)) : go (Z * list (Z * Z)) :=
  if end_ <? zlen s then
    match fuel with
    | O => OutOfFuel
    | S fuel =>
        q ← slice_from s end_;
        '(rune, width) ← DecodeRuneInString q;
        space ← f rune;
        let '(start, spans) :=
          if (space : bool) then if 0 <=? start then (Z.lnot start, spans ++ [(start, end_)]) else (start, spans)
          else if start <? 0 then (end_, spans) else (start, spans) in
        spans_loop fuel f s (end_ + width) start spans
    end
  else Ret (start, spans).
Fixpoint strings_loop (s : gostring) (spans : list (Z * Z)) (i : Z) (a : list gostring) : go (list gostring) :=
  match spans with
  | [] => Ret a
  | (start, end_) :: spans => w ← slice s start end_; a ← store a i w; strings_loop s spans (i + 1) a
  end.
Definition FieldsFunc (s : gostring) (f : Z -> go bool) : go (list gostring) :=
  '(start, spans) ← spans_loop (length s) f s 0 (-1) [];
  let spans := if 0 <=? start then spans ++ [(start, zlen s)] else spans in
  a ← make_slice [] (zlen spans);
  strings_loop s spans 0 a.
Definition Fields (s : gostring) : go (list gostring) :=
  '(n, setBits) ← count_fields s 0 1 0;
  if RuneSelf <=? setBits then FieldsFunc s IsSpace
  else
    a ← make_slice [] n;
    i ← skip_spaces (length s) s 0;
    '(a, na, fieldStart) ← fields_loop (length s) s a 0 i i;
    if fieldStart <? zlen s then field ← slice_from s fieldStart; store a na field else Ret a.

Example words_run : Fields (str "  ab c" ++ [0xC2; 0xA0] ++ str "d ") = Ret [str "ab"; str "c"; str "d"] /\ Fields (str "ab  c ") = Ret [str "ab"; str "c"] /\
  TrimSpace ([10] ++ str " a b" ++ [0xE3; 0x80; 0x80; 32]) = Ret (str "a b").
Proof. vm_compute. done. Qed.

(** ** Pieces *)

(** The rune that the decoder reads for a piece, and whether it is white space. *)
Definition rune_of (e : gostring) : Z := if utf8_char e then utf8_value e else RuneError.
Definition space_piece (e : gostring) : bool := stringslite_IsSpace (rune_of e).

Lemma bad_piece b s : utf8_prefix (b :: s) = None -> utf8_char [b] = false.
Proof. intros Hn. destruct (utf8_char [b]) eqn:Hc; [|done]. by rewrite (utf8_prefix_char [b] s Hc : utf8_prefix (b :: s) = _) in Hn. Qed.
Lemma pieces_cons_inv s e es : pieces s (e :: es) -> is_gostring s ->
  e <> [] /\ DecodeRuneInString s = Ret (rune_of e, zlen e) /\ exists s', s = e ++ s' /\ pieces s' es.
Proof.
  intros Hp Hs. inversion Hp as [|e' s' es' He Hp'|b s' es' Hb Hp']; subst; rewrite utf8_decode_spec by done; unfold rune_of.
  - rewrite utf8_prefix_char, He by done. destruct e as [|b e]; [done|]. split; [done|]. split; [done|]. by exists s'.
  - rewrite Hb, (bad_piece b s' Hb). split; [done|]. split; [done|]. by exists s'.
Qed.
Lemma pieces_unique s es es' : pieces s es -> pieces s es' -> es = es'.
Proof.
  intros H. revert es'. induction H as [|e s es He Hp IH|b s es Hb Hp IH]; intros es' H'.
  - inversion H' as [|e ? ? He Hp Heq|]; [done|]. destruct e; [done|done].
  - inversion H' as [Hnil|e' s' es'' He' Hp' Heq|b s' es'' Hb Hp' Heq]; [destruct e; done| |].
    + pose proof (utf8_prefix_char e s He) as E. rewrite <- Heq, utf8_prefix_char in E by done. injection E as ->. apply app_inv_head in Heq as ->. f_equal. by apply IH.
    + rewrite Heq in Hb. by rewrite utf8_prefix_char in Hb.
  - inversion H' as [|e' s' es'' He' Hp' Heq|b' s' es'' Hb' Hp']; [|by f_equal; apply IH]. rewrite <- Heq in Hb. by rewrite utf8_prefix_char in Hb.
Qed.
Lemma utf8_prefix_app_None b s t : utf8_prefix (b :: s ++ t) = None -> utf8_prefix (b :: s) = None.
Proof.
  intros Hn. destruct (utf8_prefix (b :: s)) as [e|] eqn:He; [|done]. apply utf8_prefix_Some in He as [He [rest Hr]].
  change (b :: s ++ t) with ((b :: s) ++ t) in Hn. rewrite Hr, <- app_assoc in Hn. by rewrite utf8_prefix_char in Hn.
Qed.
Lemma pieces_app_inv s es1 es2 : pieces s (es1 ++ es2) -> s = concat es1 ++ concat es2 /\ pieces (concat es1) es1 /\ pieces (concat es2) es2.
Proof.
  revert s. induction es1 as [|e es1 IH]; intros s Hp; cbn [app concat] in *.
  - rewrite (proj1 (pieces_valid s es2 Hp)). split_and!; [done|constructor|done].
  - inversion Hp as [|e' s' es' He Hp'|b s' es' Hb Hp']; subst; destruct (IH s' Hp') as (Hs & H1 & H2); (split_and!; [by rewrite Hs, ?app_assoc| |done]).
    + by constructor.
    + apply (pieces_bad b); [|done]. rewrite Hs in Hb. by eapply utf8_prefix_app_None.
Qed.

(** A code point at the end of a text is its last piece. *)
Lemma char_tail_bytes b e x : utf8_char (b :: e) = true -> x ∈ e -> tail_byte x = true.
Proof.
  intros He Hx. pose proof (utf8_char_bytes _ He) as Hb. apply list_elem_of_lookup in Hx as [n Hn].
  pose proof (char_starts (b :: e) Hb He) as Hst. destruct e as [|c e]; [done|]. specialize (Hst ltac:(rewrite !zlen_cons; pose proof (zlen_nonneg e); lia) (S n) x Hn).
  rewrite bool_decide_eq_false_2 in Hst by done. rewrite utf8_RuneStart in Hst by (apply (Forall_lookup_1 _ _ (S n) x Hb Hn)). by apply negb_false_iff in Hst.
Qed.
Lemma char_head_byte b e : utf8_char (b :: e) = true -> tail_byte b = false.
Proof.
  intros He. unfold tail_byte. destruct e as [|c e].
  - rewrite utf8_char_1 in He. lia.
  - rewrite utf8_char_lead in He by done. destruct (lead_info b) as [[[w l] h]|] eqn:El; [|done]. apply utf8_lead_range in El. lia.
Qed.
Lemma pieces_suffix_char s es p e : pieces s es -> s = p ++ e -> utf8_char e = true -> exists es', es = es' ++ [e].
Proof.
  intros Hp. revert p. induction Hp as [|c s es Hc Hp IH|b s es Hb Hp IH]; intros p Heq He.
  - destruct p, e; done.
  - apply app_eq_app in Heq as (m & [[-> ->]|[-> ->]]).
    + destruct m as [|x m]; cbn [app] in *.
      { destruct p as [|y p]; [done|]. destruct (IH [] eq_refl He) as [es' ->]. by eexists (_ :: es'). }
      destruct p as [|y p].
      * assert (pieces ((x :: m) ++ s) [(x :: m) ++ s]) as H1 by (pose proof (pieces_char ((x :: m) ++ s) [] [] He pieces_nil) as H1; by rewrite app_nil_r in H1).
        assert (pieces ((x :: m) ++ s) ((x :: m) :: es)) as H2 by (by constructor). pose proof (pieces_unique _ _ _ H1 H2) as E. injection E as E E'. subst es. exists []. cbn. by rewrite E.
      * exfalso. pose proof (char_head_byte _ _ He) as Hh. rewrite (char_tail_bytes y (p ++ x :: m) x) in Hh; [done|done|]. rewrite elem_of_app, elem_of_cons. by right; left.
    + destruct (IH m eq_refl He) as [es' ->]. by exists (c :: es').
  - destruct p as [|y p]; cbn [app] in Heq.
    + subst e. pose proof (utf8_prefix_char (b :: s) [] He) as E. rewrite app_nil_r in E. congruence.
    + injection Heq as <- ->. destruct (IH p eq_refl He) as [es' ->]. by exists ([b] :: es').
Qed.
Lemma DecodeLast_same s : DecodeLastRuneInString s = DecodeLastRune s.
Proof.
  unfold DecodeLastRuneInString, DecodeLastRune. destruct (_ =? _); [done|]. destruct (index s (zlen s - 1)) as [r| |]; [|done..]. rewrite !bind_ret. destruct (r <? RuneSelf); [done|].
  destruct (last_start _ _ _ _) as [k| |]; [|done..]. rewrite !bind_ret. destruct (slice _ _ _) as [q| |]; [|done..]. by rewrite !bind_ret, DecodeRune_string.
Qed.
Lemma pieces_last s es e : pieces s (es ++ [e]) -> is_gostring s -> DecodeLastRuneInString s = Ret (rune_of e, zlen e).
Proof.
  intros Hp Hs. destruct (pieces_app_inv s es [e] Hp) as (Heq & _ & He). cbn [concat] in *. rewrite app_nil_r in *. rewrite DecodeLast_same. unfold rune_of. destruct (utf8_char e) eqn:Hc.
  - rewrite Heq in *. by apply DecodeLastRune_char.
  - assert (zlen e = 1) as Hl. { inversion He as [|e' s' es' He' Hp'|b s' es' Hb Hp']; subst; [congruence|]. by inversion Hp'; subst. }
    rewrite Hl. apply DecodeLastRune_invalid; [done|intros ->; apply (f_equal length) in Heq; rewrite length_app in Heq; unfold zlen in Hl; cbn in Heq; lia|].
    intros p q Hpq. destruct (utf8_char q) eqn:Hq; [|done]. destruct (pieces_suffix_char s (es ++ [e]) p q Hp Hpq Hq) as [es' E]. apply app_inj_tail in E as [_ ->]. congruence.
Qed.

(** *** ASCII *)
Lemma ascii_piece_head b s es : is_gostring (b :: s) -> b < RuneSelf -> pieces (b :: s) es -> exists es', es = [b] :: es' /\ pieces s es'.
Proof.
  intros Hs Hb Hp. assert (utf8_char [b] = true) as Hc by (inversion_clear Hs; by apply ascii_char). inversion Hp as [|e s' es' He Hp' Heq|b' s' es' Hb' Hp']; subst.
  - pose proof (utf8_prefix_char [b] s Hc) as E. cbn [app] in E. rewrite <- Heq, utf8_prefix_char in E by done. injection E as ->. injection Heq as ->. by exists es'.
  - by exists es'.
Qed.
Lemma ascii_piece_last p b es : is_gostring (p ++ [b]) -> b < RuneSelf -> pieces (p ++ [b]) es -> exists es', es = es' ++ [[b]] /\ pieces p es'.
Proof.
  intros Hs Hb Hp. assert (utf8_char [b] = true) as Hc by (apply Forall_app in Hs as [_ Hs]; inversion_clear Hs; by apply ascii_char).
  destruct (pieces_suffix_char _ es p [b] Hp eq_refl Hc) as [es' ->]. destruct (pieces_app_inv _ _ _ Hp) as (Heq & H1 & _). cbn [concat app] in Heq. apply app_inj_tail in Heq as [-> _]. by exists es'.
Qed.
Lemma rune_of_ascii b : is_byte b -> b < RuneSelf -> rune_of [b] = b.
Proof. intros Hb Ha. unfold rune_of. by rewrite ascii_char. Qed.
Lemma asciiSpace_spec b : is_byte b -> index asciiSpace b = Ret (if (b <? RuneSelf) && stringslite_IsSpace b then 1 else 0).
Proof.
  intros Hb. assert (match index asciiSpace b with Ret x => x =? (if (b <? RuneSelf) && stringslite_IsSpace b then 1 else 0) | _ => false end = true) as H by (revert b Hb; apply byte_forall; vm_compute; reflexivity).
  destruct (index asciiSpace b); [f_equal; lia|done..].
Qed.
Lemma range_forall (n : Z) (P : Z -> bool) : forallb P (map Z.of_nat (seq 0 (Z.to_nat n))) = true -> forall r, 0 <= r < n -> P r = true.
Proof. intros H r Hr. rewrite forallb_forall in H. apply H, in_map_iff. exists (Z.to_nat r). split; [lia|]. apply in_seq. lia. Qed.
(** The table of package [unicode] and the list of [stringslite] agree. *)
Lemma IsSpace_spec r : 0 <= r <= MaxRune -> IsSpace r = Ret (stringslite_IsSpace r).
Proof.
  unfold MaxRune. intros Hr. destruct (Z.leb_spec r 0x3000).
  - assert (match IsSpace r with Ret b => Bool.eqb b (stringslite_IsSpace r) | _ => false end = true) as E.
    { apply (range_forall 12289 (fun r => match IsSpace r with Ret b => Bool.eqb b (stringslite_IsSpace r) | _ => false end)); [vm_compute; reflexivity|lia]. }
    destruct (IsSpace r) as [b| |]; [|done..]. f_equal. by apply (proj1 (eqb_true_iff _ _)) in E.
  - unfold IsSpace, isExcludingLatin, stringslite_IsSpace, MaxLatin1, uint32. rewrite uint_wrap_id, (proj2 (Z.leb_gt r 255)) by lia. cbn [White_Space R16 LatinOffset].
    change (zlen _) with 7. change (2 <? 7) with true. cbn [go_and]. change (index _ (7 - 1)) with (Ret (MkRange16 0x3000 0x3000 1)). rewrite bind_ret. cbn [Hi]. rewrite (proj2 (Z.leb_gt r _)), bind_ret by lia.
    rewrite bool_decide_eq_false_2; [done|]. intros Hin. assert (Forall (fun x => x <= 0x3000) stringslite_spaces) as Hall by (by apply (bool_decide_unpack _); vm_compute). rewrite Forall_forall in Hall. specialize (Hall r Hin). lia.
Qed.
Lemma rune_of_range e : 0 <= rune_of e <= MaxRune.
Proof. unfold rune_of. destruct (utf8_char e) eqn:He; [by apply utf8_value_range|]. unfold RuneError, MaxRune. lia. Qed.

(** ** Trimming: the pieces at both ends that are white space are dropped *)
Fixpoint drop_spaces (es : list gostring) : list gostring :=
  match es with e :: es' => if space_piece e then drop_spaces es' else es | [] => [] end.
Definition drop_spaces_end (es : list gostring) : list gostring := reverse (drop_spaces (reverse es)).
Definition trimmed (es : list gostring) : gostring := concat (drop_spaces_end (drop_spaces es)).

Lemma drop_spaces_end_snoc es e : drop_spaces_end (es ++ [e]) = if space_piece e then drop_spaces_end es else es ++ [e].
Proof. unfold drop_spaces_end. rewrite reverse_snoc. cbn [drop_spaces]. destruct (space_piece e); [done|]. by rewrite reverse_cons, reverse_involutive. Qed.
Lemma drop_spaces_suffix es : exists es1, es = es1 ++ drop_spaces es.
Proof. induction es as [|e es [es1 IH]]; [by exists []|]. cbn [drop_spaces]. destruct (space_piece e); [|by exists []]. exists (e :: es1). cbn. by rewrite <- IH. Qed.

Lemma trimLeft_spec fuel s es : pieces s es -> is_gostring s -> (length s <= fuel)%nat -> trimLeft_loop fuel s = Ret (concat (drop_spaces es)).
Proof.
  revert s es. induction fuel as [|fuel IH]; intros s es Hp Hs Hf; (destruct es as [|e es]; [inversion Hp; subst; done|]); destruct (pieces_cons_inv s e es Hp Hs) as (Hne & Hd & s' & -> & Hp').
  all: rewrite length_app in Hf; (destruct e as [|b e]; [done|]); cbn [length] in Hf.
  { lia. }
  cbn [trimLeft_loop]. rewrite zlen_app, zlen_cons. pose proof (zlen_nonneg e). pose proof (zlen_nonneg s'). rewrite (proj2 (Z.ltb_lt _ _)) by lia.
  rewrite Hd, bind_ret. cbv beta iota. cbn [drop_spaces]. unfold space_piece. destruct (stringslite_IsSpace (rune_of (b :: e))); cbn [negb].
  - rewrite slice_from_app_r, bind_ret. apply IH; [done|by apply Forall_app in Hs as [_ ?]|lia].
  - by rewrite (proj1 (pieces_valid _ _ Hp)).
Qed.
Lemma piece_nonempty s e es : pieces s (e :: es) -> e <> [].
Proof. inversion 1; subst; [by intros ->|done]. Qed.
Lemma slice_to_front (s t : gostring) : slice_to (s ++ t) (zlen s) = Ret s.
Proof. exact (slice_app_mid [] s t). Qed.
Lemma last_index (s : gostring) b : index (s ++ [b]) (zlen (s ++ [b]) - 1) = Ret b.
Proof. rewrite zlen_app. change (zlen [b]) with 1. replace (zlen s + 1 - 1) with (zlen s + 0) by lia. by rewrite index_app_r by lia. Qed.
Lemma trimRight_spec fuel s es : pieces s es -> is_gostring s -> (length s <= fuel)%nat -> trimRight_loop fuel s = Ret (concat (drop_spaces_end es)).
Proof.
  revert s es. induction fuel as [|fuel IH]; intros s es Hp Hs Hf; (destruct es as [|e es _] using rev_ind; [inversion Hp; subst; done|]); destruct (pieces_app_inv s es [e] Hp) as (-> & Hp1 & He); cbn [concat] in *; rewrite app_nil_r in *.
  all: assert (exists b e', e = e' ++ [b]) as (b & e' & Hlast) by (destruct e as [|b e' _] using rev_ind; [by destruct (piece_nonempty _ _ _ He)|by exists b, e']).
  all: assert (1 <= zlen e) as Hle by (rewrite Hlast, zlen_app; change (zlen [b]) with 1; pose proof (zlen_nonneg e'); lia); rewrite length_app in Hf; unfold zlen in Hle.
  { lia. }
  cbn [trimRight_loop]. rewrite (proj2 (Z.ltb_lt _ _)) by (rewrite zlen_app; pose proof (zlen_nonneg (concat es)); unfold zlen in *; lia).
  assert (index (concat es ++ e) (zlen (concat es ++ e) - 1) = Ret b) as Hb by (rewrite Hlast, app_assoc; apply last_index). rewrite Hb, bind_ret.
  assert ((if RuneSelf <=? b then DecodeLastRuneInString (concat es ++ e) else Ret (b, 1)) = Ret (rune_of e, zlen e)) as ->.
  { destruct (Z.leb_spec RuneSelf b) as [|Hlt]; [by apply (pieces_last _ es e)|]. rewrite Hlast, app_assoc in Hp, Hs. destruct (ascii_piece_last _ b _ Hs Hlt Hp) as (es' & E & _). apply app_inj_tail in E as [_ E]. rewrite <- Hlast in E. rewrite E.
    rewrite rune_of_ascii; [done| |done]. apply Forall_app in Hs as [_ Hs]. by inversion_clear Hs. }
  rewrite bind_ret. cbv beta iota. rewrite drop_spaces_end_snoc. unfold space_piece. destruct (stringslite_IsSpace (rune_of e)); cbn [negb].
  - replace (zlen (concat es ++ e) - zlen e) with (zlen (concat es)) by (rewrite zlen_app; lia). rewrite slice_to_front, bind_ret. apply IH; [done|by apply Forall_app in Hs as [? _]|lia].
  - rewrite concat_app. cbn. by rewrite app_nil_r.
Qed.
Lemma trimSpaceUnicode_spec s es : pieces s es -> is_gostring s -> trimSpaceUnicode s = Ret (trimmed es).
Proof.
  intros Hp Hs. unfold trimSpaceUnicode, trimRightSpaceUnicode. rewrite (trimLeft_spec (length s) s es Hp Hs), bind_ret by lia. destruct (drop_spaces_suffix es) as [es1 E]. rewrite E in Hp.
  destruct (pieces_app_inv _ _ _ Hp) as (Heq & _ & Hp2). apply trimRight_spec; [done| |lia]. rewrite Heq in Hs. by apply Forall_app in Hs as [_ ?].
Qed.

(** The loop from the end, on a text that starts with a piece that is kept. *)
Lemma trim_hi_spec es e0 es0 t fuel : es = e0 :: es0 -> space_piece e0 = false -> pieces (concat es) es -> is_gostring (concat es ++ t) -> (length (concat es) <= fuel)%nat ->
  trim_hi fuel (concat es ++ t) (zlen (concat es) - 1) = Ret (Some (concat (drop_spaces_end es))).
Proof.
  revert es0 t fuel. induction es as [|e es IH] using rev_ind; intros es0 t fuel Heq Hkept Hp Hs Hf; [done|].
  destruct (pieces_app_inv _ es [e] Hp) as (_ & Hp1 & He). cbn [concat] in He. rewrite app_nil_r in He. rewrite concat_app in *. cbn [concat] in *. rewrite app_nil_r in *.
  assert (exists b e', e = e' ++ [b]) as (b & e' & Hlast) by (destruct e as [|b e' _] using rev_ind; [by destruct (piece_nonempty _ _ _ He)|by exists b, e']).
  assert (1 <= zlen e) as Hle by (rewrite Hlast, zlen_app; change (zlen [b]) with 1; pose proof (zlen_nonneg e'); lia). rewrite length_app in Hf. unfold zlen in Hle. destruct fuel as [|fuel]; [lia|].
  cbn [trim_hi]. pose proof (zlen_nonneg (concat es)). rewrite (proj2 (Z.leb_le 0 _)) by (rewrite zlen_app; unfold zlen in *; lia).
  assert (index ((concat es ++ e) ++ t) (zlen (concat es ++ e) - 1) = Ret b) as ->.
  { rewrite Hlast, app_assoc, <- app_assoc. cbn [app]. rewrite zlen_app. change (zlen [b]) with 1. replace (zlen (concat es ++ e') + 1 - 1) with (zlen (concat es ++ e') + 0) by lia. by rewrite index_app_r by lia. }
  rewrite bind_ret. replace (zlen (concat es ++ e) - 1 + 1) with (zlen (concat es ++ e)) by lia. assert (is_gostring (concat es ++ e)) as Hs' by (by apply Forall_app in Hs as [? _]).
  destruct (Z.leb_spec RuneSelf b) as [|Hlt].
  { rewrite slice_to_front, bind_ret. unfold trimRightSpaceUnicode. by rewrite (trimRight_spec _ _ (es ++ [e]) Hp Hs') by lia. }
  assert (is_byte b) as Hbyte by (rewrite Hlast, app_assoc in Hs'; apply Forall_app in Hs' as [_ Hs']; by inversion_clear Hs'). rewrite asciiSpace_spec, bind_ret by done. rewrite (proj2 (Z.ltb_lt b RuneSelf)) by done. cbn [andb].
  assert (e = [b]) as ->. { pose proof Hp as Hp0. rewrite Hlast, app_assoc in Hp0. rewrite Hlast, app_assoc in Hs'. destruct (ascii_piece_last _ b _ Hs' Hlt Hp0) as (es' & E & _). apply app_inj_tail in E as [_ E]. by rewrite <- Hlast in E. }
  rewrite drop_spaces_end_snoc. unfold space_piece. rewrite rune_of_ascii by done. destruct (stringslite_IsSpace b) eqn:Hsp; cbn [Z.eqb].
  - destruct es as [|e1 es]; [cbn [app] in Heq; injection Heq as <- _; unfold space_piece in Hkept; rewrite rune_of_ascii in Hkept by done; congruence|]. cbn [app] in Heq. injection Heq as <- <-.
    rewrite <- app_assoc. replace (zlen (concat (e1 :: es) ++ [b]) - 1 - 1) with (zlen (concat (e1 :: es)) - 1) by (rewrite zlen_app; change (zlen [b]) with 1; lia).
    apply (IH es); [done|done|done|by rewrite <- app_assoc in Hs|cbn [length] in Hf; lia].
  - rewrite slice_to_front, bind_ret. rewrite concat_app. cbn [concat]. by rewrite app_nil_r.
Qed.
Lemma trim_lo_spec bytes a es : Forall ascii a -> pieces bytes es -> is_gostring (a ++ bytes) -> trim_lo bytes (a ++ bytes) (zlen a) = Ret (trimmed es).
Proof.
  revert a es. induction bytes as [|c bytes IH]; intros a es Ha Hp Hs.
  { inversion Hp as [|e ? ? He _ Heq|]; [done|]. destruct e; done. }
  cbn [trim_lo]. assert (is_gostring (c :: bytes)) as Hs' by (by apply Forall_app in Hs as [_ ?]). assert (is_byte c) as Hc by (by inversion_clear Hs'). destruct (Z.leb_spec RuneSelf c) as [|Hlt].
  { rewrite slice_from_app_r, bind_ret. by apply trimSpaceUnicode_spec. }
  rewrite asciiSpace_spec, bind_ret by done. rewrite (proj2 (Z.ltb_lt c RuneSelf)) by done. cbn [andb]. destruct (ascii_piece_head c bytes es Hs' Hlt Hp) as (es' & -> & Hp'). unfold trimmed. cbn [drop_spaces].
  assert (space_piece [c] = stringslite_IsSpace c) as E by (unfold space_piece; by rewrite rune_of_ascii). rewrite E. destruct (stringslite_IsSpace c); cbn [Z.eqb negb].
  - specialize (IH (a ++ [c]) es'). rewrite <- app_assoc in IH. cbn [app] in IH. replace (zlen a + 1) with (zlen (a ++ [c])) by (rewrite zlen_app; done). apply IH; [|done|done]. apply Forall_app. split; [done|by constructor].
  - rewrite slice_from_app_r, bind_ret. pose proof (proj1 (pieces_valid _ _ Hp)) as Hcat. pose proof (trim_hi_spec ([c] :: es') [c] es' [] (length (c :: bytes)) eq_refl E) as Hhi. rewrite app_nil_r in Hhi. rewrite Hcat in Hhi.
    rewrite Hhi by (done || lia). by rewrite bind_ret.
Qed.
Lemma TrimSpace_spec s es : pieces s es -> is_gostring s -> TrimSpace s = Ret (trimmed es).
Proof. intros Hp Hs. by apply (trim_lo_spec s [] es). Qed.

(** ** Words: the maximal runs of pieces that are not white space *)
Fixpoint words (cur es : list gostring) : list (list gostring) :=
  match es with
  | [] => match cur with [] => [] | _ => [cur] end
  | e :: es => if space_piece e then match cur with [] => words [] es | _ => cur :: words [] es end else words (cur ++ [e]) es
  end.
Definition fields_of (es : list gostring) : list gostring := map (@concat Z) (words [] es).
Definition is_span (s : gostring) (span : Z * Z) (w : list gostring) : Prop := slice s span.1 span.2 = Ret (concat w).

Lemma spans_loop_spec f (Hf : forall r, 0 <= r <= MaxRune -> f r = Ret (stringslite_IsSpace r)) s es : is_gostring s -> forall fuel pre q start cur spans,
  s = pre ++ q -> pieces q es -> (length q <= fuel)%nat -> (start < 0 /\ cur = []) \/ (exists p0, start = zlen p0 /\ pre = p0 ++ concat cur /\ cur <> []) ->
  exists start' new, spans_loop fuel f s (zlen pre) start spans = Ret (start', spans ++ new) /\
    Forall2 (is_span s) (if 0 <=? start' then new ++ [(start', zlen s)] else new) (words cur es).
Proof.
  intros Hs. induction es as [|e es IH]; intros fuel pre q start cur spans Heq Hp Hfuel Hcur.
  - inversion Hp; subst. rewrite app_nil_r in *. exists start, []. split; [rewrite app_nil_r; destruct fuel; cbn [spans_loop]; by rewrite Z.ltb_irrefl|]. cbn [words app].
    destruct Hcur as [[Hlt ->]|(p0 & -> & -> & Hne)].
    + by rewrite (proj2 (Z.leb_gt _ _)) by lia.
    + rewrite (proj2 (Z.leb_le _ _)) by apply zlen_nonneg. destruct cur as [|e cur]; [done|]. constructor; [|done]. unfold is_span. cbn [fst snd]. rewrite zlen_app.
      pose proof (slice_app_mid p0 (concat (e :: cur)) []) as E. by rewrite app_nil_r in E.
  - assert (is_gostring q) as Hq by (subst s; by apply Forall_app in Hs as [_ ?]). destruct (pieces_cons_inv q e es Hp Hq) as (Hne & Hd & q' & -> & Hp').
    assert (1 <= zlen e) as Hl by (destruct e; [done|rewrite zlen_cons; pose proof (zlen_nonneg e); lia]). rewrite length_app in Hfuel. unfold zlen in Hl. destruct fuel as [|fuel]; [lia|]. cbn [spans_loop].
    rewrite (proj2 (Z.ltb_lt (zlen pre) (zlen s))) by (subst s; rewrite !zlen_app; pose proof (zlen_nonneg q'); unfold zlen in *; lia).
    assert (slice_from s (zlen pre) = Ret (e ++ q')) as -> by (subst s; apply slice_from_app_r). rewrite bind_ret, Hd, bind_ret. cbv beta iota. rewrite Hf, bind_ret by apply rune_of_range. cbn [words]. unfold space_piece.
    assert (forall start cur spans, (start < 0 /\ cur = []) \/ (exists p0, start = zlen p0 /\ pre ++ e = p0 ++ concat cur /\ cur <> []) ->
      exists start' new, spans_loop fuel f s (zlen pre + zlen e) start spans = Ret (start', spans ++ new) /\ Forall2 (is_span s) (if 0 <=? start' then new ++ [(start', zlen s)] else new) (words cur es)) as Hnext.
    { intros start1 cur1 spans1 H1. rewrite <- zlen_app. apply (IH fuel (pre ++ e) q'); [by rewrite <- app_assoc|done|lia|done]. }
    destruct (stringslite_IsSpace (rune_of e)).
    + destruct Hcur as [[Hlt ->]|(p0 & -> & Hpre & Hcur)].
      * rewrite (proj2 (Z.leb_gt 0 start)) by lia. apply Hnext. by left.
      * pose proof (zlen_nonneg p0). rewrite (proj2 (Z.leb_le 0 _)) by lia. destruct (Hnext (Z.lnot (zlen p0)) [] (spans ++ [(zlen p0, zlen pre)])) as (start' & new & -> & Hall); [left; split; [unfold Z.lnot; lia|done]|].
        exists start', ((zlen p0, zlen pre) :: new). split; [by rewrite <- app_assoc|]. destruct cur as [|c cur]; [done|]. destruct (0 <=? start'); cbn [app]; (constructor; [|done]).
        all: unfold is_span; cbn [fst snd]; rewrite Heq, Hpre, <- app_assoc, zlen_app; apply slice_app_mid.
    + destruct Hcur as [[Hlt ->]|(p0 & -> & Hpre & Hcur)].
      * rewrite (proj2 (Z.ltb_lt start 0)) by done. apply Hnext. right. exists pre. split_and!; [done|cbn; by rewrite app_nil_r|done].
      * pose proof (zlen_nonneg p0). rewrite (proj2 (Z.ltb_ge _ 0)) by lia. apply Hnext. right. exists p0. split_and!; [done|rewrite Hpre, concat_app; cbn; by rewrite app_nil_r, app_assoc|by destruct cur].
Qed.
Lemma store_next {A} (done_ : list A) zero n x : store (done_ ++ replicate (S n) zero) (zlen done_) x = Ret ((done_ ++ [x]) ++ replicate n zero).
Proof.
  pose proof (zlen_nonneg done_). rewrite store_in_range by (rewrite zlen_app; cbn [replicate]; rewrite zlen_cons; pose proof (zlen_nonneg (replicate n zero)); lia).
  unfold zlen. rewrite Nat2Z.id, insert_app_r_alt, Nat.sub_diag by lia. cbn. by rewrite <- app_assoc.
Qed.
Lemma strings_loop_spec s spans ws done_ : Forall2 (is_span s) spans ws -> strings_loop s spans (zlen done_) (done_ ++ replicate (length spans) []) = Ret (done_ ++ map (@concat Z) ws).
Proof.
  intros H. revert done_. induction H as [|[start end_] w spans ws Hw _ IH]; intros done_; cbn [strings_loop length map]; [cbn [replicate]; by rewrite !app_nil_r|]. unfold is_span in Hw. cbn [fst snd] in Hw. rewrite Hw, bind_ret, store_next, bind_ret.
  specialize (IH (done_ ++ [concat w])). rewrite zlen_app in IH. change (zlen [concat w]) with 1 in IH. rewrite IH. by rewrite <- app_assoc.
Qed.
Lemma FieldsFunc_spec f (Hf : forall r, 0 <= r <= MaxRune -> f r = Ret (stringslite_IsSpace r)) s es : pieces s es -> is_gostring s -> FieldsFunc s f = Ret (fields_of es).
Proof.
  intros Hp Hs. unfold FieldsFunc. destruct (spans_loop_spec f Hf s es Hs (length s) [] s (-1) [] [] eq_refl Hp ltac:(lia)) as (start & new & Hrun & Hall); [by left|].
  change (zlen []) with 0 in Hrun. rewrite Hrun, bind_ret. cbv beta iota zeta. cbn [app]. set (spans := if 0 <=? start then _ else _) in *.
  unfold make_slice. rewrite (proj2 (Z.leb_le 0 _)) by apply zlen_nonneg. rewrite bind_ret. unfold zlen at 1. rewrite Nat2Z.id. exact (strings_loop_spec s spans _ [] Hall).
Qed.

(** *** The fast path *)
Definition singles (s : gostring) : list gostring := List.map (fun b => [b]) s.
Lemma singles_app s t : singles (s ++ t) = singles s ++ singles t.
Proof. apply List.map_app. Qed.
Lemma concat_singles s : concat (singles s) = s.
Proof. induction s as [|b s IH]; [done|]. cbn. by f_equal. Qed.
Lemma pieces_singles s : is_gostring s -> Forall ascii s -> pieces s (singles s).
Proof. intros Hs Ha. pose proof (pieces_skipped s [] [] Hs Ha pieces_nil) as H. by rewrite !app_nil_r in H. Qed.
Lemma space_single b : is_byte b -> ascii b -> space_piece [b] = stringslite_IsSpace b.
Proof. intros Hb Ha. unfold space_piece. by rewrite rune_of_ascii. Qed.
Lemma asciiSpace_ascii b : is_byte b -> ascii b -> index asciiSpace b = Ret (if stringslite_IsSpace b then 1 else 0).
Proof. intros Hb Ha. rewrite asciiSpace_spec by done. unfold ascii in Ha. by rewrite (proj2 (Z.ltb_lt _ _)) by done. Qed.

(** The first pass returns; if all bytes are ASCII it counts the words. *)
Lemma lor_upper a b : 0 <= a -> 0 <= b -> a <= Z.lor a b /\ b <= Z.lor a b.
Proof.
  intros Ha Hb. pose proof (Z.add_lor_land a b) as E. assert (Z.land a b <= a /\ Z.land a b <= b); [|lia].
  split; [|rewrite Z.land_comm]; apply Z.ldiff_le; try done.
  all: apply Z.bits_inj'; intros n _; rewrite Z.ldiff_spec, Z.land_spec, Z.bits_0; btauto.
Qed.
Definition empty_flag (cur : list gostring) : Z := match cur with [] => 1 | _ => 0 end.
Lemma count_fields_spec s n cur setBits : is_gostring s -> 0 <= setBits ->
  exists n' bits, count_fields s n (empty_flag cur) setBits = Ret (n', bits) /\ setBits <= bits /\
    (bits < RuneSelf -> Forall ascii s /\ n' + 1 - empty_flag cur = n + zlen (words cur (singles s))).
Proof.
  intros Hs. revert n cur setBits. induction Hs as [|b s Hb Hs IH]; intros n cur setBits Hbits.
  { exists n, setBits. split; [done|]. split; [lia|]. intros _. split; [done|]. by destruct cur; cbn [words singles List.map empty_flag]; unfold zlen; cbn [length]; lia. }
  cbn [count_fields]. rewrite asciiSpace_spec, bind_ret by done. pose proof Hb as Hb'. unfold is_byte in Hb'. pose proof (lor_upper setBits b Hbits ltac:(lia)) as [Hl1 Hl2].
  cbn [singles List.map words]. fold (singles s). destruct ((b <? RuneSelf) && stringslite_IsSpace b) eqn:Hsp.
  - destruct (IH (n + Z.land (empty_flag cur) (Z.lnot 1)) [] (Z.lor setBits b) ltac:(lia)) as (n' & bits & Hrun & Hle & Hcount). exists n', bits. split; [exact Hrun|]. split; [lia|].
    intros Hlt. destruct (Hcount Hlt) as [Hasc Hn]. assert (ascii b) as Hab by (unfold ascii; lia). split; [by constructor|]. rewrite space_single by done. apply andb_true_iff in Hsp as [_ ->].
    destruct cur; cbn [empty_flag] in *; [change (Z.land 1 (Z.lnot 1)) with 0 in *|change (Z.land 0 (Z.lnot 1)) with 0 in *; rewrite zlen_cons]; lia.
  - assert (empty_flag (cur ++ [[b]]) = 0) as H0 by (by destruct cur). destruct (IH (n + Z.land (empty_flag cur) (Z.lnot 0)) (cur ++ [[b]]) (Z.lor setBits b) ltac:(lia)) as (n' & bits & Hrun & Hle & Hcount). rewrite H0 in *.
    exists n', bits. split; [exact Hrun|]. split; [lia|]. intros Hlt. destruct (Hcount Hlt) as [Hasc Hn]. assert (ascii b) as Hab by (unfold ascii; lia). split; [by constructor|]. rewrite space_single by done.
    unfold ascii in Hab. rewrite (proj2 (Z.ltb_lt _ _)) in Hsp by done. cbn [andb] in Hsp. rewrite Hsp.
    destruct cur; cbn [empty_flag] in *; [change (Z.land 1 (Z.lnot 0)) with 1 in *|change (Z.land 0 (Z.lnot 0)) with 0 in *]; lia.
Qed.

(** White space is skipped to the next byte that is none. *)
Fixpoint skip (s : gostring) : gostring := match s with b :: s' => if stringslite_IsSpace b then skip s' else s | [] => [] end.
Lemma skip_suffix s : exists t, s = t ++ skip s /\ (length (skip s) <= length s)%nat.
Proof. induction s as [|b s (t & E & Hl)]; [by exists []|]. cbn [skip]. destruct (stringslite_IsSpace b); [|exists []; split; [done|lia]]. exists (b :: t). cbn. rewrite <- E. split; [done|lia]. Qed.
Lemma skip_skip s : skip (skip s) = skip s.
Proof. induction s as [|b s IH]; [done|]. cbn [skip]. destruct (stringslite_IsSpace b) eqn:E; [done|]. cbn [skip]. by rewrite E. Qed.
Lemma words_skip s : is_gostring s -> Forall ascii s -> words [] (singles s) = words [] (singles (skip s)).
Proof.
  intros Hs Ha. induction Hs as [|b s Hb Hs IH]; [done|]. inversion_clear Ha as [|? ? Hab Ha']. cbn [skip]. destruct (stringslite_IsSpace b) eqn:Hsp; [|done].
  cbn [singles List.map words]. rewrite space_single, Hsp by done. by apply IH.
Qed.
Lemma skip_spaces_spec fuel pre q : is_gostring q -> Forall ascii q -> (length q <= fuel)%nat -> skip_spaces fuel (pre ++ q) (zlen pre) = Ret (zlen (pre ++ q) - zlen (skip q)).
Proof.
  intros Hq. revert fuel pre. induction Hq as [|b q Hb Hq IH]; intros fuel pre Ha Hf.
  - rewrite app_nil_r. destruct fuel; cbn [skip_spaces skip]; rewrite Z.ltb_irrefl; cbn [go_and]; rewrite bind_ret; f_equal; unfold zlen; cbn; lia.
  - inversion_clear Ha as [|? ? Hab Ha']. destruct fuel as [|fuel]; [cbn in Hf; lia|]. cbn [skip_spaces]. rewrite zlen_app, zlen_cons. pose proof (zlen_nonneg q). rewrite (proj2 (Z.ltb_lt _ _)) by lia. cbn [go_and].
    pose proof (index_app_r pre (b :: q) 0 ltac:(lia)) as Hi. rewrite Z.add_0_r in Hi. rewrite Hi, index_0, bind_ret, asciiSpace_ascii, !bind_ret by done. cbn [skip]. destruct (stringslite_IsSpace b); cbn [Z.eqb negb].
    + specialize (IH fuel (pre ++ [b]) Ha'). rewrite <- app_assoc in IH. cbn [app] in IH. replace (zlen pre + 1) with (zlen (pre ++ [b])) by (rewrite zlen_app; done). rewrite IH by (cbn in Hf; lia). f_equal. rewrite zlen_app, zlen_cons. lia.
    + rewrite zlen_cons. f_equal. lia.
Qed.

(** The second pass stores the words. *)
Definition finish (s : gostring) (r : list gostring * Z * Z) : go (list gostring) :=
  let '(a, na, fieldStart) := r in if fieldStart <? zlen s then field ← slice_from s fieldStart; store a na field else Ret a.
Lemma fields_loop_spec s : is_gostring s -> Forall ascii s -> forall fuel pre cur q done_, s = pre ++ cur ++ q -> (cur = [] -> skip q = q) -> (length q <= fuel)%nat ->
  let ws := map (@concat Z) (words (singles cur) (singles q)) in
  (fields_loop fuel s (done_ ++ replicate (length ws) []) (zlen done_) (zlen pre) (zlen (pre ++ cur)) ≫= finish s) = Ret (done_ ++ ws).
Proof.
  intros Hs Ha. induction fuel as [|fuel IH]; intros pre cur q done_ Heq Hcur Hf ws; (destruct q as [|b q]; [clear Hf|]); [| cbn in Hf; lia| |].
  1,2: rewrite app_nil_r in Heq; cbn [fields_loop]; rewrite <- Heq, Z.ltb_irrefl, bind_ret; unfold finish; subst ws; cbn [singles List.map words].
  1,2: destruct cur as [|c cur]; cbn [singles List.map map length replicate]; [rewrite app_nil_r in Heq; by rewrite Heq, Z.ltb_irrefl, app_nil_r|].
  1,2: rewrite (proj2 (Z.ltb_lt _ _)) by (rewrite Heq, zlen_app, zlen_cons; pose proof (zlen_nonneg cur); lia); rewrite Heq, slice_from_app_r, bind_ret; rewrite (store_next done_ [] 0); cbn [replicate];
    rewrite app_nil_r; f_equal; f_equal; f_equal; symmetry; exact (concat_singles (c :: cur)).
  cbn [fields_loop]. assert (is_gostring (b :: q) /\ Forall ascii (b :: q)) as [Hbq Habq] by (subst s; apply Forall_app in Hs as [_ Hs]; apply Forall_app in Hs as [_ ?]; apply Forall_app in Ha as [_ Ha]; by apply Forall_app in Ha as [_ ?]).
  inversion_clear Hbq as [|? ? Hb Hq]. inversion_clear Habq as [|? ? Hab Haq].
  rewrite (proj2 (Z.ltb_lt _ _)) by (subst s; rewrite app_assoc, (zlen_app (pre ++ cur)), zlen_cons; pose proof (zlen_nonneg q); lia).
  assert (index s (zlen (pre ++ cur)) = Ret b) as ->.
  { subst s. rewrite app_assoc. pose proof (index_app_r (pre ++ cur) (b :: q) 0 ltac:(lia)) as Hi. rewrite Z.add_0_r in Hi. by rewrite Hi. }
  rewrite bind_ret, asciiSpace_ascii, bind_ret by done. destruct (stringslite_IsSpace b) eqn:Hsp; cbn [Z.eqb].
  - destruct cur as [|c cur]; [specialize (Hcur eq_refl); cbn [skip] in Hcur; rewrite Hsp in Hcur; destruct (skip_suffix q) as (t & _ & Hl); rewrite Hcur in Hl; cbn in Hl; lia|].
    assert (ws = (c :: cur) :: map (@concat Z) (words [] (singles (skip q)))) as Hws.
    { subst ws. cbn [singles List.map words]. fold (singles cur). fold (singles q). rewrite space_single, Hsp by done. cbn [map]. rewrite <- words_skip by done. f_equal. exact (concat_singles (c :: cur)). }
    rewrite Hws. cbn [length]. assert (slice s (zlen pre) (zlen (pre ++ c :: cur)) = Ret (c :: cur)) as -> by (subst s; rewrite zlen_app; apply slice_app_mid). rewrite bind_ret, store_next, bind_ret.
    assert (skip_spaces (length s) s (zlen (pre ++ c :: cur) + 1) = Ret (zlen s - zlen (skip q))) as ->.
    { replace (zlen (pre ++ c :: cur) + 1) with (zlen (pre ++ (c :: cur) ++ [b])) by (rewrite !zlen_app; change (zlen [b]) with 1; lia).
      replace s with ((pre ++ (c :: cur) ++ [b]) ++ q) by (subst s; by rewrite <- !app_assoc). apply skip_spaces_spec; [done|done|rewrite !length_app; lia]. }
    rewrite bind_ret. destruct (skip_suffix q) as (t & Eq & Hl). specialize (IH (pre ++ (c :: cur) ++ b :: t) [] (skip q) (done_ ++ [c :: cur])). cbv zeta in IH. rewrite app_nil_r in IH. change (singles []) with (@nil gostring) in IH.
    assert (zlen (pre ++ (c :: cur) ++ b :: t) = zlen s - zlen (skip q)) as Hz by (subst s; rewrite Eq at 1; rewrite !zlen_app, !zlen_cons, zlen_app; lia). rewrite Hz in IH.
    rewrite zlen_app in IH. change (zlen [c :: cur]) with 1 in IH. rewrite IH; [by rewrite <- app_assoc|subst s; rewrite Eq at 1; by rewrite <- !app_assoc|intros _; apply skip_skip|cbn in Hf; lia].
  - specialize (IH pre (cur ++ [b]) q done_). cbv zeta in IH. replace (zlen (pre ++ cur ++ [b])) with (zlen (pre ++ cur) + 1) in IH by (rewrite !zlen_app; change (zlen [b]) with 1; lia).
    assert (ws = map (@concat Z) (words (singles (cur ++ [b])) (singles q))) as Hws.
    { subst ws. cbn [singles List.map words]. fold (singles q). rewrite space_single, Hsp by done. by rewrite singles_app. }
    rewrite Hws. apply IH; [subst s; by rewrite <- app_assoc|by destruct cur|cbn in Hf; lia].
Qed.
Lemma Fields_spec s es : pieces s es -> is_gostring s -> Fields s = Ret (fields_of es).
Proof.
  intros Hp Hs. unfold Fields. destruct (count_fields_spec s 0 [] 0 Hs ltac:(lia)) as (n & bits & Hrun & _ & Hcount). cbn [empty_flag] in *. rewrite Hrun, bind_ret. cbv beta iota.
  destruct (Z.leb_spec RuneSelf bits) as [|Hlt]; [apply FieldsFunc_spec; [apply IsSpace_spec|done|done]|]. destruct (Hcount Hlt) as [Ha Hn].
  assert (es = singles s) as -> by (eapply pieces_unique; [exact Hp|by apply pieces_singles]). unfold fields_of.
  assert (n = zlen (words [] (singles s))) as -> by lia. unfold make_slice. rewrite (proj2 (Z.leb_le 0 _)) by apply zlen_nonneg. rewrite bind_ret.
  pose proof (skip_spaces_spec (length s) [] s Hs Ha ltac:(lia)) as Hskip. cbn [app] in Hskip. change (zlen []) with 0 in Hskip. rewrite Hskip, bind_ret.
  destruct (skip_suffix s) as (t & Eq & Hl). assert (zlen s - zlen (skip s) = zlen t) as -> by (rewrite Eq at 1; rewrite zlen_app; lia).
  pose proof (fields_loop_spec s Hs Ha (length s) t [] (skip s) [] Eq) as H. cbv zeta in H. cbn [app singles List.map] in H. fold (singles (skip s)) in H. rewrite <- words_skip in H by done. rewrite app_nil_r in H.
  replace (Z.to_nat (zlen (words [] (singles s)))) with (length (words [] (singles s))) by (unfold zlen; lia). rewrite List.length_map in H. apply H; [intros _; apply skip_skip|lia].
Qed.

(** ** For the programs that use them: what the functions return *)
Definition trim_space (s : gostring) : gostring := match TrimSpace s with Ret t => t | _ => [] end.
Definition fields (s : gostring) : list gostring := match Fields s with Ret ws => ws | _ => [] end.
Lemma trim_space_returns s : is_gostring s -> TrimSpace s = Ret (trim_space s) /\ Fields s = Ret (fields s).
Proof. intros Hs. destruct (pieces_exist s Hs) as (es & Hp). unfold trim_space, fields. by rewrite (TrimSpace_spec s es Hp Hs), (Fields_spec s es Hp Hs). Qed.

Lemma pieces_nonempty s es : pieces s es -> Forall (fun e => e <> []) es.
Proof. induction 1 as [|e s es He _ IH|b s es _ _ IH]; constructor; try done. by intros ->. Qed.
Lemma words_nonempty cur es : Forall (fun e => e <> []) cur -> Forall (fun e => e <> []) es -> Forall (fun w => concat w <> []) (words cur es).
Proof.
  assert (forall e w, Forall (fun e => e <> []) (e :: w) -> concat (e :: w) <> @nil Z) as Hne by (intros e w Hw; inversion_clear Hw; by destruct e).
  intros Hcur Hes. revert cur Hcur. induction Hes as [|e es He _ IH]; intros cur Hcur; cbn [words]; [destruct cur; repeat constructor; by apply Hne|].
  destruct (space_piece e); [|apply IH, Forall_app; by repeat constructor]. destruct cur as [|c cur]; [by apply IH|]. constructor; [by apply Hne|by apply IH].
Qed.

(** C28: [TrimSpace] and [Fields] on every byte string, valid UTF-8 or not.  The
    text is cut into code points and invalid bytes.  Trimming returns it without
    the white space at both ends; the fields are the maximal runs that are not
    white space, in order, none of them empty.  The loops over bytes that are used
    for ASCII, with a table of their own and an array that is allocated after a
    first pass has counted the words, give the same and stay within bounds; and
    the two definitions of white space, the table of package [unicode] and the
    list of the trimming functions, agree. *)
Theorem words_spec (s : gostring) (Hs : is_gostring s) :
  exists es, pieces s es /\ concat es = s /\ TrimSpace s = Ret (trimmed es) /\ Fields s = Ret (fields_of es) /\ FieldsFunc s IsSpace = Ret (fields_of es) /\ Forall (fun w => w <> []) (fields_of es) /\
    Forall (fun e => IsSpace (rune_of e) = Ret (space_piece e)) es.
Proof.
  destruct (pieces_exist s Hs) as (es & Hp). exists es. split_and!; [done|by apply pieces_valid|by apply TrimSpace_spec|by apply Fields_spec|by apply FieldsFunc_spec; [apply IsSpace_spec|..]|unfold fields_of; apply Forall_fmap; apply words_nonempty; [done|by eapply pieces_nonempty]|].
  apply Forall_forall. intros e _. apply IsSpace_spec, rune_of_range.
Qed.
Lemma words_spec_witness : is_gostring (str " a b") /\ exists es, pieces (str " a b") es /\ TrimSpace (str " a b") = Ret (trimmed es) /\ trimmed es = str "a b".
Proof.
  assert (is_gostring (str " a b")) as Hs by (repeat constructor; unfold is_byte; lia). split; [exact Hs|]. destruct (words_spec (str " a b") Hs) as (es & Hp & _ & Ht & _). exists es. split; [exact Hp|]. split; [exact Ht|].
  assert (TrimSpace (str " a b") = Ret (str "a b")) as E by (vm_compute; reflexivity). rewrite Ht in E. by injection E.
Defined.
