(* ===== verification/BytesBuffer.v ===== *)
(** * Byte buffers ([go/src/bytes/buffer.go])

    The queue of bytes that loggers and runners write to.  The backing array is a
    list of [cap] cells; a slice that a method returns is a pair of offsets into
    it, read with [view], as it is only valid until the next write.  [round] is
    the capacity the runtime gives to an allocation, and [maxAlloc] the largest
    one it makes. *)
From S2P Require Import Prelude GoUtf8 Utf8Encode.
#[local] Open Scope Z_scope.

Record Buffer := MkBuffer { cells : gostring; blen : Z; isnil : bool; off : Z; lastRead : Z }.
Definition opRead : Z := -1.
Definition opInvalid : Z := 0.
Definition opReadRune1 : Z := 1.
Definition smallBufferSize : Z := 64.
Definition MinRead : Z := 512.
Definition zero_Buffer : Buffer := MkBuffer [] 0 true 0 opInvalid.
(** [NewBuffer(buf)]: the array of [buf], its length, and whether it is nil *)
Definition NewBuffer (array : gostring) (len : Z) (nil : bool) : Buffer := MkBuffer array len nil 0 opInvalid.

Definition cap (b : Buffer) : Z := zlen (cells b).
Definition set_len (b : Buffer) (n : Z) : Buffer := MkBuffer (cells b) n (isnil b) (off b) (lastRead b).
Definition set_off (b : Buffer) (o : Z) : Buffer := MkBuffer (cells b) (blen b) (isnil b) o (lastRead b).
Definition set_last (b : Buffer) (r : Z) : Buffer := MkBuffer (cells b) (blen b) (isnil b) (off b) r.
Definition set_cells (b : Buffer) (c : gostring) : Buffer := MkBuffer c (blen b) (isnil b) (off b) (lastRead b).

(** [b.buf[:n]] assigned to [b.buf] *)
Definition reslice (b : Buffer) (n : Z) : go Buffer :=
  if (0 <=? n) && (n <=? cap b) then Ret (set_len b n) else Panic SliceBoundsOutOfRange.
(** [b.buf[lo:hi]], and the bytes of a slice *)
Definition subslice (b : Buffer) (lo hi : Z) : go (Z * Z) :=
  if (0 <=? lo) && (lo <=? hi) && (hi <=? cap b) then Ret (lo, hi) else Panic SliceBoundsOutOfRange.
Definition view (b : Buffer) (s : Z * Z) : go gostring := slice (cells b) s.1 s.2.
(** [b.buf[lo:]]: up to the length *)
Definition subslice_from (b : Buffer) (lo : Z) : go (Z * Z) := subslice b lo (blen b).
(** [copy(b.buf[m:], p)] *)
Definition copy_at (b : Buffer) (m : Z) (p : gostring) : go (Buffer * Z) :=
  '(lo, hi) ← subslice_from b m;
  dst ← slice (cells b) lo hi;
  Ret (set_cells b (take (Z.to_nat lo) (cells b) ++ copy_slice dst p ++ drop (Z.to_nat hi) (cells b)), Z.min (zlen dst) (zlen p)).

Definition Bytes (b : Buffer) : go (Z * Z) := subslice_from b (off b).
Definition String_ (b : Buffer) : go gostring := s ← subslice_from b (off b); view b s.
Definition empty (b : Buffer) : bool := blen b <=? off b.
Definition Len (b : Buffer) : Z := blen b - off b.
Definition Cap (b : Buffer) : Z := cap b.
Definition Available (b : Buffer) : Z := cap b - blen b.
(** The slice, and whether [io.EOF] is returned with it. *)
Definition Peek (b : Buffer) (n : Z) : go ((Z * Z) * bool) :=
  if Len b <? n then s ← subslice_from b (off b); Ret (s, true)
  else s ← subslice b (off b) (off b + n); Ret (s, false).

Definition Reset (b : Buffer) : Buffer := set_last (set_off (set_len b 0) 0) opInvalid.
Definition Truncate (b : Buffer) (n : Z) : go Buffer :=
  if n =? 0 then Ret (Reset b)
  else
    let b := set_last b opInvalid in
    if (n <? 0) || (Len b <? n) then Panic ExplicitPanic else reslice b (off b + n).

(** ** Growth *)
Section growth.
Context (round : Z -> Z) (maxAlloc : Z).

Definition tryGrowByReslice (b : Buffer) (n : Z) : go (Buffer * (Z * bool)) :=
  let l := blen b in
  if n <=? cap b - l then b ← reslice b (l + n); Ret (b, (l, true)) else Ret (b, (0, false)).
(** [growSlice(b.buf[b.off:], n)], assigned to [b.buf]; a [make] that fails panics with [ErrTooLarge]. *)
Definition growSlice (b : Buffer) (n : Z) : go Buffer :=
  s ← subslice_from b (off b);
  old ← view b s;
  let c := zlen old + n in
  let c := if c <? 2 * (cap b - off b) then 2 * (cap b - off b) else c in
  if maxAlloc <? c then Panic ExplicitPanic
  else
    let b2 := copy_slice (replicate (Z.to_nat (round c)) 0) old in
    Ret (MkBuffer b2 (Z.min (zlen b2) (zlen old)) false (off b) (lastRead b)).
Definition grow (b : Buffer) (n : Z) : go (Buffer * Z) :=
  let m := Len b in
  let b := if (m =? 0) && negb (off b =? 0) then Reset b else b in
  '(b, (i, ok)) ← tryGrowByReslice b n;
  if (ok : bool) then Ret (b, i)
  else if isnil b && (n <=? smallBufferSize) then
    Ret (MkBuffer (replicate (Z.to_nat smallBufferSize) 0) n false (off b) (lastRead b), 0)
  else
    let c := cap b in
    b ← (if n <=? Z.quot c 2 - m then s ← subslice_from b (off b); old ← view b s; '(b, _) ← copy_at b 0 old; Ret b
         else if MaxInt - c - n <? c then Panic ExplicitPanic
         else growSlice b (off b + n));
    let b := set_off b 0 in
    b ← reslice b (m + n);
    Ret (b, m).
Definition Grow (b : Buffer) (n : Z) : go Buffer :=
  if n <? 0 then Panic ExplicitPanic else '(b, m) ← grow b n; reslice b m.
(** [m, ok := b.tryGrowByReslice(n); if !ok { m = b.grow(n) }] *)
Definition reserve (b : Buffer) (n : Z) : go (Buffer * Z) :=
  '(b, (m, ok)) ← tryGrowByReslice b n; if (ok : bool) then Ret (b, m) else grow b n.

Definition Write (b : Buffer) (p : gostring) : go (Buffer * Z) :=
  let b := set_last b opInvalid in '(b, m) ← reserve b (zlen p); copy_at b m p.
Definition WriteString (b : Buffer) (s : gostring) : go (Buffer * Z) :=
  let b := set_last b opInvalid in '(b, m) ← reserve b (zlen s); copy_at b m s.
Definition WriteByte (b : Buffer) (c : Z) : go Buffer :=
  let b := set_last b opInvalid in
  '(b, m) ← reserve b 1;
  if m <? blen b then cs ← store (cells b) m c; Ret (set_cells b cs) else Panic IndexOutOfRange.
Definition WriteRune (b : Buffer) (r : Z) : go (Buffer * Z) :=
  if uint32 r <? RuneSelf then b ← WriteByte b (byte r); Ret (b, 1)
  else
    let b := set_last b opInvalid in
    '(b, m) ← reserve b UTFMax;
    s ← subslice b 0 m; prefix ← view b s;
    let all := AppendRune prefix r in
    let cs := if zlen all <=? cap b then all ++ drop (length all) (cells b)
              else all ++ replicate (Z.to_nat (round (zlen all) - zlen all)) 0 in
    let b := set_len (set_cells b cs) (zlen all) in
    Ret (b, blen b - m).

(** [r.Read] is given the free cells: what it stored there, the count it returns and its error. *)
Section read_from.
Context {S E : Type} (EOF : E) `{!EqDecision E} (rd : S -> Z -> S * (gostring * Z * option E)).
Fixpoint ReadFrom_loop (fuel : nat) (b : Buffer) (s : S) (n : Z) : go (Buffer * S * Z * option E) :=
  match fuel with
  | O => OutOfFuel
  | Datatypes.S fuel =>
      '(b, i) ← grow b MinRead;
      b ← reslice b i;
      '(lo, hi) ← subslice b i (cap b);
      let '(s, (data, m, e)) := rd s (hi - lo) in
      dst ← slice (cells b) lo hi;
      let b := set_cells b (take (Z.to_nat lo) (cells b) ++ copy_slice dst data ++ drop (Z.to_nat hi) (cells b)) in
      if m <? 0 then Panic ExplicitPanic
      else
        b ← reslice b (i + m);
        let n := n + m in
        match e with
        | Some e => Ret (b, s, n, if decide (e = EOF) then None else Some e)
        | None => ReadFrom_loop fuel b s n
        end
  end.
Definition ReadFrom (fuel : nat) (b : Buffer) (s : S) : go (Buffer * S * Z * option E) :=
  ReadFrom_loop fuel (set_last b opInvalid) s 0.
End read_from.

(** ** Reading *)

(** The bytes copied into a destination of [k] bytes, and whether the error is [io.EOF]. *)
Definition Read (b : Buffer) (k : Z) : go (Buffer * gostring * bool) :=
  let b := set_last b opInvalid in
  if empty b then Ret (Reset b, [], negb (k =? 0))
  else
    s ← subslice_from b (off b); unread ← view b s;
    let data := take (Z.to_nat k) unread in
    let n := zlen data in
    let b := set_off b (off b + n) in
    Ret (if 0 <? n then set_last b opRead else b, data, false).
Definition Next (b : Buffer) (n : Z) : go (Buffer * (Z * Z)) :=
  let b := set_last b opInvalid in
  let m := Len b in
  let n := if m <? n then m else n in
  data ← subslice b (off b) (off b + n);
  let b := set_off b (off b + n) in
  Ret (if 0 <? n then set_last b opRead else b, data).
(** [None] is [io.EOF]. *)
Definition ReadByte (b : Buffer) : go (Buffer * option Z) :=
  if empty b then Ret (Reset b, None)
  else if off b <? blen b then c ← index (cells b) (off b); Ret (set_last (set_off b (off b + 1)) opRead, Some c)
  else Panic IndexOutOfRange.
Definition ReadRune (b : Buffer) : go (Buffer * option (Z * Z)) :=
  if empty b then Ret (Reset b, None)
  else
    s ← subslice_from b (off b); p ← view b s;
    c ← index p 0;
    if c <? RuneSelf then Ret (set_last (set_off b (off b + 1)) opReadRune1, Some (c, 1))
    else '(r, n) ← DecodeRune p; Ret (set_last (set_off b (off b + n)) n, Some (r, n)).
(** Whether an error is returned. *)
Definition UnreadRune (b : Buffer) : Buffer * bool :=
  if lastRead b <=? opInvalid then (b, true)
  else
    let b := if lastRead b <=? off b then set_off b (off b - lastRead b) else b in
    (set_last b opInvalid, false).
Definition UnreadByte (b : Buffer) : Buffer * bool :=
  if lastRead b =? opInvalid then (b, true)
  else
    let b := set_last b opInvalid in
    (if 0 <? off b then set_off b (off b - 1) else b, false).

Definition IndexByte (s : gostring) (c : Z) : Z := match list_find (eq c) s with Some (i, _) => Z.of_nat i | None => -1 end.
Definition readSlice (b : Buffer) (delim : Z) : go (Buffer * (Z * Z) * bool) :=
  s ← subslice_from b (off b); unread ← view b s;
  let i := IndexByte unread delim in
  let end_ := if i <? 0 then blen b else off b + i + 1 in
  line ← subslice b (off b) end_;
  Ret (set_last (set_off b end_) opRead, line, i <? 0).
Definition ReadBytes (b : Buffer) (delim : Z) : go (Buffer * gostring * bool) :=
  '(b, line, eof) ← readSlice b delim; line ← view b line; Ret (b, line, eof).
Definition ReadString (b : Buffer) (delim : Z) : go (Buffer * gostring * bool) :=
  '(b, line, eof) ← readSlice b delim; line ← view b line; Ret (b, line, eof).

(** [w.Write] returns a count and an error; [short] is [io.ErrShortWrite]. *)
Definition WriteTo {E : Type} (short : E) (w : gostring -> Z * option E) (b : Buffer) : go (Buffer * Z * option E) :=
  let b := set_last b opInvalid in
  let nBytes := Len b in
  if 0 <? nBytes then
    s ← subslice_from b (off b); unread ← view b s;
    let '(m, e) := w unread in
    if nBytes <? m then Panic ExplicitPanic
    else
      let b := set_off b (off b + m) in
      match e with
      | Some e => Ret (b, m, Some e)
      | None => if negb (m =? nBytes) then Ret (b, m, Some short) else Ret (Reset b, m, None)
      end
  else Ret (Reset b, 0, None).
End growth.

(** ** Samples *)
#[local] Notation W := (Write (fun c => c) (2 ^ 40)) (only parsing).
Example buffer_samples :
  ('(b, _) ← W zero_Buffer (str "hello world"); '(b, s) ← Next b 6; line ← view b s; '(b, _) ← W b (str "!"); rest ← String_ b; Ret (line, rest, Cap b))
    = Ret (str "hello ", str "world!", 64) /\
  ('(b, _) ← W zero_Buffer (replicate 60 1); '(b, _) ← Next b 58; '(b, _) ← W b (replicate 20 2); Ret (Cap b, off b, blen b)) = Ret (64, 0, 22) /\
  ('(b, _) ← W zero_Buffer (replicate 60 1); '(b, _) ← W b (replicate 20 2); Ret (Cap b, off b, blen b)) = Ret (128, 0, 80) /\
  ('(b, n) ← WriteRune (fun c => c) (2 ^ 40) zero_Buffer 0x20AC; '(b, r) ← ReadRune b; let '(b, e) := UnreadRune b in Ret (n, r, e, Len b)) = Ret (3, Some (0x20AC, 3), false, 3).
Proof. vm_compute. done. Qed.

(** A read of no bytes whose error is [io.EOF] does not stop [UnreadByte], which
    gives back a byte read before; and [Grow] between a read and [UnreadByte] can
    make the latter return without an error and without the byte. *)
Lemma buffer_unread_after_eof :
  ('(b, _) ← W zero_Buffer (str "a"); '(b, _) ← ReadByte b; '(b, line, eof) ← ReadBytes b 10; let '(b, err) := UnreadByte b in s ← String_ b; Ret (line, eof, err, s))
    = Ret ([], true, false, str "a").
Proof. vm_compute. reflexivity. Qed.
Lemma buffer_unread_after_grow :
  ('(b, _) ← W zero_Buffer (str "ab"); '(b, c) ← ReadByte b; b ← Grow (fun c => c) (2 ^ 40) b 100; let '(b, err) := UnreadByte b in s ← String_ b; Ret (c, err, s))
    = Ret (Some 97, false, str "b").
Proof. vm_compute. reflexivity. Qed.

(** ** The queue a buffer stands for

    The bytes to read, those behind them that [UnreadByte] and [UnreadRune] can
    give back, and what the last operation allows to give back. *)
Record queue := MkQueue { past : gostring; unread : gostring; last : Z }.
Definition empty_queue : queue := MkQueue [] [] opInvalid.

Inductive op :=
  | OWrite (p : gostring) | OWriteString (p : gostring) | OWriteByte (c : Z) | OWriteRune (r : Z)
  | ORead (k : Z) | ONext (n : Z) | OReadByte | OReadRune | OUnreadByte | OUnreadRune
  | OReadBytes (delim : Z) | OReadString (delim : Z) | OPeek (n : Z) | OString | OLen
  | OTruncate (n : Z) | OReset | OGrow (n : Z).
(** The bytes and the number an operation returns, and whether it returns an error. *)
Record obs := MkObs { o_bytes : gostring; o_num : Z; o_err : bool }.

Section refinement.
Context (round : Z -> Z) (maxAlloc : Z).

Definition apply (o : op) (b : Buffer) : go (Buffer * obs) :=
  match o with
  | OWrite p => '(b, n) ← Write round maxAlloc b p; Ret (b, MkObs [] n false)
  | OWriteString p => '(b, n) ← WriteString round maxAlloc b p; Ret (b, MkObs [] n false)
  | OWriteByte c => b ← WriteByte round maxAlloc b c; Ret (b, MkObs [] 0 false)
  | OWriteRune r => '(b, n) ← WriteRune round maxAlloc b r; Ret (b, MkObs [] n false)
  | ORead k => '(b, data, eof) ← Read b k; Ret (b, MkObs data (zlen data) eof)
  | ONext n => '(b, s) ← Next b n; data ← view b s; Ret (b, MkObs data 0 false)
  | OReadByte => '(b, c) ← ReadByte b; Ret (b, match c with Some c => MkObs [c] 0 false | None => MkObs [] 0 true end)
  | OReadRune => '(b, c) ← ReadRune b; Ret (b, match c with Some (r, n) => MkObs [r] n false | None => MkObs [] 0 true end)
  | OUnreadByte => let '(b, e) := UnreadByte b in Ret (b, MkObs [] 0 e)
  | OUnreadRune => let '(b, e) := UnreadRune b in Ret (b, MkObs [] 0 e)
  | OReadBytes d => '(b, line, e) ← ReadBytes b d; Ret (b, MkObs line 0 e)
  | OReadString d => '(b, line, e) ← ReadString b d; Ret (b, MkObs line 0 e)
  | OPeek n => '(s, e) ← Peek b n; data ← view b s; Ret (b, MkObs data 0 e)
  | OString => s ← String_ b; Ret (b, MkObs s 0 false)
  | OLen => Ret (b, MkObs [] (Len b) false)
  | OTruncate n => b ← Truncate b n; Ret (b, MkObs [] 0 false)
  | OReset => Ret (Reset b, MkObs [] 0 false)
  | OGrow n => b ← Grow round maxAlloc b n; Ret (b, MkObs [] 0 false)
  end.
(** The observations of the operations up to the first panic. *)
Fixpoint exec (os : list op) (b : Buffer) : list obs * option panic_kind :=
  match os with
  | [] => ([], None)
  | o :: os =>
      match apply o b with
      | Ret (b, x) => let '(xs, p) := exec os b in (x :: xs, p)
      | Panic k => ([], Some k)
      | OutOfFuel => ([], None)
      end
  end.

(** Moving the bytes may drop those behind the ones to read. *)
Definition forgets (p p' : gostring) : Prop := p' = p \/ p' = [].
Definition took (q : queue) (data : gostring) (l : Z) : queue := MkQueue (past q ++ data) (drop (length data) (unread q)) l.
(** Up to and including the first delimiter, if there is one. *)
Definition line_of (u : gostring) (d : Z) : gostring * bool :=
  match list_find (eq d) u with Some (i, _) => (take (S i) u, false) | None => (u, true) end.
Definition rune_of (u : gostring) : gostring * Z :=
  match utf8_prefix u with Some e => (e, utf8_value e) | None => (take 1 u, RuneError) end.
(** [k] bytes given back, if there are that many. *)
Definition give_back (q : queue) (k : Z) : queue :=
  if k <=? zlen (past q) then
    let i := (length (past q) - Z.to_nat k)%nat in MkQueue (take i (past q)) (drop i (past q) ++ unread q) opInvalid
  else MkQueue (past q) (unread q) opInvalid.

(** The steps of the code; what its documentation promises of them is [contract], below. *)
Inductive qstep (q : queue) : op -> obs -> queue -> Prop :=
  | q_write p past' : forgets (past q) past' -> qstep q (OWrite p) (MkObs [] (zlen p) false) (MkQueue past' (unread q ++ p) opInvalid)
  | q_write_string p past' : forgets (past q) past' -> qstep q (OWriteString p) (MkObs [] (zlen p) false) (MkQueue past' (unread q ++ p) opInvalid)
  | q_write_byte c past' : forgets (past q) past' -> qstep q (OWriteByte c) (MkObs [] 0 false) (MkQueue past' (unread q ++ [c]) opInvalid)
  | q_write_rune r past' : forgets (past q) past' ->
      qstep q (OWriteRune r) (MkObs [] (zlen (encoding r)) false) (MkQueue past' (unread q ++ encoding r) opInvalid)
  | q_read_empty k : unread q = [] -> qstep q (ORead k) (MkObs [] 0 (negb (k =? 0))) empty_queue
  | q_read k data : unread q <> [] -> data = take (Z.to_nat k) (unread q) ->
      qstep q (ORead k) (MkObs data (zlen data) false) (took q data (if 0 <? zlen data then opRead else opInvalid))
  | q_next n data : 0 <= n -> data = take (Z.to_nat n) (unread q) ->
      qstep q (ONext n) (MkObs data 0 false) (took q data (if 0 <? zlen data then opRead else opInvalid))
  | q_read_byte_empty : unread q = [] -> qstep q OReadByte (MkObs [] 0 true) empty_queue
  | q_read_byte c u : unread q = c :: u -> qstep q OReadByte (MkObs [c] 0 false) (took q [c] opRead)
  | q_read_rune_empty : unread q = [] -> qstep q OReadRune (MkObs [] 0 true) empty_queue
  | q_read_rune e v : unread q <> [] -> rune_of (unread q) = (e, v) -> qstep q OReadRune (MkObs [v] (zlen e) false) (took q e (zlen e))
  | q_unread_byte_err : last q = opInvalid -> qstep q OUnreadByte (MkObs [] 0 true) q
  | q_unread_byte : last q <> opInvalid -> qstep q OUnreadByte (MkObs [] 0 false) (give_back q 1)
  | q_unread_rune_err : last q <= opInvalid -> qstep q OUnreadRune (MkObs [] 0 true) q
  | q_unread_rune : opInvalid < last q -> qstep q OUnreadRune (MkObs [] 0 false) (give_back q (last q))
  | q_read_bytes d line e : line_of (unread q) d = (line, e) -> qstep q (OReadBytes d) (MkObs line 0 e) (took q line opRead)
  | q_read_string d line e : line_of (unread q) d = (line, e) -> qstep q (OReadString d) (MkObs line 0 e) (took q line opRead)
  | q_peek n : 0 <= n -> qstep q (OPeek n) (MkObs (take (Z.to_nat n) (unread q)) 0 (zlen (unread q) <? n)) q
  | q_string : qstep q OString (MkObs (unread q) 0 false) q
  | q_len : qstep q OLen (MkObs [] (zlen (unread q)) false) q
  | q_reset : qstep q OReset (MkObs [] 0 false) empty_queue
  | q_truncate n : 0 < n <= zlen (unread q) -> qstep q (OTruncate n) (MkObs [] 0 false) (MkQueue (past q) (take (Z.to_nat n) (unread q)) opInvalid)
  | q_truncate_0 : qstep q (OTruncate 0) (MkObs [] 0 false) empty_queue
  | q_grow n past' l : 0 <= n -> (past' = past q /\ l = last q) \/ (past' = [] /\ (l = last q \/ unread q = [] /\ l = opInvalid)) ->
      qstep q (OGrow n) (MkObs [] 0 false) (MkQueue past' (unread q) l).
(** The calls that panic. *)
Inductive qpanic (q : queue) : op -> panic_kind -> Prop :=
  | qp_next n : n < 0 -> qpanic q (ONext n) SliceBoundsOutOfRange
  | qp_peek n : n < 0 -> qpanic q (OPeek n) SliceBoundsOutOfRange
  | qp_truncate n : n < 0 \/ zlen (unread q) < n -> qpanic q (OTruncate n) ExplicitPanic
  | qp_grow n : n < 0 -> qpanic q (OGrow n) ExplicitPanic.

(** ** The contract

    [UnreadByte] is documented to give back the last byte of the last read, and to
    fail after a read that returned an error or no bytes; the code gives a byte
    back after a [ReadBytes] or [ReadString] that returned [io.EOF] too.  [Grow]
    is neither a read nor a write, but may leave nothing to give back.  The
    contract keeps to what is documented: in these two situations it does not say
    which of the two an unread does. *)
Inductive standing := Settled | AfterEOF | AfterGrow.
Definition in_doubt (st : standing) (o : op) : bool :=
  match o, st with OUnreadByte, (AfterEOF | AfterGrow) | OUnreadRune, AfterGrow => true | _, _ => false end.
Definition is_unread (o : op) : bool := match o with OUnreadByte | OUnreadRune => true | _ => false end.
Definition next_standing (q : queue) (st : standing) (o : op) (x : obs) : standing :=
  match o with
  | OReadBytes _ | OReadString _ => if o_err x then AfterEOF else Settled
  | OGrow _ => if last q =? opInvalid then st else AfterGrow
  | OPeek _ | OString | OLen | OUnreadByte | OUnreadRune => st
  | _ => Settled
  end.
Inductive contract (q : queue) (st : standing) : op -> obs -> queue -> standing -> Prop :=
  | c_step o x q' : is_unread o = false -> qstep q o x q' -> contract q st o x q' (next_standing q st o x)
  | c_unread_err o : is_unread o = true -> in_doubt st o = false -> last q = opInvalid -> contract q st o (MkObs [] 0 true) q st
  | c_unread_byte p c : in_doubt st OUnreadByte = false -> last q <> opInvalid -> past q = p ++ [c] ->
      contract q st OUnreadByte (MkObs [] 0 false) (MkQueue p (c :: unread q) opInvalid) Settled
  | c_unread_no_rune : in_doubt st OUnreadRune = false -> last q = opRead -> contract q st OUnreadRune (MkObs [] 0 true) q st
  | c_unread_rune p e : in_doubt st OUnreadRune = false -> last q = zlen e -> e <> [] -> past q = p ++ e ->
      contract q st OUnreadRune (MkObs [] 0 false) (MkQueue p (e ++ unread q) opInvalid) Settled
  | c_in_doubt_err o : in_doubt st o = true -> contract q st o (MkObs [] 0 true) q st
  | c_in_doubt o : in_doubt st o = true ->
      contract q st o (MkObs [] 0 false) (give_back q match o with OUnreadRune => last q | _ => 1 end) Settled.
Inductive qruns : queue -> standing -> list op -> list obs -> option panic_kind -> Prop :=
  | qr_nil q st : qruns q st [] [] None
  | qr_step q st o x q' st' os xs p : contract q st o x q' st' -> qruns q' st' os xs p -> qruns q st (o :: os) (x :: xs) p
  | qr_panic q st o os k : qpanic q o k -> qruns q st (o :: os) [] (Some k).

(** ** Representation

    [reserved n]: [n] more cells than the bytes to read are within the length. *)
Definition reserved (n : Z) (b : Buffer) (q : queue) : Prop :=
  off b = zlen (past q) /\ blen b = zlen (past q) + zlen (unread q) + n /\ lastRead b = last q /\ is_gostring (cells b) /\
  (isnil b = true -> cells b = []) /\ exists spare, cells b = past q ++ unread q ++ spare /\ n <= zlen spare.
Definition rep (b : Buffer) (q : queue) : Prop := reserved 0 b q.

Lemma rep_zero : rep zero_Buffer empty_queue.
Proof. split_and!; [done|done|done|constructor|done|by exists []]. Qed.

Lemma reserved_cap n b q : reserved n b q -> blen b <= cap b.
Proof. intros (_ & -> & _ & _ & _ & spare & Hc & Hs). unfold cap. rewrite Hc, !zlen_app. lia. Qed.

Lemma rep_view n b q : reserved n b q -> view b (off b, off b + zlen (unread q)) = Ret (unread q).
Proof. intros (Ho & _ & _ & _ & _ & spare & Hc & _). unfold view. cbn [fst snd]. rewrite Ho, Hc. apply slice_app_mid. Qed.

Lemma subslice_in b lo hi : 0 <= lo <= hi -> hi <= cap b -> subslice b lo hi = Ret (lo, hi).
Proof. intros Hlo Hhi. unfold subslice. by replace ((0 <=? lo) && (lo <=? hi) && (hi <=? cap b)) with true by lia. Qed.
Lemma reslice_in b n : 0 <= n <= cap b -> reslice b n = Ret (set_len b n).
Proof. intros Hn. unfold reslice. by replace ((0 <=? n) && (n <=? cap b)) with true by lia. Qed.

(** The slice of the bytes to read. *)
Lemma rep_unread b q : rep b q -> subslice_from b (off b) = Ret (off b, off b + zlen (unread q)) /\ view b (off b, off b + zlen (unread q)) = Ret (unread q).
Proof.
  intros H. pose proof (reserved_cap _ _ _ H). split; [|by apply (rep_view 0)]. destruct H as (Ho & Hl & _). pose proof (zlen_nonneg (past q)). pose proof (zlen_nonneg (unread q)).
  unfold subslice_from. rewrite Hl, Ho in *. rewrite Z.add_0_r. apply subslice_in; lia.
Qed.

Lemma rep_Reset b q : rep b q -> rep (Reset b) empty_queue.
Proof. intros (_ & _ & _ & Hb & Hn & _). split_and!; try done. exists (cells b). split; [done|]. apply zlen_nonneg. Qed.

Lemma tryGrow_spec n b q : rep b q -> 0 <= n ->
  (exists b', tryGrowByReslice b n = Ret (b', (zlen (past q) + zlen (unread q), true)) /\ reserved n b' q) \/
  (tryGrowByReslice b n = Ret (b, (0, false)) /\ cap b - blen b < n).
Proof.
  intros H Hn. pose proof (reserved_cap _ _ _ H). unfold tryGrowByReslice. destruct H as (Ho & Hl & Hr & Hb & Hnil & spare & Hc & Hs).
  pose proof (zlen_nonneg (past q)). pose proof (zlen_nonneg (unread q)). destruct (Z.leb_spec n (cap b - blen b)); [left|right; done].
  rewrite reslice_in, bind_ret by lia. eexists. split; [do 3 f_equal; lia|]. split_and!; [done|cbn; lia|done|done|done|]. exists spare. split; [done|].
  unfold cap in *. rewrite Hc, !zlen_app in *. lia.
Qed.

Lemma copy_at_spec n b q p : reserved n b q -> zlen p = n ->
  exists b', copy_at b (zlen (past q) + zlen (unread q)) p = Ret (b', n) /\ (is_gostring p -> rep b' (MkQueue (past q) (unread q ++ p) (last q))).
Proof.
  intros H Hp. pose proof (reserved_cap _ _ _ H) as Hcap. destruct H as (Ho & Hl & Hr & Hb & Hnil & spare & Hc & Hs).
  pose proof (zlen_nonneg (past q)). pose proof (zlen_nonneg (unread q)). pose proof (zlen_nonneg p). unfold copy_at, subslice_from.
  rewrite subslice_in, bind_ret by lia. assert (slice (cells b) (zlen (past q) + zlen (unread q)) (blen b) = Ret (take (length p) spare)) as ->.
  { rewrite Hc, Hl, app_assoc, <- zlen_app. rewrite <- (take_drop (length p) spare) at 1. replace n with (zlen (take (length p) spare)) at 1 by (rewrite zlen_take; unfold zlen in *; lia).
    apply slice_app_mid. }
  rewrite bind_ret. eexists. split; [do 2 f_equal; rewrite zlen_take; unfold zlen in *; lia|]. intros Hpb.
  assert (take (Z.to_nat (zlen (past q) + zlen (unread q))) (cells b) ++ copy_slice (take (length p) spare) p ++ drop (Z.to_nat (blen b)) (cells b) = past q ++ (unread q ++ p) ++ drop (length p) spare) as Hcells.
  { rewrite Hl. assert (cells b = (past q ++ unread q) ++ spare) as -> by (rewrite Hc; apply app_assoc). assert (Z.to_nat (zlen (past q) + zlen (unread q)) = length (past q ++ unread q)) as -> by (rewrite length_app; unfold zlen; lia).
    rewrite take_app_length. replace (Z.to_nat (zlen (past q) + zlen (unread q) + n)) with (length (past q ++ unread q) + length p)%nat by (rewrite length_app; unfold zlen in *; lia).
    rewrite drop_app_add. unfold copy_slice. rewrite length_take, Nat.min_l by (unfold zlen in *; lia). rewrite take_ge by lia.
    rewrite (drop_ge (take _ _)) by (rewrite length_take; lia). rewrite app_nil_r, <- !app_assoc. done. }
  split_and!; cbn; rewrite ?Hcells.
  - done.
  - rewrite zlen_app. lia.
  - done.
  - rewrite Hc in Hb. apply Forall_app in Hb as [? [? ?]%Forall_app]. repeat apply Forall_app_2; try done. by apply Forall_drop.
  - intros Hn. specialize (Hnil Hn). rewrite Hnil in Hc. symmetry in Hc. apply app_nil in Hc as [-> [-> ->]%app_nil]. destruct p; [by rewrite drop_nil|].
    rewrite zlen_nil in Hs. rewrite zlen_cons in Hp. pose proof (zlen_nonneg p). lia.
  - exists (drop (length p) spare). split; [done|apply zlen_nonneg].
Qed.

(** What growing does to the queue. *)
Definition grown (q : queue) (past' : gostring) (l : Z) : Prop :=
  (past' = past q /\ l = last q) \/ (past' = [] /\ (l = last q \/ unread q = [] /\ l = opInvalid)).

Lemma zero_bytes n : is_gostring (replicate n 0).
Proof. apply Forall_replicate. unfold is_byte. lia. Qed.

(** Sliding the bytes to the front of the array. *)
Lemma slide_spec n b q : rep b q -> 0 <= n -> zlen (unread q) + n <= cap b ->
  exists b', (s ← subslice_from b (off b); old ← view b s; '(b, _) ← copy_at b 0 old; Ret b) = Ret b' /\
    reslice (set_off b' 0) (zlen (unread q) + n) = Ret (set_len (set_off b' 0) (zlen (unread q) + n)) /\
    reserved n (set_len (set_off b' 0) (zlen (unread q) + n)) (MkQueue [] (unread q) (last q)).
Proof.
  intros H Hn Hfit. pose proof (reserved_cap _ _ _ H) as Hcap. destruct (rep_unread b q H) as [-> Hv]. rewrite bind_ret, Hv, bind_ret.
  destruct H as (Ho & Hl & Hr & Hb & Hnil & spare & Hc & Hs). pose proof (zlen_nonneg (past q)). pose proof (zlen_nonneg (unread q)).
  unfold copy_at, subslice_from. rewrite subslice_in, bind_ret by lia.
  assert (slice (cells b) 0 (blen b) = Ret (past q ++ unread q)) as ->.
  { rewrite Hc, Hl, app_assoc, Z.add_0_r, <- zlen_app. apply (slice_app_mid []). }
  rewrite !bind_ret. eexists. split; [done|]. set (c := _ ++ _ ++ drop _ (cells b)).
  assert (c = unread q ++ (drop (length (unread q)) (past q ++ unread q) ++ spare)) as Hcells.
  { assert (drop (Z.to_nat (blen b)) (cells b) = spare) as Hd.
    { rewrite Hl, Hc, app_assoc. apply drop_app_length'. rewrite length_app. unfold zlen. lia. }
    unfold c, copy_slice. rewrite Hd. change (Z.to_nat 0) with 0%nat. rewrite take_0, take_ge, <- !app_assoc by (rewrite length_app; lia). done. }
  assert (zlen c = cap b) as Hlen.
  { rewrite Hcells. unfold cap. rewrite Hc, !zlen_app, zlen_drop, zlen_app. unfold zlen. lia. }
  split; [apply reslice_in; unfold cap; cbn [cells set_off set_cells]; lia|].
  split_and!; cbn [off blen lastRead cells isnil set_off set_len set_cells past unread last].
  - done.
  - rewrite zlen_nil. lia.
  - done.
  - rewrite Hcells. rewrite Hc in Hb. apply Forall_app in Hb as [? [? ?]%Forall_app]. repeat apply Forall_app_2; try done. apply Forall_drop. by apply Forall_app.
  - intros Hi. apply zlen_0. rewrite Hlen. unfold cap. by rewrite (Hnil Hi).
  - eexists. split; [exact Hcells|]. pose proof (f_equal zlen Hcells) as Hz. rewrite zlen_app, Hlen in Hz. lia.
Qed.

Context (Hround : forall c, 0 <= c -> c <= round c) (Hmax : maxAlloc <= 2 ^ 62).

(** A new array of at least [n] more cells. *)
Lemma growSlice_spec n b q : rep b q -> 0 <= n -> zlen (past q) + zlen (unread q) + n <= maxAlloc -> 2 * cap b <= maxAlloc ->
  exists b', growSlice round maxAlloc b (off b + n) = Ret b' /\
    reslice (set_off b' 0) (zlen (unread q) + n) = Ret (set_len (set_off b' 0) (zlen (unread q) + n)) /\
    reserved n (set_len (set_off b' 0) (zlen (unread q) + n)) (MkQueue [] (unread q) (last q)).
Proof.
  intros H Hn H1 H2. pose proof (reserved_cap _ _ _ H) as Hcap. destruct (rep_unread b q H) as [Hsub Hv]. unfold growSlice. rewrite Hsub, bind_ret, Hv, bind_ret.
  destruct H as (Ho & Hl & Hr & Hb & Hnil & spare & Hc & Hs). pose proof (zlen_nonneg (past q)). pose proof (zlen_nonneg (unread q)). cbv zeta.
  set (c := if zlen (unread q) + (off b + n) <? _ then _ else _). assert (zlen (unread q) + zlen (past q) + n <= c <= maxAlloc) as Hcb by (unfold c; destruct (Z.ltb_spec (zlen (unread q) + (off b + n)) (2 * (cap b - off b))); lia).
  rewrite (proj2 (Z.ltb_ge _ _)) by lia. pose proof (Hround c ltac:(lia)) as Hrc. eexists. split; [done|].
  assert (copy_slice (replicate (Z.to_nat (round c)) 0) (unread q) = unread q ++ replicate (Z.to_nat (round c) - length (unread q)) 0) as Hcells.
  { unfold copy_slice. rewrite length_replicate, take_ge, drop_replicate by (unfold zlen in *; lia). done. }
  split; [apply reslice_in; unfold cap; cbn [cells set_off]; rewrite Hcells, zlen_app, zlen_replicate; unfold zlen in *; lia|].
  split_and!; cbn [off blen lastRead cells isnil set_off set_len past unread last].
  - done.
  - rewrite zlen_nil. lia.
  - done.
  - rewrite Hcells. rewrite Hc in Hb. apply Forall_app in Hb as [? [? ?]%Forall_app]. apply Forall_app_2; [done|apply zero_bytes].
  - done.
  - eexists. split; [exact Hcells|]. rewrite zlen_replicate. unfold zlen in *. lia.
Qed.

Lemma grow_spec n b q : rep b q -> 0 <= n -> 4 * (zlen (past q) + zlen (unread q) + n) + 4 <= maxAlloc ->
  exists b' past' l, grow round maxAlloc b n = Ret (b', zlen past' + zlen (unread q)) /\ reserved n b' (MkQueue past' (unread q) l) /\ grown q past' l.
Proof.
  intros H Hn Hb. pose proof (zlen_nonneg (past q)). pose proof (zlen_nonneg (unread q)). unfold grow.
  assert (Len b = zlen (unread q)) as HL by (destruct H as (Ho & Hl & _); unfold Len; lia). rewrite HL.
  assert (exists b1 p1 l1, (if (zlen (unread q) =? 0) && negb (off b =? 0) then Reset b else b) = b1 /\ rep b1 (MkQueue p1 (unread q) l1) /\ grown q p1 l1 /\ zlen p1 <= zlen (past q)) as (b1 & p1 & l1 & -> & Hrep1 & Hg & Hp1).
  { destruct (_ && _) eqn:He.
    - assert (unread q = []) as Hu by (apply zlen_0; lia). exists (Reset b), [], opInvalid. rewrite Hu. split_and!; [done|by apply (rep_Reset b q)|unfold grown; rewrite Hu; tauto|rewrite zlen_nil; lia].
    - exists b, (past q), (last q). split_and!; [done|by destruct q|by left|done]. }
  assert (grown q [] l1) as Hg' by (destruct Hg as [[_ ->]|[_ Hg]]; right; tauto).
  pose proof (zlen_nonneg p1). destruct (tryGrow_spec n b1 _ Hrep1 Hn) as [(b2 & -> & Hrep2)|[-> Hfull]]; cbn [past unread] in *; rewrite bind_ret.
  { exists b2, p1, l1. split_and!; [done|done|done]. }
  destruct (isnil b1 && (n <=? smallBufferSize)) eqn:Hsmall.
  { apply andb_true_iff in Hsmall as [Hi Hsm]. destruct Hrep1 as (Ho & Hl & Hr & _ & Hnil & spare & Hc & _). specialize (Hnil Hi). cbn [past unread last] in *. rewrite Hnil in Hc. symmetry in Hc.
    apply app_nil in Hc as [-> [Hu ->]%app_nil]. rewrite Hu in *. rewrite zlen_nil in *. eexists _, [], l1. split; [done|]. split; [|done].
    split_and!; cbn [off blen lastRead cells isnil past unread last]; [done|rewrite ?(zlen_nil (A := Z)); lia|done|apply zero_bytes|done|]. exists (replicate (Z.to_nat smallBufferSize) 0). split; [done|]. rewrite zlen_replicate. unfold smallBufferSize in *. lia. }
  assert (0 <= cap b1) as Hcap0 by apply zlen_nonneg. pose proof (quot_bounds (cap b1) 2 Hcap0 ltac:(lia)) as Hq. cbn [past unread last] in *.
  destruct (Z.leb_spec n (Z.quot (cap b1) 2 - zlen (unread q))) as [Hslide|Hnew].
  - destruct (slide_spec n b1 _ Hrep1 Hn) as (b2 & E & E2 & Hrep2); [cbn [unread]; lia|]. cbn [unread last] in *. rewrite E, bind_ret, E2, bind_ret. by eexists _, [], l1.
  - rewrite (proj2 (Z.ltb_ge _ _)) by (unfold MaxInt; lia).
    destruct (growSlice_spec n b1 _ Hrep1 Hn) as (b2 & E & E2 & Hrep2); [cbn [past unread]; lia|lia|]. cbn [unread last] in *. rewrite E, bind_ret, E2, bind_ret. by eexists _, [], l1.
Qed.

Lemma reserve_spec n b q : rep b q -> 0 <= n -> 4 * (zlen (past q) + zlen (unread q) + n) + 4 <= maxAlloc ->
  exists b' past' l, reserve round maxAlloc b n = Ret (b', zlen past' + zlen (unread q)) /\ reserved n b' (MkQueue past' (unread q) l) /\ grown q past' l.
Proof.
  intros H Hn Hb. unfold reserve. destruct (tryGrow_spec n b q H Hn) as [(b2 & -> & H2)|[-> _]]; rewrite bind_ret; [|by apply grow_spec].
  exists b2, (past q), (last q). split_and!; [done|by destruct q|by left].
Qed.

(** ** Writing *)
Lemma rep_set_last b q l : rep b q -> rep (set_last b l) (MkQueue (past q) (unread q) l).
Proof. intros (Ho & Hl & _ & Hb & Hn & Hc). by split_and!. Qed.

Lemma grown_invalid q past' l : grown (MkQueue (past q) (unread q) opInvalid) past' l -> forgets (past q) past' /\ l = opInvalid.
Proof. intros [[-> ->]|[-> [-> |[_ ->]]]]; split; try done; [by left|by right..]. Qed.

Lemma reserve_write b q n : rep b q -> 0 <= n -> 4 * (zlen (past q) + zlen (unread q) + n) + 4 <= maxAlloc ->
  exists b' past', reserve round maxAlloc (set_last b opInvalid) n = Ret (b', zlen past' + zlen (unread q)) /\ forgets (past q) past' /\ reserved n b' (MkQueue past' (unread q) opInvalid).
Proof.
  intros H Hn Hb. destruct (reserve_spec n _ _ (rep_set_last b q opInvalid H) Hn) as (b' & past' & l & E & Hr & Hg); [done|].
  apply grown_invalid in Hg as [Hf ->]. by exists b', past'.
Qed.

Lemma append_spec b q p : rep b q -> is_gostring p -> 4 * (zlen (past q) + zlen (unread q) + zlen p) + 4 <= maxAlloc ->
  exists b' past', ('(b, m) ← reserve round maxAlloc (set_last b opInvalid) (zlen p); copy_at b m p) = Ret (b', zlen p) /\
    forgets (past q) past' /\ rep b' (MkQueue past' (unread q ++ p) opInvalid).
Proof.
  intros H Hp Hb. destruct (reserve_write b q (zlen p) H) as (b1 & past' & -> & Hf & Hr); [apply zlen_nonneg|done|]. rewrite bind_ret.
  destruct (copy_at_spec (zlen p) b1 _ p Hr eq_refl) as (b2 & E & Hrep). cbn [past unread last] in *. exists b2, past'. split_and!; [done|done|by apply Hrep].
Qed.

Lemma WriteByte_spec b q c : rep b q -> is_byte c -> 4 * (zlen (past q) + zlen (unread q) + 1) + 4 <= maxAlloc ->
  exists b' past', WriteByte round maxAlloc b c = Ret b' /\ forgets (past q) past' /\ rep b' (MkQueue past' (unread q ++ [c]) opInvalid).
Proof.
  intros H Hc Hb. unfold WriteByte. destruct (reserve_write b q 1 H) as (b1 & past' & -> & Hf & Ho & Hl & Hr & Hcb & Hnil & spare & Hcells & Hs); [lia|done|].
  cbn [past unread last] in *. rewrite bind_ret, Hl. rewrite (proj2 (Z.ltb_lt _ _)) by lia. destruct spare as [|x spare]; [rewrite zlen_nil in Hs; lia|].
  assert (store (cells b1) (zlen past' + zlen (unread q)) c = Ret (past' ++ (unread q ++ [c]) ++ spare)) as ->.
  { rewrite Hcells, app_assoc, <- zlen_app. unfold zlen. rewrite store_nat by (rewrite !length_app; cbn [length]; lia).
    rewrite <- (Nat.add_0_r (length _)), insert_app_r. cbn [insert list_insert]. by rewrite <- !app_assoc. }
  rewrite bind_ret. eexists _, past'. split; [done|]. split; [done|]. split_and!; cbn.
  - done.
  - rewrite zlen_app, zlen_cons, zlen_nil. lia.
  - done.
  - rewrite Hcells in Hcb. apply Forall_app in Hcb as [? [? Hsp]%Forall_app]. inversion_clear Hsp. repeat apply Forall_app_2; try done. by constructor.
  - intros Hi. rewrite (Hnil Hi) in Hcells. symmetry in Hcells. apply app_nil in Hcells as [_ [_ ?]%app_nil]. done.
  - eexists. split; [done|apply zlen_nonneg].
Qed.

Lemma WriteRune_spec b q r : rep b q -> - 2 ^ 31 <= r < 2 ^ 31 -> 4 * (zlen (past q) + zlen (unread q) + 4) + 4 <= maxAlloc ->
  exists b' past', WriteRune round maxAlloc b r = Ret (b', zlen (encoding r)) /\ forgets (past q) past' /\ rep b' (MkQueue past' (unread q ++ encoding r) opInvalid).
Proof.
  intros H Hr Hb. unfold WriteRune. destruct (Z.ltb_spec (uint32 r) RuneSelf) as [Hlt|Hge].
  - assert (encoding r = [byte r]) as -> by (unfold encoding, AppendRune, rune1Max, RuneSelf in *; by rewrite (proj2 (Z.leb_le _ _)) by lia).
    destruct (WriteByte_spec b q (byte r) H) as (b' & past' & -> & Hf & Hrep); [apply Z.mod_pos_bound; lia|lia|]. rewrite bind_ret. by exists b', past'.
  - clear Hge. destruct (reserve_write b q UTFMax H) as (b1 & past' & -> & Hf & Hres); [unfold UTFMax; lia|done|]. pose proof (reserved_cap _ _ _ Hres) as Hcap.
    destruct Hres as (Ho & Hl & Hlast & Hcb & Hnil & spare & Hcells & Hs). cbn [past unread last] in *. rewrite bind_ret. unfold UTFMax in *.
    pose proof (zlen_nonneg past'). pose proof (zlen_nonneg (unread q)). rewrite subslice_in, bind_ret by lia.
    assert (view b1 (0, zlen past' + zlen (unread q)) = Ret (past' ++ unread q)) as ->.
    { unfold view. cbn [fst snd]. rewrite Hcells, app_assoc, <- zlen_app. apply (slice_app_mid []). }
    rewrite bind_ret, AppendRune_encoding. pose proof (encoding_length r Hr) as Hel. destruct (encoding_spec r Hr) as [Hchar _].
    assert (zlen ((past' ++ unread q) ++ encoding r) <= cap b1) as Hfit by (rewrite !zlen_app; lia). rewrite (proj2 (Z.leb_le _ _) Hfit). cbv zeta.
    eexists _, past'. split; [do 2 f_equal; cbn; rewrite !zlen_app; lia|]. split; [done|]. split_and!; cbn [off blen lastRead cells isnil set_len set_cells past unread last].
    + done.
    + rewrite !zlen_app. lia.
    + done.
    + rewrite Hcells in Hcb. apply Forall_app in Hcb as [? [? ?]%Forall_app]. repeat apply Forall_app_2; try done; [by apply utf8_char_bytes|]. apply Forall_drop. rewrite Hcells. by repeat apply Forall_app_2.
    + intros Hi. rewrite (Hnil Hi) in Hcells. symmetry in Hcells. apply app_nil in Hcells as [_ [_ ->]%app_nil]. rewrite zlen_nil in Hs. lia.
    + eexists. split; [by rewrite <- !app_assoc|apply zlen_nonneg].
Qed.

(** ** Reading *)
Lemma rep_took b q data l : rep b q -> data = take (length data) (unread q) -> rep (set_last (set_off b (off b + zlen data)) l) (took q data l).
Proof.
  intros (Ho & Hl & _ & Hb & Hn & spare & Hc & Hs) Hd. assert (unread q = data ++ drop (length data) (unread q)) as Hu by (rewrite Hd at 1; symmetry; apply take_drop).
  split_and!; cbn [off blen lastRead cells isnil set_off set_last took past unread last]; [rewrite zlen_app; lia| |done|done|done|].
  - rewrite Hl. rewrite Hu at 1. rewrite !zlen_app. lia.
  - exists spare. split; [|done]. rewrite Hc. rewrite Hu at 1. by rewrite <- !app_assoc.
Qed.

Lemma rep_empty b q : rep b q -> empty b = bool_decide (unread q = []).
Proof.
  intros (Ho & Hl & _). unfold empty. pose proof (zlen_nonneg (past q)). destruct (unread q) as [|c u]; [rewrite bool_decide_true by done; rewrite zlen_nil in Hl; lia|].
  rewrite bool_decide_false by done. rewrite zlen_cons in Hl. pose proof (zlen_nonneg u). lia.
Qed.

Lemma rep_sub b q lo hi data rest : rep b q -> unread q = data ++ rest -> lo = off b -> hi = off b + zlen data ->
  subslice b lo hi = Ret (lo, hi) /\ forall o l, view (set_last (set_off b o) l) (lo, hi) = Ret data.
Proof.
  intros H Hu -> ->. pose proof (reserved_cap _ _ _ H). destruct H as (Ho & Hl & _ & _ & _ & spare & Hc & _). rewrite Hu, zlen_app in Hl.
  pose proof (zlen_nonneg (past q)). pose proof (zlen_nonneg data). pose proof (zlen_nonneg rest). split; [apply subslice_in; lia|].
  intros o l. unfold view. cbn [fst snd set_last set_off cells]. rewrite Hc, Hu, <- app_assoc, Ho. apply slice_app_mid.
Qed.

Lemma take_take_length {A} (n : nat) (u : list A) : take n u = take (length (take n u)) u.
Proof. rewrite length_take. destruct (decide (n <= length u)%nat); [by rewrite Nat.min_l|]. by rewrite Nat.min_r, !take_ge by lia. Qed.

Lemma Read_spec b q k : rep b q -> 0 <= k -> exists b' x q', apply (ORead k) b = Ret (b', x) /\ qstep q (ORead k) x q' /\ rep b' q'.
Proof.
  intros H Hk. pose proof (rep_set_last b q opInvalid H) as H0. cbn [apply]. unfold Read. rewrite (rep_empty _ _ H0). cbn [unread]. case_bool_decide as He.
  - rewrite bind_ret. eexists _, _, _. split; [done|]. split; [by apply q_read_empty|by eapply rep_Reset].
  - destruct (rep_unread _ _ H0) as [-> Hv0]. rewrite bind_ret, Hv0, bind_ret. cbn [unread]. set (data := take _ (unread q)). eexists _, _, _. split; [done|]. split; [by apply q_read|].
    pose proof (rep_took _ _ data (if 0 <? zlen data then opRead else opInvalid) H0) as Ht. cbn [unread] in Ht. destruct (0 <? zlen data); by apply Ht, take_take_length.
Qed.

Lemma Next_spec b q n : rep b q -> 0 <= n -> exists b' x q', apply (ONext n) b = Ret (b', x) /\ qstep q (ONext n) x q' /\ rep b' q'.
Proof.
  intros H Hn. pose proof (rep_set_last b q opInvalid H) as H0. cbn [apply]. unfold Next. set (data := take (Z.to_nat n) (unread q)).
  assert ((if Len (set_last b opInvalid) <? n then Len (set_last b opInvalid) else n) = zlen data) as ->.
  { destruct H as (Ho & Hl & _). unfold Len, data. cbn. rewrite zlen_take. destruct (Z.ltb_spec (blen b - off b) n); lia. }
  destruct (rep_sub _ _ (off (set_last b opInvalid)) (off (set_last b opInvalid) + zlen data) data (drop (Z.to_nat n) (unread q)) H0) as [-> Hv]; [symmetry; apply take_drop|done..|]. rewrite bind_ret.
  pose proof (rep_took _ _ data (if 0 <? zlen data then opRead else opInvalid) H0 (take_take_length _ _)) as Ht.
  eexists _, (MkObs data 0 false), _. split; [|split; [by apply q_next|exact Ht]]. rewrite bind_ret. destruct (0 <? zlen data); [by rewrite Hv, bind_ret|].
  by rewrite (Hv _ opInvalid : view (set_off (set_last b opInvalid) (off (set_last b opInvalid) + zlen data)) _ = _), bind_ret.
Qed.

Lemma ReadByte_spec b q : rep b q -> exists b' x q', apply OReadByte b = Ret (b', x) /\ qstep q OReadByte x q' /\ rep b' q'.
Proof.
  intros H. cbn [apply]. unfold ReadByte. rewrite (rep_empty _ _ H). case_bool_decide as He.
  - rewrite bind_ret. eexists _, _, _. split; [done|]. split; [by apply q_read_byte_empty|by eapply rep_Reset].
  - destruct (unread q) as [|c u] eqn:Hu; [done|]. pose proof (rep_took b q [c] opRead H) as Ht. rewrite Hu in Ht. specialize (Ht eq_refl). destruct H as (Ho & Hl & _ & _ & _ & spare & Hc & _).
    rewrite Hu in Hl, Hc. rewrite zlen_cons in Hl. pose proof (zlen_nonneg u). rewrite (proj2 (Z.ltb_lt _ _)) by lia.
    assert (index (cells b) (off b) = Ret c) as ->. { rewrite Hc, Ho. pose proof (index_app_nat (past q) ((c :: u) ++ spare) 0 c eq_refl) as Hi. by rewrite Z.add_0_r in Hi. }
    rewrite !bind_ret. eexists _, _, _. split; [done|]. split; [by eapply q_read_byte|exact Ht].
Qed.

Lemma rep_gostring b q : rep b q -> is_gostring (unread q).
Proof. intros (_ & _ & _ & Hb & _ & spare & Hc & _). rewrite Hc in Hb. by apply Forall_app in Hb as [_ [? _]%Forall_app]. Qed.

Lemma rune_of_prefix u e v : rune_of u = (e, v) -> exists rest, u = e ++ rest.
Proof.
  unfold rune_of. destruct (utf8_prefix u) as [e'|] eqn:He; intros [= <- <-]; [by apply utf8_prefix_Some in He as [_ ?]|]. exists (drop 1 u). symmetry. apply take_drop.
Qed.

Lemma ReadRune_spec b q : rep b q -> exists b' x q', apply OReadRune b = Ret (b', x) /\ qstep q OReadRune x q' /\ rep b' q'.
Proof.
  intros H. cbn [apply]. unfold ReadRune. rewrite (rep_empty _ _ H). case_bool_decide as He.
  - rewrite bind_ret. eexists _, _, _. split; [done|]. split; [by apply q_read_rune_empty|by eapply rep_Reset].
  - destruct (rep_unread _ _ H) as [-> Hv0]. rewrite bind_ret, Hv0, bind_ret. pose proof (rep_gostring b q H) as Hg. destruct (rune_of (unread q)) as [e v] eqn:Hr.
    destruct (rune_of_prefix _ _ _ Hr) as [rest Hu]. pose proof (rep_took b q e (zlen e) H) as Ht. rewrite Hu, take_app_length in Ht. specialize (Ht eq_refl).
    destruct (unread q) as [|c u] eqn:Hq; [done|]. change (index (c :: u) 0) with (Ret c). rewrite bind_ret.
    assert ((if c <? RuneSelf then Ret (set_last (set_off b (off b + 1)) opReadRune1, Some (c, 1))
             else '(r, n) ← DecodeRune (c :: u); Ret (set_last (set_off b (off b + n)) n, Some (r, n))) = Ret (set_last (set_off b (off b + zlen e)) (zlen e), Some (v, zlen e))) as ->.
    { inversion_clear Hg as [|? ? Hb Hg']. unfold rune_of in Hr. destruct (Z.ltb_spec c RuneSelf) as [Hlt|Hge].
      - rewrite (utf8_prefix_char [c] u (ascii_char c Hb Hlt) : utf8_prefix (c :: u) = _) in Hr. injection Hr as <- <-. done.
      - rewrite DecodeRune_string, utf8_decode_spec by (by constructor). destruct (utf8_prefix (c :: u)); injection Hr as <- <-; by rewrite bind_ret. }
    rewrite bind_ret. eexists _, _, _. split; [done|]. split; [by eapply q_read_rune; rewrite Hq|exact Ht].
Qed.

Lemma readSlice_spec b q d : rep b q -> let '(line, e) := line_of (unread q) d in
  exists s, readSlice b d = Ret (set_last (set_off b (off b + zlen line)) opRead, s, e) /\ view (set_last (set_off b (off b + zlen line)) opRead) s = Ret line /\
    rep (set_last (set_off b (off b + zlen line)) opRead) (took q line opRead).
Proof.
  intros H. destruct (line_of (unread q) d) as [line e] eqn:Hl. unfold readSlice. destruct (rep_unread _ _ H) as [-> Hv0]. rewrite bind_ret, Hv0, bind_ret. unfold line_of in Hl. unfold IndexByte.
  assert (blen b = off b + zlen (unread q)) as Hbl by (destruct H as (Ho & ? & _); lia).
  destruct (list_find (eq d) (unread q)) as [[i c]|] eqn:Hf; injection Hl as <- <-.
  - apply list_find_Some in Hf as (Hi & _ & _). apply lookup_lt_Some in Hi. rewrite (proj2 (Z.ltb_ge _ 0)) by lia.
    assert (zlen (take (S i) (unread q)) = Z.of_nat i + 1) as Hz by (rewrite zlen_take; unfold zlen; lia). rewrite <- Z.add_assoc, <- Hz.
    destruct (rep_sub b q (off b) (off b + zlen (take (S i) (unread q))) (take (S i) (unread q)) (drop (S i) (unread q)) H) as [-> Hv]; [symmetry; apply take_drop|done..|].
    rewrite bind_ret. eexists. split; [done|]. split; [apply Hv|]. apply rep_took; [done|apply take_take_length].
  - cbn [Z.ltb Z.compare]. rewrite Hbl. destruct (rep_sub b q (off b) (off b + zlen (unread q)) (unread q) [] H) as [-> Hv]; [by rewrite app_nil_r|done..|].
    rewrite bind_ret. eexists. split; [done|]. split; [apply Hv|]. apply rep_took; [done|]. by rewrite take_ge.
Qed.

Lemma rep_give_back b q k : rep b q -> 0 <= k -> rep (set_last (if k <=? off b then set_off b (off b - k) else b) opInvalid) (give_back q k).
Proof.
  intros H Hk. pose proof H as (Ho & Hl & Hlast & Hb & Hn & spare & Hc & Hs). unfold give_back. rewrite Ho. destruct (Z.leb_spec k (zlen (past q))); [|by apply rep_set_last].
  assert (length (past q) - Z.to_nat k <= length (past q))%nat by lia. unfold zlen in *. set (i := (length (past q) - Z.to_nat k)%nat) in *.
  split_and!; cbn [off blen lastRead cells isnil set_off set_last past unread last]; unfold zlen; [rewrite length_take; lia|rewrite length_app, length_take, length_drop; lia|done|done|done|].
  exists spare. split; [|done]. rewrite Hc, <- app_assoc, (app_assoc (take i (past q))), take_drop. done.
Qed.

Lemma unread_spec b q o : rep b q -> o = OUnreadByte \/ o = OUnreadRune -> exists b' x q', apply o b = Ret (b', x) /\ qstep q o x q' /\ rep b' q'.
Proof.
  intros H. assert (lastRead b = last q) as Hlast by apply H. intros [-> | ->]; cbn [apply]; unfold UnreadByte, UnreadRune; rewrite Hlast.
  - destruct (Z.eqb_spec (last q) opInvalid); [eexists _, _, _; split; [done|]; by split; [apply q_unread_byte_err|]|].
    eexists _, _, _. split; [done|]. split; [by apply q_unread_byte|]. pose proof (rep_give_back b q 1 H ltac:(lia)) as Hg. cbn [set_last off].
    destruct (Z.leb_spec 1 (off b)); [rewrite (proj2 (Z.ltb_lt _ _)) by lia|rewrite (proj2 (Z.ltb_ge _ _)) by lia]; exact Hg.
  - unfold opInvalid in *. destruct (Z.leb_spec (last q) 0); [eexists _, _, _; split; [done|]; by split; [apply q_unread_rune_err|]|].
    eexists _, _, _. split; [done|]. split; [by apply q_unread_rune|]. apply rep_give_back; [done|lia].
Qed.

(** ** One operation *)
Definition wf_op (o : op) : Prop :=
  match o with
  | OWrite p | OWriteString p => is_gostring p
  | OWriteByte c => is_byte c
  | OWriteRune r => - 2 ^ 31 <= r < 2 ^ 31
  | ORead k => 0 <= k
  | _ => True
  end.
(** The room an operation asks for. *)
Definition size (o : op) : Z :=
  match o with OWrite p | OWriteString p => zlen p | OWriteByte _ => 1 | OWriteRune _ => 4 | OGrow n => Z.max 0 n | _ => 0 end.
Definition held (q : queue) : Z := zlen (past q) + zlen (unread q).

Lemma forgets_held p p' : forgets p p' -> zlen p' <= zlen p.
Proof. intros [-> | ->]; [done|apply zlen_nonneg]. Qed.
Lemma took_held q data l : (exists rest, unread q = data ++ rest) -> held (took q data l) <= held q.
Proof. intros [rest Hu]. unfold held, took. cbn [past unread]. rewrite Hu, drop_app_length, !zlen_app. lia. Qed.
Lemma line_of_prefix u d line e : line_of u d = (line, e) -> exists rest, u = line ++ rest.
Proof.
  unfold line_of. destruct (list_find _ _) as [[i c]|]; intros [= <- <-]; [exists (drop (S i) u); symmetry; apply take_drop|exists []; by rewrite app_nil_r].
Qed.
Lemma give_back_held q k : held (give_back q k) <= held q.
Proof.
  unfold held, give_back. destruct (_ <=? _); [|done]. cbn [past unread]. rewrite zlen_app, zlen_take, zlen_drop. unfold zlen. lia.
Qed.

Lemma qstep_held q o x q' : wf_op o -> qstep q o x q' -> held q' <= held q + size o.
Proof.
  intros Hwf Hs. pose proof (zlen_nonneg (past q)). pose proof (zlen_nonneg (unread q)).
  destruct Hs; cbn [size]; rewrite ?Z.add_0_r; subst; try apply give_back_held; try (apply took_held; first [eexists; by eapply eq_sym, take_drop|eexists; simpl; eassumption|by eapply rune_of_prefix|by eapply line_of_prefix]);
    unfold held; cbn [past unread empty_queue]; change (zlen (@nil Z)) with 0; rewrite ?zlen_app, ?zlen_cons, ?zlen_nil, ?zlen_take; try match goal with Hf : forgets _ _ |- _ => apply forgets_held in Hf end; try lia.
  - pose proof (encoding_length r Hwf). lia.
  - match goal with Hg : _ \/ _ |- _ => destruct Hg as [[-> _]|[-> _]] end; change (zlen (@nil Z)) with 0; lia.
Qed.

Lemma Grow_spec b q n : rep b q -> 0 <= n -> 4 * (held q + n) + 4 <= maxAlloc -> exists b' x q', apply (OGrow n) b = Ret (b', x) /\ qstep q (OGrow n) x q' /\ rep b' q'.
Proof.
  intros H Hn Hb. unfold held in Hb. cbn [apply]. unfold Grow. rewrite (proj2 (Z.ltb_ge _ _)) by lia. destruct (grow_spec n b q H Hn Hb) as (b1 & past' & l & -> & Hres & Hg). rewrite bind_ret.
  pose proof (reserved_cap _ _ _ Hres). destruct Hres as (Ho & Hl & Hlast & Hcb & Hnil & spare & Hc & Hs). cbn [past unread last] in *. pose proof (zlen_nonneg past'). pose proof (zlen_nonneg (unread q)).
  rewrite reslice_in, bind_ret by lia. eexists _, _, (MkQueue past' (unread q) l). split; [done|]. split; [by apply q_grow|]. split_and!; cbn; [done|lia|done|done|done|].
  exists spare. split; [done|apply zlen_nonneg].
Qed.

Lemma buffer_Truncate_spec b q n : rep b q -> 0 <= n <= zlen (unread q) -> exists b' x q', apply (OTruncate n) b = Ret (b', x) /\ qstep q (OTruncate n) x q' /\ rep b' q'.
Proof.
  intros H Hn. cbn [apply]. unfold Truncate. destruct (Z.eqb_spec n 0) as [->|Hne].
  { rewrite bind_ret. eexists _, _, _. split; [done|]. split; [apply q_truncate_0|by eapply rep_Reset]. }
  pose proof (reserved_cap _ _ _ H). destruct H as (Ho & Hl & Hlast & Hcb & Hnil & spare & Hc & Hs). pose proof (zlen_nonneg (past q)).
  unfold Len. cbn [set_last blen off]. replace ((n <? 0) || (blen b - off b <? n)) with false by lia. rewrite reslice_in, bind_ret by (unfold cap in *; cbn; lia).
  eexists _, _, _. split; [done|]. split; [apply q_truncate; lia|]. split_and!; cbn; [done|rewrite zlen_take; lia|done|done|done|].
  exists (drop (Z.to_nat n) (unread q) ++ spare). split; [|apply zlen_nonneg]. by rewrite (app_assoc (take _ _)), take_drop.
Qed.

Lemma apply_panics b q o k : rep b q -> qpanic q o k -> apply o b = Panic k.
Proof.
  intros (Ho & Hl & _) Hp. pose proof (zlen_nonneg (past q)). pose proof (zlen_nonneg (unread q)). destruct Hp as [n Hn|n Hn|n Hn|n Hn]; cbn [apply].
  - unfold Next, Len. cbn [set_last blen off]. replace (blen b - off b <? n) with false by lia. unfold subslice. by replace ((0 <=? _) && (_ <=? off b + n) && _) with false by lia.
  - unfold Peek, Len. replace (blen b - off b <? n) with false by lia. unfold subslice. by replace ((0 <=? _) && (_ <=? off b + n) && _) with false by lia.
  - unfold Truncate, Len. rewrite (proj2 (Z.eqb_neq _ _)) by lia. cbn [set_last blen off]. by replace ((n <? 0) || (blen b - off b <? n)) with true by lia.
  - unfold Grow. by rewrite (proj2 (Z.ltb_lt _ _)) by lia.
Qed.

Lemma pure_read_spec b q : rep b q ->
  (forall n, 0 <= n -> exists x, apply (OPeek n) b = Ret (b, x) /\ qstep q (OPeek n) x q) /\
  (exists x, apply OString b = Ret (b, x) /\ qstep q OString x q) /\ (exists x, apply OLen b = Ret (b, x) /\ qstep q OLen x q).
Proof.
  intros H. assert (Len b = zlen (unread q)) as HL by (destruct H as (Ho & Hl & _); unfold Len; lia). destruct (rep_unread _ _ H) as [Hsub Hv]. split_and!.
  - intros n Hn. eexists. split; [|by apply q_peek]. cbn [apply]. unfold Peek. rewrite HL. destruct (Z.ltb_spec (zlen (unread q)) n).
    + rewrite Hsub, !bind_ret, Hv, bind_ret. by rewrite take_ge by (unfold zlen in *; lia).
    + destruct (rep_sub b q (off b) (off b + n) (take (Z.to_nat n) (unread q)) (drop (Z.to_nat n) (unread q)) H) as [-> Hv'];
        [symmetry; apply take_drop|done|rewrite zlen_take; f_equal; lia|]. rewrite !bind_ret.
      rewrite (Hv' (off b) (lastRead b) : view b (off b, off b + n) = _), bind_ret. done.
  - eexists. split; [|apply q_string]. cbn [apply]. unfold String_. by rewrite Hsub, bind_ret, Hv, bind_ret.
  - eexists. split; [|apply q_len]. cbn [apply]. by rewrite HL.
Qed.

Lemma apply_spec b q o : rep b q -> wf_op o -> 4 * (held q + size o) + 4 <= maxAlloc ->
  (exists b' x q', apply o b = Ret (b', x) /\ qstep q o x q' /\ rep b' q') \/ (exists k, apply o b = Panic k /\ qpanic q o k).
Proof.
  intros H Hwf Hb. pose proof (pure_read_spec b q H) as (Hpeek & (xs & Hs & Hqs) & (xl & Hlen & Hql)). unfold held in Hb.
  assert (forall b' past' p (x : obs), qstep q o x (MkQueue past' (unread q ++ p) opInvalid) -> (apply o b = Ret (b', x)) -> rep b' (MkQueue past' (unread q ++ p) opInvalid) ->
    exists b' x q', apply o b = Ret (b', x) /\ qstep q o x q' /\ rep b' q') as Hw by (intros; by eexists _, _, _).
  destruct o as [p|p|c|r|k|n| | | | |d|d|n| | |n| |n]; cbn [wf_op size] in *.
  1,2: left; destruct (append_spec b q p H Hwf ltac:(lia)) as (b' & past' & E & Hf & Hr); refine (Hw b' past' p _ _ _ Hr); [by constructor|]; cbn [apply]; unfold Write, WriteString; by rewrite E, bind_ret.
  1: left; destruct (WriteByte_spec b q c H Hwf ltac:(lia)) as (b' & past' & E & Hf & Hr); refine (Hw b' past' [c] _ _ _ Hr); [by constructor|]; cbn [apply]; by rewrite E, bind_ret.
  1: left; destruct (WriteRune_spec b q r H Hwf ltac:(lia)) as (b' & past' & E & Hf & Hr); refine (Hw b' past' (encoding r) _ _ _ Hr); [by constructor|]; cbn [apply]; by rewrite E, bind_ret.
  - left. by apply Read_spec.
  - destruct (Z.leb_spec 0 n); [left; by apply Next_spec|]. right. eexists. split; [eapply apply_panics; [exact H|by apply qp_next]|by apply qp_next].
  - left. by apply ReadByte_spec.
  - left. by apply ReadRune_spec.
  - left. apply unread_spec; tauto.
  - left. apply unread_spec; tauto.
  - left. pose proof (readSlice_spec b q d H) as Hl. destruct (line_of (unread q) d) as [line e] eqn:El. destruct Hl as (s & E & Hv & Hr). cbn [apply]. unfold ReadBytes. rewrite E, bind_ret, Hv, !bind_ret.
    eexists _, _, _. split; [done|]. split; [by eapply q_read_bytes|done].
  - left. pose proof (readSlice_spec b q d H) as Hl. destruct (line_of (unread q) d) as [line e] eqn:El. destruct Hl as (s & E & Hv & Hr). cbn [apply]. unfold ReadString. rewrite E, bind_ret, Hv, !bind_ret.
    eexists _, _, _. split; [done|]. split; [by eapply q_read_string|done].
  - destruct (Z.leb_spec 0 n) as [Hn|]; [left; destruct (Hpeek n Hn) as (x & ? & ?); by exists b, x, q|]. right. eexists. split; [eapply apply_panics; [exact H|by apply qp_peek]|by apply qp_peek].
  - left. by exists b, xs, q.
  - left. by exists b, xl, q.
  - destruct (decide (0 <= n <= zlen (unread q))); [left; by apply buffer_Truncate_spec|]. right. assert (n < 0 \/ zlen (unread q) < n) by lia. eexists. split; [eapply apply_panics; [exact H|by apply qp_truncate]|by apply qp_truncate].
  - left. eexists _, _, _. split; [done|]. split; [apply q_reset|by eapply rep_Reset].
  - destruct (Z.leb_spec 0 n); [left; apply Grow_spec; [done..|unfold held; lia]|]. right. eexists. split; [eapply apply_panics; [exact H|by apply qp_grow]|by apply qp_grow].
Qed.

Definition sizes (os : list op) : Z := foldr (fun o n => size o + n) 0 os.
Lemma sizes_nonneg os : 0 <= sizes os.
Proof. induction os as [|o os IH]; cbn; [done|]. assert (0 <= size o) by (destruct o; cbn; try lia; apply zlen_nonneg). fold (sizes os). lia. Qed.

(** What the last read took is still behind the bytes to read. *)
Definition settled (q : queue) (st : standing) : Prop :=
  opRead <= last q /\ (st = AfterEOF -> last q = opRead) /\
  (st <> AfterGrow -> last q <= zlen (past q)) /\ (st = Settled -> last q = opRead -> past q <> []).

Lemma line_of_nonempty u d line : line_of u d = (line, false) -> line <> [].
Proof.
  unfold line_of. destruct (list_find (eq d) u) as [[i y]|] eqn:Hf; [|done]. intros [= <-].
  apply list_find_Some in Hf as (Hi & _). by destruct u.
Qed.
Lemma rune_of_nonempty u : u <> [] -> (rune_of u).1 <> [].
Proof.
  intros Hu. unfold rune_of. destruct (utf8_prefix u) as [e|] eqn:He; [|by destruct u].
  apply utf8_prefix_Some in He as [He _]. cbn [fst]. intros ->. done.
Qed.

Lemma took_settled q data l st : opRead <= l <= zlen data -> st <> AfterGrow -> (st = AfterEOF -> l = opRead) -> (l = opRead -> st = Settled -> data <> []) ->
  settled (took q data l) st.
Proof.
  intros Hl Hst He Hd. pose proof (zlen_nonneg (past q)). unfold settled, took. cbn [past last]. rewrite zlen_app. split_and!; [lia|done|lia|].
  intros Hs Hr. specialize (Hd Hr Hs). by destruct (past q), data.
Qed.
Lemma settled_invalid past' u st : st <> AfterEOF -> settled (MkQueue past' u opInvalid) st.
Proof. intros Hst. unfold settled. cbn [last past]. pose proof (zlen_nonneg past'). unfold opRead, opInvalid. split_and!; [lia|done|lia|done]. Qed.

Lemma give_back_app q p e : past q = p ++ e -> give_back q (zlen e) = MkQueue p (e ++ unread q) opInvalid.
Proof.
  intros Hp. unfold give_back. rewrite Hp, zlen_app, length_app. pose proof (zlen_nonneg p). rewrite (proj2 (Z.leb_le _ _)) by lia.
  replace (length p + length e - Z.to_nat (zlen e))%nat with (length p) by (unfold zlen; lia). by rewrite take_app_length, drop_app_length.
Qed.

(** The last [k] bytes behind those to read. *)
Lemma past_suffix q k : 0 <= k <= zlen (past q) -> exists p e, past q = p ++ e /\ zlen e = k.
Proof.
  intros Hk. exists (take (length (past q) - Z.to_nat k) (past q)), (drop (length (past q) - Z.to_nat k) (past q)).
  split; [by rewrite take_drop|]. unfold zlen in *. rewrite length_drop. lia.
Qed.

Lemma unread_contract q st o x q' : settled q st -> is_unread o = true -> qstep q o x q' -> exists st', contract q st o x q' st' /\ settled q' st'.
Proof.
  intros HS Ho Hq. pose proof HS as (Hr & He & Hg & Hs). destruct (in_doubt st o) eqn:Hd.
  - destruct Hq; try done; try (eexists; split; [by apply c_in_doubt_err|done]).
    + exists Settled. split; [by apply (c_in_doubt q st OUnreadByte)|]. unfold give_back. by case_match; apply settled_invalid.
    + exists Settled. split; [by apply (c_in_doubt q st OUnreadRune)|]. unfold give_back. by case_match; apply settled_invalid.
  - destruct Hq as [| | | | | | | | | | |Hl|Hl|Hl|Hl| | | | | | | | |]; try done; cbn [in_doubt] in Hd.
    + exists st. split; [by apply c_unread_err|done].
    + assert (st = Settled) as -> by by destruct st. exists Settled.
      assert (past q <> []) as Hne. { destruct (decide (last q = opRead)); [by apply Hs|]. intros Hp. rewrite Hp in Hg. specialize (Hg ltac:(done)). unfold opRead, opInvalid, zlen in *. cbn in *. lia. }
      destruct (past_suffix q 1) as (p & [|c [|? ?]] & Hp & Hz); [|done| |unfold zlen in Hz; cbn in Hz; lia].
      { destruct (past q) as [|? l]; [done|]. rewrite zlen_cons. pose proof (zlen_nonneg l). lia. }
      replace (give_back q 1) with (MkQueue p ([c] ++ unread q) opInvalid) by (symmetry; apply (give_back_app q p [c] Hp)).
      split; [by apply c_unread_byte|by apply settled_invalid].
    + exists st. split; [|done]. destruct (decide (last q = opInvalid)); [by apply c_unread_err|]. apply c_unread_no_rune; [done|]. unfold opRead, opInvalid in *. lia.
    + exists Settled. assert (st <> AfterGrow) as Hst by by destruct st. specialize (Hg Hst). unfold opInvalid in Hl.
      destruct (past_suffix q (last q) ltac:(lia)) as (p & e & Hp & Hz). pose proof (give_back_app q p e Hp) as Hgb. rewrite Hz in Hgb. rewrite Hgb.
      split; [|by apply settled_invalid]. apply c_unread_rune; [done|done| |done]. intros ->. unfold zlen in Hz. cbn in Hz. lia.
Qed.

Lemma read_standing q data : settled (took q data (if 0 <? zlen data then opRead else opInvalid)) Settled.
Proof.
  pose proof (zlen_nonneg data). unfold opRead, opInvalid. destruct (Z.ltb_spec 0 (zlen data)); apply took_settled; unfold opRead; try done; try lia.
  by intros _ _ ->.
Qed.

Lemma qstep_contract q st o x q' : settled q st -> qstep q o x q' -> exists st', contract q st o x q' st' /\ settled q' st'.
Proof.
  intros HS Hq. destruct (is_unread o) eqn:Ho; [by eapply unread_contract|].
  exists (next_standing q st o x). split; [by apply c_step|].
  assert (forall line d e, line_of (unread q) d = (line, e) -> settled (took q line opRead) (if e : bool then AfterEOF else Settled)) as Hline.
  { intros line d e Hl. pose proof (zlen_nonneg line). unfold opRead. destruct e; apply took_settled; unfold opRead; try done; try lia.
    intros _ _. by eapply line_of_nonempty. }
  destruct Hq; try done; cbn [next_standing o_err]; try (by apply settled_invalid); try (by apply read_standing); try (by eapply Hline).
  - pose proof (rune_of_nonempty (unread q) ltac:(done)) as Hne. destruct (rune_of (unread q)) as [e' v']. simplify_eq. cbn [fst] in Hne. pose proof (zlen_nonneg e).
    apply took_settled; unfold opRead; try done; lia.
  - destruct HS as (Hr & He & Hg & _). pose proof (zlen_nonneg past').
    assert (opRead <= l) by (unfold opRead, opInvalid in *; lia). destruct (Z.eqb_spec (last q) opInvalid) as [Hi|Hi].
    + assert (l = opInvalid) as -> by (unfold opInvalid in *; lia). apply settled_invalid. intros Hst. apply He in Hst. by rewrite Hst in Hi.
    + by split_and!.
Qed.

Lemma exec_spec os b q st : rep b q -> settled q st -> Forall wf_op os -> 4 * (held q + sizes os) + 4 <= maxAlloc ->
  qruns q st os (exec os b).1 (exec os b).2.
Proof.
  intros H HS Hwf. revert b q st H HS. induction Hwf as [|o os Ho Hos IH]; intros b q st H HS Hb; cbn [exec]; [constructor|]. cbn [sizes foldr] in Hb. fold (sizes os) in Hb. pose proof (sizes_nonneg os).
  destruct (apply_spec b q o H Ho) as [(b' & x & q' & -> & Hq & Hr)|(k & -> & Hk)]; [lia| |by constructor].
  destruct (qstep_contract q st o x q' HS Hq) as (st' & Hc & HS').
  pose proof (qstep_held _ _ _ _ Ho Hq). specialize (IH b' q' st' Hr HS' ltac:(lia)). destruct (exec os b') as [xs p]. by econstructor.
Qed.

(** ** Whole streams *)
Lemma WriteTo_spec {E} (short : E) (w : gostring -> Z * option E) b q : rep b q -> unread q <> [] -> 0 <= (w (unread q)).1 <= zlen (unread q) ->
  exists b', WriteTo short w b = Ret (b', (w (unread q)).1, match (w (unread q)).2 with Some e => Some e | None => if (w (unread q)).1 =? zlen (unread q) then None else Some short end) /\
    exists past' l, rep b' (MkQueue past' (drop (Z.to_nat (w (unread q)).1) (unread q)) l).
Proof.
  intros H Hne Hm. pose proof (rep_set_last b q opInvalid H) as H0. unfold WriteTo. assert (Len (set_last b opInvalid) = zlen (unread q)) as -> by (destruct H as (Ho & Hl & _); unfold Len; cbn; lia).
  assert (0 < zlen (unread q)) by (destruct (unread q); [done|]; rewrite zlen_cons; pose proof (zlen_nonneg l); lia). rewrite (proj2 (Z.ltb_lt _ _)) by done.
  destruct (rep_unread _ _ H0) as [-> Hv]. rewrite bind_ret, Hv, bind_ret. cbn [unread]. destruct (w (unread q)) as [m e]. cbn [fst snd] in *. rewrite (proj2 (Z.ltb_ge _ _)) by lia.
  assert (zlen (take (Z.to_nat m) (unread q)) = m) as Hz by (rewrite zlen_take; lia). pose proof (rep_took _ _ (take (Z.to_nat m) (unread q)) opInvalid H0 (take_take_length _ _)) as Ht. rewrite Hz in Ht.
  assert (length (take (Z.to_nat m) (unread q)) = Z.to_nat m) as Hz' by (unfold zlen in *; lia). unfold took in Ht. cbn [past unread] in Ht. rewrite Hz' in Ht.
  destruct e as [e|]; [eexists; split; [done|]; by eexists _, _|]. destruct (Z.eqb_spec m (zlen (unread q))) as [->|]; cbn [negb]; eexists; (split; [done|]); [|by eexists _, _].
  exists [], opInvalid. rewrite drop_ge by (unfold zlen; lia). by eapply rep_Reset.
Qed.

(** One round: what is stored in the cells after the bytes becomes part of them. *)
Lemma ReadFrom_round b q : rep b q -> last q = opInvalid -> 4 * (held q + MinRead) + 4 <= maxAlloc ->
  exists b1 i k dst past', grow round maxAlloc b MinRead = Ret (b1, i) /\ reslice b1 i = Ret (set_len b1 i) /\
    subslice (set_len b1 i) i (cap (set_len b1 i)) = Ret (i, i + k) /\ MinRead <= k /\ slice (cells (set_len b1 i)) i (i + k) = Ret dst /\ zlen past' <= zlen (past q) /\
    forall data, is_gostring data -> zlen data <= k ->
      let b2 := set_cells (set_len b1 i) (take (Z.to_nat i) (cells (set_len b1 i)) ++ copy_slice dst data ++ drop (Z.to_nat (i + k)) (cells (set_len b1 i))) in
      reslice b2 (i + zlen data) = Ret (set_len b2 (i + zlen data)) /\ rep (set_len b2 (i + zlen data)) (MkQueue past' (unread q ++ data) opInvalid).
Proof.
  intros H Hq Hb. unfold held in Hb. destruct (grow_spec MinRead b q H) as (b1 & past' & l & E & Hres & Hg); [unfold MinRead; lia|done|].
  assert (grown (MkQueue (past q) (unread q) opInvalid) past' l) as Hg' by (unfold grown in *; by rewrite Hq in Hg). apply grown_invalid in Hg' as [Hf ->]. apply forgets_held in Hf.
  pose proof (reserved_cap _ _ _ Hres) as Hcap. destruct Hres as (Ho & Hl & Hlast & Hcb & Hnil & spare & Hcells & Hsp). cbn [past unread last] in *.
  pose proof (zlen_nonneg past'). pose proof (zlen_nonneg (unread q)). assert (0 <= MinRead) by (by vm_compute). assert (cap b1 = zlen past' + zlen (unread q) + zlen spare) as Hc by (unfold cap; rewrite Hcells, !zlen_app; lia).
  assert (cells b1 = (past' ++ unread q) ++ spare) as Hcells' by (rewrite Hcells; apply app_assoc).
  eexists b1, _, (zlen spare), spare, past'. split; [exact E|]. cbn [cells set_len]. split_and!; [apply reslice_in; lia| |done| |done|].
  - unfold cap in *. cbn [cells set_len]. rewrite Hc. apply subslice_in; unfold cap; cbn [cells set_len]; lia.
  - rewrite Hcells', <- zlen_app. pose proof (slice_app_mid (past' ++ unread q) spare []) as Hm. by rewrite app_nil_r in Hm.
  - intros data Hd Hdl. cbv zeta. assert (take (Z.to_nat (zlen past' + zlen (unread q))) (cells b1) ++ copy_slice spare data ++ drop (Z.to_nat (zlen past' + zlen (unread q) + zlen spare)) (cells b1)
        = past' ++ (unread q ++ data) ++ drop (length data) spare) as ->.
    { rewrite Hcells'. rewrite (take_app_length' (past' ++ unread q)) by (rewrite length_app; unfold zlen; lia). rewrite (drop_ge ((past' ++ unread q) ++ spare)) by (rewrite !length_app; unfold zlen; lia).
      unfold copy_slice. rewrite (take_ge data) by (unfold zlen in Hdl; lia). by rewrite app_nil_r, <- !app_assoc. }
    assert (zlen (past' ++ (unread q ++ data) ++ drop (length data) spare) = cap b1) as Hz by (rewrite !zlen_app, zlen_drop, Hc; unfold zlen in *; lia).
    split; [apply reslice_in; unfold cap; cbn [cells set_cells set_len]; pose proof (zlen_nonneg data); rewrite Hz; lia|].
    split_and!; cbn [off blen lastRead cells isnil set_len set_cells past unread last].
    + done.
    + rewrite zlen_app. lia.
    + done.
    + rewrite Hcells in Hcb. apply Forall_app in Hcb as [? [? ?]%Forall_app]. repeat apply Forall_app_2; try done. by apply Forall_drop.
    + intros Hi. apply zlen_0. rewrite Hz. unfold cap. by rewrite (Hnil Hi).
    + eexists. split; [done|apply zlen_nonneg].
Qed.

(** A reader that delivers its chunks, each of which fits, and then the end of the file. *)
Definition chunk_reader {E} (EOF : E) (s : list gostring) (k : Z) : list gostring * (gostring * Z * option E) :=
  match s with [] => ([], ([], 0, Some EOF)) | c :: s => (s, (c, zlen c, None)) end.
Lemma ReadFrom_spec {E} (EOF : E) `{!EqDecision E} fuel b q (s : list gostring) n : rep b q -> last q = opInvalid -> Forall (fun c => is_gostring c /\ zlen c <= MinRead) s ->
  4 * (held q + zlen (concat s) + MinRead) + 4 <= maxAlloc -> (length s < fuel)%nat ->
  exists b', ReadFrom_loop round maxAlloc EOF (chunk_reader EOF) fuel b s n = Ret (b', [], n + zlen (concat s), None) /\ exists past', rep b' (MkQueue past' (unread q ++ concat s) opInvalid).
Proof.
  intros H Hq Hs. revert b q n H Hq. revert fuel. induction Hs as [|c s [Hc Hcl] Hs IH]; intros [|fuel] b q n H Hq Hb Hf; try (cbn in Hf; lia); cbn [ReadFrom_loop concat] in *.
  - destruct (ReadFrom_round b q H Hq) as (b1 & i & k & dst & past' & -> & E1 & E2 & Hk & E3 & _ & Hd); [rewrite zlen_nil in Hb; lia|]. rewrite bind_ret, E1, bind_ret, E2, bind_ret. cbn [chunk_reader]. rewrite E3, bind_ret.
    destruct (Hd [] (Forall_nil_2 _)) as [E4 Hr]; [unfold MinRead in Hk; rewrite zlen_nil; lia|]. change (0 <? 0) with false. cbv iota. change (i + 0) with (i + zlen (@nil Z)). rewrite E4, bind_ret, decide_True by done.
    eexists. split; [done|]. by exists past'.
  - rewrite zlen_app in *. pose proof (zlen_nonneg c). pose proof (zlen_nonneg (concat s)).
    destruct (ReadFrom_round b q H Hq) as (b1 & i & k & dst & past' & -> & E1 & E2 & Hk & E3 & Hpl & Hd); [lia|]. rewrite bind_ret, E1, bind_ret, E2, bind_ret. cbn [chunk_reader]. rewrite E3, bind_ret.
    destruct (Hd c Hc) as [E4 Hr]; [lia|]. rewrite (proj2 (Z.ltb_ge _ 0)) by lia. rewrite E4, bind_ret.
    destruct (IH fuel _ _ (n + zlen c) Hr eq_refl) as (b' & -> & past2 & Hr2); [unfold held in *; cbn [past unread]; rewrite zlen_app; lia|cbn in Hf; lia|].
    exists b'. split; [do 3 f_equal; lia|]. exists past2. cbn [unread] in Hr2. by rewrite <- app_assoc in Hr2.
Qed.
End refinement.


(** C17: every sequence of operations on a new buffer makes the observations of a
    queue of bytes: what is written comes out once and in order, whole lines and
    code points by the methods that read those.  [UnreadByte] gives back the last
    byte of the last read and [UnreadRune] the code point of the last [ReadRune],
    and they fail if there was none.  Two situations are left open: after a line
    read that returned [io.EOF], and after [Grow], an unread may do either, the
    code departing from the documentation there.  The only panics are [Grow],
    [Next] and [Peek] with a negative count and [Truncate] out of range.  That
    holds whichever array the bytes are in: growing reslices, slides, or
    allocates, and never fails while a quarter of the largest allocation is
    enough for all that is written. *)
Theorem buffer_refines_queue (round : Z -> Z) (maxAlloc : Z) (Hround : forall c, 0 <= c -> c <= round c) (Hmax : maxAlloc <= 2 ^ 62)
  (os : list op) (Hwf : Forall wf_op os) (Hsize : 4 * sizes os + 4 <= maxAlloc) :
  qruns empty_queue Settled os (exec round maxAlloc os zero_Buffer).1 (exec round maxAlloc os zero_Buffer).2.
Proof. apply exec_spec; [done|done|apply rep_zero|by apply settled_invalid|done|exact Hsize]. Qed.
Lemma buffer_refines_queue_witness :
  let os := [OWrite (str "ab"); OReadByte; OUnreadByte; OGrow 100; OReadBytes 98; OUnreadByte; OTruncate 2] in
  exec (fun c => c) (2 ^ 40) os zero_Buffer =
    ([MkObs [] 2 false; MkObs [97] 0 false; MkObs [] 0 false; MkObs [] 0 false; MkObs [97; 98] 0 false; MkObs [] 0 false], Some ExplicitPanic) /\
  qruns empty_queue Settled os (exec (fun c => c) (2 ^ 40) os zero_Buffer).1 (exec (fun c => c) (2 ^ 40) os zero_Buffer).2.
Proof.
  split; [vm_compute; reflexivity|]. apply (buffer_refines_queue (fun c => c) (2 ^ 40)); [intros; reflexivity|lia| |vm_compute; discriminate].
  repeat constructor; unfold is_byte; cbn; lia.
Defined.
