(* ===== verification/Utf8.v ===== *)
(** * Validated UTF-8 text ([utf8/utf8.go], [utf8/text.go])

    The loops run over byte indices; one round per byte and one to leave the
    loop are enough fuel ([utf8_firstInvalid_loop_spec],
    [utf8_walk_back]). *)
From stdpp Require Import pretty.
From S2P Require Import Prelude Core Ranges GoUtf8.
#[local] Open Scope Z_scope.

Definition ReplacementChar : Z := RuneError.

Record RuneDecodingResult := MkRuneDecodingResult { r : Z; byteLen : Z }.
Inductive RuneDecodingResultKind :=
  | RuneDecodingResultKind_Valid
  | RuneDecodingResultKind_Invalid
  | RuneDecodingResultKind_Empty.
#[global] Instance RuneDecodingResultKind_eq_dec : EqDecision RuneDecodingResultKind.
Proof. solve_decision. Defined.

Definition TryDecodeFirstRune (s : gostring) : go RuneDecodingResult :=
  '(r, size) ← DecodeRuneInString s; Ret (MkRuneDecodingResult r (uint_wrap 8 size)).
Definition Kind (d : RuneDecodingResult) : RuneDecodingResultKind :=
  if byteLen d =? 0 then RuneDecodingResultKind_Empty
  else if (r d =? RuneError) && (byteLen d =? 1) then RuneDecodingResultKind_Invalid
  else RuneDecodingResultKind_Valid.
Definition Rune (d : RuneDecodingResult) : go Z :=
  _ ← (if bool_decide (Kind d <> RuneDecodingResultKind_Valid) then Precondition false else Ret tt);
  Ret (r d).
Definition ByteLen (d : RuneDecodingResult) : Z := byteLen d.
Definition IsPotentialStartOfRune (b : Z) : bool := RuneStart b.

Definition utf8LeadByteInfo (b : Z) : Z * Z * Z * bool :=
  if (0xc2 <=? b) && (b <=? 0xdf) then (2, 0x80, 0xbf, true)
  else if b =? 0xe0 then (3, 0xa0, 0xbf, true)
  else if (0xe1 <=? b) && (b <=? 0xec) then (3, 0x80, 0xbf, true)
  else if b =? 0xed then (3, 0x80, 0x9f, true)
  else if (0xee <=? b) && (b <=? 0xef) then (3, 0x80, 0xbf, true)
  else if b =? 0xf0 then (4, 0x90, 0xbf, true)
  else if (0xf1 <=? b) && (b <=? 0xf3) then (4, 0x80, 0xbf, true)
  else if b =? 0xf4 then (4, 0x80, 0x8f, true)
  else (0, 0, 0, false).

Definition isContinuationByte (b : Z) : bool := (0x80 <=? b) && (b <=? 0xbf).

Definition invalidUTF8SpanAt (text : gostring) (start : Z) : go Span :=
  b0 ← index text start;
  let '(width, secondMin, secondMax, ok) := utf8LeadByteInfo b0 in
  if negb ok then NewSpan start (start + 1)
  else if zlen text <=? start + 1 then NewSpan start (zlen text)
  else
    b1 ← index text (start + 1);
    if (b1 <? secondMin) || (secondMax <? b1) then NewSpan start (start + 2)
    else
      _ ← (if width =? 2 then Invariant false else Ret tt);
      if zlen text <=? start + 2 then NewSpan start (zlen text)
      else
        b2 ← index text (start + 2);
        if negb (isContinuationByte b2) then NewSpan start (start + 3)
        else
          _ ← (if width =? 3 then Invariant false else Ret tt);
          if zlen text <=? start + 3 then NewSpan start (zlen text)
          else
            b3 ← index text (start + 3);
            if negb (isContinuationByte b3) then NewSpan start (start + 4)
            else
              _ ← Invariant false;
              NewSpan start (start + 4).

Fixpoint firstInvalidSpan_loop (fuel : nat) (text : gostring) (i : Z) : go (option Span) :=
  match fuel with
  | O => OutOfFuel
  | S fuel =>
      if i <? zlen text then
        rest ← slice_from text i;
        '(r, size) ← DecodeRuneInString rest;
        if (r =? RuneError) && (size =? 1) then
          sp ← invalidUTF8SpanAt text i; Ret (Some sp)
        else firstInvalidSpan_loop fuel text (i + size)
      else Ret None
  end.
Definition firstInvalidSpan (text : gostring) : go (option Span) :=
  firstInvalidSpan_loop (S (length text)) text 0.

(** ** Text *)
Record Text := MkText { text : gostring }.
Record TextParseError := MkTextParseError { errSpan : Span; firstInvalidBytes : gostring }.

Definition Len (t : Text) : Z := zlen (text t).
Definition GetByte (t : Text) (i : Z) : go Z := index (text t) i.
Definition String_ (t : Text) : gostring := text t.

Definition invalidBytesPrefix (s : gostring) (span : Span) : go gostring :=
  bs ← slice s (Start span) (End span); Ret (copy_slice (replicate 4 0) bs).

Definition NewTextParseError (inputLen : Z) (firstInvalidSpan : Span) (invalidUTF8 : gostring)
    : go TextParseError :=
  let start := Start firstInvalidSpan in
  _ ← (if start <? 0 then Precondition false else Ret tt);
  let end_ := End firstInvalidSpan in
  _ ← (if inputLen <? end_ then Precondition false else Ret tt);
  length ← bUnwrap (Length int_ firstInvalidSpan);
  _ ← (if negb (zlen invalidUTF8 =? length) then Precondition false else Ret tt);
  _ ← (if (zlen invalidUTF8 <? 1) || (4 <? zlen invalidUTF8) then Precondition false else Ret tt);
  full ← FullRune invalidUTF8;
  _ ← (if negb full && negb (end_ =? inputLen) then Precondition false else Ret tt);
  Ret (MkTextParseError firstInvalidSpan (copy_slice (replicate 4 0) invalidUTF8)).

Definition ParseText (s : gostring) : go (Text * option TextParseError) :=
  sp ← firstInvalidSpan s;
  match sp with
  | Some span =>
      bytes ← invalidBytesPrefix s span;
      length ← bUnwrap (Length int_ span);
      prefix ← slice_to bytes length;
      err ← NewTextParseError (zlen s) span prefix;
      Ret (MkText [], Some err)
  | None => Ret (MkText s, None)
  end.

Definition MustParseText (s : gostring) : go Text :=
  '(text, err) ← ParseText s;
  _ ← (if bool_decide (err <> None) then Precondition false else Ret tt);
  Ret text.

Fixpoint CodePointContaining_walk (fuel : nat) (text : gostring) (start : Z) : go Z :=
  match fuel with
  | O => OutOfFuel
  | S fuel =>
      if 0 <=? start then
        b ← index text start;
        if negb (IsPotentialStartOfRune b) then CodePointContaining_walk fuel text (start - 1)
        else Ret start
      else Ret start
  end.

Definition CodePointContaining (t : Text) (offset : Z) : go (option Span) :=
  let text := text t in
  _ ← (if (offset <? 0) || (zlen text <? offset) then Precondition false else Ret tt);
  if (offset =? 0) || (offset =? zlen text) then Ret None
  else
    start ← CodePointContaining_walk (S (length text)) text (offset - 1);
    if start <? 0 then Ret None
    else
      rest ← slice_from text start;
      decoded ← TryDecodeFirstRune rest;
      let end_ := start + ByteLen decoded in
      if (start <? offset) && (offset <? end_) then sp ← NewSpan start end_; Ret (Some sp)
      else Ret None.

(** *** Error messages; [strconv.AppendInt] in base 10 is the decimal notation. *)
Definition AppendInt (n : Z) : gostring := str (pretty n).
Definition writeInt (b : gostring) (n : Z) : gostring := b ++ AppendInt n.
Definition hexDigits : gostring := str "0123456789ABCDEF".

Fixpoint writeInvalidBytesHex_loop (b bytes : gostring) (i : Z) (n : nat) : go gostring :=
  match n with
  | O => Ret b
  | S n =>
      value ← index bytes i;
      h ← index hexDigits (Z.shiftr value 4);
      l ← index hexDigits (Z.land value 0x0f);
      writeInvalidBytesHex_loop (b ++ [h] ++ [l]) bytes (i + 1) n
  end.
Definition writeInvalidBytesHex (b bytes : gostring) (length : Z) : go gostring :=
  writeInvalidBytesHex_loop b bytes 0 (Z.to_nat length).

Definition Error (e : TextParseError) : go gostring :=
  let span := errSpan e in
  length ← bUnwrap (Length int_ span);
  if length =? 1 then
    b ← writeInvalidBytesHex (str "invalid UTF-8 byte 0x") (firstInvalidBytes e) 1;
    Ret (writeInt (b ++ str " at byte offset ") (Start span))
  else
    b ← writeInvalidBytesHex (str "invalid UTF-8 bytes " ++ str "0x") (firstInvalidBytes e) length;
    Ret (writeInt (writeInt (b ++ str " at byte span [") (Start span) ++ str ", ") (End span)
         ++ [41]).

(** ** Specification *)

(** Bytes that no continuation turns into the beginning of an encoding. *)
Definition malformed (bs : gostring) : Prop := forall ext, utf8_prefix (bs ++ ext) = None.
(** A proper prefix of an encoding. *)
Definition truncated (bs : gostring) : Prop := exists ext, ext <> [] /\ utf8_char (bs ++ ext) = true.

Lemma utf8_LeadByteInfo_spec b :
  utf8LeadByteInfo b = match lead_info b with Some (w, l, h) => (w, l, h, true) | None => (0, 0, 0, false) end.
Proof. unfold utf8LeadByteInfo, lead_info. by repeat case_match. Qed.

Lemma utf8_decode_invalid s v n :
  is_gostring s -> s <> [] -> DecodeRuneInString s = Ret (v, n) ->
  if (v =? RuneError) && (n =? 1) then utf8_prefix s = None /\ n = 1
  else exists e rest, s = e ++ rest /\ utf8_char e = true /\ n = zlen e /\ v = utf8_value e.
Proof.
  intros Hs Hne. rewrite utf8_decode_spec by done. destruct s as [|b s]; [done|].
  destruct (utf8_prefix (b :: s)) as [e|] eqn:E; intros [= <- <-]; [|done].
  apply utf8_prefix_Some in E as [He [rest Hrest]].
  replace ((utf8_value e =? RuneError) && (zlen e =? 1)) with false; [by exists e, rest|].
  symmetry. apply andb_false_iff. destruct e as [|b0 [|b1 e]]; [done| |].
  - left. cbn in *. unfold RuneError. lia.
  - right. rewrite !zlen_cons. pose proof (zlen_nonneg e). lia.
Qed.

Lemma utf8_malformed_1 b0 : is_byte b0 -> lead_info b0 = None -> 0x80 <= b0 -> malformed [b0].
Proof.
  intros Hb E H ext. unfold utf8_prefix, lead_width. cbn [app]. rewrite E.
  change (take (Z.to_nat 1) (b0 :: ext)) with [b0]. rewrite utf8_char_1.
  by replace ((0 <=? b0) && (b0 <=? 127)) with false by lia.
Qed.

(** A lead byte followed by bytes that break the encoding. *)
Lemma utf8_malformed_lead b0 w l h b1 bs :
  lead_info b0 = Some (w, l, h) -> zlen bs <= w - 2 ->
  ((b1 < l \/ h < b1) \/ forallb tail_byte bs = false) -> malformed (b0 :: b1 :: bs).
Proof.
  intros E Hw Hbad ext. pose proof (utf8_lead_range _ _ _ _ E) as (_ & _ & Hr).
  unfold utf8_prefix, lead_width. cbn [app]. rewrite E, utf8_take_S, utf8_take_S by lia.
  rewrite utf8_char_lead by done. rewrite E. cbn [tl].
  destruct ((l <=? b1) && (b1 <=? h)) eqn:E1; [|by rewrite andb_false_r].
  destruct Hbad as [Hbad|Hbad]; [lia|].
  rewrite take_app_ge by (unfold zlen in Hw; lia).
  rewrite forallb_app, Hbad. by rewrite andb_false_r.
Qed.

Lemma utf8_truncated_lead b0 w l h bs :
  lead_info b0 = Some (w, l, h) -> zlen bs < w - 1 -> forallb tail_byte (tl bs) = true ->
  match bs with b1 :: _ => l <= b1 <= h | [] => True end -> truncated (b0 :: bs).
Proof.
  intros E Hw Ht Hb1.
  assert (l <= h) as Hlh by (revert E; lead_cases b0; intros [= <- <- <-]; lia).
  set (pad := match bs with [] => l :: replicate (Z.to_nat (w - 2)) 0x80
                          | _ => replicate (Z.to_nat (w - 1 - zlen bs)) 0x80 end).
  exists pad. assert (forall n, forallb tail_byte (replicate n 0x80) = true) as Hrep
    by (by induction n).
  split.
  { subst pad. destruct bs; [done|].
    destruct (Z.to_nat (w - 1 - zlen (z :: bs))) eqn:En; [lia|done]. }
  cbn [app]. rewrite utf8_char_lead by (subst pad; by destruct bs). rewrite E.
  pose proof (utf8_lead_range _ _ _ _ E) as (_ & _ & Hr).
  rewrite !andb_true_iff. subst pad. destruct bs as [|b1 bs]; cbn [app tl].
  - rewrite zlen_cons, zlen_replicate, Z2Nat.id, Hrep by lia. split_and!; [lia|done|lia].
  - rewrite !zlen_cons, zlen_app, zlen_replicate. rewrite zlen_cons in Hw. cbn [tl] in Ht.
    rewrite forallb_app, Ht, Hrep, Z2Nat.id by lia. split_and!; [lia|done|lia].
Qed.

(** The outcome of [invalidUTF8SpanAt]: the bytes [bs] of the span, and what follows them. *)
Definition invalid_bytes (bs suffix : gostring) : Prop :=
  1 <= zlen bs <= 4 /\
  ((malformed bs /\ FullRune bs = Ret true) \/ (truncated bs /\ suffix = [])).

Lemma utf8_NewSpan_len (pre bs : gostring) k :
  0 <= k -> k = zlen bs -> NewSpan (zlen pre) (zlen pre + k) = Ret (MkSpan (zlen pre) (zlen pre + zlen bs)).
Proof. intros Hk ->. apply ranges_NewSpan_ok. lia. Qed.

(** A computed span that covers invalid bytes [bs] at the head of [s], [pre] bytes into the text. *)
Definition spans_invalid (pre s : gostring) (r : go Span) : Prop :=
  exists bs suffix, s = bs ++ suffix /\ invalid_bytes bs suffix /\ r = Ret (MkSpan (zlen pre) (zlen pre + zlen bs)).

(** The lead byte is none. *)
Lemma utf8_spans_lead pre b0 rest :
  is_byte b0 -> lead_info b0 = None -> utf8_prefix (b0 :: rest) = None ->
  spans_invalid pre (b0 :: rest) (NewSpan (zlen pre) (zlen pre + 1)).
Proof.
  intros Hb E Hnone. exists [b0], rest. split_and!; [done| |by apply utf8_NewSpan_len].
  split; [unfold zlen; cbn; lia|]. left. split; [|apply utf8_FullRune_true; [done|]; left; unfold lead_width; by rewrite E].
  apply utf8_malformed_1; [done..|]. unfold utf8_prefix, lead_width in Hnone. rewrite E in Hnone.
  change (take (Z.to_nat 1) (b0 :: rest)) with [b0] in Hnone. rewrite utf8_char_1 in Hnone. unfold is_byte in Hb.
  destruct ((0 <=? b0) && (b0 <=? 127)) eqn:?; [done|lia].
Qed.

(** The text ends before the bytes its lead byte asks for. *)
Lemma utf8_spans_truncated pre b0 w l h bs :
  lead_info b0 = Some (w, l, h) -> zlen bs < w - 1 -> forallb tail_byte (tl bs) = true ->
  match bs with b1 :: _ => l <= b1 <= h | [] => True end ->
  spans_invalid pre (b0 :: bs) (NewSpan (zlen pre) (zlen (pre ++ b0 :: bs))).
Proof.
  intros E Hw Ht H1. pose proof (utf8_lead_range _ _ _ _ E) as (_ & _ & Hr). pose proof (zlen_nonneg bs).
  exists (b0 :: bs), []. rewrite zlen_app. split_and!; [by rewrite app_nil_r| |apply utf8_NewSpan_len; [rewrite zlen_cons; lia|done]].
  split; [rewrite zlen_cons; lia|]. right. split; [|done]. by apply (utf8_truncated_lead b0 w l h).
Qed.

(** The last byte read cannot follow the ones before it. *)
Lemma utf8_spans_malformed pre b0 w l h b1 bs suffix :
  is_byte b0 -> lead_info b0 = Some (w, l, h) -> zlen bs <= w - 2 ->
  ((b1 < l \/ h < b1) \/ forallb tail_byte bs = false) ->
  zlen bs = w - 2 \/ (b1 < l \/ h < b1) \/ (exists b2 bs', bs = b2 :: bs' /\ tail_byte b2 = false) ->
  spans_invalid pre (b0 :: b1 :: bs ++ suffix) (NewSpan (zlen pre) (zlen pre + (zlen bs + 2))).
Proof.
  intros Hb E Hw Hbad Hfull. pose proof (utf8_lead_range _ _ _ _ E) as (_ & _ & Hr). pose proof (zlen_nonneg bs).
  exists (b0 :: b1 :: bs), suffix. split_and!; [done| |apply utf8_NewSpan_len; rewrite ?zlen_cons; lia].
  split; [rewrite !zlen_cons; lia|]. left. split; [by apply (utf8_malformed_lead b0 w l h)|].
  apply utf8_FullRune_true; [done|]. destruct Hfull as [Hfull|Hfull].
  - left. unfold lead_width. rewrite E, !zlen_cons. lia.
  - right. by exists w, l, h, b1, bs.
Qed.

(** Without a code point at the head, the bytes after a good second byte are not all continuations. *)
Lemma utf8_no_prefix b0 w l h b1 bs suffix :
  lead_info b0 = Some (w, l, h) -> l <= b1 <= h -> zlen bs = w - 2 -> forallb tail_byte bs = true ->
  utf8_prefix (b0 :: b1 :: bs ++ suffix) <> None.
Proof.
  intros E H1 Hw Ht. pose proof (utf8_lead_range _ _ _ _ E) as (_ & _ & Hr).
  unfold utf8_prefix, lead_width. rewrite E, utf8_take_S, utf8_take_S by lia.
  replace (Z.to_nat (w - 1 - 1)) with (length bs) by (unfold zlen in Hw; lia). rewrite take_app_length.
  rewrite utf8_char_lead, E by done. cbn [tl]. rewrite Ht, zlen_cons.
  by replace ((zlen bs + 1 =? w - 1) && true && ((l <=? b1) && (b1 <=? h))) with true by lia.
Qed.

(** Reading a text behind a prefix. *)
Lemma utf8_behind (pre s : gostring) k :
  0 <= k -> (zlen (pre ++ s) <=? zlen pre + k) = (zlen s <=? k) /\ index (pre ++ s) (zlen pre + k) = index s k.
Proof. intros Hk. split; [rewrite zlen_app; lia|by apply index_app_r]. Qed.

Lemma utf8_invalidUTF8SpanAt_spec pre b0 rest :
  is_gostring (b0 :: rest) -> utf8_prefix (b0 :: rest) = None ->
  spans_invalid pre (b0 :: rest) (invalidUTF8SpanAt (pre ++ b0 :: rest) (zlen pre)).
Proof.
  intros Hs Hnone. assert (is_byte b0) as Hb by (by inversion Hs). unfold invalidUTF8SpanAt.
  replace (index (pre ++ b0 :: rest) (zlen pre)) with (Ret b0) by (rewrite <- (Z.add_0_r (zlen pre)), index_app_r; done).
  rewrite bind_ret, utf8_LeadByteInfo_spec.
  destruct (lead_info b0) as [[[w l] h]|] eqn:E; cbn [negb]; [|by apply utf8_spans_lead].
  pose proof (utf8_lead_range _ _ _ _ E) as (_ & _ & Hr).
  rewrite (proj1 (utf8_behind pre (b0 :: rest) 1 ltac:(lia))), (proj2 (utf8_behind pre (b0 :: rest) 1 ltac:(lia))).
  destruct rest as [|b1 rest]; [apply (utf8_spans_truncated _ _ w l h); [done|zlia|done..]|].
  rewrite !zlen_cons. pose proof (zlen_nonneg rest). rewrite (proj2 (Z.leb_gt _ 1)) by lia. change (index (b0 :: b1 :: rest) 1) with (Ret b1).
  rewrite bind_ret. destruct ((b1 <? l) || (h <? b1)) eqn:E1.
  { apply (utf8_spans_malformed _ _ w l h _ [] rest); [done..|zlia|left; lia|right; left; lia]. }
  destruct (Z.eqb_spec w 2) as [->|Hw2]; [by destruct (utf8_no_prefix b0 2 l h b1 [] rest); [| |cbn|..]; try done; lia|].
  rewrite bind_ret, (proj1 (utf8_behind pre _ 2 ltac:(lia))), (proj2 (utf8_behind pre _ 2 ltac:(lia))).
  destruct rest as [|b2 rest]; [apply (utf8_spans_truncated _ _ w l h); [done|zlia|done|lia]|].
  rewrite !zlen_cons. pose proof (zlen_nonneg rest). rewrite (proj2 (Z.leb_gt _ 2)) by lia. change (index (b0 :: b1 :: b2 :: rest) 2) with (Ret b2).
  rewrite bind_ret. change (isContinuationByte b2) with (tail_byte b2). destruct (tail_byte b2) eqn:E2; cbn [negb].
  2:{ apply (utf8_spans_malformed _ _ w l h _ [b2] rest); [done..|zlia|right; cbn; by rewrite E2|right; right; by exists b2, []]. }
  destruct (Z.eqb_spec w 3) as [->|Hw3]; [by destruct (utf8_no_prefix b0 3 l h b1 [b2] rest); try done; [lia|cbn; rewrite E2]|].
  assert (w = 4) as -> by lia.
  rewrite bind_ret, (proj1 (utf8_behind pre _ 3 ltac:(lia))), (proj2 (utf8_behind pre _ 3 ltac:(lia))).
  destruct rest as [|b3 rest]; [apply (utf8_spans_truncated _ _ 4 l h); [done|zlia|cbn; by rewrite E2|lia]|].
  rewrite !zlen_cons. pose proof (zlen_nonneg rest). rewrite (proj2 (Z.leb_gt _ 3)) by lia. change (index (b0 :: b1 :: b2 :: b3 :: rest) 3) with (Ret b3).
  rewrite bind_ret. change (isContinuationByte b3) with (tail_byte b3). destruct (tail_byte b3) eqn:E3; cbn [negb].
  { by destruct (utf8_no_prefix b0 4 l h b1 [b2; b3] rest); try done; [lia|cbn; rewrite E2, E3]. }
  apply (utf8_spans_malformed _ _ 4 l h _ [b2; b3] rest); [done..|right; cbn; by rewrite E2, E3|by left].
Qed.

Lemma valid_utf8_nil : valid_utf8 [].
Proof. by exists []. Qed.
Lemma valid_utf8_cons e s : utf8_char e = true -> valid_utf8 s -> valid_utf8 (e ++ s).
Proof. intros He (es & Hes & <-). exists (e :: es). split; [by constructor|done]. Qed.

Lemma is_gostring_app s t : is_gostring (s ++ t) <-> is_gostring s /\ is_gostring t.
Proof. apply Forall_app. Qed.

(** What the search for invalid bytes finds. *)
Definition first_invalid (s : gostring) (r : option Span) : Prop :=
  match r with
  | None => valid_utf8 s
  | Some sp => exists good bs suffix,
      s = good ++ bs ++ suffix /\ valid_utf8 good /\ invalid_bytes bs suffix /\
      sp = MkSpan (zlen good) (zlen good + zlen bs)
  end.

Definition shift_span (k : Z) (sp : Span) : Span := MkSpan (k + start sp) (k + end_ sp).

Lemma utf8_firstInvalid_loop_spec fuel pre rest :
  is_gostring rest -> (length rest < fuel)%nat ->
  exists r, firstInvalidSpan_loop fuel (pre ++ rest) (zlen pre) =
              Ret (shift_span (zlen pre) <$> r) /\ first_invalid rest r.
Proof.
  revert pre rest. induction fuel as [|fuel IH]; intros pre rest Hs Hf; [lia|].
  cbn [firstInvalidSpan_loop]. rewrite zlen_app. pose proof (zlen_nonneg rest).
  destruct (Z.ltb_spec (zlen pre) (zlen pre + zlen rest)) as [Hlt|Hge].
  2:{ exists None. assert (rest = []) as -> by (apply zlen_0; lia). split; [done|].
      apply valid_utf8_nil. }
  assert (rest <> []) as Hne by (intros ->; rewrite zlen_nil in Hlt; lia).
  rewrite slice_from_app_r, bind_ret.
  destruct (DecodeRuneInString rest) as [[v n]| |] eqn:E;
    [|by rewrite utf8_decode_spec in E by done..].
  apply utf8_decode_invalid in E; [|done..]. rewrite bind_ret.
  destruct ((v =? RuneError) && (n =? 1)).
  - destruct E as [Hnone _]. destruct rest as [|b0 rest]; [done|].
    destruct (utf8_invalidUTF8SpanAt_spec pre b0 rest Hs Hnone) as (bs & suffix & Hbs & Hinv & ->).
    exists (Some (MkSpan 0 (zlen bs))). split.
    + cbn. unfold shift_span. cbn. by rewrite Z.add_0_r.
    + exists [], bs, suffix. split_and!; [done|apply valid_utf8_nil|done|done].
  - destruct E as (e & rest' & -> & He & -> & _). rewrite app_assoc, <- zlen_app.
    apply is_gostring_app in Hs as [_ Hs]. pose proof (utf8_char_length e He) as Hlen.
    destruct (IH (pre ++ e) rest' Hs) as (r & -> & Hr).
    { rewrite length_app in Hf. unfold zlen in Hlen. lia. }
    exists (shift_span (zlen e) <$> r). split.
    + destruct r; [|done]. cbn. unfold shift_span. cbn. rewrite zlen_app. do 3 f_equal; lia.
    + destruct r as [sp|]; cbn in *; [|by apply valid_utf8_cons].
      destruct Hr as (good & bs & suffix & -> & Hg & Hinv & ->).
      exists (e ++ good), bs, suffix. split_and!; [by rewrite <- app_assoc|by apply valid_utf8_cons|done|].
      unfold shift_span. cbn. rewrite zlen_app. f_equal; lia.
Qed.

Lemma utf8_firstInvalidSpan_spec s :
  is_gostring s -> exists r, firstInvalidSpan s = Ret r /\ first_invalid s r.
Proof.
  intros Hs. destruct (utf8_firstInvalid_loop_spec (S (length s)) [] s Hs) as (r & E & Hr); [lia|].
  exists r. split; [|done]. change (zlen (@nil Z)) with 0 in E. unfold firstInvalidSpan.
  cbn [app] in E. rewrite E. destruct r as [[a b]|]; [|done]. done.
Qed.

Lemma utf8_short_Length a k :
  0 <= k <= 4 -> bUnwrap (Length int_ (MkSpan a (a + k))) = Ret k.
Proof.
  intros Hk. unfold Length, wrap. cbn [start end_ signed bits int_].
  replace (a + k - a) with k by lia. rewrite sint_wrap_id by lia.
  by rewrite (proj2 (Z.ltb_ge k 0)) by lia.
Qed.

(** Invalid bytes after a valid prefix make the text invalid. *)
Lemma utf8_invalid_prefix bs suffix :
  invalid_bytes bs suffix -> utf8_prefix (bs ++ suffix) = None.
Proof.
  intros [Hlen [[Hm _]|[(ext & Hext & Hc) ->]]]; [apply Hm|]. rewrite app_nil_r.
  destruct (utf8_prefix bs) as [e|] eqn:E; [exfalso|done].
  apply utf8_prefix_Some in E as [He [rest ->]].
  pose proof (utf8_prefix_char _ [] Hc) as P. rewrite app_nil_r, <- app_assoc in P.
  rewrite utf8_prefix_char in P by done. injection P as P.
  rewrite <- (app_nil_r e) in P at 1. apply app_inv_head in P.
  symmetry in P. apply app_nil in P as [_ ?]. done.
Qed.

Lemma utf8_invalid_not_valid good bs suffix :
  valid_utf8 good -> invalid_bytes bs suffix -> ~ valid_utf8 (good ++ bs ++ suffix).
Proof.
  intros (es & Hes & <-) Hinv (es' & Hes' & Heq).
  pose proof (utf8_invalid_prefix bs suffix Hinv) as Hnone. destruct Hinv as [Hlen _].
  revert es' Hes' Heq. induction Hes as [|e es He Hes IH]; intros es' Hes' Heq; cbn [concat app] in Heq.
  - destruct Hes' as [|e' es' He' Hes']; cbn in Heq.
    + symmetry in Heq. apply app_nil in Heq as [-> _]. rewrite zlen_nil in Hlen. lia.
    + rewrite <- Heq, utf8_prefix_char in Hnone by done. done.
  - destruct Hes' as [|e' es' He' Hes']; cbn [concat] in Heq; [by destruct e|].
    rewrite <- app_assoc in Heq. pose proof (utf8_prefix_char e' (concat es') He') as P.
    rewrite Heq, utf8_prefix_char in P by done. injection P as <-.
    apply app_inv_head in Heq. by apply (IH es').
Qed.

(** The stored prefix of the invalid bytes, padded to 4 bytes. *)
Definition pad4 (bs : gostring) : gostring := bs ++ replicate (4 - length bs) 0.

Lemma utf8_copy4 bs : zlen bs <= 4 -> copy_slice (replicate 4 0) bs = pad4 bs.
Proof.
  intros H. rewrite copy_slice_short by (rewrite zlen_replicate; lia). unfold pad4. f_equal.
  apply drop_replicate.
Qed.

Lemma utf8_NewTextParseError_spec (good bs suffix : gostring) :
  is_gostring bs -> invalid_bytes bs suffix ->
  NewTextParseError (zlen (good ++ bs ++ suffix)) (MkSpan (zlen good) (zlen good + zlen bs)) bs =
    Ret (MkTextParseError (MkSpan (zlen good) (zlen good + zlen bs)) (pad4 bs)).
Proof.
  intros Hbs [Hlen Hkind]. unfold NewTextParseError, Start, End. cbn [start end_].
  pose proof (zlen_nonneg good). pose proof (zlen_nonneg suffix).
  rewrite (proj2 (Z.ltb_ge (zlen good) 0)) by lia. rewrite bind_ret, !zlen_app.
  rewrite (proj2 (Z.ltb_ge _ (zlen good + zlen bs))) by lia. rewrite bind_ret.
  rewrite utf8_short_Length by lia. rewrite bind_ret, Z.eqb_refl. cbn [negb]. rewrite bind_ret.
  replace ((zlen bs <? 1) || (4 <? zlen bs)) with false by lia. rewrite bind_ret.
  rewrite utf8_copy4 by lia.
  destruct Hkind as [[_ HF]|[_ ->]].
  - by rewrite HF.
  - rewrite zlen_nil, Z.add_0_r, Z.eqb_refl.
    destruct (utf8_FullRune_total bs Hbs) as [x ->]. rewrite bind_ret. by destruct x.
Qed.

(** C39: [ParseText] always returns: the text itself, with no error, exactly
    when the bytes are a sequence of RFC 3629 encodings, and otherwise an error
    whose span starts after a valid prefix, has between 1 and 4 bytes,
    lies inside the input, records those bytes, and is either malformed (no
    continuation makes it valid) or a truncated encoding at the end of the
    input.  None of the assertions on the way fires. *)
Theorem parse_text_spec (s : gostring) :
  is_gostring s ->
  exists t err, ParseText s = Ret (t, err) /\
    match err with
    | None => String_ t = s /\ valid_utf8 s
    | Some e => String_ t = [] /\ ~ valid_utf8 s /\
    exists good bs suffix,
          s = good ++ bs ++ suffix /\ valid_utf8 good /\ 1 <= zlen bs <= 4 /\
    errSpan e = MkSpan (zlen good) (zlen good + zlen bs) /\
    firstInvalidBytes e = pad4 bs /\
    (malformed bs \/ (truncated bs /\ suffix = []))
    end.
Proof.
  intros Hs. destruct (utf8_firstInvalidSpan_spec s Hs) as (r & Hr & Hspec).
  unfold ParseText. rewrite Hr, bind_ret. destruct r as [sp|]; [|by exists (MkText s), None].
  destruct Hspec as (good & bs & suffix & Hsplit & Hg & Hinv & ->).
  pose proof Hinv as [Hlen Hkind].
  assert (is_gostring bs) as Hbs by (subst s; apply is_gostring_app in Hs as [_ Hs];
    by apply is_gostring_app in Hs as [? _]).
  unfold invalidBytesPrefix, Start, End. cbn [start end_].
  rewrite Hsplit, slice_app_mid, !bind_ret.
  rewrite utf8_short_Length by lia. rewrite bind_ret.
  rewrite utf8_copy4 by lia. unfold pad4 at 1.
  rewrite slice_to_in_range by (rewrite zlen_app; pose proof (zlen_nonneg (replicate (4 - length bs) 0)); lia).
  replace (Z.to_nat (zlen bs)) with (length bs) by (unfold zlen; lia).
  rewrite take_app_length, bind_ret, utf8_NewTextParseError_spec by done. rewrite bind_ret.
  eexists _, (Some _). split; [done|]. split_and!; [done| |].
  - by apply utf8_invalid_not_valid.
  - exists good, bs, suffix. cbn. split_and!; try done; [lia..|]. tauto.
Qed.

Lemma parse_text_spec_witness :
  exists t e, ParseText [97; 0xE2; 0x82] = Ret (t, Some e) /\ errSpan e = MkSpan 1 3.
Proof.
  destruct (parse_text_spec [97; 0xE2; 0x82]) as (t & err & H & _).
  { repeat constructor; vm_compute; discriminate. }
  assert (ParseText [97; 0xE2; 0x82] =
    Ret (MkText [], Some (MkTextParseError (MkSpan 1 3) [0xE2; 0x82; 0; 0]))) as E
    by (vm_compute; reflexivity).
  rewrite E in H. injection H as <- <-. eexists _, _. split; [exact E|reflexivity].
Defined.

(** ** The code point containing an offset *)
Lemma utf8_walk_back (pre : gostring) b bs post fuel k :
  is_byte b -> tail_byte b = false -> forallb tail_byte bs = true ->
  0 <= k <= zlen bs -> k < Z.of_nat fuel ->
  CodePointContaining_walk fuel (pre ++ (b :: bs) ++ post) (zlen pre + k) = Ret (zlen pre).
Proof.
  intros Hb Ht Hts. revert k. induction fuel as [|fuel IH]; intros k Hk Hf; [lia|].
  pose proof (zlen_nonneg pre). cbn [CodePointContaining_walk].
  rewrite (proj2 (Z.leb_le 0 _)) by lia.
  destruct (utf8_byte_at pre b bs post k Hb Ht Hts Hk) as (c & -> & Hc).
  rewrite bind_ret. unfold IsPotentialStartOfRune. rewrite Hc.
  destruct (Z.eqb_spec k 0) as [->|Hk0]; cbn [negb]; [by rewrite Z.add_0_r|].
  replace (zlen pre + k - 1) with (zlen pre + (k - 1)) by lia. apply IH; lia.
Qed.

Lemma utf8_TryDecode_char e rest :
  utf8_char e = true -> is_gostring rest ->
  TryDecodeFirstRune (e ++ rest) = Ret (MkRuneDecodingResult (utf8_value e) (zlen e)) /\
  Kind (MkRuneDecodingResult (utf8_value e) (zlen e)) = RuneDecodingResultKind_Valid.
Proof.
  intros He Hr. pose proof (utf8_char_length e He) as Hlen. split.
  - unfold TryDecodeFirstRune. rewrite utf8_decode_spec.
    2:{ apply is_gostring_app. split; [by apply utf8_char_bytes|done]. }
    rewrite utf8_prefix_char by done. destruct e as [|b e]; [done|].
    cbn [app]. rewrite bind_ret. rewrite uint_wrap_id; [done|lia].
  - unfold Kind. cbn [byteLen r]. rewrite (proj2 (Z.eqb_neq _ 0)) by lia.
    replace ((utf8_value e =? RuneError) && (zlen e =? 1)) with false; [done|].
    symmetry. apply andb_false_iff. destruct e as [|b0 [|b1 e]]; [done| |].
    + left. cbn in *. unfold RuneError. lia.
    + right. rewrite !zlen_cons in *. pose proof (zlen_nonneg e). lia.
Qed.

(** in a valid text, [CodePointContaining] finds the span of the code
    point that contains an offset strictly inside it, answers [None] exactly at
    the boundaries between code points (and at both ends), rejects offsets
    outside the text, and its backward scan always stops inside the text. *)
Theorem code_point_containing_spec (es : list gostring) (o : Z) :
  utf8_chars es ->
  if (0 <=? o) && (o <=? zlen (concat es)) then
    exists r, CodePointContaining (MkText (concat es)) o = Ret r /\
      match r with
      | None => exists es1 es2, es = es1 ++ es2 /\ o = zlen (concat es1)
      | Some sp => exists es1 e es2, es = es1 ++ e :: es2 /\
          Start sp = zlen (concat es1) /\ End sp = zlen (concat es1) + zlen e /\
          Start sp < o < End sp
      end
  else CodePointContaining (MkText (concat es)) o = Panic PreconditionViolation.
Proof.
  intros Hes. unfold CodePointContaining. cbn [text].
  replace ((o <? 0) || (zlen (concat es) <? o)) with (negb ((0 <=? o) && (o <=? zlen (concat es)))) by lia.
  destruct ((0 <=? o) && (o <=? zlen (concat es))) eqn:Hrange; cbn [negb]; [|done].
  rewrite bind_ret. destruct ((o =? 0) || (o =? zlen (concat es))) eqn:Hends.
  { exists None. split; [done|]. destruct (Z.eqb_spec o 0) as [->|]; [by exists [], es|].
    exists es, []. split; [by rewrite app_nil_r|lia]. }
  destruct (utf8_locate es (o - 1)) as (es1 & e & es2 & -> & Hp); [lia|].
  apply Forall_app in Hes as [Hes1 Hes2]. apply Forall_cons in Hes2 as [He Hes2].
  destruct (utf8_char_shape e He) as (b & bs & -> & Hb & Hbs).
  pose proof (utf8_char_bytes _ He) as Hbytes. apply Forall_cons in Hbytes as [Hbb _].
  rewrite utf8_concat_split.
  replace (o - 1) with (zlen (concat es1) + (o - 1 - zlen (concat es1))) by lia.
  rewrite zlen_cons in Hp.
  rewrite utf8_walk_back; [|done..|lia|].
  2:{ rewrite !length_app. cbn [length]. unfold zlen in *. lia. }
  pose proof (zlen_nonneg (concat es1)).
  rewrite bind_ret, (proj2 (Z.ltb_ge _ 0)) by lia. rewrite slice_from_app_r, bind_ret.
  destruct (utf8_TryDecode_char (b :: bs) (concat es2) He) as [-> _].
  { by apply utf8_chars_bytes. }
  rewrite bind_ret. unfold ByteLen. cbn [byteLen].
  rewrite (proj2 (Z.ltb_lt _ o)) by lia. cbn [andb].
  destruct (Z.ltb_spec o (zlen (concat es1) + zlen (b :: bs))) as [Hin|Hout].
  - rewrite ranges_NewSpan_ok by lia. rewrite bind_ret. eexists. split; [done|].
    exists es1, (b :: bs), es2. unfold Start, End. cbn [start end_]. split_and!; lia || done.
  - exists None. split; [done|]. exists (es1 ++ [b :: bs]), es2.
    rewrite <- app_assoc. split; [done|]. rewrite concat_app, zlen_app. cbn [concat].
    rewrite app_nil_r, zlen_cons in *. lia.
Qed.

Lemma code_point_containing_spec_witness :
  exists sp, CodePointContaining (MkText [97; 0xE2; 0x82; 0xAC]) 2 = Ret (Some sp) /\ Start sp < 2.
Proof.
  pose proof (code_point_containing_spec [[97]; [0xE2; 0x82; 0xAC]] 2 ltac:(repeat constructor)) as H.
  change ((0 <=? 2) && (2 <=? zlen (concat [[97]; [0xE2; 0x82; 0xAC]]))) with true in H.
  destruct H as (r & Hr & H).
  assert (CodePointContaining (MkText (concat [[97]; [0xE2; 0x82; 0xAC]])) 2 = Ret (Some (MkSpan 1 4))) as E
    by (vm_compute; reflexivity).
  rewrite E in Hr. injection Hr as <-. destruct H as (_ & _ & _ & _ & _ & _ & H & _).
  exists (MkSpan 1 4). split; [exact E|exact H].
Defined.
