(* ===== verification/Uniseg.v ===== *)
(** * Grapheme clusters of a text ([internal/uniseg/uniseg.go])

    The segmentation itself is the third-party library rivo/uniseg: it is the
    parameter [Positions], which gives the byte ranges of the grapheme clusters
    of a text in order.  The walks over code points move by at least one byte
    per round, so the length of the text bounds their fuel. *)
From S2P Require Import Prelude Ranges GoUtf8 Utf8.
From S2P Require BitVec.

Record SegmentedText := MkSegmentedText { stext : Text; boundaries : BitVec.BitVec }.

Inductive SpanBoundaryErrorKind :=
  | SpanBoundaryErrorKind_NotUTF8Boundary
  | SpanBoundaryErrorKind_NotGraphemeBoundary.
Record SpanBoundaryError := MkSpanBoundaryError {
  ekind : SpanBoundaryErrorKind; ebound : Bound; espan : Span }.

Record GraphemeClusterWindow := MkWindow { wspan : Span; isFullCluster : bool }.

Section uniseg.
Context (Positions : gostring -> list (Z * Z)).

(** The loop body [boundaries.Set(cluster.Span().End())] over [GraphemeClusters]. *)
Fixpoint NewSegmentedText_loop (clusters : list (Z * Z)) (b : BitVec.BitVec) : go BitVec.BitVec :=
  match clusters with
  | [] => Ret b
  | (start, end_) :: clusters' =>
      sp ← NewSpan start end_;
      b' ← BitVec.Set_ b (End sp);
      NewSegmentedText_loop clusters' b'
  end.

Definition NewSegmentedText (text : Text) : go SegmentedText :=
  b ← BitVec.NewBitVec (Len text + 1);
  b ← BitVec.Set_ b 0;
  b ← NewSegmentedText_loop (Positions (String_ text)) b;
  Ret (MkSegmentedText text b).
End uniseg.

Definition CheckSpan (t : SegmentedText) (span : Span) : go (option SpanBoundaryError) :=
  let start := Start span in
  let end_ := End span in
  bad1 ← (if negb (start =? Len (stext t)) then
            b ← GetByte (stext t) start; Ret (negb (IsPotentialStartOfRune b)) else Ret false);
  if (bad1 : bool) then
    Ret (Some (MkSpanBoundaryError SpanBoundaryErrorKind_NotUTF8Boundary Bound_Start span))
  else
  bad2 ← (if negb (end_ =? Len (stext t)) then
            b ← GetByte (stext t) end_; Ret (negb (IsPotentialStartOfRune b)) else Ret false);
  if (bad2 : bool) then
    Ret (Some (MkSpanBoundaryError SpanBoundaryErrorKind_NotUTF8Boundary Bound_End span))
  else
  g1 ← BitVec.Get (boundaries t) start;
  if negb g1 then
    Ret (Some (MkSpanBoundaryError SpanBoundaryErrorKind_NotGraphemeBoundary Bound_Start span))
  else
  g2 ← BitVec.Get (boundaries t) end_;
  if negb g2 then
    Ret (Some (MkSpanBoundaryError SpanBoundaryErrorKind_NotGraphemeBoundary Bound_End span))
  else Ret None.

Definition ByteOffset (e : SpanBoundaryError) : Z :=
  if ebound e then End (espan e) else Start (espan e).

Definition nextCodePointEnd (t : SegmentedText) (i : Z) : go Z :=
  rest ← slice_from (String_ (stext t)) i;
  decoded ← TryDecodeFirstRune rest;
  _ ← Invariant (bool_decide (Kind decoded = RuneDecodingResultKind_Valid));
  Ret (i + Utf8.ByteLen decoded).

Fixpoint previousCodePointStart_loop (fuel : nat) (t : SegmentedText) (start : Z) : go Z :=
  match fuel with
  | O => OutOfFuel
  | S fuel =>
      if 0 <? start then
        b ← GetByte (stext t) start;
        if negb (IsPotentialStartOfRune b) then previousCodePointStart_loop fuel t (start - 1)
        else Ret start
      else Ret start
  end.
Definition previousCodePointStart (t : SegmentedText) (before : Z) : go Z :=
  previousCodePointStart_loop (S (length (String_ (stext t)))) t (before - 1).

(** The two optimistic loops: extend one side while it is not a boundary. *)
Fixpoint extendStart (fuel : nat) (t : SegmentedText) (maxCodePoints start codePoints : Z) : go (Z * Z) :=
  match fuel with
  | O => OutOfFuel
  | S fuel =>
      if codePoints <? maxCodePoints then
        g ← BitVec.Get (boundaries t) start;
        if negb g then
          start ← previousCodePointStart t start;
          extendStart fuel t maxCodePoints start (codePoints + 1)
        else Ret (start, codePoints)
      else Ret (start, codePoints)
  end.
Fixpoint extendEnd (fuel : nat) (t : SegmentedText) (maxCodePoints end_ codePoints : Z) : go (Z * Z) :=
  match fuel with
  | O => OutOfFuel
  | S fuel =>
      if codePoints <? maxCodePoints then
        g ← BitVec.Get (boundaries t) end_;
        if negb g then
          end_ ← nextCodePointEnd t end_;
          extendEnd fuel t maxCodePoints end_ (codePoints + 1)
        else Ret (end_, codePoints)
      else Ret (end_, codePoints)
  end.

(** [t.boundaries.Get(start) && t.boundaries.Get(end)]. *)
Definition bothBoundaries (t : SegmentedText) (start end_ : Z) : go bool :=
  g1 ← BitVec.Get (boundaries t) start;
  if (g1 : bool) then BitVec.Get (boundaries t) end_ else Ret false.

(** The fallback loop: a balanced window. *)
Fixpoint balance (fuel : nat) (t : SegmentedText) (leftBudget rightBudget i start end_ : Z) : go (Z * Z) :=
  match fuel with
  | O => OutOfFuel
  | S fuel =>
      if i <? rightBudget then
        start ← (if i <? leftBudget then
                   g ← BitVec.Get (boundaries t) start;
                   if negb g then previousCodePointStart t start else Ret start
                 else Ret start);
        g ← BitVec.Get (boundaries t) end_;
        end_ ← (if negb g then nextCodePointEnd t end_ else Ret end_);
        full ← bothBoundaries t start end_;
        if (full : bool) then Ret (start, end_)
        else balance fuel t leftBudget rightBudget (i + 1) start end_
      else Ret (start, end_)
  end.

Definition FindGraphemeClusterContaining (t : SegmentedText) (offset maxCodePoints : Z)
    : go (option GraphemeClusterWindow) :=
  let fuel := S (length (String_ (stext t))) in
  _ ← (if (offset <? 0) || (Len (stext t) <? offset) then Precondition false else Ret tt);
  _ ← (if maxCodePoints <? 1 then Precondition false else Ret tt);
  _ ← (if negb (offset =? Len (stext t)) then
         b ← GetByte (stext t) offset;
         if negb (IsPotentialStartOfRune b) then Precondition false else Ret tt
       else Ret tt);
  none ← (if (offset =? 0) || (offset =? Len (stext t)) then Ret true
          else BitVec.Get (boundaries t) offset);
  if (none : bool) then Ret None
  else
    '(start, codePoints) ← extendStart fuel t maxCodePoints offset 0;
    '(end_, codePoints) ← extendEnd fuel t maxCodePoints offset codePoints;
    full ← bothBoundaries t start end_;
    if (full : bool) then sp ← NewSpan start end_; Ret (Some (MkWindow sp true))
    else
      let leftBudget := Z.quot maxCodePoints 2 in
      let rightBudget := maxCodePoints - leftBudget in
      '(start, end_) ← balance fuel t leftBudget rightBudget 0 offset offset;
      sp ← NewSpan start end_;
      full ← bothBoundaries t start end_;
      Ret (Some (MkWindow sp full)).

(** ** Specification: a text as groups of code points *)

(** The byte ranges of consecutive clusters from offset [off]. *)
Fixpoint cluster_spans (off : Z) (gs : list (list gostring)) : list (Z * Z) :=
  match gs with
  | [] => []
  | g :: gs' => (off, off + zlen (concat g)) :: cluster_spans (off + zlen (concat g)) gs'
  end.
Definition cluster_ends (off : Z) (gs : list (list gostring)) : list Z := (cluster_spans off gs).*2.

(** What rivo/uniseg documents: a grapheme cluster is a non-empty sequence of
    code points, and the clusters of a text cover it in order. *)
Definition segments (Positions : gostring -> list (Z * Z)) (gs : list (list gostring)) : Prop :=
  utf8_chars (concat gs) /\ Forall (fun g => g <> []) gs /\
  Positions (concat (concat gs)) = cluster_spans 0 gs.

Lemma uniseg_char_pos e : utf8_char e = true -> 0 < zlen e.
Proof. intros H. apply utf8_char_length in H. lia. Qed.

Lemma uniseg_concat_pos (es : list gostring) : utf8_chars es -> es <> [] -> 0 < zlen (concat es).
Proof.
  destruct 1 as [|e es He _]; [done|]. intros _. cbn [concat]. rewrite zlen_app.
  apply uniseg_char_pos in He. pose proof (zlen_nonneg (concat es)). lia.
Qed.

Lemma cluster_ends_bounds off gs x :
  utf8_chars (concat gs) -> Forall (fun g => g <> []) gs -> x ∈ cluster_ends off gs ->
  off < x <= off + zlen (concat (concat gs)).
Proof.
  unfold cluster_ends. intros Hc Hne. revert off. induction Hne as [|g gs Hg Hne IH]; intros off.
  { cbn. by intros ?%not_elem_of_nil. }
  cbn [concat] in Hc. apply Forall_app in Hc as [Hcg Hcgs].
  pose proof (uniseg_concat_pos g Hcg Hg). pose proof (zlen_nonneg (concat (concat gs))).
  cbn [cluster_spans fmap list_fmap concat]. rewrite concat_app, zlen_app. rewrite elem_of_cons.
  intros [->|Hx]; [cbn; lia|]. apply (IH Hcgs) in Hx. lia.
Qed.

Lemma cluster_spans_app off g1 g2 :
  cluster_spans off (g1 ++ g2) =
    cluster_spans off g1 ++ cluster_spans (off + zlen (concat (concat g1))) g2.
Proof.
  revert off. induction g1 as [|g g1 IH]; intros off; cbn [cluster_spans app concat].
  - change (zlen (@nil Z)) with 0. by rewrite Z.add_0_r.
  - rewrite IH. rewrite concat_app, zlen_app. f_equal. by rewrite Z.add_assoc.
Qed.

(** The last end of a prefix of the clusters. *)
Lemma cluster_ends_last off gs :
  gs <> [] -> off + zlen (concat (concat gs)) ∈ cluster_ends off gs.
Proof.
  unfold cluster_ends. revert off. induction gs as [|g gs IH]; intros off Hne; [done|].
  cbn [cluster_spans fmap list_fmap concat]. rewrite concat_app, zlen_app.
  destruct gs as [|g' gs].
  - cbn. change (zlen (@nil Z)) with 0. rewrite Z.add_0_r. by left.
  - right. rewrite Z.add_assoc. by apply IH.
Qed.

(** The bits of [boundaries]. *)
Record seg_ok (t : SegmentedText) (gs : list (list gostring)) : Prop := {
  seg_text : text (stext t) = concat (concat gs);
  seg_inv : BitVec.Inv (boundaries t);
  seg_len : BitVec.len (boundaries t) = zlen (concat (concat gs)) + 1;
  seg_bits : forall i, 0 <= i <= zlen (concat (concat gs)) ->
    BitVec.bit_at (boundaries t) i = bool_decide (i = 0 \/ i ∈ cluster_ends 0 gs) }.

Lemma uniseg_loop_spec n (gs : list (list gostring)) off b :
  BitVec.Inv b -> BitVec.len b = n -> 0 <= off -> utf8_chars (concat gs) ->
  Forall (fun g => g <> []) gs -> off + zlen (concat (concat gs)) < n ->
  exists b', NewSegmentedText_loop (cluster_spans off gs) b = Ret b' /\ BitVec.Inv b' /\
    BitVec.len b' = n /\
    forall j, 0 <= j -> BitVec.bit_at b' j = BitVec.bit_at b j || bool_decide (j ∈ cluster_ends off gs).
Proof.
  intros HI Hlen Hoff Hc Hne. revert off b HI Hlen Hoff.
  induction Hne as [|g gs Hg Hne IH]; intros off b HI Hlen Hoff Hn.
  { exists b. split_and!; [done..|]. intros j Hj. unfold cluster_ends. cbn.
    rewrite bool_decide_false by apply not_elem_of_nil. by rewrite orb_false_r. }
  cbn [concat] in Hc, Hn. apply Forall_app in Hc as [Hcg Hcgs]. rewrite concat_app, zlen_app in Hn.
  pose proof (uniseg_concat_pos g Hcg Hg). pose proof (zlen_nonneg (concat (concat gs))).
  cbn [cluster_spans NewSegmentedText_loop]. rewrite ranges_NewSpan_ok by lia. rewrite bind_ret.
  unfold End. cbn [end_].
  destruct (BitVec.bitvec_set_spec b (off + zlen (concat g)) HI ltac:(lia)) as (b1 & -> & HI1 & Hl1 & Hb1).
  rewrite bind_ret.
  destruct (IH Hcgs (off + zlen (concat g)) b1 HI1 ltac:(lia) ltac:(lia) ltac:(lia))
    as (b' & -> & HI' & Hl' & Hb').
  exists b'. split_and!; [done..|]. intros j Hj. rewrite Hb', Hb1 by done.
  unfold cluster_ends. cbn [cluster_spans fmap list_fmap].
  destruct (Z.eqb_spec j (off + zlen (concat g))) as [->|Hj'].
  - rewrite (bool_decide_true (_ ∈ _ :: _)) by (by left). by rewrite orb_true_r.
  - f_equal. apply bool_decide_ext. rewrite elem_of_cons. cbn [snd]. naive_solver.
Qed.

Lemma uniseg_New_spec Positions gs :
  segments Positions gs ->
  exists t, NewSegmentedText Positions (MkText (concat (concat gs))) = Ret t /\ seg_ok t gs.
Proof.
  intros (Hc & Hne & Hpos). unfold NewSegmentedText, Len, String_. cbn [text].
  set (n := zlen (concat (concat gs)) + 1). pose proof (zlen_nonneg (concat (concat gs))).
  destruct (BitVec.bitvec_new_spec n ltac:(lia)) as (b0 & -> & HI0 & Hl0 & Hb0). rewrite bind_ret.
  destruct (BitVec.bitvec_set_spec b0 0 HI0 ltac:(lia)) as (b1 & -> & HI1 & Hl1 & Hb1).
  rewrite bind_ret, Hpos.
  destruct (uniseg_loop_spec n gs 0 b1 HI1 ltac:(lia) ltac:(lia) Hc Hne ltac:(lia))
    as (b2 & -> & HI2 & Hl2 & Hb2).
  rewrite bind_ret. eexists. split; [done|]. split; cbn; [done..|].
  intros i Hi. rewrite Hb2, Hb1, Hb0 by lia.
  destruct (Z.eqb_spec i 0) as [->|Hi0]; cbn [orb].
  - symmetry. apply bool_decide_true. by left.
  - apply bool_decide_ext. naive_solver.
Qed.

(** ** Walking inside one cluster *)
Section walks.
Context (t : SegmentedText) (g1 g2 : list (list gostring)) (l r : list gostring).
Context (Hok : seg_ok t (g1 ++ (l ++ r) :: g2)).
Context (Hchars : utf8_chars (concat (g1 ++ (l ++ r) :: g2))).
Context (Hne : Forall (fun g => g <> []) (g1 ++ (l ++ r) :: g2)).

#[local] Abbreviation off0 := (zlen (concat (concat g1))).
(** The position [a] code points before the cut between [l] and [r], and [c] after it. *)
#[local] Abbreviation left_pos a := (zlen (concat (concat g1 ++ take (length l - a) l))).
#[local] Abbreviation right_pos c := (zlen (concat (concat g1 ++ l ++ take c r))).

Lemma uniseg_groups_app :
  concat (g1 ++ (l ++ r) :: g2) = concat g1 ++ l ++ r ++ concat g2.
Proof using. rewrite concat_app. cbn [concat]. by rewrite <- app_assoc. Qed.

Lemma uniseg_cluster_bit x :
  off0 <= x <= off0 + zlen (concat (l ++ r)) ->
  BitVec.bit_at (boundaries t) x = (x =? off0) || (x =? off0 + zlen (concat (l ++ r))).
Proof using Hok Hchars Hne.
  intros Hx. pose proof (zlen_nonneg (concat (concat g1))).
  rewrite (seg_bits _ _ Hok).
  2:{ rewrite concat_app, concat_app, zlen_app. cbn [concat]. rewrite concat_app, zlen_app.
      pose proof (zlen_nonneg (concat (concat g2))). lia. }
  rewrite concat_app in Hchars. cbn [concat] in Hchars.
  apply Forall_app in Hchars as [Hc1 Hc2]. apply Forall_app in Hc2 as [Hc2 Hc3].
  apply Forall_app in Hne as [Hn1 Hn2]. apply Forall_cons in Hn2 as [Hn2 Hn3].
  assert (forall y, y ∈ cluster_ends 0 (g1 ++ (l ++ r) :: g2) <->
    y ∈ cluster_ends 0 g1 \/ y = off0 + zlen (concat (l ++ r)) \/
    y ∈ cluster_ends (off0 + zlen (concat (l ++ r))) g2) as Hends.
  { intros y. unfold cluster_ends. rewrite cluster_spans_app, fmap_app, elem_of_app.
    cbn [cluster_spans fmap list_fmap snd]. rewrite elem_of_cons. done. }
  apply eq_true_iff_eq. rewrite bool_decide_eq_true, orb_true_iff, !Z.eqb_eq, Hends. split.
  - intros [->|[Hin|[->|Hin]]]; [lia| |by right|].
    + apply cluster_ends_bounds in Hin; [|done..]. lia.
    + apply cluster_ends_bounds in Hin; [|done..]. lia.
  - intros [->| ->]; [|by auto]. destruct g1 as [|g g1']; [by left|].
    right. left. rewrite <- (Z.add_0_l (zlen _)). by apply cluster_ends_last.
Qed.

Lemma uniseg_char_split A e B :
  concat g1 ++ l ++ r ++ concat g2 = A ++ e :: B ->
  utf8_char e = true /\ utf8_chars B /\ text (stext t) = concat A ++ e ++ concat B.
Proof using Hok Hchars.
  intros E. rewrite (seg_text _ _ Hok), uniseg_groups_app, E.
  rewrite uniseg_groups_app, E in Hchars. apply Forall_app in Hchars as [_ H].
  apply Forall_cons in H as [He HB]. split_and!; [done..|]. by rewrite utf8_concat_split.
Qed.

Lemma uniseg_next A e B :
  concat g1 ++ l ++ r ++ concat g2 = A ++ e :: B ->
  nextCodePointEnd t (zlen (concat A)) = Ret (zlen (concat (A ++ [e]))).
Proof using Hok Hchars.
  intros E. destruct (uniseg_char_split A e B E) as (He & HB & Ht).
  unfold nextCodePointEnd, String_. rewrite Ht, slice_from_app_r, bind_ret.
  destruct (utf8_TryDecode_char e (concat B) He) as [-> HK]; [by apply utf8_chars_bytes|].
  rewrite bind_ret, HK. cbn. rewrite concat_app, zlen_app. cbn. by rewrite app_nil_r.
Qed.

Lemma uniseg_prev A e B :
  concat g1 ++ l ++ r ++ concat g2 = A ++ e :: B ->
  previousCodePointStart t (zlen (concat (A ++ [e]))) = Ret (zlen (concat A)).
Proof using Hok Hchars.
  intros E. destruct (uniseg_char_split A e B E) as (He & HB & Ht).
  destruct (utf8_char_shape e He) as (b & bs & -> & Hb & Hbs).
  pose proof (utf8_char_bytes _ He) as Hbytes. apply Forall_cons in Hbytes as [Hbb _].
  rewrite concat_app, zlen_app. cbn [concat]. rewrite app_nil_r, zlen_cons.
  unfold previousCodePointStart, String_. pose proof (zlen_nonneg (concat A)).
  replace (zlen (concat A) + (zlen bs + 1) - 1) with (zlen (concat A) + zlen bs) by lia.
  assert (forall fuel k, 0 <= k <= zlen bs -> k < Z.of_nat fuel ->
    previousCodePointStart_loop fuel t (zlen (concat A) + k) = Ret (zlen (concat A))) as Hloop.
  { induction fuel as [|fuel IH]; intros k Hk Hf; [lia|]. cbn [previousCodePointStart_loop].
    destruct (Z.ltb_spec 0 (zlen (concat A) + k)); [|do 2 f_equal; lia].
    unfold GetByte. rewrite Ht.
    destruct (utf8_byte_at (concat A) b bs (concat B) k Hbb Hb Hbs Hk) as (c & -> & Hc).
    rewrite bind_ret. unfold IsPotentialStartOfRune. rewrite Hc.
    destruct (Z.eqb_spec k 0) as [->|Hk0]; cbn [negb]; [by rewrite Z.add_0_r|].
    replace (zlen (concat A) + k - 1) with (zlen (concat A) + (k - 1)) by lia. apply IH; lia. }
  apply Hloop; [pose proof (zlen_nonneg bs); lia|].
  rewrite Ht, !length_app. cbn [length]. unfold zlen. lia.
Qed.

Lemma uniseg_left_step a :
  (a < length l)%nat -> previousCodePointStart t (left_pos a) = Ret (left_pos (S a)).
Proof using Hok Hchars.
  intros Ha. destruct (lookup_lt_is_Some_2 l (length l - S a)) as [e He]; [lia|].
  replace (length l - a)%nat with (S (length l - S a)) by lia.
  rewrite (take_S_r _ _ _ He), app_assoc.
  apply (uniseg_prev _ e (drop (S (length l - S a)) l ++ r ++ concat g2)).
  rewrite <- (take_drop_middle l _ e He) at 1. by rewrite <- !app_assoc.
Qed.

Lemma uniseg_right_step c :
  (c < length r)%nat -> nextCodePointEnd t (right_pos c) = Ret (right_pos (S c)).
Proof using Hok Hchars.
  intros Hc. destruct (lookup_lt_is_Some_2 r c) as [e He]; [lia|].
  rewrite (take_S_r _ _ _ He), !app_assoc.
  apply (uniseg_next _ e (drop (S c) r ++ concat g2)).
  rewrite <- (take_drop_middle r _ e He) at 1. by rewrite <- !app_assoc.
Qed.

(** The positions are ordered and are boundaries only at the ends. *)
Lemma uniseg_drop_pos (es : list gostring) n :
  utf8_chars es -> (n < length es)%nat -> 0 < zlen (concat (drop n es)).
Proof using.
  intros Hes Hn. apply uniseg_concat_pos; [by apply Forall_drop|].
  intros E. apply (f_equal length) in E. rewrite length_drop in E. cbn in E. lia.
Qed.

Lemma uniseg_lr_chars : utf8_chars l /\ utf8_chars r.
Proof using Hchars.
  rewrite uniseg_groups_app in Hchars. apply Forall_app in Hchars as [_ H].
  apply Forall_app in H as [? H]. by apply Forall_app in H as [? _].
Qed.

Lemma uniseg_left_get a :
  r <> [] -> (a <= length l)%nat ->
  BitVec.Get (boundaries t) (left_pos a) = Ret (bool_decide (a = length l)).
Proof using Hok Hchars Hne.
  intros Hr Ha. destruct uniseg_lr_chars as [Hl Hrc].
  pose proof (zlen_nonneg (concat (concat g1))). pose proof (uniseg_concat_pos r Hrc Hr).
  pose proof (take_drop (length l - a) l) as E. apply (f_equal (fun x => zlen (concat x))) in E.
  rewrite concat_app, zlen_app in E.
  pose proof (zlen_nonneg (concat (take (length l - a) l))).
  pose proof (zlen_nonneg (concat (drop (length l - a) l))).
  assert (zlen (concat (l ++ r)) = zlen (concat l) + zlen (concat r)) as Elr
    by (by rewrite concat_app, zlen_app).
  rewrite concat_app, zlen_app. rewrite BitVec.bitvec_get_spec;
    [|apply (seg_inv _ _ Hok)|].
  2:{ rewrite (seg_len _ _ Hok), uniseg_groups_app, !concat_app, !zlen_app.
      pose proof (zlen_nonneg (concat (concat g2))). lia. }
  rewrite uniseg_cluster_bit by lia. f_equal. apply eq_true_iff_eq.
  rewrite orb_true_iff, !Z.eqb_eq, bool_decide_eq_true. split.
  - intros Hx. destruct (decide (a = length l)) as [|Hne']; [done|exfalso].
    assert (0 < zlen (concat (take (length l - a) l))); [|lia].
    apply uniseg_concat_pos; [by apply Forall_take|].
    intros E'. apply (f_equal length) in E'. rewrite length_take in E'. cbn in E'. lia.
  - intros ->. left. rewrite Nat.sub_diag. change (zlen (concat (take 0 l))) with 0. lia.
Qed.

Lemma uniseg_right_get c :
  l <> [] -> (c <= length r)%nat ->
  BitVec.Get (boundaries t) (right_pos c) = Ret (bool_decide (c = length r)).
Proof using Hok Hchars Hne.
  intros Hl' Hc. destruct uniseg_lr_chars as [Hl Hrc].
  pose proof (zlen_nonneg (concat (concat g1))). pose proof (uniseg_concat_pos l Hl Hl').
  pose proof (take_drop c r) as E. apply (f_equal (fun x => zlen (concat x))) in E.
  rewrite concat_app, zlen_app in E.
  pose proof (zlen_nonneg (concat (take c r))). pose proof (zlen_nonneg (concat (drop c r))).
  assert (zlen (concat (l ++ r)) = zlen (concat l) + zlen (concat r)) as Elr
    by (by rewrite concat_app, zlen_app).
  rewrite concat_app, concat_app, !zlen_app. rewrite BitVec.bitvec_get_spec;
    [|apply (seg_inv _ _ Hok)|].
  2:{ rewrite (seg_len _ _ Hok), uniseg_groups_app, !concat_app, !zlen_app.
      pose proof (zlen_nonneg (concat (concat g2))). lia. }
  rewrite uniseg_cluster_bit by lia. f_equal. apply eq_true_iff_eq.
  rewrite orb_true_iff, !Z.eqb_eq, bool_decide_eq_true. split.
  - intros Hx. destruct (decide (c = length r)) as [|Hne']; [done|exfalso].
    pose proof (uniseg_drop_pos r c Hrc ltac:(lia)). lia.
  - intros ->. right. rewrite firstn_all in *. lia.
Qed.
(** *** The loops *)
Lemma uniseg_extendStart fuel m a :
  r <> [] -> (a <= length l)%nat -> Z.of_nat a <= m -> (length l - a < fuel)%nat ->
  extendStart fuel t m (left_pos a) (Z.of_nat a) =
    Ret (left_pos (Nat.min (length l) (Z.to_nat m)), Z.of_nat (Nat.min (length l) (Z.to_nat m))).
Proof using Hok Hchars Hne.
  intros Hr. revert a. induction fuel as [|fuel IH]; intros a Ha Hm Hf; [lia|].
  cbn [extendStart]. destruct (Z.ltb_spec (Z.of_nat a) m).
  2:{ by replace (Nat.min (length l) (Z.to_nat m)) with a by lia. }
  rewrite uniseg_left_get by done. rewrite bind_ret.
  case_bool_decide as Hal; cbn [negb]; [by replace (Nat.min (length l) (Z.to_nat m)) with a by lia|].
  rewrite uniseg_left_step by lia. rewrite bind_ret.
  replace (Z.of_nat a + 1) with (Z.of_nat (S a)) by lia. apply IH; lia.
Qed.

Lemma uniseg_extendEnd fuel m (p c : nat) :
  l <> [] -> (c <= length r)%nat -> Z.of_nat (p + c) <= m -> (length r - c < fuel)%nat ->
  exists cp, extendEnd fuel t m (right_pos c) (Z.of_nat (p + c)) =
    Ret (right_pos (Nat.min (length r) (Z.to_nat m - p)), cp).
Proof using Hok Hchars Hne.
  intros Hl. revert c. induction fuel as [|fuel IH]; intros c Hc Hm Hf; [lia|].
  cbn [extendEnd]. destruct (Z.ltb_spec (Z.of_nat (p + c)) m).
  2:{ replace (Nat.min (length r) (Z.to_nat m - p)) with c by lia. by eexists. }
  rewrite uniseg_right_get by done. rewrite bind_ret.
  case_bool_decide as Hcr; cbn [negb].
  { replace (Nat.min (length r) (Z.to_nat m - p)) with c by lia. by eexists. }
  rewrite uniseg_right_step by lia. rewrite bind_ret.
  replace (Z.of_nat (p + c) + 1) with (Z.of_nat (p + S c)) by lia. apply IH; lia.
Qed.

Lemma uniseg_both a c :
  l <> [] -> r <> [] -> (a <= length l)%nat -> (c <= length r)%nat ->
  bothBoundaries t (left_pos a) (right_pos c) =
    Ret (bool_decide (a = length l) && bool_decide (c = length r)).
Proof using Hok Hchars Hne.
  intros Hl Hr Ha Hc. unfold bothBoundaries. rewrite uniseg_left_get by done. rewrite bind_ret.
  case_bool_decide; cbn [andb]; [|done]. by apply uniseg_right_get.
Qed.

(** The fallback never stops early: the cluster does not fit in the budgets. *)
Lemma uniseg_balance fuel (lb rb i : nat) :
  l <> [] -> r <> [] -> (lb <= rb)%nat -> (lb + rb < length l + length r)%nat ->
  (i <= rb)%nat -> (rb - i < fuel)%nat ->
  balance fuel t (Z.of_nat lb) (Z.of_nat rb) (Z.of_nat i)
    (left_pos (Nat.min i (Nat.min (length l) lb))) (right_pos (Nat.min i (length r))) =
  Ret (left_pos (Nat.min (length l) lb), right_pos (Nat.min (length r) rb)).
Proof using Hok Hchars Hne.
  intros Hl Hr Hlb Hbig. revert i. induction fuel as [|fuel IH]; intros i Hi Hf; [lia|].
  cbn [balance]. destruct (Z.ltb_spec (Z.of_nat i) (Z.of_nat rb)).
  2:{ replace (Nat.min i (Nat.min (length l) lb)) with (Nat.min (length l) lb) by lia.
      by replace (Nat.min i (length r)) with (Nat.min (length r) rb) by lia. }
  assert ((if Z.of_nat i <? Z.of_nat lb then
             g ← BitVec.Get (boundaries t) (left_pos (Nat.min i (Nat.min (length l) lb)));
             if negb g then previousCodePointStart t (left_pos (Nat.min i (Nat.min (length l) lb)))
             else Ret (left_pos (Nat.min i (Nat.min (length l) lb)))
           else Ret (left_pos (Nat.min i (Nat.min (length l) lb)))) =
          Ret (left_pos (Nat.min (S i) (Nat.min (length l) lb)))) as ->.
  { destruct (Z.ltb_spec (Z.of_nat i) (Z.of_nat lb)).
    - rewrite uniseg_left_get by (done || lia). rewrite bind_ret. case_bool_decide as Hb; cbn [negb].
      + by replace (Nat.min (S i) (Nat.min (length l) lb)) with (Nat.min i (Nat.min (length l) lb)) by lia.
      + rewrite uniseg_left_step by lia. do 2 f_equal.
        by replace (Nat.min (S i) (Nat.min (length l) lb)) with (S (Nat.min i (Nat.min (length l) lb))) by lia.
    - by replace (Nat.min (S i) (Nat.min (length l) lb)) with (Nat.min i (Nat.min (length l) lb)) by lia. }
  rewrite bind_ret, uniseg_right_get by (done || lia). rewrite bind_ret.
  assert ((if negb (bool_decide (Nat.min i (length r) = length r)) then
             nextCodePointEnd t (right_pos (Nat.min i (length r)))
           else Ret (right_pos (Nat.min i (length r)))) =
          Ret (right_pos (Nat.min (S i) (length r)))) as ->.
  { case_bool_decide as Hb; cbn [negb].
    - by replace (Nat.min (S i) (length r)) with (Nat.min i (length r)) by lia.
    - rewrite uniseg_right_step by lia. do 2 f_equal.
      by replace (Nat.min (S i) (length r)) with (S (Nat.min i (length r))) by lia. }
  rewrite bind_ret, uniseg_both by (done || lia). rewrite bind_ret.
  replace (bool_decide _ && bool_decide _) with false.
  - replace (Z.of_nat i + 1) with (Z.of_nat (S i)) by lia. apply IH; lia.
  - symmetry. apply andb_false_iff. rewrite !bool_decide_eq_false. lia.
Qed.

Lemma uniseg_find_inside m :
  l <> [] -> r <> [] -> 1 <= m ->
  FindGraphemeClusterContaining t (right_pos 0) m =
    Ret (Some (
      if Z.of_nat (length l + length r) <=? m
      then MkWindow (MkSpan off0 (off0 + zlen (concat (l ++ r)))) true
      else MkWindow (MkSpan (left_pos (Nat.min (length l) (Z.to_nat (m / 2))))
                            (right_pos (Nat.min (length r) (Z.to_nat (m - m / 2))))) false)).
Proof using Hok Hchars Hne.
  intros Hl Hr Hm. destruct uniseg_lr_chars as [Hlc Hrc].
  pose proof (uniseg_concat_pos l Hlc Hl). pose proof (uniseg_concat_pos r Hrc Hr).
  pose proof (zlen_nonneg (concat (concat g1))). pose proof (zlen_nonneg (concat (concat g2))).
  assert (left_pos 0 = right_pos 0) as E0.
  { rewrite Nat.sub_0_r, firstn_all. cbn [take]. by rewrite app_nil_r. }
  assert (right_pos 0 = off0 + zlen (concat l)) as Eo.
  { cbn [take]. rewrite app_nil_r. by rewrite concat_app, zlen_app. }
  assert (zlen (text (stext t)) = off0 + zlen (concat l) + zlen (concat r) + zlen (concat (concat g2))) as Et.
  { rewrite (seg_text _ _ Hok), uniseg_groups_app, !concat_app, !zlen_app. lia. }
  assert (forall es, utf8_chars es -> (length es <= length (concat es))%nat) as Hcount.
  { induction 1 as [|e es He _ IH]; cbn; [lia|]. rewrite length_app.
    apply uniseg_char_pos in He. unfold zlen in He. lia. }
  pose proof (Hcount l Hlc) as Hcl. pose proof (Hcount r Hrc) as Hcr.
  assert (length l + length r <= length (text (stext t)))%nat as Hfuel by (unfold zlen in *; lia).
  unfold FindGraphemeClusterContaining, Len, String_. 
  replace ((right_pos 0 <? 0) || (zlen (text (stext t)) <? right_pos 0)) with false by lia.
  rewrite bind_ret, (proj2 (Z.ltb_ge m 1)) by lia. rewrite bind_ret.
  rewrite (proj2 (Z.eqb_neq (right_pos 0) (zlen (text (stext t))))) by lia. cbn [negb].
  assert (exists b, GetByte (stext t) (right_pos 0) = Ret b /\ IsPotentialStartOfRune b = true) as (b & -> & Hb).
  { assert (exists e r', r = e :: r') as (e & r' & Er).
    { clear - Hr. destruct r as [|e r']; [done|by exists e, r']. }
    destruct (uniseg_char_split (concat g1 ++ l) e (r' ++ concat g2)) as (He & HB & Ht).
    { by rewrite Er, <- app_assoc. }
    destruct (utf8_char_shape e He) as (b & bs & -> & Hb & Hbs).
    pose proof (utf8_char_bytes _ He) as Hbytes. apply Forall_cons in Hbytes as [Hbb _].
    destruct (utf8_byte_at (concat (concat g1 ++ l)) b bs (concat (r' ++ concat g2)) 0 Hbb Hb Hbs)
      as (c & Hc & Hs); [pose proof (zlen_nonneg bs); lia|].
    exists c. split; [|done]. unfold GetByte. rewrite Ht, <- Hc. f_equal.
    cbn [take]. rewrite app_nil_r. lia. }
  rewrite bind_ret, Hb. cbn [negb]. rewrite bind_ret.
  rewrite (proj2 (Z.eqb_neq (right_pos 0) 0)) by lia. cbn [orb].
  rewrite uniseg_right_get by (done || lia). rewrite bool_decide_false by (by destruct r).
  rewrite bind_ret. rewrite <- E0 at 1.
  rewrite (uniseg_extendStart _ m 0) by (done || lia). rewrite bind_ret.
  set (k := Nat.min (length l) (Z.to_nat m)).
  destruct (uniseg_extendEnd (S (length (text (stext t)))) m k 0) as (cp & Ecp); [done|lia|lia|lia|].
  rewrite Nat.add_0_r in Ecp. rewrite Ecp, bind_ret.
  rewrite uniseg_both by (done || lia). rewrite bind_ret.
  destruct (Z.leb_spec (Z.of_nat (length l + length r)) m).
  - rewrite !bool_decide_true by lia. cbn [andb].
    replace (left_pos k) with off0.
    2:{ replace (length l - k)%nat with 0%nat by lia. cbn [take]. by rewrite app_nil_r. }
    replace (right_pos (Nat.min (length r) (Z.to_nat m - k))) with (off0 + zlen (concat (l ++ r))).
    2:{ rewrite (take_ge r) by lia. by rewrite (concat_app (concat g1)), zlen_app. }
    rewrite concat_app, zlen_app. by rewrite ranges_NewSpan_ok by lia.
  - replace (bool_decide _ && bool_decide _) with false
      by (symmetry; apply andb_false_iff; rewrite !bool_decide_eq_false; lia).
    rewrite Z.quot_div_nonneg by lia.
    assert (0 <= m / 2 <= m - m / 2) as Hhalf by (Z.to_euclidean_division_equations; lia).
    pose proof (uniseg_balance (S (length (text (stext t)))) (Z.to_nat (m / 2)) (Z.to_nat (m - m / 2)) 0
      Hl Hr ltac:(lia) ltac:(lia) ltac:(lia) ltac:(lia)) as HB.
    cbn [Nat.min] in HB. rewrite E0, !Z2Nat.id in HB by lia.
    change (Z.of_nat 0) with 0 in HB.
    rewrite HB, bind_ret.
    assert (forall a c, (a <= length l)%nat -> (c <= length r)%nat ->
      NewSpan (left_pos a) (right_pos c) = Ret (MkSpan (left_pos a) (right_pos c))) as Hspan.
    { intros a c Ha Hc. apply ranges_NewSpan_ok. rewrite !concat_app, !zlen_app.
      pose proof (zlen_nonneg (concat (take c r))).
      pose proof (take_drop (length l - a) l) as E. apply (f_equal (fun x => zlen (concat x))) in E.
      rewrite concat_app, zlen_app in E. pose proof (zlen_nonneg (concat (drop (length l - a) l))). lia. }
    rewrite Hspan, bind_ret by lia. rewrite uniseg_both by (done || lia). rewrite bind_ret.
    do 3 f_equal. apply andb_false_iff. rewrite !bool_decide_eq_false. lia.
Qed.
End walks.

(** ** Boundaries of code points and of clusters *)
Definition code_point_boundary (gs : list (list gostring)) (x : Z) : Prop :=
  exists es1 es2, concat gs = es1 ++ es2 /\ x = zlen (concat es1).
Definition cluster_boundary (gs : list (list gostring)) (x : Z) : Prop :=
  exists g1 g2, gs = g1 ++ g2 /\ x = zlen (concat (concat g1)).

Lemma cluster_ends_iff off gs x :
  x = off \/ x ∈ cluster_ends off gs <->
  exists g1 g2, gs = g1 ++ g2 /\ x = off + zlen (concat (concat g1)).
Proof.
  split.
  - intros [->|Hin]; [exists [], gs; split; [done|]; change (zlen _) with 0; lia|].
    revert off Hin. induction gs as [|g gs IH]; intros off; unfold cluster_ends;
      cbn [cluster_spans fmap list_fmap snd]; [by intros ?%not_elem_of_nil|].
    intros [->|Hin]%elem_of_cons.
    + exists [g], gs. split; [done|]. cbn. by rewrite app_nil_r.
    + destruct (IH _ Hin) as (g1 & g2 & -> & ->). exists (g :: g1), g2. split; [done|].
      cbn [concat]. rewrite concat_app, zlen_app. lia.
  - intros (g1 & g2 & -> & ->). destruct g1 as [|g g1].
    + left. change (zlen (concat (concat []))) with 0. lia.
    + right. unfold cluster_ends. rewrite cluster_spans_app, fmap_app. apply elem_of_app. left.
      by apply cluster_ends_last.
Qed.

Lemma uniseg_get_boundary t gs x :
  seg_ok t gs -> 0 <= x <= zlen (concat (concat gs)) ->
  exists b, BitVec.Get (boundaries t) x = Ret b /\ (b = true <-> cluster_boundary gs x).
Proof.
  intros Hok Hx. rewrite BitVec.bitvec_get_spec;
    [|apply (seg_inv _ _ Hok)|rewrite (seg_len _ _ Hok); lia].
  eexists. split; [done|]. rewrite (seg_bits _ _ Hok), bool_decide_eq_true by done.
  apply (cluster_ends_iff 0 gs).
Qed.

(** Offsets strictly inside a code point are not boundaries. *)
Lemma utf8_boundary_inside (es1 : list gostring) e es2 es1' es2' :
  es1 ++ e :: es2 = es1' ++ es2' ->
  zlen (concat es1) < zlen (concat es1') < zlen (concat es1) + zlen e -> False.
Proof.
  revert es1'. induction es1 as [|e1 es1 IH]; intros es1' E; destruct es1' as [|e1' es1'];
    cbn [concat]; rewrite ?zlen_app; try change (zlen (@nil Z)) with 0.
  - lia.
  - injection E as <- _. pose proof (zlen_nonneg (concat es1')). lia.
  - pose proof (zlen_nonneg e1). pose proof (zlen_nonneg (concat es1)). lia.
  - injection E as <- E. specialize (IH es1' E). lia.
Qed.

(** The byte test at an offset decides whether it is a code point boundary. *)
Lemma uniseg_start_test t gs x :
  seg_ok t gs -> utf8_chars (concat gs) -> 0 <= x <= zlen (concat (concat gs)) ->
  exists b, (if negb (x =? Len (stext t)) then
               c ← GetByte (stext t) x; Ret (negb (IsPotentialStartOfRune c)) else Ret false) = Ret b /\
            (b = false <-> code_point_boundary gs x).
Proof.
  intros Hok Hc Hx. unfold Len, GetByte. rewrite (seg_text _ _ Hok).
  destruct (Z.eqb_spec x (zlen (concat (concat gs)))) as [->|Hne]; cbn [negb].
  { exists false. split; [done|]. split; [intros _|done]. exists (concat gs), [].
    by rewrite app_nil_r. }
  destruct (utf8_locate (concat gs) x ltac:(lia)) as (es1 & e & es2 & E & Hp).
  rewrite E in Hc. apply Forall_app in Hc as [_ Hc]. apply Forall_cons in Hc as [He _].
  destruct (utf8_char_shape e He) as (b & bs & -> & Hb & Hbs).
  pose proof (utf8_char_bytes _ He) as Hbytes. apply Forall_cons in Hbytes as [Hbb _].
  rewrite zlen_cons in Hp. rewrite E, utf8_concat_split.
  destruct (utf8_byte_at (concat es1) b bs (concat es2) (x - zlen (concat es1)) Hbb Hb Hbs)
    as (c & Hc & Hs); [lia|].
  replace (zlen (concat es1) + (x - zlen (concat es1))) with x in Hc by lia.
  rewrite Hc, bind_ret. eexists. split; [done|]. unfold IsPotentialStartOfRune. rewrite Hs.
  destruct (Z.eqb_spec (x - zlen (concat es1)) 0) as [E0|E0]; cbn [negb].
  - split; [intros _|done]. exists es1, ((b :: bs) :: es2). split; [done|lia].
  - split; [done|]. intros (es1' & es2' & E' & Hx'). exfalso. rewrite E in E'.
    apply (utf8_boundary_inside _ _ _ _ _ E'). rewrite zlen_cons. lia.
Qed.

Lemma cluster_boundary_code_point gs x : cluster_boundary gs x -> code_point_boundary gs x.
Proof.
  intros (g1 & g2 & -> & ->). exists (concat g1), (concat g2). by rewrite concat_app.
Qed.

(** For a segmented text and a position inside one of its grapheme
    clusters ([l] code points before it, [r] after it), the search returns the
    whole cluster when it fits in the limit; otherwise it returns a window of at
    most [max / 2] code points of [l] and [max - max / 2] of [r], cut at code
    points and marked as partial.  At a cluster boundary it returns [None].  The
    bounded loops always terminate and no assertion fires. *)
Theorem find_grapheme_cluster_spec (Positions : gostring -> list (Z * Z))
    (g1 g2 : list (list gostring)) (l r : list gostring) (m : Z) :
  segments Positions (g1 ++ (l ++ r) :: g2) -> l <> [] -> r <> [] -> 1 <= m ->
  let start k := zlen (concat (concat g1 ++ take (length l - k) l)) in
  let end_ k := zlen (concat (concat g1 ++ l ++ take k r)) in
  exists t,
    NewSegmentedText Positions (MkText (concat (concat (g1 ++ (l ++ r) :: g2)))) = Ret t /\
    FindGraphemeClusterContaining t (zlen (concat (concat g1 ++ l))) m =
      Ret (Some (
        if Z.of_nat (length l + length r) <=? m
        then MkWindow (MkSpan (start (length l)) (end_ (length r))) true
        else MkWindow (MkSpan (start (Nat.min (length l) (Z.to_nat (m / 2))))
                              (end_ (Nat.min (length r) (Z.to_nat (m - m / 2))))) false)) /\
    forall h1 h2, g1 ++ (l ++ r) :: g2 = h1 ++ h2 ->
      FindGraphemeClusterContaining t (zlen (concat (concat h1))) m = Ret None.
Proof.
  intros Hseg Hl Hr Hm start end_. destruct (uniseg_New_spec _ _ Hseg) as (t & Ht & Hok).
  destruct Hseg as (Hc & Hne & _). exists t. split; [done|]. split.
  - pose proof (uniseg_find_inside t g1 g2 l r Hok Hc Hne m Hl Hr Hm) as H.
    cbn [take] in H. rewrite app_nil_r in H. rewrite H. do 2 f_equal.
    destruct (_ <=? _); [|done]. subst start end_. cbn beta. do 2 f_equal.
    + rewrite Nat.sub_diag. cbn [take]. by rewrite app_nil_r.
    + by rewrite firstn_all, (concat_app (concat g1)), zlen_app.
  - intros h1 h2 E. set (gs := g1 ++ (l ++ r) :: g2) in *.
    assert (cluster_boundary gs (zlen (concat (concat h1)))) as Hb by (by exists h1, h2).
    assert (0 <= zlen (concat (concat h1)) <= zlen (concat (concat gs))) as Hx.
    { rewrite E, concat_app, concat_app, zlen_app.
      pose proof (zlen_nonneg (concat (concat h1))). pose proof (zlen_nonneg (concat (concat h2))). lia. }
    unfold FindGraphemeClusterContaining.
    destruct (uniseg_start_test t gs _ Hok Hc Hx) as (b & Hstart & Hbf).
    rewrite (proj2 Hbf) in Hstart by (by apply cluster_boundary_code_point).
    destruct (uniseg_get_boundary t gs _ Hok Hx) as (g & Hg & Hgt). rewrite (proj2 Hgt) in Hg by done.
    unfold Len in *. rewrite (seg_text _ _ Hok) in *.
    replace ((zlen (concat (concat h1)) <? 0) || _) with false by lia.
    rewrite bind_ret, (proj2 (Z.ltb_ge m 1)) by lia. rewrite bind_ret.
    assert ((if negb (zlen (concat (concat h1)) =? zlen (concat (concat gs))) then
               b ← GetByte (stext t) (zlen (concat (concat h1)));
               if negb (IsPotentialStartOfRune b) then Precondition false else Ret tt
             else Ret tt) = Ret tt) as ->.
    { destruct (negb (_ =? _)); [|done]. destruct (GetByte _ _) as [c| |]; [|done..].
      rewrite bind_ret in *. injection Hstart as Hs. by rewrite Hs. }
    rewrite bind_ret, Hg. by destruct (_ || _).
Qed.

(** Clusters of two code points each, for the witness. *)
Definition pair_positions (s : gostring) : list (Z * Z) := [(0, 3); (3, 4)].

Lemma find_grapheme_cluster_spec_witness :
  exists t, NewSegmentedText pair_positions (MkText [97; 98; 99; 100]) = Ret t /\
    FindGraphemeClusterContaining t 2 3 = Ret (Some (MkWindow (MkSpan 0 3) true)) /\
    FindGraphemeClusterContaining t 3 3 = Ret None.
Proof.
  destruct (find_grapheme_cluster_spec pair_positions [] [[[100]]] [[97]; [98]] [[99]] 3)
    as (t & H1 & H2 & H3).
  { split_and!; [repeat constructor|repeat constructor; discriminate|reflexivity]. }
  { discriminate. } { discriminate. } { discriminate. }
  exists t. split; [exact H1|]. split; [exact H2|].
  exact (H3 [[[97]; [98]; [99]]] [[[100]]] eq_refl).
Defined.

(** checking a span inside a segmented text never panics: it accepts the
    span exactly when both ends are cluster boundaries, and otherwise reports an
    end that is not a code point boundary, or, when both are, an end that is a
    code point boundary strictly inside a cluster. *)
Theorem check_span_spec (Positions : gostring -> list (Z * Z)) (gs : list (list gostring)) (a b : Z) :
  segments Positions gs -> 0 <= a <= b -> b <= zlen (concat (concat gs)) ->
  exists t r,
    NewSegmentedText Positions (MkText (concat (concat gs))) = Ret t /\
    CheckSpan t (MkSpan a b) = Ret r /\
    match r with
    | None => cluster_boundary gs a /\ cluster_boundary gs b
    | Some e =>
        espan e = MkSpan a b /\ ByteOffset e = (if ebound e then b else a) /\
        match ekind e with
        | SpanBoundaryErrorKind_NotUTF8Boundary => ~ code_point_boundary gs (ByteOffset e)
        | SpanBoundaryErrorKind_NotGraphemeBoundary =>
            code_point_boundary gs a /\ code_point_boundary gs b /\ ~ cluster_boundary gs (ByteOffset e)
        end
    end.
Proof.
  intros Hseg Ha Hb. destruct (uniseg_New_spec _ _ Hseg) as (t & Ht & Hok).
  destruct Hseg as (Hc & Hne & _). exists t.
  destruct (uniseg_start_test t gs a Hok Hc ltac:(lia)) as (u1 & E1 & H1).
  destruct (uniseg_start_test t gs b Hok Hc ltac:(lia)) as (u2 & E2 & H2).
  destruct (uniseg_get_boundary t gs a Hok ltac:(lia)) as (v1 & E3 & H3).
  destruct (uniseg_get_boundary t gs b Hok ltac:(lia)) as (v2 & E4 & H4).
  unfold CheckSpan, Start, End. cbn [start end_].
  rewrite E1, bind_ret. destruct u1.
  { eexists. split_and!; [done..|]. cbn. split_and!; [done..|]. intros H%H1. done. }
  rewrite E2, bind_ret. destruct u2.
  { eexists. split_and!; [done..|]. cbn. split_and!; [done..|]. intros H%H2. done. }
  rewrite E3, bind_ret. destruct v1; cbn [negb].
  2:{ eexists. split_and!; [done..|]. cbn. split_and!; try done; [by apply H1|by apply H2|].
      intros H%H3. done. }
  rewrite E4, bind_ret. destruct v2; cbn [negb].
  2:{ eexists. split_and!; [done..|]. cbn. split_and!; try done; [by apply H1|by apply H2|].
      intros H%H4. done. }
  eexists. split_and!; [done..|]. split; [by apply H3|by apply H4].
Qed.

Lemma check_span_spec_witness :
  exists t r, NewSegmentedText pair_positions (MkText [97; 98; 99; 100]) = Ret t /\
    CheckSpan t (MkSpan 1 4) = Ret r.
Proof.
  destruct (check_span_spec pair_positions [[[97]; [98]; [99]]; [[100]]] 1 4) as (t & r & H1 & H2 & _).
  { split_and!; [repeat constructor|repeat constructor; discriminate|reflexivity]. }
  { split; discriminate. } { vm_compute. discriminate. }
  exists t, r. split; [exact H1|exact H2].
Defined.
