(* ===== verification/GoFilepath.v ===== *)
(** * Lexical path processing of the Go standard library
    ([go/src/internal/filepathlite], [go/src/path/filepath])

    Both builds are modelled: [windows] selects [path_windows.go] or
    [path_unix.go].  [strings.EqualFold], which only the Windows build of [Rel]
    uses, is an argument.  Each loop reads at least one byte per round, so the
    length of its input bounds its fuel. *)
From S2P Require Import Prelude.

(** Byte constants. *)
Definition SLASH : Z := 47.
Definition BACKSLASH : Z := 92.
Definition DOT : Z := 46.
Definition COLON : Z := 58.
Definition QUESTION : Z := 63.

Section filepath.
Context (windows : bool).

Definition Separator : Z := if windows then BACKSLASH else SLASH.
Definition IsPathSeparator (c : Z) : bool :=
  if windows then (c =? BACKSLASH) || (c =? SLASH) else Separator =? c.

Definition sep_at (path : gostring) (i : Z) : go bool := c ← index path i; Ret (IsPathSeparator c).
Definition byte_is (path : gostring) (i c : Z) : go bool := b ← index path i; Ret (b =? c).

Definition replaceStringByte (s : gostring) (old new : Z) : gostring :=
  map (fun c => if c =? old then new else c) s.
Definition FromSlash (path : gostring) : gostring :=
  if Separator =? SLASH then path else replaceStringByte path SLASH Separator.

(** ** Volume names *)
Definition toUpper (c : Z) : Z := if (97 <=? c) && (c <=? 122) then c - 32 else c.

Fixpoint cutPath_loop (fuel : nat) (path : gostring) (i : Z) : go (gostring * gostring * bool) :=
  match fuel with
  | O => OutOfFuel
  | S fuel =>
      if i <? zlen path then
        b ← sep_at path i;
        if (b : bool) then
          before ← slice_to path i; after ← slice_from path (i + 1); Ret (before, after, true)
        else cutPath_loop fuel path (i + 1)
      else Ret (path, [], false)
  end.
(** [for i := range path] over a string stops at the start of every code
    point; a separator is one byte that never occurs inside a code point, so
    the first separator found is the same when every byte is visited. *)
Definition cutPath (path : gostring) : go (gostring * gostring * bool) :=
  cutPath_loop (S (length path)) path 0.

Fixpoint validVolumeNameLen_loop (fuel : nat) (p : gostring) (n : Z) : go Z :=
  match fuel with
  | O => OutOfFuel
  | S fuel =>
      if bool_decide (p <> []) then
        '(part, p, _) ← cutPath p;
        if bool_decide (part = [DOT; DOT]) then Ret 0 else validVolumeNameLen_loop fuel p n
      else Ret n
  end.
Definition validVolumeNameLen (path : gostring) (n : Z) : go Z :=
  p ← slice_to path n; validVolumeNameLen_loop (S (length path)) p n.

Fixpoint pathHasPrefixFold_loop (s prefix : gostring) (i : Z) (n : nat) : go bool :=
  match n with
  | O => Ret true
  | S n =>
      p ← index prefix i;
      c ← index s i;
      if IsPathSeparator p then
        if negb (IsPathSeparator c) then Ret false else pathHasPrefixFold_loop s prefix (i + 1) n
      else if negb (toUpper p =? toUpper c) then Ret false
      else pathHasPrefixFold_loop s prefix (i + 1) n
  end.
Definition pathHasPrefixFold (s prefix : gostring) : go bool :=
  if zlen s <? zlen prefix then Ret false
  else
    ok ← pathHasPrefixFold_loop s prefix 0 (length prefix);
    if negb ok then Ret false
    else
      bad ← (if zlen prefix <? zlen s then b ← sep_at s (zlen prefix); Ret (negb b) else Ret false);
      Ret (negb bad).

Fixpoint uncLen_loop (fuel : nat) (path : gostring) (i count : Z) : go Z :=
  match fuel with
  | O => OutOfFuel
  | S fuel =>
      if i <? zlen path then
        b ← sep_at path i;
        if (b : bool) then
          if count + 1 =? 2 then Ret i else uncLen_loop fuel path (i + 1) (count + 1)
        else uncLen_loop fuel path (i + 1) count
      else Ret (zlen path)
  end.
Definition uncLen (path : gostring) (prefixLen : Z) : go Z :=
  uncLen_loop (S (length path)) path prefixLen 0.

Definition volumeNameLen_windows (path : gostring) : go Z :=
  drive ← (if 2 <=? zlen path then byte_is path 1 COLON else Ret false);
  if (drive : bool) then Ret 2
  else
  nosep ← (if zlen path =? 0 then Ret true else b ← sep_at path 0; Ret (negb b));
  if (nosep : bool) then Ret 0
  else
  device ← pathHasPrefixFold path [BACKSLASH; BACKSLASH; DOT]
           ||| pathHasPrefixFold path [BACKSLASH; BACKSLASH; QUESTION]
           ||| pathHasPrefixFold path [BACKSLASH; QUESTION; QUESTION];
  if (device : bool) then
    if zlen path =? 3 then Ret 3
    else
      rest4 ← slice_from path 4;
      unc ← pathHasPrefixFold rest4 (str "UNC");
      if (unc : bool) then n ← uncLen path 8; validVolumeNameLen path n
      else
        '(_, rest, ok) ← cutPath rest4;
        if negb ok then validVolumeNameLen path (zlen path)
        else validVolumeNameLen path (zlen path - zlen rest - 1)
  else
  unc ← (if 2 <=? zlen path then sep_at path 1 else Ret false);
  if (unc : bool) then n ← uncLen path 2; validVolumeNameLen path n
  else Ret 0.

Definition volumeNameLen_unix (path : gostring) : go Z := Ret 0.
Definition volumeNameLen (path : gostring) : go Z :=
  if windows then volumeNameLen_windows path else volumeNameLen_unix path.

Definition VolumeName (path : gostring) : go gostring :=
  n ← volumeNameLen path; v ← slice_to path n; Ret (FromSlash v).

Definition IsAbs_unix (path : gostring) : go bool :=
  Ret (match path with c :: _ => c =? SLASH | [] => false end).
Definition IsAbs_windows (path : gostring) : go bool :=
  l ← volumeNameLen_windows path;
  if l =? 0 then Ret false
  else
    unc ← (sep_at path 0) &&& (sep_at path 1);
    if (unc : bool) then Ret true
    else
      rest ← slice_from path l;
      if bool_decide (rest = []) then Ret false else sep_at rest 0.
Definition IsAbs (path : gostring) : go bool := if windows then IsAbs_windows path else IsAbs_unix path.

(** ** Clean *)
Record lazybuf := MkLazybuf {
  path : gostring; buf : option gostring; w : Z; volAndPath : gostring; volLen : Z }.

Definition lazy_index (b : lazybuf) (i : Z) : go Z :=
  match buf b with Some bs => index bs i | None => index (path b) i end.

Definition lazy_append (b : lazybuf) (c : Z) : go lazybuf :=
  let write (bs : gostring) :=
    bs ← store bs (w b) c;
    Ret (MkLazybuf (path b) (Some bs) (w b + 1) (volAndPath b) (volLen b)) in
  match buf b with
  | Some bs => write bs
  | None =>
      same ← (if w b <? zlen (path b) then byte_is (path b) (w b) c else Ret false);
      if (same : bool) then Ret (MkLazybuf (path b) None (w b + 1) (volAndPath b) (volLen b))
      else
        prefix ← slice_to (path b) (w b);
        write (copy_slice (replicate (length (path b)) 0) prefix)
  end.

Definition lazy_prepend (b : lazybuf) (prefix : gostring) : lazybuf :=
  MkLazybuf (path b) (Some (prefix ++ default [] (buf b))) (w b + zlen prefix) (volAndPath b) (volLen b).

Definition lazy_string (b : lazybuf) : go gostring :=
  match buf b with
  | None => slice_to (volAndPath b) (volLen b + w b)
  | Some bs => v ← slice_to (volAndPath b) (volLen b); s ← slice_to bs (w b); Ret (v ++ s)
  end.

(** [for out.w > dotdot && !IsPathSeparator(out.index(out.w)) { out.w-- }]. *)
Fixpoint Clean_back (fuel : nat) (dotdot : Z) (out : lazybuf) : go lazybuf :=
  match fuel with
  | O => OutOfFuel
  | S fuel =>
      more ← (if dotdot <? w out then c ← lazy_index out (w out); Ret (negb (IsPathSeparator c))
              else Ret false);
      if (more : bool)
      then Clean_back fuel dotdot (MkLazybuf (path out) (buf out) (w out - 1) (volAndPath out) (volLen out))
      else Ret out
  end.

(** [for ; r < n && !IsPathSeparator(path[r]); r++ { out.append(path[r]) }]. *)
Fixpoint Clean_copy (fuel : nat) (p : gostring) (r : Z) (out : lazybuf) : go (Z * lazybuf) :=
  match fuel with
  | O => OutOfFuel
  | S fuel =>
      more ← (if r <? zlen p then b ← sep_at p r; Ret (negb b) else Ret false);
      if (more : bool) then
        c ← index p r; out ← lazy_append out c; Clean_copy fuel p (r + 1) out
      else Ret (r, out)
  end.

Definition Clean_dotdot (rooted : bool) (dotdot : Z) (out : lazybuf) : go (Z * lazybuf) :=
  if dotdot <? w out then
    out ← Clean_back (S (length (path out))) dotdot
            (MkLazybuf (path out) (buf out) (w out - 1) (volAndPath out) (volLen out));
    Ret (dotdot, out)
  else if negb rooted then
    out ← (if 0 <? w out then lazy_append out Separator else Ret out);
    out ← lazy_append out DOT;
    out ← lazy_append out DOT;
    Ret (w out, out)
  else Ret (dotdot, out).

Fixpoint Clean_loop (fuel : nat) (p : gostring) (rooted : bool) (r dotdot : Z) (out : lazybuf)
    : go lazybuf :=
  match fuel with
  | O => OutOfFuel
  | S fuel =>
      if r <? zlen p then
        empty ← sep_at p r;
        if (empty : bool) then Clean_loop fuel p rooted (r + 1) dotdot out
        else
        dot ← byte_is p r DOT &&& ((Ret (r + 1 =? zlen p)) ||| sep_at p (r + 1));
        if (dot : bool) then Clean_loop fuel p rooted (r + 1) dotdot out
        else
        dots ← byte_is p r DOT &&& byte_is p (r + 1) DOT
               &&& ((Ret (r + 2 =? zlen p)) ||| sep_at p (r + 2));
        if (dots : bool) then
          '(dotdot, out) ← Clean_dotdot rooted dotdot out;
          Clean_loop fuel p rooted (r + 2) dotdot out
        else
          out ← (if (rooted && negb (w out =? 1)) || (negb rooted && negb (w out =? 0))
                 then lazy_append out Separator else Ret out);
          '(r, out) ← Clean_copy (S (length p)) p r out;
          Clean_loop fuel p rooted r dotdot out
      else Ret out
  end.

(** [postClean] of the Windows build: the first loop looks for a colon in the
    first element of the whole buffer. *)
Fixpoint postClean_colon (bs : gostring) : bool :=
  match bs with
  | [] => false
  | c :: bs' => if IsPathSeparator c then false else if c =? COLON then true else postClean_colon bs'
  end.
Definition postClean (out : lazybuf) : go lazybuf :=
  if negb windows then Ret out
  else
    match buf out with
    | None => Ret out
    | Some bs =>
        if negb (volLen out =? 0) then Ret out
        else if postClean_colon bs then Ret (lazy_prepend out [DOT; Separator])
        else
          special ← (if 3 <=? zlen bs then
                       sep_at bs 0 &&& byte_is bs 1 QUESTION &&& byte_is bs 2 QUESTION
                     else Ret false);
          if (special : bool) then Ret (lazy_prepend out [Separator; DOT]) else Ret out
    end.

Definition Clean (originalPath : gostring) : go gostring :=
  volLen ← volumeNameLen originalPath;
  p ← slice_from originalPath volLen;
  if bool_decide (p = []) then
    unc ← (Ret (1 <? volLen)) &&& sep_at originalPath 0 &&& sep_at originalPath 1;
    if (unc : bool) then Ret (FromSlash originalPath) else Ret (originalPath ++ [DOT])
  else
    rooted ← sep_at p 0;
    let out := MkLazybuf p None 0 originalPath volLen in
    out ← (if (rooted : bool) then lazy_append out Separator else Ret out);
    let r := if (rooted : bool) then 1 else 0 in
    out ← Clean_loop (S (length p)) p rooted r r out;
    out ← (if w out =? 0 then lazy_append out DOT else Ret out);
    out ← postClean out;
    s ← lazy_string out;
    Ret (FromSlash s).

(** ** Split, Dir *)
Fixpoint last_sep (fuel : nat) (p : gostring) (vol i : Z) : go Z :=
  match fuel with
  | O => OutOfFuel
  | S fuel =>
      more ← (if vol <=? i then b ← sep_at p i; Ret (negb b) else Ret false);
      if (more : bool) then last_sep fuel p vol (i - 1) else Ret i
  end.

Definition Split (p : gostring) : go (gostring * gostring) :=
  vol ← VolumeName p;
  i ← last_sep (S (length p)) p (zlen vol) (zlen p - 1);
  dir ← slice_to p (i + 1);
  file ← slice_from p (i + 1);
  Ret (dir, file).

Definition Dir (p : gostring) : go gostring :=
  vol ← VolumeName p;
  i ← last_sep (S (length p)) p (zlen vol) (zlen p - 1);
  mid ← slice p (zlen vol) (i + 1);
  dir ← Clean mid;
  if bool_decide (dir = [DOT]) && (2 <? zlen vol) then Ret vol else Ret (vol ++ dir).

(** ** Join *)

(** [strings.Join]. *)
Fixpoint strings_Join (elems : list gostring) (sep : gostring) : gostring :=
  match elems with
  | [] => []
  | [e] => e
  | e :: elems' => e ++ sep ++ strings_Join elems' sep
  end.

Fixpoint join_unix (elem : list gostring) : go gostring :=
  match elem with
  | [] => Ret []
  | e :: elem' => if bool_decide (e <> []) then Clean (strings_Join (e :: elem') [Separator]) else join_unix elem'
  end.

(** [for len(e) > 0 && os.IsPathSeparator(e[0]) { e = e[1:] }]. *)
Fixpoint trim_separators (e : gostring) : gostring :=
  match e with
  | c :: e' => if IsPathSeparator c then trim_separators e' else e
  | [] => []
  end.
Definition starts_question (e : gostring) : bool :=
  match e with
  | [a; b] => (a =? QUESTION) && (b =? QUESTION)
  | a :: b :: c :: _ => (a =? QUESTION) && (b =? QUESTION) && IsPathSeparator c
  | _ => false
  end.
Fixpoint join_windows_loop (elem : list gostring) (b : gostring) (lastChar : Z) : gostring :=
  match elem with
  | [] => b
  | e :: elem' =>
      let '(b, e, lastChar) :=
        if zlen b =? 0 then (b, e, lastChar)
        else if IsPathSeparator lastChar then
          let e := trim_separators e in
          if (zlen b =? 1) && starts_question e then (b ++ [DOT; BACKSLASH], e, lastChar)
          else (b, e, lastChar)
        else if lastChar =? COLON then (b, e, lastChar)
        else (b ++ [BACKSLASH], e, BACKSLASH) in
      match last e with
      | Some c => join_windows_loop elem' (b ++ e) c
      | None => join_windows_loop elem' b lastChar
      end
  end.
Definition join_windows (elem : list gostring) : go gostring :=
  let b := join_windows_loop elem [] 0 in
  if zlen b =? 0 then Ret [] else Clean b.

Definition Join (elem : list gostring) : go gostring :=
  if windows then join_windows elem else join_unix elem.

(** ** Rel *)
Context (EqualFold : gostring -> gostring -> bool).
Definition sameWord (a b : gostring) : bool :=
  if windows then EqualFold a b else bool_decide (a = b).

(** [for i < l && s[i] != Separator { i++ }]. *)
Fixpoint skip_element (fuel : nat) (s : gostring) (i : Z) : go Z :=
  match fuel with
  | O => OutOfFuel
  | S fuel =>
      more ← (if i <? zlen s then b ← byte_is s i Separator; Ret (negb b) else Ret false);
      if (more : bool) then skip_element fuel s (i + 1) else Ret i
  end.

Inductive rel_positions := Same | Differ (b0 bi t0 : Z).

Fixpoint Rel_loop (fuel : nat) (base targ : gostring) (b0 bi t0 ti : Z) : go rel_positions :=
  match fuel with
  | O => OutOfFuel
  | S fuel =>
      bi ← skip_element (S (length base)) base bi;
      ti ← skip_element (S (length targ)) targ ti;
      te ← slice targ t0 ti;
      be ← slice base b0 bi;
      if negb (sameWord te be) then Ret (Differ b0 bi t0)
      else
        let bi := if bi <? zlen base then bi + 1 else bi in
        let ti := if ti <? zlen targ then ti + 1 else ti in
        if (bi =? zlen base) && (ti =? zlen targ) then Ret Same
        else Rel_loop fuel base targ bi bi ti ti
  end.

(** The buffer [".." + (Separator + "..") * seps], followed by the target elements. *)
Fixpoint dotdots (seps : nat) : gostring :=
  match seps with O => [] | S n => [Separator; DOT; DOT] ++ dotdots n end.
Definition count_byte (s : gostring) (c : Z) : nat := length (List.filter (fun x => x =? c) s).

(** [None] is the error return. *)
Definition Rel (basePath targPath : gostring) : go (option gostring) :=
  baseVol ← VolumeName basePath;
  targVol ← VolumeName targPath;
  base ← Clean basePath;
  targ ← Clean targPath;
  if sameWord targ base then Ret (Some [DOT])
  else
    base ← slice_from base (zlen baseVol);
    targ ← slice_from targ (zlen targVol);
    bv ← volumeNameLen baseVol;
    let base := if bool_decide (base = [DOT]) then []
                else if bool_decide (base = []) && (2 <? bv) then [Separator] else base in
    baseSlashed ← (Ret (0 <? zlen base)) &&& byte_is base 0 Separator;
    targSlashed ← (Ret (0 <? zlen targ)) &&& byte_is targ 0 Separator;
    if negb (Bool.eqb baseSlashed targSlashed) || negb (sameWord baseVol targVol) then Ret None
    else
      p ← Rel_loop (S (length base + length targ)) base targ 0 0 0 0;
      match p with
      | Same => Ret (Some [DOT])
      | Differ b0 bi t0 =>
          be ← slice base b0 bi;
          if bool_decide (be = [DOT; DOT]) then Ret None
          else if negb (b0 =? zlen base) then
            left ← slice base b0 (zlen base);
            rest ← slice_from targ t0;
            let buf := [DOT; DOT] ++ dotdots (count_byte left Separator)
                       ++ (if negb (t0 =? zlen targ) then [Separator] ++ rest else []) in
            r ← Clean buf; Ret (Some r)
          else rest ← slice_from targ t0; Ret (Some rest)
      end.
End filepath.
