(* ===== verification/GoSplit.v ===== *)
(** * Cutting, splitting, joining and repeating texts
    ([go/src/strings/strings.go], [internal/stringslite/strings.go])

    Every function looks for its separator with [Index] of GoSearch.  [splits]
    says what splitting means: each piece ends at the first separator of what is
    left.  The pieces, their number, and the limited and inclusive variants are
    computed from it, and joining the pieces gives the text back.  A
    [strings.Builder] is the list of the bytes written to it. *)
From S2P Require Import Prelude GoUtf8 Utf8Encode Quote GoStrings GoFilepath GoSearch.
#[local] Open Scope Z_scope.

(** ** Prefixes and suffixes *)
Definition HasPrefix (s prefix : gostring) : go bool :=
  if zlen prefix <=? zlen s then w ← slice_to s (zlen prefix); Ret (bool_decide (w = prefix)) else Ret false.
Definition HasSuffix (s suffix : gostring) : go bool :=
  if zlen suffix <=? zlen s then w ← slice_from s (zlen s - zlen suffix); Ret (bool_decide (w = suffix)) else Ret false.
Definition CutPrefix (s prefix : gostring) : go (gostring * bool) :=
  p ← HasPrefix s prefix;
  if negb p then Ret (s, false) else after ← slice_from s (zlen prefix); Ret (after, true).
Definition CutSuffix (s suffix : gostring) : go (gostring * bool) :=
  p ← HasSuffix s suffix;
  if negb p then Ret (s, false) else before ← slice_to s (zlen s - zlen suffix); Ret (before, true).
Definition TrimPrefix (s prefix : gostring) : go gostring :=
  p ← HasPrefix s prefix; if (p : bool) then slice_from s (zlen prefix) else Ret s.
Definition TrimSuffix (s suffix : gostring) : go gostring :=
  p ← HasSuffix s suffix; if (p : bool) then slice_to s (zlen s - zlen suffix) else Ret s.

(** ** Separators *)
Section separators.
Context (MaxLen : Z) (IndexString : gostring -> gostring -> go Z).
Abbreviation Index := (Index MaxLen IndexString).

Definition Cut (s sep : gostring) : go (gostring * gostring * bool) :=
  i ← Index s sep;
  if 0 <=? i then before ← slice_to s i; after ← slice_from s (i + zlen sep); Ret (before, after, true)
  else Ret (s, [], false).
Definition CutLast (s sep : gostring) : go (gostring * gostring * bool) :=
  i ← LastIndex s sep;
  if 0 <=? i then before ← slice_to s i; after ← slice_from s (i + zlen sep); Ret (before, after, true)
  else Ret (s, [], false).

(** [bytealg.CountString], the portable one. *)
Fixpoint CountString (s : gostring) (c n : Z) : Z :=
  match s with [] => n | x :: s => CountString s c (if x =? c then n + 1 else n) end.
Fixpoint Count_loop (fuel : nat) (s substr : gostring) (n : Z) : go Z :=
  match fuel with
  | O => OutOfFuel
  | S fuel =>
      i ← Index s substr;
      if i =? -1 then Ret n
      else s ← slice_from s (i + zlen substr); Count_loop fuel s substr (n + 1)
  end.
Definition Count (s substr : gostring) : go Z :=
  if zlen substr =? 0 then n ← RuneCountInString s; Ret (n + 1)
  else if zlen substr =? 1 then c ← index substr 0; Ret (CountString s c 0)
  else Count_loop (S (length s)) s substr 0.

(** [k] rounds of [for i := 0; i < n-1; i++]; [a] is what is written of the result. *)
Fixpoint explode_loop (k : nat) (s : gostring) (a : list gostring) : go (list gostring * gostring) :=
  match k with
  | O => Ret (a, s)
  | S k =>
      '(_, size) ← DecodeRuneInString s;
      piece ← slice_to s size;
      s ← slice_from s size;
      explode_loop k s (a ++ [piece])
  end.
Definition explode (s : gostring) (n : Z) : go (list gostring) :=
  l ← RuneCountInString s;
  let n := if (n <? 0) || (l <? n) then l else n in
  '(a, s) ← explode_loop (Z.to_nat (n - 1)) s [];
  Ret (if 0 <? n then a ++ [s] else a).

(** At most [k] rounds of the loop; [a] is [a[:i]]. *)
Fixpoint genSplit_loop (k : nat) (s sep : gostring) (sepSave : Z) (a : list gostring) : go (list gostring * gostring) :=
  match k with
  | O => Ret (a, s)
  | S k =>
      m ← Index s sep;
      if m <? 0 then Ret (a, s)
      else
        piece ← slice_to s (m + sepSave);
        s ← slice_from s (m + zlen sep);
        genSplit_loop k s sep sepSave (a ++ [piece])
  end.
Definition genSplit (s sep : gostring) (sepSave n : Z) : go (list gostring) :=
  if n =? 0 then Ret []
  else if bool_decide (sep = []) then explode s n
  else
    n ← (if n <? 0 then c ← Count s sep; Ret (c + 1) else Ret n);
    let n := Z.min n (zlen s + 1) in
    '(a, s) ← genSplit_loop (Z.to_nat (n - 1)) s sep sepSave [];
    Ret (a ++ [s]).
Definition SplitN (s sep : gostring) (n : Z) : go (list gostring) := genSplit s sep 0 n.
Definition SplitAfterN (s sep : gostring) (n : Z) : go (list gostring) := genSplit s sep (zlen sep) n.
Definition Split (s sep : gostring) : go (list gostring) := genSplit s sep 0 (-1).
Definition SplitAfter (s sep : gostring) : go (list gostring) := genSplit s sep (zlen sep) (-1).
End separators.

(** ** [Join] *)
Fixpoint join_length (elems : list gostring) (n : Z) : go Z :=
  match elems with
  | [] => Ret n
  | elem :: elems => if MaxInt - n <? zlen elem then Panic ExplicitPanic else join_length elems (n + zlen elem)
  end.
(** [for _, s := range elems[1:]]. *)
Fixpoint join_write (elems : list gostring) (sep b : gostring) : gostring :=
  match elems with [] => b | s :: elems => join_write elems sep ((b ++ sep) ++ s) end.
Definition Join (elems : list gostring) (sep : gostring) : go gostring :=
  match elems with
  | [] => Ret []
  | [e] => Ret e
  | e :: rest =>
      n ← (if 0 <? zlen sep then
             if MaxInt / (zlen elems - 1) <=? zlen sep then Panic ExplicitPanic else Ret (zlen sep * (zlen elems - 1))
           else Ret 0);
      _ ← join_length elems n;
      Ret (join_write rest sep e)
  end.

(** ** [Repeat] *)
Definition repeatedSpaces : gostring := replicate 128 32.
Definition repeatedDashes : gostring := replicate 128 45.
Definition repeatedZeroes : gostring := replicate 64 48.
Definition repeatedEquals : gostring := replicate 128 61.
Definition repeatedTabs : gostring := replicate 64 9.
Definition chunkLimit : Z := 8 * 1024.
(** The cases of the inner switch, in order. *)
Fixpoint repeat_common (tables : list gostring) (s : gostring) (n : Z) : go (option gostring) :=
  match tables with
  | [] => Ret None
  | t :: tables =>
      fits ← (if n <=? zlen t then HasPrefix t s else Ret false);
      if (fits : bool) then r ← slice_to t n; Ret (Some r) else repeat_common tables s n
  end.
Fixpoint repeat_loop (fuel : nat) (n chunkMax : Z) (b : gostring) : go gostring :=
  match fuel with
  | O => OutOfFuel
  | S fuel =>
      if zlen b <? n then
        let chunk := Z.min (Z.min (n - zlen b) (zlen b)) chunkMax in
        w ← slice_to b chunk;
        repeat_loop fuel n chunkMax (b ++ w)
      else Ret b
  end.
Definition Repeat (s : gostring) (count : Z) : go gostring :=
  if count =? 0 then Ret []
  else if count =? 1 then Ret s
  else if count <? 0 then Panic ExplicitPanic
  else
    let hi := zlen s * count / 2 ^ 64 in
    let lo := uint_wrap 64 (zlen s * count) in
    if (0 <? hi) || (MaxInt <? lo) then Panic ExplicitPanic
    else
      let n := lo in
      if zlen s =? 0 then Ret []
      else
        c ← index s 0;
        common ← (if (c =? 32) || (c =? 45) || (c =? 48) || (c =? 61) || (c =? 9)
                  then repeat_common [repeatedSpaces; repeatedDashes; repeatedZeroes; repeatedEquals; repeatedTabs] s n
                  else Ret None);
        match common with
        | Some r => Ret r
        | None =>
            let chunkMax := if chunkLimit <? n
                            then let m := chunkLimit / zlen s * zlen s in if m =? 0 then zlen s else m
                            else n in
            repeat_loop (S (Z.to_nat n)) n chunkMax s
        end.

(** ** Prefixes and suffixes *)
Lemma HasPrefix_spec s p : HasPrefix s p = Ret (bool_decide (p `prefix_of` s)).
Proof.
  unfold HasPrefix. destruct (Z.leb_spec (zlen p) (zlen s)) as [Hle|Hgt].
  - rewrite slice_to_in_range, bind_ret by (pose proof (zlen_nonneg p); lia). f_equal. apply bool_decide_ext.
    replace (Z.to_nat (zlen p)) with (length p) by (unfold zlen; lia). split; [intros <-; apply prefix_take|]. intros [rest ->]. apply take_app_length.
  - rewrite bool_decide_false; [done|]. intros H%prefix_length. unfold zlen in Hgt. lia.
Qed.
Lemma HasSuffix_spec s p : HasSuffix s p = Ret (bool_decide (p `suffix_of` s)).
Proof.
  unfold HasSuffix. destruct (Z.leb_spec (zlen p) (zlen s)) as [Hle|Hgt].
  - rewrite slice_from_in_range, bind_ret by (pose proof (zlen_nonneg p); lia). f_equal. apply bool_decide_ext.
    replace (Z.to_nat (zlen s - zlen p)) with (length s - length p)%nat by (unfold zlen; lia). split.
    + intros <-. exists (take (length s - length p) s). by rewrite take_drop.
    + intros [l ->]. rewrite length_app. replace (length l + length p - length p)%nat with (length l) by lia. apply drop_app_length.
  - rewrite bool_decide_false; [done|]. intros H%suffix_length. unfold zlen in Hgt. lia.
Qed.
Lemma affixes_spec s p :
  (CutPrefix (p ++ s) p = Ret (s, true) /\ TrimPrefix (p ++ s) p = Ret s) /\
  (CutSuffix (s ++ p) p = Ret (s, true) /\ TrimSuffix (s ++ p) p = Ret s) /\
  (~ p `prefix_of` s -> CutPrefix s p = Ret (s, false) /\ TrimPrefix s p = Ret s) /\
  (~ p `suffix_of` s -> CutSuffix s p = Ret (s, false) /\ TrimSuffix s p = Ret s).
Proof.
  unfold CutPrefix, TrimPrefix, CutSuffix, TrimSuffix. rewrite !HasPrefix_spec, !HasSuffix_spec, !bind_ret.
  rewrite !(bool_decide_true (_ `prefix_of` _ ++ _)), !(bool_decide_true (_ `suffix_of` _ ++ _)) by (by apply prefix_app_r || by apply suffix_app_r). cbn [negb].
  assert (slice_from (p ++ s) (zlen p) = Ret s) as -> by apply slice_from_app_r.
  assert (slice_to (s ++ p) (zlen (s ++ p) - zlen p) = Ret s) as ->.
  { rewrite zlen_app. replace (zlen s + zlen p - zlen p) with (zlen s) by lia. rewrite slice_to_in_range by (rewrite zlen_app; pose proof (zlen_nonneg s); pose proof (zlen_nonneg p); lia).
    unfold zlen. by rewrite Nat2Z.id, take_app_length. }
  rewrite !bind_ret. split_and!; try done; intros H; by rewrite !(bool_decide_false _ H).
Qed.

(** ** Splitting *)
(** Every piece but the last is followed by the first separator in what is left. *)
Inductive splits (sep : gostring) : gostring -> list gostring -> Prop :=
  | splits_end s : (forall i, ~ occurs s sep i) -> splits sep s [s]
  | splits_more p rest ps :
      (forall j, (j < length p)%nat -> ~ occurs (p ++ sep ++ rest) sep j) -> splits sep rest ps ->
      splits sep (p ++ sep ++ rest) (p :: ps).
(** At most [k] pieces are cut off, each with [save] after it; the rest stays as it is. *)
Fixpoint limit (save sep : gostring) (k : nat) (ps : list gostring) : list gostring :=
  match k, ps with
  | S k, p :: (_ :: _) as rest => (p ++ save) :: limit save sep k rest
  | _, _ => [strings_Join ps sep]
  end.

Lemma first_at_unique s sep r r' : first_at s sep r -> first_at s sep r' -> r = r'.
Proof.
  intros [(i & -> & Hi & Hlt)|[-> Hno]] [(i' & -> & Hi' & Hlt')|[-> Hno']]; [|by destruct (Hno' i)|by destruct (Hno i')|done].
  destruct (decide (i < i')%nat) as [H|]; [by destruct (Hlt' i H)|]. destruct (decide (i' < i)%nat) as [H|]; [by destruct (Hlt i' H)|]. lia.
Qed.
Lemma splits_cases sep s ps : splits sep s ps ->
  (ps = [s] /\ forall i, ~ occurs s sep i) \/
  exists p q qs, ps = p :: q :: qs /\ s = p ++ sep ++ strings_Join (q :: qs) sep /\ splits sep (strings_Join (q :: qs) sep) (q :: qs) /\
    (forall j, (j < length p)%nat -> ~ occurs s sep j).
Proof.
  assert (forall t ts, splits sep t ts -> ts <> [] /\ strings_Join ts sep = t) as Hj.
  { intros t ts H. induction H as [t H|p rest ts H Hs [Hne IH]]; [done|]. split; [done|]. cbn [strings_Join]. destruct ts; [done|]. by rewrite IH. }
  intros H. destruct H as [s H|p rest ps H Hs]; [by left|]. right. destruct (Hj _ _ Hs) as [Hne Hjoin]. destruct ps as [|q qs]; [done|].
  exists p, q, qs. rewrite Hjoin. by split_and!.
Qed.
Lemma splits_join sep s ps : splits sep s ps -> strings_Join ps sep = s.
Proof. intros [[-> _]|(p & q & qs & -> & -> & _)]%splits_cases; done. Qed.
Lemma splits_count sep s ps : sep <> [] -> splits sep s ps -> (length ps <= length s + 1)%nat.
Proof.
  intros Hne H. induction H as [s H|p rest ps H Hs IH]; [cbn; lia|]. rewrite !length_app. destruct sep; [done|]. cbn [length]. lia.
Qed.

Lemma limit_length save sep k ps : ps <> [] -> length (limit save sep k ps) = Nat.min (S k) (length ps).
Proof.
  revert ps. induction k as [|k IH]; intros [|p [|q qs]] Hne; try done. cbn [limit length]. rewrite IH by done. cbn [length]. lia.
Qed.
Lemma limit_join sep k ps : ps <> [] -> strings_Join (limit [] sep k ps) sep = strings_Join ps sep.
Proof.
  revert ps. induction k as [|k IH]; intros [|p [|q qs]] Hne; try done. cbn [limit]. rewrite app_nil_r. specialize (IH (q :: qs) ltac:(done)).
  pose proof (limit_length [] sep k (q :: qs) ltac:(done)) as Hl. destruct (limit [] sep k (q :: qs)) as [|x xs]; [cbn in Hl; lia|].
  change (p ++ sep ++ strings_Join (x :: xs) sep = p ++ sep ++ strings_Join (q :: qs) sep). by rewrite IH.
Qed.
Lemma limit_concat sep k ps : ps <> [] -> concat (limit sep sep k ps) = strings_Join ps sep.
Proof.
  revert ps. induction k as [|k IH]; intros [|p [|q qs]] Hne; try done; [by cbn; rewrite app_nil_r..|]. cbn [limit concat]. rewrite IH by done.
  by rewrite <- app_assoc.
Qed.
Lemma limit_all sep k ps : ps <> [] -> (length ps <= S k)%nat -> limit [] sep k ps = ps.
Proof.
  revert ps. induction k as [|k IH]; intros [|p [|q qs]] Hne Hl; try done; [cbn in Hl; lia|]. cbn [limit]. rewrite app_nil_r, IH; [done|done|cbn in *; lia].
Qed.
Lemma limit_enough save sep k k' ps : (length ps <= S k)%nat -> (length ps <= S k')%nat -> limit save sep k ps = limit save sep k' ps.
Proof.
  revert k' ps. induction k as [|k IH]; intros [|k'] [|p [|q qs]] H H'; try done; [cbn in H, H'; lia..|]. cbn [limit]. f_equal. apply IH; cbn in *; lia.
Qed.

Lemma CountString_app a b c n : CountString (a ++ b) c n = CountString b c (CountString a c n).
Proof. revert n. induction a as [|x a IH]; intros n; [done|]. cbn. apply IH. Qed.
Lemma CountString_none a c n : c ∉ a -> CountString a c n = n.
Proof.
  revert n. induction a as [|x a IH]; intros n Ha; [done|]. cbn. rewrite (proj2 (Z.eqb_neq x c)) by set_solver. apply IH. set_solver.
Qed.

Section split_spec.
Context (MaxLen : Z) (IndexString : gostring -> gostring -> go Z).
Context (IndexString_first : forall a b, 2 <= zlen b <= MaxLen -> exists r, IndexString a b = Ret r /\ first_at a b r).
Context (sep : gostring) (Hsep : sep <> []) (Hmax : zlen sep <= MaxInt).
Abbreviation Index := (GoSearch.Index MaxLen IndexString).

Lemma Index_splits s ps : splits sep s ps -> Index s sep = Ret (match ps with p :: _ :: _ => zlen p | _ => -1 end).
Proof.
  intros H. destruct (Index_first MaxLen IndexString IndexString_first s sep Hmax) as (r & -> & Hr). f_equal. apply (first_at_unique s sep); [done|].
  destruct (splits_cases _ _ _ H) as [[-> Hno]|(p & q & qs & -> & Hs & _ & Hno)]; [by right|]. left. exists (length p). split_and!; [done| |done].
  rewrite Hs. by exists p, (strings_Join (q :: qs) sep).
Qed.
Lemma splits_exist s : exists ps, splits sep s ps.
Proof.
  remember (length s) as n eqn:Hn. revert s Hn. induction (lt_wf n) as [n _ IH]. intros s ->.
  destruct (Index_first MaxLen IndexString IndexString_first s sep Hmax) as (r & _ & [(i & _ & (p & rest & -> & <-) & Hlt)|[_ Hno]]); [|eexists; by apply splits_end].
  destruct (IH (length rest)) with (s := rest) as [ps Hps]; [|done|exists (p :: ps); by apply splits_more].
  rewrite !length_app. destruct sep; [done|]. cbn [length]. lia.
Qed.

Lemma sep_pos : 0 < zlen sep.
Proof. destruct sep as [|c l]; [done|]. rewrite zlen_cons. pose proof (zlen_nonneg l). lia. Qed.
Lemma slice_past p rest : slice_from (p ++ sep ++ rest) (zlen p + zlen sep) = Ret rest.
Proof. rewrite app_assoc, <- zlen_app. apply slice_from_app_r. Qed.

Lemma CountString_splits c s ps n : sep = [c] -> splits sep s ps -> CountString s c n = n + zlen ps - 1.
Proof.
  intros E H. revert n. induction H as [s H|p rest ps H Hs IH]; intros n; rewrite E in *.
  - change (zlen [s]) with 1. rewrite CountString_none; [lia|]. intros (i & Hi)%list_elem_of_lookup. by apply (H i), occurs_single.
  - rewrite !CountString_app, zlen_cons. rewrite (CountString_none p); [cbn [CountString]; rewrite Z.eqb_refl, IH; lia|].
    intros (i & Hi)%list_elem_of_lookup. pose proof (lookup_lt_Some _ _ _ Hi). apply (H i); [done|]. apply occurs_single. by apply lookup_app_l_Some.
Qed.
Lemma Count_loop_splits fuel s ps n : splits sep s ps -> (length ps <= fuel)%nat -> Count_loop MaxLen IndexString fuel s sep n = Ret (n + zlen ps - 1).
Proof.
  revert s ps n. induction fuel as [|fuel IH]; intros s ps n H Hf; [apply splits_cases in H as [[-> _]|(p & q & qs & -> & _)]; cbn in Hf; lia|].
  cbn [Count_loop]. rewrite (Index_splits s ps H), bind_ret. destruct (splits_cases _ _ _ H) as [[-> _]|(p & q & qs & -> & Hs & Hrest & _)].
  - change (zlen [s]) with 1. change (-1 =? -1) with true. cbv iota. f_equal. lia.
  - pose proof (zlen_nonneg p). rewrite (proj2 (Z.eqb_neq _ (-1))) by lia. rewrite Hs at 1. rewrite slice_past, bind_ret, (IH _ _ _ Hrest) by (cbn in *; lia).
    rewrite (zlen_cons p). f_equal. lia.
Qed.
Lemma Count_splits s ps : splits sep s ps -> Count MaxLen IndexString s sep = Ret (zlen ps - 1).
Proof.
  intros H. unfold Count. pose proof sep_pos. rewrite (proj2 (Z.eqb_neq _ 0)) by lia. destruct (Z.eqb_spec (zlen sep) 1) as [E|E].
  - assert (exists c, sep = [c]) as [c Es].
    { clear -E. destruct sep as [|c [|d l]]; [done|by exists c|rewrite !zlen_cons in E; pose proof (zlen_nonneg l); lia]. }
    assert (index sep 0 = Ret c) as -> by (by rewrite Es). rewrite bind_ret. by rewrite (CountString_splits c s ps 0 Es H).
  - rewrite (Count_loop_splits _ s ps 0 H); [f_equal; lia|]. pose proof (splits_count sep s ps Hsep H). lia.
Qed.

Lemma genSplit_loop_splits k sepSave : 0 <= sepSave <= zlen sep -> forall s ps a, splits sep s ps ->
  exists x y, genSplit_loop MaxLen IndexString k s sep sepSave a = Ret (a ++ x, y) /\ x ++ [y] = limit (take (Z.to_nat sepSave) sep) sep k ps.
Proof.
  intros Hsave. induction k as [|k IH]; intros s ps a H; cbn [genSplit_loop].
  { exists [], s. rewrite app_nil_r. split; [done|]. cbn [limit app]. by rewrite (splits_join _ _ _ H). }
  rewrite (Index_splits s ps H), bind_ret. destruct (splits_cases _ _ _ H) as [[-> _]|(p & q & qs & -> & Hs & Hrest & _)].
  { exists [], s. by rewrite app_nil_r. }
  pose proof (zlen_nonneg p). rewrite (proj2 (Z.ltb_ge _ 0)) by lia.
  assert (slice_to s (zlen p + sepSave) = Ret (p ++ take (Z.to_nat sepSave) sep)) as ->.
  { rewrite Hs, slice_to_in_range by (rewrite !zlen_app; pose proof (zlen_nonneg (strings_Join (q :: qs) sep)); lia).
    rewrite Z2Nat.inj_add by lia. replace (Z.to_nat (zlen p)) with (length p) by (unfold zlen; lia). rewrite take_app_add, take_app_le; [done|].
    unfold zlen in Hsave. lia. }
  assert (slice_from s (zlen p + zlen sep) = Ret (strings_Join (q :: qs) sep)) as -> by (rewrite Hs at 1; apply slice_past).
  rewrite !bind_ret. destruct (IH _ _ (a ++ [p ++ take (Z.to_nat sepSave) sep]) Hrest) as (x & y & -> & Hx).
  exists ((p ++ take (Z.to_nat sepSave) sep) :: x), y. split; [by rewrite <- app_assoc|]. cbn [limit app]. by rewrite Hx.
Qed.
Lemma genSplit_splits s ps sepSave n : 0 <= sepSave <= zlen sep -> n <> 0 -> splits sep s ps ->
  genSplit MaxLen IndexString s sep sepSave n =
    Ret (limit (take (Z.to_nat sepSave) sep) sep (if n <? 0 then length ps else Z.to_nat (n - 1)) ps).
Proof.
  intros Hsave Hn H. unfold genSplit. rewrite (proj2 (Z.eqb_neq _ _)), bool_decide_false by done.
  pose proof (splits_count sep s ps Hsep H) as Hcount. assert (0 < length ps)%nat as Hpos by (apply splits_cases in H as [[-> _]|(p & q & qs & -> & _)]; cbn; lia).
  set (save := take (Z.to_nat sepSave) sep).
  assert (forall m, 0 < m -> limit save sep (Z.to_nat (Z.min m (zlen s + 1) - 1)) ps = limit save sep (Z.to_nat (m - 1)) ps) as Hmin.
  { intros m Hm. destruct (decide (m <= zlen s + 1)) as [Hle|Hgt]; [by rewrite Z.min_l|]. apply limit_enough; unfold zlen in *; lia. }
  assert (forall m, (let n := Z.min m (zlen s + 1) in '(a, s) ← genSplit_loop MaxLen IndexString (Z.to_nat (n - 1)) s sep sepSave []; Ret (a ++ [s])) =
    Ret (limit save sep (Z.to_nat (Z.min m (zlen s + 1) - 1)) ps)) as Hloop.
  { intros m. cbv zeta. destruct (genSplit_loop_splits (Z.to_nat (Z.min m (zlen s + 1) - 1)) sepSave Hsave s ps [] H) as (x & y & -> & Hx). rewrite bind_ret. f_equal. exact Hx. }
  destruct (Z.ltb_spec n 0) as [Hneg|Hnn].
  - rewrite (Count_splits s ps H), !bind_ret. rewrite Hloop, Hmin by (unfold zlen; lia). f_equal. apply limit_enough; unfold zlen; lia.
  - rewrite bind_ret, Hloop, Hmin by lia. done.
Qed.

Lemma Cut_splits s ps : splits sep s ps ->
  Cut MaxLen IndexString s sep = Ret (match ps with p :: (_ :: _) as rest => (p, strings_Join rest sep, true) | _ => (s, [], false) end).
Proof.
  intros H. unfold Cut. rewrite (Index_splits s ps H), bind_ret. destruct (splits_cases _ _ _ H) as [[-> _]|(p & q & qs & -> & Hs & Hrest & _)]; [done|].
  assert (slice_from s (zlen p + zlen sep) = Ret (strings_Join (q :: qs) sep)) as -> by (rewrite Hs at 1; apply slice_past).
  assert (slice_to s (zlen p) = Ret p) as ->; [|by rewrite (proj2 (Z.leb_le _ _)) by apply zlen_nonneg].
  rewrite Hs, slice_to_in_range by (rewrite zlen_app; pose proof (zlen_nonneg p); pose proof (zlen_nonneg (sep ++ strings_Join (q :: qs) sep)); lia).
  unfold zlen. by rewrite Nat2Z.id, take_app_length.
Qed.
End split_spec.

(** ** An empty separator: the code points *)
Lemma strings_Join_nil ps : strings_Join ps [] = concat ps.
Proof. induction ps as [|p [|q qs] IH]; [done|cbn; by rewrite app_nil_r|]. change (p ++ [] ++ strings_Join (q :: qs) [] = p ++ concat (q :: qs)). by rewrite IH. Qed.
Lemma RuneCountInString_pieces s es : is_gostring s -> pieces s es -> RuneCountInString s = Ret (zlen es).
Proof.
  intros Hs Hes. destruct (RuneCountInString_loop_spec (length s) s 0 Hs ltac:(lia)) as (es' & Hes' & Hc). unfold RuneCountInString.
  by rewrite Hc, (pieces_unique _ _ _ Hes Hes').
Qed.
Lemma explode_loop_pieces k : forall s es a, is_gostring s -> pieces s es -> (k < length es)%nat ->
  exists x y, explode_loop k s a = Ret (a ++ x, y) /\ x ++ [y] = limit [] [] k es.
Proof.
  induction k as [|k IH]; intros s es a Hs Hes Hk; cbn [explode_loop limit].
  { exists [], s. rewrite app_nil_r, strings_Join_nil. split; [done|]. cbn [app]. by rewrite (proj1 (pieces_valid s es Hes)). }
  destruct es as [|e es]; [cbn in Hk; lia|]. destruct (pieces_cons_inv _ _ _ Hes Hs) as (_ & -> & s' & -> & Hes'). rewrite bind_ret.
  rewrite slice_to_in_range by (rewrite zlen_app; pose proof (zlen_nonneg e); pose proof (zlen_nonneg s'); lia). rewrite slice_from_app_r, !bind_ret.
  replace (Z.to_nat (zlen e)) with (length e) by (unfold zlen; lia). rewrite take_app_length. apply Forall_app in Hs as [_ Hs].
  destruct (IH s' es (a ++ [e]) Hs Hes' ltac:(cbn in Hk; lia)) as (x & y & -> & Hx). exists (e :: x), y. rewrite <- app_assoc. split; [done|].
  destruct es as [|e' es]; [cbn in Hk; lia|]. rewrite app_nil_r. cbn [app]. by rewrite Hx.
Qed.
(** As many pieces as there are code points and invalid bytes, or fewer with the rest in the last. *)
Lemma explode_spec s es n : is_gostring s -> pieces s es -> n <> 0 ->
  explode s n = Ret (match es with [] => [] | _ => limit [] [] (if n <? 0 then length es else Z.to_nat (n - 1)) es end).
Proof.
  intros Hs Hes Hn. unfold explode. rewrite (RuneCountInString_pieces s es Hs Hes), bind_ret. destruct (decide (es = [])) as [->|Hne].
  { change (zlen (@nil gostring)) with 0. assert ((if (n <? 0) || (0 <? n) then 0 else n) = 0) as ->; [|done].
    destruct (Z.ltb_spec n 0); cbn [orb]; [done|]. by rewrite (proj2 (Z.ltb_lt _ _)) by lia. }
  set (m := if (n <? 0) || (zlen es <? n) then zlen es else n). assert (0 < length es)%nat as Hpos by (destruct es; [done|cbn; lia]).
  assert (forall l : list gostring, match es with [] => [] | _ => l end = l) as -> by (intros l; by destruct es).
  assert (0 < m <= zlen es) as Hm by (subst m; unfold zlen; destruct (Z.ltb_spec n 0); cbn [orb]; [lia|]; destruct (Z.ltb_spec (Z.of_nat (length es)) n); lia).
  destruct (explode_loop_pieces (Z.to_nat (m - 1)) s es [] Hs Hes) as (x & y & -> & Hx); [unfold zlen in Hm; lia|].
  rewrite bind_ret, (proj2 (Z.ltb_lt 0 m)) by lia. f_equal. cbn [app]. rewrite Hx. unfold zlen in *. destruct (decide (m = n)) as [->|Hmn].
  - by rewrite (proj2 (Z.ltb_ge n 0)) by lia.
  - assert (m = Z.of_nat (length es) /\ (n < 0 \/ Z.of_nat (length es) < n)) as [-> Hor].
    { subst m. destruct (Z.ltb_spec n 0); cbn [orb] in *; [lia|]. destruct (Z.ltb_spec (Z.of_nat (length es)) n); [lia|done]. }
    apply limit_enough; [lia|]. destruct (Z.ltb_spec n 0); lia.
Qed.

(** ** [Join] *)
Definition total (elems : list gostring) : Z := fold_right (fun e n => zlen e + n) 0 elems.
Lemma total_nonneg elems : 0 <= total elems.
Proof. induction elems as [|e elems IH]; [done|]. cbn. pose proof (zlen_nonneg e). unfold total in IH. lia. Qed.
Lemma join_head a s (rest : list gostring) sep : strings_Join ((a ++ s) :: rest) sep = a ++ strings_Join (s :: rest) sep.
Proof. destruct rest; [done|]. cbn [strings_Join]. by rewrite <- app_assoc. Qed.
Lemma join_write_spec rest sep e : join_write rest sep e = strings_Join (e :: rest) sep.
Proof.
  revert e. induction rest as [|s rest IH]; intros e; [done|]. cbn [join_write]. rewrite IH, <- app_assoc, join_head.
  change (e ++ strings_Join ((sep ++ s) :: rest) sep = e ++ sep ++ strings_Join (s :: rest) sep). by rewrite join_head.
Qed.
Lemma join_total e elems sep : zlen (strings_Join (e :: elems) sep) = total (e :: elems) + zlen sep * zlen elems.
Proof.
  revert e. induction elems as [|s elems IH]; intros e; [unfold total; cbn [strings_Join fold_right]; change (zlen (@nil gostring)) with 0; lia|].
  change (strings_Join (e :: s :: elems) sep) with (e ++ sep ++ strings_Join (s :: elems) sep). rewrite !zlen_app, IH, (zlen_cons s).
  change (total (e :: s :: elems)) with (zlen e + total (s :: elems)). lia.
Qed.
Lemma join_length_ok elems n : n + total elems <= MaxInt -> join_length elems n = Ret (n + total elems).
Proof.
  revert n. induction elems as [|e elems IH]; intros n H; cbn [join_length]; [unfold total; cbn [fold_right]; by rewrite Z.add_0_r|].
  change (total (e :: elems)) with (zlen e + total elems) in *. pose proof (total_nonneg elems). rewrite (proj2 (Z.ltb_ge _ _)), IH by lia. f_equal. lia.
Qed.
Lemma Join_spec elems sep : zlen (strings_Join elems sep) < 2 ^ 62 -> Join elems sep = Ret (strings_Join elems sep).
Proof.
  destruct elems as [|e [|e' elems]]; [done|done|]. intros Hlen. rewrite join_total in Hlen. unfold Join. rewrite join_write_spec.
  set (rest := e' :: elems) in *. assert (zlen (e :: rest) - 1 = zlen rest) as -> by (rewrite zlen_cons; lia).
  assert (1 <= zlen rest) as Hrest by (subst rest; rewrite zlen_cons; pose proof (zlen_nonneg elems); lia).
  pose proof (total_nonneg (e :: rest)) as Htot. pose proof (zlen_nonneg sep) as Hsep.
  assert ((if 0 <? zlen sep then if MaxInt / zlen rest <=? zlen sep then Panic ExplicitPanic else Ret (zlen sep * zlen rest) else Ret 0) = Ret (zlen sep * zlen rest)) as ->.
  { destruct (Z.ltb_spec 0 (zlen sep)) as [Hpos|Hz]; [|replace (zlen sep) with 0 by lia; done]. rewrite (proj2 (Z.leb_gt _ _)); [done|].
    assert ((zlen sep + 1) * zlen rest <= MaxInt) as H by (unfold MaxInt; nia). pose proof (Z.div_le_lower_bound MaxInt (zlen rest) (zlen sep + 1) ltac:(lia) ltac:(lia)). lia. }
  rewrite bind_ret, join_length_ok by (unfold MaxInt; lia). by rewrite bind_ret.
Qed.

(** ** [Repeat] *)
Definition copies (k : nat) (s : gostring) : gostring := concat (replicate k s).
Lemma copies_add j k s : copies (j + k) s = copies j s ++ copies k s.
Proof. unfold copies. by rewrite replicate_add, concat_app. Qed.
Lemma copies_length k s : zlen (copies k s) = zlen s * Z.of_nat k.
Proof.
  induction k as [|k IH]; [change (zlen (copies 0 s)) with 0; lia|]. change (copies (S k) s) with (s ++ copies k s). rewrite zlen_app, IH. lia.
Qed.
Lemma copies_bytes k m c : copies k (replicate m c) = replicate (k * m) c.
Proof. induction k as [|k IH]; [done|]. change (copies (S k) (replicate m c)) with (replicate m c ++ copies k (replicate m c)). by rewrite IH, <- replicate_add. Qed.

Lemma repeat_loop_copies fuel s N M : forall k,
  0 < zlen s -> (1 <= k <= N)%nat -> (1 <= M)%nat -> (N - k < fuel)%nat ->
  repeat_loop fuel (zlen s * Z.of_nat N) (zlen s * Z.of_nat M) (copies k s) = Ret (copies N s).
Proof.
  induction fuel as [|fuel IH]; intros k Hs Hk HM Hf; [lia|]. cbn [repeat_loop]. rewrite copies_length.
  destruct (Z.ltb_spec (zlen s * Z.of_nat k) (zlen s * Z.of_nat N)) as [Hlt|Hge]; [|by replace N with k by nia].
  assert (k < N)%nat as HkN by nia. set (c := Nat.min (Nat.min (N - k) k) M).
  assert (Z.min (Z.min (zlen s * Z.of_nat N - zlen s * Z.of_nat k) (zlen s * Z.of_nat k)) (zlen s * Z.of_nat M) = zlen s * Z.of_nat c) as ->.
  { rewrite <- Z.mul_sub_distr_l, !Z.mul_min_distr_nonneg_l by lia. f_equal. subst c. lia. }
  assert (slice_to (copies k s) (zlen s * Z.of_nat c) = Ret (copies c s)) as ->.
  { replace k with (c + (k - c))%nat at 1 by (subst c; lia). rewrite copies_add, <- copies_length. rewrite slice_to_in_range.
    - unfold zlen. by rewrite Nat2Z.id, take_app_length.
    - rewrite zlen_app. pose proof (zlen_nonneg (copies c s)). pose proof (zlen_nonneg (copies (k - c) s)). lia. }
  rewrite bind_ret, <- copies_add. apply IH; subst c; lia.
Qed.

Lemma repeat_common_copies tables s count :
  Forall (fun t => exists m c, t = replicate m c) tables -> (0 <= count)%nat ->
  exists o, repeat_common tables s (zlen s * Z.of_nat count) = Ret o /\ (o = None \/ o = Some (copies count s)).
Proof.
  intros Ht Hc. induction Ht as [|t tables (m & c & ->) _ IH]; [exists None; split; [done|by left]|]. cbn [repeat_common].
  destruct (Z.leb_spec (zlen s * Z.of_nat count) (zlen (replicate m c))) as [Hle|Hgt]; [|rewrite bind_ret; exact IH].
  rewrite HasPrefix_spec, bind_ret. case_bool_decide as Hp; [|exact IH]. pose proof (zlen_nonneg s).
  rewrite slice_to_in_range, bind_ret by lia. eexists. split; [done|]. right. f_equal.
  assert (s = replicate (length s) c) as Es.
  { destruct Hp as [rest E]. apply (f_equal (take (length s))) in E as E'. rewrite take_app_length in E'. rewrite <- E' at 1. rewrite take_replicate.
    f_equal. apply (f_equal length) in E. rewrite length_app, length_replicate in E. lia. }
  rewrite Es at 2. rewrite copies_bytes, take_replicate. f_equal. rewrite zlen_replicate in Hle. unfold zlen in *. lia.
Qed.

(** [count] copies, unless that is fewer than none or longer than a string can be. *)
Lemma Repeat_spec s count : is_int count ->
  Repeat s count = if (count <? 0) || (MaxInt <? zlen s * count) && (1 <? count) then Panic ExplicitPanic else Ret (copies (Z.to_nat count) s).
Proof.
  intros Hint. unfold Repeat. pose proof (zlen_nonneg s) as Hs. destruct (Z.eqb_spec count 0) as [->|H0]; [by rewrite andb_false_r|].
  destruct (Z.eqb_spec count 1) as [->|H1]; [rewrite andb_false_r; change (Ret s = Ret (s ++ [])); by rewrite app_nil_r|].
  destruct (Z.ltb_spec count 0) as [Hneg|Hpos]; [done|]. cbn [orb]. rewrite (proj2 (Z.ltb_lt 1 count)), andb_true_r by lia.
  assert ((0 <? zlen s * count / 2 ^ 64) || (MaxInt <? uint_wrap 64 (zlen s * count)) = (MaxInt <? zlen s * count)) as ->.
  { unfold uint_wrap. assert (0 <= zlen s * count) as Hx by nia. pose proof (Z.div_mod (zlen s * count) (2 ^ 64) ltac:(lia)) as Hd.
    pose proof (Z.mod_pos_bound (zlen s * count) (2 ^ 64) ltac:(lia)) as Hb. unfold MaxInt.
    destruct (Z.ltb_spec 0 (zlen s * count / 2 ^ 64)); cbn [orb]; [symmetry; apply Z.ltb_lt; lia|]. f_equal.
    assert (zlen s * count / 2 ^ 64 = 0) as Hz by (pose proof (Z.div_pos (zlen s * count) (2 ^ 64) Hx ltac:(lia)); lia). lia. }
  destruct (Z.ltb_spec MaxInt (zlen s * count)) as [Hover|Hfit]; [done|].
  assert (uint_wrap 64 (zlen s * count) = zlen s * Z.of_nat (Z.to_nat count)) as ->.
  { rewrite Z2Nat.id by lia. apply uint_wrap_id. unfold MaxInt in Hfit. nia. }
  set (N := Z.to_nat count). assert (2 <= N)%nat as HN by lia.
  destruct (Z.eqb_spec (zlen s) 0) as [Hz|Hnz].
  { apply zlen_0 in Hz as ->. f_equal. symmetry. apply zlen_0. rewrite copies_length. done. }
  destruct (index_in_range s 0) as [c Hc]; [lia|]. rewrite Hc, bind_ret.
  assert (exists o, (if (c =? 32) || (c =? 45) || (c =? 48) || (c =? 61) || (c =? 9)
                     then repeat_common [repeatedSpaces; repeatedDashes; repeatedZeroes; repeatedEquals; repeatedTabs] s (zlen s * Z.of_nat N)
                     else Ret None) = Ret o /\ (o = None \/ o = Some (copies N s))) as (o & -> & [->| ->]); [|rewrite bind_ret|done].
  { destruct (_ || _); [|exists None; split; [done|by left]]. apply repeat_common_copies; [repeat constructor; by eexists _, _|lia]. }
  set (n := zlen s * Z.of_nat N).
  assert (exists M, (1 <= M)%nat /\ (if chunkLimit <? n then if chunkLimit / zlen s * zlen s =? 0 then zlen s else chunkLimit / zlen s * zlen s else n) = zlen s * Z.of_nat M) as (M & HM & ->).
  { destruct (chunkLimit <? n); [|exists N; split; [lia|done]]. pose proof (Z.div_pos chunkLimit (zlen s) ltac:(done) ltac:(lia)) as Hq.
    destruct (Z.eqb_spec (chunkLimit / zlen s * zlen s) 0) as [E|E]; [exists 1%nat; split; [lia|lia]|]. exists (Z.to_nat (chunkLimit / zlen s)).
    split; [nia|]. rewrite Z2Nat.id by lia. lia. }
  pose proof (repeat_loop_copies (S (Z.to_nat n)) s N M 1 ltac:(lia) ltac:(lia) HM) as Hrep. change (copies 1 s) with (s ++ []) in Hrep. rewrite app_nil_r in Hrep.
  apply Hrep. subst n. nia.
Qed.

(** ** What the functions promise together *)
(** How many pieces a call with the count [n] may cut off. *)
Definition cuts (n : Z) (ps : list gostring) : nat := if n <? 0 then length ps else Z.to_nat (n - 1).
(** The pieces of a text: its code points and invalid bytes when the separator is empty. *)
Definition text_pieces (sep s : gostring) (ps : list gostring) : Prop := if bool_decide (sep = []) then pieces s ps else splits sep s ps.
(** What a call with the count [n] leaves of them; only the empty text has none. *)
Definition limited (save sep : gostring) (n : Z) (ps : list gostring) : list gostring :=
  if n =? 0 then [] else match ps with [] => [] | _ => limit save sep (cuts n ps) ps end.

Lemma limited_all sep n ps : n < 0 -> limited [] sep n ps = ps.
Proof.
  intros Hn. unfold limited, cuts. rewrite (proj2 (Z.eqb_neq n 0)), (proj2 (Z.ltb_lt n 0)) by lia. destruct ps; [done|]. apply limit_all; [done|cbn; lia].
Qed.
Lemma limited_texts sep n ps : n <> 0 ->
  strings_Join (limited [] sep n ps) sep = strings_Join ps sep /\ concat (limited sep sep n ps) = strings_Join ps sep /\
  length (limited sep sep n ps) = length (limited [] sep n ps) /\ (0 < n -> zlen (limited [] sep n ps) = Z.min n (zlen ps)).
Proof.
  intros Hn. unfold limited. rewrite (proj2 (Z.eqb_neq n 0)) by done. destruct ps as [|p ps]; [split_and!; try done; intros; unfold zlen; cbn; lia|].
  split_and!; [by rewrite limit_join|by rewrite limit_concat|by rewrite !limit_length|].
  intros Hpos. unfold zlen. rewrite limit_length by done. unfold cuts. rewrite (proj2 (Z.ltb_ge n 0)) by lia. lia.
Qed.

Section text_split.
Context (MaxLen : Z) (IndexString : gostring -> gostring -> go Z)
  (IndexString_first : forall a b, 2 <= zlen b <= MaxLen -> exists r, IndexString a b = Ret r /\ first_at a b r).

Lemma genSplit_limited s sep ps save n : is_gostring s -> zlen sep <= MaxInt -> 0 <= save <= zlen sep -> text_pieces sep s ps ->
  genSplit MaxLen IndexString s sep save n = Ret (limited (take (Z.to_nat save) sep) sep n ps).
Proof.
  intros Hs Hmax Hsave Hps. unfold limited. destruct (Z.eqb_spec n 0) as [->|Hn]; [done|]. unfold text_pieces in Hps. case_bool_decide as Hsep.
  - subst sep. unfold genSplit. rewrite (proj2 (Z.eqb_neq n 0)), bool_decide_true, (explode_spec s ps n Hs Hps Hn) by done. by rewrite take_nil.
  - rewrite (genSplit_splits MaxLen IndexString IndexString_first sep Hsep Hmax s ps save n Hsave Hn Hps).
    by apply splits_cases in Hps as [[-> _]|(p & q & qs & -> & _)].
Qed.

Lemma text_pieces_exist s sep : is_gostring s -> zlen sep <= MaxInt -> exists ps, text_pieces sep s ps.
Proof.
  intros Hs Hmax. unfold text_pieces. case_bool_decide; [by apply pieces_exist|]. by apply (splits_exist MaxLen IndexString IndexString_first).
Qed.
Lemma text_pieces_join sep s ps : text_pieces sep s ps -> strings_Join ps sep = s.
Proof.
  unfold text_pieces. case_bool_decide as Hsep; [|apply splits_join]. subst sep. intros Hps. rewrite strings_Join_nil. apply (pieces_valid s ps Hps).
Qed.

(** C26: Given the contract of the assembly for short patterns, every text has one
    sequence of pieces for a separator: those around the separators found from
    the left, or the code points and invalid bytes if the separator is empty.
    [Split] returns it; [Count] how many separators there are, one more than the
    pieces if it is empty; [Cut] the first piece and the rest, an empty separator
    being found at the start.  [SplitN] and [SplitAfterN] return nothing for the
    count 0, otherwise stop after the count they are given and lose nothing:
    joining the pieces, or concatenating those that keep their separator, is the
    text again, which is also what [Join] makes of all of them. *)
Theorem text_split_spec (s sep : gostring) (Hs : is_gostring s) (Hmax : zlen sep <= MaxInt) :
  exists ps, text_pieces sep s ps /\ (forall qs, text_pieces sep s qs -> qs = ps) /\
    Split MaxLen IndexString s sep = Ret ps /\
    Count MaxLen IndexString s sep = Ret (if bool_decide (sep = []) then zlen ps + 1 else zlen ps - 1) /\
    Cut MaxLen IndexString s sep = Ret (if bool_decide (sep = []) then ([], s, true)
      else match ps with p :: (_ :: _) as rest => (p, strings_Join rest sep, true) | _ => (s, [], false) end) /\
    SplitN MaxLen IndexString s sep 0 = Ret [] /\ SplitAfterN MaxLen IndexString s sep 0 = Ret [] /\
    (forall n, n <> 0 ->
       let ns := limited [] sep n ps in let after := limited sep sep n ps in
       SplitN MaxLen IndexString s sep n = Ret ns /\ strings_Join ns sep = s /\
       SplitAfterN MaxLen IndexString s sep n = Ret after /\ concat after = s /\ length after = length ns /\
       (0 < n -> zlen ns = Z.min n (zlen ps))) /\
    (zlen s < 2 ^ 62 -> Join ps sep = Ret s).
Proof.
  destruct (text_pieces_exist s sep Hs Hmax) as [ps Hps]. pose proof (text_pieces_join _ _ _ Hps) as Hjoin. pose proof (zlen_nonneg sep) as Hs0.
  assert (forall qs save n, 0 <= save <= zlen sep -> text_pieces sep s qs ->
    genSplit MaxLen IndexString s sep save n = Ret (limited (take (Z.to_nat save) sep) sep n qs)) as Hgen by (intros; by apply genSplit_limited).
  assert (take (Z.to_nat (zlen sep)) sep = sep) as Hall by (unfold zlen; by rewrite Nat2Z.id, firstn_all).
  exists ps. split_and!; [done| | | | |done|done| |].
  - intros qs Hqs. pose proof (Hgen qs 0 (-1) ltac:(lia) Hqs) as Hq. rewrite (Hgen ps 0 (-1)) in Hq by (done || lia). injection Hq as Hq.
    by rewrite !limited_all in Hq.
  - unfold Split. by rewrite (Hgen ps), limited_all by (done || lia).
  - unfold text_pieces in Hps. case_bool_decide as Hsep; [|by apply Count_splits]. subst sep. unfold Count.
    change (zlen [] =? 0) with true. cbv iota. by rewrite (RuneCountInString_pieces s ps Hs Hps).
  - unfold text_pieces in Hps. case_bool_decide as Hsep; [|by apply Cut_splits]. subst sep. unfold Cut.
    change (GoSearch.Index MaxLen IndexString s []) with (Ret 0). rewrite bind_ret. cbn [Z.leb Z.compare]. change (0 + zlen []) with 0.
    pose proof (zlen_nonneg s). rewrite slice_to_in_range by lia. pose proof (slice_from_app_r [] s) as Hf. cbn [app] in Hf. change (zlen []) with 0 in Hf. by rewrite Hf.
  - intros n Hn ns after. subst ns after. destruct (limited_texts sep n ps Hn) as (H1 & H2 & H3 & H4). unfold SplitN, SplitAfterN.
    rewrite !(Hgen ps), Hall, H1, H2 by (done || lia). by split_and!.
  - intros Hlen. rewrite Join_spec; by rewrite Hjoin.
Qed.
End text_split.

Example text_split_samples :
  Split 0 sample_IndexString (str "a,b,,c") (str ",") = Ret [str "a"; str "b"; []; str "c"] /\
  Split 63 sample_IndexString (str "aaa") (str "aa") = Ret [[]; str "a"] /\ Split 0 sample_IndexString [] (str ",") = Ret [[]] /\
  SplitN 0 sample_IndexString (str "a,b,c") (str ",") 2 = Ret [str "a"; str "b,c"] /\ SplitAfter 0 sample_IndexString (str "a,b") (str ",") = Ret [str "a,"; str "b"] /\
  Split 0 sample_IndexString [97; 0xC3; 0xA9; 0xFF] [] = Ret [[97]; [0xC3; 0xA9]; [0xFF]] /\ SplitN 0 sample_IndexString (str "abc") [] 2 = Ret [str "a"; str "bc"] /\
  Repeat (str "ab") 3 = Ret (str "ababab") /\ Repeat (str " ") 5 = Ret (str "     ") /\ Repeat (str "ab") (-1) = Panic ExplicitPanic /\
  Repeat (str "ab") (2 ^ 62) = Panic ExplicitPanic /\ CutLast (str "a/b/c") (str "/") = Ret (str "a/b", str "c", true).
Proof. by vm_compute. Qed.
(** The second text is split into code points: a letter, a letter of two bytes
    and a byte that is none. *)
Lemma text_split_spec_witness :
  (exists ps, text_pieces (str "::") (str "a::b::c") ps /\ Split 63 sample_IndexString (str "a::b::c") (str "::") = Ret ps /\ ps = [str "a"; str "b"; str "c"]) /\
  (exists ps, text_pieces [] [97; 0xC3; 0xA9; 0xFF] ps /\ Split 63 sample_IndexString [97; 0xC3; 0xA9; 0xFF] [] = Ret ps /\ ps = [[97]; [0xC3; 0xA9]; [0xFF]]).
Proof.
  split.
  - destruct (text_split_spec 63 sample_IndexString sample_IndexString_first (str "a::b::c") (str "::")) as (ps & Hps & _ & Hsplit & _);
      [repeat constructor; unfold is_byte; cbn; lia|by vm_compute|]. exists ps. split; [exact Hps|]. split; [exact Hsplit|].
    assert (Split 63 sample_IndexString (str "a::b::c") (str "::") = Ret [str "a"; str "b"; str "c"]) as E by (vm_compute; reflexivity). rewrite E in Hsplit. by injection Hsplit as <-.
  - destruct (text_split_spec 63 sample_IndexString sample_IndexString_first [97; 0xC3; 0xA9; 0xFF] []) as (ps & Hps & _ & Hsplit & _);
      [repeat constructor; unfold is_byte; cbn; lia|by vm_compute|]. exists ps. split; [exact Hps|]. split; [exact Hsplit|].
    assert (Split 63 sample_IndexString [97; 0xC3; 0xA9; 0xFF] [] = Ret [[97]; [0xC3; 0xA9]; [0xFF]]) as E by (vm_compute; reflexivity). rewrite E in Hsplit. by injection Hsplit as <-.
Defined.
