(* ===== verification/CleanSpec.v ===== *)
(** * What [filepath.Clean] computes on Unix

    The reference is a stack of path elements; the lazy output buffer of the
    code is related to the rendering of that stack. *)
From S2P Require Import Prelude GoFilepath.

Abbreviation sep := (IsPathSeparator false).
Abbreviation join es := (strings_Join es [SLASH]).

(** ** Elements of a path *)

(** The non-empty pieces of [cur ++ s] between bytes that satisfy [is_sep]. *)
Fixpoint split_parts (is_sep : Z -> bool) (cur s : gostring) : list gostring :=
  match s with
  | [] => match cur with [] => [] | _ => [cur] end
  | c :: s' =>
      if is_sep c then
        match cur with [] => split_parts is_sep [] s' | _ => cur :: split_parts is_sep [] s' end
      else split_parts is_sep (cur ++ [c]) s'
  end.
Definition parts (s : gostring) : list gostring := split_parts sep [] s.

(** A path element: not empty, without separators. *)
Definition is_elem (is_sep : Z -> bool) (e : gostring) : Prop := e <> [] /\ forallb (fun c => negb (is_sep c)) e = true.
Abbreviation elem := (is_elem sep).
(** A suffix that does not continue an element. *)
Definition at_break (is_sep : Z -> bool) (s : gostring) : Prop :=
  match s with [] => True | c :: _ => is_sep c = true end.

Lemma split_parts_plain is_sep cur e s :
  forallb (fun c => negb (is_sep c)) e = true ->
  split_parts is_sep cur (e ++ s) = split_parts is_sep (cur ++ e) s.
Proof.
  revert cur. induction e as [|c e IH]; intros cur He; [by rewrite app_nil_r|].
  cbn in *. apply andb_true_iff in He as [Hc He]. apply negb_true_iff in Hc. rewrite Hc.
  rewrite IH by done. by rewrite <- app_assoc.
Qed.

Lemma split_parts_elem is_sep e s :
  is_elem is_sep e -> at_break is_sep s -> split_parts is_sep [] (e ++ s) = e :: split_parts is_sep [] s.
Proof.
  intros [Hne He] Hs. rewrite split_parts_plain by done. cbn [app].
  destruct s as [|c s]; cbn in *; [by destruct e|]. rewrite Hs. by destruct e.
Qed.

Lemma split_parts_sep is_sep c s : is_sep c = true -> split_parts is_sep [] (c :: s) = split_parts is_sep [] s.
Proof. cbn. by intros ->. Qed.

(** The first element of a string that does not start with a separator. *)
Lemma first_elem is_sep c s :
  is_sep c = false -> exists e rest, c :: s = e ++ rest /\ is_elem is_sep e /\ at_break is_sep rest.
Proof.
  revert c. induction s as [|d s IH]; intros c Hc.
  - exists [c], []. split_and!; [done| |done]. split; [done|]. cbn. by rewrite Hc.
  - destruct (is_sep d) eqn:Hd.
    + exists [c], (d :: s). split_and!; [done| |done]. split; [done|]. cbn. by rewrite Hc.
    + destruct (IH d Hd) as (e & rest & E & [Hne He] & Hr). exists (c :: e), rest.
      split_and!; [cbn; by rewrite E| |done]. split; [done|]. cbn. by rewrite Hc.
Qed.

Lemma split_parts_elems is_sep cur s :
  forallb (fun c => negb (is_sep c)) cur = true -> Forall (is_elem is_sep) (split_parts is_sep cur s).
Proof.
  revert cur. induction s as [|c s IH]; intros cur Hcur; cbn.
  - destruct cur; [constructor|]. repeat constructor; done.
  - destruct (is_sep c) eqn:Hc.
    + assert (Forall (is_elem is_sep) (split_parts is_sep [] s)) by (by apply IH).
      destruct cur; [done|]. constructor; [|done]. by split.
    + apply IH. rewrite forallb_app, Hcur. cbn. by rewrite Hc.
Qed.

(** ** The reference: a stack of elements *)
Definition is_dotdot (e : gostring) : bool := bool_decide (e = [DOT; DOT]).

(** The state: the number of leading ".." elements and the reversed other elements. *)
Record path_state := MkPath { ups : nat; elems : list gostring }.

Definition step (rooted : bool) (st : path_state) (e : gostring) : path_state :=
  if bool_decide (e = [DOT]) then st
  else if is_dotdot e then
    match elems st with
    | _ :: es => MkPath (ups st) es
    | [] => if rooted then st else MkPath (S (ups st)) []
    end
  else MkPath (ups st) (e :: elems st).

Definition state_elems (st : path_state) : list gostring :=
  replicate (ups st) [DOT; DOT] ++ rev (elems st).
Definition normalize (rooted : bool) (es : list gostring) : list gostring :=
  state_elems (fold_left (step rooted) es (MkPath 0 [])).

Definition body (rooted : bool) (es : list gostring) : gostring :=
  (if rooted then [SLASH] else []) ++ join es.
Definition render (rooted : bool) (es : list gostring) : gostring :=
  match body rooted es with [] => [DOT] | s => s end.

Definition is_rooted (s : gostring) : bool := match s with c :: _ => sep c | [] => false end.

(** The cleaned path. *)
Definition clean_spec (s : gostring) : gostring :=
  render (is_rooted s) (normalize (is_rooted s) (parts s)).

(** ** Joining elements *)
Lemma join_snoc es (e : gostring) :
  join (es ++ [e]) = match es with [] => e | _ => join es ++ [SLASH] ++ e end.
Proof.
  destruct es as [|e0 es]; [done|]. revert e0. induction es as [|e1 es IH]; intros e0; [done|].
  change (join ((e0 :: e1 :: es) ++ [e])) with (e0 ++ [SLASH] ++ join ((e1 :: es) ++ [e])).
  rewrite IH. change (join (e0 :: e1 :: es)) with (e0 ++ [SLASH] ++ join (e1 :: es)).
  by rewrite <- !app_assoc.
Qed.

Lemma join_nil es : Forall (fun e => e <> []) es -> join es = [] -> es = [].
Proof.
  destruct 1 as [|e es He Hes]; [done|]. destruct es as [|e' es]; cbn; [done|].
  intros H. apply app_nil in H as [? _]. done.
Qed.

(** What the states of a run satisfy. *)
Record state_ok (rooted : bool) (st : path_state) : Prop := {
  ok_ups : rooted = true -> ups st = 0%nat;
  ok_elems : Forall (fun e => elem e /\ e <> [DOT; DOT] /\ e <> [DOT]) (elems st) }.

Lemma step_ok rooted st e : state_ok rooted st -> elem e -> state_ok rooted (step rooted st e).
Proof.
  intros [H1 H2] He. unfold step, is_dotdot. case_bool_decide; [done|]. case_bool_decide.
  - destruct (elems st) as [|e0 es] eqn:E; [destruct rooted|]; split; cbn; try done.
    + by rewrite E.
    + by inversion H2.
  - split; cbn; [done|]. by constructor.
Qed.

Lemma fold_step_ok rooted es st :
  state_ok rooted st -> Forall elem es -> state_ok rooted (fold_left (step rooted) es st).
Proof.
  intros Hok H. revert st Hok. induction H as [|e es He _ IH]; intros st Hok; [done|].
  cbn. apply IH. by apply step_ok.
Qed.

Lemma state_elems_elem rooted st : state_ok rooted st -> Forall elem (state_elems st).
Proof.
  intros [_ H]. unfold state_elems. apply Forall_app. split.
  - apply Forall_replicate. split; done.
  - apply Forall_rev. eapply Forall_impl; [exact H|]. by intros ? [? _].
Qed.

(** The output of a state, and the position before which ".." may not remove. *)
Definition out_of (rooted : bool) (st : path_state) : gostring := body rooted (state_elems st).
Definition limit (rooted : bool) (st : path_state) : Z := zlen (body rooted (replicate (ups st) [DOT; DOT])).

(** Whether an element is preceded by a separator in the output. *)
Lemma out_push st e :
  state_elems (MkPath (ups st) (e :: elems st)) = state_elems st ++ [e].
Proof. unfold state_elems. cbn. by rewrite app_assoc. Qed.

Lemma body_snoc rooted es e :
  Forall elem es ->
  body rooted (es ++ [e]) =
    body rooted es ++ (if bool_decide (body rooted es = body rooted []) then [] else [SLASH]) ++ e.
Proof.
  intros Hes. unfold body. rewrite join_snoc. destruct es as [|e0 es].
  - rewrite bool_decide_true by done. cbn. by rewrite app_nil_r.
  - rewrite bool_decide_false; [by rewrite <- app_assoc|].
    intros E. apply app_inv_head in E. apply join_nil in E; [done|].
    eapply Forall_impl; [exact Hes|]. by intros ? [? _].
Qed.

(** ** The lazy buffer *)

(** [out] holds [v] while cleaning [p]. *)
Record holds (out : lazybuf) (p v : gostring) : Prop := {
  holds_path : path out = p;
  holds_w : w out = zlen v;
  holds_fits : zlen v <= zlen p;
  holds_vol : volAndPath out = p /\ volLen out = 0;
  holds_buf : match buf out with
              | Some bs => length bs = length p /\ take (length v) bs = v
              | None => take (length v) p = v
              end }.

Lemma take_snoc_lookup (l v : gostring) c :
  take (length v) l = v -> l !! length v = Some c -> take (length (v ++ [c])) l = v ++ [c].
Proof.
  intros Hv Hc. rewrite length_app. cbn [length]. rewrite Nat.add_1_r.
  by rewrite (take_S_r _ _ _ Hc), Hv.
Qed.

Lemma lazy_append_spec out p v c :
  holds out p v -> zlen v < zlen p ->
  exists out', lazy_append out c = Ret out' /\ holds out' p (v ++ [c]).
Proof.
  intros [<- Hw Hfit Hvol Hbuf] Hlt. unfold lazy_append. rewrite Hw.
  pose proof (zlen_nonneg v) as Hv0.
  assert (zlen (v ++ [c]) = zlen v + 1) as Hvc by (rewrite zlen_app; done).
  assert (Z.to_nat (zlen v) = length v) as Ev by (unfold zlen; lia).
  assert (forall bs : gostring, length bs = length (path out) -> take (length v) bs = v ->
    exists out', (bs ← store bs (zlen v) c;
      Ret (MkLazybuf (path out) (Some bs) (zlen v + 1) (volAndPath out) (volLen out))) = Ret out' /\
      holds out' (path out) (v ++ [c])) as Hwrite.
  { intros bs Hl Ht. rewrite store_in_range by (unfold zlen in *; lia). rewrite bind_ret.
    eexists. split; [done|]. split; cbn; try done; try lia.
    rewrite length_insert. split; [done|]. rewrite Ev.
    apply take_snoc_lookup.
    - rewrite take_insert_ge by lia. done.
    - apply list_lookup_insert_eq. unfold zlen in *. lia. }
  destruct (buf out) as [bs|] eqn:Eb; [by apply Hwrite; destruct Hbuf|].
  rewrite (proj2 (Z.ltb_lt _ _)) by done. unfold byte_is.
  destruct (index_in_range (path out) (zlen v)) as [b Hb]; [lia|].
  rewrite Hb, !bind_ret. apply index_lookup in Hb as [_ Hb]. rewrite Ev in Hb.
  destruct (Z.eqb_spec b c) as [->|Hbc].
  - eexists. split; [done|]. split; cbn; try done; try lia. by apply take_snoc_lookup.
  - rewrite slice_to_in_range, bind_ret, Ev, Hbuf by lia. apply Hwrite.
    + unfold copy_slice. rewrite length_app, length_take, length_drop, length_replicate.
      unfold zlen in *. lia.
    + rewrite copy_slice_short by (rewrite zlen_replicate; unfold zlen in *; lia).
      by rewrite take_app_length.
Qed.

Definition set_w (out : lazybuf) (k : Z) : lazybuf :=
  MkLazybuf (path out) (buf out) k (volAndPath out) (volLen out).

Lemma lazy_index_spec out p v k c :
  holds out p v -> index v k = Ret c -> lazy_index (set_w out k) k = Ret c.
Proof.
  intros [Hp _ _ _ Hbuf] [H0 Hc]%index_lookup. unfold lazy_index. cbn.
  assert (forall l : gostring, take (length v) l = v -> index l k = Ret c) as Hl.
  { intros l Hl. apply index_lookup. split; [done|]. rewrite <- Hl in Hc.
    by apply lookup_take_Some in Hc as [? _]. }
  destruct (buf out) as [bs|]; [apply Hl; tauto|]. rewrite Hp. by apply Hl.
Qed.

Lemma holds_shrink out p v (a : gostring) :
  holds out p v -> take (length a) v = a -> (length a <= length v)%nat -> holds (set_w out (zlen a)) p a.
Proof.
  intros [Hp Hw Hfit Hvol Hbuf] Ha Hle. split; cbn; try done.
  - unfold zlen in *. lia.
  - assert (forall l : gostring, take (length v) l = v -> take (length a) l = a) as Hl.
    { intros l Hl. rewrite <- Ha at 2. rewrite <- Hl at 1. rewrite take_take. f_equal. lia. }
    destruct (buf out) as [bs|]; [|by apply Hl]. destruct Hbuf. auto.
Qed.

(** Backing up over the last element. *)
Lemma clean_back_spec out p v (a : gostring) dd fuel k :
  holds out p v -> zlen a <= k < zlen v -> dd <= zlen a ->
  (forall j c, zlen a < j < zlen v -> index v j = Ret c -> sep c = false) ->
  (dd = zlen a \/ exists c, index v (zlen a) = Ret c /\ sep c = true) ->
  k - zlen a < Z.of_nat fuel ->
  Clean_back false fuel dd (set_w out k) = Ret (set_w out (zlen a)).
Proof.
  intros Hh Hk Hdd Hnosep Hstop. revert k Hk. induction fuel as [|fuel IH]; intros k Hk Hf; [lia|].
  cbn [Clean_back]. cbn [w set_w]. pose proof (zlen_nonneg a).
  destruct (decide (k = zlen a)) as [->|Hka].
  - destruct Hstop as [->|(c & Hc & Hs)].
    + rewrite (proj2 (Z.ltb_ge _ _)) by lia. done.
    + destruct (dd <? zlen a); [|done]. by rewrite (lazy_index_spec _ _ _ _ _ Hh Hc), !bind_ret, Hs.
  - rewrite (proj2 (Z.ltb_lt dd k)) by lia.
    destruct (index_in_range v k) as [c Hc]; [lia|].
    rewrite (lazy_index_spec _ _ _ _ _ Hh Hc), !bind_ret, (Hnosep k c) by (done || lia). cbn [negb].
    apply IH; lia.
Qed.

(** ** The steps of the loop *)
Lemma sep_at_spec (p : gostring) i c : index p i = Ret c -> sep_at false p i = Ret (sep c).
Proof. unfold sep_at. by intros ->. Qed.

Lemma nosep_lookup is_sep (e : gostring) i c :
  forallb (fun c => negb (is_sep c)) e = true -> e !! i = Some c -> is_sep c = false.
Proof.
  intros He Hc. rewrite forallb_forall in He. apply negb_true_iff. apply He.
  apply list_elem_of_In. by eapply list_elem_of_lookup_2.
Qed.

Lemma clean_copy_spec fuel pre e rest out v :
  holds out (pre ++ e ++ rest) v -> forallb (fun c => negb (sep c)) e = true -> at_break sep rest ->
  zlen v + zlen e <= zlen (pre ++ e ++ rest) -> (length e < fuel)%nat ->
  exists out', Clean_copy false fuel (pre ++ e ++ rest) (zlen pre) out = Ret (zlen pre + zlen e, out') /\
    holds out' (pre ++ e ++ rest) (v ++ e).
Proof.
  revert pre e out v. induction fuel as [|fuel IH]; intros pre e out v Hh He Hr Hlen Hf; [lia|].
  cbn [Clean_copy]. destruct e as [|c e].
  - cbn [app] in *. change (zlen (@nil Z)) with 0. rewrite Z.add_0_r, app_nil_r.
    exists out. split; [|done]. destruct rest as [|c rest].
    + rewrite app_nil_r, (proj2 (Z.ltb_ge _ _)) by lia. done.
    + rewrite (proj2 (Z.ltb_lt _ _)) by zlia.
      assert (index (pre ++ c :: rest) (zlen pre) = Ret c) as Hc.
      { rewrite <- (Z.add_0_r (zlen pre)), index_app_r by lia. done. }
      by rewrite (sep_at_spec _ _ _ Hc), bind_ret, Hr.
  - cbn [forallb] in He. apply andb_true_iff in He as [Hc He]. apply negb_true_iff in Hc.
    cbn [app] in *. rewrite zlen_cons in *. pose proof (zlen_nonneg e).
    assert (index (pre ++ c :: e ++ rest) (zlen pre) = Ret c) as Hi.
    { rewrite <- (Z.add_0_r (zlen pre)), index_app_r by lia. done. }
    rewrite (proj2 (Z.ltb_lt _ _)) by (rewrite zlen_app, zlen_cons; pose proof (zlen_nonneg (e ++ rest)); lia).
    rewrite (sep_at_spec _ _ _ Hi), !bind_ret, Hc. cbn [negb]. rewrite Hi, bind_ret.
    destruct (lazy_append_spec _ _ _ c Hh) as (o1 & -> & H1); [lia|]. rewrite bind_ret.
    replace (pre ++ c :: e ++ rest) with ((pre ++ [c]) ++ e ++ rest) in * by (by rewrite <- app_assoc).
    replace (zlen pre + 1) with (zlen (pre ++ [c])) by (rewrite zlen_app; done).
    cbn [length] in Hf.
    destruct (IH (pre ++ [c]) e o1 (v ++ [c]) H1 He Hr) as (o2 & -> & H2); [|lia|].
    { rewrite (zlen_app v). change (zlen [c]) with 1. lia. }
    exists o2. rewrite zlen_app. change (zlen [c]) with 1. split; [do 2 f_equal; lia|].
    by rewrite <- (app_assoc v [c] e) in H2.
Qed.

Lemma body_prefix rooted (es es' : list gostring) :
  Forall elem (es ++ es') -> zlen (body rooted es) <= zlen (body rooted (es ++ es')).
Proof.
  induction es' as [|e es' IH] using rev_ind; intros H; [rewrite app_nil_r; lia|].
  rewrite app_assoc in *. apply Forall_app in H as [H _]. specialize (IH H).
  rewrite body_snoc by done. rewrite !zlen_app. pose proof (zlen_nonneg e).
  pose proof (zlen_nonneg (if bool_decide (body rooted (es ++ es') = body rooted []) then [] else [SLASH])).
  lia.
Qed.

Lemma elem_pos e : elem e -> 0 < zlen e.
Proof. intros [He _]. destruct e; [done|]. rewrite zlen_cons. pose proof (zlen_nonneg e). lia. Qed.

(** A ".." element, when there is nothing to remove and when there is. *)
Lemma clean_dotdot_climb rooted out p u : let st := MkPath u [] in
  holds out p (out_of rooted st) -> state_ok rooted st ->
  (rooted = false -> zlen (out_of rooted st) + (if bool_decide (out_of rooted st = []) then 2 else 3) <= zlen p) ->
  exists out', let st' := step rooted st [DOT; DOT] in
    Clean_dotdot false rooted (limit rooted st) out = Ret (limit rooted st', out') /\
    holds out' p (out_of rooted st').
Proof.
  intros st Hh Hok Hspace. subst st. destruct Hok as [Hups Hes]. unfold step, is_dotdot. rewrite bool_decide_false by done.
  rewrite bool_decide_true by done. unfold Clean_dotdot, limit. rewrite (holds_w _ _ _ Hh). cbn [ups elems] in *.
  unfold out_of, state_elems in *. cbn [ups elems rev] in *. rewrite app_nil_r in *.
  rewrite (proj2 (Z.ltb_ge _ _)) by lia.
  destruct rooted; cbn [negb ups elems].
  { exists out. split; [done|]. by rewrite app_nil_r. }
  specialize (Hspace eq_refl). set (v := body false (replicate u [DOT; DOT])) in *.
  assert (body false (replicate (S u) [DOT; DOT]) =
          v ++ (if bool_decide (v = []) then [] else [SLASH]) ++ [DOT; DOT]) as Ev.
  { rewrite replicate_S_end. rewrite body_snoc; [|apply Forall_replicate; by split].
    fold v. by rewrite (bool_decide_ext (v = body false []) (v = [])). }
  pose proof (zlen_nonneg v).
  assert (exists o1, (if 0 <? zlen v then lazy_append out (Separator false) else Ret out) = Ret o1 /\
           holds o1 p (v ++ (if bool_decide (v = []) then [] else [SLASH]))) as (o1 & -> & H1).
  { case_bool_decide as Hv.
    - rewrite Hv. exists out. rewrite Hv in Hh. done.
    - assert (0 < zlen v) by (destruct v; [done|rewrite zlen_cons; pose proof (zlen_nonneg v); lia]).
      rewrite (proj2 (Z.ltb_lt 0 _)) by lia. by apply lazy_append_spec; [|lia]. }
  rewrite bind_ret.
  set (v1 := v ++ (if bool_decide (v = []) then [] else [SLASH])) in *.
  assert (zlen v1 + 2 <= zlen p) as Hv1.
  { subst v1. rewrite zlen_app. case_bool_decide; [change (zlen (@nil Z)) with 0|change (zlen [SLASH]) with 1]; lia. }
  destruct (lazy_append_spec o1 p v1 DOT H1) as (o2 & -> & H2); [lia|]. rewrite bind_ret.
  destruct (lazy_append_spec o2 p (v1 ++ [DOT]) DOT H2) as (o3 & -> & H3).
  { rewrite zlen_app. change (zlen [DOT]) with 1. lia. }
  rewrite bind_ret. exists o3. rewrite (holds_w _ _ _ H3), !app_nil_r, Ev.
  rewrite <- app_assoc in H3. cbn [app] in H3. rewrite app_assoc. fold v1.
  split; [|done]. do 2 f_equal. by rewrite <- app_assoc.
Qed.
Lemma clean_dotdot_pop rooted out p u e es : let st := MkPath u (e :: es) in
  holds out p (out_of rooted st) -> state_ok rooted st ->
  exists out', let st' := step rooted st [DOT; DOT] in
    Clean_dotdot false rooted (limit rooted st) out = Ret (limit rooted st', out') /\
    holds out' p (out_of rooted st').
Proof.
  intros st Hh Hok. subst st. pose proof (state_elems_elem rooted _ Hok) as Hel. destruct Hok as [Hups Hes]. unfold step, is_dotdot. rewrite bool_decide_false by done.
  rewrite bool_decide_true by done. unfold Clean_dotdot, limit. rewrite (holds_w _ _ _ Hh). cbn [ups elems] in *.
  set (A := state_elems (MkPath u es)).
  assert (state_elems (MkPath u (e :: es)) = A ++ [e]) as EA by (apply (out_push (MkPath u es))).
  rewrite EA in Hel. apply Forall_app in Hel as [HelA Hele].
  apply Forall_cons in Hele as [He _].
  assert (limit rooted (MkPath u es) <= zlen (body rooted A)) as Hlim.
  { apply body_prefix. exact HelA. }
  unfold limit in Hlim. cbn [ups] in Hlim.
  assert (out_of rooted (MkPath u (e :: es)) = body rooted A ++
    (if bool_decide (body rooted A = body rooted []) then [] else [SLASH]) ++ e) as Ev.
  { unfold out_of. by rewrite EA, body_snoc. }
  set (a := body rooted A) in *. set (mid := if bool_decide (a = body rooted []) then [] else [SLASH]) in *.
  pose proof (elem_pos e He) as Hepos. pose proof (zlen_nonneg mid).
  assert (zlen (out_of rooted (MkPath u (e :: es))) = zlen a + zlen mid + zlen e) as Elen.
  { rewrite Ev, !zlen_app. lia. }
  rewrite (proj2 (Z.ltb_lt _ _)) by lia.
  exists (set_w out (zlen a)). cbn [ups].
  assert (length a <= length (out_of rooted (MkPath u (e :: es))))%nat as Hle.
  { rewrite Ev, length_app. lia. }
  assert (take (length a) (out_of rooted (MkPath u (e :: es))) = a) as Hta by (rewrite Ev; apply take_app_length).
  split; [|by apply (holds_shrink _ _ _ _ Hh)].
  change (MkLazybuf (path out) (buf out) ?k (volAndPath out) (volLen out)) with (set_w out k).
  rewrite (clean_back_spec out p _ a _ _ _ Hh); [done|..].
  + lia.
  + done.
  + intros j c Hj Hc. rewrite Ev in Hc.
    apply index_lookup in Hc as [Hj0 Hc]. destruct He as [_ He].
    rewrite app_assoc in Hc. apply lookup_app_Some in Hc as [Hc|[_ Hc]].
    * apply lookup_lt_Some in Hc. rewrite length_app in Hc. subst mid.
      case_bool_decide; cbn in Hc; unfold zlen in *; lia.
    * eapply nosep_lookup; [exact He|exact Hc].
  + subst mid. destruct (bool_decide (a = body rooted [])) eqn:Eb.
    * left. apply bool_decide_eq_true in Eb. rewrite Eb. subst a. unfold body in Eb.
      apply app_inv_head in Eb. apply join_nil in Eb.
      2:{ eapply Forall_impl; [exact HelA|]. by intros ? [? _]. }
      unfold A, state_elems in Eb. cbn [ups] in Eb. apply app_nil in Eb as [Eb _].
      by rewrite Eb.
    * right. exists SLASH. split; [|done]. rewrite Ev, <- (Z.add_0_r (zlen a)), index_app_r by lia. done.
  + rewrite Elen. pose proof (holds_fits _ _ _ Hh). rewrite Elen in *. rewrite (holds_path _ _ _ Hh).
    pose proof (zlen_nonneg a). unfold zlen in *. lia.
Qed.
Lemma clean_dotdot_spec rooted out p st :
  holds out p (out_of rooted st) -> state_ok rooted st ->
  (elems st = [] -> rooted = false ->
     zlen (out_of rooted st) + (if bool_decide (out_of rooted st = []) then 2 else 3) <= zlen p) ->
  exists out', let st' := step rooted st [DOT; DOT] in
    Clean_dotdot false rooted (limit rooted st) out = Ret (limit rooted st', out') /\
    holds out' p (out_of rooted st').
Proof. destruct st as [u [|e es]]; intros Hh Hok Hspace; [apply clean_dotdot_climb; auto|by apply clean_dotdot_pop]. Qed.

(** The two tests for "." and ".." elements. *)
Lemma clean_tests pre e rest :
  elem e -> at_break sep rest ->
  let p := pre ++ e ++ rest in let r := zlen pre in
  sep_at false p r = Ret false /\
  (byte_is p r DOT &&& ((Ret (r + 1 =? zlen p)) ||| sep_at false p (r + 1)) =
     Ret (bool_decide (e = [DOT]))) /\
  (e <> [DOT] ->
   byte_is p r DOT &&& byte_is p (r + 1) DOT &&& ((Ret (r + 2 =? zlen p)) ||| sep_at false p (r + 2)) =
     Ret (bool_decide (e = [DOT; DOT]))).
Proof.
  intros [Hne He] Hr p r.
  assert (forall k c, (e ++ rest) !! k = Some c -> index p (r + Z.of_nat k) = Ret c) as Hidx.
  { intros k c Hk. subst p r. rewrite index_app_r by lia. by apply index_nat. }
  assert (zlen p = r + zlen e + zlen rest) as Hlen by (subst p r; rewrite !zlen_app; lia).
  destruct e as [|c e]; [done|]. cbn [forallb] in He. apply andb_true_iff in He as [Hc He].
  apply negb_true_iff in Hc. pose proof (Hidx 0%nat c eq_refl) as H0.
  rewrite Z.add_0_r in H0. change (r + Z.of_nat 1) with (r + 1) in *.
  pose proof (zlen_nonneg rest) as Hrest0. rewrite zlen_cons in Hlen.
  assert (forall k, 1 <= k -> zlen e + 1 = k ->
    ((Ret (r + k =? zlen p)) ||| sep_at false p (r + k)) = Ret true) as Hend.
  { intros k Hk Hek. destruct rest as [|d rest].
    - change (zlen (@nil Z)) with 0 in Hlen. by rewrite (proj2 (Z.eqb_eq _ _)) by lia.
    - rewrite zlen_cons in Hlen. pose proof (zlen_nonneg rest).
      rewrite (proj2 (Z.eqb_neq _ _)) by lia. cbn [go_or].
      replace k with (Z.of_nat (length (c :: e))) by (unfold zlen in Hek; cbn; lia).
      rewrite (sep_at_spec _ _ d); [by rewrite Hr|]. apply Hidx. by apply list_lookup_middle. }
  split_and!.
  - by rewrite (sep_at_spec _ _ _ H0), Hc.
  - unfold byte_is. rewrite H0, bind_ret. destruct (Z.eqb_spec c DOT) as [->|Hcd]; cbn [go_and].
    2:{ rewrite bool_decide_false by congruence. done. }
    destruct e as [|d e].
    { rewrite bool_decide_true by done. apply Hend; [lia|done]. }
    rewrite bool_decide_false by done. rewrite zlen_cons in Hlen. pose proof (zlen_nonneg e).
    rewrite (proj2 (Z.eqb_neq _ _)) by lia. cbn [go_or].
    rewrite (sep_at_spec _ _ d) by (by apply (Hidx 1%nat)).
    cbn [forallb] in He. apply andb_true_iff in He as [Hd _]. apply negb_true_iff in Hd. by rewrite Hd.
  - intros Hnd. unfold byte_is. rewrite H0, bind_ret. destruct (Z.eqb_spec c DOT) as [->|Hcd]; cbn [go_and].
    2:{ rewrite bool_decide_false by congruence. done. }
    destruct e as [|d e]; [done|].
    rewrite (Hidx 1%nat d eq_refl : index p (r + 1) = Ret d), bind_ret. destruct (Z.eqb_spec d DOT) as [->|Hdd]; cbn [go_and].
    2:{ rewrite bool_decide_false by congruence. done. }
    rewrite zlen_cons in *. destruct e as [|d' e].
    { rewrite bool_decide_true by done. apply Hend; [lia|done]. }
    rewrite bool_decide_false by done. rewrite zlen_cons in *. pose proof (zlen_nonneg e).
    rewrite (proj2 (Z.eqb_neq _ _)) by lia. cbn [go_or].
    rewrite (sep_at_spec _ _ d') by (by apply (Hidx 2%nat)).
    cbn [forallb] in He. rewrite !andb_true_iff in He. destruct He as [_ [Hd _]].
    apply negb_true_iff in Hd. by rewrite Hd.
Qed.

(** The output so far leaves room for what the rest of the input may add. *)
Definition room (rooted : bool) (v pre s : gostring) : Prop :=
  zlen v <= zlen pre /\ (v <> body rooted [] -> at_break sep s \/ zlen v < zlen pre).

Lemma room_break rooted v pre s : zlen v <= zlen pre -> at_break sep s -> room rooted v pre s.
Proof. split; auto. Qed.

Lemma body_len_nil rooted es :
  Forall elem es -> zlen (body rooted es) = zlen (body rooted []) -> body rooted es = body rooted [].
Proof.
  intros Hes H. unfold body in *. rewrite !zlen_app in H. f_equal.
  cbn [strings_Join] in *. change (zlen (@nil Z)) with 0 in H. apply zlen_0. lia.
Qed.

(** A ".." element does not outgrow the input that was read. *)
Lemma dotdot_fits rooted st pre rest : Forall elem (state_elems st) -> room rooted (out_of rooted st) pre ([DOT; DOT] ++ rest) ->
  zlen (out_of rooted (step rooted st [DOT; DOT])) <= zlen (pre ++ [DOT; DOT]).
Proof.
  intros Hel [Hroom1 Hroom2].
  unfold step, is_dotdot. rewrite bool_decide_false by done.
  rewrite bool_decide_true by done. rewrite zlen_app. change (zlen [DOT; DOT]) with 2.
  destruct (elems st) as [|e0 es] eqn:Ees.
  - destruct rooted; [lia|]. unfold out_of, state_elems. cbn [ups elems rev]. rewrite app_nil_r.
    rewrite replicate_S_end, body_snoc by (apply Forall_replicate; by split).
    unfold out_of, state_elems in Hroom1, Hroom2. rewrite Ees in Hroom1, Hroom2.
    cbn [rev] in Hroom1, Hroom2. rewrite app_nil_r in Hroom1, Hroom2. rewrite !zlen_app.
    change (zlen [DOT; DOT]) with 2. case_bool_decide as Hv; [change (zlen (@nil Z)) with 0; lia|].
    change (zlen [SLASH]) with 1. destruct Hroom2 as [Hb|Hlt]; [done|done|lia].
  - unfold out_of in *.
    assert (state_elems st = state_elems (MkPath (ups st) es) ++ [e0]) as E0.
    { rewrite <- (out_push (MkPath (ups st) es)). cbn [ups elems]. rewrite <- Ees. by destruct st. }
    rewrite E0 in Hel, Hroom1. pose proof (body_prefix rooted _ _ Hel). lia.
Qed.
(** Any other element is copied, after a separator if it is not the first. *)
Lemma clean_push_spec rooted pre e rest out st : holds out (pre ++ e ++ rest) (out_of rooted st) -> elem e -> at_break sep rest -> e <> [DOT] -> e <> [DOT; DOT] ->
  Forall elem (state_elems st) -> room rooted (out_of rooted st) pre (e ++ rest) ->
  exists o1 o2, (if (rooted && negb (w out =? 1)) || (negb rooted && negb (w out =? 0)) then lazy_append out (Separator false) else Ret out) = Ret o1 /\
    Clean_copy false (S (length (pre ++ e ++ rest))) (pre ++ e ++ rest) (zlen pre) o1 = Ret (zlen (pre ++ e), o2) /\
    holds o2 (pre ++ e ++ rest) (out_of rooted (step rooted st e)) /\ zlen (out_of rooted (step rooted st e)) <= zlen (pre ++ e) /\
    limit rooted (step rooted st e) = limit rooted st.
Proof.
  intros Hh He Hr Hdot Hdd Hel [Hroom1 Hroom2]. pose proof (elem_pos e He) as Hepos. pose proof (zlen_nonneg rest).
  assert (zlen (pre ++ e ++ rest) = zlen pre + zlen e + zlen rest) as Hplen by (rewrite !zlen_app; lia).
  assert (step rooted st e = MkPath (ups st) (e :: elems st)) as Hstep.
  { unfold step, is_dotdot. by rewrite !bool_decide_false by done. }
  set (v := out_of rooted st) in *.
  assert (((rooted && negb (w out =? 1)) || (negb rooted && negb (w out =? 0))) =
          negb (bool_decide (v = body rooted []))) as ->.
  { rewrite (holds_w _ _ _ Hh).
    assert (zlen (body rooted []) = if rooted then 1 else 0) as Hb0 by (by destruct rooted).
    case_bool_decide as Hv; cbn [negb].
    - rewrite Hv, Hb0. by destruct rooted.
    - assert (zlen v <> (if rooted then 1 else 0)).
      { rewrite <- Hb0. intros Hl. apply Hv. by apply body_len_nil. }
      destruct rooted; cbn [andb orb negb]; apply negb_true_iff || idtac; lia. }
  set (mid := if bool_decide (v = body rooted []) then [] else [SLASH]).
  assert (exists o1, (if negb (bool_decide (v = body rooted [])) then lazy_append out (Separator false)
                      else Ret out) = Ret o1 /\ holds o1 (pre ++ e ++ rest) (v ++ mid)) as (o1 & Ho1 & H1).
  { subst mid. destruct (bool_decide (v = body rooted [])) eqn:Eb; cbn [negb].
    - rewrite app_nil_r. by exists out.
    - apply lazy_append_spec; [done|]. lia. }
  assert (zlen (v ++ mid) <= zlen pre) as Hmid.
  { subst mid. rewrite zlen_app. case_bool_decide as Hv; [change (zlen (@nil Z)) with 0; lia|].
    change (zlen [SLASH]) with 1. destruct (Hroom2 Hv) as [Hb|Hlt]; [|lia].
    exfalso. destruct e as [|c e]; [done|]. change (sep c = true) in Hb. destruct He as [_ He]. cbn [forallb] in He. rewrite Hb in He. done. }
  destruct (clean_copy_spec (S (length (pre ++ e ++ rest))) pre e rest o1 (v ++ mid) H1) as (o2 & Ho2 & H2);
    [by destruct He|done|lia|rewrite !length_app; lia|].
  exists o1, o2. split; [exact Ho1|]. rewrite (zlen_app pre e). split; [exact Ho2|].
  assert (out_of rooted (step rooted st e) = (v ++ mid) ++ e) as Hout.
  { rewrite Hstep. unfold out_of. rewrite out_push, body_snoc by done. by rewrite <- app_assoc. }
  split; [by rewrite Hout|]. split; [rewrite Hout, zlen_app; lia|]. by rewrite Hstep.
Qed.
Lemma clean_loop_spec fuel rooted pre s st out :
  holds out (pre ++ s) (out_of rooted st) -> state_ok rooted st ->
  room rooted (out_of rooted st) pre s -> (length s < fuel)%nat ->
  exists out', Clean_loop false fuel (pre ++ s) rooted (zlen pre) (limit rooted st) out = Ret out' /\
    holds out' (pre ++ s) (out_of rooted (fold_left (step rooted) (parts s) st)).
Proof.
  revert pre s st out. induction fuel as [|fuel IH]; intros pre s st out Hh Hok Hroom Hf; [lia|].
  cbn [Clean_loop]. destruct s as [|c s].
  { rewrite app_nil_r in *. rewrite (proj2 (Z.ltb_ge _ _)) by lia. by exists out. }
  rewrite (proj2 (Z.ltb_lt _ _)) by zlia. cbn [length] in Hf.
  destruct Hroom as [Hroom1 Hroom2].
  assert (Forall elem (state_elems st)) as Hel by (by apply (state_elems_elem rooted)).
  destruct (sep c) eqn:Hc.
  { assert (index (pre ++ c :: s) (zlen pre) = Ret c) as Hi.
    { rewrite <- (Z.add_0_r (zlen pre)), index_app_r by lia. done. }
    rewrite (sep_at_spec _ _ _ Hi), bind_ret, Hc. unfold parts. rewrite split_parts_sep by done.
    replace (pre ++ c :: s) with ((pre ++ [c]) ++ s) in * by (by rewrite <- app_assoc).
    replace (zlen pre + 1) with (zlen (pre ++ [c])) by (by rewrite zlen_app).
    apply IH; [done|done| |lia]. split; rewrite zlen_app; change (zlen [c]) with 1; [lia|].
    intros _. right. lia. }
  destruct (first_elem sep c s Hc) as (e & rest & E & He & Hr). rewrite E in *.
  destruct (clean_tests pre e rest He Hr) as (T1 & T2 & T3).
  rewrite T1, bind_ret, T2, bind_ret.
  unfold parts. rewrite split_parts_elem by done. fold (parts rest). cbn [fold_left].
  pose proof (elem_pos e He) as Hepos.
  assert (length rest < fuel)%nat as Hf'.
  { apply (f_equal length) in E. cbn in E. rewrite length_app in E. unfold zlen in Hepos. lia. }
  assert (zlen (pre ++ e ++ rest) = zlen pre + zlen e + zlen rest) as Hplen by (rewrite !zlen_app; lia).
  pose proof (zlen_nonneg rest).
  assert (forall st', zlen (out_of rooted st') <= zlen (pre ++ e) -> state_ok rooted st' -> forall out',
    holds out' (pre ++ e ++ rest) (out_of rooted st') ->
    exists out'', Clean_loop false fuel (pre ++ e ++ rest) rooted (zlen (pre ++ e)) (limit rooted st') out'
      = Ret out'' /\ holds out'' (pre ++ e ++ rest) (out_of rooted (fold_left (step rooted) (parts rest) st')))
    as Hcont.
  { intros st' Hle Hok' out' Hh'. rewrite app_assoc in *. apply IH; [done|done| |done].
    by apply room_break. }
  destruct (decide (e = [DOT])) as [Hdot|Hdot].
  { rewrite (bool_decide_true (e = [DOT])) by done.
    assert (step rooted st e = st) as -> by (unfold step; by rewrite (bool_decide_true (e = [DOT])) by done).
    replace (zlen pre + 1) with (zlen (pre ++ e)) by (rewrite zlen_app, Hdot; done).
    apply Hcont; [rewrite zlen_app; lia|done..]. }
  rewrite (bool_decide_false (e = [DOT])) by done. rewrite T3 by done. rewrite bind_ret.
  destruct (decide (e = [DOT; DOT])) as [Hdd|Hdd]; [rewrite (bool_decide_true (e = [DOT; DOT])) by done|].
  { clear T1 T2 T3. subst e. change (zlen [DOT; DOT]) with 2 in *.
    assert (elems st = [] -> rooted = false ->
      zlen (out_of rooted st) + (if bool_decide (out_of rooted st = []) then 2 else 3) <=
      zlen (pre ++ [DOT; DOT] ++ rest)) as Hspace.
    { intros _ Hrt. subst rooted. rewrite Hplen. case_bool_decide as Hv; [lia|].
      destruct Hroom2 as [Hb|Hlt]; [done|done|lia]. }
    destruct (clean_dotdot_spec rooted out _ st Hh Hok Hspace) as (o1 & Ho1 & Hh1). cbv zeta in Ho1.
    rewrite Ho1, bind_ret. replace (zlen pre + 2) with (zlen (pre ++ [DOT; DOT])) by (by rewrite zlen_app).
    apply Hcont; [|by apply step_ok|done].
    by apply (dotdot_fits _ _ _ rest). }
  rewrite (bool_decide_false (e = [DOT; DOT])) by done. clear T1 T2 T3.
  destruct (clean_push_spec rooted pre e rest out st Hh He Hr Hdot Hdd Hel ltac:(by split)) as (o1 & o2 & Ho1 & Ho2 & Hh2 & Hle2 & <-).
  rewrite Ho1, bind_ret, Ho2, bind_ret. apply Hcont; [done|by apply step_ok|done].
Qed.

(** One run of the loop over a whole path. *)
Lemma clean_run_spec c s :
  let p := c :: s in let rooted := sep c in let out0 := MkLazybuf p None 0 p 0 in
  exists o1 o2, (if rooted then lazy_append out0 (Separator false) else Ret out0) = Ret o1 /\
    Clean_loop false (S (length p)) p rooted (if rooted then 1 else 0) (if rooted then 1 else 0) o1 = Ret o2 /\
    holds o2 p (out_of rooted (fold_left (step rooted) (parts p) (MkPath 0 []))).
Proof.
  intros p rooted out0. assert (holds out0 p []) as H0.
  { split; done. }
  assert (0 < zlen p) as Hpos by (subst p; rewrite zlen_cons; pose proof (zlen_nonneg s); lia).
  assert (exists o1, (if rooted then lazy_append out0 (Separator false) else Ret out0) = Ret o1 /\
           holds o1 p (out_of rooted (MkPath 0 []))) as (o1 & E1 & H1).
  { destruct rooted; [|by exists out0]. by apply (lazy_append_spec out0 p [] SLASH). }
  exists o1. rewrite E1. destruct rooted eqn:Er.
  - assert (parts p = parts s) as -> by (subst p; unfold parts; by rewrite split_parts_sep).
    destruct (clean_loop_spec (S (length p)) true [c] s (MkPath 0 []) o1 H1) as (o2 & H2 & H3);
      [done|by split|subst p; cbn; lia|]. exists o2. split_and!; [done|exact H2|exact H3].
  - destruct (clean_loop_spec (S (length p)) false [] p (MkPath 0 []) o1 H1) as (o2 & H2 & H3);
      [done|by split|lia|]. exists o2. split_and!; [done|exact H2|exact H3].
Qed.

(** Reading the buffer back. *)
Lemma lazy_string_spec o p v : holds o p v -> lazy_string o = Ret v.
Proof.
  intros [Hp Hw Hfit [Hv1 Hv2] Hb]. unfold lazy_string. rewrite Hv1, Hv2, Hw.
  pose proof (zlen_nonneg v). destruct (buf o) as [bs|].
  - destruct Hb as [Hl Ht]. rewrite (slice_to_in_range p 0) by lia. rewrite bind_ret.
    rewrite slice_to_in_range by (unfold zlen in *; lia). rewrite bind_ret.
    replace (Z.to_nat (zlen v)) with (length v) by (unfold zlen; lia). by rewrite Ht.
  - rewrite slice_to_in_range by lia. f_equal.
    replace (Z.to_nat (0 + zlen v)) with (length v) by (unfold zlen; lia). done.
Qed.

(** Turning the empty output into ".". *)
Lemma clean_dot_spec o p v :
  holds o p v -> 0 < zlen p ->
  exists o', (if w o =? 0 then lazy_append o DOT else Ret o) = Ret o' /\
             holds o' p (match v with [] => [DOT] | _ => v end).
Proof.
  intros Hh Hp. rewrite (holds_w _ _ _ Hh). destruct v as [|b v].
  - change (zlen (@nil Z) =? 0) with true. by apply (lazy_append_spec o p [] DOT).
  - rewrite zlen_cons. pose proof (zlen_nonneg v). rewrite (proj2 (Z.eqb_neq _ _)) by lia. by exists o.
Qed.

(** [filepath.Clean] on Unix is the reference, for every path. *)
Lemma clean_unix_spec s : Clean false s = Ret (clean_spec s).
Proof.
  unfold Clean, volumeNameLen, volumeNameLen_unix. cbn match. rewrite bind_ret.
  rewrite slice_from_in_range by (pose proof (zlen_nonneg s); lia). rewrite bind_ret.
  change (drop (Z.to_nat 0) s) with s. destruct s as [|c s]; [done|].
  rewrite bool_decide_false by done.
  rewrite (sep_at_spec _ _ c) by done. rewrite bind_ret. unfold clean_spec, is_rooted.
  destruct (clean_run_spec c s) as (o1 & o2 & -> & H1 & H2). rewrite !bind_ret, H1, bind_ret.
  destruct (clean_dot_spec _ _ _ H2) as (o3 & -> & H3).
  { rewrite zlen_cons. pose proof (zlen_nonneg s). lia. }
  rewrite bind_ret. unfold postClean. cbn [negb]. rewrite bind_ret, (lazy_string_spec _ _ _ H3), bind_ret.
  f_equal. unfold FromSlash, render, normalize.
  fold (out_of (sep c) (fold_left (step (sep c)) (parts (c :: s)) (MkPath 0 []))).
  by destruct (out_of _ _).
Qed.

(** ** Idempotence *)
Lemma parts_join es : Forall elem es -> parts (join es) = es.
Proof.
  induction 1 as [|e es He Hes IH]; [done|]. destruct es as [|e' es].
  - cbn. unfold parts. rewrite <- (app_nil_r e). by rewrite split_parts_elem, app_nil_r.
  - change (join (e :: e' :: es)) with (e ++ [SLASH] ++ join (e' :: es)). unfold parts in *.
    rewrite split_parts_elem by done. cbn [app]. by rewrite split_parts_sep, IH.
Qed.

Lemma parts_body rooted es : Forall elem es -> parts (body rooted es) = es.
Proof.
  intros Hes. unfold body. destruct rooted; cbn [app].
  - unfold parts. rewrite split_parts_sep by done. by apply parts_join.
  - by apply parts_join.
Qed.

Lemma fold_step_dotdots u k :
  fold_left (step false) (replicate u [DOT; DOT]) (MkPath k []) = MkPath (u + k) [].
Proof.
  revert k. induction u as [|u IH]; intros k; [done|].
  change (fold_left (step false) (replicate u [DOT; DOT]) (MkPath (S k) []) = MkPath (S (u + k)) []).
  rewrite IH. f_equal. lia.
Qed.

Lemma fold_step_elems rooted (es acc : list gostring) u :
  Forall (fun e => elem e /\ e <> [DOT; DOT] /\ e <> [DOT]) es ->
  fold_left (step rooted) es (MkPath u acc) = MkPath u (rev es ++ acc).
Proof.
  intros H. revert acc. induction H as [|e es (_ & He1 & He2) _ IH]; intros acc; [done|].
  cbn [fold_left rev]. unfold step at 2, is_dotdot. rewrite !bool_decide_false by done.
  cbn [ups elems]. rewrite IH. by rewrite <- app_assoc.
Qed.

Lemma fold_step_state rooted st :
  state_ok rooted st -> fold_left (step rooted) (state_elems st) (MkPath 0 []) = st.
Proof.
  destruct st as [u es]. intros [Hu Hes]. unfold state_elems. cbn [ups elems] in *.
  rewrite fold_left_app.
  assert (fold_left (step rooted) (replicate u [DOT; DOT]) (MkPath 0 []) = MkPath u []) as ->.
  { destruct rooted; [by rewrite (Hu eq_refl)|]. rewrite fold_step_dotdots. f_equal. lia. }
  rewrite fold_step_elems by (by apply Forall_rev). by rewrite rev_involutive, app_nil_r.
Qed.

Lemma parts_elems s : Forall elem (parts s).
Proof. by apply split_parts_elems. Qed.

Lemma normalize_state_ok rooted s : state_ok rooted (fold_left (step rooted) (parts s) (MkPath 0 [])).
Proof. apply fold_step_ok; [|apply parts_elems]. split; [done|constructor]. Qed.

Lemma normalize_elems rooted s : Forall elem (normalize rooted (parts s)).
Proof. eapply state_elems_elem, normalize_state_ok. Qed.

Lemma elem_head e : elem e -> exists c e', e = c :: e' /\ sep c = false.
Proof.
  intros [Hne He]. destruct e as [|c e]; [done|]. exists c, e. split; [done|].
  cbn [forallb] in He. apply andb_true_iff in He as [Hc _]. by apply negb_true_iff in Hc.
Qed.

Lemma render_cases rooted es :
  Forall elem es ->
  (render rooted es = [DOT] /\ rooted = false /\ es = []) \/
  (render rooted es = body rooted es /\ (rooted = true \/ es <> [])).
Proof.
  intros Hes. unfold render. destruct rooted; [right; split; [done|by left]|].
  destruct es as [|e es]; [by left|]. right. split; [|by right].
  inversion Hes as [|? ? He _]; subst. destruct (elem_head e He) as (c & e' & -> & _).
  unfold body. by destruct es.
Qed.

Lemma is_rooted_body rooted es :
  Forall elem es -> rooted = true \/ es <> [] -> is_rooted (body rooted es) = rooted.
Proof.
  intros Hes Hor. destruct rooted; [done|]. destruct Hor as [?|Hne]; [done|].
  destruct es as [|e es]; [done|]. inversion Hes as [|? ? He _]; subst.
  destruct (elem_head e He) as (c & e' & -> & Hc). unfold body. by destruct es.
Qed.

(** The elements of a cleaned path are its normalized elements. *)
Lemma clean_spec_parts s :
  clean_spec s = render (is_rooted s) (normalize (is_rooted s) (parts s)) /\
  is_rooted (clean_spec s) = is_rooted s /\
  normalize (is_rooted s) (parts (clean_spec s)) = normalize (is_rooted s) (parts s).
Proof.
  split; [done|]. pose proof (normalize_elems (is_rooted s) s) as Hel.
  pose proof (normalize_state_ok (is_rooted s) s) as Hok. unfold clean_spec.
  destruct (render_cases (is_rooted s) _ Hel) as [(-> & Hr & Hnil)|(-> & Hne)].
  - rewrite Hr in *. split; [done|]. by rewrite Hnil.
  - split; [by apply is_rooted_body|]. rewrite parts_body by done.
    unfold normalize at 1. unfold normalize at 1. by rewrite fold_step_state.
Qed.

Lemma clean_spec_idempotent s : clean_spec (clean_spec s) = clean_spec s.
Proof.
  destruct (clean_spec_parts s) as (_ & Hr & Hn). unfold clean_spec at 1. by rewrite Hr, Hn.
Qed.
