(* ===== verification/Lexical.v ===== *)
(** * Lexical normalization ([core/pathx/lexical.go])

    [LexicallyNormalize] is a variant of [filepath.Clean] that keeps a trailing
    separator.  As in GoFilepath, [windows] selects the platform and each loop
    has one round of fuel per byte. *)
From S2P Require Import Prelude GoFilepath CleanSpec.

Section lexical.
Context (windows : bool).

Definition IsPathSeparator (c : Z) : bool :=
  if windows then (c =? BACKSLASH) || (c =? SLASH) else c =? Separator windows.

Record lexicalBuffer := MkLexicalBuffer {
  pathWithoutVolume : gostring; buffer : option gostring; writePos : Z;
  originalPath : gostring; volumeLen : Z }.

Definition sepAt (path : gostring) (i : Z) : go bool := c ← index path i; Ret (IsPathSeparator c).

Definition byteAt (b : lexicalBuffer) (i : Z) : go Z :=
  match buffer b with Some bs => index bs i | None => index (pathWithoutVolume b) i end.

Definition appendByte (b : lexicalBuffer) (c : Z) : go lexicalBuffer :=
  let write (bs : gostring) :=
    bs ← store bs (writePos b) c;
    Ret (MkLexicalBuffer (pathWithoutVolume b) (Some bs) (writePos b + 1) (originalPath b) (volumeLen b)) in
  match buffer b with
  | Some bs => write bs
  | None =>
      same ← (if writePos b <? zlen (pathWithoutVolume b)
              then byte_is (pathWithoutVolume b) (writePos b) c else Ret false);
      if (same : bool) then
        Ret (MkLexicalBuffer (pathWithoutVolume b) None (writePos b + 1) (originalPath b) (volumeLen b))
      else
        prefix ← slice_to (pathWithoutVolume b) (writePos b);
        write (copy_slice (replicate (length (pathWithoutVolume b)) 0) prefix)
  end.

(** A new buffer of exactly [len(prefix) + writePos] bytes. *)
Definition prependBytes (b : lexicalBuffer) (prefix : gostring) : go lexicalBuffer :=
  old ← slice_to (default [] (buffer b)) (writePos b);
  Ret (MkLexicalBuffer (pathWithoutVolume b) (Some (prefix ++ old)) (writePos b + zlen prefix)
         (originalPath b) (volumeLen b)).

Definition with_pos (b : lexicalBuffer) (p : Z) : lexicalBuffer :=
  MkLexicalBuffer (pathWithoutVolume b) (buffer b) p (originalPath b) (volumeLen b).

Fixpoint removeLast_loop (fuel : nat) (b : lexicalBuffer) (stopPos : Z) : go lexicalBuffer :=
  match fuel with
  | O => OutOfFuel
  | S fuel =>
      more ← (if stopPos <? writePos b then c ← byteAt b (writePos b); Ret (negb (IsPathSeparator c))
              else Ret false);
      if (more : bool) then removeLast_loop fuel (with_pos b (writePos b - 1)) stopPos else Ret b
  end.
Definition removeLastPathElement (b : lexicalBuffer) (stopPos : Z) : go lexicalBuffer :=
  removeLast_loop (S (length (pathWithoutVolume b))) (with_pos b (writePos b - 1)) stopPos.

Definition buffer_string (b : lexicalBuffer) : go gostring :=
  match buffer b with
  | None => slice_to (originalPath b) (volumeLen b + writePos b)
  | Some bs => v ← slice_to (originalPath b) (volumeLen b); s ← slice_to bs (writePos b); Ret (v ++ s)
  end.

Definition shouldPreserveTrailingSeparator (output : lexicalBuffer) (rooted : bool) : go bool :=
  if writePos output =? 0 then Ret false
  else if rooted && (writePos output =? 1) then Ret false
  else
    dot ← (if writePos output =? 1 then c ← byteAt output 0; Ret (c =? DOT) else Ret false);
    if (dot : bool) then Ret false
    else
      dots ← (if writePos output =? 2 then
                (c ← byteAt output 0; Ret (c =? DOT)) &&& (c ← byteAt output 1; Ret (c =? DOT))
              else Ret false);
      if (dots : bool) then Ret false
      else c ← byteAt output (writePos output - 1); Ret (negb (IsPathSeparator c)).

Fixpoint first_colon (bs : gostring) : bool :=
  match bs with
  | [] => false
  | c :: bs' => if IsPathSeparator c then false else if c =? COLON then true else first_colon bs'
  end.
Definition postLexicallyNormalize (output : lexicalBuffer) : go lexicalBuffer :=
  match buffer output with
  | None => Ret output
  | Some bs =>
      if negb windows || negb (volumeLen output =? 0) then Ret output
      else
        written ← slice_to bs (writePos output);
        if first_colon written then prependBytes output [DOT; Separator windows]
        else
          special ← (if 3 <=? writePos output then
                       sepAt bs 0 &&& byte_is bs 1 QUESTION &&& byte_is bs 2 QUESTION
                     else Ret false);
          if (special : bool) then prependBytes output [Separator windows; DOT] else Ret output
  end.

Definition hasTrailingPathSeparator (path : gostring) : go bool :=
  if bool_decide (path = []) then Ret false else sepAt path (zlen path - 1).

(** The inner loop that copies a real path element. *)
Fixpoint copyElement (fuel : nat) (path : gostring) (readPos : Z) (output : lexicalBuffer)
    : go (Z * lexicalBuffer) :=
  match fuel with
  | O => OutOfFuel
  | S fuel =>
      more ← (if readPos <? zlen path then b ← sepAt path readPos; Ret (negb b) else Ret false);
      if (more : bool) then
        c ← index path readPos; output ← appendByte output c; copyElement fuel path (readPos + 1) output
      else Ret (readPos, output)
  end.

(** The inner switch on a ".." element. *)
Definition dotDotElement (rooted : bool) (dotDotLimit : Z) (output : lexicalBuffer)
    : go (Z * lexicalBuffer) :=
  if dotDotLimit <? writePos output then
    output ← removeLastPathElement output dotDotLimit; Ret (dotDotLimit, output)
  else if negb rooted then
    output ← (if 0 <? writePos output then appendByte output (Separator windows) else Ret output);
    output ← appendByte output DOT;
    output ← appendByte output DOT;
    Ret (writePos output, output)
  else Ret (dotDotLimit, output).

Fixpoint LexicallyNormalize_loop (fuel : nat) (path : gostring) (rooted : bool)
    (readPos dotDotLimit : Z) (output : lexicalBuffer) : go lexicalBuffer :=
  match fuel with
  | O => OutOfFuel
  | S fuel =>
      if readPos <? zlen path then
        empty ← sepAt path readPos;
        if (empty : bool) then LexicallyNormalize_loop fuel path rooted (readPos + 1) dotDotLimit output
        else
        dot ← byte_is path readPos DOT &&& ((Ret (readPos + 1 =? zlen path)) ||| sepAt path (readPos + 1));
        if (dot : bool) then LexicallyNormalize_loop fuel path rooted (readPos + 1) dotDotLimit output
        else
        dots ← byte_is path readPos DOT &&& byte_is path (readPos + 1) DOT
               &&& ((Ret (readPos + 2 =? zlen path)) ||| sepAt path (readPos + 2));
        if (dots : bool) then
          '(dotDotLimit, output) ← dotDotElement rooted dotDotLimit output;
          LexicallyNormalize_loop fuel path rooted (readPos + 2) dotDotLimit output
        else
          output ← (if (rooted && negb (writePos output =? 1)) || (negb rooted && negb (writePos output =? 0))
                    then appendByte output (Separator windows) else Ret output);
          '(readPos, output) ← copyElement (S (length path)) path readPos output;
          LexicallyNormalize_loop fuel path rooted readPos dotDotLimit output
      else Ret output
  end.

Definition LexicallyNormalize (originalPath : gostring) : go gostring :=
  vol ← VolumeName windows originalPath;
  let volumeLen := zlen vol in
  path ← slice_from originalPath volumeLen;
  if bool_decide (path = []) then
    unc ← (Ret (1 <? volumeLen)) &&& sepAt originalPath 0 &&& sepAt originalPath 1;
    if (unc : bool) then Ret (FromSlash windows originalPath) else Ret (originalPath ++ [DOT])
  else
    rooted ← sepAt path 0;
    let output := MkLexicalBuffer path None 0 originalPath volumeLen in
    output ← (if (rooted : bool) then appendByte output (Separator windows) else Ret output);
    let readPos := if (rooted : bool) then 1 else 0 in
    output ← LexicallyNormalize_loop (S (length path)) path rooted readPos readPos output;
    output ← (if writePos output =? 0 then appendByte output DOT else Ret output);
    output ← postLexicallyNormalize output;
    trailing ← hasTrailingPathSeparator path &&& shouldPreserveTrailingSeparator output rooted;
    output ← (if (trailing : bool) then appendByte output (Separator windows) else Ret output);
    s ← buffer_string output;
    Ret (FromSlash windows s).
End lexical.

(** ** The loop is the loop of [filepath.Clean] *)
Definition to_lazy (b : lexicalBuffer) : lazybuf :=
  MkLazybuf (pathWithoutVolume b) (buffer b) (writePos b) (originalPath b) (volumeLen b).
Definition of_lazy (b : lazybuf) : lexicalBuffer :=
  MkLexicalBuffer (path b) (buf b) (w b) (volAndPath b) (volLen b).

Lemma of_to_lazy b : of_lazy (to_lazy b) = b.
Proof. by destruct b. Qed.

Lemma lex_sep win c : IsPathSeparator win c = GoFilepath.IsPathSeparator win c.
Proof. unfold IsPathSeparator, GoFilepath.IsPathSeparator. destruct win; [done|]. apply Z.eqb_sym. Qed.

Lemma lex_sepAt win p i : sepAt win p i = sep_at win p i.
Proof. unfold sepAt, sep_at. destruct (index p i); [|done..]. cbn. by rewrite lex_sep. Qed.

Lemma lex_append b c : appendByte b c = of_lazy <$> lazy_append (to_lazy b) c.
Proof.
  unfold appendByte, lazy_append. cbn [buf to_lazy path w volAndPath volLen].
  destruct (buffer b) as [bs|]; [by destruct (store bs _ c)|].
  destruct (if _ <? _ then _ else _) as [[]| |]; [done| |done..].
  rewrite !bind_ret. destruct (slice_to _ _); [|done..]. rewrite !bind_ret. by destruct (store _ _ c).
Qed.

Definition maybe_append (c : bool) (o : lazybuf) (x : Z) : go lazybuf :=
  if c then lazy_append o x else Ret o.
Lemma lex_maybe_append (c : bool) b x :
  (if c then appendByte b x else Ret b) = of_lazy <$> maybe_append c (to_lazy b) x.
Proof. destruct c; [apply lex_append|]. cbn. by rewrite of_to_lazy. Qed.
Lemma maybe_append_fold (c : bool) o x : (if c then lazy_append o x else Ret o) = maybe_append c o x.
Proof. done. Qed.

Lemma lex_remove_loop win fuel b stop :
  removeLast_loop win fuel b stop = of_lazy <$> Clean_back win fuel stop (to_lazy b).
Proof.
  revert b. induction fuel as [|fuel IH]; intros b; [done|]. cbn [removeLast_loop Clean_back].
  change (w (to_lazy b)) with (writePos b).
  change (lazy_index (to_lazy b) (writePos b)) with (byteAt b (writePos b)).
  destruct (stop <? writePos b); [|rewrite bind_ret; cbn; by rewrite of_to_lazy].
  destruct (byteAt b (writePos b)) as [c| |]; [|done..]. rewrite !bind_ret, lex_sep.
  destruct (negb _); [apply IH|]. cbn. by rewrite of_to_lazy.
Qed.

Lemma lex_copy win fuel p r b :
  copyElement win fuel p r b = (fun ro => (ro.1, of_lazy ro.2)) <$> Clean_copy win fuel p r (to_lazy b).
Proof.
  revert r b. induction fuel as [|fuel IH]; intros r b; [done|]. cbn [copyElement Clean_copy].
  rewrite lex_sepAt. destruct (r <? zlen p); [|cbn; by rewrite of_to_lazy].
  destruct (sep_at win p r) as [s| |]; [|done..]. rewrite !bind_ret.
  destruct s; cbn [negb]; [cbn; by rewrite of_to_lazy|].
  destruct (index p r) as [c| |]; [|done..]. rewrite !bind_ret, lex_append.
  destruct (lazy_append (to_lazy b) c) as [o| |]; [|done..]. cbn [fmap go_fmap]. rewrite !bind_ret.
  rewrite IH. by destruct o.
Qed.

Lemma lex_dotdot win rooted dd b :
  dotDotElement win rooted dd b = (fun ro => (ro.1, of_lazy ro.2)) <$> Clean_dotdot win rooted dd (to_lazy b).
Proof.
  unfold dotDotElement, Clean_dotdot. change (w (to_lazy b)) with (writePos b).
  destruct (dd <? writePos b).
  - unfold removeLastPathElement. rewrite lex_remove_loop.
    change (to_lazy (with_pos b (writePos b - 1))) with
      (MkLazybuf (path (to_lazy b)) (buf (to_lazy b)) (writePos b - 1) (volAndPath (to_lazy b)) (volLen (to_lazy b))).
    change (length (pathWithoutVolume b)) with (length (path (to_lazy b))).
    by destruct (Clean_back _ _ _ _).
  - destruct rooted; cbn [negb]; [cbn; by rewrite of_to_lazy|].
    rewrite lex_maybe_append, maybe_append_fold. destruct (maybe_append _ _ _) as [o1| |]; [|done..].
    cbn [fmap go_fmap]. rewrite !bind_ret, lex_append. replace (to_lazy (of_lazy o1)) with o1 by by destruct o1.
    destruct (lazy_append o1 DOT) as [o2| |]; [|done..]. cbn [fmap go_fmap]. rewrite !bind_ret, lex_append.
    replace (to_lazy (of_lazy o2)) with o2 by by destruct o2.
    by destruct (lazy_append o2 DOT) as [o3| |].
Qed.

Lemma lex_loop win fuel p rooted r dd b :
  LexicallyNormalize_loop win fuel p rooted r dd b = of_lazy <$> Clean_loop win fuel p rooted r dd (to_lazy b).
Proof.
  revert r dd b. induction fuel as [|fuel IH]; intros r dd b; [done|].
  cbn [LexicallyNormalize_loop Clean_loop]. rewrite !lex_sepAt.
  destruct (r <? zlen p); [|cbn; by rewrite of_to_lazy].
  destruct (sep_at win p r) as [[]| |]; [|rewrite !bind_ret|done..].
  { rewrite !bind_ret. apply IH. }
  destruct (byte_is p r DOT &&& ((Ret (r + 1 =? zlen p)) ||| sep_at win p (r + 1))) as [[]| |]; [| |done..].
  { rewrite !bind_ret. apply IH. }
  rewrite !bind_ret.
  destruct (byte_is p r DOT &&& byte_is p (r + 1) DOT &&& ((Ret (r + 2 =? zlen p)) ||| sep_at win p (r + 2)))
    as [[]| |]; [| |done..]; rewrite !bind_ret.
  - rewrite lex_dotdot. destruct (Clean_dotdot _ _ _ _) as [[dd' o]| |]; [|done..].
    cbn [fmap go_fmap fst snd]. rewrite !bind_ret, IH. by destruct o.
  - change (w (to_lazy b)) with (writePos b).
    rewrite lex_maybe_append, maybe_append_fold. destruct (maybe_append _ _ _) as [o1| |]; [|done..].
    cbn [fmap go_fmap]. rewrite !bind_ret, lex_copy. replace (to_lazy (of_lazy o1)) with o1 by by destruct o1.
    destruct (Clean_copy _ _ _ _ _) as [[r' o2]| |]; [|done..]. cbn [fmap go_fmap fst snd].
    rewrite !bind_ret, IH. by destruct o2.
Qed.

(** ** Unix: the normal form with its trailing separator *)

(** The paths that never keep a trailing separator. *)
Definition special (c : gostring) : bool :=
  bool_decide (c = [DOT]) || bool_decide (c = [DOT; DOT]) || bool_decide (c = [SLASH]).
Definition trailing (s : gostring) : bool := match last s with Some c => sep c | None => false end.
Definition keep_trailing (s c : gostring) : gostring :=
  if trailing s && negb (special c) then c ++ [SLASH] else c.
Definition lexical_spec (s : gostring) : gostring := keep_trailing s (clean_spec s).

Lemma split_parts_snoc cur s c :
  sep c = true -> split_parts sep cur (s ++ [c]) = split_parts sep cur s.
Proof.
  intros Hc. revert cur. induction s as [|d s IH]; intros cur; cbn [app split_parts].
  - rewrite Hc. by destruct cur.
  - destruct (sep d); [|apply IH]. rewrite IH. by destruct cur.
Qed.

Lemma clean_spec_snoc s c : s <> [] -> sep c = true -> clean_spec (s ++ [c]) = clean_spec s.
Proof.
  intros Hs Hc. unfold clean_spec. replace (is_rooted (s ++ [c])) with (is_rooted s) by by destruct s.
  unfold parts. by rewrite split_parts_snoc.
Qed.

(** The output is no longer than the path, and shorter when the path has a trailing separator. *)
Lemma out_fits c s :
  zlen (out_of (sep c) (fold_left (step (sep c)) (parts (c :: s)) (MkPath 0 []))) <= zlen (c :: s).
Proof. destruct (clean_run_spec c s) as (o1 & o2 & _ & _ & H). exact (holds_fits _ _ _ H). Qed.

Lemma clean_out_cases c s :
  let v := out_of (sep c) (fold_left (step (sep c)) (parts (c :: s)) (MkPath 0 [])) in
  match v with [] => [DOT] | _ => v end = clean_spec (c :: s).
Proof.
  cbv zeta. unfold clean_spec, is_rooted, render, normalize.
  fold (out_of (sep c) (fold_left (step (sep c)) (parts (c :: s)) (MkPath 0 []))).
  by destruct (out_of _ _).
Qed.

Lemma clean_spec_shorter p :
  trailing p = true -> special (clean_spec p) = false -> zlen (clean_spec p) < zlen p.
Proof.
  destruct p as [|d q _] using rev_ind; [done|]. unfold trailing. rewrite last_snoc. intros Hd Hs.
  rewrite zlen_app. change (zlen [d]) with 1. destruct q as [|c q].
  - exfalso. assert (clean_spec ([] ++ [d]) = [SLASH]) as E; [|by rewrite E in Hs].
    unfold clean_spec, is_rooted, parts. cbn [app split_parts]. by rewrite Hd.
  - rewrite clean_spec_snoc by done. rewrite <- clean_out_cases. cbv zeta.
    pose proof (out_fits c q) as Hfit. destruct (out_of _ _) as [|x v]; [|lia].
    change (zlen [DOT]) with 1. rewrite zlen_cons. pose proof (zlen_nonneg q). lia.
Qed.

Lemma join_last es e : last (join (es ++ [e])) = match last e with Some c => Some c | None => last (join (es ++ [e])) end.
Proof.
  rewrite join_snoc. destruct (last e) as [c|] eqn:E; [|by destruct es].
  destruct es as [|e0 es]; [done|]. rewrite !last_app, E. done.
Qed.

(** A clean path ends in a separator only when it is the root. *)
Lemma clean_spec_trailing s : trailing (clean_spec s) = bool_decide (clean_spec s = [SLASH]).
Proof.
  unfold clean_spec. set (rooted := is_rooted s). set (es := normalize rooted (parts s)).
  assert (Forall elem es) as Hel by apply normalize_elems.
  destruct (render_cases rooted es Hel) as [(-> & _)|(-> & Hne)]; [done|].
  unfold body. destruct es as [|e es] using rev_ind.
  { destruct Hne as [->|]; [|done]. done. }
  apply Forall_app in Hel as [_ He]. apply Forall_cons in He as [[He1 He2] _].
  destruct (last e) as [c|] eqn:El; [|by apply last_None in El].
  assert (last (join (es ++ [e])) = Some c) as Hl by (by rewrite join_last, El).
  assert (sep c = false) as Hc.
  { rewrite last_lookup in El. by eapply nosep_lookup. }
  unfold trailing. rewrite last_app, Hl, Hc. symmetry. apply bool_decide_eq_false.
  intros E. assert (last [SLASH] = Some c) as H; [|by injection H as <-].
  rewrite <- E, last_app, Hl. done.
Qed.

Lemma lex_shouldPreserve o p v rooted :
  holds o p v -> v <> [] -> (rooted = true -> exists v', v = SLASH :: v') ->
  (trailing v = true -> v = [SLASH]) ->
  (v = [SLASH] -> rooted = true) ->
  shouldPreserveTrailingSeparator false (of_lazy o) rooted = Ret (negb (special v)).
Proof.
  intros Hh Hne Hrooted Htr Hslash. unfold shouldPreserveTrailingSeparator.
  change (writePos (of_lazy o)) with (w o). rewrite (holds_w _ _ _ Hh).
  assert (forall k c, index v k = Ret c -> byteAt (of_lazy o) k = Ret c) as Hb.
  { intros k c Hc. exact (lazy_index_spec o p v k c Hh Hc). }
  destruct v as [|c0 v]; [done|]. pose proof (zlen_nonneg v). rewrite zlen_cons.
  rewrite (proj2 (Z.eqb_neq _ 0)) by lia.
  rewrite (Hb 0 c0 eq_refl). destruct v as [|c1 v].
  { change (zlen (@nil Z) + 1 =? 1) with true. rewrite andb_true_r. unfold special.
    destruct rooted.
    - destruct (Hrooted eq_refl) as [v' [= -> _]]. by rewrite orb_true_r.
    - rewrite !bind_ret. destruct (Z.eqb_spec c0 DOT) as [->|Hd]; [done|].
      change (zlen (@nil Z) + 1 =? 2) with false. cbn match. rewrite bind_ret. cbn match.
      change (zlen (@nil Z) + 1 - 1) with 0. rewrite (Hb 0 c0 eq_refl), bind_ret, lex_sep.
      rewrite !bool_decide_false by (intros [= E]; done). rewrite !orb_false_l. f_equal. f_equal.
      apply eq_true_iff_eq. rewrite bool_decide_eq_true. split; [apply Htr|].
      intros [= ->]. done. }
  rewrite zlen_cons in *. pose proof (zlen_nonneg v). rewrite (proj2 (Z.eqb_neq _ 1)) by lia.
  rewrite andb_false_r. cbn match. rewrite bind_ret. cbn match. rewrite (Hb 1 c1 eq_refl), !bind_ret.
  unfold special. rewrite (bool_decide_false (_ = [DOT])), (bool_decide_false (_ = [SLASH])) by done.
  rewrite orb_false_l, orb_false_r.
  assert (forall c, index (c0 :: c1 :: v) (zlen v + 1 + 1 - 1) = Ret c -> sep c = false) as Hlast.
  { intros c [_ Hc]%index_lookup. destruct (sep c) eqn:Es; [|done]. exfalso.
    assert (trailing (c0 :: c1 :: v) = true) as Ht; [|by apply Htr in Ht].
    unfold trailing. rewrite last_lookup.
    replace (pred (length (c0 :: c1 :: v))) with (Z.to_nat (zlen v + 1 + 1 - 1)) by (unfold zlen; cbn; lia).
    by rewrite Hc. }
  destruct (index_in_range (c0 :: c1 :: v) (zlen v + 1 + 1 - 1)) as [cl Hcl]; [rewrite !zlen_cons; lia|].
  rewrite (Hb _ _ Hcl), bind_ret, lex_sep, (Hlast _ Hcl). cbn [negb].
  destruct v as [|c2 v].
  - change (zlen (@nil Z) + 1 + 1 =? 2) with true. cbn match.
    destruct (Z.eqb_spec c0 DOT) as [->|Hd]; cbn [go_and].
    + destruct (Z.eqb_spec c1 DOT) as [->|Hd]; [done|]. rewrite bind_ret.
      by rewrite bool_decide_false by congruence.
    + rewrite bind_ret. by rewrite bool_decide_false by congruence.
  - rewrite zlen_cons. pose proof (zlen_nonneg v). rewrite (proj2 (Z.eqb_neq _ 2)) by lia.
    rewrite bind_ret. by rewrite bool_decide_false by done.
Qed.

(** The end of the function: a trailing separator of the path is put back on the cleaned path. *)
Lemma lex_buffer_string o p v : holds o p v -> (s ← buffer_string (of_lazy o); Ret (FromSlash false s)) = Ret v.
Proof.
  intros Ho. change (buffer_string (of_lazy o)) with (lazy_string o). by rewrite (lazy_string_spec _ _ _ Ho).
Qed.

Lemma lex_hasTrailing c s : hasTrailingPathSeparator false (c :: s) = Ret (trailing (c :: s)).
Proof.
  unfold hasTrailingPathSeparator. rewrite bool_decide_false by done. rewrite lex_sepAt.
  destruct (index_in_range (c :: s) (zlen (c :: s) - 1)) as [cl Hcl]; [rewrite zlen_cons; pose proof (zlen_nonneg s); lia|].
  rewrite (sep_at_spec _ _ _ Hcl). unfold trailing. rewrite last_lookup. apply index_lookup in Hcl as [_ Hcl].
  replace (pred (length (c :: s))) with (Z.to_nat (zlen (c :: s) - 1)) by (unfold zlen; cbn; lia). by rewrite Hcl.
Qed.

Lemma lex_finish c s o :
  holds o (c :: s) (clean_spec (c :: s)) ->
  (trailing ← hasTrailingPathSeparator false (c :: s) &&& shouldPreserveTrailingSeparator false (of_lazy o) (sep c);
   output ← (if (trailing : bool) then appendByte (of_lazy o) (Separator false) else Ret (of_lazy o));
   s ← buffer_string output; Ret (FromSlash false s)) = Ret (lexical_spec (c :: s)).
Proof.
  intros Ho. rewrite lex_hasTrailing. unfold lexical_spec, keep_trailing.
  destruct (trailing (c :: s)) eqn:Ht; cbn [go_and andb]; [|rewrite !bind_ret; by apply (lex_buffer_string _ (c :: s))].
  pose proof (clean_spec_parts (c :: s)) as (_ & Hr & _). pose proof (clean_spec_trailing (c :: s)) as Htc.
  pose proof (clean_spec_shorter (c :: s) Ht) as Hlt. change (is_rooted (c :: s)) with (sep c) in Hr.
  assert (clean_spec (c :: s) <> []) as Hne by (rewrite <- clean_out_cases; cbv zeta; by destruct (out_of _ _)).
  set (cs := clean_spec (c :: s)) in *.
  rewrite (lex_shouldPreserve o (c :: s) cs (sep c) Ho Hne).
  2:{ intros Hc. rewrite Hc in Hr. destruct cs as [|c' cs']; [done|]. exists cs'.
      change ((SLASH =? c') = true) in Hr. apply Z.eqb_eq in Hr. by subst c'. }
  2:{ rewrite Htc. by intros ?%bool_decide_eq_true. }
  2:{ intros E. by rewrite E in Hr. }
  rewrite bind_ret. destruct (special cs); cbn [negb]; [rewrite bind_ret; by apply (lex_buffer_string _ (c :: s))|].
  rewrite lex_append. replace (to_lazy (of_lazy o)) with o by by destruct o.
  destruct (lazy_append_spec o (c :: s) cs SLASH Ho (Hlt eq_refl)) as (o4 & E4 & H4).
  change (Separator false) with SLASH. rewrite E4. cbn [fmap go_fmap]. rewrite bind_ret. by apply (lex_buffer_string _ (c :: s)).
Qed.

Lemma lexically_normalize_unix_spec s : LexicallyNormalize false s = Ret (lexical_spec s).
Proof.
  unfold LexicallyNormalize. assert (VolumeName false s = Ret []) as ->.
  { unfold VolumeName, volumeNameLen, volumeNameLen_unix. rewrite bind_ret.
    rewrite slice_to_in_range by (pose proof (zlen_nonneg s); lia). done. }
  rewrite bind_ret. change (zlen (@nil Z)) with 0.
  rewrite slice_from_in_range by (pose proof (zlen_nonneg s); lia). rewrite bind_ret.
  change (drop (Z.to_nat 0) s) with s. destruct s as [|c s]; [done|].
  rewrite bool_decide_false by done. rewrite lex_sepAt.
  rewrite (sep_at_spec _ _ c) by done. rewrite bind_ret.
  pose proof (clean_run_spec c s) as (o1 & o2 & E1 & E2 & H2).
  rewrite lex_maybe_append. unfold maybe_append.
  change (to_lazy (MkLexicalBuffer (c :: s) None 0 (c :: s) 0)) with (MkLazybuf (c :: s) None 0 (c :: s) 0).
  rewrite E1. cbn [fmap go_fmap]. rewrite bind_ret, lex_loop.
  replace (to_lazy (of_lazy o1)) with o1 by by destruct o1.
  rewrite E2. cbn [fmap go_fmap]. rewrite bind_ret, lex_maybe_append. unfold maybe_append.
  replace (to_lazy (of_lazy o2)) with o2 by by destruct o2. change (writePos (of_lazy o2)) with (w o2).
  destruct (clean_dot_spec _ _ _ H2) as (o3 & -> & H3); [rewrite zlen_cons; pose proof (zlen_nonneg s); lia|].
  cbv zeta in H3. cbn [fmap go_fmap]. rewrite bind_ret.
  pose proof (clean_out_cases c s) as Hv. cbv zeta in Hv. rewrite Hv in H3.
  assert (postLexicallyNormalize false (of_lazy o3) = Ret (of_lazy o3)) as ->
    by (unfold postLexicallyNormalize; by destruct (buffer (of_lazy o3))).
  rewrite bind_ret. by apply lex_finish.
Qed.

(** ** Idempotence *)
Lemma special_clean s : special (clean_spec s) = true -> trailing (clean_spec s) = true -> clean_spec s = [SLASH].
Proof. rewrite clean_spec_trailing. by intros _ ?%bool_decide_eq_true. Qed.

Lemma clean_spec_not_nil s : clean_spec s <> [].
Proof. destruct s as [|c s]; [done|]. rewrite <- clean_out_cases. cbv zeta. by destruct (out_of _ _). Qed.

Lemma lexical_spec_idempotent s : lexical_spec (lexical_spec s) = lexical_spec s.
Proof.
  unfold lexical_spec at 2 3. unfold keep_trailing.
  destruct (trailing s && negb (special (clean_spec s))) eqn:E.
  - apply andb_true_iff in E as [_ Hs]. apply negb_true_iff in Hs.
    unfold lexical_spec, keep_trailing. rewrite clean_spec_snoc by (done || apply clean_spec_not_nil).
    rewrite clean_spec_idempotent, Hs. unfold trailing. by rewrite last_snoc.
  - unfold lexical_spec, keep_trailing. rewrite clean_spec_idempotent, clean_spec_trailing.
    case_bool_decide as Hc; cbn [andb]; [|done]. rewrite Hc. done.
Qed.

(** On Unix, normalization is the reference algorithm on path elements (a
    stack on which "." does nothing and ".." pops an element, or stays when the
    path is relative and there is none). *)
Lemma lexical_parts (s : gostring) :
  parts (lexical_spec s) = parts (clean_spec s) /\
  parts (clean_spec s) = (if bool_decide (clean_spec s = [DOT]) then [[DOT]] else normalize (is_rooted s) (parts s)).
Proof.
  split.
  { unfold lexical_spec, keep_trailing. destruct (_ && _); [|done].
    unfold parts. by rewrite split_parts_snoc. }
  case_bool_decide as Hd; [by rewrite Hd|].
  pose proof (normalize_elems (is_rooted s) s) as Hel. unfold clean_spec in *.
  destruct (render_cases (is_rooted s) _ Hel) as [(E & _)|(E & _)]; [done|].
  rewrite E. by apply parts_body.
Qed.

(** C18: on Unix, for every path, [filepath.Clean] and [LexicallyNormalize]
    return: no index leaves their lazy buffers, also for the separator appended
    at the end, and no loop runs out of rounds.  The second returns what the first
    does, with a trailing separator restored exactly when the input had one and
    the cleaned path is not ".", ".." or the root.  The elements of both are
    those of the input after "." and ".." have been applied to a stack, ".." kept
    at the start of a relative path, and normalizing twice changes nothing. *)
Theorem lexically_normalize_is_clean (s : gostring) :
  exists cleaned, Clean false s = Ret cleaned /\
    let normalized := keep_trailing s cleaned in
    LexicallyNormalize false s = Ret normalized /\
    LexicallyNormalize false normalized = Ret normalized /\
    parts normalized = parts cleaned /\
    parts cleaned = (if bool_decide (cleaned = [DOT]) then [[DOT]] else normalize (is_rooted s) (parts s)).
Proof.
  exists (clean_spec s). cbv zeta. change (keep_trailing s (clean_spec s)) with (lexical_spec s).
  rewrite clean_unix_spec, !lexically_normalize_unix_spec, lexical_spec_idempotent. by destruct (lexical_parts s).
Qed.

(** On Windows the separator appended at the end can leave the buffer: a "./"
    prefix inserted by [postLexicallyNormalize] makes the buffer exactly full. *)
Lemma lexically_normalize_windows_panics :
  LexicallyNormalize true (str "a\..\c:\") = Panic IndexOutOfRange /\
  LexicallyNormalize true (str "\a\..\??\x\") = Panic IndexOutOfRange.
Proof. split; vm_compute; reflexivity. Qed.
