(* ===== verification/PathComponents.v ===== *)
(** * Path components and Windows path prefixes ([internal/pathx/pathx.go])

    Byte positions of a parsed Windows path are [uint32] in the code: the
    conversions are written out.  [strings.Map] and [strings.TrimRight] of the
    device name matching act on bytes here, which is the same for the ASCII
    cutsets and letters the code uses. *)
From S2P Require Import Prelude Core GoFilepath CleanSpec.

Definition IsWindowsPathSeparator (c : Z) : bool := (c =? BACKSLASH) || (c =? SLASH).
Definition isWindowsDriveLetter (c : Z) : bool :=
  ((97 <=? c) && (c <=? 122)) || ((65 <=? c) && (c <=? 90)).
Definition IsPathSeparator (windows : bool) (c : Z) : bool :=
  if windows then IsWindowsPathSeparator c else c =? Separator windows.

(** ** Iteration over components *)
Section components.
Context (isPathSeparator : Z -> bool).

(** [i] runs from [start] to [len(path)] included. *)
Fixpoint components_loop {St} (fuel : nat) (path : gostring) (i start : Z) (yield : yield_fn gostring St) (st : St)
    : go St :=
  match fuel with
  | O => OutOfFuel
  | S fuel =>
      if i <=? zlen path then
        inside ← (if i <? zlen path then c ← index path i; Ret (negb (isPathSeparator c)) else Ret false);
        if (inside : bool) then components_loop fuel path (i + 1) start yield st
        else if start <? i then
          comp ← slice path start i;
          let '(st, continue) := yield comp st in
          if negb continue then Ret st else components_loop fuel path (i + 1) (i + 1) yield st
        else components_loop fuel path (i + 1) (i + 1) yield st
      else Ret st
  end.
Definition components {St} (path : gostring) (start : Z) (yield : yield_fn gostring St) (st : St) : go St :=
  components_loop (2 + length path) path start start yield st.

Fixpoint componentsBackward_loop {St} (fuel : nat) (path : gostring) (i start end_ : Z)
    (yield : yield_fn gostring St) (st : St) : go St :=
  match fuel with
  | O => OutOfFuel
  | S fuel =>
      if start <=? i then
        c ← index path i;
        if negb (isPathSeparator c) then componentsBackward_loop fuel path (i - 1) start end_ yield st
        else if i + 1 <? end_ then
          comp ← slice path (i + 1) end_;
          let '(st, continue) := yield comp st in
          if negb continue then Ret st else componentsBackward_loop fuel path (i - 1) start i yield st
        else componentsBackward_loop fuel path (i - 1) start i yield st
      else if start <? end_ then
        comp ← slice path start end_; Ret (fst (yield comp st))
      else Ret st
  end.
Definition componentsBackward {St} (path : gostring) (start : Z) (yield : yield_fn gostring St) (st : St) : go St :=
  componentsBackward_loop (S (length path)) path (zlen path - 1) start (zlen path) yield st.
End components.

Definition ComponentsUnix {St} (path : gostring) (yield : yield_fn gostring St) (st : St) : go St :=
  components (fun c => c =? SLASH) path 0 yield st.

(** ** Windows path prefixes *)
Inductive WindowsPathKind :=
  | WindowsPathKind_Relative
  | WindowsPathKind_RootRelative
  | WindowsPathKind_DriveRelative
  | WindowsPathKind_DriveAbsolute
  | WindowsPathKind_UNC
  | WindowsPathKind_VerbatimDrive
  | WindowsPathKind_VerbatimUNC
  | WindowsPathKind_Verbatim
  | WindowsPathKind_Device.
#[global] Instance WindowsPathKind_eq_dec : EqDecision WindowsPathKind.
Proof. solve_decision. Defined.

Record WindowsPath := MkWindowsPath {
  wpath : gostring; prefixStart : Z; prefixEnd : Z; componentsStart : Z; wkind : WindowsPathKind }.

Definition wsep_at (path : gostring) (i : Z) : go bool :=
  c ← index path i; Ret (IsWindowsPathSeparator c).

Fixpoint windowsNextComponentEnd_loop (fuel : nat) (path : gostring) (i : Z) : go (Z * bool) :=
  match fuel with
  | O => OutOfFuel
  | S fuel =>
      if i <? zlen path then
        b ← wsep_at path i;
        if (b : bool) then Ret (i, true) else windowsNextComponentEnd_loop fuel path (i + 1)
      else Ret (zlen path, true)
  end.
Definition windowsNextComponentEnd (path : gostring) (start : Z) : go (Z * bool) :=
  none ← (Ret (zlen path <=? start)) ||| wsep_at path start;
  if (none : bool) then Ret (start, false)
  else windowsNextComponentEnd_loop (S (length path)) path start.

Definition windowsPrefixEnd (path : gostring) (start : Z) : go (Z * Z) :=
  '(end_, ok) ← windowsNextComponentEnd path start;
  if negb ok then Ret (zlen path, zlen path)
  else
    b ← (Ret (end_ <? zlen path)) &&& wsep_at path end_;
    if (b : bool) then Ret (end_, end_ + 1) else Ret (end_, end_).

Definition windowsUNCPrefixEnd (path : gostring) (start : Z) : go (Z * Z) :=
  '(firstEnd, ok) ← windowsNextComponentEnd path start;
  if negb ok then Ret (zlen path, zlen path)
  else
    let shareStart := firstEnd + 1 in
    '(shareEnd, ok) ← windowsNextComponentEnd path shareStart;
    if negb ok then Ret (zlen path, zlen path)
    else
      b ← (Ret (shareEnd <? zlen path)) &&& wsep_at path shareEnd;
      if (b : bool) then Ret (shareEnd, shareEnd + 1) else Ret (shareEnd, shareEnd).

Definition hasWindowsVerbatimUNCPrefix (path : gostring) : go bool :=
  (Ret (8 <=? zlen path)) &&& byte_is path 4 85 &&& byte_is path 5 78 &&& byte_is path 6 67 &&& wsep_at path 7.

Definition hasWindowsVerbatimDrivePrefix (path : gostring) : go bool :=
  (Ret (6 <=? zlen path)) &&& (c ← index path 4; Ret (isWindowsDriveLetter c)) &&& byte_is path 5 COLON
  &&& ((Ret (zlen path =? 6)) ||| wsep_at path 6).

Definition parseWindowsDoubleSeparatorPathPrefix (path : gostring) : go (WindowsPathKind * Z * Z * Z) :=
  device ← (Ret (4 <=? zlen path)) &&& (byte_is path 2 QUESTION ||| byte_is path 2 DOT) &&& wsep_at path 3;
  if (device : bool) then
    unc ← byte_is path 2 QUESTION &&& hasWindowsVerbatimUNCPrefix path;
    if (unc : bool) then
      '(prefixEnd, start) ← windowsUNCPrefixEnd path 8;
      Ret (WindowsPathKind_VerbatimUNC, 0, uint_wrap 32 prefixEnd, uint_wrap 32 start)
    else
    drive ← byte_is path 2 QUESTION &&& hasWindowsVerbatimDrivePrefix path;
    if (drive : bool) then
      let start := 6 in
      more ← (Ret (start <? zlen path)) &&& wsep_at path start;
      Ret (WindowsPathKind_VerbatimDrive, 0, 6, if (more : bool) then start + 1 else start)
    else
    '(prefixEnd, start) ← windowsPrefixEnd path 4;
    q ← byte_is path 2 QUESTION;
    Ret (if (q : bool) then WindowsPathKind_Verbatim else WindowsPathKind_Device,
         0, uint_wrap 32 prefixEnd, uint_wrap 32 start)
  else
    '(prefixEnd, start) ← windowsUNCPrefixEnd path 2;
    Ret (WindowsPathKind_UNC, 0, uint_wrap 32 prefixEnd, uint_wrap 32 start).

Definition parseWindowsPathPrefix (path : gostring) : go (WindowsPathKind * Z * Z * Z) :=
  drive ← (Ret (2 <=? zlen path)) &&& (c ← index path 0; Ret (isWindowsDriveLetter c)) &&& byte_is path 1 COLON;
  if (drive : bool) then
    abs ← (Ret (2 <? zlen path)) &&& wsep_at path 2;
    if (abs : bool) then Ret (WindowsPathKind_DriveAbsolute, 0, 2, 3)
    else Ret (WindowsPathKind_DriveRelative, 0, 2, 2)
  else
  rel ← (Ret (zlen path =? 0)) ||| (b ← wsep_at path 0; Ret (negb b));
  if (rel : bool) then Ret (WindowsPathKind_Relative, 0, 0, 0)
  else
  root ← (Ret (zlen path =? 1)) ||| (b ← wsep_at path 1; Ret (negb b));
  if (root : bool) then Ret (WindowsPathKind_RootRelative, 0, 0, 1)
  else parseWindowsDoubleSeparatorPathPrefix path.

Definition ComponentsWindows (path : gostring) : go WindowsPath :=
  '(kind, prefixStart, prefixEnd, componentsStart) ← parseWindowsPathPrefix path;
  Ret (MkWindowsPath path prefixStart prefixEnd componentsStart kind).

Definition Prefix (c : WindowsPath) : go (option gostring) :=
  if prefixStart c =? prefixEnd c then Ret None
  else p ← slice (wpath c) (prefixStart c) (prefixEnd c); Ret (Some p).
Definition WindowsComponents {St} (c : WindowsPath) (yield : yield_fn gostring St) (st : St) : go St :=
  components IsWindowsPathSeparator (wpath c) (componentsStart c) yield st.
Definition ComponentsBackward {St} (c : WindowsPath) (yield : yield_fn gostring St) (st : St) : go St :=
  componentsBackward IsWindowsPathSeparator (wpath c) (componentsStart c) yield st.

(** ** Special DOS device names *)

(** The superscript digits are UTF-8 encoded. *)
Definition Windows11DeviceNames : list gostring :=
  [str "AUX"; str "CON"; str "CONIN$"; str "CONOUT$";
   str "COM1"; str "COM2"; str "COM3"; str "COM4"; str "COM5"; str "COM6"; str "COM7"; str "COM8"; str "COM9";
   str "COM" ++ [0xC2; 0xB2]; str "COM" ++ [0xC2; 0xB3]; str "COM" ++ [0xC2; 0xB9];
   str "LPT1"; str "LPT2"; str "LPT3"; str "LPT4"; str "LPT5"; str "LPT6"; str "LPT7"; str "LPT8"; str "LPT9";
   str "LPT" ++ [0xC2; 0xB2]; str "LPT" ++ [0xC2; 0xB3]; str "LPT" ++ [0xC2; 0xB9];
   str "NUL"; str "PRN"].

(** [strings.TrimRight(name, ". ")]. *)
Fixpoint trim_left (name : gostring) : gostring :=
  match name with
  | c :: name' => if (c =? DOT) || (c =? 32) then trim_left name' else name
  | [] => []
  end.
Definition trim_right (name : gostring) : gostring := rev (trim_left (rev name)).
Definition upper (r : Z) : Z := if (97 <=? r) && (r <=? 122) then r - 32 else r.

Definition canonicalSpecialDOSDeviceName (name : gostring) : gostring * bool :=
  let name := map upper (trim_right name) in
  match List.find (fun d => bool_decide (name = d)) Windows11DeviceNames with
  | Some deviceName => (deviceName, true)
  | None => ([], false)
  end.
Definition deviceOption (r : gostring * bool) : option gostring := if r.2 then Some r.1 else None.

Definition last_and_count : yield_fn gostring (gostring * Z) := fun component st => ((component, st.2 + 1), true).

Definition SpecialDOSDeviceName (c : WindowsPath) : go (option gostring) :=
  if decide (wkind c = WindowsPathKind_Device) then
    p ← Prefix c;
    prefix ← (match p with Some p => Ret p | None => Panic PreconditionViolation end);
    rest ← slice_from prefix 4;
    Ret (deviceOption (canonicalSpecialDOSDeviceName rest))
  else
    '(lastComponent, componentCount) ← WindowsComponents c last_and_count ([], 0);
    if componentCount =? 0 then Ret None
    else if bool_decide (wkind c = WindowsPathKind_Relative) && (componentCount =? 1) then
      Ret (deviceOption (canonicalSpecialDOSDeviceName lastComponent))
    else if bool_decide (wkind c = WindowsPathKind_Relative \/ wkind c = WindowsPathKind_DriveAbsolute) then
      let '(name, ok) := canonicalSpecialDOSDeviceName lastComponent in
      if ok && bool_decide (name = str "NUL") then Ret (Some name) else Ret None
    else Ret None.

(** ** Paths of either platform *)
Inductive PathKind := PathKind_Unix | PathKind_Windows | PathKind_Other (k : Z).
Record PathComponents := MkPathComponents { cpath : gostring; cwindows : WindowsPath; ckind : PathKind }.

Definition zeroWindowsPath : WindowsPath := MkWindowsPath [] 0 0 0 WindowsPathKind_Relative.
Definition Components (windows : bool) (path : gostring) : go PathComponents :=
  if windows then w ← ComponentsWindows path; Ret (MkPathComponents path w PathKind_Windows)
  else Ret (MkPathComponents path zeroWindowsPath PathKind_Unix).
Definition Components_iter {St} (c : PathComponents) (yield : yield_fn gostring St) (st : St) : go St :=
  match ckind c with
  | PathKind_Unix => ComponentsUnix (cpath c) yield st
  | PathKind_Windows => WindowsComponents (cwindows c) yield st
  | PathKind_Other _ => PanicUnknownCase
  end.
Definition Windows (c : PathComponents) : go WindowsPath :=
  match ckind c with
  | PathKind_Windows => Ret (cwindows c)
  | PathKind_Unix => _ ← Precondition false; Ret zeroWindowsPath
  | PathKind_Other _ => PanicUnknownCase
  end.

(** [LexicallyContains] of this package; [filepath.Rel] reports errors as [None]. *)
Definition has_prefix (s prefix : gostring) : bool := bool_decide (take (length prefix) s = prefix).
Definition LexicallyContains (windows : bool) (EqualFold : gostring -> gostring -> bool)
    (root child : gostring) : go bool :=
  j ← Join windows [root; child];
  rel ← Rel windows EqualFold root j;
  Ret (match rel with Some rel => negb (has_prefix rel [DOT; DOT]) | None => false end).

(** ** The iterators enumerate [split_parts] *)
Lemma components_loop_spec {St} is_sep fuel pre cur rest (yield : yield_fn gostring St) st :
  forallb (fun c => negb (is_sep c)) cur = true -> (length rest + 1 < fuel)%nat ->
  components_loop is_sep fuel (pre ++ cur ++ rest) (zlen (pre ++ cur)) (zlen pre) yield st =
    Ret (fst (range_yield (split_parts is_sep cur rest) yield st)).
Proof.
  revert pre cur rest st. induction fuel as [|fuel IH]; intros pre cur rest st Hcur Hf; [lia|].
  cbn [components_loop]. pose proof (zlen_nonneg rest).
  rewrite (proj2 (Z.leb_le _ _)) by (rewrite app_assoc, (zlen_app (pre ++ cur)); lia).
  assert (slice (pre ++ cur ++ rest) (zlen pre) (zlen (pre ++ cur)) = Ret cur) as Hslice.
  { rewrite zlen_app. apply slice_app_mid. }
  assert (forall d rest', rest = d :: rest' ->
    components_loop is_sep fuel (pre ++ cur ++ rest) (zlen (pre ++ cur) + 1) (zlen (pre ++ cur) + 1) yield st =
    components_loop is_sep fuel ((pre ++ cur ++ [d]) ++ [] ++ rest') (zlen ((pre ++ cur ++ [d]) ++ []))
      (zlen (pre ++ cur ++ [d])) yield st) as Hnext.
  { intros d rest' ->. rewrite app_nil_r. f_equal; [by rewrite <- !app_assoc|..]; rewrite !zlen_app;
      change (zlen [d]) with 1; lia. }
  destruct rest as [|d rest].
  - rewrite app_nil_r. rewrite (proj2 (Z.ltb_ge (zlen (pre ++ cur)) (zlen (pre ++ cur)))) by lia. rewrite bind_ret. cbn [split_parts].
    destruct fuel as [|fuel]; [cbn in Hf; lia|].
    destruct cur as [|c cur].
    + rewrite app_nil_r, (proj2 (Z.ltb_ge (zlen pre) (zlen pre))) by lia. cbn [components_loop].
      rewrite (proj2 (Z.leb_gt _ _)) by lia. done.
    + rewrite (proj2 (Z.ltb_lt (zlen pre) _)) by zlia. rewrite app_nil_r in Hslice.
      rewrite Hslice, bind_ret. cbn [range_yield]. destruct (yield (c :: cur) st) as [st' []]; cbn [negb].
      * cbn [components_loop]. rewrite (proj2 (Z.leb_gt _ _)) by lia. done.
      * done.
  - rewrite (proj2 (Z.ltb_lt (zlen (pre ++ cur)) _)) by zlia.
    assert (index (pre ++ cur ++ d :: rest) (zlen (pre ++ cur)) = Ret d) as Hi.
    { rewrite app_assoc, <- (Z.add_0_r (zlen (pre ++ cur))), index_app_r by lia. done. }
    rewrite Hi, !bind_ret. cbn [split_parts]. cbn [length] in Hf.
    destruct (is_sep d) eqn:Hd; cbn [negb].
    + destruct cur as [|c cur].
      * rewrite app_nil_r, (proj2 (Z.ltb_ge (zlen pre) (zlen pre))) by lia.
        specialize (Hnext d rest eq_refl). rewrite app_nil_r in Hnext. cbn [app] in Hnext |- *.
        rewrite Hnext. apply (IH (pre ++ [d]) [] rest st); [done|lia].
      * rewrite (proj2 (Z.ltb_lt (zlen pre) _)) by zlia. rewrite Hslice, bind_ret. cbn [range_yield].
        destruct (yield (c :: cur) st) as [st' []]; cbn [negb]; [|done].
        replace (pre ++ (c :: cur) ++ d :: rest) with ((pre ++ (c :: cur) ++ [d]) ++ [] ++ rest)
          by (by rewrite <- !app_assoc).
        replace (zlen (pre ++ c :: cur) + 1) with (zlen ((pre ++ (c :: cur) ++ [d])))
          by (rewrite app_assoc, (zlen_app (pre ++ c :: cur)); done).
        rewrite <- (app_nil_r (pre ++ (c :: cur) ++ [d])) at 2. apply IH; [done|lia].
    + replace (pre ++ cur ++ d :: rest) with (pre ++ (cur ++ [d]) ++ rest) by (by rewrite <- !app_assoc).
      replace (zlen (pre ++ cur) + 1) with (zlen (pre ++ cur ++ [d]))
        by (rewrite app_assoc, (zlen_app (pre ++ cur)); done).
      apply IH; [|lia]. rewrite forallb_app, Hcur. cbn. by rewrite Hd.
Qed.

Lemma components_spec {St} is_sep path start (yield : yield_fn gostring St) st :
  0 <= start <= zlen path ->
  components is_sep path start yield st =
    Ret (fst (range_yield (split_parts is_sep [] (drop (Z.to_nat start) path)) yield st)).
Proof.
  intros Hs. unfold components. rewrite <- (take_drop (Z.to_nat start) path) at 2.
  pose proof (components_loop_spec is_sep (2 + length path) (take (Z.to_nat start) path) []
    (drop (Z.to_nat start) path) yield st eq_refl) as H.
  rewrite app_nil_r in H. cbn [app] in H.
  replace (zlen (take (Z.to_nat start) path)) with start in H by (rewrite zlen_take; lia).
  apply H. rewrite length_drop. lia.
Qed.

Lemma split_parts_app_sep is_sep cur x c y :
  is_sep c = true -> split_parts is_sep cur (x ++ c :: y) = split_parts is_sep cur x ++ split_parts is_sep [] y.
Proof.
  intros Hc. revert cur. induction x as [|d x IH]; intros cur; cbn [app split_parts].
  - rewrite Hc. by destruct cur.
  - destruct (is_sep d); [|apply IH]. rewrite IH. by destruct cur.
Qed.

Lemma split_parts_nosep is_sep e :
  forallb (fun c => negb (is_sep c)) e = true -> split_parts is_sep [] e = match e with [] => [] | _ => [e] end.
Proof.
  intros He. rewrite <- (app_nil_r e) at 1. rewrite split_parts_plain by done. by destruct e.
Qed.

Lemma componentsBackward_loop_spec {St} is_sep fuel pre a cur tail (yield : yield_fn gostring St) st :
  forallb (fun c => negb (is_sep c)) cur = true -> (length a < fuel)%nat ->
  componentsBackward_loop is_sep fuel (pre ++ a ++ cur ++ tail) (zlen (pre ++ a) - 1) (zlen pre)
    (zlen (pre ++ a ++ cur)) yield st =
  Ret (fst (range_yield (rev (split_parts is_sep [] (a ++ cur))) yield st)).
Proof.
  revert a cur tail st. induction fuel as [|fuel IH]; intros a cur tail st Hcur Hf; [lia|].
  cbn [componentsBackward_loop]. destruct a as [|c a _] using rev_ind.
  - rewrite app_nil_r. cbn [app]. rewrite (proj2 (Z.leb_gt _ _)) by lia.
    rewrite split_parts_nosep by done. rewrite zlen_app. pose proof (slice_app_mid pre cur tail) as Hs.
    destruct cur as [|c cur].
    + change (zlen (@nil Z)) with 0. rewrite (proj2 (Z.ltb_ge _ _)) by lia. done.
    + rewrite (proj2 (Z.ltb_lt _ _)) by (rewrite zlen_cons; pose proof (zlen_nonneg cur); lia).
      rewrite Hs, bind_ret. cbn. by destruct (yield (c :: cur) st) as [st' []].
  - rewrite length_app in Hf. cbn [length] in Hf.
    assert (zlen (pre ++ a ++ [c]) - 1 = zlen (pre ++ a)) as Ei.
    { rewrite app_assoc, (zlen_app (pre ++ a)). change (zlen [c]) with 1. lia. }
    rewrite Ei. rewrite (proj2 (Z.leb_le _ _)) by zlia.
    assert (index (pre ++ (a ++ [c]) ++ cur ++ tail) (zlen (pre ++ a)) = Ret c) as Hi.
    { replace (pre ++ (a ++ [c]) ++ cur ++ tail) with ((pre ++ a) ++ c :: cur ++ tail)
        by (by rewrite <- !app_assoc).
      rewrite <- (Z.add_0_r (zlen (pre ++ a))), index_app_r by lia. done. }
    rewrite Hi, bind_ret.
    destruct (is_sep c) eqn:Hc; cbn [negb].
    + assert (split_parts is_sep [] ((a ++ [c]) ++ cur) =
              split_parts is_sep [] a ++ match cur with [] => [] | _ => [cur] end) as Esp.
      { rewrite <- app_assoc. cbn [app]. rewrite split_parts_app_sep by done. by rewrite (split_parts_nosep is_sep cur) by done. }
      assert (forall st0, componentsBackward_loop is_sep fuel (pre ++ (a ++ [c]) ++ cur ++ tail)
          (zlen (pre ++ a) - 1) (zlen pre) (zlen (pre ++ a)) yield st0 =
          Ret (fst (range_yield (rev (split_parts is_sep [] a)) yield st0))) as Hrec.
      { intros st0. replace (pre ++ (a ++ [c]) ++ cur ++ tail) with (pre ++ a ++ [] ++ (c :: cur ++ tail))
          by (by rewrite <- !app_assoc).
        rewrite <- (app_nil_r a) at 3. rewrite IH by (done || lia). by rewrite app_nil_r. }
      rewrite Esp, rev_app_distr.
      assert (zlen (pre ++ (a ++ [c]) ++ cur) = zlen (pre ++ a) + 1 + zlen cur) as Eend.
      { rewrite !zlen_app. change (zlen [c]) with 1. lia. }
      rewrite Eend. destruct cur as [|d cur].
      * change (zlen (@nil Z)) with 0. rewrite (proj2 (Z.ltb_ge _ _)) by lia. apply Hrec.
      * rewrite (proj2 (Z.ltb_lt _ _)) by (rewrite zlen_cons; pose proof (zlen_nonneg cur); lia).
        assert (slice (pre ++ (a ++ [c]) ++ (d :: cur) ++ tail) (zlen (pre ++ a) + 1)
                  (zlen (pre ++ a) + 1 + zlen (d :: cur)) = Ret (d :: cur)) as Hs.
        { replace (zlen (pre ++ a) + 1) with (zlen (pre ++ a ++ [c]))
            by (rewrite app_assoc, (zlen_app (pre ++ a)); done).
          rewrite app_assoc. apply slice_app_mid. }
        rewrite Hs, bind_ret. cbn [rev app range_yield].
        destruct (yield (d :: cur) st) as [st' []]; cbn [negb]; [apply Hrec|done].
    + replace (pre ++ (a ++ [c]) ++ cur ++ tail) with (pre ++ a ++ (c :: cur) ++ tail)
        by (by rewrite <- !app_assoc).
      replace (pre ++ (a ++ [c]) ++ cur) with (pre ++ a ++ (c :: cur)) by (by rewrite <- !app_assoc).
      replace ((a ++ [c]) ++ cur) with (a ++ (c :: cur)) by (by rewrite <- app_assoc).
      apply IH; [cbn; by rewrite Hc|lia].
Qed.

Lemma componentsBackward_spec {St} is_sep path start (yield : yield_fn gostring St) st :
  0 <= start <= zlen path ->
  componentsBackward is_sep path start yield st =
    Ret (fst (range_yield (rev (split_parts is_sep [] (drop (Z.to_nat start) path))) yield st)).
Proof.
  intros Hs. unfold componentsBackward.
  pose proof (componentsBackward_loop_spec is_sep (S (length path)) (take (Z.to_nat start) path)
    (drop (Z.to_nat start) path) [] [] yield st eq_refl) as H.
  rewrite !app_nil_r, take_drop in H.
  replace (zlen (take (Z.to_nat start) path)) with start in H by (rewrite zlen_take; lia).
  apply H. rewrite length_drop. lia.
Qed.

(** ** Parsing a Windows path prefix *)
Lemma wsep_at_range path i : 0 <= i < zlen path -> exists b, wsep_at path i = Ret b.
Proof.
  intros Hi. unfold wsep_at. destruct (index_in_range path i Hi) as [c ->]. by eexists.
Qed.
Lemma byte_is_range path i x : 0 <= i < zlen path -> exists b, byte_is path i x = Ret b.
Proof.
  intros Hi. unfold byte_is. destruct (index_in_range path i Hi) as [c ->]. by eexists.
Qed.

Lemma next_component_end_spec path start :
  0 <= start ->
  exists e ok, windowsNextComponentEnd path start = Ret (e, ok) /\
    (ok = true -> start < e <= zlen path).
Proof.
  intros Hs. unfold windowsNextComponentEnd.
  assert (forall fuel i, start <= i <= zlen path -> zlen path - i < Z.of_nat fuel ->
    (i = start -> exists b, wsep_at path i = Ret b /\ b = false) -> start < zlen path ->
    exists e, windowsNextComponentEnd_loop fuel path i = Ret (e, true) /\ start < e <= zlen path) as Hloop.
  { induction fuel as [|fuel IH]; intros i Hi Hf H0 Hlt; [lia|]. cbn [windowsNextComponentEnd_loop].
    destruct (Z.ltb_spec i (zlen path)); [|exists (zlen path); split; [done|lia]].
    destruct (wsep_at_range path i) as [b Hb]; [lia|]. rewrite Hb, bind_ret. destruct b.
    - exists i. split; [done|]. destruct (decide (i = start)) as [E|]; [|lia].
      destruct (H0 E) as (b & Hb' & ->). congruence.
    - apply IH; lia. }
  destruct (Z.leb_spec (zlen path) start); cbn [go_or].
  { exists start, false. by rewrite bind_ret. }
  destruct (wsep_at_range path start) as [b Hb]; [lia|]. rewrite Hb, bind_ret. destruct b.
  { by exists start, false. }
  destruct (Hloop (S (length path)) start) as (e & -> & He); [lia|unfold zlen; lia| |lia|].
  { intros _. by exists false. }
  by exists e, true.
Qed.

Lemma prefix_end_spec path start :
  0 <= start <= zlen path ->
  exists e c, windowsPrefixEnd path start = Ret (e, c) /\ start <= e <= c /\ c <= zlen path.
Proof.
  intros Hs. unfold windowsPrefixEnd.
  destruct (next_component_end_spec path start) as (e & ok & -> & He); [lia|]. rewrite bind_ret.
  destruct ok; cbn [negb]; [|exists (zlen path), (zlen path); split_and!; [done|lia..]].
  specialize (He eq_refl). destruct (Z.ltb_spec e (zlen path)); cbn [go_and].
  - destruct (wsep_at_range path e) as [b ->]; [lia|]. rewrite bind_ret.
    destruct b; eexists _, _; (split; [done|lia]).
  - rewrite bind_ret. eexists _, _; (split; [done|lia]).
Qed.

Lemma unc_prefix_end_spec path start :
  0 <= start <= zlen path ->
  exists e c, windowsUNCPrefixEnd path start = Ret (e, c) /\ start <= e <= c /\ c <= zlen path.
Proof.
  intros Hs. unfold windowsUNCPrefixEnd.
  destruct (next_component_end_spec path start) as (e1 & ok1 & -> & He1); [lia|]. rewrite bind_ret.
  destruct ok1; cbn [negb]; [|exists (zlen path), (zlen path); split_and!; [done|lia..]].
  specialize (He1 eq_refl).
  destruct (next_component_end_spec path (e1 + 1)) as (e & ok & -> & He); [lia|]. rewrite bind_ret.
  destruct ok; cbn [negb]; [|exists (zlen path), (zlen path); split_and!; [done|lia..]].
  specialize (He eq_refl). destruct (Z.ltb_spec e (zlen path)); cbn [go_and].
  - destruct (wsep_at_range path e) as [b ->]; [lia|]. rewrite bind_ret.
    destruct b; eexists _, _; (split; [done|lia]).
  - rewrite bind_ret. eexists _, _; (split; [done|lia]).
Qed.

(** The positions of a parsed path. *)
Definition positions_ok (path : gostring) (w : WindowsPath) : Prop :=
  wpath w = path /\ prefixStart w = 0 /\ 0 <= prefixEnd w <= componentsStart w /\
  componentsStart w <= zlen path /\
  (wkind w = WindowsPathKind_Device -> 4 <= prefixEnd w).

(** Run a conjunction of tests whose reads are all in range. *)
Ltac run_tests :=
  repeat (cbn [go_and go_or];
    match goal with
    | |- context [byte_is ?p ?i ?x] => destruct (byte_is_range p i x) as [[] ->]; [lia|..]
    | |- context [wsep_at ?p ?i] => destruct (wsep_at_range p i) as [[] ->]; [lia|..]
    end); cbn [go_and go_or].

Lemma parse_double_separator_spec path :
  2 <= zlen path < 2 ^ 32 ->
  exists k s e c, parseWindowsDoubleSeparatorPathPrefix path = Ret (k, s, e, c) /\
    s = 0 /\ 0 <= e <= c /\ c <= zlen path /\ (k = WindowsPathKind_Device -> 4 <= e).
Proof.
  intros Hlen. unfold parseWindowsDoubleSeparatorPathPrefix.
  assert (exists d, (Ret (4 <=? zlen path)) &&& (byte_is path 2 QUESTION ||| byte_is path 2 DOT)
    &&& wsep_at path 3 = Ret d /\ (d = true -> 4 <= zlen path)) as (d & -> & Hd).
  { destruct (Z.leb_spec 4 (zlen path)); [|by exists false].
    destruct (byte_is_range path 2 QUESTION) as [[] ->]; [lia|..];
      [|destruct (byte_is_range path 2 DOT) as [[] ->]; [lia|..]];
      destruct (wsep_at_range path 3) as [b ->]; try lia; cbn; eauto. }
  rewrite bind_ret. destruct d.
  - specialize (Hd eq_refl). destruct (byte_is_range path 2 QUESTION) as [q Hq]; [lia|].
    assert (exists u, byte_is path 2 QUESTION &&& hasWindowsVerbatimUNCPrefix path = Ret u /\
              (u = true -> 8 <= zlen path)) as (u & -> & Hu).
    { rewrite Hq. destruct q; cbn [go_and]; [|by exists false]. unfold hasWindowsVerbatimUNCPrefix.
      destruct (Z.leb_spec 8 (zlen path)); [run_tests; eauto|cbn [go_and]; by exists false]. }
    rewrite bind_ret. destruct u.
    { destruct (unc_prefix_end_spec path 8) as (e & c & -> & He & Hc); [specialize (Hu eq_refl); lia|].
      rewrite bind_ret. eexists _, _, _, _. split; [done|].
      rewrite !uint_wrap_id by lia. split_and!; [done|lia..|done]. }
    assert (exists u, byte_is path 2 QUESTION &&& hasWindowsVerbatimDrivePrefix path = Ret u /\
              (u = true -> 6 <= zlen path)) as (v & -> & Hv).
    { rewrite Hq. destruct q; cbn [go_and]; [|by exists false]. unfold hasWindowsVerbatimDrivePrefix.
      destruct (Z.leb_spec 6 (zlen path)); [|cbn [go_and]; by exists false].
      destruct (index_in_range path 4) as [c ->]; [lia|]. rewrite bind_ret.
      destruct (isWindowsDriveLetter c); destruct (Z.eqb_spec (zlen path) 6); run_tests; eauto. }
    rewrite bind_ret. destruct v.
    { specialize (Hv eq_refl). destruct (Z.ltb_spec 6 (zlen path)); cbn [go_and].
      - destruct (wsep_at_range path 6) as [b ->]; [lia|]. rewrite bind_ret.
        eexists _, _, _, _. split; [done|]. destruct b; split_and!; try done; lia.
      - rewrite bind_ret. eexists _, _, _, _. split; [done|]. split_and!; try done; lia. }
    destruct (prefix_end_spec path 4) as (e & c & -> & He & Hc); [lia|]. rewrite bind_ret, Hq, bind_ret.
    eexists _, _, _, _. split; [done|]. rewrite !uint_wrap_id by lia. split_and!; [done|lia..].
  - destruct (unc_prefix_end_spec path 2) as (e & c & -> & He & Hc); [lia|]. rewrite bind_ret.
    eexists _, _, _, _. split; [done|]. rewrite !uint_wrap_id by lia. split_and!; [done|lia..|done].
Qed.

Lemma parse_windows_prefix_spec path :
  zlen path < 2 ^ 32 ->
  exists w, ComponentsWindows path = Ret w /\ positions_ok path w.
Proof.
  intros Hlen. unfold ComponentsWindows, parseWindowsPathPrefix. pose proof (zlen_nonneg path).
  assert (exists d, (Ret (2 <=? zlen path)) &&& (c ← index path 0; Ret (isWindowsDriveLetter c))
     &&& byte_is path 1 COLON = Ret d /\ (d = true -> 2 <= zlen path)) as (d & -> & Hd).
  { destruct (Z.leb_spec 2 (zlen path)); [|cbn [go_and]; by exists false].
    destruct (index_in_range path 0) as [c ->]; [lia|]. rewrite bind_ret.
    destruct (isWindowsDriveLetter c); run_tests; eauto. }
  rewrite bind_ret. destruct d.
  { specialize (Hd eq_refl). destruct (Z.ltb_spec 2 (zlen path)); cbn [go_and].
    - destruct (wsep_at_range path 2) as [b ->]; [lia|]. rewrite bind_ret.
      destruct b; cbn; eexists; (split; [done|]); split_and!; cbn; done || lia.
    - rewrite bind_ret. cbn. eexists. split; [done|]. split_and!; cbn; done || lia. }
  destruct (Z.eqb_spec (zlen path) 0); cbn [go_or].
  { rewrite bind_ret. cbn. eexists. split; [done|]. split_and!; cbn; done || lia. }
  destruct (wsep_at_range path 0) as [b0 ->]; [lia|]. rewrite !bind_ret.
  destruct b0; cbn [negb].
  2:{ cbn. eexists. split; [done|]. split_and!; cbn; done || lia. }
  destruct (Z.eqb_spec (zlen path) 1); cbn [go_or].
  { rewrite bind_ret. cbn. eexists. split; [done|]. split_and!; cbn; done || lia. }
  destruct (wsep_at_range path 1) as [b1 ->]; [lia|]. rewrite !bind_ret.
  destruct b1; cbn [negb].
  2:{ cbn. eexists. split; [done|]. split_and!; cbn; done || lia. }
  destruct (parse_double_separator_spec path) as (k & s & e & c & -> & -> & He & Hc & Hk); [lia|].
  rewrite bind_ret. eexists. split; [done|]. split_and!; cbn; done || lia.
Qed.

Lemma range_last_and_count comps last n :
  fst (range_yield comps last_and_count (last, n)) =
    (default last (list.last comps), n + zlen comps).
Proof.
  revert last n. induction comps as [|c comps IH]; intros last n.
  - cbn. change (zlen (@nil gostring)) with 0. f_equal. lia.
  - cbn [range_yield last_and_count fst snd]. rewrite IH, zlen_cons. f_equal; [|lia].
    rewrite list.last_cons. by destruct (list.last comps).
Qed.

(** The components after the prefix, and the device a path names: the rules of
    the comment of [SpecialDOSDeviceName], on the list of components. *)
Definition windows_components (w : WindowsPath) : list gostring :=
  split_parts IsWindowsPathSeparator [] (drop (Z.to_nat (componentsStart w)) (wpath w)).
Definition special_device (kind : WindowsPathKind) (prefix : gostring) (comps : list gostring) : option gostring :=
  let device := deviceOption (canonicalSpecialDOSDeviceName (default [] (list.last comps))) in
  match kind, comps with
  | WindowsPathKind_Device, _ => deviceOption (canonicalSpecialDOSDeviceName (drop 4 prefix))
  | _, [] => None
  | WindowsPathKind_Relative, [_] => device
  | (WindowsPathKind_Relative | WindowsPathKind_DriveAbsolute), _ =>
      if bool_decide (device = Some (str "NUL")) then device else None
  | _, _ => None
  end.

Lemma prefix_value path w :
  positions_ok path w ->
  Prefix w = Ret (if prefixEnd w =? 0 then None else Some (take (Z.to_nat (prefixEnd w)) path)).
Proof.
  intros (Hp & H0 & He & Hc & _). unfold Prefix. rewrite H0, Z.eqb_sym, Hp.
  destruct (Z.eqb_spec (prefixEnd w) 0); [done|]. change (slice path 0 (prefixEnd w)) with (slice_to path (prefixEnd w)). by rewrite slice_to_in_range by lia.
Qed.

Lemma special_device_value path w :
  positions_ok path w ->
  SpecialDOSDeviceName w =
    Ret (special_device (wkind w) (take (Z.to_nat (prefixEnd w)) path) (windows_components w)).
Proof.
  intros Hw. unfold SpecialDOSDeviceName. rewrite (prefix_value path) by done.
  destruct Hw as (Hp & H0 & He & Hc & Hd). destruct (decide _) as [E|Hk].
  - specialize (Hd E). rewrite E. rewrite (proj2 (Z.eqb_neq _ _)) by lia. rewrite !bind_ret.
    rewrite slice_from_in_range by (rewrite zlen_take; lia). rewrite bind_ret.
    by destruct (windows_components w).
  - unfold WindowsComponents. rewrite components_spec by (rewrite Hp; lia).
    fold (windows_components w). rewrite range_last_and_count, bind_ret. cbn [fst snd].
    destruct (windows_components w) as [|c [|d comps]] eqn:Ec.
    { change (zlen (@nil gostring)) with 0. by destruct (wkind w). }
    + change (0 + zlen [c]) with 1. change (1 =? 0) with false. change (1 =? 1) with true.
      unfold special_device. change (default [] (list.last [c])) with c. generalize (str "NUL"); intros nul. clear -Hk.
      destruct (canonicalSpecialDOSDeviceName c) as [name []], (wkind w); try done; cbn;
        repeat case_bool_decide; simplify_eq; naive_solver.
    + assert ((0 + zlen (c :: d :: comps) =? 0) = false /\ (0 + zlen (c :: d :: comps) =? 1) = false) as [-> ->].
      { rewrite !zlen_cons. pose proof (zlen_nonneg comps). lia. }
      rewrite andb_false_r. unfold special_device. generalize (str "NUL"); intros nul.
      set (l := default [] (list.last (c :: d :: comps))). cbv zeta. clear -Hk.
      destruct (canonicalSpecialDOSDeviceName l) as [name []], (wkind w); try done; cbn;
        repeat case_bool_decide; simplify_eq; naive_solver.
Qed.

(** ** Main theorems *)

(** Below the [uint32] bound, parsing a Windows path never panics: the
    positions are ordered and in range, the prefix is the bytes before
    [prefixEnd], the two iterators enumerate the separator-delimited components
    after it forwards and backwards (stopping where the caller breaks), and the
    special DOS device of the path is the one the documented rules give. *)
Theorem windows_path_spec path (H : zlen path < 2 ^ 32) :
  exists w, ComponentsWindows path = Ret w /\
    wpath w = path /\ 0 = prefixStart w /\ 0 <= prefixEnd w <= componentsStart w /\ componentsStart w <= zlen path /\
    Prefix w = Ret (if prefixEnd w =? 0 then None else Some (take (Z.to_nat (prefixEnd w)) path)) /\
    (forall St (yield : yield_fn gostring St) st,
      WindowsComponents w yield st = Ret (fst (range_yield (windows_components w) yield st)) /\
      ComponentsBackward w yield st = Ret (fst (range_yield (rev (windows_components w)) yield st))) /\
    SpecialDOSDeviceName w =
      Ret (special_device (wkind w) (take (Z.to_nat (prefixEnd w)) path) (windows_components w)).
Proof.
  destruct (parse_windows_prefix_spec path H) as (w & E & Hw). exists w.
  pose proof Hw as (Hp & H0 & He & Hc & _). split_and!; try done; try lia.
  - by apply prefix_value.
  - intros St yield st. unfold WindowsComponents, ComponentsBackward.
    rewrite components_spec, componentsBackward_spec by (rewrite Hp; lia). done.
  - by apply special_device_value.
Qed.
Lemma windows_path_spec_witness :
  zlen (str "\\server\share\dir\nul. ") < 2 ^ 32 /\
  exists w, ComponentsWindows (str "\\server\share\dir\nul. ") = Ret w /\
    windows_components w = [str "dir"; str "nul. "] /\ SpecialDOSDeviceName w = Ret None.
Proof.
  assert (zlen (str "\\server\share\dir\nul. ") < 2 ^ 32) as Hlen by (vm_compute; reflexivity).
  split; [exact Hlen|].
  destruct (windows_path_spec _ Hlen) as (w & E & _ & _ & _ & _ & _ & _ & Hd). exists w.
  split; [exact E|]. vm_compute in E. injection E as <-. split; [vm_compute; reflexivity|].
  rewrite Hd. vm_compute. reflexivity.
Defined.

(** The Unix and Windows iterators of [PathComponents]. *)
Lemma path_components_iter windows path St (yield : yield_fn gostring St) st :
  zlen path < 2 ^ 32 ->
  exists c, Components windows path = Ret c /\
    Components_iter c yield st =
      Ret (fst (range_yield (if windows then windows_components (cwindows c)
                             else split_parts (fun c => c =? SLASH) [] path) yield st)).
Proof.
  intros Hlen. destruct windows.
  - destruct (parse_windows_prefix_spec path Hlen) as (w & E & Hp & H0 & He & Hc & _).
    exists (MkPathComponents path w PathKind_Windows). unfold Components. rewrite E. split; [done|].
    unfold Components_iter, WindowsComponents. cbn [ckind cwindows]. by rewrite components_spec by (rewrite Hp; lia).
  - eexists. split; [done|]. unfold Components_iter, ComponentsUnix. cbn [ckind cpath].
    pose proof (zlen_nonneg path). by rewrite components_spec by lia.
Qed.

(** The prefix test of [LexicallyContains] rejects children whose first
    component merely starts with two dots. *)
Lemma lexically_contains_rejects_dotdot_names :
  LexicallyContains false (fun a b => bool_decide (a = b)) (str "/root") (str "..config/file") = Ret false /\
  Join false [str "/root"; str "..config/file"] = Ret (str "/root/..config/file") /\
  Rel false (fun a b => bool_decide (a = b)) (str "/root") (str "/root/..config/file") = Ret (Some (str "..config/file")).
Proof. split_and!; vm_compute; reflexivity. Qed.
