(* ===== verification/RelSpec.v ===== *)
(** * [filepath.Rel] and [filepath.Join] on Unix

    [Rel] on two absolute paths computes what the elements say: climb from the
    base to the longest common ancestor, then descend to the target; joining
    the result to the base gives the target back. *)
From S2P Require Import Prelude GoFilepath CleanSpec.

Section rel.
Context (EqualFold : gostring -> gostring -> bool).

(** The elements of an absolute path. *)
Definition abs_elems (s : gostring) : list gostring := normalize true (parts s).
Abbreviation plain := (fun e => elem e /\ e <> [DOT; DOT] /\ e <> [DOT]).

Lemma plain_elems es : Forall plain es -> Forall elem es.
Proof. intros H. eapply Forall_impl; [exact H|]. by intros e (? & _). Qed.

Lemma abs_elems_plain s : Forall plain (abs_elems s).
Proof.
  unfold abs_elems, normalize, state_elems. destruct (normalize_state_ok true s) as [Hu He].
  rewrite Hu by done. cbn [replicate app]. by apply Forall_rev.
Qed.

Lemma clean_abs s : is_rooted s = true -> clean_spec s = [SLASH] ++ join (abs_elems s).
Proof.
  intros Hr. unfold clean_spec. rewrite Hr. by destruct (render_cases true (abs_elems s)) as [(_ & ? & _)|[E _]];
    [apply plain_elems, abs_elems_plain|done|].
Qed.

(** ** Joining *)
Lemma parts_app_slash s t : parts (s ++ SLASH :: t) = parts s ++ parts t.
Proof.
  unfold parts. change (split_parts sep [] (s ++ SLASH :: t) = split_parts sep [] s ++ split_parts sep [] t).
  generalize (@nil Z) at 1 2. induction s as [|d s IH]; intros cur; cbn [app split_parts].
  - change (sep SLASH) with true. by destruct cur.
  - destruct (sep d); [|apply IH]. rewrite IH. by destruct cur.
Qed.

Lemma join_pair_unix a b : a <> [] -> Join false [a; b] = Ret (clean_spec (a ++ SLASH :: b)).
Proof. intros Ha. unfold Join, join_unix. rewrite bool_decide_true by done. by rewrite <- clean_unix_spec. Qed.

Lemma fold_step_abs s : fold_left (step true) (parts s) (MkPath 0 []) = MkPath 0 (rev (abs_elems s)).
Proof.
  unfold abs_elems, normalize, state_elems. destruct (normalize_state_ok true s) as [Hu _].
  destruct (fold_left _ _ _) as [u es]. cbn in *. rewrite Hu by done. cbn. by rewrite rev_involutive.
Qed.

Lemma abs_elems_app s t :
  abs_elems (s ++ SLASH :: t) = rev (elems (fold_left (step true) (parts t) (MkPath 0 (rev (abs_elems s))))).
Proof.
  unfold abs_elems at 1, normalize. rewrite parts_app_slash, fold_left_app, fold_step_abs.
  assert (ups (fold_left (step true) (parts t) (MkPath 0 (rev (abs_elems s)))) = 0%nat) as Hu.
  { eapply ok_ups; [|done]. apply fold_step_ok; [|apply parts_elems].
    split; [done|]. apply Forall_rev, abs_elems_plain. }
  unfold state_elems. by rewrite Hu.
Qed.

(** ** Common prefixes *)
Definition diverge (eb et : list gostring) : Prop :=
  match eb, et with [], [] => True | e :: _, f :: _ => e <> f | _, _ => True end.

Lemma common_prefix (eb et : list gostring) :
  exists c eb' et', eb = c ++ eb' /\ et = c ++ et' /\ diverge eb' et'.
Proof.
  revert et. induction eb as [|e eb IH]; intros et; [exists [], [], et; repeat split; by destruct et|].
  destruct et as [|f et]; [by exists [], (e :: eb), []; repeat split|].
  destruct (decide (e = f)) as [->|Hne]; [|by exists [], (e :: eb), (f :: et)].
  destruct (IH et) as (c & eb' & et' & -> & -> & Hd). by exists (f :: c), eb', et'.
Qed.

(** ** The loop of [Rel] *)
Lemma sep_slash c : sep c = (c =? SLASH).
Proof. apply Z.eqb_sym. Qed.

Lemma skip_element_spec fuel pre a e rest :
  forallb (fun c => negb (sep c)) e = true -> at_break sep rest -> (length e < fuel)%nat ->
  skip_element false fuel (pre ++ a ++ e ++ rest) (zlen pre + zlen a) = Ret (zlen pre + zlen a + zlen e).
Proof.
  intros He Hr. revert fuel a He. induction e as [|c e IH]; intros [|fuel] a He Hf; cbn [length] in Hf; try lia; cbn [skip_element].
  - cbn [app]. change (zlen (@nil Z)) with 0. rewrite Z.add_0_r. destruct rest as [|d rest].
    + rewrite (proj2 (Z.ltb_ge _ _)) by (rewrite !zlen_app; change (zlen (@nil Z)) with 0; lia). done.
    + rewrite (proj2 (Z.ltb_lt _ _)) by (rewrite !zlen_app, zlen_cons; pose proof (zlen_nonneg rest); lia).
      unfold byte_is. rewrite app_assoc, <- zlen_app, <- (Z.add_0_r (zlen (pre ++ a))), index_app_r by lia.
      change (index (d :: rest) 0) with (Ret d). rewrite !bind_ret.
      change (sep d = true) in Hr. change (Separator false) with SLASH. by rewrite <- sep_slash, Hr.
  - cbn [forallb] in He. apply andb_true_iff in He as [Hc He]. apply negb_true_iff in Hc.
    rewrite (proj2 (Z.ltb_lt _ _)) by (rewrite !zlen_app, zlen_cons; pose proof (zlen_nonneg rest);
      pose proof (zlen_nonneg e); lia).
    unfold byte_is. rewrite app_assoc, <- zlen_app, <- (Z.add_0_r (zlen (pre ++ a))), index_app_r by lia.
    change (index ((c :: e) ++ rest) 0) with (Ret c). rewrite !bind_ret.
    change (Separator false) with SLASH. rewrite <- sep_slash, Hc. cbn [negb].
    specialize (IH fuel (a ++ [c]) He ltac:(lia)).
    replace (zlen pre + zlen (a ++ [c])) with (zlen (pre ++ a) + 0 + 1) in IH by (rewrite !zlen_app; change (zlen [c]) with 1; lia).
    replace ((pre ++ a) ++ (c :: e) ++ rest) with (pre ++ (a ++ [c]) ++ e ++ rest) by (by rewrite <- !app_assoc).
    rewrite IH. f_equal. rewrite zlen_app, zlen_cons. lia.
Qed.

Lemma join_cons e es : join (e :: es) = e ++ match es with [] => [] | _ => SLASH :: join es end.
Proof. destruct es; [by rewrite app_nil_r|done]. Qed.

Lemma join_zlen_0 es : Forall plain es -> zlen (join es) = 0 -> es = [].
Proof.
  intros Hp Hz. apply join_nil; [|by apply zlen_0]. eapply Forall_impl; [exact Hp|]. by intros e ((? & _) & _).
Qed.

(** The first element of a list, empty at the end. *)
Definition first (es : list gostring) : gostring := match es with [] => [] | e :: _ => e end.

Lemma skip_first pre es :
  Forall plain es ->
  skip_element false (S (length (pre ++ join es))) (pre ++ join es) (zlen pre) = Ret (zlen pre + zlen (first es)).
Proof.
  intros Hp. destruct es as [|e es].
  - pose proof (skip_element_spec (S (length (pre ++ join []))) pre [] [] []) as H. cbn [app] in H.
    change (zlen (@nil Z)) with 0 in H. rewrite Z.add_0_r, Z.add_0_r in H. cbn [first]. change (zlen (@nil Z)) with 0. rewrite Z.add_0_r.
    apply H; [done|done|]. cbn. lia.
  - inversion Hp as [|? ? ((_ & He) & _) _]; subst. rewrite join_cons. cbn [first].
    pose proof (skip_element_spec (S (length (pre ++ e ++ match es with [] => [] | _ => SLASH :: join es end))) pre [] e
      (match es with [] => [] | _ => SLASH :: join es end) He) as H. cbn [app] in H. change (zlen (@nil Z)) with 0 in H.
    rewrite Z.add_0_r in H. apply H; [by destruct es|]. rewrite !length_app. lia.
Qed.

Lemma slice_first pre es : slice (pre ++ join es) (zlen pre) (zlen pre + zlen (first es)) = Ret (first es).
Proof.
  destruct es as [|e es]; cbn [first].
  - change (join []) with (@nil Z ++ []). apply slice_app_mid.
  - rewrite join_cons. apply slice_app_mid.
Qed.

Lemma skip_sep pre e es :
  exists pre', pre ++ join (e :: es) = pre' ++ join es /\
    (if zlen pre + zlen e <? zlen (pre ++ join (e :: es)) then zlen pre + zlen e + 1 else zlen pre + zlen e) = zlen pre'.
Proof.
  rewrite join_cons. destruct es as [|e' es].
  - exists (pre ++ e). change (join []) with (@nil Z). rewrite !app_nil_r. split; [done|].
    rewrite zlen_app, Z.ltb_irrefl. done.
  - exists (pre ++ e ++ [SLASH]). rewrite <- !app_assoc. split; [done|].
    rewrite !zlen_app, zlen_cons. change (zlen [SLASH]) with 1. pose proof (zlen_nonneg (join (e' :: es))).
    rewrite (proj2 (Z.ltb_lt _ _)) by lia. lia.
Qed.

(** The loop stops where the elements differ. *)
Lemma Rel_loop_spec c eb et pb pt fuel :
  Forall plain (c ++ eb) -> Forall plain (c ++ et) -> eb <> et -> diverge eb et -> (length c < fuel)%nat ->
  exists pb' pt', pb ++ join (c ++ eb) = pb' ++ join eb /\ pt ++ join (c ++ et) = pt' ++ join et /\
    Rel_loop false EqualFold fuel (pb ++ join (c ++ eb)) (pt ++ join (c ++ et)) (zlen pb) (zlen pb) (zlen pt) (zlen pt) =
      Ret (Differ (zlen pb') (zlen pb' + zlen (first eb)) (zlen pt')).
Proof.
  intros Hb Ht Hne Hd. revert fuel pb pt. induction c as [|e c IH]; intros [|fuel] pb pt Hf; cbn [length] in Hf; try lia.
  - cbn [app] in *. exists pb, pt. split; [done|]. split; [done|]. cbn [Rel_loop].
    rewrite !skip_first, !bind_ret, !slice_first, !bind_ret by done.
    assert (sameWord false EqualFold (first et) (first eb) = false) as ->; [|done].
    apply bool_decide_false. inversion Hb as [|? ? ((? & _) & _) _]; inversion Ht as [|? ? ((? & _) & _) _]; subst; cbn in *; congruence.
  - cbn [app] in Hb, Ht |- *. apply Forall_cons in Hb as [He Hb]. apply Forall_cons in Ht as [_ Ht].
    destruct (skip_sep pb e (c ++ eb)) as (pb' & Eb & Nb). destruct (skip_sep pt e (c ++ et)) as (pt' & Et & Nt).
    destruct (IH Hb Ht fuel pb' pt') as (pb2 & pt2 & E1 & E2 & HR); [lia|]. exists pb2, pt2.
    split; [by rewrite Eb|]. split; [by rewrite Et|]. cbn [Rel_loop].
    rewrite !skip_first, !bind_ret, !slice_first, !bind_ret by (by constructor). cbn [first].
    assert (sameWord false EqualFold e e = true) as -> by (by apply bool_decide_true). cbn [negb]. rewrite Nb, Nt, Eb, Et.
    destruct (Z.eqb_spec (zlen pb') (zlen (pb' ++ join (c ++ eb)))) as [Z1|]; [|exact HR].
    destruct (Z.eqb_spec (zlen pt') (zlen (pt' ++ join (c ++ et)))) as [Z2|]; [|exact HR].
    exfalso. rewrite zlen_app in Z1, Z2. apply Hne. apply (app_inv_head c).
    rewrite (join_zlen_0 (c ++ eb)), (join_zlen_0 (c ++ et)); [done|done|lia|done|lia].
Qed.

(** ** The two functions *)
Lemma VolumeName_unix p : VolumeName false p = Ret [].
Proof. unfold VolumeName. cbn. unfold slice_to, slice. cbn. rewrite (proj2 (Z.leb_le 0 _)) by apply zlen_nonneg. done. Qed.

Lemma dotdots_join n es :
  [DOT; DOT] ++ dotdots false n ++ match es with [] => [] | _ => SLASH :: join es end
    = join (replicate (S n) [DOT; DOT] ++ es).
Proof.
  induction n as [|n IH]; cbn [dotdots replicate app]; rewrite join_cons; [done|].
  cbn [replicate app] in *. by rewrite <- IH.
Qed.

Lemma count_join e es :
  elem e -> Forall elem es -> count_byte (join (e :: es)) SLASH = length es.
Proof.
  intros He Hes. unfold count_byte.
  assert (forall e, elem e -> List.filter (fun x => x =? SLASH) e = []) as Hel.
  { intros e' [_ H]. clear -H. induction e' as [|c e' IH]; [done|]. cbn [forallb List.filter] in *.
    apply andb_true_iff in H as [Hc H]. rewrite sep_slash in Hc. destruct (c =? SLASH); [done|]. auto. }
  revert e He. induction Hes as [|f es Hf Hes IH]; intros e He; rewrite join_cons, List.filter_app, Hel by done; [done|].
  cbn [app List.filter length]. change (SLASH =? SLASH) with true. cbn [length]. by rewrite IH.
Qed.

(** The steps from the base to the target, from the common ancestor [c]. *)
Definition rel_elems (eb et : list gostring) : list gostring := replicate (length eb) [DOT; DOT] ++ et.

Lemma normalize_rel eb et : Forall plain et -> normalize false (rel_elems eb et) = rel_elems eb et.
Proof.
  intros Hp. unfold normalize, rel_elems. rewrite fold_left_app, fold_step_dotdots, fold_step_elems by done.
  unfold state_elems. cbn [ups elems]. by rewrite app_nil_r, rev_involutive, Nat.add_0_r.
Qed.

Lemma join_length es : Forall plain es -> (length es <= length (join es))%nat.
Proof.
  induction 1 as [|e es ((Hne & _) & _) _ IH]; [done|]. rewrite join_cons, length_app. cbn [length].
  destruct e; [done|]. destruct es; cbn [length] in *; lia.
Qed.

Lemma Rel_loop_rooted c eb et :
  Forall plain (c ++ eb) -> Forall plain (c ++ et) -> eb <> et -> diverge eb et ->
  let base := [SLASH] ++ join (c ++ eb) in let targ := [SLASH] ++ join (c ++ et) in
  exists pb pt, base = pb ++ join eb /\ targ = pt ++ join et /\
    Rel_loop false EqualFold (S (length base + length targ)) base targ 0 0 0 0 =
      Ret (Differ (zlen pb) (zlen pb + zlen (first eb)) (zlen pt)).
Proof.
  intros Hb Ht Hne Hd base targ.
  destruct (Rel_loop_spec c eb et [SLASH] [SLASH] (length base + length targ) Hb Ht Hne Hd) as (pb & pt & E1 & E2 & HR).
  { pose proof (join_length _ Hb) as Hl. unfold base. rewrite length_app in *. cbn [length]. lia. }
  exists pb, pt. split; [done|]. split; [done|]. cbn [Rel_loop].
  assert (forall es, skip_element false (S (length ([SLASH] ++ join es))) ([SLASH] ++ join es) 0 = Ret 0) as Hskip.
  { intros es. cbn [skip_element]. rewrite zlen_app. change (zlen [SLASH]) with 1. pose proof (zlen_nonneg (join es)).
    rewrite (proj2 (Z.ltb_lt _ _)) by lia. done. }
  unfold base, targ. rewrite !Hskip, !bind_ret.
  assert (forall es, slice ([SLASH] ++ join es) 0 0 = Ret []) as Hnil by (intros es; apply (slice_app_mid [] [])).
  rewrite !Hnil, !bind_ret. change (sameWord false EqualFold [] []) with true. cbn [negb].
  pose proof (zlen_nonneg (join (c ++ eb))). pose proof (zlen_nonneg (join (c ++ et))).
  assert (forall l : gostring, zlen ([SLASH] ++ l) = 1 + zlen l) as Hz by (intros l; rewrite zlen_app; done).
  rewrite !Hz, !(proj2 (Z.ltb_lt 0 _)) by lia.
  destruct (Z.eqb_spec (0 + 1) (1 + zlen (join (c ++ eb)))) as [Z1|]; [|exact HR].
  destruct (Z.eqb_spec (0 + 1) (1 + zlen (join (c ++ et)))) as [Z2|]; [|exact HR].
  exfalso. apply Hne, (app_inv_head c). rewrite (join_zlen_0 (c ++ eb)), (join_zlen_0 (c ++ et)); [done|done|lia|done|lia].
Qed.

Lemma clean_join es : Forall elem es -> es <> [] -> Clean false (join es) = Ret (render false (normalize false es)).
Proof.
  intros He Hne. rewrite clean_unix_spec. unfold clean_spec. change (join es) with (body false es).
  rewrite is_rooted_body by (by auto). by rewrite parts_body.
Qed.

Lemma rel_elems_elem eb et : Forall plain et -> Forall elem (rel_elems eb et).
Proof. intros Ht. apply Forall_app. split; [by apply Forall_replicate|by apply plain_elems]. Qed.

Lemma Rel_abs b t :
  is_rooted b = true -> is_rooted t = true ->
  exists c eb et, abs_elems b = c ++ eb /\ abs_elems t = c ++ et /\ diverge eb et /\
    Rel false EqualFold b t = Ret (Some (render false (rel_elems eb et))).
Proof.
  intros Hrb Hrt. destruct (common_prefix (abs_elems b) (abs_elems t)) as (c & eb & et & Eb & Et & Hd).
  exists c, eb, et. split; [done|]. split; [done|]. split; [done|].
  pose proof (abs_elems_plain b) as Hb. pose proof (abs_elems_plain t) as Ht. rewrite Eb in Hb. rewrite Et in Ht.
  unfold Rel. rewrite !VolumeName_unix, !clean_unix_spec, !bind_ret, !clean_abs, Eb, Et by done.
  assert (sameWord false EqualFold ([SLASH] ++ join (c ++ et)) ([SLASH] ++ join (c ++ eb)) = bool_decide (eb = et)) as ->.
  { apply bool_decide_ext. split; [|by intros ->]. intros H%(app_inv_head [SLASH]%list).
    apply (f_equal parts) in H. rewrite !parts_join in H by (by apply plain_elems). by apply app_inv_head in H. }
  case_bool_decide as Hne.
  { subst et. assert (eb = []) as -> by (destruct eb; done). done. }
  change (zlen (@nil Z)) with 0. rewrite !slice_from_in_range by (pose proof (zlen_nonneg ([SLASH] ++ join (c ++ eb)));
    pose proof (zlen_nonneg ([SLASH] ++ join (c ++ et))); lia).
  change (drop (Z.to_nat 0) ?l) with l. rewrite !bind_ret. change (volumeNameLen false []) with (Ret 0). rewrite bind_ret.
  rewrite (bool_decide_false ([SLASH] ++ join (c ++ eb) = [DOT])) by done.
  rewrite (bool_decide_false ([SLASH] ++ join (c ++ eb) = [])) by done. cbn [andb].
  assert (forall es, (Ret (0 <? zlen ([SLASH] ++ join es)) &&& byte_is ([SLASH] ++ join es) 0 (Separator false)) = Ret true) as Hs.
  { intros es. rewrite zlen_app. change (zlen [SLASH]) with 1. pose proof (zlen_nonneg (join es)).
    rewrite (proj2 (Z.ltb_lt _ _)) by lia. done. }
  rewrite !Hs, !bind_ret. change (negb (Bool.eqb true true) || negb (sameWord false EqualFold [] [])) with false. cbv iota.
  destruct (Rel_loop_rooted c eb et Hb Ht Hne Hd) as (pb & pt & -> & -> & ->). rewrite bind_ret.
  apply Forall_app in Hb as [_ Hb]. apply Forall_app in Ht as [_ Ht].
  rewrite slice_first, bind_ret. fold (slice_from (pb ++ join eb) (zlen pb)).
  rewrite !slice_from_app_r, !bind_ret.
  rewrite bool_decide_false by (destruct Hb as [|e eb' (_ & ? & _)]; done).
  destruct eb as [|e eb].
  - change (join []) with (@nil Z). rewrite app_nil_r, Z.eqb_refl. cbn [negb]. do 2 f_equal. change (rel_elems [] et) with et.
    destruct (render_cases false et) as [(_ & _ & ->)|[-> _]]; [by apply plain_elems|done|done].
  - assert ((zlen pb =? zlen (pb ++ join (e :: eb))) = false) as ->.
    { apply Z.eqb_neq. rewrite zlen_app. intros Hz. by apply (join_zlen_0 (e :: eb)) in Hb; [|lia]. }
    cbn [negb]. apply Forall_cons in Hb as [(He & _) Hb]. rewrite count_join by (done || by apply plain_elems).
    assert ((if negb (zlen pt =? zlen (pt ++ join et)) then [SLASH] ++ join et else []) =
            match et with [] => [] | _ => SLASH :: join et end) as Htail.
    { rewrite zlen_app. destruct et as [|f et]; [by rewrite Z.add_0_r, Z.eqb_refl|].
      destruct (Z.eqb_spec (zlen pt) (zlen pt + zlen (join (f :: et)))); [|done].
      by apply (join_zlen_0 (f :: et)) in Ht; [|lia]. }
    change (Separator false) with SLASH. rewrite Htail, dotdots_join. change (replicate (S (length eb)) [DOT; DOT] ++ et) with (rel_elems (e :: eb) et).
    rewrite clean_join, bind_ret, normalize_rel by (done || by apply rel_elems_elem). done.
Qed.

(** Joining the relative path to the base climbs to the common ancestor and descends to the target. *)
Lemma fold_step_pop eb acc :
  fold_left (step true) (replicate (length eb) [DOT; DOT]) (MkPath 0 (rev eb ++ acc)) = MkPath 0 acc.
Proof.
  induction eb as [|e eb IH] using rev_ind; [done|].
  rewrite length_app, Nat.add_comm, rev_app_distr. cbn [length Nat.add replicate fold_left rev app].
  unfold step at 2. rewrite bool_decide_false by done. exact IH.
Qed.

Lemma parts_rel eb et :
  Forall plain et ->
  fold_left (step true) (parts (render false (rel_elems eb et))) = fold_left (step true) (rel_elems eb et).
Proof.
  intros Ht. pose proof (rel_elems_elem eb et Ht) as He.
  destruct (render_cases false _ He) as [(-> & _ & ->)|(-> & _)]; [done|]. by rewrite parts_body.
Qed.

Lemma Join_Rel_abs b t c eb et :
  is_rooted b = true -> abs_elems b = c ++ eb -> abs_elems t = c ++ et ->
  Join false [b; render false (rel_elems eb et)] = Ret ([SLASH] ++ join (abs_elems t)).
Proof.
  intros Hr Eb Et. pose proof (abs_elems_plain t) as Ht. rewrite Et in Ht. apply Forall_app in Ht as [_ Ht].
  rewrite join_pair_unix by (by destruct b). rewrite clean_abs by (by destruct b). do 3 f_equal.
  rewrite abs_elems_app, Eb, Et, parts_rel by done. unfold rel_elems.
  rewrite fold_left_app, rev_app_distr, fold_step_pop, fold_step_elems by done. cbn [elems].
  by rewrite rev_app_distr, !rev_involutive.
Qed.

(** ** Main theorem *)

(** C40: on absolute Unix paths [Rel] succeeds and returns as many ".." as the
    base has elements below the longest common ancestor, then the remaining
    elements of the target, and joining that path to the base gives the cleaned
    target. *)
Theorem rel_join_roundtrip (b t : gostring) (Hb : is_rooted b = true) (Ht : is_rooted t = true) :
  exists r c eb et,
    Rel false EqualFold b t = Ret (Some r) /\
    abs_elems b = c ++ eb /\ abs_elems t = c ++ et /\ diverge eb et /\
    r = render false (replicate (length eb) [DOT; DOT] ++ et) /\
    Join false [b; r] = Clean false t.
Proof.
  destruct (Rel_abs b t Hb Ht) as (c & eb & et & Eb & Et & Hd & HR).
  exists (render false (rel_elems eb et)), c, eb, et. split_and!; try done.
  rewrite (Join_Rel_abs b t c eb et) by done. by rewrite clean_unix_spec, clean_abs.
Qed.
End rel.

Lemma rel_join_roundtrip_witness :
  is_rooted (str "/a/b/c") = true /\
  exists r, Rel false (fun _ _ => false) (str "/a/b/c") (str "/a/d//") = Ret (Some r) /\
    Join false [str "/a/b/c"; r] = Clean false (str "/a/d//").
Proof.
  split; [reflexivity|].
  destruct (rel_join_roundtrip (fun _ _ => false) (str "/a/b/c") (str "/a/d//") eq_refl eq_refl)
    as (r & c & eb & et & HR & _ & _ & _ & _ & HJ).
  exists r. split; [exact HR|exact HJ].
Defined.
