(* ===== verification/PathTypes.v ===== *)
(** * Typed paths ([core/pathx/pathx.go], [core/pathx/errors.go],
    [fsx/fsx_name/name.go], [fsx/fsx_name/base_name.go])

    [AbsPath], [RelPath], [RootRelPath] and [Name] with all their operations.
    [windows] is [runtime.GOOS == "windows"]; [EqualFold] is the Unicode case
    folding that [filepath.Rel] uses on Windows; [quote] is the [strconv.Quote]
    that the error formatter and the [%q] verb write. *)
From S2P Require Import Prelude Core Iterx Formatter GoFilepath Lexical PathComponents.
#[local] Open Scope Z_scope.

(** [strings.Compare]: the bytewise order. *)
Fixpoint strings_Compare (a b : gostring) : Z :=
  match a, b with
  | [], [] => 0
  | [], _ => -1
  | _, [] => 1
  | x :: a, y :: b => if x <? y then -1 else if y <? x then 1 else strings_Compare a b
  end.
(** [strings.CutPrefix]. *)
Definition strings_CutPrefix (s prefix : gostring) : gostring * bool :=
  if has_prefix s prefix then (drop (length prefix) s, true) else (s, false).

(** [strings.Split] and [strings.SplitSeq] for a separator of one byte. *)
Fixpoint split_on (c : Z) (s : gostring) : list gostring :=
  match s with
  | [] => [[]]
  | x :: s =>
      if x =? c then [] :: split_on c s
      else match split_on c s with p :: ps => (x :: p) :: ps | [] => [[x]] end
  end.

Section pathtypes.
Context (windows : bool) (EqualFold : gostring -> gostring -> bool) (quote : gostring -> gostring).
Abbreviation IsPathSeparator := (Lexical.IsPathSeparator windows).

(** ** Names *)
Record Name := MkName { nvalue : gostring }.
Inductive ParseErrorKind := ParseErrorKind_EmptyName | ParseErrorKind_HasPathSeparators | ParseErrorKind_Other (k : Z).
Record NameParseError := MkNameParseError { nkind : ParseErrorKind; nname : gostring }.

Definition Name_String (n : Name) : gostring := nvalue n.
Definition Name_Compare (n p : Name) : Z := strings_Compare (nvalue n) (nvalue p).

Definition hasPathSeparators (s : gostring) : bool :=
  if windows then existsb (fun c => (c =? BACKSLASH) || (c =? SLASH)) s else existsb (fun c => c =? SLASH) s.

Definition Name_Parse (s : gostring) : Name + NameParseError :=
  match s with
  | [] => inr (MkNameParseError ParseErrorKind_EmptyName [])
  | _ => if hasPathSeparators s then inr (MkNameParseError ParseErrorKind_HasPathSeparators s) else inl (MkName s)
  end.
Definition Name_New (s : gostring) : go Name :=
  match Name_Parse s with inl n => Ret n | inr _ => _ ← Precondition false; Ret (MkName []) end.

Definition NameParseError_Name (e : NameParseError) : go gostring :=
  _ ← Precondition (match nkind e with ParseErrorKind_HasPathSeparators => true | _ => false end); Ret (nname e).
Definition NameParseError_Error (e : NameParseError) : go gostring :=
  match nkind e with
  | ParseErrorKind_EmptyName => Ret (str "empty file/directory name")
  | ParseErrorKind_HasPathSeparators => Ret (str "name " ++ quote (nname e) ++ str " contains path separator(s)")
  | ParseErrorKind_Other _ => PanicUnknownCase
  end.

Inductive BaseNameErrorKind :=
  | BaseNameErrorKind_EmptyString | BaseNameErrorKind_EndsWithPathSeparator | BaseNameErrorKind_NoBaseName
  | BaseNameErrorKind_Other (k : Z).
Record BaseNameError := MkBaseNameError { bkind : BaseNameErrorKind; bpath : gostring }.

Definition ExtractBaseName (path : gostring) : go (Name + BaseNameError) :=
  if bool_decide (path = []) then Ret (inr (MkBaseNameError BaseNameErrorKind_EmptyString path))
  else
    c ← index path (zlen path - 1);
    if PathComponents.IsPathSeparator windows c then Ret (inr (MkBaseNameError BaseNameErrorKind_EndsWithPathSeparator path))
    else
      cs ← Components windows path;
      base ← Components_iter cs (fun component _ => (component, true)) [];
      if bool_decide (base = [DOT]) || bool_decide (base = [DOT; DOT]) || bool_decide (base = []) then
        Ret (inr (MkBaseNameError BaseNameErrorKind_NoBaseName path))
      else Ret (inl (MkName base)).

Definition BaseNameError_Error (e : BaseNameError) : go gostring :=
  match bkind e with
  | BaseNameErrorKind_EmptyString => Ret (str "cannot extract base name from empty path string")
  | BaseNameErrorKind_EndsWithPathSeparator =>
      Ret (str "path " ++ quote (bpath e) ++ str " ends with a path separator; cannot extract base name")
  | BaseNameErrorKind_NoBaseName => Ret (str "path " ++ quote (bpath e) ++ str " has no concrete base name")
  | BaseNameErrorKind_Other _ => PanicUnknownCase
  end.
(** [assert.Precondition(false, err.Error())]: the message is computed first. *)
Definition MustExtractBaseName (path : gostring) : go Name :=
  r ← ExtractBaseName path;
  match r with inl n => Ret n | inr e => _ ← BaseNameError_Error e; _ ← Precondition false; Ret (MkName []) end.

(** ** Parse errors *)
Inductive AbsPathParseErrorKind :=
  AbsPathParseErrorKind_Empty | AbsPathParseErrorKind_NotAbsolute | AbsPathParseErrorKind_Other (k : Z).
Record AbsPathParseError := MkAbsPathParseError { akind : AbsPathParseErrorKind; ainputPath : gostring }.
Definition NewAbsPathParseError (kind : AbsPathParseErrorKind) (inputPath : gostring) : go AbsPathParseError :=
  _ ← match kind with
      | AbsPathParseErrorKind_Empty => Precondition (bool_decide (inputPath = []))
      | AbsPathParseErrorKind_NotAbsolute => Precondition (bool_decide (inputPath <> []))
      | AbsPathParseErrorKind_Other _ => PanicUnknownCase
      end;
  Ret (MkAbsPathParseError kind inputPath).
(** [FormatError]: the calls it makes; [Error] renders them. *)
Definition AbsPathParseError_FormatError (e : AbsPathParseError) : go (list (@call Empty_set)) :=
  match akind e with
  | AbsPathParseErrorKind_Empty => Ret [FormatConstMsg (str "empty absolute path")]
  | AbsPathParseErrorKind_NotAbsolute =>
      Ret [FormatConstMsg (str "not an absolute path"); FormatDynamic ValueKind_Path (str "input") (ainputPath e)]
  | AbsPathParseErrorKind_Other _ => PanicUnknownCase
  end.

Inductive RelPathParseErrorKind :=
  RelPathParseErrorKind_Empty | RelPathParseErrorKind_NotRelative | RelPathParseErrorKind_Other (k : Z).
Record RelPathParseError := MkRelPathParseError { rpkind : RelPathParseErrorKind; rinputPath : gostring }.
Definition NewRelPathParseError (kind : RelPathParseErrorKind) (inputPath : gostring) : go RelPathParseError :=
  _ ← match kind with
      | RelPathParseErrorKind_Empty => Precondition (bool_decide (inputPath = []))
      | RelPathParseErrorKind_NotRelative => Precondition (bool_decide (inputPath <> []))
      | RelPathParseErrorKind_Other _ => PanicUnknownCase
      end;
  Ret (MkRelPathParseError kind inputPath).
Definition RelPathParseError_FormatError (e : RelPathParseError) : go (list (@call Empty_set)) :=
  match rpkind e with
  | RelPathParseErrorKind_Empty => Ret [FormatConstMsg (str "empty relative path")]
  | RelPathParseErrorKind_NotRelative =>
      Ret [FormatConstMsg (str "not a relative path"); FormatDynamic ValueKind_Path (str "input") (rinputPath e)]
  | RelPathParseErrorKind_Other _ => PanicUnknownCase
  end.

(** A new formatter, the calls, [Finish]. *)
Definition format_calls (calls : go (list (@call Empty_set))) : go gostring :=
  cs ← calls;
  f ← run_calls quote (fun x : Empty_set => match x with end) 1%positive (NewStableFormatter 1%positive) cs;
  '(s, _) ← Finish 1%positive f; Ret s.
Definition AbsPathParseError_Error (e : AbsPathParseError) : go gostring := format_calls (AbsPathParseError_FormatError e).
Definition RelPathParseError_Error (e : RelPathParseError) : go gostring := format_calls (RelPathParseError_FormatError e).

(** ** Absolute paths *)
Record AbsPath := MkAbsPath { avalue : gostring }.

Definition ParseAbsPath (path : gostring) : go (AbsPath + AbsPathParseError) :=
  if bool_decide (path = []) then e ← NewAbsPathParseError AbsPathParseErrorKind_Empty path; Ret (inr e)
  else
    abs ← IsAbs windows path;
    if negb abs then e ← NewAbsPathParseError AbsPathParseErrorKind_NotAbsolute path; Ret (inr e)
    else v ← LexicallyNormalize windows path; Ret (inl (MkAbsPath v)).

Definition MustParseAbsPath (path : gostring) : go AbsPath :=
  r ← ParseAbsPath path;
  match r with
  | inl p => Ret p
  | inr e =>
      _ ← match akind e with
          | AbsPathParseErrorKind_Empty => Precondition false
          | AbsPathParseErrorKind_NotAbsolute => Precondition false
          | AbsPathParseErrorKind_Other _ => PanicUnknownCase
          end;
      Ret (MkAbsPath [])
  end.

Definition AbsPath_String (p : AbsPath) : gostring := avalue p.
Definition AbsPath_Compare (p other : AbsPath) : Z := strings_Compare (avalue p) (avalue other).

Definition AbsPath_rootLen (p : AbsPath) : go Z :=
  vol ← VolumeName windows (avalue p);
  let rootLen := zlen vol in
  b ← (Ret (rootLen <? zlen (avalue p))) &&& (c ← index (avalue p) rootLen; Ret (IsPathSeparator c));
  Ret (if (b : bool) then rootLen + 1 else rootLen).

(** The last separator at or after [rootLen]. *)
Fixpoint Dir_loop (fuel : nat) (value : gostring) (rootLen lastSep : Z) : go Z :=
  match fuel with
  | O => OutOfFuel
  | S fuel =>
      more ← (Ret (rootLen <=? lastSep)) &&& (c ← index value lastSep; Ret (negb (IsPathSeparator c)));
      if (more : bool) then Dir_loop fuel value rootLen (lastSep - 1) else Ret lastSep
  end.
Definition AbsPath_Dir (p : AbsPath) : go (option AbsPath) :=
  rootLen ← AbsPath_rootLen p;
  let value := avalue p in
  if zlen value =? rootLen then Ret None
  else
    c ← index value (zlen value - 1);
    if IsPathSeparator c then v ← slice_to value (zlen value - 1); Ret (Some (MkAbsPath v))
    else
      lastSep ← Dir_loop (S (length value)) value rootLen (zlen value - 1);
      if lastSep <? rootLen then v ← slice_to value rootLen; Ret (Some (MkAbsPath v))
      else v ← slice_to value lastSep; Ret (Some (MkAbsPath v)).

Definition AbsPath_Split (p : AbsPath) : go (AbsPath * Name) :=
  '(dir, file) ← Split windows (avalue p);
  d ← MustParseAbsPath dir;
  n ← Name_New file;
  Ret (d, n).

(** The loop of both [Ancestors] methods, from byte [i] on. *)
Fixpoint Ancestors_loop {St} (fuel : nat) (value : gostring) (i : Z) (yield : yield_fn gostring St) (st : St) : go St :=
  match fuel with
  | O => OutOfFuel
  | S fuel =>
      if i <? zlen value then
        c ← index value i;
        if negb (IsPathSeparator c) then Ancestors_loop fuel value (i + 1) yield st
        else if i =? zlen value - 1 then Ret st
        else
          v ← slice_to value i;
          let '(st, continue) := yield v st in
          if negb continue then Ret st else Ancestors_loop fuel value (i + 1) yield st
      else Ret st
  end.
Definition AbsPath_Ancestors (p : AbsPath) : Seq AbsPath := fun St yield st =>
  rootLen ← AbsPath_rootLen p;
  Ancestors_loop (S (length (avalue p))) (avalue p) rootLen (fun v => yield (MkAbsPath v)) st.

(** ** Relative paths *)
Record RelPath := MkRelPath { rvalue : gostring }.
Definition Dot : RelPath := MkRelPath (str ".").

Definition ParseRelPath (path : gostring) : go (RelPath + RelPathParseError) :=
  if bool_decide (path = []) then e ← NewRelPathParseError RelPathParseErrorKind_Empty path; Ret (inr e)
  else
    abs ← IsAbs windows path;
    if (abs : bool) then e ← NewRelPathParseError RelPathParseErrorKind_NotRelative path; Ret (inr e)
    else v ← LexicallyNormalize windows path; Ret (inl (MkRelPath v)).

Definition MustParseRelPath (path : gostring) : go RelPath :=
  r ← ParseRelPath path;
  match r with
  | inl p => Ret p
  | inr e =>
      _ ← match rpkind e with
          | RelPathParseErrorKind_Empty => Precondition false
          | RelPathParseErrorKind_NotRelative => Precondition false
          | RelPathParseErrorKind_Other _ => PanicUnknownCase
          end;
      Ret (MkRelPath [])
  end.

Definition RelPath_String (p : RelPath) : gostring := rvalue p.
Definition RelPath_Compare (p other : RelPath) : Z := strings_Compare (rvalue p) (rvalue other).

Definition RelPath_Dir (p : RelPath) : go (option RelPath) :=
  parent ← Dir windows (rvalue p);
  if bool_decide (parent = rvalue p) || bool_decide (parent = str ".") then Ret None
  else q ← MustParseRelPath parent; Ret (Some q).

Definition RelPath_Join (p rel : RelPath) : go RelPath :=
  j ← Join windows [rvalue p; rvalue rel]; MustParseRelPath j.

Definition RelPath_RelativeTo (p base : RelPath) : go RelPath :=
  if bool_decide (rvalue base = str ".") then Ret p
  else
    let '(suffix, ok) := strings_CutPrefix (rvalue p) (rvalue base) in
    _ ← Precondition ok;
    if bool_decide (suffix = []) then Ret Dot
    else
      c ← index suffix 0;
      _ ← Precondition (IsPathSeparator c);
      v ← slice_from suffix 1; Ret (MkRelPath v).

Definition RelPath_JoinOne (p : RelPath) (name : Name) : go RelPath :=
  j ← Join windows [rvalue p; Name_String name]; MustParseRelPath j.

Definition HasPathSeparators (s : gostring) : bool := existsb IsPathSeparator s.

(** The preconditions of the two [JoinComponents], in order. *)
Fixpoint check_components (pathElems : list gostring) : go unit :=
  match pathElems with
  | [] => Ret tt
  | e :: pathElems => _ ← Precondition (negb (HasPathSeparators e)); check_components pathElems
  end.
Definition RelPath_JoinComponents (p : RelPath) (pathElems : list gostring) : go RelPath :=
  _ ← check_components pathElems;
  j ← Join windows (rvalue p :: pathElems); MustParseRelPath j.

Definition RelPath_Ancestors (p : RelPath) : Seq RelPath := fun St yield st =>
  if bool_decide (rvalue p = str ".") then Ret st
  else Ancestors_loop (S (length (rvalue p))) (rvalue p) 0 (fun v => yield (MkRelPath v)) st.

Definition RelPath_Components (p : RelPath) : Seq gostring := fun St yield st =>
  cs ← Components windows (rvalue p); Components_iter cs yield st.

(** The loop body, on the depth and the value returned so far. *)
Definition contains_step : yield_fn gostring (Z * bool) := fun component '(depth, ret) =>
  if bool_decide (component = [DOT]) then ((depth, ret), true)
  else if bool_decide (component = [DOT; DOT]) then
    if depth =? 0 then ((depth, false), false) else ((depth - 1, ret), true)
  else ((depth + 1, ret), true).
Definition RelPath_lexicallyContainsUnix (p : RelPath) : go bool :=
  '(_, ret) ← RelPath_Components p (Z * bool)%type contains_step (0, true); Ret ret.

(** ** The other operations of absolute paths *)
Definition escapes (rel : gostring) : bool :=
  bool_decide (rel = [DOT; DOT]) || has_prefix rel ([DOT; DOT] ++ [Separator windows]).

Definition AbsPath_lexicallyContainsSlow (p : AbsPath) (child : RelPath) : go bool :=
  j ← Join windows [avalue p; rvalue child];
  rel ← Rel windows EqualFold (avalue p) j;
  Ret (match rel with Some rel => negb (escapes rel) | None => false end).
Definition AbsPath_LexicallyContains (p : AbsPath) (child : RelPath) : go bool :=
  if windows then AbsPath_lexicallyContainsSlow p child else RelPath_lexicallyContainsUnix child.

Definition AbsPath_Join (p : AbsPath) (rel : RelPath) : go AbsPath :=
  j ← Join windows [avalue p; rvalue rel]; MustParseAbsPath j.

Definition AbsPath_AppendExtension (p : AbsPath) (ext : gostring) : go AbsPath :=
  _ ← (if zlen (avalue p) =? 0 then Precondition false
       else lastCharStr ← slice_from (avalue p) (zlen (avalue p) - 1); Precondition (negb (HasPathSeparators lastCharStr)));
  MustParseAbsPath (avalue p ++ ext).

Definition AbsPath_JoinComponents (p : AbsPath) (pathElems : list gostring) : go AbsPath :=
  _ ← check_components pathElems;
  j ← Join windows (avalue p :: pathElems); MustParseAbsPath j.

(** ** Paths anchored at a root *)
Record RootRelPath := MkRootRelPath { rroot : AbsPath; rrvalue : RelPath }.

Definition NewRootRelPath (root : AbsPath) (subpath : RelPath) : go RootRelPath :=
  ok ← AbsPath_LexicallyContains root subpath;
  _ ← Precondition ok;
  Ret (MkRootRelPath root subpath).

Definition AbsPath_MakeRelativeTo (p root : AbsPath) : go (option RootRelPath) :=
  rel ← Rel windows EqualFold (avalue root) (avalue p);
  match rel with
  | None => Ret None
  | Some rel =>
      if escapes rel then Ret None
      else r ← MustParseRelPath rel; q ← NewRootRelPath root r; Ret (Some q)
  end.

Definition RootRelPath_String (p : RootRelPath) : gostring := rvalue (rrvalue p).
Definition RootRelPath_Compare (p other : RootRelPath) : Z :=
  let c := AbsPath_Compare (rroot p) (rroot other) in
  if negb (c =? 0) then c else RelPath_Compare (rrvalue p) (rrvalue other).
Definition AsAbsPath (p : RootRelPath) : go AbsPath := AbsPath_Join (rroot p) (rrvalue p).
Definition RootRelPath_Rel (p : RootRelPath) : RelPath := rrvalue p.
End pathtypes.
