(* ===== verification/PathLaws.v ===== *)
(** * The laws of typed paths on Unix

    A well-formed [AbsPath] is a list of plain elements with an optional
    trailing separator; a well-formed [RelPath] is a number of ".." followed by
    plain elements.  Each operation of PathTypes is computed on these lists. *)
From S2P Require Import Prelude Core Iterx Formatter GoFilepath CleanSpec Lexical PathComponents RelSpec PathTypes.
#[local] Open Scope Z_scope.

Abbreviation plain := (fun e => elem e /\ e <> [DOT; DOT] /\ e <> [DOT]).

(** ** Representations *)
Definition trail (tr : bool) : gostring := if tr then [SLASH] else [].
Definition abs_path (es : list gostring) (tr : bool) : AbsPath := MkAbsPath ([SLASH] ++ join es ++ trail tr).
Definition climb (n : nat) (es : list gostring) : list gostring := replicate n [DOT; DOT] ++ es.
Definition rel_path (n : nat) (es : list gostring) (tr : bool) : RelPath :=
  MkRelPath (render false (climb n es) ++ trail tr).

(** A trailing separator is kept only after a name, or after two or more "..". *)
Record wf_abs (p : AbsPath) (es : list gostring) (tr : bool) : Prop := {
  wa_plain : Forall plain es; wa_trail : tr = true -> es <> []; wa_path : p = abs_path es tr }.
Record wf_rel (p : RelPath) (n : nat) (es : list gostring) (tr : bool) : Prop := {
  wr_plain : Forall plain es; wr_trail : tr = true -> es <> [] \/ (2 <= n)%nat; wr_path : p = rel_path n es tr }.

Lemma join_not_nil es : Forall elem es -> es <> [] -> join es <> [].
Proof. intros He Hne Hj. apply Hne, join_nil; [|done]. eapply Forall_impl; [exact He|]. by intros e [? _]. Qed.

Lemma join_unsnoc es e : exists pre, [SLASH] ++ join (es ++ [e]) = pre ++ [SLASH] ++ e /\
  pre = match es with [] => [] | _ => [SLASH] ++ join es end.
Proof. rewrite join_snoc. destruct es as [|e0 es]; eexists; (split; [|reflexivity]); [done|]. by rewrite <- app_assoc. Qed.

Lemma join_no_trailing es : Forall elem es -> trailing (join es) = false.
Proof.
  destruct es as [|e es _] using rev_ind; [done|]. intros He. apply Forall_app in He as [_ He].
  apply Forall_cons in He as [[Hne He] _]. unfold trailing. rewrite join_last.
  destruct (last e) as [c|] eqn:El; [|by apply last_None in El]. rewrite last_lookup in El. by eapply nosep_lookup.
Qed.

Lemma trailing_app s t : t <> [] -> trailing (s ++ t) = trailing t.
Proof. intros Ht. unfold trailing. rewrite last_app. destruct (last t) eqn:E; [done|]. by apply last_None in E. Qed.

Lemma parts_trail s tr : parts (s ++ trail tr) = parts s.
Proof. destruct tr; cbn [trail]; [|by rewrite app_nil_r]. unfold parts. by rewrite split_parts_snoc. Qed.

(** ** Absolute paths *)
Lemma parts_abs es tr : Forall elem es -> parts (avalue (abs_path es tr)) = es.
Proof. intros He. cbn [avalue abs_path]. rewrite app_assoc, parts_trail. by apply (parts_body true). Qed.

Lemma abs_elems_abs es tr : Forall plain es -> abs_elems (avalue (abs_path es tr)) = es.
Proof.
  intros Hp. unfold abs_elems, normalize. rewrite parts_abs by (by apply plain_elems). rewrite fold_step_elems by done.
  unfold state_elems. cbn [ups elems replicate app]. by rewrite app_nil_r, rev_involutive.
Qed.

Lemma lexical_abs s :
  is_rooted s = true ->
  wf_abs (MkAbsPath (lexical_spec s)) (abs_elems s) (trailing s && bool_decide (abs_elems s <> [])).
Proof.
  intros Hr. pose proof (abs_elems_plain s) as Hp. split; [done| |].
  { by intros [_ H%bool_decide_eq_true]%andb_true_iff. }
  unfold lexical_spec, keep_trailing, abs_path. rewrite clean_abs by done. f_equal.
  assert (special ([SLASH] ++ join (abs_elems s)) = bool_decide (abs_elems s = [])) as ->.
  { unfold special. rewrite !(bool_decide_false (_ = _ :: _ :: _)), (bool_decide_false (_ = [DOT])) by done. cbn [orb].
    apply bool_decide_ext. split; [|by intros ->]. intros H. apply (app_inv_head [SLASH] _ []) in H.
    apply join_zlen_0; [done|]. by rewrite H. }
  rewrite bool_decide_not. destruct (trailing s), (bool_decide (abs_elems s = [])); cbn [andb negb trail]; by rewrite ?app_nil_r, ?app_assoc.
Qed.

Lemma parse_abs s : is_rooted s = true -> MustParseAbsPath false s = Ret (MkAbsPath (lexical_spec s)).
Proof.
  intros Hr. unfold MustParseAbsPath, ParseAbsPath. destruct s as [|c s]; [done|].
  rewrite bool_decide_false by done. change (IsAbs false (c :: s)) with (Ret (c =? SLASH)).
  rewrite bind_ret, <- sep_slash. change (sep c = true) in Hr. rewrite Hr. cbn [negb].
  by rewrite lexically_normalize_unix_spec, !bind_ret.
Qed.

Lemma lexical_clean s : lexical_spec (clean_spec s) = clean_spec s.
Proof.
  unfold lexical_spec, keep_trailing. rewrite clean_spec_idempotent, clean_spec_trailing.
  case_bool_decide as Hc; cbn [andb]; [|done]. by rewrite Hc.
Qed.

Lemma parse_clean_abs s :
  is_rooted s = true -> MustParseAbsPath false (clean_spec s) = Ret (abs_path (abs_elems s) false).
Proof.
  intros Hr. rewrite parse_abs, lexical_clean, clean_abs by (done || by rewrite clean_abs).
  unfold abs_path. by rewrite app_nil_r.
Qed.

(** ** Joining *)
Lemma fold_step_drop k acc :
  fold_left (step true) (replicate k [DOT; DOT]) (MkPath 0 acc) = MkPath 0 (drop k acc).
Proof.
  revert acc. induction k as [|k IH]; intros acc; [done|]. cbn [replicate fold_left]. unfold step at 2.
  rewrite bool_decide_false by done. change (is_dotdot [DOT; DOT]) with true. cbv iota.
  destruct acc as [|e acc]; cbn [elems]; rewrite IH; [by rewrite drop_nil|done].
Qed.

Lemma climb_elem n es : Forall plain es -> Forall elem (climb n es).
Proof. intros Ht. apply Forall_app. split; [by apply Forall_replicate|by apply plain_elems]. Qed.

Lemma fold_rel_path rooted n es tr st :
  Forall plain es ->
  fold_left (step rooted) (parts (rvalue (rel_path n es tr))) st = fold_left (step rooted) (climb n es) st.
Proof.
  intros Hp. cbn [rvalue rel_path]. rewrite parts_trail. pose proof (climb_elem n es Hp) as He.
  destruct (render_cases false _ He) as [(-> & _ & ->)|(-> & _)]; [done|]. by rewrite parts_body.
Qed.

Lemma AbsPath_Join_steps es tr r :
  Forall plain es ->
  AbsPath_Join false (abs_path es tr) r =
    Ret (abs_path (rev (elems (fold_left (step true) (parts (rvalue r)) (MkPath 0 (rev es))))) false).
Proof.
  intros Hp. unfold AbsPath_Join. rewrite join_pair_unix, bind_ret, parse_clean_abs by done.
  by rewrite abs_elems_app, abs_elems_abs.
Qed.

Lemma AbsPath_Join_rel es tr n ds tr' :
  Forall plain es -> Forall plain ds ->
  AbsPath_Join false (abs_path es tr) (rel_path n ds tr') = Ret (abs_path (take (length es - n) es ++ ds) false).
Proof.
  intros Hp Hd. rewrite AbsPath_Join_steps, fold_rel_path by done. unfold climb.
  rewrite fold_left_app, fold_step_drop, fold_step_elems by done. cbn [elems].
  by rewrite rev_app_distr, rev_involutive, skipn_rev, rev_involutive.
Qed.

(** Components with separators are rejected, empty ones have no effect. *)
Lemma check_components_spec pe :
  check_components false pe = Precondition (forallb (fun e => negb (HasPathSeparators false e)) pe).
Proof.
  induction pe as [|e pe IH]; [done|]. cbn [check_components forallb]. by destruct (HasPathSeparators false e).
Qed.

Lemma parts_join_components v pe :
  forallb (fun e => negb (HasPathSeparators false e)) pe = true ->
  parts (strings_Join (v :: pe) [SLASH]) = parts v ++ List.filter (fun e => negb (bool_decide (e = []))) pe.
Proof.
  revert v. induction pe as [|e pe IH]; intros v Hpe; [by rewrite app_nil_r|].
  cbn [forallb] in Hpe. apply andb_true_iff in Hpe as [He Hpe].
  change (strings_Join (v :: e :: pe) [SLASH]) with (v ++ SLASH :: strings_Join (e :: pe) [SLASH]).
  rewrite parts_app_slash, IH by done. f_equal. cbn [List.filter].
  assert (forallb (fun c => negb (sep c)) e = true) as Hel.
  { clear -He. unfold HasPathSeparators in He. induction e as [|c e IH]; [done|]. cbn [existsb forallb] in *.
    rewrite negb_orb in He. apply andb_true_iff in He as [Hc He]. rewrite lex_sep in Hc. by rewrite Hc, IH. }
  destruct e as [|c e]; [done|]. rewrite bool_decide_false by done. cbn [negb].
  rewrite <- (app_nil_r (c :: e)) at 1. unfold parts. by rewrite split_parts_elem.
Qed.

Lemma AbsPath_JoinComponents_spec es tr pe :
  Forall plain es ->
  AbsPath_JoinComponents false (abs_path es tr) pe =
    if forallb (fun e => negb (HasPathSeparators false e)) pe then
      Ret (abs_path (rev (elems (fold_left (step true) (List.filter (fun e => negb (bool_decide (e = []))) pe)
                                   (MkPath 0 (rev es))))) false)
    else Panic PreconditionViolation.
Proof.
  intros Hp. unfold AbsPath_JoinComponents. rewrite check_components_spec.
  destruct (forallb _ pe) eqn:Hpe; [|done]. cbn [Precondition]. rewrite bind_ret.
  change (Join false (avalue (abs_path es tr) :: pe)) with
    (join_unix false (avalue (abs_path es tr) :: pe)). cbn [join_unix]. rewrite bool_decide_true by done.
  rewrite clean_unix_spec, bind_ret. set (j := strings_Join _ _).
  assert (is_rooted j = true) as Hr by (subst j; by destruct pe).
  rewrite parse_clean_abs by done. do 2 f_equal. subst j. unfold abs_elems at 1, normalize.
  change [Separator false] with [SLASH]. rewrite parts_join_components, fold_left_app, fold_step_abs, abs_elems_abs by done.
  set (st := fold_left _ _ _). assert (ups st = 0%nat) as Hu; [|unfold state_elems; by rewrite Hu].
  eapply (ok_ups true); [|done]. apply fold_step_ok; [split; [done|by apply Forall_rev]|].
  apply List.Forall_forall. intros e [Hin Hne]%filter_In. rewrite forallb_forall in Hpe. specialize (Hpe e Hin).
  split; [by intros ->|]. apply forallb_forall. intros c Hc. apply negb_true_iff in Hpe. apply negb_true_iff.
  rewrite <- lex_sep. unfold HasPathSeparators in Hpe. rewrite <- not_true_iff_false in Hpe |- *.
  intros Hs. apply Hpe, existsb_exists. by exists c.
Qed.

(** ** The last separator *)
Lemma last_sep_spec fuel (pre e1 e2 : gostring) vol :
  forallb (fun c => negb (sep c)) e1 = true -> 0 <= vol <= zlen pre + 1 -> (length e1 < fuel)%nat ->
  last_sep false fuel (pre ++ [SLASH] ++ e1 ++ e2) vol (zlen pre + zlen e1) = Ret (zlen pre).
Proof.
  intros He Hv. revert fuel e2. induction e1 as [|c e1 IH] using rev_ind; intros [|fuel] e2 Hf; rewrite ?length_app in Hf;
    cbn [length] in Hf; try lia; cbn [last_sep].
  - change (zlen (@nil Z)) with 0. destruct (vol <=? zlen pre + 0) eqn:Hle.
    + unfold sep_at. rewrite index_app_r by lia. change (index ([SLASH] ++ [] ++ e2) 0) with (Ret SLASH).
      rewrite !bind_ret. change (sep SLASH) with true. cbn [negb]. f_equal. lia.
    + rewrite bind_ret. f_equal. lia.
  - rewrite forallb_app in He. apply andb_true_iff in He as [He Hc]. cbn [forallb] in Hc. rewrite andb_true_r in Hc.
    rewrite zlen_app. change (zlen [c]) with 1. pose proof (zlen_nonneg e1).
    rewrite (proj2 (Z.leb_le _ _)) by lia. unfold sep_at.
    replace (pre ++ [SLASH] ++ (e1 ++ [c]) ++ e2) with ((pre ++ [SLASH] ++ e1) ++ [c] ++ e2) by (by rewrite <- !app_assoc).
    replace (zlen pre + (zlen e1 + 1)) with (zlen (pre ++ [SLASH] ++ e1) + 0) by (rewrite !zlen_app; change (zlen [SLASH]) with 1; lia).
    rewrite index_app_r by lia. change (index ([c] ++ e2) 0) with (Ret c). rewrite !bind_ret, Hc.
    specialize (IH He fuel ([c] ++ e2) ltac:(lia)). rewrite <- !app_assoc.
    replace (zlen (pre ++ [SLASH] ++ e1) + 0 - 1) with (zlen pre + zlen e1) by (rewrite !zlen_app; change (zlen [SLASH]) with 1; lia).
    exact IH.
Qed.

Lemma last_sep_none fuel (e1 e2 : gostring) :
  forallb (fun c => negb (sep c)) e1 = true -> (length e1 < fuel)%nat ->
  last_sep false fuel (e1 ++ e2) 0 (zlen e1 - 1) = Ret (-1).
Proof.
  intros He. revert fuel e2. induction e1 as [|c e1 IH] using rev_ind; intros [|fuel] e2 Hf; rewrite ?length_app in Hf;
    cbn [length] in Hf; try lia; cbn [last_sep]; [done|].
  rewrite forallb_app in He. apply andb_true_iff in He as [He Hc]. cbn [forallb] in Hc. rewrite andb_true_r in Hc.
  rewrite zlen_app. change (zlen [c]) with 1. pose proof (zlen_nonneg e1). rewrite (proj2 (Z.leb_le _ _)) by lia.
  unfold sep_at. rewrite <- app_assoc. replace (zlen e1 + 1 - 1) with (zlen e1 + 0) by lia. rewrite index_app_r by lia.
  change (index ([c] ++ e2) 0) with (Ret c). rewrite !bind_ret, Hc. specialize (IH He fuel ([c] ++ e2) ltac:(lia)).
  replace (zlen e1 + 0 - 1) with (zlen e1 - 1) by lia. exact IH.
Qed.

Lemma Dir_loop_last_sep fuel value rootLen i : Dir_loop false fuel value rootLen i = last_sep false fuel value rootLen i.
Proof.
  revert i. induction fuel as [|fuel IH]; intros i; [done|]. cbn [Dir_loop last_sep]. unfold sep_at, go_and.
  destruct (rootLen <=? i); [|done].
  destruct (index value i) as [c| |]; [|done..]. rewrite !bind_ret, lex_sep. by destruct (negb (sep c)); rewrite ?IH.
Qed.

(** ** Parents *)
Lemma AbsPath_rootLen_spec es tr : AbsPath_rootLen false (abs_path es tr) = Ret 1.
Proof.
  unfold AbsPath_rootLen. rewrite VolumeName_unix, bind_ret. cbn [avalue abs_path]. rewrite zlen_app.
  change (zlen [SLASH]) with 1. change (zlen (@nil Z)) with 0. pose proof (zlen_nonneg (join es ++ trail tr)).
  rewrite (proj2 (Z.ltb_lt _ _)) by lia. done.
Qed.

Lemma slice_to_app (l k : gostring) : slice_to (l ++ k) (zlen l) = Ret l.
Proof. rewrite slice_to_in_range by zlia. unfold zlen. rewrite Nat2Z.id. by rewrite take_app_length. Qed.

Lemma slash_join_pos es tr : zlen (avalue (abs_path es tr)) = 1 + zlen (join es) + zlen (trail tr).
Proof. cbn [avalue abs_path]. rewrite !zlen_app. change (zlen [SLASH]) with 1. lia. Qed.

Lemma last_byte (s : gostring) c : last s = Some c -> index s (zlen s - 1) = Ret c.
Proof.
  intros Hl. apply last_Some in Hl as [s' ->]. rewrite zlen_app. change (zlen [c]) with 1.
  replace (zlen s' + 1 - 1) with (zlen s' + 0) by lia. by rewrite index_app_r.
Qed.

Lemma elem_last_byte (s e : gostring) : elem e -> exists c, index (s ++ e) (zlen (s ++ e) - 1) = Ret c /\ sep c = false.
Proof.
  intros [Hne He]. destruct (last e) as [c|] eqn:El; [|by apply last_None in El]. exists c. split.
  - apply last_byte. by rewrite last_app, El.
  - rewrite last_lookup in El. by eapply nosep_lookup.
Qed.

Lemma AbsPath_Dir_spec es tr :
  Forall plain es -> (tr = true -> es <> []) ->
  AbsPath_Dir false (abs_path es tr) =
    Ret (match es with [] => None | _ => Some (abs_path (if tr then es else removelast es) false) end).
Proof.
  intros Hp Htr. unfold AbsPath_Dir. rewrite AbsPath_rootLen_spec, bind_ret, slash_join_pos.
  destruct es as [|e es _] using rev_ind; [destruct tr; [by destruct (Htr eq_refl)|done]|].
  assert (0 < zlen (join (es ++ [e]))) as Hpos.
  { pose proof (zlen_nonneg (join (es ++ [e]))). destruct (Z.eq_dec (zlen (join (es ++ [e]))) 0); [|lia].
    apply (join_zlen_0 (es ++ [e])) in Hp; [|done]. by destruct es. }
  rewrite (proj2 (Z.eqb_neq _ _)) by (destruct tr; cbn [trail]; change (zlen [SLASH]) with 1; change (zlen (@nil Z)) with 0; lia).
  rewrite <- slash_join_pos. apply Forall_app in Hp as [_ Hp]. apply Forall_cons in Hp as [(He & _) _].
  replace (match es ++ [e] with [] => None | _ => Some (abs_path (if tr then es ++ [e] else removelast (es ++ [e])) false) end)
    with (Some (abs_path (if tr then es ++ [e] else es) false)) by (rewrite removelast_last; by destruct es).
  destruct tr; cbn [avalue abs_path trail].
  - assert (last ([SLASH] ++ join (es ++ [e]) ++ [SLASH]) = Some SLASH) as Hl by (by rewrite app_assoc, last_snoc).
    rewrite (last_byte _ _ Hl), bind_ret. change (Lexical.IsPathSeparator false SLASH) with true. cbv iota.
    rewrite app_assoc, (zlen_app _ [SLASH]). change (zlen [SLASH]) with 1. rewrite Z.add_simpl_r, slice_to_app, bind_ret.
    unfold abs_path. cbn [trail]. by rewrite app_nil_r.
  - destruct (join_unsnoc es e) as (pre & Ej & Epre). rewrite app_nil_r, Ej.
    replace (pre ++ [SLASH] ++ e) with ((pre ++ [SLASH]) ++ e) by (by rewrite <- app_assoc).
    destruct (elem_last_byte (pre ++ [SLASH]) e He) as (c & Hc & Hsep). rewrite Hc, bind_ret, lex_sep, Hsep.
    rewrite Dir_loop_last_sep.
    replace ((pre ++ [SLASH]) ++ e) with (pre ++ [SLASH] ++ e ++ []) by (by rewrite app_nil_r, <- app_assoc).
    replace (zlen (pre ++ [SLASH] ++ e ++ []) - 1) with (zlen pre + zlen e)
      by (rewrite app_nil_r, !zlen_app; change (zlen [SLASH]) with 1; lia).
    rewrite last_sep_spec, bind_ret; [|by apply He|zlia|rewrite !length_app; lia].
    unfold abs_path. cbn [trail]. rewrite !app_nil_r. destruct es as [|e0 es]; subst pre.
    { change (if zlen [] <? 1 then ?a else ?b) with a. 
      by assert (slice_to ([] ++ [SLASH] ++ e) 1 = Ret [SLASH]) as -> by exact (slice_to_app [SLASH] e). }
    rewrite zlen_app. change (zlen [SLASH]) with 1. rewrite (proj2 (Z.ltb_ge _ _)) by zlia.
    replace (1 + zlen (join (e0 :: es))) with (zlen ([SLASH] ++ join (e0 :: es))) by (by rewrite zlen_app).
    by rewrite slice_to_app, bind_ret.
Qed.

(** ** Splitting *)
Lemma Name_New_elem e : elem e -> Name_New false e = Ret (MkName e).
Proof.
  intros [Hne He]. unfold Name_New, Name_Parse. destruct e as [|c e]; [done|].
  assert (hasPathSeparators false (c :: e) = false) as ->; [|done]. unfold hasPathSeparators.
  apply not_true_iff_false. intros (x & Hx & Hs)%existsb_exists. rewrite forallb_forall in He. specialize (He x Hx).
  by rewrite sep_slash, Hs in He.
Qed.

Lemma parse_abs_path es tr :
  Forall plain es -> MustParseAbsPath false (avalue (abs_path es tr)) = Ret (abs_path es (tr && bool_decide (es <> []))).
Proof.
  intros Hp. rewrite parse_abs by done. destruct (lexical_abs (avalue (abs_path es tr)) eq_refl) as [_ _ ->].
  rewrite abs_elems_abs by done. do 2 f_equal.
  assert (trailing (avalue (abs_path es tr)) = tr || bool_decide (es = [])) as ->.
  { cbn [avalue abs_path]. destruct tr; cbn [trail orb]; [by rewrite app_assoc, trailing_app|]. rewrite app_nil_r.
    destruct es as [|e es]; [done|]. rewrite trailing_app, join_no_trailing; [done|by apply plain_elems|].
    apply join_not_nil; [by apply plain_elems|done]. }
  rewrite bool_decide_not. by destruct tr, (bool_decide (es = [])).
Qed.

Lemma Split_unix pre e :
  forallb (fun c => negb (sep c)) e = true -> Split false (pre ++ [SLASH] ++ e) = Ret (pre ++ [SLASH], e).
Proof.
  intros He. unfold Split. rewrite VolumeName_unix, bind_ret. change (zlen (@nil Z)) with 0.
  replace (zlen (pre ++ [SLASH] ++ e) - 1) with (zlen pre + zlen e) by (rewrite !zlen_app; change (zlen [SLASH]) with 1; lia).
  pose proof (last_sep_spec (S (length (pre ++ [SLASH] ++ e))) pre e [] 0 He) as Hl. rewrite app_nil_r in Hl.
  rewrite Hl, bind_ret; [|zlia|rewrite !length_app; lia].
  replace (zlen pre + 1) with (zlen (pre ++ [SLASH])) by (by rewrite zlen_app).
  rewrite (app_assoc pre), slice_to_app, bind_ret. by rewrite slice_from_app_r, bind_ret.
Qed.

Lemma AbsPath_Split_spec es e :
  Forall plain (es ++ [e]) ->
  AbsPath_Split false (abs_path (es ++ [e]) false) = Ret (abs_path es (bool_decide (es <> [])), MkName e).
Proof.
  intros Hp. apply Forall_app in Hp as [Hes He]. apply Forall_cons in He as [(He & _) _].
  unfold AbsPath_Split. cbn [avalue abs_path trail]. rewrite app_nil_r.
  destruct (join_unsnoc es e) as (pre & -> & Epre). rewrite Split_unix, bind_ret by apply He.
  assert (pre ++ [SLASH] = avalue (abs_path es (bool_decide (es <> [])))) as ->.
  { rewrite Epre. unfold abs_path. cbn [avalue]. destruct es; [done|]. rewrite bool_decide_true by done. by rewrite <- app_assoc. }
  rewrite parse_abs_path, Name_New_elem by done. rewrite !bind_ret. do 3 f_equal. by case_bool_decide.
Qed.

Lemma AbsPath_Split_panics es tr :
  Forall plain es -> tr = true \/ es = [] -> AbsPath_Split false (abs_path es tr) = Panic PreconditionViolation.
Proof.
  intros Hp Hor. unfold AbsPath_Split.
  assert (exists pre, avalue (abs_path es tr) = pre ++ [SLASH] ++ [] /\
                      pre ++ [SLASH] = avalue (abs_path es tr)) as (pre & E1 & E).
  { cbn [avalue abs_path]. destruct tr; cbn [trail].
    - exists ([SLASH] ++ join es). by rewrite !app_nil_r, <- app_assoc.
    - destruct Hor as [? | ->]; [done|]. by exists []. }
  rewrite E1, Split_unix, bind_ret, E, parse_abs_path, bind_ret by done. done.
Qed.

(** ** Ancestors *)
(** The non-empty proper prefixes, shortest first. *)
Fixpoint proper_prefixes (es : list gostring) : list (list gostring) :=
  match es with
  | [] => []
  | e :: es' => match es' with [] => [] | _ => [e] :: map (cons e) (proper_prefixes es') end
  end.

Lemma proper_prefixes_spec es p : In p (proper_prefixes es) <-> exists k, p = take k es /\ (0 < k < length es)%nat.
Proof.
  revert p. induction es as [|e es IH]; intros p; [split; [done|]; intros (k & _ & ?); cbn in *; lia|].
  cbn [proper_prefixes]. destruct es as [|e' es].
  { split; [done|]. intros (k & _ & ?). cbn in *. lia. }
  cbn [In]. rewrite in_map_iff. split.
  - intros [<-|(q & <- & Hq)]; [exists 1%nat; cbn; split; [done|lia]|].
    apply IH in Hq as (k & -> & Hk). exists (S k). cbn [take length] in *. split; [done|lia].
  - intros ([|[|k]] & -> & Hk); [lia|by left|]. right. exists (take (S k) (e' :: es)). split; [done|].
    apply IH. exists (S k). cbn [length] in *. split; [done|lia].
Qed.

Lemma proper_prefixes_not_nil es p : In p (proper_prefixes es) -> p <> [].
Proof. intros (k & -> & Hk)%proper_prefixes_spec. destruct es, k; cbn in *; try lia; done. Qed.

Lemma index_at (pre rest : gostring) c : index (pre ++ c :: rest) (zlen pre) = Ret c.
Proof. rewrite <- (Z.add_0_r (zlen pre)), index_app_r by lia. done. Qed.

Lemma Ancestors_skip {St} fuel pre e rest (yield : yield_fn gostring St) st :
  forallb (fun c => negb (sep c)) e = true ->
  Ancestors_loop false (length e + fuel) (pre ++ e ++ rest) (zlen pre) yield st =
    Ancestors_loop false fuel (pre ++ e ++ rest) (zlen (pre ++ e)) yield st.
Proof.
  revert pre. induction e as [|c e IH]; intros pre He; [by rewrite app_nil_r|].
  cbn [forallb] in He. apply andb_true_iff in He as [Hc He]. cbn [length Nat.add Ancestors_loop].
  rewrite (proj2 (Z.ltb_lt _ _)) by (rewrite zlen_app; cbn [app]; rewrite zlen_cons; pose proof (zlen_nonneg (e ++ rest)); lia).
  rewrite <- (Z.add_0_r (zlen pre)), index_app_r by lia. change (index ((c :: e) ++ rest) 0) with (Ret c).
  rewrite bind_ret, lex_sep. apply negb_true_iff in Hc. rewrite Hc. cbn [negb].
  specialize (IH (pre ++ [c]) He). rewrite <- !app_assoc in IH. cbn [app] in IH |- *. rewrite <- IH.
  f_equal. rewrite zlen_app. change (zlen [c]) with 1. lia.
Qed.

Lemma Ancestors_loop_spec {St} fuel pre es tr (yield : yield_fn gostring St) st :
  Forall elem es -> (tr = true -> es <> []) -> (length (join es ++ trail tr) < fuel)%nat ->
  Ancestors_loop false fuel (pre ++ join es ++ trail tr) (zlen pre) yield st =
    Ret (fst (range_yield (map (fun p => pre ++ join p) (proper_prefixes es)) yield st)).
Proof.
  revert fuel pre st. induction es as [|e es IH]; intros fuel pre st Hes Htr Hf.
  { destruct tr; [by destruct (Htr eq_refl)|]. change (pre ++ join [] ++ trail false) with (pre ++ []). rewrite app_nil_r.
    destruct fuel as [|fuel]; [lia|]. cbn [Ancestors_loop]. by rewrite Z.ltb_irrefl. }
  apply Forall_cons in Hes as [[_ He] Hes]. destruct fuel as [|fuel]; [lia|]. rewrite join_cons, <- app_assoc in *.
  rewrite length_app in Hf. replace (S fuel) with (length e + S (fuel - length e))%nat by lia.
  rewrite Ancestors_skip by done. cbn [Ancestors_loop].
  set (rest := match es with [] => [] | _ => SLASH :: join es end ++ trail tr) in *.
  replace (pre ++ e ++ rest) with ((pre ++ e) ++ rest) by (by rewrite <- app_assoc).
  destruct es as [|e' es]; cbn [proper_prefixes map range_yield fst].
  { subst rest. destruct tr; cbn [app trail].
    - rewrite (proj2 (Z.ltb_lt _ _)) by (rewrite (zlen_app (pre ++ e)); change (zlen [SLASH]) with 1; lia).
      rewrite index_at, bind_ret.
      change (Lexical.IsPathSeparator false SLASH) with true. cbn [negb].
      rewrite (zlen_app (pre ++ e)). change (zlen [SLASH]) with 1. rewrite Z.add_simpl_r, Z.eqb_refl. done.
    - rewrite (app_nil_r (pre ++ e)), Z.ltb_irrefl. done. }
  change rest with (SLASH :: join (e' :: es) ++ trail tr) in *. clear rest.
  assert (0 < zlen (join (e' :: es))) as Hpos.
  { destruct (join (e' :: es)) eqn:E; [|rewrite zlen_cons; pose proof (zlen_nonneg l); lia].
    by apply join_not_nil in E. }
  pose proof (zlen_nonneg (trail tr)).
  rewrite (proj2 (Z.ltb_lt _ _)) by (rewrite (zlen_app (pre ++ e)), zlen_cons, (zlen_app (join (e' :: es))); lia).
  rewrite index_at, bind_ret.
  change (Lexical.IsPathSeparator false SLASH) with true. cbn [negb].
  rewrite (proj2 (Z.eqb_neq _ _)) by (rewrite (zlen_app (pre ++ e)), zlen_cons, (zlen_app (join (e' :: es))); lia).
  rewrite slice_to_app, bind_ret. cbn [range_yield]. change (join [e]) with e.
  destruct (yield (pre ++ e) st) as [st' []]; cbn [negb fst]; [|done].
  replace ((pre ++ e) ++ SLASH :: join (e' :: es) ++ trail tr) with ((pre ++ e ++ [SLASH]) ++ join (e' :: es) ++ trail tr)
    by (by rewrite <- !app_assoc).
  replace (zlen (pre ++ e) + 1) with (zlen (pre ++ e ++ [SLASH])) by (by rewrite app_assoc, (zlen_app (pre ++ e))).
  rewrite IH; [|done|done|cbn [app length] in Hf; lia]. do 3 f_equal. rewrite map_map. apply map_ext_in.
  intros p Hp. change (In p (proper_prefixes (e' :: es))) in Hp. apply proper_prefixes_not_nil in Hp.
  rewrite (join_cons e p), <- !app_assoc. by destruct p.
Qed.

Lemma AbsPath_Ancestors_spec es tr :
  Forall plain es -> (tr = true -> es <> []) ->
  Enumerates (AbsPath_Ancestors false (abs_path es tr)) (map (fun p => abs_path p false) (proper_prefixes es)).
Proof.
  intros Hp Htr St yield st. unfold AbsPath_Ancestors. rewrite AbsPath_rootLen_spec, bind_ret. cbn [avalue abs_path].
  change 1 with (zlen [SLASH]). rewrite Ancestors_loop_spec; [|by apply plain_elems|done|cbn [app length]; lia].
  do 2 f_equal. generalize (proper_prefixes es). intros l. revert st. induction l as [|p l IH]; intros st; [done|].
  cbn [map range_yield]. unfold abs_path at 1. cbn [trail]. rewrite app_nil_r.
  destruct (yield _ st) as [st' []]; [apply IH|done].
Qed.

(** ** Relative paths *)
Lemma clean_render n es : Forall plain es -> clean_spec (render false (climb n es)) = render false (climb n es).
Proof.
  intros Hp. pose proof (climb_elem n es Hp) as He.
  destruct (render_cases false _ He) as [(-> & _)|(-> & Hne)]; [done|].
  unfold clean_spec. rewrite is_rooted_body, parts_body by done. unfold render.
  assert (normalize false (climb n es) = climb n es) as ->.
  { unfold normalize, climb. rewrite fold_left_app, fold_step_dotdots, fold_step_elems by done.
    unfold state_elems. cbn [ups elems]. by rewrite Nat.add_0_r, app_nil_r, rev_involutive. }
  destruct (body false (climb n es)) eqn:E; [|done]. destruct Hne as [|Hne]; [done|]. by apply join_not_nil in Hne.
Qed.

Lemma lexical_render n es : Forall plain es -> lexical_spec (render false (climb n es)) = render false (climb n es).
Proof. intros Hp. rewrite <- clean_render by done. apply lexical_clean. Qed.

Lemma render_not_rooted n es : Forall plain es -> is_rooted (render false (climb n es)) = false.
Proof.
  intros Hp. destruct (render_cases false _ (climb_elem n es Hp)) as [(-> & _)|(-> & Hne)]; [done|].
  apply is_rooted_body; [by apply climb_elem|done].
Qed.

Lemma parse_rel s : s <> [] -> is_rooted s = false -> MustParseRelPath false s = Ret (MkRelPath (lexical_spec s)).
Proof.
  intros Hne Hr. unfold MustParseRelPath, ParseRelPath. destruct s as [|c s]; [done|].
  rewrite bool_decide_false by done. change (IsAbs false (c :: s)) with (Ret (c =? SLASH)).
  rewrite bind_ret, <- sep_slash. change (sep c = false) in Hr. rewrite Hr.
  by rewrite lexically_normalize_unix_spec, !bind_ret.
Qed.

Lemma render_not_nil rooted es : render rooted es <> [].
Proof. unfold render. by destruct (body rooted es). Qed.

Lemma parse_render n es :
  Forall plain es -> MustParseRelPath false (render false (climb n es)) = Ret (rel_path n es false).
Proof.
  intros Hp. rewrite parse_rel, lexical_render; [|done|apply render_not_nil|by apply render_not_rooted].
  unfold rel_path. cbn [trail]. by rewrite app_nil_r.
Qed.

(** The number of ".." and the elements that a relative path normalizes to. *)
Definition rel_ups (s : gostring) : nat := ups (fold_left (step false) (parts s) (MkPath 0 [])).
Definition rel_elems_of (s : gostring) : list gostring := rev (elems (fold_left (step false) (parts s) (MkPath 0 []))).

Lemma lexical_rel_state s :
  is_rooted s = false ->
  wf_rel (MkRelPath (lexical_spec s)) (rel_ups s) (rel_elems_of s) (trailing s && negb (special (clean_spec s))).
Proof.
  intros Hr. destruct (normalize_state_ok false s) as [_ Hp]. unfold rel_ups, rel_elems_of.
  set (st := fold_left (step false) (parts s) (MkPath 0 [])) in *.
  assert (clean_spec s = render false (climb (ups st) (rev (elems st)))) as Hc by (unfold clean_spec; by rewrite Hr).
  split; [by apply Forall_rev| |].
  - intros [_ Hs]%andb_true_iff. rewrite Hc in Hs. destruct (rev (elems st)); [right|by left].
    destruct (ups st) as [|[|k]]; [done|done|lia].
  - unfold rel_path, lexical_spec, keep_trailing. rewrite <- Hc. by destruct (_ && _); cbn [trail]; rewrite ?app_nil_r.
Qed.

(** A relative path normalizes to a well-formed one. *)
Lemma lexical_rel s :
  is_rooted s = false -> exists n es tr, wf_rel (MkRelPath (lexical_spec s)) n es tr.
Proof. intros Hr. eexists _, _, _. by apply lexical_rel_state. Qed.

(** Joining relative paths: ".." of the second remove names of the first. *)
Lemma fold_step_climb m n acc :
  fold_left (step false) (replicate m [DOT; DOT]) (MkPath n acc) = MkPath (n + (m - length acc)) (drop m acc).
Proof.
  revert n acc. induction m as [|m IH]; intros n acc; [cbn; by rewrite Nat.add_0_r|]. cbn [replicate fold_left]. unfold step at 2.
  rewrite bool_decide_false by done. change (is_dotdot [DOT; DOT]) with true. cbv iota.
  destruct acc as [|e acc]; cbn [elems ups]; rewrite IH; cbn [length]; [rewrite drop_nil; f_equal; lia|done].
Qed.

Lemma fold_climb n es :
  Forall plain es -> fold_left (step false) (climb n es) (MkPath 0 []) = MkPath n (rev es).
Proof.
  intros Hp. unfold climb. rewrite fold_left_app, fold_step_dotdots, fold_step_elems by done. by rewrite Nat.add_0_r, app_nil_r.
Qed.

Lemma RelPath_Join_rel n es tr m fs tr' :
  Forall plain es -> Forall plain fs ->
  RelPath_Join false (rel_path n es tr) (rel_path m fs tr') =
    Ret (rel_path (n + (m - length es)) (take (length es - m) es ++ fs) false).
Proof.
  intros Hp Hf. unfold RelPath_Join.
  assert (rvalue (rel_path n es tr) <> []) as Hne by (cbn; intros [? _]%app_nil; by apply render_not_nil in H).
  rewrite join_pair_unix, bind_ret by done. unfold clean_spec.
  replace (is_rooted (rvalue (rel_path n es tr) ++ _)) with false.
  2:{ pose proof (render_not_rooted n es Hp) as Hr. pose proof (render_not_nil false (climb n es)). cbn [rel_path rvalue].
      by destruct (render false (climb n es)). }
  unfold normalize. rewrite parts_app_slash, fold_left_app, !fold_rel_path, fold_climb by done. unfold climb at 1.
  rewrite fold_left_app, fold_step_climb, fold_step_elems by done. unfold state_elems. cbn [ups elems].
  rewrite rev_app_distr, rev_involutive, skipn_rev, rev_involutive, length_rev.
  apply (parse_render (n + (m - length es)) (take (length es - m) es ++ fs)).
  apply Forall_app. split; [by apply Forall_take|done].
Qed.

Lemma plain_separators e : plain e -> HasPathSeparators false e = false.
Proof.
  intros [[_ Hs] _]. unfold HasPathSeparators. apply not_true_iff_false. rewrite existsb_exists. intros (c & Hc & Hsep).
  rewrite forallb_forall in Hs. specialize (Hs c Hc). rewrite lex_sep in Hsep. by rewrite Hsep in Hs.
Qed.

Lemma plain_components pe :
  Forall plain pe ->
  forallb (fun e => negb (HasPathSeparators false e)) pe = true /\ List.filter (fun e => negb (bool_decide (e = []))) pe = pe.
Proof.
  induction 1 as [|e pe He _ [IH1 IH2]]; [done|]. cbn [forallb List.filter]. rewrite plain_separators, IH1, IH2 by done.
  destruct He as [[Hne _] _]. by rewrite bool_decide_false.
Qed.

Lemma RelPath_JoinComponents_plain n es tr pe :
  Forall plain es -> Forall plain pe ->
  RelPath_JoinComponents false (rel_path n es tr) pe = Ret (rel_path n (es ++ pe) false).
Proof.
  intros Hp Hpe. destruct (plain_components pe Hpe) as [H1 H2].
  unfold RelPath_JoinComponents. rewrite check_components_spec, H1. cbn [Precondition]. rewrite bind_ret.
  assert (rvalue (rel_path n es tr) <> []) as Hne by (cbn; intros [? _]%app_nil; by apply render_not_nil in H).
  change (Join false (rvalue (rel_path n es tr) :: pe)) with (join_unix false (rvalue (rel_path n es tr) :: pe)). cbn [join_unix].
  rewrite bool_decide_true, clean_unix_spec, bind_ret by done. change [Separator false] with [SLASH]. unfold clean_spec.
  replace (is_rooted (strings_Join _ _)) with false.
  2:{ pose proof (render_not_rooted n es Hp) as Hr. pose proof (render_not_nil false (climb n es)). cbn [rel_path rvalue].
      destruct (render false (climb n es)); [done|]. destruct pe; exact (eq_sym Hr). }
  unfold normalize. rewrite parts_join_components, H2, fold_left_app, fold_rel_path, fold_climb, fold_step_elems by done. unfold state_elems.
  cbn [ups elems]. rewrite rev_app_distr, !rev_involutive. apply (parse_render n (es ++ pe)). by apply Forall_app_2.
Qed.

(** ** Containment *)
Lemma split_parts_ext f g cur s : (forall c, f c = g c) -> split_parts f cur s = split_parts g cur s.
Proof. intros H. revert cur. induction s as [|c s IH]; intros cur; [done|]. cbn. rewrite H. destruct (g c); [destruct cur|]; by rewrite IH. Qed.

Lemma RelPath_Components_spec p : Enumerates (RelPath_Components false p) (parts (rvalue p)).
Proof.
  intros St yield st. unfold RelPath_Components, Components, Components_iter, ComponentsUnix. cbn [ckind cpath]. rewrite bind_ret.
  cbn [ckind cpath]. rewrite components_spec by (pose proof (zlen_nonneg (rvalue p)); lia). do 3 f_equal.
  change (drop (Z.to_nat 0) (rvalue p)) with (rvalue p). apply split_parts_ext. intros c. by rewrite sep_slash.
Qed.

Lemma ups_mono cs st : (ups st <= ups (fold_left (step false) cs st))%nat.
Proof.
  revert st. induction cs as [|c cs IH]; intros st; [done|]. cbn [fold_left]. etrans; [|apply IH].
  unfold step. case_bool_decide; [done|]. destruct (is_dotdot c); [destruct (elems st)|]; cbn; lia.
Qed.

Lemma contains_fold cs acc :
  snd (fst (range_yield cs contains_step (zlen acc, true))) =
    bool_decide (ups (fold_left (step false) cs (MkPath 0 acc)) = 0%nat).
Proof.
  revert acc. induction cs as [|c cs IH]; intros acc; [done|]. cbn [range_yield fold_left].
  destruct (decide (c = [DOT])) as [->|H1]; [apply IH|]. destruct (decide (c = [DOT; DOT])) as [->|H2].
  - change (step false (MkPath 0 acc) [DOT; DOT]) with (match acc with [] => MkPath 1 [] | _ :: es => MkPath 0 es end).
    change (contains_step [DOT; DOT] (zlen acc, true)) with
      (if zlen acc =? 0 then ((zlen acc, false), false) else ((zlen acc - 1, true), true)).
    destruct acc as [|e acc].
    + change (zlen (@nil gostring) =? 0) with true. cbn [fst snd]. symmetry. apply bool_decide_eq_false.
      pose proof (ups_mono cs (MkPath 1 [])) as H. cbn [ups] in H. lia.
    + rewrite zlen_cons. pose proof (zlen_nonneg acc). rewrite (proj2 (Z.eqb_neq _ _)), Z.add_simpl_r by lia. apply IH.
  - assert (contains_step c (zlen acc, true) = ((zlen acc + 1, true), true)) as ->.
    { unfold contains_step. by rewrite !bool_decide_false. }
    assert (step false (MkPath 0 acc) c = MkPath 0 (c :: acc)) as ->.
    { unfold step, is_dotdot. by rewrite !bool_decide_false. }
    specialize (IH (c :: acc)). rewrite zlen_cons in IH. exact IH.
Qed.

Lemma lexicallyContainsUnix_spec p :
  RelPath_lexicallyContainsUnix false p = Ret (bool_decide (ups (fold_left (step false) (parts (rvalue p)) (MkPath 0 [])) = 0%nat)).
Proof.
  unfold RelPath_lexicallyContainsUnix. rewrite RelPath_Components_spec, bind_ret.
  change 0 with (zlen (@nil gostring)) at 1. rewrite <- contains_fold. by destruct (fst _).
Qed.

Lemma lexicallyContainsUnix_rel n es tr :
  Forall plain es -> RelPath_lexicallyContainsUnix false (rel_path n es tr) = Ret (bool_decide (n = 0%nat)).
Proof. intros Hp. by rewrite lexicallyContainsUnix_spec, fold_rel_path, fold_climb. Qed.

(** ** Paths relative to a root *)
Lemma parts_render n es : Forall plain es -> climb n es <> [] -> parts (render false (climb n es)) = climb n es.
Proof.
  intros Hp Hne. pose proof (climb_elem n es Hp) as He.
  destruct (render_cases false _ He) as [(_ & _ & ?)|(-> & _)]; [done|]. by apply parts_body.
Qed.

Lemma render_join n es : Forall plain es -> climb n es <> [] -> render false (climb n es) = join (climb n es).
Proof.
  intros Hp Hne. by destruct (render_cases false _ (climb_elem n es Hp)) as [(_ & _ & ?)|(-> & _)].
Qed.

Lemma has_prefix_spec (s p : gostring) : has_prefix s p = true <-> exists t, s = p ++ t.
Proof.
  unfold has_prefix. rewrite bool_decide_eq_true. split.
  - intros H. exists (drop (length p) s). rewrite <- H at 1. by rewrite take_drop.
  - intros [t ->]. by rewrite take_app_length.
Qed.

Lemma escapes_render k es : Forall plain es -> escapes false (render false (climb k es)) = bool_decide (k <> 0%nat).
Proof.
  intros Hp. unfold escapes. change (Separator false) with SLASH. destruct k as [|k].
  - change (bool_decide (0%nat <> 0%nat)) with false. apply orb_false_iff. destruct es as [|e es]; [done|].
    assert (climb 0 (e :: es) = e :: es) as Ec by done.
    assert (parts (render false (climb 0 (e :: es))) = e :: es) as Hparts by (by rewrite parts_render).
    apply Forall_cons in Hp as [(_ & Hdd & _) _]. split.
    + apply bool_decide_eq_false. intros E. rewrite E in Hparts. by injection Hparts as <- <-.
    + apply not_true_iff_false. intros [t E]%has_prefix_spec. rewrite E in Hparts.
      change (parts ([DOT; DOT] ++ SLASH :: t) = e :: es) in Hparts. rewrite parts_app_slash in Hparts.
      by injection Hparts as <- _.
  - rewrite (bool_decide_true (S k <> 0%nat)) by done. rewrite render_join by done. unfold climb. cbn [replicate app]. rewrite join_cons.
    destruct (replicate k [DOT; DOT] ++ es) eqn:E; rewrite ?E; [done|]. apply orb_true_iff. right. apply has_prefix_spec.
    eexists. reflexivity.
Qed.

Section unix.
Context (EqualFold : gostring -> gostring -> bool).

Lemma diverge_app (c eb et x : list gostring) : diverge eb et -> c ++ et = (c ++ eb) ++ x -> eb = [] /\ x = et.
Proof.
  intros Hd. rewrite <- app_assoc. intros ->%app_inv_head. destruct eb; [done|]. by destruct Hd.
Qed.

Lemma Rel_abs_paths er tr ep tp :
  Forall plain er -> Forall plain ep ->
  exists c eb et, er = c ++ eb /\ ep = c ++ et /\ diverge eb et /\
    Rel false EqualFold (avalue (abs_path er tr)) (avalue (abs_path ep tp)) = Ret (Some (render false (climb (length eb) et))).
Proof.
  intros Hr Hp. destruct (Rel_abs EqualFold (avalue (abs_path er tr)) (avalue (abs_path ep tp)) eq_refl eq_refl)
    as (c & eb & et & Eb & Et & Hd & HR).
  rewrite abs_elems_abs in Eb by done. rewrite abs_elems_abs in Et by done. by exists c, eb, et.
Qed.

Lemma MakeRelativeTo_below er tr et tp :
  Forall plain (er ++ et) ->
  AbsPath_MakeRelativeTo false EqualFold (abs_path (er ++ et) tp) (abs_path er tr) =
    Ret (Some (MkRootRelPath (abs_path er tr) (rel_path 0 et false))).
Proof.
  intros Hp. pose proof Hp as [Hr Ht]%Forall_app. unfold AbsPath_MakeRelativeTo.
  destruct (Rel_abs_paths er tr (er ++ et) tp Hr Hp) as (c & eb & et' & -> & Et & Hd & ->).
  rewrite bind_ret. symmetry in Et. destruct (diverge_app c eb et' et Hd Et) as [-> <-]. cbn [length].
  rewrite escapes_render by done. change (bool_decide (0%nat <> 0%nat)) with false. cbv iota.
  rewrite parse_render, bind_ret by done. unfold NewRootRelPath, AbsPath_LexicallyContains.
  by rewrite lexicallyContainsUnix_rel.
Qed.

Lemma MakeRelativeTo_outside er tr ep tp :
  Forall plain er -> Forall plain ep -> ~ er `prefix_of` ep ->
  AbsPath_MakeRelativeTo false EqualFold (abs_path ep tp) (abs_path er tr) = Ret None.
Proof.
  intros Hr Hp Hn. unfold AbsPath_MakeRelativeTo.
  destruct (Rel_abs_paths er tr ep tp Hr Hp) as (c & eb & et & -> & -> & Hd & ->). rewrite bind_ret.
  apply Forall_app in Hp as [_ Hp]. rewrite escapes_render, bool_decide_true; [done| |done].
  intros Hl. apply Hn. destruct eb; [|done]. exists et. by rewrite app_nil_r.
Qed.

(** The slow containment test looks only at where the joined path ends up. *)
Lemma lexicallyContainsSlow_spec er tr n es tr' :
  Forall plain er -> Forall plain es ->
  AbsPath_lexicallyContainsSlow false EqualFold (abs_path er tr) (rel_path n es tr') =
    Ret (bool_decide (er `prefix_of` take (length er - n) er ++ es)).
Proof.
  intros Hr Hp. unfold AbsPath_lexicallyContainsSlow.
  pose proof (AbsPath_Join_rel er tr n es tr' Hr Hp) as Hj. unfold AbsPath_Join in Hj.
  rewrite join_pair_unix, bind_ret in Hj by done. rewrite join_pair_unix, bind_ret by done.
  rewrite parse_clean_abs in Hj by done. injection Hj as Hj. rewrite clean_abs by done.
  assert (Forall plain (take (length er - n) er ++ es)) as Hpe by (apply Forall_app; split; [by apply Forall_take|done]).
  assert (abs_elems (avalue (abs_path er tr) ++ SLASH :: rvalue (rel_path n es tr')) = take (length er - n) er ++ es) as ->.
  { unfold trail in Hj. rewrite !app_nil_r in Hj. apply (f_equal parts) in Hj.
    rewrite !parts_join in Hj; [done|by apply plain_elems|apply plain_elems, abs_elems_plain]. }
  set (ej := take _ _ ++ es) in *. replace ([SLASH] ++ join ej) with (avalue (abs_path ej false)) by (cbn; by rewrite app_nil_r).
  destruct (Rel_abs_paths er tr ej false Hr Hpe) as (c & eb & et & E1 & E2 & Hd & ->). rewrite bind_ret. do 2 f_equal.
  rewrite E2 in Hpe. apply Forall_app in Hpe as [_ Hpe]. rewrite escapes_render by done. rewrite E2.
  rewrite <- bool_decide_not. apply bool_decide_ext. split.
  - intros Hl. destruct eb; [|exfalso; apply Hl; done]. exists et. by rewrite E1, app_nil_r.
  - intros [x Hx] Hl. rewrite E1 in Hx. by destruct (diverge_app c eb et x Hd Hx) as [-> _].
Qed.
End unix.

(** ** Prefixes of relative paths *)
Lemma RelPath_RelativeTo_spec bl rest n bs m ps :
  Forall plain bs -> Forall plain ps -> climb n bs = bl -> climb m ps = bl ++ rest ->
  RelPath_RelativeTo false (rel_path m ps false) (rel_path n bs false) = Ret (MkRelPath (render false rest)).
Proof.
  intros Hb Hp Eb Ep. unfold RelPath_RelativeTo, rel_path. cbn [rvalue trail]. rewrite !app_nil_r, Ep, Eb.
  pose proof (climb_elem n bs Hb) as Hbe. rewrite Eb in Hbe.
  pose proof (climb_elem m ps Hp) as Hpe. rewrite Ep in Hpe. apply Forall_app in Hpe as [_ Hre].
  destruct bl as [|e bl].
  { rewrite bool_decide_true by done. done. }
  assert (render false (e :: bl) = join (e :: bl)) as Ebr by (rewrite <- Eb; apply render_join; [done|by rewrite Eb]).
  assert (render false ((e :: bl) ++ rest) = join (e :: bl) ++ match rest with [] => [] | _ => SLASH :: join rest end) as Epr.
  { rewrite <- Ep. rewrite render_join, Ep; [|done|by rewrite Ep]. clear. revert e. induction bl as [|f bl IH]; intros e.
    - cbn [app]. by rewrite join_cons.
    - change ((e :: f :: bl) ++ rest) with (e :: ((f :: bl) ++ rest)). rewrite join_cons, (join_cons e (f :: bl)), IH.
      cbn [app]. by rewrite <- !app_assoc. }
  rewrite Ebr, Epr. rewrite bool_decide_false.
  2:{ rewrite <- Ebr. intros E. assert (parts (render false (e :: bl)) = [str "."]) as E2 by (by rewrite E).
      rewrite <- Eb in E2. rewrite parts_render in E2; [|done|by rewrite Eb]. 
      destruct n as [|n]; [|done]. cbn [climb replicate app] in E2. subst bs. apply Forall_cons in Hb as [(_ & _ & Hd) _]. done. }
  unfold strings_CutPrefix. rewrite (proj2 (has_prefix_spec _ _)) by eauto. rewrite drop_app_length. cbn [Precondition].
  rewrite bind_ret. destruct rest as [|f rest]; [by rewrite bool_decide_true|]. rewrite bool_decide_false by done.
  change (index (SLASH :: ?l) 0) with (Ret SLASH). rewrite bind_ret. cbn [Precondition].
  change (Lexical.IsPathSeparator false SLASH) with true. cbn [Precondition]. rewrite bind_ret.
  assert (slice_from (SLASH :: join (f :: rest)) 1 = Ret (join (f :: rest))) as -> by exact (slice_from_app_r [SLASH] _).
  rewrite bind_ret. do 2 f_equal.
  destruct (render_cases false _ Hre) as [(_ & _ & ?)|(-> & _)]; done.
Qed.

(** [RelativeTo] succeeds only below the base. *)
Lemma RelPath_RelativeTo_inv n bs m ps r :
  Forall plain bs -> Forall plain ps ->
  RelPath_RelativeTo false (rel_path m ps false) (rel_path n bs false) = Ret r ->
  climb n bs `prefix_of` climb m ps.
Proof.
  intros Hb Hp. unfold RelPath_RelativeTo, rel_path. cbn [rvalue trail]. rewrite !app_nil_r.
  destruct (decide (climb n bs = [])) as [->|Hne]; [intros _; apply prefix_nil|].
  case_bool_decide as Hd.
  { assert (parts (render false (climb n bs)) = [str "."]) as E2 by (by rewrite Hd). rewrite parts_render in E2 by done.
    destruct n as [|n]; [|done]. cbn [climb replicate app] in E2. subst bs. by apply Forall_cons in Hb as [(_ & _ & ?) _]. }
  unfold strings_CutPrefix. destruct (has_prefix _ _) eqn:Hpre; [|done]. apply has_prefix_spec in Hpre as [t Ht].
  rewrite Ht, drop_app_length. cbn [Precondition]. rewrite bind_ret.
  apply (f_equal parts) in Ht. rewrite (render_join n bs) in Ht by done.
  case_bool_decide as Hs.
  - subst t. intros _. rewrite app_nil_r, parts_join in Ht by (by apply climb_elem).
    destruct (decide (climb m ps = [])) as [E|Hm].
    + rewrite E in Ht. change (parts (render false [])) with [[DOT]] in Ht. exfalso.
      destruct n as [|n]; [|done]. cbn [climb replicate app] in Ht. subst bs. by apply Forall_cons in Hb as [(_ & _ & ?) _].
    + rewrite parts_render in Ht by done. by rewrite Ht.
  - destruct t as [|c t]; [done|]. change (index (c :: t) 0) with (Ret c). rewrite bind_ret, lex_sep, sep_slash.
    destruct (Z.eqb_spec c SLASH) as [->|]; [|done]. intros _.
    rewrite parts_app_slash, parts_join in Ht by (by apply climb_elem).
    destruct (decide (climb m ps = [])) as [E|Hm]; [|rewrite parts_render in Ht by done; by exists (parts t)].
    exfalso. rewrite E in Ht. change (parts (render false [])) with [[DOT]] in Ht.
    destruct (climb n bs) as [|e l] eqn:Ec; [done|]. injection Ht as <- _. destruct n as [|n]; [|done].
    cbn [climb replicate app] in Ec. subst bs. by apply Forall_cons in Hb as [(_ & _ & ?) _].
Qed.

Lemma RelativeTo_cases p base :
  (exists q, RelPath_RelativeTo false p base = Ret q) \/ RelPath_RelativeTo false p base = Panic PreconditionViolation.
Proof.
  unfold RelPath_RelativeTo. case_bool_decide; [by left; exists p|].
  destruct (strings_CutPrefix _ _) as [[|c t] []]; cbn [Precondition]; rewrite ?bind_ret; try (by right);
    [rewrite bool_decide_true by done; by left; eexists|]. rewrite bool_decide_false by done.
  change (index (c :: t) 0) with (Ret c). rewrite bind_ret.
  destruct (Lexical.IsPathSeparator false c); cbn [Precondition]; [|by right]. rewrite bind_ret.
  assert (slice_from (c :: t) 1 = Ret t) as -> by exact (slice_from_app_r [c] t). left. by eexists.
Qed.

Lemma RelPath_Ancestors_spec n es tr :
  Forall plain es -> (tr = true -> climb n es <> []) ->
  Enumerates (RelPath_Ancestors false (rel_path n es tr)) (map (fun p => MkRelPath (join p)) (proper_prefixes (climb n es))).
Proof.
  intros Hp Htr St yield st. unfold RelPath_Ancestors. cbn [rel_path rvalue].
  destruct (decide (climb n es = [])) as [E|Hne].
  { rewrite E. destruct tr; [by destruct (Htr eq_refl)|]. done. }
  rewrite render_join by done. rewrite bool_decide_false.
  2:{ intros Ht. apply (f_equal parts) in Ht. rewrite parts_trail, parts_join in Ht by (by apply climb_elem).
      change (parts (str ".")) with [[DOT]] in Ht. destruct n as [|n]; [|done]. cbn [climb replicate app] in Ht.
      subst es. by apply Forall_cons in Hp as [(_ & _ & ?) _]. }
  change 0 with (zlen (@nil Z)). pose proof (Ancestors_loop_spec (S (length (join (climb n es) ++ trail tr))) [] (climb n es) tr
    (fun v => yield (MkRelPath v)) st) as H. cbn [app] in H. rewrite H; [|by apply climb_elem|done|lia].
  do 2 f_equal. generalize (proper_prefixes (climb n es)). intros l. clear. revert st.
  induction l as [|p l IH]; intros st; [done|]. cbn [map range_yield]. destruct (yield _ st) as [st' []]; [apply IH|done].
Qed.

(** ** Main theorems *)

(** on Unix [ParseAbsPath] accepts exactly the rooted paths and
    [ParseRelPath] exactly the other non-empty ones; what they return is
    normalized and well-formed, otherwise the error says why, with the input
    quoted when there is one, and no precondition of the errors is violated. *)
Theorem path_parse_spec (quote : gostring -> gostring) (s : gostring) :
  ParseAbsPath false s =
    Ret (if bool_decide (s = []) then inr (MkAbsPathParseError AbsPathParseErrorKind_Empty [])
         else if is_rooted s then inl (MkAbsPath (lexical_spec s))
         else inr (MkAbsPathParseError AbsPathParseErrorKind_NotAbsolute s)) /\
  ParseRelPath false s =
    Ret (if bool_decide (s = []) then inr (MkRelPathParseError RelPathParseErrorKind_Empty [])
         else if is_rooted s then inr (MkRelPathParseError RelPathParseErrorKind_NotRelative s)
         else inl (MkRelPath (lexical_spec s))) /\
  (if is_rooted s then exists es tr, wf_abs (MkAbsPath (lexical_spec s)) es tr
   else exists n es tr, wf_rel (MkRelPath (lexical_spec s)) n es tr) /\
  AbsPathParseError_Error quote (MkAbsPathParseError AbsPathParseErrorKind_NotAbsolute s) =
    Ret (str "not an absolute path (input=" ++ quote s ++ str ")") /\
  RelPathParseError_Error quote (MkRelPathParseError RelPathParseErrorKind_NotRelative s) =
    Ret (str "not a relative path (input=" ++ quote s ++ str ")").
Proof.
  split_and!.
  - unfold ParseAbsPath. destruct s as [|c s]; [done|]. rewrite !bool_decide_false by done.
    change (IsAbs false (c :: s)) with (Ret (c =? SLASH)). change (is_rooted (c :: s)) with (sep c).
    rewrite bind_ret, sep_slash. destruct (c =? SLASH); [|done]. cbn [negb]. by rewrite lexically_normalize_unix_spec.
  - unfold ParseRelPath. destruct s as [|c s]; [done|]. rewrite !bool_decide_false by done.
    change (IsAbs false (c :: s)) with (Ret (c =? SLASH)). change (is_rooted (c :: s)) with (sep c).
    rewrite bind_ret, sep_slash. destruct (c =? SLASH); [done|]. by rewrite lexically_normalize_unix_spec.
  - destruct (is_rooted s) eqn:Hr; [eexists _, _; by apply lexical_abs|by apply lexical_rel].
  - unfold AbsPathParseError_Error, format_calls. cbn. by rewrite <- ?app_assoc.
  - unfold RelPathParseError_Error, format_calls. cbn. by rewrite <- ?app_assoc.
Qed.

(** what each operation of an [AbsPath] returns on Unix, in terms of its
    elements; every result is again well-formed, the parent of a path with a
    trailing separator is the path without it, and ".." never climbs above the
    root. *)
Theorem abs_path_ops_spec (p : AbsPath) (es : list gostring) (tr : bool) (Hp : wf_abs p es tr) :
  AbsPath_Dir false p = Ret (match es with [] => None | _ => Some (abs_path (if tr then es else removelast es) false) end) /\
  Enumerates (AbsPath_Ancestors false p) (map (fun q => abs_path q false) (proper_prefixes es)) /\
  AbsPath_Split false p =
    match tr, last es with
    | false, Some e => Ret (abs_path (removelast es) (bool_decide (removelast es <> [])), MkName e)
    | _, _ => Panic PreconditionViolation
    end /\
  (forall r n ds tr', wf_rel r n ds tr' ->
    AbsPath_Join false p r = Ret (abs_path (take (length es - n) es ++ ds) false)) /\
  (forall pe, AbsPath_JoinComponents false p pe =
    if forallb (fun e => negb (HasPathSeparators false e)) pe then
      Ret (abs_path (rev (elems (fold_left (step true) (List.filter (fun e => negb (bool_decide (e = []))) pe)
                                   (MkPath 0 (rev es))))) false)
    else Panic PreconditionViolation).
Proof.
  destruct Hp as [Hp Htr ->]. split_and!.
  - by apply AbsPath_Dir_spec.
  - by apply AbsPath_Ancestors_spec.
  - destruct es as [|e es _] using rev_ind; [destruct tr; [by destruct (Htr eq_refl)|]; by apply AbsPath_Split_panics; [|right]|].
    rewrite last_snoc, removelast_last. destruct tr; [by apply AbsPath_Split_panics; [|left]|]. by apply AbsPath_Split_spec.
  - intros r n ds tr' [Hd _ ->]. by apply AbsPath_Join_rel.
  - intros pe. by apply AbsPath_JoinComponents_spec.
Qed.

(** The path "/a/b/". *)
Lemma wf_sample : wf_abs (MkAbsPath (str "/a/b/")) [str "a"; str "b"] true.
Proof. split; [|done|reflexivity]. repeat constructor; discriminate. Defined.
Lemma abs_path_ops_spec_witness :
  wf_abs (MkAbsPath (str "/a/b/")) [str "a"; str "b"] true /\
  AbsPath_Dir false (MkAbsPath (str "/a/b/")) = Ret (Some (MkAbsPath (str "/a/b"))) /\
  Enumerates (AbsPath_Ancestors false (MkAbsPath (str "/a/b/"))) [MkAbsPath (str "/a")].
Proof.
  split; [exact wf_sample|]. destruct (abs_path_ops_spec _ _ _ wf_sample) as (H1 & H2 & _). split; [exact H1|exact H2].
Defined.

(** C19: on Unix a relative path is lexically contained exactly when it does
    not start with "..", whatever the root, and that is when joining it to any
    absolute path leads to that path or below it; the test used on other
    platforms accepts at least those. *)
Theorem lexically_contains_spec (EqualFold : gostring -> gostring -> bool) (r : RelPath) (n : nat) (ds : list gostring) (tr : bool)
  (Hr : wf_rel r n ds tr) :
  (forall p, AbsPath_LexicallyContains false EqualFold p r = Ret (bool_decide (n = 0%nat))) /\
  (n = 0%nat <-> forall p es tr', wf_abs p es tr' ->
    exists es', Forall plain es' /\ AbsPath_Join false p r = Ret (abs_path (es ++ es') false)) /\
  (forall p es tr', wf_abs p es tr' ->
    AbsPath_LexicallyContains false EqualFold p r = Ret true -> AbsPath_lexicallyContainsSlow false EqualFold p r = Ret true).
Proof.
  destruct Hr as [Hd _ ->].
  assert (forall p, AbsPath_LexicallyContains false EqualFold p (rel_path n ds tr) = Ret (bool_decide (n = 0%nat))) as Hc
    by (intros p; by apply lexicallyContainsUnix_rel).
  split_and!; [exact Hc| |].
  - split.
    + intros -> p es tr' [Hp _ ->]. rewrite AbsPath_Join_rel by done. exists ds. split; [done|]. by rewrite Nat.sub_0_r, firstn_all.
    + intros H. destruct n as [|n]; [done|]. exfalso.
      set (x := match ds with e :: _ => if bool_decide (e = [120]) then [121] else [120] | [] => [120] end).
      assert (Forall plain [x]) as Hx.
      { constructor; [|constructor]. subst x. destruct ds as [|e ds]; [done|]. by destruct (bool_decide (e = [120])). }
      destruct (H (abs_path [x] false) [x] false) as (es' & Hes' & Hj); [by split|].
      rewrite AbsPath_Join_rel in Hj by done. cbn [length Nat.sub take app] in Hj. injection Hj as Hj.
      apply (f_equal parts) in Hj. unfold trail in Hj. rewrite !app_nil_r in Hj.
      change (parts (join ds) = parts (join (x :: es'))) in Hj.
      rewrite !parts_join in Hj by (apply plain_elems; try done; by constructor; [inversion Hx|]).
      unfold x in Hj. destruct ds as [|e ds]; [done|]. injection Hj as He _. case_bool_decide; congruence.
  - intros p es tr' [Hp _ ->]. rewrite Hc. intros [= Hn%bool_decide_eq_true]. subst n.
    rewrite lexicallyContainsSlow_spec by done. rewrite bool_decide_true; [done|].
    rewrite Nat.sub_0_r, firstn_all. by exists ds.
Qed.

Lemma lexically_contains_spec_witness :
  wf_rel (MkRelPath (str "../a")) 1 [str "a"] false /\
  AbsPath_LexicallyContains false (fun _ _ => false) (MkAbsPath (str "/a")) (MkRelPath (str "../a")) = Ret false /\
  AbsPath_lexicallyContainsSlow false (fun _ _ => false) (MkAbsPath (str "/a")) (MkRelPath (str "../a")) = Ret true.
Proof.
  assert (wf_rel (MkRelPath (str "../a")) 1 [str "a"] false) as Hr by (split; [repeat constructor; discriminate|done|reflexivity]).
  split; [exact Hr|]. destruct (lexically_contains_spec (fun _ _ => false) _ _ _ _ Hr) as (H & _). split; [apply H|].
  vm_compute. reflexivity.
Defined.

(** [MakeRelativeTo] succeeds exactly when the root's elements are a prefix
    of the path's; the result leads from the root back to the path, less its
    trailing separator, and its construction never violates the precondition of
    [NewRootRelPath]. *)
Theorem make_relative_to_spec (EqualFold : gostring -> gostring -> bool) (p root : AbsPath) (ep er : list gostring) (tp tr : bool)
  (Hp : wf_abs p ep tp) (Hr : wf_abs root er tr) :
  match AbsPath_MakeRelativeTo false EqualFold p root with
  | Ret (Some q) =>
      exists et, ep = er ++ et /\ RootRelPath_Rel q = rel_path 0 et false /\ wf_rel (RootRelPath_Rel q) 0 et false /\
        AsAbsPath false q = Ret (abs_path ep false)
  | Ret None => ~ er `prefix_of` ep
  | _ => False
  end.
Proof.
  destruct Hp as [Hp _ ->], Hr as [Hr _ ->]. destruct (decide (er `prefix_of` ep)) as [[et ->]|Hn].
  - rewrite MakeRelativeTo_below by done. apply Forall_app in Hp as [_ Ht]. exists et. split_and!; [done|done|by split|].
    unfold AsAbsPath. cbn [rroot rrvalue]. by rewrite AbsPath_Join_rel, Nat.sub_0_r, firstn_all.
  - by rewrite MakeRelativeTo_outside.
Qed.

Lemma make_relative_to_spec_witness :
  wf_abs (MkAbsPath (str "/a/b/")) [str "a"; str "b"] true /\
  match AbsPath_MakeRelativeTo false (fun _ _ => false) (MkAbsPath (str "/a/b/")) (MkAbsPath (str "/a/b/")) with
  | Ret (Some q) => AsAbsPath false q = Ret (abs_path [str "a"; str "b"] false)
  | _ => False
  end.
Proof.
  split; [exact wf_sample|]. pose proof (make_relative_to_spec (fun _ _ => false) _ _ _ _ _ _ wf_sample wf_sample) as H.
  destruct (AbsPath_MakeRelativeTo _ _ _ _) as [[q|]| |]; [|destruct (H (reflexivity _))|exact H..].
  destruct H as (et & _ & _ & _ & H). exact H.
Defined.

(** [RelativeTo] succeeds exactly below its base, with the remaining
    elements; in particular it inverts [Join] with a path that does not climb,
    ["."] being neutral on both sides. *)
Theorem rel_path_relative_to_spec (base p : RelPath) (n m : nat) (bs ps : list gostring)
  (Hb : wf_rel base n bs false) (Hp : wf_rel p m ps false) :
  match RelPath_RelativeTo false p base with
  | Ret q => exists rest, climb m ps = climb n bs ++ rest /\ q = MkRelPath (render false rest)
  | Panic k => k = PreconditionViolation /\ ~ climb n bs `prefix_of` climb m ps
  | OutOfFuel => False
  end /\
  (m = 0%nat -> exists j, RelPath_Join false base p = Ret j /\ RelPath_RelativeTo false j base = Ret p).
Proof.
  destruct Hb as [Hb _ ->], Hp as [Hp _ ->]. split.
  - destruct (decide (climb n bs `prefix_of` climb m ps)) as [[rest Hrest]|Hn].
    + rewrite (RelPath_RelativeTo_spec (climb n bs) rest) by done. by exists rest.
    + destruct (RelativeTo_cases (rel_path m ps false) (rel_path n bs false)) as [[q E]|E]; rewrite E; [|done].
      by apply RelPath_RelativeTo_inv in E.
  - intros ->. rewrite RelPath_Join_rel by done. rewrite Nat.sub_0_r, firstn_all, Nat.add_0_r. eexists. split; [done|].
    rewrite (RelPath_RelativeTo_spec (climb n bs) ps); [|done|by apply Forall_app|done|by unfold climb; rewrite app_assoc].
    unfold rel_path. cbn [trail]. by rewrite app_nil_r.
Qed.
Lemma rel_path_relative_to_spec_witness :
  wf_rel (MkRelPath (str "a")) 0 [str "a"] false /\ wf_rel (MkRelPath (str "b/c")) 0 [str "b"; str "c"] false /\
  exists j, RelPath_Join false (MkRelPath (str "a")) (MkRelPath (str "b/c")) = Ret j /\
    RelPath_RelativeTo false j (MkRelPath (str "a")) = Ret (MkRelPath (str "b/c")).
Proof.
  assert (wf_rel (MkRelPath (str "a")) 0 [str "a"] false) as H1 by (split; [repeat constructor; discriminate|done|reflexivity]).
  assert (wf_rel (MkRelPath (str "b/c")) 0 [str "b"; str "c"] false) as H2 by (split; [repeat constructor; discriminate|done|reflexivity]).
  split; [exact H1|]. split; [exact H2|]. exact (proj2 (rel_path_relative_to_spec _ _ _ _ _ _ H1 H2) eq_refl).
Defined.

(** [RelPath.Dir] of a path made of ".." alone drops one of them, which is not the parent. *)
Lemma rel_path_dir_of_dotdots :
  RelPath_Dir false (MkRelPath (str "../..")) = Ret (Some (MkRelPath (str ".."))) /\
  RelPath_Dir false (MkRelPath (str "a")) = Ret None.
Proof. split; vm_compute; reflexivity. Qed.

(** ** Base names *)
Lemma last_yield (l : list gostring) st :
  fst (range_yield l (fun component (_ : gostring) => (component, true)) st) = match last l with Some e => e | None => st end.
Proof.
  revert st. induction l as [|e l IH]; intros st; [done|]. cbn [range_yield]. rewrite IH, last_cons. by destruct (last l).
Qed.

Lemma ExtractBaseName_spec s :
  ExtractBaseName false s =
    Ret (if bool_decide (s = []) then inr (MkBaseNameError BaseNameErrorKind_EmptyString s)
         else if trailing s then inr (MkBaseNameError BaseNameErrorKind_EndsWithPathSeparator s)
         else match last (parts s) with
              | Some e => if bool_decide (e = [DOT]) || bool_decide (e = [DOT; DOT])
                          then inr (MkBaseNameError BaseNameErrorKind_NoBaseName s) else inl (MkName e)
              | None => inr (MkBaseNameError BaseNameErrorKind_NoBaseName s)
              end).
Proof.
  unfold ExtractBaseName. case_bool_decide as Hne; [done|]. unfold trailing.
  destruct (last s) as [c|] eqn:El; [|by apply last_None in El]. rewrite (last_byte _ _ El), bind_ret.
  change (PathComponents.IsPathSeparator false c) with (c =? SLASH). rewrite <- sep_slash.
  destruct (sep c); [done|]. pose proof (RelPath_Components_spec (MkRelPath s) gostring (fun component _ => (component, true)) []) as Hc.
  unfold RelPath_Components in Hc. cbn [rvalue] in Hc. destruct (Components false s) as [cs| |]; [|done..]. rewrite bind_ret in Hc. rewrite bind_ret.
  rewrite Hc, bind_ret, last_yield. pose proof (parts_elems s) as He. destruct (last (parts s)) as [e|] eqn:Ep; [|done].
  apply last_Some in Ep as [l Ep]. rewrite Ep in He. apply Forall_app in He as [_ He]. apply Forall_cons in He as [[He _] _].
  rewrite (bool_decide_false (e = [])), orb_false_r by done. by destruct (_ || _).
Qed.
