(* ===== verification/PathxTestkit.v ===== *)
(** * Generators of relative paths ([base/core/pathx/pathx_testkit/pathx_testkit.go])

    What the property tests of [pathx] draw their paths from.  The source of
    randomness is the state [T] of a third-party library; its generators are
    parameters that return a value and the rest of the source.  A generator says
    in its comment what it guarantees of the path, and the tests rely on it: the
    theorem shows that every draw keeps the promise. *)
From S2P Require Import Prelude Core Iterx Formatter GoFilepath CleanSpec Lexical PathComponents RelSpec PathTypes PathLaws.
#[local] Open Scope Z_scope.

(** ** The comparers of [CompareOptions] *)
Definition Comparer_AbsPath (a b : AbsPath) : bool := AbsPath_Compare a b =? 0.
Definition Comparer_RelPath (a b : RelPath) : bool := RelPath_Compare a b =? 0.
Definition Comparer_RootRelPath (a b : RootRelPath) : bool := RootRelPath_Compare a b =? 0.

(** ** The generators *)
Section generators.
Context (windows : bool) {T : Type} (IntRange : Z -> Z -> T -> Z * T) (Bool : T -> bool * T)
  (StringMatching : gostring -> T -> gostring * T).

Definition ComponentGen (t : T) : gostring * T := StringMatching (str "[A-Za-z0-9][A-Za-z0-9._-]{0,7}") t.

(** [for range componentCount]. *)
Fixpoint SafeRelPathGen_loop (componentCount : nat) (components : list gostring) (depth : Z) (t : T) : list gostring * T :=
  match componentCount with
  | O => (components, t)
  | S componentCount =>
      let '(kind, t) := IntRange 0 3 t in
      if kind =? 0 then SafeRelPathGen_loop componentCount (components ++ [str "."]) depth t
      else
        let '(go_up, t) := if kind =? 1 then (if 0 <? depth then Bool t else (false, t)) else (false, t) in
        if go_up then SafeRelPathGen_loop componentCount (components ++ [str ".."]) (depth - 1) t
        else
          let '(token, t) := ComponentGen t in
          SafeRelPathGen_loop componentCount (components ++ [token]) (depth + 1) t
  end.
Definition SafeRelPathGen (t : T) : go (RelPath * T) :=
  let '(componentCount, t) := IntRange 0 12 t in
  let '(components, t) := SafeRelPathGen_loop (Z.to_nat componentCount) [] 0 t in
  if zlen components =? 0 then Ret (Dot, t)
  else p ← MustParseRelPath windows (strings_Join components [Separator windows]); Ret (p, t).

Fixpoint EscapingRelPathGen_loop (fuel : nat) (components : list gostring) (upsLeft tailsLeft : Z) (t : T) : go (list gostring * T) :=
  match fuel with
  | O => OutOfFuel
  | S fuel =>
      let up t := EscapingRelPathGen_loop fuel (components ++ [str ".."]) (upsLeft - 1) tailsLeft t in
      let tail t := let '(token, t) := ComponentGen t in
                    EscapingRelPathGen_loop fuel (components ++ [token]) upsLeft (tailsLeft - 1) t in
      if (0 <? upsLeft) || (0 <? tailsLeft) then
        if (0 <? upsLeft) && (0 <? tailsLeft) then
          let '(up_or_tail, t) := Bool t in if (up_or_tail : bool) then up t else tail t
        else if 0 <? upsLeft then up t
        else tail t
      else Ret (components, t)
  end.
Definition EscapingRelPathGen (t : T) : go (RelPath * T) :=
  let '(upCount, t) := IntRange 1 6 t in
  let '(tailCount, t) := IntRange 0 (upCount - 1) t in
  '(components, t) ← EscapingRelPathGen_loop (S (Z.to_nat (upCount + tailCount))) [] upCount tailCount t;
  p ← MustParseRelPath windows (strings_Join components [Separator windows]);
  Ret (p, t).
End generators.

(** ** Comparison is equality *)
Lemma strings_Compare_zero a b : strings_Compare a b = 0 <-> a = b.
Proof.
  revert b. induction a as [|x a IH]; intros [|y b]; cbn; [done|done|done|].
  destruct (Z.ltb_spec x y); [split; [done|intros [=]; lia]|]. destruct (Z.ltb_spec y x); [split; [done|intros [=]; lia]|].
  rewrite IH. split; [intros ->; f_equal; lia|by intros [=]].
Qed.

Lemma comparers_decide_equality :
  (forall a b, Comparer_AbsPath a b = true <-> a = b) /\
  (forall a b, Comparer_RelPath a b = true <-> a = b) /\
  (forall a b, Comparer_RootRelPath a b = true <-> a = b).
Proof.
  unfold Comparer_AbsPath, Comparer_RelPath, Comparer_RootRelPath, RootRelPath_Compare, AbsPath_Compare, RelPath_Compare.
  split_and!; [intros [a] [b]|intros [a] [b]|intros [[r] [v]] [[r'] [v']]]; cbn [avalue rvalue rroot rrvalue]; [rewrite Z.eqb_eq, strings_Compare_zero; naive_solver..|].
  destruct (Z.eqb_spec (strings_Compare r r') 0) as [E|E]; cbn [negb]; rewrite Z.eqb_eq, ?strings_Compare_zero; rewrite strings_Compare_zero in E; naive_solver.
Qed.

(** ** The components *)
Definition alnum (c : Z) : bool :=
  ((65 <=? c) && (c <=? 90)) || ((97 <=? c) && (c <=? 122)) || ((48 <=? c) && (c <=? 57)).
(** The strings that match the pattern of [ComponentGen]. *)
Definition component_matches (e : gostring) : bool :=
  match e with
  | [] => false
  | c :: e' => alnum c && (zlen e' <=? 7) && forallb (fun c => alnum c || (c =? DOT) || (c =? 95) || (c =? 45)) e'
  end.

Lemma component_plain e : component_matches e = true -> plain e.
Proof.
  destruct e as [|c e]; [done|]. cbn [component_matches]. rewrite !andb_true_iff. intros [[Hc _] He].
  assert (forall c, alnum c = true -> negb (sep c) = true /\ c <> DOT) as Ha.
  { intros d Hd. unfold alnum in Hd. rewrite sep_slash. unfold SLASH, DOT. split; lia. }
  destruct (Ha c Hc) as [Hs Hd]. split_and!; [split; [done|]|congruence|congruence].
  cbn [forallb]. rewrite Hs. cbn [andb]. rewrite forallb_forall in He |- *. intros d Hin. specialize (He d Hin).
  rewrite !orb_true_iff, !Z.eqb_eq in He. destruct He as [[[He| ->]| ->]| ->]; [by apply Ha|done..].
Qed.

(** The number of ".." in a list of elements. *)
Definition dotdots (cs : list gostring) : Z := zlen (List.filter is_dotdot cs).
Lemma dotdots_app cs ds : dotdots (cs ++ ds) = dotdots cs + dotdots ds.
Proof. unfold dotdots. by rewrite List.filter_app, zlen_app. Qed.
Lemma plain_not_dotdot e : plain e -> is_dotdot e = false.
Proof. intros (_ & H & _). by apply bool_decide_eq_false. Qed.

(** ".." and names: the ".." left over, less the names left over, is the net climb. *)
Lemma net_climb cs st :
  Forall (fun e => plain e \/ e = [DOT; DOT]) cs ->
  let st' := fold_left (step false) cs st in
  Z.of_nat (ups st') - zlen (elems st') = Z.of_nat (ups st) - zlen (elems st) + 2 * dotdots cs - zlen cs /\
  Z.of_nat (ups st') <= Z.of_nat (ups st) + dotdots cs.
Proof.
  intros H. revert st. induction H as [|e cs He _ IH]; intros st; cbn [fold_left]; [unfold dotdots; cbn; zlia|].
  destruct (IH (step false st e)) as [H1 H2]. cbv zeta. rewrite H1. change (e :: cs) with ([e] ++ cs) at 1 3. rewrite dotdots_app, zlen_cons.
  assert (Z.of_nat (ups (step false st e)) - zlen (elems (step false st e)) = Z.of_nat (ups st) - zlen (elems st) + 2 * dotdots [e] - 1 /\
          Z.of_nat (ups (step false st e)) <= Z.of_nat (ups st) + dotdots [e]) as [E1 E2]; [|lia].
  unfold step, dotdots. destruct He as [He| ->].
  - cbn [List.filter]. rewrite (plain_not_dotdot e He), bool_decide_false by apply He. cbn [ups elems]. zlia.
  - change (bool_decide ([DOT; DOT] = [DOT])) with false. change (List.filter is_dotdot [[DOT; DOT]]) with [[DOT; DOT]].
    change (is_dotdot [DOT; DOT]) with true. cbv iota. destruct (elems st); cbn [ups elems]; zlia.
Qed.

(** A path joined from elements parses to what they normalize to. *)
Lemma parse_joined cs :
  Forall elem cs -> cs <> [] ->
  exists p tr, MustParseRelPath false (join cs) = Ret p /\
    wf_rel p (ups (fold_left (step false) cs (MkPath 0 []))) (rev (elems (fold_left (step false) cs (MkPath 0 [])))) tr.
Proof.
  intros He Hne. assert (is_rooted (join cs) = false) as Hr by (apply (is_rooted_body false); [done|by right]).
  exists (MkRelPath (lexical_spec (join cs))). eexists. split; [apply parse_rel; [by apply join_not_nil|done]|].
  pose proof (lexical_rel_state _ Hr) as Hwf. unfold rel_ups, rel_elems_of in Hwf. rewrite parts_join in Hwf by done. exact Hwf.
Qed.

(** ** What the generators promise *)
Section promises.
Context {T : Type} (IntRange : Z -> Z -> T -> Z * T) (Bool : T -> bool * T) (StringMatching : gostring -> T -> gostring * T). 
Context (EqualFold : gostring -> gostring -> bool).
Context (IntRange_range : forall lo hi t, lo <= hi -> lo <= fst (IntRange lo hi t) <= hi).
Context (StringMatching_matches : forall t, component_matches (fst (ComponentGen StringMatching t)) = true).

Lemma component_elem t : plain (fst (ComponentGen StringMatching t)).
Proof. apply component_plain, StringMatching_matches. Qed.

Definition safe_so_far (components : list gostring) (depth : Z) : Prop :=
  Forall elem components /\ exists acc, fold_left (step false) components (MkPath 0 []) = MkPath 0 acc /\ zlen acc = depth.

Lemma safe_snoc_dot cs depth : safe_so_far cs depth -> safe_so_far (cs ++ [str "."]) depth.
Proof.
  intros (He & acc & Ha & Hd). split; [apply Forall_app; split; [done|by repeat constructor]|].
  exists acc. by rewrite fold_left_app, Ha.
Qed.
Lemma safe_snoc_up cs depth : 0 < depth -> safe_so_far cs depth -> safe_so_far (cs ++ [str ".."]) (depth - 1).
Proof.
  intros Hpos (He & acc & Ha & Hd). split; [apply Forall_app; split; [done|by repeat constructor]|].
  destruct acc as [|e acc]; [rewrite zlen_nil in Hd; lia|]. exists acc. rewrite fold_left_app, Ha. split; [done|]. rewrite zlen_cons in Hd. lia.
Qed.
Lemma safe_snoc_name cs depth e : plain e -> safe_so_far cs depth -> safe_so_far (cs ++ [e]) (depth + 1).
Proof.
  intros Hp (He & acc & Ha & Hd). split; [apply Forall_app; split; [done|constructor; [apply Hp|done]]|].
  exists (e :: acc). rewrite fold_left_app, Ha, fold_step_elems by (by constructor). split; [done|]. rewrite zlen_cons. lia.
Qed.

Lemma safe_loop_spec n : forall components depth t, safe_so_far components depth ->
  exists depth', safe_so_far (fst (SafeRelPathGen_loop IntRange Bool StringMatching n components depth t)) depth'.
Proof.
  induction n as [|n IH]; intros components depth t Hs; [by exists depth|]. cbn [SafeRelPathGen_loop].
  destruct (IntRange 0 3 t) as [kind t1]. destruct (kind =? 0); [by apply (IH _ depth), safe_snoc_dot|].
  set (up := if kind =? 1 then _ else _). assert (fst up = true -> 0 < depth) as Hup.
  { subst up. destruct (kind =? 1); [|done]. destruct (Z.ltb_spec 0 depth); done. }
  destruct up as [[] t2]; [apply (IH _ (depth - 1)), safe_snoc_up; [by apply Hup|done]|].
  pose proof (component_elem t2) as Hc. destruct (ComponentGen StringMatching t2) as [token t3].
  by apply (IH _ (depth + 1)), safe_snoc_name.
Qed.

Lemma escaping_loop_spec fuel : forall components upsLeft tailsLeft t,
  0 <= upsLeft -> 0 <= tailsLeft -> upsLeft + tailsLeft < Z.of_nat fuel ->
  exists cs t', EscapingRelPathGen_loop Bool StringMatching fuel components upsLeft tailsLeft t = Ret (components ++ cs, t') /\
    Forall (fun e => plain e \/ e = [DOT; DOT]) cs /\ dotdots cs = upsLeft /\ zlen cs = upsLeft + tailsLeft.
Proof.
  induction fuel as [|fuel IH]; intros components u tl t Hu Ht Hf; [lia|]. cbn [EscapingRelPathGen_loop].
  assert (forall t, 0 < u -> exists cs t', EscapingRelPathGen_loop Bool StringMatching fuel (components ++ [str ".."]) (u - 1) tl t = Ret (components ++ cs, t') /\
    Forall (fun e => plain e \/ e = [DOT; DOT]) cs /\ dotdots cs = u /\ zlen cs = u + tl) as Hup.
  { intros t1 Hpos. destruct (IH (components ++ [str ".."]) (u - 1) tl t1) as (cs & t' & -> & H1 & H2 & H3); [lia..|].
    exists (str ".." :: cs), t'. rewrite <- app_assoc. split_and!; [done|constructor; [by right|done]| |rewrite zlen_cons; lia].
    change (str ".." :: cs) with ([str ".."] ++ cs). rewrite dotdots_app, H2. change (dotdots [str ".."]) with 1. lia. }
  assert (forall t, 0 < tl -> exists cs t', (let '(token, t) := ComponentGen StringMatching t in EscapingRelPathGen_loop Bool StringMatching fuel (components ++ [token]) u (tl - 1) t) = Ret (components ++ cs, t') /\
    Forall (fun e => plain e \/ e = [DOT; DOT]) cs /\ dotdots cs = u /\ zlen cs = u + tl) as Htail.
  { intros t1 Hpos. pose proof (component_elem t1) as Hc. destruct (ComponentGen StringMatching t1) as [token t2]. cbn [fst] in Hc.
    destruct (IH (components ++ [token]) u (tl - 1) t2) as (cs & t' & -> & H1 & H2 & H3); [lia..|].
    exists (token :: cs), t'. rewrite <- app_assoc. split_and!; [done|constructor; [by left|done]| |rewrite zlen_cons; lia].
    change (token :: cs) with ([token] ++ cs). rewrite dotdots_app, H2. unfold dotdots. cbn [List.filter]. by rewrite (plain_not_dotdot token Hc). }
  destruct (Z.ltb_spec 0 u) as [Hu'|Hu'], (Z.ltb_spec 0 tl) as [Ht'|Ht']; cbn [orb andb]; [|by apply Hup|by apply Htail|].
  - destruct (Bool t) as [[] t1]; [by apply Hup|by apply Htail].
  - exists [], t. rewrite app_nil_r. split_and!; [done|done|change (0 = u); lia|change (0 = u + tl); lia].
Qed.

(** The two generators keep the promises of their comments, whatever is drawn:
    a path of [SafeRelPathGen] has no ".." left once it is parsed, so that it is
    contained in every root; a path of [EscapingRelPathGen] parses to one that
    climbs out by between one and six directories, and no root contains it. *)
Theorem rel_path_generators_spec (t : T) :
  (exists p t' es tr, SafeRelPathGen false IntRange Bool StringMatching t = Ret (p, t') /\ wf_rel p 0 es tr /\
     forall root, AbsPath_LexicallyContains false EqualFold root p = Ret true) /\
  (exists p t' n es tr, EscapingRelPathGen false IntRange Bool StringMatching t = Ret (p, t') /\ wf_rel p n es tr /\ (1 <= n <= 6)%nat /\
     forall root, AbsPath_LexicallyContains false EqualFold root p = Ret false).
Proof.
  split.
  - unfold SafeRelPathGen. destruct (IntRange 0 12 t) as [count t1].
    destruct (safe_loop_spec (Z.to_nat count) [] 0 t1) as (depth & He & acc & Ha & _); [split; [done|by exists []]|].
    destruct (SafeRelPathGen_loop _ _ _ _ _ _ _) as [cs t2]. cbn [fst] in *. destruct cs as [|e cs].
    + exists Dot, t2, [], false. by split_and!.
    + rewrite (proj2 (Z.eqb_neq _ 0)) by zlia. destruct (parse_joined (e :: cs) He ltac:(done)) as (p & tr & Hp & Hwf).
      rewrite Ha in Hwf. change [Separator false] with [SLASH]. rewrite Hp. eexists p, t2, _, tr. split_and!; [done|exact Hwf|].
      intros root. destruct Hwf as [Hpl _ ->]. unfold AbsPath_LexicallyContains. by rewrite lexicallyContainsUnix_rel.
  - unfold EscapingRelPathGen. pose proof (IntRange_range 1 6 t ltac:(lia)) as Hu. destruct (IntRange 1 6 t) as [u t1]. cbn [fst] in Hu.
    pose proof (IntRange_range 0 (u - 1) t1 ltac:(lia)) as Ht. destruct (IntRange 0 (u - 1) t1) as [tl t2]. cbn [fst] in Ht.
    destruct (escaping_loop_spec (S (Z.to_nat (u + tl))) [] u tl t2) as (cs & t3 & -> & Hcs & Hd & Hl); [lia..|].
    cbn [app]. rewrite bind_ret. change [Separator false] with [SLASH].
    destruct (net_climb cs (MkPath 0 []) Hcs) as [H1 H2]. cbv zeta in *. cbn [ups elems] in H1, H2.
    destruct (parse_joined cs) as (p & tr & Hp & Hwf).
    { eapply Forall_impl; [exact Hcs|]. intros e [He| ->]; [apply He|done]. }
    { intros ->. rewrite zlen_nil in Hl. lia. }
    set (st := fold_left (step false) cs (MkPath 0 [])) in *. change (zlen (@nil gostring)) with 0 in H1. pose proof (zlen_nonneg (elems st)).
    rewrite Hp. eexists p, t3, _, _, tr. split_and!; [done|exact Hwf|lia|lia|].
    intros root. destruct Hwf as [Hpl _ ->]. unfold AbsPath_LexicallyContains. rewrite lexicallyContainsUnix_rel by done.
    by rewrite bool_decide_false by lia.
Qed.
End promises.

(** ** Samples

    The source is a list of numbers; a source that has run dry gives the least value. *)
Definition tape_IntRange (lo hi : Z) (t : list Z) : Z * list Z :=
  match t with [] => (lo, []) | x :: t => (lo + x mod (Z.max 1 (hi - lo + 1)), t) end.
Definition tape_Bool (t : list Z) : bool * list Z :=
  match t with [] => (false, []) | x :: t => (negb (x =? 0), t) end.
Definition tape_StringMatching (pattern : gostring) (t : list Z) : gostring * list Z := (str "a.b", t).

Example generator_samples :
  SafeRelPathGen false tape_IntRange tape_Bool tape_StringMatching [5; 2; 0; 1; 1; 3; 2] = Ret (MkRelPath (str "a.b/a.b"), []) /\
  SafeRelPathGen false tape_IntRange tape_Bool tape_StringMatching [2; 2; 1; 1] = Ret (MkRelPath (str "."), []) /\
  EscapingRelPathGen false tape_IntRange tape_Bool tape_StringMatching [2; 2; 1; 1; 0; 0] = Ret (MkRelPath (str "../../a.b"), []).
Proof. vm_compute. done. Qed.

Lemma rel_path_generators_spec_witness :
  exists p t' es tr, SafeRelPathGen false tape_IntRange tape_Bool tape_StringMatching [3; 2; 1; 1] = Ret (p, t') /\ wf_rel p 0 es tr.
Proof.
  destruct (rel_path_generators_spec tape_IntRange tape_Bool tape_StringMatching (fun _ _ => true)) with (t := [3; 2; 1; 1])
    as [(p & t' & es & tr & H1 & H2 & _) _]; [|done|by exists p, t', es, tr].
  intros lo hi [|x t] Hle; cbn; [lia|]. pose proof (Z.mod_pos_bound x (Z.max 1 (hi - lo + 1)) ltac:(lia)). lia.
Defined.
