(* ===== verification/Token.v ===== *)
(** * Cancellation tokens ([cancel/token.go], [cancel/never_token.go])

    Tokens are shared, mutable and linked both ways, so they live in an explicit
    heap: a [*rawToken] is a location, and every operation takes and returns the
    heap.  An [error] is a value of [E], the nil error is [None]; the [done]
    channel is the flag that says whether it has been closed.  [children] is the
    list of the slice's elements, nil being the empty list (the code keeps
    "nil iff there are no registered children"): spare capacity, and the
    [slices.Clone] that trims it, are not observable.

    This file has the operations as one caller runs them and their effect on the
    heap, lock section by lock section; [CancelConc] interleaves them. *)
From S2P Require Import Prelude Deque Queue.

Abbreviation loc := positive.

Record rawToken (E : Type) := MkToken {
  parent : option loc; parentIdx : Z; done : bool; children : list loc; err : option E }.
Arguments MkToken {_} _ _ _ _ _.
Arguments parent {_} _.
Arguments parentIdx {_} _.
Arguments done {_} _.
Arguments children {_} _.
Arguments err {_} _.
Abbreviation heap E := (gmap loc (rawToken E)).

Section token.
Context {E : Type} `{Q : Queue loc}.

Definition set_parent (p : option loc) (t : rawToken E) : rawToken E :=
  MkToken p (parentIdx t) (done t) (children t) (err t).
Definition set_parentIdx (i : Z) (t : rawToken E) : rawToken E :=
  MkToken (parent t) i (done t) (children t) (err t).
Definition set_children (l : list loc) (t : rawToken E) : rawToken E :=
  MkToken (parent t) (parentIdx t) (done t) l (err t).

Definition deref (h : heap E) (t : loc) : go (rawToken E) :=
  match h !! t with Some tok => Ret tok | None => Panic NilDereference end.

Inductive CancelResult := Result_CanceledByUs | Result_AlreadyCanceled.

(** ** Lock sections *)

(** [registerChild]: [Some e] is the returned error. *)
Definition registerChild (h : heap E) (t child : loc) : go (heap E * option E) :=
  tok ← deref h t;
  match err tok with
  | Some e => Ret (h, Some e)
  | None =>
      ctok ← deref h child;
      let h := <[child := set_parentIdx (zlen (children tok)) ctok]> h in
      tok ← deref h t;
      Ret (<[t := set_children (children tok ++ [child]) tok]> h, None)
  end.

Definition unregisterChild (h : heap E) (par child : loc) : go (heap E) :=
  ptok ← deref h par;
  match err ptok with
  | Some _ => _ ← Invariant (bool_decide (children ptok = [])); Ret h
  | None =>
      ctok ← deref h child;
      let idx := parentIdx ctok in
      let n := zlen (children ptok) in
      if (idx <? 0) || (n <=? idx) then PanicInvariantViolation
      else
        c ← index (children ptok) idx;
        if bool_decide (c <> child) then PanicInvariantViolation
        else
          let last := n - 1 in
          h ← (if negb (idx =? last) then
                 moved ← index (children ptok) last;
                 kids ← store (children ptok) idx moved;
                 let h := <[par := set_children kids ptok]> h in
                 mtok ← deref h moved;
                 if bool_decide (parent mtok <> Some par) then PanicInvariantViolation
                 else Ret (<[moved := set_parentIdx idx mtok]> h)
               else Ret h);
          ptok ← deref h par;
          kids ← slice_to (children ptok) last;
          Ret (<[par := set_children kids ptok]> h)
  end.

(** Steps 1-5 of [cancelSelfAndDetachChildren]: the section under [t.mu], with
    the detached children. *)
Definition cancelLocked (h : heap E) (t : loc) (e : E) : go (heap E * CancelResult * list loc) :=
  tok ← deref h t;
  match err tok with
  | Some _ => Ret (h, Result_AlreadyCanceled, [])
  | None =>
      if done tok then Panic CloseOfClosedChannel
      else Ret (<[t := MkToken (parent tok) (parentIdx tok) true [] (Some e)]> h,
                Result_CanceledByUs, children tok)
  end.

Definition cancelSelfAndDetachChildren (h : heap E) (t : loc) (e : E) (q : queue)
    : go (heap E * queue * CancelResult) :=
  '(h, r, kids) ← cancelLocked h t e;
  match r with
  | Result_AlreadyCanceled => Ret (h, q, Result_AlreadyCanceled)
  | Result_CanceledByUs =>
      q ← queue_ReserveMore q (zlen kids);
      q ← push_values kids q;
      Ret (h, q, Result_CanceledByUs)
  end.

(** ** The operations of a token *)
Definition KeepGoing (h : heap E) (t : loc) : go (option E) := tok ← deref h t; Ret (err tok).
Definition Done (h : heap E) (t : loc) : go bool := tok ← deref h t; Ret (done tok).

Fixpoint drain (fuel : nat) (h : heap E) (e : E) (q : queue) : go (heap E) :=
  match fuel with
  | O => OutOfFuel
  | S fuel =>
      '(descendant, q) ← queue_TryPopFront q;
      match descendant with
      | Some d => '(h, q, _) ← cancelSelfAndDetachChildren h d e q; drain fuel h e q
      | None => Ret h
      end
  end.

Definition Cancel (fuel : nat) (h : heap E) (t : loc) (e : option E) : go (heap E * CancelResult) :=
  match e with
  | None => Panic PreconditionViolation
  | Some e =>
      '(h, q, result) ← cancelSelfAndDetachChildren h t e queue_new;
      match result with
      | Result_CanceledByUs =>
          tok ← deref h t;
          h ← (match parent tok with Some p => unregisterChild h p t | None => Ret h end);
          h ← drain fuel h e q;
          Ret (h, Result_CanceledByUs)
      | Result_AlreadyCanceled => Ret (h, Result_AlreadyCanceled)
      end
  end.

Definition fresh_token (par : option loc) : rawToken E := MkToken par 0 false [] None.

Definition newChildToken (fuel : nat) (h : heap E) (par : option loc) : go (heap E * loc) :=
  let t := fresh (dom h) in
  let h := <[t := fresh_token par]> h in
  match par with
  | None => Ret (h, t)
  | Some p =>
      '(h, e) ← registerChild h p t;
      match e with
      | None => Ret (h, t)
      | Some e =>
          tok ← deref h t;
          '(h, _) ← Cancel fuel (<[t := set_parent None tok]> h) t (Some e);
          Ret (h, t)
      end
  end.
Definition NewChild (fuel : nat) (h : heap E) (t : loc) : go (heap E * loc) := newChildToken fuel h (Some t).

(** [Never()]: its [KeepGoing] is nil, its [Done] channel is nil (never ready). *)
Definition never_KeepGoing : option E := None.
Definition never_Done : option bool := None.
Definition never_NewChild (fuel : nat) (h : heap E) : go (heap E * loc) := newChildToken fuel h None.
End token.

(** ** The invariant

    [q] are the tokens waiting in some canceller's queue and [u] those that are
    canceled and still to be unregistered by their canceller.  The links are
    consistent in both directions, a canceled token has no children, and every
    token below a canceled one is canceled or waiting in a queue. *)
Section invariant.
Context {E : Type}.
Implicit Types (h : heap E) (tok ctok ptok : rawToken E) (q u : list loc) (c p t : loc).

Record CInv h q u : Prop := {
  ci_err t tok : h !! t = Some tok ->
    (done tok = true <-> err tok <> None) /\ (err tok <> None -> children tok = []);
  ci_child p ptok (i : nat) c : h !! p = Some ptok -> children ptok !! i = Some c ->
    exists ctok, h !! c = Some ctok /\ parent ctok = Some p /\ parentIdx ctok = Z.of_nat i;
  ci_parent c ctok p : h !! c = Some ctok -> parent ctok = Some p ->
    p <> c /\ exists ptok, h !! p = Some ptok /\
      match err ptok with
      | None => c ∈ children ptok \/ (err ctok <> None /\ c ∉ u)
      | Some _ => err ctok <> None \/ c ∈ q
      end;
  ci_queue_nodup : NoDup q;
  ci_queue c : c ∈ q -> exists ctok p ptok,
    h !! c = Some ctok /\ parent ctok = Some p /\ h !! p = Some ptok /\ err ptok <> None;
  ci_unreg_nodup : NoDup u;
  ci_unreg c : c ∈ u -> exists ctok, h !! c = Some ctok /\ err ctok <> None
}.

Lemma deref_Ret h t tok : h !! t = Some tok -> deref h t = Ret tok.
Proof. unfold deref. by intros ->. Qed.

Lemma children_lookup_inj h q u p ptok (i j : nat) c :
  CInv h q u -> h !! p = Some ptok ->
  children ptok !! i = Some c -> children ptok !! j = Some c -> i = j.
Proof.
  intros HI Hp Hi Hj. destruct (ci_child _ _ _ HI p ptok i c Hp Hi) as (ctok & Hc & _ & E1).
  destruct (ci_child _ _ _ HI p ptok j c Hp Hj) as (ctok' & Hc' & _ & E2). simplify_eq. lia.
Qed.

Lemma children_nodup h q u p ptok : CInv h q u -> h !! p = Some ptok -> NoDup (children ptok).
Proof. intros HI Hp. apply NoDup_alt. intros i j c. by apply (children_lookup_inj h q u p). Qed.

Lemma children_elem h q u p ptok c :
  CInv h q u -> h !! p = Some ptok -> c ∈ children ptok ->
  exists ctok, h !! c = Some ctok /\ parent ctok = Some p.
Proof.
  intros HI Hp [i Hi]%list_elem_of_lookup. destruct (ci_child _ _ _ HI p ptok i c Hp Hi) as (ctok & ? & ? & _).
  eauto.
Qed.

#[export] Instance CInv_perm h : Proper (Permutation ==> Permutation ==> iff) (CInv h).
Proof.
  assert (forall q q' u u', q ≡ₚ q' -> u ≡ₚ u' -> CInv h q u -> CInv h q' u') as Himp.
  { intros q q' u u' Hq Hu [Herr Hchild Hparent Hqn Hqe Hun Hue]. split; try done.
    - intros c ctok p Hc Hp. destruct (Hparent c ctok p Hc Hp) as (Hne & ptok & Hptok & Hm).
      split; [done|]. exists ptok. split; [done|]. destruct (err ptok); [by rewrite <- Hq|by rewrite <- Hu].
    - by rewrite <- Hq.
    - intros c. rewrite <- Hq. apply Hqe.
    - by rewrite <- Hu.
    - intros c. rewrite <- Hu. apply Hue. }
  intros q q' Hq u u' Hu. split; apply Himp; by rewrite ?Hq, ?Hu.
Qed.

(** A canceller may forget that it must unregister a token, and drop a canceled
    token from its queue. *)
Lemma CInv_drop_unreg h q u t : CInv h q (t :: u) -> CInv h q u.
Proof.
  intros [Herr Hchild Hparent Hqn Hqe Hun Hue]. split; try done.
  - intros c ctok p Hc Hp. destruct (Hparent c ctok p Hc Hp) as (Hne & ptok & Hptok & Hm).
    split; [done|]. exists ptok. split; [done|]. destruct (err ptok); [done|]. set_solver.
  - by inversion Hun.
  - intros c Hc. apply Hue. set_solver.
Qed.

Lemma CInv_drop_queue h q u t tok : CInv h (t :: q) u -> h !! t = Some tok -> err tok <> None -> CInv h q u.
Proof.
  intros [Herr Hchild Hparent Hqn Hqe Hun Hue] Ht Hcan. split; try done.
  - intros c ctok p Hc Hp. destruct (Hparent c ctok p Hc Hp) as (Hne & ptok & Hptok & Hm).
    split; [done|]. exists ptok. split; [done|]. destruct (err ptok); [|done].
    destruct (decide (c = t)) as [->|]; [left; congruence|]. set_solver.
  - by inversion Hqn.
  - intros c Hc. apply Hqe. set_solver.
Qed.

(** ** Allocation and registration *)
Lemma CInv_no_parent h q u t c ctok p :
  CInv h q u -> h !! t = None -> h !! c = Some ctok -> parent ctok = Some p -> p <> t.
Proof.
  intros HI Ht Hc Hp ->. destruct (ci_parent _ _ _ HI c ctok t Hc Hp) as (_ & ptok & ? & _). congruence.
Qed.

Lemma alloc_spec h q u t : CInv h q u -> h !! t = None -> CInv (<[t := fresh_token None]> h) q u.
Proof.
  intros HI Ht. pose proof HI as [Herr Hchild Hparent Hqn Hqe Hun Hue]. split; try done.
  - intros t' tok [[<- <-]|[Hne Hl]]%lookup_insert_Some; [done|eauto].
  - intros p ptok i c [[<- <-]|[Hne Hl]]%lookup_insert_Some Hi; [done|].
    destruct (Hchild p ptok i c Hl Hi) as (ctok & Hc & ?). exists ctok.
    rewrite lookup_insert_ne by congruence. done.
  - intros c ctok p [[<- <-]|[Hne Hl]]%lookup_insert_Some Hp; [done|].
    destruct (Hparent c ctok p Hl Hp) as (Hpc & ptok & Hptok & ?). split; [done|]. exists ptok.
    rewrite lookup_insert_ne by congruence. done.
  - intros c Hc. destruct (Hqe c Hc) as (ctok & p & ptok & ? & ? & ? & ?). exists ctok, p, ptok.
    rewrite !lookup_insert_ne by congruence. done.
  - intros c Hc. destruct (Hue c Hc) as (ctok & ? & ?). exists ctok.
    rewrite !lookup_insert_ne by congruence. done.
Qed.

Lemma register_run h p ptok t :
  h !! p = Some ptok -> h !! t = None ->
  let h1 := <[t := fresh_token (Some p)]> h in
  registerChild h1 p t =
    match err ptok with
    | Some e => Ret (h1, Some e)
    | None => Ret (<[p := set_children (children ptok ++ [t]) ptok]>
                     (<[t := set_parentIdx (zlen (children ptok)) (fresh_token (Some p))]> h), None)
    end.
Proof.
  intros Hp Ht h1. assert (p <> t) as Hne by congruence. unfold registerChild, h1.
  rewrite (deref_Ret _ p ptok) by (by rewrite lookup_insert_ne). rewrite bind_ret.
  destruct (err ptok); [done|]. rewrite (deref_Ret _ t (fresh_token (Some p))) by (by rewrite lookup_insert_eq).
  rewrite bind_ret. cbv zeta. rewrite (deref_Ret _ p ptok) by (by rewrite !lookup_insert_ne).
  rewrite bind_ret. by rewrite insert_insert_eq.
Qed.

Lemma register_CInv h q u p ptok t :
  CInv h q u -> h !! p = Some ptok -> err ptok = None -> h !! t = None ->
  CInv (<[p := set_children (children ptok ++ [t]) ptok]>
         (<[t := set_parentIdx (zlen (children ptok)) (fresh_token (Some p))]> h)) q u.
Proof.
  intros HI Hp Hal Ht. pose proof HI as [Herr Hchild Hparent Hqn Hqe Hun Hue].
  assert (p <> t) as Hpt by congruence.
  set (h' := <[p := _]> _).
  assert (forall c ctok, h !! c = Some ctok -> exists ctok', h' !! c = Some ctok' /\
    parent ctok' = parent ctok /\ parentIdx ctok' = parentIdx ctok /\ err ctok' = err ctok /\
    (c <> p -> ctok' = ctok)) as Hold.
  { intros c ctok Hc. unfold h'. destruct (decide (c = p)) as [->|Hcp].
    - rewrite lookup_insert_eq. simplify_eq. eexists. split; [done|]. done.
    - rewrite !lookup_insert_ne by congruence. eauto 10. }
  split; try done.
  - intros t' tok. unfold h'. rewrite !lookup_insert_Some. intros [[<- <-]|[Hne [[<- <-]|[Hne' Hl]]]].
    + cbn. destruct (Herr p ptok Hp) as [Hd _]. by rewrite Hal in *.
    + done.
    + eauto.
  - intros p' ptok' i c Hl Hi. assert (h' !! t = Some (set_parentIdx (zlen (children ptok)) (fresh_token (Some p)))) as Hht.
    { unfold h'. by rewrite lookup_insert_ne, lookup_insert_eq. }
    unfold h' in Hl. revert Hl. rewrite !lookup_insert_Some. intros [[<- <-]|[Hne [[<- <-]|[Hne' Hl]]]].
    + cbn in Hi. apply lookup_app_Some in Hi as [Hi|[Hlen Hi]].
      * destruct (Hchild p ptok i c Hp Hi) as (ctok & Hc & Hpar & Hidx).
        destruct (Hold c ctok Hc) as (ctok' & ? & ? & ? & _). exists ctok'. split; [done|]. split; congruence.
      * apply list_lookup_singleton_Some in Hi as [Hi <-]. eexists. split; [exact Hht|]. cbn. unfold zlen. split; [done|lia].
    + done.
    + destruct (Hchild p' ptok' i c Hl Hi) as (ctok & Hc & Hpar & Hidx).
      destruct (Hold c ctok Hc) as (ctok' & ? & ? & ? & _). exists ctok'. split; [done|]. split; congruence.
  - intros c ctok p'. destruct (decide (c = t)) as [->|Hct].
    + unfold h'. rewrite lookup_insert_ne, lookup_insert_eq by done. intros [= <-] [= <-].
      split; [congruence|]. rewrite lookup_insert_eq. eexists. split; [done|]. cbn. rewrite Hal. left. set_solver.
    + intros Hc Hpar. assert (exists ctok0, h !! c = Some ctok0 /\ parent ctok0 = Some p' /\ err ctok0 = err ctok) as (ctok0 & Hc0 & Hpar0 & He0).
      { unfold h' in Hc. revert Hc. rewrite !lookup_insert_Some. intros [[<- <-]|[Hne [[<- <-]|[Hne' Hl]]]]; naive_solver. }
      destruct (Hparent c ctok0 p' Hc0 Hpar0) as (Hpc & ptok0 & Hptok0 & Hm). split; [done|].
      destruct (decide (p' = p)) as [->|Hpp].
      * unfold h'. rewrite lookup_insert_eq. simplify_eq. eexists. split; [done|]. cbn. rewrite Hal in Hm |- *.
        rewrite He0 in Hm. set_solver.
      * destruct (Hold p' ptok0 Hptok0) as (ptok1 & Hp1 & _ & _ & _ & Heq). exists ptok1. split; [done|].
        rewrite (Heq Hpp). by rewrite <- He0.
  - intros c Hc. destruct (Hqe c Hc) as (ctok & p' & ptok' & H1 & H2 & H3 & H4).
    destruct (Hold c ctok H1) as (ctok1 & ? & ? & _). destruct (Hold p' ptok' H3) as (ptok1 & ? & _ & _ & ? & _).
    exists ctok1, p', ptok1. split_and!; congruence.
  - intros c Hc. destruct (Hue c Hc) as (ctok & H1 & H2).
    destruct (Hold c ctok H1) as (ctok1 & ? & _ & _ & ? & _). exists ctok1. split; congruence.
Qed.

(** ** The cancelling section *)
Definition cancelled_token (e : E) tok : rawToken E := MkToken (parent tok) (parentIdx tok) true [] (Some e).

Lemma cancelLocked_run h q u t tok e :
  CInv h q u -> h !! t = Some tok ->
  cancelLocked h t e =
    match err tok with
    | Some _ => Ret (h, Result_AlreadyCanceled, [])
    | None => Ret (<[t := cancelled_token e tok]> h, Result_CanceledByUs, children tok)
    end.
Proof.
  intros HI Ht. unfold cancelLocked. rewrite (deref_Ret _ t tok), bind_ret by done.
  destruct (err tok) eqn:He; [done|]. destruct (ci_err _ _ _ HI t tok Ht) as [Hd _].
  destruct (done tok); [|done]. exfalso. by apply Hd.
Qed.

Lemma cancel_CInv h q u t tok e :
  CInv h q u -> h !! t = Some tok -> err tok = None ->
  CInv (<[t := cancelled_token e tok]> h) (q ++ children tok) (t :: u).
Proof.
  intros HI Ht Hal. pose proof HI as [Herr Hchild Hparent Hqn Hqe Hun Hue]. set (h' := <[t := _]> h).
  assert (forall c ctok, h !! c = Some ctok -> exists ctok', h' !! c = Some ctok' /\
    parent ctok' = parent ctok /\ parentIdx ctok' = parentIdx ctok /\ (err ctok <> None -> err ctok' <> None)) as Hold.
  { intros c ctok Hc. unfold h'. destruct (decide (c = t)) as [->|Hct].
    - rewrite lookup_insert_eq. simplify_eq. eexists. split; [done|]. done.
    - rewrite !lookup_insert_ne by congruence. eauto 10. }
  assert (h' !! t = Some (cancelled_token e tok)) as Ht' by apply lookup_insert_eq.
  split.
  - intros t' tok'. unfold h'. intros [[<- <-]|[Hne Hl]]%lookup_insert_Some; [done|eauto].
  - intros p ptok i c. unfold h' at 1. intros [[<- <-]|[Hne Hl]]%lookup_insert_Some Hi; [done|].
    destruct (Hchild p ptok i c Hl Hi) as (ctok & Hc & Hpar & Hidx).
    destruct (Hold c ctok Hc) as (ctok' & ? & ? & ? & _). exists ctok'. split_and!; congruence.
  - intros c ctok' p Hc' Hpar'.
    assert (exists ctok, h !! c = Some ctok /\ parent ctok = Some p /\
              (c = t /\ err ctok' <> None \/ c <> t /\ ctok' = ctok)) as (ctok & Hc & Hpar & Hcase).
    { revert Hc'. unfold h'. intros [[<- <-]|[Hne Hl]]%lookup_insert_Some; eauto 10. }
    destruct (Hparent c ctok p Hc Hpar) as (Hpc & ptok & Hp & Hm). split; [done|].
    destruct (decide (p = t)) as [->|Hpt].
    + exists (cancelled_token e tok). split; [done|]. cbn. simplify_eq. rewrite Hal in Hm.
      destruct Hcase as [[-> ?]|[? ->]]; [done|]. set_solver.
    + exists ptok. unfold h'. rewrite lookup_insert_ne by done. split; [done|].
      destruct Hcase as [[-> ?]|[Hct ->]]; destruct (err ptok); set_solver.
  - apply NoDup_app. split_and!; [done| |by eapply children_nodup].
    intros c Hcq Hcc. destruct (Hqe c Hcq) as (ctok & p & ptok & Hc & Hpar & Hp & Hne).
    destruct (children_elem h q u t tok c HI Ht Hcc) as (ctok' & Hc' & Hpar'). simplify_eq.
  - intros c [Hcq|Hcc]%elem_of_app.
    + destruct (Hqe c Hcq) as (ctok & p & ptok & Hc & Hpar & Hp & Hne).
      destruct (Hold c ctok Hc) as (ctok' & ? & ? & _). destruct (Hold p ptok Hp) as (ptok' & ? & _ & _ & ?).
      exists ctok', p, ptok'. split_and!; try done; [congruence|auto].
    + destruct (children_elem h q u t tok c HI Ht Hcc) as (ctok & Hc & Hpar).
      destruct (Hold c ctok Hc) as (ctok' & ? & ? & _). exists ctok', t, (cancelled_token e tok).
      split_and!; done || congruence.
  - apply NoDup_cons. split; [|done]. intros Htu. destruct (Hue t Htu) as (? & ? & ?). congruence.
  - intros c [->|Hcu]%elem_of_cons; [by eexists|].
    destruct (Hue c Hcu) as (ctok & Hc & Hne). destruct (Hold c ctok Hc) as (ctok' & ? & _ & _ & ?).
    exists ctok'. auto.
Qed.

(** ** Unregistering *)

(** The effect of [unregisterChild] on the token at [c]: [p] loses its [i]-th
    child, and [moved], its last one, takes that index. *)
Definition unregistered p kids moved (i : Z) c tok : rawToken E :=
  MkToken (parent tok) (if decide (c = moved) then i else parentIdx tok) (done tok)
    (if decide (c = p) then kids else children tok) (err tok).

Definition swap_remove (l : list loc) (i : nat) (moved : loc) : list loc :=
  take (length l - 1) (<[i := moved]> l).

Lemma swap_remove_lookup l i moved j :
  l !! (length l - 1)%nat = Some moved -> (i < length l)%nat ->
  swap_remove l i moved !! j =
    if decide (j < length l - 1)%nat then (if decide (j = i) then Some moved else l !! j) else None.
Proof.
  intros Hl Hi. unfold swap_remove. destruct (decide _).
  - rewrite lookup_take_lt by lia. destruct (decide (j = i)) as [->|].
    + by rewrite list_lookup_insert_eq by lia.
    + by rewrite list_lookup_insert_ne by done.
  - by rewrite lookup_take_ge by lia.
Qed.

Lemma unregister_run h p ptok t tok (i : nat) moved mtok :
  h !! p = Some ptok -> err ptok = None -> h !! t = Some tok -> parentIdx tok = Z.of_nat i ->
  children ptok !! i = Some t -> children ptok !! (length (children ptok) - 1)%nat = Some moved ->
  h !! moved = Some mtok -> parent mtok = Some p -> moved <> p ->
  (moved = t -> i = (length (children ptok) - 1)%nat) ->
  exists h', unregisterChild h p t = Ret h' /\
    forall c, h' !! c = unregistered p (swap_remove (children ptok) i moved) moved (Z.of_nat i) c <$> h !! c.
Proof.
  intros Hp Hal Ht Hidx Hi Hlast Hm Hmp Hne Hmt. unfold unregisterChild.
  rewrite (deref_Ret _ p ptok), bind_ret, Hal by done. rewrite (deref_Ret _ t tok), bind_ret by done.
  cbv zeta. rewrite Hidx. pose proof (lookup_lt_Some _ _ _ Hi) as Hilt.
  rewrite (proj2 (Z.ltb_ge _ _)), (proj2 (Z.leb_gt _ _)) by (unfold zlen; lia). cbn [orb].
  rewrite (index_nat _ i t), bind_ret by done. rewrite bool_decide_false by tauto.
  set (l := children ptok) in *. assert (zlen l - 1 = Z.of_nat (length l - 1)) as -> by (unfold zlen; lia).
  destruct (Z.eqb_spec (Z.of_nat i) (Z.of_nat (length l - 1))) as [He|He]; cbn [negb].
  - apply Nat2Z.inj in He. subst i. rewrite bind_ret, (deref_Ret _ p ptok), bind_ret by done. fold l.
    rewrite slice_to_in_range, bind_ret by (unfold zlen; lia). rewrite Nat2Z.id. eexists. split; [done|].
    assert (moved = t) as -> by congruence. intros c. unfold swap_remove. rewrite list_insert_id by done.
    destruct (decide (c = p)) as [->|Hcp].
    + rewrite lookup_insert_eq, Hp. cbn. unfold unregistered. rewrite decide_False, decide_True by congruence. done.
    + rewrite lookup_insert_ne by congruence. destruct (h !! c) as [ctok|] eqn:Hc; [|done]. cbn. f_equal.
      unfold unregistered. rewrite (decide_False (P := c = p)) by done. destruct (decide (c = t)) as [->|]; [|by destruct ctok]. assert (ctok = tok) as -> by congruence. by rewrite <- Hidx; destruct tok.
  - rewrite (index_nat _ _ moved), bind_ret by done. rewrite store_in_range, bind_ret, Nat2Z.id by (unfold zlen; lia).
    rewrite (deref_Ret _ moved mtok), bind_ret by (by rewrite lookup_insert_ne). rewrite bool_decide_false by tauto.
    rewrite bind_ret. rewrite (deref_Ret _ p (set_children (<[i:=moved]> l) ptok)), bind_ret
      by (by rewrite lookup_insert_ne, lookup_insert_eq by congruence).
    cbn [children set_children]. rewrite slice_to_in_range, bind_ret by (rewrite zlen_insert; unfold zlen; lia).
    rewrite Nat2Z.id. eexists. split; [done|]. intros c. fold (swap_remove l i moved). unfold unregistered.
    destruct (decide (c = p)) as [->|Hcp].
    + rewrite lookup_insert_eq, Hp. cbn. by rewrite decide_False by congruence.
    + rewrite lookup_insert_ne by congruence. destruct (decide (c = moved)) as [->|Hcm].
      * rewrite lookup_insert_eq, Hm. done.
      * rewrite !lookup_insert_ne by congruence. destruct (h !! c) as [[]|]; done.
Qed.

Lemma unregistered_lookup h h' p kids moved i c tok' :
  (forall c, h' !! c = unregistered p kids moved i c <$> h !! c) ->
  h' !! c = Some tok' <-> exists tok, h !! c = Some tok /\ tok' = unregistered p kids moved i c tok.
Proof. intros Hh. rewrite Hh, fmap_Some. done. Qed.

Lemma swap_remove_elem h q u p ptok (i : nat) t moved c :
  CInv h q u -> h !! p = Some ptok -> children ptok !! i = Some t ->
  children ptok !! (length (children ptok) - 1)%nat = Some moved ->
  c ∈ children ptok -> c <> t -> c ∈ swap_remove (children ptok) i moved.
Proof.
  intros HI Hp Hi Hl [k Hk]%list_elem_of_lookup Hct. pose proof (lookup_lt_Some _ _ _ Hk). pose proof (lookup_lt_Some _ _ _ Hi).
  assert (k <> i) by congruence. apply list_elem_of_lookup.
  destruct (decide (k = length (children ptok) - 1)%nat) as [->|].
  - exists i. rewrite swap_remove_lookup by done. rewrite !decide_True by lia. congruence.
  - exists k. rewrite swap_remove_lookup by done. rewrite decide_True, decide_False by lia. done.
Qed.

Lemma unregister_CInv h h' q u p ptok t tok (i : nat) moved :
  CInv h q (t :: u) -> h !! p = Some ptok -> err ptok = None -> h !! t = Some tok -> err tok <> None ->
  children ptok !! i = Some t -> children ptok !! (length (children ptok) - 1)%nat = Some moved ->
  (forall c, h' !! c = unregistered p (swap_remove (children ptok) i moved) moved (Z.of_nat i) c <$> h !! c) ->
  CInv h' q u.
Proof.
  intros HI Hp Hal Ht Hcan Hi Hlast Hh. pose proof HI as [Herr Hchild Hparent Hqn Hqe Hun Hue].
  set (kids := swap_remove _ _ _) in *. pose proof (fun c tok' => unregistered_lookup h h' p kids moved (Z.of_nat i) c tok' Hh) as Hlk.
  assert (forall c tok, h !! c = Some tok -> h' !! c = Some (unregistered p kids moved (Z.of_nat i) c tok)) as Hf.
  { intros c tok0 Hc. apply Hlk. eauto. }
  split.
  - intros c tok' (tok0 & Hc & ->)%Hlk. cbn. destruct (Herr c tok0 Hc) as [Hd Hk]. split; [done|].
    destruct (decide (c = p)) as [->|]; [|done]. intros. by simplify_eq.
  - intros p' ptok' j c (ptok0 & Hp' & ->)%Hlk. cbn. destruct (decide (p' = p)) as [->|Hpp].
    + unfold kids at 1. rewrite swap_remove_lookup by (done || by eapply lookup_lt_Some).
      destruct (decide (j < _)%nat) as [Hj|]; [|done]. destruct (decide (j = i)) as [->|Hji].
      * intros [= <-]. destruct (Hchild p ptok _ moved Hp Hlast) as (mtok & Hm & Hmp & _).
        eexists. split; [by apply Hf|]. cbn. by rewrite decide_True.
      * intros Hj'. destruct (Hchild p ptok j c Hp Hj') as (ctok & Hc & Hcp & Hci).
        eexists. split; [by apply Hf|]. cbn. rewrite decide_False; [done|]. intros ->.
        pose proof (children_lookup_inj _ _ _ _ _ _ _ _ HI Hp Hj' Hlast). lia.
    + intros Hj. destruct (Hchild p' ptok0 j c Hp' Hj) as (ctok & Hc & Hcp & Hci).
      eexists. split; [by apply Hf|]. cbn. rewrite decide_False; [done|]. intros ->.
      destruct (Hchild p ptok _ moved Hp Hlast) as (mtok & Hm & Hmp & _). congruence.
  - intros c ctok' p' (ctok & Hc & ->)%Hlk Hpar. cbn in Hpar.
    destruct (Hparent c ctok p' Hc Hpar) as (Hpc & ptok' & Hp' & Hm). split; [done|].
    eexists. split; [by apply Hf|]. cbn. destruct (decide (p' = p)) as [->|Hpp].
    + assert (ptok' = ptok) as -> by congruence. rewrite Hal in *.
      destruct (decide (c = t)) as [->|Hct].
      * right. split; [congruence|]. by inversion Hun.
      * destruct Hm as [Hm|Hm]; [left|right; set_solver]. by apply (swap_remove_elem h q (t :: u) p ptok i t moved c).
    + destruct (err ptok'); [done|]. set_solver.
  - done.
  - intros c Hcq. destruct (Hqe c Hcq) as (ctok & p' & ptok' & H1 & H2 & H3 & H4).
    eexists _, p', _. split; [by apply Hf|]. split; [done|]. split; [by apply Hf|]. done.
  - by inversion Hun.
  - intros c Hcu. destruct (Hue c) as (ctok & H1 & H2); [set_solver|].
    eexists. split; [by apply Hf|]. done.
Qed.

(** What unregistering leaves alone. *)
Definition same_state h h' : Prop :=
  forall c, (fun tok => (parent tok, done tok, err tok)) <$> h' !! c = (fun tok => (parent tok, done tok, err tok)) <$> h !! c.
Definition fewer_children h h' : Prop :=
  forall c tok, h !! c = Some tok -> exists tok', h' !! c = Some tok' /\ (length (children tok') <= length (children tok))%nat.

Lemma unregister_spec h q u t tok p :
  CInv h q (t :: u) -> h !! t = Some tok -> parent tok = Some p ->
  exists h', unregisterChild h p t = Ret h' /\ CInv h' q u /\ same_state h h' /\ fewer_children h h'.
Proof.
  intros HI Ht Hpar. destruct (ci_unreg _ _ _ HI t ltac:(set_solver)) as (tok0 & Ht0 & Hcan).
  assert (tok0 = tok) as -> by congruence. clear Ht0.
  destruct (ci_parent _ _ _ HI t tok p Ht Hpar) as (Hpt & ptok & Hp & Hm). destruct (err ptok) eqn:He.
  - exists h. unfold unregisterChild. rewrite (deref_Ret _ p ptok), bind_ret, He by done.
    destruct (ci_err _ _ _ HI p ptok Hp) as [_ Hk]. rewrite Invariant_true
      by (apply bool_decide_true, Hk; congruence).
    split_and!; [done|by eapply CInv_drop_unreg|done|]. intros c ctok Hc. eauto.
  - destruct Hm as [Hm|[_ Hm]]; [|set_solver]. apply list_elem_of_lookup in Hm as [i Hi].
    destruct (ci_child _ _ _ HI p ptok i t Hp Hi) as (tok1 & Ht1 & _ & Hidx).
    assert (tok1 = tok) as -> by congruence. pose proof (lookup_lt_Some _ _ _ Hi) as Hlt.
    destruct (lookup_lt_is_Some_2 (children ptok) (length (children ptok) - 1)) as [moved Hlast]; [lia|].
    destruct (ci_child _ _ _ HI p ptok _ moved Hp Hlast) as (mtok & Hmv & Hmp & _).
    destruct (unregister_run h p ptok t tok i moved mtok) as (h' & E' & Hh); try done.
    { destruct (ci_parent _ _ _ HI moved mtok p Hmv Hmp) as [? _]. congruence. }
    { intros ->. by eapply (children_lookup_inj h q (t :: u) p). }
    exists h'. split; [done|]. split; [by eapply (unregister_CInv h h' q u p ptok t tok)|]. split.
    + intros c. rewrite Hh, <- option_fmap_compose. done.
    + intros c ctok Hc. rewrite Hh, Hc. eexists. split; [done|]. cbn.
      destruct (decide (c = p)) as [->|]; [|done]. assert (ctok = ptok) as -> by congruence.
      unfold swap_remove. rewrite length_take, length_insert. lia.
Qed.
End invariant.

(** ** Counting

    [total_children]: the number of registered links; a registered token has
    one parent, so it is at most the number of tokens, as is any queue. *)
Section counting.
Context {E : Type}.
Implicit Types (h : heap E) (tok : rawToken E) (q u : list loc) (t : loc).

Definition kids h t : list loc := match h !! t with Some tok => children tok | None => [] end.
Definition all_children h : list loc := elements (dom h) ≫= kids h.
Definition total_children h : nat := length (all_children h).

Lemma nodup_dom_length h (l : list loc) : NoDup l -> (forall c, c ∈ l -> c ∈ dom h) -> (length l <= size h)%nat.
Proof.
  intros Hn Hl. rewrite <- size_dom. rewrite <- (size_list_to_set (C := gset loc) l) by done.
  apply subseteq_size. intros c. rewrite elem_of_list_to_set. apply Hl.
Qed.

Lemma CInv_queue_size h q u : CInv h q u -> (length q <= size h)%nat.
Proof.
  intros HI. apply nodup_dom_length; [apply (ci_queue_nodup _ _ _ HI)|].
  intros c Hc. destruct (ci_queue _ _ _ HI c Hc) as (ctok & _ & _ & Hl & _). by eapply elem_of_dom_2.
Qed.

Lemma kids_elem h q u p c : CInv h q u -> c ∈ kids h p -> exists ctok, h !! c = Some ctok /\ parent ctok = Some p.
Proof.
  intros HI. unfold kids. destruct (h !! p) as [ptok|] eqn:Hp; [by apply (children_elem h q u)|set_solver].
Qed.

Lemma total_children_size h q u : CInv h q u -> (total_children h <= size h)%nat.
Proof.
  intros HI. apply nodup_dom_length.
  - apply NoDup_bind; [| |apply NoDup_elements].
    + intros p1 p2 c _ _ H1 H2. destruct (kids_elem h q u p1 c HI H1) as (? & ? & ?).
      destruct (kids_elem h q u p2 c HI H2) as (? & ? & ?). congruence.
    + intros p _. unfold kids. destruct (h !! p) eqn:Hp; [by eapply children_nodup|constructor].
  - intros c (p & Hc & _)%list_elem_of_bind. destruct (kids_elem h q u p c HI Hc) as (ctok & ? & _).
    by eapply elem_of_dom_2.
Qed.

(** Replacing the token at [t]. *)
Lemma total_children_split h t tok :
  h !! t = Some tok ->
  total_children h = (length (children tok) + length (elements (dom h ∖ {[t]}) ≫= kids h))%nat.
Proof.
  intros Ht. unfold total_children, all_children.
  assert (elements (dom h) ≡ₚ t :: elements (dom h ∖ {[t]})) as ->.
  { rewrite <- elements_union_singleton by set_solver. f_equiv.
    rewrite (comm_L _ {[t]}), difference_union_L. apply elem_of_dom_2 in Ht. set_solver. }
  cbn [mbind list_bind]. rewrite length_app. unfold kids at 1. by rewrite Ht.
Qed.

Lemma bind_kids_ext h h' (l : list loc) :
  (forall c, c ∈ l -> kids h' c = kids h c) -> l ≫= kids h' = l ≫= kids h.
Proof.
  intros Hk. induction l as [|c l IH]; [done|]. cbn [mbind list_bind].
  change (list_bind _ _ ?f l) with (l ≫= f). rewrite IH by set_solver. by rewrite Hk by set_solver.
Qed.

Lemma total_children_insert h t tok tok' :
  h !! t = Some tok ->
  (total_children (<[t := tok']> h) + length (children tok) = total_children h + length (children tok'))%nat.
Proof.
  intros Ht. rewrite (total_children_split h t tok Ht).
  rewrite (total_children_split (<[t:=tok']> h) t tok') by apply lookup_insert_eq.
  rewrite dom_insert_lookup_L by eauto. rewrite (bind_kids_ext h (<[t:=tok']> h)); [lia|].
  intros c. rewrite elem_of_elements. intros Hc. unfold kids. by rewrite lookup_insert_ne by set_solver.
Qed.

Lemma total_children_alloc h t tok :
  h !! t = None -> children tok = [] -> total_children (<[t := tok]> h) = total_children h.
Proof.
  intros Ht Hk. rewrite (total_children_split _ t tok) by apply lookup_insert_eq. rewrite Hk.
  apply not_elem_of_dom in Ht as Hd. unfold total_children, all_children.
  assert (dom (<[t:=tok]> h) ∖ {[t]} = dom h) as -> by (rewrite dom_insert_L; set_solver).
  rewrite (bind_kids_ext h (<[t:=tok]> h)); [done|].
  intros c. rewrite elem_of_elements. intros Hc. unfold kids. by rewrite lookup_insert_ne by set_solver.
Qed.

Lemma total_children_fewer h h' : dom h' = dom h -> fewer_children h h' -> (total_children h' <= total_children h)%nat.
Proof.
  intros Hd Hf. unfold total_children, all_children. rewrite Hd. induction (elements (dom h)) as [|c l IH]; [done|].
  cbn [mbind list_bind]. rewrite !length_app. change (list_bind _ _ ?f l) with (l ≫= f).
  enough (length (kids h' c) <= length (kids h c))%nat by lia. unfold kids.
  destruct (h !! c) as [tok|] eqn:Hc.
  - destruct (Hf c tok Hc) as (tok' & -> & ?). done.
  - apply not_elem_of_dom in Hc. rewrite <- Hd in Hc. apply not_elem_of_dom in Hc. by rewrite Hc.
Qed.

Lemma same_state_dom h h' : same_state h h' -> dom h' = dom h.
Proof.
  intros Hs. apply set_eq. intros c. rewrite !elem_of_dom. specialize (Hs c).
  destruct (h !! c), (h' !! c); cbn in Hs; naive_solver.
Qed.
End counting.

(** ** Cancelling, with the queue *)
Section cancelling.
Context {E : Type} `{Q : Queue loc}.
Implicit Types (h : heap E) (tok ctok : rawToken E) (l r u : list loc) (t c d : loc).

Lemma cancelSelf_spec h l r u (qq : queue) t tok e :
  CInv h (l ++ r) u -> holds qq l -> h !! t = Some tok -> Z.of_nat (size h) <= MaxInt ->
  match err tok with
  | Some _ => cancelSelfAndDetachChildren h t e qq = Ret (h, qq, Result_AlreadyCanceled)
  | None =>
      exists qq', cancelSelfAndDetachChildren h t e qq =
          Ret (<[t := cancelled_token e tok]> h, qq', Result_CanceledByUs) /\
        holds qq' (l ++ children tok) /\ CInv (<[t := cancelled_token e tok]> h) ((l ++ children tok) ++ r) (t :: u)
  end.
Proof.
  intros HI Hq Ht Hsz. unfold cancelSelfAndDetachChildren.
  rewrite (cancelLocked_run h (l ++ r) u t tok e HI Ht). destruct (err tok) eqn:He; [done|].
  rewrite bind_ret. pose proof (cancel_CInv h (l ++ r) u t tok e HI Ht He) as HI'.
  rewrite <- app_assoc, (Permutation_app_comm r), app_assoc in HI'.
  assert (zlen l + zlen (children tok) <= MaxInt) as Hlen.
  { pose proof (CInv_queue_size _ _ _ HI') as Hs. rewrite !length_app in Hs.
    rewrite map_size_insert_Some in Hs by eauto. unfold zlen. lia. }
  destruct (holds_ReserveMore qq l (zlen (children tok)) Hq) as (q1 & -> & Hq1).
  { pose proof (zlen_nonneg (children tok)). lia. }
  rewrite bind_ret. destruct (holds_push_values (children tok) q1 l Hq1 Hlen) as (q2 & -> & Hq2).
  rewrite bind_ret. eauto.
Qed.

(** [descendant h t c]: [c] is [t] or below it. *)
Definition child_of h t c : Prop := exists ctok, h !! c = Some ctok /\ parent ctok = Some t.
Definition descendant h : loc -> loc -> Prop := rtc (child_of h).

(** [cancels h h' e P]: between [h] and [h'] only tokens of [P] changed state,
    from alive to canceled with [e]. *)
Definition cancels h h' (e : E) (P : loc -> Prop) : Prop :=
  dom h' = dom h /\
  forall c tok, h !! c = Some tok -> exists tok', h' !! c = Some tok' /\ parent tok' = parent tok /\
    (err tok' = err tok \/ (err tok = None /\ err tok' = Some e /\ P c)).

Lemma cancels_refl h e P : cancels h h e P.
Proof. split; [done|]. eauto. Qed.

Lemma cancels_trans h h1 h2 e (P : loc -> Prop) : cancels h h1 e P -> cancels h1 h2 e P -> cancels h h2 e P.
Proof.
  intros [D1 H1] [D2 H2]. split; [congruence|]. intros c tok Hc.
  destruct (H1 c tok Hc) as (tok1 & Hc1 & Hp1 & He1). destruct (H2 c tok1 Hc1) as (tok2 & Hc2 & Hp2 & He2).
  exists tok2. split; [done|]. split; [congruence|].
  destruct He1 as [He1|(? & ? & ?)], He2 as [He2|(? & ? & ?)]; simplify_eq; intuition congruence.
Qed.

Lemma cancels_mono h h' e (P P' : loc -> Prop) : (forall c, P c -> P' c) -> cancels h h' e P -> cancels h h' e P'.
Proof.
  intros HP [D H]. split; [done|]. intros c tok Hc. destruct (H c tok Hc) as (tok' & ? & ? & He).
  exists tok'. intuition eauto.
Qed.

Lemma cancels_child_of h h' e P t c : cancels h h' e P -> child_of h' t c <-> child_of h t c.
Proof.
  intros [D H]. split; intros (ctok & Hc & Hp).
  - destruct (h !! c) as [ctok0|] eqn:Hc0.
    + destruct (H c ctok0 Hc0) as (ctok' & ? & ? & _). exists ctok0. split; [done|]. congruence.
    + apply not_elem_of_dom in Hc0. rewrite <- D in Hc0. apply elem_of_dom_2 in Hc. done.
  - destruct (H c ctok Hc) as (ctok' & ? & ? & _). exists ctok'. split; [done|]. congruence.
Qed.

Lemma cancels_descendant h h' e P t c : cancels h h' e P -> descendant h' t c <-> descendant h t c.
Proof.
  intros H. split; intros Hd; induction Hd as [|a b c Hab _ IH]; try apply rtc_refl;
    (eapply rtc_l; [|exact IH]); by apply (cancels_child_of h h' e P).
Qed.

Lemma cancels_one h t tok e (P : loc -> Prop) :
  h !! t = Some tok -> err tok = None -> P t -> cancels h (<[t := cancelled_token e tok]> h) e P.
Proof.
  intros Ht He HP. split; [by rewrite dom_insert_lookup_L by eauto|]. intros c ctok Hc.
  destruct (decide (c = t)) as [->|Hne].
  - rewrite lookup_insert_eq. simplify_eq. eexists. split; [done|]. cbn. auto.
  - rewrite lookup_insert_ne by done. eauto.
Qed.

Lemma same_state_cancels h h' e P : same_state h h' -> cancels h h' e P.
Proof.
  intros Hs. split; [by apply same_state_dom|]. intros c tok Hc. specialize (Hs c). rewrite Hc in Hs.
  destruct (h' !! c) as [tok'|]; [|done]. cbn in Hs. simplify_eq. exists tok'. auto.
Qed.

(** The queue loop ends, and cancels only what is below the queued tokens. *)
Lemma drain_spec fuel h e (qq : queue) l :
  CInv h l [] -> holds qq l -> Z.of_nat (size h) <= MaxInt -> (length l + total_children h < fuel)%nat ->
  exists h', drain fuel h e qq = Ret h' /\ CInv h' [] [] /\
    cancels h h' e (fun c => exists d, d ∈ l /\ descendant h d c).
Proof.
  revert h qq l. induction fuel as [|fuel IH]; intros h qq l HI Hq Hsz Hf; [lia|]. cbn [drain].
  destruct (holds_TryPopFront qq l Hq) as (qq1 & -> & Hq1). rewrite bind_ret.
  destruct l as [|d l]; cbn [hd_error tl] in *.
  { exists h. split_and!; [done|done|apply cancels_refl]. }
  destruct (ci_queue _ _ _ HI d ltac:(set_solver)) as (dtok & p & ptok & Hd & Hdp & Hp & Hpe).
  assert (CInv h (l ++ [d]) []) as HI1 by (by rewrite <- Permutation_cons_append).
  pose proof (cancelSelf_spec h l [d] [] qq1 d dtok e HI1 Hq1 Hd Hsz) as Hc. cbn [length] in Hf.
  destruct (err dtok) eqn:He.
  - rewrite Hc, bind_ret. destruct (IH h qq1 l) as (h' & ? & ? & Hcs); [|done|done|lia|].
    { eapply CInv_drop_queue; [exact HI|exact Hd|congruence]. }
    exists h'. split_and!; [done|done|]. eapply cancels_mono; [|exact Hcs]. set_solver.
  - destruct Hc as (qq2 & -> & Hq2 & HI2). rewrite bind_ret. set (h1 := <[d := _]> h) in *.
    assert (h1 !! d = Some (cancelled_token e dtok)) as Hd1 by apply lookup_insert_eq.
    assert (cancels h h1 e (fun c => exists d', d' ∈ d :: l /\ descendant h d' c)) as Hone.
    { apply cancels_one; [done..|]. exists d. split; [set_solver|apply rtc_refl]. }
    destruct (IH h1 qq2 (l ++ children dtok)) as (h' & ? & ? & Hcs).
    + rewrite (comm app _ [d]) in HI2. eapply CInv_drop_unreg, CInv_drop_queue; [exact HI2|exact Hd1|done].
    + done.
    + unfold h1. by rewrite map_size_insert_Some by eauto.
    + pose proof (total_children_insert h d dtok (cancelled_token e dtok) Hd) as Ht. cbn in Ht. fold h1 in Ht.
      rewrite length_app. lia.
    + exists h'. split_and!; [done|done|]. eapply cancels_trans; [exact Hone|].
      eapply cancels_mono; [|exact Hcs]. intros c (d' & Hd' & Hdc). apply (cancels_descendant _ _ _ _ _ _ Hone) in Hdc.
      apply elem_of_app in Hd' as [Hd'|Hd']; [exists d'; set_solver|]. exists d. split; [set_solver|].
      destruct (children_elem h (d :: l) [] d dtok d' HI Hd Hd') as (tok' & ? & ?).
      eapply rtc_l; [|exact Hdc]. by exists tok'.
Qed.

(** In a quiescent heap, everything below a canceled token is canceled. *)
Lemma quiescent_closed h u t tok c ctok :
  CInv h [] u -> h !! t = Some tok -> err tok <> None -> descendant h t c -> h !! c = Some ctok -> err ctok <> None.
Proof.
  intros HI Ht He Hd. revert tok Ht He. induction Hd as [t|t m c Hchild Hmc IH]; intros tok Ht He Hc; [congruence|].
  destruct Hchild as (mtok & Hm & Hmp). apply (IH mtok Hm); [|done].
  destruct (ci_parent _ _ _ HI m mtok t Hm Hmp) as (_ & tok' & Ht' & Hcase).
  assert (tok' = tok) as -> by congruence. destruct (err tok); [|done]. set_solver.
Qed.

Lemma Cancel_spec fuel h t tok e :
  CInv h [] [] -> h !! t = Some tok -> Z.of_nat (size h) <= MaxInt -> (size h < fuel)%nat ->
  match err tok with
  | Some _ => Cancel fuel h t (Some e) = Ret (h, Result_AlreadyCanceled)
  | None => exists h', Cancel fuel h t (Some e) = Ret (h', Result_CanceledByUs) /\ CInv h' [] [] /\
      cancels h h' e (descendant h t) /\ (exists tok', h' !! t = Some tok' /\ err tok' = Some e)
  end.
Proof.
  intros HI Ht Hsz Hf. unfold Cancel.
  pose proof (cancelSelf_spec h [] [] [] queue_new t tok e HI holds_new Ht Hsz) as Hc.
  destruct (err tok) eqn:He; [by rewrite Hc|]. destruct Hc as (q1 & -> & Hq1 & HI1). rewrite bind_ret.
  rewrite app_nil_r in HI1. cbn [app] in HI1, Hq1. set (h1 := <[t := _]> h) in *.
  assert (h1 !! t = Some (cancelled_token e tok)) as Ht1 by apply lookup_insert_eq.
  assert (cancels h h1 e (descendant h t)) as Hone by (apply cancels_one; done || apply rtc_refl).
  rewrite (deref_Ret h1 t (cancelled_token e tok)), bind_ret by done. cbn [parent cancelled_token].
  pose proof (total_children_insert h t tok (cancelled_token e tok) Ht) as Htot. cbn in Htot. fold h1 in Htot.
  pose proof (total_children_size _ _ _ HI) as Hbound.
  assert (exists h2, (match parent tok with Some p => unregisterChild h1 p t | None => Ret h1 end) = Ret h2 /\
            CInv h2 (children tok) [] /\ same_state h1 h2 /\ fewer_children h1 h2) as (h2 & -> & HI2 & Hs & Hfew).
  { destruct (parent tok) as [p|] eqn:Hp; [by apply (unregister_spec h1 _ [] t (cancelled_token e tok) p)|].
    exists h1. split_and!; [done|by eapply CInv_drop_unreg|done|]. intros c ctok Hc. eauto. }
  rewrite bind_ret. pose proof (same_state_dom _ _ Hs) as Hdom.
  assert (size h2 = size h) as Hsz2.
  { rewrite <- !size_dom, Hdom. unfold h1. by rewrite dom_insert_lookup_L by eauto. }
  pose proof (total_children_fewer h1 h2 Hdom Hfew) as Hle.
  destruct (drain_spec fuel h2 e q1 (children tok) HI2 Hq1) as (h3 & -> & HI3 & Hcs); [lia..|].
  pose proof (same_state_cancels h1 h2 e (descendant h t) Hs) as Hun.
  assert (cancels h h2 e (descendant h t)) as H02 by (by eapply cancels_trans).
  rewrite bind_ret. exists h3. split_and!; [done|done| |].
  - eapply cancels_trans; [exact H02|]. eapply cancels_mono; [|exact Hcs].
    intros c (d & Hd & Hdc). apply (cancels_descendant _ _ _ _ _ _ H02) in Hdc.
    destruct (children_elem h [] [] t tok d HI Ht Hd) as (dtok & ? & ?).
    eapply rtc_l; [|exact Hdc]. by exists dtok.
  - destruct Hun as [_ Hun]. destruct (Hun t _ Ht1) as (t2 & Ht2 & _ & He2). cbn in He2.
    destruct Hcs as [_ Hcs]. destruct (Hcs t t2 Ht2) as (t3 & Ht3 & _ & He3). exists t3. split; [done|].
    destruct He2 as [He2|(? & _)]; [|done]. destruct He3 as [He3|(He3 & _)]; congruence.
Qed.

Lemma CInv_empty : CInv (∅ : heap E) [] [].
Proof. split; intros *; rewrite ?lookup_empty; (done || constructor || set_solver). Qed.

(** ** Creating tokens *)
Lemma fresh_lookup h : h !! fresh (dom h) = None.
Proof. apply not_elem_of_dom, is_fresh. Qed.

Lemma newChild_alive fuel h p ptok :
  CInv h [] [] -> h !! p = Some ptok -> err ptok = None ->
  let t := fresh (dom h) in
  exists h', newChildToken fuel h (Some p) = Ret (h', t) /\ CInv h' [] [] /\
    (exists tok, h' !! t = Some tok /\ parent tok = Some p /\ err tok = None) /\
    (forall c ctok, h !! c = Some ctok -> exists ctok', h' !! c = Some ctok' /\ parent ctok' = parent ctok /\ err ctok' = err ctok) /\
    dom h' = {[t]} ∪ dom h.
Proof.
  intros HI Hp He t. pose proof (fresh_lookup h) as Hf. fold t in Hf.
  unfold newChildToken. fold t. cbv zeta. rewrite (register_run h p ptok t Hp Hf), He, bind_ret.
  assert (p <> t) by congruence. eexists. split; [done|]. split; [by apply register_CInv|]. split; [|split].
  - eexists. rewrite lookup_insert_ne, lookup_insert_eq by done. done.
  - intros c ctok Hc. assert (c <> t) by congruence. destruct (decide (c = p)) as [->|Hcp].
    + rewrite lookup_insert_eq. simplify_eq. eexists. split; [done|]. done.
    + rewrite !lookup_insert_ne by congruence. eauto.
  - rewrite !dom_insert_L. apply elem_of_dom_2 in Hp. set_solver.
Qed.

Lemma newChild_canceled fuel h p ptok e :
  CInv h [] [] -> h !! p = Some ptok -> err ptok = Some e -> Z.of_nat (size h) < MaxInt -> (S (size h) < fuel)%nat ->
  let t := fresh (dom h) in
  exists h', newChildToken fuel h (Some p) = Ret (h', t) /\ CInv h' [] [] /\
    (exists tok, h' !! t = Some tok /\ parent tok = None /\ err tok = Some e) /\
    (forall c ctok, h !! c = Some ctok -> exists ctok', h' !! c = Some ctok' /\ parent ctok' = parent ctok /\ err ctok' = err ctok) /\
    dom h' = {[t]} ∪ dom h.
Proof.
  intros HI Hp He Hsz Hfu t. pose proof (fresh_lookup h) as Hf. fold t in Hf.
  unfold newChildToken. fold t. cbv zeta. rewrite (register_run h p ptok t Hp Hf), He, bind_ret.
  rewrite (deref_Ret _ t (fresh_token (Some p))), bind_ret by apply lookup_insert_eq.
  rewrite insert_insert_eq. change (set_parent None (fresh_token (Some p))) with (fresh_token (E := E) None).
  set (h1 := <[t := fresh_token None]> h).
  assert (h1 !! t = Some (fresh_token None)) as Ht1 by apply lookup_insert_eq.
  assert (size h1 = S (size h)) as Hs1 by (by apply map_size_insert_None).
  pose proof (Cancel_spec fuel h1 t _ e (alloc_spec h [] [] t HI Hf) Ht1 ltac:(lia) ltac:(lia)) as Hc.
  cbn [err fresh_token] in Hc. destruct Hc as (h' & -> & HI' & [Hd Hcs] & tok' & Ht' & He').
  rewrite bind_ret. exists h'. split; [done|]. split; [done|].
  destruct (Hcs t _ Ht1) as (tok2 & Ht2 & Hpar & _). assert (tok2 = tok') as -> by congruence. split; [by exists tok'|].
  split; [|by rewrite Hd; unfold h1; rewrite dom_insert_L].
  intros c ctok Hcl. assert (c <> t) by congruence.
  destruct (Hcs c ctok) as (ctok' & ? & ? & Hcase); [by unfold h1; rewrite lookup_insert_ne|]. exists ctok'. split_and!; [done..|].
  destruct Hcase as [|(_ & _ & Hdesc)]; [done|]. exfalso.
  (* nothing is below the new token *)
  apply rtc_inv in Hdesc as [?|(m & (mtok & Hm & Hmp) & _)]; [congruence|].
  destruct (ci_parent _ _ _ (alloc_spec h [] [] t HI Hf) m mtok t Hm Hmp) as (Hne & tok0 & Ht0 & Hcase).
  change (<[t := fresh_token None]> h) with h1 in Ht0. assert (tok0 = fresh_token None) as -> by congruence. cbn in Hcase. destruct Hcase as [Hin|[Hne' _]]; [set_solver|].
  unfold h1 in Hm. rewrite lookup_insert_ne in Hm by done.
  destruct (ci_parent _ _ _ HI m mtok t Hm Hmp) as (_ & tok0 & Ht0' & _). congruence.
Qed.
End cancelling.

(** ** Main theorems *)
Section main.
Context {E : Type} `{Q : Queue loc}.

(** C5: run alone on a consistent heap, [Cancel] ends within as many queue
    rounds as there are tokens and never trips an assertion.  It reports
    [CanceledByUs] exactly if the token was alive; it cancels with the given
    error every token below that was still alive, leaves every other token and
    every earlier error as it was, closes exactly the channels of canceled
    tokens, and keeps the heap consistent. *)
Theorem cancel_sequential (fuel : nat) (h : heap E) (t : loc) (tok : rawToken E) (e : E)
  (HI : CInv h [] []) (Ht : h !! t = Some tok) (Hsize : Z.of_nat (size h) <= MaxInt) (Hfuel : (size h < fuel)%nat) :
  exists h' r, Cancel fuel h t (Some e) = Ret (h', r) /\ CInv h' [] [] /\
    (r = Result_CanceledByUs <-> err tok = None) /\ dom h' = dom h /\
    forall c ctok, h !! c = Some ctok ->
      exists ctok', h' !! c = Some ctok' /\ parent ctok' = parent ctok /\
        (done ctok' = true <-> err ctok' <> None) /\
        (err ctok <> None -> err ctok' = err ctok) /\
        (err ctok = None -> descendant h t c -> err ctok' = Some e) /\
        (err ctok = None -> ~ descendant h t c -> err ctok' = None).
Proof.
  pose proof (Cancel_spec fuel h t tok e HI Ht Hsize Hfuel) as Hc. destruct (err tok) as [e0|] eqn:He.
  - exists h, Result_AlreadyCanceled. split_and!; try done. intros c ctok Hcl. exists ctok.
    split_and!; try done; [apply (ci_err _ _ _ HI c ctok Hcl)|].
    intros Hn Hd. exfalso. apply (quiescent_closed h [] t tok c ctok HI Ht); congruence || done.
  - destruct Hc as (h' & -> & HI' & [Hd Hcs] & tok' & Ht' & He'). exists h', Result_CanceledByUs.
    split_and!; try done. intros c ctok Hcl. destruct (Hcs c ctok Hcl) as (ctok' & Hcl' & Hp & Hcase).
    exists ctok'. split_and!; try done; [apply (ci_err _ _ _ HI' c ctok' Hcl')|..].
    + intros Hn. destruct Hcase as [|(? & _)]; congruence.
    + intros Hn Hdesc. destruct Hcase as [Heq|(_ & ? & _)]; [|done]. exfalso.
      apply (quiescent_closed h' [] t tok' c ctok' HI' Ht'); [congruence| |done|congruence].
      by apply (cancels_descendant h h' e (descendant h t)).
    + intros Hn Hdesc. destruct Hcase as [Heq|(_ & _ & ?)]; [congruence|done].
Qed.

(** [NewChild] of a token returns a token that no one else holds, and keeps
    the heap consistent and every other token as it was.  Under an alive parent
    the child is alive and linked to it; under a canceled parent it is born
    canceled with the parent's error and linked to nothing. *)
Theorem new_child_spec (fuel : nat) (h : heap E) (p : loc) (ptok : rawToken E)
  (HI : CInv h [] []) (Hp : h !! p = Some ptok) (Hsize : Z.of_nat (size h) < MaxInt) (Hfuel : (S (size h) < fuel)%nat) :
  exists h' t tok, NewChild fuel h p = Ret (h', t) /\ h !! t = None /\ h' !! t = Some tok /\
    CInv h' [] [] /\ err tok = err ptok /\ (done tok = true <-> err ptok <> None) /\
    parent tok = (match err ptok with None => Some p | Some _ => None end) /\
    forall c ctok, h !! c = Some ctok ->
      exists ctok', h' !! c = Some ctok' /\ parent ctok' = parent ctok /\ err ctok' = err ctok.
Proof.
  unfold NewChild. destruct (err ptok) as [e|] eqn:He.
  - destruct (newChild_canceled fuel h p ptok e HI Hp He Hsize Hfuel) as (h' & E' & HI' & (tok & Ht & Hpar & Het) & Hold & _).
    exists h', (fresh (dom h)), tok. split_and!; try done; [apply fresh_lookup|].
    pose proof (ci_err _ _ _ HI' _ tok Ht) as [Hd _]. by rewrite Het in Hd.
  - destruct (newChild_alive fuel h p ptok HI Hp He) as (h' & E' & HI' & (tok & Ht & Hpar & Het) & Hold & _).
    exists h', (fresh (dom h)), tok. split_and!; try done; [apply fresh_lookup|].
    pose proof (ci_err _ _ _ HI' _ tok Ht) as [Hd _]. by rewrite Het in Hd.
Qed.
End main.

(** A root with two children, the second of which has a child. *)
Definition sample_heap : heap Z :=
  {[ 1%positive := MkToken None 0 false [2%positive; 3%positive] None;
     2%positive := MkToken (Some 1%positive) 0 false [] None;
     3%positive := MkToken (Some 1%positive) 1 false [4%positive] None;
     4%positive := MkToken (Some 3%positive) 0 false [] None ]}.

Lemma sample_heap_built :
  let Q := deque_queue 1%positive in
  ('(h, a) ← never_NewChild 10 (∅ : heap Z); '(h, b) ← NewChild 10 h a; '(h, c) ← NewChild 10 h a;
   '(h, d) ← NewChild 10 h c; Ret (h, [a; b; c; d])) = Ret (sample_heap, [1; 2; 3; 4]%positive).
Proof. vm_compute. reflexivity. Qed.

Lemma sample_heap_CInv : CInv sample_heap [] [].
Proof.
  pose proof (alloc_spec ∅ [] [] 1%positive (CInv_empty (E := Z)) eq_refl) as H1.
  pose proof (register_CInv _ [] [] 1%positive _ 2%positive H1 eq_refl eq_refl eq_refl) as H2.
  pose proof (register_CInv _ [] [] 1%positive _ 3%positive H2 eq_refl eq_refl eq_refl) as H3.
  pose proof (register_CInv _ [] [] 3%positive _ 4%positive H3 eq_refl eq_refl eq_refl) as H4.
  exact H4.
Qed.

Lemma cancel_sequential_witness :
  CInv sample_heap [] [] /\
  exists h', Cancel (Q := deque_queue 1%positive) 5 sample_heap 3%positive (Some 7) = Ret (h', Result_CanceledByUs) /\
    (forall c, c ∈ dom h' <-> c ∈ dom sample_heap) /\
    (err <$> h' !! 4%positive) = Some (Some 7) /\ (err <$> h' !! 2%positive) = Some None.
Proof.
  split; [exact sample_heap_CInv|].
  destruct (cancel_sequential (Q := deque_queue 1%positive) 5 sample_heap 3%positive _ 7 sample_heap_CInv eq_refl)
    as (h' & r & Hrun & _ & _ & Hd & _); [vm_compute; discriminate|vm_compute; lia|].
  exists h'. vm_compute in Hrun. injection Hrun as <- <-. split; [vm_compute; reflexivity|].
  split; [by intros c; rewrite Hd|]. split; vm_compute; reflexivity.
Defined.

Lemma new_child_spec_witness :
  CInv sample_heap [] [] /\
  exists h' t, NewChild (Q := deque_queue 1%positive) 6 sample_heap 4%positive = Ret (h', t) /\ sample_heap !! t = None /\
    (parent <$> h' !! t) = Some (Some 4%positive).
Proof.
  split; [exact sample_heap_CInv|].
  destruct (new_child_spec (Q := deque_queue 1%positive) 6 sample_heap 4%positive _ sample_heap_CInv eq_refl)
    as (h' & t & tok & Hrun & Hf & Ht & _ & _ & _ & Hp & _); [vm_compute; reflexivity|vm_compute; lia|].
  exists h', t. split; [exact Hrun|]. split; [exact Hf|]. rewrite Ht. cbn. rewrite Hp. reflexivity.
Defined.
