(* ===== verification/CancelConc.v ===== *)
(** * Concurrent cancellation ([cancel/token.go])

    Every field of a token that changes is guarded by the mutex of one token, so
    a goroutine acts on the shared heap one lock section at a time, and between
    two sections it only touches its own queue (and tokens it has not published).
    A goroutine is therefore a program counter whose step is one lock section
    with the local work after it, and the system is the interleaving of any
    number of goroutines that run any operations on any existing tokens.  No section
    takes a second mutex, so a goroutine that waits for one holds none, and making a
    section one step loses no behaviour of the locks.

    [NewChild] is one step: the allocation is private, and the token becomes
    reachable by others in the section of [registerChild]. *)
From S2P Require Import Prelude Deque Queue Token.

Section system.
Context {E : Type} `{Q : Queue loc}.

Inductive pc :=
  | Idle
  | AtNewChild (par : option loc)  (** [newChildToken] has been called *)
  | AtCancel (t : loc) (e : E)  (** before [cancelSelfAndDetachChildren] in [Cancel] *)
  | AtUnregister (p t : loc) (qq : queue) (e : E)  (** before [t.parent.unregisterChild(t)] *)
  | AtDrain (qq : queue) (e : E)  (** at the head of the queue loop *)
  | AtKeepGoing (t : loc).

#[export] Instance pc_idle_dec (c : pc) : Decision (c = Idle).
Proof. destruct c; first [by left|by right]. Defined.

Definition thread_step (h : heap E) (c : pc) : go (heap E * pc) :=
  match c with
  | Idle => Ret (h, Idle)
  | AtNewChild None =>
      let t := fresh (dom h) in Ret (<[t := fresh_token None]> h, Idle)
  | AtNewChild (Some p) =>
      let t := fresh (dom h) in
      '(h, e) ← registerChild (<[t := fresh_token (Some p)]> h) p t;
      match e with
      | None => Ret (h, Idle)
      | Some e => tok ← deref h t; Ret (<[t := set_parent None tok]> h, AtCancel t e)
      end
  | AtCancel t e =>
      '(h, qq, r) ← cancelSelfAndDetachChildren h t e queue_new;
      match r with
      | Result_AlreadyCanceled => Ret (h, Idle)
      | Result_CanceledByUs =>
          tok ← deref h t;
          match parent tok with
          | Some p => Ret (h, AtUnregister p t qq e)
          | None => Ret (h, AtDrain qq e)
          end
      end
  | AtUnregister p t qq e => h ← unregisterChild h p t; Ret (h, AtDrain qq e)
  | AtDrain qq e =>
      '(descendant, qq) ← queue_TryPopFront qq;
      match descendant with
      | Some d => '(h, qq, _) ← cancelSelfAndDetachChildren h d e qq; Ret (h, AtDrain qq e)
      | None => Ret (h, Idle)
      end
  | AtKeepGoing t => _ ← KeepGoing h t; Ret (h, Idle)
  end.

(** The calls a goroutine may start: on tokens that exist. *)
Definition startable (h : heap E) (c : pc) : Prop :=
  match c with
  | AtNewChild None => True
  | AtNewChild (Some t) | AtCancel t _ | AtKeepGoing t => t ∈ dom h
  | _ => False
  end.

Definition system : Type := heap E * list pc.
Definition start (n : nat) : system := (∅, replicate n Idle).

Inductive run_step : system -> system -> Prop :=
  | RunThread h ts i c h' c' :
      ts !! i = Some c -> c <> Idle -> thread_step h c = Ret (h', c') -> run_step (h, ts) (h', <[i := c']> ts).
Inductive sys_step : system -> system -> Prop :=
  | Run s s' : run_step s s' -> sys_step s s'
  | StartCall h ts i c : ts !! i = Some Idle -> startable h c -> sys_step (h, ts) (h, <[i := c]> ts).
Definition reachable (s : system) : Prop := exists n, rtc sys_step (start n) s.

(** ** One thread, against the rest *)

(** [extends h h']: tokens persist, with their parent; an error, once set, stays. *)
Definition extends (h h' : heap E) : Prop :=
  forall c tok, h !! c = Some tok -> exists tok', h' !! c = Some tok' /\ parent tok' = parent tok /\
    (err tok <> None -> err tok' = err tok).

(** What the program counter promises: [l] is the list of its queue, [u] the
    token it must unregister. *)
Definition pc_ok (h : heap E) (c : pc) (g : list loc * list loc) : Prop :=
  match c with
  | Idle | AtNewChild None => g = ([], [])
  | AtNewChild (Some t) | AtCancel t _ | AtKeepGoing t => g = ([], []) /\ t ∈ dom h
  | AtUnregister p t qq _ => holds qq g.1 /\ g.2 = [t] /\ exists tok, h !! t = Some tok /\ parent tok = Some p
  | AtDrain qq _ => holds qq g.1 /\ g.2 = []
  end.

Definition weight (c : pc) : nat :=
  match c with
  | Idle => 0 | AtNewChild _ => 5 | AtCancel _ _ => 3 | AtUnregister _ _ _ _ => 2 | AtDrain _ _ => 1 | AtKeepGoing _ => 1
  end.
Definition grows (c : pc) : nat := match c with AtNewChild _ => 1 | _ => 0 end.

Lemma extends_refl h : extends h h.
Proof. intros c tok Hc. eauto. Qed.
Lemma extends_dom h h' : extends h h' -> dom h ⊆ dom h'.
Proof. intros H c. rewrite !elem_of_dom. intros [tok Hc]. destruct (H c tok Hc) as (tok' & ? & _). eauto. Qed.
Lemma extends_trans h1 h2 h3 : extends h1 h2 -> extends h2 h3 -> extends h1 h3.
Proof.
  intros H1 H2 c tok Hc. destruct (H1 c tok Hc) as (tok2 & Hc2 & Hp2 & He2).
  destruct (H2 c tok2 Hc2) as (tok3 & ? & ? & He3). exists tok3. split; [done|]. split; [congruence|].
  intros Hn. rewrite <- He2 by done. by apply He3; rewrite He2.
Qed.
Lemma cancels_extends h h' e P : cancels h h' e P -> extends h h'.
Proof.
  intros [_ H] c tok Hc. destruct (H c tok Hc) as (tok' & ? & ? & He). exists tok'. split_and!; [done..|].
  intros Hn. destruct He as [|(? & _)]; congruence.
Qed.
Lemma extends_insert h t tok tok' :
  h !! t = Some tok -> parent tok' = parent tok -> (err tok <> None -> err tok' = err tok) -> extends h (<[t := tok']> h).
Proof.
  intros Ht Hp He c ctok Hc. destruct (decide (c = t)) as [->|].
  - rewrite lookup_insert_eq. simplify_eq. eauto.
  - rewrite lookup_insert_ne by done. eauto.
Qed.
Lemma extends_alloc h t tok : h !! t = None -> extends h (<[t := tok]> h).
Proof. intros Ht c ctok Hc. rewrite lookup_insert_ne by congruence. eauto. Qed.

Lemma pc_ok_extends h h' c g : extends h h' -> pc_ok h c g -> pc_ok h' c g.
Proof.
  intros Hx Hc. pose proof (extends_dom _ _ Hx) as Hd. destruct c as [|[p|]|t e|p t qq e|qq e|t]; cbn in *; try set_solver.
  destruct Hc as (Hq & Hu & tok & Ht & Hp). destruct (Hx t tok Ht) as (tok' & ? & ? & _).
  split_and!; [done..|]. exists tok'. split; congruence.
Qed.

(** What one step does, [r] and [v] being the queued and the unregistering
    tokens of the other threads. *)
Definition step_result (h : heap E) (c : pc) (g : list loc * list loc) (r v : list loc) : Prop :=
  exists h' c' g', thread_step h c = Ret (h', c') /\ pc_ok h' c' g' /\ CInv h' (g'.1 ++ r) (g'.2 ++ v) /\ extends h h' /\
    (size h' = size h + grows c)%nat /\
    (total_children h' + weight c' + length g'.1 < total_children h + weight c + length g.1)%nat.

Lemma cancelled_size (h : heap E) t tok tok' : h !! t = Some tok -> size (<[t := tok']> h) = size h.
Proof. intros Ht. by rewrite map_size_insert_Some by eauto. Qed.

Lemma step_new_root h g r v :
  CInv h (g.1 ++ r) (g.2 ++ v) -> pc_ok h (AtNewChild None) g -> step_result h (AtNewChild None) g r v.
Proof.
  intros HI ->. pose proof (fresh_lookup h) as Hf. eexists _, Idle, ([], []). split; [done|]. split; [done|].
  split; [by apply alloc_spec|]. split; [by apply extends_alloc|].
  split; [rewrite map_size_insert_None by done; cbn; lia|]. rewrite total_children_alloc by done. cbn. lia.
Qed.

Lemma step_new_child h p g r v :
  CInv h (g.1 ++ r) (g.2 ++ v) -> pc_ok h (AtNewChild (Some p)) g -> step_result h (AtNewChild (Some p)) g r v.
Proof.
  intros HI [-> [ptok Hp]%elem_of_dom]. pose proof (fresh_lookup h) as Hf. set (t := fresh (dom h)) in *.
  assert (p <> t) as Hpt by congruence. unfold step_result, thread_step. fold t. cbv zeta.
  rewrite (register_run h p ptok t Hp Hf). destruct (err ptok) as [e|] eqn:He; rewrite bind_ret.
  - rewrite (deref_Ret _ t (fresh_token (Some p))), bind_ret by apply lookup_insert_eq. rewrite insert_insert_eq.
    eexists _, (AtCancel t e), ([], []). split; [done|]. split; [split; [done|rewrite dom_insert; set_solver]|].
    split; [by apply alloc_spec|]. split; [by apply extends_alloc|].
    split; [rewrite map_size_insert_None by done; cbn; lia|]. rewrite total_children_alloc by done. cbn. lia.
  - set (h1 := <[t := set_parentIdx _ _]> h).
    assert (h1 !! p = Some ptok) as Hp1 by (unfold h1; by rewrite lookup_insert_ne).
    eexists _, Idle, ([], []). split; [done|]. split; [done|]. split; [by apply register_CInv|].
    split; [eapply extends_trans; [by apply extends_alloc|by eapply extends_insert]|].
    split; [rewrite (cancelled_size h1 p ptok) by done; unfold h1; rewrite map_size_insert_None by done; cbn; lia|].
    pose proof (total_children_insert h1 p ptok (set_children (children ptok ++ [t]) ptok) Hp1) as Ht.
    unfold h1 in Ht at 2. rewrite (total_children_alloc h t) in Ht by done. cbn in Ht. rewrite length_app in Ht. cbn in *. lia.
Qed.

Lemma step_cancel h t e g r v :
  CInv h (g.1 ++ r) (g.2 ++ v) -> Z.of_nat (size h) <= MaxInt -> pc_ok h (AtCancel t e) g -> step_result h (AtCancel t e) g r v.
Proof.
  intros HI Hsz [-> [tok Ht]%elem_of_dom]. cbn [fst snd app] in HI. unfold step_result, thread_step.
  pose proof (cancelSelf_spec h [] r v queue_new t tok e HI holds_new Ht Hsz) as Hc. destruct (err tok) eqn:He.
  - rewrite Hc, bind_ret. eexists _, Idle, ([], []). split_and!; try done; [apply extends_refl|cbn; lia..].
  - destruct Hc as (qq & -> & Hq & HI'). rewrite bind_ret. rewrite (deref_Ret _ t (cancelled_token e tok)), bind_ret
      by apply lookup_insert_eq. cbn [parent cancelled_token]. cbn [app] in Hq, HI'.
    pose proof (total_children_insert h t tok (cancelled_token e tok) Ht) as Htot. cbn in Htot.
    assert (extends h (<[t := cancelled_token e tok]> h)) as Hx by (by apply (extends_insert h t tok)).
    destruct (parent tok) as [p|] eqn:Hp.
    + eexists _, (AtUnregister p t qq e), (children tok, [t]). split; [done|].
      split; [split_and!; [done..|]; eexists; split; [apply lookup_insert_eq|done]|].
      split; [done|]. split; [done|]. split; [rewrite (cancelled_size h t tok) by done; cbn; lia|]. cbn. lia.
    + eexists _, (AtDrain qq e), (children tok, []). split; [done|]. split; [done|].
      split; [by eapply CInv_drop_unreg|]. split; [done|]. split; [rewrite (cancelled_size h t tok) by done; cbn; lia|]. cbn. lia.
Qed.

Lemma step_unregister h p t (qq : queue) e g r v :
  CInv h (g.1 ++ r) (g.2 ++ v) -> pc_ok h (AtUnregister p t qq e) g -> step_result h (AtUnregister p t qq e) g r v.
Proof.
  intros HI (Hq & Hu & tok & Ht & Hp). rewrite Hu in HI. cbn [app] in HI. unfold step_result, thread_step.
  destruct (unregister_spec h (g.1 ++ r) v t tok p HI Ht Hp) as (h' & -> & HI' & Hs & Hfew). rewrite bind_ret.
  pose proof (same_state_dom _ _ Hs) as Hd.
  eexists _, (AtDrain qq e), (g.1, []). split; [done|]. split; [done|]. split; [done|].
  split; [by eapply (cancels_extends h h' e (fun _ => True)), same_state_cancels|].
  split; [rewrite <- !size_dom, Hd; cbn; lia|].
  pose proof (total_children_fewer h h' Hd Hfew). cbn. lia.
Qed.

Lemma step_drain h (qq : queue) e g r v :
  CInv h (g.1 ++ r) (g.2 ++ v) -> Z.of_nat (size h) <= MaxInt -> pc_ok h (AtDrain qq e) g -> step_result h (AtDrain qq e) g r v.
Proof.
  intros HI Hsz [Hq Hu]. rewrite Hu in HI. cbn [app] in HI. unfold step_result, thread_step.
  destruct g as [l u]. cbn [fst snd] in *. destruct (holds_TryPopFront qq l Hq) as (qq1 & -> & Hq1). rewrite bind_ret.
  destruct l as [|d l]; cbn [hd_error tl app] in *.
  { eexists _, Idle, ([], []). split_and!; try done; [apply extends_refl|cbn; lia..]. }
  destruct (ci_queue _ _ _ HI d ltac:(set_solver)) as (dtok & p & ptok & Hd & Hdp & Hp & Hpe).
  assert (CInv h (l ++ (d :: r)) v) as HI1 by (by rewrite <- Permutation_middle).
  pose proof (cancelSelf_spec h l (d :: r) v qq1 d dtok e HI1 Hq1 Hd Hsz) as Hc. destruct (err dtok) eqn:He.
  - rewrite Hc, bind_ret. eexists _, (AtDrain qq1 e), (l, []). split; [done|]. split; [done|].
    split; [eapply CInv_drop_queue; [exact HI|exact Hd|congruence]|]. split; [apply extends_refl|cbn; lia].
  - destruct Hc as (qq2 & -> & Hq2 & HI2). rewrite bind_ret. set (h1 := <[d := _]> h) in *.
    assert (h1 !! d = Some (cancelled_token e dtok)) as Hd1 by apply lookup_insert_eq.
    eexists _, (AtDrain qq2 e), (l ++ children dtok, []). split; [done|]. split; [done|]. split.
    { cbn [fst snd app]. rewrite <- Permutation_middle in HI2.
      eapply CInv_drop_unreg, CInv_drop_queue; [exact HI2|exact Hd1|done]. }
    split; [by apply (extends_insert h d dtok)|]. split; [unfold h1; rewrite (cancelled_size h d dtok) by done; cbn; lia|].
    pose proof (total_children_insert h d dtok (cancelled_token e dtok) Hd) as Ht. cbn in Ht. fold h1 in Ht.
    cbn. rewrite length_app. lia.
Qed.

Lemma thread_step_spec h c g r v :
  CInv h (g.1 ++ r) (g.2 ++ v) -> Z.of_nat (size h) <= MaxInt -> pc_ok h c g -> c <> Idle -> step_result h c g r v.
Proof.
  intros HI Hsz Hc Hne. destruct c as [|[p|]|t e|p t qq e|qq e|t]; [done|..].
  - by apply step_new_child.
  - by apply step_new_root.
  - by apply step_cancel.
  - by apply step_unregister.
  - by apply step_drain.
  - destruct Hc as [-> [tok Ht]%elem_of_dom]. exists h, Idle, ([], []).
    split; [cbn; unfold KeepGoing; by rewrite (deref_Ret h t tok), bind_ret by done|].
    split_and!; try done; [apply extends_refl|cbn; lia..].
Qed.

(** ** Tokens are never deallocated *)
Lemma deref_inv (h : heap E) t tok : deref h t = Ret tok -> h !! t = Some tok.
Proof. unfold deref. by destruct (h !! t) as [?|] eqn:?; intros; simplify_eq. Qed.

Ltac dom_step H :=
  match type of H with
  | mbind _ _ = Ret _ => let a := fresh "a" in let Ha := fresh "Ha" in
      apply bind_Ret_iff in H; destruct H as (a & Ha & H); cbv zeta in H
  | context [match ?x with _ => _ end] => let Hx := fresh "Hx" in destruct x eqn:Hx
  end.

Lemma registerChild_dom (h : heap E) t c h' e : registerChild h t c = Ret (h', e) -> dom h ⊆ dom h'.
Proof. unfold registerChild. intros H. repeat dom_step H; simplify_eq; rewrite ?dom_insert; set_solver. Qed.
Lemma unregisterChild_dom (h : heap E) p c h' : unregisterChild h p c = Ret h' -> dom h ⊆ dom h'.
Proof.
  unfold unregisterChild. intros H. repeat dom_step H; simplify_eq; try done.
  rewrite dom_insert. revert Ha2. clear. intros H. repeat dom_step H; simplify_eq; rewrite ?dom_insert; set_solver.
Qed.
Lemma cancelSelf_dom (h : heap E) t e (qq : queue) h' qq' r :
  cancelSelfAndDetachChildren h t e qq = Ret (h', qq', r) -> dom h ⊆ dom h'.
Proof.
  unfold cancelSelfAndDetachChildren, cancelLocked. intros H. repeat dom_step H; simplify_eq;
    repeat dom_step Ha; simplify_eq; rewrite ?dom_insert; set_solver.
Qed.

Lemma thread_step_dom (h : heap E) c h' c' : thread_step h c = Ret (h', c') -> dom h ⊆ dom h'.
Proof.
  destruct c as [|[p|]|t e|p t qq e|qq e|t]; cbn [thread_step]; intros H.
  - by simplify_eq.
  - go_inv H. destruct a as [h1 o]. apply registerChild_dom in Hrun. rewrite dom_insert in Hrun.
    destruct o; [go_inv H|]; simplify_eq; rewrite ?dom_insert; set_solver.
  - simplify_eq. rewrite dom_insert. set_solver.
  - go_inv H. destruct a as [[h1 q1] r]. apply cancelSelf_dom in Hrun. destruct r; [go_inv H|by simplify_eq].
    destruct (parent a); by simplify_eq.
  - go_inv H. apply unregisterChild_dom in Hrun. by simplify_eq.
  - go_inv H. destruct a as [[d|] q1]; [|by simplify_eq]. go_inv H. destruct a as [[h1 q2] r].
    apply cancelSelf_dom in Hrun0. by simplify_eq.
  - go_inv H. by simplify_eq.
Qed.

Lemma sys_step_size s s' : sys_step s s' -> (size s.1 <= size s'.1)%nat.
Proof.
  intros Hs. rewrite <- !size_dom. apply subseteq_size. destruct Hs as [? ? [h ts i c h' c' _ _ Hs]|]; [|done].
  cbn. by eapply thread_step_dom.
Qed.

(** ** The whole system *)
Definition SInv (s : system) (gs : list (list loc * list loc)) : Prop :=
  Forall2 (pc_ok s.1) s.2 gs /\ CInv s.1 (gs ≫= fst) (gs ≫= snd).
Definition measure (s : system) (gs : list (list loc * list loc)) : nat :=
  total_children s.1 + sum_list_with weight s.2 + length (gs ≫= fst).
Definition capacity (s : system) : nat := size s.1 + sum_list_with grows s.2.

Lemma bind_split {A B} (f : A -> list B) l i g :
  l !! i = Some g -> l ≫= f ≡ₚ f g ++ (delete i l ≫= f).
Proof. intros Hl. rewrite (delete_Permutation l i g Hl) at 1. done. Qed.
Lemma delete_insert_same {A} (l : list A) i x : delete i (<[i := x]> l) = delete i l.
Proof. revert i. induction l as [|y l IH]; intros [|i]; cbn; [done..|]. f_equal. apply IH. Qed.
Lemma bind_update {A B} (f : A -> list B) l i g g' :
  l !! i = Some g -> <[i := g']> l ≫= f ≡ₚ f g' ++ (delete i l ≫= f).
Proof.
  intros Hl. pose proof (lookup_lt_Some _ _ _ Hl) as Hi.
  rewrite (bind_split f (<[i := g']> l) i g') by (by apply list_lookup_insert_eq).
  by rewrite delete_insert_same.
Qed.
Lemma sum_update {A} (f : A -> nat) l i x y :
  l !! i = Some x -> (sum_list_with f (<[i := y]> l) + f x = sum_list_with f l + f y)%nat.
Proof.
  revert i. induction l as [|a l IH]; intros [|i] H; cbn in *; [done..| |].
  - simplify_eq. lia.
  - specialize (IH i H). unfold insert in *. lia.
Qed.

Lemma thread_step_grows (h : heap E) c h' c' : thread_step h c = Ret (h', c') -> grows c' = 0%nat.
Proof.
  destruct c as [|[p|]|t e|p t qq e|qq e|t]; cbn [thread_step]; intros H; repeat dom_step H; by simplify_eq.
Qed.

Lemma run_step_inv s s' gs :
  SInv s gs -> Z.of_nat (size s.1) <= MaxInt -> run_step s s' ->
  exists gs', SInv s' gs' /\ extends s.1 s'.1 /\ (measure s' gs' < measure s gs)%nat /\ capacity s' = capacity s /\
    length s'.2 = length s.2.
Proof.
  intros HS Hsz Hstep. destruct Hstep as [h ts i c h' c' Hi Hne Hs]. destruct HS as [Hpc HI]. cbn [fst snd] in *.
  destruct (Forall2_lookup_l _ _ _ _ _ Hpc Hi) as (g & Hg & Hgc).
  rewrite (bind_split fst gs i g Hg), (bind_split snd gs i g Hg) in HI.
  destruct (thread_step_spec h c g _ _ HI Hsz Hgc Hne) as (h1 & c1 & g' & Hs1 & Hok & HI' & Hx & Hsize & Hm).
  rewrite Hs in Hs1. injection Hs1 as <- <-. exists (<[i := g']> gs).
  split; [split; cbn [fst snd]|split; [done|]].
  - apply Forall2_insert; [|done]. eapply Forall2_impl; [exact Hpc|]. intros c0 g0. by apply pc_ok_extends.
  - by rewrite (bind_update fst gs i g g' Hg), (bind_update snd gs i g g' Hg).
  - unfold measure, capacity. cbn [fst snd].
    pose proof (sum_update weight ts i c c' Hi). pose proof (sum_update grows ts i c c' Hi).
    assert (grows c' = 0%nat) as Hgr.
    { by eapply thread_step_grows. }
    rewrite (bind_update fst gs i g g' Hg), (bind_split fst gs i g Hg), !length_app, length_insert.
    split_and!; lia.
Qed.

Lemma start_call_inv h ts i c gs :
  SInv (h, ts) gs -> ts !! i = Some Idle -> startable h c -> SInv (h, <[i := c]> ts) gs.
Proof.
  intros [Hpc HI] Hi Hc. split; [|done]. cbn [fst snd] in *.
  destruct (Forall2_lookup_l _ _ _ _ _ Hpc Hi) as (g & Hg & ->).
  rewrite <- (list_insert_id gs i _ Hg). apply Forall2_insert; [done|].
  destruct c as [|[p|]|t e|p t qq e|qq e|t]; cbn in Hc |- *; done.
Qed.

Lemma sys_step_inv s s' gs :
  SInv s gs -> Z.of_nat (size s.1) <= MaxInt -> sys_step s s' -> exists gs', SInv s' gs' /\ extends s.1 s'.1.
Proof.
  intros HS Hsz Hstep. destruct Hstep as [s s' Hr|h ts i c Hi Hc].
  - destruct (run_step_inv s s' gs HS Hsz Hr) as (gs' & ? & ? & _). eauto.
  - exists gs. split; [by apply start_call_inv|apply extends_refl].
Qed.

Lemma start_inv n : SInv (start n) (replicate n ([], [])).
Proof.
  split; cbn [fst snd start].
  - induction n; cbn; constructor; done.
  - assert (forall (f : list loc * list loc -> list loc), f ([], []) = [] -> replicate n ([], []) ≫= f = []) as Hr.
    { intros f Hf. induction n as [|n IH]; [done|]. cbn [replicate mbind list_bind]. by rewrite Hf. }
    rewrite !Hr by done. apply CInv_empty.
Qed.

Lemma steps_inv s s' gs :
  rtc sys_step s s' -> SInv s gs -> Z.of_nat (size s'.1) <= MaxInt -> exists gs', SInv s' gs' /\ extends s.1 s'.1.
Proof.
  intros Hs. revert gs. induction Hs as [s|s s1 s' H1 Hs IH]; intros gs HS Hsz.
  { exists gs. split; [done|apply extends_refl]. }
  assert (Z.of_nat (size s1.1) <= MaxInt) as Hsz1.
  { enough (size s1.1 <= size s'.1)%nat by lia. clear -Hs. induction Hs as [|? ? ? H]; [done|].
    apply sys_step_size in H. lia. }
  pose proof (sys_step_size _ _ H1) as Hle.
  destruct (sys_step_inv s s1 gs HS ltac:(lia) H1) as (gs1 & HS1 & Hx1).
  destruct (IH gs1 HS1 Hsz) as (gs' & HS' & Hx'). exists gs'. split; [done|]. by eapply extends_trans.
Qed.

Lemma reachable_inv s : reachable s -> Z.of_nat (size s.1) <= MaxInt -> exists gs, SInv s gs.
Proof.
  intros [n Hr] Hsz. destruct (steps_inv _ _ _ Hr (start_inv n) Hsz) as (gs & ? & _). eauto.
Qed.

Lemma no_panic s gs i c : SInv s gs -> Z.of_nat (size s.1) <= MaxInt -> s.2 !! i = Some c -> returns (thread_step s.1 c).
Proof.
  intros [Hpc HI] Hsz Hi. destruct (Forall2_lookup_l _ _ _ _ _ Hpc Hi) as (g & Hg & Hgc).
  rewrite (bind_split fst gs i g Hg), (bind_split snd gs i g Hg) in HI.
  destruct (decide (c = Idle)) as [->|Hne]; [by eexists|].
  destruct (thread_step_spec s.1 c g _ _ HI Hsz Hgc Hne) as (h1 & c1 & g' & Hs1 & _). rewrite Hs1. by eexists.
Qed.

Lemma run_bounded n s s' gs :
  SInv s gs -> Z.of_nat (capacity s) <= MaxInt -> nsteps run_step n s s' ->
  (n <= measure s gs)%nat /\ Z.of_nat (size s'.1) <= MaxInt /\ exists gs', SInv s' gs'.
Proof.
  intros HS Hcap Hs. revert gs HS Hcap. induction Hs as [s|n s s1 s' H1 Hs IH]; intros gs HS Hcap.
  { unfold capacity in Hcap. split_and!; [lia|lia|eauto]. }
  destruct (run_step_inv s s1 gs HS) as (gs1 & HS1 & _ & Hm & Hc & _); [unfold capacity in Hcap; lia|done|].
  destruct (IH gs1 HS1) as (? & ? & ?); [by rewrite Hc|]. split_and!; [lia|done|done].
Qed.
End system.

(** ** Main theorems *)
Section theorems.
Context {E : Type} `{Q : Queue loc}.
Implicit Types s : system (E := E).

(** C6: however the goroutines interleave, none of them panics: the checks of
    [unregisterChild] and of the canceled parent never fail, no channel is
    closed twice, no dangling token is used, and a queue never overflows. *)
Theorem cancel_concurrent_no_panic s (Hr : reachable s) (Hsize : Z.of_nat (size s.1) <= MaxInt) :
  Forall (fun c => returns (thread_step s.1 c)) s.2.
Proof.
  destruct (reachable_inv s Hr Hsize) as [gs HS]. apply Forall_lookup. intros i c. by apply (no_panic s gs).
Qed.

(** Cancellation is final and visible: along any interleaving a canceled
    token keeps its first error and its channel stays closed, an alive token has
    an open channel, and no token loses or changes its parent. *)
Theorem cancel_concurrent_final s s' (Hr : reachable s) (Hs : rtc sys_step s s') (Hsize : Z.of_nat (size s'.1) <= MaxInt) :
  forall t tok, s.1 !! t = Some tok -> exists tok', s'.1 !! t = Some tok' /\ parent tok' = parent tok /\
    (err tok <> None -> err tok' = err tok) /\ (done tok' = true <-> err tok' <> None).
Proof.
  intros t tok Ht. assert (Z.of_nat (size s.1) <= MaxInt) as Hsz.
  { enough (size s.1 <= size s'.1)%nat by lia. clear -Hs. induction Hs as [|? ? ? H]; [done|].
    apply sys_step_size in H. lia. }
  destruct (reachable_inv s Hr Hsz) as [gs HS]. destruct (steps_inv s s' gs Hs HS Hsize) as (gs' & [_ HI] & Hx).
  destruct (Hx t tok Ht) as (tok' & Ht' & Hp & He). exists tok'. split_and!; try done; apply (ci_err _ _ _ HI t tok' Ht').
Qed.

(** [Cancel] is synchronous and first come first served: the section in
    which a goroutine cancels [t] leaves [t] canceled, with the goroutine's error
    if [t] was alive and with the earlier one otherwise. *)
Theorem cancel_synchronous s (i : nat) t e h' c' (Hr : reachable s) (Hsize : Z.of_nat (size s.1) <= MaxInt)
  (Hi : s.2 !! i = Some (AtCancel t e)) (Hrun : thread_step s.1 (AtCancel t e) = Ret (h', c')) :
  exists tok tok', s.1 !! t = Some tok /\ h' !! t = Some tok' /\ err tok' = Some (default e (err tok)) /\
    (c' = Idle <-> err tok <> None).
Proof.
  destruct (reachable_inv s Hr Hsize) as [gs [Hpc HI]].
  destruct (Forall2_lookup_l _ _ _ _ _ Hpc Hi) as (g & Hg & -> & [tok Ht]%elem_of_dom).
  rewrite (bind_split fst gs i _ Hg), (bind_split snd gs i _ Hg) in HI. cbn [fst snd app] in HI.
  pose proof (cancelSelf_spec s.1 [] _ _ queue_new t tok e HI holds_new Ht Hsize) as Hc.
  cbn [thread_step] in Hrun. destruct (err tok) eqn:He.
  - rewrite Hc, bind_ret in Hrun. simplify_eq. exists tok, tok. split_and!; try done; rewrite He; [done|split; congruence].
  - destruct Hc as (qq & Hc & _). rewrite Hc, bind_ret in Hrun.
    rewrite (deref_Ret _ t (cancelled_token e tok)), bind_ret in Hrun by apply lookup_insert_eq.
    exists tok, (cancelled_token e tok). rewrite He.
    destruct (parent _) in Hrun; simplify_eq; (split_and!; [done|apply lookup_insert_eq|done|done]).
Qed.

(** C2: whenever no call is in progress, everything below a canceled token is
    canceled. *)
Theorem cancel_concurrent_propagates s t tok c ctok (Hr : reachable s) (Hsize : Z.of_nat (size s.1) <= MaxInt)
  (Hquiet : Forall (eq Idle) s.2) (Ht : s.1 !! t = Some tok) (Hcan : err tok <> None)
  (Hd : descendant s.1 t c) (Hc : s.1 !! c = Some ctok) :
  err ctok <> None.
Proof.
  destruct (reachable_inv s Hr Hsize) as [gs [Hpc HI]].
  assert (gs ≫= fst = []) as Hq.
  { clear -Hpc Hquiet. induction Hpc as [|x g ts gs Hx _ IH]; [done|]. inversion Hquiet; subst.
    cbn in Hx. subst g. cbn [mbind list_bind]. by apply IH. }
  rewrite Hq in HI. exact (quiescent_closed s.1 _ t tok c ctok HI Ht Hcan Hd Hc).
Qed.

(** C11: every call returns, under any scheduler: from a reachable state, if no
    new call starts, the goroutines can only take a bounded number of steps, and
    when none of them can step all calls have returned.  (A step is a whole lock
    section: what is shown is that no call waits or runs forever between them.) *)
Theorem cancel_concurrent_terminates s (Hr : reachable s) (Hcap : Z.of_nat (capacity s) <= MaxInt) :
  exists N : nat, forall n s', nsteps run_step n s s' ->
    (n <= N)%nat /\ ((forall s'', ~ run_step s' s'') -> Forall (eq Idle) s'.2).
Proof.
  destruct (reachable_inv s Hr) as [gs HS]; [unfold capacity in Hcap; lia|].
  exists (measure s gs). intros n s' Hs. destruct (run_bounded n s s' gs HS Hcap Hs) as (Hn & Hsz & gs' & HS').
  split; [done|]. intros Hstuck. apply Forall_lookup. intros i c Hi.
  destruct (decide (c = Idle)) as [|Hne]; [done|]. exfalso.
  destruct (no_panic s' gs' i c HS' Hsz Hi) as [[h' c'] Hrun]. destruct s' as [h ts]. eapply Hstuck. by eapply RunThread.
Qed.
End theorems.

(** ** Running schedules *)
Section schedules.
Context {E : Type} `{Q : Queue loc}.

Inductive event := Start (i : nat) (c : pc (E := E)) | Step (i : nat).

Definition startableb (h : heap E) (c : pc (E := E)) : bool :=
  match c with
  | AtNewChild None => true
  | AtNewChild (Some t) | AtCancel t _ | AtKeepGoing t => match h !! t with Some _ => true | None => false end
  | _ => false
  end.
Definition is_idle (c : pc (E := E)) : bool := match c with Idle => true | _ => false end.

Definition exec1 (s : system (E := E)) (ev : event) : option system :=
  match ev with
  | Start i c =>
      match s.2 !! i with
      | Some Idle => if startableb s.1 c then Some (s.1, <[i := c]> s.2) else None
      | _ => None
      end
  | Step i =>
      match s.2 !! i with
      | Some c =>
          if is_idle c then None
          else match thread_step s.1 c with Ret (h', c') => Some (h', <[i := c']> s.2) | _ => None end
      | None => None
      end
  end.
Fixpoint exec (s : system (E := E)) (evs : list event) : option system :=
  match evs with [] => Some s | ev :: evs' => s' ← exec1 s ev; exec s' evs' end.

Lemma all_idle (ts : list (pc (E := E))) : forallb is_idle ts = true -> Forall (eq Idle) ts.
Proof. induction ts as [|[] ts IH]; cbn; intros; constructor; auto; done. Qed.

Lemma exec_sound s evs s' : exec s evs = Some s' -> rtc sys_step s s'.
Proof.
  revert s. induction evs as [|ev evs IH]; intros s H; [cbn in H; simplify_eq; apply rtc_refl|].
  cbn [exec] in H. apply bind_Some in H as (s1 & H1 & H). eapply rtc_l; [|by apply IH].
  destruct s as [h ts], ev as [i c|i]; cbn in H1.
  - destruct (ts !! i) as [[]|] eqn:Hi; try done. destruct (startableb h c) eqn:Hc; simplify_eq.
    apply StartCall; [done|]. destruct c as [|[p|]|t e|p t qq e|qq e|t]; cbn in Hc |- *; try done;
      apply elem_of_dom; [destruct (h !! p) eqn:Hl|destruct (h !! t) eqn:Hl..]; by rewrite ?Hl.
  - destruct (ts !! i) as [c|] eqn:Hi; [|done]. destruct (is_idle c) eqn:Hc; [done|].
    destruct (thread_step h c) as [[h' c']| |] eqn:Hrun; simplify_eq. constructor. eapply RunThread; [done| |done].
    intros ->. done.
Qed.
End schedules.

(** Tokens 1, 2 below 1 and 3 below 2; one goroutine cancels 1 while another
    cancels 2: the second one's unregistration finds its parent canceled. *)
#[local] Instance sample_queue : Queue loc := deque_queue 1%positive.
Definition sample_setup : list (event (E := Z)) :=
  [Start 0 (AtNewChild None); Step 0; Start 0 (AtNewChild (Some 1%positive)); Step 0;
   Start 1 (AtNewChild (Some 2%positive)); Step 1;
   Start 0 (AtCancel 1%positive 7); Start 1 (AtCancel 2%positive 8)].
Definition sample_race : list (event (E := Z)) := [Step 1; Step 0; Step 1; Step 0; Step 0; Step 1; Step 1].

Definition run_sample (evs : list (event (E := Z))) : system (E := Z) := default (start 2) (exec (start 2) evs).
Lemma run_sample_reachable evs : (if exec (start 2) evs then true else false) = true -> reachable (run_sample evs).
Proof.
  intros H. unfold run_sample. destruct (exec (start 2) evs) as [s|] eqn:Hex; [|done]. exists 2%nat. by eapply exec_sound.
Qed.

Lemma exec_app {E} `{Q : Queue loc} (s : system (E := E)) a b : exec s (a ++ b) = s' ← exec s a; exec s' b.
Proof. revert s. induction a as [|ev a IH]; intros s; [done|]. cbn. destruct (exec1 s ev); [apply IH|done]. Qed.
Lemma run_sample_steps a b :
  (if exec (start 2) (a ++ b) then true else false) = true -> rtc sys_step (run_sample a) (run_sample (a ++ b)).
Proof.
  unfold run_sample. rewrite exec_app. destruct (exec (start 2) a) as [s|]; [|done]. cbn.
  destruct (exec s b) as [s'|] eqn:Hb; [|done]. intros _. by eapply exec_sound.
Qed.

Lemma cancel_concurrent_no_panic_witness :
  Z.of_nat (size (run_sample sample_setup).1) <= MaxInt /\
  Forall (fun c => returns (thread_step (run_sample sample_setup).1 c)) (run_sample sample_setup).2.
Proof.
  split; [vm_compute; discriminate|].
  apply (cancel_concurrent_no_panic (run_sample sample_setup)).
  - apply run_sample_reachable. vm_compute. reflexivity.
  - vm_compute. discriminate.
Defined.

Lemma cancel_concurrent_final_witness :
  let s := run_sample (sample_setup ++ take 1 sample_race) in
  let s' := run_sample ((sample_setup ++ take 1 sample_race) ++ drop 1 sample_race) in
  (err <$> s.1 !! 2%positive) = Some (Some 8) /\ (err <$> s'.1 !! 2%positive) = Some (Some 8).
Proof.
  intros s s'. split; [vm_compute; reflexivity|].
  destruct (cancel_concurrent_final s s') with (t := 2%positive) (tok := MkToken (Some 1%positive) 0 true [] (Some 8))
    as (tok' & Ht & _ & He & _).
  - apply run_sample_reachable. vm_compute. reflexivity.
  - apply run_sample_steps. vm_compute. reflexivity.
  - vm_compute. discriminate.
  - vm_compute. reflexivity.
  - rewrite Ht. cbn. rewrite He; [reflexivity|discriminate].
Defined.

Lemma cancel_synchronous_witness :
  let s := run_sample sample_setup in
  exists h' c' tok', thread_step s.1 (AtCancel 1%positive 7) = Ret (h', c') /\ h' !! 1%positive = Some tok' /\ err tok' = Some 7.
Proof.
  intros s.
  assert ((match thread_step s.1 (AtCancel 1%positive 7) with Ret _ => true | _ => false end) = true) as Hb
    by (vm_compute; reflexivity).
  destruct (thread_step s.1 (AtCancel 1%positive 7)) as [[h' c']| |] eqn:Hrun; [|discriminate Hb|discriminate Hb].
  destruct (cancel_synchronous s 0 1%positive 7 h' c') as (tok & tok' & Ht & Ht' & He & _).
  - apply run_sample_reachable. vm_compute. reflexivity.
  - vm_compute. discriminate.
  - reflexivity.
  - exact Hrun.
  - exists h', c', tok'. split; [reflexivity|]. split; [exact Ht'|]. rewrite He.
    assert ((err <$> s.1 !! 1%positive) = Some None) as Hn by (vm_compute; reflexivity).
    rewrite Ht in Hn. injection Hn as ->. reflexivity.
Defined.

Lemma cancel_concurrent_propagates_witness :
  let s := run_sample (sample_setup ++ sample_race) in
  (err <$> s.1 !! 3%positive) = Some (Some 8) /\ forall ctok, s.1 !! 3%positive = Some ctok -> err ctok <> None.
Proof.
  intros s. split; [vm_compute; reflexivity|]. intros ctok Hc.
  apply (cancel_concurrent_propagates s 1%positive (MkToken None 0 true [] (Some 7)) 3%positive ctok).
  - apply run_sample_reachable. vm_compute. reflexivity.
  - vm_compute. discriminate.
  - apply all_idle. vm_compute. reflexivity.
  - vm_compute. reflexivity.
  - discriminate.
  - apply (rtc_l _ _ 2%positive); [|apply rtc_once].
    + exists (MkToken (Some 1%positive) 0 true [] (Some 8)). split; [vm_compute; reflexivity|reflexivity].
    + exists (MkToken (Some 2%positive) 0 true [] (Some 8)). split; [vm_compute; reflexivity|reflexivity].
  - exact Hc.
Defined.

Lemma cancel_concurrent_terminates_witness :
  Z.of_nat (capacity (run_sample sample_setup)) <= MaxInt /\
  exists N : nat, forall n s', nsteps run_step n (run_sample sample_setup) s' -> (n <= N)%nat.
Proof.
  split; [vm_compute; discriminate|].
  destruct (cancel_concurrent_terminates (run_sample sample_setup)) as [N HN].
  - apply run_sample_reachable. vm_compute. reflexivity.
  - vm_compute. discriminate.
  - exists N. intros n s' Hs. apply (HN n s' Hs).
Defined.
