(* ===== verification/GoCalendar.v ===== *)
(** * The proleptic Gregorian calendar of Go ([go/src/time/time.go])

    Days are counted from March 1 of the year -292277022400 and converted to
    dates by the multiplications and shifts of Neri and Schneider.  [uint32],
    [uint64] and [int] values wrap around as written. *)
From S2P Require Import Prelude.
#[local] Open Scope Z_scope.

Definition secondsPerMinute : Z := 60.
Definition secondsPerHour : Z := 60 * secondsPerMinute.
Definition secondsPerDay : Z := 24 * secondsPerHour.
Definition marchThruDecember : Z := 31 + 30 + 31 + 30 + 31 + 31 + 30 + 31 + 30 + 31.
Definition absoluteYears : Z := 292277022400.
(** [absoluteYears*365.2425] is an exact constant. *)
Definition absoluteToInternal : Z := - (absoluteYears * 3652425 / 10000 + marchThruDecember) * secondsPerDay.
Definition internalToAbsolute : Z := - absoluteToInternal.
Definition unixToInternal : Z := (1969 * 365 + 1969 / 4 - 1969 / 100 + 1969 / 400) * secondsPerDay.
Definition internalToUnix : Z := - unixToInternal.
Definition absoluteToUnix : Z := absoluteToInternal + internalToUnix.
Definition wallToInternal : Z := (1884 * 365 + 1884 / 4 - 1884 / 100 + 1884 / 400) * secondsPerDay.

Definition uint32 (z : Z) : Z := uint_wrap 32 z.
Definition uint64 (z : Z) : Z := uint_wrap 64 z.

(** [bits.Mul32]. *)
Definition Mul32 (x y : Z) : Z * Z := let tmp := uint64 (x * y) in (uint32 (Z.shiftr tmp 32), uint32 tmp).

(** Absolute days to century, year of the century and day of the March-based year. *)
Definition days_split (days : Z) : Z * Z * Z :=
  let d := uint64 (4 * days + 3) in
  let century := d / 146097 in
  let cd := Z.lor (uint32 (d mod 146097)) 3 in
  let '(hi, lo) := Mul32 2939745 cd in
  let cyear := hi in
  let ayday := lo / 2939745 / 4 in
  (century, cyear, ayday).

(** Day of the March-based year to month (March = 3, ..., February = 14) and day of the month. *)
Definition ayday_split (ayday : Z) : Z * Z :=
  let d := uint32 (2141 * uint32 ayday + 197913) in
  (Z.shiftr d 16, 1 + Z.land d 65535 / 2141).

Definition ayday_janFeb (ayday : Z) : Z := if marchThruDecember <=? ayday then 1 else 0.
Definition absMonth_month (m janFeb : Z) : Z := m - janFeb * 12.
Definition century_leap (century cyear : Z) : Z :=
  let y4ok := if cyear mod 4 =? 0 then 1 else 0 in
  let y100ok := if negb (cyear =? 0) then 1 else 0 in
  let y400ok := if century mod 4 =? 0 then 1 else 0 in
  Z.land y4ok (Z.lor y100ok y400ok).
Definition century_year (century cyear janFeb : Z) : Z :=
  int64 (int64 (uint64 (uint64 (century * 100) - absoluteYears)) + cyear + janFeb).
Definition ayday_yday (ayday janFeb leap : Z) : Z :=
  ayday + (1 + 31 + 28) + Z.land leap (Z.lnot janFeb) - 365 * janFeb.

Definition days_date (days : Z) : Z * Z * Z :=
  let '(century, cyear, ayday) := days_split days in
  let '(amonth, day) := ayday_split ayday in
  let janFeb := ayday_janFeb ayday in
  let year := century_year century cyear janFeb in
  let month := absMonth_month amonth janFeb in
  (year, month, day).

Definition days_yearYday (days : Z) : Z * Z :=
  let '(century, cyear, ayday) := days_split days in
  let janFeb := ayday_janFeb ayday in
  let year := century_year century cyear janFeb in
  let yday := ayday_yday ayday janFeb (century_leap century cyear) in
  (year, yday).

Definition days_weekday (days : Z) : Z := uint64 (days + 3) mod 7.

Definition dateToAbsDays (year month day : Z) : Z :=
  let amonth := uint32 month in
  let janFeb := if amonth <? 3 then 1 else 0 in
  let amonth := uint32 (amonth + 12 * janFeb) in
  let y := uint64 (uint64 (uint64 year - janFeb) + absoluteYears) in
  let ayday := Z.shiftr (uint32 (979 * amonth - 2919)) 5 in
  let century := y / 100 in
  let cyear := uint32 (y mod 100) in
  let cday := uint32 (1461 * cyear) / 4 in
  let centurydays := uint64 (146097 * century) / 4 in
  uint64 (centurydays + uint64 (int64 (int64 (uint32 (cday + ayday) + day) - 1))).

(** [absSeconds]. *)
Definition abs_days (abs : Z) : Z := abs / secondsPerDay.
Definition abs_clock (abs : Z) : Z * Z * Z :=
  let sec := abs mod secondsPerDay in
  let hour := sec / secondsPerHour in
  let sec := sec - hour * secondsPerHour in
  let min := sec / secondsPerMinute in
  let sec := sec - min * secondsPerMinute in
  (hour, min, sec).

(** ** The calendar *)
Definition is_leap (y : Z) : bool := (y mod 4 =? 0) && (negb (y mod 100 =? 0) || (y mod 400 =? 0)).
Definition month_days (y m : Z) : Z :=
  if m =? 2 then if is_leap y then 29 else 28
  else if (m =? 4) || (m =? 6) || (m =? 9) || (m =? 11) then 30 else 31.
Definition valid_date (d : Z * Z * Z) : Prop :=
  let '(y, m, dd) := d in 1 <= m <= 12 /\ 1 <= dd <= month_days y m.
Definition next_day (d : Z * Z * Z) : Z * Z * Z :=
  let '(y, m, dd) := d in
  if dd <? month_days y m then (y, m, dd + 1) else if m <? 12 then (y, m + 1, 1) else (y + 1, 1, 1).

(** ** March-based years *)

(** The number of days of year [k] of century [c], which ends in February. *)
Definition year_len (c k : Z) : Z :=
  if (k mod 4 =? 3) && (negb (k =? 99) || (c mod 4 =? 3)) then 366 else 365.
Record valid_abs (c k a : Z) : Prop := { va_c : 0 <= c; va_k : 0 <= k < 100; va_a : 0 <= a < year_len c k }.
Definition days_of (c k a : Z) : Z := 146097 * c / 4 + 1461 * k / 4 + a.

Lemma year_len_bounds c k : 365 <= year_len c k <= 366.
Proof. unfold year_len. destruct (_ && _); lia. Qed.

Lemma days_of_century c k a : valid_abs c k a ->
  (4 * days_of c k a + 3) / 146097 = c /\ (4 * days_of c k a + 3) mod 146097 / 4 = 1461 * k / 4 + a.
Proof.
  intros [Hc Hk Ha]. unfold days_of, year_len in *.
  destruct (Z.eqb_spec (k mod 4) 3), (Z.eqb_spec k 99), (Z.eqb_spec (c mod 4) 3); cbn [negb andb orb] in Ha;
    Z.div_mod_to_equations; lia.
Qed.

(** The product of Neri and Schneider divides by 1461 and keeps a fourth of the remainder. *)
Lemma cyear_ayday (cdays : Z) :
  0 <= cdays <= 36524 ->
  let '(hi, lo) := Mul32 2939745 (4 * cdays + 3) in hi = (4 * cdays + 3) / 1461 /\ lo / 2939745 / 4 = (4 * cdays + 3) mod 1461 / 4.
Proof.
  intros H. unfold Mul32. rewrite Z.shiftr_div_pow2 by lia. unfold uint64, uint32, uint_wrap.
  rewrite (Z.mod_small _ (2 ^ 64)) by lia.
  set (k := (4 * cdays + 3) / 1461). set (m := (4 * cdays + 3) mod 1461).
  assert (4 * cdays + 3 = 1461 * k + m) as E by (apply Z.div_mod; lia).
  assert (0 <= m < 1461) as Hm by (apply Z.mod_pos_bound; lia).
  assert (0 <= k <= 100) as Hk by lia.
  assert (2939745 * (4 * cdays + 3) = k * 2 ^ 32 + (149 * k + 2939745 * m)) as -> by lia.
  rewrite Z.div_add_l, Z.div_small, Z.add_0_r by lia. rewrite (Z.add_comm (k * 2 ^ 32)), Z.mod_add by lia.
  rewrite (Z.mod_small k) by lia. rewrite (Z.mod_small (149 * k + 2939745 * m)) by lia. split; [done|].
  rewrite (Z.mul_comm 2939745), Z.div_add by lia. rewrite (Z.div_small (149 * k)) by lia. by rewrite Z.add_0_l.
Qed.

Lemma lor_3 z : 0 <= z -> Z.lor z 3 = 4 * (z / 4) + 3.
Proof.
  intros Hz. pose proof (Z.mod_pos_bound z 4 ltac:(lia)) as Hm.
  assert (z = Z.lor (Z.shiftl (z / 4) 2) (z mod 4)) as E.
  { rewrite lor_shiftl_add by (change (2 ^ 2) with 4; lia). pose proof (Z.div_mod z 4). lia. }
  rewrite E at 1. rewrite <- Z.lor_assoc. assert (Z.lor (z mod 4) 3 = 3) as ->.
  { assert (z mod 4 = 0 \/ z mod 4 = 1 \/ z mod 4 = 2 \/ z mod 4 = 3) as Hc by lia.
    by destruct Hc as [-> | [-> | [-> | ->]]]. }
  rewrite lor_shiftl_add by (change (2 ^ 2) with 4; lia). change (2 ^ 2) with 4. lia.
Qed.

Lemma days_split_of c k a :
  valid_abs c k a -> 0 <= days_of c k a < 2 ^ 62 - 1 -> days_split (days_of c k a) = (c, k, a).
Proof.
  intros Hv Hd. destruct (days_of_century c k a Hv) as [Ec Er]. destruct Hv as [Hc Hk Ha].
  pose proof (year_len_bounds c k). unfold days_split.
  assert (uint64 (4 * days_of c k a + 3) = 4 * days_of c k a + 3) as -> by (apply uint_wrap_id; lia). rewrite Ec.
  pose proof (Z.mod_pos_bound (4 * days_of c k a + 3) 146097 ltac:(lia)).
  assert (uint32 ((4 * days_of c k a + 3) mod 146097) = (4 * days_of c k a + 3) mod 146097) as -> by (apply uint_wrap_id; lia).
  rewrite lor_3, Er by lia.
  pose proof (cyear_ayday (1461 * k / 4 + a)) as Hm. destruct (Mul32 _ _) as [hi lo].
  destruct Hm as [-> ->]; [rewrite <- Er; Z.div_mod_to_equations; lia|]. 
  unfold year_len in Ha. clear -Hk Ha. f_equal; [f_equal|].
  - destruct (Z.eqb_spec (k mod 4) 3), (Z.eqb_spec k 99), (Z.eqb_spec (c mod 4) 3); cbn [negb andb orb] in Ha;
      Z.div_mod_to_equations; lia.
  - destruct (Z.eqb_spec (k mod 4) 3), (Z.eqb_spec k 99), (Z.eqb_spec (c mod 4) 3); cbn [negb andb orb] in Ha;
      Z.div_mod_to_equations; lia.
Qed.

(** Every day has such a decomposition. *)
Lemma days_of_surj d : 0 <= d -> exists c k a, valid_abs c k a /\ d = days_of c k a.
Proof.
  intros Hd. set (c := (4 * d + 3) / 146097). set (r := (4 * d + 3) mod 146097 / 4).
  set (k := (4 * r + 3) / 1461). set (a := (4 * r + 3) mod 1461 / 4).
  exists c, k, a.
  assert (0 <= r <= 36524) as Hr by (subst r; Z.div_mod_to_equations; lia).
  assert (d = 146097 * c / 4 + r) as Ed by (subst c r; Z.div_mod_to_equations; lia).
  assert (r = 1461 * k / 4 + a) as Er by (subst k a; Z.div_mod_to_equations; lia).
  split; [|unfold days_of; lia]. split; [subst c; Z.div_mod_to_equations; lia|subst k; Z.div_mod_to_equations; lia|].
  unfold year_len. split; [subst a; Z.div_mod_to_equations; lia|].
  destruct (Z.eqb_spec (k mod 4) 3) as [Hk|Hk]; cbn [andb].
  2:{ clear -Hk. subst a k. Z.div_mod_to_equations. lia. }
  destruct (Z.eqb_spec k 99) as [E99|]; cbn [negb orb]; [|subst a; Z.div_mod_to_equations; lia].
  destruct (Z.eqb_spec (c mod 4) 3) as [|Hc4]; [subst a; Z.div_mod_to_equations; lia|].
  assert (r <= 36523); [|subst a; Z.div_mod_to_equations; lia].
  clear -Hd Hc4. subst r c. Z.div_mod_to_equations. lia.
Qed.

(** ** The table of the days of a March-based year *)
Definition month_of (a : Z) : Z := absMonth_month (fst (ayday_split a)) (ayday_janFeb a).
Definition mday_of (a : Z) : Z := snd (ayday_split a).

(** Each day of the year (a leap year here) follows the one before it. *)
Definition ayday_row (a : Z) : bool :=
  let m := month_of a in let d := mday_of a in
  (1 <=? m) && (m <=? 12) && (1 <=? d) && (d <=? month_days 0 m)
  && (Bool.eqb (337 <=? a) (m =? 2)) && (negb (m =? 2) || (d =? a - 336))
  && (Bool.eqb (306 <=? a) (m <? 3)) && (Z.shiftr (979 * (m + 12 * ayday_janFeb a) - 2919) 5 + d - 1 =? a)
  && ((365 <=? a) ||
      (let m' := month_of (a + 1) in let d' := mday_of (a + 1) in
       if d <? month_days 0 m then (m' =? m) && (d' =? d + 1) && Bool.eqb (306 <=? a + 1) (306 <=? a)
       else if m <? 12 then (m' =? m + 1) && (d' =? 1) && Bool.eqb (306 <=? a + 1) (306 <=? a)
       else (m' =? 1) && (d' =? 1) && (a =? 305))).

Lemma ayday_rows : forallb ayday_row (seqZ 0 366) = true.
Proof. vm_compute. reflexivity. Qed.
Lemma ayday_row_spec a : 0 <= a < 366 -> ayday_row a = true.
Proof.
  intros Ha. pose proof ayday_rows as H. rewrite forallb_forall in H. apply H, list_elem_of_In, elem_of_seqZ. lia.
Qed.

Record row_facts (a : Z) : Prop := {
  rf_month : 1 <= month_of a <= 12; rf_day : 1 <= mday_of a <= month_days 0 (month_of a);
  rf_feb : 337 <= a <-> month_of a = 2; rf_feb_day : month_of a = 2 -> mday_of a = a - 336;
  rf_janfeb : 306 <= a <-> month_of a < 3;
  rf_back : Z.shiftr (979 * (month_of a + 12 * ayday_janFeb a) - 2919) 5 + mday_of a - 1 = a;
  rf_next : a < 365 ->
    (mday_of a < month_days 0 (month_of a) /\ month_of (a + 1) = month_of a /\ mday_of (a + 1) = mday_of a + 1 /\ a <> 305) \/
    (month_days 0 (month_of a) <= mday_of a /\ mday_of (a + 1) = 1 /\
     (month_of a < 12 /\ month_of (a + 1) = month_of a + 1 /\ a <> 305 \/
      12 <= month_of a /\ month_of (a + 1) = 1 /\ a = 305)) }.

Lemma ayday_facts a : 0 <= a < 366 -> row_facts a.
Proof.
  intros Ha. pose proof (ayday_row_spec a Ha) as H. unfold ayday_row in H.
  repeat (apply andb_true_iff in H as [H ?]).
  repeat match goal with
    | H : (_ <=? _) = true |- _ => apply Z.leb_le in H
    | H : (_ =? _) = true |- _ => apply Z.eqb_eq in H
    | H : Bool.eqb _ _ = true |- _ => apply Bool.eqb_prop in H
    end.
  split; try lia.
  intros Hlt. match goal with H : (365 <=? a) || _ = true |- _ => rename H into Hn end.
  rewrite (proj2 (Z.leb_gt 365 a)) in Hn by lia. cbn [orb] in Hn.
  destruct (Z.ltb_spec (mday_of a) (month_days 0 (month_of a))); [left|right; destruct (Z.ltb_spec (month_of a) 12)];
    apply andb_true_iff in Hn as [[?%Z.eqb_eq ?%Z.eqb_eq]%andb_true_iff Hl];
    try apply Bool.eqb_prop in Hl; try apply Z.eqb_eq in Hl; lia.
Qed.

(** ** Dates *)
Lemma century_bound c k a : valid_abs c k a -> days_of c k a < 2 ^ 62 - 1 -> c < 2 ^ 48.
Proof. intros [Hc Hk Ha] H. unfold days_of in H. Z.div_mod_to_equations. lia. Qed.

Lemma century_year_spec c k j :
  0 <= c < 2 ^ 48 -> 0 <= k < 100 -> 0 <= j <= 1 -> century_year c k j = 100 * c + k + j - absoluteYears.
Proof.
  intros Hc Hk Hj. unfold century_year. unfold absoluteYears.
  assert (uint64 (c * 100) = 100 * c) as -> by (rewrite Z.mul_comm; apply uint_wrap_id; lia).
  assert (int64 (uint64 (100 * c - 292277022400)) = 100 * c - 292277022400) as ->.
  { unfold int64, sint_wrap, uint64, uint_wrap. rewrite Zplus_mod_idemp_l, Z.mod_small; lia. }
  rewrite int64_id; unfold is_int, MinInt, MaxInt; lia.
Qed.

Lemma janFeb_cases a : ayday_janFeb a = 1 /\ 306 <= a \/ ayday_janFeb a = 0 /\ a < 306.
Proof. unfold ayday_janFeb. change marchThruDecember with 306. destruct (Z.leb_spec 306 a); lia. Qed.

Lemma date_of c k a :
  valid_abs c k a -> 0 <= days_of c k a < 2 ^ 62 - 1 ->
  days_date (days_of c k a) = (100 * c + k + ayday_janFeb a - absoluteYears, month_of a, mday_of a).
Proof.
  intros Hv Hd. unfold days_date. rewrite days_split_of by done. unfold month_of, mday_of.
  destruct (ayday_split a) as [m d]. cbn [fst snd]. pose proof (century_bound c k a Hv). destruct Hv as [Hc Hk _].
  rewrite century_year_spec; [done|lia|lia|]. pose proof (janFeb_cases a). lia.
Qed.

Lemma year_len_leap c k : 0 <= k < 100 -> year_len c k = if is_leap (100 * c + k + 1 - absoluteYears) then 366 else 365.
Proof.
  intros Hk. unfold year_len, is_leap, absoluteYears.
  destruct (Z.eqb_spec (k mod 4) 3), (Z.eqb_spec k 99), (Z.eqb_spec (c mod 4) 3); cbn [negb andb orb];
    destruct (Z.eqb_spec ((100 * c + k + 1 - 292277022400) mod 4) 0);
    try destruct (Z.eqb_spec ((100 * c + k + 1 - 292277022400) mod 100) 0);
    try destruct (Z.eqb_spec ((100 * c + k + 1 - 292277022400) mod 400) 0); cbn [negb andb orb]; try done;
    Z.div_mod_to_equations; lia.
Qed.

Lemma month_days_feb y : month_days y 2 = if is_leap y then 29 else 28.
Proof. done. Qed.
Lemma month_days_other y y' m : m <> 2 -> month_days y m = month_days y' m.
Proof. intros Hm. unfold month_days. by rewrite (proj2 (Z.eqb_neq m 2)). Qed.

(** The last day of February is the last of the year. *)
Lemma february c k a :
  valid_abs c k a -> month_of a = 2 ->
  ayday_janFeb a = 1 /\ mday_of a = a - 336 /\ month_days (100 * c + k + 1 - absoluteYears) 2 = year_len c k - 337.
Proof.
  intros [Hc Hk Ha] Hm. pose proof (year_len_bounds c k). destruct (ayday_facts a) as [? ? Hf Hd ? ? _]; [lia|].
  pose proof (janFeb_cases a). split_and!; [lia|by apply Hd|]. rewrite year_len_leap, month_days_feb by done.
  by destruct (is_leap _).
Qed.

Lemma date_valid c k a :
  valid_abs c k a -> valid_date (100 * c + k + ayday_janFeb a - absoluteYears, month_of a, mday_of a).
Proof.
  intros Hv. pose proof Hv as [Hc Hk Ha]. pose proof (year_len_bounds c k). destruct (ayday_facts a) as [? Hd ? ? ? ? _]; [lia|].
  split; [done|]. destruct (Z.eq_dec (month_of a) 2) as [E|Hne].
  - destruct (february c k a Hv E) as (-> & Hday & Hl). rewrite E.
    replace (100 * c + k + 1 - absoluteYears) with (100 * c + k + 1 - absoluteYears) in Hl by done. rewrite Hl. lia.
  - by rewrite (month_days_other _ 0) by done.
Qed.

Lemma next_of c k a :
  valid_abs c k a ->
  exists c' k' a', valid_abs c' k' a' /\ days_of c' k' a' = days_of c k a + 1 /\
    next_day (100 * c + k + ayday_janFeb a - absoluteYears, month_of a, mday_of a) =
      (100 * c' + k' + ayday_janFeb a' - absoluteYears, month_of a', mday_of a').
Proof.
  intros Hv. pose proof Hv as [Hc Hk Ha]. pose proof (year_len_bounds c k) as Hl.
  destruct (ayday_facts a) as [Hm Hd Hf Hfd Hj _ Hn]; [lia|]. pose proof (janFeb_cases a) as Hja.
  destruct (Z.eq_dec (a + 1) (year_len c k)) as [Elast|Hnl].
  - assert (month_of a = 2) as Em by (apply Hf; lia). destruct (february c k a Hv Em) as (Ej & Hday & Hmd).
    assert (next_day (100 * c + k + ayday_janFeb a - absoluteYears, month_of a, mday_of a) =
            (100 * c + k + 1 - absoluteYears, 3, 1)) as ->.
    { unfold next_day. rewrite Em, Ej, Hmd, Hday. rewrite (proj2 (Z.ltb_ge _ _)) by lia. done. }
    assert (month_of 0 = 3 /\ mday_of 0 = 1 /\ ayday_janFeb 0 = 0) as (E1 & E2 & E3) by done.
    exists (if k =? 99 then c + 1 else c), (if k =? 99 then 0 else k + 1), 0.
    rewrite E1, E2, E3. split_and!.
    + split; [destruct (k =? 99); lia|destruct (Z.eqb_spec k 99); lia|]. pose proof (year_len_bounds (if k =? 99 then c + 1 else c) (if k =? 99 then 0 else k + 1)). lia.
    + clear -Elast Hk Hc. unfold days_of, year_len in *.
      destruct (Z.eqb_spec (k mod 4) 3), (Z.eqb_spec k 99), (Z.eqb_spec (c mod 4) 3); cbn [negb andb orb] in Elast;
        Z.div_mod_to_equations; lia.
    + f_equal. f_equal. destruct (Z.eqb_spec k 99); lia.
  - exists c, k, (a + 1). split_and!; [split; lia|unfold days_of; lia|].
    pose proof (janFeb_cases (a + 1)) as Hja'.
    assert (month_days (100 * c + k + ayday_janFeb a - absoluteYears) (month_of a) <= mday_of a <-> month_days 0 (month_of a) <= mday_of a) as Hmd.
    { destruct (Z.eq_dec (month_of a) 2) as [E|Hne]; [|by rewrite (month_days_other _ 0)].
      destruct (february c k a Hv E) as (Ej & Hday & Hmd). rewrite Ej, E, Hmd. change (month_days 0 2) with 29. lia. }
    unfold next_day. destruct Hn as [(H1 & H2 & H3 & H4)|(H1 & H2 & [(H3 & H4 & H5)|(H3 & H4 & H5)])]; [lia|..].
    + rewrite (proj2 (Z.ltb_lt _ _)) by lia. rewrite H2, H3. f_equal. f_equal. lia.
    + rewrite (proj2 (Z.ltb_ge _ _)) by lia. rewrite (proj2 (Z.ltb_lt _ _)) by lia. rewrite H2, H4. f_equal. f_equal. lia.
    + rewrite (proj2 (Z.ltb_ge _ _)) by lia. rewrite (proj2 (Z.ltb_ge _ _)) by lia. rewrite H2, H4. f_equal. f_equal. lia.
Qed.

Lemma back_of c k a :
  valid_abs c k a -> 0 <= days_of c k a < 2 ^ 62 - 1 ->
  dateToAbsDays (100 * c + k + ayday_janFeb a - absoluteYears) (month_of a) (mday_of a) = days_of c k a.
Proof.
  intros Hv Hb. pose proof Hv as [Hc Hk Ha]. pose proof (century_bound c k a Hv) as Hc'. pose proof (year_len_bounds c k) as Hl.
  destruct (ayday_facts a) as [Hm Hd Hf Hfd Hj Hback _]; [lia|]. pose proof (janFeb_cases a) as Hja.
  unfold dateToAbsDays. assert (uint32 (month_of a) = month_of a) as -> by (apply uint_wrap_id; lia).
  assert ((if month_of a <? 3 then 1 else 0) = ayday_janFeb a) as -> by (destruct (Z.ltb_spec (month_of a) 3); lia).
  assert (uint64 (uint64 (uint64 (100 * c + k + ayday_janFeb a - absoluteYears) - ayday_janFeb a) + absoluteYears) = 100 * c + k) as ->.
  { unfold uint64, uint_wrap. rewrite Zminus_mod_idemp_l, Zplus_mod_idemp_l. rewrite Z.mod_small; lia. }
  assert (uint32 (month_of a + 12 * ayday_janFeb a) = month_of a + 12 * ayday_janFeb a) as -> by (apply uint_wrap_id; lia).
  assert (uint32 (979 * (month_of a + 12 * ayday_janFeb a) - 2919) = 979 * (month_of a + 12 * ayday_janFeb a) - 2919) as ->.
  { apply uint_wrap_id. destruct Hja as [[-> ?]|[-> ?]]; lia. }
  assert (0 <= Z.shiftr (979 * (month_of a + 12 * ayday_janFeb a) - 2919) 5) as Hpos
    by (apply Z.shiftr_nonneg; destruct Hja as [[-> ?]|[-> ?]]; lia).
  assert (Z.shiftr (979 * (month_of a + 12 * ayday_janFeb a) - 2919) 5 = a - mday_of a + 1) as -> by lia.
  assert ((100 * c + k) / 100 = c /\ (100 * c + k) mod 100 = k) as [-> ->] by (Z.div_mod_to_equations; lia).
  assert (uint32 k = k) as -> by (apply uint_wrap_id; lia).
  assert (uint32 (1461 * k) = 1461 * k) as -> by (apply uint_wrap_id; lia).
  assert (0 <= 146097 * c < 2 ^ 64) as Hcd by (unfold days_of in Hb; Z.div_mod_to_equations; lia).
  assert (uint64 (146097 * c) = 146097 * c) as -> by (by apply uint_wrap_id).
  assert (month_days 0 (month_of a) <= 31) as H31 by (unfold month_days; repeat case_match; lia).
  assert (0 <= 1461 * k / 4 <= 36524) as Hcy by (Z.div_mod_to_equations; lia).
  assert (uint32 (1461 * k / 4 + (a - mday_of a + 1)) = 1461 * k / 4 + (a - mday_of a + 1)) as -> by (apply uint_wrap_id; lia).
  rewrite (int64_id (1461 * k / 4 + (a - mday_of a + 1) + mday_of a)) by (unfold is_int, MinInt, MaxInt; lia).
  rewrite int64_id by (unfold is_int, MinInt, MaxInt; lia).
  assert (uint64 (1461 * k / 4 + (a - mday_of a + 1) + mday_of a - 1) = 1461 * k / 4 + a) as ->
    by (unfold uint64; rewrite uint_wrap_id; lia).
  unfold days_of in *. unfold uint64. rewrite uint_wrap_id; lia.
Qed.

(** ** The day of the year *)
Definition day_of_year (d : Z * Z * Z) : Z :=
  let '(y, m, dd) := d in foldr Z.add 0 (map (month_days y) (seqZ 1 (m - 1))) + dd.

Lemma day_of_year_leap y m d :
  1 <= m <= 12 -> day_of_year (y, m, d) = day_of_year (1, m, d) + if (3 <=? m) && is_leap y then 1 else 0.
Proof.
  intros Hm. unfold day_of_year.
  assert (m = 1 \/ m = 2 \/ m = 3 \/ m = 4 \/ m = 5 \/ m = 6 \/ m = 7 \/ m = 8 \/ m = 9 \/ m = 10 \/ m = 11 \/ m = 12) as Hc by lia.
  assert (is_leap 1 = false) as E1 by done.
  repeat destruct Hc as [-> |Hc]; subst;
    repeat match goal with |- context [seqZ 1 ?n] => let l := eval vm_compute in (seqZ 1 n) in change (seqZ 1 n) with l end;
    cbn [map foldr]; unfold month_days; cbn -[is_leap]; rewrite ?E1; destruct (is_leap y); lia.
Qed.

Lemma century_leap_spec c k : 0 <= k < 100 -> century_leap c k = if is_leap (100 * c + k - absoluteYears) then 1 else 0.
Proof.
  intros Hk. unfold century_leap, is_leap, absoluteYears.
  destruct (Z.eqb_spec (k mod 4) 0), (Z.eqb_spec k 0), (Z.eqb_spec (c mod 4) 0); cbn [negb Z.land Z.lor];
    destruct (Z.eqb_spec ((100 * c + k - 292277022400) mod 4) 0);
    try destruct (Z.eqb_spec ((100 * c + k - 292277022400) mod 100) 0);
    try destruct (Z.eqb_spec ((100 * c + k - 292277022400) mod 400) 0); cbn [negb andb orb]; try done;
    Z.div_mod_to_equations; lia.
Qed.

Definition yday_row (a : Z) : bool :=
  day_of_year (1, month_of a, mday_of a) =? (if 306 <=? a then a - 305 else a + 60).
Lemma yday_rows : forallb yday_row (seqZ 0 366) = true.
Proof. vm_compute. reflexivity. Qed.

Lemma yday_of c k a :
  valid_abs c k a ->
  ayday_yday a (ayday_janFeb a) (century_leap c k) =
    day_of_year (100 * c + k + ayday_janFeb a - absoluteYears, month_of a, mday_of a).
Proof.
  intros [Hc Hk Ha]. pose proof (year_len_bounds c k). destruct (ayday_facts a) as [Hm _ _ _ Hj _ _]; [lia|].
  assert (yday_row a = true) as Hr.
  { pose proof yday_rows as Hr. rewrite forallb_forall in Hr. apply Hr, list_elem_of_In, elem_of_seqZ. lia. }
  apply Z.eqb_eq in Hr. rewrite day_of_year_leap, Hr by done. unfold ayday_yday. rewrite century_leap_spec by done.
  destruct (janFeb_cases a) as [[-> Ha']|[-> Ha']].
  - rewrite (proj2 (Z.leb_le _ _)), (proj2 (Z.leb_gt 3 _)) by lia. cbn [andb].
    change (Z.lnot 1) with (-2). destruct (is_leap _); [change (Z.land 1 (-2)) with 0|change (Z.land 0 (-2)) with 0]; lia.
  - rewrite (proj2 (Z.leb_gt _ _)), (proj2 (Z.leb_le 3 _)) by lia. rewrite !Z.add_0_r.
    destruct (is_leap _); cbn [andb]; change (Z.lnot 0) with (-1); rewrite Z.land_m1_r; lia.
Qed.

(** ** Main theorem *)

(** C13: for every day number the code can meet, the multiplications and shifts
    of [absDays.date] enumerate the proleptic Gregorian calendar: day 0 is March 1
    of the year -292277022400, each day is the calendar successor of the one
    before, [dateToAbsDays] is the inverse, [yearYday] numbers the days of the
    year and [weekday] advances cyclically; nothing overflows. *)
Theorem calendar_spec (d : Z) (Hd : 0 <= d < 2 ^ 62 - 2) :
  days_date 0 = (- absoluteYears, 3, 1) /\ days_weekday 0 = 3 /\
  valid_date (days_date d) /\
  days_date (d + 1) = next_day (days_date d) /\
  days_weekday (d + 1) = (days_weekday d + 1) mod 7 /\
  (let '(y, m, dd) := days_date d in dateToAbsDays y m dd = d /\ days_yearYday d = (y, day_of_year (y, m, dd))).
Proof.
  destruct (days_of_surj d) as (c & k & a & Hv & ->); [lia|].
  destruct (next_of c k a Hv) as (c' & k' & a' & Hv' & E & Hnext).
  rewrite date_of by (done || lia). split; [reflexivity|]. split; [reflexivity|]. split; [by apply date_valid|].
  split; [|split].
  - rewrite <- E, date_of by (done || lia). by rewrite Hnext.
  - unfold days_weekday. unfold uint64. rewrite !uint_wrap_id by lia. Z.div_mod_to_equations. lia.
  - split; [by apply back_of; [|lia]|]. unfold days_yearYday. rewrite days_split_of by (done || lia).
    rewrite yday_of by done. pose proof (century_bound c k a Hv). destruct Hv as [Hc Hk _].
    rewrite century_year_spec; [done|lia|lia|]. pose proof (janFeb_cases a). lia.
Qed.
Lemma calendar_spec_witness :
  0 <= 106751991093182 < 2 ^ 62 - 2 /\ days_date 106751991093182 = (2024, 2, 29) /\
  days_date (106751991093182 + 1) = next_day (2024, 2, 29).
Proof.
  assert (0 <= 106751991093182 < 2 ^ 62 - 2) as H by (split; [discriminate|reflexivity]). split; [exact H|].
  destruct (calendar_spec _ H) as (_ & _ & _ & Hn & _). split; [vm_compute; reflexivity|exact Hn].
Defined.
