(* ===== verification/GoTime.v ===== *)
(** * Times and durations of Go ([go/src/time/time.go])

    [Time] packs an optional monotonic reading, seconds and nanoseconds into two
    64-bit words; the masks and shifts are those of the code.  A [*Location] is
    a pointer: [None] is nil, [utcLoc] the address of the UTC location; the
    offset of any other location ([zoneinfo.go]) is the argument [lookup]. *)
From S2P Require Import Prelude GoCalendar.
#[local] Open Scope Z_scope.

Definition hasMonotonic : Z := Z.shiftl 1 63.
Definition nsecShift : Z := 30.
Definition nsecMask : Z := Z.shiftl 1 30 - 1.
Definition maxWall : Z := wallToInternal + (Z.shiftl 1 33 - 1).
Definition minWall : Z := wallToInternal.
Definition utcLoc : positive := 1%positive.

Definition Nanosecond : Z := 1.
Definition Microsecond : Z := 1000 * Nanosecond.
Definition Millisecond : Z := 1000 * Microsecond.
Definition Second : Z := 1000 * Millisecond.
Definition Minute : Z := 60 * Second.
Definition Hour : Z := 60 * Minute.
Definition minDuration : Z := - 2 ^ 63.
Definition maxDuration : Z := 2 ^ 63 - 1.

(** [wall] is a [uint64], [ext] an [int64]. *)
Record Time := MkTime { wall : Z; ext : Z; loc : option positive }.

Definition mono_bit (t : Time) : bool := negb (Z.land (wall t) hasMonotonic =? 0).
Definition both_mono (t u : Time) : bool := negb (Z.land (Z.land (wall t) (wall u)) hasMonotonic =? 0).

Definition nsec (t : Time) : Z := sint_wrap 32 (Z.land (wall t) nsecMask).
(** [int64(wall << 1 >> (nsecShift + 1))]. *)
Definition wall_sec (w : Z) : Z := int64 (Z.shiftr (uint64 (Z.shiftl w 1)) (nsecShift + 1)).
Definition sec (t : Time) : Z := if mono_bit t then int64 (wallToInternal + wall_sec (wall t)) else ext t.
Definition unixSec (t : Time) : Z := int64 (sec t + internalToUnix).

Definition stripMono (t : Time) : Time :=
  if mono_bit t then MkTime (Z.land (wall t) nsecMask) (sec t) (loc t) else t.

Definition addSec_ext (t : Time) (d : Z) : Time :=
  let sum := int64 (ext t + d) in
  if Bool.eqb (ext t <? sum) (0 <? d) then MkTime (wall t) sum (loc t)
  else if 0 <? d then MkTime (wall t) (2 ^ 63 - 1) (loc t)
  else MkTime (wall t) (- (2 ^ 63 - 1)) (loc t).
Definition addSec (t : Time) (d : Z) : Time :=
  if mono_bit t then
    let s := wall_sec (wall t) in
    let dsec := int64 (s + d) in
    if (0 <=? dsec) && (dsec <=? Z.shiftl 1 33 - 1) then
      MkTime (Z.lor (Z.lor (Z.land (wall t) nsecMask) (uint64 (Z.shiftl (uint64 dsec) nsecShift))) hasMonotonic) (ext t) (loc t)
    else addSec_ext (stripMono t) d
  else addSec_ext t d.

Definition setLoc (t : Time) (l : option positive) : Time :=
  let l := if decide (l = Some utcLoc) then None else l in
  let t := stripMono t in
  MkTime (wall t) (ext t) l.

Definition setMono (t : Time) (m : Z) : Time :=
  if mono_bit t then MkTime (wall t) m (loc t)
  else
    let s := ext t in
    if (s <? minWall) || (maxWall <? s) then t
    else MkTime (Z.lor (wall t) (Z.lor hasMonotonic (uint64 (Z.shiftl (uint64 (int64 (s - minWall))) nsecShift)))) m (loc t).
Definition mono (t : Time) : Z := if mono_bit t then ext t else 0.

Definition IsZero (t : Time) : bool := (wall t =? 0) && (ext t =? 0).
Definition After (t u : Time) : bool :=
  if both_mono t u then ext u <? ext t
  else (sec u <? sec t) || ((sec t =? sec u) && (nsec u <? nsec t)).
Definition Before (t u : Time) : bool :=
  if both_mono t u then ext t <? ext u
  else (sec t <? sec u) || ((sec t =? sec u) && (nsec t <? nsec u)).
Definition Compare (t u : Time) : Z :=
  let '(tc, uc) := if both_mono t u then (ext t, ext u)
                   else if sec t =? sec u then (nsec t, nsec u) else (sec t, sec u) in
  if tc <? uc then -1 else if uc <? tc then 1 else 0.
Definition Equal (t u : Time) : bool :=
  if both_mono t u then ext t =? ext u else (sec t =? sec u) && (nsec t =? nsec u).

(** The second step of [Add], on the time whose nanoseconds are updated. *)
Definition Add_mono (t : Time) (d : Z) : Time :=
  if mono_bit t then
    let te := int64 (ext t + d) in
    if ((d <? 0) && (ext t <? te)) || ((0 <? d) && (te <? ext t)) then stripMono t
    else MkTime (wall t) te (loc t)
  else t.
Definition Add (t : Time) (d : Z) : Time :=
  let dsec := Z.quot d 1000000000 in
  let ns := sint_wrap 32 (nsec t + sint_wrap 32 (Z.rem d 1000000000)) in
  let '(dsec, ns) := if 1000000000 <=? ns then (int64 (dsec + 1), sint_wrap 32 (ns - 1000000000))
                     else if ns <? 0 then (int64 (dsec - 1), sint_wrap 32 (ns + 1000000000))
                     else (dsec, ns) in
  let t := MkTime (Z.lor (Z.ldiff (wall t) nsecMask) (uint64 ns)) (ext t) (loc t) in
  let t := addSec t dsec in
  Add_mono t d.

Definition subMono (t u : Z) : Z :=
  let d := int64 (t - u) in
  if (d <? 0) && (u <? t) then maxDuration
  else if (0 <? d) && (t <? u) then minDuration
  else d.
Definition Sub (t u : Time) : Z :=
  if both_mono t u then subMono (ext t) (ext u)
  else
    let d := int64 (int64 (int64 (sec t - sec u) * Second) + sint_wrap 32 (nsec t - nsec u)) in
    if Equal (Add u d) t then d
    else if Before t u then minDuration
    else maxDuration.

(** ** Dates in a location *)
Section location.
Context (lookup : positive -> Z -> Z).

Definition Location (t : Time) : positive := match loc t with None => utcLoc | Some l => l end.
Definition absSec (t : Time) : Z :=
  let l := Location t in
  let s := unixSec t in
  let s := if decide (l <> utcLoc) then int64 (s + lookup l s) else s in
  uint64 (int64 (s + (unixToInternal + internalToAbsolute))).
Definition Date (t : Time) : Z * Z * Z := days_date (abs_days (absSec t)).
Definition Year (t : Time) : Z :=
  let '(century, cyear, ayday) := days_split (abs_days (absSec t)) in
  century_year century cyear (ayday_janFeb ayday).
Definition Month (t : Time) : Z :=
  let '(_, _, ayday) := days_split (abs_days (absSec t)) in
  let '(amonth, _) := ayday_split ayday in
  absMonth_month amonth (ayday_janFeb ayday).
Definition Day (t : Time) : Z :=
  let '(_, _, ayday) := days_split (abs_days (absSec t)) in
  let '(_, day) := ayday_split ayday in day.
Definition Weekday (t : Time) : Z := days_weekday (abs_days (absSec t)).
Definition Clock (t : Time) : Z * Z * Z := abs_clock (absSec t).
End location.
Definition UTC (t : Time) : Time := setLoc t (Some utcLoc).

(** ** The two forms of a time *)
Definition mono_time (s n m : Z) (l : option positive) : Time := MkTime (2 ^ 63 + s * 2 ^ 30 + n) m l.
Definition wall_time (e n : Z) (l : option positive) : Time := MkTime n e l.

Inductive wf_time : Time -> Prop :=
  | wf_mono s n m l : 0 <= s < 2 ^ 33 -> 0 <= n < 1000000000 -> is_int m -> wf_time (mono_time s n m l)
  | wf_wall e n l : is_int e -> 0 <= n < 1000000000 -> wf_time (wall_time e n l).

Lemma land_hasMonotonic w : 0 <= w < 2 ^ 64 -> Z.land w hasMonotonic = if 2 ^ 63 <=? w then 2 ^ 63 else 0.
Proof.
  intros Hw. change hasMonotonic with (2 ^ 63). apply Z.bits_inj'. intros i Hi.
  rewrite Z.land_spec, Z.pow2_bits_eqb by lia. destruct (Z.eqb_spec 63 i) as [<-|Hne]; [|rewrite andb_false_r].
  - rewrite andb_true_r, Z.testbit_eqb by lia. destruct (Z.leb_spec (2 ^ 63) w).
    + assert (w / 2 ^ 63 = 1) as -> by (Z.div_mod_to_equations; lia). done.
    + by rewrite (Z.div_small w) by lia.
  - destruct (2 ^ 63 <=? w); [rewrite Z.pow2_bits_eqb by lia; by apply Z.eqb_neq in Hne|by rewrite Z.bits_0].
Qed.

Lemma mono_bit_spec t : 0 <= wall t < 2 ^ 64 -> mono_bit t = (2 ^ 63 <=? wall t).
Proof. intros Hw. unfold mono_bit. rewrite land_hasMonotonic by done. by destruct (2 ^ 63 <=? wall t). Qed.

Lemma wf_wall_range t : wf_time t -> 0 <= wall t < 2 ^ 64.
Proof. intros [s n m l ? ? ?|e n l ? ?]; cbn; lia. Qed.

Lemma both_mono_spec t u : wf_time t -> wf_time u -> both_mono t u = mono_bit t && mono_bit u.
Proof.
  intros Ht%wf_wall_range Hu%wf_wall_range. rewrite !mono_bit_spec by done. unfold both_mono.
  rewrite <- Z.land_assoc, land_hasMonotonic by done. destruct (2 ^ 63 <=? wall u).
  - change (2 ^ 63) with hasMonotonic at 1. rewrite land_hasMonotonic by done. by destruct (2 ^ 63 <=? wall t).
  - rewrite Z.land_0_r. by destruct (2 ^ 63 <=? wall t).
Qed.

Lemma land_nsecMask w n : 0 <= n < 2 ^ 30 -> Z.land (w * 2 ^ 30 + n) nsecMask = n.
Proof.
  intros Hn. change nsecMask with (Z.ones 30). rewrite Z.land_ones, Z.add_comm, Z.mod_add, Z.mod_small by lia. done.
Qed.

Lemma mono_split s n : 2 ^ 63 + s * 2 ^ 30 + n = (2 ^ 33 + s) * 2 ^ 30 + n.
Proof. lia. Qed.

Section mono_time.
Context (s n m : Z) (l : option positive) (Hs : 0 <= s < 2 ^ 33) (Hn : 0 <= n < 1000000000).

Lemma mono_bit_mono : mono_bit (mono_time s n m l) = true.
Proof. rewrite mono_bit_spec; cbn; lia. Qed.
Lemma nsec_mono : nsec (mono_time s n m l) = n.
Proof. unfold nsec, mono_time. cbn [wall]. rewrite mono_split, land_nsecMask, sint_wrap_id by lia. done. Qed.
Lemma wall_sec_mono : wall_sec (2 ^ 63 + s * 2 ^ 30 + n) = s.
Proof.
  unfold wall_sec, nsecShift. rewrite Z.shiftl_mul_pow2, Z.shiftr_div_pow2 by lia. unfold uint64, uint_wrap.
  assert ((2 ^ 63 + s * 2 ^ 30 + n) * 2 ^ 1 = 2 * (s * 2 ^ 30 + n) + 1 * 2 ^ 64) as -> by lia.
  rewrite Z.mod_add, Z.mod_small by lia.
  assert (2 * (s * 2 ^ 30 + n) / 2 ^ (30 + 1) = s) as -> by (Z.div_mod_to_equations; lia).
  apply int64_id. unfold is_int, MinInt, MaxInt. lia.
Qed.
Lemma sec_mono : sec (mono_time s n m l) = wallToInternal + s.
Proof.
  unfold sec. rewrite mono_bit_mono. unfold mono_time. cbn [wall]. rewrite wall_sec_mono.
  apply int64_id. unfold is_int, MinInt, MaxInt. change wallToInternal with 59453308800. lia.
Qed.
Lemma stripMono_mono : stripMono (mono_time s n m l) = wall_time (wallToInternal + s) n l.
Proof.
  unfold stripMono. rewrite mono_bit_mono, sec_mono. unfold mono_time. cbn [wall loc]. by rewrite mono_split, land_nsecMask by lia.
Qed.
End mono_time.

Section wall_time.
Context (e n : Z) (l : option positive) (He : is_int e) (Hn : 0 <= n < 1000000000).

Lemma mono_bit_wall : mono_bit (wall_time e n l) = false.
Proof. rewrite mono_bit_spec; cbn; lia. Qed.
Lemma nsec_wall : nsec (wall_time e n l) = n.
Proof. unfold nsec, wall_time. cbn [wall]. rewrite <- (Z.add_0_l n) at 1. rewrite <- (Z.mul_0_l (2 ^ 30)), land_nsecMask, sint_wrap_id by lia. done. Qed.
Lemma sec_wall : sec (wall_time e n l) = e.
Proof. unfold sec. by rewrite mono_bit_wall. Qed.
Lemma stripMono_wall : stripMono (wall_time e n l) = wall_time e n l.
Proof. unfold stripMono. by rewrite mono_bit_wall. Qed.
End wall_time.

Create HintDb time_db.
#[export] Hint Rewrite mono_bit_mono nsec_mono sec_mono stripMono_mono mono_bit_wall nsec_wall sec_wall stripMono_wall
  using (assumption || lia) : time_db.
Ltac time_simpl := autorewrite with time_db.

Lemma nsec_range t : wf_time t -> 0 <= nsec t < 1000000000.
Proof. intros [s n m l ? ? ?|e n l ? ?]; time_simpl; lia. Qed.
Lemma sec_range t : wf_time t -> is_int (sec t).
Proof.
  intros [s n m l ? ? ?|e n l ? ?]; time_simpl; [|done]. unfold is_int, MinInt, MaxInt. change wallToInternal with 59453308800. lia.
Qed.

(** ** Addition *)

(** Seconds that do not fit are replaced by the bounds. *)
Definition sat (x : Z) : Z := if MaxInt <? x then MaxInt else if x <? MinInt then - MaxInt else x.

Lemma carry_spec n d :
  0 <= n < 1000000000 -> is_int d ->
  (let dsec := Z.quot d 1000000000 in
   let ns := sint_wrap 32 (n + sint_wrap 32 (Z.rem d 1000000000)) in
   if 1000000000 <=? ns then (int64 (dsec + 1), sint_wrap 32 (ns - 1000000000))
   else if ns <? 0 then (int64 (dsec - 1), sint_wrap 32 (ns + 1000000000)) else (dsec, ns))
  = ((n + d) / 1000000000, (n + d) mod 1000000000).
Proof.
  intros Hn Hd. unfold is_int, MinInt, MaxInt in Hd. cbv zeta.
  pose proof (Z.quot_rem d 1000000000 ltac:(lia)) as E.
  assert (-1000000000 < Z.rem d 1000000000 < 1000000000) as Hr by (Z.quot_rem_to_equations; lia).
  set (q := Z.quot d 1000000000) in *. set (r := Z.rem d 1000000000) in *.
  rewrite (sint_wrap_id 32 r) by lia. rewrite (sint_wrap_id 32 (n + r)) by lia.
  destruct (Z.leb_spec 1000000000 (n + r)); [|destruct (Z.ltb_spec (n + r) 0)].
  - rewrite sint_wrap_id, int64_id by (unfold is_int, MinInt, MaxInt; lia). f_equal; Z.div_mod_to_equations; lia.
  - rewrite sint_wrap_id, int64_id by (unfold is_int, MinInt, MaxInt; lia). f_equal; Z.div_mod_to_equations; lia.
  - f_equal; Z.div_mod_to_equations; lia.
Qed.

Lemma addSec_ext_spec w e l d :
  is_int e -> is_int d -> addSec_ext (MkTime w e l) d = MkTime w (sat (e + d)) l.
Proof.
  intros He Hd. unfold is_int, MinInt, MaxInt in *. unfold addSec_ext, sat, int64, sint_wrap, MaxInt, MinInt. cbn [ext wall loc].
  destruct (Z.ltb_spec (2 ^ 63 - 1) (e + d)); [|destruct (Z.ltb_spec (e + d) (- 2 ^ 63))].
  - assert ((e + d + 2 ^ (64 - 1)) mod 2 ^ 64 - 2 ^ (64 - 1) = e + d - 2 ^ 64) as -> by (Z.div_mod_to_equations; lia).
    rewrite (proj2 (Z.ltb_ge _ _)), (proj2 (Z.ltb_lt 0 d)) by lia. done.
  - assert ((e + d + 2 ^ (64 - 1)) mod 2 ^ 64 - 2 ^ (64 - 1) = e + d + 2 ^ 64) as -> by (Z.div_mod_to_equations; lia).
    rewrite (proj2 (Z.ltb_lt _ _)), (proj2 (Z.ltb_ge 0 d)) by lia. done.
  - rewrite Z.mod_small, Z.add_simpl_r by lia. 
    destruct (Z.ltb_spec e (e + d)), (Z.ltb_spec 0 d); cbn [Bool.eqb]; (done || lia).
Qed.

Lemma set_nsec w n n' :
  0 <= n < 2 ^ 30 -> 0 <= n' < 2 ^ 30 ->
  Z.lor (Z.ldiff (w * 2 ^ 30 + n) nsecMask) (uint64 n') = w * 2 ^ 30 + n'.
Proof.
  intros Hn Hn'. change nsecMask with (Z.ones 30). rewrite Z.ldiff_ones_r, Z.shiftr_div_pow2 by lia.
  rewrite Z.div_add_l, Z.div_small, Z.add_0_r by lia. unfold uint64. rewrite uint_wrap_id by lia. by rewrite lor_shiftl_add.
Qed.

Lemma set_wall_sec s n :
  0 <= s < 2 ^ 33 -> 0 <= n < 2 ^ 30 ->
  Z.lor (Z.lor n (uint64 (Z.shiftl (uint64 s) nsecShift))) hasMonotonic = 2 ^ 63 + s * 2 ^ 30 + n.
Proof.
  intros Hs Hn. unfold uint64 at 2. rewrite uint_wrap_id by lia. unfold nsecShift. unfold uint64. rewrite uint_wrap_id.
  - rewrite (Z.lor_comm n), lor_shiftl_add, Z.lor_comm by lia. unfold hasMonotonic. rewrite lor_shiftl_add by lia. lia.
  - rewrite Z.shiftl_mul_pow2 by lia. lia.
Qed.

(** The carries of an addition. *)
Definition add_sec (t : Time) (d : Z) : Z := sec t + (nsec t + d) / 1000000000.

Lemma addSec_mono s n m l d :
  0 <= s < 2 ^ 33 -> 0 <= n < 1000000000 -> Z.abs d < 2 ^ 35 ->
  addSec (mono_time s n m l) d =
    if (0 <=? s + d) && (s + d <? 2 ^ 33) then mono_time (s + d) n m l else wall_time (wallToInternal + s + d) n l.
Proof.
  intros Hs Hn Hd. unfold addSec. rewrite mono_bit_mono by done. cbv zeta.
  change (wall (mono_time s n m l)) with (2 ^ 63 + s * 2 ^ 30 + n). change (ext (mono_time s n m l)) with m.
  change (loc (mono_time s n m l)) with l. rewrite wall_sec_mono by done.
  rewrite int64_id by (unfold is_int, MinInt, MaxInt; lia).
  replace (s + d <=? Z.shiftl 1 33 - 1) with (s + d <? 2 ^ 33) by (change (Z.shiftl 1 33) with (2 ^ 33); destruct (Z.ltb_spec (s + d) (2 ^ 33)); lia).
  destruct (Z.leb_spec 0 (s + d)), (Z.ltb_spec (s + d) (2 ^ 33)); cbn [andb].
  { rewrite mono_split, land_nsecMask by lia. unfold mono_time. f_equal. apply set_wall_sec; lia. }
  all: rewrite stripMono_mono by done; unfold wall_time;
    assert (is_int (wallToInternal + s)) by (unfold is_int, MinInt, MaxInt; change wallToInternal with 59453308800; lia);
    rewrite addSec_ext_spec by (done || (unfold is_int, MinInt, MaxInt; lia)); f_equal;
    unfold sat, MaxInt, MinInt; change wallToInternal with 59453308800;
    rewrite (proj2 (Z.ltb_ge _ _)), (proj2 (Z.ltb_ge _ _)) by lia; done.
Qed.

Lemma addSec_wall e n l d :
  is_int e -> 0 <= n < 1000000000 -> is_int d -> addSec (wall_time e n l) d = wall_time (sat (e + d)) n l.
Proof. intros He Hn Hd. unfold addSec. rewrite mono_bit_wall by done. by apply addSec_ext_spec. Qed.

Lemma Add_unfold t d :
  wf_time t -> is_int d ->
  Add t d = Add_mono (addSec (MkTime (wall t - nsec t + (nsec t + d) mod 1000000000) (ext t) (loc t)) ((nsec t + d) / 1000000000)) d.
Proof.
  intros Ht Hd. unfold Add. pose proof (carry_spec (nsec t) d (nsec_range t Ht) Hd) as Hc. cbv zeta in *. rewrite Hc.
  do 2 f_equal. pose proof (Z.mod_pos_bound (nsec t + d) 1000000000 ltac:(lia)) as Hm.
  destruct Ht as [s n m l ? ? ?|e n l ? ?].
  - rewrite nsec_mono in * by done. cbn [wall ext loc mono_time]. f_equal. rewrite mono_split, set_nsec by lia. lia.
  - rewrite nsec_wall in * by done. cbn [wall ext loc wall_time]. f_equal.
    rewrite <- (Z.add_0_l n) at 1. rewrite <- (Z.mul_0_l (2 ^ 30)) at 1. rewrite set_nsec by lia. lia.
Qed.

Lemma carry_bound n d : 0 <= n < 1000000000 -> is_int d -> Z.abs ((n + d) / 1000000000) < 2 ^ 35.
Proof. intros Hn Hd. unfold is_int, MinInt, MaxInt in Hd. Z.div_mod_to_equations. lia. Qed.

(** What [Add] returns. *)
Record add_facts (t t' : Time) (d : Z) : Prop := {
  af_wf : wf_time t'; af_loc : loc t' = loc t;
  af_nsec : nsec t' = (nsec t + d) mod 1000000000;
  af_sec : sec t' = sat (add_sec t d);
  af_mono : mono_bit t' = true -> mono_bit t = true /\ ext t' = ext t + d }.

Ltac fields :=
  unfold add_sec; rewrite ?nsec_mono, ?sec_mono, ?nsec_wall, ?sec_wall, ?mono_bit_mono, ?mono_bit_wall by done.

Lemma Add_spec t d : wf_time t -> is_int d -> add_facts t (Add t d) d.
Proof.
  intros Ht Hd. rewrite Add_unfold by done. pose proof (nsec_range t Ht) as Hn. 
  pose proof (carry_bound (nsec t) d Hn Hd) as Hq. pose proof (Z.mod_pos_bound (nsec t + d) 1000000000 ltac:(lia)) as Hm.
  destruct Ht as [s n m l Hs Hn0 Hi|e n l He Hn0].
  - rewrite nsec_mono in * by done. set (q := (n + d) / 1000000000) in *. set (n' := (n + d) mod 1000000000) in *.
    change (wall (mono_time s n m l)) with (2 ^ 63 + s * 2 ^ 30 + n). change (ext (mono_time s n m l)) with m.
    change (loc (mono_time s n m l)) with l.
    replace (MkTime (2 ^ 63 + s * 2 ^ 30 + n - n + n') m l) with (mono_time s n' m l) by (unfold mono_time; f_equal; lia).
    rewrite addSec_mono by done.
    assert (sat (wallToInternal + s + q) = wallToInternal + s + q) as Hsat.
    { unfold sat, MaxInt, MinInt. change wallToInternal with 59453308800. by rewrite !(proj2 (Z.ltb_ge _ _)) by lia. }
    destruct ((0 <=? s + q) && (s + q <? 2 ^ 33)) eqn:Hr.
    + apply andb_true_iff in Hr as [Hr1%Z.leb_le Hr2%Z.ltb_lt]. unfold Add_mono. rewrite mono_bit_mono by done. cbv zeta.
      change (ext (mono_time (s + q) n' m l)) with m.
      destruct (_ || _) eqn:Hov.
      * rewrite stripMono_mono by done.
        assert (is_int (wallToInternal + (s + q))) by (unfold is_int, MinInt, MaxInt; change wallToInternal with 59453308800; lia).
        split; [by constructor|done|by fields|fields; subst q; rewrite Hsat; lia|by fields].
      * unfold is_int, MinInt, MaxInt in Hi, Hd.
        assert (is_int (m + d)) as Hmd.
        { unfold is_int, MinInt, MaxInt. apply orb_false_iff in Hov as [Ho1 Ho2]. unfold int64, sint_wrap in *.
          destruct (Z.ltb_spec d 0), (Z.ltb_spec 0 d); cbn [andb] in *; try apply Z.ltb_ge in Ho1; try apply Z.ltb_ge in Ho2;
            Z.div_mod_to_equations; lia. }
        rewrite int64_id by done. change (MkTime (wall (mono_time (s + q) n' m l)) (m + d) (loc (mono_time (s + q) n' m l)))
          with (mono_time (s + q) n' (m + d) l).
        split; [by constructor|done|by fields|fields; subst q; rewrite Hsat; lia|by fields].
    + assert (is_int (wallToInternal + s + q)) by (unfold is_int, MinInt, MaxInt; change wallToInternal with 59453308800; lia).
      unfold Add_mono. rewrite mono_bit_wall by done.
      split; [by constructor|done|by fields|fields; subst q; by rewrite Hsat|by fields].
  - rewrite nsec_wall in * by done. set (q := (n + d) / 1000000000) in *. set (n' := (n + d) mod 1000000000) in *.
    change (wall (wall_time e n l)) with n. change (ext (wall_time e n l)) with e. change (loc (wall_time e n l)) with l.
    replace (MkTime (n - n + n') e l) with (wall_time e n' l) by (unfold wall_time; f_equal; lia).
    assert (is_int q) as Hiq by (unfold is_int, MinInt, MaxInt; lia).
    rewrite addSec_wall by done.
    assert (is_int (sat (e + q))).
    { unfold sat, is_int, MaxInt, MinInt. destruct (Z.ltb_spec (2 ^ 63 - 1) (e + q)), (Z.ltb_spec (e + q) (- 2 ^ 63)); lia. }
    unfold Add_mono. rewrite mono_bit_wall by done.
    split; [by constructor|done|by fields|by fields|by fields].
Qed.

(** ** Subtraction *)

(** The wall clock in nanoseconds, and the instant two times are compared by. *)
Definition total (t : Time) : Z := sec t * 1000000000 + nsec t.
Definition difference (t u : Time) : Z := if both_mono t u then ext t - ext u else total t - total u.
Definition clip (x : Z) : Z := Z.max minDuration (Z.min maxDuration x).

Lemma ext_range t : wf_time t -> is_int (ext t).
Proof. by intros [s n m l ? ? ?|e n l ? ?]. Qed.

Lemma subMono_spec a b : is_int a -> is_int b -> subMono a b = clip (a - b).
Proof.
  unfold is_int, MinInt, MaxInt. intros Ha Hb. unfold subMono, clip, minDuration, maxDuration, int64, sint_wrap.
  destruct (Z.ltb_spec b a), (Z.ltb_spec a b); try lia;
    destruct (Z.leb_spec (- 2 ^ 63) (a - b)), (Z.leb_spec (a - b) (2 ^ 63 - 1)); try lia;
    try (rewrite Z.mod_small, Z.add_simpl_r by lia; zcase; lia);
    try (assert ((a - b + 2 ^ (64 - 1)) mod 2 ^ 64 - 2 ^ (64 - 1) = a - b - 2 ^ 64) as -> by (Z.div_mod_to_equations; lia); zcase; lia);
    try (assert ((a - b + 2 ^ (64 - 1)) mod 2 ^ 64 - 2 ^ (64 - 1) = a - b + 2 ^ 64) as -> by (Z.div_mod_to_equations; lia); zcase; lia).
Qed.

Lemma Compare_spec t u :
  wf_time t -> wf_time u ->
  Compare t u = Z.sgn (difference t u) /\ Before t u = (difference t u <? 0) /\ After t u = (0 <? difference t u) /\
  Equal t u = (difference t u =? 0).
Proof.
  intros Ht Hu. unfold Compare, Before, After, Equal, difference. destruct (both_mono t u).
  - destruct (Z.ltb_spec (ext t) (ext u)), (Z.ltb_spec (ext u) (ext t)), (Z.eqb_spec (ext t) (ext u)),
      (Z.ltb_spec (ext t - ext u) 0), (Z.ltb_spec 0 (ext t - ext u)), (Z.eqb_spec (ext t - ext u) 0); lia.
  - pose proof (nsec_range t Ht). pose proof (nsec_range u Hu). unfold total.
    destruct (Z.eqb_spec (sec t) (sec u)) as [E|Hne]; cbn [andb orb].
    + rewrite E. destruct (Z.ltb_spec (sec u) (sec u)), (Z.ltb_spec (nsec t) (nsec u)), (Z.ltb_spec (nsec u) (nsec t)), (Z.eqb_spec (nsec t) (nsec u));
        cbn [orb]; zcase; lia.
    + rewrite !orb_false_r. zcase; lia.
Qed.

Lemma int64_repr x : exists k, int64 x = x + k * 2 ^ 64.
Proof.
  exists (- ((x + 2 ^ 63) / 2 ^ 64)). unfold int64, sint_wrap. change (2 ^ (64 - 1)) with (2 ^ 63).
  pose proof (Z.div_mod (x + 2 ^ 63) (2 ^ 64) ltac:(lia)). lia.
Qed.
Lemma int64_add_multiple x k : int64 (x + k * 2 ^ 64) = int64 x.
Proof.
  unfold int64, sint_wrap. f_equal. rewrite <- (Z.mod_add (x + _) k) by lia. f_equal. lia.
Qed.

Lemma wrap_difference t u :
  wf_time t -> wf_time u ->
  int64 (int64 (int64 (sec t - sec u) * Second) + sint_wrap 32 (nsec t - nsec u)) = int64 (total t - total u).
Proof.
  intros Ht Hu. pose proof (nsec_range t Ht). pose proof (nsec_range u Hu). rewrite (sint_wrap_id 32) by lia.
  change Second with 1000000000. destruct (int64_repr (sec t - sec u)) as [k1 ->].
  destruct (int64_repr ((sec t - sec u + k1 * 2 ^ 64) * 1000000000)) as [k2 ->]. unfold total.
  rewrite <- (int64_add_multiple (sec t * 1000000000 + nsec t - _) (1000000000 * k1 + k2)). f_equal. lia.
Qed.

Lemma int64_range x : is_int (int64 x).
Proof. unfold is_int, MinInt, MaxInt, int64, sint_wrap. pose proof (Z.mod_pos_bound (x + 2 ^ (64 - 1)) (2 ^ 64) ltac:(lia)). lia. Qed.

Lemma Sub_spec t u : wf_time t -> wf_time u -> Sub t u = clip (difference t u).
Proof.
  intros Ht Hu. unfold Sub. destruct (both_mono t u) eqn:Hb.
  { unfold difference. rewrite Hb. apply subMono_spec; by apply ext_range. }
  rewrite wrap_difference by done. set (D := total t - total u). pose proof (int64_range D) as Hr.
  assert (difference t u = D) as Ediff by (unfold difference; by rewrite Hb). rewrite Ediff.
  destruct (Add_spec u (int64 D) Hu Hr) as [Hwf _ Hn Hs Hm]. set (v := Add u (int64 D)) in *.
  assert (both_mono v t = false) as Hbv.
  { rewrite both_mono_spec in * by done. destruct (mono_bit v); [|done]. destruct Hm as [Hmu _]; [done|].
    rewrite Hmu in Hb. by destruct (mono_bit t). }
  destruct (Compare_spec v t Hwf Ht) as (_ & _ & _ & ->).
  destruct (Compare_spec t u Ht Hu) as (_ & -> & _ & _). rewrite Ediff.
  unfold difference. rewrite Hbv. pose proof (nsec_range u Hu) as Hnu. pose proof (nsec_range t Ht) as Hnt.
  pose proof (sec_range t Ht) as Hst. pose proof (sec_range u Hu) as Hsu.
  assert (total v = sat (add_sec u (int64 D)) * 1000000000 + (nsec u + int64 D) mod 1000000000) as -> by (unfold total; by rewrite Hs, Hn).
  assert (is_int D -> int64 D = D) as Hid by apply int64_id.
  unfold add_sec. set (d := int64 D) in *. clearbody d. unfold is_int, MinInt, MaxInt in *.
  pose proof (Z.div_mod (nsec u + d) 1000000000 ltac:(lia)) as Hdm.
  pose proof (Z.mod_pos_bound (nsec u + d) 1000000000 ltac:(lia)) as Hmb.
  set (q := (nsec u + d) / 1000000000) in *. set (n' := (nsec u + d) mod 1000000000) in *. clearbody q n'.
  unfold clip, minDuration, maxDuration. unfold D, total in *. clear D Ediff.
  unfold sat, MaxInt, MinInt.
  destruct (Z.ltb_spec (2 ^ 63 - 1) (sec u + q)); [|destruct (Z.ltb_spec (sec u + q) (- 2 ^ 63))];
    match goal with |- (if ?b then _ else _) = _ => destruct b eqn:Heq end;
    try match goal with |- (if ?b then _ else _) = _ => destruct b eqn:Hlt end; lia.
Qed.

(** ** Main theorem *)

(** C37: times are exact where Go's 64-bit fields allow it: [Add] gives the
    normalized sum, its seconds saturating at the ends of the range, and keeps
    or drops the monotonic reading consistently; [Sub] is the exact difference
    of the monotonic readings, or of the wall clocks if one has none, clipped
    to a [Duration]; [Compare], [Before], [After] and [Equal] order times by that
    difference; and subtracting undoes adding. *)
Theorem time_arithmetic_spec (t u : Time) (d : Z) (Ht : wf_time t) (Hu : wf_time u) (Hd : is_int d) :
  add_facts t (Add t d) d /\
  Sub t u = clip (difference t u) /\
  Compare t u = Z.sgn (difference t u) /\ Before t u = (difference t u <? 0) /\ After t u = (0 <? difference t u) /\
  Equal t u = (difference t u =? 0) /\
  (is_int (add_sec t d) -> Sub (Add t d) t = d).
Proof.
  pose proof (Add_spec t d Ht Hd) as Hadd. destruct (Compare_spec t u Ht Hu) as (H1 & H2 & H3 & H4).
  split; [done|]. split; [by apply Sub_spec|]. do 4 (split; [done|]).
  intros Hin. destruct Hadd as [Hwf _ Hn Hs Hm]. rewrite Sub_spec by done.
  assert (difference (Add t d) t = d) as ->; [|unfold clip, minDuration, maxDuration, is_int, MinInt, MaxInt in *; lia].
  unfold difference. destruct (both_mono (Add t d) t) eqn:Hb.
  - rewrite both_mono_spec in Hb by done. apply andb_true_iff in Hb as [Hb _]. destruct (Hm Hb) as [_ ->]. lia.
  - unfold total. rewrite Hs, Hn. unfold sat, add_sec, is_int in *.
    rewrite !(proj2 (Z.ltb_ge _ _)) by lia. pose proof (Z.div_mod (nsec t + d) 1000000000). lia.
Qed.
Lemma time_arithmetic_spec_witness :
  wf_time (mono_time 4000000000 999999999 5 None) /\ wf_time (wall_time 0 0 None) /\
  Sub (Add (mono_time 4000000000 999999999 5 None) 7) (mono_time 4000000000 999999999 5 None) = 7 /\
  Before (wall_time 0 0 None) (mono_time 4000000000 999999999 5 None) = true.
Proof.
  assert (wf_time (mono_time 4000000000 999999999 5 None)) as H1 by (constructor; unfold is_int, MinInt, MaxInt; lia).
  assert (wf_time (wall_time 0 0 None)) as H2 by (constructor; unfold is_int, MinInt, MaxInt; lia).
  assert (is_int 7) as H3 by (unfold is_int, MinInt, MaxInt; lia). split; [exact H1|]. split; [exact H2|].
  destruct (time_arithmetic_spec _ _ _ H1 H2 H3) as (_ & _ & _ & _ & Ha & _ & Hs). split.
  - apply Hs. vm_compute. split; discriminate.
  - vm_compute. reflexivity.
Defined.
