(* ===== verification/Durations.v ===== *)
(** * Durations ([go/src/time/time.go], [format.go])

    [String] writes a duration into a buffer of 32 bytes from the right;
    [ParseDuration] reads it back with 64-bit integers and, for fractions, the
    binary64 operations of [SpecFloat].  [Round], [Truncate] and [Abs] round
    without overflow. *)
From Stdlib Require Import Floats.SpecFloat.
From S2P Require Import Prelude GoUtf8 GoCalendar GoTime Strconv.
#[local] Open Scope Z_scope.

(** ** Formatting *)
Fixpoint fmtFrac_loop (prec : nat) (buf : gostring) (w v : Z) (print : bool) : go (gostring * Z * Z * bool) :=
  match prec with
  | O => Ret (buf, w, v, print)
  | S prec =>
      let digit := v mod 10 in
      let print := print || negb (digit =? 0) in
      '(buf, w) ← (if print then buf ← store buf (w - 1) (uint_wrap 8 (uint_wrap 8 digit + 48)); Ret (buf, w - 1) else Ret (buf, w));
      fmtFrac_loop prec buf w (v / 10) print
  end.
(** On the bytes of [buf] before [w]; the buffer, [nw] and [nv]. *)
Definition fmtFrac (buf : gostring) (w v : Z) (prec : nat) : go (gostring * Z * Z) :=
  '(buf, w, v, print) ← fmtFrac_loop prec buf w v false;
  if (print : bool) then buf ← store buf (w - 1) 46; Ret (buf, w - 1, v) else Ret (buf, w, v).

Fixpoint fmtInt_loop (fuel : nat) (buf : gostring) (w v : Z) : go (gostring * Z) :=
  if 0 <? v then
    match fuel with
    | O => OutOfFuel
    | S fuel =>
        buf ← store buf (w - 1) (uint_wrap 8 (uint_wrap 8 (v mod 10) + 48));
        fmtInt_loop fuel buf (w - 1) (v / 10)
    end
  else Ret (buf, w).
(** A [uint64] has at most twenty digits. *)
Definition fmtInt (buf : gostring) (w v : Z) : go (gostring * Z) :=
  if v =? 0 then buf ← store buf (w - 1) 48; Ret (buf, w - 1) else fmtInt_loop 20 buf w v.

(** The micro sign, U+00B5. *)
Definition micro : gostring := [0xC2; 0xB5].
(** The unit letter of a duration below a second, the precision, and whether the digits follow. *)
Definition format_small (buf : gostring) (w u : Z) : go (gostring * Z) :=
  buf ← store buf (w - 1) 115; let w := w - 1 in
  let w := w - 1 in
  if u =? 0 then buf ← store buf w 48; Ret (buf, w)
  else
    '(buf, w, prec) ← (
      if u <? uint_wrap 64 Microsecond then buf ← store buf w 110; Ret (buf, w, O)
      else if u <? uint_wrap 64 Millisecond then
        let w := w - 1 in
        tail ← slice_from buf w;
        Ret (take (Z.to_nat w) buf ++ copy_slice tail micro, w, 3%nat)
      else buf ← store buf w 109; Ret (buf, w, 6%nat));
    '(buf, w, u) ← fmtFrac buf w u prec;
    fmtInt buf w u.
Definition format_large (buf : gostring) (w u : Z) : go (gostring * Z) :=
  buf ← store buf (w - 1) 115; let w := w - 1 in
  '(buf, w, u) ← fmtFrac buf w u 9;
  '(buf, w) ← fmtInt buf w (u mod 60); let u := u / 60 in
  if 0 <? u then
    buf ← store buf (w - 1) 109; let w := w - 1 in
    '(buf, w) ← fmtInt buf w (u mod 60); let u := u / 60 in
    if 0 <? u then buf ← store buf (w - 1) 104; let w := w - 1 in fmtInt buf w u else Ret (buf, w)
  else Ret (buf, w).
Definition format (d : Z) (buf : gostring) : go (gostring * Z) :=
  let w := zlen buf in
  let u := uint_wrap 64 d in
  let neg := d <? 0 in
  let u := if neg then uint_wrap 64 (- u) else u in
  '(buf, w) ← (if u <? uint_wrap 64 Second then format_small buf w u else format_large buf w u);
  if neg then buf ← store buf (w - 1) 45; Ret (buf, w - 1) else Ret (buf, w).
Definition Duration_String (d : Z) : go gostring :=
  '(arr, n) ← format d (replicate 32 0); slice_from arr n.

(** ** Units and rounding *)
Definition Nanoseconds (d : Z) : Z := d.
Definition Microseconds (d : Z) : Z := d ÷ 1000.
Definition Milliseconds (d : Z) : Z := d ÷ 1000000.
Definition Truncate (d m : Z) : Z := if m <=? 0 then d else int64 (d - Z.rem d m).
Definition lessThanHalf (x y : Z) : bool := uint_wrap 64 (uint_wrap 64 x + uint_wrap 64 x) <? uint_wrap 64 y.
Definition Round (d m : Z) : Z :=
  if m <=? 0 then d
  else
    let r := Z.rem d m in
    if d <? 0 then
      let r := int64 (- r) in
      if lessThanHalf r m then int64 (d + r)
      else let d1 := int64 (int64 (d - m) + r) in if d1 <? d then d1 else minDuration
    else if lessThanHalf r m then int64 (d - r)
    else let d1 := int64 (int64 (d + m) - r) in if d <? d1 then d1 else maxDuration.
Definition Abs (d : Z) : Z := if 0 <=? d then d else if d =? minDuration then maxDuration else int64 (- d).

(** ** [quote] *)
Definition lowerhex : gostring := str "0123456789abcdef".
Fixpoint quote_bytes (s : gostring) (i : Z) (width : nat) (buf : gostring) : go gostring :=
  match width with
  | O => Ret buf
  | S width =>
      b ← index s i;
      h ← index lowerhex (Z.shiftr b 4); l ← index lowerhex (Z.land b 15);
      quote_bytes s (i + 1) width (buf ++ [92; 120; h; l])
  end.
(** [for i, c := range s]: the runes of [s] from [i] on. *)
Fixpoint quote_loop (fuel : nat) (s : gostring) (i : Z) (buf : gostring) : go gostring :=
  if i <? zlen s then
    match fuel with
    | O => OutOfFuel
    | S fuel =>
        rest ← slice_from s i; '(c, size) ← DecodeRuneInString rest;
        buf ← (if (RuneSelf <=? c) || (c <? 32) then
            width ← (if c =? RuneError then
                if i + 2 <? zlen s then
                  t ← slice s i (i + 3); Ret (if bool_decide (t = [0xEF; 0xBF; 0xBD]) then 3 else 1)
                else Ret 1
              else Ret (RuneLen c));
            quote_bytes s i (Z.to_nat width) buf
          else Ret ((if (c =? 34) || (c =? 92) then buf ++ [92] else buf) ++ [uint_wrap 8 c]));
        quote_loop fuel s (i + size) buf
    end
  else Ret buf.
Definition quote (s : gostring) : go gostring := buf ← quote_loop (length s) s 0 [34]; Ret (buf ++ [34]).

(** ** Parsing *)
Record parseDurationError := MkParseDurationError { message : gostring; pvalue : gostring }.
Definition parseDurationError_Error (e : parseDurationError) : go gostring :=
  q ← quote (pvalue e); Ret (str "time: " ++ message e ++ str " " ++ q).

Definition is_digit (c : Z) : bool := (48 <=? c) && (c <=? 57).
(** [None] is [errLeadingInt]. *)
Fixpoint leadingInt_loop (s : gostring) (x : Z) : option (Z * gostring) :=
  match s with
  | [] => Some (x, [])
  | c :: s' =>
      if negb (is_digit c) then Some (x, s)
      else if 2 ^ 63 / 10 <? x then None
      else
        let x := uint_wrap 64 (x * 10 + c - 48) in
        if 2 ^ 63 <? x then None else leadingInt_loop s' x
  end.
Definition leadingInt (s : gostring) : option (Z * gostring) := leadingInt_loop s 0.

(** binary64 *)
Definition float_of (n : Z) : spec_float := binary_normalize 53 1024 n 0 false.
Definition float_mul (x y : spec_float) : spec_float := SFmul 53 1024 x y.
Definition float_div (x y : spec_float) : spec_float := SFdiv 53 1024 x y.
(** [uint64(x)]: the integer part.  Above 2^64 Go leaves the result open; here [x] is a
    fraction of a unit, at most an hour. *)
Definition float_trunc (x : spec_float) : Z :=
  match x with
  | S754_finite false m e => uint_wrap 64 (if 0 <=? e then Zpos m * 2 ^ e else Zpos m / 2 ^ (- e))
  | _ => 0
  end.

Fixpoint leadingFraction_loop (s : gostring) (x : Z) (scale : spec_float) (overflow : bool) : Z * spec_float * gostring :=
  match s with
  | [] => (x, scale, [])
  | c :: s' =>
      if negb (is_digit c) then (x, scale, s)
      else if overflow then leadingFraction_loop s' x scale overflow
      else if (2 ^ 63 - 1) / 10 <? x then leadingFraction_loop s' x scale true
      else
        let y := uint_wrap 64 (x * 10 + c - 48) in
        if 2 ^ 63 <? y then leadingFraction_loop s' x scale true
        else leadingFraction_loop s' y (float_mul scale (float_of 10)) overflow
  end.
Definition leadingFraction (s : gostring) : Z * spec_float * gostring := leadingFraction_loop s 0 (float_of 1) false.

Definition unitMap : list (gostring * Z) :=
  [(str "ns", uint_wrap 64 Nanosecond); (str "us", uint_wrap 64 Microsecond);
   ([0xC2; 0xB5; 115], uint_wrap 64 Microsecond); ([0xCE; 0xBC; 115], uint_wrap 64 Microsecond);
   (str "ms", uint_wrap 64 Millisecond); (str "s", uint_wrap 64 Second);
   (str "m", uint_wrap 64 Minute); (str "h", uint_wrap 64 Hour)].
Fixpoint unit_length (s : gostring) : Z :=
  match s with [] => 0 | c :: s => if (c =? 46) || is_digit c then 0 else 1 + unit_length s end.

Definition invalid (orig : gostring) : parseDurationError := MkParseDurationError (str "invalid duration") orig.
(** The optional fraction: [f], [scale], the rest and [post]. *)
Definition parse_fraction (s : gostring) : go (Z * spec_float * gostring * bool) :=
  dot ← (if bool_decide (s <> []) then c ← index s 0; Ret (c =? 46) else Ret false);
  if (dot : bool) then
    s ← slice_from s 1;
    let '(f, scale, rest) := leadingFraction s in
    Ret (f, scale, rest, negb (zlen s =? zlen rest))
  else Ret (0, float_of 1, s, false).
Fixpoint parse_components (fuel : nat) (orig s : gostring) (d : Z) : go (Z + parseDurationError) :=
  match s with
  | [] => Ret (inl d)
  | _ =>
    match fuel with
    | O => OutOfFuel
    | S fuel =>
        c ← index s 0;
        if negb ((c =? 46) || is_digit c) then Ret (inr (invalid orig))
        else
        match leadingInt s with
        | None => Ret (inr (invalid orig))
        | Some (v, s1) =>
            let pre := negb (zlen s =? zlen s1) in
            '(f, scale, s2, post) ← parse_fraction s1;
            if negb pre && negb post then Ret (inr (invalid orig))
            else
              let i := unit_length s2 in
              if i =? 0 then Ret (inr (MkParseDurationError (str "missing unit in duration") orig))
              else
                u ← slice_to s2 i; s3 ← slice_from s2 i;
                match al_lookup u unitMap with
                | None => q ← quote u; Ret (inr (MkParseDurationError (str "unknown unit " ++ q ++ str " in duration") orig))
                | Some unit =>
                    if 2 ^ 63 / unit <? v then Ret (inr (invalid orig))
                    else
                      let v := uint_wrap 64 (v * unit) in
                      let v := if 0 <? f then uint_wrap 64 (v + float_trunc (float_mul (float_of f) (float_div (float_of unit) scale))) else v in
                      if (0 <? f) && (2 ^ 63 <? v) then Ret (inr (invalid orig))
                      else
                        let d := uint_wrap 64 (d + v) in
                        if 2 ^ 63 <? d then Ret (inr (invalid orig)) else parse_components fuel orig s3 d
                end
        end
    end
  end.
Definition ParseDuration (orig : gostring) : go (Z + parseDurationError) :=
  let s := orig in
  '(neg, s) ← (if bool_decide (s <> []) then
      c ← index s 0;
      if (c =? 45) || (c =? 43) then s ← slice_from s 1; Ret (c =? 45, s) else Ret (false, s)
    else Ret (false, s));
  if bool_decide (s = str "0") then Ret (inl 0)
  else if bool_decide (s = []) then Ret (inr (invalid orig))
  else
    r ← parse_components (length s) orig s 0;
    match r with
    | inr e => Ret (inr e)
    | inl d =>
        if (neg : bool) then Ret (inl (int64 (- int64 d)))
        else if 2 ^ 63 - 1 <? d then Ret (inr (invalid orig))
        else Ret (inl (int64 d))
    end.

Example string_samples :
  map Duration_String [0; 1; 1100; 2200000; 3300000000; 245000000000; 245001000000; 18367001000000; 480000000001; 2 ^ 63 - 1; - 2 ^ 63] =
  map Ret [str "0s"; str "1ns"; str "1.1" ++ micro ++ str "s"; str "2.2ms"; str "3.3s"; str "4m5s"; str "4m5.001s"; str "5h6m7.001s"; str "8m0.000000001s";
   str "2562047h47m16.854775807s"; str "-2562047h47m16.854775808s"].
Proof. vm_compute. reflexivity. Qed.

Example parse_samples_2 :
  map ParseDuration [str "-.5s"; str "1h15m30.918273645s"; str "0.3333333333333333333h"; str "9007199254740993ns"; str "0.9223372036854775807h"; str "+5us"; str "0.100000000000000000000h"] =
  map (fun z => Ret (inl z)) [-500000000; 4530918273645; 1200000000000; 9007199254740993; 3320413933267; 5000; 360000000000].
Proof. vm_compute. reflexivity. Qed.
Example parse_error_samples :
  map ParseDuration [str ""; str "3"; str "-"; str "s"; str "."; str "-.s"; str "3000000h"; str "9223372036854775808ns"; str "1x"] =
  map (fun m => Ret (inr (MkParseDurationError (str m.1) (str m.2))))
   [("invalid duration", ""); ("missing unit in duration", "3"); ("invalid duration", "-"); ("invalid duration", "s"); ("invalid duration", ".");
    ("invalid duration", "-.s"); ("invalid duration", "3000000h"); ("invalid duration", "9223372036854775808ns")]%string ++
  [Ret (inr (MkParseDurationError (str "unknown unit " ++ [34] ++ str "x" ++ [34] ++ str " in duration") (str "1x")))].
Proof. vm_compute. reflexivity. Qed.
(** Two components of 2^63 nanoseconds wrap around to zero. *)
Lemma parse_duration_wraps : ParseDuration (str "9223372036854775808ns9223372036854775808ns") = Ret (inl 0).
Proof. vm_compute. reflexivity. Qed.

(** ** Exact binary64 *)

(** [x] is the integer [n]. *)
Definition float_is (x : spec_float) (n : Z) : Prop :=
  match x with S754_finite false m e => -53 <= e <= 0 /\ Zpos m = n * 2 ^ (- e) | _ => False end.

Lemma digits2_pos_log2 p : Zpos (digits2_pos p) = Z.log2 (Zpos p) + 1.
Proof.
  induction p as [p IH|p IH|]; [..|done]; cbn [digits2_pos]; rewrite Pos2Z.inj_succ, IH.
  - replace (Zpos p~1) with (2 * Zpos p + 1) by lia. rewrite Z.log2_succ_double by lia. lia.
  - replace (Zpos p~0) with (2 * Zpos p) by lia. rewrite Z.log2_double by lia. lia.
Qed.

Lemma iter_pos_nat {A} (f : A -> A) n x : SpecFloat.iter_pos f n x = Nat.iter (Pos.to_nat n) f x.
Proof.
  revert x. induction n as [n IH|n IH|]; intros x; cbn [SpecFloat.iter_pos]; [..|done].
  - by rewrite !IH, <- Nat.iter_add, <- Nat.iter_succ_r, <- Nat.iter_succ_r || (rewrite !IH, <- Nat.iter_add, <- Nat.iter_succ_r; f_equal; lia).
  - rewrite !IH, <- Nat.iter_add. f_equal. lia.
Qed.

Lemma shr_1_double m : 0 < m -> shr_1 (Build_shr_record (2 * m) false false) = Build_shr_record m false false.
Proof. by destruct m. Qed.

Lemma shr_exact (k : nat) m : 0 < m ->
  Nat.iter k shr_1 (Build_shr_record (m * 2 ^ Z.of_nat k) false false) = Build_shr_record m false false.
Proof.
  intros Hm. induction k as [|k IH]; [cbn [Nat.iter]; by rewrite Z.mul_1_r|].
  rewrite Nat.iter_succ_r, Nat2Z.inj_succ, Z.pow_succ_r by lia.
  replace (m * (2 * 2 ^ Z.of_nat k)) with (2 * (m * 2 ^ Z.of_nat k)) by lia. rewrite shr_1_double; [done|nia].
Qed.

Lemma Zdigits2_pow n s : 0 < n -> 0 <= s -> Zdigits2 (n * 2 ^ s) = Z.log2 n + 1 + s.
Proof.
  intros Hn Hs. assert (0 < n * 2 ^ s) by nia. destruct (n * 2 ^ s) as [|p|] eqn:Hp; [lia| |lia].
  cbn [Zdigits2]. rewrite digits2_pos_log2, <- Hp, Z.log2_mul_pow2 by lia. lia.
Qed.

(** A mantissa that is an integer below 2^53 and zero bits is not rounded. *)
Lemma shr_fexp_exact n s : 0 < n < 2 ^ 53 -> 0 <= s <= 1074 ->
  exists t, 0 <= t <= s /\ shr_fexp 53 1024 (n * 2 ^ s) (- s) loc_Exact = (Build_shr_record (n * 2 ^ t) false false, - t) /\ t <= 53 - (Z.log2 n + 1).
Proof.
  intros Hn Hs. assert (Z.log2 n < 53) by (apply Z.log2_lt_pow2; lia). pose proof (Z.log2_nonneg n).
  unfold shr_fexp. rewrite Zdigits2_pow by lia. unfold fexp, emin.
  replace (Z.log2 n + 1 + s + - s) with (Z.log2 n + 1) by lia. rewrite Z.max_l by lia. cbn [shr_record_of_loc].
  destruct (Z_le_gt_dec s (53 - (Z.log2 n + 1))) as [Hle|Hgt].
  - exists s. split_and!; [lia..| |lia]. unfold shr. destruct (Z.log2 n + 1 - 53 - - s) as [|p|p] eqn:Hp; [done|lia|done].
  - exists (53 - (Z.log2 n + 1)). split_and!; [lia..| |lia]. unfold shr. destruct (Z.log2 n + 1 - 53 - - s) as [|p|p] eqn:Hp; [lia| |lia].
    rewrite iter_pos_nat. replace (n * 2 ^ s) with (n * 2 ^ (53 - (Z.log2 n + 1)) * 2 ^ Z.of_nat (Pos.to_nat p)).
    + rewrite shr_exact by nia. f_equal. lia.
    + rewrite <- Z.mul_assoc, <- Z.pow_add_r by lia. do 2 f_equal. lia.
Qed.

Lemma binary_round_exact n s : 0 < n < 2 ^ 53 -> 0 <= s <= 1074 -> float_is (binary_round_aux 53 1024 false (n * 2 ^ s) (- s) loc_Exact) n.
Proof.
  intros Hn Hs. destruct (shr_fexp_exact n s) as (t & Ht & E & Hl); [done..|]. unfold binary_round_aux. rewrite E. cbn [shr_m loc_of_shr_record round_nearest_even].
  destruct (shr_fexp_exact n t) as (t' & Ht' & E' & Hl'); [lia..|]. pose proof (Z.log2_nonneg n). rewrite E'. cbn [shr_m].
  assert (0 < n * 2 ^ t') by nia. destruct (n * 2 ^ t') as [|p|p] eqn:Hp; [lia| |lia].
  replace (- t' <=? 1024 - 53) with true by lia. cbn [float_is]. rewrite <- Hp, Z.opp_involutive. split_and!; lia.
Qed.

Lemma float_of_exact n : 0 < n < 2 ^ 53 -> float_is (float_of n) n.
Proof.
  intros Hn. assert (Z.log2 n < 53) by (apply Z.log2_lt_pow2; lia). pose proof (Z.log2_nonneg n).
  destruct n as [|p|]; [lia| |lia]. unfold float_of. cbn [binary_normalize]. unfold binary_round. rewrite digits2_pos_log2, Z.add_0_r.
  unfold fexp, emin. rewrite Z.max_l by lia. unfold shl_align. rewrite Z.sub_0_r. set (D := Z.log2 (Zpos p) + 1) in *.
  assert (exists m, match D - 53 with Zneg d => (Pos.iter xO p d, D - 53) | _ => (p, 0) end = (m, - (53 - D)) /\ Zpos m = Zpos p * 2 ^ (53 - D)) as (m & E & Hm).
  { destruct (D - 53) as [|d|d] eqn:Hd; [|lia|].
    - exists p. replace (53 - D) with 0 by lia. split; [done|lia].
    - exists (Pos.iter xO p d). split; [f_equal; lia|]. replace (53 - D) with (Zpos d) by lia.
      clear. induction d as [|d IH] using Pos.peano_ind; [cbn; lia|].
      rewrite Pos.iter_succ, Pos2Z.inj_succ, Z.pow_succ_r by lia. rewrite (Pos2Z.inj_xO (Pos.iter xO p d)), IH. lia. }
  rewrite E, Hm. apply binary_round_exact; lia.
Qed.

Lemma float_mul_exact x y a b : float_is x a -> float_is y b -> 0 < a * b < 2 ^ 53 -> float_is (float_mul x y) (a * b).
Proof.
  destruct x as [| | |[] m1 e1]; [done..|]. destruct y as [| | |[] m2 e2]; [done..|]. cbn [float_is]. intros (H1 & E1) (H2 & E2) Hab.
  unfold float_mul, SFmul. cbn [xorb]. replace (e1 + e2) with (- (- e1 - e2)) by lia.
  replace (Zpos (m1 * m2)) with (a * b * 2 ^ (- e1 - e2)); [apply binary_round_exact; lia|].
  rewrite Pos2Z.inj_mul, E1, E2. replace (- e1 - e2) with (- e1 + - e2) by lia. rewrite Z.pow_add_r by lia. lia.
Qed.

Lemma float_trunc_exact x n : float_is x n -> 0 <= n < 2 ^ 64 -> float_trunc x = n.
Proof.
  destruct x as [| | |[] m e]; [done..|]. cbn [float_is float_trunc]. intros (He & Hm) Hn. rewrite Hm.
  destruct (Z.leb_spec 0 e).
  - replace e with 0 by lia. rewrite !Z.mul_1_r. by apply uint_wrap_id.
  - rewrite Z.div_mul by lia. by apply uint_wrap_id.
Qed.

(** ** The text of a duration *)
Definition frac_text (k : nat) (f : Z) : gostring := match k with O => [] | _ => 46 :: pad k f end.

Lemma store_last (pre suf : gostring) x y : store ((pre ++ [x]) ++ suf) (zlen (pre ++ [x]) - 1) y = Ret (pre ++ y :: suf).
Proof. rewrite <- app_assoc, zlen_app. change (zlen [x]) with 1. rewrite Z.add_simpl_r. apply store_mid. Qed.

Lemma decimal_byte v : uint_wrap 8 (uint_wrap 8 (v mod 10) + 48) = 48 + v mod 10.
Proof. pose proof (Z.mod_pos_bound v 10 ltac:(lia)). rewrite (uint_wrap_id 8 (v mod 10)), uint_wrap_id by lia. lia. Qed.

Lemma div_pow10_S v (n : nat) : v / 10 / 10 ^ Z.of_nat n = v / 10 ^ Z.of_nat (S n).
Proof. by rewrite Nat2Z.inj_succ, Z.pow_succ_r, Z.div_div by lia. Qed.

Lemma fmtFrac_loop_print n (pre suf : gostring) v : (n <= length pre)%nat ->
  exists pre', fmtFrac_loop n (pre ++ suf) (zlen pre) v true = Ret (pre' ++ pad n v ++ suf, zlen pre', v / 10 ^ Z.of_nat n, true) /\
    (length pre' + n)%nat = length pre.
Proof.
  revert pre suf v. induction n as [|n IH]; intros pre suf v Hn; [exists pre; rewrite Z.div_1_r; split; [done|lia]|].
  destruct pre as [|x pre _] using rev_ind; [cbn in Hn; lia|]. rewrite length_app in Hn. cbn [length] in Hn.
  cbn [fmtFrac_loop orb]. rewrite decimal_byte, store_last, !bind_ret.
  destruct (IH pre ((48 + v mod 10) :: suf) (v / 10)) as (pre' & E & Hl); [lia|].
  exists pre'. rewrite zlen_app. change (zlen [x]) with 1. rewrite Z.add_simpl_r, E, div_pow10_S. cbn [pad]. rewrite <- app_assoc.
  split; [done|]. rewrite length_app. cbn. lia.
Qed.

Lemma fmtFrac_loop_spec n (pre suf : gostring) v : (n <= length pre)%nat -> 0 <= v ->
  exists pre' k, fmtFrac_loop n (pre ++ suf) (zlen pre) v false =
      Ret (pre' ++ pad k (v / 10 ^ Z.of_nat (n - k)) ++ suf, zlen pre', v / 10 ^ Z.of_nat n, negb (Nat.eqb k 0)) /\
    (k <= n)%nat /\ v mod 10 ^ Z.of_nat (n - k) = 0 /\ (length pre' + k)%nat = length pre.
Proof.
  revert pre suf v. induction n as [|n IH]; intros pre suf v Hn Hv.
  - exists pre, O. cbn [Nat.sub]. change (10 ^ Z.of_nat 0) with 1. rewrite !Z.div_1_r, Z.mod_1_r. split_and!; [done|lia..].
  - cbn [fmtFrac_loop orb]. destruct (Z.eqb_spec (v mod 10) 0) as [H0|H0]; cbn [negb].
    + rewrite bind_ret. destruct (IH pre suf (v / 10)) as (pre' & k & E & Hk & Hm & Hl); [lia|apply Z.div_pos; lia|].
      exists pre', k. rewrite E, !div_pow10_S. replace (S n - k)%nat with (S (n - k)) by lia. split_and!; [done|lia| |done].
      rewrite Nat2Z.inj_succ, Z.pow_succ_r, Z.rem_mul_r by lia. lia.
    + destruct pre as [|x pre _] using rev_ind; [cbn in Hn; lia|]. rewrite length_app in Hn. cbn [length] in Hn.
      rewrite decimal_byte, store_last, !bind_ret. rewrite zlen_app. change (zlen [x]) with 1. rewrite Z.add_simpl_r.
      destruct (fmtFrac_loop_print n pre ((48 + v mod 10) :: suf) (v / 10)) as (pre' & E & Hl); [lia|].
      exists pre', (S n). rewrite E, div_pow10_S, Nat.sub_diag; change (10 ^ Z.of_nat 0) with 1; rewrite Z.div_1_r, Z.mod_1_r. cbn [pad]. rewrite <- app_assoc, length_app. cbn [length]. split_and!; [done|lia..].
Qed.

(** [fmtFrac] writes the [k] significant digits of the fraction. *)
Lemma fmtFrac_spec n (pre suf : gostring) v : (n < length pre)%nat -> 0 <= v ->
  exists pre' k, fmtFrac (pre ++ suf) (zlen pre) v n =
      Ret (pre' ++ frac_text k (v / 10 ^ Z.of_nat (n - k)) ++ suf, zlen pre', v / 10 ^ Z.of_nat n) /\
    (k <= n)%nat /\ v mod 10 ^ Z.of_nat (n - k) = 0 /\ (length pre <= length pre' + S n)%nat.
Proof.
  intros Hn Hv. unfold fmtFrac. destruct (fmtFrac_loop_spec n pre suf v) as (pre' & k & E & Hk & Hm & Hl); [lia..|]. rewrite E, bind_ret.
  destruct k as [|k]; cbn [Nat.eqb negb].
  - exists pre', O. split_and!; [done|lia..].
  - destruct pre' as [|x pre' _] using rev_ind; [cbn in Hl; lia|]. rewrite length_app in Hl. cbn [length] in Hl.
    rewrite store_last, bind_ret, zlen_app. change (zlen [x]) with 1. rewrite Z.add_simpl_r.
    exists pre', (S k). split_and!; [done|lia..].
Qed.

Lemma fmtInt_loop_spec n fuel (pre suf : gostring) v : (n <= fuel)%nat -> (n <= length pre)%nat -> 0 <= v < 10 ^ Z.of_nat n ->
  exists pre', fmtInt_loop fuel (pre ++ suf) (zlen pre) v = Ret (pre' ++ (if v =? 0 then [] else repr n 10 v) ++ suf, zlen pre') /\
    (length pre <= length pre' + n)%nat.
Proof.
  revert fuel pre suf v. induction n as [|n IH]; intros fuel pre suf v Hf Hn Hv.
  - assert (v = 0) as -> by (cbn in Hv; lia). exists pre. split; [by destruct fuel|lia].
  - destruct (Z.eqb_spec v 0) as [->|Hv0]; [exists pre; split; [by destruct fuel|cbn; lia]|].
    destruct fuel as [|fuel]; [lia|]. cbn [fmtInt_loop]. replace (0 <? v) with true by lia.
    destruct pre as [|x pre _] using rev_ind; [cbn in Hn; lia|]. rewrite length_app in Hn. cbn [length] in Hn.
    rewrite decimal_byte, store_last, bind_ret, zlen_app. change (zlen [x]) with 1. rewrite Z.add_simpl_r.
    rewrite Nat2Z.inj_succ, Z.pow_succ_r in Hv by lia.
    destruct (IH fuel pre ((48 + v mod 10) :: suf) (v / 10)) as (pre' & E & Hl); [lia..|split; [apply Z.div_pos; lia|apply Z.div_lt_upper_bound; lia]|].
    exists pre'. rewrite E, length_app. cbn [repr length]. split; [|lia]. do 2 f_equal. rewrite <- app_assoc. unfold digit.
    pose proof (Z.mod_pos_bound v 10 ltac:(lia)). replace (v mod 10 <? 10) with true by lia.
    destruct (Z.ltb_spec v 10); [by rewrite Z.div_small by lia|]. assert (1 <= v / 10) by (apply Z.div_le_lower_bound; lia).
    by replace (v / 10 =? 0) with false by lia.
Qed.

Lemma fmtInt_spec n (pre suf : gostring) v : (0 < n <= 20)%nat -> (n <= length pre)%nat -> 0 <= v < 10 ^ Z.of_nat n ->
  exists pre', fmtInt (pre ++ suf) (zlen pre) v = Ret (pre' ++ numeral 10 v ++ suf, zlen pre') /\ (length pre <= length pre' + n)%nat.
Proof.
  intros Hn Hpre Hv. unfold fmtInt. destruct (Z.eqb_spec v 0) as [->|Hv0].
  - destruct pre as [|x pre _] using rev_ind; [cbn in Hpre; lia|]. rewrite length_app in *. cbn [length] in *.
    rewrite store_last, bind_ret, zlen_app. change (zlen [x]) with 1. rewrite Z.add_simpl_r. exists pre. split; [done|]. lia.
  - destruct (fmtInt_loop_spec n 20 pre suf v) as (pre' & E & Hl); [lia..|]. exists pre'. rewrite E. split; [|done].
    replace (v =? 0) with false by lia. unfold numeral. replace 64%nat with (n + (64 - n))%nat by lia. by rewrite repr_more by lia.
Qed.

(** The fraction as a number below 10^k. *)
Lemma fmtFrac_component n (pre suf : gostring) v : (n < length pre)%nat -> 0 <= v ->
  exists pre' k f, fmtFrac (pre ++ suf) (zlen pre) v n = Ret (pre' ++ frac_text k f ++ suf, zlen pre', v / 10 ^ Z.of_nat n) /\
    (k <= n)%nat /\ 0 <= f < 10 ^ Z.of_nat k /\ f * 10 ^ Z.of_nat (n - k) = v mod 10 ^ Z.of_nat n /\ (length pre <= length pre' + S n)%nat.
Proof.
  intros Hn Hv. destruct (fmtFrac_spec n pre suf v) as (pre' & k & E & Hk & Hm & Hl); [done..|].
  set (A := 10 ^ Z.of_nat (n - k)) in *. set (B := 10 ^ Z.of_nat k). assert (0 < A) by (unfold A; lia). assert (0 < B) by (unfold B; lia).
  exists pre', k, ((v / A) mod B). split_and!; [|done|apply Z.mod_pos_bound; lia..| |done].
  - rewrite E. do 3 f_equal. unfold frac_text. destruct k as [|k]; [done|]. do 3 f_equal. symmetry. apply pad_mod, Z.div_pos; lia.
  - replace (10 ^ Z.of_nat n) with (B * A) by (unfold A, B; rewrite <- Z.pow_add_r by lia; f_equal; lia).
    rewrite (Z.div_mod v A) at 2 by lia. rewrite Hm, Z.add_0_r, (Z.mul_comm A). rewrite Z.mul_mod_distr_r by lia. lia.
Qed.

(** A number, its fraction and a unit of [10 ^ j] nanoseconds, or of whole minutes or hours. *)
Record component := MkComponent { c_int : Z; c_digits : nat; c_frac : Z; c_unit : gostring; c_nanos : Z; c_places : nat }.
Definition component_text (c : component) : gostring := numeral 10 (c_int c) ++ frac_text (c_digits c) (c_frac c) ++ c_unit c.
Definition component_value (c : component) : Z := c_int c * c_nanos c + c_frac c * 10 ^ Z.of_nat (c_places c - c_digits c).
Definition units : list (gostring * Z * nat) :=
  [(str "ns", 1, O); (micro ++ str "s", 1000, 3%nat); (str "ms", 1000000, 6%nat); (str "s", 1000000000, 9%nat);
   (str "m", 60000000000, O); (str "h", 3600000000000, O)].
Definition component_ok (c : component) : Prop :=
  (c_unit c, c_nanos c, c_places c) ∈ units /\ 0 <= c_int c < 2 ^ 64 /\ (c_digits c <= c_places c)%nat /\ 0 <= c_frac c < 10 ^ Z.of_nat (c_digits c).
Definition total_value (cs : list component) : Z := foldr Z.add 0 (component_value <$> cs).

Lemma store_end (pre suf : gostring) y : (0 < length pre)%nat ->
  exists pre', store (pre ++ suf) (zlen pre - 1) y = Ret (pre' ++ y :: suf) /\ zlen pre - 1 = zlen pre' /\ length pre = S (length pre').
Proof.
  intros Hl. destruct pre as [|x pre _] using rev_ind; [cbn in Hl; lia|]. exists pre. rewrite store_last, zlen_app, length_app.
  change (zlen [x]) with 1. cbn [length]. split_and!; [done|lia..].
Qed.

(** Below a second there is one component, in the largest unit that makes its integer part positive. *)
Lemma fmt_unit (pre suf : gostring) u n unit (nanos : Z) : (n + 5 <= length pre)%nat -> 0 <= u < 1000 * nanos -> nanos = 10 ^ Z.of_nat n ->
  (unit, nanos, n) ∈ units ->
  exists pre' c, ('(buf, w, v) ← fmtFrac (pre ++ unit ++ suf) (zlen pre) u n; fmtInt buf w v) = Ret (pre' ++ component_text c ++ suf, zlen pre') /\
    component_ok c /\ component_value c = u /\ (length pre <= length pre' + n + 4)%nat.
Proof.
  intros Hl Hu Hn Hin. destruct (fmtFrac_component n pre (unit ++ suf) u) as (pre1 & k & f & E1 & Hk & Hf & Hfv & Hl1); [lia..|].
  rewrite E1, bind_ret, <- Hn. assert (0 < nanos) by (subst; lia). assert (0 <= u / nanos < 1000) by (split; [apply Z.div_pos; lia|apply Z.div_lt_upper_bound; lia]).
  destruct (fmtInt_spec 3 pre1 (frac_text k f ++ unit ++ suf) (u / nanos)) as (pre2 & E2 & Hl2); [lia..|].
  exists pre2, (MkComponent (u / nanos) k f unit nanos n). rewrite E2. unfold component_text, component_ok, component_value. cbn.
  split_and!; [by rewrite <- !app_assoc|done|lia..| |lia]. rewrite Hfv, <- Hn. pose proof (Z.div_mod u nanos). lia.
Qed.

Lemma format_small_spec (pre : gostring) u : (30 <= length pre)%nat -> 0 <= u < 1000000000 ->
  exists pre' c, format_small pre (zlen pre) u = Ret (pre' ++ component_text c, zlen pre') /\
    component_ok c /\ component_value c = u /\ (10 <= length pre')%nat.
Proof.
  intros Hl Hu. unfold format_small. destruct (store_end pre [] 115) as (p1 & E1 & W1 & L1); [lia|]. rewrite app_nil_r in E1. rewrite E1, bind_ret, W1.
  destruct (Z.eqb_spec u 0) as [->|Hu0].
  - destruct (store_end p1 [115] 48) as (p2 & E2 & W2 & L2); [lia|]. rewrite E2, bind_ret, W2.
    exists p2, (MkComponent 0 0 0 (str "s") 1000000000 9). split_and!; [done| | |lia].
    + unfold component_ok. cbn. split_and!; try lia. by right; right; right; left.
    + by cbn.
  - change (uint_wrap 64 Microsecond) with 1000. change (uint_wrap 64 Millisecond) with 1000000. destruct (Z.ltb_spec u 1000); [|destruct (Z.ltb_spec u 1000000)].
    + destruct (store_end p1 [115] 110) as (p2 & E2 & W2 & L2); [lia|]. rewrite E2, !bind_ret, W2.
      destruct (fmt_unit p2 [] u 0 (str "ns") 1) as (p3 & c & E3 & ? & ? & ?); [lia..|done|by left|]. rewrite !app_nil_r in E3.
      exists p3, c. split_and!; [done..|lia].
    + destruct p1 as [|y p1 _] using rev_ind; [cbn in L1; lia|]. destruct p1 as [|x p1 _] using rev_ind; [cbn in L1; lia|].
      rewrite !length_app in L1. cbn in L1. rewrite <- !app_assoc, !zlen_app. change (zlen [x]) with 1. change (zlen [y]) with 1.
      replace (zlen p1 + (1 + 1) - 1 - 1) with (zlen p1) by lia. rewrite slice_from_app_r, !bind_ret. replace (Z.to_nat (zlen p1)) with (length p1) by (unfold zlen; lia). rewrite take_app_length.
      destruct (fmt_unit p1 [] u 3 (micro ++ str "s") 1000) as (p3 & c & E3 & ? & ? & ?); [lia..|done|by right; left|]. rewrite !app_nil_r in E3.
      exists p3, c. split_and!; [done..|lia].
    + destruct (store_end p1 [115] 109) as (p2 & E2 & W2 & L2); [lia|]. rewrite E2, !bind_ret, W2.
      destruct (fmt_unit p2 [] u 6 (str "ms") 1000000) as (p3 & c & E3 & ? & ? & ?); [lia..|done|by right; right; left|]. rewrite !app_nil_r in E3.
      exists p3, c. split_and!; [done..|lia].
Qed.

(** A whole number of minutes or hours. *)
Lemma whole_component v unit nanos : (unit, nanos, O) ∈ units -> 0 <= v < 2 ^ 64 ->
  component_ok (MkComponent v 0 0 unit nanos 0) /\ component_value (MkComponent v 0 0 unit nanos 0) = v * nanos.
Proof. intros Hin Hv. unfold component_ok, component_value. cbn. split_and!; [done|lia..]. Qed.

Lemma fmt_whole n (pre suf unit : gostring) c v : unit = [c] -> (0 < n <= 20)%nat -> (n < length pre)%nat -> 0 <= v < 10 ^ Z.of_nat n ->
  exists pre', (buf ← store (pre ++ suf) (zlen pre - 1) c; fmtInt buf (zlen pre - 1) v) = Ret (pre' ++ (numeral 10 v ++ unit) ++ suf, zlen pre') /\
    (length pre <= length pre' + S n)%nat.
Proof.
  intros -> Hn Hl Hv. destruct (store_end pre suf c) as (p1 & E1 & W1 & L1); [lia|]. rewrite E1, bind_ret, W1.
  destruct (fmtInt_spec n p1 (c :: suf) v) as (p2 & E2 & L2); [lia..|]. exists p2. rewrite E2, <- app_assoc. split; [done|lia].
Qed.

Lemma format_large_spec (pre : gostring) u : (30 <= length pre)%nat -> 1000000000 <= u <= 2 ^ 63 ->
  exists pre' cs, format_large pre (zlen pre) u = Ret (pre' ++ concat (component_text <$> cs), zlen pre') /\
    Forall component_ok cs /\ total_value cs = u /\ cs <> [] /\ (1 <= length pre')%nat.
Proof.
  intros Hl Hu. unfold format_large. destruct (store_end pre [] 115) as (p1 & E1 & W1 & L1); [lia|]. rewrite app_nil_r in E1. rewrite E1, bind_ret, W1.
  destruct (fmtFrac_component 9 p1 [115] u) as (p2 & k & f & E2 & Hk & Hf & Hfv & L2); [lia..|]. rewrite E2, bind_ret.
  change (10 ^ Z.of_nat 9) with 1000000000 in *. set (s := u / 1000000000). pose proof (Z.div_mod u 1000000000 ltac:(lia)).
  pose proof (Z.mod_pos_bound u 1000000000 ltac:(lia)). fold s in H.
  pose proof (Z.div_mod s 60 ltac:(lia)). pose proof (Z.mod_pos_bound s 60 ltac:(lia)).
  destruct (fmtInt_spec 2 p2 (frac_text k f ++ [115]) (s mod 60)) as (p3 & E3 & L3); [lia..|]. rewrite E3, bind_ret.
  set (c1 := MkComponent (s mod 60) k f (str "s") 1000000000 9).
  assert (component_ok c1) as Hc1. { unfold component_ok. cbn [c_unit c_nanos c_places c_int c_digits c_frac c1]. split_and!; [by right; right; right; left|lia..]. }
  assert (component_value c1 = s mod 60 * 1000000000 + u mod 1000000000) as V1 by (unfold component_value; cbn [c_nanos c_places c_int c_digits c_frac c1]; lia).
  change (numeral 10 (s mod 60) ++ frac_text k f ++ [115]) with (component_text c1). set (m := s / 60) in *.
  destruct (Z.ltb_spec 0 m); cycle 1.
  { exists p3, [c1]. cbn [fmap list_fmap concat]. rewrite app_nil_r. split_and!; [done|by rewrite Forall_cons, Forall_nil| |done|lia]. unfold total_value. cbn. rewrite V1. assert (0 <= m) by (apply Z.div_pos; lia). lia. }
  pose proof (Z.div_mod m 60 ltac:(lia)). pose proof (Z.mod_pos_bound m 60 ltac:(lia)). set (h := m / 60) in *.
  destruct (fmt_whole 2 p3 (component_text c1) (str "m") 109 (m mod 60)) as (p4 & E4 & L4); [done|lia..|].
  destruct (store (p3 ++ component_text c1) (zlen p3 - 1) 109) as [b4| |]; [|discriminate..]. rewrite bind_ret in *. rewrite E4, bind_ret.
  destruct (whole_component (m mod 60) (str "m") 60000000000) as [Hc2 V2]; [by do 4 right; left|lia|]. set (c2 := MkComponent (m mod 60) _ _ _ _ _) in *.
  change (numeral 10 (m mod 60) ++ str "m") with (component_text c2).
  destruct (Z.ltb_spec 0 h); cycle 1.
  { exists p4, [c2; c1]. cbn [fmap list_fmap concat]. rewrite app_nil_r. split_and!; [done|by rewrite !Forall_cons, Forall_nil| |done|lia]. unfold total_value. cbn. rewrite V1, V2. assert (0 <= h) by (apply Z.div_pos; lia). lia. }
  destruct (fmt_whole 7 p4 (component_text c2 ++ component_text c1) (str "h") 104 h) as (p5 & E5 & L5); [done|lia..|].
  destruct (store (p4 ++ _) (zlen p4 - 1) 104) as [b5| |]; [|discriminate..]. rewrite bind_ret in *. rewrite E5.
  destruct (whole_component h (str "h") 3600000000000) as [Hc3 V3]; [by do 5 right; left|lia|]. set (c3 := MkComponent h _ _ _ _ _) in *.
  change (numeral 10 h ++ str "h") with (component_text c3).
  exists p5, [c3; c2; c1]. cbn [fmap list_fmap concat]. rewrite app_nil_r. split_and!; [done|by rewrite !Forall_cons, Forall_nil| |done|lia].
  unfold total_value. cbn. rewrite V1, V2, V3. lia.
Qed.

Lemma Duration_String_spec d : is_int d ->
  exists cs, Duration_String d = Ret (sign (d <? 0) ++ concat (component_text <$> cs)) /\
    Forall component_ok cs /\ cs <> [] /\ total_value cs = Z.abs d.
Proof.
  intros Hd. unfold Duration_String, format. destruct (abs_wrap d Hd) as [-> Habs]. assert (Z.abs d <= 2 ^ 63) by int_range.
  change (uint_wrap 64 Second) with 1000000000. set (pre := replicate 32 0).
  assert (exists pre' cs, (if Z.abs d <? 1000000000 then format_small pre (zlen pre) (Z.abs d) else format_large pre (zlen pre) (Z.abs d)) =
      Ret (pre' ++ concat (component_text <$> cs), zlen pre') /\ Forall component_ok cs /\ total_value cs = Z.abs d /\ cs <> [] /\ (1 <= length pre')%nat)
    as (pre' & cs & E & Hok & Hv & Hne & Hl).
  { destruct (Z.ltb_spec (Z.abs d) 1000000000).
    - destruct (format_small_spec pre (Z.abs d)) as (p & c & E & ? & ? & ?); [cbn; lia..|]. exists p, [c]. cbn [fmap list_fmap concat]. rewrite app_nil_r.
      split_and!; [done|by rewrite Forall_cons, Forall_nil| |done|lia]. unfold total_value. cbn. lia.
    - destruct (format_large_spec pre (Z.abs d)) as (p & cs & ?); [cbn; lia..|]. eauto. }
  rewrite E, bind_ret. exists cs. split_and!; [|done..]. destruct (d <? 0); cbn [sign app].
  - destruct (store_end pre' (concat (component_text <$> cs)) 45) as (p & -> & -> & _); [lia|]. rewrite !bind_ret. by rewrite slice_from_app_r.
  - rewrite bind_ret. by rewrite slice_from_app_r.
Qed.

(** ** Reading it back *)
Definition stops (r : gostring) : Prop := match r with [] => True | c :: _ => is_digit c = false end.

Lemma digit_of_decimal c d : digit_of c = Some d -> d < 10 -> is_digit c = true /\ c = 48 + d.
Proof.
  unfold digit_of, is_digit. destruct ((48 <=? c) && (c <=? 57)) eqn:Hc; [intros [= <-] _; split; [done|lia]|].
  destruct ((97 <=? lower c) && (lower c <=? 122)) eqn:Hl; [|done]. apply andb_true_iff in Hl. rewrite uint_wrap_id by lia. intros [= <-]. lia.
Qed.

Lemma value_cons c s x v : 0 <= x -> value 10 (c :: s) x = Some v ->
  exists d, is_digit c = true /\ c = 48 + d /\ 0 <= d < 10 /\ value 10 s (x * 10 + d) = Some v /\ x * 10 + d <= v.
Proof.
  cbn [value]. destruct (digit_of c) as [d|] eqn:Hd; [|done]. destruct (Z.ltb_spec d 10); [|done]. intros Hx Hv.
  destruct (digit_of_decimal c d) as [Hc ->]; [done..|]. apply digit_of_nonneg in Hd. exists d. split_and!; [done..|]. eapply value_ge; [| |done]; lia.
Qed.

Lemma leadingInt_value (s r : gostring) x v : 0 <= x -> value 10 s x = Some v -> v <= 2 ^ 63 -> stops r ->
  leadingInt_loop (s ++ r) x = Some (v, r).
Proof.
  revert x. induction s as [|c s IH]; intros x Hx Hv Hle Hr.
  - injection Hv as ->. destruct r as [|c r]; [done|]. cbn in Hr |- *. by rewrite Hr.
  - destruct (value_cons c s x v) as (d & Hc & -> & Hd & Hs & Hge); [done..|]. cbn [app leadingInt_loop]. rewrite Hc. cbn [negb].
    replace (2 ^ 63 / 10 <? x) with false by (symmetry; apply Z.ltb_ge; change (2 ^ 63 / 10) with 922337203685477580; lia).
    rewrite uint_wrap_id by lia. replace (x * 10 + (48 + d) - 48) with (x * 10 + d) by lia. replace (2 ^ 63 <? x * 10 + d) with false by lia. apply IH; done || lia.
Qed.

Lemma leadingFraction_value (s r : gostring) x v scale : 0 <= x -> value 10 s x = Some v -> v < 2 ^ 63 -> stops r ->
  leadingFraction_loop (s ++ r) x scale false = (v, Nat.iter (length s) (fun y => float_mul y (float_of 10)) scale, r).
Proof.
  revert x scale. induction s as [|c s IH]; intros x scale Hx Hv Hle Hr.
  - injection Hv as ->. destruct r as [|c r]; [done|]. cbn in Hr |- *. by rewrite Hr.
  - destruct (value_cons c s x v) as (d & Hc & -> & Hd & Hs & Hge); [done..|]. cbn [app leadingFraction_loop length]. rewrite Hc. cbn [negb].
    replace ((2 ^ 63 - 1) / 10 <? x) with false by (symmetry; apply Z.ltb_ge; change ((2 ^ 63 - 1) / 10) with 922337203685477580; lia).
    rewrite uint_wrap_id by lia. replace (x * 10 + (48 + d) - 48) with (x * 10 + d) by lia. replace (2 ^ 63 <? x * 10 + d) with false by lia.
    rewrite IH by (done || lia). by rewrite Nat.iter_succ_r.
Qed.

Lemma value_pad k f x : 0 <= f < 10 ^ Z.of_nat k -> value 10 (pad k f) x = Some (x * 10 ^ Z.of_nat k + f).
Proof.
  revert f. induction k as [|k IH]; intros f Hf; [change (10 ^ Z.of_nat 0) with 1 in *; cbn [pad value]; f_equal; lia|].
  rewrite Nat2Z.inj_succ, Z.pow_succ_r in * by lia. cbn [pad]. pose proof (Z.mod_pos_bound f 10 ltac:(lia)). pose proof (Z.div_mod f 10 ltac:(lia)).
  rewrite value_app, IH by (split; [apply Z.div_pos; lia|apply Z.div_lt_upper_bound; lia]). cbn [value].
  pose proof (digit_of_digit (f mod 10) ltac:(lia)) as Hd. unfold digit in Hd. destruct (Z.ltb_spec (f mod 10) 10); [|lia]. rewrite Hd.
  destruct (Z.ltb_spec (f mod 10) 10); [|lia]. f_equal. lia.
Qed.

Lemma numeral_value v : 0 <= v < 2 ^ 64 -> value 10 (numeral 10 v) 0 = Some v.
Proof. intros Hv. apply value_repr; [lia|]. split; [lia|]. eapply Z.lt_trans; [apply Hv|]. vm_compute. done. Qed.

Lemma numeral_head v : 0 <= v < 2 ^ 64 -> exists c s, numeral 10 v = c :: s /\ is_digit c = true.
Proof.
  intros Hv. pose proof (numeral_value v Hv) as H. destruct (numeral 10 v) as [|c s] eqn:E; [by apply numeral_not_nil in E|].
  exists c, s. split; [done|]. by destruct (value_cons c s 0 v) as (d & ? & _).
Qed.

(** The fraction of a unit of [10 ^ j] nanoseconds is exact. *)
Definition scale_of (k : nat) : spec_float := Nat.iter k (fun y => float_mul y (float_of 10)) (float_of 1).
Lemma scaled_unit (j k : nat) : (j <= 9)%nat -> (k <= j)%nat -> float_is (float_div (float_of (10 ^ Z.of_nat j)) (scale_of k)) (10 ^ Z.of_nat (j - k)).
Proof. intros Hj Hk. do 10 (destruct j as [|j]; [do 10 (destruct k as [|k]; [first [lia | vm_compute; split; [split; discriminate|reflexivity]]|]); lia|]). lia. Qed.

Lemma frac_exact (j k : nat) f : (j <= 9)%nat -> (k <= j)%nat -> 0 < f < 10 ^ Z.of_nat k ->
  float_trunc (float_mul (float_of f) (float_div (float_of (10 ^ Z.of_nat j)) (scale_of k))) = f * 10 ^ Z.of_nat (j - k).
Proof.
  intros Hj Hk Hf. assert (10 ^ Z.of_nat k <= 10 ^ 9) by (apply Z.pow_le_mono_r; lia).
  assert (f * 10 ^ Z.of_nat (j - k) < 10 ^ Z.of_nat j).
  { replace (Z.of_nat j) with (Z.of_nat k + Z.of_nat (j - k)) by lia. rewrite Z.pow_add_r by lia. apply Z.mul_lt_mono_pos_r; lia. }
  assert (10 ^ Z.of_nat j <= 10 ^ 9) by (apply Z.pow_le_mono_r; lia). assert (0 < 10 ^ Z.of_nat (j - k)) by lia.
  apply float_trunc_exact; [|nia]. apply float_mul_exact; [apply float_of_exact; lia|by apply scaled_unit|nia].
Qed.

Lemma units_spec u nanos j : (u, nanos, j) ∈ units ->
  al_lookup u unitMap = Some nanos /\ unit_length u = zlen u /\ u <> [] /\ (forall c s, u = c :: s -> c <> 46 /\ is_digit c = false) /\
  0 < nanos < 2 ^ 63 /\ (j <= 9)%nat /\ (j = O \/ nanos = 10 ^ Z.of_nat j).
Proof.
  unfold units. rewrite !elem_of_cons, elem_of_nil.
  intros [[= -> -> ->]|[[= -> -> ->]|[[= -> -> ->]|[[= -> -> ->]|[[= -> -> ->]|[[= -> -> ->]|[]]]]]]];
    (split_and!; [vm_compute; reflexivity|vm_compute; reflexivity|done|intros c s [= <- _]; done|lia|lia|lia|]); auto.
Qed.

Lemma unit_length_app u r : unit_length u = zlen u -> (r = [] \/ exists c s, r = c :: s /\ is_digit c = true) -> unit_length (u ++ r) = zlen u.
Proof.
  intros Hu Hr. revert Hu. induction u as [|c u IH]; intros Hu.
  - destruct Hr as [->|(c & s & -> & Hc)]; [done|]. cbn. rewrite Hc. by rewrite orb_true_r.
  - cbn [unit_length app] in *. rewrite zlen_cons in *. pose proof (zlen_nonneg u). destruct ((c =? 46) || is_digit c); [lia|]. rewrite IH; lia.
Qed.

Definition digit_or_end (r : gostring) : Prop := r = [] \/ exists c s, r = c :: s /\ is_digit c = true.

Lemma parse_fraction_spec k f u nanos j rest : (u, nanos, j) ∈ units -> (k <= 9)%nat -> 0 <= f < 10 ^ Z.of_nat k ->
  exists post, parse_fraction (frac_text k f ++ u ++ rest) = Ret (f, scale_of k, u ++ rest, post).
Proof.
  intros Hin Hk Hf. destruct (units_spec u nanos j Hin) as (_ & _ & Hne & Hhead & _). destruct u as [|c u]; [done|]. destruct (Hhead c u eq_refl) as [H46 Hc].
  unfold parse_fraction. destruct k as [|k].
  - change (10 ^ Z.of_nat 0) with 1 in Hf. exists false. change (frac_text 0 f ++ (c :: u) ++ rest) with (c :: u ++ rest). rewrite bool_decide_true by done.
    change (index (c :: u ++ rest) 0) with (@Ret Z c). rewrite !bind_ret. replace (c =? 46) with false by lia. by replace f with 0 by lia.
  - assert (10 ^ Z.of_nat (S k) <= 10 ^ 9) by (apply Z.pow_le_mono_r; lia).
    change (frac_text (S k) f ++ (c :: u) ++ rest) with ([46] ++ (pad (S k) f ++ c :: u ++ rest)). rewrite bool_decide_true by done.
    change (index ([46] ++ _) 0) with (@Ret Z 46). rewrite !bind_ret. change (46 =? 46) with true. change 1 with (zlen [46]). rewrite slice_from_app_r, bind_ret.
    unfold leadingFraction. rewrite (leadingFraction_value (pad (S k) f) (c :: u ++ rest) 0 f); [|lia|by rewrite value_pad|lia|done].
    rewrite pad_length. eauto.
Qed.

Lemma component_text_head c : component_ok c -> exists x s, component_text c = x :: s /\ is_digit x = true /\ s <> [].
Proof.
  intros (Hin & Hv & _). destruct (numeral_head (c_int c) Hv) as (x & s & E & Hx). exists x, (s ++ frac_text (c_digits c) (c_frac c) ++ c_unit c).
  unfold component_text. rewrite E. split_and!; [done..|]. destruct (units_spec _ _ _ Hin) as (_ & _ & Hne & _). by intros [_ [_ ?]%app_nil]%app_nil.
Qed.

Lemma component_bounds c : component_ok c -> 0 <= c_int c /\ 0 < c_nanos c /\ 0 <= c_frac c * 10 ^ Z.of_nat (c_places c - c_digits c).
Proof. intros (Hin & Hv & _ & Hf). destruct (units_spec _ _ _ Hin) as (_ & _ & _ & _ & Hn & _). split_and!; [lia..|]. apply Z.mul_nonneg_nonneg; lia. Qed.

Lemma parse_component fuel orig c rest d : component_ok c -> digit_or_end rest -> 0 <= d -> d + component_value c <= 2 ^ 63 ->
  parse_components (S fuel) orig (component_text c ++ rest) d = parse_components fuel orig rest (d + component_value c).
Proof.
  intros Hok Hrest Hd. destruct (component_bounds c Hok) as (_ & _ & Hfr). destruct Hok as (Hin & Hv & Hk & Hf). destruct c as [v k f u nanos j].
  cbn [c_int c_digits c_frac c_unit c_nanos c_places] in *. unfold component_value, component_text. cbn [c_int c_digits c_frac c_unit c_nanos c_places].
  intros Hsum. destruct (units_spec _ _ _ Hin) as (Hlook & Hul & Hne & Hhead & Hn & Hj & Hp). rewrite <- !app_assoc. set (r := frac_text k f ++ u ++ rest).
  assert (v * nanos <= 2 ^ 63) by lia. assert (v <= 2 ^ 63) by nia.
  destruct (numeral_head v Hv) as (x & s & E & Hx).
  assert (stops r) as Hstop. { unfold r. destruct k; [|done]. destruct u as [|c u]; [done|]. by destruct (Hhead c u). }
  assert (leadingInt (numeral 10 v ++ r) = Some (v, r)) as Hlead by (apply leadingInt_value; [lia|by apply numeral_value|done|done]).
  assert (zlen (numeral 10 v ++ r) <> zlen r) by (rewrite E, zlen_app, zlen_cons; pose proof (zlen_nonneg s); lia).
  destruct (numeral 10 v ++ r) as [|x' s'] eqn:E'; [by rewrite E in E'|]. assert (x' = x) as -> by (rewrite E in E'; by injection E').
  cbn [parse_components]. change (index (x :: s') 0) with (@Ret Z x). rewrite bind_ret, Hx, orb_true_r. cbn [negb]. rewrite Hlead.
  destruct (parse_fraction_spec k f u nanos j rest) as (post & Hpf); [done|lia|done|]. fold r in Hpf. rewrite Hpf, bind_ret.
  replace (zlen (x :: s') =? zlen r) with false by lia. cbn [negb andb]. rewrite (unit_length_app u rest Hul Hrest).
  pose proof (zlen_nonneg u). assert (zlen u <> 0) by (intros ?%zlen_0; done). replace (zlen u =? 0) with false by lia.
  rewrite slice_to_in_range by (rewrite zlen_app; pose proof (zlen_nonneg rest); lia). replace (Z.to_nat (zlen u)) with (length u) by (unfold zlen; lia).
  rewrite take_app_length, slice_from_app_r, !bind_ret, Hlook.
  replace (2 ^ 63 / nanos <? v) with false by (symmetry; apply Z.ltb_ge, Z.div_le_lower_bound; lia). rewrite (uint_wrap_id 64 (v * nanos)) by lia.
  destruct (Z.ltb_spec 0 f) as [Hf0|Hf0]; cbn [andb].
  - destruct k as [|k]; [change (10 ^ Z.of_nat 0) with 1 in Hf; lia|]. destruct Hp as [->| ->]; [lia|]. rewrite frac_exact by (done || lia).
    set (w := v * 10 ^ Z.of_nat j + f * 10 ^ Z.of_nat (j - S k)) in *.
    rewrite (uint_wrap_id 64 w) by lia. replace (2 ^ 63 <? w) with false by lia. rewrite uint_wrap_id by lia.
    by replace (2 ^ 63 <? d + w) with false by lia.
  - replace f with 0 by lia. rewrite Z.mul_0_l, Z.add_0_r. rewrite uint_wrap_id by lia. by replace (2 ^ 63 <? d + v * nanos) with false by lia.
Qed.

Lemma total_value_cons c cs : total_value (c :: cs) = component_value c + total_value cs.
Proof. done. Qed.

Lemma component_value_nonneg c : component_ok c -> 0 <= component_value c.
Proof. intros H%component_bounds. unfold component_value. nia. Qed.

Lemma total_value_nonneg cs : Forall component_ok cs -> 0 <= total_value cs.
Proof. induction 1 as [|c cs Hc _ IH]; [done|]. rewrite total_value_cons. apply component_value_nonneg in Hc. lia. Qed.

Lemma parse_all fuel orig cs d : Forall component_ok cs -> (length cs <= fuel)%nat -> 0 <= d -> d + total_value cs <= 2 ^ 63 ->
  parse_components fuel orig (concat (component_text <$> cs)) d = Ret (inl (d + total_value cs)).
Proof.
  revert fuel d. induction cs as [|c cs IH]; intros fuel d Hok Hl Hd Hle; [cbn; rewrite Z.add_0_r; by destruct fuel|].
  apply Forall_cons in Hok as [Hc Hcs]. cbn [length] in Hl. destruct fuel as [|fuel]; [lia|]. rewrite total_value_cons in *.
  pose proof (total_value_nonneg cs Hcs). pose proof (component_value_nonneg c Hc). cbn [fmap list_fmap concat].
  rewrite parse_component; [rewrite IH by (done || lia); do 2 f_equal; lia|done| |done|lia].
  destruct cs as [|c' cs]; [by left|]. right. apply Forall_cons in Hcs as [Hc' _]. destruct (component_text_head c' Hc') as (x & s & E & Hx & _).
  cbn [fmap list_fmap concat]. rewrite E. eauto.
Qed.

Lemma texts_length cs : Forall component_ok cs -> (length cs <= length (concat (component_text <$> cs)))%nat.
Proof.
  induction 1 as [|c cs Hc _ IH]; [done|]. cbn [fmap list_fmap concat length]. destruct (component_text_head c Hc) as (x & s & -> & _). rewrite length_app. cbn. lia.
Qed.

(** What [ParseDuration] does with an optional minus sign and components. *)
Lemma ParseDuration_components (neg : bool) cs : Forall component_ok cs -> cs <> [] -> total_value cs <= (if neg then 2 ^ 63 else 2 ^ 63 - 1) ->
  ParseDuration (sign neg ++ concat (component_text <$> cs)) = Ret (inl (if neg then - total_value cs else total_value cs)).
Proof.
  intros Hok Hne Hle. set (body := concat _). pose proof (total_value_nonneg cs Hok).
  assert (exists x s, body = x :: s /\ is_digit x = true /\ s <> []) as (x & s & E & Hx & Hs).
  { destruct cs as [|c cs]; [done|]. apply Forall_cons in Hok as [Hc _]. destruct (component_text_head c Hc) as (x & s & E & Hx & Hs).
    exists x, (s ++ concat (component_text <$> cs)). unfold body. cbn [fmap list_fmap concat]. rewrite E. split_and!; [done..|]. by intros [? _]%app_nil. }
  assert (forall orig, parse_components (length body) orig body 0 = Ret (inl (total_value cs))) as Hall
    by (intros orig; apply parse_all; [done|by apply texts_length|done|destruct neg; lia]).
  assert (body <> str "0") by (rewrite E; intros [= _ ->]; done). assert (body <> []) by (by rewrite E).
  unfold ParseDuration. destruct neg; cbn [sign app].
  - rewrite bool_decide_true by done. change (index (45 :: body) 0) with (@Ret Z 45). rewrite bind_ret. cbn [orb Z.eqb Pos.eqb].
    change (45 :: body) with ([45] ++ body). change 1 with (zlen [45]). rewrite slice_from_app_r, !bind_ret.
    rewrite !bool_decide_false by done. rewrite Hall, bind_ret. do 2 f_equal. unfold int64, sint_wrap. destruct (Z.eq_dec (total_value cs) (2 ^ 63)) as [->|]; [done|].
    rewrite !Z.mod_small by (rewrite ?Z.mod_small; lia). lia.
  - rewrite bool_decide_true by done. rewrite E at 1. change (index (x :: s) 0) with (@Ret Z x). rewrite bind_ret. unfold is_digit in Hx. apply andb_true_iff in Hx.
    replace (x =? 45) with false by lia. replace (x =? 43) with false by lia. cbn [orb]. rewrite bind_ret, !bool_decide_false by done. rewrite Hall, bind_ret.
    replace (2 ^ 63 - 1 <? total_value cs) with false by lia. by rewrite int64_id by int_range.
Qed.

(** ** Quoting byte by byte *)
Definition hex_byte (b : Z) : gostring := [92; 120; digit (b / 16); digit (b mod 16)].
Definition quote_byte (b : Z) : gostring :=
  if (b <? 32) || (128 <=? b) then hex_byte b else if (b =? 34) || (b =? 92) then [92; b] else [b].

Lemma index_lowerhex d : 0 <= d < 16 -> index lowerhex d = Ret (digit d).
Proof. intros Hd. assert (d ∈ List.map Z.of_nat (List.seq 0 16)) as Hin. { apply list_elem_of_In, in_map_iff. exists (Z.to_nat d). split; [lia|]. apply in_seq. lia. }
  cbn in Hin. repeat (apply elem_of_cons in Hin as [->|Hin]; [done|]). by apply elem_of_nil in Hin. Qed.

Lemma quote_bytes_spec (pre e rest : gostring) buf : is_gostring e ->
  quote_bytes (pre ++ e ++ rest) (zlen pre) (length e) buf = Ret (buf ++ concat (hex_byte <$> e)).
Proof.
  revert pre buf. induction e as [|b e IH]; intros pre buf He; [cbn; by rewrite app_nil_r|].
  apply Forall_cons in He as [Hb He]. unfold is_byte in Hb. cbn [quote_bytes length]. rewrite (index_nat _ (length pre) b) by (rewrite lookup_app_r, Nat.sub_diag by lia; done).
  pose proof (Z.div_mod b 16 ltac:(lia)). pose proof (Z.mod_pos_bound b 16 ltac:(lia)).
  rewrite bind_ret, Z.shiftr_div_pow2 by lia. change 15 with (Z.ones 4). rewrite Z.land_ones by lia. change (2 ^ 4) with 16.
  rewrite !index_lowerhex by lia. rewrite !bind_ret. replace (zlen pre + 1) with (zlen (pre ++ [b])) by (rewrite zlen_app; done).
  replace (pre ++ (b :: e) ++ rest) with ((pre ++ [b]) ++ e ++ rest) by (by rewrite <- !app_assoc).
  rewrite IH by done. cbn [fmap list_fmap concat]. by rewrite <- app_assoc.
Qed.

(** The bytes of an encoded rune that are not ASCII are all escaped. *)
Lemma wide_char e : utf8_char e = true -> zlen e <> 1 -> RuneSelf <= utf8_value e /\ Forall (fun b => 128 <= b) e /\
  (utf8_value e = RuneError -> e = [0xEF; 0xBF; 0xBD]).
Proof.
  unfold RuneSelf, RuneError. intros He Hl.
  destruct e as [|b0 [|b1 [|b2 [|b3 [|b4 e]]]]]; cbn [utf8_char utf8_value] in *; try done; unfold tail_byte in He; zcase_in He;
    (split_and!; [lia|repeat (apply Forall_cons; split; [lia|]); by apply Forall_nil|intros Hv; try lia; repeat f_equal; lia]).
Qed.

(** What [quote_loop] does on the rest once the text before it is quoted. *)
Definition quotes_rest (fuel : nat) : Prop := forall pre rest buf : gostring, is_gostring rest -> (length rest <= fuel)%nat ->
  quote_loop fuel (pre ++ rest) (zlen pre) buf = Ret (buf ++ concat (quote_byte <$> rest)).

Lemma quote_next fuel (pre e rest buf : gostring) : quotes_rest fuel -> is_gostring (e ++ rest) -> (length (e ++ rest) <= S fuel)%nat -> e <> [] ->
  quote_loop fuel (pre ++ e ++ rest) (zlen pre + zlen e) (buf ++ concat (quote_byte <$> e)) = Ret (buf ++ concat (quote_byte <$> e ++ rest)).
Proof.
  intros IH Hb Hl Hne. rewrite app_assoc, <- zlen_app, IH, fmap_app, concat_app, app_assoc; [done| |].
  - by apply Forall_app in Hb as [_ ?].
  - rewrite length_app in Hl. destruct e; [done|]. cbn in Hl. lia.
Qed.

Lemma quote_escape fuel (pre e rest buf : gostring) : quotes_rest fuel -> is_gostring (e ++ rest) -> (length (e ++ rest) <= S fuel)%nat -> e <> [] ->
  Forall (fun b => b < 32 \/ 128 <= b) e ->
  (buf ← quote_bytes (pre ++ e ++ rest) (zlen pre) (length e) buf; quote_loop fuel (pre ++ e ++ rest) (zlen pre + zlen e) buf) =
  Ret (buf ++ concat (quote_byte <$> e ++ rest)).
Proof.
  intros IH Hb Hl Hne Hwide. rewrite quote_bytes_spec, bind_ret by (by apply Forall_app in Hb as [? _]). rewrite <- (quote_next fuel pre e rest) by done. do 3 f_equal.
  clear -Hwide. induction Hwide as [|b e Hb _ IH]; [done|]. cbn [fmap list_fmap]. rewrite IH. f_equal.
  unfold quote_byte. destruct (Z.ltb_spec b 32), (Z.leb_spec 128 b); try done. lia.
Qed.

(** A rune that is encoded in the text, and one byte that is not part of one. *)
Lemma quote_rune fuel (pre e rest buf : gostring) : quotes_rest fuel -> is_gostring (e ++ rest) -> (length (e ++ rest) <= S fuel)%nat ->
  utf8_char e = true -> utf8_prefix (e ++ rest) = Some e -> quote_loop (S fuel) (pre ++ e ++ rest) (zlen pre) buf = Ret (buf ++ concat (quote_byte <$> e ++ rest)).
Proof.
  intros IH Hb Hl He Hp. pose proof (utf8_char_length e He). pose proof (zlen_nonneg rest). assert (e <> []) by (intros ->; cbn in *; lia).
  cbn [quote_loop]. replace (zlen pre <? zlen (pre ++ e ++ rest)) with true by (rewrite !zlen_app; lia).
  rewrite slice_from_app_r, bind_ret, utf8_decode_spec, bind_ret, Hp by done. destruct (e ++ rest) as [|x y] eqn:Er; [by destruct e|]. rewrite <- Er in *. clear x y Er.
  destruct (Z.eq_dec (zlen e) 1) as [Hone|Hone].
  - destruct e as [|b [|? e]]; [done| |rewrite !zlen_cons in Hone; pose proof (zlen_nonneg e); lia].
    rewrite utf8_char_1 in He. apply andb_true_iff in He. cbn [utf8_value]. unfold RuneSelf. replace (128 <=? b) with false by lia. cbn [orb].
    destruct (Z.ltb_spec b 32).
    + replace (b =? RuneError) with false by (unfold RuneError; lia). rewrite bind_ret. unfold RuneLen, rune1Max. replace (b <? 0) with false by lia. replace (b <=? 2 ^ 7 - 1) with true by lia.
      change (Z.to_nat 1) with (length [b]). apply quote_escape; [done..|]. constructor; [lia|done].
    + rewrite bind_ret, uint_wrap_id by lia. rewrite <- (quote_next fuel pre [b] rest) by done. cbn [fmap list_fmap concat]. rewrite app_nil_r. unfold quote_byte.
      replace (b <? 32) with false by lia. replace (128 <=? b) with false by lia. cbn [orb]. f_equal. destruct ((b =? 34) || (b =? 92)); [by rewrite <- app_assoc|done].
  - destruct (wide_char e He Hone) as (Hv & Hwide & Herr). replace (RuneSelf <=? utf8_value e) with true by lia. cbn [orb].
    rewrite <- (quote_escape fuel pre e rest); [|done..|eapply Forall_impl; [exact Hwide|cbn; lia]]. destruct (Z.eqb_spec (utf8_value e) RuneError) as [Heq|].
    + specialize (Herr Heq). subst e. rewrite !zlen_app. change (zlen [0xEF; 0xBF; 0xBD]) with 3 in *.
      replace (zlen pre + 2 <? zlen pre + (3 + zlen rest)) with true by lia.
      change (zlen pre + 3) with (zlen pre + zlen [0xEF; 0xBF; 0xBD]). rewrite slice_app_mid, !bind_ret. by rewrite bool_decide_true.
    + rewrite !bind_ret. rewrite utf8_RuneLen_value by done. by replace (Z.to_nat (zlen e)) with (length e) by (unfold zlen; lia).
Qed.

Lemma quote_invalid fuel (pre rest buf : gostring) b : quotes_rest fuel -> is_gostring ([b] ++ rest) -> (length ([b] ++ rest) <= S fuel)%nat ->
  utf8_prefix ([b] ++ rest) = None -> quote_loop (S fuel) (pre ++ [b] ++ rest) (zlen pre) buf = Ret (buf ++ concat (quote_byte <$> [b] ++ rest)).
Proof.
  intros IH Hb Hl Hp. pose proof (zlen_nonneg rest). pose proof (zlen_nonneg pre). assert (0 <= b < 256) as Hb' by (apply Forall_cons in Hb as [? _]; done).
  assert (128 <= b). { destruct (Z_le_gt_dec 128 b); [done|]. enough (utf8_prefix ([b] ++ rest) = Some [b]) by congruence. apply utf8_prefix_char. rewrite utf8_char_1. apply andb_true_iff. lia. }
  cbn [quote_loop]. replace (zlen pre <? zlen (pre ++ [b] ++ rest)) with true by (rewrite !zlen_app; change (zlen [b]) with 1; lia).
  rewrite slice_from_app_r, bind_ret, utf8_decode_spec, bind_ret, Hp by done. cbn [app]. change (RuneSelf <=? RuneError) with true. change (RuneError =? RuneError) with true. cbn [orb].
  rewrite <- (quote_escape fuel pre [b] rest); [|done..|constructor; [lia|done]]. change (zlen [b]) with 1. cbn [app].
  destruct (Z.ltb_spec (zlen pre + 2) (zlen (pre ++ b :: rest))) as [Hlt|]; [|by rewrite !bind_ret].
  rewrite slice_in_range by lia. rewrite !bind_ret.
  rewrite bool_decide_false; [done|]. replace (Z.to_nat (zlen pre)) with (length pre) by (unfold zlen; lia). rewrite drop_app_length. replace (Z.to_nat _) with 3%nat by lia.
  intros Ht. assert (utf8_prefix ([0xEF; 0xBF; 0xBD] ++ drop 3 (b :: rest)) = Some [0xEF; 0xBF; 0xBD]) as Hp' by (by apply utf8_prefix_char).
  rewrite <- Ht, take_drop in Hp'. cbn [app] in Hp. congruence.
Qed.

Lemma quote_loop_spec fuel : quotes_rest fuel.
Proof.
  induction fuel as [|fuel IH]; intros pre rest buf Hr Hf.
  - destruct rest; [|cbn in Hf; lia]. cbn. rewrite app_nil_r, Z.ltb_irrefl. by rewrite app_nil_r.
  - destruct rest as [|b rest]; [cbn; rewrite app_nil_r, Z.ltb_irrefl; by rewrite app_nil_r|].
    destruct (utf8_prefix (b :: rest)) as [e|] eqn:Hp; [|by apply (quote_invalid fuel pre rest buf b)].
    destruct (utf8_prefix_Some _ _ Hp) as (He & rest' & E). rewrite E in *. by apply quote_rune.
Qed.

Lemma quote_spec s : is_gostring s -> quote s = Ret ([34] ++ concat (quote_byte <$> s) ++ [34]).
Proof. intros Hs. unfold quote. pose proof (quote_loop_spec (length s) [] s [34] Hs (le_n _)) as E. cbn [app] in E. change (zlen []) with 0 in E. by rewrite E, bind_ret. Qed.

(** ** Parsing any text *)
Definition result_ok (orig : gostring) (ok : Z -> Prop) (r : Z + parseDurationError) : Prop :=
  match r with inl d => ok d | inr e => pvalue e = orig end.

Lemma leadingInt_suffix s x v r : leadingInt_loop s x = Some (v, r) -> exists p, s = p ++ r.
Proof.
  revert x. induction s as [|c s IH]; intros x; cbn [leadingInt_loop]; [intros [= <- <-]; by exists []|].
  destruct (is_digit c); cbn [negb]; [|intros [= <- <-]; by exists []]. destruct (2 ^ 63 / 10 <? x); [done|]. destruct (2 ^ 63 <? _); [done|].
  intros [p ->]%IH. by exists (c :: p).
Qed.

Lemma leadingFraction_suffix s x scale o : exists v scale' r p, leadingFraction_loop s x scale o = (v, scale', r) /\ s = p ++ r.
Proof.
  revert x scale o. induction s as [|c s IH]; intros x scale o; cbn [leadingFraction_loop]; [by eexists _, _, [], []|].
  assert (forall x scale o, exists v scale' r p, leadingFraction_loop s x scale o = (v, scale', r) /\ c :: s = p ++ r) as Hstep.
  { intros x' sc' o'. destruct (IH x' sc' o') as (v & sc & r & p & -> & ->). by exists v, sc, r, (c :: p). }
  destruct (is_digit c); cbn [negb]; [|by eexists _, _, _, []]. destruct o; [apply Hstep|]. destruct (_ <? x); [apply Hstep|].
  destruct (2 ^ 63 <? _); apply Hstep.
Qed.

Lemma parse_fraction_suffix s : exists f scale r post p, parse_fraction s = Ret (f, scale, r, post) /\ s = p ++ r.
Proof.
  unfold parse_fraction. destruct s as [|c s]; [by eexists _, _, [], _, []|]. rewrite bool_decide_true by done.
  change (index (c :: s) 0) with (@Ret Z c). rewrite !bind_ret. destruct (c =? 46); [|by eexists _, _, _, _, []].
  change (c :: s) with ([c] ++ s). change 1 with (zlen [c]). rewrite slice_from_app_r, bind_ret. unfold leadingFraction.
  destruct (leadingFraction_suffix s 0 (float_of 1) false) as (f & scale & r & p & -> & ->). by eexists _, _, _, _, (c :: p).
Qed.

Lemma unit_length_bounds s : 0 <= unit_length s <= zlen s.
Proof. induction s as [|c s IH]; cbn [unit_length]; [done|]. rewrite zlen_cons. destruct (_ || _); lia. Qed.

Lemma parse_components_total fuel orig s d : is_gostring s -> (length s <= fuel)%nat -> 0 <= d <= 2 ^ 63 ->
  exists r, parse_components fuel orig s d = Ret r /\ result_ok orig (fun d => 0 <= d <= 2 ^ 63) r.
Proof.
  revert s d. induction fuel as [|fuel IH]; intros [|c s] d Hs Hf Hd; [by eexists|cbn in Hf; lia|by eexists|].
  assert (forall r, pvalue r = orig -> exists r', Ret (@inr Z _ r) = Ret r' /\ result_ok orig (fun d => 0 <= d <= 2 ^ 63) r') as Herr by (intros r Hr; by exists (inr r)).
  cbn [parse_components]. change (index (c :: s) 0) with (@Ret Z c). rewrite bind_ret.
  destruct (_ || is_digit c); cbn [negb]; [|by apply Herr]. destruct (leadingInt (c :: s)) as [[v s1]|] eqn:Hlead; [|by apply Herr].
  apply leadingInt_suffix in Hlead as [p1 E1]. destruct (parse_fraction_suffix s1) as (f & scale & s2 & post & p2 & -> & E2). rewrite bind_ret.
  destruct (_ && _); [by apply Herr|]. pose proof (unit_length_bounds s2). destruct (Z.eqb_spec (unit_length s2) 0); [by apply Herr|].
  rewrite slice_to_in_range, bind_ret, slice_from_in_range, bind_ret by lia. set (u := take _ s2). set (s3 := drop _ s2).
  assert (is_gostring s2) as Hs2. { rewrite E1, E2 in Hs. apply Forall_app in Hs as [_ Hs]. by apply Forall_app in Hs as [_ Hs]. }
  assert (length s3 < length (c :: s))%nat. { rewrite E1, E2, !length_app. unfold s3. rewrite length_drop. unfold zlen in *. lia. }
  destruct (al_lookup u unitMap) as [unit|].
  - destruct (_ <? v); [by apply Herr|]. destruct (_ && _); [by apply Herr|]. set (v' := if 0 <? f then _ else _). destruct (Z.ltb_spec (2 ^ 63) (uint_wrap 64 (d + v'))); [by apply Herr|].
    apply IH; [by apply Forall_drop|cbn in *; lia|]. split; [apply Z.mod_pos_bound; lia|done].
  - rewrite quote_spec by (by apply Forall_take). rewrite bind_ret. by apply Herr.
Qed.

Lemma int64_is_int z : is_int (int64 z).
Proof. unfold int64, sint_wrap. pose proof (Z.mod_pos_bound (z + 2 ^ (64 - 1)) (2 ^ 64) ltac:(lia)). int_range. Qed.

Lemma ParseDuration_total s : is_gostring s -> exists r, ParseDuration s = Ret r /\ result_ok s is_int r.
Proof.
  intros Hs. unfold ParseDuration.
  assert (exists neg s', (if bool_decide (s <> []) then c ← index s 0; if (c =? 45) || (c =? 43) then s ← slice_from s 1; Ret (c =? 45, s) else Ret (false, s) else Ret (false, s)) = Ret (neg, s') /\ is_gostring s')
    as (neg & s' & -> & Hs').
  { destruct s as [|c s]; [by eexists _, _|]. rewrite bool_decide_true by done. change (index (c :: s) 0) with (@Ret Z c). rewrite bind_ret.
    destruct (_ || _); [|by eexists _, _]. change (c :: s) with ([c] ++ s). change 1 with (zlen [c]). rewrite slice_from_app_r, bind_ret. apply Forall_cons in Hs as [_ ?]. by eexists _, _. }
  rewrite bind_ret. case_bool_decide; [by exists (inl 0)|]. case_bool_decide; [by eexists (inr _)|].
  destruct (parse_components_total (length s') s s' 0) as ([d|e] & -> & Hr); [done|lia|lia| |]; rewrite bind_ret; [|by exists (inr e)].
  destruct (neg : bool); [eexists (inl _); split; [done|apply int64_is_int]|]. destruct (2 ^ 63 - 1 <? d); [by eexists (inr _)|]. eexists (inl _). split; [done|apply int64_is_int].
Qed.

(** ** Rounding *)
Definition clip_duration (z : Z) : Z := Z.max minDuration (Z.min maxDuration z).

Lemma lessThanHalf_spec r m : 0 <= r < m -> is_int m -> lessThanHalf r m = (2 * r <? m).
Proof. intros Hr Hm. unfold lessThanHalf. rewrite !(uint_wrap_id 64 r), (uint_wrap_id 64 m), uint_wrap_id by int_range. f_equal. lia. Qed.

Lemma rem_parts d m : 0 < m -> Z.rem d m = if d <? 0 then - (- d - (- d / m) * m) else d - d / m * m.
Proof.
  intros Hm. destruct (Z.ltb_spec d 0).
  - replace d with (- - d) at 1 by lia. rewrite Z.rem_opp_l, Z.rem_mod_nonneg, Z.mod_eq by lia. lia.
  - rewrite Z.rem_mod_nonneg, Z.mod_eq by lia. lia.
Qed.

Lemma int64_over z : 2 ^ 63 <= z < 2 ^ 64 -> int64 z = z - 2 ^ 64.
Proof. intros Hz. unfold int64, sint_wrap. replace (z + 2 ^ (64 - 1)) with (z - 2 ^ 63 + 1 * 2 ^ 64) by lia. rewrite Z.mod_add, Z.mod_small by lia. lia. Qed.
Lemma int64_under z : - 2 ^ 64 <= z < - 2 ^ 63 -> int64 z = z + 2 ^ 64.
Proof. intros Hz. unfold int64, sint_wrap. replace (z + 2 ^ (64 - 1)) with (z + 2 ^ 63 + 2 ^ 64 + (-1) * 2 ^ 64) by lia. rewrite Z.mod_add, Z.mod_small by lia. lia. Qed.
Lemma int64_add_l a b : int64 (int64 a + b) = int64 (a + b).
Proof.
  unfold int64, sint_wrap. f_equal. 
  replace ((a + 2 ^ (64 - 1)) mod 2 ^ 64 - 2 ^ (64 - 1) + b + 2 ^ (64 - 1)) with ((a + 2 ^ (64 - 1)) mod 2 ^ 64 + b) by lia.
  rewrite Z.add_mod_idemp_l by lia. f_equal. lia.
Qed.

(** The multiple of [m] chosen: the nearest, and away from zero when two are as near. *)
Definition nearest (d m n : Z) : Prop := (m | n) /\ 2 * Z.abs (d - n) <= m /\ (2 * Z.abs (d - n) = m -> Z.abs d < Z.abs n).

Lemma Round_spec d m : is_int d -> is_int m -> 0 < m -> exists n, nearest d m n /\ Round d m = clip_duration n.
Proof.
  intros Hd Hm Hpos. unfold Round. replace (m <=? 0) with false by lia. rewrite rem_parts by done. unfold clip_duration, minDuration, maxDuration.
  destruct (Z.ltb_spec d 0) as [Hneg|Hneg].
  - set (q := - d / m). pose proof (Z.div_mod (- d) m ltac:(lia)). pose proof (Z.mod_pos_bound (- d) m ltac:(lia)). fold q in H.
    set (r := - d - q * m) in *. assert (r = (- d) mod m) by (unfold r; lia). assert (0 <= q) by (apply Z.div_pos; lia). assert (0 <= q * m) by nia.
    rewrite (int64_id (- - r)) by int_range. rewrite Z.opp_involutive, lessThanHalf_spec by (done || lia). destruct (Z.ltb_spec (2 * r) m).
    + exists (- q * m). unfold nearest. split; [split_and!; [apply Z.divide_factor_r|lia..]|]. rewrite int64_id by int_range. int_range.
    + exists (- (q + 1) * m). unfold nearest. split; [split_and!; [apply Z.divide_factor_r|lia..]|]. rewrite int64_add_l.
      assert (- (q + 1) * m = d - m + r) as -> by lia. destruct (Z_le_gt_dec (- 2 ^ 63) (d - m + r)).
      * rewrite int64_id by int_range. replace (d - m + r <? d) with true by lia. int_range.
      * rewrite int64_under by int_range. replace (d - m + r + 2 ^ 64 <? d) with false by int_range. int_range.
  - set (q := d / m). pose proof (Z.div_mod d m ltac:(lia)). pose proof (Z.mod_pos_bound d m ltac:(lia)). fold q in H.
    set (r := d - q * m) in *. assert (r = d mod m) by (unfold r; lia). assert (0 <= q) by (apply Z.div_pos; lia). assert (0 <= q * m) by nia.
    rewrite lessThanHalf_spec by (done || lia). destruct (Z.ltb_spec (2 * r) m).
    + exists (q * m). unfold nearest. split; [split_and!; [apply Z.divide_factor_r|lia..]|]. rewrite int64_id by int_range. int_range.
    + exists ((q + 1) * m). unfold nearest. split; [split_and!; [apply Z.divide_factor_r|lia..]|]. rewrite <- Z.add_opp_r, int64_add_l.
      assert ((q + 1) * m = d + m + - r) as -> by lia. destruct (Z_le_gt_dec (d + m + - r) (2 ^ 63 - 1)).
      * rewrite int64_id by int_range. replace (d <? d + m + - r) with true by lia. int_range.
      * rewrite int64_over by int_range. replace (d <? d + m + - r - 2 ^ 64) with false by int_range. int_range.
Qed.

Lemma Truncate_spec d m : is_int d -> 0 < m -> (m | Truncate d m) /\ Z.abs (d - Truncate d m) < m /\ Z.abs (Truncate d m) <= Z.abs d /\ 0 <= d * Truncate d m.
Proof.
  intros Hd Hm. unfold Truncate. replace (m <=? 0) with false by lia.
  rewrite rem_parts by done. destruct (Z.ltb_spec d 0).
  - pose proof (Z.div_mod (- d) m ltac:(lia)). pose proof (Z.mod_pos_bound (- d) m ltac:(lia)). assert (0 <= - d / m) by (apply Z.div_pos; lia).
    assert (d - - (- d - - d / m * m) = - (- d / m) * m) as -> by lia. rewrite int64_id by int_range. split_and!; [apply Z.divide_factor_r|lia..|nia].
  - pose proof (Z.div_mod d m ltac:(lia)). pose proof (Z.mod_pos_bound d m ltac:(lia)). assert (0 <= d / m) by (apply Z.div_pos; lia).
    assert (d - (d - d / m * m) = d / m * m) as -> by lia. rewrite int64_id by int_range. split_and!; [apply Z.divide_factor_r|lia..|nia].
Qed.

Lemma Abs_spec d : is_int d -> Abs d = Z.min (Z.abs d) maxDuration.
Proof.
  intros Hd. unfold Abs, minDuration, maxDuration. destruct (Z.leb_spec 0 d); [int_range|]. destruct (Z.eqb_spec d (- 2 ^ 63)); [int_range|]. rewrite int64_id by int_range. int_range.
Qed.

Lemma duration_text d : is_int d -> exists t, Duration_String d = Ret t.
Proof. intros Hd. destruct (Duration_String_spec d Hd) as (cs & E & _). eauto. Qed.

(** ** Properties *)

(** C14: Every duration, from the smallest to the largest, is written as text
    without leaving the buffer of 32 bytes, and [ParseDuration] reads the same
    duration from it: the binary64 arithmetic of its fractions is exact. *)
Theorem duration_text_roundtrip (d : Z) (Hd : is_int d) :
  exists s, Duration_String d = Ret s /\ ParseDuration s = Ret (inl d).
Proof.
  destruct (Duration_String_spec d Hd) as (cs & E & Hok & Hne & Hv). eexists. split; [done|].
  rewrite ParseDuration_components; [|done..|destruct (Z.ltb_spec d 0); int_range]. do 2 f_equal. destruct (Z.ltb_spec d 0); lia.
Qed.

Lemma duration_text_roundtrip_witness :
  is_int (- 2 ^ 63) /\ exists s, Duration_String (- 2 ^ 63) = Ret s /\ ParseDuration s = Ret (inl (- 2 ^ 63)).
Proof.
  assert (is_int (- 2 ^ 63)) as H by (vm_compute; split; discriminate).
  split; [exact H|exact (duration_text_roundtrip (- 2 ^ 63) H)].
Defined.

(** [ParseDuration] returns on every string, without a panic: the result
    is a 64-bit duration, or an error whose text is a message and the string,
    quoted byte by byte with the bytes that are not printable ASCII in hexadecimal. *)
Theorem parse_duration_total (s : gostring) (Hs : is_gostring s) :
  (exists d, ParseDuration s = Ret (inl d) /\ is_int d) \/
  (exists m, ParseDuration s = Ret (inr (MkParseDurationError m s)) /\
     parseDurationError_Error (MkParseDurationError m s) = Ret (str "time: " ++ m ++ str " " ++ [34] ++ concat (quote_byte <$> s) ++ [34])).
Proof.
  destruct (ParseDuration_total s Hs) as ([d|[m s']] & E & Hr); [by left; exists d|]. cbn in Hr. subst s'. right. exists m. split; [done|].
  unfold parseDurationError_Error. cbn [pvalue message]. by rewrite quote_spec.
Qed.

Lemma parse_duration_total_witness :
  is_gostring [0xC3; 0x28] /\
  ((exists d, ParseDuration [0xC3; 0x28] = Ret (inl d) /\ is_int d) \/
   (exists m, ParseDuration [0xC3; 0x28] = Ret (inr (MkParseDurationError m [0xC3; 0x28])) /\
     parseDurationError_Error (MkParseDurationError m [0xC3; 0x28]) =
       Ret (str "time: " ++ m ++ str " " ++ [34] ++ concat (quote_byte <$> [0xC3; 0x28]) ++ [34]))).
Proof.
  assert (is_gostring [0xC3; 0x28]) as H by (repeat constructor; unfold is_byte; lia).
  split; [exact H|exact (parse_duration_total _ H)].
Defined.

(** Rounding a duration to a positive multiple gives the nearest one, away
    from zero when two are as near, and the largest or smallest duration when
    that does not fit in 64 bits; truncating gives the largest multiple towards
    zero; the absolute value saturates.  Nothing changes for other multiples. *)
Theorem duration_rounding (d m : Z) (Hd : is_int d) (Hm : is_int m) :
  Abs d = Z.min (Z.abs d) maxDuration /\
  (m <= 0 -> Round d m = d /\ Truncate d m = d) /\
  (0 < m ->
   (exists n, nearest d m n /\ Round d m = clip_duration n) /\
   (m | Truncate d m) /\ Z.abs (d - Truncate d m) < m /\ Z.abs (Truncate d m) <= Z.abs d /\ 0 <= d * Truncate d m).
Proof.
  split_and!; [by apply Abs_spec| |].
  - intros H. unfold Round, Truncate. by replace (m <=? 0) with true by lia.
  - intros H. split; [by apply Round_spec|by apply Truncate_spec].
Qed.

Lemma duration_rounding_witness :
  is_int (- 2 ^ 63) /\ is_int 1000 /\ 0 < 1000 /\ exists n, nearest (- 2 ^ 63) 1000 n /\ Round (- 2 ^ 63) 1000 = clip_duration n.
Proof.
  assert (is_int (- 2 ^ 63)) as H1 by (vm_compute; split; discriminate). assert (is_int 1000) as H2 by (vm_compute; split; discriminate).
  split; [exact H1|split; [exact H2|split; [reflexivity|]]]. exact (proj1 (proj2 (proj2 (duration_rounding (- 2 ^ 63) 1000 H1 H2)) eq_refl)).
Defined.
