(* ===== verification/GoSlice.v ===== *)
(** * Slices that share backing arrays

    Where a claim depends on aliasing, slices live in an explicit store of
    backing arrays.  A slice here starts at the beginning of its array, as all
    slices built by [append] do; [None] is the array of a nil slice.  [grow] is
    the capacity that the runtime gives to a reallocated slice. *)
From S2P Require Import Prelude.

Record Slice := MkSlice { arr : option positive; len : nat; cap : nat }.
Abbreviation store T := (gmap positive (list T)).
Definition nil_slice : Slice := MkSlice None 0 0.

Section go_slice.
Context {T : Type} (zero : T) (grow : nat -> nat).
Implicit Types (h : store T) (s q : Slice).

(** The elements of a slice. *)
Definition elems (h : store T) (s : Slice) : list T :=
  match arr s with
  | None => []
  | Some a => match h !! a with Some cells => take (len s) cells | None => [] end
  end.

(** [append(s, x)]: it writes into the spare capacity if there is some, and copies otherwise. *)
Definition realloc (h : store T) (s : Slice) (x : T) : store T * Slice :=
  let a := fresh (dom h) in
  let old := elems h s in
  let c := Nat.max (S (len s)) (grow (len s)) in
  (<[a := old ++ x :: replicate (c - S (length old)) zero]> h, MkSlice (Some a) (S (len s)) c).
Definition append (h : store T) (s : Slice) (x : T) : store T * Slice :=
  match arr s with
  | Some a =>
      match h !! a with
      | Some cells =>
          if decide (len s < cap s)%nat then (<[a := <[len s := x]> cells]> h, MkSlice (Some a) (S (len s)) (cap s))
          else realloc h s x
      | None => realloc h s x
      end
  | None => realloc h s x
  end.

(** [slices.Clip(s)] is [s[:len(s):len(s)]]. *)
Definition Clip (s : Slice) : Slice := MkSlice (arr s) (len s) (len s).

(** ** Well-formed slices *)
Definition wf_slice (h : store T) (s : Slice) : Prop :=
  (len s <= cap s)%nat /\
  match arr s with
  | None => cap s = 0%nat
  | Some a => exists cells, h !! a = Some cells /\ (cap s <= length cells)%nat
  end.
Definition full (s : Slice) : Prop := len s = cap s.

Lemma wf_nil h : wf_slice h nil_slice.
Proof. by split. Qed.
Lemma wf_Clip h s : wf_slice h s -> wf_slice h (Clip s) /\ full (Clip s) /\ elems h (Clip s) = elems h s.
Proof.
  intros [Hl Hs]. split_and!; [|done..]. split; [done|]. cbn [Clip arr cap]. destruct (arr s); [|lia].
  destruct Hs as (cells & ? & ?). exists cells. split; [done|lia].
Qed.

Lemma elems_length h s : wf_slice h s -> length (elems h s) = len s.
Proof.
  intros [Hl Hs]. unfold elems. destruct (arr s) as [a|]; [|cbn; lia]. destruct Hs as (cells & -> & Hc). rewrite length_take. lia.
Qed.

(** Slices keep their meaning when arrays are only added to the store. *)
Lemma elems_extend h h' s : wf_slice h s -> h ⊆ h' -> elems h' s = elems h s /\ wf_slice h' s.
Proof.
  intros [Hl Hs] Hsub. unfold elems, wf_slice. destruct (arr s) as [a|]; [|done]. destruct Hs as (cells & Ha & Hc).
  assert (h' !! a = Some cells) as Ha' by (by eapply lookup_weaken). rewrite Ha, Ha'. split; [done|]. split; [done|by exists cells].
Qed.

Lemma fresh_extends h (cells : list T) : h ⊆ <[fresh (dom h) := cells]> h.
Proof. apply insert_subseteq, not_elem_of_dom, is_fresh. Qed.

Lemma realloc_spec h s x h' s' :
  wf_slice h s -> realloc h s x = (h', s') -> wf_slice h' s' /\ elems h' s' = elems h s ++ [x] /\ h ⊆ h'.
Proof.
  intros Hs. pose proof (elems_length h s Hs) as Hl. unfold realloc. intros [= <- <-]. split_and!.
  - split; cbn [len cap arr]; [lia|]. eexists. split; [apply lookup_insert_eq|].
    rewrite length_app. cbn [length]. rewrite length_replicate. lia.
  - unfold elems at 1. cbn [arr len]. rewrite lookup_insert_eq, <- Hl, take_app_ge by lia.
    replace (S (length (elems h s)) - length (elems h s))%nat with 1%nat by lia. done.
  - apply fresh_extends.
Qed.

(** The appended slice has the new element, whatever shares its array. *)
Lemma append_elems h s x h' s' :
  wf_slice h s -> append h s x = (h', s') -> wf_slice h' s' /\ elems h' s' = elems h s ++ [x].
Proof.
  intros Hs. pose proof (realloc_spec h s x) as Hr. unfold append.
  destruct (arr s) as [a|] eqn:Ea; [|intros E; by destruct (Hr _ _ Hs E) as (? & ? & _)].
  destruct (h !! a) as [cells|] eqn:Ha; [|intros E; by destruct (Hr _ _ Hs E) as (? & ? & _)].
  destruct (decide _) as [Hlt|]; [|intros E; by destruct (Hr _ _ Hs E) as (? & ? & _)]. intros [= <- <-].
  destruct Hs as [_ Hs]. rewrite Ea in Hs. destruct Hs as (cells' & Ha' & Hc). rewrite Ha in Ha'. injection Ha' as <-. split.
  - split; cbn [len cap arr]; [lia|]. eexists. split; [apply lookup_insert_eq|]. by rewrite length_insert.
  - unfold elems. cbn [arr len]. rewrite lookup_insert_eq, Ea, Ha. rewrite (take_S_r _ _ x); [by rewrite take_insert_ge|].
    apply list_lookup_insert_eq. lia.
Qed.

(** Appending to a full slice only adds an array. *)
Lemma append_full h s x h' s' : full s -> wf_slice h s -> append h s x = (h', s') -> h ⊆ h'.
Proof.
  intros Hf Hs. unfold append, full in *.
  assert (realloc h s x = (h', s') -> h ⊆ h') as Hr by (intros E; by eapply realloc_spec).
  repeat case_match; try done. lia.
Qed.

(** Another slice keeps its elements if it does not reach past the appended one in a shared array. *)
Lemma append_frame h s x h' s' q :
  wf_slice h s -> wf_slice h q -> append h s x = (h', s') -> arr q <> arr s \/ (len q <= len s)%nat -> elems h' q = elems h q.
Proof.
  intros Hs Hq Happ Hor.
  assert (realloc h s x = (h', s') -> elems h' q = elems h q) as Hr.
  { intros E. destruct (realloc_spec h s x _ _ Hs E) as (_ & _ & Hsub). by apply (elems_extend h h' q). }
  unfold append in Happ. destruct (arr s) as [a|] eqn:Ea; [|by apply Hr].
  destruct (h !! a) as [cells|] eqn:Ha; [|by apply Hr]. destruct (decide _) as [Hlt|]; [|by apply Hr]. injection Happ as <- <-.
  unfold elems. destruct (arr q) as [b|]; [|done]. destruct (decide (b = a)) as [->|Hne]; [|by rewrite lookup_insert_ne].
  destruct Hor as [?|Hle]; [done|]. rewrite lookup_insert_eq, Ha. by rewrite take_insert_ge.
Qed.
End go_slice.
