(* ===== verification/Timex.v ===== *)
(** * Instants, timestamps and their patterns ([timex/instant.go],
    [timex/timestamp.go], [timex/pattern.go])

    A [Pattern] holds a slice, and its methods append to it: patterns share
    backing arrays, which live in the store of GoSlice. *)
From stdpp Require Import pretty.
From S2P Require Import Prelude GoSlice GoCalendar GoTime.
#[local] Open Scope Z_scope.

(** ** Instants *)
Record Instant := NewInstant { ivalue : Time }.
Definition Instant_IsZero (i : Instant) : bool := GoTime.IsZero (ivalue i).
Definition Instant_Add (i : Instant) (d : Z) : Instant := NewInstant (GoTime.Add (ivalue i) d).
Definition Instant_Sub (i other : Instant) : Z := GoTime.Sub (ivalue i) (ivalue other).
Definition IsBefore (i other : Instant) : bool := Before (ivalue i) (ivalue other).
Definition IsAfter (i other : Instant) : bool := After (ivalue i) (ivalue other).
Definition Equals (i other : Instant) : bool := Equal (ivalue i) (ivalue other).
Definition Instant_Compare (i other : Instant) : Z := GoTime.Compare (ivalue i) (ivalue other).
Definition AsStdlibTime (i : Instant) : Time := ivalue i.

(** ** Patterns *)
Inductive patternSpecKind :=
  | patternSpecKind_Fixed | patternSpecKind_Year | patternSpecKind_Month | patternSpecKind_Day
  | patternSpecKind_Other (k : Z).
Record spec := MkSpec { skind : patternSpecKind; stext : gostring }.

Definition Pattern : Type := Slice.
Abbreviation store := (GoSlice.store spec).

Section pattern.
Context (grow : nat -> nat).

Definition NewPattern : Pattern := nil_slice.
Definition zeroSpec : spec := MkSpec (patternSpecKind_Other 0) [].
Definition Pattern_append (h : store) (p : Pattern) (s : spec) : store * Pattern := GoSlice.append zeroSpec grow h p s.

Definition Fixed (h : store) (p : Pattern) (text : gostring) : store * Pattern :=
  Pattern_append h p (MkSpec patternSpecKind_Fixed text).
Definition Pattern_Year (h : store) (p : Pattern) : store * Pattern := Pattern_append h p (MkSpec patternSpecKind_Year []).
Definition Pattern_Month (h : store) (p : Pattern) : store * Pattern := Pattern_append h p (MkSpec patternSpecKind_Month []).
Definition Pattern_Day (h : store) (p : Pattern) : store * Pattern := Pattern_append h p (MkSpec patternSpecKind_Day []).
End pattern.

(** [strconv.Itoa]. *)
Definition Itoa (z : Z) : gostring := str (pretty z).
Definition writePaddedInt (b : gostring) (value : Z) (width : nat) : gostring :=
  let '(b, value) := if value <? 0 then (b ++ str "-", int64 (- value)) else (b, value) in
  let digits := Itoa value in
  b ++ replicate (width - length digits) 48 ++ digits.

(** ** Timestamps *)
Record Timestamp := MkTimestamp { tvalue : Time }.

Section timestamp.
Context (lookup : positive -> Z -> Z).

Definition NewTimestamp (value : Time) : go Timestamp :=
  _ ← Precondition (bool_decide (Location value = utcLoc)); Ret (MkTimestamp value).

Definition format_spec (t : Timestamp) (b : gostring) (s : spec) : go gostring :=
  match skind s with
  | patternSpecKind_Fixed => Ret (b ++ stext s)
  | patternSpecKind_Year => Ret (writePaddedInt b (Year lookup (tvalue t)) 4)
  | patternSpecKind_Month => Ret (writePaddedInt b (Month lookup (tvalue t)) 2)
  | patternSpecKind_Day => Ret (writePaddedInt b (Day lookup (tvalue t)) 2)
  | patternSpecKind_Other _ => PanicUnknownCase
  end.
Definition Format (h : store) (t : Timestamp) (pat : Pattern) : go gostring :=
  foldl (fun acc s => b ← acc; format_spec t b s) (Ret []) (elems h pat).
End timestamp.

(** ** The calendar of a UTC timestamp *)

(** The three accessors are the parts of the date of the same day. *)
Lemma date_parts lookup t : Date lookup t = (Year lookup t, Month lookup t, Day lookup t).
Proof.
  unfold Date, days_date, Year, Month, Day. destruct (days_split _) as [[c k] a]. by destruct (ayday_split a).
Qed.

Lemma absSec_utc lookup t :
  Location t = utcLoc -> absSec lookup t = (sec t + internalToAbsolute) mod 2 ^ 64.
Proof.
  intros Hl. unfold absSec. rewrite Hl, decide_False by (intros H; by apply H). unfold unixSec, uint64, uint_wrap.
  destruct (int64_repr (sec t + internalToUnix)) as [k1 ->].
  destruct (int64_repr (sec t + internalToUnix + k1 * 2 ^ 64 + (unixToInternal + internalToAbsolute))) as [k2 ->].
  rewrite Z.mod_add by lia. unfold internalToUnix.
  replace (sec t + - unixToInternal + k1 * 2 ^ 64 + (unixToInternal + internalToAbsolute)) with (sec t + internalToAbsolute + k1 * 2 ^ 64) by lia.
  by rewrite Z.mod_add by lia.
Qed.

(** [n] seconds later is the same day or the next ones: dates of UTC times follow the calendar. *)
Lemma utc_next_day lookup t u :
  Location t = utcLoc -> Location u = utcLoc -> sec u = sec t + secondsPerDay ->
  0 <= sec t + internalToAbsolute -> sec u + internalToAbsolute < 2 ^ 64 ->
  Date lookup u = next_day (Date lookup t).
Proof.
  intros Ht Hu Hs H0 H1. unfold Date. rewrite !absSec_utc, Hs by done. change secondsPerDay with 86400 in *.
  rewrite !Z.mod_small by lia. unfold abs_days. change secondsPerDay with 86400.
  replace (sec t + 86400 + internalToAbsolute) with (sec t + internalToAbsolute + 1 * 86400) by lia.
  rewrite Z.div_add by lia. set (d := (sec t + internalToAbsolute) / 86400).
  assert (0 <= d < 2 ^ 62 - 2) as Hd by (subst d; Z.div_mod_to_equations; lia).
  destruct (days_of_surj d) as (c & k & a & Hv & E); [lia|]. destruct (next_of c k a Hv) as (c' & k' & a' & Hv' & E' & Hn).
  rewrite E. rewrite date_of by (done || lia). rewrite Hn, <- E'. apply date_of; [done|lia].
Qed.

(** ** Building patterns *)
Section building.
Context (grow : nat -> nat).

Lemma Format_append lookup h p s h' p' t :
  wf_slice h p -> Pattern_append grow h p s = (h', p') ->
  Format lookup h' t p' = b ← Format lookup h t p; format_spec lookup t b s.
Proof.
  intros Hp Happ. destruct (append_elems zeroSpec grow h p s h' p' Hp Happ) as [_ E]. unfold Format. by rewrite E, foldl_app.
Qed.
End building.

(** ** A pattern whose prefix is shared *)

(** The prefix "Y-" followed by a month or by a day: with the doubling growth of
    the runtime the third append leaves spare capacity, and the second
    completion overwrites the first. *)
Definition shared_prefix : store * list spec * list spec :=
  let grow := fun n => (2 * n)%nat in
  let '(h, p) := Fixed grow ∅ NewPattern (str "v") in
  let '(h, p) := Pattern_Year grow h p in
  let '(h, p) := Fixed grow h p (str "-") in
  let '(h, p1) := Pattern_Month grow h p in
  let before := elems h p1 in
  let '(h, _) := Pattern_Day grow h p in
  (h, before, elems h p1).
Lemma shared_prefix_overwrites :
  match shared_prefix with
  | (_, before, after) => map skind before <> map skind after /\
                          map skind after = [patternSpecKind_Fixed; patternSpecKind_Year; patternSpecKind_Fixed; patternSpecKind_Day]
  end.
Proof. vm_compute. by split. Qed.
