(* ===== verification/ClockToken.v ===== *)
(** * Deadlines and clock tokens ([cancel/deadline/deadline.go],
    [cancel/clock_token.go], the standard library contexts of [cancel/token.go])

    A clock token wraps a child token of the heap of [Token], a scheduler and a
    deadline fixed at creation.  The scheduler is an interface of the code
    ([timex.Scheduler]): a class here, over the scheduler's own state [S]; the
    function given to [RunAfter] always cancels one token with one error, and
    is represented by these two.  The scheduler may perform it before
    [RunAfter] returns, as its documentation allows, or leave it for later. *)
From S2P Require Import Prelude Core GoCalendar GoTime Timex Errorx Deque Queue Token.
#[local] Open Scope Z_scope.

(** ** Deadlines *)
Inductive DeadlineSourceKind :=
  | Source_AncestorTimeout | Source_AncestorAbsoluteDeadline
  | Source_InitializedWithTimeout | Source_InitializedWithAbsoluteDeadline
  | Source_Other (k : Z).
Record DeadlineSource := MkSource { source_kind : DeadlineSourceKind; ancestorLevel : Z }.
Record Deadline := NewDeadline { instant : Instant; source : DeadlineSource }.

Definition NewSource (kind : DeadlineSourceKind) (ancestorLevel : Z) : go DeadlineSource :=
  _ ← match kind with
      | Source_InitializedWithTimeout | Source_InitializedWithAbsoluteDeadline => Precondition (ancestorLevel =? 0)
      | Source_AncestorTimeout | Source_AncestorAbsoluteDeadline => Precondition (1 <=? ancestorLevel)
      | Source_Other _ => Ret tt
      end;
  Ret (MkSource kind ancestorLevel).

Definition ReinterpretForChild (d : Deadline) : go Deadline :=
  '(newSource, newDepth) ←
    match source_kind (source d) with
    | Source_InitializedWithTimeout => Ret (Source_AncestorTimeout, 1)
    | Source_InitializedWithAbsoluteDeadline => Ret (Source_AncestorAbsoluteDeadline, 1)
    | Source_AncestorTimeout => Ret (Source_AncestorTimeout, int64 (ancestorLevel (source d) + 1))
    | Source_AncestorAbsoluteDeadline => Ret (Source_AncestorAbsoluteDeadline, int64 (ancestorLevel (source d) + 1))
    | Source_Other _ => PanicUnknownCase
    end;
  s ← NewSource newSource newDepth;
  Ret (NewDeadline (instant d) s).

(** ** Options *)
Record CancelOption := MkOption { timeout : option Z; deadline : option Instant }.
Definition OnTimeout (d : Z) : go CancelOption := _ ← Precondition (0 <=? d); Ret (MkOption (Some d) None).
Definition OnDeadline (i : Instant) : go CancelOption :=
  _ ← Precondition (negb (Instant_IsZero i)); Ret (MkOption None (Some i)).

Definition soonest (lhs : option Deadline) (rhs : Deadline) : option Deadline :=
  match lhs with
  | Some l => if negb (IsBefore (instant rhs) (instant l)) then lhs else Some rhs
  | None => Some rhs
  end.

(** ** Schedulers *)
Inductive StopResult := StopResult_Stopped | StopResult_TooLate.
(** The boolean of [RunAfter] says whether the work was performed at once. *)
Class Scheduler (S E : Type) := {
  GetInstant : S -> Instant * S;
  RunAfter : S -> Z -> loc * E -> bool * positive * S;
  Stop : S -> positive -> StopResult * S }.

Section clock.
Context {S E : Type} `{Sch : Scheduler S E} `{Q : Queue loc} (exceeded : Deadline -> E).

(** The fields of [clockToken]; its scheduler is the one scheduler of the state. *)
Record clockToken := MkClock { child : loc; cdeadline : option Deadline; timer : option positive }.
(** The implementations of [Token] a parent can be. *)
Inductive AnyToken := NeverToken | RawToken (t : loc) | ClockToken (c : clockToken).

Definition Any_NewChild (fuel : nat) (h : heap E) (t : AnyToken) : go (heap E * loc) :=
  match t with
  | NeverToken => never_NewChild fuel h
  | RawToken t => NewChild fuel h t
  | ClockToken c => NewChild fuel h (child c)
  end.

Definition newClockTokenImpl (fuel : nat) (h : heap E) (s : S) (parent : AnyToken) (optDeadline : option Deadline)
    (lazyNow : option Instant) : go (heap E * S * clockToken) :=
  '(h, c) ← Any_NewChild fuel h parent;
  match optDeadline with
  | None => Ret (h, s, MkClock c None None)
  | Some deadline_ =>
      let '(now, s) := match lazyNow with Some now => (now, s) | None => GetInstant s end in
      let delay := Instant_Sub (instant deadline_) now in
      if delay <=? 0 then
        '(h, _) ← Cancel fuel h c (Some (exceeded deadline_));
        Ret (h, s, MkClock c (Some deadline_) None)
      else
        let '(performed, tm, s) := RunAfter s delay (c, exceeded deadline_) in
        h ← (if (performed : bool) then '(h, _) ← Cancel fuel h c (Some (exceeded deadline_)); Ret h else Ret h);
        Ret (h, s, MkClock c (Some deadline_) (Some tm))
  end.

(** The options, in order: the tightest deadline, the cached time, the scheduler. *)
Fixpoint options_loop (opts : list CancelOption) (tightest : option Deadline) (lazyNow : option Instant) (s : S)
    : go (option Deadline * option Instant * S) :=
  match opts with
  | [] => Ret (tightest, lazyNow, s)
  | opt :: opts =>
      match deadline opt, timeout opt with
      | None, None => Panic PreconditionViolation
      | Some _, Some _ => Panic InvariantViolation
      | Some i, None =>
          src ← NewSource Source_InitializedWithAbsoluteDeadline 0;
          options_loop opts (soonest tightest (NewDeadline i src)) lazyNow s
      | None, Some duration =>
          let '(now, s) := match lazyNow with Some now => (now, s) | None => GetInstant s end in
          src ← NewSource Source_InitializedWithTimeout 0;
          options_loop opts (soonest tightest (NewDeadline (Instant_Add now duration) src)) (Some now) s
      end
  end.

(** The deadline of the parent, seen from the child. *)
Definition parent_deadline (parent : AnyToken) : go (option Deadline) :=
  match parent with
  | ClockToken c =>
      match cdeadline c with Some pd => d ← ReinterpretForChild pd; Ret (Some d) | None => Ret None end
  | _ => Ret None
  end.

Definition NewClockToken (fuel : nat) (h : heap E) (s : S) (parent : AnyToken) (opts : list CancelOption)
    : go (heap E * S * clockToken) :=
  tightest ← parent_deadline parent;
  '(tightest, lazyNow, s) ← options_loop opts tightest None s;
  newClockTokenImpl fuel h s parent tightest lazyNow.

Definition clock_KeepGoing (h : heap E) (c : clockToken) : go (option E) := KeepGoing h (child c).
Definition clock_Done (h : heap E) (c : clockToken) : go bool := Done h (child c).
Definition clock_NewChild (fuel : nat) (h : heap E) (c : clockToken) : go (heap E * loc) := NewChild fuel h (child c).
Definition clock_GetInstant (s : S) : Instant * S := GetInstant s.
Definition clock_Deadline (c : clockToken) : option Deadline := cdeadline c.
Definition NewClockChild (fuel : nat) (h : heap E) (s : S) (c : clockToken) (opts : list CancelOption)
    : go (heap E * S * clockToken) := NewClockToken fuel h s (ClockToken c) opts.

Definition clock_Cancel (fuel : nat) (h : heap E) (s : S) (c : clockToken) (err : option E) : go (heap E * S * CancelResult) :=
  '(h, res) ← Cancel fuel h (child c) err;
  match timer c with Some tm => let '(_, s) := Stop s tm in Ret (h, s, res) | None => Ret (h, s, res) end.

(** ** Standard library contexts *)
Section context.
Context `{EqDecision E} (methods : E -> method_set E) (as_exceeded : E -> option Deadline).
(** [context.DeadlineExceeded] and [context.Canceled]. *)
Inductive context_error := DeadlineExceeded | Canceled.

Definition stdlibContextErr (zero : @ChainLink E) (err : option E) : go (option context_error) :=
  match err with
  | None => Ret None
  | Some e =>
      d ← GetRootCauseAs methods as_exceeded zero (Some e);
      Ret (Some (match d with Some _ => DeadlineExceeded | None => Canceled end))
  end.

Definition zeroTime : Time := MkTime 0 0 None.
Definition tokenContext_Deadline : Time * bool := (zeroTime, false).
Definition tokenContext_Err (zero : ChainLink) (keepGoing : option E) : go (option context_error) := stdlibContextErr zero keepGoing.
Definition clockTokenContext_Deadline (c : clockToken) : Time * bool :=
  match cdeadline c with Some d => (AsStdlibTime (instant d), true) | None => (zeroTime, false) end.
Definition clockTokenContext_Done (h : heap E) (c : clockToken) : go bool := clock_Done h c.
Definition clockTokenContext_Err (zero : ChainLink) (h : heap E) (c : clockToken) : go (option context_error) :=
  e ← clock_KeepGoing h c; stdlibContextErr zero e.
End context.
End clock.

(** ** Sources *)
Definition wf_source (s : DeadlineSource) : Prop :=
  match source_kind s with
  | Source_InitializedWithTimeout | Source_InitializedWithAbsoluteDeadline => ancestorLevel s = 0
  | Source_AncestorTimeout | Source_AncestorAbsoluteDeadline => 1 <= ancestorLevel s <= MaxInt
  | Source_Other _ => False
  end.
(** The source as a child sees it: one level further away. *)
Definition child_source (s : DeadlineSource) : DeadlineSource :=
  MkSource match source_kind s with
           | Source_InitializedWithTimeout => Source_AncestorTimeout
           | Source_InitializedWithAbsoluteDeadline => Source_AncestorAbsoluteDeadline
           | k => k
           end (ancestorLevel s + 1).

Lemma ReinterpretForChild_spec d :
  wf_source (source d) -> ancestorLevel (source d) < MaxInt ->
  ReinterpretForChild d = Ret (NewDeadline (instant d) (child_source (source d))) /\ wf_source (child_source (source d)).
Proof.
  destruct d as [i [k l]]. unfold ReinterpretForChild, wf_source, child_source. cbn [source source_kind ancestorLevel instant].
  destruct k; cbn [source_kind ancestorLevel]; intros H Hl; try done; try (subst l; split; [done|]; unfold MaxInt; lia).
  all: rewrite bind_ret, int64_id by (unfold is_int, MinInt, MaxInt in *; lia); unfold NewSource;
    rewrite (proj2 (Z.leb_le 1 (l + 1))) by lia; split; [done|lia].
Qed.

(** ** The soonest deadline *)

(** Instants that are all monotonic, or all not, are ordered by one number. *)
Definition key (d : Deadline) : Z :=
  let t := ivalue (instant d) in if mono_bit t then ext t else total t.
Definition comparable (b : bool) (d : Deadline) : Prop :=
  wf_time (ivalue (instant d)) /\ mono_bit (ivalue (instant d)) = b.

Lemma IsBefore_key b d e : comparable b d -> comparable b e -> IsBefore (instant d) (instant e) = (key d <? key e).
Proof.
  intros [Hd Bd] [He Be]. unfold IsBefore. destruct (Compare_spec _ _ Hd He) as (_ & -> & _). unfold difference, key.
  rewrite both_mono_spec, Bd, Be by done. destruct b; cbn [andb]; zcase; lia.
Qed.

Lemma soonest_spec b ds d0 :
  Forall (comparable b) (d0 :: ds) ->
  exists d, foldl soonest (Some d0) ds = Some d /\ d ∈ d0 :: ds /\ Forall (fun e => key d <= key e) (d0 :: ds).
Proof.
  revert d0. induction ds as [|d1 ds IH]; intros d0 Hc.
  { exists d0. split; [done|]. split; [set_solver|]. repeat constructor. lia. }
  apply Forall_cons in Hc as [H0 Hc]. pose proof Hc as [H1 Hds]%Forall_cons. cbn [foldl soonest].
  rewrite (IsBefore_key b) by done. destruct (Z.ltb_spec (key d1) (key d0)); cbn [negb].
  - destruct (IH d1 Hc) as (d & E & Hin & Hmin). exists d. split; [done|]. split; [set_solver|].
    constructor; [|done]. apply Forall_cons in Hmin as [? _]. lia.
  - destruct (IH d0) as (d & E & Hin & Hmin); [by constructor|]. exists d. split; [done|].
    split; [set_solver|]. apply Forall_cons in Hmin as [? ?]. constructor; [done|]. constructor; [lia|done].
Qed.

Lemma soonest_elem d0 ds : exists d, foldl soonest (Some d0) ds = Some d /\ d ∈ d0 :: ds.
Proof.
  revert d0. induction ds as [|d1 ds IH]; intros d0; cbn [foldl soonest]; [exists d0; split; [done|set_solver]|].
  destruct (negb _); [destruct (IH d0) as (d & E & Hin)|destruct (IH d1) as (d & E & Hin)];
    exists d; split; [exact E|set_solver|exact E|set_solver].
Qed.

(** Starting from at most one inherited deadline. *)
Lemma tightest_spec inherited ds :
  (length inherited <= 1)%nat ->
  match foldl soonest (hd_error inherited) ds with
  | None => inherited ++ ds = []
  | Some d => d ∈ inherited ++ ds /\
      forall b, Forall (comparable b) (inherited ++ ds) -> Forall (fun e => key d <= key e) (inherited ++ ds)
  end.
Proof.
  assert (forall d0 l, match foldl soonest (Some d0) l with
    | None => d0 :: l = []
    | Some d => d ∈ d0 :: l /\ forall b, Forall (comparable b) (d0 :: l) -> Forall (fun e => key d <= key e) (d0 :: l) end) as Hgo.
  { intros d0 l. destruct (soonest_elem d0 l) as (d & E & Hin). rewrite E. split; [done|]. intros b Hc.
    destruct (soonest_spec b l d0 Hc) as (d' & E' & _ & Hmin). rewrite E in E'. by injection E' as <-. }
  intros Hl. destruct inherited as [|d0 [|]]; cbn [length app hd_error] in *; [|apply Hgo|lia].
  destruct ds as [|d0 ds]; [done|]. exact (Hgo d0 ds).
Qed.

(** ** Options *)
Definition valid_option (o : CancelOption) : Prop :=
  (exists d, 0 <= d /\ o = MkOption (Some d) None) \/ (exists i, o = MkOption None (Some i)).
Definition option_deadline (now : Instant) (o : CancelOption) : Deadline :=
  match deadline o with
  | Some i => NewDeadline i (MkSource Source_InitializedWithAbsoluteDeadline 0)
  | None => NewDeadline (Instant_Add now (default 0 (timeout o))) (MkSource Source_InitializedWithTimeout 0)
  end.

Section clock_laws.
Context {S E : Type} `{Sch : Scheduler S E} `{Q : Queue loc} (exceeded : Deadline -> E).

(** All timeouts count from one reading of the clock. *)
Lemma options_loop_spec opts tightest lazyNow s :
  Forall valid_option opts ->
  let now := match lazyNow with Some n => n | None => fst (GetInstant s) end in
  exists lazyNow' s', options_loop opts tightest lazyNow s = Ret (foldl soonest tightest (map (option_deadline now) opts), lazyNow', s') /\
    ((lazyNow' = lazyNow /\ s' = s) \/ (opts <> [] /\ lazyNow = None /\ lazyNow' = Some now /\ s' = snd (GetInstant s))).
Proof.
  intros Ho. revert tightest lazyNow s. induction Ho as [|o opts Ho _ IH]; intros tightest lazyNow s now.
  { exists lazyNow, s. split; [done|by left]. }
  destruct Ho as [(d & Hd & ->)|(i & ->)]; cbn [options_loop deadline timeout map foldl].
  - subst now. destruct lazyNow as [n|].
    + change (NewSource Source_InitializedWithTimeout 0) with (Ret (MkSource Source_InitializedWithTimeout 0)). rewrite bind_ret.
      destruct (IH (soonest tightest (NewDeadline (Instant_Add n d) (MkSource Source_InitializedWithTimeout 0))) (Some n) s)
        as (l' & s' & E' & Hor). exists l', s'. split; [exact E'|]. left. by destruct Hor as [?|(_ & ? & _)].
    + destruct (GetInstant s) as [n s1] eqn:Eg. cbn [fst].
      change (NewSource Source_InitializedWithTimeout 0) with (Ret (MkSource Source_InitializedWithTimeout 0)). rewrite bind_ret.
      destruct (IH (soonest tightest (NewDeadline (Instant_Add n d) (MkSource Source_InitializedWithTimeout 0))) (Some n) s1)
        as (l' & s' & E' & Hor). exists l', s'. split; [exact E'|]. right. destruct Hor as [[-> ->]|(_ & ? & _)]; [|done]. by split_and!.
  - change (NewSource Source_InitializedWithAbsoluteDeadline 0) with (Ret (MkSource Source_InitializedWithAbsoluteDeadline 0)).
    rewrite bind_ret.
    destruct (IH (soonest tightest (NewDeadline i (MkSource Source_InitializedWithAbsoluteDeadline 0))) lazyNow s) as (l' & s' & E' & Hor).
    exists l', s'. split; [exact E'|]. destruct Hor as [?|(_ & ?)]; [by left|by right].
Qed.

(** ** Parents *)
Definition any_loc (t : AnyToken) : option loc :=
  match t with NeverToken => None | RawToken p => Some p | ClockToken c => Some (child c) end.
Definition any_err (h : heap E) (t : AnyToken) : option E :=
  match any_loc t with Some p => match h !! p with Some tok => err tok | None => None end | None => None end.
Definition any_wf (h : heap E) (t : AnyToken) : Prop := match any_loc t with Some p => is_Some (h !! p) | None => True end.
Definition any_deadline (t : AnyToken) : option Deadline := match t with ClockToken c => cdeadline c | _ => None end.

Lemma Any_NewChild_spec fuel (h : heap E) t :
  CInv h [] [] -> any_wf h t -> Z.of_nat (size h) < MaxInt -> (Datatypes.S (size h) < fuel)%nat ->
  exists h' c tok, Any_NewChild fuel h t = Ret (h', c) /\ CInv h' [] [] /\ h !! c = None /\ h' !! c = Some tok /\
    err tok = any_err h t /\ size h' = Datatypes.S (size h).
Proof.
  intros HI Hwf Hsz Hf. assert (h !! fresh (dom h) = None) as Hfresh by apply fresh_lookup.
  assert (forall h' : heap E, dom h' =@{gset loc} {[fresh (dom h)]} ∪ dom h -> size h' = Datatypes.S (size h)) as Hsize.
  { intros h' Hd. rewrite <- !size_dom, Hd, size_union, size_singleton; [done|]. apply not_elem_of_dom in Hfresh. set_solver. }
  assert (Any_NewChild fuel h t = newChildToken fuel h (any_loc t)) as -> by by destruct t.
  unfold any_err, any_wf in *. destruct (any_loc t) as [p|].
  - destruct Hwf as [ptok Hp]. rewrite Hp. destruct (err ptok) as [e|] eqn:He.
    + destruct (newChild_canceled fuel h p ptok e HI Hp He Hsz Hf) as (h' & Er & HI' & (tok & Ht & _ & Het) & _ & Hd).
      exists h', (fresh (dom h)), tok. split_and!; try done. by apply Hsize.
    + destruct (newChild_alive fuel h p ptok HI Hp He) as (h' & Er & HI' & (tok & Ht & _ & Het) & _ & Hd).
      exists h', (fresh (dom h)), tok. split_and!; try done. by apply Hsize.
  - unfold newChildToken. exists (<[fresh (dom h) := fresh_token None]> h), (fresh (dom h)), (fresh_token None).
    split_and!; try done; [by apply alloc_spec|apply lookup_insert_eq|]. apply Hsize. by rewrite dom_insert_L.
Qed.

(** ** Main theorem *)

(** C12: [NewClockToken] picks the deadline of the new token among its parent's
    (one level further away), the absolute deadlines and the timeouts counted
    from a single reading of the clock, and there is none if there are none of
    these.  It is the soonest of them when the instants compare consistently,
    that is when all or none carry a monotonic reading.
    The token is a new child, canceled at birth with its parent's error if the
    parent is canceled; a deadline that has passed cancels it at once with a
    [DeadlineExceededError], any other one hands exactly that cancellation to
    the scheduler: the token is canceled with that error if the scheduler
    performs the work at once, and alive like its parent if it does not. *)
Theorem new_clock_token_spec (fuel : nat) (h : heap E) (s : S) (parent : AnyToken) (opts : list CancelOption)
  (HI : CInv h [] []) (Hp : any_wf h parent) (Hsz : Z.of_nat (size h) + 1 < MaxInt) (Hf : (Datatypes.S (Datatypes.S (size h)) < fuel)%nat)
  (Ho : Forall valid_option opts)
  (Hpd : match any_deadline parent with Some pd => wf_source (source pd) /\ ancestorLevel (source pd) < MaxInt | None => True end) :
  let now := fst (GetInstant s) in
  let inherited := match any_deadline parent with Some pd => [NewDeadline (instant pd) (child_source (source pd))] | None => [] end in
  let candidates := inherited ++ map (option_deadline now) opts in
  exists h' s' c tok, NewClockToken exceeded fuel h s parent opts = Ret (h', s', c) /\
    CInv h' [] [] /\ h !! child c = None /\ h' !! child c = Some tok /\
    match cdeadline c with
    | None => candidates = [] /\ err tok = any_err h parent /\ timer c = None /\ s' = s
    | Some d =>
        d ∈ candidates /\ wf_source (source d) /\
        (forall b, Forall (comparable b) candidates -> Forall (fun e => key d <= key e) candidates) /\
        let delay := Instant_Sub (instant d) now in
        let canceled := Some (default (exceeded d) (any_err h parent)) in
        if delay <=? 0 then err tok = canceled /\ timer c = None /\ s' = snd (GetInstant s)
        else
          exists performed tm, RunAfter (snd (GetInstant s)) delay (child c, exceeded d) = (performed, tm, s') /\
            timer c = Some tm /\ err tok = if (performed : bool) then canceled else any_err h parent
    end.
Proof.
  intros now inherited candidates. unfold NewClockToken.
  assert (parent_deadline parent = Ret (hd_error inherited) /\ Forall (fun d => wf_source (source d)) inherited) as [-> Hin].
  { subst inherited. unfold parent_deadline, any_deadline in *. destruct parent as [| |c]; [done..|].
    destruct (cdeadline c) as [pd|]; [|done]. destruct Hpd as [H1 H2]. destruct (ReinterpretForChild_spec pd H1 H2) as [-> Hw].
    split; [done|]. by repeat constructor. }
  rewrite bind_ret. destruct (options_loop_spec opts (hd_error inherited) None s Ho) as (l' & s1 & -> & Hor). rewrite bind_ret.
  fold now. unfold newClockTokenImpl.
  destruct (Any_NewChild_spec fuel h parent HI Hp) as (h1 & c & tok & -> & HI1 & Hfresh & Htok & Herr & Hsize); [lia..|].
  rewrite bind_ret.
  assert (length inherited <= 1)%nat as Hlen by (subst inherited; by destruct (any_deadline parent); cbn; lia).
  pose proof (tightest_spec inherited (map (option_deadline now) opts) Hlen) as Hts. fold candidates in Hts.
  assert (Forall (fun d => wf_source (source d)) candidates) as Hws.
  { apply Forall_app. split; [done|]. apply Forall_map, Forall_true. intros o. unfold option_deadline. by destruct (deadline o). }
  destruct (foldl soonest (hd_error inherited) (map (option_deadline now) opts)) as [d|].
  - destruct Hts as [Hd Hmin].
    assert ((match l' with Some n => (n, s1) | None => GetInstant s1 end) = (now, snd (GetInstant s))) as ->.
    { destruct Hor as [[-> ->]|(_ & _ & -> & ->)]; [|done]. subst now. by destruct (GetInstant s). }
    rewrite Forall_forall in Hws. specialize (Hws d Hd).
    assert (exists h2 tok', (c2 ← Cancel fuel h1 c (Some (exceeded d)); Ret c2.1) = Ret h2 /\ CInv h2 [] [] /\
      h2 !! c = Some tok' /\ err tok' = Some (default (exceeded d) (any_err h parent))) as (h2 & tok2 & Hcan & HI2 & Ht2 & He2).
    { pose proof (Cancel_spec fuel h1 c tok (exceeded d) HI1 Htok ltac:(lia) ltac:(lia)) as Hcan. rewrite Herr in Hcan.
      destruct (any_err h parent) as [e|]; [rewrite Hcan, bind_ret; by exists h1, tok|].
      destruct Hcan as (h2 & -> & HI2 & _ & tok' & Ht' & He'). rewrite bind_ret. by exists h2, tok'. }
    apply bind_Ret_iff in Hcan as ([h2' res] & -> & [= ->]).
    destruct (Z.leb_spec (Instant_Sub (instant d) now) 0) as [Hle|Hgt].
    + rewrite bind_ret. eexists _, _, _, tok2. split; [done|]. cbn [child cdeadline timer]. split_and!; try done.
      by rewrite (proj2 (Z.leb_le _ 0)).
    + destruct (RunAfter _ _ _) as [[[] tm] s2] eqn:Er; rewrite ?bind_ret; eexists _, _, _, _;
        (split; [done|]; cbn [child cdeadline timer]; split_and!; try done; rewrite (proj2 (Z.leb_gt _ 0)) by lia).
      * by exists true, tm.
      * by exists false, tm.
  - eexists _, _, _, tok. split; [done|]. cbn [child cdeadline timer]. split_and!; try done.
    destruct Hor as [[_ ->]|(Hne & _)]; [done|]. destruct opts; [done|]. by apply app_nil in Hts as [_ ?].
Qed.
End clock_laws.

(** ** A deterministic scheduler *)

(** A fixed clock, the longest delay it does not wait for, the next handle and the
    scheduled cancellations with their instants. *)
Record manual (E : Type) := MkManual { mclock : Instant; mnear : Z; mnext : positive; mqueue : gmap positive (Instant * (loc * E)) }.
Arguments MkManual {_} _ _ _ _.
Arguments mclock {_} _.
Arguments mnear {_} _.
Arguments mnext {_} _.
Arguments mqueue {_} _.
#[export] Instance manual_scheduler (E : Type) : Scheduler (manual E) E := {|
  GetInstant s := (mclock s, s);
  RunAfter s d f :=
    (d <=? mnear s, mnext s,
     MkManual (mclock s) (mnear s) (Pos.succ (mnext s))
       (if d <=? mnear s then mqueue s else <[mnext s := (Instant_Add (mclock s) d, f)]> (mqueue s)));
  Stop s tm := (match mqueue s !! tm with Some _ => StopResult_Stopped | None => StopResult_TooLate end,
                MkManual (mclock s) (mnear s) (mnext s) (delete tm (mqueue s))) |}.

Definition sample_clock (near : Z) : manual Z := MkManual (NewInstant (mono_time 4000000000 0 10 None)) near 1%positive ∅.
(** Two seconds from now, and one second by an absolute deadline. *)
Definition sample_options : list CancelOption :=
  [MkOption (Some (2 * Second)) None; MkOption None (Some (NewInstant (mono_time 4000000001 0 1000000010 None)))].

(** With a scheduler that queues the work, and with one that performs at once
    what is due within a second. *)
Lemma new_clock_token_spec_witness :
  CInv sample_heap [] [] /\
  (exists h' s' c tok, NewClockToken (Q := deque_queue 1%positive) (fun _ => 99) 10 sample_heap (sample_clock 0) (RawToken 4%positive) sample_options
      = Ret (h', s', c) /\
    (source <$> cdeadline c) = Some (MkSource Source_InitializedWithAbsoluteDeadline 0) /\
    h' !! child c = Some tok /\ err tok = None) /\
  (exists h' s' c tok, NewClockToken (Q := deque_queue 1%positive) (fun _ => 99) 10 sample_heap (sample_clock Second) (RawToken 4%positive) sample_options
      = Ret (h', s', c) /\ h' !! child c = Some tok /\ err tok = Some 99).
Proof.
  split; [exact sample_heap_CInv|].
  assert (Forall valid_option sample_options) as Ho.
  { constructor; [left; exists (2 * Second); split; [discriminate|reflexivity]|]. constructor; [right; eexists; reflexivity|constructor]. }
  split.
  - destruct (new_clock_token_spec (Q := deque_queue 1%positive) (fun _ : Deadline => 99) 10 sample_heap (sample_clock 0) (RawToken 4%positive)
      sample_options sample_heap_CInv) as (h' & s' & c & tok & Hrun & _ & _ & Ht & Hd);
      [by eexists|vm_compute; reflexivity|vm_compute; lia|exact Ho|exact I|].
    exists h', s', c, tok. split; [exact Hrun|]. vm_compute in Hrun. injection Hrun as <- <- <-.
    split; [vm_compute; reflexivity|]. split; [exact Ht|]. vm_compute in Ht. injection Ht as <-. reflexivity.
  - destruct (new_clock_token_spec (Q := deque_queue 1%positive) (fun _ : Deadline => 99) 10 sample_heap (sample_clock Second) (RawToken 4%positive)
      sample_options sample_heap_CInv) as (h' & s' & c & tok & Hrun & _ & _ & Ht & Hd);
      [by eexists|vm_compute; reflexivity|vm_compute; lia|exact Ho|exact I|].
    exists h', s', c, tok. split; [exact Hrun|]. vm_compute in Hrun. injection Hrun as <- <- <-.
    split; [exact Ht|]. vm_compute in Ht. injection Ht as <-. reflexivity.
Defined.
