(* ===== verification/FlatTree.v ===== *)
(** * Trees flattened in breadth-first order ([check/pbt/flat/tree.go])

    A node's links are [int32] indices into one slice.  The unfolding function
    is given by what it yields: [f seed] is the list of child seeds it passes to
    [yieldChild], in order, and the node's value; the callback escaping its call
    (the [active] flag) has no counterpart. *)
From S2P Require Import Prelude Core.

Definition MaxInt32 : Z := 2 ^ 31 - 1.
Definition rootParentIndex : Z := -1.

Record TreeID := MkTreeID { id_index : Z }.
#[export] Instance TreeID_eq_dec : EqDecision TreeID.
Proof. solve_decision. Defined.
Definition Index (id : TreeID) : Z := id_index id.
Definition Compare (id other : TreeID) : Z := id_index id - id_index other.

Record node (T : Type) := MkNode { value : T; parentIndex : Z; childStart : Z; childEnd : Z }.
Arguments MkNode {_} _ _ _ _.
Arguments value {_} _.
Arguments parentIndex {_} _.
Arguments childStart {_} _.
Arguments childEnd {_} _.

Record Tree (T : Type) := MkTree { nodes : list (node T) }.
Arguments MkTree {_} _.
Arguments nodes {_} _.

(** ** Building *)
Section unfold.
Context {Seed T : Type} (zero : T) (f : Seed -> list Seed * T).

(** The calls of [yieldChild] made by [f] at [index]. *)
Fixpoint yieldChildren (index : Z) (children : list Seed) (ns : list (node T)) (seeds : list Seed)
    : go (list (node T) * list Seed) :=
  match children with
  | [] => Ret (ns, seeds)
  | child :: children =>
      _ ← Precondition (zlen ns <? MaxInt32);
      yieldChildren index children (ns ++ [MkNode zero (int32 index) 0 0]) (seeds ++ [child])
  end.

Fixpoint unfold_loop (fuel : nat) (index : Z) (ns : list (node T)) (seeds : list Seed) : go (Tree T) :=
  match fuel with
  | O => OutOfFuel
  | S fuel =>
      if index <? zlen ns then
        let start := zlen ns in
        seed ← Prelude.index seeds index;
        let '(children, v) := f seed in
        '(ns, seeds) ← yieldChildren index children ns seeds;
        nd ← Prelude.index ns index;
        ns ← store ns index (MkNode v (parentIndex nd) (int32 start) (int32 (zlen ns)));
        unfold_loop fuel (index + 1) ns seeds
      else Ret (MkTree ns)
  end.
Definition UnfoldTree (fuel : nat) (root : Seed) : go (Tree T) :=
  unfold_loop fuel 0 [MkNode zero rootParentIndex 0 0] [root].
End unfold.

(** ** Reading *)
Section tree.
Context {T : Type}.
Implicit Types t : Tree T.

Definition NodeCount t : Z := zlen (nodes t).
Definition checkIndex t (i : Z) : go unit := Precondition ((0 <=? i) && (i <? NodeCount t)).
Definition checkID t (id : TreeID) : go unit := checkIndex t (Index id).
Definition ID t (i : Z) : go TreeID := _ ← checkIndex t i; Ret (MkTreeID (int32 i)).
Definition Value t (id : TreeID) : go T :=
  _ ← checkID t id; nd ← index (nodes t) (id_index id); Ret (value nd).
Definition ParentID t (id : TreeID) : go (option TreeID) :=
  _ ← checkID t id; nd ← index (nodes t) (id_index id);
  Ret (if parentIndex nd =? rootParentIndex then None else Some (MkTreeID (parentIndex nd))).

Fixpoint childIDs_loop (n : nat) (childIndex : Z) : list TreeID :=
  match n with
  | O => []
  | S n => MkTreeID childIndex :: childIDs_loop n (childIndex + 1)
  end.
Definition ChildIDs t (id : TreeID) : go (list TreeID) :=
  _ ← checkID t id; nd ← index (nodes t) (id_index id);
  _ ← make_slice tt (childEnd nd - childStart nd);
  Ret (childIDs_loop (Z.to_nat (childEnd nd - childStart nd)) (childStart nd)).

(** [markSubtree] and its loop over the children, the recursion bounded by fuel. *)
Fixpoint markSubtree (fuel : nat) t (root : TreeID) (marked : list bool) : go (list bool) :=
  match fuel with
  | O => OutOfFuel
  | S fuel =>
      _ ← checkID t root;
      m ← index marked (Index root);
      if (m : bool) then Ret marked
      else
        marked ← store marked (Index root) true;
        children ← ChildIDs t root;
        foldl (fun acc child => marked ← acc; markSubtree fuel t child marked) (Ret marked) children
  end.
Definition MarkSubtrees (fuel : nat) t (sortedIDs : list TreeID) : go (list bool) :=
  marked ← make_slice false (NodeCount t);
  foldl (fun acc id => marked ← acc; markSubtree fuel t id marked) (Ret marked) sortedIDs.
End tree.

(** ** The tree a seed unfolds to *)
Inductive rose (T : Type) := Rose (v : T) (children : list (rose T)).
Arguments Rose {_} _ _.
Fixpoint rose_size {T} (r : rose T) : nat :=
  match r with Rose _ rs => S (sum_list_with rose_size rs) end.

Inductive Unfolds {Seed T} (f : Seed -> list Seed * T) : Seed -> rose T -> Prop :=
  | UnfoldsNode s ss v rs : f s = (ss, v) -> Forall2 (Unfolds f) ss rs -> Unfolds f s (Rose v rs).

(** The tree stored at an id, read back through the public methods. *)
Fixpoint subtree {T} (fuel : nat) (t : Tree T) (id : TreeID) : go (rose T) :=
  match fuel with
  | O => OutOfFuel
  | S fuel =>
      v ← Value t id;
      ids ← ChildIDs t id;
      rs ← foldr (fun c acc => r ← subtree fuel t c; rs ← acc; Ret (r :: rs)) (Ret []) ids;
      Ret (Rose v rs)
  end.

(** ** Well-formed layouts

    [rs] gives, for each node, the tree below it: the children of a node are a
    contiguous range of later nodes, and each node but the first is in the range
    of its parent. *)
Record Layout {T} (ns : list (node T)) (rs : list (rose T)) (upto : nat) : Prop := {
  lay_len : length rs = length ns;
  lay_node i v cs : (i < upto)%nat -> rs !! i = Some (Rose v cs) ->
    exists nd (s : nat), ns !! i = Some nd /\ value nd = v /\ childStart nd = Z.of_nat s /\
      childEnd nd = Z.of_nat (s + length cs) /\ (i < s)%nat /\ (s + length cs <= length ns)%nat /\
      take (length cs) (drop s rs) = cs;
  lay_parent j nd : ns !! j = Some nd ->
    (j = 0%nat /\ parentIndex nd = rootParentIndex) \/
    exists i ind, parentIndex nd = Z.of_nat i /\ (i < j)%nat /\ (i < upto)%nat /\ ns !! i = Some ind /\
      childStart ind <= Z.of_nat j < childEnd ind;
  lay_order i j ndi ndj : (i < j < upto)%nat -> ns !! i = Some ndi -> ns !! j = Some ndj ->
    childEnd ndi <= childStart ndj
}.

(** ** Unfolding establishes the layout *)
Section unfold_spec.
Context {Seed T : Type} (zero : T) (f : Seed -> list Seed * T).

Lemma yieldChildren_spec idx cs ns (seeds : list Seed) :
  zlen ns + zlen cs <= MaxInt32 ->
  yieldChildren zero idx cs ns seeds =
    Ret (ns ++ replicate (length cs) (MkNode zero (int32 idx) 0 0), seeds ++ cs).
Proof.
  revert ns seeds. induction cs as [|c cs IH]; intros ns seeds Hlen; cbn [yieldChildren].
  { by rewrite !app_nil_r. }
  rewrite zlen_cons in Hlen. pose proof (zlen_nonneg cs).
  rewrite Precondition_true, bind_ret by (apply Z.ltb_lt; lia). rewrite IH by zlia.
  by rewrite <- !app_assoc.
Qed.

Definition sizes (rs : list (rose T)) : nat := sum_list_with rose_size rs.
Lemma sizes_app rs rs' : sizes (rs ++ rs') = (sizes rs + sizes rs')%nat.
Proof. apply sum_list_with_app. Qed.
Lemma sizes_length rs : (length rs <= sizes rs)%nat.
Proof. unfold sizes. induction rs as [|[v cs] rs IH]; cbn; lia. Qed.

Lemma layout_step ns rs i v cs nd :
  Layout ns rs i -> rs !! i = Some (Rose v cs) -> ns !! i = Some nd ->
  Z.of_nat (length ns + length cs) <= MaxInt32 ->
  Layout (<[i := MkNode v (parentIndex nd) (Z.of_nat (length ns)) (Z.of_nat (length ns + length cs))]>
            (ns ++ replicate (length cs) (MkNode zero (Z.of_nat i) 0 0))) (rs ++ cs) (S i).
Proof.
  intros [Hlen Hnode Hpar Hord] Hr Hn Hmax. pose proof (lookup_lt_Some _ _ _ Hn) as Hi.
  set (ns' := ns ++ _). set (nd' := MkNode _ _ _ _).
  assert (length ns' = length ns + length cs)%nat as Hlen' by (unfold ns'; by rewrite length_app, length_replicate).
  assert (forall j ndj, ns !! j = Some ndj -> j <> i -> <[i := nd']> ns' !! j = Some ndj) as Hold.
  { intros j ndj Hj Hji. rewrite list_lookup_insert_ne by done. unfold ns'. by apply lookup_app_l_Some. }
  assert (<[i := nd']> ns' !! i = Some nd') as Hnew by (apply list_lookup_insert_eq; lia).
  split.
  - rewrite length_insert, Hlen', length_app. lia.
  - intros j v' cs' Hj Hr'. destruct (decide (j = i)) as [->|Hji].
    + rewrite lookup_app_l in Hr' by lia. rewrite Hr in Hr'. injection Hr' as <- <-.
      exists nd', (length ns). split_and!; try done; [rewrite length_insert; lia|].
      rewrite <- Hlen, drop_app_length. apply firstn_all.
    + rewrite lookup_app_l in Hr' by lia.
      destruct (Hnode j v' cs' ltac:(lia) Hr') as (ndj & s & Hndj & Hv & Hs & He & Hjs & Hsl & Htake).
      exists ndj, s. split; [by apply Hold|]. split_and!; try done; [rewrite length_insert; lia|].
      rewrite drop_app_le, take_app_le by (rewrite ?length_drop; lia). done.
  - intros j ndj Hj. destruct (decide (j = i)) as [->|Hji].
    + rewrite Hnew in Hj. injection Hj as <-. destruct (Hpar i nd Hn) as [[-> ?]|(i0 & ind & ? & ? & ? & ? & ?)]; [by left|].
      right. exists i0, ind. split_and!; try done; try lia. apply Hold; [done|lia].
    + rewrite list_lookup_insert_ne in Hj by done. unfold ns' in Hj. apply lookup_app_Some in Hj as [Hj|[Hjl Hj]].
      * destruct (Hpar j ndj Hj) as [?|(i0 & ind & ? & ? & ? & ? & ?)]; [by left|].
        right. exists i0, ind. split_and!; try done; try lia. apply Hold; [done|lia].
      * apply lookup_replicate in Hj as [-> Hj]. right. exists i, nd'. split_and!; try done; cbn; lia.
  - intros j k ndj ndk Hjk Hj Hk. rewrite list_lookup_insert_ne in Hj by lia.
    unfold ns' in Hj. rewrite lookup_app_l in Hj by lia. destruct (decide (k = i)) as [->|Hki].
    + rewrite Hnew in Hk. injection Hk as <-. cbn [childStart nd'].
      destruct (lookup_lt_is_Some_2 rs j) as [[vj csj] Hrj]; [lia|].
      destruct (Hnode j vj csj ltac:(lia) Hrj) as (ndj' & sj & Hndj & _ & _ & He & _ & Hsl & _).
      assert (ndj' = ndj) as -> by congruence. lia.
    + rewrite list_lookup_insert_ne in Hk by done. unfold ns' in Hk. rewrite lookup_app_l in Hk by lia.
      apply (Hord j k); [lia|done|done].
Qed.

Lemma unfold_loop_spec fuel i ns seeds rs :
  Forall2 (Unfolds f) seeds rs -> Layout ns rs i -> (i <= length ns)%nat ->
  Z.of_nat (i + sizes (drop i rs)) <= MaxInt32 -> (sizes (drop i rs) < fuel)%nat ->
  exists t rs', unfold_loop zero f fuel (Z.of_nat i) ns seeds = Ret t /\
    Layout (nodes t) (rs ++ rs') (length (nodes t)) /\ length (nodes t) = (i + sizes (drop i rs))%nat.
Proof.
  revert i ns seeds rs. induction fuel as [|fuel IH]; intros i ns seeds rs Hun Hlay Hi Hmax Hf; [lia|].
  cbn [unfold_loop]. pose proof (lay_len _ _ _ Hlay) as Hlen. destruct (Z.ltb_spec (Z.of_nat i) (zlen ns)) as [Hlt|Hge].
  - unfold zlen in Hlt. destruct (lookup_lt_is_Some_2 rs i) as [r Hr]; [lia|].
    destruct (lookup_lt_is_Some_2 ns i) as [nd Hnd]; [lia|].
    destruct (Forall2_lookup_r _ _ _ _ _ Hun Hr) as (seed & Hseed & Hu). destruct Hu as [seed ss v cs Hf' Hcs].
    rewrite (index_nat _ i seed), bind_ret, Hf' by done.
    rewrite (drop_S rs (Rose v cs) i) in Hmax, Hf by done. cbn [sizes sum_list_with rose_size] in Hmax, Hf.
    fold (sizes cs) (sizes (drop (S i) rs)) in Hmax, Hf. pose proof (sizes_length cs) as Hcl.
    pose proof (sizes_length (drop (S i) rs)) as Hdl. rewrite length_drop in Hdl.
    pose proof (Forall2_length _ _ _ Hcs) as Hsc.
    rewrite yieldChildren_spec, bind_ret by (unfold zlen; lia). rewrite Hsc.
    rewrite (index_nat _ i nd), bind_ret by (by apply lookup_app_l_Some).
    rewrite store_in_range, bind_ret, Nat2Z.id by (unfold zlen; rewrite length_app; lia).
    rewrite zlen_app, zlen_replicate. unfold zlen. rewrite !int32_id, <- Nat2Z.inj_add by (unfold MaxInt32 in *; lia).
    pose proof (layout_step ns rs i v cs nd Hlay Hr Hnd ltac:(lia)) as Hlay'.
    assert (drop (S i) (rs ++ cs) = drop (S i) rs ++ cs) as Hdrop by (apply drop_app_le; lia).
    replace (Z.of_nat i + 1) with (Z.of_nat (S i)) by lia.
    match type of Hlay' with Layout ?ns2 _ _ =>
      destruct (IH (S i) ns2 (seeds ++ ss) (rs ++ cs)) as (t & rs' & E & HL & HN); [by apply Forall2_app|exact Hlay'|..]
    end.
    + rewrite length_insert, length_app. lia.
    + rewrite Hdrop, sizes_app. lia.
    + rewrite Hdrop, sizes_app. lia.
    + exists t, (cs ++ rs'). rewrite E, app_assoc. split_and!; [done|done|].
      rewrite HN, Hdrop, sizes_app, (drop_S rs (Rose v cs) i) by done. cbn [sizes sum_list_with rose_size].
      fold (sizes cs) (sizes (drop (S i) rs)). lia.
  - unfold zlen in Hge. assert (i = length ns) as -> by lia. exists (MkTree ns), []. rewrite app_nil_r. cbn [nodes].
    rewrite drop_ge by lia. cbn. split_and!; [done|done|lia].
Qed.
End unfold_spec.

(** ** Reading a layout *)
Section read_spec.
Context {T : Type} (t : Tree T) (rs : list (rose T)) (HL : Layout (nodes t) rs (length (nodes t))).

Definition tid (i : nat) : TreeID := MkTreeID (Z.of_nat i).

Lemma checkID_ok (i : nat) : (i < length (nodes t))%nat -> checkID t (tid i) = Ret tt.
Proof.
  intros Hi. unfold checkID, checkIndex, NodeCount, Index, zlen. cbn [id_index tid].
  apply Precondition_true, andb_true_intro. split; [apply Z.leb_le|apply Z.ltb_lt]; lia.
Qed.

Lemma childIDs_loop_spec n (s : nat) : childIDs_loop n (Z.of_nat s) = map tid (seq s n).
Proof.
  revert s. induction n as [|n IH]; intros s; [done|]. cbn [childIDs_loop seq map].
  replace (Z.of_nat s + 1) with (Z.of_nat (S s)) by lia. by rewrite IH.
Qed.

Lemma layout_parent_unique (i j : nat) ndi ndj :
  nodes t !! i = Some ndi -> nodes t !! j = Some ndj -> childStart ndi <= Z.of_nat j < childEnd ndi ->
  parentIndex ndj = Z.of_nat i.
Proof.
  intros Hi Hj Hr. pose proof (lookup_lt_Some _ _ _ Hi) as Hil.
  destruct (lookup_lt_is_Some_2 rs i) as [[v cs] Hri]; [rewrite (lay_len _ _ _ HL); lia|].
  destruct (lay_node _ _ _ HL i v cs Hil Hri) as (ndi' & s & Hi' & _ & Hs & _ & His & _).
  assert (ndi' = ndi) as -> by congruence.
  destruct (lay_parent _ _ _ HL j ndj Hj) as [[-> _]|(i0 & ind & Hp & _ & Hi0 & Hind & Hr0)]; [lia|].
  rewrite Hp. f_equal. destruct (Nat.lt_trichotomy i0 i) as [Hlt|[->|Hlt]]; [|done|].
  - pose proof (lay_order _ _ _ HL i0 i ind ndi ltac:(lia) Hind Hi). lia.
  - pose proof (lay_order _ _ _ HL i i0 ndi ind ltac:(lia) Hi Hind). lia.
Qed.

Lemma layout_read (i : nat) v cs :
  rs !! i = Some (Rose v cs) ->
  exists s : nat, Value t (tid i) = Ret v /\ ChildIDs t (tid i) = Ret (map tid (seq s (length cs))) /\
    (i < s)%nat /\ (s + length cs <= length (nodes t))%nat /\
    (forall k c, cs !! k = Some c -> rs !! (s + k)%nat = Some c) /\
    (forall k, (k < length cs)%nat -> ParentID t (tid (s + k)) = Ret (Some (tid i))).
Proof using HL.
  intros Hr. pose proof (lookup_lt_Some _ _ _ Hr) as Hi. rewrite (lay_len _ _ _ HL) in Hi.
  destruct (lay_node _ _ _ HL i v cs Hi Hr) as (nd & s & Hnd & Hv & Hs & He & His & Hsl & Htake).
  exists s. split_and!; try lia.
  - unfold Value. rewrite checkID_ok, bind_ret by done. cbn [id_index tid]. rewrite (index_nat _ i nd), bind_ret by done. by rewrite Hv.
  - unfold ChildIDs. rewrite checkID_ok, bind_ret by done. cbn [id_index tid]. rewrite (index_nat _ i nd), bind_ret by done.
    rewrite Hs, He. replace (Z.of_nat (s + length cs) - Z.of_nat s) with (Z.of_nat (length cs)) by lia.
    unfold make_slice. rewrite (proj2 (Z.leb_le _ _)) by lia. rewrite bind_ret, Nat2Z.id. by rewrite childIDs_loop_spec.
  - intros k c Hk. pose proof (lookup_lt_Some _ _ _ Hk). rewrite <- Htake in Hk.
    rewrite lookup_take_lt, lookup_drop in Hk by lia. done.
  - intros k Hk. destruct (lookup_lt_is_Some_2 (nodes t) (s + k)) as [ndk Hndk]; [lia|].
    unfold ParentID. rewrite checkID_ok, bind_ret by lia. cbn [id_index tid]. rewrite (index_nat _ _ ndk), bind_ret by done.
    rewrite (layout_parent_unique i (s + k) nd ndk Hnd Hndk) by lia.
    rewrite (proj2 (Z.eqb_neq _ _)) by (unfold rootParentIndex; lia). done.
Qed.

Lemma subtree_spec fuel (i : nat) r :
  rs !! i = Some r -> (length (nodes t) - i < fuel)%nat -> subtree fuel t (tid i) = Ret r.
Proof using HL.
  revert i r. induction fuel as [|fuel IH]; intros i [v cs] Hr Hf; [lia|]. cbn [subtree].
  destruct (layout_read i v cs Hr) as (s & HV & HC & His & Hsl & Hcs & _). rewrite HV, bind_ret, HC, bind_ret.
  enough (forall (l : list (rose T)) (a : nat), (s <= a)%nat -> (forall k c, l !! k = Some c -> rs !! (a + k)%nat = Some c) ->
    foldr (fun c acc => r ← subtree fuel t c; rs0 ← acc; Ret (r :: rs0)) (Ret []) (map tid (seq a (length l))) = Ret l) as Hl.
  { rewrite Hl by done. done. }
  induction l as [|c l IHl]; intros a Ha Hk; [done|]. cbn [length seq map foldr].
  rewrite (IH a c), bind_ret; [|specialize (Hk 0%nat c eq_refl); by rewrite Nat.add_0_r in Hk|lia].
  rewrite IHl, bind_ret; [done|lia|]. intros k c' Hk'. specialize (Hk (S k) c' Hk'). by rewrite Nat.add_succ_r in Hk.
Qed.

(** ** Marking subtrees *)

(** [j] is a child of [i]; [below i j]: [j] is in the subtree of [i]. *)
Definition child (i j : nat) : Prop :=
  exists nd, nodes t !! i = Some nd /\ childStart nd <= Z.of_nat j < childEnd nd.
Definition below : nat -> nat -> Prop := rtc child.
Definition is_marked (marked : list bool) (j : nat) : Prop := marked !! j = Some true.
(** From [lo] on, everything below a marked node is marked. *)
Definition closed (lo : nat) (marked : list bool) : Prop :=
  forall a b, (lo <= a)%nat -> is_marked marked a -> child a b -> is_marked marked b.

Lemma child_children i v cs s :
  rs !! i = Some (Rose v cs) -> ChildIDs t (tid i) = Ret (map tid (seq s (length cs))) ->
  forall j, child i j <-> j ∈ seq s (length cs).
Proof using HL.
  intros Hr HC j. pose proof (lookup_lt_Some _ _ _ Hr) as Hi. rewrite (lay_len _ _ _ HL) in Hi.
  destruct (lay_node _ _ _ HL i v cs Hi Hr) as (nd & s' & Hnd & _ & Hs & He & _).
  assert (cs = [] \/ s' = s) as Hss.
  { unfold ChildIDs in HC. rewrite checkID_ok, bind_ret in HC by done. cbn [id_index tid] in HC.
    rewrite (index_nat _ i nd), bind_ret, Hs, He in HC by done.
    replace (Z.of_nat (s' + length cs) - Z.of_nat s') with (Z.of_nat (length cs)) in HC by lia.
    unfold make_slice in HC. rewrite (proj2 (Z.leb_le _ _)), bind_ret, Nat2Z.id, childIDs_loop_spec in HC by lia.
    destruct cs; [by left|right]. cbn [length seq map] in HC. injection HC. lia. }
  rewrite elem_of_seq. unfold child. split.
  - intros (nd' & Hnd' & Hj). assert (nd' = nd) as -> by congruence. destruct Hss as [->| ->]; cbn in *; lia.
  - intros Hj. exists nd. split; [done|]. destruct Hss as [->| ->]; cbn in *; lia.
Qed.

Lemma child_lt i j : child i j -> (i < j < length (nodes t))%nat.
Proof using HL.
  intros (nd & Hnd & Hj). pose proof (lookup_lt_Some _ _ _ Hnd) as Hi.
  destruct (lookup_lt_is_Some_2 rs i) as [[v cs] Hri]; [rewrite (lay_len _ _ _ HL); lia|].
  destruct (lay_node _ _ _ HL i v cs Hi Hri) as (nd' & s & Hnd' & _ & Hs & He & His & Hsl & _).
  assert (nd' = nd) as -> by congruence. lia.
Qed.
Lemma below_le i j : below i j -> (i <= j)%nat.
Proof using HL. induction 1 as [|? ? ? H%child_lt]; lia. Qed.

Lemma closed_below lo marked i j : closed lo marked -> (lo <= i)%nat -> is_marked marked i -> below i j -> is_marked marked j.
Proof using HL.
  intros Hc Hlo Hm Hb. revert Hlo Hm. induction Hb as [|a b c Hab _ IH]; intros Hlo Hm; [done|].
  apply IH; [apply child_lt in Hab; lia|by apply (Hc a b)].
Qed.

(** [marks ids marked marked']: exactly what is below [ids] has been added. *)
Definition marks (ids : list nat) (marked marked' : list bool) : Prop :=
  length marked' = length marked /\
  forall j, is_marked marked' j <-> is_marked marked j \/ exists i, i ∈ ids /\ below i j.

Lemma marks_closed ids lo marked marked' : marks ids marked marked' -> closed lo marked -> closed lo marked'.
Proof using HL.
  intros [_ Hm] Hc a b Hlo Ha Hab. apply Hm. apply Hm in Ha as [Ha|(i & Hi & Hia)].
  - left. by apply (Hc a b).
  - right. exists i. split; [done|]. eapply rtc_r; [exact Hia|done].
Qed.

Lemma marks_foldl fuel lo ids marked :
  (forall i m, i ∈ ids -> closed lo m -> length m = length (nodes t) ->
     exists m', markSubtree fuel t (tid i) m = Ret m' /\ marks [i] m m') ->
  closed lo marked -> length marked = length (nodes t) ->
  exists marked', foldl (fun acc c => m ← acc; markSubtree fuel t c m) (Ret marked) (map tid ids) = Ret marked' /\
    marks ids marked marked'.
Proof using HL.
  revert marked. induction ids as [|i ids IH]; intros marked Hstep Hc Hl; cbn [map foldl].
  { exists marked. split; [done|]. split; [done|]. set_solver. }
  destruct (Hstep i marked ltac:(set_solver) Hc Hl) as (m1 & E1 & Hm1). rewrite bind_ret, E1.
  destruct (IH m1) as (m' & E' & [Hl' Hm']).
  - intros i' m Hi'. apply Hstep. set_solver.
  - by eapply marks_closed.
  - rewrite (proj1 Hm1). done.
  - exists m'. split; [done|]. destruct Hm1 as [Hl1 Hm1]. split; [congruence|]. intros j. rewrite Hm', Hm1. set_solver.
Qed.

Lemma markSubtree_spec fuel (i lo : nat) marked :
  (i < length (nodes t))%nat -> (lo <= i)%nat -> closed lo marked -> length marked = length (nodes t) ->
  (length (nodes t) - i < fuel)%nat ->
  exists marked', markSubtree fuel t (tid i) marked = Ret marked' /\ marks [i] marked marked'.
Proof using HL.
  revert i lo marked. induction fuel as [|fuel IH]; intros i lo marked Hi Hlo Hc Hl Hf; [lia|].
  cbn [markSubtree]. rewrite checkID_ok, bind_ret by done. unfold Index. cbn [id_index tid].
  destruct (lookup_lt_is_Some_2 marked i) as [m Hm]; [lia|]. rewrite (index_nat _ i m), bind_ret by done.
  destruct m.
  - exists marked. split; [done|]. split; [done|]. intros j. split; [by left|]. intros [?|(i' & ->%list_elem_of_singleton & Hb)]; [done|].
    by apply (closed_below lo marked i j).
  - destruct (lookup_lt_is_Some_2 rs i) as [[v cs] Hri]; [rewrite (lay_len _ _ _ HL); lia|].
    destruct (layout_read i v cs Hri) as (s & _ & HC & His & Hsl & _).
    pose proof (child_children i v cs s Hri HC) as Hchild.
    rewrite store_in_range, bind_ret, Nat2Z.id, HC, bind_ret by (unfold zlen; lia).
    set (m1 := <[i := true]> marked).
    assert (forall j, is_marked m1 j <-> j = i \/ is_marked marked j) as Hm1.
    { intros j. unfold is_marked, m1. destruct (decide (j = i)) as [->|Hji].
      - rewrite list_lookup_insert_eq by lia. intuition.
      - rewrite list_lookup_insert_ne by done. intuition. }
    assert (length m1 = length (nodes t)) as Hl1 by (unfold m1; by rewrite length_insert).
    destruct (marks_foldl fuel (S i) (seq s (length cs)) m1) as (m2 & -> & [Hl2 Hm2]); [| |done|].
    + intros k m Hk Hcm Hlm. apply elem_of_seq in Hk. apply (IH k (S i)); [lia|lia|done|done|lia].
    + intros a b Hla Ha Hab. apply Hm1. apply Hm1 in Ha as [->|Ha]; [lia|]. right. apply (Hc a b); [lia|done|done].
    + exists m2. split; [done|]. split; [congruence|]. intros j. rewrite Hm2, Hm1. split.
      * intros [[->|?]|(k & Hk & Hb)]; [right; exists i; split; [set_solver|apply rtc_refl]|by left|].
        right. exists i. split; [set_solver|]. eapply rtc_l; [by apply Hchild|exact Hb].
      * intros [?|(i' & ->%list_elem_of_singleton & Hb)]; [by left; right|].
        apply rtc_inv in Hb as [->|(k & Hk & Hb)]; [by left; left|]. right. exists k. split; [by apply Hchild|done].
Qed.
End read_spec.

(** ** Main theorems *)

(** C20: for a seed that unfolds to a finite tree of at most [MaxInt32] nodes,
    [UnfoldTree] terminates and stores that tree: it has one node per tree node,
    reading it back from the root through [Value] and [ChildIDs] gives the tree
    itself, the children of every node are consecutive later ids, and [ParentID]
    inverts [ChildIDs] and is [None] at the root. *)
Theorem unfold_tree_roundtrip {Seed T} (zero : T) (f : Seed -> list Seed * T) (root : Seed) (r : rose T) (fuel : nat)
  (Hun : Unfolds f root r) (Hsize : Z.of_nat (rose_size r) <= MaxInt32) (Hfuel : (rose_size r < fuel)%nat) :
  exists t, UnfoldTree zero f fuel root = Ret t /\ NodeCount t = Z.of_nat (rose_size r) /\
    subtree (S (rose_size r)) t (MkTreeID 0) = Ret r /\ ParentID t (MkTreeID 0) = Ret None /\
    forall i : nat, (i < rose_size r)%nat -> exists (s : nat) n, (i < s)%nat /\
      ChildIDs t (tid i) = Ret (map tid (seq s n)) /\
      forall k, (k < n)%nat -> ParentID t (tid (s + k)) = Ret (Some (tid i)).
Proof.
  unfold UnfoldTree. destruct (unfold_loop_spec zero f fuel 0 [MkNode zero rootParentIndex 0 0] [root] [r])
    as (t & rs' & E & HL & HN).
  - by constructor.
  - split; [done|lia| |lia]. intros j nd Hj. apply list_lookup_singleton_Some in Hj as [-> <-]. by left.
  - cbn. lia.
  - cbn. rewrite Nat.add_0_r. done.
  - cbn. lia.
  - cbn in HN. rewrite Nat.add_0_r in HN. exists t. split; [exact E|]. split; [unfold NodeCount, zlen; by rewrite HN|].
    assert (0 < rose_size r)%nat as Hpos by (destruct r; cbn; lia). split; [|split].
    + apply (subtree_spec t _ HL _ 0); [done|lia].
    + destruct (lookup_lt_is_Some_2 (nodes t) 0) as [nd Hnd]; [lia|].
      destruct (lay_parent _ _ _ HL 0 nd Hnd) as [[_ Hp]|(? & ? & _ & ? & _)]; [|lia].
      change (MkTreeID 0) with (tid 0). unfold ParentID. rewrite (checkID_ok t 0), bind_ret by lia. cbn [id_index tid]. rewrite (index_nat _ 0 nd), bind_ret by done.
      by rewrite Hp.
    + intros i Hi. destruct (lookup_lt_is_Some_2 ([r] ++ rs') i) as [[v cs] Hri].
      { rewrite (lay_len _ _ _ HL). lia. }
      destruct (layout_read t _ HL i v cs Hri) as (s & _ & HC & His & _ & _ & HP). exists s, (length cs). done.
Qed.

(** on a well-formed tree [MarkSubtrees] terminates and marks exactly the
    nodes below one of the given ids, whatever their order and overlaps. *)
Theorem mark_subtrees_spec {T} (t : Tree T) (rs : list (rose T)) (ids : list nat) (fuel : nat)
  (HL : Layout (nodes t) rs (length (nodes t))) (Hids : Forall (fun i => (i < length (nodes t))%nat) ids)
  (Hfuel : (length (nodes t) < fuel)%nat) :
  exists marked, MarkSubtrees fuel t (map tid ids) = Ret marked /\ length marked = length (nodes t) /\
    forall j, marked !! j = Some true <-> exists i, i ∈ ids /\ below t i j.
Proof.
  unfold MarkSubtrees, make_slice, NodeCount. rewrite (proj2 (Z.leb_le _ _)) by apply zlen_nonneg.
  rewrite bind_ret. unfold zlen. rewrite Nat2Z.id. set (m0 := replicate _ false).
  assert (forall j, ~ is_marked m0 j) as Hm0.
  { intros j Hj. unfold is_marked, m0 in Hj. by apply lookup_replicate in Hj as [? _]. }
  destruct (marks_foldl t rs HL fuel 0 ids m0) as (m & E & [Hl Hm]).
  - intros i m Hi Hc Hlm. rewrite Forall_forall in Hids. specialize (Hids i Hi).
    apply (markSubtree_spec t rs HL fuel i 0); [done|lia|done|done|lia].
  - intros a b _ Ha. by apply Hm0 in Ha.
  - unfold m0. by rewrite length_replicate.
  - exists m. split; [exact E|]. split; [rewrite Hl; unfold m0; by rewrite length_replicate|].
    intros j. rewrite (Hm j). split; [|by right]. intros [H%Hm0|H]; [done|exact H].
Qed.

(** The tree of 2 with children 1 (with child 0) and 0. *)
Definition sample_unfold (seed : Z) : list Z * Z :=
  (if seed =? 2 then [1; 0] else if seed =? 1 then [0] else [], seed * 10).
Definition sample_rose : rose Z := Rose 20 [Rose 10 [Rose 0 []]; Rose 0 []].
Lemma sample_unfolds : Unfolds sample_unfold 2 sample_rose.
Proof.
  assert (Unfolds sample_unfold 0 (Rose 0 [])) as H0 by (by apply (UnfoldsNode _ 0 [])).
  assert (Unfolds sample_unfold 1 (Rose 10 [Rose 0 []])) as H1.
  { apply (UnfoldsNode _ 1 [0]); [done|]. by constructor. }
  apply (UnfoldsNode _ 2 [1; 0]); [done|]. by repeat constructor.
Qed.

Lemma unfold_tree_roundtrip_witness :
  Unfolds sample_unfold 2 sample_rose /\
  exists t, UnfoldTree 0 sample_unfold 5 2 = Ret t /\ subtree 5 t (MkTreeID 0) = Ret sample_rose.
Proof.
  split; [exact sample_unfolds|].
  destruct (unfold_tree_roundtrip 0 sample_unfold 2 sample_rose 5 sample_unfolds) as (t & E & _ & Hs & _);
    [vm_compute; discriminate|vm_compute; lia|].
  exists t. split; [exact E|exact Hs].
Defined.

Lemma sample_layout :
  exists t rs, UnfoldTree 0 sample_unfold 5 2 = Ret t /\ Layout (nodes t) rs (length (nodes t)).
Proof.
  destruct (unfold_loop_spec 0 sample_unfold 5 0 [MkNode 0 rootParentIndex 0 0] [2] [sample_rose])
    as (t & rs' & E & HL & _); [constructor; [apply sample_unfolds|constructor]| |cbn; lia|vm_compute; discriminate|vm_compute; lia|eauto].
  split; [done|lia| |lia]. intros j nd Hj. apply list_lookup_singleton_Some in Hj as [-> <-]. by left.
Qed.

Lemma mark_subtrees_spec_witness :
  exists t marked, UnfoldTree 0 sample_unfold 5 2 = Ret t /\
    MarkSubtrees 6 t (map tid [1; 3]%nat) = Ret marked /\ length marked = 4%nat.
Proof.
  destruct sample_layout as (t & rs & E & HL). assert (length (nodes t) = 4%nat) as Hn.
  { vm_compute in E. injection E as <-. reflexivity. }
  destruct (mark_subtrees_spec t rs [1; 3]%nat 6 HL) as (marked & Em & Hl & _).
  - rewrite Hn. repeat constructor; lia.
  - rewrite Hn. lia.
  - exists t, marked. rewrite Hl. split; [exact E|]. split; [exact Em|exact Hn].
Defined.
