(* ===== verification/FsOpt.v ===== *)
(** * Options for opening files ([fsx/fsx_opt/open.go], [fsx/open.go])

    The builder of [OpenOptions], the check that [Build] makes, and the flags and
    permissions that [fsx] passes to the operating system.  The Go enumerations
    are [uint8]s: a value that is none of the constants is [.._Other]. *)
From S2P Require Import Prelude Core.
#[local] Open Scope Z_scope.

Inductive OpenRW := OpenRW_ReadOnly | OpenRW_WriteOnly | OpenRW_ReadWrite | OpenRW_Other (k : Z).
Inductive OpenMode := OpenMode_Existing | OpenMode_CreateOrKeep | OpenMode_CreateNew | OpenMode_Other (k : Z).
#[export] Instance OpenRW_eq_dec : EqDecision OpenRW.
Proof. solve_decision. Defined.
#[export] Instance OpenMode_eq_dec : EqDecision OpenMode.
Proof. solve_decision. Defined.

Record OpenOptions := MkOpenOptions { rw : OpenRW; mode : OpenMode; append : bool; truncate : bool }.

Definition OpenOptions_RW (o : OpenOptions) : OpenRW := rw o.
Definition OpenOptions_Mode (o : OpenOptions) : OpenMode := mode o.
Definition OpenOptions_Append (o : OpenOptions) : bool := append o.
Definition OpenOptions_TruncateIfPresent (o : OpenOptions) : bool := truncate o.

Definition OpenRW_String (r : OpenRW) : go gostring :=
  match r with
  | OpenRW_ReadOnly => Ret (str "OpenRW_ReadOnly")
  | OpenRW_WriteOnly => Ret (str "OpenRW_WriteOnly")
  | OpenRW_ReadWrite => Ret (str "OpenRW_ReadWrite")
  | OpenRW_Other _ => PanicUnknownCase
  end.
Definition OpenRW_Label (r : OpenRW) : go gostring :=
  match r with
  | OpenRW_ReadOnly => Ret (str "read-only")
  | OpenRW_WriteOnly => Ret (str "write-only")
  | OpenRW_ReadWrite => Ret (str "read-write")
  | OpenRW_Other _ => PanicUnknownCase
  end.
Definition OpenMode_String (m : OpenMode) : go gostring :=
  match m with
  | OpenMode_Existing => Ret (str "OpenMode_Existing")
  | OpenMode_CreateOrKeep => Ret (str "OpenMode_CreateOrKeep")
  | OpenMode_CreateNew => Ret (str "OpenMode_CreateNew")
  | OpenMode_Other _ => PanicUnknownCase
  end.

(** ** The builder *)
Record OpenOptionsBuilder :=
  MkBuilder { brw : OpenRW; bmode : OpenMode; bappend : bool; btruncate : bool }.

Definition Open_ (r : OpenRW) : go OpenOptionsBuilder :=
  _ ← match r with OpenRW_Other _ => Precondition false | _ => Ret tt end;
  Ret (MkBuilder r OpenMode_Existing false false).
Definition WithMode (b : OpenOptionsBuilder) (m : OpenMode) : go OpenOptionsBuilder :=
  _ ← match m with OpenMode_Other _ => Precondition false | _ => Ret tt end;
  Ret (MkBuilder (brw b) m (bappend b) (btruncate b)).
Definition WithAppend (b : OpenOptionsBuilder) (v : bool) : OpenOptionsBuilder :=
  MkBuilder (brw b) (bmode b) v (btruncate b).
Definition WithTruncateIfPresent (b : OpenOptionsBuilder) (v : bool) : OpenOptionsBuilder :=
  MkBuilder (brw b) (bmode b) (bappend b) v.

Inductive OpenOptionsBuildErrorKind :=
  OpenOptionsBuildErrorKind_MissingWritePermission | OpenOptionsBuildErrorKind_Other (k : Z).
Record OpenOptionsBuildError := MkBuildError { ekind : OpenOptionsBuildErrorKind; neededBy : gostring }.
Definition NewOpenOptionsBuildError (kind : OpenOptionsBuildErrorKind) (needed : gostring) : OpenOptionsBuildError :=
  MkBuildError kind needed.
Definition BuildError_Kind (e : OpenOptionsBuildError) : OpenOptionsBuildErrorKind := ekind e.
Definition BuildError_NeededBy (e : OpenOptionsBuildError) : gostring := neededBy e.
Definition BuildError_Error (e : OpenOptionsBuildError) : go gostring :=
  match ekind e with
  | OpenOptionsBuildErrorKind_MissingWritePermission =>
      Ret (neededBy e ++ str " requires OpenRW_WriteOnly or OpenRW_ReadWrite")
  | OpenOptionsBuildErrorKind_Other _ => PanicUnknownCase
  end.
Definition missingWritePerm (needed : gostring) : OpenOptionsBuildError :=
  NewOpenOptionsBuildError OpenOptionsBuildErrorKind_MissingWritePermission needed.

Definition Build (b : OpenOptionsBuilder) : go (OpenOptions + OpenOptionsBuildError) :=
  let opts := MkOpenOptions (brw b) (bmode b) (bappend b) (btruncate b) in
  match brw b with
  | OpenRW_ReadOnly =>
      if negb (bool_decide (bmode b = OpenMode_Existing)) then
        s ← OpenMode_String (bmode b); Ret (inr (missingWritePerm s))
      else if btruncate b then Ret (inr (missingWritePerm (str "OpenOptions.TruncateIfPresent=true")))
      else if bappend b then Ret (inr (missingWritePerm (str "OpenOptions.Append=true")))
      else Ret (inl opts)
  | OpenRW_WriteOnly | OpenRW_ReadWrite => Ret (inl opts)
  | OpenRW_Other _ => PanicUnknownCase
  end.
Definition MustBuild (b : OpenOptionsBuilder) : go OpenOptions :=
  r ← Build b;
  match r with
  | inl opts => Ret opts
  | inr _ => _ ← Precondition false; Ret (MkOpenOptions (OpenRW_Other 0) (OpenMode_Other 0) false false)
  end.

(** ** What the operating system is asked for *)

(** The flags of [os], whose values on Linux and on Windows are the same. *)
Definition O_RDONLY : Z := 0x0.
Definition O_WRONLY : Z := 0x1.
Definition O_RDWR : Z := 0x2.
Definition O_APPEND : Z := 0x400.
Definition O_CREATE : Z := 0x40.
Definition O_EXCL : Z := 0x80.
Definition O_TRUNC : Z := 0x200.

Definition openFlags (opts : OpenOptions) : go Z :=
  flags ← match OpenOptions_RW opts with
          | OpenRW_ReadOnly => Ret O_RDONLY
          | OpenRW_WriteOnly => Ret O_WRONLY
          | OpenRW_ReadWrite => Ret O_RDWR
          | OpenRW_Other _ => PanicUnknownCase
          end;
  let flags := if OpenOptions_Append opts then Z.lor flags O_APPEND else flags in
  let flags := if OpenOptions_TruncateIfPresent opts then Z.lor flags O_TRUNC else flags in
  match OpenOptions_Mode opts with
  | OpenMode_Existing => Ret flags
  | OpenMode_CreateOrKeep => Ret (Z.lor flags O_CREATE)
  | OpenMode_CreateNew => Ret (Z.lor flags (Z.lor O_CREATE O_EXCL))
  | OpenMode_Other _ => PanicUnknownCase
  end.
(** [0o666] is 438. *)
Definition openPerm (opts : OpenOptions) : go Z :=
  match OpenOptions_Mode opts with
  | OpenMode_Existing => Ret 0
  | OpenMode_CreateOrKeep | OpenMode_CreateNew => Ret 438
  | OpenMode_Other _ => PanicUnknownCase
  end.

Definition NewOpenOptions (r : OpenRW) : go OpenOptionsBuilder := Open_ r.

(** [OpenFile] of the rooted file system over a base that opens by name. *)
Section open.
Context {File Err : Type} (base_OpenFile : gostring -> Z -> Z -> File + Err).
Definition OpenFile (rel : gostring) (opts : OpenOptions) : go (File + Err) :=
  flags ← openFlags opts; perm ← openPerm opts; Ret (base_OpenFile rel flags perm).
Definition OpenReadOnly (rel : gostring) : go (File + Err) :=
  b ← NewOpenOptions OpenRW_ReadOnly; opts ← MustBuild b; OpenFile rel opts.
End open.

(** ** Properties *)

(** The sequences of builder calls a client can make. *)
Inductive builder_call := CallWithMode (m : OpenMode) | CallWithAppend (v : bool) | CallWithTruncate (v : bool).
Definition run_builder_call (b : OpenOptionsBuilder) (c : builder_call) : go OpenOptionsBuilder :=
  match c with
  | CallWithMode m => WithMode b m
  | CallWithAppend v => Ret (WithAppend b v)
  | CallWithTruncate v => Ret (WithTruncateIfPresent b v)
  end.
Definition run_builder (r : OpenRW) (cs : list builder_call) : go OpenOptionsBuilder :=
  foldl (fun acc c => b ← acc; run_builder_call b c) (Open_ r) cs.

(** The value a setting ends up with: the last one it was given. *)
Definition setting {V} (get : builder_call -> option V) (initial : V) (cs : list builder_call) : V :=
  foldl (fun v c => match get c with Some v' => v' | None => v end) initial cs.
Definition get_mode (c : builder_call) : option OpenMode := match c with CallWithMode m => Some m | _ => None end.
Definition get_append (c : builder_call) : option bool := match c with CallWithAppend v => Some v | _ => None end.
Definition get_truncate (c : builder_call) : option bool := match c with CallWithTruncate v => Some v | _ => None end.

Definition known_rw (r : OpenRW) : bool := match r with OpenRW_Other _ => false | _ => true end.
Definition known_mode (m : OpenMode) : bool := match m with OpenMode_Other _ => false | _ => true end.
Definition known_call (c : builder_call) : bool := match c with CallWithMode m => known_mode m | _ => true end.

(** What the flags mean to the operating system. *)
Definition decode_access (flags : Z) : option OpenRW :=
  match Z.land flags 3 with
  | 0 => Some OpenRW_ReadOnly
  | 1 => Some OpenRW_WriteOnly
  | 2 => Some OpenRW_ReadWrite
  | _ => None
  end.
Definition decode_flags (flags : Z) : option OpenOptions :=
  r ← decode_access flags;
  let creates := Z.testbit flags 6 in
  let exclusive := Z.testbit flags 7 in
  m ← (if creates then Some (if exclusive then OpenMode_CreateNew else OpenMode_CreateOrKeep)
       else if exclusive then None else Some OpenMode_Existing);
  if bool_decide (Z.ldiff flags (3 + O_CREATE + O_EXCL + O_TRUNC + O_APPEND) = 0)
  then Some (MkOpenOptions r m (Z.testbit flags 10) (Z.testbit flags 9)) else None.

Definition writes (o : OpenOptions) : bool := negb (bool_decide (mode o = OpenMode_Existing)) || append o || truncate o.

Lemma openFlags_decode o :
  known_rw (rw o) = true -> known_mode (mode o) = true ->
  exists flags, openFlags o = Ret flags /\ decode_flags flags = Some o.
Proof. destruct o as [[] [] [] []]; cbn; try done; intros _ _; eexists; (split; [reflexivity|vm_compute; reflexivity]). Qed.

(** The state of the builder after a sequence of calls, or the panic. *)
Definition built (b : OpenOptionsBuilder) (cs : list builder_call) : OpenOptionsBuilder :=
  MkBuilder (brw b) (setting get_mode (bmode b) cs) (setting get_append (bappend b) cs) (setting get_truncate (btruncate b) cs).

Lemma run_builder_calls cs b :
  foldl (fun acc c => b ← acc; run_builder_call b c) (Ret b) cs =
    (if forallb known_call cs then Ret (built b cs) else Panic PreconditionViolation).
Proof.
  assert (forall k, foldl (fun acc c => b ← acc; run_builder_call b c) (Panic k) cs = Panic k) as Hp by (by induction cs).
  revert Hp. revert b. induction cs as [|c cs IH]; intros b Hp; [by destruct b|].
  assert (forall k, foldl (fun acc c => b ← acc; run_builder_call b c) (Panic k) cs = Panic k) as Hp' by (intros k; apply (Hp k)).
  cbn [foldl forallb]. rewrite bind_ret. destruct c as [[]| |]; cbn; try (rewrite IH; [done|exact Hp']). apply Hp'.
Qed.

(** building options, for every sequence of builder calls: unknown values
    panic at the call that passes them; [Build] then succeeds exactly when the
    file is writable or nothing asks for writing ([MustBuild] panics otherwise),
    the result has the last value given to each setting, and the flags passed to
    the operating system decode to exactly these options. *)
Theorem open_options_spec (r : OpenRW) (cs : list builder_call) :
  let o := MkOpenOptions r (setting get_mode OpenMode_Existing cs) (setting get_append false cs) (setting get_truncate false cs) in
  if known_rw r && forallb known_call cs then
    exists b, run_builder r cs = Ret b /\
      (if bool_decide (r = OpenRW_ReadOnly) && writes o
       then (exists e, Build b = Ret (inr e) /\ BuildError_Kind e = OpenOptionsBuildErrorKind_MissingWritePermission) /\
            MustBuild b = Panic PreconditionViolation
       else Build b = Ret (inl o) /\ MustBuild b = Ret o /\
            exists flags perm, openFlags o = Ret flags /\ decode_flags flags = Some o /\
              openPerm o = Ret perm /\ (perm = 0 <-> Z.testbit flags 6 = false))
  else run_builder r cs = Panic PreconditionViolation.
Proof.
  intros o. unfold run_builder. destruct (known_rw r) eqn:Hr; cbn [andb].
  2:{ destruct r; try done. cbn. clear. induction cs; [done|]. cbn. done. }
  assert (Open_ r = Ret (MkBuilder r OpenMode_Existing false false)) as -> by (by destruct r).
  rewrite run_builder_calls. destruct (forallb known_call cs) eqn:Hk; [|done].
  assert (known_mode (mode o) = true) as Hm.
  { subst o. cbn. clear -Hk. unfold setting. generalize OpenMode_Existing (eq_refl : known_mode OpenMode_Existing = true).
    induction cs as [|c cs IH]; intros m Hm; [done|]. cbn in *. apply andb_true_iff in Hk as [Hc Hk].
    apply IH; [done|]. by destruct c. }
  eexists. split; [done|]. destruct (openFlags_decode o Hr Hm) as (flags & Hf & Hd).
  unfold built. cbn [brw bmode bappend btruncate]. fold (rw o).
  change r with (rw o). change (setting get_mode _ cs) with (mode o).
  change (setting get_append _ cs) with (append o). change (setting get_truncate _ cs) with (truncate o).
  clearbody o. clear -Hf Hd Hm Hr.
  destruct o as [[] [] [] []]; try done; cbn; repeat (case_bool_decide; try done); cbn;
    repeat split; try (eexists; split; reflexivity); cbn in Hf; injection Hf as <-;
    eexists _, _; (split_and!; [reflexivity|vm_compute; reflexivity|reflexivity|vm_compute; done..]).
Qed.
