(* ===== verification/Fsx.v ===== *)
(** * The rooted file system ([fsx/fsx.go], [fsx/stat.go])

    [rootedFS] is a layer over a third-party file system, which is a parameter
    here: its [Stat] and [Lstat] by name, and the batches that a directory handle
    reads.  Modelled are [Stat] with its search for the shortest missing
    ancestor, and [ReadDir]. *)
From S2P Require Import Prelude Core Iterx Formatter GoFilepath CleanSpec Lexical PathComponents RelSpec PathTypes PathLaws.
#[local] Open Scope Z_scope.

Record StatOptions := MkStatOptions { FollowFinalSymlink : bool; OnErrorTraverseParents : bool }.

(** ** Stat *)
Section stat.
Context (windows : bool) {Info Err : Type} (base_Stat base_Lstat : gostring -> Info + Err).

Record StatError := MkStatError { fsError : Err; shortestMissing : RelPath }.
Definition StatError_Unwrap (e : StatError) : Err := fsError e.
Definition ShortestMissing (e : StatError) : RelPath := shortestMissing e.
Definition StatError_Error (Err_Error : Err -> gostring) (e : StatError) : gostring := Err_Error (fsError e).

(** [for i := 0; i < len(raw); i++]: [raw] is what is left from index [i] on. *)
Fixpoint Stat_seps (raw : gostring) (i : Z) (seps : list Z) : list Z :=
  match raw with
  | [] => seps
  | c :: raw => Stat_seps raw (i + 1) (if Lexical.IsPathSeparator windows c then seps ++ [i] else seps)
  end.

(** The binary search; one unit of fuel per [Stat] call. *)
Fixpoint Stat_search (fuel : nat) (raw : gostring) (seps : list Z) (lo hi : Z) : go Z :=
  if lo <? hi then
    match fuel with
    | O => OutOfFuel
    | S fuel =>
        let mid := Z.quot (int64 (lo + hi)) 2 in
        s ← index seps mid;
        prefix ← slice_to raw s;
        match base_Stat prefix with
        | inr _ => Stat_search fuel raw seps lo mid
        | inl _ => Stat_search fuel raw seps (int64 (mid + 1)) hi
        end
    end
  else Ret lo.

Definition Stat (rel : RelPath) (opts : StatOptions) : go (Info + StatError) :=
  let r := if FollowFinalSymlink opts then base_Stat (RelPath_String rel) else base_Lstat (RelPath_String rel) in
  match r with
  | inl info => Ret (inl info)
  | inr err =>
      if negb (OnErrorTraverseParents opts) then Ret (inr (MkStatError err rel))
      else
        let raw := RelPath_String rel in
        let seps := Stat_seps raw 0 [] in
        lo ← Stat_search (S (Z.to_nat (Z.log2 (zlen seps)))) raw seps 0 (zlen seps);
        if lo <? zlen seps then
          s ← index seps lo;
          prefix ← slice_to raw s;
          p ← MustParseRelPath windows prefix;
          Ret (inr (MkStatError err p))
        else Ret (inr (MkStatError err rel))
  end.
End stat.

(** ** ReadDir *)

(** How a call of [ReadDirFile.ReadDir] can end. *)
Inductive read_err (Err : Type) := ReadNil | ReadEOF | ReadErr (e : Err).
Arguments ReadNil {_}.
Arguments ReadEOF {_}.
Arguments ReadErr {_} _.

Definition ReadDirBatchSize : Z := 32.

Section readdir.
Context (windows : bool) {Entry Err Handle : Type} (zero : Entry)
  (base_Open : gostring -> Handle + Err)
  (rdf_ReadDir : Handle -> Z -> list Entry * read_err Err * Handle).

(** The loop of [readDirBatches]; [fuel] bounds the number of batches. *)
Fixpoint readDirBatches_loop {St} (fuel : nat) (f : Handle) (yield : yield_fn (Result (list Entry) Err) St) (st : St) : go St :=
  match fuel with
  | O => OutOfFuel
  | S fuel =>
      let '(entries, err, f) := rdf_ReadDir f ReadDirBatchSize in
      let '(st, continue) := if 0 <? zlen entries then yield (Success entries) st else (st, true) in
      if negb continue then Ret st
      else match err with
           | ReadNil => _ ← Invariant (0 <? zlen entries); readDirBatches_loop fuel f yield st
           | ReadEOF => Ret st
           | ReadErr e => r ← Failure [] (Some e); Ret (fst (yield r st))
           end
  end.
Definition readDirBatches (fuel : nat) (rel : RelPath) : Seq (Result (list Entry) Err) := fun St yield st =>
  match base_Open (RelPath_String rel) with
  | inr err => r ← Failure [] (Some err); Ret (fst (yield r st))
  | inl f => readDirBatches_loop fuel f yield st
  end.

(** A [dirEntry] wraps an entry of the base; [get_name] and [get_dir] are its methods. *)
Context (get_name : Entry -> gostring) (get_dir : Entry -> bool).
Record dirEntry := MkDirEntry { entry : Entry }.
Definition BaseName (e : dirEntry) : go Name :=
  match Name_Parse windows (get_name (entry e)) with
  | inl n => Ret n
  | inr _ => _ ← Invariant false; Ret (MkName [])
  end.
Definition IsDir (e : dirEntry) : bool := get_dir (entry e).

(** [Failure] asserts that its error is not nil: it has just been tested. *)
Definition ReadDir_entry (entryRes : Result Entry Err) : Result dirEntry Err :=
  let '(e, err) := rGet entryRes in
  match err with
  | Some err => MkResult (MkDirEntry zero) (Some err)
  | None => Success (MkDirEntry e)
  end.
Definition ReadDir (fuel : nat) (rel : RelPath) : Seq (Result dirEntry Err) :=
  Map (Unbatch zero (readDirBatches fuel rel)) ReadDir_entry.
End readdir.

(** ** The ancestors that [Stat] looks at *)

(** The path is [join cs ++ trail tr]; [ancestor k] is its prefix of [k] elements. *)
Definition ancestor (cs : list gostring) (k : nat) : gostring := join (take k cs).
Definition ancestors_count (cs : list gostring) (tr : bool) : nat := length cs - 1 + (if tr then 1 else 0).

Lemma Stat_seps_app windows raw raw' i acc :
  Stat_seps windows (raw ++ raw') i acc = Stat_seps windows raw' (i + zlen raw) (Stat_seps windows raw i acc).
Proof.
  revert i acc. induction raw as [|c raw IH]; intros i acc; cbn [app Stat_seps]; [by rewrite Z.add_0_r|].
  rewrite IH, zlen_cons. f_equal. lia.
Qed.
Lemma Stat_seps_nosep e i acc :
  forallb (fun c => negb (sep c)) e = true -> Stat_seps false e i acc = acc.
Proof.
  revert i acc. induction e as [|c e IH]; intros i acc He; [done|]. cbn [forallb] in He. apply andb_true_iff in He as [Hc He].
  cbn [Stat_seps]. rewrite lex_sep. apply negb_true_iff in Hc. rewrite Hc. by apply IH.
Qed.

Lemma Stat_seps_length windows raw i acc : zlen (Stat_seps windows raw i acc) <= zlen acc + zlen raw.
Proof.
  revert i acc. induction raw as [|c raw IH]; intros i acc; cbn [Stat_seps]; [rewrite zlen_nil; lia|].
  rewrite zlen_cons. etransitivity; [apply IH|]. destruct (Lexical.IsPathSeparator windows c); [|lia].
  rewrite zlen_app. change (zlen [i]) with 1. lia.
Qed.

Lemma ancestor_cons e cs k : (0 < k)%nat -> cs <> [] -> ancestor (e :: cs) (S k) = e ++ SLASH :: ancestor cs k.
Proof.
  intros Hk Hcs. unfold ancestor. cbn [take]. rewrite join_cons. destruct k; [lia|]. by destruct cs.
Qed.

Lemma Stat_seps_spec cs tr i acc :
  Forall elem cs -> cs <> [] ->
  Stat_seps false (join cs ++ trail tr) i acc = acc ++ map (fun k => i + zlen (ancestor cs k)) (seq 1 (ancestors_count cs tr)).
Proof.
  revert i acc. induction cs as [|e cs IH]; intros i acc Hcs Hne; [done|]. apply Forall_cons in Hcs as [[_ He] Hcs].
  rewrite join_cons, <- app_assoc, Stat_seps_app, (Stat_seps_nosep e) by exact He. destruct cs as [|e' cs].
  { cbn [app]. destruct tr; [|by rewrite app_nil_r]. cbn [trail Stat_seps]. by rewrite lex_sep. }
  cbn [app Stat_seps]. rewrite lex_sep, IH by done. change (sep SLASH) with true. cbv iota. rewrite <- app_assoc. f_equal.
  replace (ancestors_count (e :: e' :: cs) tr) with (S (ancestors_count (e' :: cs) tr)) by (unfold ancestors_count; cbn [length]; lia).
  cbn [seq map app]. f_equal. rewrite <- (seq_shift _ 1), map_map. apply map_ext_in. intros k [Hk _]%in_seq.
  rewrite ancestor_cons, zlen_app, zlen_cons by (done || lia). lia.
Qed.

Lemma ancestor_prefix cs k : (0 < k)%nat -> exists rest, join cs = ancestor cs k ++ rest.
Proof.
  revert k. induction cs as [|e cs IH]; intros k Hk; [exists []; unfold ancestor; by rewrite take_nil|].
  destruct k as [|k]; [lia|]. destruct (decide (k = 0%nat)) as [->|Hk0].
  { eexists. unfold ancestor. cbn [take]. by rewrite join_cons. }
  destruct (decide (cs = [])) as [->|Hcs].
  { exists []. unfold ancestor. cbn [take]. by rewrite take_nil, app_nil_r. }
  destruct (IH k) as (rest & E); [lia|]. exists rest. rewrite ancestor_cons by (done || lia).
  rewrite join_cons, E, <- app_assoc. by destruct cs.
Qed.
Lemma slice_to_ancestor cs tr k :
  (0 < k)%nat -> slice_to (join cs ++ trail tr) (zlen (ancestor cs k)) = Ret (ancestor cs k).
Proof. intros Hk. destruct (ancestor_prefix cs k Hk) as (rest & ->). by rewrite <- app_assoc, slice_to_app. Qed.

Lemma take_climb k n es : take k (climb n es) = climb (Nat.min k n) (take (k - n) es).
Proof. unfold climb. by rewrite take_app, take_replicate, length_replicate. Qed.

Lemma parse_ancestor n es k :
  Forall plain es -> (0 < k)%nat -> climb n es <> [] ->
  MustParseRelPath false (ancestor (climb n es) k) = Ret (MkRelPath (ancestor (climb n es) k)).
Proof.
  intros Hp Hk Hne. unfold ancestor. rewrite take_climb.
  assert (Forall plain (take (k - n) es)) as Hp' by (by apply Forall_take).
  rewrite <- render_join; [|done|].
  - rewrite parse_render by done. unfold rel_path. cbn [trail]. by rewrite app_nil_r.
  - rewrite <- take_climb. destruct k; [lia|]. by destruct (climb n es).
Qed.

(** ** The binary search *)
Section search.
Context {Info Err : Type} (base_Stat : gostring -> Info + Err).
Definition missing (s : gostring) : Prop := exists e, base_Stat s = inr e.

Lemma Stat_search_spec raw (seps : list Z) (pre : nat -> gostring) fuel lo hi :
  0 <= lo <= hi -> hi <= zlen seps -> zlen seps < 2 ^ 62 -> hi - lo < 2 ^ Z.of_nat fuel ->
  (forall i, 0 <= i < zlen seps -> exists s, index seps i = Ret s /\ slice_to raw s = Ret (pre (Z.to_nat i))) ->
  (forall i j : nat, (i <= j < length seps)%nat -> missing (pre i) -> missing (pre j)) ->
  exists r, Stat_search base_Stat fuel raw seps lo hi = Ret r /\ lo <= r <= hi /\
    (forall i : nat, lo <= Z.of_nat i < r -> ~ missing (pre i)) /\
    (r < hi -> missing (pre (Z.to_nat r))).
Proof.
  revert lo hi. induction fuel as [|fuel IH]; intros lo hi Hlo Hhi Hmax Hf Hpre Hmono; cbn [Stat_search].
  { change (2 ^ Z.of_nat 0) with 1 in Hf. rewrite (proj2 (Z.ltb_ge lo hi)) by lia. exists lo. split_and!; [done|lia..]. }
  destruct (Z.ltb_spec lo hi) as [Hlt|]; [|exists lo; split_and!; [done|lia..]].
  assert (int64 (lo + hi) = lo + hi) as -> by (apply int64_id; unfold is_int, MinInt, MaxInt; lia).
  rewrite Z.quot_div_nonneg by lia. set (mid := (lo + hi) / 2).
  assert (lo <= mid < hi) as Hmid by (subst mid; Z.div_mod_to_equations; lia).
  assert (hi - lo <= 2 * (hi - mid) <= hi - lo + 1) as Hmid2 by (subst mid; Z.div_mod_to_equations; lia). clearbody mid.
  rewrite Nat2Z.inj_succ, Z.pow_succ_r in Hf by lia.
  destruct (Hpre mid) as (s & -> & Hs); [lia|]. rewrite bind_ret, Hs, bind_ret.
  destruct (base_Stat (pre (Z.to_nat mid))) as [info|err] eqn:Hb.
  - assert (int64 (mid + 1) = mid + 1) as -> by (apply int64_id; unfold is_int, MinInt, MaxInt; lia).
    destruct (IH (mid + 1) hi) as (r & Hr & Hrange & Hok & Hmiss); try done; try lia.
    exists r. split_and!; [done|lia|lia| |done]. intros i Hi. destruct (Z_lt_ge_dec mid (Z.of_nat i)) as [|Hge]; [apply Hok; lia|].
    intros Hm. destruct (Hmono i (Z.to_nat mid)) as (e & He); [unfold zlen in *; lia|done|]. congruence.
  - destruct (IH lo mid) as (r & Hr & Hrange & Hok & Hmiss); try done; try lia.
    exists r. split_and!; [done|lia|lia|done|]. intros _. destruct (decide (r = mid)) as [->|]; [by exists err|apply Hmiss; lia].
Qed.
End search.

Section stat_spec.
Context {Info Err : Type} (base_Stat base_Lstat : gostring -> Info + Err).
Abbreviation missing := (missing base_Stat).

Lemma ancestors_seps cs tr :
  Forall elem cs -> cs <> [] ->
  let seps := Stat_seps false (join cs ++ trail tr) 0 [] in
  zlen seps = Z.of_nat (ancestors_count cs tr) /\
  (forall i, 0 <= i < zlen seps ->
    index seps i = Ret (zlen (ancestor cs (S (Z.to_nat i)))) /\
    slice_to (join cs ++ trail tr) (zlen (ancestor cs (S (Z.to_nat i)))) = Ret (ancestor cs (S (Z.to_nat i)))).
Proof.
  intros Hcs Hne. cbn zeta. rewrite Stat_seps_spec by done. cbn [app].
  assert (zlen (map (fun k => 0 + zlen (ancestor cs k)) (seq 1 (ancestors_count cs tr))) = Z.of_nat (ancestors_count cs tr)) as Hl
    by (unfold zlen; by rewrite length_map, length_seq).
  split; [done|]. intros i Hi. rewrite Hl in Hi. split; [|apply slice_to_ancestor; lia].
  apply index_lookup. split; [lia|]. rewrite list_lookup_fmap, lookup_seq_lt by lia. cbn [fmap option_fmap option_map]. done.
Qed.

(** The parents that [Stat] looks at, and what it answers when the path is missing. *)
Inductive stat_answer (p : RelPath) (cs : list gostring) (tr : bool) : RelPath -> Prop :=
  | FirstMissing k : (0 < k <= ancestors_count cs tr)%nat -> missing (ancestor cs k) ->
      (forall j, (0 < j < k)%nat -> ~ missing (ancestor cs j)) -> stat_answer p cs tr (MkRelPath (ancestor cs k))
  | LeafMissing : (forall j, (0 < j <= ancestors_count cs tr)%nat -> ~ missing (ancestor cs j)) -> stat_answer p cs tr p.

Lemma Stat_search_answer p n es tr :
  wf_rel p n es tr -> zlen (rvalue p) < 2 ^ 62 -> climb n es <> [] ->
  (forall i j, (0 < i <= j)%nat -> (j <= ancestors_count (climb n es) tr)%nat ->
     missing (ancestor (climb n es) i) -> missing (ancestor (climb n es) j)) ->
  let seps := Stat_seps false (rvalue p) 0 [] in
  exists lo q, Stat_search base_Stat (S (Z.to_nat (Z.log2 (zlen seps)))) (rvalue p) seps 0 (zlen seps) = Ret lo /\
    stat_answer p (climb n es) tr q /\
    (if lo <? zlen seps then s ← index seps lo; prefix ← slice_to (rvalue p) s; MustParseRelPath false prefix else Ret p) = Ret q.
Proof.
  intros [Hp Htr ->] Hlen Hne Hmono. cbn [rel_path rvalue] in *. rewrite render_join in * by done.
  set (cs := climb n es) in *. assert (Forall elem cs) as He by (by apply climb_elem).
  destruct (ancestors_seps cs tr He Hne) as [Hl Hpre]. cbn zeta in *. set (seps := Stat_seps false _ 0 []) in *.
  assert (zlen seps <= zlen (join cs ++ trail tr)) as Hle by (apply Stat_seps_length).
  destruct (Stat_search_spec base_Stat (join cs ++ trail tr) seps (fun i => ancestor cs (S i)) (S (Z.to_nat (Z.log2 (zlen seps)))) 0 (zlen seps))
    as (lo & Hlo & Hrange & Hok & Hmiss); [pose proof (zlen_nonneg seps); lia|lia|lia| | | |].
  - rewrite Z.sub_0_r, Nat2Z.inj_succ, Z2Nat.id by apply Z.log2_nonneg.
    destruct (Z_lt_ge_dec 0 (zlen seps)) as [H0|H0]; [by apply Z.log2_spec|]. rewrite Z.log2_nonpos by lia.
    pose proof (zlen_nonneg seps). cbn. lia.
  - intros i Hi. destruct (Hpre i Hi) as [H1 H2]. by eexists.
  - intros i j Hij. apply Hmono; [lia|]. unfold zlen in Hl. lia.
  - exists lo. destruct (Z.ltb_spec lo (zlen seps)) as [Hlt|Hge].
    + exists (MkRelPath (ancestor cs (S (Z.to_nat lo)))). split_and!; [done| |].
      * apply FirstMissing; [lia|by apply Hmiss|]. intros [|j] Hj; [lia|]. apply Hok. lia.
      * destruct (Hpre lo) as [-> H2]; [lia|]. rewrite bind_ret, H2, bind_ret. apply parse_ancestor; [done|lia|done].
    + exists (rel_path n es tr). split_and!; [done| |done]. apply LeafMissing. intros [|j] Hj; [lia|]. apply Hok. lia.
Qed.

Lemma Stat_search_answer_dot :
  Stat_search base_Stat 1 (str ".") (Stat_seps false (str ".") 0 []) 0 0 = Ret 0.
Proof. done. Qed.

(** C35: [Stat] of a well-formed path returns the information of the path, with
    or without following a final link as asked; on failure it always returns a
    [StatError] with the error of the base, which, when the parents are
    traversed, names the shortest missing ancestor, or the path itself if all
    its ancestors exist.  The search makes at most [1 + log2 n] calls for [n]
    separators (its fuel), cannot overflow and never slices out of bounds. *)
Theorem stat_shortest_missing (p : RelPath) (n : nat) (es : list gostring) (tr : bool) (opts : StatOptions)
  (Hwf : wf_rel p n es tr) (Hlen : zlen (rvalue p) < 2 ^ 62)
  (Hmono : forall i j, (0 < i <= j)%nat -> (j <= ancestors_count (climb n es) tr)%nat ->
     missing (ancestor (climb n es) i) -> missing (ancestor (climb n es) j)) :
  exists q,
    Stat false base_Stat base_Lstat p opts =
      Ret (match (if FollowFinalSymlink opts then base_Stat (rvalue p) else base_Lstat (rvalue p)) with
           | inl info => inl info
           | inr err => inr (MkStatError err q)
           end) /\
    (if OnErrorTraverseParents opts then stat_answer p (climb n es) tr q else q = p).
Proof.
  unfold Stat, RelPath_String. set (r := if FollowFinalSymlink opts then _ else _).
  destruct (OnErrorTraverseParents opts); cbn [negb]; [|exists p; by destruct r].
  destruct (decide (climb n es = [])) as [E|Hne].
  { exists p. rewrite E. assert (rvalue p = str ".") as Hdot.
    { destruct Hwf as [_ Htr ->]. cbn [rel_path rvalue]. rewrite E. destruct tr; [|done].
      destruct n; [|done]. cbn in E. subst es. destruct (Htr eq_refl); [done|lia]. }
    split; [|apply LeafMissing; intros j Hj; exfalso].
    - destruct r; [done|]. rewrite Hdot. change (zlen (Stat_seps false (str ".") 0 [])) with 0.
      change (S (Z.to_nat (Z.log2 0))) with 1%nat. by rewrite Stat_search_answer_dot.
    - unfold ancestors_count in Hj. cbn [length] in Hj. destruct tr; [|lia].
      destruct Hwf as [_ Htr _]. destruct n; [|done]. cbn in E. subst es. destruct (Htr eq_refl); [done|lia]. }
  destruct (Stat_search_answer p n es tr Hwf Hlen Hne Hmono) as (lo & q & Hs & Hq & Ht). cbn zeta in *.
  exists q. split; [|done]. destruct r as [info|err]; [done|]. rewrite Hs, bind_ret.
  destruct (lo <? _); [|by injection Ht as <-].
  apply bind_Ret_iff in Ht as (s & -> & Ht). apply bind_Ret_iff in Ht as (prefix & Hpre & Ht).
  by rewrite bind_ret, Hpre, bind_ret, Ht, bind_ret.
Qed.
End stat_spec.

(** A base where only "." and "a" exist. *)
Definition sample_base (s : gostring) : unit + unit :=
  if bool_decide (s = str ".") || bool_decide (s = str "a") then inl tt else inr tt.
Lemma stat_shortest_missing_witness :
  exists q, Stat false sample_base sample_base (MkRelPath (str "a/b/c/d")) (MkStatOptions false true) =
    Ret (inr (MkStatError tt q)) /\ q = MkRelPath (str "a/b").
Proof.
  assert (wf_rel (MkRelPath (str "a/b/c/d")) 0 [str "a"; str "b"; str "c"; str "d"] false) as Hwf.
  { split; [|done|reflexivity]. repeat constructor; try (vm_compute; discriminate). }
  destruct (stat_shortest_missing sample_base sample_base _ _ _ _ (MkStatOptions false true) Hwf) as (q & Hq & _).
  - vm_compute. reflexivity.
  - intros [|[|i]] [|[|[|[|j]]]] Hij Hj Hm; try lia; try (exists tt; reflexivity);
      try (destruct Hm as (e & He); vm_compute in He; discriminate); cbn in Hj; lia.
  - exists q. split; [exact Hq|]. vm_compute in Hq. injection Hq as <-. reflexivity.
Defined.

(** ** Directory listings *)
Section readdir_spec.
Context {Entry Err Handle : Type} (zero : Entry)
  (base_Open : gostring -> Handle + Err) (rdf_ReadDir : Handle -> Z -> list Entry * read_err Err * Handle).

(** What a handle delivers until its end of file or its first error. *)
Inductive delivers : Handle -> nat -> list Entry -> option Err -> Prop :=
  | DeliversMore f f' entries n l e : rdf_ReadDir f ReadDirBatchSize = (entries, ReadNil, f') -> entries <> [] ->
      delivers f' n l e -> delivers f (S n) (entries ++ l) e
  | DeliversEOF f f' entries : rdf_ReadDir f ReadDirBatchSize = (entries, ReadEOF, f') -> delivers f 1 entries None
  | DeliversErr f f' entries e : rdf_ReadDir f ReadDirBatchSize = (entries, ReadErr e, f') -> delivers f 1 entries (Some e).

Definition batches_end (e : option Err) : list (Result (list Entry) Err) :=
  match e with Some e => [MkResult [] (Some e)] | None => [] end.
Definition listing (l : list Entry) (e : option Err) : list (Result dirEntry Err) :=
  map (fun x => Success (MkDirEntry x)) l ++ match e with Some e => [MkResult (MkDirEntry zero) (Some e)] | None => [] end.

Lemma zlen_pos {A} (l : list A) : (0 <? zlen l) = bool_decide (l <> []).
Proof.
  destruct l as [|x l]; [done|]. rewrite bool_decide_true by done. rewrite zlen_cons. pose proof (zlen_nonneg l). lia.
Qed.

Lemma Failure_Some {A} (z : A) (err : Err) : Failure z (Some err) = Ret (MkResult z (Some err)).
Proof. unfold Failure. by rewrite Precondition_true by (by apply bool_decide_true). Qed.

Lemma readDirBatches_loop_spec f n l e :
  delivers f n l e -> forall fuel, (n <= fuel)%nat ->
  exists bs, concat bs = l /\ forall St yield (st : St),
    readDirBatches_loop rdf_ReadDir fuel f yield st = Ret (fst (range_yield (map Success bs ++ batches_end e) yield st)).
Proof.
  induction 1 as [f f' entries n l e Hr Hne _ IH|f f' entries Hr|f f' entries e Hr]; intros [|fuel] Hf; try lia.
  - destruct (IH fuel) as (bs & <- & Hbs); [lia|]. exists (entries :: bs). split; [done|]. intros St yield st.
    cbn [readDirBatches_loop]. rewrite Hr, zlen_pos, bool_decide_true by done. cbn [map app range_yield].
    destruct (yield _ st) as [st' []]; [|done]. cbn [negb Invariant]. rewrite bind_ret. apply Hbs.
  - destruct entries as [|x entries].
    + exists []. split; [done|]. intros St yield st. cbn [readDirBatches_loop]. by rewrite Hr.
    + exists [x :: entries]. split; [cbn; by rewrite app_nil_r|]. intros St yield st. cbn [readDirBatches_loop].
      rewrite Hr, zlen_pos, bool_decide_true by done. cbn. by destruct (yield _ st) as [st' []].
  - destruct entries as [|x entries].
    + exists []. split; [done|]. intros St yield st. cbn [readDirBatches_loop]. rewrite Hr. change (0 <? zlen (@nil Entry)) with false.
      cbv iota beta. cbn [negb map app range_yield batches_end]. rewrite Failure_Some, bind_ret. by destruct (yield _ st) as [st' []].
    + exists [x :: entries]. split; [cbn; by rewrite app_nil_r|]. intros St yield st. cbn [readDirBatches_loop].
      rewrite Hr, zlen_pos, bool_decide_true by done. cbn [map app range_yield batches_end].
      destruct (yield _ st) as [st' []]; cbn [negb fst]; [|done]. rewrite Failure_Some, bind_ret. by destruct (yield _ st') as [st'' []].
Qed.

Lemma unbatched_spec (bs : list (list Entry)) (e : option Err) :
  map (ReadDir_entry zero) (unbatched zero (map Success bs ++ batches_end e)) = listing (concat bs) e.
Proof.
  unfold listing. induction bs as [|b bs IH]; cbn [map app concat unbatched].
  { destruct e; done. }
  change (err (Success (E:=Err) b)) with (@None Err). change (Core.rvalue (Success (E:=Err) b)) with b. cbv iota.
  rewrite map_app, IH, map_app, <- app_assoc, map_map. done.
Qed.

(** [ReadDir] passes every entry the directory delivers, in order, then the
    failure if there is one; a directory that cannot be opened is one failure. *)
Theorem ReadDir_enumerates (rel : RelPath) (fuel : nat) :
  match base_Open (rvalue rel) with
  | inr err => Enumerates (ReadDir zero base_Open rdf_ReadDir fuel rel) [MkResult (MkDirEntry zero) (Some err)]
  | inl f => forall n l e, delivers f n l e -> (n <= fuel)%nat ->
      Enumerates (ReadDir zero base_Open rdf_ReadDir fuel rel) (listing l e)
  end.
Proof.
  destruct (base_Open (rvalue rel)) as [f|err] eqn:Ho.
  - intros n l e Hd Hf. destruct (readDirBatches_loop_spec f n l e Hd fuel Hf) as (bs & <- & Hbs).
    rewrite <- unbatched_spec. apply Map_enumerates, Unbatch_enumerates. intros St yield st.
    unfold readDirBatches, RelPath_String. rewrite Ho. apply Hbs.
  - change [MkResult (MkDirEntry zero) (Some err)] with (map (ReadDir_entry zero) (unbatched zero (map Success [] ++ batches_end (Some err)))).
    apply Map_enumerates, Unbatch_enumerates. intros St yield st. unfold readDirBatches, RelPath_String. rewrite Ho, Failure_Some, bind_ret.
    cbn. by destruct (yield _ st) as [st' []].
Qed.
End readdir_spec.

(** ** The file system interface

    What the clients of [fsx.FS] call, on errors of type [E].  [os.FileInfo] and
    [DirEntry] are interfaces of which only these methods are used; [fi_mode] is
    an [os.FileMode]. *)
Record FileInfo := MkFileInfo { fi_IsDir : bool; fi_mode : Z }.
Record DirEntry := MkDirEntryI { de_name : Name; de_IsDir : bool }.
Class FS (E : Type) := {
  Root : AbsPath;
  fsStat : RelPath -> StatOptions -> FileInfo + E;
  fsReadFile : RelPath -> gostring + E;
  fsReadDir : RelPath -> Seq (Result DirEntry E)
}.
