(* ===== verification/RootedFS.v ===== *)
(** * Operations of a rooted file system ([base/fsx/fsx.go])

    The operations of [rootedFS] that read a whole file or change the file system.
    They forward the text of a root-relative path to the base file system, which
    is third-party code over a state [W], and so a parameter; [MkdirTemp] checks
    its pattern and parses what it gets back. *)
From S2P Require Import Prelude Core Iterx Formatter GoFilepath CleanSpec Lexical PathComponents RelSpec PathTypes PathLaws.
#[local] Open Scope Z_scope.

Section rooted.
Context (windows : bool) {W Err : Type} (base_ReadFile : gostring -> W -> gostring + Err)
  (base_WriteFile : gostring -> gostring -> Z -> W -> W * option Err) (base_MkdirAll : gostring -> Z -> W -> W * option Err)
  (base_RemoveAll : gostring -> W -> W * option Err) (base_TempDir : gostring -> gostring -> W -> W * (gostring + Err)).

Definition ReadFile (rel : RelPath) (w : W) : gostring + Err := base_ReadFile (RelPath_String rel) w.
Definition WriteFile (rel : RelPath) (data : gostring) (perm : Z) (w : W) : W * option Err :=
  base_WriteFile (RelPath_String rel) data perm w.
Definition MkdirAll (rel : RelPath) (perm : Z) (w : W) : W * option Err := base_MkdirAll (RelPath_String rel) perm w.
Definition MkdirTemp (dir : RelPath) (pattern : gostring) (w : W) : go (W * (RelPath + Err)) :=
  _ ← Precondition (bool_decide (pattern <> []));
  _ ← Precondition (negb (HasPathSeparators windows pattern));
  let '(w, r) := base_TempDir (RelPath_String dir) pattern w in
  match r with
  | inr err => Ret (w, inr err)
  | inl tmpDir => p ← MustParseRelPath windows tmpDir; Ret (w, inl p)
  end.
Definition RemoveAll (rel : RelPath) (w : W) : W * option Err := base_RemoveAll (RelPath_String rel) w.
End rooted.

(** ** What [MkdirTemp] returns *)
Lemma separators_elem e : e <> [] -> HasPathSeparators false e = false -> elem e.
Proof.
  intros Hne Hs. split; [done|]. apply forallb_forall. intros c Hc. apply not_true_iff_false in Hs.
  unfold HasPathSeparators in Hs. rewrite existsb_exists in Hs. destruct (sep c) eqn:E; [|done].
  destruct Hs. exists c. by rewrite lex_sep.
Qed.

Section mkdir_temp.
Context {W Err : Type} (base_TempDir : gostring -> gostring -> W -> W * (gostring + Err)).
(** The base joins its directory, and the pattern with a random number of one digit or more after it. *)
Definition digit_string (r : gostring) : Prop := r <> [] /\ Forall (fun c => 48 <= c <= 57) r.
Context (TempDir_joins : forall dir pattern w w' s, base_TempDir dir pattern w = (w', inl s) ->
  exists r, digit_string r /\ Join false [dir; pattern ++ r] = Ret s).

Lemma pattern_digits_plain pattern r :
  pattern <> [] -> HasPathSeparators false pattern = false -> digit_string r -> plain (pattern ++ r).
Proof.
  intros Hne Hs [Hr Hd]. destruct (separators_elem _ Hne Hs) as [_ He]. destruct r as [|c r _] using rev_ind; [done|].
  assert (Forall (fun c => negb (sep c) = true) (r ++ [c])) as Hsep.
  { eapply Forall_impl; [exact Hd|]. intros d Hr'. rewrite sep_slash. unfold SLASH. cbn in Hr'. lia. }
  apply Forall_app in Hd as [_ Hc]. apply Forall_cons in Hc as [Hc _].
  split_and!; [split; [by destruct pattern|]| |].
  - rewrite forallb_app, He. cbn [andb]. apply forallb_forall. intros d Hin. rewrite Forall_forall in Hsep. apply Hsep. by apply list_elem_of_In.
  - intros H. apply (f_equal last) in H. rewrite app_assoc, last_snoc in H. injection H as ->. unfold DOT in Hc. lia.
  - intros H. apply (f_equal last) in H. rewrite app_assoc, last_snoc in H. injection H as ->. unfold DOT in Hc. lia.
Qed.

(** [MkdirTemp] accepts the patterns that are not empty and have no separators.
    It fails only when the base does; otherwise its result is [dir] with one more
    element, which begins with the pattern. *)
Theorem mkdir_temp_spec (dir : RelPath) (n : nat) (es : list gostring) (tr : bool) (pattern : gostring) (w : W)
  (Hwf : wf_rel dir n es tr) :
  match MkdirTemp false base_TempDir dir pattern w with
  | Ret (w', r) => pattern <> [] /\ HasPathSeparators false pattern = false /\
      match r with
      | inr err => base_TempDir (rvalue dir) pattern w = (w', inr err)
      | inl p => exists r, digit_string r /\ wf_rel p n (es ++ [pattern ++ r]) false
      end
  | Panic k => k = PreconditionViolation /\ (pattern = [] \/ HasPathSeparators false pattern = true)
  | OutOfFuel => False
  end.
Proof.
  unfold MkdirTemp. destruct (decide (pattern = [])) as [->|Hne]; [by rewrite bool_decide_false by tauto; split; [|left]|].
  rewrite bool_decide_true by done. cbn [Precondition]. rewrite bind_ret.
  destruct (HasPathSeparators false pattern) eqn:Hs; [by split; [|right]|]. cbn [negb Precondition]. rewrite bind_ret.
  unfold RelPath_String. destruct (base_TempDir (rvalue dir) pattern w) as [w' [s|err]] eqn:Ht; [|done].
  destruct (TempDir_joins _ _ _ _ _ Ht) as (r & Hr & Hj). pose proof (pattern_digits_plain _ _ Hne Hs Hr) as Hp.
  destruct Hwf as [Hes _ ->].
  assert (RelPath_Join false (rel_path n es tr) (rel_path 0 [pattern ++ r] false) = Ret (rel_path n (es ++ [pattern ++ r]) false)) as E.
  { rewrite RelPath_Join_rel by (done || by constructor). by rewrite Nat.sub_0_r, firstn_all, Nat.add_0_r. }
  unfold RelPath_Join in E. replace (rvalue (rel_path 0 [pattern ++ r] false)) with (pattern ++ r) in E.
  - rewrite Hj, bind_ret in E. rewrite E, bind_ret. split_and!; [done..|]. exists r. split; [done|].
    split; [|done|done]. apply Forall_app. split; [done|]. by constructor.
  - cbn [rvalue rel_path trail]. rewrite app_nil_r. unfold render, body, climb. cbn [replicate app strings_Join].
    by destruct (pattern ++ r) eqn:E'; [destruct pattern|].
Qed.
End mkdir_temp.

(** A base that always picks the same number. *)
Definition sample_TempDir (dir pattern : gostring) (w : unit) : unit * (gostring + unit) :=
  match Join false [dir; pattern ++ str "07"] with Ret s => (tt, inl s) | _ => (tt, inr tt) end.
Lemma mkdir_temp_spec_witness :
  exists p, MkdirTemp false sample_TempDir (MkRelPath (str ".cache")) (str "gocache") tt = Ret (tt, inl p) /\
    rvalue p = str ".cache/gocache07" /\ exists r, digit_string r /\ wf_rel p 0 ([str ".cache"] ++ [str "gocache" ++ r]) false.
Proof.
  assert (wf_rel (MkRelPath (str ".cache")) 0 [str ".cache"] false) as Hwf by (split; [by repeat constructor|done|done]).
  pose proof (mkdir_temp_spec sample_TempDir) as H. specialize (H ltac:(intros dir pattern w w' s; unfold sample_TempDir;
    destruct (Join false [dir; pattern ++ str "07"]) eqn:E; [intros [= <- <-]|done|done]; exists (str "07"); split; [split; [done|by repeat constructor]|done])).
  specialize (H _ _ _ _ (str "gocache") tt Hwf). eexists. split; [vm_compute; reflexivity|]. split; [vm_compute; reflexivity|].
  vm_compute MkdirTemp in H. by destruct H as (_ & _ & H).
Defined.
