(* ===== verification/Config.v ===== *)
(** * The workspace configuration ([misc/internal/config])

    [types.go], [validate.go] and [workspace_config.go] from the decoded JSON
    on: the decoder is not modelled.  A Go error is the list of the errors that
    were joined into it, nil being the empty list; each constructor of
    [config_error] is one message of the code, with its arguments.  [map_order]
    is the order in which a map is visited. *)
From stdpp Require Import sorting.
From S2P Require Import Prelude Core Iterx HashSet GoFilepath CleanSpec Lexical PathComponents RelSpec PathTypes PathLaws.
#[local] Open Scope Z_scope.

#[export] Instance RelPath_eq_dec : EqDecision RelPath.
Proof. solve_decision. Defined.
#[export] Instance RelPath_countable : Countable RelPath.
Proof. by refine (inj_countable' (@PathTypes.rvalue) MkRelPath _); intros []. Defined.

(** ** Data *)
Abbreviation GitHubRepo := gostring (only parsing).

Record ForkedFolderJSON := MkForkedFolderJSON { fjFolder : gostring; fjGitHubProject : gostring; fjAutoSync : Option bool }.
Record UpstreamRepoJSON := MkUpstreamRepoJSON { ujGitHubProject : gostring; ujBranch : gostring }.
Record BranchMappingJSON := MkBranchMappingJSON { bjLocalBranch : gostring; bjUpstream : list UpstreamRepoJSON }.
Record WorkspaceConfigJSON := MkWorkspaceConfigJSON
  { wjForkedFolders : list ForkedFolderJSON; wjBranchMappings : list BranchMappingJSON }.

Record ForkedFolder := MkForkedFolder { fFolder : gostring; fGitHubRepo : GitHubRepo; fAutoSync : bool }.
Record UpstreamRepo := MkUpstreamRepo { uGitHubRepo : GitHubRepo; uBranch : gostring }.
Record UpstreamMap := MkUpstreamMap { ByGitHubRepo : gmap GitHubRepo UpstreamRepo }.
Record BranchMapping := MkBranchMapping { bLocalBranch : gostring; bUpstreamMap : UpstreamMap }.
Record BranchMappings := MkBranchMappings { ByLocalBranch : gmap gostring BranchMapping }.
Record WorkspaceConfig := MkWorkspaceConfig
  { ForkedFolders : gmap RelPath ForkedFolder; cBranchMappings : BranchMappings }.

Inductive config_error :=
  | InvalidProject (s : gostring)
  | EmptyForkedFolders
  | InvalidFolder (e : RelPathParseError)
  | DuplicateFolder (folder : gostring)
  | InFolder (folder : gostring) (e : config_error)
  | DuplicateProject (repo : GitHubRepo)
  | EmptyBranchMappings
  | EmptyLocalBranch
  | EmptyUpstream (branch : gostring)
  | DuplicateBranch (branch : gostring)
  | InBranch (branch : gostring) (e : config_error)
  | EmptyUpstreamBranch (branch project : gostring)
  | DuplicateUpstream (branch : gostring) (repo : GitHubRepo)
  | NonForkedUpstream (branch : gostring) (repo : GitHubRepo)
  | MissingUpstream (branch : gostring) (repo : GitHubRepo)
  | NoBranchMapping (branch : gostring)
  | NotForkedFolder (project : RelPath)
  | NotConfigured (project : RelPath) (branch : gostring).

(** [errorx.Join]: it leaves nil errors out. *)
Definition Join_ (err : list config_error) (e : config_error) : list config_error := err ++ [e].

(** ** Validation *)

(** [strings.Cut(s, "/")] and [strings.Contains(s, "/")]. *)
Fixpoint cut_slash (s : gostring) : gostring * gostring * bool :=
  match s with
  | [] => ([], [], false)
  | c :: s => if c =? SLASH then ([], s, true) else let '(b, a, ok) := cut_slash s in (c :: b, a, ok)
  end.
Definition contains_slash (s : gostring) : bool := existsb (fun c => c =? SLASH) s.

Definition parseGitHubRepo (s : gostring) : GitHubRepo + config_error :=
  let '(owner, repo, ok) := cut_slash s in
  if negb ok || bool_decide (owner = []) || bool_decide (repo = []) || contains_slash repo
  then inr (InvalidProject s) else inl s.

Section validate.
Context (windows : bool) (map_order : gset GitHubRepo -> list GitHubRepo).
Context (le : relation GitHubRepo) `{!forall x y, Decision (le x y)}.

Definition folders_state : Type := gmap RelPath ForkedFolder * Set_ GitHubRepo * list config_error.

Definition validateForkedFolders_body (j : ForkedFolderJSON) (st : folders_state) : go folders_state :=
  let '(forkedFolders, forkedRepos, err) := st in
  r ← ParseRelPath windows (fjFolder j);
  let '(folder, err) := match r with inl folder => (folder, err) | inr e => (MkRelPath [], Join_ err (InvalidFolder e)) end in
  match forkedFolders !! folder with
  | Some _ => Ret (forkedFolders, forkedRepos, Join_ err (DuplicateFolder (fjFolder j)))
  | None =>
      match parseGitHubRepo (fjGitHubProject j) with
      | inr e => Ret (forkedFolders, forkedRepos, Join_ err (InFolder (fjFolder j) e))
      | inl githubRepo =>
          let '(forkedRepos, inserted) := Insert forkedRepos githubRepo in
          if negb inserted then Ret (forkedFolders, forkedRepos, Join_ err (DuplicateProject githubRepo))
          else
            let f := MkForkedFolder (fjFolder j) githubRepo (ValueOr (fjAutoSync j) true) in
            Ret (<[folder := f]> forkedFolders, forkedRepos, err)
      end
  end.

(** The three results; the map is nil when there is an error. *)
Definition validateForkedFolders (l : list ForkedFolderJSON) : go (folders_state) :=
  let err := if zlen l =? 0 then Join_ [] EmptyForkedFolders else [] in
  '(forkedFolders, forkedRepos, err) ←
    for_list l (fun j st => st ← validateForkedFolders_body j st; Ret (st, true)) (∅, NewSet, err);
  if bool_decide (err <> []) then Ret (∅, forkedRepos, err) else Ret (forkedFolders, forkedRepos, []).

Definition upstream_body (forkedRepos : Set_ GitHubRepo) (branch : gostring) (j : UpstreamRepoJSON)
    (st : gmap GitHubRepo UpstreamRepo * list config_error) : gmap GitHubRepo UpstreamRepo * list config_error :=
  let '(upstreamMap, err) := st in
  match parseGitHubRepo (ujGitHubProject j) with
  | inr e => (upstreamMap, Join_ err (InBranch branch e))
  | inl githubRepo =>
      if bool_decide (ujBranch j = []) then (upstreamMap, Join_ err (EmptyUpstreamBranch branch (ujGitHubProject j)))
      else match upstreamMap !! githubRepo with
           | Some _ => (upstreamMap, Join_ err (DuplicateUpstream branch githubRepo))
           | None =>
               if negb (Contains forkedRepos githubRepo) then (upstreamMap, Join_ err (NonForkedUpstream branch githubRepo))
               else (<[githubRepo := MkUpstreamRepo githubRepo (ujBranch j)]> upstreamMap, err)
           end
  end.
Definition missing_body (branch : gostring) (upstreamMap : gmap GitHubRepo UpstreamRepo) (forkedRepo : GitHubRepo)
    (err : list config_error) : list config_error :=
  match upstreamMap !! forkedRepo with
  | Some _ => err
  | None => Join_ err (MissingUpstream branch forkedRepo)
  end.

Definition mapping_body (forkedRepos : Set_ GitHubRepo) (j : BranchMappingJSON)
    (st : gmap gostring BranchMapping * list config_error) : gmap gostring BranchMapping * list config_error :=
  let '(mappings, err) := st in
  if bool_decide (bjLocalBranch j = []) then (mappings, Join_ err EmptyLocalBranch)
  else if zlen (bjUpstream j) =? 0 then (mappings, Join_ err (EmptyUpstream (bjLocalBranch j)))
  else match mappings !! bjLocalBranch j with
       | Some _ => (mappings, Join_ err (DuplicateBranch (bjLocalBranch j)))
       | None =>
           let '(upstreamMap, err) :=
             foldl (fun st j' => upstream_body forkedRepos (bjLocalBranch j) j' st) (∅, err) (bjUpstream j) in
           let err := foldl (fun err r => missing_body (bjLocalBranch j) upstreamMap r err) err
                        (SortedValues le (map_order (values forkedRepos))) in
           (<[bjLocalBranch j := MkBranchMapping (bjLocalBranch j) (MkUpstreamMap upstreamMap)]> mappings, err)
       end.
Definition validateBranchMappings (l : list BranchMappingJSON) (forkedRepos : Set_ GitHubRepo)
    : BranchMappings * list config_error :=
  let err := if zlen l =? 0 then Join_ [] EmptyBranchMappings else [] in
  let '(mappings, err) := foldl (fun st j => mapping_body forkedRepos j st) (∅, err) l in
  if bool_decide (err <> []) then (MkBranchMappings ∅, err) else (MkBranchMappings mappings, []).

Definition Validate (wcJSON : WorkspaceConfigJSON) : go (WorkspaceConfig + list config_error) :=
  '(forkedFolders, forkedRepos, err) ← validateForkedFolders (wjForkedFolders wcJSON);
  if bool_decide (err <> []) then Ret (inr err)
  else
    let '(branchMappings, err) := validateBranchMappings (wjBranchMappings wcJSON) forkedRepos in
    if bool_decide (err <> []) then Ret (inr err) else Ret (inl (MkWorkspaceConfig forkedFolders branchMappings)).

Definition UpstreamForProject (wc : WorkspaceConfig) (localBranch : gostring) (project : RelPath)
    : UpstreamRepo + config_error :=
  match ByLocalBranch (cBranchMappings wc) !! localBranch with
  | None => inr (NoBranchMapping localBranch)
  | Some mapping =>
      match ForkedFolders wc !! project with
      | None => inr (NotForkedFolder project)
      | Some forkedFolder =>
          match ByGitHubRepo (bUpstreamMap mapping) !! fGitHubRepo forkedFolder with
          | None => inr (NotConfigured project localBranch)
          | Some upstream => inl upstream
          end
      end
  end.
End validate.

(** ** Loops that accumulate errors *)
Section accumulate.
Context {S J E : Type} (step : S * list E -> J -> S * list E) (ok : S -> J -> Prop) (upd : S -> J -> S).
Context (step_cases : forall s err j,
  (ok s j /\ step (s, err) j = (upd s j, err)) \/
  (~ ok s j /\ exists s' e es, step (s, err) j = (s', err ++ e :: es))).

Fixpoint all_ok (s : S) (l : list J) : Prop :=
  match l with [] => True | j :: l => ok s j /\ all_ok (upd s j) l end.

Lemma accumulate_grows l s err : exists s' es, foldl step (s, err) l = (s', err ++ es).
Proof.
  revert s err. induction l as [|j l IH]; intros s err; cbn [foldl]; [exists s, []; by rewrite app_nil_r|].
  destruct (step_cases s err j) as [[_ ->]|(_ & s' & e & es & ->)]; [apply IH|].
  destruct (IH s' (err ++ e :: es)) as (s'' & es' & ->).
  exists s'', ((e :: es) ++ es'). by rewrite <- app_assoc.
Qed.

(** Either every step is fine, or an error is added. *)
Lemma accumulate l s err :
  (all_ok s l /\ foldl step (s, err) l = (foldl upd s l, err)) \/
  (~ all_ok s l /\ exists s' e es, foldl step (s, err) l = (s', err ++ e :: es)).
Proof.
  revert s err. induction l as [|j l IH]; intros s err; cbn [foldl all_ok]; [by left|].
  destruct (step_cases s err j) as [[Hj ->]|(Hj & s' & e & es & ->)].
  - destruct (IH (upd s j) err) as [[? ->]|[? Hbad]]; [by left|right]. split; [by intros [_ ?]|done].
  - right. split; [by intros [? _]|].
    destruct (accumulate_grows l s' (err ++ e :: es)) as (s'' & es' & ->). exists s'', e, (es ++ es'). by rewrite <- app_assoc.
Qed.
End accumulate.

(** Steps that only ask for new keys and a property of the element. *)
Section fresh_keys.
Context {S J K1 K2 : Type} (P : J -> Prop) (key1 : J -> K1) (key2 : J -> K2).
Context (used1 : S -> K1 -> Prop) (used2 : S -> K2 -> Prop) (upd : S -> J -> S).
Context (upd1 : forall s j k, used1 (upd s j) k <-> k = key1 j \/ used1 s k).
Context (upd2 : forall s j k, used2 (upd s j) k <-> k = key2 j \/ used2 s k).

Lemma all_ok_fresh l s :
  all_ok (fun s j => P j /\ ~ used1 s (key1 j) /\ ~ used2 s (key2 j)) upd s l <->
  Forall P l /\ NoDup (map key1 l) /\ NoDup (map key2 l) /\
  Forall (fun j => ~ used1 s (key1 j)) l /\ Forall (fun j => ~ used2 s (key2 j)) l.
Proof.
  revert s. induction l as [|j l IH]; intros s; cbn [all_ok map].
  { rewrite !Forall_nil. split; [|done]. intros _. split_and!; (done || constructor). }
  rewrite IH, !NoDup_cons, !Forall_cons, !list_elem_of_In, !in_map_iff, !Forall_forall.
  setoid_rewrite upd1. setoid_rewrite upd2. setoid_rewrite list_elem_of_In. split.
  - intros ((HP & H1 & H2) & HPs & Hn1 & Hn2 & Hf1 & Hf2). split_and!; try done.
    + intros (j' & E & Hin). apply (Hf1 j' Hin). by left.
    + intros (j' & E & Hin). apply (Hf2 j' Hin). by left.
    + intros j' Hin Hu. apply (Hf1 j' Hin). by right.
    + intros j' Hin Hu. apply (Hf2 j' Hin). by right.
  - intros ((HP & HPs) & (H1 & Hn1) & (H2 & Hn2) & (Hu1 & Hf1) & (Hu2 & Hf2)). split_and!; try done.
    + intros j' Hin [E|Hu]; [apply H1; by exists j'|by apply (Hf1 j')].
    + intros j' Hin [E|Hu]; [apply H2; by exists j'|by apply (Hf2 j')].
Qed.
End fresh_keys.

(** The map built by such a loop. *)
Section built_map.
Context {J K V : Type} `{Countable K} (key : J -> K) (val : J -> V).
Definition represents (m : gmap K V) (l : list J) : Prop :=
  forall k v, m !! k = Some v <-> exists j, j ∈ l /\ key j = k /\ val j = v.

Lemma insert_all_represents l : NoDup (map key l) -> represents (foldl (fun m j => <[key j := val j]> m) ∅ l) l.
Proof.
  induction l as [|j l IH] using rev_ind; intros Hn k v.
  { cbn. rewrite lookup_empty. split; [done|]. intros (j & Hj & _). by apply elem_of_nil in Hj. }
  rewrite map_app in Hn. apply NoDup_app in Hn as (Hn & Hdis & _). rewrite foldl_app. cbn [foldl]. specialize (IH Hn).
  setoid_rewrite elem_of_app. setoid_rewrite list_elem_of_singleton. destruct (decide (key j = k)) as [<-|Hk].
  - rewrite lookup_insert_eq. split; [intros [= <-]; exists j; by split; [right|]|].
    intros (j' & [Hj'| ->] & E & <-); [|done]. exfalso. apply (Hdis (key j')).
    + apply list_elem_of_In, in_map_iff. exists j'. by rewrite <- list_elem_of_In.
    + rewrite E. by constructor.
  - rewrite lookup_insert_ne by done. rewrite (IH k v). split; [naive_solver|].
    intros (j' & [Hj'| ->] & E & <-); [by exists j'|done].
Qed.

Lemma insert_all_dom (m : gmap K V) l k :
  is_Some (foldl (fun m j => <[key j := val j]> m) m l !! k) <-> is_Some (m !! k) \/ k ∈ map key l.
Proof.
  revert m. induction l as [|j l IH]; intros m; cbn [foldl map]; [rewrite elem_of_nil; tauto|].
  rewrite IH, elem_of_cons. destruct (decide (key j = k)) as [<-|Hk].
  - rewrite lookup_insert_eq. split; [by right; left|by left].
  - rewrite lookup_insert_ne by done. naive_solver.
Qed.
End built_map.

(** ** Valid configurations *)

(** "<owner>/<repo>". *)
Definition valid_repo (s : gostring) : Prop :=
  exists owner repo, s = owner ++ SLASH :: repo /\ owner <> [] /\ repo <> [] /\ SLASH ∉ owner /\ SLASH ∉ repo.

Lemma contains_slash_spec s : contains_slash s = true <-> SLASH ∈ s.
Proof.
  unfold contains_slash. rewrite existsb_exists. split.
  - intros (c & Hc & ->%Z.eqb_eq). by apply list_elem_of_In.
  - intros Hs. exists SLASH. split; [by apply list_elem_of_In|done].
Qed.
Lemma cut_slash_spec s :
  match cut_slash s with
  | (owner, repo, true) => s = owner ++ SLASH :: repo /\ SLASH ∉ owner
  | (_, _, false) => SLASH ∉ s
  end.
Proof.
  induction s as [|c s IH]; cbn [cut_slash]; [apply not_elem_of_nil|].
  destruct (Z.eqb_spec c SLASH) as [->|Hc]; [split; [done|apply not_elem_of_nil]|].
  destruct (cut_slash s) as [[b a] []]; [destruct IH as [-> Hb]; split; [done|]|]; rewrite elem_of_cons; naive_solver.
Qed.
Lemma app_slash_inj (a b c d : gostring) :
  SLASH ∉ a -> SLASH ∉ c -> a ++ SLASH :: b = c ++ SLASH :: d -> a = c /\ b = d.
Proof.
  revert c. induction a as [|x a IH]; intros [|y c] Ha Hc E; injection E; try done.
  - intros _ <-. destruct Hc. by left.
  - intros _ ->. destruct Ha. by left.
  - intros E' ->. rewrite elem_of_cons in Ha, Hc. destruct (IH c) as [-> ->]; naive_solver.
Qed.

Lemma parseGitHubRepo_spec s : (valid_repo s /\ parseGitHubRepo s = inl s) \/ (~ valid_repo s /\ parseGitHubRepo s = inr (InvalidProject s)).
Proof.
  unfold parseGitHubRepo. pose proof (cut_slash_spec s) as Hcut. destruct (cut_slash s) as [[owner repo] []]; cbn [negb orb].
  - destruct Hcut as [-> Ho]. case_bool_decide as H1; cbn [orb].
    { right. split; [|done]. intros (o & r & E & Hn & _ & Hno & _). apply app_slash_inj in E as [<- <-]; done. }
    case_bool_decide as H2; cbn [orb].
    { right. split; [|done]. intros (o & r & E & _ & Hn & Hno & _). apply app_slash_inj in E as [<- <-]; done. }
    destruct (contains_slash repo) eqn:Hs; [right|left]; (split; [|done]).
    + intros (o & r & E & _ & _ & Hno & Hnr). apply app_slash_inj in E as [<- <-]; [|done..]. by apply contains_slash_spec in Hs.
    + exists owner, repo. split_and!; try done. rewrite <- contains_slash_spec. by rewrite Hs.
  - right. split; [|done]. intros (o & r & -> & _). apply Hcut. rewrite elem_of_app, elem_of_cons. tauto.
Qed.
#[export] Instance valid_repo_dec s : Decision (valid_repo s).
Proof.
  destruct (parseGitHubRepo s) eqn:E; [left|right]; destruct (parseGitHubRepo_spec s) as [[H E']|[H E']];
    (exact H || (rewrite E' in E; discriminate)).
Defined.

Section unix.
Context (map_order : gset GitHubRepo -> list GitHubRepo) (Horder : forall s, map_order s ≡ₚ elements s).
Context (le : relation GitHubRepo) `{!forall x y, Decision (le x y)}.

(** *** The upstream projects of a branch *)
Definition upstream_entry_ok (forked : gset GitHubRepo) (j : UpstreamRepoJSON) : Prop :=
  valid_repo (ujGitHubProject j) /\ ujBranch j <> [] /\ ujGitHubProject j ∈ forked.
Definition upstream_of (j : UpstreamRepoJSON) : UpstreamRepo := MkUpstreamRepo (ujGitHubProject j) (ujBranch j).
Definition upstreams (l : list UpstreamRepoJSON) : gmap GitHubRepo UpstreamRepo :=
  foldl (fun m j => <[ujGitHubProject j := upstream_of j]> m) ∅ l.

Lemma upstream_loop_spec (forked : Set_ GitHubRepo) (branch : gostring) l (err : list config_error) :
  let ok := Forall (upstream_entry_ok (values forked)) l /\ NoDup (map ujGitHubProject l) in
  let r := foldl (fun st j => upstream_body forked branch j st) (∅, err) l in
  (ok /\ r = (upstreams l, err)) \/ (~ ok /\ exists m e es, r = (m, err ++ e :: es)).
Proof.
  cbn zeta. set (used := fun (m : gmap GitHubRepo UpstreamRepo) k => is_Some (m !! k)).
  assert (forall m (j : UpstreamRepoJSON) k, used (<[ujGitHubProject j := upstream_of j]> m) k <-> k = ujGitHubProject j \/ used m k) as Hu.
  { intros m j k. unfold used. rewrite lookup_insert_is_Some'. naive_solver. }
  pose proof (all_ok_fresh (upstream_entry_ok (values forked)) ujGitHubProject ujGitHubProject used used _ Hu Hu l ∅) as Hfresh.
  destruct (accumulate (fun st j => upstream_body forked branch j st)
    (fun m j => upstream_entry_ok (values forked) j /\ ~ used m (ujGitHubProject j) /\ ~ used m (ujGitHubProject j))
    (fun m j => <[ujGitHubProject j := upstream_of j]> m)) with (l := l) (s := ∅ : gmap GitHubRepo UpstreamRepo) (err := err) as [[Hok Hr]|[Hno Hr]].
  - intros m e j. unfold upstream_body, upstream_entry_ok, used.
    destruct (parseGitHubRepo_spec (ujGitHubProject j)) as [[Hv ->]|[Hv ->]]; [|right; split; [naive_solver|by eexists _, _, []]].
    case_bool_decide as Hb; [right; split; [naive_solver|by eexists _, _, []]|].
    destruct (m !! ujGitHubProject j) eqn:E; [right; split; [intros (_ & Hn & _); apply Hn; by eexists|by eexists _, _, []]|].
    unfold Contains. case_bool_decide as Hf; cbn [negb]; [left|right; split; [naive_solver|by eexists _, _, []]].
    split; [|done]. split_and!; try done; by intros [? ?].
  - left. apply Hfresh in Hok as (H1 & H2 & _). done.
  - right. split; [|done]. intros [H1 H2]. apply Hno, Hfresh.
    split_and!; try done; apply Forall_forall; intros j _ [? Hj]; by rewrite lookup_empty in Hj.
Qed.

Lemma missing_loop_spec (branch : gostring) (m : gmap GitHubRepo UpstreamRepo) (order : list GitHubRepo) (err : list config_error) :
  foldl (fun err r => missing_body branch m r err) err order =
    err ++ map (MissingUpstream branch) (filter (fun k => m !! k = None) order).
Proof.
  revert err. induction order as [|k order IH]; intros err; [by rewrite app_nil_r|]. cbn [foldl]. unfold missing_body at 2.
  rewrite filter_cons, IH. destruct (m !! k); [by rewrite decide_False|]. rewrite decide_True by done.
  cbn [map]. unfold Join_. by rewrite <- app_assoc.
Qed.

(** *** The branch mappings *)
Record mapping_ok (forked : gset GitHubRepo) (j : BranchMappingJSON) : Prop := {
  mo_branch : bjLocalBranch j <> [];
  mo_upstream : bjUpstream j <> [];
  mo_entries : Forall (upstream_entry_ok forked) (bjUpstream j);
  mo_nodup : NoDup (map ujGitHubProject (bjUpstream j));
  mo_all : forall r, r ∈ forked -> r ∈ map ujGitHubProject (bjUpstream j) }.
Definition mapping_of (j : BranchMappingJSON) : BranchMapping :=
  MkBranchMapping (bjLocalBranch j) (MkUpstreamMap (upstreams (bjUpstream j))).
Definition mappings_of (l : list BranchMappingJSON) : gmap gostring BranchMapping :=
  foldl (fun m j => <[bjLocalBranch j := mapping_of j]> m) ∅ l.

Lemma zlen_eqb_0 {A} (l : list A) : (zlen l =? 0) = bool_decide (l = []).
Proof. destruct l as [|x l]; [done|]. rewrite bool_decide_false, zlen_cons by done. pose proof (zlen_nonneg l). lia. Qed.

Lemma missing_none (forked : gset GitHubRepo) l :
  filter (fun k => upstreams l !! k = None) (SortedValues le (map_order forked)) = [] <->
  (forall r, r ∈ forked -> r ∈ map ujGitHubProject l).
Proof.
  assert (forall r, r ∈ SortedValues le (map_order forked) <-> r ∈ forked) as Hin.
  { intros r. unfold SortedValues, sort_Slice. rewrite merge_sort_Permutation, Horder. apply elem_of_elements. }
  assert (forall r, is_Some (upstreams l !! r) <-> r ∈ map ujGitHubProject l) as Hup.
  { intros r. unfold upstreams. rewrite (insert_all_dom ujGitHubProject upstream_of), lookup_empty. split; [|by right].
    intros [[? ?]|?]; done. }
  split.
  - intros Hf r Hr. apply Hup. destruct (upstreams l !! r) eqn:E; [by eexists|]. exfalso.
    apply (filter_nil_not_elem_of _ _ r Hf E). by apply Hin.
  - intros Hall. destruct (filter _ _) as [|r rs] eqn:Hf; [done|]. exfalso.
    assert (r ∈ filter (fun k => upstreams l !! k = None) (SortedValues le (map_order forked))) as Hr by (rewrite Hf; by left).
    apply list_elem_of_filter in Hr as [Hn Hr]. apply Hin, Hall, Hup in Hr. rewrite Hn in Hr. by destruct Hr.
Qed.

Lemma mapping_body_spec (forked : Set_ GitHubRepo) (m : gmap gostring BranchMapping) (err : list config_error) j :
  let ok := mapping_ok (values forked) j /\ ~ is_Some (m !! bjLocalBranch j) in
  let r := mapping_body map_order le forked j (m, err) in
  (ok /\ r = (<[bjLocalBranch j := mapping_of j]> m, err)) \/ (~ ok /\ exists m' e es, r = (m', err ++ e :: es)).
Proof.
  cbn zeta. unfold mapping_body. case_bool_decide as H1; [right; split; [by intros [[] _]|by eexists _, _, []]|].
  rewrite zlen_eqb_0. case_bool_decide as H2; [right; split; [by intros [[] _]|by eexists _, _, []]|].
  destruct (m !! bjLocalBranch j) eqn:E; [right; split; [intros [_ Hn]; apply Hn; by eexists|by eexists _, _, []]|].
  destruct (upstream_loop_spec forked (bjLocalBranch j) (bjUpstream j) err) as [[[H3 H4] ->]|(Hno & m' & e & es & ->)].
  2:{ right. split; [intros [[] _]; by apply Hno|]. rewrite missing_loop_spec, <- app_assoc. by eexists _, _, _. }
  rewrite missing_loop_spec. pose proof (missing_none (values forked) (bjUpstream j)) as Hm. cbv zeta.
  destruct (filter _ _) as [|r rs]; [left|right].
  - rewrite app_nil_r. split; [|done]. split; [|by intros [? ?]]. split; try done. by apply Hm.
  - split; [intros [[] _]; by apply Hm in mo_all0|]. by eexists _, _, _.
Qed.

Lemma mappings_loop_spec (forked : Set_ GitHubRepo) l (err : list config_error) :
  let ok := Forall (mapping_ok (values forked)) l /\ NoDup (map bjLocalBranch l) in
  let r := foldl (fun st j => mapping_body map_order le forked j st) (∅, err) l in
  (ok /\ r = (mappings_of l, err)) \/ (~ ok /\ exists m e es, r = (m, err ++ e :: es)).
Proof.
  cbn zeta. set (used := fun (m : gmap gostring BranchMapping) k => is_Some (m !! k)).
  assert (forall m (j : BranchMappingJSON) k, used (<[bjLocalBranch j := mapping_of j]> m) k <-> k = bjLocalBranch j \/ used m k) as Hu.
  { intros m j k. unfold used. rewrite lookup_insert_is_Some'. naive_solver. }
  pose proof (all_ok_fresh (mapping_ok (values forked)) bjLocalBranch bjLocalBranch used used _ Hu Hu l ∅) as Hfresh.
  destruct (accumulate (fun st j => mapping_body map_order le forked j st)
    (fun m j => mapping_ok (values forked) j /\ ~ used m (bjLocalBranch j) /\ ~ used m (bjLocalBranch j))
    (fun m j => <[bjLocalBranch j := mapping_of j]> m)) with (l := l) (s := ∅ : gmap gostring BranchMapping) (err := err) as [[Hok Hr]|[Hno Hr]].
  - intros m e j. unfold used. destruct (mapping_body_spec forked m e j) as [[[? ?] ->]|[Hno Hr]]; [by left|right].
    split; [tauto|done].
  - left. apply Hfresh in Hok as (H1 & H2 & _). done.
  - right. split; [|done]. intros [H1 H2]. apply Hno, Hfresh.
    split_and!; try done; apply Forall_forall; intros j _ [? Hj]; by rewrite lookup_empty in Hj.
Qed.

(** *** The forked folders *)
Definition folder_path (j : ForkedFolderJSON) : RelPath := MkRelPath (lexical_spec (fjFolder j)).
Definition folder_of (j : ForkedFolderJSON) : ForkedFolder :=
  MkForkedFolder (fjFolder j) (fjGitHubProject j) (ValueOr (fjAutoSync j) true).
Definition folder_ok (j : ForkedFolderJSON) : Prop :=
  fjFolder j <> [] /\ is_rooted (fjFolder j) = false /\ valid_repo (fjGitHubProject j).
Definition folders_of (l : list ForkedFolderJSON) : gmap RelPath ForkedFolder :=
  foldl (fun m j => <[folder_path j := folder_of j]> m) ∅ l.
Definition repos_of (l : list ForkedFolderJSON) : gset GitHubRepo := list_to_set (map fjGitHubProject l).

Lemma ParseRelPath_unix s :
  ParseRelPath false s =
    Ret (if bool_decide (s = []) then inr (MkRelPathParseError RelPathParseErrorKind_Empty [])
         else if is_rooted s then inr (MkRelPathParseError RelPathParseErrorKind_NotRelative s)
         else inl (MkRelPath (lexical_spec s))).
Proof.
  unfold ParseRelPath. destruct s as [|c s]; [done|]. rewrite !bool_decide_false by done.
  change (IsAbs false (c :: s)) with (Ret (c =? SLASH)). change (is_rooted (c :: s)) with (sep c).
  rewrite bind_ret, sep_slash. destruct (c =? SLASH); [done|]. by rewrite lexically_normalize_unix_spec.
Qed.

(** The body of the loop on Unix, as a step on the maps and the errors. *)
Definition folder_step (st : (gmap RelPath ForkedFolder * Set_ GitHubRepo) * list config_error) (j : ForkedFolderJSON) :=
  match validateForkedFolders_body false j st with Ret st => st | _ => st end.

Lemma folder_step_spec m fr err j :
  let ok := folder_ok j /\ ~ is_Some (m !! folder_path j) /\ ~ fjGitHubProject j ∈ values fr in
  validateForkedFolders_body false j (m, fr, err) = Ret (folder_step (m, fr, err) j) /\
  ((ok /\ folder_step (m, fr, err) j =
      (<[folder_path j := folder_of j]> m, MkSet ({[fjGitHubProject j]} ∪ values fr), err)) \/
   (~ ok /\ exists s' e es, folder_step (m, fr, err) j = (s', err ++ e :: es))).
Proof.
  cbn zeta. unfold folder_step, validateForkedFolders_body, folder_ok. rewrite ParseRelPath_unix, !bind_ret.
  case_bool_decide as H1; [|destruct (is_rooted (fjFolder j)) eqn:H2].
  1,2: split; [repeat case_match; done|]; right; split; [naive_solver|];
    destruct (m !! MkRelPath []); [unfold Join_; rewrite <- app_assoc; by eexists _, _, _|];
    destruct (parseGitHubRepo _); [destruct (Insert fr _) as [fr' []]|]; cbn [negb]; unfold Join_; rewrite <- ?app_assoc; by eexists _, _, _.
  change (MkRelPath (lexical_spec (fjFolder j))) with (folder_path j).
  destruct (m !! folder_path j) eqn:E; [split; [done|]; right; split; [intros (_ & Hn & _); apply Hn; by eexists|by eexists _, _, []]|].
  destruct (parseGitHubRepo_spec (fjGitHubProject j)) as [[Hv ->]|[Hv ->]]; [|split; [done|]; right; split; [naive_solver|by eexists _, _, []]].
  unfold Insert. destruct (decide _) as [Hin|Hin]; cbn [negb]; (split; [done|]).
  - right. split; [naive_solver|by eexists _, _, []].
  - left. split; [|done]. split_and!; done.
Qed.

Lemma folder_loop_spec l err :
  let ok := Forall folder_ok l /\ NoDup (map folder_path l) /\ NoDup (map fjGitHubProject l) in
  exists r, for_list l (fun j st => st ← validateForkedFolders_body false j st; Ret (st, true)) (∅, NewSet, err) = Ret r /\
    ((ok /\ exists fr, values fr = repos_of l /\ r = (folders_of l, fr, err)) \/
     (~ ok /\ exists s e es, r = (s, err ++ e :: es))).
Proof.
  cbn zeta.
  assert (forall st, for_list l (fun j st => st ← validateForkedFolders_body false j st; Ret (st, true)) st = Ret (foldl folder_step st l)) as ->.
  { induction l as [|j l IH]; intros [[m fr] e]; [done|]. cbn [for_list foldl].
    destruct (folder_step_spec m fr e j) as [-> _]. rewrite !bind_ret. apply IH. }
  eexists. split; [done|].
  set (used1 := fun (s : gmap RelPath ForkedFolder * Set_ GitHubRepo) k => is_Some (s.1 !! k)). set (used2 := fun (s : gmap RelPath ForkedFolder * Set_ GitHubRepo) k => k ∈ values s.2).
  set (upd := fun (s : gmap RelPath ForkedFolder * Set_ GitHubRepo) j => (<[folder_path j := folder_of j]> s.1, MkSet ({[fjGitHubProject j]} ∪ values s.2))).
  assert (forall s j k, used1 (upd s j) k <-> k = folder_path j \/ used1 s k) as Hu1.
  { intros s j k. unfold used1, upd. cbn [fst]. rewrite lookup_insert_is_Some'. naive_solver. }
  assert (forall s j k, used2 (upd s j) k <-> k = fjGitHubProject j \/ used2 s k) as Hu2.
  { intros s j k. unfold used2, upd. cbn [snd values]. set_solver. }
  pose proof (all_ok_fresh folder_ok folder_path fjGitHubProject used1 used2 upd Hu1 Hu2 l (∅, NewSet)) as Hfresh.
  destruct (accumulate folder_step (fun s j => folder_ok j /\ ~ used1 s (folder_path j) /\ ~ used2 s (fjGitHubProject j)) upd)
    with (l := l) (s := (∅ : gmap RelPath ForkedFolder, NewSet : Set_ GitHubRepo)) (err := err) as [[Hok Hr]|[Hno Hr]].
  - intros [m fr] e j. apply (folder_step_spec m fr e j).
  - left. apply Hfresh in Hok as (H1 & H2 & H3 & _). split; [done|]. rewrite Hr. unfold folders_of, repos_of.
    assert (forall m fr, exists fr', foldl upd (m, fr) l = (foldl (fun m j => <[folder_path j := folder_of j]> m) m l, fr') /\
      values fr' = list_to_set (map fjGitHubProject l) ∪ values fr) as Hfold.
    { clear. induction l as [|j l IH]; intros m fr; [exists fr; split; [done|set_solver]|]. cbn [foldl upd fst snd map].
      destruct (IH (<[folder_path j := folder_of j]> m) (MkSet ({[fjGitHubProject j]} ∪ values fr))) as (fr' & E & Hv).
      exists fr'. split; [exact E|]. rewrite Hv. cbn [values list_to_set]. set_solver. }
    destruct (Hfold ∅ NewSet) as (fr & -> & Hv). exists fr. split; [|done]. rewrite Hv. cbn [values NewSet]. set_solver.
  - right. split; [|done]. intros (H1 & H2 & H3). apply Hno, Hfresh. split_and!; try done; apply Forall_forall; intros j _.
    + intros [? Hj]. unfold used1 in Hj. cbn in Hj. by rewrite lookup_empty in Hj.
    + unfold used2. cbn. set_solver.
Qed.

(** ** Main theorems *)
Record valid_config (wc : WorkspaceConfigJSON) : Prop := {
  vc_folders : wjForkedFolders wc <> [];
  vc_folder : Forall folder_ok (wjForkedFolders wc);
  vc_paths : NoDup (map folder_path (wjForkedFolders wc));
  vc_repos : NoDup (map fjGitHubProject (wjForkedFolders wc));
  vc_mappings : wjBranchMappings wc <> [];
  vc_mapping : Forall (mapping_ok (repos_of (wjForkedFolders wc))) (wjBranchMappings wc);
  vc_branches : NoDup (map bjLocalBranch (wjBranchMappings wc)) }.

Lemma Validate_cases wc :
  (valid_config wc /\ Validate false map_order le wc =
     Ret (inl (MkWorkspaceConfig (folders_of (wjForkedFolders wc)) (MkBranchMappings (mappings_of (wjBranchMappings wc)))))) \/
  (~ valid_config wc /\ exists e es, Validate false map_order le wc = Ret (inr (e :: es))).
Proof.
  unfold Validate, validateForkedFolders. rewrite zlen_eqb_0.
  set (err0 := if bool_decide (wjForkedFolders wc = []) then _ else _).
  destruct (folder_loop_spec (wjForkedFolders wc) err0) as (r & -> & [[(H1 & H2 & H3) (fr & Hfr & ->)]|(Hno & s & e & es & ->)]); rewrite bind_ret.
  2:{ right. split; [intros []; by apply Hno|]. destruct s as [ff fr]. rewrite bool_decide_true by (by destruct err0).
      rewrite bind_ret, bool_decide_true by (by destruct err0). destruct err0 as [|e0 err0]; by eexists _, _. }
  subst err0. destruct (bool_decide_reflect (wjForkedFolders wc = [])) as [H0|H0].
  { right. split; [by intros []|]. rewrite bool_decide_true, bind_ret, bool_decide_true by done. by eexists _, _. }
  rewrite bool_decide_false by (intros Hn; by apply Hn). rewrite bind_ret, bool_decide_false by (intros Hn; by apply Hn).
  unfold validateBranchMappings. rewrite zlen_eqb_0. set (err1 := if bool_decide (wjBranchMappings wc = []) then _ else _).
  destruct (mappings_loop_spec fr (wjBranchMappings wc) err1) as [[[H4 H5] ->]|(Hno & m & e & es & ->)].
  2:{ right. rewrite Hfr in Hno. split; [intros []; by apply Hno|]. rewrite bool_decide_true by (by destruct err1).
      rewrite bool_decide_true by (by destruct err1). destruct err1; by eexists _, _. }
  rewrite Hfr in H4. subst err1. destruct (bool_decide_reflect (wjBranchMappings wc = [])) as [H6|H6]; [right; split; [by intros []|rewrite !bool_decide_true by done; by eexists _, _]|left]. split; [by split|].
  rewrite bool_decide_false by (intros Hn; by apply Hn). by rewrite bool_decide_false by (intros Hn; by apply Hn).
Qed.

(** C29: [Validate] succeeds exactly on the valid configurations, never panics
    and otherwise reports at least one error; the maps it builds hold exactly
    the entries of the input, keyed by normalized folder, by branch and by
    upstream project. *)
Theorem config_validate_spec (wc : WorkspaceConfigJSON) :
  (valid_config wc ->
     exists cfg, Validate false map_order le wc = Ret (inl cfg) /\
       represents folder_path folder_of (ForkedFolders cfg) (wjForkedFolders wc) /\
       represents bjLocalBranch mapping_of (ByLocalBranch (cBranchMappings cfg)) (wjBranchMappings wc) /\
       Forall (fun j => represents ujGitHubProject upstream_of (ByGitHubRepo (bUpstreamMap (mapping_of j))) (bjUpstream j))
         (wjBranchMappings wc)) /\
  (~ valid_config wc -> exists e es, Validate false map_order le wc = Ret (inr (e :: es))).
Proof.
  split; intros Hv; destruct (Validate_cases wc) as [[Hv' Hr]|[Hv' Hr]]; try done.
  eexists. split; [exact Hr|]. destruct Hv. split_and!.
  - by apply insert_all_represents.
  - by apply insert_all_represents.
  - eapply Forall_impl; [exact vc_mapping0|]. intros j []. by apply insert_all_represents.
Qed.

(** In a validated configuration every project has an upstream on every
    configured branch, with the project's repository and a non-empty branch
    name; an unknown branch or project is reported as such, and no lookup
    fails for any other reason. *)
Theorem upstream_for_project_total (wc : WorkspaceConfigJSON) (cfg : WorkspaceConfig) (branch : gostring) (project : RelPath)
  (Hval : Validate false map_order le wc = Ret (inl cfg)) :
  UpstreamForProject cfg branch project =
    match ByLocalBranch (cBranchMappings cfg) !! branch, ForkedFolders cfg !! project with
    | None, _ => inr (NoBranchMapping branch)
    | Some _, None => inr (NotForkedFolder project)
    | Some m, Some f => inl (default (MkUpstreamRepo [] []) (ByGitHubRepo (bUpstreamMap m) !! fGitHubRepo f))
    end /\
  (forall m f, ByLocalBranch (cBranchMappings cfg) !! branch = Some m -> ForkedFolders cfg !! project = Some f ->
     exists up, UpstreamForProject cfg branch project = inl up /\ uGitHubRepo up = fGitHubRepo f /\ uBranch up <> []).
Proof.
  destruct (Validate_cases wc) as [[[] Hr]|(_ & e & es & Hr)]; rewrite Hval in Hr; [injection Hr as ->|done]. cbn [cBranchMappings ByLocalBranch ForkedFolders].
  unfold UpstreamForProject. cbn [cBranchMappings ByLocalBranch ForkedFolders].
  assert (forall m f, mappings_of (wjBranchMappings wc) !! branch = Some m -> folders_of (wjForkedFolders wc) !! project = Some f ->
    exists up, ByGitHubRepo (bUpstreamMap m) !! fGitHubRepo f = Some up /\ uGitHubRepo up = fGitHubRepo f /\ uBranch up <> []) as Htot.
  { intros m f Hm Hf. apply (insert_all_represents bjLocalBranch mapping_of) in Hm as (j & Hj & _ & <-); [|done].
    apply (insert_all_represents folder_path folder_of) in Hf as (jf & Hjf & _ & <-); [|done].
    rewrite Forall_forall in vc_mapping0. destruct (vc_mapping0 j Hj). cbn [fGitHubRepo folder_of].
    assert (fjGitHubProject jf ∈ map ujGitHubProject (bjUpstream j)) as Hin.
    { apply mo_all0, elem_of_list_to_set, list_elem_of_In, in_map, list_elem_of_In. done. }
    apply list_elem_of_In, in_map_iff in Hin as (ju & E & Hju%list_elem_of_In).
    exists (upstream_of ju). split_and!; [|done|].
    - apply (insert_all_represents ujGitHubProject upstream_of); [done|]. by exists ju.
    - rewrite Forall_forall in mo_entries0. by destruct (mo_entries0 ju Hju) as (_ & ? & _). }
  split.
  - destruct (mappings_of _ !! branch) as [m|] eqn:Hm; [|done]. destruct (folders_of _ !! project) as [f|] eqn:Hf; [|done].
    destruct (Htot m f eq_refl eq_refl) as (up & -> & _). done.
  - intros m f Hm Hf. rewrite Hm, Hf. destruct (Htot m f Hm Hf) as (up & -> & Hup). by exists up.
Qed.
End unix.

(** ** A sample configuration *)
Definition sample_config : WorkspaceConfigJSON :=
  MkWorkspaceConfigJSON
    [MkForkedFolderJSON (str "go") (str "golang/go") (None_ false); MkForkedFolderJSON (str "./tools") (str "golang/tools") (Some_ false)]
    [MkBranchMappingJSON (str "main") [MkUpstreamRepoJSON (str "golang/tools") (str "master"); MkUpstreamRepoJSON (str "golang/go") (str "release")]].
Definition sample_order : gset gostring -> list gostring := elements.
Definition sample_le : relation gostring := fun a b => strings_Compare a b <= 0.

#[export] Instance sample_le_dec a b : Decision (sample_le a b).
Proof. unfold sample_le. apply _. Defined.

Definition sample_cfg : WorkspaceConfig :=
  match Validate false sample_order sample_le sample_config with
  | Ret (inl cfg) => cfg
  | _ => MkWorkspaceConfig ∅ (MkBranchMappings ∅)
  end.
Lemma sample_validates : Validate false sample_order sample_le sample_config = Ret (inl sample_cfg).
Proof. vm_compute. reflexivity. Qed.

Lemma config_validate_spec_witness :
  exists e es, Validate false sample_order sample_le (MkWorkspaceConfigJSON (wjForkedFolders sample_config) []) = Ret (inr (e :: es)).
Proof.
  apply (config_validate_spec sample_order (fun s => reflexivity _) sample_le). intros [_ _ _ _ H _ _]. by apply H.
Defined.
Lemma upstream_for_project_total_witness :
  UpstreamForProject sample_cfg (str "main") (MkRelPath (str "tools")) = inl (MkUpstreamRepo (str "golang/tools") (str "master")).
Proof.
  destruct (upstream_for_project_total sample_order (fun s => reflexivity _) sample_le sample_config sample_cfg
              (str "main") (MkRelPath (str "tools")) sample_validates) as [H _].
  rewrite H. vm_compute. reflexivity.
Defined.

(** Two distinct folders that do not parse are both recorded under the zero
    path: the second one is also reported as a duplicate. *)
Lemma invalid_folders_reported_duplicate :
  exists errs, Validate false sample_order sample_le
    (MkWorkspaceConfigJSON
       [MkForkedFolderJSON (str "/a") (str "o/a") (None_ false); MkForkedFolderJSON (str "/b") (str "o/b") (None_ false)]
       (wjBranchMappings sample_config)) = Ret (inr errs) /\
    DuplicateFolder (str "/b") ∈ errs.
Proof. eexists. split; [vm_compute; reflexivity|]. vm_compute. do 2 right. left. Qed.
