(* ===== verification/ExeSearch.v ===== *)
(** * Executable lookup ([envx/envx_path/find_executable.go])

    [FindExecutable] over any [FS] and environment.  The file system's errors
    are values of [E], inspected by [errorx]; [quote] is the [%q] verb,
    [ToUpper] and [ToLower] are those of [strings].  [errorx.Wrapf] is a call to
    a third-party package: a wrapped error is the value [Wrapf] of its
    arguments. *)
From S2P Require Import Prelude Core Iterx Errorx Env GoFilepath CleanSpec Lexical PathComponents RelSpec PathTypes PathLaws Fsx.
#[local] Open Scope Z_scope.

Section ext.
Context (windows : bool).
Fixpoint Ext_loop (fuel : nat) (path : gostring) (i : Z) : go gostring :=
  match fuel with
  | O => OutOfFuel
  | S fuel =>
      if 0 <=? i then
        c ← index path i;
        if GoFilepath.IsPathSeparator windows c then Ret []
        else if c =? DOT then slice_from path i else Ext_loop fuel path (i - 1)
      else Ret []
  end.
Definition Ext (path : gostring) : go gostring := Ext_loop (S (length path)) path (zlen path - 1).
End ext.

Section exe.
Context (windows : bool) (EqualFold : gostring -> gostring -> bool) (quote ToUpper ToLower : gostring -> gostring).
Context {E : Type} `{EqDecision E} (methods : E -> method_set E) (zero_link : @ChainLink E) `{!FS E}.
(** [fsx.ErrNotExist] and the package's [NotExecutableErr]. *)
Context (ErrNotExist NotExecutableErr : E).
Abbreviation GetRootCauseAsValue := (GetRootCauseAsValue methods zero_link).

Record IgnoredPath := MkIgnoredPath { ipath : AbsPath; ierr : E }.
Inductive sentinel := ErrDot | OsErrNotExist.
Inductive base_error := ProblemErr (p : Problem) | Wrapf (cause : sentinel) (msg : gostring).
Inductive exe_error := Bare (e : base_error) | ExeSearchError (inner : base_error) (ignoredPaths : list IgnoredPath).

Definition ExeSearchError_IgnoredPaths (ignored : list IgnoredPath) : list IgnoredPath := ignored.
Definition wrapIgnored (err : base_error) (ignoredPaths : list IgnoredPath) : exe_error :=
  if zlen ignoredPaths =? 0 then Bare err else ExeSearchError err ignoredPaths.

(** The message, given those of the errors in it; [itoa] formats an [int]. *)
Definition ExeSearchError_Error (itoa : Z -> gostring) (inner_msg : gostring) (E_Error : E -> gostring)
    (ignored : list IgnoredPath) : go gostring :=
  foldl (fun acc ip =>
    b ← acc;
    not_exe ← GetRootCauseAsValue (Some (ierr ip)) (Some NotExecutableErr);
    Ret (b ++ [10] ++
         (if (not_exe : bool) then str "ignored " ++ quote (avalue (ipath ip)) ++ str " as it was not executable"
          else str "ignored " ++ quote (avalue (ipath ip)) ++ str " due to Stat error " ++ E_Error (ierr ip))))
    (Ret (inner_msg ++ str " (" ++ itoa (zlen ignored) ++ str " candidates ignored)")) ignored.

(** ** Where to look *)
Record searchDir := MkSearchDir { pathEntry : gostring; isRelative : bool }.
Definition PathListSeparator : Z := if windows then 59 else 58.

Definition searchDirs (pathEnvVar : gostring) : Seq searchDir := fun St yield st =>
  for_list (split_on PathListSeparator pathEnvVar)
    (fun entry st =>
       if bool_decide (entry = []) then Ret (st, true)
       else abs ← IsAbs windows entry; Ret (yield (MkSearchDir entry (negb abs)) st)) st.

Definition candidatePaths (env : Env) (base : AbsPath) : Seq AbsPath := fun St yield st =>
  single ← (if negb windows then Ret true else ext ← Ext windows (avalue base); Ret (negb (bool_decide (ext = []))));
  if (single : bool) then Ret (fst (yield base st))
  else
    let pathExt :=
      match Env.Lookup windows ToUpper env (str "PATHEXT") with
      | None | Some [] => str ".com;.exe;.bat;.cmd"
      | Some pathExt => pathExt
      end in
    for_list (split_on 59 (ToLower pathExt))
      (fun ext st =>
         if bool_decide (ext = []) then Ret (st, true)
         else p ← AbsPath_AppendExtension windows base ext; Ret (yield p st)) st.

Definition isExecutableCandidate (mode : Z) : bool := if windows then true else negb (Z.land mode 73 =? 0).

(** ** The search

    The state of both loops: the ignored paths, and what the function has
    returned, if it has. *)
Definition search_state : Type := list IgnoredPath * option (AbsPath * option exe_error).
Definition zeroAbsPath : AbsPath := MkAbsPath [].

Definition candidate_body (searchDir : searchDir) (candidatePath : AbsPath) (st : search_state) : go (search_state * bool) :=
  let '(ignoredPaths, ret) := st in
  rootRel ← AbsPath_MakeRelativeTo windows EqualFold candidatePath Root;
  match rootRel with
  | None => _ ← Invariant false; Ret (st, false)
  | Some rootRel =>
      match fsStat (RootRelPath_Rel rootRel) (MkStatOptions true false) with
      | inr statErr =>
          not_exist ← GetRootCauseAsValue (Some statErr) (Some ErrNotExist);
          if negb not_exist then Ret ((ignoredPaths ++ [MkIgnoredPath candidatePath statErr], ret), true) else Ret (st, true)
      | inl info =>
          if fi_IsDir info then Ret (st, true)
          else if negb (isExecutableCandidate (fi_mode info)) then
            Ret ((ignoredPaths ++ [MkIgnoredPath candidatePath NotExecutableErr], ret), true)
          else if isRelative searchDir then
            let err := Wrapf ErrDot (str "PATH entry " ++ quote (pathEntry searchDir) ++ str " resolved executable "
                                      ++ avalue candidatePath ++ str " relative to filesystem root") in
            Ret ((ignoredPaths, Some (candidatePath, Some (wrapIgnored err ignoredPaths))), false)
          else Ret ((ignoredPaths, Some (candidatePath, None)), false)
      end
  end.

Definition search_body (env : Env) (name : gostring) (searchDir : searchDir) (st : search_state) : go (search_state * bool) :=
  let '(ignoredPaths, ret) := st in
  dir ← (if isRelative searchDir then rel ← MustParseRelPath windows (pathEntry searchDir); AbsPath_Join windows Root rel
         else MustParseAbsPath windows (pathEntry searchDir));
  inside ← AbsPath_MakeRelativeTo windows EqualFold dir Root;
  match inside with
  | None =>
      err ← NewProblem Code_AccessDenied
              (str "PATH entry " ++ quote (pathEntry searchDir) ++ str " resolves outside filesystem root " ++ quote (avalue Root));
      Ret ((ignoredPaths, Some (zeroAbsPath, Some (wrapIgnored (ProblemErr err) ignoredPaths))), false)
  | Some _ =>
      base ← AbsPath_JoinComponents windows dir [name];
      st ← for_range (candidatePaths env base) (candidate_body searchDir) st;
      Ret (st, match st.2 with None => true | Some _ => false end)
  end.

Definition FindExecutable (env : Env) (name : gostring) : go (AbsPath * option exe_error) :=
  _ ← Precondition (negb (bool_decide (name = [])));
  _ ← Precondition (negb (HasPathSeparators windows name));
  match Env.Lookup windows ToUpper env (str "PATH") with
  | None | Some [] =>
      p ← NewProblem Code_InvalidArgument (str "PATH must be set and non-empty");
      Ret (zeroAbsPath, Some (Bare (ProblemErr p)))
  | Some pathEnvVar =>
      '(ignoredPaths, ret) ← for_range (searchDirs pathEnvVar) (search_body env name) ([], None);
      match ret with
      | Some r => Ret r
      | None =>
          let err := Wrapf OsErrNotExist (str "failed to find executable " ++ quote name ++ str " in PATH " ++ quote pathEnvVar) in
          Ret (zeroAbsPath, Some (wrapIgnored err ignoredPaths))
      end
  end.
End exe.

(** ** The search on Unix *)
Section unix.
Context (EqualFold : gostring -> gostring -> bool) (quote ToUpper ToLower : gostring -> gostring).
Context {E : Type} `{EqDecision E} (methods : E -> method_set E) (zero_link : @ChainLink E) `{!FS E}.
Context (ErrNotExist NotExecutableErr : E) (er : list gostring) (rtr : bool) (Hroot : wf_abs Root er rtr).
(** No error of the file system nests deeper than the limit of [errorx]: being
    "does not exist" is a decided property of them. *)
Context (not_exist : E -> bool)
  (Hnot_exist : forall e, GetRootCauseAsValue methods zero_link (Some e) (Some ErrNotExist) = Ret (not_exist e)).

(** *** What an entry of PATH stands for *)

(** The elements of the directory it names: relative entries start at the root. *)
Definition entry_elems (entry : gostring) : list gostring :=
  if is_rooted entry then abs_elems entry else take (length er - rel_ups entry) er ++ rel_elems_of entry.
Definition inside (entry : gostring) : bool := bool_decide (er `prefix_of` entry_elems entry).
Definition candidate (name entry : gostring) : AbsPath := abs_path (entry_elems entry ++ [name]) false.

Inductive probe_result := Skip | Ignore (err : E) | Hit.
Definition probe (name entry : gostring) : probe_result :=
  match fsStat (rel_path 0 (drop (length er) (entry_elems entry) ++ [name]) false) (MkStatOptions true false) with
  | inr e => if not_exist e then Skip else Ignore e
  | inl info =>
      if fi_IsDir info then Skip else if Z.land (fi_mode info) 73 =? 0 then Ignore NotExecutableErr else Hit
  end.
Definition is_hit (r : probe_result) : bool := match r with Hit => true | _ => false end.

(** The search ends at the first entry that is outside the root or has the executable. *)
Definition deciding (name entry : gostring) : bool := negb (inside entry) || is_hit (probe name entry).
Fixpoint before {A} (f : A -> bool) (l : list A) : list A * option A :=
  match l with
  | [] => ([], None)
  | x :: l => if f x then ([], Some x) else let '(pre, r) := before f l in (x :: pre, r)
  end.
Definition ignored_by (name : gostring) (entries : list gostring) : list IgnoredPath :=
  omap (fun entry => match probe name entry with Ignore err => Some (MkIgnoredPath (candidate name entry) err) | _ => None end) entries.

Definition non_empty (entries : list gostring) : list gostring := List.filter (fun e => negb (bool_decide (e = []))) entries.

(** *** The iterators *)
Lemma IsAbs_unix_rooted s : IsAbs false s = Ret (is_rooted s).
Proof. destruct s as [|c s]; [done|]. change (IsAbs false (c :: s)) with (Ret (c =? SLASH)). by rewrite <- sep_slash. Qed.

Definition to_searchDir (entry : gostring) : searchDir := MkSearchDir entry (negb (is_rooted entry)).
Lemma searchDirs_enumerates path :
  Enumerates (searchDirs false path) (map to_searchDir (non_empty (split_on 58 path))).
Proof.
  intros St yield st. unfold searchDirs. change (PathListSeparator false) with 58. generalize (split_on 58 path).
  intros l. revert st. induction l as [|e l IH]; intros st; [done|]. cbn [for_list non_empty List.filter].
  case_bool_decide as He; cbn [negb]; [apply IH|]. rewrite IsAbs_unix_rooted, bind_ret. cbn [map range_yield].
  fold (to_searchDir e). destruct (yield _ st) as [st' []]; cbn [fst]; [apply IH|done].
Qed.
Lemma candidatePaths_enumerates env base : Enumerates (candidatePaths false ToUpper ToLower env base) [base].
Proof. intros St yield st. cbn. by destruct (yield base st) as [st' []]. Qed.

Lemma entry_elems_plain entry : Forall plain (entry_elems entry).
Proof.
  pose proof (wa_plain _ _ _ Hroot) as Hp. unfold entry_elems. destruct (is_rooted entry) eqn:Hr; [apply abs_elems_plain|].
  apply Forall_app. split; [by apply Forall_take|]. apply (wr_plain _ _ _ _ (lexical_rel_state entry Hr)).
Qed.

(** The directory an entry names is computed without panicking. *)
Lemma search_dir entry :
  entry <> [] ->
  exists tr, (if isRelative (to_searchDir entry) then rel ← MustParseRelPath false entry; AbsPath_Join false Root rel
              else MustParseAbsPath false entry) = Ret (abs_path (entry_elems entry) tr).
Proof.
  intros Hne. cbn [to_searchDir isRelative]. unfold entry_elems. destruct (is_rooted entry) eqn:Hr; cbn [negb].
  - rewrite parse_abs by done. exists (trailing entry && bool_decide (abs_elems entry <> [])).
    by rewrite (wa_path _ _ _ (lexical_abs entry Hr)).
  - rewrite parse_rel, bind_ret by done. destruct (lexical_rel_state entry Hr) as [Hp _ Heq]. rewrite Heq.
    destruct Hroot as [Her _ HR]. rewrite HR, AbsPath_Join_rel by done. by exists false.
Qed.

Lemma JoinComponents_name es tr name :
  Forall plain es -> plain name -> AbsPath_JoinComponents false (abs_path es tr) [name] = Ret (abs_path (es ++ [name]) false).
Proof.
  intros Hp Hn. rewrite AbsPath_JoinComponents_spec by done. cbn [forallb]. rewrite plain_separators by done. cbn [negb andb].
  destruct Hn as ((Hne & Hs) & Hdd & Hd). cbn [List.filter]. rewrite bool_decide_false by done. cbn [negb].
  rewrite fold_step_elems by (by constructor). cbn [elems rev app]. by rewrite rev_involutive.
Qed.

(** *** The loops *)
Abbreviation candidate_body_unix := (candidate_body false EqualFold quote methods zero_link ErrNotExist NotExecutableErr).
Abbreviation search_body_unix := (search_body false EqualFold quote ToUpper ToLower methods zero_link ErrNotExist NotExecutableErr).

Definition hit_result (name entry : gostring) (ig : list (@IgnoredPath E)) : AbsPath * option (@exe_error E) :=
  if is_rooted entry then (candidate name entry, None)
  else (candidate name entry, Some (wrapIgnored (Wrapf ErrDot
    (str "PATH entry " ++ quote entry ++ str " resolved executable " ++ avalue (candidate name entry)
     ++ str " relative to filesystem root")) ig)).

Lemma candidate_body_spec name entry ig :
  plain name -> inside entry = true ->
  candidate_body_unix (to_searchDir entry) (candidate name entry) (ig, None) =
    Ret (match probe name entry with
         | Skip => ((ig, None), true)
         | Ignore err => ((ig ++ [MkIgnoredPath (candidate name entry) err], None), true)
         | Hit => ((ig, Some (hit_result name entry ig)), false)
         end).
Proof.
  intros Hn [et Het]%bool_decide_eq_true. unfold candidate_body, probe.
  assert (AbsPath_MakeRelativeTo false EqualFold (candidate name entry) Root =
    Ret (Some (MkRootRelPath Root (rel_path 0 (drop (length er) (entry_elems entry) ++ [name]) false)))) as ->.
  { unfold candidate. pose proof (entry_elems_plain entry) as Hp. rewrite Het in *. destruct Hroot as [_ _ ->].
    rewrite drop_app_length, <- app_assoc, MakeRelativeTo_below; [done|].
    rewrite app_assoc. apply Forall_app. split; [done|by constructor]. }
  rewrite bind_ret. cbn [RootRelPath_Rel rrvalue].
  destruct (fsStat _ _) as [info|e].
  - destruct (fi_IsDir info); [done|]. unfold isExecutableCandidate. rewrite negb_involutive.
    destruct (Z.land _ 73 =? 0); [done|]. unfold hit_result. cbn [to_searchDir isRelative pathEntry].
    by destruct (is_rooted entry).
  - rewrite Hnot_exist, bind_ret. by destruct (not_exist e).
Qed.

Lemma search_body_spec env name entry ig :
  entry <> [] -> plain name ->
  search_body_unix env name (to_searchDir entry) (ig, None) =
    Ret (if inside entry then
           match probe name entry with
           | Skip => ((ig, None), true)
           | Ignore err => ((ig ++ [MkIgnoredPath (candidate name entry) err], None), true)
           | Hit => ((ig, Some (hit_result name entry ig)), false)
           end
         else ((ig, Some (zeroAbsPath, Some (wrapIgnored (ProblemErr (MkProblem Code_AccessDenied
                (str "PATH entry " ++ quote entry ++ str " resolves outside filesystem root " ++ quote (avalue Root)))) ig))), false)).
Proof.
  intros Hne Hn. unfold search_body. cbn [pathEntry to_searchDir].
  destruct (search_dir entry Hne) as (tr & Hdir). cbn [to_searchDir isRelative] in Hdir |- *. rewrite Hdir, bind_ret.
  pose proof (entry_elems_plain entry) as Hp. unfold inside. case_bool_decide as Hin.
  - assert (AbsPath_MakeRelativeTo false EqualFold (abs_path (entry_elems entry) tr) Root =
      Ret (Some (MkRootRelPath Root (rel_path 0 (drop (length er) (entry_elems entry)) false)))) as ->.
    { destruct Hin as [et E']. rewrite E' in *. destruct Hroot as [_ _ ->]. by rewrite MakeRelativeTo_below, drop_app_length. }
    rewrite bind_ret, JoinComponents_name, bind_ret by done.
    rewrite (for_range_spec _ _ _ _ (candidatePaths_enumerates env _)). cbn [for_list].
    pose proof (candidate_body_spec name entry ig Hn (bool_decide_eq_true_2 _ Hin)) as Hb. unfold candidate at 1 in Hb.
    fold (to_searchDir entry). rewrite Hb, bind_ret. by destruct (probe name entry).
  - assert (AbsPath_MakeRelativeTo false EqualFold (abs_path (entry_elems entry) tr) Root = Ret None) as ->.
    { destruct Hroot as [Her _ ->]. by rewrite MakeRelativeTo_outside. }
    done.
Qed.

Lemma ignored_by_cons name entry entries :
  ignored_by name (entry :: entries) =
    match probe name entry with Ignore err => [MkIgnoredPath (candidate name entry) err] | _ => [] end ++ ignored_by name entries.
Proof. unfold ignored_by. cbn [omap list_omap]. by destruct (probe name entry). Qed.

(** The outcome of the search, after the paths [ig] have been ignored. *)
Definition outcome_from (name : gostring) (entries : list gostring) (ig : list (@IgnoredPath E)) : @search_state E :=
  let '(pre, first) := before (deciding name) entries in
  let ig := ig ++ ignored_by name pre in
  (ig, (fun entry =>
     if inside entry then hit_result name entry ig
     else (zeroAbsPath, Some (wrapIgnored (ProblemErr (MkProblem Code_AccessDenied
       (str "PATH entry " ++ quote entry ++ str " resolves outside filesystem root " ++ quote (avalue Root)))) ig))) <$> first).

Lemma search_loop_spec env name entries ig :
  Forall (fun e => e <> []) entries -> plain name ->
  for_list (map to_searchDir entries) (search_body_unix env name) (ig, None) = Ret (outcome_from name entries ig).
Proof.
  intros Hes Hn. revert ig. induction Hes as [|entry entries He _ IH]; intros ig.
  { unfold outcome_from. cbn. by rewrite app_nil_r. }
  cbn [map for_list]. rewrite search_body_spec by done. unfold outcome_from. cbn [before]. unfold deciding at 1.
  destruct (inside entry) eqn:Hin; cbn [negb orb]; rewrite bind_ret.
  2:{ cbn [ignored_by omap list_omap fmap option_fmap option_map]. by rewrite app_nil_r, Hin. }
  destruct (probe name entry) eqn:Hpr; cbn [is_hit].
  - rewrite IH. unfold outcome_from. destruct (before _ entries) as [pre first]. rewrite ignored_by_cons, Hpr. done.
  - rewrite IH. unfold outcome_from. destruct (before _ entries) as [pre first]. rewrite ignored_by_cons, Hpr, <- app_assoc. done.
  - cbn [ignored_by omap list_omap fmap option_fmap option_map]. by rewrite app_nil_r, Hin.
Qed.

(** ** Main theorem *)

(** C30: [FindExecutable] on Unix, for any file system, environment and plain
    name: PATH must be set; its non-empty entries are tried in order up to the
    first that lies outside the root (access denied) or has an executable file,
    which is returned, together with [ErrDot] if the entry is relative; else the
    error is "does not exist".  Exactly the candidates passed over that exist
    without being executable, or whose [Stat] failed otherwise, are recorded;
    the candidate never escapes the root and nothing panics. *)
Theorem find_executable_spec (env : Env) (name : gostring) (Hname : plain name) :
  FindExecutable false EqualFold quote ToUpper ToLower methods zero_link ErrNotExist NotExecutableErr env name =
    Ret (match Env.Lookup false ToUpper env (str "PATH") with
         | None | Some [] => (zeroAbsPath, Some (Bare (ProblemErr (MkProblem Code_InvalidArgument (str "PATH must be set and non-empty")))))
         | Some path =>
             let '(pre, first) := before (deciding name) (non_empty (split_on 58 path)) in
             match first with
             | None => (zeroAbsPath, Some (wrapIgnored (Wrapf OsErrNotExist
                 (str "failed to find executable " ++ quote name ++ str " in PATH " ++ quote path)) (ignored_by name pre)))
             | Some entry =>
                 if inside entry then hit_result name entry (ignored_by name pre)
                 else (zeroAbsPath, Some (wrapIgnored (ProblemErr (MkProblem Code_AccessDenied
                        (str "PATH entry " ++ quote entry ++ str " resolves outside filesystem root " ++ quote (avalue Root))))
                        (ignored_by name pre)))
             end
         end).
Proof.
  unfold FindExecutable. rewrite bool_decide_false by apply Hname. rewrite plain_separators by done. cbn [negb Precondition].
  rewrite !bind_ret. destruct (Env.Lookup _ _ _ _) as [[|c path]|]; [done| |done].
  rewrite (for_range_spec _ _ _ _ (searchDirs_enumerates (c :: path))), search_loop_spec; [|apply List.Forall_forall|done].
  - rewrite bind_ret. unfold outcome_from. destruct (before _ _) as [pre [entry|]]; done.
  - intros e [_ He]%filter_In. by intros ->.
Qed.
End unix.

(** ** A sample file system: "/r" with the executable "bin/x" and the file "bin/y" *)
Definition leaf_methods (e : Z) : method_set Z := MkMethods Z None None None None.
Definition sample_fs : FS Z := {|
  Root := MkAbsPath (str "/r");
  fsStat := fun p _ => if bool_decide (rvalue p = str "bin/x") then inl (MkFileInfo false 493)
                       else if bool_decide (rvalue p = str "bin/y") then inl (MkFileInfo false 420) else inr 1;
  fsReadFile := fun _ => inr 1;
  fsReadDir := fun _ => FromSlice []
|}.
Definition no_fold (a b : gostring) : bool := false.
Definition sample_env (path : gostring) : Env :=
  match Env.New false id [(str "PATH", path)] with Ret env => env | _ => Env.Empty end.
Definition sample_find (path name : gostring) : go (AbsPath * option (@exe_error Z)) :=
  @FindExecutable false no_fold id id id Z _ leaf_methods (MkChainLink 0 linkNormal) sample_fs 1 2 (sample_env path) name.

Lemma find_executable_spec_witness :
  sample_find (str "/r:bin/:/tmp") (str "x") =
    Ret (MkAbsPath (str "/r/bin/x"),
         Some (Bare (Wrapf ErrDot (str "PATH entry bin/ resolved executable /r/bin/x relative to filesystem root")))).
Proof.
  assert (@wf_abs (@Root Z sample_fs) [str "r"] false) as Hwf by (split; [repeat constructor; vm_compute; discriminate|done|reflexivity]).
  unfold sample_find.
  rewrite (@find_executable_spec no_fold id id id Z _ leaf_methods (MkChainLink 0 linkNormal) sample_fs 1 2 [str "r"] false Hwf
             (fun e => bool_decide (e = 1)) (fun e => eq_refl) (sample_env (str "/r:bin/:/tmp")) (str "x")).
  - vm_compute. reflexivity.
  - repeat split; try (vm_compute; discriminate).
Defined.

(** The precondition admits the name "..", for which the invariant that the
    candidate stays inside the root does not hold. *)
Lemma find_executable_dotdot_panics : sample_find (str "/r") (str "..") = Panic InvariantViolation.
Proof. vm_compute. reflexivity. Qed.
