(* ===== verification/FsWalk.v ===== *)
(** * Directory walking ([fsx/fsx_walk/walk.go], [fsx/fsx_walk/errors.go])

    The lists of matchers are slices that parent and child iterators share: they
    live in the store of GoSlice, and an iterator threads that store through its
    consumer, which may run other iterators in the middle.  The .gitignore
    parser is a third-party package: its functions are parameters.  The messages
    of errors are in WalkErrors. *)
From S2P Require Import Prelude Core Iterx Errorx GoFilepath LineTable PathTypes Fsx GoSlice.
#[local] Open Scope Z_scope.

(** ** File modes ([io/fs.FileMode]) *)
Definition ModeDir : Z := Z.shiftl 1 31.
(** ModeDir, ModeSymlink, ModeDevice, ModeNamedPipe, ModeSocket, ModeCharDevice and ModeIrregular. *)
Definition ModeType : Z :=
  fold_left (fun m i => Z.lor m (Z.shiftl 1 i)) [31; 27; 26; 25; 24; 21; 19] 0.
Definition FileMode_IsDir (m : Z) : bool := negb (Z.land m ModeDir =? 0).
Definition FileMode_IsRegular (m : Z) : bool := Z.land m ModeType =? 0.

Section walk.
Context (windows : bool) {E : Type} `{EqDecision E} (methods : E -> method_set E) (zero_link : @ChainLink E) `{!FS E}.
Context (ErrNotExist : E).
Abbreviation GetRootCauseAsValue := (GetRootCauseAsValue methods zero_link).

(** *** The .gitignore package: [New] with a handler that keeps all errors, a
    matcher's [Relative], and the methods of matches and of errors. *)
Context {Matcher Match GErr : Type} (zero_matcher : Matcher).
Context (gi_New : gostring -> gostring -> Matcher * list GErr) (gi_Relative : Matcher -> gostring -> bool -> option Match).
Context (m_Ignore : Match -> bool) (m_Line m_Column : Match -> Z) (m_String : Match -> gostring).
Context (ge_Zero : GErr -> bool) (ge_Line ge_Column : GErr -> Z).
(** The capacity of reallocated slices. *)
Context (grow : nat -> nat).

(** ** Errors *)
Inductive WalkErrorKind :=
  | WalkErrorKind_IOFailed | WalkErrorKind_RootNotDir | WalkErrorKind_ParseGitIgnore
  | WalkErrorKind_FSRootNotRepo | WalkErrorKind_RootIsIgnored.
#[export] Instance WalkErrorKind_eq_dec : EqDecision WalkErrorKind.
Proof. solve_decision. Defined.

Record GitIgnoreParseErrors := MkGitIgnoreParseErrors { perrs : list GErr; psnippets : list Snippet }.
(** The underlying error of a [WalkError]. *)
Inductive walk_cause := IOCause (e : E) | ParseCause (e : GitIgnoreParseErrors).
Record WalkError := MkWalkError
  { wkind : WalkErrorKind; wpath : AbsPath; werr : option walk_cause; wpattern : option Snippet }.

Definition WalkError_Kind (e : WalkError) : WalkErrorKind := wkind e.
Definition WalkError_Path (e : WalkError) : AbsPath := wpath e.
Definition WalkError_Unwrap (e : WalkError) : option walk_cause := werr e.
Definition GitIgnorePattern (e : WalkError) : go Snippet :=
  _ ← Precondition (bool_decide (wkind e = WalkErrorKind_RootIsIgnored));
  match wpattern e with Some s => Ret s | None => _ ← Invariant false; PanicInvariantViolation end.

Definition newWalkError (kind : WalkErrorKind) (path : AbsPath) : WalkError := MkWalkError kind path None None.
Definition withErr (e : WalkError) (err : walk_cause) : go WalkError :=
  _ ← Precondition (match werr e with None => true | Some _ => false end);
  Ret (MkWalkError (wkind e) (wpath e) (Some err) (wpattern e)).
Definition withGitIgnorePattern (e : WalkError) (pattern : Snippet) : go WalkError :=
  _ ← Precondition (match wpattern e with None => true | Some _ => false end);
  Ret (MkWalkError (wkind e) (wpath e) (werr e) (Some pattern)).

Fixpoint gitIgnoreErrorSnippets_loop (ignoreFile : RelPath) (lines : list gostring) (errs : list GErr) (snippets : list Snippet)
    : go (list Snippet) :=
  match errs with
  | [] => Ret snippets
  | e :: errs =>
      if ge_Zero e then gitIgnoreErrorSnippets_loop ignoreFile lines errs snippets
      else
        let lineIndex := int64 (ge_Line e - 1) in
        _ ← Invariant ((0 <=? lineIndex) && (lineIndex <? zlen lines));
        pos ← NewPosition (int32 (ge_Line e)) (int32 (ge_Column e));
        text ← index lines lineIndex;
        gitIgnoreErrorSnippets_loop ignoreFile lines errs (snippets ++ [MkSnippet (RelPath_String ignoreFile) pos text])
  end.
Definition gitIgnoreErrorSnippets (ignoreFile : RelPath) (content : gostring) (errs : list GErr) : go (list Snippet) :=
  gitIgnoreErrorSnippets_loop ignoreFile (split_on 10 content) errs [].
Definition newGitIgnoreParseErrors (ignoreFile : RelPath) (content : gostring) (errs : list GErr) : go GitIgnoreParseErrors :=
  _ ← Precondition (0 <? zlen errs);
  snippets ← gitIgnoreErrorSnippets ignoreFile content errs;
  Ret (MkGitIgnoreParseErrors errs snippets).
Definition GitIgnoreParseErrors_Unwrap (e : GitIgnoreParseErrors) : list GErr := perrs e.
Definition GitIgnoreParseErrors_Snippets (e : GitIgnoreParseErrors) : list Snippet := psnippets e.

(** ** Walkers and entries *)
Record gitIgnoreMatcher := MkMatcher { matcher : Matcher; gdir : RelPath; ignoreFile : RelPath }.
Definition zeroMatcher : gitIgnoreMatcher := MkMatcher zero_matcher (MkRelPath []) (MkRelPath []).
Abbreviation heap := (GoSlice.store gitIgnoreMatcher).
Abbreviation slice_append := (GoSlice.append zeroMatcher grow).

Record WalkOptions := MkWalkOptions { RespectGitIgnore : bool }.
Record walkDirSeq := MkWalkDirSeq { sdir : RelPath; parentMatchers : Slice }.
Record FSWalkEntry := MkFSWalkEntry { ename : Name; children : option walkDirSeq }.

Definition FSWalkEntry_Name (e : FSWalkEntry) : Name := ename e.
Definition FSWalkEntry_IsDir (e : FSWalkEntry) : bool := match children e with Some _ => true | None => false end.
Definition ChildrenNonDet (e : FSWalkEntry) : go walkDirSeq :=
  _ ← Precondition (FSWalkEntry_IsDir e);
  match children e with Some c => Ret c | None => Panic NilDereference end.

Definition zeroEntry : FSWalkEntry := MkFSWalkEntry (MkName []) None.
Definition fail_ (e : WalkError) : go (Result FSWalkEntry WalkError) := Failure zeroEntry (Some e).

Context (opts : WalkOptions).

Definition walkDir (dir : RelPath) (parent : Slice) : walkDirSeq := MkWalkDirSeq dir parent.

Definition io_error (rel : RelPath) (err : E) : go WalkError :=
  path ← AbsPath_Join windows Root rel; withErr (newWalkError WalkErrorKind_IOFailed path) (IOCause err).

Definition isGitRepoRoot (dir : RelPath) : go (bool + WalkError) :=
  gitRel ← RelPath_JoinComponents windows dir [str ".git"];
  match fsStat gitRel (MkStatOptions false false) with
  | inr err =>
      not_exist ← GetRootCauseAsValue (Some err) (Some ErrNotExist);
      if (not_exist : bool) then Ret (inl false) else e ← io_error gitRel err; Ret (inr e)
  | inl info => Ret (inl (FileMode_IsDir (fi_mode info) || FileMode_IsRegular (fi_mode info)))
  end.

Definition loadGitIgnore (dir : RelPath) : go ((option gitIgnoreMatcher * list WalkError) + WalkError) :=
  ignoreRel ← RelPath_JoinComponents windows dir [str ".gitignore"];
  match fsReadFile ignoreRel with
  | inr err =>
      not_exist ← GetRootCauseAsValue (Some err) (Some ErrNotExist);
      if (not_exist : bool) then Ret (inl (None, [])) else e ← io_error ignoreRel err; Ret (inr e)
  | inl content =>
      base ← AbsPath_Join windows Root dir;
      let '(m, parseErrs) := gi_New content (avalue base) in
      if 0 <? zlen parseErrs then
        path ← AbsPath_Join windows Root ignoreRel;
        pe ← newGitIgnoreParseErrors ignoreRel content parseErrs;
        warning ← withErr (newWalkError WalkErrorKind_ParseGitIgnore path) (ParseCause pe);
        Ret (inl (None, [warning]))
      else Ret (inl (Some (MkMatcher m dir ignoreRel), []))
  end.

Definition childGitIgnores (h : heap) (dir : RelPath) (parent : Slice) : go (heap * ((Slice * list WalkError) + WalkError)) :=
  _ ← Precondition (RespectGitIgnore opts);
  r ← loadGitIgnore dir;
  match r with
  | inr walkErr => Ret (h, inr walkErr)
  | inl (None, warnings) => Ret (h, inl (parent, warnings))
  | inl (Some m, warnings) => let '(h, s) := slice_append h parent m in Ret (h, inl (s, warnings))
  end.

Definition sourceCodeSnippet (file : RelPath) (m : Match) : go Snippet :=
  pos ← NewPosition (int32 (m_Line m)) (int32 (m_Column m)); Ret (MkSnippet (RelPath_String file) pos (m_String m)).

(** The loop over the matchers; [ignored] is the option so far. *)
Fixpoint identify_loop (matchers : list gitIgnoreMatcher) (rel : RelPath) (isDir : bool) (ignored : option Snippet) : go (option Snippet) :=
  match matchers with
  | [] => Ret ignored
  | m :: matchers =>
      r ← RelPath_RelativeTo windows rel (gdir m);
      match gi_Relative (matcher m) (RelPath_String r) isDir with
      | None => identify_loop matchers rel isDir ignored
      | Some mt =>
          if m_Ignore mt then s ← sourceCodeSnippet (ignoreFile m) mt; identify_loop matchers rel isDir (Some s)
          else identify_loop matchers rel isDir None
      end
  end.
Definition identifyPatternIgnoring (h : heap) (matchers : Slice) (rel : RelPath) (isDir : bool) : go (option Snippet) :=
  identify_loop (elems h matchers) rel isDir None.

(** ** The iterator of a directory

    A consumer gets each result with the current store, and returns the store
    it leaves and whether to continue. *)
Definition consumer (St : Type) : Type := Result FSWalkEntry WalkError -> heap * St -> go (heap * St * bool).

(** What precedes the loop: the active matchers and the warnings, or the error. *)
Definition iterate_matchers (h : heap) (seq : walkDirSeq) : go (heap * ((Slice * list WalkError) + WalkError)) :=
  if RespectGitIgnore opts then
    r ← isGitRepoRoot (sdir seq);
    match r with
    | inr walkErr => Ret (h, inr walkErr)
    | inl repoRoot => childGitIgnores h (sdir seq) (if (repoRoot : bool) then nil_slice else parentMatchers seq)
    end
  else Ret (h, inl (parentMatchers seq, [])).

Definition iterate_entry {St} (seq : walkDirSeq) (active : Slice) (yield : consumer St) (entryRes : Result DirEntry E) (st : heap * St)
    : go (heap * St * bool) :=
  let '(de, err) := rGet entryRes in
  match err with
  | Some err => e ← io_error (sdir seq) err; r ← fail_ e; '(st, _) ← yield r st; Ret (st, false)
  | None =>
      let name := de_name de in
      if RespectGitIgnore opts && bool_decide (Name_String name = str ".git") then Ret (st, true)
      else
        child ← RelPath_JoinComponents windows (sdir seq) [Name_String name];
        let isDir := de_IsDir de in
        ignored ← (if RespectGitIgnore opts then identifyPatternIgnoring st.1 active child isDir else Ret None);
        match ignored with
        | Some _ => Ret (st, true)
        | None =>
            let entry := if (isDir : bool) then MkFSWalkEntry name (Some (walkDir child active)) else MkFSWalkEntry name None in
            yield (Success entry) st
        end
  end.

(** [for _, warning := range warnings]: whether the function returned. *)
Fixpoint yield_warnings {St} (warnings : list WalkError) (yield : consumer St) (st : heap * St) : go (heap * St * bool) :=
  match warnings with
  | [] => Ret (st, true)
  | w :: warnings =>
      r ← fail_ w; '(st, continue) ← yield r st;
      if (continue : bool) then yield_warnings warnings yield st else Ret (st, false)
  end.

Definition iterate {St} (seq : walkDirSeq) (yield : consumer St) (st : heap * St) : go (heap * St) :=
  '(h, r) ← iterate_matchers st.1 seq;
  let st := (h, st.2) in
  match r with
  | inr walkErr => f ← fail_ walkErr; '(st, _) ← yield f st; Ret st
  | inl (activeMatchers, warnings) =>
      '(st, continue) ← yield_warnings warnings yield st;
      if negb continue then Ret st
      else
        let activeMatchers := Clip activeMatchers in
        for_range (fsReadDir (sdir seq)) (iterate_entry seq activeMatchers yield) st
  end.

(** ** The ancestors of the root of a walk *)
Definition root_is_ignored (root : RelPath) (pattern : Snippet) : go WalkError :=
  path ← AbsPath_Join windows Root root; withGitIgnorePattern (newWalkError WalkErrorKind_RootIsIgnored path) pattern.

Definition ancestors_state : Type := heap * ((Slice * list WalkError) + WalkError).
Definition ancestor_body (root ancestor : RelPath) (st : ancestors_state) : go (ancestors_state * bool) :=
  let '(h, r) := st in
  match r with
  | inr _ => Ret (st, false)
  | inl (matchers, warnings) =>
      ignored ← identifyPatternIgnoring h matchers ancestor true;
      match ignored with
      | Some pattern => e ← root_is_ignored root pattern; Ret ((h, inr e), false)
      | None =>
          repo ← isGitRepoRoot ancestor;
          match repo with
          | inr err => Ret ((h, inr err), false)
          | inl repoRoot =>
              '(h, r) ← childGitIgnores h ancestor (if (repoRoot : bool) then nil_slice else matchers);
              match r with
              | inr err => Ret ((h, inr err), false)
              | inl (matchers, childWarnings) => Ret ((h, inl (matchers, warnings ++ childWarnings)), true)
              end
          end
      end
  end.
Definition ancestorGitIgnores (h : heap) (root : RelPath) : go ancestors_state :=
  _ ← Precondition (RespectGitIgnore opts);
  _ ← Precondition (negb (bool_decide (rvalue root = rvalue Dot)));
  '(h, r) ← childGitIgnores h Dot nil_slice;
  match r with
  | inr err => Ret (h, inr err)
  | inl (matchers, warnings) =>
      '(h, r) ← for_range (RelPath_Ancestors windows root) (ancestor_body root) (h, inl (matchers, warnings));
      match r with
      | inr err => Ret (h, inr err)
      | inl (matchers, warnings) =>
          ignored ← identifyPatternIgnoring h matchers root true;
          match ignored with
          | Some pattern => e ← root_is_ignored root pattern; Ret (h, inr e)
          | None => Ret (h, inl (matchers, warnings))
          end
      end
  end.

(** The result: the warnings that the iterator yields first and its root
    directory, or the initial error. *)
Definition WalkNonDet (h : heap) (root : RelPath) : go (heap * ((list WalkError * walkDirSeq) + WalkError)) :=
  match fsStat root (MkStatOptions false true) with
  | inr err =>
      path ← AbsPath_Join windows Root root;
      e ← withErr (newWalkError WalkErrorKind_IOFailed path) (IOCause err); Ret (h, inr e)
  | inl info =>
      if negb (fi_IsDir info) then
        path ← AbsPath_Join windows Root root; Ret (h, inr (newWalkError WalkErrorKind_RootNotDir path))
      else
        repo ← (if RespectGitIgnore opts then isGitRepoRoot Dot else Ret (inl true));
        match repo with
        | inr err => Ret (h, inr err)
        | inl false => Ret (h, inr (newWalkError WalkErrorKind_FSRootNotRepo Root))
        | inl true =>
            '(h, r) ← (if RespectGitIgnore opts && negb (bool_decide (RelPath_String root = str "."))
                       then ancestorGitIgnores h root else Ret (h, inl (nil_slice, [])));
            match r with
            | inr err => Ret (h, inr err)
            | inl (matchers, warnings) => Ret (h, inl (warnings, walkDir root matchers))
            end
        end
  end.
(** [iterx.Chain] of the warnings and the root's iterator. *)
Definition walk_iterate {St} (w : list WalkError * walkDirSeq) (yield : consumer St) (st : heap * St) : go (heap * St) :=
  '(st, continue) ← yield_warnings w.1 yield st;
  if (continue : bool) then iterate w.2 yield st else Ret st.
End walk.
