(* ===== verification/WalkSpec.v ===== *)
(** * What the iterators of [fsx_walk] yield on Unix

    [enter] and [events] describe the walk of a directory on plain lists of
    matchers; the iterators over shared slices refine them, for every consumer
    that runs other iterators in the middle. *)
From stdpp Require Import sorting.
From S2P Require Import Prelude Core Iterx Errorx GoFilepath CleanSpec Lexical LineTable PathComponents RelSpec PathTypes PathLaws Fsx GoSlice FsWalk.
#[local] Open Scope Z_scope.

Section walk_spec.
Context {E : Type} `{EqDecision E} (methods : E -> method_set E) (zero_link : @ChainLink E) `{!FS E} (ErrNotExist : E).
Context {Matcher Match GErr : Type} (zero_matcher : Matcher).
Context (gi_New : gostring -> gostring -> Matcher * list GErr) (gi_Relative : Matcher -> gostring -> bool -> option Match).
Context (m_Ignore : Match -> bool) (m_Line m_Column : Match -> Z) (m_String : Match -> gostring).
Context (ge_Zero : GErr -> bool) (ge_Line ge_Column : GErr -> Z) (grow : nat -> nat) (opts : WalkOptions).

(** The file system: its root is well-formed, no error nests deeper than the
    limit of [errorx], and [ReadDir] lists entries with proper names. *)
Context (er : list gostring) (rtr : bool) (Hroot : wf_abs Root er rtr).
Context (not_exist : E -> bool)
  (Hnot_exist : forall e, GetRootCauseAsValue methods zero_link (Some e) (Some ErrNotExist) = Ret (not_exist e)).
Context (rd : list gostring -> list (Result DirEntry E)).
Abbreviation dir_path ds := (rel_path 0 ds false).
Context (Hrd : forall ds, Forall plain ds -> Enumerates (fsReadDir (dir_path ds)) (rd ds)).
Context (Hnames : forall ds, Forall (fun r => err r = None -> plain (nvalue (de_name (Core.rvalue r)))) (rd ds)).
(** The .gitignore package: positions are 1-based and within the source. *)
Definition position_ok (line column : Z) : Prop := 1 <= line < 2 ^ 31 /\ 1 <= column < 2 ^ 31.
Context (Hge : forall content base, Forall (fun e => ge_Zero e = false ->
  position_ok (ge_Line e) (ge_Column e) /\ ge_Line e <= zlen (split_on 10 content)) (gi_New content base).2).
Context (Hmatch : forall m p d mt, gi_Relative m p d = Some mt -> position_ok (m_Line mt) (m_Column mt)).

Abbreviation WalkError := (@WalkError E GErr).
Abbreviation heap := (GoSlice.store (@gitIgnoreMatcher Matcher)).
Abbreviation gitIgnoreMatcher := (@gitIgnoreMatcher Matcher).

(** ** The walk on lists *)
Definition dot_git : gostring := str ".git".
Definition dot_gitignore : gostring := str ".gitignore".
Definition abs_of (ds : list gostring) : AbsPath := abs_path (er ++ ds) false.
Definition io_err (ds : list gostring) (e : E) : WalkError :=
  MkWalkError WalkErrorKind_IOFailed (abs_of ds) (Some (IOCause e)) None.

(** A matcher with the elements of the directory of its .gitignore. *)
Definition pm : Type := Matcher * list gostring.
Definition of_pm (p : pm) : gitIgnoreMatcher := MkMatcher p.1 (dir_path p.2) (dir_path (p.2 ++ [dot_gitignore])).

Definition repo_root (ds : list gostring) : bool + WalkError :=
  match fsStat (dir_path (ds ++ [dot_git])) (MkStatOptions false false) with
  | inr e => if not_exist e then inl false else inr (io_err (ds ++ [dot_git]) e)
  | inl info => inl (FileMode_IsDir (fi_mode info) || FileMode_IsRegular (fi_mode info))
  end.

Definition error_snippets (ds : list gostring) (content : gostring) (errs : list GErr) : list Snippet :=
  map (fun e => MkSnippet (rvalue (dir_path (ds ++ [dot_gitignore]))) (MkPosition (ge_Line e) (ge_Column e))
                  (default [] (split_on 10 content !! Z.to_nat (ge_Line e - 1))))
    (List.filter (fun e => negb (ge_Zero e)) errs).
(** The matcher of a directory's .gitignore, or a warning instead. *)
Definition load (ds : list gostring) : (option pm * list WalkError) + WalkError :=
  match fsReadFile (dir_path (ds ++ [dot_gitignore])) with
  | inr e => if not_exist e then inl (None, []) else inr (io_err (ds ++ [dot_gitignore]) e)
  | inl content =>
      let '(m, errs) := gi_New content (avalue (abs_of ds)) in
      if bool_decide (errs = []) then inl (Some (m, ds), [])
      else inl (None, [MkWalkError WalkErrorKind_ParseGitIgnore (abs_of (ds ++ [dot_gitignore]))
             (Some (ParseCause (MkGitIgnoreParseErrors errs (error_snippets ds content errs)))) None])
  end.

(** The matchers in force in a directory, from those of its parent: a nested
    repository starts afresh, and the directory's own come last. *)
Definition enter (ds : list gostring) (pms : list pm) : (list pm * list WalkError) + WalkError :=
  if RespectGitIgnore opts then
    match repo_root ds with
    | inr e => inr e
    | inl repo =>
        match load ds with
        | inr e => inr e
        | inl (m, ws) => inl ((if repo then [] else pms) ++ option_list m, ws)
        end
    end
  else inl (pms, []).

(** The last matcher that matches decides. *)
Definition decision (pms : list pm) (ds : list gostring) (isDir : bool) : option (list gostring * Match) :=
  last (omap (fun p : pm => pair p.2 <$> gi_Relative p.1 (render false (drop (length p.2) ds)) isDir) pms).
Definition verdict (pms : list pm) (ds : list gostring) (isDir : bool) : option Snippet :=
  match decision pms ds isDir with
  | Some (md, mt) =>
      if m_Ignore mt then
        Some (MkSnippet (rvalue (dir_path (md ++ [dot_gitignore]))) (MkPosition (m_Line mt) (m_Column mt)) (m_String mt))
      else None
  | None => None
  end.

Definition hidden (pms : list pm) (ds : list gostring) (name : gostring) (isDir : bool) : bool :=
  RespectGitIgnore opts &&
  (bool_decide (name = dot_git) || match verdict pms (ds ++ [name]) isDir with Some _ => true | None => false end).

(** What is yielded for a listing: names, with whether they are directories. *)
Fixpoint visible (pms : list pm) (ds : list gostring) (l : list (Result DirEntry E)) : list (Result DirEntry WalkError) :=
  match l with
  | [] => []
  | r :: l =>
      match err r with
      | Some e => [MkResult (MkDirEntryI (MkName []) false) (Some (io_err ds e))]
      | None =>
          let de := Core.rvalue r in
          if hidden pms ds (nvalue (de_name de)) (de_IsDir de) then visible pms ds l else Success de :: visible pms ds l
      end
  end.
Definition failure (e : WalkError) : Result DirEntry WalkError := MkResult (MkDirEntryI (MkName []) false) (Some e).

Definition active (ds : list gostring) (pms : list pm) : list pm :=
  match enter ds pms with inl (a, _) => a | inr _ => [] end.
Definition events (ds : list gostring) (pms : list pm) : list (Result DirEntry WalkError) :=
  match enter ds pms with
  | inr e => [failure e]
  | inl (a, ws) => map failure ws ++ visible a ds (rd ds)
  end.

(** An event as the entry that the iterator yields: directories carry an
    iterator with the slice [s] of active matchers. *)
Definition to_entry (ds : list gostring) (s : Slice) (r : Result DirEntry WalkError) : Result FSWalkEntry WalkError :=
  match err r with
  | Some e => MkResult zeroEntry (Some e)
  | None =>
      let de := Core.rvalue r in
      Success (MkFSWalkEntry (de_name de)
        (if de_IsDir de then Some (MkWalkDirSeq (dir_path (ds ++ [nvalue (de_name de)])) s) else None))
  end.

(** ** The helpers return *)
Lemma plain_dot_git : plain dot_git.
Proof. by split_and!. Qed.
Lemma plain_dot_gitignore : plain dot_gitignore.
Proof. by split_and!. Qed.

Lemma JoinComponents_one ds name :
  Forall plain ds -> plain name -> RelPath_JoinComponents false (dir_path ds) [name] = Ret (dir_path (ds ++ [name])).
Proof. intros Hds Hn. apply RelPath_JoinComponents_plain; [done|by constructor]. Qed.

Lemma Root_Join ds : Forall plain ds -> AbsPath_Join false Root (dir_path ds) = Ret (abs_of ds).
Proof.
  intros Hds. destruct Hroot as [Her _ ->]. rewrite AbsPath_Join_rel by done. by rewrite Nat.sub_0_r, firstn_all.
Qed.

Lemma plain_app ds name : Forall plain ds -> plain name -> Forall plain (ds ++ [name]).
Proof. intros Hds Hn. apply Forall_app. split; [done|by constructor]. Qed.

Lemma io_error_spec ds e : Forall plain ds -> io_error (GErr := GErr) false (dir_path ds) e = Ret (io_err ds e).
Proof. intros Hds. unfold io_error. by rewrite Root_Join. Qed.

Lemma isGitRepoRoot_spec ds :
  Forall plain ds -> isGitRepoRoot false methods zero_link ErrNotExist (dir_path ds) = Ret (repo_root ds).
Proof.
  intros Hds. unfold isGitRepoRoot, repo_root. fold dot_git. pose proof plain_dot_git as Hg.
  rewrite JoinComponents_one, bind_ret by done. destruct (fsStat _ _) as [info|e]; [done|].
  rewrite Hnot_exist, bind_ret. destruct (not_exist e); [done|]. rewrite io_error_spec by (by apply plain_app). done.
Qed.

Lemma NewPosition_ok line column : position_ok line column -> NewPosition (int32 line) (int32 column) = Ret (MkPosition line column).
Proof.
  intros [Hl Hc]. rewrite !int32_id by lia. unfold NewPosition.
  by rewrite !Precondition_true, !bind_ret by (apply Z.ltb_lt; lia).
Qed.

Lemma error_snippets_loop ds content errs acc :
  Forall (fun e => ge_Zero e = false -> position_ok (ge_Line e) (ge_Column e) /\ ge_Line e <= zlen (split_on 10 content)) errs ->
  gitIgnoreErrorSnippets_loop ge_Zero ge_Line ge_Column (dir_path (ds ++ [dot_gitignore])) (split_on 10 content) errs acc =
    Ret (acc ++ error_snippets ds content errs).
Proof.
  intros Herrs. revert acc. induction Herrs as [|e errs He _ IH]; intros acc; [by rewrite app_nil_r|].
  cbn [gitIgnoreErrorSnippets_loop]. unfold error_snippets. cbn [List.filter]. destruct (ge_Zero e); [apply IH|].
  cbn [negb map]. destruct (He eq_refl) as [Hpos Hlen]. pose proof Hpos as [Hl _].
  assert (int64 (ge_Line e - 1) = ge_Line e - 1) as -> by (apply int64_id; unfold is_int, MinInt, MaxInt; lia).
  rewrite Invariant_true by lia. rewrite bind_ret, NewPosition_ok, bind_ret by done.
  destruct (index_in_range (split_on 10 content) (ge_Line e - 1)) as (t & Ht); [lia|]. rewrite Ht, bind_ret, IH.
  apply index_lookup in Ht as [_ Ht]. rewrite Ht. cbn [default from_option id]. by rewrite <- app_assoc.
Qed.

Lemma loadGitIgnore_spec ds :
  Forall plain ds ->
  loadGitIgnore false methods zero_link ErrNotExist gi_New ge_Zero ge_Line ge_Column (dir_path ds) =
    Ret (match load ds with inl (m, ws) => inl (of_pm <$> m, ws) | inr e => inr e end).
Proof.
  intros Hds. unfold loadGitIgnore, load. fold dot_gitignore. pose proof plain_dot_gitignore as Hg.
  rewrite JoinComponents_one, bind_ret by done. destruct (fsReadFile _) as [content|e].
  - rewrite (Root_Join ds), bind_ret by done. pose proof (Hge content (avalue (abs_of ds))) as Herrs.
    destruct (gi_New content (avalue (abs_of ds))) as [m errs]. cbn [snd] in Herrs. rewrite zlen_pos, bool_decide_not.
    case_bool_decide as He; [done|]. cbn [negb]. rewrite Root_Join, bind_ret by (by apply plain_app).
    unfold newGitIgnoreParseErrors, gitIgnoreErrorSnippets. rewrite zlen_pos, bool_decide_true by done. cbn [Precondition].
    by rewrite bind_ret, error_snippets_loop, !bind_ret by done.
  - rewrite Hnot_exist, bind_ret. destruct (not_exist e); [done|]. by rewrite io_error_spec by (by apply plain_app).
Qed.

(** Matchers come from the directory or from above it. *)
Definition above (ds : list gostring) (pms : list pm) : Prop := Forall (fun p => p.2 `prefix_of` ds) pms.

Definition decided (file_match : option (list gostring * Match)) (otherwise : option Snippet) : option Snippet :=
  match file_match with
  | Some (md, mt) =>
      if m_Ignore mt then
        Some (MkSnippet (rvalue (dir_path (md ++ [dot_gitignore]))) (MkPosition (m_Line mt) (m_Column mt)) (m_String mt))
      else None
  | None => otherwise
  end.
Lemma verdict_decided pms ds isDir : verdict pms ds isDir = decided (decision pms ds isDir) None.
Proof. done. Qed.

Lemma identify_spec pms ds isDir ignored :
  Forall plain ds -> above ds pms ->
  identify_loop false gi_Relative m_Ignore m_Line m_Column m_String (map of_pm pms) (dir_path ds) isDir ignored =
    Ret (decided (decision pms ds isDir) ignored).
Proof.
  intros Hds Hpms. revert ignored. induction Hpms as [|[m md] pms [rest Hmd] _ IH]; intros ignored; [done|].
  cbn [map identify_loop of_pm gdir fst snd]. cbn [snd] in Hmd.
  assert (Forall plain md) as Hmdp by (rewrite Hmd in Hds; by apply Forall_app in Hds as [? _]).
  rewrite (RelPath_RelativeTo_spec md rest 0 md 0 ds) by done. rewrite bind_ret. cbn [matcher of_pm RelPath_String rvalue ignoreFile fst snd].
  change (matcher (of_pm (m, md))) with m. change (ignoreFile (of_pm (m, md))) with (dir_path (md ++ [dot_gitignore])).
  unfold decision. cbn [omap list_omap fst snd]. rewrite Hmd, drop_app_length, <- Hmd. unfold RelPath_String. cbn [rvalue].
  destruct (gi_Relative m (render false rest) isDir) as [mt|] eqn:Hr; cbn [fmap option_fmap option_map].
  - pose proof (Hmatch _ _ _ _ Hr) as Hpos.
    assert (forall l : list (list gostring * Match), last ((md, mt) :: l) = match last l with Some y => Some y | None => Some (md, mt) end) as ->
      by (intros l; by rewrite last_cons).
    fold (decision pms ds isDir). unfold decided at 1. destruct (m_Ignore mt) eqn:Hi.
    + unfold sourceCodeSnippet. rewrite NewPosition_ok, !bind_ret by done. rewrite IH.
      f_equal. unfold decided. destruct (decision pms ds isDir) as [[? ?]|]; [done|]. by rewrite Hi.
    + rewrite IH. f_equal. unfold decided. destruct (decision pms ds isDir) as [[? ?]|]; [done|]. by rewrite Hi.
  - apply IH.
Qed.

Abbreviation iterate_matchers_unix :=
  (iterate_matchers false methods zero_link ErrNotExist zero_matcher gi_New ge_Zero ge_Line ge_Column grow opts).
Abbreviation childGitIgnores_unix :=
  (childGitIgnores false methods zero_link ErrNotExist zero_matcher gi_New ge_Zero ge_Line ge_Column grow opts).

(** A slice that holds the given matchers. *)
Definition holds (h : heap) (s : Slice) (pms : list pm) : Prop := wf_slice h s /\ elems h s = map of_pm pms.
Lemma holds_nil h : holds h nil_slice [].
Proof. split; [apply wf_nil|done]. Qed.
Lemma holds_extend h h' s pms : holds h s pms -> h ⊆ h' -> holds h' s pms.
Proof. intros [Hwf He] Hsub. destruct (elems_extend h h' s Hwf Hsub) as [E' Hwf']. split; [done|]. by rewrite E'. Qed.
Lemma holds_append h s pms m ds h' s' :
  holds h s pms -> append (zeroMatcher zero_matcher) grow h s (of_pm (m, ds)) = (h', s') ->
  holds h' s' (pms ++ [(m, ds)]) /\ (full s -> h ⊆ h').
Proof.
  intros [Hwf He] Happ. destruct (append_elems _ grow _ _ _ _ _ Hwf Happ) as [Hwf' He']. split.
  - split; [done|]. by rewrite He', He, map_app.
  - intros Hf. by eapply append_full.
Qed.

(** What [childGitIgnores] adds to the matchers it starts from. *)
Lemma childGitIgnores_spec h ds s pms :
  RespectGitIgnore opts = true -> Forall plain ds -> holds h s pms ->
  exists h' r, childGitIgnores_unix h (dir_path ds) s = Ret (h', r) /\
    match load ds with
    | inr e => r = inr e /\ h' = h
    | inl (m, ws) => exists s', r = inl (s', ws) /\ holds h' s' (pms ++ option_list m) /\ (full s -> h ⊆ h')
    end.
Proof.
  intros Ho Hds Hs. unfold childGitIgnores. rewrite Ho. cbn [Precondition]. rewrite bind_ret, loadGitIgnore_spec, bind_ret by done.
  destruct (load ds) as [[[[m md]|] ws]|e] eqn:Hl; cbn [fmap option_fmap option_map].
  - destruct (append _ grow h s _) as [h' s'] eqn:Happ. destruct (holds_append h s pms m md h' s' Hs Happ) as [Hs' Hsub].
    exists h', (inl (s', ws)). split; [done|]. exists s'. split_and!; [done..|]. done.
  - exists h, (inl (s, ws)). split; [done|]. exists s. cbn [option_list]. by rewrite app_nil_r.
  - by exists h, (inr e).
Qed.

Lemma load_above ds m ws : load ds = inl (Some m, ws) -> m.2 = ds.
Proof.
  unfold load. destruct (fsReadFile _); [|by destruct (not_exist _)]. destruct (gi_New _ _) as [m' errs]. case_bool_decide; [|done]. by intros [= <- <-].
Qed.
Lemma enter_above ds pms a ws : above ds pms -> enter ds pms = inl (a, ws) -> above ds a.
Proof.
  unfold enter, above. destruct (RespectGitIgnore opts); [|by intros ? [= <- <-]]. intros Hp.
  destruct (repo_root ds) as [repo|]; [|done]. destruct (load ds) as [[m ws']|] eqn:Hl; [|done]. intros [= <- _].
  apply Forall_app. split; [by destruct repo|]. destruct m as [m|]; cbn [option_list]; [|done]. constructor; [|done].
  by rewrite (load_above ds m ws' Hl).
Qed.

(** The state when the loop over the directory starts. *)
Lemma iterate_matchers_spec h ds s pms :
  Forall plain ds -> holds h s pms ->
  exists h' r, iterate_matchers_unix h (MkWalkDirSeq (dir_path ds) s) = Ret (h', r) /\ (full s -> h ⊆ h') /\
    match enter ds pms with
    | inr e => r = inr e
    | inl (a, ws) => exists s', r = inl (s', ws) /\ holds h' s' a
    end.
Proof.
  intros Hds Hs. unfold iterate_matchers, enter. cbn [sdir parentMatchers]. destruct (RespectGitIgnore opts) eqn:Ho.
  2:{ exists h, (inl (s, [])). split; [done|]. split; [done|]. by exists s. }
  rewrite isGitRepoRoot_spec, bind_ret by done. destruct (repo_root ds) as [repo|e]; [|by exists h, (inr e)].
  assert (holds h (if repo then nil_slice else s) (if repo then [] else pms)) as Hs' by (destruct repo; [apply holds_nil|done]).
  destruct (childGitIgnores_spec h ds _ _ Ho Hds Hs') as (h' & r & -> & Hr). exists h', r. split; [done|].
  destruct (load ds) as [[m ws]|e].
  - destruct Hr as (s' & -> & Hs'' & Hsub). split; [|by exists s']. intros Hf. apply Hsub. by destruct repo.
  - by destruct Hr as [-> ->].
Qed.

(** ** The iterator *)
Abbreviation consumer := (@consumer E Matcher GErr).
Abbreviation iterate_unix :=
  (iterate false methods zero_link ErrNotExist zero_matcher gi_New gi_Relative m_Ignore m_Line m_Column m_String
     ge_Zero ge_Line ge_Column grow opts).
Abbreviation iterate_entry_unix :=
  (iterate_entry (GErr := GErr) false gi_Relative m_Ignore m_Line m_Column m_String opts).

(** A result that a walk yields: a directory carries the iterator of a path
    below its matchers, with a slice that has no spare capacity. *)
Definition good_seq (h : heap) (seq : walkDirSeq) : Prop :=
  exists ds pms, sdir seq = dir_path ds /\ Forall plain ds /\ above ds pms /\ holds h (parentMatchers seq) pms /\ full (parentMatchers seq).
Definition good_result (h : heap) (r : Result FSWalkEntry WalkError) : Prop :=
  err r = None -> forall seq, children (Core.rvalue r) = Some seq -> good_seq h seq.

(** Consumers of such results leave the existing arrays alone, as running iterators does. *)
Definition extends {St} (yield : consumer St) : Prop :=
  forall r st st' c, good_result st.1 r -> yield r st = Ret (st', c) -> st.1 ⊆ st'.1.

Lemma good_result_extend h h' r : good_result h r -> h ⊆ h' -> good_result h' r.
Proof.
  intros Hg Hsub He seq Hc. destruct (Hg He seq Hc) as (ds & pms & ? & ? & ? & ? & ?). exists ds, pms.
  split_and!; try done. by eapply holds_extend.
Qed.
Lemma good_failure h (e : WalkError) : good_result h (MkResult zeroEntry (Some e)).
Proof. done. Qed.
Lemma good_entry h ds s a de :
  Forall plain ds -> above ds a -> holds h s a -> full s -> plain (nvalue (de_name de)) -> good_result h (to_entry ds s (Success de)).
Proof.
  intros Hds Ha Hs Hf Hn _ seq. unfold to_entry. change (err (Success de)) with (@None WalkError). cbv iota.
  change (Core.rvalue (Success de)) with de. cbn. destruct (de_IsDir de); [|done]. intros [= <-].
  exists (ds ++ [nvalue (de_name de)]), a. split_and!; try done; [by apply plain_app|].
  eapply Forall_impl; [exact Ha|]. intros p [rest Hp]. exists (rest ++ [nvalue (de_name de)]). by rewrite Hp, app_assoc.
Qed.

Lemma fail_Ret (e : WalkError) : fail_ e = Ret (MkResult zeroEntry (Some e)).
Proof. unfold fail_, Failure. by rewrite Precondition_true by (by apply bool_decide_true). Qed.

Lemma yield_warnings_spec {St} ds s ws (yield : consumer St) st :
  forall l, ('(st, continue) ← yield_warnings ws yield st; if (continue : bool) then for_list l yield st else Ret st) =
    for_list (map (to_entry ds s) (map failure ws) ++ l) yield st.
Proof.
  revert st. induction ws as [|w ws IH]; intros st l; [done|]. cbn [yield_warnings map app for_list]. rewrite fail_Ret, bind_ret.
  change (to_entry ds s (failure w)) with (MkResult (@zeroEntry) (Some w)).
  destruct (yield _ st) as [[st' []]| |]; [|done..]. cbn. apply IH.
Qed.

Lemma yield_warnings_extends {St} ws (yield : consumer St) st st' c :
  extends yield -> yield_warnings ws yield st = Ret (st', c) -> st.1 ⊆ st'.1.
Proof.
  intros Hext. revert st. induction ws as [|w ws IH]; intros st; [by intros [= <- _]|]. cbn [yield_warnings]. rewrite fail_Ret, bind_ret.
  destruct (yield _ st) as [[st1 []]| |] eqn:Hy; [| |done..]; rewrite bind_ret.
  - intros Hw. etransitivity; [apply (Hext _ _ _ _ (good_failure _ _) Hy)|by apply IH].
  - intros [= <- _]. apply (Hext _ _ _ _ (good_failure _ _) Hy).
Qed.

Lemma iterate_entry_spec {St} ds dir_slice s a (yield : consumer St) r h (st : St) :
  Forall plain ds -> above ds a -> holds h s a -> (err r = None -> plain (nvalue (de_name (Core.rvalue r)))) ->
  iterate_entry_unix (MkWalkDirSeq (dir_path ds) dir_slice) s yield r (h, st) =
    match err r with
    | Some e => '(st, _) ← yield (MkResult zeroEntry (Some (io_err ds e))) (h, st); Ret (st, false)
    | None =>
        let de := Core.rvalue r in
        if hidden a ds (nvalue (de_name de)) (de_IsDir de) then Ret (h, st, true)
        else yield (to_entry ds s (Success de)) (h, st)
    end.
Proof.
  intros Hds Ha [_ Hs] Hr. unfold iterate_entry. destruct r as [de [e|]]; cbn [rGet Core.rvalue err sdir] in *.
  { by rewrite io_error_spec, bind_ret, fail_Ret, bind_ret. }
  specialize (Hr eq_refl). unfold hidden, Name_String, to_entry. fold dot_git.
  change (err (Success de)) with (@None WalkError). cbv iota. change (Core.rvalue (Success de)) with de.
  destruct (RespectGitIgnore opts); cbn [andb].
  - destruct (bool_decide (nvalue (de_name de) = dot_git)); cbn [orb]; [done|].
    rewrite JoinComponents_one, bind_ret by done. unfold identifyPatternIgnoring. cbn [fst]. rewrite Hs, identify_spec, bind_ret.
    + rewrite <- verdict_decided. destruct (verdict a _ _); [done|]. by destruct (de_IsDir de).
    + by apply plain_app.
    + eapply Forall_impl; [exact Ha|]. intros p [rest Hp]. exists (rest ++ [nvalue (de_name de)]). by rewrite Hp, app_assoc.
  - rewrite JoinComponents_one, !bind_ret by done. by destruct (de_IsDir de).
Qed.

Lemma entries_loop {St} ds dir_slice s a l (yield : consumer St) h (st : St) :
  Forall plain ds -> above ds a -> holds h s a -> full s -> extends yield ->
  Forall (fun r => err r = None -> plain (nvalue (de_name (Core.rvalue r)))) l ->
  for_list l (iterate_entry_unix (MkWalkDirSeq (dir_path ds) dir_slice) s yield) (h, st) =
    for_list (map (to_entry ds s) (visible a ds l)) yield (h, st).
Proof.
  intros Hds Ha Hs Hf Hext Hl. revert h st Hs. induction Hl as [|r l Hr _ IH]; intros h st Hs; [done|].
  cbn [for_list visible]. rewrite (iterate_entry_spec ds dir_slice s a yield r h st) by done.
  destruct (err r) as [e|].
  { cbn [map for_list]. change (to_entry ds s _) with (MkResult (@zeroEntry) (Some (io_err ds e))).
    destruct (yield _ (h, st)) as [[st' []]| |]; done. }
  cbv zeta. destruct (hidden _ _ _ _); [rewrite bind_ret; by apply IH|]. cbn [map for_list].
  destruct (yield _ (h, st)) as [[[h' st'] []]| |] eqn:Hy; [|done..]. rewrite !bind_ret. apply IH.
  eapply holds_extend; [exact Hs|].
  exact (Hext _ (h, st) (h', st') true (good_entry h ds s a _ Hds Ha Hs Hf (Hr eq_refl)) Hy).
Qed.

Lemma iterate_refines {St} ds parent pms (yield : consumer St) h (st : St) :
  Forall plain ds -> above ds pms -> holds h parent pms -> extends yield ->
  exists h1 s, iterate_unix (MkWalkDirSeq (dir_path ds) parent) yield (h, st) =
      for_list (map (to_entry ds s) (events ds pms)) yield (h1, st) /\
    holds h1 s (active ds pms) /\ full s /\ (full parent -> h ⊆ h1).
Proof.
  intros Hds Hab Hs Hext. unfold iterate. cbn [fst snd]. unfold events, active.
  destruct (iterate_matchers_spec h ds parent pms Hds Hs) as (h1 & r & -> & Hsub & Hr). rewrite bind_ret.
  destruct (enter ds pms) as [[a ws]|e] eqn:Hent.
  - destruct Hr as (s & -> & Hwf & He). destruct (wf_Clip h1 s Hwf) as (Hc & Hf & Hce). exists h1, (Clip s). split_and!; [|by split; [|rewrite Hce]|done..].
    rewrite map_app, <- yield_warnings_spec.
    destruct (yield_warnings ws yield (h1, st)) as [[[h' st'] []]| |] eqn:Hw; [|done..]. cbn [negb]. rewrite !bind_ret. cbn [negb].
    cbn [sdir]. rewrite (for_range_spec _ _ _ _ (Hrd ds Hds)). apply entries_loop; [done|by eapply enter_above| |done|done|apply Hnames].
    apply (holds_extend h1 h'); [by split; [|rewrite Hce]|]. apply (yield_warnings_extends _ _ _ _ _ Hext Hw).
  - subst r. exists h1, nil_slice. rewrite fail_Ret, bind_ret. split_and!; [|apply holds_nil|done..]. cbn [map for_list].
    change (to_entry ds nil_slice (failure e)) with (MkResult (@zeroEntry) (Some e)).
    destruct (yield _ (h1, st)) as [[st' []]| |]; done.
Qed.

(** Running an iterator of a walk leaves the existing arrays alone, so that
    consumers may do so in the middle of another iterator. *)
Lemma for_list_extends {St} l (yield : consumer St) st st' :
  extends yield -> Forall (good_result st.1) l -> for_list l yield st = Ret st' -> st.1 ⊆ st'.1.
Proof.
  intros Hext. revert st. induction l as [|r l IH]; intros st Hl; cbn [for_list]; [by intros [= <-]|].
  apply Forall_cons in Hl as [Hr Hl]. destruct (yield r st) as [[st1 []]| |] eqn:Hy; [| |done..]; rewrite bind_ret;
    pose proof (Hext _ _ _ _ Hr Hy) as Hsub.
  - intros Hfl. etransitivity; [exact Hsub|apply (IH st1); [|exact Hfl]].
    eapply Forall_impl; [exact Hl|]. intros r' Hr'. by eapply good_result_extend.
  - by intros [= <-].
Qed.

Lemma visible_plain ds a l de :
  Forall (fun r => err r = None -> plain (nvalue (de_name (Core.rvalue r)))) l -> Success de ∈ visible a ds l -> plain (nvalue (de_name de)).
Proof.
  induction 1 as [|r l Hr _ IH]; cbn [visible]; [by intros ?%elem_of_nil|]. destruct (err r) as [e|] eqn:Her.
  { intros H%list_elem_of_singleton. by injection H. }
  destruct (hidden a ds (nvalue (de_name (Core.rvalue r))) (de_IsDir (Core.rvalue r))); [done|].
  intros [H|H]%elem_of_cons; [|by apply IH]. injection H as ->. by apply Hr.
Qed.
Lemma visible_cases ds a l r : r ∈ visible a ds l -> (exists e, r = failure e) \/ exists de, r = Success de.
Proof.
  induction l as [|r' l IH]; cbn [visible]; [by intros ?%elem_of_nil|]. destruct (err r') as [e|].
  { intros ->%list_elem_of_singleton. left. by eexists. }
  cbv zeta. destruct (hidden _ _ _ _); [done|]. intros [->|H]%elem_of_cons; [right; by eexists|by apply IH].
Qed.
Lemma events_cases ds pms r : r ∈ events ds pms -> (exists e, r = failure e) \/ exists de, r = Success de.
Proof.
  unfold events. destruct (enter ds pms) as [[a ws]|e]; [|intros ->%list_elem_of_singleton; left; by eexists].
  intros [H|H]%elem_of_app; [|by eapply visible_cases]. apply list_elem_of_In, in_map_iff in H as (w & <- & _). left. by eexists.
Qed.
Lemma events_plain ds pms de : Success de ∈ events ds pms -> plain (nvalue (de_name de)).
Proof.
  unfold events. destruct (enter ds pms) as [[a ws]|e]; [|by intros H%list_elem_of_singleton].
  intros [H|H]%elem_of_app; [by apply list_elem_of_In, in_map_iff in H as (w & H & _)|]. by eapply visible_plain.
Qed.

Lemma active_above ds pms : above ds pms -> above ds (active ds pms).
Proof. intros Hab. unfold active. destruct (enter ds pms) as [[a ws]|e] eqn:He; [by eapply enter_above|constructor]. Qed.

Lemma events_good h ds pms s :
  Forall plain ds -> above ds pms -> holds h s (active ds pms) -> full s -> Forall (good_result h) (map (to_entry ds s) (events ds pms)).
Proof.
  intros Hds Hab Hs Hf. apply Forall_forall. intros r Hr. apply list_elem_of_In, in_map_iff in Hr as (x & <- & Hx%list_elem_of_In).
  destruct (events_cases ds pms x Hx) as [(e & ->)|(de & ->)]; [apply good_failure|].
  apply (good_entry h ds s (active ds pms)); try done; [by apply active_above|by eapply events_plain].
Qed.

Lemma iterate_extends {St} seq (yield : consumer St) h (st : St) st' :
  good_seq h seq -> extends yield -> iterate_unix seq yield (h, st) = Ret st' -> h ⊆ st'.1.
Proof.
  intros (ds & pms & Hdir & Hds & Hab & Hs & Hf) Hext. destruct seq as [dir parent]. cbn [sdir parentMatchers] in *. subst dir.
  destruct (iterate_refines ds parent pms yield h st Hds Hab Hs Hext) as (h1 & s & -> & Hs1 & Hf1 & Hsub).
  intros Hl. etransitivity; [by apply Hsub|]. apply (for_list_extends _ _ (h1, st) st' Hext (events_good h1 ds pms s Hds Hab Hs1 Hf1) Hl).
Qed.

(** ** Starting a walk below the file system's root *)
Definition root_ignored (root : list gostring) (pattern : Snippet) : WalkError :=
  MkWalkError WalkErrorKind_RootIsIgnored (abs_of root) None (Some pattern).

(** One ancestor of the root: it must not be ignored, and its own matchers are added. *)
Definition inherit_step (root : list gostring) (r : (list pm * list WalkError) + WalkError) (anc : list gostring)
    : (list pm * list WalkError) + WalkError :=
  match r with
  | inr e => inr e
  | inl (pms, ws) =>
      match verdict pms anc true with
      | Some pattern => inr (root_ignored root pattern)
      | None => match enter anc pms with inr e => inr e | inl (a, ws') => inl (a, ws ++ ws') end
      end
  end.
Definition inherit_top : (list pm * list WalkError) + WalkError :=
  match load [] with inr e => inr e | inl (m, ws) => inl (option_list m, ws) end.
Definition inherited (root : list gostring) : (list pm * list WalkError) + WalkError :=
  match foldl (inherit_step root) inherit_top (proper_prefixes root) with
  | inr e => inr e
  | inl (pms, ws) => match verdict pms root true with Some pattern => inr (root_ignored root pattern) | None => inl (pms, ws) end
  end.

(** The result of [WalkNonDet]: the inherited matchers and the warnings. *)
Definition walk_start (root : list gostring) : (list pm * list WalkError) + WalkError :=
  match fsStat (dir_path root) (MkStatOptions false true) with
  | inr e => inr (io_err root e)
  | inl info =>
      if fi_IsDir info then
        if RespectGitIgnore opts then
          match repo_root [] with
          | inr e => inr e
          | inl false => inr (newWalkError WalkErrorKind_FSRootNotRepo Root)
          | inl true => match root with [] => inl ([], []) | _ => inherited root end
          end
        else inl ([], [])
      else inr (newWalkError WalkErrorKind_RootNotDir (abs_of root))
  end.

Abbreviation ancestor_body_unix :=
  (ancestor_body false methods zero_link ErrNotExist zero_matcher gi_New gi_Relative m_Ignore m_Line m_Column m_String
     ge_Zero ge_Line ge_Column grow opts).
Abbreviation WalkNonDet_unix :=
  (WalkNonDet false methods zero_link ErrNotExist zero_matcher gi_New gi_Relative m_Ignore m_Line m_Column m_String
     ge_Zero ge_Line ge_Column grow opts).

(** The state of the loop over the ancestors, against the reference. *)
Definition tracks (st : heap * ((Slice * list WalkError) + WalkError)) (r : (list pm * list WalkError) + WalkError) : Prop :=
  match r with
  | inr e => st.2 = inr e
  | inl (pms, ws) => exists s, st.2 = inl (s, ws) /\ holds st.1 s pms
  end.

Lemma dir_path_join p : Forall plain p -> p <> [] -> MkRelPath (join p) = dir_path p.
Proof.
  intros Hp Hne. unfold rel_path. cbn [trail]. rewrite app_nil_r. f_equal. symmetry. by apply (render_join 0 p).
Qed.

Lemma identify_holds h s pms ds isDir :
  Forall plain ds -> above ds pms -> holds h s pms ->
  identifyPatternIgnoring false gi_Relative m_Ignore m_Line m_Column m_String h s (dir_path ds) isDir = Ret (verdict pms ds isDir).
Proof. intros Hds Hab [_ Hs]. unfold identifyPatternIgnoring. by rewrite Hs, identify_spec. Qed.

Lemma root_is_ignored_spec root pattern :
  Forall plain root -> root_is_ignored (E := E) (GErr := GErr) false (dir_path root) pattern = Ret (root_ignored root pattern).
Proof. intros Hr. unfold root_is_ignored. by rewrite Root_Join. Qed.

Lemma ancestor_body_spec root anc st r :
  RespectGitIgnore opts = true -> Forall plain root -> Forall plain anc -> (forall pms ws, r = inl (pms, ws) -> above anc pms) ->
  tracks st r ->
  exists st' c, ancestor_body_unix (dir_path root) (dir_path anc) st = Ret (st', c) /\
    tracks st' (inherit_step root r anc) /\ (c = false -> exists e, inherit_step root r anc = inr e).
Proof.
  intros Ho Hroot' Hanc Hab Ht. destruct st as [h x]. destruct r as [[pms ws]|e].
  2:{ cbn in Ht. subst x. exists (h, inr e), false. split; [done|]. split; [done|]. by exists e. }
  destruct Ht as (s & Hx & Hs). cbn [fst snd] in Hx, Hs. subst x. cbn [ancestor_body inherit_step].
  rewrite (identify_holds h s pms anc true), bind_ret by (done || by eapply Hab). destruct (verdict pms anc true) as [pattern|].
  { rewrite root_is_ignored_spec, bind_ret by done. exists (h, inr (root_ignored root pattern)), false. split; [done|]. split; [done|]. by eexists. }
  rewrite isGitRepoRoot_spec, bind_ret by done. unfold enter. rewrite Ho. destruct (repo_root anc) as [repo|e].
  2:{ exists (h, inr e), false. split; [done|]. split; [done|]. by eexists. }
  assert (holds h (if repo then nil_slice else s) (if repo then [] else pms)) as Hs' by (destruct repo; [apply holds_nil|done]).
  destruct (childGitIgnores_spec h anc _ _ Ho Hanc Hs') as (h' & r & -> & Hr). rewrite bind_ret.
  destruct (load anc) as [[m ws']|e].
  - destruct Hr as (s' & -> & Hs'' & _). exists (h', inl (s', ws ++ ws')), true. split; [done|]. split; [|done]. by exists s'.
  - destruct Hr as [-> ->]. exists (h, inr e), false. split; [done|]. split; [done|]. by eexists.
Qed.

Lemma inherit_step_above root pms ws anc pms' ws' x :
  inherit_step root (inl (pms, ws)) anc = inl (pms', ws') -> anc `prefix_of` x -> above x pms -> above x pms'.
Proof.
  unfold inherit_step, enter. destruct (verdict _ _ _); [done|]. destruct (RespectGitIgnore opts); [|by intros [= <- _]].
  destruct (repo_root anc) as [repo|]; [|done]. destruct (load anc) as [[m ws1]|] eqn:Hl; [|done]. intros [= <- _] Hx Hab.
  apply Forall_app. split; [by destruct repo|]. destruct m as [m|]; cbn [option_list]; [|done]. constructor; [|done].
  by rewrite (load_above anc m ws1 Hl).
Qed.

Lemma inherit_error root ancs e : foldl (inherit_step root) (inr e) ancs = inr e.
Proof. by induction ancs. Qed.

Lemma ancestors_loop root ancs st r :
  RespectGitIgnore opts = true -> Forall plain root -> Forall (fun anc => Forall plain anc /\ anc `prefix_of` root) ancs ->
  StronglySorted prefix ancs -> (forall pms ws, r = inl (pms, ws) -> Forall (fun x => above x pms) (ancs ++ [root])) -> tracks st r ->
  exists st', for_list (map (fun anc => dir_path anc) ancs) (ancestor_body_unix (dir_path root)) st = Ret st' /\
    tracks st' (foldl (inherit_step root) r ancs) /\
    (forall pms ws, foldl (inherit_step root) r ancs = inl (pms, ws) -> above root pms).
Proof.
  intros Ho Hroot' Hancs Hsort. revert st r. induction Hancs as [|anc ancs [Hanc Hpre] Hancs IH]; intros st r Hab Ht.
  { exists st. split; [done|]. split; [done|]. intros pms ws Hr. specialize (Hab pms ws Hr). by apply Forall_cons in Hab as [? _]. }
  apply StronglySorted_inv in Hsort as [Hsort Hle]. cbn [map for_list foldl].
  destruct (ancestor_body_spec root anc st r Ho Hroot' Hanc) as (st1 & c & -> & Ht1 & Hc); [|done|].
  { intros pms ws Hr. specialize (Hab pms ws Hr). by apply Forall_cons in Hab as [? _]. }
  rewrite bind_ret. destruct c.
  - apply (IH Hsort); [|done]. intros pms' ws' Hr'. destruct r as [[pms ws]|e]; [|done].
    specialize (Hab pms ws eq_refl). apply Forall_cons in Hab as [_ Hab]. apply Forall_app in Hab as [Hab1 Hab2].
    apply Forall_app. split.
    + rewrite Forall_forall in Hab1, Hle |- *. intros x Hx. by eapply inherit_step_above; [exact Hr'|apply Hle|apply Hab1].
    + apply Forall_cons in Hab2 as [Hab2 _]. constructor; [|done]. by eapply inherit_step_above.
  - destruct (Hc eq_refl) as (e & He). rewrite He in Ht1 |- *. exists st1. rewrite inherit_error. split; [done|]. split; [exact Ht1|done].
Qed.

(** Ancestors come in increasing order. *)
Lemma proper_prefixes_snoc ds name : proper_prefixes (ds ++ [name]) = match ds with [] => [] | _ => proper_prefixes ds ++ [ds] end.
Proof.
  induction ds as [|d ds IH]; [done|]. cbn [app proper_prefixes]. rewrite IH. destruct ds as [|d' ds]; [done|].
  cbn [app]. rewrite map_app. done.
Qed.
Lemma proper_prefixes_sorted ds : StronglySorted prefix (proper_prefixes ds).
Proof.
  induction ds as [|name ds IH] using rev_ind; [constructor|]. rewrite proper_prefixes_snoc. destruct ds as [|d ds]; [constructor|].
  apply StronglySorted_app_2; [|done|by repeat constructor]. intros p x Hp ->%list_elem_of_singleton. apply list_elem_of_In, proper_prefixes_spec in Hp as (k & -> & _). apply prefix_take.
Qed.

Lemma Dot_dir_path : Dot = dir_path [].
Proof. done. Qed.
Lemma dir_path_not_dot root : Forall plain root -> root <> [] -> rvalue (dir_path root) <> str ".".
Proof.
  intros Hp Hne E'. apply (f_equal parts) in E'. rewrite <- (dir_path_join root) in E' by done. cbn [rvalue] in E'.
  rewrite parts_join in E' by (by apply plain_elems). change (parts (str ".")) with [[DOT]] in E'. subst root.
  by apply Forall_cons in Hp as [(_ & _ & ?) _].
Qed.

Lemma ancestorGitIgnores_spec h root :
  RespectGitIgnore opts = true -> Forall plain root -> root <> [] ->
  exists st, ancestorGitIgnores false methods zero_link ErrNotExist zero_matcher gi_New gi_Relative m_Ignore m_Line m_Column m_String
      ge_Zero ge_Line ge_Column grow opts h (dir_path root) = Ret st /\
    tracks st (inherited root) /\ (forall pms ws, inherited root = inl (pms, ws) -> above root pms).
Proof.
  intros Ho Hp Hne. unfold ancestorGitIgnores, inherited. rewrite Ho. cbn [Precondition]. rewrite bind_ret.
  rewrite bool_decide_false by (by apply dir_path_not_dot). cbn [negb Precondition]. rewrite bind_ret, Dot_dir_path.
  destruct (childGitIgnores_spec h [] nil_slice [] Ho) as (h' & r & -> & Hr); [done|apply holds_nil|]. rewrite bind_ret.
  unfold inherit_top. destruct (load []) as [[m ws]|e] eqn:Hl.
  2:{ destruct Hr as [-> ->]. exists (h, inr e). by rewrite inherit_error. }
  destruct Hr as (s & -> & Hs & _). cbn [app] in Hs.
  assert (forall x, above x (option_list m)) as Habove.
  { intros x. destruct m as [m|]; cbn [option_list]; [|constructor]. constructor; [|constructor].
    rewrite (load_above [] m ws Hl). apply prefix_nil. }
  destruct (ancestors_loop root (proper_prefixes root) (h', inl (s, ws)) (inl (option_list m, ws)) Ho Hp) as (st & Hst & Ht & Hab).
  - apply Forall_forall. intros p Hpp. apply list_elem_of_In, proper_prefixes_spec in Hpp as (k & -> & _).
    split; [by apply Forall_take|apply prefix_take].
  - apply proper_prefixes_sorted.
  - intros pms ws' [= <- _]. apply Forall_forall. intros x _. apply Habove.
  - by exists s.
  - pose proof (RelPath_Ancestors_spec 0 root false Hp) as Hanc.
    rewrite (for_range_spec _ _ _ _ (Hanc ltac:(done))). change (climb 0 root) with root.
    assert (map (fun p => MkRelPath (join p)) (proper_prefixes root) = map (fun anc => dir_path anc) (proper_prefixes root)) as ->.
    { apply map_ext_in. intros p Hin. apply dir_path_join; [|by eapply proper_prefixes_not_nil].
      apply proper_prefixes_spec in Hin as (k & -> & _). by apply Forall_take. }
    rewrite Hst, bind_ret. destruct st as [h2 x]. destruct (foldl _ _ _) as [[pms ws']|e].
    + destruct Ht as (s2 & Hx & Hs2). cbn [fst snd] in Hx, Hs2. subst x. specialize (Hab pms ws' eq_refl).
      rewrite (identify_holds h2 s2 pms root true), bind_ret by done. destruct (verdict pms root true) as [pattern|].
      * rewrite root_is_ignored_spec, bind_ret by done. by exists (h2, inr (root_ignored root pattern)).
      * exists (h2, inl (s2, ws')). split; [done|]. split; [by exists s2|]. by intros ? ? [= <- _].
    + cbn in Ht. subst x. by exists (h2, inr e).
Qed.

(** The iterator that a walk starts from. *)
Definition starts (root : list gostring) (h : heap) (r : (list WalkError * walkDirSeq) + WalkError) : Prop :=
  match walk_start root with
  | inr e => r = inr e
  | inl (pms, ws) => exists s, r = inl (ws, MkWalkDirSeq (dir_path root) s) /\ holds h s pms /\ above root pms
  end.

Lemma WalkNonDet_spec h root :
  Forall plain root -> exists h' r, WalkNonDet_unix h (dir_path root) = Ret (h', r) /\ starts root h' r.
Proof.
  intros Hp. unfold WalkNonDet, starts, walk_start. destruct (fsStat _ _) as [info|e].
  2:{ rewrite Root_Join, bind_ret by done. by exists h, (inr (io_err root e)). }
  destruct (fi_IsDir info); cbn [negb].
  2:{ rewrite Root_Join, bind_ret by done. by eexists _, _. }
  destruct (RespectGitIgnore opts) eqn:Ho; cbn [andb].
  2:{ rewrite !bind_ret. exists h. eexists. split; [done|]. exists nil_slice. split; [done|]. split; [apply holds_nil|constructor]. }
  rewrite Dot_dir_path, isGitRepoRoot_spec, bind_ret by done. destruct (repo_root []) as [[]|e]; [|by eexists _, _..].
  unfold RelPath_String. destruct root as [|d root].
  { rewrite bool_decide_true by done. cbn [negb]. rewrite bind_ret. exists h. eexists. split; [done|].
    exists nil_slice. split; [done|]. split; [apply holds_nil|constructor]. }
  rewrite bool_decide_false by (by apply dir_path_not_dot). cbn [negb].
  destruct (ancestorGitIgnores_spec h (d :: root) Ho Hp) as ([h' r] & -> & Ht & Hab); [done|]. rewrite bind_ret.
  destruct (inherited (d :: root)) as [[pms ws]|e].
  - destruct Ht as (s & Hx & Hs). cbn [fst snd] in Hx, Hs. subst r. exists h'. eexists. split; [done|]. exists s.
    split; [done|]. split; [done|]. by eapply Hab.
  - cbn in Ht. subst r. by eexists _, _.
Qed.

(** ** Descending from the root of the file system *)
Inductive reached : list gostring -> list pm -> Prop :=
  | ReachedRoot : reached [] []
  | ReachedChild ds pms de : reached ds pms -> Success de ∈ events ds pms -> de_IsDir de = true ->
      reached (ds ++ [nvalue (de_name de)]) (active ds pms).

Lemma visible_success pms ds l de :
  Success de ∈ visible pms ds l ->
  hidden pms ds (nvalue (de_name de)) (de_IsDir de) = false /\ exists r, r ∈ l /\ err r = None /\ Core.rvalue r = de.
Proof.
  induction l as [|r l IH]; cbn [visible]; [by intros ?%elem_of_nil|]. destruct (err r) as [e|] eqn:Her.
  { intros H%list_elem_of_singleton. by injection H. }
  destruct (hidden pms ds (nvalue (de_name (Core.rvalue r))) (de_IsDir (Core.rvalue r))) eqn:Hh.
  - intros H. destruct (IH H) as (? & r' & ? & ?). split; [done|]. exists r'. split; [by right|done].
  - intros [H|H]%elem_of_cons.
    + injection H as ->. split; [done|]. exists r. split; [by left|done].
    + destruct (IH H) as (? & r' & ? & ?). split; [done|]. exists r'. split; [by right|done].
Qed.

Lemma events_success ds pms de :
  Success de ∈ events ds pms ->
  plain (nvalue (de_name de)) /\ hidden (active ds pms) ds (nvalue (de_name de)) (de_IsDir de) = false /\
  exists ws, enter ds pms = inl (active ds pms, ws).
Proof.
  unfold events, active. destruct (enter ds pms) as [[a ws]|e]; [|by intros H%list_elem_of_singleton].
  intros [H|H]%elem_of_app.
  { apply list_elem_of_In, in_map_iff in H as (w & H & _). done. }
  apply visible_success in H as (Hh & r & Hr & Her & <-). split; [|split; [done|by exists ws]].
  pose proof (Hnames ds) as Hn. rewrite Forall_forall in Hn. by apply Hn.
Qed.

Lemma reached_top pms : reached [] pms -> pms = [].
Proof. inversion 1 as [|ds ? ? ? ? ? E']; [done|]. by destruct ds. Qed.

Lemma reached_inherited ds pms :
  RespectGitIgnore opts = true -> reached ds pms -> ds <> [] ->
  Forall plain ds /\ exists ws, inherited ds = inl (pms, ws).
Proof.
  intros Ho Hr. assert (Forall plain ds /\ (ds <> [] -> verdict pms ds true = None /\
    forall root, exists ws, foldl (inherit_step root) inherit_top (proper_prefixes ds) = inl (pms, ws))) as [Hp H].
  { induction Hr as [|ds pms de Hreach [IHp IH] Hev Hd]; [done|].
    apply events_success in Hev as (Hpl & Hh & ws & Hent). rewrite Hd in Hh. split; [by apply plain_app|]. intros _. split.
    { unfold hidden in Hh. rewrite Ho in Hh. cbn [andb] in Hh. apply orb_false_iff in Hh as [_ Hh]. by destruct (verdict _ _ _). }
    intros root. rewrite proper_prefixes_snoc. destruct ds as [|d ds].
    - rewrite (reached_top pms Hreach) in Hent |- *. cbn [app proper_prefixes foldl]. unfold inherit_top.
      unfold enter in Hent. rewrite Ho in Hent. destruct (repo_root []) as [repo|]; [|done]. destruct (load []) as [[m ws']|]; [|done].
      injection Hent as Ha _. exists ws'. rewrite <- Ha. by destruct repo.
    - destruct IH as [Hv IH]; [done|]. destruct (IH root) as (ws0 & Hf). rewrite foldl_app, Hf. cbn [foldl inherit_step].
      rewrite Hv, Hent. by eexists. }
  intros Hne. split; [done|]. destruct (H Hne) as [Hv Hf]. destruct (Hf ds) as (ws & Hws). exists ws. unfold inherited. by rewrite Hws, Hv.
Qed.

(** ** A client: collecting all paths

    The recursive traversal of the tests: a directory's children are walked as
    soon as it is met, in the middle of its parent's iteration.  [n] bounds the
    nesting. *)
Definition record : Type := list gostring * option WalkError.
Fixpoint collect (n : nat) (prefix : list gostring) : consumer (list record) := fun r '(h, acc) =>
  match err r with
  | Some e => Ret (h, acc ++ [(prefix, Some e)], true)
  | None =>
      let entry := Core.rvalue r in
      let path := prefix ++ [nvalue (FSWalkEntry_Name entry)] in
      let acc := acc ++ [(path, None)] in
      if FSWalkEntry_IsDir entry then
        match n with
        | O => OutOfFuel
        | S n => c ← ChildrenNonDet entry; st ← iterate_unix c (collect n path) (h, acc); Ret (st, true)
        end
      else Ret (h, acc, true)
  end.

(** The same on lists: the tree below a directory, in preorder. *)
Fixpoint tree (n : nat) (prefix ds : list gostring) (pms : list pm) : list record :=
  flat_map (fun r =>
    match err r with
    | Some e => [(prefix, Some e)]
    | None =>
        let de := Core.rvalue r in
        let name := nvalue (de_name de) in
        (prefix ++ [name], None) ::
          match de_IsDir de, n with
          | true, S n => tree n (prefix ++ [name]) (ds ++ [name]) (active ds pms)
          | _, _ => []
          end
    end) (events ds pms).
Fixpoint nested (n : nat) (ds : list gostring) (pms : list pm) : Prop :=
  Forall (fun r => err r = None -> de_IsDir (Core.rvalue r) = true ->
    match n with O => False | S n => nested n (ds ++ [nvalue (de_name (Core.rvalue r))]) (active ds pms) end) (events ds pms).

Lemma collect_extends n prefix : extends (collect n prefix).
Proof.
  revert prefix. induction n as [|n IH]; intros prefix r [h acc] st' c Hg; cbn [collect];
    (destruct (err r) as [e|] eqn:Her; [by intros [= <- _]|]); unfold FSWalkEntry_IsDir.
  - destruct (children _); [done|by intros [= <- _]].
  - destruct (children (Core.rvalue r)) as [seq|] eqn:Hc; [|by intros [= <- _]].
    unfold ChildrenNonDet, FSWalkEntry_IsDir. rewrite Hc. cbn [Precondition]. rewrite !bind_ret. intros (st & Hst & [= <- _])%bind_Ret_iff.
    by eapply (iterate_extends seq (collect n _) h _ st (Hg Her seq Hc)); [apply IH|].
Qed.

Lemma collect_tree n prefix ds parent pms h acc :
  Forall plain ds -> above ds pms -> holds h parent pms -> nested n ds pms ->
  exists h', iterate_unix (MkWalkDirSeq (dir_path ds) parent) (collect n prefix) (h, acc) = Ret (h', acc ++ tree n prefix ds pms) /\
    (full parent -> h ⊆ h').
Proof.
  revert prefix ds parent pms h acc. induction n as [n IHn] using lt_wf_ind. intros prefix ds parent pms h acc Hds Hab Hs Hn.
  destruct (iterate_refines ds parent pms (collect n prefix) h acc Hds Hab Hs (collect_extends n prefix)) as (h1 & s & -> & Hs1 & Hf1 & Hsub).
  enough (forall l acc h1, (forall r, r ∈ l -> r ∈ events ds pms) -> holds h1 s (active ds pms) ->
    exists h', for_list (map (to_entry ds s) l) (collect n prefix) (h1, acc) =
      Ret (h', acc ++ flat_map (fun r => match err r with
        | Some e => [(prefix, Some e)]
        | None => (prefix ++ [nvalue (de_name (Core.rvalue r))], None) ::
            match de_IsDir (Core.rvalue r), n with
            | true, S n => tree n (prefix ++ [nvalue (de_name (Core.rvalue r))]) (ds ++ [nvalue (de_name (Core.rvalue r))]) (active ds pms)
            | _, _ => [] end end) l) /\ h1 ⊆ h') as Hloop.
  { destruct (Hloop (events ds pms) acc h1) as (h' & -> & Hsub'); [done|done|]. exists h'. split; [by destruct n|].
    intros Hf. etransitivity; [by apply Hsub|done]. }
  clear Hs Hsub h h1 Hs1 acc. intros l. induction l as [|r l IHl]; intros acc h1 Hin Hs1.
  { exists h1. split; [cbn; by rewrite app_nil_r|done]. }
  assert (Hat : err r = None -> de_IsDir (Core.rvalue r) = true ->
    match n with O => False | S n => nested n (ds ++ [nvalue (de_name (Core.rvalue r))]) (active ds pms) end).
  { assert (r ∈ events ds pms) as Hr by (apply Hin; by left). destruct n; cbn [nested] in Hn; rewrite Forall_forall in Hn; by apply Hn. }
  assert (forall x, x ∈ l -> x ∈ events ds pms) as Hin' by (intros x Hx; apply Hin; by right).
  cbn [map for_list flat_map]. destruct (events_cases ds pms r) as [(e & ->)|(de & ->)]; [apply Hin; by left| |].
  { assert (collect n prefix (to_entry ds s (failure e)) (h1, acc) = Ret (h1, acc ++ [(prefix, Some e)], true)) as -> by (by destruct n).
    rewrite bind_ret. destruct (IHl (acc ++ [(prefix, Some e)]) h1 Hin' Hs1) as (h' & -> & Hsub). exists h'. split; [|done].
    by rewrite <- app_assoc. }
  specialize (Hat eq_refl). change (err (Success de)) with (@None WalkError) in *. change (Core.rvalue (Success de)) with de in *.
  cbv iota. set (path := prefix ++ [nvalue (de_name de)]) in *.
  assert (plain (nvalue (de_name de))) as Hpl by (eapply events_plain, Hin; by left).
  destruct (de_IsDir de) eqn:Hd.
  - destruct n as [|n]; [by destruct (Hat eq_refl)|].
    assert (above (ds ++ [nvalue (de_name de)]) (active ds pms)) as Hab'.
    { eapply Forall_impl; [apply (active_above ds pms Hab)|]. intros p [rest Hp]. exists (rest ++ [nvalue (de_name de)]). by rewrite Hp, app_assoc. }
    destruct (IHn n (Nat.lt_succ_diag_r n) path (ds ++ [nvalue (de_name de)]) s (active ds pms) h1 (acc ++ [(path, None)])
      (plain_app _ _ Hds Hpl) Hab' Hs1 (Hat eq_refl)) as (h2 & Hit & Hsub2).
    assert (collect (S n) prefix (to_entry ds s (Success de)) (h1, acc) =
      Ret (h2, (acc ++ [(path, None)]) ++ tree n path (ds ++ [nvalue (de_name de)]) (active ds pms), true)) as ->.
    { unfold to_entry. change (err (Success de)) with (@None WalkError). change (Core.rvalue (Success de)) with de. rewrite Hd.
      cbn [collect]. unfold Success, FSWalkEntry_IsDir, ChildrenNonDet, FSWalkEntry_Name. cbn. fold path. by rewrite Hit. }
    rewrite bind_ret. destruct (IHl ((acc ++ [(path, None)]) ++ tree n path (ds ++ [nvalue (de_name de)]) (active ds pms)) h2 Hin') as (h' & -> & Hsub).
    { eapply holds_extend; [exact Hs1|by apply Hsub2]. }
    exists h'. split; [|etransitivity; [by apply Hsub2|done]]. by rewrite <- !app_assoc.
  - assert (collect n prefix (to_entry ds s (Success de)) (h1, acc) = Ret (h1, acc ++ [(path, None)], true)) as ->.
    { unfold to_entry. change (err (Success de)) with (@None WalkError). change (Core.rvalue (Success de)) with de. rewrite Hd. by destruct n. }
    rewrite bind_ret. destruct (IHl (acc ++ [(path, None)]) h1 Hin' Hs1) as (h' & -> & Hsub). exists h'. split; [|done]. by rewrite <- app_assoc.
Qed.

(** ** Main theorems *)

(** C7: the iterator of a directory, for every consumer that may run other
    iterators of the walk in the middle: it yields exactly the events of the
    walk on lists ([events]: the nested repository resets the matchers, the
    directory's own .gitignore comes last, ".git" and what the last match
    ignores is left out, failures are reported in place), every subdirectory
    gets an iterator with the active matchers, and running it writes to no array
    that another iterator uses. *)
Theorem walk_iterator_refines {St} (h : heap) (parent : Slice) (ds : list gostring) (pms : list pm) (yield : consumer St) (st : St)
  (Hds : Forall plain ds) (Habove : above ds pms) (Hparent : holds h parent pms) (Hext : extends yield) :
  exists h1 s,
    iterate_unix (MkWalkDirSeq (dir_path ds) parent) yield (h, st) = for_list (map (to_entry ds s) (events ds pms)) yield (h1, st) /\
    holds h1 s (active ds pms) /\ Forall (good_result h1) (map (to_entry ds s) (events ds pms)) /\
    (full parent -> h ⊆ h1 /\
      forall st', iterate_unix (MkWalkDirSeq (dir_path ds) parent) yield (h, st) = Ret st' -> h ⊆ st'.1).
Proof.
  destruct (iterate_refines ds parent pms yield h st Hds Habove Hparent Hext) as (h1 & s & Heq & Hs & Hf & Hsub). exists h1, s.
  split; [done|]. split; [done|]. split; [by apply events_good|]. intros Hfull. split; [by apply Hsub|]. intros st' Hst.
  apply (iterate_extends (MkWalkDirSeq (dir_path ds) parent) yield h st); [|done|done]. by exists ds, pms.
Qed.

(** C21: walking a subtree agrees with descending to it: for every directory
    reached from the file system's root by following entries of the walk,
    [WalkNonDet] on it succeeds, inherits exactly the matchers that the descent
    has accumulated, and collecting its paths gives the same tree. *)
Theorem subtree_walk_agrees (h : heap) (ds : list gostring) (pms : list pm) (n : nat) (info : FileInfo)
  (Hopt : RespectGitIgnore opts = true) (Hreached : reached ds pms) (Hne : ds <> [])
  (Hstat : fsStat (dir_path ds) (MkStatOptions false true) = inl info) (Hdir : fi_IsDir info = true) (Hrepo : repo_root [] = inl true)
  (Hnested : nested n ds pms) :
  exists h' ws s h2, WalkNonDet_unix h (dir_path ds) = Ret (h', inl (ws, MkWalkDirSeq (dir_path ds) s)) /\ holds h' s pms /\
    iterate_unix (MkWalkDirSeq (dir_path ds) s) (collect n []) (h', []) = Ret (h2, tree n [] ds pms).
Proof.
  destruct (reached_inherited ds pms Hopt Hreached Hne) as (Hp & ws & Hin).
  destruct (WalkNonDet_spec h ds Hp) as (h' & r & Hw & Hst). unfold starts, walk_start in Hst. rewrite Hstat, Hdir, Hopt, Hrepo in Hst.
  destruct ds as [|d ds]; [done|]. rewrite Hin in Hst. destruct Hst as (s & -> & Hs & Hab).
  destruct (collect_tree n [] (d :: ds) s pms h' [] Hp Hab Hs Hnested) as (h2 & Hit & _). by exists h', ws, s, h2.
Qed.
End walk_spec.

(** ** A sample repository

    The root "/r" has ".git", "a/", "x" and "z", and ignores "x"; "a" has "b"
    and "y", and ignores "y".  A .gitignore ignores the one path it contains. *)
Definition sample_methods (e : Z) : method_set Z := MkMethods Z None None None None.
Definition sample_link : @ChainLink Z := MkChainLink 0 linkNormal.
Definition sample_entry (name : gostring) (dir : bool) : Result DirEntry Z := Success (MkDirEntryI (MkName name) dir).
Definition sample_listing (p : RelPath) : list (Result DirEntry Z) :=
  if bool_decide (rvalue p = str ".") then
    [sample_entry (str ".git") true; sample_entry (str "a") true; sample_entry (str "x") false; sample_entry (str "z") false]
  else if bool_decide (rvalue p = str "a") then
    [sample_entry (str ".gitignore") false; sample_entry (str "b") false; sample_entry (str "y") false]
  else [].
Definition is_path (p : RelPath) (s : gostring) : bool := bool_decide (rvalue p = s).
#[export] Instance sample_repo : FS Z := {|
  Root := MkAbsPath (str "/r");
  fsStat := fun p _ =>
    if is_path p (str ".git") || is_path p (str "a") || is_path p (str "a/") then inl (MkFileInfo true ModeDir) else inr 1;
  fsReadFile := fun p => if is_path p (str ".gitignore") then inl (str "x") else if is_path p (str "a/.gitignore") then inl (str "y") else inr 1;
  fsReadDir := fun p => FromSlice (sample_listing (if is_path p (str "a/") then MkRelPath (str "a") else p))
|}.
Definition sample_New (content base : gostring) : gostring * list unit := (content, []).
Definition sample_Relative (m p : gostring) (isDir : bool) : option unit := if bool_decide (p = m) then Some tt else None.
Definition sample_opts : WalkOptions := MkWalkOptions true.
Definition one {A} (a : A) : Z := 1.
Definition yes {A} (a : A) : bool := true.
Definition no_text {A} (a : A) : gostring := [].
Definition double (n : nat) : nat := (2 * n)%nat.

Lemma sample_root : @wf_abs (@Root Z sample_repo) [str "r"] false.
Proof. split; [repeat constructor; vm_compute; discriminate|done|reflexivity]. Qed.
Definition sample_rd (ds : list gostring) : list (Result DirEntry Z) :=
  sample_listing (if is_path (rel_path 0 ds false) (str "a/") then MkRelPath (str "a") else rel_path 0 ds false).
Lemma sample_names ds : Forall (fun r => err r = None -> plain (nvalue (de_name (Core.rvalue r)))) (sample_rd ds).
Proof.
  unfold sample_rd, sample_listing. repeat case_bool_decide; repeat constructor; intros; vm_compute; discriminate.
Qed.
Lemma sample_positions : forall content base : gostring, Forall (fun e : unit => yes e = false ->
  position_ok (one e) (one e) /\ one e <= zlen (split_on 10 content)) (sample_New content base).2.
Proof. intros. constructor. Qed.
Lemma sample_match (m p : gostring) (d : bool) (mt : unit) : sample_Relative m p d = Some mt -> position_ok (one mt) (one mt).
Proof. intros _. split; unfold one; lia. Qed.

Definition sample_iterate {St} :=
  @iterate false Z _ sample_methods sample_link sample_repo 1 gostring unit unit [] sample_New sample_Relative yes one one no_text
    yes one one double sample_opts St.
Definition sample_walk (root : gostring) :=
  @WalkNonDet false Z _ sample_methods sample_link sample_repo 1 gostring unit unit [] sample_New sample_Relative yes one one no_text
    yes one one double sample_opts ∅ (MkRelPath root).

(** The names that an iterator yields. *)
Definition yield_names : @consumer Z gostring unit (list gostring) := fun r '(h, acc) =>
  Ret (h, acc ++ [nvalue (FSWalkEntry_Name (Core.rvalue r))], true).
Lemma walk_iterator_refines_witness :
  match sample_iterate (MkWalkDirSeq (rel_path 0 [str "a"] false) nil_slice) yield_names (∅, []) with
  | Ret (_, names) => names = [str ".gitignore"; str "b"]
  | _ => False
  end.
Proof.
  destruct (walk_iterator_refines sample_methods sample_link 1 [] sample_New sample_Relative yes one one no_text yes one one double sample_opts
    [str "r"] false sample_root (fun e => bool_decide (e = 1)) (fun e => eq_refl) sample_rd (fun ds _ => FromSlice_enumerates _) sample_names
    sample_positions sample_match ∅ nil_slice [str "a"] [] yield_names []) as (h1 & s & Heq & _).
  - repeat constructor; vm_compute; discriminate.
  - constructor.
  - apply holds_nil.
  - intros r [h acc] st' c _ [= <- _]. done.
  - unfold sample_iterate. rewrite Heq. vm_compute. reflexivity.
Defined.

Lemma sample_reached :
  reached sample_New sample_Relative yes one one no_text yes one one sample_opts [str "r"] (fun e => bool_decide (e = 1)) sample_rd
    [str "a"] [(str "x", [])].
Proof.
  refine (ReachedChild _ _ _ _ _ _ _ _ _ _ _ _ _ [] [] (MkDirEntryI (MkName (str "a")) true) _ _ _); [constructor| |done].
  vm_compute. left.
Qed.

Lemma subtree_walk_agrees_witness :
  match sample_walk (str "a") with
  | Ret (_, inl (ws, seq)) => ws = [] /\ sdir seq = MkRelPath (str "a") /\ parentMatchers seq <> nil_slice
  | _ => False
  end.
Proof.
  destruct (subtree_walk_agrees sample_methods sample_link 1 [] sample_New sample_Relative yes one one no_text yes one one double sample_opts
    [str "r"] false sample_root (fun e => bool_decide (e = 1)) (fun e => eq_refl) sample_rd (fun ds _ => FromSlice_enumerates _) sample_names
    sample_positions sample_match ∅ [str "a"] [(str "x", [])] 0 (MkFileInfo true ModeDir)) as (h' & ws & s & h2 & Hw & _).
  - reflexivity.
  - exact sample_reached.
  - done.
  - vm_compute. reflexivity.
  - reflexivity.
  - vm_compute. reflexivity.
  - vm_compute. repeat constructor; intros; discriminate.
  - change (sample_walk (str "a")) with (sample_walk (rvalue (rel_path 0 [str "a"] false))).
    vm_compute in Hw. injection Hw as _ <- <-. vm_compute. repeat split; discriminate.
Defined.

(** A root with a trailing separator is a valid path, but the matcher of its own
    .gitignore cannot be asked about its entries. *)
Lemma walk_trailing_separator_panics :
  match sample_walk (str "a/") with
  | Ret (_, inl (_, seq)) => sample_iterate seq yield_names (∅, []) = Panic PreconditionViolation
  | _ => False
  end.
Proof. vm_compute. reflexivity. Qed.
