(* ===== verification/WalkErrors.v ===== *)
(** * The messages of a walk's errors ([fsx/fsx_walk/errors.go], [source_code/source_code.go])

    [Error] of a [WalkError] formats the fields of the error's kind, and asserts
    that they are there.  The texts of file system errors and of the .gitignore
    package's errors and positions are parameters.  A position prints so that it
    can be read back, and no error that a walk makes, returns or yields panics
    when it is printed. *)
From S2P Require Import Prelude Core Iterx Errorx Strconv Quote GoFilepath CleanSpec LineTable PathTypes PathLaws Timex Fsx GoSlice FsWalk.
#[local] Open Scope Z_scope.

(** ** Positions *)
Definition Position_String (p : Position) : gostring := Timex.Itoa (line_ p) ++ str ":" ++ Timex.Itoa (column p).
Definition FilePosition_String (p : FilePosition) : gostring :=
  fpPath p ++ str ":" ++ Timex.Itoa (FilePosition_Line p) ++ str ":" ++ Timex.Itoa (FilePosition_Column p).

(** ** Messages *)
Section messages.
Context {E GErr : Type} (E_Error : E -> gostring) (ge_Zero : GErr -> bool) (pos_String underlying_Error : GErr -> gostring).

Fixpoint GitIgnoreParseErrors_Error_loop (i : Z) (errs : list GErr) (b : gostring) : gostring :=
  match errs with
  | [] => b
  | err :: errs =>
      let b := if 0 <? i then b ++ str "; " else b in
      GitIgnoreParseErrors_Error_loop (i + 1) errs
        (if ge_Zero err then b ++ underlying_Error err else b ++ pos_String err ++ str ": " ++ underlying_Error err)
  end.
Definition GitIgnoreParseErrors_Error (e : @GitIgnoreParseErrors GErr) : gostring :=
  GitIgnoreParseErrors_Error_loop 0 (perrs e) [].

(** [%v] of the underlying error, which may be nil. *)
Definition cause_text (err : option (@walk_cause E GErr)) : gostring :=
  match err with
  | None => str "<nil>"
  | Some (IOCause e) => E_Error e
  | Some (ParseCause e) => GitIgnoreParseErrors_Error e
  end.
Definition WalkError_Error (e : @WalkError E GErr) : go gostring :=
  match wkind e with
  | WalkErrorKind_IOFailed => Ret (AbsPath_String (wpath e) ++ str ": " ++ cause_text (werr e))
  | WalkErrorKind_RootNotDir => Ret (str "walk root " ++ AbsPath_String (wpath e) ++ str " is not a directory")
  | WalkErrorKind_ParseGitIgnore => Ret (str "parse " ++ AbsPath_String (wpath e) ++ str ": " ++ cause_text (werr e))
  | WalkErrorKind_FSRootNotRepo =>
      Ret (str "filesystem root " ++ AbsPath_String (wpath e) ++ str " is not a git repository root")
  | WalkErrorKind_RootIsIgnored =>
      pattern ← GitIgnorePattern e;
      q ← Quote (snText pattern);
      Ret (str "walk root " ++ AbsPath_String (wpath e) ++ str " is excluded by ancestor .gitignore pattern " ++ q ++
             str " at " ++ FilePosition_String (Snippet_FilePosition pattern))
  end.

(** *** What they say *)
Definition parse_error_text (err : GErr) : gostring :=
  (if ge_Zero err then [] else pos_String err ++ str ": ") ++ underlying_Error err.

Lemma parse_errors_loop errs : forall i b, 0 <= i ->
  GitIgnoreParseErrors_Error_loop i errs b =
    b ++ (if 0 <? i then match errs with [] => [] | _ => str "; " end else []) ++ strings_Join (map parse_error_text errs) (str "; ").
Proof.
  induction errs as [|err errs IH]; intros i b Hi; [destruct (0 <? i); by rewrite !app_nil_r|].
  cbn [GitIgnoreParseErrors_Error_loop map]. rewrite IH, (proj2 (Z.ltb_lt 0 (i + 1))) by lia.
  assert (strings_Join (parse_error_text err :: map parse_error_text errs) (str "; ") =
    parse_error_text err ++ match errs with [] => [] | _ => str "; " end ++ strings_Join (map parse_error_text errs) (str "; ")) as ->
    by (destruct errs; cbn [map strings_Join]; by rewrite ?app_nil_r).
  unfold parse_error_text at 2. destruct (0 <? i), (ge_Zero err); by rewrite ?app_nil_l, <- ?app_assoc.
Qed.
Lemma GitIgnoreParseErrors_Error_spec (e : @GitIgnoreParseErrors GErr) :
  GitIgnoreParseErrors_Error e = strings_Join (map parse_error_text (perrs e)) (str "; ").
Proof. unfold GitIgnoreParseErrors_Error. by rewrite parse_errors_loop. Qed.
End messages.

(** ** Positions can be read back *)
Lemma app_last_inj {A} (x : A) (a b a' b' : list A) : x ∉ b -> x ∉ b' -> a ++ x :: b = a' ++ x :: b' -> a = a' /\ b = b'.
Proof.
  revert a'. induction a as [|y a IH]; intros [|y' a'] Hb Hb'; cbn.
  - by intros [= <-].
  - intros [= <- ->]. set_solver.
  - intros [= -> <-]. set_solver.
  - intros [= <- Heq]. by destruct (IH a' Hb Hb' Heq) as [-> ->].
Qed.

Lemma Itoa_value x : 0 <= x <= MaxInt -> value 10 (Timex.Itoa x) 0 = Some x.
Proof.
  unfold MaxInt. intros Hx. unfold Timex.Itoa. rewrite <- text_of_pretty by (unfold is_int, MinInt, MaxInt; lia). unfold text_of.
  rewrite (proj2 (Z.ltb_ge x 0)), Z.abs_eq by lia. apply value_repr; [lia|]. split; [lia|].
  apply Z.lt_le_trans with (2 ^ 64); [lia|]. by vm_compute.
Qed.
Lemma Itoa_no_colon x : 0 <= x <= MaxInt -> 58 ∉ Timex.Itoa x.
Proof.
  intros Hx (s & t & E)%list_elem_of_split. pose proof (Itoa_value x Hx) as H. rewrite E, value_app in H.
  by destruct (value 10 s 0).
Qed.
Lemma Itoa_inj x y : 0 <= x <= MaxInt -> 0 <= y <= MaxInt -> Timex.Itoa x = Timex.Itoa y -> x = y.
Proof. intros Hx Hy E. pose proof (Itoa_value x Hx) as H. rewrite E, Itoa_value in H by done. by injection H. Qed.

(** A [Position] as [NewPosition] makes it. *)
Definition position_made (p : Position) : Prop := 0 < line_ p < 2 ^ 31 /\ 0 < column p < 2 ^ 31.

Lemma file_position_text_inj (p q : FilePosition) :
  position_made (fpPosition p) -> position_made (fpPosition q) -> FilePosition_String p = FilePosition_String q -> p = q.
Proof.
  destruct p as [f [l c]], q as [f' [l' c']]. unfold position_made, FilePosition_String, FilePosition_Line, FilePosition_Column.
  cbn [fpPosition fpPath line_ column]. intros [Hl Hc] [Hl' Hc'] E.
  assert (forall x, 0 < x < 2 ^ 31 -> 0 <= x <= MaxInt) as Hm by (unfold MaxInt; lia).
  rewrite !(app_assoc f), !(app_assoc f'), !(app_assoc (f ++ str ":")), !(app_assoc (f' ++ str ":")) in E.
  apply app_last_inj in E as [E ->%Itoa_inj]; [|by auto using Itoa_no_colon..].
  rewrite <- !app_assoc in E. apply app_last_inj in E as [-> ->%Itoa_inj]; by auto using Itoa_no_colon.
Qed.

(** ** What a computation returns, when it does *)
Definition gives {A} (P : A -> Prop) (m : go A) : Prop := forall a, m = Ret a -> P a.
Lemma gives_bind {A B} (Q : A -> Prop) (P : B -> Prop) (m : go A) (f : A -> go B) :
  gives Q m -> (forall a, Q a -> gives P (f a)) -> gives P (m ≫= f).
Proof. intros Hm Hf b. destruct m as [a| |]; [|done..]. intros H. by apply (Hf a (Hm a eq_refl)). Qed.
Lemma gives_then {A B} (P : B -> Prop) (m : go A) (f : A -> go B) : (forall a, gives P (f a)) -> gives P (m ≫= f).
Proof. intros Hf. apply (gives_bind (fun _ => True)); [done|by intros a _]. Qed.
Lemma gives_ret {A} (P : A -> Prop) a : P a -> gives P (Ret a).
Proof. by intros Ha b [= <-]. Qed.
Lemma gives_for_list {A St} (I : St -> Prop) (l : list A) (body : A -> St -> go (St * bool)) st :
  (forall a st, I st -> gives (fun r => I r.1) (body a st)) -> I st -> gives I (for_list l body st).
Proof.
  intros Hb. revert st. induction l as [|a l IH]; intros st Hst; [by apply gives_ret|]. cbn [for_list].
  eapply gives_bind; [by apply Hb|]. intros [st' []] Hst'; [by apply IH|by apply gives_ret].
Qed.

(** ** The errors of a walk *)
Section walk_errors.
Context {E : Type} `{EqDecision E} (methods : E -> method_set E) (zero_link : @ChainLink E) `{!FS E} (ErrNotExist : E).
Context {Matcher Match GErr : Type} (zero_matcher : Matcher).
Context (gi_New : gostring -> gostring -> Matcher * list GErr) (gi_Relative : Matcher -> gostring -> bool -> option Match).
Context (m_Ignore : Match -> bool) (m_Line m_Column : Match -> Z) (m_String : Match -> gostring).
Context (ge_Zero : GErr -> bool) (ge_Line ge_Column : GErr -> Z) (grow : nat -> nat) (opts : WalkOptions).
Context (E_Error : E -> gostring) (pos_String underlying_Error : GErr -> gostring).
(** Patterns are made of bytes, and the file system's directories are iterators. *)
Context (m_String_bytes : forall m, is_gostring (m_String m)).
Context (ReadDir_lists : forall rel, exists l, Enumerates (fsReadDir rel) l).

Abbreviation WalkError := (@WalkError E GErr).
Abbreviation consumer := (@consumer E Matcher GErr).
Abbreviation message := (WalkError_Error E_Error ge_Zero pos_String underlying_Error).
Abbreviation isGitRepoRoot_unix := (isGitRepoRoot (GErr := GErr) false methods zero_link ErrNotExist).
Abbreviation loadGitIgnore_unix := (loadGitIgnore false methods zero_link ErrNotExist gi_New ge_Zero ge_Line ge_Column).
Abbreviation childGitIgnores_unix :=
  (childGitIgnores false methods zero_link ErrNotExist zero_matcher gi_New ge_Zero ge_Line ge_Column grow opts).
Abbreviation identify_unix := (identifyPatternIgnoring false gi_Relative m_Ignore m_Line m_Column m_String).
Abbreviation ancestor_body_unix := (ancestor_body false methods zero_link ErrNotExist zero_matcher gi_New gi_Relative
  m_Ignore m_Line m_Column m_String ge_Zero ge_Line ge_Column grow opts).
Abbreviation ancestorGitIgnores_unix := (ancestorGitIgnores false methods zero_link ErrNotExist zero_matcher gi_New gi_Relative
  m_Ignore m_Line m_Column m_String ge_Zero ge_Line ge_Column grow opts).
Abbreviation iterate_entry_unix :=
  (iterate_entry (GErr := GErr) false gi_Relative m_Ignore m_Line m_Column m_String opts).
Abbreviation iterate_unix := (iterate false methods zero_link ErrNotExist zero_matcher gi_New gi_Relative
  m_Ignore m_Line m_Column m_String ge_Zero ge_Line ge_Column grow opts).
Abbreviation walk_iterate_unix := (walk_iterate false methods zero_link ErrNotExist zero_matcher gi_New gi_Relative
  m_Ignore m_Line m_Column m_String ge_Zero ge_Line ge_Column grow opts).
Abbreviation WalkNonDet_unix := (WalkNonDet false methods zero_link ErrNotExist zero_matcher gi_New gi_Relative
  m_Ignore m_Line m_Column m_String ge_Zero ge_Line ge_Column grow opts).

(** An error has the fields that its message needs. *)
Definition printable (e : WalkError) : Prop :=
  wkind e = WalkErrorKind_RootIsIgnored -> exists p, wpattern e = Some p /\ is_gostring (snText p).

Lemma printable_prints e : printable e -> returns (message e).
Proof.
  intros He. unfold WalkError_Error. destruct (wkind e) eqn:Hk; [by eexists..|].
  destruct (He Hk) as (p & Hp & Hb). unfold GitIgnorePattern. rewrite Hk, Hp, Precondition_true by (by apply bool_decide_true).
  rewrite !bind_ret, (quoted_returns _ Hb), bind_ret. by eexists.
Qed.
Lemma printable_new kind path : kind <> WalkErrorKind_RootIsIgnored -> printable (newWalkError kind path).
Proof. by intros Hk ?. Qed.
Lemma gives_withErr e err : printable e -> gives printable (withErr e err).
Proof. intros He. unfold withErr. apply gives_then. intros _. by apply gives_ret. Qed.
Lemma gives_io_error rel err : gives printable (io_error false rel err).
Proof. unfold io_error. apply gives_then. intros path. by apply gives_withErr, printable_new. Qed.

(** The results of the helpers: [ok] of a value, or a printable error. *)
Definition or_printable {A} (ok : A -> Prop) (r : A + WalkError) : Prop :=
  match r with inl a => ok a | inr e => printable e end.

Lemma gives_isGitRepoRoot dir : gives (or_printable (fun _ => True)) (isGitRepoRoot_unix dir).
Proof.
  unfold isGitRepoRoot. apply gives_then. intros gitRel. destruct (fsStat gitRel _) as [info|err]; [by apply gives_ret|].
  apply gives_then. intros [|]; [by apply gives_ret|]. eapply gives_bind; [apply gives_io_error|]. intros e He. by apply gives_ret.
Qed.
Lemma gives_loadGitIgnore dir : gives (or_printable (fun r => Forall printable r.2)) (loadGitIgnore_unix dir).
Proof.
  unfold loadGitIgnore. apply gives_then. intros rel. destruct (fsReadFile rel) as [content|err].
  - apply gives_then. intros base. destruct (gi_New content _) as [m errs]. destruct (0 <? zlen errs); [|apply gives_ret; by constructor].
    apply gives_then. intros path. apply gives_then. intros pe. eapply gives_bind; [by apply gives_withErr, printable_new|].
    intros w Hw. apply gives_ret. by repeat constructor.
  - apply gives_then. intros [|]; [apply gives_ret; by constructor|]. eapply gives_bind; [apply gives_io_error|]. intros e He. by apply gives_ret.
Qed.
Lemma gives_childGitIgnores h dir parent :
  gives (fun r => or_printable (fun r => Forall printable r.2) r.2) (childGitIgnores_unix h dir parent).
Proof.
  unfold childGitIgnores. apply gives_then. intros _. eapply gives_bind; [apply gives_loadGitIgnore|].
  intros [[[m|] ws]|e] Hr; [|by apply gives_ret..]. destruct (GoSlice.append _ _ h parent m) as [h' s]. by apply gives_ret.
Qed.
Lemma gives_identify h matchers rel isDir :
  gives (fun o => forall s, o = Some s -> is_gostring (snText s)) (identify_unix h matchers rel isDir).
Proof.
  unfold identifyPatternIgnoring. assert (forall s : Snippet, None = Some s -> is_gostring (snText s)) as H by done.
  revert H. generalize (@None Snippet). induction (elems h matchers) as [|m ms IH]; intros o Ho; [apply gives_ret; exact Ho|].
  cbn [identify_loop]. apply gives_then. intros r. destruct (gi_Relative _ _ _) as [mt|]; [|by apply IH].
  destruct (m_Ignore mt); [|by apply IH]. eapply (gives_bind (fun s => is_gostring (snText s))).
  - unfold sourceCodeSnippet. apply gives_then. intros pos. apply gives_ret, m_String_bytes.
  - intros s Hs. apply IH. by intros s' [= <-].
Qed.
Lemma gives_root_is_ignored root pattern : is_gostring (snText pattern) -> gives printable (root_is_ignored (GErr := GErr) false root pattern).
Proof.
  intros Hp. unfold root_is_ignored. apply gives_then. intros path. unfold withGitIgnorePattern. apply gives_then. intros _.
  apply gives_ret. intros _. by exists pattern.
Qed.

Lemma gives_ancestor_body root ancestor st :
  or_printable (fun r => Forall printable r.2) st.2 ->
  gives (fun r => or_printable (fun r => Forall printable r.2) r.1.2) (ancestor_body_unix root ancestor st).
Proof.
  destruct st as [h [[matchers ws]|e]]; [|intros He; by apply gives_ret]. cbn [snd or_printable]. intros Hws. unfold ancestor_body.
  eapply gives_bind; [apply gives_identify|]. intros [pattern|] Hp.
  { eapply gives_bind; [by apply gives_root_is_ignored, Hp|]. intros e He. by apply gives_ret. }
  eapply gives_bind; [apply gives_isGitRepoRoot|]. intros [repoRoot|e] Hr; [|by apply gives_ret].
  eapply gives_bind; [apply gives_childGitIgnores|]. intros [h' [[matchers' ws']|e]] Hc; apply gives_ret; cbn in *; [|done].
  apply Forall_app. by split.
Qed.
Lemma gives_ancestorGitIgnores h root n es tr :
  wf_rel root n es tr -> gives (fun r => or_printable (fun r => Forall printable r.2) r.2) (ancestorGitIgnores_unix h root).
Proof.
  intros [Hes Htr ->]. unfold ancestorGitIgnores. apply gives_then. intros _. apply gives_then. intros _.
  eapply gives_bind; [apply gives_childGitIgnores|]. intros [h1 [[matchers ws]|e]] Hc; [|by apply gives_ret].
  rewrite (for_range_spec _ _ _ _ (RelPath_Ancestors_spec n es tr Hes ltac:(intros Ht; destruct (Htr Ht); unfold climb; destruct n, es; cbn; done || lia))).
  eapply (gives_bind (fun st => or_printable (fun r => Forall printable r.2) st.2)).
  { apply gives_for_list; [|done]. intros a st Hst. by apply gives_ancestor_body. }
  intros [h2 [[matchers2 ws2]|e]] Hst; [|by apply gives_ret].
  eapply gives_bind; [apply gives_identify|]. intros [pattern|] Hp; [|by apply gives_ret].
  eapply gives_bind; [by apply gives_root_is_ignored, Hp|]. intros e He. by apply gives_ret.
Qed.

(** The initial error or warnings of a walk. *)
Lemma gives_WalkNonDet h root n es tr :
  wf_rel root n es tr -> gives (fun r => or_printable (fun w => Forall printable w.1) r.2) (WalkNonDet_unix h root).
Proof.
  intros Hwf. unfold WalkNonDet. destruct (fsStat root _) as [info|err].
  - destruct (negb (fi_IsDir info)); [apply gives_then; intros path; by apply gives_ret, printable_new|].
    eapply (gives_bind (or_printable (fun _ => True))).
    { destruct (RespectGitIgnore opts); [apply gives_isGitRepoRoot|by apply gives_ret]. }
    intros [[]|e] Hr; [|by apply gives_ret, printable_new|by apply gives_ret].
    eapply (gives_bind (fun r => or_printable (fun r => Forall printable r.2) r.2)).
    { destruct (_ && _); [by eapply gives_ancestorGitIgnores|apply gives_ret; by constructor]. }
    intros [h' [[matchers ws]|e]] H'; by apply gives_ret.
  - apply gives_then. intros path. eapply gives_bind; [by apply gives_withErr, printable_new|]. intros e He. by apply gives_ret.
Qed.

(** *** Printing what an iterator yields *)
(** A consumer that prints the error of a result before it looks at the result. *)
Definition announce {St} (yield : consumer St) : consumer St := fun r st =>
  _ ← (match err r with Some e => m ← message e; Ret tt | None => Ret tt end); yield r st.

Lemma announce_printable {St} (yield : consumer St) e st :
  printable e -> announce yield (MkResult zeroEntry (Some e)) st = yield (MkResult zeroEntry (Some e)) st.
Proof. intros He. unfold announce. cbn [err]. destruct (printable_prints e He) as [m ->]. by rewrite !bind_ret. Qed.
Lemma fail_returns (e : WalkError) : fail_ e = Ret (MkResult zeroEntry (Some e)).
Proof. unfold fail_, Failure. by rewrite Precondition_true by (by apply bool_decide_true). Qed.

Lemma announce_warnings {St} (yield : consumer St) ws st :
  Forall printable ws -> yield_warnings ws (announce yield) st = yield_warnings ws yield st.
Proof.
  intros Hws. revert st. induction Hws as [|w ws Hw _ IH]; intros st; [done|]. cbn [yield_warnings].
  rewrite fail_returns, !bind_ret, announce_printable by done. destruct (yield _ st) as [[st' []]| |]; [|done..]. rewrite !bind_ret. apply IH.
Qed.
Lemma announce_entry {St} seq active (yield : consumer St) r st :
  iterate_entry_unix seq active (announce yield) r st = iterate_entry_unix seq active yield r st.
Proof.
  unfold iterate_entry. destruct (rGet r) as [de [er|]].
  - destruct (io_error false (sdir seq) er) as [e| |] eqn:He; [|done..]. apply gives_io_error in He.
    by rewrite !bind_ret, fail_returns, !bind_ret, announce_printable.
  - destruct (_ && _); [done|]. destruct (RelPath_JoinComponents _ _ _) as [child| |]; [|done..]. rewrite !bind_ret.
    destruct (if RespectGitIgnore opts then _ else _) as [[s|]| |]; [done| |done..]. rewrite !bind_ret. by destruct (de_IsDir de).
Qed.
Lemma for_list_same {A St} (l : list A) (f g : A -> St -> go (St * bool)) st :
  (forall a st, f a st = g a st) -> for_list l f st = for_list l g st.
Proof.
  intros Hfg. revert st. induction l as [|a l IH]; intros st; [done|]. cbn [for_list]. rewrite Hfg.
  destruct (g a st) as [[st' []]| |]; [|done..]. apply IH.
Qed.
Lemma gives_iterate_matchers h seq :
  gives (fun r => or_printable (fun r => Forall printable r.2) r.2)
    (iterate_matchers false methods zero_link ErrNotExist zero_matcher gi_New ge_Zero ge_Line ge_Column grow opts h seq).
Proof.
  unfold iterate_matchers. destruct (RespectGitIgnore opts) eqn:Ho; [|apply gives_ret; by constructor].
  eapply gives_bind; [apply gives_isGitRepoRoot|]. intros [repoRoot|e] Hr; [|by apply gives_ret]. apply gives_childGitIgnores.
Qed.
Lemma announce_iterate {St} seq (yield : consumer St) st : iterate_unix seq (announce yield) st = iterate_unix seq yield st.
Proof.
  unfold iterate. destruct (iterate_matchers _ _ _ _ _ _ _ _ _ _ _ _ _) as [[h r]| |] eqn:Hm; [|done..].
  apply gives_iterate_matchers in Hm. rewrite !bind_ret. destruct r as [[active ws]|e]; cbn in Hm.
  - rewrite announce_warnings by done. destruct (yield_warnings ws yield _) as [[st' []]| |]; [|done..]. rewrite !bind_ret. cbn [negb].
    destruct (ReadDir_lists (sdir seq)) as [l Hl]. rewrite !(for_range_spec _ _ _ _ Hl). apply for_list_same. intros a st''. apply announce_entry.
  - by rewrite fail_returns, !bind_ret, announce_printable.
Qed.

(** Every error that a walk makes can be printed: the initial error has a
    message, and so does every warning and failure that the iterator of the walk,
    or of any directory in it, passes to a consumer, whatever the consumer does. *)
Theorem walk_errors_print (h : GoSlice.store (@gitIgnoreMatcher Matcher)) (root : RelPath) (n : nat) (es : list gostring) (tr : bool)
    (Hroot : wf_rel root n es tr) h' r (Hwalk : WalkNonDet_unix h root = Ret (h', r)) :
  match r with
  | inr e => returns (message e)
  | inl w => forall St (yield : consumer St) st, walk_iterate_unix w (announce yield) st = walk_iterate_unix w yield st
  end /\
  forall seq St (yield : consumer St) st, iterate_unix seq (announce yield) st = iterate_unix seq yield st.
Proof.
  split; [|by intros; apply announce_iterate].
  pose proof (gives_WalkNonDet h root n es tr Hroot _ Hwalk) as Hr. destruct r as [w|e]; [|by apply printable_prints].
  intros St yield st. unfold walk_iterate. rewrite announce_warnings by done.
  destruct (yield_warnings w.1 yield st) as [[st' []]| |]; [|done..]. rewrite !bind_ret. apply announce_iterate.
Qed.
End walk_errors.

(** ** Samples *)
Definition sample_ignored : @WalkError unit unit :=
  MkWalkError WalkErrorKind_RootIsIgnored (MkAbsPath (str "/r/out")) None (Some (MkSnippet (str ".gitignore") (MkPosition 3 1) (str "out/"))).
Definition sample_parse_errors : @WalkError unit bool :=
  MkWalkError WalkErrorKind_ParseGitIgnore (MkAbsPath (str "/r/.gitignore")) (Some (ParseCause (MkGitIgnoreParseErrors [false; true] []))) None.
Example message_samples :
  option_map (app [34]) (match WalkError_Error (fun _ => []) (fun _ => true) (fun _ => []) (fun _ => []) sample_ignored with Ret s => Some s | _ => None end) =
    Some ([34] ++ str "walk root /r/out is excluded by ancestor .gitignore pattern " ++ [34] ++ str "out/" ++ [34] ++ str " at .gitignore:3:1") /\
  WalkError_Error (fun _ => []) id (fun _ => str ".gitignore:2:5") (fun _ => str "bad pattern") sample_parse_errors =
    Ret (str "parse /r/.gitignore: .gitignore:2:5: bad pattern; bad pattern").
Proof. vm_compute. done. Qed.

(** A file system whose root has been removed. *)
Definition lost_FS : FS unit :=
  {| Root := MkAbsPath (str "/r"); fsStat := fun _ _ => inr tt; fsReadFile := fun _ => inr tt; fsReadDir := fun _ St yield st => Ret st |}.
Lemma walk_errors_print_witness :
  exists e, WalkNonDet (FS0 := lost_FS) false (fun _ : unit => MkMethods unit None None None None) (MkChainLink tt linkNormal) tt tt
      (fun _ _ => (tt, [])) (fun (_ : unit) _ _ => @None unit) (fun _ => true) (fun _ => 1) (fun _ => 1) (fun _ => str "*")
      (fun _ : unit => true) (fun _ => 1) (fun _ => 1) id (MkWalkOptions true) ∅ Dot = Ret (∅, inr e) /\
    returns (WalkError_Error (fun _ => str "gone") (fun _ => true) (fun _ => []) (fun _ => []) e).
Proof.
  eexists. split; [vm_compute; reflexivity|].
  refine (proj1 (walk_errors_print (FS0 := lost_FS) (fun _ : unit => MkMethods unit None None None None) (MkChainLink tt linkNormal) tt tt
      (fun _ _ => (tt, [])) (fun (_ : unit) _ _ => @None unit) (fun _ => true) (fun _ => 1) (fun _ => 1) (fun _ => str "*")
      (fun _ : unit => true) (fun _ => 1) (fun _ => 1) id (MkWalkOptions true) (fun _ => str "gone") (fun _ => []) (fun _ => []) _ _ ∅ Dot 0 [] false _ ∅ (inr _) _)).
  - intros _. by repeat constructor.
  - intros rel. by exists [].
  - by split.
  - vm_compute. reflexivity.
Defined.
