(* ===== verification/Cmdx.v ===== *)
(** * Commands ([cmdx/cmd.go], [cmdx/run.go])

    A program that runs commands and changes the file system is a function of
    the trace of what was done so far: each command and change is an event, and
    what it returns is decided by an [oracle] that sees the trace before it.
    [emits] is the logic of such programs: whatever the oracle, the program
    returns, and the events it adds and its result satisfy a relation. *)
From S2P Require Import Prelude Env Core PathTypes Timex Fsx.
#[local] Open Scope Z_scope.

(** ** Commands ([cmdx]) *)
Record Cmd := MkCmd { cname : gostring; cargs : list gostring; cdir : option AbsPath }.
Definition New (argv : list gostring) : go Cmd :=
  name ← index argv 0; args ← slice_from argv 1; Ret (MkCmd name args None).
Definition In_ (cmd : Cmd) (dir : AbsPath) : Cmd := MkCmd (cname cmd) (cargs cmd) (Some dir).
Definition Cmd_Dir (cmd : Cmd) : option AbsPath := cdir cmd.
Definition Argv (cmd : Cmd) : list gostring := cname cmd :: cargs cmd.

Record RunOutput := MkRunOutput { Stdout : gostring; Stderr : gostring }.
Record RunOptions := MkRunOptions { CaptureStdout : bool; CaptureStderr : bool; TransformEnv : option (Env.Env -> go Env.Env) }.
Definition RunOptionsDefault : RunOptions := MkRunOptions false false None.
Definition WithCaptureStdout (o : RunOptions) : RunOptions := MkRunOptions true (CaptureStderr o) (TransformEnv o).
Definition WithCaptureStderr (o : RunOptions) : RunOptions := MkRunOptions (CaptureStdout o) true (TransformEnv o).

Section prog.
Context {E : Type}.

Inductive event :=
  | Ran (cmd : Cmd) (opts : RunOptions) (out : RunOutput) (err : option E)
  | MadeAll (dir : RelPath) (perm : Z) (err : option E)
  | MadeTemp (dir : RelPath) (pattern : gostring) (res : RelPath + E)
  | RemovedAll (dir : RelPath) (err : option E)
  | Statted (rel : RelPath) (opts : StatOptions) (err : option E)
  | ReadClock (now : Instant)
  | Printed (text : gostring).
Record oracle := MkOracle {
  o_run : list event -> Cmd -> RunOptions -> RunOutput * option E;
  o_mkdirall : list event -> RelPath -> Z -> option E;
  o_mkdirtemp : list event -> RelPath -> gostring -> RelPath + E;
  o_removeall : list event -> RelPath -> option E;
  o_stat : list event -> RelPath -> StatOptions -> option E;
  o_now : list event -> Instant
}.

(** Programs that extend the trace and may panic. *)
Definition prog (A : Type) : Type := list event -> go (list event * A).
#[export] Instance prog_ret : MRet prog := fun A a tr => Ret (tr, a).
#[export] Instance prog_bind : MBind prog := fun A B f m tr => '(tr, a) ← m tr; f a tr.
Definition lift {A} (m : go A) : prog A := fun tr => a ← m; Ret (tr, a).

Context (o : oracle).

Definition Run (cmd : Cmd) (opts : RunOptions) : prog (RunOutput * option E) := fun tr =>
  let '(out, err) := o_run o tr cmd opts in Ret (tr ++ [Ran cmd opts out err], (out, err)).
Definition MkdirAll (rel : RelPath) (perm : Z) : prog (option E) := fun tr =>
  let err := o_mkdirall o tr rel perm in Ret (tr ++ [MadeAll rel perm err], err).
Definition MkdirTemp (dir : RelPath) (pattern : gostring) : prog (RelPath + E) := fun tr =>
  let res := o_mkdirtemp o tr dir pattern in Ret (tr ++ [MadeTemp dir pattern res], res).
Definition RemoveAll (rel : RelPath) : prog (option E) := fun tr =>
  let err := o_removeall o tr rel in Ret (tr ++ [RemovedAll rel err], err).
(** Whether [Stat] fails; what it finds is not used. *)
Definition StatErr (rel : RelPath) (opts : StatOptions) : prog (option E) := fun tr =>
  let err := o_stat o tr rel opts in Ret (tr ++ [Statted rel opts err], err).
Definition GetInstant : prog Instant := fun tr => let now := o_now o tr in Ret (tr ++ [ReadClock now], now).
(** A write to the standard output whose result is ignored. *)
Definition Print_ (text : gostring) : prog unit := fun tr => Ret (tr ++ [Printed text], tt).

Fixpoint BaseRunnerExecAll (cmds : list Cmd) : prog (option E) :=
  match cmds with
  | [] => mret None
  | cmd :: cmds =>
      '(_, err) ← Run cmd RunOptionsDefault;
      match err with Some e => mret (Some e) | None => BaseRunnerExecAll cmds end
  end.

(** [cmdx.New(argv...).In(dir)] *)
Definition cmd_in (argv : list gostring) (dir : AbsPath) : prog Cmd := lift (cmd ← New argv; Ret (In_ cmd dir)).

(** ** What a program emits *)
Definition emits {A} (m : prog A) (Q : list event -> A -> Prop) : Prop :=
  forall tr, exists evs a, m tr = Ret (tr ++ evs, a) /\ Q evs a.

Lemma emits_ret {A} (a : A) Q : Q [] a -> emits (mret a) Q.
Proof. intros H tr. exists [], a. by rewrite app_nil_r. Qed.

Lemma emits_bind {A B} (m : prog A) (f : A -> prog B) (P : list event -> A -> Prop) Q :
  emits m P -> (forall evs a, P evs a -> emits (f a) (fun evs' b => Q (evs ++ evs') b)) -> emits (m ≫= f) Q.
Proof.
  intros Hm Hf tr. destruct (Hm tr) as (evs & a & E1 & HP). destruct (Hf evs a HP (tr ++ evs)) as (evs' & b & E2 & HQ).
  exists (evs ++ evs'), b. split; [|done]. change ((m ≫= f) tr) with ('(tr, a) ← m tr; f a tr).
  rewrite E1, bind_ret, E2. by rewrite app_assoc.
Qed.

Lemma emits_mono {A} (m : prog A) (P Q : list event -> A -> Prop) : emits m P -> (forall evs a, P evs a -> Q evs a) -> emits m Q.
Proof. intros Hm HPQ tr. destruct (Hm tr) as (evs & a & ? & ?). exists evs, a. auto. Qed.

Lemma emits_lift {A} (m : go A) a (Q : list event -> A -> Prop) : m = Ret a -> Q [] a -> emits (lift m) Q.
Proof. intros -> HQ tr. exists [], a. split; [|done]. unfold lift. by rewrite bind_ret, app_nil_r. Qed.

Lemma emits_Run cmd opts (Q : list event -> RunOutput * option E -> Prop) :
  (forall out err, Q [Ran cmd opts out err] (out, err)) -> emits (Run cmd opts) Q.
Proof. intros H tr. unfold Run. destruct (o_run o tr cmd opts) as [out err]. by eexists _, _. Qed.

(** The same when the answers of the oracle are constrained. *)
Lemma emits_Run_oracle cmd opts (Q : list event -> RunOutput * option E -> Prop) :
  (forall tr out err, o_run o tr cmd opts = (out, err) -> Q [Ran cmd opts out err] (out, err)) -> emits (Run cmd opts) Q.
Proof. intros H tr. unfold Run. destruct (o_run o tr cmd opts) as [out err] eqn:Ho. eexists _, _. split; [done|]. by eapply H. Qed.

Lemma emits_RemoveAll w (Q : list event -> option E -> Prop) :
  (forall err, Q [RemovedAll w err] err) -> emits (RemoveAll w) Q.
Proof. intros H tr. by eexists _, _. Qed.

Lemma emits_MkdirAll d perm (Q : list event -> option E -> Prop) :
  (forall err, Q [MadeAll d perm err] err) -> emits (MkdirAll d perm) Q.
Proof. intros H tr. by eexists _, _. Qed.

Lemma emits_MkdirTemp d p (Q : list event -> RelPath + E -> Prop) :
  (forall tr res, o_mkdirtemp o tr d p = res -> Q [MadeTemp d p res] res) -> emits (MkdirTemp d p) Q.
Proof. intros H tr. eexists _, _. split; [done|]. by eapply H. Qed.

Lemma emits_StatErr rel opts (Q : list event -> option E -> Prop) :
  (forall err, Q [Statted rel opts err] err) -> emits (StatErr rel opts) Q.
Proof. intros H tr. by eexists _, _. Qed.

Lemma emits_GetInstant (Q : list event -> Instant -> Prop) : (forall now, Q [ReadClock now] now) -> emits GetInstant Q.
Proof. intros H tr. by eexists _, _. Qed.

Lemma emits_Print text (Q : list event -> unit -> Prop) : Q [Printed text] tt -> emits (Print_ text) Q.
Proof. intros H tr. by eexists _, _. Qed.

Lemma New_cons name args : New (name :: args) = Ret (MkCmd name args None).
Proof.
  unfold New. change (index (name :: args) 0) with (@Ret gostring name). rewrite bind_ret.
  change (name :: args) with ([name] ++ args). change 1 with (zlen [name]). by rewrite slice_from_app_r.
Qed.

Lemma emits_cmd_in name args dir (Q : list event -> Cmd -> Prop) :
  Q [] (MkCmd name args (Some dir)) -> emits (cmd_in (name :: args) dir) Q.
Proof. intros H. unfold cmd_in. rewrite New_cons, bind_ret. by eapply emits_lift. Qed.

(** A step whose command is built and run at once. *)
Lemma emits_cmd_run {B} name args dir opts (f : RunOutput * option E -> prog B) Q :
  (forall out err, emits (f (out, err)) (fun evs b => Q (Ran (MkCmd name args (Some dir)) opts out err :: evs) b)) ->
  emits (c ← cmd_in (name :: args) dir; r ← Run c opts; f r) Q.
Proof.
  intros H. eapply emits_bind; [by apply (emits_cmd_in _ _ _ (fun evs c => evs = [] /\ c = MkCmd name args (Some dir)))|].
  intros ? ? [-> ->]. eapply emits_bind; [by apply (emits_Run _ _ (fun evs r => evs = [Ran (MkCmd name args (Some dir)) opts r.1 r.2]))|].
  intros ? [out err] ->. eapply emits_mono; [apply H|]. done.
Qed.

(** ** Loops that stop at the first error *)
Fixpoint run_each {A Er} (f : A -> prog (option Er)) (l : list A) : prog (option Er) :=
  match l with
  | [] => mret None
  | a :: l => err ← f a; match err with Some e => mret (Some e) | None => run_each f l end
  end.

(** The trace of such a loop when [T a] is what [f a] emits. *)
Fixpoint each_trace {A Er} (T : A -> list event -> option Er -> Prop) (l : list A) (evs : list event) (err : option Er) : Prop :=
  match l with
  | [] => evs = [] /\ err = None
  | a :: l => exists evs1 err1, T a evs1 err1 /\
      match err1 with
      | Some _ => evs = evs1 /\ err = err1
      | None => exists evs2, evs = evs1 ++ evs2 /\ each_trace T l evs2 err
      end
  end.

Lemma run_each_emits {A Er} (f : A -> prog (option Er)) T l :
  (forall a, a ∈ l -> emits (f a) (T a)) -> emits (run_each f l) (each_trace T l).
Proof.
  induction l as [|a l IH]; intros Hf; cbn [run_each]; [by apply emits_ret|].
  eapply emits_bind; [apply Hf; left|]. intros evs1 [e1|] H1.
  - apply emits_ret. exists evs1, (Some e1). by rewrite app_nil_r.
  - eapply emits_mono; [apply IH; intros; apply Hf; by right|]. intros evs2 err H2. exists evs1, None. by eauto.
Qed.

Lemma each_trace_Forall {A Er} (T : A -> list event -> option Er -> Prop) (P : event -> Prop) l evs err :
  (forall a evs err, T a evs err -> Forall P evs) -> each_trace T l evs err -> Forall P evs.
Proof.
  intros HT. revert evs. induction l as [|a l IH]; cbn [each_trace]; [by intros evs [-> _]|].
  intros evs (evs1 & [e1|] & H1 & H); [destruct H as [-> _]; by eapply HT|].
  destruct H as (evs2 & -> & H2). apply Forall_app_2; [by eapply HT|by apply IH].
Qed.

(** Without an error the loop did everything. *)
Lemma each_trace_all {A Er} (T : A -> list event -> option Er -> Prop) l evs a :
  each_trace T l evs None -> a ∈ l -> exists pre mid post, evs = pre ++ mid ++ post /\ T a mid None.
Proof.
  revert evs. induction l as [|b l IH]; cbn [each_trace]; intros evs; [by intros _ ?%elem_of_nil|].
  intros (evs1 & [e1|] & H1 & H); [by destruct H|]. destruct H as (evs2 & -> & H2).
  intros [->|Ha]%elem_of_cons; [by exists [], evs1, evs2|].
  destruct (IH _ H2 Ha) as (pre & mid & post & -> & HT). exists (evs1 ++ pre), mid, post. by rewrite <- app_assoc.
Qed.

(** ** Events that end a sequence of steps *)

(** Each event of [evs] in [P] ends a sequence of steps in [R]. *)
Definition each_ends (P : event -> Prop) (R : list event -> Prop) (evs : list event) : Prop :=
  forall pre e post, evs = pre ++ e :: post -> P e -> exists pre' steps, pre ++ [e] = pre' ++ steps /\ R steps.

Lemma each_ends_none P R evs : Forall (fun e => ~ P e) evs -> each_ends P R evs.
Proof. intros H pre e post -> He. apply Forall_app in H as [_ H]. by apply Forall_cons in H as [H _]. Qed.

Lemma each_ends_app P R a b : each_ends P R a -> each_ends P R b -> each_ends P R (a ++ b).
Proof.
  intros Ha Hb pre e post E1 He. apply app_eq_inv in E1 as [(k & -> & E2)|(k & -> & ->)].
  - destruct k as [|e' k]; cbn in E2.
    + destruct (Hb [] e post) as (pre' & steps & E3 & HR); [done|done|].
      exists (pre ++ pre'), steps. split; [|done]. by rewrite <- app_assoc, <- E3.
    + injection E2 as -> ->. by eapply Ha.
  - destruct (Hb k e post) as (pre' & steps & E3 & HR); [done|done|].
    exists (a ++ pre'), steps. split; [|done]. by rewrite <- !app_assoc, <- E3.
Qed.

Lemma each_ends_last P (R : list event -> Prop) steps e :
  Forall (fun e => ~ P e) steps -> R (steps ++ [e]) -> each_ends P R (steps ++ [e]).
Proof.
  intros Hs HR pre e' post E1 He. destruct post as [|x post _] using rev_ind.
  - apply app_inj_tail in E1 as [-> ->]. by exists [], (pre ++ [e']).
  - rewrite app_comm_cons, app_assoc in E1. apply app_inj_tail in E1 as [-> _].
    rewrite Forall_forall in Hs. destruct (Hs e'); [apply elem_of_app; right; left|done].
Qed.

Lemma each_ends_mono P (R R' : list event -> Prop) evs : (forall s, R s -> R' s) -> each_ends P R evs -> each_ends P R' evs.
Proof. intros HR H pre e post E1 He. destruct (H _ _ _ E1 He) as (pre' & steps & ? & ?). eauto. Qed.

Lemma each_trace_ends {A Er} (T : A -> list event -> option Er -> Prop) P (R : A -> list event -> Prop) l evs err :
  (forall a evs err, T a evs err -> each_ends P (R a) evs) -> each_trace T l evs err ->
  each_ends P (fun steps => exists a, a ∈ l /\ R a steps) evs.
Proof.
  intros HT. revert evs. induction l as [|a l IH]; cbn [each_trace]; intros evs.
  - intros [-> _]. by apply each_ends_none.
  - intros (evs1 & err1 & H1 & H).
    assert (each_ends P (fun steps => exists a', a' ∈ a :: l /\ R a' steps) evs1) as Hok1.
    { eapply each_ends_mono; [|by eapply HT]. intros s Hs. exists a. split; [left|done]. }
    destruct err1 as [e1|]; [by destruct H as [-> _]|]. destruct H as (evs2 & -> & H2).
    apply each_ends_app; [done|]. eapply each_ends_mono; [|by apply IH].
    intros s (b & Hb & Hs). exists b. split; [by right|done].
Qed.
End prog.
