(* ===== verification/CmdRunner.v ===== *)
(** * Running commands with their output logged ([logx/cmd_loggers.go], [logx/logx.go], [syscaps/syscaps.go])

    [CmdRunner.Run] feeds the output of a process, as it is read, to loggers that
    cut it into lines and to buffers that capture it.  The logger below
    [consoleLogger], the quoting of commands and the process are parameters: a
    process is given its arguments, directory and environment, and is the chunks
    it is seen to write to its two streams, in any interleaving, and its error. *)
From S2P Require Import Prelude Env Core PathTypes Cmdx GoUtf8 BytesBuffer.
#[local] Open Scope Z_scope.

(** ** Loggers ([logx]) *)
Definition Level_Trace : Z := -8.
Record log_entry := MkLogEntry { severity : Z; message : gostring; keyvals : list (gostring * gostring) }.
#[export] Instance log_entry_eq_dec : EqDecision log_entry.
Proof. solve_decision. Defined.

Definition newline : Z := 10.
Definition HasSuffix (s suffix : gostring) : bool :=
  (zlen suffix <=? zlen s) && bool_decide (drop (length s - length suffix) s = suffix).
Definition TrimSuffix (s suffix : gostring) : go gostring :=
  if HasSuffix s suffix then slice_to s (zlen s - zlen suffix) else Ret s.

Section run.
Context {E : Type} (round : Z -> Z) (maxAlloc : Z).
(** [inner level severity msg keyvals]: a call of a method of [charmlog.Logger] at [level]. *)
Context (DebugLevel : Z) (inner : Z -> Z -> gostring -> list (gostring * gostring) -> list log_entry -> list log_entry).
Context (QuoteCommand : list gostring -> gostring).
(** [exec argv dir env]: what the process writes ([true] is stdout), and its error. *)
Context (exec_ : list gostring -> option gostring -> list gostring -> list (bool * gostring) * option E).

Record consoleLogger := MkConsoleLogger { GetLevel : Z }.
Definition Debug_ (lg : consoleLogger) (msg : gostring) (kv : list (gostring * gostring)) (l : list log_entry) : list log_entry :=
  inner (GetLevel lg) DebugLevel msg kv l.
Definition Trace (lg : consoleLogger) (msg : gostring) (kv : list (gostring * gostring)) (l : list log_entry) : list log_entry :=
  if GetLevel lg <=? Level_Trace then inner (GetLevel lg) DebugLevel msg kv l else l.

(** The logger and the key-values are what [logLine] captures. *)
Record lineLogger := MkLineLogger { ll_logger : consoleLogger; ll_kv : list (gostring * gostring); buf : Buffer }.
Definition newLineLogger (lg : consoleLogger) (kv : list (gostring * gostring)) : lineLogger := MkLineLogger lg kv zero_Buffer.
Definition logLine (ll : lineLogger) (msg : gostring) (l : list log_entry) : list log_entry := Trace (ll_logger ll) msg (ll_kv ll) l.
Definition with_buf (ll : lineLogger) (b : Buffer) : lineLogger := MkLineLogger (ll_logger ll) (ll_kv ll) b.

(** The line is read after the newline was consumed, through the slice taken before. *)
Fixpoint line_loop (fuel : nat) (ll : lineLogger) (l : list log_entry) : go (lineLogger * list log_entry) :=
  match fuel with
  | O => OutOfFuel
  | S fuel =>
      s ← Bytes (buf ll); bytes ← view (buf ll) s;
      let idx := IndexByte bytes newline in
      if idx <? 0 then Ret (ll, l)
      else
        '(b, line) ← Next (buf ll) idx;
        '(b, _) ← Next b 1;
        text ← view b line;
        text ← TrimSuffix text [13];
        line_loop fuel (with_buf ll b) (logLine ll text l)
  end.
Definition lineLogger_Write (ll : lineLogger) (p : gostring) (l : list log_entry) : go (lineLogger * list log_entry * Z) :=
  '(b, _) ← Write round maxAlloc (buf ll) p;
  '(ll, l) ← line_loop (S (Z.to_nat (Len b))) (with_buf ll b) l;
  Ret (ll, l, zlen p).
Definition Flush (ll : lineLogger) (l : list log_entry) : go (lineLogger * list log_entry) :=
  if Len (buf ll) =? 0 then Ret (ll, l)
  else
    s ← Bytes (buf ll); bytes ← view (buf ll) s;
    text ← TrimSuffix bytes [13];
    Ret (with_buf ll (Reset (buf ll)), logLine ll text l).

Inductive writer := Discard | ToLines (ll : lineLogger).
Definition writer_Write (w : writer) (p : gostring) (l : list log_entry) : go (writer * list log_entry * Z) :=
  match w with
  | Discard => Ret (Discard, l, zlen p)
  | ToLines ll => '(ll, l, n) ← lineLogger_Write ll p l; Ret (ToLines ll, l, n)
  end.
Definition FlushLogWriter (w : writer) (l : list log_entry) : go (list log_entry) :=
  match w with Discard => Ret l | ToLines ll => '(_, l) ← Flush ll l; Ret l end.

Definition stream_kv (command stream : gostring) : list (gostring * gostring) := [(str "cmd", command); (str "stream", stream)].
Definition CmdLoggers (lg : consoleLogger) (command : gostring) : writer * writer :=
  if Level_Trace <? GetLevel lg then (Discard, Discard)
  else (ToLines (newLineLogger lg (stream_kv command (str "stdout"))), ToLines (newLineLogger lg (stream_kv command (str "stderr")))).

(** ** The runner ([syscaps.CmdRunner]) *)
Inductive exec_error := Failed (e : E) | ErrShortWrite.
Inductive run_error := Wrapped (cmd : Cmd) (e : exec_error).

(** The writer of one stream of the process: the logger, or [io.MultiWriter] of it and the buffer that
    captures the stream; and the error that ended the copying of the stream, if one did. *)
Record output := MkOutput { o_log : writer; o_capture : option Buffer; o_failed : option exec_error }.
Definition output_Write (o : output) (p : gostring) (l : list log_entry) : go (output * list log_entry) :=
  '(w, l, n) ← writer_Write (o_log o) p l;
  let short n := if n =? zlen p then None else Some ErrShortWrite in
  match o_capture o with
  | None => Ret (MkOutput w None (short n), l)
  | Some b =>
      if negb (n =? zlen p) then Ret (MkOutput w (Some b) (short n), l)
      else '(b, n) ← Write round maxAlloc b p; Ret (MkOutput w (Some b) (short n), l)
  end.
Definition copy_chunk (o : output) (p : gostring) (l : list log_entry) : go (output * list log_entry) :=
  match o_failed o with Some _ => Ret (o, l) | None => output_Write o p l end.
Fixpoint deliver (chunks : list (bool * gostring)) (out err : output) (l : list log_entry) : go (output * output * list log_entry) :=
  match chunks with
  | [] => Ret (out, err, l)
  | (stdout, p) :: chunks =>
      if (stdout : bool) then '(out, l) ← copy_chunk out p l; deliver chunks out err l
      else '(err, l) ← copy_chunk err p l; deliver chunks out err l
  end.

Definition captured (o : option Buffer) : go gostring := match o with Some b => BytesBuffer.String_ b | None => BytesBuffer.String_ zero_Buffer end.
Definition CmdRunner_Run (env : Env.Env) (lg : consoleLogger) (cmd : Cmd) (options : RunOptions) (l : list log_entry)
  : go (list log_entry * (RunOutput * option run_error)) :=
  let command := QuoteCommand (Argv cmd) in
  let l := match Cmd_Dir cmd with
           | Some dir => Debug_ lg (str "running command") [(str "cmd", command); (str "dir", AbsPath_String dir)] l
           | None => Debug_ lg (str "running command") [(str "cmd", command)] l
           end in
  let '(stdout, stderr) := CmdLoggers lg command in
  env ← (match TransformEnv options with Some f => env ← f env; Env.Entries env | None => Env.Entries env end);
  let out := MkOutput stdout (if CaptureStdout options then Some zero_Buffer else None) None in
  let err := MkOutput stderr (if CaptureStderr options then Some zero_Buffer else None) None in
  let '(chunks, exit) := exec_ (Argv cmd) (AbsPath_String <$> Cmd_Dir cmd) env in
  '(out, err, l) ← deliver chunks out err l;
  so ← captured (o_capture out);
  se ← captured (o_capture err);
  let result := match exit with
                | Some e => Some (Wrapped cmd (Failed e))
                | None => Wrapped cmd <$> union (o_failed out) (o_failed err)
                end in
  l ← FlushLogWriter (o_log err) l;
  l ← FlushLogWriter (o_log out) l;
  Ret (l, (MkRunOutput so se, result)).
End run.

(** A logger that keeps the entries its level enables. *)
Definition list_logger (level sev : Z) (msg : gostring) (kv : list (gostring * gostring)) (l : list log_entry) : list log_entry :=
  if level <=? sev then l ++ [MkLogEntry sev msg kv] else l.
Example line_samples :
  let ll := newLineLogger (MkConsoleLogger (-8)) [] in
  ('(ll, l, _) ← lineLogger_Write (fun c => c) (2 ^ 40) (-4) list_logger ll (str "ab") [];
   '(ll, l, _) ← lineLogger_Write (fun c => c) (2 ^ 40) (-4) list_logger ll (str "c" ++ [13; 10] ++ str "d" ++ [10; 10] ++ str "e" ++ [13]) l;
   '(_, l) ← Flush (-4) list_logger ll l; Ret (List.map message l)) = Ret [str "abc"; str "d"; []; str "e"].
Proof. vm_compute. reflexivity. Qed.

(** ** Lines *)

(** The lines of a text and what follows the last newline. *)
Fixpoint lines_of (s : gostring) : list gostring * gostring :=
  match s with
  | [] => ([], [])
  | c :: s =>
      let '(ls, r) := lines_of s in
      if c =? newline then ([] :: ls, r) else match ls with [] => ([], c :: r) | m :: ls => ((c :: m) :: ls, r) end
  end.
Definition trim_cr (s : gostring) : gostring := if decide (list.last s = Some 13) then take (length s - 1) s else s.
(** The lines of a stream, with an unfinished last one. *)
Definition unfinished (s : gostring) : list gostring := if bool_decide ((lines_of s).2 = []) then [] else [(lines_of s).2].
Definition all_lines (s : gostring) : list gostring := (lines_of s).1 ++ unfinished s.

Lemma lines_of_app s t : lines_of (s ++ t) = (let '(ls, r) := lines_of s in let '(ls', r') := lines_of (r ++ t) in (ls ++ ls', r')).
Proof.
  induction s as [|c s IH]; cbn [lines_of app]; [by destruct (lines_of t)|]. rewrite IH. destruct (lines_of s) as [ls r]. destruct (lines_of (r ++ t)) as [ls' r'] eqn:E.
  destruct (c =? newline) eqn:Hc; [by rewrite E|]. destruct ls as [|m ls]; cbn [app lines_of]; rewrite E, ?Hc; [by destruct ls'|done].
Qed.

Lemma lines_of_index u : match lines_of u with
  | ([], r) => list_find (eq newline) u = None /\ r = u
  | (m :: ls, r) => list_find (eq newline) u = Some (length m, newline) /\ exists u', u = m ++ newline :: u' /\ lines_of u' = (ls, r)
  end.
Proof.
  induction u as [|c u IH]; cbn [lines_of list_find]; [done|]. destruct (lines_of u) as [ls r] eqn:E. destruct (Z.eqb_spec c newline) as [->|Hc].
  - rewrite decide_True by done. split; [done|]. by exists u.
  - rewrite decide_False by done. destruct ls as [|m ls]; [destruct IH as [-> ->]; done|]. destruct IH as (-> & u' & -> & Hu). split; [done|]. by exists u'.
Qed.

(** The lines have no newline, and with newlines after them and the rest they are the text. *)
Lemma lines_of_spec s : let '(ls, r) := lines_of s in s = concat (List.map (fun m => m ++ [newline]) ls) ++ r /\ Forall (fun m => newline ∉ m) (r :: ls).
Proof.
  induction s as [|c s IH]; cbn [lines_of]; [split; [done|]; repeat constructor; set_solver|]. destruct (lines_of s) as [ls r]. destruct IH as [-> Hf].
  destruct (Z.eqb_spec c newline) as [->|Hc].
  - split; [done|]. inversion_clear Hf. repeat constructor; try done. set_solver.
  - destruct ls as [|m ls]; (split; [done|]); inversion_clear Hf as [|? ? Hr Hls]; [repeat constructor; set_solver|]. inversion_clear Hls. repeat constructor; try done. set_solver.
Qed.

Lemma TrimSuffix_cr s : TrimSuffix s [13] = Ret (trim_cr s).
Proof.
  unfold TrimSuffix, HasSuffix, trim_cr. change (zlen [13]) with 1. change (length [13]) with 1%nat. destruct s as [|c s _] using rev_ind; [done|]. rewrite last_snoc, zlen_app, length_app. change (zlen [c]) with 1. cbn [length].
  pose proof (zlen_nonneg s). rewrite (proj2 (Z.leb_le _ _)) by lia. replace (length s + 1 - 1)%nat with (length s) by lia. rewrite drop_app_length, take_app_length. cbn [andb].
  destruct (decide (c = 13)) as [->|Hc].
  - rewrite bool_decide_true, decide_True by done. replace (zlen s + 1 - 1) with (zlen s) by lia. unfold slice_to. apply (slice_app_mid [] s [13]).
  - rewrite bool_decide_false, decide_False by congruence. done.
Qed.

Section run_laws.
Context {E : Type} (round : Z -> Z) (maxAlloc : Z) (Hround : forall c, 0 <= c -> c <= round c) (Hmax : maxAlloc <= 2 ^ 62).
Context (DebugLevel : Z) (inner : Z -> Z -> gostring -> list (gostring * gostring) -> list log_entry -> list log_entry).

Definition log_lines (ll : lineLogger) (ms : list gostring) (l : list log_entry) : list log_entry := fold_left (fun l m => logLine DebugLevel inner ll m l) ms l.
Lemma log_lines_with_buf ll b ms l : log_lines (with_buf ll b) ms l = log_lines ll ms l.
Proof. done. Qed.
Lemma log_lines_app ll ms ms' l : log_lines ll (ms ++ ms') l = log_lines ll ms' (log_lines ll ms l).
Proof. apply fold_left_app. Qed.

Lemma Next_exact b q n data rest : rep b q -> unread q = data ++ rest -> n = zlen data ->
  Next b n = Ret (set_last (set_off b (off b + n)) (if 0 <? n then opRead else opInvalid), (off b, off b + n)).
Proof.
  intros H Hu ->. unfold Next. destruct (rep_sub b q (off b) (off b + zlen data) data rest H Hu eq_refl eq_refl) as [Hs _].
  assert ((if Len (set_last b opInvalid) <? zlen data then Len (set_last b opInvalid) else zlen data) = zlen data) as ->.
  { destruct H as (Ho & Hl & _). rewrite Hu, zlen_app in Hl. pose proof (zlen_nonneg rest). unfold Len. cbn. destruct (Z.ltb_spec (blen b - off b) (zlen data)); lia. }
  change (off (set_last b opInvalid)) with (off b). rewrite (Hs : subslice (set_last b opInvalid) _ _ = _), bind_ret. by destruct (0 <? zlen data).
Qed.

Lemma rep_next b q data rest l : rep b q -> unread q = data ++ rest -> rep (set_last (set_off b (off b + zlen data)) l) (MkQueue (past q ++ data) rest l).
Proof.
  intros H Hu. pose proof (rep_took b q data l H) as Ht. unfold took in Ht. rewrite Hu, take_app_length, drop_app_length in Ht. by apply Ht.
Qed.

(** The lines in the buffer are logged, and what follows the last newline stays. *)
Lemma line_loop_spec fuel ll l q : rep (buf ll) q -> (length (lines_of (unread q)).1 < fuel)%nat ->
  exists b' past' ls, line_loop DebugLevel inner fuel ll l = Ret (with_buf ll b', log_lines ll (List.map trim_cr (lines_of (unread q)).1) l) /\
    rep b' (MkQueue past' (lines_of (unread q)).2 ls) /\ zlen past' + zlen (lines_of (unread q)).2 <= held q.
Proof.
  revert ll l q. induction fuel as [|fuel IH]; intros ll l q H Hf; [lia|]. cbn [line_loop]. destruct (rep_unread _ _ H) as [Hs Hv]. unfold Bytes. rewrite Hs, bind_ret, Hv, bind_ret.
  unfold IndexByte. pose proof (lines_of_index (unread q)) as Hidx. destruct (lines_of (unread q)) as [[|m ls] r] eqn:El; cbn [fst snd] in *.
  - destruct Hidx as [-> ->]. cbn [Z.ltb Z.compare]. exists (buf ll), (past q), (last q). split; [by destruct ll|]. split; [by destruct q|done].
  - destruct Hidx as (-> & u' & Hu & Hls). rewrite (proj2 (Z.ltb_ge _ 0)) by lia.
    pose proof (Next_exact (buf ll) q (zlen m) m _ H Hu eq_refl) as En. unfold zlen at 1 in En. rewrite En, bind_ret. clear En.
    pose proof (rep_next _ _ _ _ (if 0 <? zlen m then opRead else opInvalid) H Hu) as H1. destruct (rep_sub _ _ (off (buf ll)) (off (buf ll) + zlen m) m _ H Hu eq_refl eq_refl) as [_ Hview].
    pose proof (Next_exact _ _ 1 [newline] u' H1 eq_refl eq_refl) as En2. cbn [unread] in En2. unfold zlen in En2 at 1. fold (zlen m) in En2. rewrite En2, bind_ret. clear En2.
    pose proof (rep_next _ _ [newline] u' opRead H1 eq_refl) as H2. change (zlen [newline]) with 1 in H2.
    match goal with |- context [view ?b (off (buf ll), _)] => set (b2 := b) end. rewrite (Hview _ _ : view b2 (off (buf ll), off (buf ll) + zlen m) = Ret m), bind_ret, TrimSuffix_cr, bind_ret.
    assert (rep (buf (with_buf ll b2)) (MkQueue ((past q ++ m) ++ [newline]) u' opRead)) as Hrep by exact H2.
    destruct (IH _ (logLine DebugLevel inner ll (trim_cr m) l) _ Hrep) as (b3 & past' & ls3 & E3 & Hr3 & Hb3); [cbn [unread]; rewrite Hls; cbn in *; lia|].
    cbn [unread] in *. rewrite Hls in *. cbn [fst snd] in *. exists b3, past', ls3. split; [exact E3|]. split; [done|].
    etrans; [exact Hb3|]. unfold held. cbn [past unread]. rewrite Hu, !zlen_app, !zlen_cons, zlen_nil. lia.
Qed.

Lemma lines_of_length u : (length (lines_of u).1 <= length u)%nat.
Proof. induction u as [|c u IH]; cbn [lines_of]; [done|]. destruct (lines_of u) as [[|m ls] r]; destruct (c =? newline); cbn in *; lia. Qed.

Lemma lineLogger_Write_spec ll p l q : rep (buf ll) q -> is_gostring p -> 4 * (held q + zlen p) + 4 <= maxAlloc ->
  exists b' q', lineLogger_Write round maxAlloc DebugLevel inner ll p l = Ret (with_buf ll b', log_lines ll (List.map trim_cr (lines_of (unread q ++ p)).1) l, zlen p) /\
    rep b' q' /\ unread q' = (lines_of (unread q ++ p)).2 /\ held q' <= held q + zlen p.
Proof.
  intros H Hp Hb. unfold held in Hb. destruct (append_spec round maxAlloc Hround Hmax (buf ll) q p H Hp ltac:(lia)) as (b1 & past1 & Ew & Hf & Hr). unfold lineLogger_Write, Write. rewrite Ew, bind_ret. clear Ew.
  assert (Len b1 = zlen (unread q ++ p)) as -> by (destruct Hr as (Ho & Hl & _); unfold Len; cbn [past unread] in *; lia).
  assert (S (Z.to_nat (zlen (unread q ++ p))) = S (length (unread q ++ p))) as -> by (unfold zlen; lia).
  destruct (line_loop_spec (S (length (unread q ++ p))) (with_buf ll b1) l (MkQueue past1 (unread q ++ p) opInvalid)) as (b2 & past2 & ls & El & Hr2 & Hh); [exact Hr|cbn [unread]; pose proof (lines_of_length (unread q ++ p)); lia|].
  rewrite El, bind_ret. cbn [unread] in *. eexists b2, _. split; [done|]. split; [exact Hr2|]. split; [done|]. unfold held in *. cbn [past unread] in *. apply forgets_held in Hf. rewrite zlen_app in Hh. lia.
Qed.

Lemma Flush_spec ll l q : rep (buf ll) q -> exists b', Flush DebugLevel inner ll l =
  Ret (with_buf ll b', log_lines ll (List.map trim_cr (if bool_decide (unread q = []) then [] else [unread q])) l).
Proof.
  intros H. unfold Flush. assert (Len (buf ll) = zlen (unread q)) as -> by (destruct H as (Ho & Hl & _); unfold Len; lia).
  case_bool_decide as He; [rewrite He; exists (buf ll); by destruct ll|]. destruct (Z.eqb_spec (zlen (unread q)) 0) as [Hz|_]; [by apply zlen_0 in Hz|].
  destruct (rep_unread _ _ H) as [Hs Hv]. unfold Bytes. rewrite Hs, bind_ret, Hv, bind_ret, TrimSuffix_cr, bind_ret. by eexists.
Qed.

(** ** Streams *)

(** A logger appends the entries its level enables. *)
Context (Hinner : forall level sev m kv l, inner level sev m kv l = l ++ if level <=? sev then [MkLogEntry sev m kv] else []).
Context (HDebug : Level_Trace <= DebugLevel).
Context (lg : consoleLogger).
Definition entries (ms : list gostring) (kv : list (gostring * gostring)) : list log_entry := List.map (fun m => MkLogEntry DebugLevel m kv) ms.

Lemma log_lines_entries ll ms l : ll_logger ll = lg -> GetLevel lg <= Level_Trace -> log_lines ll ms l = l ++ entries ms (ll_kv ll).
Proof.
  intros Hll Hlg. revert l. unfold log_lines. induction ms as [|m ms IH]; intros l; cbn [fold_left entries List.map]; [by rewrite app_nil_r|].
  rewrite IH. unfold logLine, Trace. rewrite Hll, (proj2 (Z.leb_le _ _)), Hinner, (proj2 (Z.leb_le _ _)) by lia. by rewrite <- app_assoc.
Qed.

(** The state of an output that received [s]. *)
Definition log_rep (w : writer) (kv : list (gostring * gostring)) (s : gostring) : Prop :=
  match w with
  | Discard => Level_Trace < GetLevel lg
  | ToLines ll => GetLevel lg <= Level_Trace /\ ll_logger ll = lg /\ ll_kv ll = kv /\ exists q, rep (buf ll) q /\ unread q = (lines_of s).2 /\ held q <= zlen s
  end.
Definition capture_rep (c : option Buffer) (capture : bool) (s : gostring) : Prop :=
  match c with Some b => capture = true /\ exists q, rep b q /\ unread q = s /\ held q <= zlen s | None => capture = false end.
Definition out_rep (o : output (E := E)) (kv : list (gostring * gostring)) (capture : bool) (s : gostring) : Prop :=
  log_rep (o_log o) kv s /\ capture_rep (o_capture o) capture s /\ o_failed o = None.

(** What is logged, of the lines that a text completes. *)
Definition traced (ms : list gostring) (kv : list (gostring * gostring)) : list log_entry := if GetLevel lg <=? Level_Trace then entries (List.map trim_cr ms) kv else [].
Lemma traced_app ms ms' kv : traced (ms ++ ms') kv = traced ms kv ++ traced ms' kv.
Proof. unfold traced, entries. destruct (_ <=? _); [|done]. by rewrite !map_app. Qed.

Lemma writer_Write_spec w kv s p l : log_rep w kv s -> is_gostring p -> 4 * (zlen s + zlen p) + 4 <= maxAlloc ->
  exists w' added, writer_Write round maxAlloc DebugLevel inner w p l = Ret (w', l ++ traced added kv, zlen p) /\ log_rep w' kv (s ++ p) /\ (lines_of (s ++ p)).1 = (lines_of s).1 ++ added.
Proof.
  intros Hw Hp Hb. pose proof (lines_of_app s p) as Hl. destruct (lines_of s) as [ls r] eqn:Es. destruct (lines_of (r ++ p)) as [added r'] eqn:Ea. destruct w as [|ll]; cbn [log_rep writer_Write] in *.
  - exists Discard, added. unfold traced. rewrite (proj2 (Z.leb_gt _ _)), app_nil_r, Hl by done. done.
  - destruct Hw as (Hlev & Hll & Hkv & q & Hr & Hu & Hh). rewrite Es in Hu. cbn [snd] in Hu. destruct (lineLogger_Write_spec ll p l q Hr Hp) as (b' & q' & Ew & Hr' & Hu' & Hh'); [lia|].
    rewrite Ew, bind_ret. rewrite Hu, Ea in *. cbn [fst snd] in *. rewrite log_lines_entries, Hkv by done. exists (ToLines (with_buf ll b')), added. unfold traced. rewrite (proj2 (Z.leb_le _ _)), Hl by done.
    split; [done|]. split; [|done]. split_and!; [done..|]. exists q'. split_and!; [done|by rewrite Hl|rewrite zlen_app; lia].
Qed.

Lemma copy_chunk_spec o kv cap_ s p l : out_rep o kv cap_ s -> is_gostring p -> 4 * (zlen s + zlen p) + 4 <= maxAlloc ->
  exists o' added, copy_chunk round maxAlloc DebugLevel inner o p l = Ret (o', l ++ traced added kv) /\ out_rep o' kv cap_ (s ++ p) /\ (lines_of (s ++ p)).1 = (lines_of s).1 ++ added.
Proof.
  intros (Hw & Hc & Hf) Hp Hb. unfold copy_chunk, output_Write. rewrite Hf. destruct (writer_Write_spec _ kv s p l Hw Hp Hb) as (w' & added & Ew & Hw' & Hl). rewrite Ew, bind_ret. clear Ew.
  destruct (o_capture o) as [b|]; cbn [capture_rep] in Hc; rewrite Z.eqb_refl; cbn [negb].
  - destruct Hc as (Hcap & q & Hr & Hu & Hh). unfold held in Hh. destruct (append_spec round maxAlloc Hround Hmax b q p Hr Hp) as (b1 & past1 & Ea & Hfg & Hr1); [lia|]. unfold Write. rewrite Ea, bind_ret, Z.eqb_refl.
    eexists _, added. split; [done|]. split; [|done]. split_and!; [done| |done]. split; [done|]. eexists. split; [exact Hr1|]. split; [cbn [unread]; by rewrite Hu|].
    apply forgets_held in Hfg. unfold held. cbn [past unread]. rewrite Hu, !zlen_app. rewrite Hu in Hh. lia.
  - eexists _, added. split; [done|]. split; [|done]. by split_and!.
Qed.

Lemma FlushLogWriter_spec w kv s l : log_rep w kv s -> FlushLogWriter DebugLevel inner w l = Ret (l ++ traced (unfinished s) kv).
Proof.
  destruct w as [|ll]; cbn [log_rep FlushLogWriter]; [intros Hlev; unfold traced; by rewrite (proj2 (Z.leb_gt _ _)), app_nil_r by done|].
  intros (Hlev & Hll & Hkv & q & Hr & Hu & _). destruct (Flush_spec ll l q Hr) as [b' ->]. rewrite bind_ret, log_lines_entries, Hkv, Hu by done. unfold traced. by rewrite (proj2 (Z.leb_le _ _)) by done.
Qed.

(** One list is an interleaving of two others. *)
Inductive interleaves {A} : list A -> list A -> list A -> Prop :=
  | int_nil : interleaves [] [] []
  | int_l x a b c : interleaves a b c -> interleaves (x :: a) b (x :: c)
  | int_r x a b c : interleaves a b c -> interleaves a (x :: b) (x :: c).
Lemma interleaves_app {A} (a b c a' b' c' : list A) : interleaves a b c -> interleaves a' b' c' -> interleaves (a ++ a') (b ++ b') (c ++ c').
Proof. induction 1; intros; [done|by constructor; auto..]. Qed.
Lemma interleaves_l {A} (a : list A) : interleaves a [] a.
Proof. induction a; by constructor. Qed.
Lemma interleaves_r {A} (b : list A) : interleaves [] b b.
Proof. induction b; by constructor. Qed.

(** What a stream receives. *)
Definition received (stdout : bool) (chunks : list (bool * gostring)) : gostring := concat (List.map snd (List.filter (fun c => Bool.eqb c.1 stdout) chunks)).
Definition total (chunks : list (bool * gostring)) : Z := zlen (concat (List.map snd chunks)).

Lemma deliver_spec chunks out err kvo kve co ce so se l : out_rep out kvo co so -> out_rep err kve ce se -> Forall (fun c => is_gostring c.2) chunks ->
  4 * (zlen so + zlen se + total chunks) + 4 <= maxAlloc ->
  exists out' err' ao ae new, deliver round maxAlloc DebugLevel inner chunks out err l = Ret (out', err', l ++ new) /\
    out_rep out' kvo co (so ++ received true chunks) /\ out_rep err' kve ce (se ++ received false chunks) /\ interleaves (traced ao kvo) (traced ae kve) new /\
    (lines_of (so ++ received true chunks)).1 = (lines_of so).1 ++ ao /\ (lines_of (se ++ received false chunks)).1 = (lines_of se).1 ++ ae.
Proof.
  intros Ho He Hc. revert out err so se l Ho He. induction Hc as [|[stdout p] chunks Hp Hc IH]; intros out err so se l Ho He Hb; cbn [deliver].
  - exists out, err, [], [], []. unfold received, traced. cbn. rewrite !app_nil_r. split_and!; try done. destruct (_ <=? _); constructor.
  - unfold total in Hb. cbn [List.map snd concat] in *. rewrite zlen_app in Hb. fold (total chunks) in Hb. assert (0 <= total chunks) by apply zlen_nonneg. pose proof (zlen_nonneg so). pose proof (zlen_nonneg se). destruct stdout.
    + destruct (copy_chunk_spec out kvo co so p l Ho Hp) as (out1 & a1 & Ec & Ho1 & Hl1); [lia|]. rewrite Ec, bind_ret.
      destruct (IH out1 err (so ++ p) se (l ++ traced a1 kvo) Ho1 He) as (out' & err' & ao & ae & new & Ed & Ho' & He' & Hi & Hlo & Hle); [rewrite zlen_app; lia|].
      exists out', err', (a1 ++ ao), ae, (traced a1 kvo ++ new). rewrite Ed, traced_app, <- app_assoc. unfold received in *. cbn [List.filter Bool.eqb fst List.map snd concat] in *.
      rewrite <- !app_assoc in *. split_and!; try done; [by apply (interleaves_app _ [] _ _ _ _ (interleaves_l _))|]. rewrite Hlo, Hl1. by rewrite app_assoc.
    + destruct (copy_chunk_spec err kve ce se p l He Hp) as (err1 & a1 & Ec & He1 & Hl1); [lia|]. rewrite Ec, bind_ret.
      destruct (IH out err1 so (se ++ p) (l ++ traced a1 kve) Ho He1) as (out' & err' & ao & ae & new & Ed & Ho' & He' & Hi & Hlo & Hle); [rewrite zlen_app; lia|].
      exists out', err', ao, (a1 ++ ae), (traced a1 kve ++ new). rewrite Ed, traced_app, <- app_assoc. unfold received in *. cbn [List.filter Bool.eqb fst List.map snd concat] in *.
      rewrite <- !app_assoc in *. split_and!; try done; [by apply (interleaves_app [] _ _ _ _ _ (interleaves_r _))|]. rewrite Hle, Hl1. by rewrite app_assoc.
Qed.

Lemma captured_spec c capture s : capture_rep c capture s -> captured c = Ret (if capture then s else []).
Proof.
  destruct c as [b|]; cbn [capture_rep captured]; [|intros ->; done]. intros (-> & q & Hr & <- & _). unfold String_. destruct (rep_unread _ _ Hr) as [Hs Hv]. by rewrite Hs, bind_ret, Hv.
Qed.
Lemma out_rep_start cmd stdout capture : out_rep (MkOutput (if stdout : bool then (CmdLoggers lg cmd).1 else (CmdLoggers lg cmd).2) (if capture : bool then Some zero_Buffer else None) None)
  (stream_kv cmd (str (if stdout then "stdout" else "stderr"))) capture [].
Proof.
  split_and!; [| |done].
  - unfold CmdLoggers. cbn [o_log]. destruct (Z.ltb_spec Level_Trace (GetLevel lg)); destruct stdout; cbn [fst snd log_rep]; try done; (split_and!; [done..|]; exists empty_queue; split_and!; [apply rep_zero|done|done]).
  - cbn [o_capture]. destruct capture; cbn [capture_rep]; [|done]. split; [done|]. exists empty_queue. split_and!; [apply rep_zero|done|done].
Qed.

Lemma CmdRunner_Run_spec (QuoteCommand : list gostring -> gostring) (exec_ : list gostring -> option gostring -> list gostring -> list (bool * gostring) * option E) env cmd options l es chunks exit :
  (match TransformEnv options with Some f => env ← f env; Env.Entries env | None => Env.Entries env end) = Ret es ->
  exec_ (Argv cmd) (AbsPath_String <$> Cmd_Dir cmd) es = (chunks, exit) -> Forall (fun c => is_gostring c.2) chunks -> 4 * total chunks + 4 <= maxAlloc ->
  let kv stdout := stream_kv (QuoteCommand (Argv cmd)) (str (if stdout : bool then "stdout" else "stderr")) in
  exists new, CmdRunner_Run round maxAlloc DebugLevel inner QuoteCommand exec_ env lg cmd options l =
    Ret (Debug_ DebugLevel inner lg (str "running command") ((str "cmd", QuoteCommand (Argv cmd)) :: match Cmd_Dir cmd with Some dir => [(str "dir", AbsPath_String dir)] | None => [] end) l ++ new,
         (MkRunOutput (if CaptureStdout options then received true chunks else []) (if CaptureStderr options then received false chunks else []), (fun e => Wrapped cmd (Failed e)) <$> exit)) /\
    interleaves (traced (all_lines (received true chunks)) (kv true)) (traced (all_lines (received false chunks)) (kv false)) new.
Proof.
  intros Henv Hexec Hc Hb kv. unfold CmdRunner_Run. cbv zeta.
  set (l1 := match Cmd_Dir cmd with Some dir => _ | None => _ end). pose proof (out_rep_start (QuoteCommand (Argv cmd)) true (CaptureStdout options)) as Ho. pose proof (out_rep_start (QuoteCommand (Argv cmd)) false (CaptureStderr options)) as He.
  cbn match in Ho, He. destruct (CmdLoggers lg (QuoteCommand (Argv cmd))) as [wo we]. cbn [fst snd] in *. rewrite Henv, bind_ret, Hexec.
  destruct (deliver_spec chunks _ _ _ _ _ _ [] [] l1 Ho He Hc) as (out & err & ao & ae & new & -> & (Hlo & Hco & Hfo) & (Hle & Hce & Hfe) & Hi & Ho' & He'); [change (zlen (@nil Z)) with 0; lia|]. cbn [app lines_of fst] in *.
  rewrite bind_ret, (captured_spec _ _ _ Hco), bind_ret, (captured_spec _ _ _ Hce), bind_ret, Hfo, Hfe, (FlushLogWriter_spec _ _ _ _ Hle), bind_ret, (FlushLogWriter_spec _ _ _ _ Hlo), bind_ret.
  exists (new ++ traced (unfinished (received false chunks)) (kv false) ++ traced (unfinished (received true chunks)) (kv true)). split.
  - rewrite <- !app_assoc. unfold l1. by destruct (Cmd_Dir cmd), exit.
  - unfold all_lines. rewrite !traced_app, Ho', He'. apply interleaves_app; [done|].
    pose proof (interleaves_app _ _ _ _ _ _ (interleaves_r (traced (unfinished (received false chunks)) (kv false))) (interleaves_l (traced (unfinished (received true chunks)) (kv true)))) as Hu. by rewrite app_nil_r in Hu.
Qed.
End run_laws.

(** C16: whatever chunks the output of a process is read in, and however those of
    its two streams alternate, [Run] gives the process its arguments, directory
    and transformed environment, returns exactly the bytes of the streams whose
    capture was asked for, even when the process fails, and fails exactly when
    it does.  With tracing enabled the log gets, after the command, the lines of
    each stream in order, an unfinished last one included, without their line
    ends and as an interleaving of the two; otherwise nothing. *)
Theorem cmd_runner_spec {E : Type} (round : Z -> Z) (maxAlloc : Z) (Hround : forall c, 0 <= c -> c <= round c) (Hmax : maxAlloc <= 2 ^ 62)
  (DebugLevel : Z) (HDebug : Level_Trace <= DebugLevel)
  (inner : Z -> Z -> gostring -> list (gostring * gostring) -> list log_entry -> list log_entry)
  (Hinner : forall level sev m kv l, inner level sev m kv l = l ++ if level <=? sev then [MkLogEntry sev m kv] else [])
  (lg : consoleLogger) (QuoteCommand : list gostring -> gostring)
  (exec_ : list gostring -> option gostring -> list gostring -> list (bool * gostring) * option E)
  (env : Env.Env) (cmd : Cmd) (options : RunOptions) (l : list log_entry) (es : list gostring) (chunks : list (bool * gostring)) (exit : option E)
  (Henv : match TransformEnv options with Some f => env ← f env; Env.Entries env | None => Env.Entries env end = Ret es)
  (Hexec : exec_ (Argv cmd) (AbsPath_String <$> Cmd_Dir cmd) es = (chunks, exit))
  (Hchunks : Forall (fun c => is_gostring c.2) chunks) (Hsize : 4 * total chunks + 4 <= maxAlloc) :
  let command := QuoteCommand (Argv cmd) in
  exists new, CmdRunner_Run round maxAlloc DebugLevel inner QuoteCommand exec_ env lg cmd options l =
    Ret (l ++ (if GetLevel lg <=? DebugLevel
               then [MkLogEntry DebugLevel (str "running command") ((str "cmd", command) :: match Cmd_Dir cmd with Some dir => [(str "dir", AbsPath_String dir)] | None => [] end)]
               else []) ++ new,
         (MkRunOutput (if CaptureStdout options then received true chunks else []) (if CaptureStderr options then received false chunks else []),
          (fun e => Wrapped cmd (Failed e)) <$> exit)) /\
    if GetLevel lg <=? Level_Trace then
      interleaves (List.map (fun m => MkLogEntry DebugLevel m (stream_kv command (str "stdout"))) (List.map trim_cr (all_lines (received true chunks))))
        (List.map (fun m => MkLogEntry DebugLevel m (stream_kv command (str "stderr"))) (List.map trim_cr (all_lines (received false chunks)))) new
    else new = [].
Proof.
  intros command. destruct (CmdRunner_Run_spec round maxAlloc Hround Hmax DebugLevel inner Hinner HDebug lg QuoteCommand exec_ env cmd options l es chunks exit Henv Hexec Hchunks Hsize) as (new & -> & Hi).
  exists new. unfold Debug_. rewrite Hinner, <- app_assoc. split; [done|]. unfold traced, entries in Hi. destruct (_ <=? _); [exact Hi|]. by inversion Hi.
Qed.
Lemma cmd_runner_spec_witness : exists new,
  CmdRunner_Run (fun c => c) (2 ^ 40) (-4) list_logger (fun argv => concat argv) (fun _ _ _ => ([(true, str "a"); (false, str "x"); (true, str "b" ++ [13; 10])], Some tt))
    (Env.Empty) (MkConsoleLogger (-8)) (MkCmd (str "ls") [] None) (MkRunOptions true false None) [] =
  Ret ([MkLogEntry (-4) (str "running command") [(str "cmd", str "ls")]] ++ new, (MkRunOutput (str "ab" ++ [13; 10]) [], Some (Wrapped (MkCmd (str "ls") [] None) (Failed tt)))) /\
  interleaves [MkLogEntry (-4) (str "ab") (stream_kv (str "ls") (str "stdout"))] [MkLogEntry (-4) (str "x") (stream_kv (str "ls") (str "stderr"))] new.
Proof.
  assert (forall level sev m kv l, list_logger level sev m kv l = l ++ if level <=? sev then [MkLogEntry sev m kv] else []) as Hl.
  { intros level sev m kv l. unfold list_logger. destruct (level <=? sev); [reflexivity|]. rewrite app_nil_r. reflexivity. }
  assert (Forall (fun c : bool * gostring => is_gostring c.2) [(true, str "a"); (false, str "x"); (true, str "b" ++ [13; 10])]) as Hc.
  { repeat constructor; vm_compute; discriminate. }
  apply (cmd_runner_spec (fun c => c) (2 ^ 40) (fun c H => Z.le_refl c) ltac:(lia) (-4) ltac:(vm_compute; discriminate) list_logger Hl (MkConsoleLogger (-8)) (fun argv => concat argv)
    (fun _ _ _ => ([(true, str "a"); (false, str "x"); (true, str "b" ++ [13; 10])], Some tt)) Env.Empty (MkCmd (str "ls") [] None) (MkRunOptions true false None) [] [] _ (Some tt) eq_refl eq_refl Hc ltac:(vm_compute; discriminate)).
Defined.
