(* ===== verification/SyncBranch.v ===== *)
(** * Synchronizing branches ([misc/cmd/kido/sync_branch.go], [update.go])

    The commands run and the changes made to the file system are the events of
    a trace (Cmdx).  Logging is not modelled.  [TrimSpace] and [Fields] are
    those of [strings]; [quote] is the [%q] verb.  A wrapped error keeps its
    message and a joined error the list of its non-nil parts, as [errorx]
    documents. *)
From S2P Require Import Prelude Core Iterx GoFilepath CleanSpec Lexical PathComponents RelSpec PathTypes PathLaws Fsx Config Cmdx.
#[local] Open Scope Z_scope.

Section sync.
Context {E : Type}.

(** ** Errors *)
Inductive serror :=
  | Leaf (e : E)
  | Wrapped (msg : gostring) (e : serror)
  | Newf (msg : gostring)
  | FromConfig (e : config_error)
  | Joined (es : list serror).
Definition Join (errs : list (option serror)) : option serror :=
  match omap id errs with [] => None | es => Some (Joined es) end.

Context (o : oracle (E := E)) (windows : bool) (TrimSpace quote : gostring -> gostring) (Fields : gostring -> list gostring).

(** ** The repository *)
Context (root : AbsPath) (config : WorkspaceConfig).

Definition syncBranchPrefix : gostring := str "merge-bot/sync/".
Definition git (args : list gostring) : list gostring := str "git" :: args.

Record remoteRef := MkRemoteRef { refName : gostring; refSHA : gostring }.

(** [update.go] *)
Fixpoint runUpdate (dir : AbsPath) (localBranch : gostring) (projects : list RelPath) : prog (option serror) :=
  match projects with
  | [] => mret None
  | project :: projects =>
      match UpstreamForProject config localBranch project with
      | inr e => mret (Some (FromConfig e))
      | inl upstream =>
          let upstreamURL := str "https://github.com/" ++ uGitHubRepo upstream ++ str ".git" in
          cmd ← cmd_in (git [str "subtree"; str "pull"; str "--prefix"; RelPath_String project; upstreamURL; uBranch upstream]) dir;
          '(_, err) ← Run o cmd (WithCaptureStdout RunOptionsDefault);
          match err with Some e => mret (Some (Leaf e)) | None => runUpdate dir localBranch projects end
      end
  end.

Definition resetWorktreeToBase (worktreeDir : AbsPath) (base : gostring) : prog (option E) :=
  c1 ← cmd_in (git [str "checkout"; str "--detach"; str "origin/" ++ base]) worktreeDir;
  c2 ← cmd_in (git [str "reset"; str "--hard"; str "origin/" ++ base]) worktreeDir;
  c3 ← cmd_in (git [str "clean"; str "-fd"]) worktreeDir;
  BaseRunnerExecAll o [c1; c2; c3].

Definition deleteLocalBranchIfPresent (worktreeDir : AbsPath) (branch : gostring) : prog (option E) :=
  listCmd ← cmd_in (git [str "branch"; str "--list"; branch]) worktreeDir;
  '(output, err) ← Run o listCmd (WithCaptureStdout RunOptionsDefault);
  match err with
  | Some e => mret (Some e)
  | None =>
      if bool_decide (TrimSpace (Stdout output) = []) then mret None
      else
        deleteCmd ← cmd_in (git [str "branch"; str "-D"; branch]) worktreeDir;
        '(_, err) ← Run o deleteCmd RunOptionsDefault;
        mret err
  end.

Definition parseSingleRemoteRef (wantRef lsRemoteOutput : gostring) : go (option remoteRef + serror) :=
  _ ← Precondition (negb (bool_decide (wantRef = [])));
  let out := TrimSpace lsRemoteOutput in
  if bool_decide (out = []) then Ret (inl None)
  else
    let lines := split_on 10 out in
    if negb (zlen lines =? 1) then
      Ret (inr (Newf (str "expected at most 1 ls-remote line for " ++ quote wantRef ++ str ", got " ++ Timex.Itoa (zlen lines))))
    else
      line ← index lines 0;
      let fields := Fields line in
      if negb (zlen fields =? 2) then
        Ret (inr (Newf (str "expected 2 fields in ls-remote output for " ++ quote wantRef ++ str ", got " ++ Timex.Itoa (zlen fields)
                        ++ str ": " ++ quote line)))
      else
        name ← index fields 1;
        if negb (bool_decide (name = wantRef)) then
          Ret (inr (Newf (str "expected ls-remote ref " ++ quote wantRef ++ str ", got " ++ quote name)))
        else sha ← index fields 0; Ret (inl (Some (MkRemoteRef name sha))).

Definition findRemoteBranchHeadRef (worktreeDir : AbsPath) (branch : gostring) : prog (option remoteRef + serror) :=
  _ ← lift (Precondition (negb (bool_decide (branch = []))));
  let branchRef := str "refs/heads/" ++ branch in
  cmd ← cmd_in (git [str "ls-remote"; str "--heads"; str "origin"; branchRef]) worktreeDir;
  '(output, err) ← Run o cmd (WithCaptureStdout RunOptionsDefault);
  match err with
  | Some e => mret (inr (Leaf e))
  | None => lift (parseSingleRemoteRef branchRef (Stdout output))
  end.

Definition formatLease (branch : gostring) (remoteHead : option remoteRef) : go gostring :=
  _ ← Precondition (negb (bool_decide (branch = [])));
  Ret (match remoteHead with
       | Some r => branch ++ str ":" ++ refSHA r
       | None => branch ++ str ":"
       end).

Definition runSyncBranchProject (project : RelPath) (worktreeDir : RelPath) (baseBranch : gostring) (push : bool) : prog (option serror) :=
  worktreeAbs ← lift (AbsPath_Join windows root worktreeDir);
  let syncBranch := syncBranchPrefix ++ RelPath_String project in
  err ← resetWorktreeToBase worktreeAbs baseBranch;
  match err with
  | Some e => mret (Some (Wrapped (str "reset worktree to base " ++ quote baseBranch) (Leaf e)))
  | None =>
  err ← deleteLocalBranchIfPresent worktreeAbs syncBranch;
  match err with
  | Some e => mret (Some (Wrapped (str "delete local branch " ++ quote syncBranch) (Leaf e)))
  | None =>
  checkoutCmd ← cmd_in (git [str "checkout"; str "-B"; syncBranch]) worktreeAbs;
  '(_, err) ← Run o checkoutCmd RunOptionsDefault;
  match err with
  | Some e => mret (Some (Leaf e))
  | None =>
  err ← runUpdate worktreeAbs baseBranch [project];
  match err with
  | Some e => mret (Some e)
  | None =>
  if negb push then mret None
  else
    remoteHead ← findRemoteBranchHeadRef worktreeAbs syncBranch;
    match remoteHead with
    | inr e => mret (Some (Wrapped (str "find remote head ref for " ++ quote syncBranch) e))
    | inl remoteHead =>
        lease ← lift (formatLease syncBranch remoteHead);
        let forceWithLeaseArg := str "--force-with-lease=" ++ lease in
        pushCmd ← cmd_in (git [str "push"; forceWithLeaseArg; str "origin"; syncBranch ++ str ":" ++ syncBranch]) worktreeAbs;
        '(_, err) ← Run o pushCmd RunOptionsDefault;
        mret (Leaf <$> err)
    end
  end end end end.

(** The closure [cleanup]; [worktreeAdded] is the value of the variable it captures. *)
Definition cleanup (worktreeDir : RelPath) (worktreeAdded : bool) : prog (option serror) :=
  cleanupErr ← (if worktreeAdded then
      removeCmd ← cmd_in (git [str "worktree"; str "remove"; str "--force"; RelPath_String worktreeDir]) root;
      '(_, removeErr) ← Run o removeCmd RunOptionsDefault;
      match removeErr with Some e => mret (Join [None; Some (Leaf e)]) | None => mret None end
    else mret None);
  removeErr ← RemoveAll o worktreeDir;
  match removeErr with
  | Some e => mret (Join [cleanupErr; Some (Wrapped (str "remove " ++ RelPath_String worktreeDir) (Leaf e))])
  | None => mret cleanupErr
  end.

(** The directory, with the cleanup of an added worktree, or the error. *)
Definition createSyncWorktree (base : gostring) : prog (RelPath + option serror) :=
  cache ← lift (MustParseRelPath windows (str ".cache"));
  tmpRoot ← lift (RelPath_JoinComponents windows cache [str "tmp"]);
  err ← MkdirAll o tmpRoot 493;
  match err with
  | Some e => mret (inr (Some (Wrapped (str "create temp root " ++ RelPath_String tmpRoot) (Leaf e))))
  | None =>
  res ← MkdirTemp o tmpRoot (str "meta-sync-");
  match res with
  | inr e => mret (inr (Some (Wrapped (str "create sync worktree") (Leaf e))))
  | inl worktreeDir =>
  addCmd ← cmd_in (git [str "worktree"; str "add"; str "--quiet"; str "--detach"; RelPath_String worktreeDir; str "origin/" ++ base]) root;
  '(_, err) ← Run o addCmd RunOptionsDefault;
  match err with
  | Some e => c ← cleanup worktreeDir false; mret (inr (Join [Some (Leaf e); c]))
  | None =>
  dir ← lift (AbsPath_Join windows root worktreeDir);
  detachCmd ← cmd_in (git [str "checkout"; str "--detach"; str "origin/" ++ base]) dir;
  '(_, err) ← Run o detachCmd RunOptionsDefault;
  match err with
  | Some e => c ← cleanup worktreeDir true; mret (inr (Join [Some (Leaf e); c]))
  | None => mret (inl worktreeDir)
  end end end end.

Record RunSyncBranchOptions := MkRunSyncBranchOptions { Base : option gostring; Push : bool; Persist : bool }.

Definition sync_projects (projects : list RelPath) (worktreeDir : RelPath) (baseBranch : gostring) (push : bool) : prog (option serror) :=
  run_each (fun project => runSyncBranchProject project worktreeDir baseBranch push) projects.

Definition runSyncBranch (projects : list RelPath) (options : RunSyncBranchOptions) : prog (option serror) :=
  _ ← lift (Precondition (0 <? zlen projects));
  let baseBranch := default (str "main") (Base options) in
  fetchBaseCmd ← cmd_in (git [str "fetch"; str "origin"; baseBranch]) root;
  '(_, err) ← Run o fetchBaseCmd RunOptionsDefault;
  match err with
  | Some e => mret (Some (Leaf e))
  | None =>
      r ← createSyncWorktree baseBranch;
      match r with
      | inr err => mret err
      | inl worktreeDir =>
          err ← sync_projects projects worktreeDir baseBranch (Push options);
          (** The deferred function. *)
          if Persist options then _ ← lift (AbsPath_Join windows root worktreeDir); mret err
          else c ← cleanup worktreeDir true; mret (Join [err; c])
      end
  end.
End sync.

(** ** The commands of the contract *)
Section contract.
Context {E : Type} (o : oracle (E := E)) (TrimSpace quote : gostring -> gostring) (Fields : gostring -> list gostring).
Context (root : AbsPath) (config : WorkspaceConfig).

#[local] Notation ev := (event (E := E)).

Definition git_in (dir : AbsPath) (args : list gostring) : Cmd := MkCmd (str "git") args (Some dir).
Definition add_cmd (base : gostring) (w : RelPath) : Cmd :=
  git_in root [str "worktree"; str "add"; str "--quiet"; str "--detach"; RelPath_String w; str "origin/" ++ base].
Definition remove_cmd (w : RelPath) : Cmd := git_in root [str "worktree"; str "remove"; str "--force"; RelPath_String w].
Definition checkout_cmd (dir : AbsPath) (b : gostring) : Cmd := git_in dir [str "checkout"; str "-B"; b].
Definition pull_cmd (dir : AbsPath) (p : RelPath) (up : UpstreamRepo) : Cmd :=
  git_in dir [str "subtree"; str "pull"; str "--prefix"; RelPath_String p;
              str "https://github.com/" ++ uGitHubRepo up ++ str ".git"; uBranch up].
Definition lsremote_cmd (dir : AbsPath) (b : gostring) : Cmd :=
  git_in dir [str "ls-remote"; str "--heads"; str "origin"; str "refs/heads/" ++ b].
Definition push_cmd (dir : AbsPath) (b lease : gostring) : Cmd :=
  git_in dir [str "push"; str "--force-with-lease=" ++ lease; str "origin"; b ++ str ":" ++ b].

(** The git subcommand an event runs. *)
Definition subcommand (e : ev) : option gostring :=
  match e with Ran c _ _ _ => head (cargs c) | _ => None end.
Definition is_push (e : ev) : Prop := subcommand e = Some (str "push").
Definition is_removal (e : ev) : Prop := match e with RemovedAll _ _ => True | _ => False end.

(** What synchronizing a project runs: git commands other than [git worktree],
    and [git push] only as the last one. *)
Definition plain_step (e : ev) : Prop :=
  match e with
  | Ran c _ _ _ => cname c = str "git" /\ head (cargs c) <> Some (str "worktree") /\ head (cargs c) <> Some (str "push")
  | _ => False
  end.

(** The [<ref>:<expect>] form of a lease; an empty <expect> says that the ref must not exist. *)
Definition lease_of (b : gostring) (r : option remoteRef) : gostring := b ++ str ":" ++ from_option refSHA [] r.

(** The push of [p] from [dir]: after the branch was recreated, the upstream pulled into it and
    the remote head read, and with the lease that read gives. *)
Definition push_steps (dir : AbsPath) (base : gostring) (p : RelPath) (err : option E) (evs : list ev) : Prop :=
  let b := syncBranchPrefix ++ RelPath_String p in
  exists up o1 o2 ls o3 r,
    UpstreamForProject config base p = inl up /\
    parseSingleRemoteRef TrimSpace quote Fields (str "refs/heads/" ++ b) (Stdout ls) = Ret (inl r : option remoteRef + serror (E := E)) /\
    evs = [Ran (checkout_cmd dir b) RunOptionsDefault o1 None;
           Ran (pull_cmd dir p up) (WithCaptureStdout RunOptionsDefault) o2 None;
           Ran (lsremote_cmd dir b) (WithCaptureStdout RunOptionsDefault) ls None;
           Ran (push_cmd dir b (lease_of b r)) RunOptionsDefault o3 err].

Lemma parseSingleRemoteRef_returns ref out : ref <> [] ->
  exists r, parseSingleRemoteRef TrimSpace quote Fields ref out = Ret (r : option remoteRef + serror (E := E)).
Proof.
  intros Href. unfold parseSingleRemoteRef. rewrite (bool_decide_eq_false_2 _ Href). cbn [negb Precondition]. rewrite bind_ret.
  cbv zeta. case_bool_decide; [by eexists|].
  destruct (Z.eqb_spec (zlen (split_on 10 (TrimSpace out))) 1) as [H1|]; cbn [negb]; [|by eexists].
  destruct (index_in_range (split_on 10 (TrimSpace out)) 0) as [line ->]; [lia|]. rewrite bind_ret. cbv zeta.
  destruct (Z.eqb_spec (zlen (Fields line)) 2) as [H2|]; cbn [negb]; [|by eexists].
  destruct (index_in_range (Fields line) 1) as [name ->]; [lia|]. rewrite bind_ret.
  case_bool_decide; cbn [negb]; [|by eexists].
  destruct (index_in_range (Fields line) 0) as [sha ->]; [lia|]. by eexists.
Qed.

Lemma formatLease_Ret b r : b <> [] -> formatLease b r = Ret (lease_of b r).
Proof.
  intros Hb. unfold formatLease. rewrite (bool_decide_eq_false_2 _ Hb). cbn [negb Precondition]. rewrite bind_ret.
  by destruct r; unfold lease_of; cbn [from_option]; rewrite ?app_nil_r.
Qed.

(** [git] runs of the subcommand [sub], which is neither [worktree] nor [push]. *)
Lemma plain_Ran dir sub args opts out err :
  sub <> str "worktree" -> sub <> str "push" -> plain_step (Ran (MkCmd (str "git") (sub :: args) (Some dir)) opts out err : ev).
Proof. intros H1 H2. split; [done|]. cbn [head cargs]. split; congruence. Qed.

Lemma cmd_run_plain {B} dir sub args opts (f : RunOutput * option E -> prog (E := E) B) (Q : list ev -> B -> Prop) :
  sub <> str "worktree" -> sub <> str "push" ->
  (forall out err e, plain_step e -> e = Ran (MkCmd (str "git") (sub :: args) (Some dir)) opts out err ->
    emits (f (out, err)) (fun evs b => Q (e :: evs) b)) ->
  emits (c ← cmd_in (git (sub :: args)) dir; r ← Run o c opts; f r) Q.
Proof.
  intros H1 H2 H. unfold git. apply emits_cmd_run. intros out err. eapply H; [by apply plain_Ran|done].
Qed.

Lemma ExecAll_emits cmds (Q : ev -> Prop) :
  Forall (fun c => forall out err, Q (Ran c RunOptionsDefault out err)) cmds ->
  emits (BaseRunnerExecAll o cmds) (fun evs _ => Forall Q evs).
Proof.
  induction 1 as [|c cmds Hc _ IH]; cbn [BaseRunnerExecAll]; [by apply emits_ret|].
  eapply emits_bind; [apply (emits_Run _ _ _ (fun evs r => Forall Q evs)); by repeat constructor|].
  intros evs [out [e|]] Hevs; [apply emits_ret; by rewrite app_nil_r|].
  eapply emits_mono; [apply IH|]. intros. by apply Forall_app_2.
Qed.

Lemma resetWorktreeToBase_emits dir base :
  emits (resetWorktreeToBase o dir base) (fun evs _ => Forall plain_step evs).
Proof.
  unfold resetWorktreeToBase, git.
  do 3 (eapply emits_bind; [apply (emits_cmd_in _ _ _ (fun evs c => evs = [] /\ forall out err, plain_step (Ran c RunOptionsDefault out err)));
    split; [done|intros; by apply plain_Ran]|intros ? ? [-> ?]]).
  cbn [app]. apply ExecAll_emits. by rewrite !Forall_cons, Forall_nil.
Qed.

Lemma deleteLocalBranchIfPresent_emits dir b :
  emits (deleteLocalBranchIfPresent o TrimSpace dir b) (fun evs _ => Forall plain_step evs).
Proof.
  unfold deleteLocalBranchIfPresent. apply cmd_run_plain; [done..|]. intros out [e|] ev' Hp _; [apply emits_ret; by constructor|].
  case_bool_decide; [apply emits_ret; by constructor|].
  apply cmd_run_plain; [done..|]. intros out' err' ev'' Hp' _. apply emits_ret. by repeat constructor.
Qed.

(** What synchronizing one project emits. *)
Definition project_trace (dir : AbsPath) (base : gostring) (push : bool) (p : RelPath) (evs : list ev) (err : option (serror (E := E))) : Prop :=
  (Forall plain_step evs /\ (err = None -> push = false)) \/
  (exists pre suf e, push = true /\ evs = pre ++ suf /\ Forall plain_step pre /\ push_steps dir base p e suf /\ err = Leaf <$> e).

Lemma runUpdate_emits dir base p :
  emits (runUpdate o config dir base [p]) (fun evs err => match err with
    | None => exists up out, UpstreamForProject config base p = inl up /\ evs = [Ran (pull_cmd dir p up) (WithCaptureStdout RunOptionsDefault) out None]
    | Some _ => Forall plain_step evs end).
Proof.
  unfold runUpdate. destruct (UpstreamForProject config base p) as [up|e]; [|by apply emits_ret].
  apply cmd_run_plain; [done..|]. intros out [e|] ev' Hp ->; apply emits_ret; [by constructor|]. by eexists _, _.
Qed.

Lemma findRemote_emits dir b : b <> [] ->
  emits (findRemoteBranchHeadRef o TrimSpace quote Fields dir b) (fun evs r => exists out err, evs = [Ran (lsremote_cmd dir b) (WithCaptureStdout RunOptionsDefault) out err] /\
    (forall ref, r = inl ref -> err = None /\ parseSingleRemoteRef TrimSpace quote Fields (str "refs/heads/" ++ b) (Stdout out) = Ret (inl ref : option remoteRef + serror (E := E)))).
Proof.
  intros Hb. unfold findRemoteBranchHeadRef. rewrite (bool_decide_eq_false_2 _ Hb). cbn [negb Precondition].
  eapply emits_bind; [by apply (emits_lift _ tt (fun evs _ => evs = []))|]. intros ? _ ->. cbv zeta.
  apply cmd_run_plain; [done..|]. intros out [e|] ev' _ ->; [apply emits_ret; by eexists _, _|].
  destruct (parseSingleRemoteRef_returns (str "refs/heads/" ++ b) (Stdout out)) as [r Er]; [done|].
  eapply emits_lift; [exact Er|]. eexists _, _. split; [done|]. intros ref ->. by rewrite Er.
Qed.

#[local] Ltac plain_solve :=
  repeat first [ assumption | apply Forall_app_2 | apply List.Forall_nil | apply List.Forall_cons | (apply plain_Ran; done) ].
#[local] Ltac plain_end := apply emits_ret; left; split; [plain_solve | done].

Lemma runSyncBranchProject_emits p w base push er tr n ds tw :
  wf_abs root er tr -> wf_rel w n ds tw ->
  exists dir, AbsPath_Join false root w = Ret dir /\
  emits (runSyncBranchProject o false TrimSpace quote Fields root config p w base push) (project_trace dir base push p).
Proof.
  intros [Her _ ->] [Hds _ ->]. eexists. split; [by apply AbsPath_Join_rel|]. set (dir := abs_path _ false).
  unfold runSyncBranchProject.
  eapply emits_bind; [apply (emits_lift _ dir (fun evs d => evs = [] /\ d = dir)); [by apply AbsPath_Join_rel|done]|]. intros ? ? [-> ->]. cbv zeta. cbn [app].
  eapply emits_bind; [apply resetWorktreeToBase_emits|]. intros evs1 [e1|] H1; [plain_end|].
  eapply emits_bind; [apply deleteLocalBranchIfPresent_emits|]. intros evs2 [e2|] H2; [plain_end|].
  apply cmd_run_plain; [done..|]. intros o3 [e3|] ev3 H3 Hev3; [plain_end|].
  eapply emits_bind; [apply runUpdate_emits|]. intros evs4 [e4|]; [intros H4; plain_end|intros (up & o4 & Hup & ->)].
  assert (plain_step (Ran (pull_cmd dir p up) (WithCaptureStdout RunOptionsDefault) o4 None : ev)) as H4 by (by apply plain_Ran).
  assert (syncBranchPrefix ++ RelPath_String p <> []) as Hb by done.
  destruct push; cbn [negb]; [|plain_end].
  eapply emits_bind; [by apply findRemote_emits|]. intros evs5 [ref|e5] (ls & e & -> & Hls); [|plain_end].
  destruct (Hls ref eq_refl) as [-> Hparse].
  rewrite formatLease_Ret by done.
  eapply emits_bind; [by eapply (emits_lift _ _ (fun evs l => evs = [] /\ l = lease_of _ ref))|].
  intros ? ? [-> ->]. cbv zeta. apply emits_cmd_run. intros o6 e6. apply emits_ret. right.
  eexists (evs1 ++ evs2), _, e6. split_and!; [done| |by apply Forall_app_2|by eexists up, o3, o4, ls, o6, ref|done].
  rewrite <- !app_assoc. cbn [app]. by rewrite Hev3.
Qed.

(** What synchronizing the projects [ps] emits: the traces of the projects in order, up to the first error. *)
Definition projects_trace (dir : AbsPath) (base : gostring) (push : bool) : list RelPath -> list ev -> option (serror (E := E)) -> Prop :=
  each_trace (project_trace dir base push).

Lemma sync_projects_emits ps w base push er tr n ds tw :
  wf_abs root er tr -> wf_rel w n ds tw ->
  exists dir, AbsPath_Join false root w = Ret dir /\
  emits (sync_projects o false TrimSpace quote Fields root config ps w base push) (projects_trace dir base push ps).
Proof.
  intros Hroot Hw. destruct (runSyncBranchProject_emits w w base push er tr n ds tw) as (dir & Hdir & _); [done..|].
  exists dir. split; [done|]. apply run_each_emits. intros p _.
  destruct (runSyncBranchProject_emits p w base push er tr n ds tw) as (dir' & Hdir' & Hp); [done..|].
  rewrite Hdir in Hdir'. by injection Hdir' as <-.
Qed.

Lemma Join_Some (e : serror (E := E)) es : exists e', Join (Some e :: es) = Some e'.
Proof. unfold Join. cbn [omap list_omap id]. by eexists. Qed.

(** What the cleanup emits: the removal of the worktree, if one was added, then that of
    its directory; a failure of either is an error. *)
Definition cleanup_trace (w : RelPath) (added : bool) (evs : list ev) (err : option (serror (E := E))) : Prop :=
  exists out e rm, evs = (if added then [Ran (remove_cmd w) RunOptionsDefault out e] else []) ++ [RemovedAll w rm] /\
    (err = None -> rm = None /\ (added = true -> e = None)).

Lemma cleanup_emits w added : emits (cleanup o root w added) (cleanup_trace w added).
Proof.
  unfold cleanup.
  eapply (emits_bind _ _ (fun evs err => exists out e, evs = (if added then [Ran (remove_cmd w) RunOptionsDefault out e] else []) /\
    (err = None -> added = true -> e = None))).
  - destruct added; [|apply emits_ret; by exists (MkRunOutput [] []), None].
    apply emits_cmd_run. intros out [e|]; apply emits_ret; by eexists _, _.
  - intros evs err (out & e & -> & He).
    eapply emits_bind; [apply (emits_RemoveAll _ _ (fun evs rm => evs = [RemovedAll w rm])); done|]. intros ? [e'|] ->; apply emits_ret; rewrite app_nil_r.
    + exists out, e, (Some e'). split; [done|]. by destruct err.
    + exists out, e, None. auto.
Qed.

Definition tmp_root : RelPath := MkRelPath (str ".cache/tmp").
Definition made (w : RelPath) : ev := MadeTemp tmp_root (str "meta-sync-") (inl w).
Definition detach_cmd (dir : AbsPath) (base : gostring) : Cmd := git_in dir [str "checkout"; str "--detach"; str "origin/" ++ base].

(** Events before the directory is made. *)
Definition harmless (e : ev) : Prop :=
  match e with Ran _ _ _ _ => plain_step e | MadeAll _ _ _ => True | MadeTemp _ _ (inr _) => True | _ => False end.

(** The ways a run can go: no directory is made; adding or detaching the worktree fails, and
    what was made is cleaned up; the projects are synchronized in the worktree, which is
    cleaned up unless it is to persist. *)
Inductive sync_trace (ps : list RelPath) (options : RunSyncBranchOptions) : list ev -> option (serror (E := E)) -> Prop :=
  | st_none pre e : Forall harmless pre -> sync_trace ps options pre (Some e)
  | st_add pre w o1 e1 c cerr e : Forall harmless pre -> cleanup_trace w false c cerr ->
      sync_trace ps options (pre ++ made w :: Ran (add_cmd (default (str "main") (Base options)) w) RunOptionsDefault o1 (Some e1) :: c) (Some e)
  | st_detach pre w o1 o2 e2 c cerr dir e : Forall harmless pre -> cleanup_trace w true c cerr ->
      sync_trace ps options (pre ++ made w :: Ran (add_cmd (default (str "main") (Base options)) w) RunOptionsDefault o1 None
        :: Ran (detach_cmd dir (default (str "main") (Base options))) RunOptionsDefault o2 (Some e2) :: c) (Some e)
  | st_synced pre w o1 o2 dir body berr fin err : Forall harmless pre ->
      AbsPath_Join false root w = Ret dir ->
      projects_trace dir (default (str "main") (Base options)) (Push options) ps body berr ->
      (if Persist options then fin = [] /\ err = berr
       else exists cerr, cleanup_trace w true fin cerr /\ (err = None <-> berr = None /\ cerr = None)) ->
      sync_trace ps options ((pre ++ [made w; Ran (add_cmd (default (str "main") (Base options)) w) RunOptionsDefault o1 None;
        Ran (detach_cmd dir (default (str "main") (Base options))) RunOptionsDefault o2 None]) ++ body ++ fin) err.

Context (Hroot : exists er tr, wf_abs root er tr).
Context (Htemp : forall tr d p w, o_mkdirtemp o tr d p = inl w -> exists n ds tw, wf_rel w n ds tw).

Lemma Join_root w : (exists n ds tw, wf_rel w n ds tw) -> exists dir, AbsPath_Join false root w = Ret dir.
Proof.
  intros (n & ds & tw & [Hds _ ->]). destruct Hroot as (er & tr & [Her _ ->]). eexists. by apply AbsPath_Join_rel.
Qed.

Lemma Join_None (a b : option (serror (E := E))) : Join [a; b] = None <-> a = None /\ b = None.
Proof. by destruct a, b; unfold Join; cbn; split; intros; destruct_and?. Qed.

Lemma MkdirTemp_emits d p :
  emits (MkdirTemp o d p) (fun evs res => evs = [MadeTemp d p res] /\ forall w, res = inl w -> exists n ds tw, wf_rel w n ds tw).
Proof. intros tr. eexists _, _. split; [done|]. split; [done|]. intros w. apply Htemp. Qed.

Lemma createSyncWorktree_emits ps options :
  let base := default (str "main") (Base options) in
  emits (createSyncWorktree o false root base) (fun evs r => match r with
    | inr err => forall pre, Forall harmless pre -> sync_trace ps options (pre ++ evs) err
    | inl w => exists pre o1 o2 dir, Forall harmless pre /\ (exists n ds tw, wf_rel w n ds tw) /\ AbsPath_Join false root w = Ret dir /\
        evs = pre ++ [made w; Ran (add_cmd base w) RunOptionsDefault o1 None; Ran (detach_cmd dir base) RunOptionsDefault o2 None]
    end).
Proof.
  intros base. unfold createSyncWorktree.
  eapply emits_bind; [by eapply (emits_lift _ (MkRelPath (str ".cache")) (fun evs r => evs = [] /\ r = MkRelPath (str ".cache"))); [vm_compute; reflexivity|]|].
  intros ? ? [-> ->].
  eapply emits_bind; [by eapply (emits_lift _ tmp_root (fun evs r => evs = [] /\ r = tmp_root)); [vm_compute; reflexivity|]|].
  intros ? ? [-> ->]. cbn [app].
  eapply emits_bind; [by apply (emits_MkdirAll _ _ _ (fun evs _ => Forall harmless evs)); repeat constructor|]. intros evs1 [e1|] H1.
  { apply emits_ret. intros pre Hpre. rewrite app_nil_r. constructor. by apply Forall_app_2. }
  eapply emits_bind; [apply MkdirTemp_emits|]. intros ? [w|e2] [-> Hw].
  2: { apply emits_ret. intros pre Hpre. constructor. rewrite app_nil_r. repeat apply Forall_app_2; [done..|by repeat constructor]. }
  apply emits_cmd_run. intros o1 [e3|].
  { eapply emits_bind; [apply cleanup_emits|]. intros c cerr Hc. apply emits_ret. intros pre Hpre.
    destruct (Join_Some (Leaf e3) [cerr]) as [e ->]. rewrite app_nil_r, (app_assoc pre). cbn [app].
    eapply st_add; [by apply Forall_app_2|done]. }
  destruct (Join_root w) as [dir Hdir]; [by apply Hw|]. rewrite Hdir.
  eapply emits_bind; [by apply (emits_lift _ dir (fun evs d => evs = [] /\ d = dir))|]. intros ? ? [-> ->].
  apply emits_cmd_run. intros o2 [e4|].
  { eapply emits_bind; [apply cleanup_emits|]. intros c cerr Hc. apply emits_ret. intros pre Hpre.
    destruct (Join_Some (Leaf e4) [cerr]) as [e ->]. rewrite app_nil_r, (app_assoc pre). cbn [app].
    eapply st_detach; [by apply Forall_app_2|done]. }
  apply emits_ret. exists evs1, o1, o2, dir. split_and!; [done|by apply Hw|done|]. done.
Qed.

Lemma runSyncBranch_emits ps options :
  ps <> [] ->
  emits (runSyncBranch o false TrimSpace quote Fields root config ps options) (sync_trace ps options).
Proof.
  intros Hps. unfold runSyncBranch. rewrite (proj2 (Z.ltb_lt 0 (zlen ps))) by (by destruct ps). cbn [Precondition].
  eapply emits_bind; [by apply (emits_lift _ tt (fun evs _ => evs = []))|]. intros ? _ ->. cbv zeta.
  apply cmd_run_plain; [done..|]. intros o1 oe1 ev1 H1 Hev1. assert (harmless ev1) as Hh by (by rewrite Hev1 in H1 |- *).
  clear H1 Hev1. destruct oe1 as [e1|].
  { apply emits_ret. constructor. by repeat constructor. }
  eapply emits_bind; [apply (createSyncWorktree_emits ps options)|]. intros evs [w|err].
  2: { intros H. apply emits_ret. rewrite app_nil_r. apply (H [_]). by repeat constructor. }
  intros (pre & o2 & o3 & dir & Hpre & (n & ds & tw & Hw) & Hdir & ->). destruct Hroot as (er & tr & Hr).
  destruct (sync_projects_emits ps w (default (str "main") (Base options)) (Push options) er tr n ds tw) as (dir' & Hdir' & Hs); [done..|].
  rewrite Hdir in Hdir'. injection Hdir' as <-.
  eapply emits_bind; [exact Hs|]. intros body berr Hbody.
  destruct (Persist options) eqn:EP.
  - rewrite Hdir. eapply emits_bind; [by apply (emits_lift _ dir (fun evs _ => evs = []))|]. intros ? _ ->. apply emits_ret.
    apply (st_synced ps options (ev1 :: pre) w o2 o3 dir body berr []); [by constructor|done|done|]. by rewrite EP.
  - eapply emits_bind; [apply cleanup_emits|]. intros fin cerr Hfin. apply emits_ret.
    rewrite app_nil_r.
    apply (st_synced ps options (ev1 :: pre) w o2 o3 dir body berr fin); [by constructor|done|done|]. rewrite EP.
    exists cerr. split; [done|]. apply Join_None.
Qed.

(** *** Which events can occur where *)
Definition ordinary (e : ev) : Prop :=
  match e with
  | Ran c _ _ _ => head (cargs c) <> Some (str "worktree")
  | MadeTemp _ _ (inl _) | RemovedAll _ _ => False
  | _ => True
  end.

Lemma harmless_ordinary e : harmless e -> ordinary e.
Proof. destruct e as [c ? ? ?| |? ? []| | | |]; cbn; tauto. Qed.
Lemma plain_ordinary e : plain_step e -> ordinary e.
Proof. destruct e; cbn; tauto. Qed.
Lemma harmless_no_push e : harmless e -> ~ is_push e.
Proof. destruct e as [c ? ? ?| |? ? []| | | |]; cbn; unfold is_push; cbn; intros; naive_solver. Qed.
Lemma plain_no_push e : plain_step e -> ~ is_push e.
Proof. destruct e; cbn; unfold is_push; cbn; intros; naive_solver. Qed.

Lemma push_steps_ordinary dir base p e steps : push_steps dir base p e steps -> Forall ordinary steps.
Proof. intros (up & o1 & o2 & ls & o3 & r & _ & _ & ->). rewrite !Forall_cons, Forall_nil. done. Qed.

Lemma project_ordinary dir base push p evs err : project_trace dir base push p evs err -> Forall ordinary evs.
Proof.
  intros [[H _]|(pre & suf & e & _ & -> & H & Hp & _)]; [by eapply Forall_impl; [exact H|apply plain_ordinary]|].
  apply Forall_app_2; [by eapply Forall_impl; [exact H|apply plain_ordinary]|by eapply push_steps_ordinary].
Qed.

Lemma projects_ordinary dir base push ps evs err : projects_trace dir base push ps evs err -> Forall ordinary evs.
Proof. apply each_trace_Forall. intros a ? ?. apply project_ordinary. Qed.

Abbreviation pushes_ok := (each_ends is_push).

Lemma push_steps_pushes_ok dir base p e steps (R : list ev -> Prop) : push_steps dir base p e steps -> R steps -> pushes_ok R steps.
Proof.
  intros (up & o1 & o2 & ls & o3 & r & _ & _ & ->) HR. apply (each_ends_last is_push R [_; _; _]); [|done].
  rewrite !Forall_cons, Forall_nil. split_and!; [by apply plain_no_push, plain_Ran..|done].
Qed.

Lemma plain_pushes_ok R evs : Forall plain_step evs -> pushes_ok R evs.
Proof. intros H. apply each_ends_none. eapply Forall_impl; [exact H|apply plain_no_push]. Qed.

(** The steps of a push of one of [ps]. *)
Definition pushed (dir : AbsPath) (base : gostring) (ps : list RelPath) (steps : list ev) : Prop :=
  exists p e, p ∈ ps /\ push_steps dir base p e steps.

Lemma project_pushes dir base push p evs err :
  project_trace dir base push p evs err -> pushes_ok (fun steps => push = true /\ exists e, push_steps dir base p e steps) evs.
Proof.
  intros [[H1 _]|(pre & suf & e & Hpush & -> & Hpre & Hs & _)]; [by apply plain_pushes_ok|].
  apply each_ends_app; [by apply plain_pushes_ok|]. by eapply push_steps_pushes_ok; eauto.
Qed.

Lemma projects_pushes dir base push ps evs err :
  projects_trace dir base push ps evs err ->
  pushes_ok (fun steps => push = true /\ pushed dir base ps steps) evs /\
  (err = None -> push = true -> forall p, p ∈ ps -> exists a steps b, evs = a ++ steps ++ b /\ push_steps dir base p None steps).
Proof.
  intros H. split.
  - eapply each_ends_mono; [|eapply each_trace_ends; [|exact H]; intros a ? ?; apply project_pushes].
    intros s (p & Hp & Hpush & e & Hs). split; [done|]. by exists p, e.
  - intros -> Hpush p Hp. destruct (each_trace_all _ _ _ _ H Hp) as (a & mid & b & -> & [[_ Hno]|(pre & suf & e & _ & -> & _ & Hs & He)]).
    + rewrite Hpush in Hno. by specialize (Hno eq_refl).
    + destruct e; [done|]. exists (a ++ pre), suf, b. by rewrite <- !app_assoc.
Qed.

Lemma cleanup_no_push w added evs err : cleanup_trace w added evs err -> Forall (fun e => ~ is_push e) evs.
Proof.
  intros (out & e & rm & -> & _). apply Forall_app_2; [destruct added|]; rewrite ?Forall_cons, ?Forall_nil; done.
Qed.

Lemma harmless_all_no_push evs : Forall harmless evs -> Forall (fun e => ~ is_push e) evs.
Proof. intros H. eapply Forall_impl; [exact H|apply harmless_no_push]. Qed.

(** What the push theorem says of a trace. *)
Lemma sync_trace_pushes ps options evs err : sync_trace ps options evs err ->
  let base := default (str "main") (Base options) in
  pushes_ok (fun steps => exists w dir, made w ∈ evs /\ AbsPath_Join false root w = Ret dir /\ Push options = true /\ pushed dir base ps steps) evs /\
  (err = None -> Push options = true -> forall p, p ∈ ps -> exists w dir a steps b,
      AbsPath_Join false root w = Ret dir /\ evs = a ++ steps ++ b /\ push_steps dir base p None steps).
Proof.
  intros H base. destruct H as [pre e Hpre|pre w o1 e1 c cerr e Hpre Hc|pre w o1 o2 e2 c cerr dir e Hpre Hc|pre w o1 o2 dir body berr fin err Hpre Hdir Hbody Hfin].
  1-3: split; [|discriminate]; apply each_ends_none; rewrite ?Forall_app, ?Forall_cons; eauto 10 using harmless_all_no_push, cleanup_no_push.
  1-2: split_and!; [by apply harmless_all_no_push|done..|by eapply cleanup_no_push].
  apply projects_pushes in Hbody as [Hok Hall].
  assert (Forall (fun e => ~ is_push e) fin) as Hf by (destruct (Persist options); [by destruct Hfin as [-> _]|destruct Hfin as (? & ? & _); by eapply cleanup_no_push]).
  split.
  - apply each_ends_app; [|apply each_ends_app; [|by apply each_ends_none]].
    + apply each_ends_none, Forall_app_2; [by apply harmless_all_no_push|]. rewrite !Forall_cons, Forall_nil. done.
    + intros pre' e post E1 He. destruct (Hok _ _ _ E1 He) as (pre'' & steps & E2 & Hpush & Hs).
      exists pre'', steps. split; [done|]. exists w, dir. split_and!; [|done..]. apply elem_of_app. left. apply elem_of_app. right. left.
  - intros -> Hpush p Hp. assert (berr = None) as Hb by (destruct (Persist options); [by destruct Hfin as [_ <-]|destruct Hfin as (? & _ & Hb); by apply Hb]).
    destruct (Hall Hb Hpush p Hp) as (a & steps & b & -> & Hs).
    match goal with |- context [?hd ++ (a ++ _) ++ fin] => exists w, dir, (hd ++ a), steps, (b ++ fin) end.
    split_and!; [done|by rewrite !(assoc_L (++))|done].
Qed.

(** C8: [kido sync-branch] pushes only what it has rebuilt, and with a lease (Unix).  Whatever
    the commands and the file system answer, synchronizing a non-empty list of projects returns;
    every [git push] it runs was asked for, is for one of the projects, pushes that project's
    branch from the sync worktree, and comes right after the branch was recreated, the upstream
    the configuration gives was pulled into it and the remote head was read, with the lease that
    read gives; and when it returns no error after a push was asked for, every project was
    pushed. *)
Theorem sync_push_guarded ps options tr (Hps : ps <> []) :
  exists evs err, runSyncBranch o false TrimSpace quote Fields root config ps options tr = Ret (tr ++ evs, err) /\
    (forall pre e post, evs = pre ++ e :: post -> is_push e -> exists w dir pre' steps,
      made w ∈ evs /\ AbsPath_Join false root w = Ret dir /\ pre ++ [e] = pre' ++ steps /\
      Push options = true /\ pushed dir (default (str "main") (Base options)) ps steps) /\
    (err = None -> Push options = true -> forall p, p ∈ ps -> exists w dir a steps b,
      AbsPath_Join false root w = Ret dir /\ evs = a ++ steps ++ b /\
      push_steps dir (default (str "main") (Base options)) p None steps).
Proof.
  destruct (runSyncBranch_emits ps options Hps tr) as (evs & err & E1 & H).
  exists evs, err. split; [done|]. destruct (sync_trace_pushes _ _ _ _ H) as [Hok Hall]. split; [|done].
  intros pre e post E2 He. destruct (Hok _ _ _ E2 He) as (pre' & steps & E3 & w & dir & Hw & Hd & Hp).
  exists w, dir, pre', steps. by destruct_and!.
Qed.

(** [w] was removed at the end, after its worktree when it had been added; a failure is an error. *)
Definition cleaned (base : gostring) (w : RelPath) (evs : list ev) (err : option (serror (E := E))) : Prop :=
  exists added mid fin cerr, evs = mid ++ fin /\ Forall (fun e => ~ is_removal e) mid /\ cleanup_trace w added fin cerr /\
    (err = None -> cerr = None) /\ (forall out, Ran (add_cmd base w) RunOptionsDefault out None ∈ evs -> added = true).

Lemma ordinary_no_removal evs : Forall ordinary evs -> Forall (fun e => ~ is_removal e) evs.
Proof. intros H. eapply Forall_impl; [exact H|]. intros []; cbn; tauto. Qed.

Lemma harmless_all_ordinary evs : Forall harmless evs -> Forall ordinary evs.
Proof. intros H. eapply Forall_impl; [exact H|apply harmless_ordinary]. Qed.

(** The only directory made is the one the trace names. *)
Lemma made_unique a b w d q w' (Ha : Forall ordinary a) (Hb : Forall (fun e => match e with MadeTemp _ _ (inl _) => False | _ => True end) b) :
  MadeTemp d q (inl w') ∈ a ++ made w :: b -> w' = w.
Proof.
  intros [H|[H|H]%elem_of_cons]%elem_of_app.
  - rewrite Forall_forall in Ha. by apply Ha in H.
  - unfold made in H. by simplify_eq.
  - rewrite Forall_forall in Hb. by apply Hb in H.
Qed.

Lemma cleanup_no_made w added evs err : cleanup_trace w added evs err ->
  Forall (fun e : ev => match e with MadeTemp _ _ (inl _) => False | _ => True end) evs.
Proof. intros (out & e & rm & -> & _). destruct added; rewrite ?Forall_app, ?Forall_cons, ?Forall_nil; done. Qed.

Lemma cleanup_removes w added evs err w' rm : cleanup_trace w added evs err -> RemovedAll w' rm ∈ evs -> w' = w.
Proof.
  intros (out & e & rm' & -> & _). destruct added; cbn [app]; rewrite ?elem_of_cons, ?elem_of_nil; naive_solver.
Qed.

Lemma ordinary_not_removed evs w rm : Forall ordinary evs -> RemovedAll w rm ∉ evs.
Proof. rewrite Forall_forall. by intros H ?%H. Qed.
Lemma ordinary_no_made evs : Forall ordinary evs -> Forall (fun e : ev => match e with MadeTemp _ _ (inl _) => False | _ => True end) evs.
Proof. intros H. eapply Forall_impl; [exact H|]. intros [| |? ? []| | | |]; cbn; tauto. Qed.
Lemma ordinary_not_added base w out evs : Forall ordinary evs -> Ran (add_cmd base w) RunOptionsDefault out None ∉ evs.
Proof. rewrite Forall_forall. intros H Hin%H. by apply Hin. Qed.

(** What [b], the trace after the directory [w] was made, does to it. *)
Definition ends_well (options : RunSyncBranchOptions) (w : RelPath) (b : list ev) (err : option (serror (E := E))) : Prop :=
  let base := default (str "main") (Base options) in
  exists added mid fin cerr, b = mid ++ fin /\ Forall (fun e => ~ is_removal e) mid /\
    Forall (fun e : ev => match e with MadeTemp _ _ (inl _) => False | _ => True end) b /\
    (cleanup_trace w added fin cerr /\ (err = None -> Persist options = false /\ cerr = None) /\
       (forall out, Ran (add_cmd base w) RunOptionsDefault out None ∈ mid -> added = true) \/
     fin = [] /\ Persist options = true).

#[local] Ltac no_removals := cbn [app]; repeat (apply List.Forall_cons; [by intros []|]); try apply List.Forall_nil.

Lemma sync_trace_ends ps options evs err : sync_trace ps options evs err ->
  Forall ordinary evs \/ exists a w b, Forall ordinary a /\ evs = a ++ made w :: b /\ ends_well options w b err.
Proof.
  intros [pre e Hpre|pre w o1 e1 c cerr e Hpre Hc|pre w o1 o2 e2 c cerr dir e Hpre Hc|pre w o1 o2 dir body berr fin err' Hpre Hdir Hbody Hfin].
  - left. by apply harmless_all_ordinary.
  - right. exists pre, w, (Ran (add_cmd (default (str "main") (Base options)) w) RunOptionsDefault o1 (Some e1) :: c).
    split_and!; [by apply harmless_all_ordinary|done|]. exists false, [Ran (add_cmd (default (str "main") (Base options)) w) RunOptionsDefault o1 (Some e1)], c, cerr.
    split_and!; [done|no_removals|constructor; [done|by eapply cleanup_no_made]|left].
    split_and!; [done|done|]. intros out H%list_elem_of_singleton. congruence.
  - right. exists pre, w. eexists. split_and!; [by apply harmless_all_ordinary|reflexivity|]. eexists true, [_; _], c, cerr.
    split_and!; [reflexivity|no_removals|repeat (constructor; [done|]); by eapply cleanup_no_made|by left].
  - right. apply projects_ordinary in Hbody. rewrite <- !app_assoc. exists pre, w. eexists. split_and!; [by apply harmless_all_ordinary|reflexivity|].
    destruct (Persist options) eqn:EP.
    + destruct Hfin as [-> ->]. eexists true, ([_; _] ++ body), [], None. split_and!; [reflexivity| | |by right].
      * no_removals. by apply ordinary_no_removal.
      * cbn [app]. rewrite app_nil_r, !Forall_cons. split_and!; [done..|by apply ordinary_no_made].
    + destruct Hfin as (cerr & Hc & Herr). eexists true, ([_; _] ++ body), fin, cerr. split_and!; [by rewrite <- app_assoc| | |left].
      * no_removals. by apply ordinary_no_removal.
      * cbn [app]. rewrite !Forall_cons, Forall_app. split_and!; [done..|by apply ordinary_no_made|by eapply cleanup_no_made].
      * split_and!; [done| |done]. intros H. by apply Herr in H as [_ ?].
Qed.

(** C10: [kido sync-branch] cleans up after itself (Unix).  Whatever the commands and the file
    system answer, synchronizing a non-empty list of projects returns; it removes no directory
    but one it has made; and the directory it makes is removed by its last step, which is
    preceded by [git worktree remove --force] when the worktree had been added to the
    repository, a failure of either being an error of the run -- unless the worktree is to
    persist, when a run that got as far as the projects, and so every run without an error,
    removes nothing. *)
Theorem sync_worktree_removed ps options tr (Hps : ps <> []) :
  exists evs err, runSyncBranch o false TrimSpace quote Fields root config ps options tr = Ret (tr ++ evs, err) /\
    (forall w rm, RemovedAll w rm ∈ evs -> made w ∈ evs) /\
    (forall d q w, MadeTemp d q (inl w) ∈ evs ->
      cleaned (default (str "main") (Base options)) w evs err /\ (Persist options = true -> err <> None) \/
      Persist options = true /\ Forall (fun e => ~ is_removal e) evs).
Proof.
  destruct (runSyncBranch_emits ps options Hps tr) as (evs & err & E1 & H). exists evs, err. split; [done|].
  destruct (sync_trace_ends _ _ _ _ H) as [Ho|(a & w & b & Ha & -> & added & mid & fin & cerr & -> & Hmid & Hb & Hend)].
  { split; [by intros w rm Hin%ordinary_not_removed|]. intros d q w Hin. rewrite Forall_forall in Ho. by apply Ho in Hin. }
  assert (Forall (fun e => ~ is_removal e) (a ++ made w :: mid)) as Hno.
  { apply Forall_app_2; [by apply ordinary_no_removal|]. constructor; [by intros []|done]. }
  split.
  - intros w' rm Hin. rewrite app_comm_cons, app_assoc in Hin. apply elem_of_app in Hin as [Hin|Hin]; [rewrite Forall_forall in Hno; by destruct (Hno _ Hin)|].
    destruct Hend as [[Hc _]|[-> _]]; [|by apply elem_of_nil in Hin]. rewrite (cleanup_removes _ _ _ _ _ _ Hc Hin). apply elem_of_app. right. left.
  - intros d q w' Hin. apply made_unique in Hin as ->; [|done..]. destruct Hend as [(Hc & Herr & Hadd)|[-> HP]]; [left|right; by rewrite app_nil_r].
    split; [|intros HP ->; destruct (Herr eq_refl); congruence].
    exists added, (a ++ made w :: mid), fin, cerr. split_and!; [by rewrite app_comm_cons, app_assoc|done..|by intros ->; apply Herr|].
    intros out [Hin|[Hin|[Hin|Hin]%elem_of_app]%elem_of_cons]%elem_of_app; [by apply ordinary_not_added in Hin|done|by eapply Hadd|].
    destruct Hc as (o' & e & rm & -> & _). destruct added; [done|]. by apply list_elem_of_singleton in Hin.
Qed.
End contract.

(** ** A concrete run *)
Definition sample_oracle : oracle (E := unit) :=
  {| o_run := fun _ c _ =>
       (MkRunOutput (if bool_decide (head (cargs c) = Some (str "ls-remote")) then str "0a1b refs/heads/merge-bot/sync/tools" else []) [], None);
     o_mkdirall := fun _ _ _ => None;
     o_mkdirtemp := fun _ _ _ => inl (MkRelPath (str ".cache/tmp/meta-sync-1"));
     o_removeall := fun _ _ => None;
     o_stat := fun _ _ _ => None;
     o_now := fun _ => Timex.NewInstant (GoTime.MkTime 0 0 None) |}.
Definition sample_fields (s : gostring) : list gostring := filter (fun w => w <> []) (split_on 32 s).
Definition sample_root : AbsPath := MkAbsPath (str "/r").
Definition sample_ps : list RelPath := [MkRelPath (str "tools")].
Definition sample_options (push persist : bool) : RunSyncBranchOptions := MkRunSyncBranchOptions None push persist.

Lemma wf_sample_root : exists er tr, wf_abs sample_root er tr.
Proof. exists [str "r"], false. split; [repeat constructor; discriminate|by intros ?|reflexivity]. Qed.

Lemma sample_temp : forall tr d p w, o_mkdirtemp sample_oracle tr d p = inl w -> exists n ds tw, wf_rel w n ds tw.
Proof.
  intros tr d p w H. cbn [o_mkdirtemp sample_oracle] in H. injection H as <-.
  exists 0%nat, [str ".cache"; str "tmp"; str "meta-sync-1"], false. split; [repeat constructor; discriminate|by intros ?|reflexivity].
Qed.

(** The subcommands of a run that pushes and cleans up. *)
Example sample_run :
  match runSyncBranch sample_oracle false id id sample_fields sample_root sample_cfg sample_ps (sample_options true false) [] with
  | Ret (evs, None) => omap subcommand evs
  | _ => []
  end = [str "fetch"; str "worktree"; str "checkout"; str "checkout"; str "reset"; str "clean"; str "branch"; str "checkout";
         str "subtree"; str "ls-remote"; str "push"; str "worktree"].
Proof. vm_compute. reflexivity. Qed.

Lemma sync_push_guarded_witness :
  sample_ps <> [] /\
  exists evs err, runSyncBranch sample_oracle false id id sample_fields sample_root sample_cfg sample_ps (sample_options true false) [] = Ret ([] ++ evs, err) /\
    (err = None -> forall p, p ∈ sample_ps -> exists w dir a steps b,
      AbsPath_Join false sample_root w = Ret dir /\ evs = a ++ steps ++ b /\
      push_steps id id sample_fields sample_cfg dir (str "main") p None steps).
Proof.
  split; [discriminate|].
  destruct (sync_push_guarded sample_oracle id id sample_fields sample_root sample_cfg wf_sample_root sample_temp sample_ps (sample_options true false) [])
    as (evs & err & E1 & _ & H); [discriminate|].
  exists evs, err. split; [exact E1|]. intros Herr. exact (H Herr eq_refl).
Defined.

Lemma sync_worktree_removed_witness :
  sample_ps <> [] /\
  exists evs err, runSyncBranch sample_oracle false id id sample_fields sample_root sample_cfg sample_ps (sample_options true false) [] = Ret ([] ++ evs, err) /\
    forall d q w, MadeTemp d q (inl w) ∈ evs -> cleaned sample_root (str "main") w evs err.
Proof.
  split; [discriminate|].
  destruct (sync_worktree_removed sample_oracle id id sample_fields sample_root sample_cfg wf_sample_root sample_temp sample_ps (sample_options true false) [])
    as (evs & err & E1 & _ & H); [discriminate|].
  exists evs, err. split; [exact E1|]. intros d q w Hin. destruct (H d q w Hin) as [[Hc _]|[Hp _]]; [exact Hc|discriminate Hp].
Defined.
