(* ===== verification/SyncPR.v ===== *)
(** * Pull requests for synchronized branches ([misc/cmd/kido/sync_pr.go])

    As in SyncBranch, the commands run are the events of a trace.  The clock is
    read from the trace ([clock]), [parsePRs] and [parseLabels] are
    [json.Unmarshal] at the two types the code decodes, [show] is the [%v] verb
    of the three metadata fields and [lookup] and [grow] are the parameters of
    timestamps and slices. *)
From S2P Require Import Prelude Core GoFilepath GoSlice GoTime Timex PathTypes Cmdx Config SyncBranch.
#[local] Open Scope Z_scope.

Record RunSyncPROptions := MkRunSyncPROptions { prBase : option gostring }.
Record ListOpenPRsData := MkListOpenPRsData { prNumber : Z; prURL : gostring }.
Definition mergebotSubtreeDirTrailer : gostring := str "mergebot-subtree-dir".
Definition mergebotLocalCommitTrailer : gostring := str "mergebot-local-commit".
Definition mergebotUpstreamCommitTrailer : gostring := str "mergebot-upstream-commit".
Record parsedSubtreeMetadata := MkParsedSubtreeMetadata {
  pDir : option RelPath; pLocalCommit : option gostring; pUpstreamCommit : option gostring }.
Record subtreeMetadata := MkSubtreeMetadata { sDir : RelPath; sLocalCommit : gostring; sUpstreamCommit : gostring }.

Definition formatPRBody (upstreamCommit : gostring) : gostring := str "Pull in changes from upstream commit " ++ upstreamCommit.
Definition formatMergeBody (m : subtreeMetadata) : gostring :=
  strings_Join
    [str "Pull in changes from upstream commit " ++ sUpstreamCommit m;
     [];
     mergebotSubtreeDirTrailer ++ str ": " ++ RelPath_String (sDir m);
     mergebotLocalCommitTrailer ++ str ": " ++ sLocalCommit m;
     mergebotUpstreamCommitTrailer ++ str ": " ++ sUpstreamCommit m] [10].

Section pr.
Context {E : Type} (o : oracle (E := E)) (TrimSpace quote : gostring -> gostring) (Fields : gostring -> list gostring).
Context (parsePRs : gostring -> list ListOpenPRsData + E) (parseLabels : gostring -> list gostring + E).
Context (show : parsedSubtreeMetadata -> gostring).
Context (clock : list (event (E := E)) -> Timestamp) (grow : nat -> nat) (lookup : positive -> Z -> Z).
#[local] Notation prog := (Cmdx.prog (E := E)).
#[local] Notation serror := (SyncBranch.serror (E := E)).

Definition validate (p : parsedSubtreeMetadata) : subtreeMetadata + serror :=
  match pDir p, pLocalCommit p, pUpstreamCommit p with
  | Some dir, Some loc, Some upstream => inl (MkSubtreeMetadata dir loc upstream)
  | _, _, _ => inr (Newf (str "incomplete subtree metadata: " ++ show p))
  end.

Definition prTitleDatePattern (h : Timex.store) : Timex.store * Pattern :=
  let '(h, p) := Pattern_Year grow h NewPattern in
  let '(h, p) := Fixed grow h p (str "-") in
  let '(h, p) := Pattern_Month grow h p in
  let '(h, p) := Fixed grow h p (str "-") in
  Pattern_Day grow h p.

Definition GetTimestamp : prog Timestamp := fun tr => Ret (tr, clock tr).

Definition listOpenPRs (repoRoot : AbsPath) (base head : gostring) : prog (list ListOpenPRsData + serror) :=
  cmd ← cmd_in [str "gh"; str "pr"; str "list"; str "--state"; str "open"; str "--base"; base; str "--head"; head;
                str "--json"; str "number,url"] repoRoot;
  '(output, err) ← Run o cmd (WithCaptureStdout RunOptionsDefault);
  match err with
  | Some e => mret (inr (Leaf e))
  | None =>
      match parsePRs (Stdout output) with
      | inr e => mret (inr (Wrapped (str "parse gh pr list output: " ++ Stdout output) (Leaf e)))
      | inl prs => mret (inl prs)
      end
  end.

Definition findOpenPR (repoRoot : AbsPath) (base head : gostring) : prog (option Z + serror) :=
  r ← listOpenPRs repoRoot base head;
  match r with
  | inr e => mret (inr e)
  | inl prs =>
      if zlen prs =? 0 then mret (inl None)
      else if zlen prs =? 1 then pr ← lift (index prs 0); mret (inl (Some (prNumber pr)))
      else mret (inr (Newf (str "found " ++ Itoa (zlen prs) ++ str " open PRs for branch " ++ quote head ++ str " into " ++ quote base)))
  end.

Definition subtreeMetadataForSyncHead (repoRoot : AbsPath) (project : RelPath) (headSHA : gostring) : prog (subtreeMetadata + serror) :=
  _ ← lift (Precondition (negb (bool_decide (headSHA = []))));
  cmd ← cmd_in (git [str "show"; str "--no-patch"; str "--format=%P"; headSHA]) repoRoot;
  '(output, err) ← Run o cmd (WithCaptureStdout RunOptionsDefault);
  match err with
  | Some e => mret (inr (Leaf e))
  | None =>
      let parentSHAs := Fields (TrimSpace (Stdout output)) in
      if negb (zlen parentSHAs =? 2) then
        mret (inr (Newf (str "expected sync head " ++ quote headSHA ++ str " for " ++ quote (RelPath_String project)
                         ++ str " to be a 2-parent merge commit, got " ++ Itoa (zlen parentSHAs) ++ str " parent(s)")))
      else
        loc ← lift (index parentSHAs 0); upstream ← lift (index parentSHAs 1);
        mret (validate (MkParsedSubtreeMetadata (Some project) (Some loc) (Some upstream)))
  end.

Definition ensureLabelExists (repoRoot : AbsPath) (name color description : gostring) : prog (option serror) :=
  _ ← lift (Precondition (negb (bool_decide (name = []))));
  _ ← lift (Precondition (negb (bool_decide (color = []))));
  _ ← lift (Precondition (negb (bool_decide (description = []))));
  listCmd ← cmd_in [str "gh"; str "label"; str "list"; str "--search"; name; str "--json"; str "name"; str "--limit"; str "100"] repoRoot;
  '(output, err) ← Run o listCmd (WithCaptureStdout RunOptionsDefault);
  match err with
  | Some e => mret (Some (Leaf e))
  | None =>
      let out := TrimSpace (Stdout output) in
      match (if negb (bool_decide (out = [])) then parseLabels out else inl []) with
      | inr e => mret (Some (Wrapped (str "parse gh label list output: " ++ out) (Leaf e)))
      | inl labels =>
          if existsb (fun label => bool_decide (label = name)) labels then mret None
          else
            createCmd ← cmd_in [str "gh"; str "label"; str "create"; name; str "--color"; color; str "--description"; description] repoRoot;
            '(_, err) ← Run o createCmd RunOptionsDefault;
            mret (Leaf <$> err)
      end
  end.

(** The closure [ensureSyncLabels]. *)
Definition ensureSyncLabels (repoRoot : AbsPath) (projectLabel : gostring) : prog (option serror) :=
  err ← ensureLabelExists repoRoot projectLabel (str "1d76db") (str "Project-specific sync updates");
  match err with
  | Some e => mret (Some e)
  | None => ensureLabelExists repoRoot (str "upstream-sync") (str "6e7781") (str "Automated upstream sync updates")
  end.

(** The pull request to merge: the open one, edited, or else a new one. *)
Definition edit_or_create (repoRoot : AbsPath) (base syncBranch projectLabel title body : gostring) (existingPR : option Z)
    : prog (Z + serror) :=
  match existingPR with
  | Some existing =>
      editPRCmd ← cmd_in [str "gh"; str "pr"; str "edit"; Itoa existing; str "--title"; title; str "--body"; body;
                          str "--add-label"; projectLabel; str "--add-label"; str "upstream-sync"] repoRoot;
      '(_, err) ← Run o editPRCmd RunOptionsDefault;
      match err with Some e => mret (inr (Leaf e)) | None => mret (inl existing) end
  | None =>
      createPRCmd ← cmd_in [str "gh"; str "pr"; str "create"; str "--base"; base; str "--head"; syncBranch;
                            str "--title"; title; str "--body"; body; str "--label"; projectLabel; str "--label"; str "upstream-sync"] repoRoot;
      '(_, err) ← Run o createPRCmd RunOptionsDefault;
      match err with
      | Some e => mret (inr (Leaf e))
      | None =>
          created ← findOpenPR repoRoot base syncBranch;
          match created with
          | inr e => mret (inr e)
          | inl None => mret (inr (Newf (str "expected 1 open PR for branch " ++ quote syncBranch ++ str " after creation, got 0")))
          | inl (Some newPR) => mret (inl newPR)
          end
      end
  end.

Definition runSyncPRProject (repoRoot : AbsPath) (project : RelPath) (base : gostring) : prog (option serror) :=
  let syncBranch := syncBranchPrefix ++ RelPath_String project in
  fetchCmd ← cmd_in (git [str "fetch"; str "origin"; syncBranch]) repoRoot;
  '(_, err) ← Run o fetchCmd RunOptionsDefault;
  match err with
  | Some e => mret (Some (Leaf e))
  | None =>
  diffCmd ← cmd_in (git [str "diff"; str "--quiet"; str "origin/" ++ base ++ str "...origin/" ++ syncBranch]) repoRoot;
  '(_, err) ← Run o diffCmd RunOptionsDefault;
  match err with
  | None => mret None
  | Some _ =>
  headSHACmd ← cmd_in (git [str "rev-parse"; str "origin/" ++ syncBranch]) repoRoot;
  '(headSHAOutput, err) ← Run o headSHACmd (WithCaptureStdout RunOptionsDefault);
  match err with
  | Some e => mret (Some (Leaf e))
  | None =>
  let headSHA := TrimSpace (Stdout headSHAOutput) in
  metadata ← subtreeMetadataForSyncHead repoRoot project headSHA;
  match metadata with
  | inr e => mret (Some e)
  | inl metadata =>
  existingPR ← findOpenPR repoRoot base syncBranch;
  match existingPR with
  | inr e => mret (Some e)
  | inl existingPR =>
  let projectLabel := str "project/" ++ RelPath_String project in
  err ← ensureSyncLabels repoRoot projectLabel;
  match err with
  | Some e => mret (Some e)
  | None =>
  timestamp ← GetTimestamp;
  let '(h, pattern) := prTitleDatePattern ∅ in
  date ← lift (Format lookup h timestamp pattern);
  let title := str "chore(" ++ RelPath_String project ++ str "): Sync changes from upstream (" ++ date ++ str ")" in
  let body := formatPRBody (sUpstreamCommit metadata) in
  r ← edit_or_create repoRoot base syncBranch projectLabel title body existingPR;
  match r with
  | inr e => mret (Some e)
  | inl prNumber =>
      let mergeBody := formatMergeBody metadata in
      mergePRCmd ← cmd_in [str "gh"; str "pr"; str "merge"; Itoa prNumber; str "--auto"; str "--merge";
                           str "--subject"; title; str "--body"; mergeBody; str "--match-head-commit"; headSHA] repoRoot;
      '(_, err) ← Run o mergePRCmd RunOptionsDefault;
      mret (Leaf <$> err)
  end end end end end end end.

Definition runSyncPR (root : AbsPath) (projects : list RelPath) (options : RunSyncPROptions) : prog (option serror) :=
  _ ← lift (Precondition (0 <? zlen projects));
  let base := default (str "main") (prBase options) in
  run_each (fun project => runSyncPRProject root project base) projects.
End pr.

(** ** The contract *)

(** A date as the title shows it. *)
Definition pr_date (lookup : positive -> Z -> Z) (t : Timestamp) : gostring :=
  writePaddedInt [] (Year lookup (tvalue t)) 4 ++ str "-" ++
  writePaddedInt [] (Month lookup (tvalue t)) 2 ++ str "-" ++ writePaddedInt [] (Day lookup (tvalue t)) 2.

Lemma writePaddedInt_app b v w : writePaddedInt b v w = b ++ writePaddedInt [] v w.
Proof. unfold writePaddedInt. destruct (v <? 0); cbn [app]; by rewrite <- ?app_assoc. Qed.

Lemma prTitleDatePattern_Format grow lookup t h p :
  prTitleDatePattern grow ∅ = (h, p) -> Format lookup h t p = Ret (pr_date lookup t).
Proof.
  unfold prTitleDatePattern. destruct (Pattern_Year grow ∅ NewPattern) as [h1 p1] eqn:E1.
  destruct (Fixed grow h1 p1 _) as [h2 p2] eqn:E2. destruct (Pattern_Month grow h2 p2) as [h3 p3] eqn:E3.
  destruct (Fixed grow h3 p3 _) as [h4 p4] eqn:E4. intros E5.
  pose proof (wf_nil (∅ : Timex.store)) as H0.
  destruct (append_elems zeroSpec grow _ _ _ _ _ H0 E1) as [H1 _]. destruct (append_elems zeroSpec grow _ _ _ _ _ H1 E2) as [H2 _].
  destruct (append_elems zeroSpec grow _ _ _ _ _ H2 E3) as [H3 _]. destruct (append_elems zeroSpec grow _ _ _ _ _ H3 E4) as [H4 _].
  rewrite (Format_append grow lookup _ _ _ _ _ t H4 E5), (Format_append grow lookup _ _ _ _ _ t H3 E4),
    (Format_append grow lookup _ _ _ _ _ t H2 E3), (Format_append grow lookup _ _ _ _ _ t H1 E2), (Format_append grow lookup _ _ _ _ _ t H0 E1).
  change (Format lookup ∅ t nil_slice) with (@Ret gostring []). unfold format_spec; cbn [skind stext]. rewrite !bind_ret. unfold pr_date. f_equal.
  rewrite (writePaddedInt_app (_ ++ _) _ 2), (writePaddedInt_app (writePaddedInt [] _ 4 ++ _) _ 2). by rewrite <- !app_assoc.
Qed.

Section contract.
Context {E : Type} (o : oracle (E := E)) (TrimSpace quote : gostring -> gostring) (Fields : gostring -> list gostring).
Context (parsePRs : gostring -> list ListOpenPRsData + E) (parseLabels : gostring -> list gostring + E).
Context (show : parsedSubtreeMetadata -> gostring).
Context (clock : list (event (E := E)) -> Timestamp) (grow : nat -> nat) (lookup : positive -> Z -> Z).
Context (root : AbsPath).
#[local] Notation ev := (event (E := E)).
#[local] Notation serror := (SyncBranch.serror (E := E)).
#[local] Notation captured := (WithCaptureStdout RunOptionsDefault).

Definition gh_in (args : list gostring) : Cmd := MkCmd (str "gh") args (Some root).
Definition revparse_cmd (b : gostring) : Cmd := git_in root [str "rev-parse"; str "origin/" ++ b].
Definition parents_cmd (sha : gostring) : Cmd := git_in root [str "show"; str "--no-patch"; str "--format=%P"; sha].
Definition pr_list_cmd (base b : gostring) : Cmd :=
  gh_in [str "pr"; str "list"; str "--state"; str "open"; str "--base"; base; str "--head"; b; str "--json"; str "number,url"].
Definition label_list_cmd (name : gostring) : Cmd :=
  gh_in [str "label"; str "list"; str "--search"; name; str "--json"; str "name"; str "--limit"; str "100"].
Definition label_create_cmd (name color description : gostring) : Cmd :=
  gh_in [str "label"; str "create"; name; str "--color"; color; str "--description"; description].
Definition edit_cmd (n : Z) (title body label : gostring) : Cmd :=
  gh_in [str "pr"; str "edit"; Itoa n; str "--title"; title; str "--body"; body; str "--add-label"; label; str "--add-label"; str "upstream-sync"].
Definition create_cmd (base b title body label : gostring) : Cmd :=
  gh_in [str "pr"; str "create"; str "--base"; base; str "--head"; b; str "--title"; title; str "--body"; body;
         str "--label"; label; str "--label"; str "upstream-sync"].
Definition merge_cmd (n : Z) (title body sha : gostring) : Cmd :=
  gh_in [str "pr"; str "merge"; Itoa n; str "--auto"; str "--merge"; str "--subject"; title; str "--body"; body;
         str "--match-head-commit"; sha].
Definition is_merge (e : ev) : Prop :=
  match e with Ran c _ _ _ => take 2 (cargs c) = [str "pr"; str "merge"] | _ => False end.
Definition other (e : ev) : Prop := ~ is_merge e.

(** The label exists, or was created. *)
Definition label_steps (name color description : gostring) (evs : list ev) : Prop :=
  exists out labels, (if bool_decide (TrimSpace (Stdout out) = []) then labels = [] else parseLabels (TrimSpace (Stdout out)) = inl labels) /\
    (name ∈ labels /\ evs = [Ran (label_list_cmd name) captured out None] \/
     name ∉ labels /\ exists out', evs = [Ran (label_list_cmd name) captured out None; Ran (label_create_cmd name color description) RunOptionsDefault out' None]).
Definition labels_steps (label : gostring) (evs : list ev) : Prop :=
  exists evs1 evs2, evs = evs1 ++ evs2 /\
    label_steps label (str "1d76db") (str "Project-specific sync updates") evs1 /\
    label_steps (str "upstream-sync") (str "6e7781") (str "Automated upstream sync updates") evs2.

(** [n] is the open pull request that [out] lists, if any. *)
Definition lists_pr (out : RunOutput) (n : option Z) : Prop :=
  exists prs, parsePRs (Stdout out) = inl prs /\
    match n with None => prs = [] | Some n => exists pr, prs = [pr] /\ n = prNumber pr end.

(** The pull request [n] is the listed one, edited, or a new one. *)
Definition chosen_steps (base b label title body : gostring) (existing : option Z) (n : Z) (evs : list ev) : Prop :=
  match existing with
  | Some n' => n = n' /\ exists out, evs = [Ran (edit_cmd n title body label) RunOptionsDefault out None]
  | None => exists out out', evs = [Ran (create_cmd base b title body label) RunOptionsDefault out None;
                                    Ran (pr_list_cmd base b) captured out' None] /\ lists_pr out' (Some n)
  end.

Definition fetch_cmd (b : gostring) : Cmd := git_in root [str "fetch"; str "origin"; b].
Definition diff_cmd (base b : gostring) : Cmd := git_in root [str "diff"; str "--quiet"; str "origin/" ++ base ++ str "...origin/" ++ b].

(** Merging the pull request of [p]: its branch was fetched, and [git diff --quiet] did not say
    that it changes nothing; the merge is at the head that was then read, whose two parents are the
    local and the upstream commit recorded in the message, labelled and titled with a date of the
    clock. *)
Definition merge_steps (base : gostring) (p : RelPath) (err : option E) (evs : list ev) : Prop :=
  let b := syncBranchPrefix ++ RelPath_String p in
  let label := str "project/" ++ RelPath_String p in
  exists of_ od ed oh os ol om loc up existing n labels chosen tr,
    let sha := TrimSpace (Stdout oh) in
    let title := str "chore(" ++ RelPath_String p ++ str "): Sync changes from upstream (" ++ pr_date lookup (clock tr) ++ str ")" in
    sha <> [] /\ Fields (TrimSpace (Stdout os)) = [loc; up] /\ lists_pr ol existing /\ labels_steps label labels /\
    chosen_steps base b label title (formatPRBody up) existing n chosen /\
    evs = [Ran (fetch_cmd b) RunOptionsDefault of_ None; Ran (diff_cmd base b) RunOptionsDefault od (Some ed);
           Ran (revparse_cmd b) captured oh None; Ran (parents_cmd sha) captured os None; Ran (pr_list_cmd base b) captured ol None]
          ++ labels ++ chosen ++ [Ran (merge_cmd n title (formatMergeBody (MkSubtreeMetadata p loc up)) sha) RunOptionsDefault om err].

(** What one project emits: nothing to do, a merge, or an error before any merge. *)
Definition pr_trace (base : gostring) (p : RelPath) (evs : list ev) (err : option serror) : Prop :=
  let b := syncBranchPrefix ++ RelPath_String p in
  Forall other evs /\ is_Some err \/
  (exists o1 o2, err = None /\
     evs = [Ran (fetch_cmd b) RunOptionsDefault o1 None; Ran (diff_cmd base b) RunOptionsDefault o2 None]) \/
  exists e, merge_steps base p e evs /\ err = Leaf <$> e.

Lemma other_Ran name x y args dir opts out err :
  [x; y] <> [str "pr"; str "merge"] -> other (Ran (MkCmd name (x :: y :: args) dir) opts out err).
Proof. intros H Hm. by apply H. Qed.

#[local] Ltac others :=
  repeat first [ assumption | apply Forall_app_2 | apply List.Forall_nil | apply List.Forall_cons | (apply other_Ran; by vm_compute) ].

Lemma listOpenPRs_emits base b :
  emits (listOpenPRs o parsePRs root base b) (fun evs r => exists out err, evs = [Ran (pr_list_cmd base b) captured out err] /\
    forall prs, r = inl prs -> err = None /\ parsePRs (Stdout out) = inl prs).
Proof.
  unfold listOpenPRs. apply emits_cmd_run. intros out [e|]; [by apply emits_ret; eexists _, _|].
  destruct (parsePRs (Stdout out)) as [prs|e] eqn:Hp; apply emits_ret; eexists _, _; (split; [done|]); [|done].
  intros prs' [= <-]. done.
Qed.

Lemma findOpenPR_emits base b :
  emits (findOpenPR o quote parsePRs root base b) (fun evs r => exists out err, evs = [Ran (pr_list_cmd base b) captured out err] /\
    forall n, r = inl n -> err = None /\ lists_pr out n).
Proof.
  unfold findOpenPR. eapply emits_bind; [apply listOpenPRs_emits|]. intros evs [prs|e] (out & err & -> & Hr).
  2: { apply emits_ret. eexists _, _. split; [by rewrite app_nil_r|done]. }
  destruct (Hr prs eq_refl) as [-> Hp].
  destruct prs as [|pr [|pr' prs]]; cbn [zlen length].
  - apply emits_ret. eexists _, _. split; [by rewrite app_nil_r|]. intros n [= <-]. split; [done|]. by exists [].
  - eapply emits_bind; [by apply (emits_lift _ pr (fun evs x => evs = [] /\ x = pr))|]. intros ? ? [-> ->].
    apply emits_ret. eexists _, _. split; [done|]. intros n [= <-]. split; [done|]. exists [pr]. split; [done|]. by exists pr.
  - replace (zlen (pr :: pr' :: prs) =? 0) with false by (symmetry; apply Z.eqb_neq; rewrite !zlen_cons; pose proof (zlen_nonneg prs); lia).
    replace (zlen (pr :: pr' :: prs) =? 1) with false by (symmetry; apply Z.eqb_neq; rewrite !zlen_cons; pose proof (zlen_nonneg prs); lia).
    apply emits_ret. eexists _, _. split; [by rewrite app_nil_r|done].
Qed.

Lemma metadata_emits p sha : sha <> [] ->
  emits (subtreeMetadataForSyncHead o TrimSpace quote Fields show root p sha) (fun evs r => exists out err, evs = [Ran (parents_cmd sha) captured out err] /\
    forall m, r = inl m -> err = None /\ exists loc up, Fields (TrimSpace (Stdout out)) = [loc; up] /\ m = MkSubtreeMetadata p loc up).
Proof.
  intros Hsha. unfold subtreeMetadataForSyncHead. rewrite (bool_decide_eq_false_2 _ Hsha). cbn [negb Precondition].
  eapply emits_bind; [by apply (emits_lift _ tt (fun evs _ => evs = []))|]. intros ? _ ->.
  apply emits_cmd_run. intros out [e|]; [by apply emits_ret; eexists _, _|]. cbv zeta.
  destruct (Fields (TrimSpace (Stdout out))) as [|loc [|up [|x l]]] eqn:Hf; cbn [negb];
    try (apply emits_ret; eexists _, _; split; [done|done]).
  - eapply emits_bind; [by apply (emits_lift _ loc (fun evs x => evs = [] /\ x = loc))|]. intros ? ? [-> ->].
    eapply emits_bind; [by apply (emits_lift _ up (fun evs x => evs = [] /\ x = up))|]. intros ? ? [-> ->].
    apply emits_ret. eexists _, _. split; [done|]. intros m [= <-]. split; [done|]. by exists loc, up.
  - replace (zlen (loc :: up :: x :: l) =? 2) with false by (symmetry; apply Z.eqb_neq; rewrite !zlen_cons; pose proof (zlen_nonneg l); lia).
    apply emits_ret. eexists _, _. split; [done|done].
Qed.

Lemma ensureLabelExists_emits name color description : name <> [] -> color <> [] -> description <> [] ->
  emits (ensureLabelExists o TrimSpace parseLabels root name color description)
    (fun evs err => Forall other evs /\ (err = None -> label_steps name color description evs)).
Proof.
  intros H1 H2 H3. unfold ensureLabelExists. rewrite (bool_decide_eq_false_2 _ H1), (bool_decide_eq_false_2 _ H2), (bool_decide_eq_false_2 _ H3).
  cbn [negb Precondition]. do 3 (eapply emits_bind; [by apply (emits_lift _ tt (fun evs _ => evs = []))|]; intros ? _ ->).
  apply emits_cmd_run. intros out [e|]; [apply emits_ret; split; [others|done]|]. cbv zeta.
  destruct (if negb (bool_decide (TrimSpace (Stdout out) = [])) then parseLabels (TrimSpace (Stdout out)) else inl []) as [labels|e] eqn:Hl;
    [|apply emits_ret; split; [others|done]].
  assert (if bool_decide (TrimSpace (Stdout out) = []) then labels = [] else parseLabels (TrimSpace (Stdout out)) = inl labels) as Hl'.
  { destruct (bool_decide _); cbn [negb] in Hl; [by injection Hl|done]. }
  destruct (existsb _ labels) eqn:Hin.
  - apply existsb_exists in Hin as (x & Hx & Heq). apply bool_decide_eq_true in Heq as ->.
    apply emits_ret. split; [others|]. intros _. exists out, labels. split; [done|]. left. split; [by apply list_elem_of_In|done].
  - apply emits_cmd_run. intros out' err'. apply emits_ret. split; [others|]. intros Herr. destruct err'; [done|].
    exists out, labels. split; [done|]. right. split; [|by exists out'].
    intros Hx. apply list_elem_of_In in Hx. assert (existsb (fun label => bool_decide (label = name)) labels = true) as Ht; [|congruence].
    apply existsb_exists. exists name. split; [done|]. by apply bool_decide_eq_true.
Qed.

Lemma ensureSyncLabels_emits label : label <> [] ->
  emits (ensureSyncLabels o TrimSpace parseLabels root label) (fun evs err => Forall other evs /\ (err = None -> labels_steps label evs)).
Proof.
  intros Hl. unfold ensureSyncLabels. eapply emits_bind; [by apply ensureLabelExists_emits|]. intros evs1 [e1|] [H1 Hs1].
  - apply emits_ret. split; [by rewrite app_nil_r|done].
  - eapply emits_mono; [by apply ensureLabelExists_emits|]. intros evs2 err [H2 Hs2]. split; [others|]. intros ->.
    exists evs1, evs2. auto.
Qed.

Lemma edit_or_create_emits base b label title body existing :
  emits (edit_or_create o quote parsePRs root base b label title body existing)
    (fun evs r => Forall other evs /\ forall n, r = inl n -> chosen_steps base b label title body existing n evs).
Proof.
  unfold edit_or_create. destruct existing as [n'|].
  - apply emits_cmd_run. intros out [e|]; apply emits_ret; (split; [others|]); [done|]. intros n [= <-]. split; [done|]. by exists out.
  - apply emits_cmd_run. intros out [e|]; [apply emits_ret; split; [others|done]|].
    eapply emits_bind; [apply findOpenPR_emits|]. intros evs [[n|]|e] (out' & err' & -> & Hr);
      apply emits_ret; (split; [others|]); [|done..]. intros n' [= <-]. destruct (Hr _ eq_refl) as [-> Hp]. by exists out, out'.
Qed.

(** [git rev-parse] prints what it resolved when it succeeds. *)
Context (Hrevparse : forall tr c opts out, o_run o tr c opts = (out, None) -> head (cargs c) = Some (str "rev-parse") -> TrimSpace (Stdout out) <> []).

Lemma runSyncPRProject_emits base p :
  emits (runSyncPRProject o TrimSpace quote Fields parsePRs parseLabels show clock grow lookup root p base) (pr_trace base p).
Proof.
  unfold runSyncPRProject. cbv zeta. set (b := syncBranchPrefix ++ RelPath_String p). set (label := str "project/" ++ RelPath_String p).
  apply emits_cmd_run. intros o1 [e1|]; [apply emits_ret; left; split; [others|done]|].
  apply emits_cmd_run. intros o2 [e2|]; [|apply emits_ret; right; left; by exists o1, o2].
  eapply emits_bind; [by apply (emits_cmd_in _ _ _ (fun evs c => evs = [] /\ c = revparse_cmd b))|]. intros ? ? [-> ->].
  eapply emits_bind.
  { apply (emits_Run_oracle _ _ _ (fun evs r => evs = [Ran (revparse_cmd b) captured r.1 r.2] /\ (r.2 = None -> TrimSpace (Stdout r.1) <> []))).
    intros tr out err Ho. split; [done|]. cbn [fst snd]. intros ->. by apply (Hrevparse _ _ _ _ Ho). }
  intros ? [oh [e3|]] [-> Hsha]; cbn [fst snd] in *; [apply emits_ret; left; split; [others|done]|]. specialize (Hsha eq_refl).
  eapply emits_bind; [by apply metadata_emits|]. intros ? [m|e4] (os & e4' & -> & Hm); [|apply emits_ret; left; split; [others|done]].
  destruct (Hm m eq_refl) as (-> & loc & up & Hf & ->).
  eapply emits_bind; [apply findOpenPR_emits|]. intros ? [existing|e5] (ol & e5' & -> & Hol); [|apply emits_ret; left; split; [others|done]].
  destruct (Hol existing eq_refl) as [-> Hex].
  eapply emits_bind; [by apply ensureSyncLabels_emits|]. intros labels [e6|] [Hno6 Hlab]; [apply emits_ret; left; split; [others|done]|].
  eapply (emits_bind _ _ (fun evs t => evs = [] /\ exists tr, t = clock tr)); [intros tr; exists [], (clock tr); rewrite app_nil_r; eauto|].
  intros ? t [-> [tr ->]]. destruct (prTitleDatePattern grow ∅) as [h pat] eqn:Hpat. rewrite (prTitleDatePattern_Format grow lookup _ h pat Hpat).
  eapply emits_bind; [by apply (emits_lift _ (pr_date lookup (clock tr)) (fun evs d => evs = [] /\ d = pr_date lookup (clock tr)))|].
  intros ? ? [-> ->]. cbn [sUpstreamCommit app].
  eapply emits_bind; [apply edit_or_create_emits|]. intros chosen [n|e7] [Hno7 Hch]; [|apply emits_ret; left; split; [others|done]].
  apply emits_cmd_run. intros om err. apply emits_ret. right. right.
  exists err. split; [|done]. exists o1, o2, e2, oh, os, ol, om, loc, up, existing, n, labels, chosen, tr.
  cbv zeta. split_and!; [done..|by apply Hlab|by apply Hch|]. cbn [app]. by rewrite <- ?app_assoc.
Qed.

Lemma label_steps_other name color description evs : label_steps name color description evs -> Forall other evs.
Proof. intros (out & labels & _ & [[_ ->]|(_ & out' & ->)]); others. Qed.

Lemma merge_steps_end base p err evs : merge_steps base p err evs -> each_ends is_merge (fun s => exists err, merge_steps base p err s) evs.
Proof.
  intros H. assert (exists pre e, evs = pre ++ [e] /\ Forall other pre) as (pre & e & -> & Hpre).
  { destruct H as (of_ & od & ed & oh & os & ol & om & loc & up & existing & n & labels & chosen & tr & _ & _ & _ & (l1 & l2 & -> & H1 & H2) & Hch & ->).
    eexists _, _. split; [rewrite (app_assoc (l1 ++ l2)), app_assoc; reflexivity|].
    apply label_steps_other in H1, H2. assert (Forall other chosen) as Hc; [|others].
    destruct existing; [destruct Hch as (_ & out & ->)|destruct Hch as (out & out' & -> & _)]; others. }
  apply each_ends_last; [exact Hpre|by exists err].
Qed.

Lemma pr_trace_ends base p evs err : pr_trace base p evs err -> each_ends is_merge (fun s => exists err, merge_steps base p err s) evs.
Proof.
  intros [[H _]|[(o1 & o2 & _ & ->)|(e & Hs & _)]].
  - by apply each_ends_none.
  - apply each_ends_none. others.
  - by eapply merge_steps_end.
Qed.

Lemma runSyncPR_emits ps options : ps <> [] ->
  emits (runSyncPR o TrimSpace quote Fields parsePRs parseLabels show clock grow lookup root ps options) (each_trace (pr_trace (default (str "main") (prBase options))) ps).
Proof.
  intros Hps. unfold runSyncPR. rewrite (proj2 (Z.ltb_lt 0 (zlen ps))) by (by destruct ps). cbn [Precondition].
  eapply emits_bind; [by apply (emits_lift _ tt (fun evs _ => evs = []))|]. intros ? _ ->.
  apply run_each_emits. intros p _. apply runSyncPRProject_emits.
Qed.

(** C32: [kido sync-pr] merges only what it has checked.  Whatever the commands answer, a run
    over a non-empty list of projects returns.  Every [gh pr merge] it runs is for one of the
    projects and ends a run of exactly these steps: the sync branch was fetched; the
    [git diff --quiet] against the base failed, which is how it reports a difference; the merge is
    pinned to the head commit then read, whose two parents are the local and upstream commits the
    merge message records; and it merges the only open pull request of the sync branch -- the one
    listed, edited, or else a new one -- after its labels were found or created.  And a run without
    an error has, for every project, either seen that the sync branch changes nothing or merged it. *)
Theorem sync_pr_merges_checked ps options tr (Hps : ps <> []) :
  let base := default (str "main") (prBase options) in
  exists evs err, runSyncPR o TrimSpace quote Fields parsePRs parseLabels show clock grow lookup root ps options tr = Ret (tr ++ evs, err) /\
    (forall pre e post, evs = pre ++ e :: post -> is_merge e -> exists p err' pre' steps,
      p ∈ ps /\ pre ++ [e] = pre' ++ steps /\ merge_steps base p err' steps) /\
    (err = None -> forall p, p ∈ ps -> exists a steps b, evs = a ++ steps ++ b /\
      ((exists out out', steps = [Ran (fetch_cmd (syncBranchPrefix ++ RelPath_String p)) RunOptionsDefault out None;
                                  Ran (diff_cmd base (syncBranchPrefix ++ RelPath_String p)) RunOptionsDefault out' None])
       \/ merge_steps base p None steps)).
Proof.
  intros base. destruct (runSyncPR_emits ps options Hps tr) as (evs & err & E1 & H). exists evs, err. split; [done|]. split.
  - intros pre e post E2 He. destruct (each_trace_ends _ is_merge _ _ _ _ (fun p evs err => pr_trace_ends base p evs err) H pre e post E2 He)
      as (pre' & steps & E3 & p & Hp & err' & Hs). by exists p, err', pre', steps.
  - intros -> p Hp. destruct (each_trace_all _ _ _ _ H Hp) as (a & mid & b & -> & Hmid).
    destruct Hmid as [[_ [? ?]]|[(o1 & o2 & _ & ->)|(e & Hs & He)]]; [done| |].
    + eexists a, _, b. split; [reflexivity|]. left. by exists o1, o2.
    + destruct e; [done|]. exists a, mid, b. split; [done|by right].
Qed.
End contract.

(** ** A concrete run *)
Definition pr_oracle : oracle (E := unit) :=
  {| o_run := fun _ c _ =>
       if bool_decide (head (cargs c) = Some (str "diff")) then (MkRunOutput [] [], Some tt)
       else (MkRunOutput (if bool_decide (head (cargs c) = Some (str "show")) then str "0a1b 2c3d" else str "9f") [], None);
     o_mkdirall := fun _ _ _ => None;
     o_mkdirtemp := fun _ _ _ => inr tt;
     o_removeall := fun _ _ => None;
     o_stat := fun _ _ _ => None;
     o_now := fun _ => Timex.NewInstant (GoTime.MkTime 0 0 None) |}.
Definition pr_clock : list (event (E := unit)) -> Timestamp := fun _ => MkTimestamp (MkTime 0 63902822400 None).
Definition sample_parsePRs : gostring -> list ListOpenPRsData + unit := fun _ => inl [MkListOpenPRsData 7 []].

Lemma pr_revparse : forall tr c opts out, o_run pr_oracle tr c opts = (out, None) -> head (cargs c) = Some (str "rev-parse") -> id (Stdout out) <> [].
Proof.
  intros tr c opts out H Hc. cbn [o_run pr_oracle] in H. rewrite Hc in H.
  rewrite bool_decide_eq_false_2 in H by (by vm_compute). injection H as <-. vm_compute. discriminate.
Qed.

Lemma sync_pr_merges_checked_witness :
  sample_ps <> [] /\
  exists evs err, runSyncPR pr_oracle id id sample_fields sample_parsePRs (fun _ => inl []) (fun _ => []) pr_clock (fun n => n) (fun _ _ => 0) sample_root sample_ps (MkRunSyncPROptions None) [] = Ret ([] ++ evs, err) /\
    (err = None -> forall p, p ∈ sample_ps -> exists a steps b, evs = a ++ steps ++ b /\
      ((exists out out', steps = [Ran (fetch_cmd sample_root (syncBranchPrefix ++ RelPath_String p)) RunOptionsDefault out None;
                                  Ran (diff_cmd sample_root (str "main") (syncBranchPrefix ++ RelPath_String p)) RunOptionsDefault out' None])
       \/ merge_steps id sample_fields sample_parsePRs (fun _ => inl []) pr_clock (fun _ _ => 0) sample_root (str "main") p None steps)).
Proof.
  split; [discriminate|].
  destruct (sync_pr_merges_checked pr_oracle id id sample_fields sample_parsePRs (fun _ => inl []) (fun _ => []) pr_clock (fun n => n) (fun _ _ => 0)
    sample_root pr_revparse sample_ps (MkRunSyncPROptions None) []) as (evs & err & E1 & _ & H); [discriminate|].
  exists evs, err. split; [exact E1|exact H].
Defined.

(** The title of that run carries the date, and the merge the head. *)
Example sample_pr_run :
  match runSyncPR pr_oracle id id sample_fields sample_parsePRs (fun _ => inl []) (fun _ => []) pr_clock (fun n => n) (fun _ _ => 0) sample_root sample_ps (MkRunSyncPROptions None) [] with
  | Ret (evs, None) => match last evs with Some (Ran c _ _ _) => cargs c | _ => [] end
  | _ => []
  end = [str "pr"; str "merge"; str "7"; str "--auto"; str "--merge"; str "--subject"; str "chore(tools): Sync changes from upstream (2026-01-01)";
         str "--body"; formatMergeBody (MkSubtreeMetadata (MkRelPath (str "tools")) (str "0a1b") (str "2c3d"));
         str "--match-head-commit"; str "9f"].
Proof. vm_compute. reflexivity. Qed.
