(* ===== verification/KidoBenchmark.v ===== *)
(** * Benchmarks ([misc/cmd/kido/benchmark.go], the [benchmark] action and [resolveProjects] of [main.go])

    A benchmark is a program over the trace of Cmdx.  A [defer] runs its call
    when the function returns, whatever the result: [defer_].  Logging is not
    modelled.  [GOOS] and [GOARCH] are those of the runtime. *)
From stdpp Require Import sorting.
From S2P Require Import Prelude HashSet MonotoneMap Env Core Iterx GoUtf8 GoFilepath CleanSpec Lexical PathComponents RelSpec PathTypes PathLaws GoCalendar GoTime Durations Timex Fsx Config Cmdx.
#[local] Open Scope Z_scope.

(** ** Names and options *)
Definition BenchmarkName : Type := gostring.
Definition Benchmark_MakeBash : BenchmarkName := str "make.bash".
Definition AllBenchmarks : list BenchmarkName := [Benchmark_MakeBash].
Definition DefaultIters (b : BenchmarkName) : go Z :=
  if bool_decide (b = Benchmark_MakeBash) then Ret 1 else PanicUnknownCase.

Definition VCS : Type := gostring.
Definition JJ : VCS := str "jj".
Definition Git : VCS := str "git".
Record RevSet := MkRevSet { rVCS : VCS; rSpec : gostring }.
Definition NewRevSet (vcs : VCS) (spec : gostring) : go RevSet :=
  _ ← Precondition (negb (bool_decide (spec = [])));
  if bool_decide (vcs = JJ) || bool_decide (vcs = Git) then Ret (MkRevSet vcs spec) else PanicUnknownCase.

Record BenchmarkSetup := MkBenchmarkSetup { sRoot : RelPath; sLabel : gostring }.

Section benchmark.
Context {E : Type} (o : oracle (E := E)) (GOOS GOARCH : gostring) (ToUpper : gostring -> gostring) (root : AbsPath).
#[local] Notation windows := (bool_decide (GOOS = str "windows")).
#[local] Notation ev := (event (E := E)).

Inductive berror := Leaf (e : E) | Newf (msg : gostring).

(** The interface [BenchmarkConfig]; [config_Add] also returns the changed receiver. *)
Class BenchmarkConfig (C : Type) := {
  config_Add : C -> gostring -> gostring -> C * option berror;
  config_Run : C -> RelPath -> RelPath -> prog (E := E) (Z * option berror);
  config_Name : C -> BenchmarkName
}.
Record BenchmarkOptions (C : Type) := MkBenchmarkOptions { Iters : option Z; bConfig : C; Baseline : option RevSet }.

Definition commandOpts : RunOptions := WithCaptureStderr (WithCaptureStdout RunOptionsDefault).
Definition runVCS (name : gostring) (args : list gostring) (dir : AbsPath) : prog (option berror) :=
  cmd ← cmd_in (name :: args) dir; '(_, err) ← Run o cmd commandOpts; mret (Leaf <$> err).
Definition runJJ (dir : AbsPath) (args : list gostring) : prog (option berror) := runVCS (str "jj") args dir.
Definition runGit (dir : AbsPath) (args : list gostring) : prog (option berror) := runVCS (str "git") args dir.

(** [defer d] before [m]: what [d] returns is dropped. *)
Definition defer_ {A B} (d : prog (E := E) B) (m : prog (E := E) A) : prog A := r ← m; _ ← d; mret r.

(** ** [Workspace.Benchmark] *)
Section config.
Context {C : Type} `{!BenchmarkConfig C}.

Definition report (label : gostring) (i : Z) (duration : gostring) : gostring :=
  label ++ str " (iter = " ++ Timex.Itoa i ++ str "): t = " ++ duration ++ [10].
Definition Benchmark_iter (config : C) (setup : BenchmarkSetup) (i : Z) : prog (option berror) :=
  cache ← lift (MustParseRelPath windows (str ".cache"));
  res ← MkdirTemp o cache (str "gocache");
  match res with
  | inr err => mret (Some (Leaf err))
  | inl cacheDir =>
      defer_ (RemoveAll o cacheDir) (
        '(duration, err) ← config_Run config cacheDir (sRoot setup);
        match err with
        | Some err => mret (Some err)
        | None => t ← lift (Duration_String duration); _ ← Print_ (report (sLabel setup) i t); mret None
        end)
  end.
(** [for i := 1; i <= iters; i++], for [iters] below the largest [int]. *)
Definition iterations (iters : Z) : list Z := seqZ 1 iters.
Definition Benchmark_run (options : BenchmarkOptions C) (setups : list BenchmarkSetup) : prog (option berror) :=
  let name := config_Name (bConfig C options) in
  _ ← Print_ (str "Benchmarking " ++ name ++ [10]);
  run_each (fun setup =>
    n ← lift (DefaultIters name);
    let iters := default n (Iters C options) in
    run_each (Benchmark_iter (bConfig C options) setup) (iterations iters)) setups.
Definition Benchmark (options : BenchmarkOptions C) : prog (option berror) :=
  let latest := MkBenchmarkSetup Dot (str "latest") in
  match Baseline C options with
  | None => Benchmark_run options [latest]
  | Some baseline =>
      cache ← lift (MustParseRelPath windows (str ".cache"));
      res ← MkdirTemp o cache (str "benchmark-wt");
      match res with
      | inr err => mret (Some (Leaf err))
      | inl tempDir =>
          let rest := Benchmark_run options [MkBenchmarkSetup tempDir (str "baseline"); latest] in
          defer_ (RemoveAll o tempDir) (
            if bool_decide (rVCS baseline = JJ) then
              err ← runJJ root [str "workspace"; str "add"; str "--revision"; rSpec baseline; str "--name"; str "benchmark-baseline"; RelPath_String tempDir];
              match err with
              | Some err => mret (Some err)
              | None => defer_ (runJJ root [str "workspace"; str "forget"; str "benchmark-baseline"]) rest
              end
            else if bool_decide (rVCS baseline = Git) then
              err ← runGit root [str "worktree"; str "add"; RelPath_String tempDir; rSpec baseline];
              match err with
              | Some err => mret (Some err)
              | None => defer_ (runGit root [str "worktree"; str "remove"; RelPath_String tempDir]) rest
              end
            else rest)
      end
  end.
End config.

(** ** [MakeBashBenchmark] *)
Record MakeBashBenchmark := MkMakeBash { TargetGOOS : gostring; TargetGOARCH : gostring }.
Definition NewBenchmarkConfig (name : BenchmarkName) : go MakeBashBenchmark :=
  if bool_decide (name = Benchmark_MakeBash) then Ret (MkMakeBash GOOS GOARCH) else PanicUnknownCase.

(** [%v] of strings. *)
Definition format_strings (l : list gostring) : gostring :=
  [91] ++ concat (match l with [] => [] | s :: l => s :: map (fun s => 32 :: s) l end) ++ [93].
Definition string_le : relation gostring := fun a b => strings_Compare a b <= 0.
#[export] Instance string_le_dec a b : Decision (string_le a b) := Z_le_dec _ _.

Definition allowedOSes : list gostring := [str "linux"; str "darwin"; str "windows"].
Definition allowedArchs : list gostring := [str "amd64"; str "arm64"].
(** The keys with the values they allow and the field that the pointer points to. *)
Definition allowedKeys : list (gostring * (list gostring * (MakeBashBenchmark -> gostring -> MakeBashBenchmark))) :=
  [(str "TARGET_GOOS", (allowedOSes, fun m v => MkMakeBash v (TargetGOARCH m)));
   (str "TARGET_GOARCH", (allowedArchs, fun m v => MkMakeBash (TargetGOOS m) v))].
Definition MakeBash_Add (m : MakeBashBenchmark) (key value : gostring) : MakeBashBenchmark * option berror :=
  match al_lookup key allowedKeys with
  | Some (first, set_second) =>
      if bool_decide (value ∈ first) then (set_second m value, None)
      else (m, Some (Newf (str "unsupported value for " ++ key ++ str ": " ++ value ++ str " (expected one of " ++ format_strings allowedOSes ++ str ")")))
  | None => (m, Some (Newf (str "unsupported key: " ++ key ++ str " (expected one of " ++ format_strings (sort_Slice string_le (allowedKeys.*1)) ++ str ")")))
  end.

Definition make_env (m : MakeBashBenchmark) (cacheDir : RelPath) (env : Env.Env) : go Env.Env :=
  let '(env, _) := Env.InsertOrReplace windows ToUpper env (str "GOOS") (TargetGOOS m) in
  let '(env, _) := Env.InsertOrReplace windows ToUpper env (str "GOARCH") (TargetGOARCH m) in
  dir ← AbsPath_Join windows root cacheDir;
  let '(env, _) := Env.InsertOrReplace windows ToUpper env (str "GOCACHE") (AbsPath_String dir) in
  Ret env.
Definition MakeBash_Run (m : MakeBashBenchmark) (cacheDir dir : RelPath) : prog (Z * option berror) :=
  let ext := if windows then str ".bat" else str ".bash" in
  rootDir ← lift (AbsPath_Join windows root dir);
  goSrc ← lift (MustParseRelPath windows (str "go/src"));
  srcDir ← lift (AbsPath_Join windows rootDir goSrc);
  goBin ← lift (MustParseRelPath windows (str "go/bin/go"));
  bin ← lift (RelPath_Join windows dir goBin);
  statErr ← StatErr o bin (MkStatOptions false true);
  cleanErr ← (match statErr with
    | Some _ => mret None
    | None => cmd ← cmd_in [str "./clean" ++ ext] srcDir; '(_, err) ← Run o cmd commandOpts; mret err
    end);
  match cleanErr with
  | Some err => mret (0, Some (Leaf err))
  | None =>
      let opts := MkRunOptions (CaptureStdout commandOpts) (CaptureStderr commandOpts) (Some (make_env m cacheDir)) in
      start ← GetInstant o;
      cmd ← cmd_in [str "./make" ++ ext] srcDir;
      '(_, err) ← Run o cmd opts;
      stop ← GetInstant o;
      let elapsed := Instant_Sub stop start in
      match err with Some err => mret (0, Some (Leaf err)) | None => mret (elapsed, None) end
  end.
#[export] Instance MakeBash_config : BenchmarkConfig MakeBashBenchmark :=
  {| config_Add := MakeBash_Add; config_Run := MakeBash_Run; config_Name := fun _ => Benchmark_MakeBash |}.

(** ** The [benchmark] action of [main.go], up to the call of [Benchmark] *)
Context (quote : gostring -> gostring).

(** [strings.Cut] with a separator of one byte. *)
Fixpoint Cut (s : gostring) (sep : Z) : gostring * gostring * bool :=
  match s with
  | [] => ([], [], false)
  | c :: s' =>
      if c =? sep then ([], s', true)
      else let '(before, after, ok) := Cut s' sep in if ok then (c :: before, after, true) else (s, [], false)
  end.

Record flags := MkFlags { fName : gostring; fIters : option Z; fConfig : list gostring; fBaseline : option gostring }.
Fixpoint add_configs {C} `{!BenchmarkConfig C} (config : C) (kvs : list gostring) : C * option berror :=
  match kvs with
  | [] => (config, None)
  | kv :: kvs =>
      let '(before, after, ok) := Cut kv 61 in
      if negb ok then (config, Some (Newf (str "invalid --config " ++ quote kv ++ str "; missing = separator")))
      else if bool_decide (before = []) then (config, Some (Newf (str "invalid --config " ++ quote kv ++ str "; missing key before =")))
      else if bool_decide (after = []) then (config, Some (Newf (str "invalid --config " ++ quote kv ++ str "; missing value after =")))
      else
        let '(config, err) := config_Add config before after in
        match err with Some err => (config, Some err) | None => add_configs config kvs end
  end.
Definition parse_baseline (val : gostring) : go (RevSet + berror) :=
  let '(before, after, ok) := Cut val 58 in
  if negb ok then Ret (inr (Newf (str "invalid --baseline-rev " ++ quote val ++ str "; missing : separator")))
  else if negb (bool_decide (before = JJ)) && negb (bool_decide (before = Git)) then
    Ret (inr (Newf (str "invalid --baseline-rev " ++ quote val ++ str "; expected jj: or git: prefix")))
  else if bool_decide (after = []) then Ret (inr (Newf (str "invalid --baseline-rev " ++ quote val ++ str "; missing rev spec after :")))
  else r ← NewRevSet before after; Ret (inl r).
Definition benchmark_options (f : flags) : go (BenchmarkOptions MakeBashBenchmark + berror) :=
  if negb (bool_decide (fName f = str "make.bash")) then
    Ret (inr (Newf (str "unknown --name " ++ quote (fName f) ++ str ", want one of " ++ format_strings AllBenchmarks)))
  else
    let name := str "make.bash" in
    match (match fIters f with
           | None => inl None
           | Some val => if val <? 0 then inr (Newf (str "negative --iters " ++ Timex.Itoa val ++ str ", wanted value >= 0"))
                         else inl (if 0 <? val then Some val else None)
           end) with
    | inr err => Ret (inr err)
    | inl iters =>
        config ← NewBenchmarkConfig name;
        let '(config, err) := add_configs config (fConfig f) in
        match err with
        | Some err => Ret (inr err)
        | None =>
            match fBaseline f with
            | None => Ret (inl (MkBenchmarkOptions _ iters config None))
            | Some val =>
                r ← parse_baseline val;
                match r with
                | inr err => Ret (inr err)
                | inl baseline => Ret (inl (MkBenchmarkOptions _ iters config (Some baseline)))
                end
            end
        end
    end.

(** ** [resolveProjects] of [main.go]; [order] are the keys of the map in the order it is ranged over *)
Definition path_le : relation RelPath := fun a b => RelPath_Compare a b <= 0.
#[export] Instance path_le_dec a b : Decision (path_le a b) := Z_le_dec _ _.
Definition resolveProjects (ws : WorkspaceConfig + berror) (order : list RelPath) (project : RelPath) : WorkspaceConfig * list RelPath + berror :=
  match ws with
  | inr err => inr err
  | inl ws =>
      if bool_decide (RelPath_String project = str "all") then inl (ws, SortedMapKeysFunc path_le order)
      else match ForkedFolders ws !! project with
           | None => inr (Newf (str "invalid --project " ++ quote (RelPath_String project) ++ str ", not a forked folder"))
           | Some _ => inl (ws, [project])
           end
  end.
End benchmark.

(** ** What a benchmark emits *)
Section contract.
Context {E : Type} (o : oracle (E := E)) (GOOS GOARCH : gostring) (ToUpper : gostring -> gostring) (root : AbsPath).
#[local] Notation ev := (event (E := E)).

Definition rel_ok (w : RelPath) : Prop := exists n ds tw, wf_rel w n ds tw.
Context (Hgoos : GOOS <> str "windows") (Hroot : exists er tr, wf_abs root er tr).
Context (Htemp : forall tr d p w, o_mkdirtemp o tr d p = inl w -> rel_ok w).

Definition cache_root : RelPath := MkRelPath (str ".cache").
Definition silent (e : ev) : Prop := match e with Ran _ _ _ _ | Statted _ _ _ | ReadClock _ => True | _ => False end.
(** Every temporary directory that is made is removed, the last one made first. *)
Inductive nested : list ev -> Prop :=
  | nested_nil : nested []
  | nested_silent e evs : silent e -> nested evs -> nested (e :: evs)
  | nested_print s evs : nested evs -> nested (Printed s :: evs)
  | nested_failed d p e evs : nested evs -> nested (MadeTemp d p (inr e) :: evs)
  | nested_dir d p w mid rm evs : nested mid -> nested evs -> nested (MadeTemp d p (inl w) :: mid ++ RemovedAll w rm :: evs).

(** What a benchmark promises about its runs: they return a duration, and neither make nor
    remove temporary directories, nor print. *)
Class BenchmarkContract (C : Type) `{!BenchmarkConfig (E := E) C} := {
  run_trace : C -> RelPath -> RelPath -> list ev -> Z * option berror -> Prop;
  run_emits c cache dir : rel_ok cache -> rel_ok dir -> emits (config_Run c cache dir) (run_trace c cache dir);
  run_silent c cache dir evs r : run_trace c cache dir evs r -> Forall silent evs /\ is_int r.1
}.

Lemma nested_app a b : nested a -> nested b -> nested (a ++ b).
Proof.
  intros Ha Hb. induction Ha; cbn [app]; [done|by constructor..|]. rewrite <- app_assoc. by constructor.
Qed.
Lemma nested_silents evs : Forall silent evs -> nested evs.
Proof. induction 1; by constructor. Qed.

Lemma windows_false : bool_decide (GOOS = str "windows") = false.
Proof. by apply bool_decide_eq_false_2. Qed.

Lemma emits_cache {B} (f : RelPath -> prog (E := E) B) Q : emits (f cache_root) Q ->
  emits (cache ← lift (MustParseRelPath (bool_decide (GOOS = str "windows")) (str ".cache")); f cache) Q.
Proof.
  intros H. rewrite windows_false. eapply emits_bind; [apply (emits_lift _ cache_root (fun evs r => evs = [] /\ r = cache_root)); [vm_compute; reflexivity|done]|].
  by intros ? ? [-> ->].
Qed.

Lemma emits_defer {A B} (d : prog (E := E) B) (m : prog A) P D Q : emits m P -> emits d (fun evs _ => D evs) ->
  (forall evs a evs', P evs a -> D evs' -> Q (evs ++ evs') a) -> emits (defer_ d m) Q.
Proof.
  intros Hm Hd H. eapply emits_bind; [exact Hm|]. intros evs a Ha. eapply emits_bind; [exact Hd|]. intros evs' b Hb.
  apply emits_ret. rewrite app_nil_r. by apply H.
Qed.

Lemma emits_defer_remove {A} w (m : prog (E := E) A) P Q : emits m P -> (forall evs a rm, P evs a -> Q (evs ++ [RemovedAll w rm]) a) ->
  emits (defer_ (RemoveAll o w) m) Q.
Proof.
  intros Hm H. eapply emits_defer; [exact Hm|by apply (emits_RemoveAll _ _ (fun evs _ => exists rm, evs = [RemovedAll w rm])); eauto|].
  intros evs a evs' HP [rm ->]. by apply H.
Qed.

Lemma emits_MkdirTemp_ok {B} d p (f : RelPath + E -> prog (E := E) B) Q :
  (forall e, emits (f (inr e)) (fun evs => Q (MadeTemp d p (inr e) :: evs))) ->
  (forall w, rel_ok w -> emits (f (inl w)) (fun evs => Q (MadeTemp d p (inl w) :: evs))) ->
  emits (res ← MkdirTemp o d p; f res) Q.
Proof.
  intros He Hw. eapply emits_bind; [apply (emits_MkdirTemp _ _ _ (fun evs res => evs = [MadeTemp d p res] /\ forall w, res = inl w -> rel_ok w)); intros tr res <-; split; [done|by apply Htemp]|].
  intros ? [w|e] [-> Hres]; [by apply Hw, Hres|apply He].
Qed.

Section config.
Context {C : Type} `{!BenchmarkConfig (E := E) C, !BenchmarkContract C}.

(** The events of a measurement: a new cache directory, the run, its report, the removal. *)
Definition measured (config : C) (setup : BenchmarkSetup) (i : Z) (evs : list ev) : Prop :=
  exists w run d t rm, evs = MadeTemp cache_root (str "gocache") (inl w) :: run ++ [Printed (report (sLabel setup) i t); RemovedAll w rm] /\
    run_trace config w (sRoot setup) run (d, None) /\ Duration_String d = Ret t.

(** One iteration: no directory, a run that fails, or a measurement. *)
Definition attempt (config : C) (setup : BenchmarkSetup) (i : Z) (evs : list ev) (err : option (berror (E := E))) : Prop :=
  (exists e, evs = [MadeTemp cache_root (str "gocache") (inr e)] /\ err = Some (Leaf e)) \/
  (exists w run d e rm, evs = MadeTemp cache_root (str "gocache") (inl w) :: run ++ [RemovedAll w rm] /\
     run_trace config w (sRoot setup) run (d, Some e) /\ err = Some e) \/
  (measured config setup i evs /\ err = None).

Lemma Benchmark_iter_emits config setup i : rel_ok (sRoot setup) -> emits (Benchmark_iter o GOOS config setup i) (attempt config setup i).
Proof.
  intros Hs. unfold Benchmark_iter. apply emits_cache, emits_MkdirTemp_ok; [intros e; apply emits_ret; left; by exists e|].
  intros w Hw. eapply (emits_defer_remove w _ (fun evs err =>
    (exists d e, run_trace config w (sRoot setup) evs (d, Some e) /\ err = Some e) \/
    (exists run d t, evs = run ++ [Printed (report (sLabel setup) i t)] /\ run_trace config w (sRoot setup) run (d, None) /\ Duration_String d = Ret t /\ err = None))).
  - eapply emits_bind; [by apply run_emits|]. intros run [d [e|]] Hrun; destruct (run_silent _ _ _ _ _ Hrun) as [_ Hd]; cbn [fst] in Hd.
    + apply emits_ret. rewrite app_nil_r. left. by exists d, e.
    + destruct (duration_text d Hd) as [t Ht].
      eapply emits_bind; [by apply (emits_lift _ t (fun evs r => evs = [] /\ r = t))|]. intros ? ? [-> ->].
      eapply emits_bind; [by apply (emits_Print _ (fun evs _ => evs = [Printed (report (sLabel setup) i t)]))|]. intros ? [] ->. apply emits_ret.
      rewrite app_nil_r. right. by exists run, d, t.
  - intros evs err rm [(d & e & Hrun & ->)|(run & d & t & -> & Hrun & Ht & ->)]; right; [left; by exists w, evs, d, e, rm|].
    right. split; [|done]. exists w, run, d, t, rm. by rewrite <- app_assoc.
Qed.

Lemma attempt_nested config setup i evs err : attempt config setup i evs err -> nested evs.
Proof.
  intros [(e & -> & _)|[(w & run & d & e & rm & -> & Hrun & _)|[(w & run & d & t & rm & -> & Hrun & _) _]]]; [by repeat constructor|..];
    destruct (run_silent _ _ _ _ _ Hrun) as [Hsil _].
  - by apply (nested_dir _ _ _ _ _ []); [apply nested_silents|constructor].
  - change ([Printed (report (sLabel setup) i t); RemovedAll w rm]) with ([Printed (report (sLabel setup) i t)] ++ [RemovedAll (E := E) w rm]). rewrite app_assoc.
    apply (nested_dir _ _ _ _ _ []); [apply nested_app; [by apply nested_silents|by repeat constructor]|constructor].
Qed.

(** All measurements, in order. *)
Definition complete (config : C) (n : Z) (setups : list BenchmarkSetup) (evs : list ev) : Prop :=
  exists blocks, evs = Printed (str "Benchmarking " ++ config_Name config ++ [10]) :: concat blocks /\
    Forall2 (fun si evs => measured config si.1 si.2 evs) (setups ≫= fun s => pair s <$> iterations n) blocks.

Lemma each_trace_nested {A} (T : A -> list ev -> option (berror (E := E)) -> Prop) l evs err :
  (forall a evs err, T a evs err -> nested evs) -> each_trace T l evs err -> nested evs.
Proof.
  intros HT. revert evs. induction l as [|a l IH]; cbn [each_trace]; [intros evs [-> _]; constructor|].
  intros evs (evs1 & [e1|] & H1 & H); [destruct H as [-> _]; by eapply HT|].
  destruct H as (evs2 & -> & H2). apply nested_app; [by eapply HT|by apply IH].
Qed.

Lemma each_trace_blocks {A} (T : A -> list ev -> option (berror (E := E)) -> Prop) (M : A -> list ev -> Prop) l evs :
  (forall a evs, T a evs None -> M a evs) -> each_trace T l evs None -> exists blocks, evs = concat blocks /\ Forall2 M l blocks.
Proof.
  intros HT. revert evs. induction l as [|a l IH]; cbn [each_trace]; [intros evs [-> _]; by exists []|].
  intros evs (evs1 & [e1|] & H1 & H); [by destruct H|]. destruct H as (evs2 & -> & H2). destruct (IH _ H2) as (bs & -> & Hbs).
  exists (evs1 :: bs). split; [done|]. constructor; [by apply HT|done].
Qed.

Lemma flatten_blocks {A B} (M : A -> B -> list ev -> Prop) (l : list A) (js : list B) bs :
  Forall2 (fun a evs => exists blocks, evs = concat blocks /\ Forall2 (M a) js blocks) l bs ->
  exists blocks, concat bs = concat blocks /\ Forall2 (fun ab evs => M ab.1 ab.2 evs) (l ≫= fun a => pair a <$> js) blocks.
Proof.
  induction 1 as [|a evs l bs (blocks & -> & Ha) _ (rest & E1 & IH)]; [by exists []|].
  exists (blocks ++ rest). cbn [concat]. rewrite E1, concat_app. split; [done|]. cbn [mbind list_bind]. apply Forall2_app; [|done].
  clear -Ha. induction Ha; [done|]. by constructor.
Qed.

(** The iterations of the setups, in order, up to the first that fails. *)
Definition measurements (config : C) (n : Z) (setups : list BenchmarkSetup) (evs : list ev) (err : option (berror (E := E))) : Prop :=
  exists rest, evs = Printed (str "Benchmarking " ++ config_Name config ++ [10]) :: rest /\
    each_trace (fun s => each_trace (attempt config s) (iterations n)) setups rest err.

Lemma measurements_weaken config n setups evs err : measurements config n setups evs err -> nested evs /\ (err = None -> complete config n setups evs).
Proof.
  intros (rest & -> & H). split.
  - apply nested_print. eapply each_trace_nested; [|exact H]. intros s evs1 err1 H1. eapply each_trace_nested; [|exact H1]. apply attempt_nested.
  - intros ->. apply (each_trace_blocks _ (fun s evs => exists blocks, evs = concat blocks /\ Forall2 (fun i evs => measured config s i evs) (iterations n) blocks)) in H as (bs & -> & Hbs).
    + destruct (flatten_blocks _ _ _ _ Hbs) as (blocks & -> & Hb). by exists blocks.
    + intros s evs1 H1. eapply each_trace_blocks; [|exact H1]. by intros i evs2 [(e & _ & ?)|[(w & run & d & e & rm & _ & _ & ?)|[? _]]].
Qed.

Lemma Benchmark_run_emits options setups : config_Name (bConfig C options) = Benchmark_MakeBash -> Forall (fun s => rel_ok (sRoot s)) setups ->
  emits (Benchmark_run o GOOS options setups) (measurements (bConfig C options) (default 1 (Iters C options)) setups).
Proof.
  intros Hname Hs. unfold Benchmark_run. set (n := default 1 (Iters C options)).
  eapply emits_bind; [by apply (emits_Print _ (fun evs _ => evs = [Printed (str "Benchmarking " ++ config_Name (bConfig C options) ++ [10])]))|]. intros ? [] ->.
  eapply emits_mono; [apply (run_each_emits _ (fun s => each_trace (attempt (bConfig C options) s) (iterations n)))|].
  - intros s Hin. rewrite Hname. change (DefaultIters Benchmark_MakeBash) with (Ret 1).
    eapply emits_bind; [by apply (emits_lift _ 1 (fun evs r => evs = [] /\ r = 1))|]. intros ? ? [-> ->].
    apply run_each_emits. intros i _. apply Benchmark_iter_emits. rewrite Forall_forall in Hs. by apply Hs.
  - intros evs err H. by exists evs.
Qed.

(** The baseline is added to the repository and forgotten by these commands. *)
Definition add_baseline (b : RevSet) (w : RelPath) : Cmd :=
  if bool_decide (rVCS b = JJ) then
    MkCmd (str "jj") [str "workspace"; str "add"; str "--revision"; rSpec b; str "--name"; str "benchmark-baseline"; RelPath_String w] (Some root)
  else MkCmd (str "git") [str "worktree"; str "add"; RelPath_String w; rSpec b] (Some root).
Definition forget_baseline (b : RevSet) (w : RelPath) : Cmd :=
  if bool_decide (rVCS b = JJ) then MkCmd (str "jj") [str "workspace"; str "forget"; str "benchmark-baseline"] (Some root)
  else MkCmd (str "git") [str "worktree"; str "remove"; RelPath_String w] (Some root).

Definition baseline_trace (options : BenchmarkOptions C) (b : RevSet) (evs : list ev) (err : option (berror (E := E))) : Prop :=
  let made res := MadeTemp cache_root (str "benchmark-wt") res in
  (exists e, evs = [made (inr e)] /\ err <> None) \/
  (exists w out e rm, evs = [made (inl w); Ran (add_baseline b w) commandOpts out (Some e); RemovedAll w rm] /\ err <> None) \/
  (exists w out mid out' e' rm,
     evs = made (inl w) :: Ran (add_baseline b w) commandOpts out None :: mid ++ [Ran (forget_baseline b w) commandOpts out' e'; RemovedAll w rm] /\
     nested mid /\ (err = None -> complete (bConfig C options) (default 1 (Iters C options)) [MkBenchmarkSetup w (str "baseline"); MkBenchmarkSetup Dot (str "latest")] mid)).

(** What a benchmark does: the measurements, between adding and forgetting the baseline if
    there is one; a failure to clean up is not reported. *)
Definition benchmark_trace (options : BenchmarkOptions C) (evs : list ev) (err : option (berror (E := E))) : Prop :=
  let runs := measurements (bConfig C options) (default 1 (Iters C options)) in
  let made res := MadeTemp cache_root (str "benchmark-wt") res in
  match Baseline C options with
  | None => runs [MkBenchmarkSetup Dot (str "latest")] evs err
  | Some b =>
      (exists e, evs = [made (inr e)] /\ err = Some (Leaf e)) \/
      (exists w out e rm, evs = [made (inl w); Ran (add_baseline b w) commandOpts out (Some e); RemovedAll w rm] /\ err = Some (Leaf e)) \/
      (exists w out mid out' e' rm,
         evs = made (inl w) :: Ran (add_baseline b w) commandOpts out None :: mid ++ [Ran (forget_baseline b w) commandOpts out' e'; RemovedAll w rm] /\
         runs [MkBenchmarkSetup w (str "baseline"); MkBenchmarkSetup Dot (str "latest")] mid err)
  end.
Lemma benchmark_trace_weaken options evs err : benchmark_trace options evs err ->
  match Baseline C options with
  | None => nested evs /\ (err = None -> complete (bConfig C options) (default 1 (Iters C options)) [MkBenchmarkSetup Dot (str "latest")] evs)
  | Some b => baseline_trace options b evs err
  end.
Proof.
  unfold benchmark_trace. destruct (Baseline C options) as [b|]; [|apply measurements_weaken].
  intros [(e & -> & ->)|[(w & out & e & rm & -> & ->)|(w & out & mid & out' & e' & rm & -> & Hmid)]].
  - left. by exists e.
  - right. left. by exists w, out, e, rm.
  - right. right. exists w, out, mid, out', e', rm. split; [done|]. by apply measurements_weaken.
Qed.

Lemma emits_runVCS name args (Q : list ev -> option (berror (E := E)) -> Prop) :
  (forall out err, Q [Ran (MkCmd name args (Some root)) commandOpts out err] (Leaf <$> err)) -> emits (runVCS o name args root) Q.
Proof. intros H. unfold runVCS. apply emits_cmd_run. intros out err. apply emits_ret. apply H. Qed.

Lemma dot_ok : rel_ok Dot.
Proof. exists O, [], false. by split. Qed.

(** The baseline's workspace around the measurements [rest]. *)
Lemma emits_workspace (name : gostring) add_args drop_args (rest : prog (option (berror (E := E)))) P :
  emits rest P ->
  emits (err ← runVCS o name add_args root;
         match err with Some err => mret (Some err) | None => defer_ (runVCS o name drop_args root) rest end)
    (fun evs err => (exists out e, evs = [Ran (MkCmd name add_args (Some root)) commandOpts out (Some e)] /\ err = Some (Leaf e)) \/
       (exists out mid out' e', evs = Ran (MkCmd name add_args (Some root)) commandOpts out None :: mid ++ [Ran (MkCmd name drop_args (Some root)) commandOpts out' e'] /\ P mid err)).
Proof.
  intros Hrest. eapply emits_bind; [apply (emits_runVCS name add_args (fun evs err => exists out e, evs = [Ran (MkCmd name add_args (Some root)) commandOpts out e] /\ err = Leaf <$> e)); eauto|].
  intros ? ? (out & [e|] & -> & ->); cbn [fmap option_fmap option_map].
  - apply emits_ret. left. by exists out, e.
  - eapply emits_defer; [exact Hrest|apply (emits_runVCS name drop_args (fun evs _ => exists out e, evs = [Ran (MkCmd name drop_args (Some root)) commandOpts out e])); eauto|].
    intros evs a evs' Ha (out' & e' & ->). right. exists out, evs, out', e'. done.
Qed.

Lemma Benchmark_emits options :
  config_Name (bConfig C options) = Benchmark_MakeBash -> (forall b, Baseline C options = Some b -> rVCS b = JJ \/ rVCS b = Git) ->
  emits (Benchmark o GOOS root options) (benchmark_trace options).
Proof.
  intros Hname Hvcs. unfold Benchmark, benchmark_trace. destruct (Baseline C options) as [b|]; [|apply Benchmark_run_emits; [done|]; constructor; [apply dot_ok|done]].
  specialize (Hvcs b eq_refl). apply emits_cache, emits_MkdirTemp_ok; [intros e; apply emits_ret; left; by exists e|].
  intros w Hw. set (P := measurements (bConfig C options) (default 1 (Iters C options)) [MkBenchmarkSetup w (str "baseline"); MkBenchmarkSetup Dot (str "latest")]).
  assert (emits (Benchmark_run o GOOS options [MkBenchmarkSetup w (str "baseline"); MkBenchmarkSetup Dot (str "latest")]) P) as Hrest.
  { apply Benchmark_run_emits; [done|]. repeat constructor; [done|apply dot_ok]. }
  eapply (emits_defer_remove w _ (fun evs err => (exists out e, evs = [Ran (add_baseline b w) commandOpts out (Some e)] /\ err = Some (Leaf e)) \/
    (exists out mid out' e', evs = Ran (add_baseline b w) commandOpts out None :: mid ++ [Ran (forget_baseline b w) commandOpts out' e'] /\ P mid err))).
  - unfold add_baseline, forget_baseline. destruct Hvcs as [-> | ->].
    + rewrite !bool_decide_true by done. by apply emits_workspace.
    + rewrite !(bool_decide_false (Git = JJ)), bool_decide_true by done. by apply emits_workspace.
  - intros evs err rm [(out & e & -> & ->)|(out & mid & out' & e' & -> & HP)].
    + right. left. by exists w, out, e, rm.
    + right. right. exists w, out, mid, out', e', rm. cbn [app]. by rewrite <- app_assoc.
Qed.

Lemma baseline_nested options b evs err : baseline_trace options b evs err -> nested evs.
Proof.
  intros [(e & -> & _)|[(w & out & e & rm & -> & _)|(w & out & mid & out' & e' & rm & -> & Hmid & _)]].
  - by repeat constructor.
  - apply (nested_dir _ _ _ [_] _ []); by repeat constructor.
  - change (mid ++ [Ran (forget_baseline b w) commandOpts out' e'; RemovedAll w rm]) with (mid ++ [Ran (forget_baseline b w) commandOpts out' e'] ++ [RemovedAll w rm]).
    rewrite app_assoc. apply (nested_dir _ _ _ (_ :: mid ++ [_]) _ []); [|constructor]. constructor; [done|]. apply nested_app; [done|]. by repeat constructor.
Qed.
End config.

(** ** Building Go *)
Section make.
Context (m : MakeBashBenchmark).

Definition script (name : gostring) (dir : AbsPath) : Cmd := MkCmd (name ++ str ".bash") [] (Some dir).
(** The options of the build: both outputs are captured, and the environment is [make_env]. *)
Definition make_opts (cache : RelPath) : RunOptions := MkRunOptions true true (Some (make_env GOOS ToUpper root m cache)).
(** An existing build is cleaned first; [err] is a failure to. *)
Definition clean_trace (bin : RelPath) (srcDir : AbsPath) (evs : list ev) (err : option E) : Prop :=
  let stat := Statted bin (MkStatOptions false true) in
  (exists e, evs = [stat (Some e)] /\ err = None) \/
  (exists out, evs = [stat None; Ran (script (str "./clean") srcDir) commandOpts out err]).
Definition make_trace (cache dir : RelPath) (evs : list ev) (r : Z * option (berror (E := E))) : Prop :=
  exists rootDir srcDir bin clean cleanErr,
    AbsPath_Join false root dir = Ret rootDir /\ AbsPath_Join false rootDir (MkRelPath (str "go/src")) = Ret srcDir /\
    RelPath_Join false dir (MkRelPath (str "go/bin/go")) = Ret bin /\ clean_trace bin srcDir clean cleanErr /\
    match cleanErr with
    | Some e => evs = clean /\ r = (0, Some (Leaf e))
    | None => exists start out err stop,
        evs = clean ++ [ReadClock start; Ran (script (str "./make") srcDir) (make_opts cache) out err; ReadClock stop] /\
        r = match err with Some e => (0, Some (Leaf e)) | None => (Instant_Sub stop start, None) end
    end.

Lemma go_path (es : list gostring) p : Forall plain es -> p = rel_path 0 es false -> rel_ok p.
Proof. intros Hes ->. exists O, es, false. by split. Qed.

Lemma joins dir : rel_ok dir -> exists rootDir srcDir bin,
  AbsPath_Join false root dir = Ret rootDir /\ AbsPath_Join false rootDir (MkRelPath (str "go/src")) = Ret srcDir /\
  RelPath_Join false dir (MkRelPath (str "go/bin/go")) = Ret bin.
Proof.
  intros (n & ds & tw & [Hds _ ->]). destruct Hroot as (er & tr & [Her _ ->]).
  change (MkRelPath (str "go/src")) with (rel_path 0 [str "go"; str "src"] false). change (MkRelPath (str "go/bin/go")) with (rel_path 0 [str "go"; str "bin"; str "go"] false).
  assert (Forall plain [str "go"; str "src"] /\ Forall plain [str "go"; str "bin"; str "go"]) as [H1 H2] by (split; repeat constructor; done).
  rewrite AbsPath_Join_rel by done. eexists _, _, _. split; [done|]. split.
  - apply AbsPath_Join_rel; [|done]. apply Forall_app_2; [by apply Forall_take|done].
  - by apply RelPath_Join_rel.
Qed.

Lemma emits_lift_ret {A B} (x : go A) a (f : A -> prog (E := E) B) Q : x = Ret a -> emits (f a) Q -> emits (a ← lift x; f a) Q.
Proof.
  intros -> H. eapply emits_bind; [by apply (emits_lift _ a (fun evs r => evs = [] /\ r = a))|]. by intros ? ? [-> ->].
Qed.

Lemma int_0 : is_int 0.
Proof. by vm_compute. Qed.
Lemma Sub_is_int t u : is_int (Sub t u).
Proof.
  unfold Sub, subMono. assert (is_int maxDuration /\ is_int minDuration) as [H1 H2] by (split; vm_compute; split; discriminate).
  destruct (both_mono t u); repeat case_match; try done; apply int64_is_int.
Qed.

Lemma MakeBash_emits cache dir : rel_ok dir -> emits (MakeBash_Run o GOOS ToUpper root m cache dir) (make_trace cache dir).
Proof.
  intros Hdir. destruct (joins dir Hdir) as (rootDir & srcDir & bin & H1 & H2 & H3). unfold MakeBash_Run. rewrite !windows_false.
  apply (emits_lift_ret _ rootDir); [done|]. apply (emits_lift_ret _ (MkRelPath (str "go/src"))); [vm_compute; reflexivity|].
  apply (emits_lift_ret _ srcDir); [done|]. apply (emits_lift_ret _ (MkRelPath (str "go/bin/go"))); [vm_compute; reflexivity|].
  apply (emits_lift_ret _ bin); [done|].
  eapply emits_bind; [apply (emits_StatErr _ _ _ (fun evs err => evs = [Statted bin (MkStatOptions false true) err])); done|]. intros ? statErr ->.
  eapply emits_bind.
  { apply (emits_mono _ (fun evs err => clean_trace bin srcDir (Statted bin (MkStatOptions false true) statErr :: evs) err)); [|intros evs err H; exact H].
    destruct statErr as [e|]; [apply emits_ret; left; by exists e|]. apply emits_cmd_run. intros out err. apply emits_ret. right. by exists out. }
  intros clean [e|] Hclean.
  { apply emits_ret. rewrite app_nil_r. by exists rootDir, srcDir, bin, (Statted bin (MkStatOptions false true) statErr :: clean), (Some e). }
  eapply emits_bind; [by apply (emits_GetInstant _ (fun evs now => evs = [ReadClock now]))|]. intros ? start ->. apply emits_cmd_run. intros out err.
  eapply emits_bind; [by apply (emits_GetInstant _ (fun evs now => evs = [ReadClock now]))|]. intros ? stop ->.
  assert (forall r, r = match err with Some e => (0, Some (Leaf e)) | None => (Instant_Sub stop start, None) end ->
    make_trace cache dir ([Statted bin (MkStatOptions false true) statErr] ++ clean ++ [ReadClock start] ++ [Ran (script (str "./make") srcDir) (make_opts cache) out err; ReadClock stop]) r) as Hr.
  { intros r Hr. exists rootDir, srcDir, bin, (Statted bin (MkStatOptions false true) statErr :: clean), None. split_and!; [done..|]. by exists start, out, err, stop. }
  destruct err as [e|]; apply emits_ret; by apply Hr.
Qed.

Lemma make_trace_silent cache dir evs r : make_trace cache dir evs r -> Forall silent evs /\ is_int r.1.
Proof.
  intros (rootDir & srcDir & bin & clean & cleanErr & _ & _ & _ & Hclean & H). assert (Forall silent clean) as Hs by (destruct Hclean as [(e & -> & _)|(out & ->)]; by repeat constructor).
  destruct cleanErr as [e|]; [destruct H as [-> ->]; split; [done|by apply int_0]|].
  destruct H as (start & out & err & stop & -> & ->). split; [apply Forall_app_2; [done|by repeat constructor]|].
  destruct err; [by apply int_0|apply Sub_is_int].
Qed.
End make.

#[export] Instance MakeBash_contract : @BenchmarkContract MakeBashBenchmark (MakeBash_config o GOOS ToUpper root).
Proof.
  apply (Build_BenchmarkContract MakeBashBenchmark (MakeBash_config o GOOS ToUpper root) make_trace).
  - intros m cache dir _ Hdir. by apply MakeBash_emits.
  - apply make_trace_silent.
Defined.

(** ** The environment of the build *)
Lemma env_insert_lookup env k v k' : Env.Inv env ->
  let env' := (Env.InsertOrReplace false ToUpper env k v).1 in
  Env.Inv env' /\ Env.Lookup false ToUpper env' k' = if decide (k' = k) then Some v else Env.Lookup false ToUpper env k'.
Proof.
  intros HI env'. destruct (Env.env_InsertOrReplace_abs false ToUpper env k v HI) as (_ & HI' & Habs). fold env' in HI', Habs. split; [done|].
  rewrite !Env.env_Lookup_abs, Habs by done. unfold Env.canonicalKey. cbn [negb]. destruct (al_lookup k (Env.abs env)) as [e|] eqn:Hk.
  - rewrite al_lookup_replace, Hk. repeat case_decide; congruence || done.
  - rewrite al_lookup_app. destruct (decide (k' = k)) as [->|Hne]; [rewrite Hk; cbn; by rewrite decide_True|].
    destruct (al_lookup k' (Env.abs env)); [done|]. cbn. by rewrite decide_False by congruence.
Qed.

Lemma make_env_spec m cache env : rel_ok cache -> Env.Inv env -> exists dir env',
  AbsPath_Join false root cache = Ret dir /\ make_env GOOS ToUpper root m cache env = Ret env' /\ Env.Inv env' /\
  forall k, Env.Lookup false ToUpper env' k =
    if decide (k = str "GOCACHE") then Some (AbsPath_String dir)
    else if decide (k = str "GOARCH") then Some (TargetGOARCH m)
    else if decide (k = str "GOOS") then Some (TargetGOOS m) else Env.Lookup false ToUpper env k.
Proof.
  intros Hc HI. destruct (joins cache Hc) as (dir & _ & _ & Hdir & _). unfold make_env. rewrite !windows_false.
  destruct (Env.InsertOrReplace false ToUpper env (str "GOOS") (TargetGOOS m)) as [env1 p1] eqn:E1.
  destruct (Env.InsertOrReplace false ToUpper env1 (str "GOARCH") (TargetGOARCH m)) as [env2 p2] eqn:E2.
  rewrite Hdir, bind_ret. destruct (Env.InsertOrReplace false ToUpper env2 (str "GOCACHE") (AbsPath_String dir)) as [env3 p3] eqn:E3.
  assert (forall k, Env.Inv env1 /\ Env.Lookup false ToUpper env1 k = if decide (k = str "GOOS") then Some (TargetGOOS m) else Env.Lookup false ToUpper env k) as H1
    by (intros k; pose proof (env_insert_lookup env (str "GOOS") (TargetGOOS m) k HI) as H; by rewrite E1 in H).
  assert (forall k, Env.Inv env2 /\ Env.Lookup false ToUpper env2 k = if decide (k = str "GOARCH") then Some (TargetGOARCH m) else Env.Lookup false ToUpper env1 k) as H2
    by (intros k; pose proof (env_insert_lookup env1 (str "GOARCH") (TargetGOARCH m) k (proj1 (H1 k))) as H; by rewrite E2 in H).
  assert (forall k, Env.Inv env3 /\ Env.Lookup false ToUpper env3 k = if decide (k = str "GOCACHE") then Some (AbsPath_String dir) else Env.Lookup false ToUpper env2 k) as H3
    by (intros k; pose proof (env_insert_lookup env2 (str "GOCACHE") (AbsPath_String dir) k (proj1 (H2 k))) as H; by rewrite E3 in H).
  exists dir, env3. split_and!; [done|done|apply (H3 [])|]. intros k. by rewrite (proj2 (H3 k)), (proj2 (H2 k)), (proj2 (H1 k)).
Qed.

(** C15: [kido benchmark] cleans up after itself (Unix).  Whatever the commands,
    the file system and the clock answer, it returns, and every temporary
    directory it makes is removed, the last one made first.  A baseline is added
    to the repository before anything is measured, and once added it is forgotten
    before its directory is removed, whether or not a measurement failed.
    Without an error every iteration was measured, first those of the baseline,
    each in a cache directory of its own and with one line that reports how long
    its run took. *)
Theorem benchmark_cleans_up {C : Type} `{!BenchmarkConfig (E := E) C, !BenchmarkContract C} (options : BenchmarkOptions C) tr
  (Hname : config_Name (bConfig C options) = Benchmark_MakeBash)
  (Hvcs : forall b, Baseline C options = Some b -> rVCS b = JJ \/ rVCS b = Git) :
  exists evs err, Benchmark o GOOS root options tr = Ret (tr ++ evs, err) /\ nested evs /\
    match Baseline C options with
    | None => err = None -> complete (bConfig C options) (default 1 (Iters C options)) [MkBenchmarkSetup Dot (str "latest")] evs
    | Some b => baseline_trace options b evs err
    end.
Proof.
  destruct (Benchmark_emits options Hname Hvcs tr) as (evs & err & E1 & H%benchmark_trace_weaken). exists evs, err. split; [done|].
  destruct (Baseline C options); [|done]. split; [by eapply baseline_nested|done].
Qed.

(** A build to be measured (Unix) first cleans the repository if a [go]
    binary is found in it, and fails if that fails; the time is that of
    [make.bash] alone.  It runs in [go/src] of the given root with the target
    system, the target architecture and a [GOCACHE] in the fresh directory in
    its environment, where no other variable is changed. *)
Theorem make_bash_spec (m : MakeBashBenchmark) (cache dir : RelPath) (env : Env.Env) tr
  (Hcache : rel_ok cache) (Hdir : rel_ok dir) (Henv : Env.Inv env) :
  (exists evs r, MakeBash_Run o GOOS ToUpper root m cache dir tr = Ret (tr ++ evs, r) /\ make_trace m cache dir evs r) /\
  (exists cacheDir env', AbsPath_Join false root cache = Ret cacheDir /\ make_env GOOS ToUpper root m cache env = Ret env' /\
     forall k, Env.Lookup false ToUpper env' k =
       if decide (k = str "GOCACHE") then Some (AbsPath_String cacheDir)
       else if decide (k = str "GOARCH") then Some (TargetGOARCH m)
       else if decide (k = str "GOOS") then Some (TargetGOOS m) else Env.Lookup false ToUpper env k).
Proof.
  split; [by apply MakeBash_emits|]. destruct (make_env_spec m cache env Hcache Henv) as (d & env' & H1 & H2 & _ & H3). by exists d, env'.
Qed.
End contract.

(** ** The flags *)
Lemma Cut_spec s sep before after : Cut s sep = (before, after, true) -> s = before ++ sep :: after /\ sep ∉ before.
Proof.
  revert before. induction s as [|c s IH]; intros before; cbn [Cut]; [done|]. destruct (Z.eqb_spec c sep) as [->|Hne]; [intros [= <- <-]; split; [done|by apply not_elem_of_nil]|].
  destruct (Cut s sep) as [[b a] []]; [|done]. intros [= <- <-]. destruct (IH b eq_refl) as [-> Hni]. split; [done|]. apply not_elem_of_cons. split; [congruence|done].
Qed.

Section flags.
Context {E : Type} (o : oracle (E := E)) (GOOS GOARCH : gostring) (ToUpper quote : gostring -> gostring) (root : AbsPath).
#[local] Existing Instance MakeBash_config.

(** The flags that a benchmark with these options was asked for with: the target of the
    runtime, changed by the settings in order, each to an allowed value; as many iterations
    as were asked for, the default if none or zero; the baseline that was asked for. *)
Inductive configured : MakeBashBenchmark -> list gostring -> MakeBashBenchmark -> Prop :=
  | cfg_nil m : configured m [] m
  | cfg_os m v kvs m' : v ∈ allowedOSes -> configured (MkMakeBash v (TargetGOARCH m)) kvs m' ->
      configured m ((str "TARGET_GOOS=" ++ v) :: kvs) m'
  | cfg_arch m v kvs m' : v ∈ allowedArchs -> configured (MkMakeBash (TargetGOOS m) v) kvs m' ->
      configured m ((str "TARGET_GOARCH=" ++ v) :: kvs) m'.
Definition asked_for (f : flags) (opts : BenchmarkOptions MakeBashBenchmark) : Prop :=
  fName f = Benchmark_MakeBash /\ configured (MkMakeBash GOOS GOARCH) (fConfig f) (bConfig _ opts) /\
  match fIters f with Some n => 0 <= n /\ Iters _ opts = (if decide (n = 0) then None else Some n) | None => Iters _ opts = None end /\
  match Baseline _ opts with
  | Some b => (rVCS b = JJ \/ rVCS b = Git) /\ rSpec b <> [] /\ fBaseline f = Some (rVCS b ++ str ":" ++ rSpec b)
  | None => fBaseline f = None
  end.

Lemma Cut_complete s sep before after : s = before ++ sep :: after -> sep ∉ before -> Cut s sep = (before, after, true).
Proof.
  intros ->. induction before as [|c before IH]; cbn [app Cut]; [by rewrite Z.eqb_refl|]. intros [Hc Hb]%not_elem_of_cons.
  rewrite (proj2 (Z.eqb_neq c sep)) by congruence. by rewrite IH.
Qed.
Lemma Cut_iff s sep : match Cut s sep with
  | (before, after, true) => s = before ++ sep :: after /\ sep ∉ before
  | (_, _, false) => sep ∉ s
  end.
Proof.
  destruct (Cut s sep) as [[before after] []] eqn:Hc; [by apply Cut_spec|]. intros Hin.
  apply list_elem_of_split_l in Hin as (before' & after' & -> & Hni). by rewrite (Cut_complete _ _ before' after') in Hc.
Qed.

#[local] Notation add_configs := (add_configs (E := E) (BenchmarkConfig0 := MakeBash_config o GOOS ToUpper root) quote).
Lemma MakeBash_Add_spec m key value :
  match MakeBash_Add (E := E) m key value with
  | (m', None) => (key = str "TARGET_GOOS" /\ value ∈ allowedOSes /\ m' = MkMakeBash value (TargetGOARCH m)) \/
      (key = str "TARGET_GOARCH" /\ value ∈ allowedArchs /\ m' = MkMakeBash (TargetGOOS m) value)
  | (_, Some _) => ~ (key = str "TARGET_GOOS" /\ value ∈ allowedOSes) /\ ~ (key = str "TARGET_GOARCH" /\ value ∈ allowedArchs)
  end.
Proof.
  assert (str "TARGET_GOOS" <> str "TARGET_GOARCH") as Hne by done.
  unfold MakeBash_Add, allowedKeys. cbn [al_lookup]. case_decide as H1; [|case_decide as H2]; [..|split; intros [? _]; congruence].
  - case_bool_decide; [by left|]. split; intros [? ?]; [done|congruence].
  - case_bool_decide; [by right|]. split; intros [? ?]; [congruence|done].
Qed.

#[local] Ltac decided := match goal with |- ?P => exact (bool_decide_unpack P I) end.
Lemma setting_inj (k k' v v' : gostring) : 61 ∉ k -> 61 ∉ k' -> k ++ 61 :: v = k' ++ 61 :: v' -> k = k' /\ v = v'.
Proof.
  intros Hk Hk' H. pose proof (Cut_complete _ 61 k v eq_refl Hk) as H1. rewrite H, (Cut_complete _ 61 k' v' eq_refl Hk') in H1. by injection H1 as -> ->.
Qed.
Lemma configured_cons m key value kvs m' : 61 ∉ key -> configured m ((key ++ 61 :: value) :: kvs) m' ->
  (key = str "TARGET_GOOS" /\ value ∈ allowedOSes /\ configured (MkMakeBash value (TargetGOARCH m)) kvs m') \/
  (key = str "TARGET_GOARCH" /\ value ∈ allowedArchs /\ configured (MkMakeBash (TargetGOOS m) value) kvs m').
Proof.
  intros Hk. remember ((key ++ 61 :: value) :: kvs) as l eqn:Hl. intros H. revert Hl. destruct H as [m0|m0 v kvs0 m1 Hv Hc|m0 v kvs0 m1 Hv Hc]; intros Hl; [done|left|right]; injection Hl as Heq ->.
  - apply (setting_inj (str "TARGET_GOOS")) in Heq as [<- <-]; [done|decided|done].
  - apply (setting_inj (str "TARGET_GOARCH")) in Heq as [<- <-]; [done|decided|done].
Qed.

Lemma add_configs_spec m kvs :
  match add_configs m kvs with (m', None) => configured m kvs m' | (_, Some _) => forall m', ~ configured m kvs m' end.
Proof.
  revert m. induction kvs as [|kv kvs IH]; intros m; [constructor|]. cbn [KidoBenchmark.add_configs].
  assert (forall m', configured m (kv :: kvs) m' -> exists k v, kv = k ++ 61 :: v /\ 61 ∉ k /\ k <> [] /\ v <> []) as Hshape.
  { intros m'. remember (kv :: kvs) as l eqn:Hl. intros H. revert Hl. destruct H as [m0|m0 v kvs0 m1 Hv Hc|m0 v kvs0 m1 Hv Hc]; intros Hl; [done|..]; injection Hl as <- ->; [exists (str "TARGET_GOOS"), v|exists (str "TARGET_GOARCH"), v];
      (split; [done|]; split; [decided|]; split; [done|]; intros ->; revert Hv; match goal with |- ?P -> False => change (~ P) end; decided). }
  pose proof (Cut_iff kv 61) as Hcut. destruct (Cut kv 61) as [[key value] []]; cbn [negb].
  2:{ intros m' (k & v & -> & _)%Hshape. apply Hcut. apply elem_of_app. right. left. }
  destruct Hcut as [-> Hni].
  case_bool_decide as Hk. { intros m' (k & v & Heq & Hk' & Hne & _)%Hshape. by apply setting_inj in Heq as [<- _]. }
  case_bool_decide as Hv. { intros m' (k & v & Heq & Hk' & _ & Hne)%Hshape. by apply setting_inj in Heq as [_ <-]. }
  cbn [config_Add MakeBash_config]. pose proof (MakeBash_Add_spec m key value) as Hadd. destruct (MakeBash_Add m key value) as [m1 [e|]].
  - destruct Hadd as [H1 H2]. by intros m' [(? & ? & _)|(? & ? & _)]%configured_cons; [apply H1|apply H2|].
  - specialize (IH m1). destruct (KidoBenchmark.add_configs quote m1 kvs) as [m2 [e|]].
    + intros m' [(? & ? & Hc)|(? & ? & Hc)]%configured_cons; [| |done]; destruct Hadd as [(? & _ & ->)|(? & _ & ->)]; subst; try done; by apply IH in Hc.
    + destruct Hadd as [(-> & ? & ->)|(-> & ? & ->)]; by constructor.
Qed.

Lemma parse_baseline_spec val : exists r, parse_baseline (E := E) quote val = Ret r /\
  match r with
  | inl b => (rVCS b = JJ \/ rVCS b = Git) /\ rSpec b <> [] /\ val = rVCS b ++ str ":" ++ rSpec b
  | inr _ => forall b, rVCS b = JJ \/ rVCS b = Git -> rSpec b <> [] -> val <> rVCS b ++ str ":" ++ rSpec b
  end.
Proof.
  unfold parse_baseline. pose proof (Cut_iff val 58) as Hcut.
  assert (forall b, rVCS b = JJ \/ rVCS b = Git -> 58 ∉ rVCS b) as Hvcs by (intros b [-> | ->]; decided).
  destruct (Cut val 58) as [[before after] []]; cbn [negb].
  2:{ eexists (inr _). split; [done|]. intros b Hb _ ->. apply Hcut. apply elem_of_app. right. left. }
  destruct Hcut as [-> Hni].
  assert (forall b, rVCS b = JJ \/ rVCS b = Git -> before ++ 58 :: after = rVCS b ++ str ":" ++ rSpec b -> before = rVCS b /\ after = rSpec b) as Hinj.
  { intros b Hb H. pose proof (Cut_complete _ 58 before after eq_refl Hni) as H1. rewrite H in H1.
    rewrite (Cut_complete (rVCS b ++ str ":" ++ rSpec b) 58 (rVCS b) (rSpec b) eq_refl (Hvcs b Hb)) in H1. by injection H1 as -> ->. }
  destruct (negb (bool_decide (before = JJ)) && negb (bool_decide (before = Git))) eqn:Hv.
  { eexists (inr _). split; [done|]. intros b Hb _ H. apply Hinj in H as [-> _]; [|done]. destruct Hb as [Hb|Hb]; rewrite Hb in Hv; by vm_compute in Hv. }
  rewrite andb_false_iff, !negb_false_iff, !bool_decide_eq_true in Hv.
  case_bool_decide as Ha. { eexists (inr _). split; [done|]. intros b Hb Hne H. apply Hinj in H as [_ H]; [congruence|done]. }
  unfold NewRevSet. rewrite (bool_decide_eq_false_2 _ Ha). cbn [negb]. rewrite Precondition_true, bind_ret by done.
  replace (bool_decide (before = JJ) || bool_decide (before = Git)) with true by (symmetry; apply orb_true_iff; by rewrite !bool_decide_eq_true).
  rewrite !bind_ret. by eexists (inl _).
Qed.

(** Reading the flags never panics; it gives the options that were asked for, or refuses
    flags that ask for none. *)
Lemma benchmark_options_spec f : exists r, benchmark_options (E := E) o GOOS GOARCH ToUpper root quote f = Ret r /\
  match r with inl opts => asked_for f opts | inr _ => forall opts, ~ asked_for f opts end.
Proof.
  unfold benchmark_options. case_bool_decide as Hn; cbn [negb]; [|eexists (inr _); split; [done|]; by intros opts (? & _)].
  set (iters := match fIters f with None => inl None | Some val => if val <? 0 then inr _ else inl (if 0 <? val then Some val else None) end).
  assert (match iters with
    | inl it => match fIters f with Some n => 0 <= n /\ it = (if decide (n = 0) then None else Some n) | None => it = None end
    | inr _ => forall it : option Z, ~ match fIters f with Some n => 0 <= n /\ it = (if decide (n = 0) then None else Some n) | None => it = None end
    end) as Hit.
  { subst iters. destruct (fIters f) as [val|]; [|done]. destruct (Z.ltb_spec val 0); [intros it [? _]; lia|]. split; [done|].
    destruct (Z.ltb_spec 0 val); [by rewrite decide_False by lia|by rewrite decide_True by lia]. }
  destruct iters as [it|e]; [|eexists (inr _); split; [done|]; intros opts (_ & _ & H & _); by apply Hit in H].
  change (NewBenchmarkConfig GOOS GOARCH (str "make.bash")) with (Ret (MkMakeBash GOOS GOARCH)). rewrite bind_ret.
  pose proof (add_configs_spec (MkMakeBash GOOS GOARCH) (fConfig f)) as Hc.
  destruct (KidoBenchmark.add_configs quote (MkMakeBash GOOS GOARCH) (fConfig f)) as [m [e|]]; [eexists (inr _); split; [done|]; intros opts (_ & H & _); by apply Hc in H|].
  destruct (fBaseline f) as [val|] eqn:Hb; [|eexists (inl _); split; [done|]; by split_and!].
  destruct (parse_baseline_spec val) as ([b|e] & -> & Hp); rewrite bind_ret; [eexists (inl _)|eexists (inr _)]; (split; [done|]).
  - split_and!; [done|done|done|]. cbn [Baseline]. destruct Hp as (? & ? & ->). by rewrite Hb.
  - intros opts (_ & _ & _ & H). destruct (Baseline _ opts) as [b|]; [|congruence]. destruct H as (H1 & H2 & H3). rewrite Hb in H3. injection H3 as H3. by apply (Hp b).
Qed.

(** The message for an unsupported architecture lists the operating systems. *)
Lemma make_bash_arch_message m : MakeBash_Add (E := E) m (str "TARGET_GOARCH") (str "riscv64") =
  (m, Some (Newf (str "unsupported value for TARGET_GOARCH: riscv64 (expected one of [linux darwin windows])"))).
Proof. vm_compute. reflexivity. Qed.
End flags.

(** ** Concrete runs *)
Definition bench_root : AbsPath := MkAbsPath (str "/r").
(** The build of the latest tree fails. *)
Definition bench_oracle : oracle (E := unit) :=
  {| o_run := fun tr c _ => (MkRunOutput [] [], if bool_decide (cname c = str "./make.bash" /\ avalue <$> cdir c = Some (str "/r/go/src")) then Some tt else None);
     o_mkdirall := fun _ _ _ => None;
     o_mkdirtemp := fun _ _ p => inl (MkRelPath (if bool_decide (p = str "gocache") then str ".cache/gocache" else str ".cache/benchmark-wt"));
     o_removeall := fun _ _ => None;
     o_stat := fun _ _ _ => Some tt;
     o_now := fun tr => NewInstant (MkTime hasMonotonic (1500000000 * zlen tr) None) |}.
Definition bench_config : MakeBashBenchmark := MkMakeBash (str "linux") (str "arm64").
Definition bench_options : BenchmarkOptions MakeBashBenchmark := MkBenchmarkOptions _ None bench_config (Some (MkRevSet JJ (str "@-"))).
#[local] Instance sample_config : BenchmarkConfig (E := unit) MakeBashBenchmark := MakeBash_config bench_oracle (str "linux") id bench_root.

Definition summary {E} (e : event (E := E)) : gostring :=
  match e with
  | Ran c _ _ _ => concat (map (fun s => s ++ [32]) (take 2 (Argv c)))
  | MadeAll d _ _ => str "mkdir " ++ rvalue d
  | MadeTemp d p _ => str "temp " ++ p
  | RemovedAll d _ => str "remove " ++ rvalue d
  | Statted p _ _ => str "stat " ++ rvalue p
  | ReadClock _ => str "clock"
  | Printed s => s
  end.
Example bench_run :
  match Benchmark bench_oracle (str "linux") bench_root bench_options [] with Ret (evs, err) => (summary <$> evs, err) | _ => ([], None) end =
  ([str "temp benchmark-wt"; str "jj workspace "; str "Benchmarking make.bash" ++ [10];
    str "temp gocache"; str "stat .cache/benchmark-wt/go/bin/go"; str "clock"; str "./make.bash "; str "clock";
    str "baseline (iter = 1): t = 3s" ++ [10]; str "remove .cache/gocache";
    str "temp gocache"; str "stat go/bin/go"; str "clock"; str "./make.bash "; str "clock"; str "remove .cache/gocache";
    str "jj workspace "; str "remove .cache/benchmark-wt"], Some (Leaf tt)).
Proof. vm_compute. reflexivity. Qed.

Lemma bench_root_ok : exists er tr, wf_abs bench_root er tr.
Proof. exists [str "r"], false. split; [repeat constructor; discriminate|by intros ?|reflexivity]. Qed.
Lemma bench_temp : forall tr d p w, o_mkdirtemp bench_oracle tr d p = inl w -> rel_ok w.
Proof.
  intros tr d p w. cbn [o_mkdirtemp bench_oracle]. intros [= <-].
  case_bool_decide; [apply (go_path [str ".cache"; str "gocache"])|apply (go_path [str ".cache"; str "benchmark-wt"])];
    solve [reflexivity|repeat constructor; discriminate].
Qed.

Lemma not_windows : str "linux" <> str "windows".
Proof. discriminate. Qed.

Lemma benchmark_cleans_up_witness :
  config_Name (bConfig MakeBashBenchmark bench_options) = Benchmark_MakeBash /\
  (forall b, Baseline _ bench_options = Some b -> rVCS b = JJ \/ rVCS b = Git) /\
  exists evs err, Benchmark bench_oracle (str "linux") bench_root bench_options [] = Ret ([] ++ evs, err) /\ nested evs.
Proof.
  assert (forall b, Baseline _ bench_options = Some b -> rVCS b = JJ \/ rVCS b = Git) as Hvcs by (intros b [= <-]; left; reflexivity).
  split; [reflexivity|split; [exact Hvcs|]].
  destruct (@benchmark_cleans_up unit bench_oracle (str "linux") bench_root not_windows bench_temp MakeBashBenchmark sample_config
    (MakeBash_contract bench_oracle (str "linux") id bench_root not_windows bench_root_ok) bench_options [] eq_refl Hvcs) as (evs & err & E1 & H & _).
  exists evs, err. split; [exact E1|exact H].
Defined.

Lemma make_bash_spec_witness :
  rel_ok cache_root /\ rel_ok Dot /\ Env.Inv Env.Empty /\
  exists evs r, MakeBash_Run bench_oracle (str "linux") id bench_root bench_config cache_root Dot [] = Ret ([] ++ evs, r) /\
    make_trace (str "linux") id bench_root bench_config cache_root Dot evs r.
Proof.
  assert (rel_ok cache_root) as H1 by (apply (go_path [str ".cache"]); [repeat constructor; discriminate|reflexivity]).
  assert (Env.Inv Env.Empty) as H3 by apply MonotoneMap.mono_Inv_New.
  split; [exact H1|split; [exact dot_ok|split; [exact H3|]]].
  exact (proj1 (make_bash_spec bench_oracle (str "linux") id bench_root not_windows bench_root_ok bench_config cache_root Dot Env.Empty [] H1 dot_ok H3)).
Defined.
