(* ===== verification/KidoList.v ===== *)
(** * Listing Go modules ([misc/cmd/kido/list.go])

    [List] over any file system.  Logging is not modelled, and so is not the
    look at the cause of a failed [Stat] that only decides whether to log.
    [Fprintln] is [fmt.Fprintln] on the writer, whose state it threads. *)
From stdpp Require Import sorting.
From S2P Require Import Prelude Core Iterx HashSet GoFilepath CleanSpec Lexical PathComponents RelSpec PathTypes PathLaws Fsx Config.
#[local] Open Scope Z_scope.

Inductive ListType := ListType_GoModules | ListType_Other (k : Z).
Inductive ListProvenance := ListProvenance_All | ListProvenance_FirstParty | ListProvenance_Forked | ListProvenance_Other (k : Z).
Record ListOptions := MkListOptions { lType : ListType; lProvenance : ListProvenance }.

(** [slices.SortFunc(folders, fsx.Name.Compare)] sorts by this relation. *)
Definition name_le : relation Name := fun a b => Name_Compare a b <= 0.
#[export] Instance name_le_dec a b : Decision (name_le a b) := Z_le_dec _ _.

Section list.
Context (windows : bool) {E : Type} `{!FS E} (config : WorkspaceConfig) {W : Type} (Fprintln : W -> gostring -> W * option E).

Inductive list_error := Wrapf (msg : gostring) (e : E) | NoModules | UnknownListType (k : Z) | WriteFailed (e : E).

Definition modules_state : Type := list Name * option list_error.
Definition goModules_body (provenance : ListProvenance) (entryRes : Result DirEntry E) (st : modules_state) : go (modules_state * bool) :=
  let '(folders, ret) := st in
  let '(entry, err) := rGet entryRes in
  match err with
  | Some e => Ret ((folders, Some (Wrapf (str "read directory " ++ avalue Root) e)), false)
  | None =>
      if negb (de_IsDir entry) then Ret (st, true)
      else
        let name := de_name entry in
        goModRel ← RelPath_JoinComponents windows Dot [Name_String name; str "go.mod"];
        match fsStat goModRel (MkStatOptions true false) with
        | inr _ => Ret (st, true)
        | inl _ =>
            project ← MustParseRelPath windows (Name_String name);
            let isForked := bool_decide (is_Some (ForkedFolders config !! project)) in
            Ret ((match provenance with
                  | ListProvenance_All => folders ++ [name]
                  | ListProvenance_FirstParty => if negb isForked then folders ++ [name] else folders
                  | ListProvenance_Forked => if isForked then folders ++ [name] else folders
                  | ListProvenance_Other _ => folders
                  end, ret), true)
        end
  end.
Definition goModules (provenance : ListProvenance) : go (list Name + list_error) :=
  '(folders, ret) ← for_range (fsReadDir Dot) (goModules_body provenance) ([], None);
  match ret with
  | Some e => Ret (inr e)
  | None =>
      let folders := sort_Slice name_le folders in
      if zlen folders =? 0 then Ret (inr NoModules) else Ret (inl folders)
  end.

Fixpoint print_folders (w : W) (folders : list Name) : W * option list_error :=
  match folders with
  | [] => (w, None)
  | f :: folders =>
      let '(w, err) := Fprintln w (Name_String f) in
      match err with Some e => (w, Some (WriteFailed e)) | None => print_folders w folders end
  end.
Definition listGoModules (out : W) (provenance : ListProvenance) : go (W * option list_error) :=
  r ← goModules provenance;
  match r with inr e => Ret (out, Some e) | inl folders => Ret (print_folders out folders) end.
Definition List (out : W) (opts : ListOptions) : go (W * option list_error) :=
  match lType opts with
  | ListType_GoModules => listGoModules out (lProvenance opts)
  | ListType_Other k => Ret (out, Some (UnknownListType k))
  end.
End list.

(** ** The order of names *)
Lemma strings_Compare_refl a : strings_Compare a a = 0.
Proof. induction a as [|x a IH]; [done|]. cbn. by rewrite Z.ltb_irrefl. Qed.

Lemma strings_Compare_antisym a b : strings_Compare b a = - strings_Compare a b.
Proof.
  revert b. induction a as [|x a IH]; intros [|y b]; cbn; try done.
  destruct (Z.ltb_spec x y), (Z.ltb_spec y x); try lia. apply IH.
Qed.

Lemma strings_Compare_eq a b : strings_Compare a b = 0 -> a = b.
Proof.
  revert b. induction a as [|x a IH]; intros [|y b]; cbn; try done.
  destruct (Z.ltb_spec x y), (Z.ltb_spec y x); try done. intros Heq. f_equal; [lia|by apply IH].
Qed.

Lemma strings_Compare_trans a b c : strings_Compare a b <= 0 -> strings_Compare b c <= 0 -> strings_Compare a c <= 0.
Proof.
  revert b c. induction a as [|x a IH]; intros [|y b] [|z c]; cbn; try lia.
  destruct (Z.ltb_spec x y), (Z.ltb_spec y x), (Z.ltb_spec y z), (Z.ltb_spec z y), (Z.ltb_spec x z), (Z.ltb_spec z x); try lia. apply IH.
Qed.

#[export] Instance name_le_order : TotalOrder name_le.
Proof.
  unfold name_le, Name_Compare. split; [split; [split|]|].
  - intros a. by rewrite strings_Compare_refl.
  - intros a b c. apply strings_Compare_trans.
  - intros [a] [b] H1 H2. cbn in *. rewrite strings_Compare_antisym in H2. f_equal. apply strings_Compare_eq. lia.
  - intros a b. unfold strict. rewrite (strings_Compare_antisym (nvalue a) (nvalue b)).
    destruct (Z.lt_trichotomy (strings_Compare (nvalue a) (nvalue b)) 0) as [|[H|]]; [left; lia|right; left|right; right; lia].
    destruct a, b. f_equal. by apply strings_Compare_eq.
Qed.

(** ** What is listed (Unix) *)
Section spec.
Context {E : Type} `{!FS E} (config : WorkspaceConfig).

Definition has_go_mod (e : DirEntry) : bool :=
  de_IsDir e && match fsStat (rel_path 0 [nvalue (de_name e); str "go.mod"] false) (MkStatOptions true false) with inl _ => true | inr _ => false end.
Definition forked (e : DirEntry) : bool := bool_decide (is_Some (ForkedFolders config !! MkRelPath (nvalue (de_name e)))).
Definition selected (provenance : ListProvenance) (e : DirEntry) : bool :=
  has_go_mod e && match provenance with
                  | ListProvenance_All => true
                  | ListProvenance_FirstParty => negb (forked e)
                  | ListProvenance_Forked => forked e
                  | ListProvenance_Other _ => false
                  end.
Definition modules (provenance : ListProvenance) (es : list DirEntry) : list Name :=
  map de_name (List.filter (selected provenance) es).

Lemma plain_rel_path name : plain name -> rel_path 0 [name] false = MkRelPath name.
Proof. intros [[Hne _] _]. cbn [rel_path]. unfold rel_path, render, body, climb. cbn. rewrite app_nil_r. by destruct name. Qed.

Lemma parse_plain name : plain name -> MustParseRelPath false name = Ret (MkRelPath name).
Proof.
  intros Hn. rewrite <- (plain_rel_path name) by done. rewrite <- (parse_render 0 [name]) by (by constructor).
  f_equal. destruct Hn as [[Hne _] _]. by destruct name.
Qed.

Lemma plain_go_mod : plain (str "go.mod").
Proof. repeat split; vm_compute; done. Qed.

Lemma goModules_body_spec provenance e folders ret :
  plain (nvalue (de_name e)) ->
  goModules_body false config provenance (Success e) (folders, ret) = Ret (folders ++ modules provenance [e], ret, true).
Proof.
  intros Hp. unfold goModules_body, modules, selected, has_go_mod. cbn [rGet Success err Core.rvalue List.filter].
  destruct (de_IsDir e); cbn [negb andb map]; [|by rewrite app_nil_r].
  pose proof (RelPath_JoinComponents_plain 0 [] false [nvalue (de_name e); str "go.mod"]) as Hj.
  change (rel_path 0 [] false) with Dot in Hj. cbn [app] in Hj. unfold Name_String.
  rewrite Hj, bind_ret by (repeat first [apply List.Forall_cons | apply List.Forall_nil | done | apply plain_go_mod]).
  destruct (fsStat _ _) as [info|err]; cbn [andb map]; [|by rewrite app_nil_r].
  rewrite parse_plain, bind_ret by done. unfold forked.
  destruct provenance; [|destruct (bool_decide _)..|]; cbn [negb map]; by rewrite ?app_nil_r.
Qed.

Lemma modules_loop provenance es rest folders :
  Forall (fun e => plain (nvalue (de_name e))) es ->
  for_list (map Success es ++ rest) (goModules_body false config provenance) (folders, None) =
  for_list rest (goModules_body false config provenance) (folders ++ modules provenance es, None).
Proof.
  intros Hes. revert folders. induction Hes as [|e es He _ IH]; intros folders; cbn [map app].
  - unfold modules. cbn. by rewrite app_nil_r.
  - cbn [for_list]. rewrite goModules_body_spec, bind_ret by done. cbv iota beta. rewrite IH. unfold modules. cbn [List.filter map].
    destruct (selected provenance e); cbn [map app]; by rewrite <- ?app_assoc, ?app_nil_r.
Qed.

Lemma modules_partition es :
  modules ListProvenance_All es ≡ₚ modules ListProvenance_FirstParty es ++ modules ListProvenance_Forked es.
Proof.
  induction es as [|e es IH]; [done|]. unfold modules, selected in *. cbn [List.filter].
  destruct (has_go_mod e); cbn [andb]; [|exact IH]. destruct (forked e); cbn [negb map]; rewrite IH; [|done]. by rewrite Permutation_middle.
Qed.

(** [kido list] writes the names of the directories at the root of the file system that
    have a [go.mod] and the requested provenance, one per line, sorted and so in an order that
    does not depend on that of the directory; it reports an error when there is none, and when
    the directory cannot be read to its end.  What is first-party and what is forked partition
    what there is.  (Unix; the directory lists plain names.) *)
Theorem kido_list_spec {W} (Fprintln : W -> gostring -> W * option E) (out : W) (provenance : ListProvenance)
  (es : list DirEntry) (failure : list (Result DirEntry E)) (stop : option E)
  (Hes : Forall (fun e => plain (nvalue (de_name e))) es)
  (Hread : Enumerates (fsReadDir Dot) (map Success es ++ failure))
  (Hstop : match failure with [] => stop = None | r :: _ => stop <> None /\ err r = stop end) :
  let names := modules provenance es in
  List false config Fprintln out (MkListOptions ListType_GoModules provenance) =
    match stop with
    | Some e => Ret (out, Some (Wrapf (str "read directory " ++ avalue Root) e))
    | None => Ret (if bool_decide (names = []) then (out, Some NoModules) else print_folders Fprintln out (sort_Slice name_le names))
    end /\
  StronglySorted name_le (sort_Slice name_le names) /\ sort_Slice name_le names ≡ₚ names /\
  (forall names', names' ≡ₚ names -> sort_Slice name_le names' = sort_Slice name_le names) /\
  modules ListProvenance_All es ≡ₚ modules ListProvenance_FirstParty es ++ modules ListProvenance_Forked es.
Proof.
  intros names. split_and!; [|apply StronglySorted_merge_sort; apply _|apply merge_sort_Permutation|
    intros; apply sort_Slice_unique; [apply _|done]|apply modules_partition].
  destruct failure as [|r failure]; [subst stop|destruct Hstop as [Hne Hr]; destruct stop as [e|]; [|done]]; unfold List, listGoModules, goModules; cbn [lType lProvenance];
    rewrite (for_range_spec _ _ _ _ Hread), modules_loop by done; cbn [for_list app].
  - rewrite bind_ret. cbv iota beta. fold names. assert (length (sort_Slice name_le names) = length names) as Hlen by (apply Permutation_length, merge_sort_Permutation).
    unfold zlen. rewrite Hlen. by destruct names.
  - unfold goModules_body, rGet. cbv beta iota zeta. rewrite Hr. done.
Qed.
End spec.

(** ** A concrete run *)
Definition sample_entries : list DirEntry :=
  [MkDirEntryI (MkName (str "tools")) true; MkDirEntryI (MkName (str "README.md")) false; MkDirEntryI (MkName (str "base")) true].
Definition sample_repo : FS unit :=
  {| Root := MkAbsPath (str "/r");
     fsStat := fun _ _ => inl (MkFileInfo false 420);
     fsReadFile := fun _ => inr tt;
     fsReadDir := fun _ => FromSlice (map Success sample_entries) |}.
(** The writer keeps what it is given. *)
Definition sample_Fprintln (w : list gostring) (s : gostring) : list gostring * option unit := (w ++ [s], None).

Lemma kido_list_spec_witness :
  Forall (fun e => plain (nvalue (de_name e))) sample_entries /\
  @List false unit sample_repo sample_cfg _ sample_Fprintln [] (MkListOptions ListType_GoModules ListProvenance_All) =
    Ret ([str "base"; str "tools"], None).
Proof.
  assert (Forall (fun e => plain (nvalue (de_name e))) sample_entries) as Hp.
  { repeat first [apply List.Forall_cons | apply List.Forall_nil]; repeat split; vm_compute; done. }
  split; [exact Hp|].
  destruct (@kido_list_spec unit sample_repo sample_cfg _ sample_Fprintln [] ListProvenance_All sample_entries [] None Hp) as [H _].
  { rewrite app_nil_r. apply FromSlice_enumerates. }
  { reflexivity. }
  rewrite H. vm_compute. reflexivity.
Defined.
