(* ===== verification/KidoMain.v ===== *)
(** * The command line of kido ([misc/cmd/kido/main.go], [loadWorkspaceConfig] of [list.go])

    An [invocation] is what the command-line library hands to the action of a
    command: the values of its flags, [None] for a flag that is not set.  [main]
    composes the discovery of the workspace, the validation of its configuration,
    the selection of the projects and the command itself, as a program over the
    trace of Cmdx.  The host's file system is a parameter: what is at a path, the
    file that is opened and what the JSON decoder reads from it, and the rooted
    file system that [list] reads.  [getWorkspace] is called at most once by every
    action, so remembering its result changes nothing.  The timeouts that the
    actions put on their token, and logging, are not modelled. *)
From stdpp Require Import sorting.
From S2P Require Import Prelude Quote GoStrings Core Iterx HashSet GoFilepath CleanSpec Lexical PathComponents RelSpec PathTypes PathLaws GoTime Durations Timex FsOpt Fsx Config Cmdx SyncBranch SyncPR KidoBenchmark KidoList.
#[local] Open Scope Z_scope.

(** ** Invocations *)
Inductive invocation :=
  | SyncBranchCmd (project : gostring) (base : option gostring) (push persist : bool)
  | SyncPRCmd (project : gostring) (base : option gostring)
  | ListCmd (type_ : gostring) (provenance : option gostring)
  | BenchmarkCmd (f : flags).

Section main.
Context {E : Type}.

Inductive kerror :=
  | KLeaf (e : E)
  | KWrap (msg : gostring) (e : kerror)
  | KNew (msg : gostring)
  | KPath (e : RelPathParseError)
  | KConfig (es : list config_error)
  | KSync (e : SyncBranch.serror (E := E))
  | KList (e : KidoList.list_error (E := E))
  | KBench (e : KidoBenchmark.berror (E := E)).

Context (o : oracle (E := E)) (GOOS GOARCH : gostring) (ToUpper : gostring -> gostring).
#[local] Notation windows := (bool_decide (GOOS = str "windows")).
Context (parsePRs : gostring -> list ListOpenPRsData + E) (parseLabels : gostring -> list gostring + E).
Context (show : parsedSubtreeMetadata -> gostring) (clock : list (event (E := E)) -> Timestamp) (grow : nat -> nat) (lookup : positive -> Z -> Z).
(** Whether a path is a directory; opening a file below a root; closing and decoding it; the
    rooted file system; whether a write to the standard output fails. *)
Context {File : Type} (host_IsDir : gostring -> bool + E) (host_OpenFile : AbsPath -> gostring -> Z -> Z -> File + E)
  (host_Close : File -> option E) (Decode : File -> WorkspaceConfigJSON + E) (host_FS : AbsPath -> FS E) (host_Write : list (event (E := E)) -> option E).
(** The orders in which maps are visited. *)
Context (map_order : gset GitHubRepo -> list GitHubRepo) (le : relation GitHubRepo) `{!forall x y, Decision (le x y)} (keys : gmap RelPath ForkedFolder -> list RelPath).

(** ** The workspace *)

(** [fsx.NewRootedFS] over the host's file system: the root is all there is to it. *)
Definition NewRootedFS (root : AbsPath) : AbsPath + kerror :=
  match host_IsDir (AbsPath_String root) with
  | inr err => inr (KWrap (str "stat fs root " ++ AbsPath_String root) (KLeaf err))
  | inl isDir => if negb isDir then inr (KNew (str "fs root " ++ AbsPath_String root ++ str " is not a directory")) else inl root
  end.
Definition Load (f : File) : go (WorkspaceConfig + kerror) :=
  match Decode f with
  | inr err => Ret (inr (KWrap (str "parse workspace configuration") (KLeaf err)))
  | inl wcJSON => r ← Validate windows map_order le wcJSON; Ret (match r with inl wc => inl wc | inr es => inr (KConfig es) end)
  end.
Definition loadWorkspaceConfig (root : AbsPath) : go (WorkspaceConfig + kerror) :=
  path ← MustParseRelPath windows (str "misc/repo-configuration.json");
  f ← OpenReadOnly (host_OpenFile root) (RelPath_String path);
  match f with
  | inr err => Ret (inr (KWrap (str "open " ++ RelPath_String path) (KLeaf err)))
  | inl f =>
      r ← Load f;
      let r := match r with inl wc => inl wc | inr err => inr (KWrap (str "load " ++ RelPath_String path) err) end in
      (** The deferred function. *)
      Ret (match host_Close f, r with Some err, inl _ => inr (KWrap (str "close " ++ RelPath_String path) (KLeaf err)) | _, _ => r end)
  end.

Record Workspace := MkWorkspace { wRoot : AbsPath; wConfig : WorkspaceConfig }.
Definition newWorkspaceFromGit : prog (E := E) (Workspace + kerror) :=
  repoRootCmd ← lift (New [str "git"; str "rev-parse"; str "--show-toplevel"]);
  '(output, err) ← Run o repoRootCmd (WithCaptureStdout RunOptionsDefault);
  match err with
  | Some err => mret (inr (KWrap (str "determine git repository root") (KLeaf err)))
  | None =>
      repoRoot ← lift (MustParseAbsPath windows (trim_space (Stdout output)));
      match NewRootedFS repoRoot with
      | inr err => mret (inr (KWrap (str "open repo filesystem at " ++ AbsPath_String repoRoot) err))
      | inl repoFS => wsConfig ← lift (loadWorkspaceConfig repoFS); mret (match wsConfig with inl wc => inl (MkWorkspace repoFS wc) | inr err => inr err end)
      end
  end.

(** ** The actions *)
Definition project_arg (project : gostring) : go (RelPath + kerror) :=
  r ← ParseRelPath windows project;
  Ret (match r with inl p => inl p | inr err => inr (KWrap (str "in argument for --project") (KPath err)) end).
Definition resolve (project : RelPath) : prog (E := E) (Workspace * list RelPath + kerror) :=
  ws ← newWorkspaceFromGit;
  mret (match ws with
        | inr err => inr err
        | inl ws => match resolveProjects (E := E) quoted (inl (wConfig ws)) (keys (ForkedFolders (wConfig ws))) project with
                    | inr err => inr (KBench err)
                    | inl (_, projects) => inl (ws, projects)
                    end
        end).
Definition sync_branch_action (project : gostring) (base : option gostring) (push persist : bool) : prog (E := E) (option kerror) :=
  projectArg ← lift (project_arg project);
  match projectArg with
  | inr err => mret (Some err)
  | inl projectArg =>
      r ← resolve projectArg;
      match r with
      | inr err => mret (Some err)
      | inl (ws, projects) =>
          err ← runSyncBranch o windows trim_space quoted fields (wRoot ws) (wConfig ws) projects (MkRunSyncBranchOptions base push persist);
          mret (KSync <$> err)
      end
  end.
Definition sync_pr_action (project : gostring) (base : option gostring) : prog (E := E) (option kerror) :=
  projectArg ← lift (project_arg project);
  match projectArg with
  | inr err => mret (Some err)
  | inl projectArg =>
      r ← resolve projectArg;
      match r with
      | inr err => mret (Some err)
      | inl (ws, projects) =>
          err ← runSyncPR o trim_space quoted fields parsePRs parseLabels show clock grow lookup (wRoot ws) projects (MkRunSyncPROptions base);
          mret (KSync <$> err)
      end
  end.

Definition list_options (type_ : gostring) (provenance : option gostring) : ListOptions + kerror :=
  if bool_decide (type_ = str "go-module") then
    match provenance with
    | None => inl (MkListOptions ListType_GoModules ListProvenance_All)
    | Some p =>
        if bool_decide (p = str "first-party") then inl (MkListOptions ListType_GoModules ListProvenance_FirstParty)
        else if bool_decide (p = str "forked") then inl (MkListOptions ListType_GoModules ListProvenance_Forked)
        else inr (KNew (str "unknown --provenance " ++ quoted p ++ str ", want first-party|forked"))
    end
  else inr (KNew (str "unknown --type " ++ quoted type_ ++ str ", want go-module")).
(** [fmt.Fprintln(os.Stdout, s)] *)
Definition Println (tr : list (event (E := E))) (s : gostring) : list (event (E := E)) * option E :=
  match host_Write tr with Some err => (tr, Some err) | None => (tr ++ [Printed (s ++ [10])], None) end.
(** [ws.List(logger, os.Stdout, opts)]: what is written is part of the trace. *)
Definition list_stdout (ws : Workspace) (opts : ListOptions) : prog (E := E) (option (KidoList.list_error (E := E))) := fun tr =>
  @KidoList.List windows E (host_FS (wRoot ws)) (wConfig ws) _ Println tr opts.
Definition list_action (type_ : gostring) (provenance : option gostring) : prog (E := E) (option kerror) :=
  ws ← newWorkspaceFromGit;
  match ws with
  | inr err => mret (Some err)
  | inl ws =>
      match list_options type_ provenance with
      | inr err => mret (Some err)
      | inl opts => err ← list_stdout ws opts; mret (KList <$> err)
      end
  end.

Definition benchmark_action (f : flags) : prog (E := E) (option kerror) :=
  ws ← newWorkspaceFromGit;
  match ws with
  | inr err => mret (Some err)
  | inl ws =>
      options ← lift (benchmark_options o GOOS GOARCH ToUpper (wRoot ws) quoted f);
      match options with
      | inr err => mret (Some (KBench err))
      | inl options =>
          err ← @Benchmark E o GOOS (wRoot ws) _ (MakeBash_config o GOOS ToUpper (wRoot ws)) options;
          mret (KBench <$> err)
      end
  end.

Definition action (inv : invocation) : prog (E := E) (option kerror) :=
  match inv with
  | SyncBranchCmd project base push persist => sync_branch_action project base push persist
  | SyncPRCmd project base => sync_pr_action project base
  | ListCmd type_ provenance => list_action type_ provenance
  | BenchmarkCmd f => benchmark_action f
  end.
(** The exit status. *)
Definition main (inv : invocation) : prog (E := E) Z :=
  err ← action inv; mret (match err with Some _ => 1 | None => 0 end).
End main.

#[export] Instance path_le_trans : Transitive path_le.
Proof. intros a b c. unfold path_le, RelPath_Compare. apply strings_Compare_trans. Qed.
#[export] Instance path_le_total : Total path_le.
Proof. intros a b. unfold path_le, RelPath_Compare. rewrite (strings_Compare_antisym (PathTypes.rvalue a) (PathTypes.rvalue b)). lia. Qed.

Lemma prog_bind_at {E A B} (m : prog (E := E) A) (f : A -> prog (E := E) B) tr tr' a : m tr = Ret (tr', a) -> (m ≫= f) tr = f a tr'.
Proof. intros Hm. change ((m ≫= f) tr) with ('(tr, a) ← m tr; f a tr). by rewrite Hm, bind_ret. Qed.

(** ** What an invocation does *)
Section contract.
Context {E : Type} (o : oracle (E := E)) (GOOS GOARCH : gostring) (ToUpper : gostring -> gostring).
Context (parsePRs : gostring -> list ListOpenPRsData + E) (parseLabels : gostring -> list gostring + E).
Context (show : parsedSubtreeMetadata -> gostring) (clock : list (event (E := E)) -> Timestamp) (grow : nat -> nat) (lookup : positive -> Z -> Z).
Context {File : Type} (host_IsDir : gostring -> bool + E) (host_OpenFile : AbsPath -> gostring -> Z -> Z -> File + E)
  (host_Close : File -> option E) (Decode : File -> WorkspaceConfigJSON + E) (host_FS : AbsPath -> FS E) (host_Write : list (event (E := E)) -> option E).
Context (map_order : gset GitHubRepo -> list GitHubRepo) (le : relation GitHubRepo) `{!forall x y, Decision (le x y)} (keys : gmap RelPath ForkedFolder -> list RelPath).
#[local] Notation ev := (event (E := E)).

Definition toplevel_cmd : Cmd := MkCmd (str "git") [str "rev-parse"; str "--show-toplevel"] None.
Definition config_path : gostring := str "misc/repo-configuration.json".

(** Unix; git prints an absolute path for the root of the repository, and what it resolved for
    a revision; temporary directories are below the root; every order of a set or map visits
    all of it; directories list plain names, and end or fail. *)
Context (Hgoos : GOOS <> str "windows").
Context (Htop : forall tr opts out, o_run o tr toplevel_cmd opts = (out, None) -> is_rooted (trim_space (Stdout out)) = true).
Context (Hrevparse : forall tr c opts out, o_run o tr c opts = (out, None) -> head (cargs c) = Some (str "rev-parse") -> trim_space (Stdout out) <> []).
Context (Htemp : forall tr d p w, o_mkdirtemp o tr d p = inl w -> exists n ds tw, wf_rel w n ds tw).
Context (Horder : forall s, map_order s ≡ₚ elements s) (Hkeys : forall m, keys m ≡ₚ (map_to_list m).*1).
Context (Hlist : forall root, exists es (failure : list (Result DirEntry E)) stop, Forall (fun e => plain (nvalue (de_name e))) es /\
  Enumerates (@fsReadDir E (host_FS root) Dot) (map Success es ++ failure) /\ match failure with [] => stop = None | r :: _ => stop <> None /\ err r = stop end).

(** The workspace below the root that git printed, with the configuration that was read there. *)
Definition workspace_at (out : RunOutput) (ws : Workspace) : Prop :=
  wRoot ws = MkAbsPath (lexical_spec (trim_space (Stdout out))) /\ host_IsDir (AbsPath_String (wRoot ws)) = inl true /\
  exists f wc, host_OpenFile (wRoot ws) config_path O_RDONLY 0 = inl f /\ Decode f = inl wc /\ host_Close f = None /\
    valid_config wc /\ Validate false map_order le wc = Ret (inl (wConfig ws)).
(** The projects that a flag selects: one or more forked folders. *)
Definition selects (cfg : WorkspaceConfig) (project : gostring) (ps : list RelPath) : Prop :=
  exists p, ParseRelPath false project = Ret (inl p) /\ ps <> [] /\ Forall (fun p => is_Some (ForkedFolders cfg !! p)) ps /\
    if bool_decide (RelPath_String p = str "all") then StronglySorted path_le ps /\ ps ≡ₚ (map_to_list (ForkedFolders cfg)).*1 else ps = [p].

(** The modules that [kido list] is asked for. *)
Definition lists (type_ : gostring) (provenance : option gostring) (p : ListProvenance) : Prop :=
  type_ = str "go-module" /\
  match p with
  | ListProvenance_All => provenance = None
  | ListProvenance_FirstParty => provenance = Some (str "first-party")
  | ListProvenance_Forked => provenance = Some (str "forked")
  | ListProvenance_Other _ => False
  end.
(** The names are printed on lines of their own up to the first write that fails. *)
Definition lines (names : list Name) : list ev := map (fun name => Printed (Name_String name ++ [10])) names.
Definition prints (tr : list ev) (names : list Name) (evs : list ev) (failed : bool) : Prop :=
  exists n, evs = lines (take n names) /\ (forall k, (k < n)%nat -> host_Write (tr ++ lines (take k names)) = None) /\
    if failed then (n < length names)%nat /\ host_Write (tr ++ evs) <> None else n = length names.

(** What the command does after [tr], once the workspace is known, and whether it fails. *)
Inductive ran (tr : list ev) (ws : Workspace) : invocation -> list ev -> bool -> Prop :=
  | ran_sync_branch project base push persist ps evs err : selects (wConfig ws) project ps ->
      sync_trace trim_space quoted fields (wRoot ws) (wConfig ws) ps (MkRunSyncBranchOptions base push persist) evs err ->
      ran tr ws (SyncBranchCmd project base push persist) evs (bool_decide (is_Some err))
  | ran_sync_pr project base ps evs err : selects (wConfig ws) project ps ->
      each_trace (pr_trace trim_space fields parsePRs parseLabels clock lookup (wRoot ws) (default (str "main") base)) ps evs err ->
      ran tr ws (SyncPRCmd project base) evs (bool_decide (is_Some err))
  | ran_list_nothing type_ provenance p es failure : lists type_ provenance p ->
      Enumerates (@fsReadDir E (host_FS (wRoot ws)) Dot) (map Success es ++ failure) ->
      failure <> [] \/ @modules E (host_FS (wRoot ws)) (wConfig ws) p es = [] ->
      ran tr ws (ListCmd type_ provenance) [] true
  | ran_list type_ provenance p es evs failed : lists type_ provenance p ->
      Enumerates (@fsReadDir E (host_FS (wRoot ws)) Dot) (map Success es) ->
      let names := @modules E (host_FS (wRoot ws)) (wConfig ws) p es in
      names <> [] -> prints tr (sort_Slice name_le names) evs failed ->
      ran tr ws (ListCmd type_ provenance) evs failed
  | ran_benchmark f options evs (err : option (berror (E := E))) (Hroot : exists er tr, wf_abs (wRoot ws) er tr) :
      asked_for GOOS GOARCH f options ->
      @benchmark_trace E (wRoot ws) MakeBashBenchmark (MakeBash_config o GOOS ToUpper (wRoot ws)) (MakeBash_contract o GOOS ToUpper (wRoot ws) Hgoos Hroot) options evs err ->
      ran tr ws (BenchmarkCmd f) evs (bool_decide (is_Some err)).

(** The project flag of an invocation, and what is rejected in a workspace. *)
Definition project_flag (inv : invocation) : option gostring :=
  match inv with SyncBranchCmd project _ _ _ | SyncPRCmd project _ => Some project | _ => None end.
Definition rejected (ws : Workspace) (inv : invocation) : Prop :=
  match inv with
  | SyncBranchCmd project _ _ _ | SyncPRCmd project _ =>
      forall p, ParseRelPath false project = Ret (inl p) -> RelPath_String p <> str "all" /\ ForkedFolders (wConfig ws) !! p = None
  | ListCmd type_ provenance => forall p, ~ lists type_ provenance p
  | BenchmarkCmd f => forall options, ~ asked_for GOOS GOARCH f options
  end.
(** After [tr], an invocation does nothing when its project is no relative path; it only looks
    for the repository when there is no workspace or its flags are rejected there; and otherwise
    it runs the command. *)
Inductive does (tr : list ev) : invocation -> list ev -> bool -> Prop :=
  | does_usage inv project : project_flag inv = Some project -> (forall p, ParseRelPath false project <> Ret (inl p)) -> does tr inv [] true
  | does_nothing inv out err : (forall project, project_flag inv = Some project -> exists p, ParseRelPath false project = Ret (inl p)) ->
      (err = None -> forall ws, workspace_at out ws -> rejected ws inv) ->
      does tr inv [Ran toplevel_cmd (WithCaptureStdout RunOptionsDefault) out err] true
  | does_command inv out ws evs failed : workspace_at out ws ->
      let top := Ran toplevel_cmd (WithCaptureStdout RunOptionsDefault) out None in
      ran (tr ++ [top]) ws inv evs failed -> does tr inv (top :: evs) failed.

Lemma workspace_at_unique out ws ws' : workspace_at out ws -> workspace_at out ws' -> ws' = ws.
Proof.
  intros (R1 & _ & f & wc & F1 & D1 & _ & _ & V1) (R2 & _ & f' & wc' & F2 & D2 & _ & _ & V2). destruct ws as [root cfg], ws' as [root' cfg']. cbn [wRoot wConfig] in *.
  subst root root'. congruence.
Qed.

Lemma windows_off : bool_decide (GOOS = str "windows") = false.
Proof. by apply bool_decide_eq_false_2. Qed.

Lemma loadWorkspaceConfig_spec root : exists r, loadWorkspaceConfig (E := E) GOOS host_OpenFile host_Close Decode map_order le root = Ret r /\
  match r with
  | inr _ => forall f wc cfg, host_OpenFile root config_path O_RDONLY 0 = inl f -> Decode f = inl wc -> host_Close f = None -> Validate false map_order le wc <> Ret (inl cfg)
  | inl cfg => exists f wc, host_OpenFile root config_path O_RDONLY 0 = inl f /\ Decode f = inl wc /\ host_Close f = None /\ valid_config wc /\ Validate false map_order le wc = Ret (inl cfg)
  end.
Proof.
  unfold loadWorkspaceConfig, Load. rewrite windows_off.
  change (MustParseRelPath false (str "misc/repo-configuration.json")) with (Ret (MkRelPath config_path)). rewrite bind_ret.
  change (OpenReadOnly (host_OpenFile root) (RelPath_String (MkRelPath config_path))) with (Ret (host_OpenFile root config_path O_RDONLY 0)). rewrite bind_ret.
  destruct (host_OpenFile root config_path O_RDONLY 0) as [f|e]; [|by eexists]. destruct (Decode f) as [wc|e] eqn:Hdec; rewrite ?bind_ret.
  - destruct (Validate_cases map_order Horder le wc) as [[Hv Hr]|[Hv (e & es & Hr)]]; rewrite Hr, !bind_ret; eexists; (split; [reflexivity|]).
    + destruct (host_Close f) eqn:Hc; [by intros f' ? ? [= <-] _ ?; congruence|]. by exists f, wc.
    + assert (forall f' wc' cfg, (inl f : File + E) = inl f' -> Decode f' = inl wc' -> host_Close f' = None -> Validate false map_order le wc' <> Ret (inl cfg)) as Hno; [|by destruct (host_Close f)].
      intros f' wc' cfg [= <-] Hd _. rewrite Hdec in Hd. injection Hd as <-. by rewrite Hr.
  - eexists. split; [reflexivity|]. assert (forall f' wc' cfg, (inl f : File + E) = inl f' -> Decode f' = inl wc' -> host_Close f' = None -> Validate false map_order le wc' <> Ret (inl cfg)) as Hno; [|by destruct (host_Close f)].
    intros f' wc' cfg [= <-] Hd. congruence.
Qed.

#[local] Notation newWorkspaceFromGit := (newWorkspaceFromGit o GOOS host_IsDir host_OpenFile host_Close Decode map_order le).
Lemma newWorkspace_emits : emits newWorkspaceFromGit (fun evs r =>
  exists out err, evs = [Ran toplevel_cmd (WithCaptureStdout RunOptionsDefault) out err] /\
    match r with inl ws => err = None /\ workspace_at out ws /\ exists er tr, wf_abs (wRoot ws) er tr | inr _ => err = None -> forall ws, ~ workspace_at out ws end).
Proof.
  unfold newWorkspaceFromGit. rewrite New_cons.
  eapply emits_bind; [by apply (emits_lift _ toplevel_cmd (fun evs c => evs = [] /\ c = toplevel_cmd))|]. intros ? ? [-> ->].
  eapply emits_bind.
  { apply (emits_Run_oracle _ _ _ (fun evs r => evs = [Ran toplevel_cmd (WithCaptureStdout RunOptionsDefault) r.1 r.2] /\ (r.2 = None -> is_rooted (trim_space (Stdout r.1)) = true))).
    intros tr out err Ho. split; [done|]. cbn [fst snd]. intros ->. by apply (Htop _ _ _ Ho). }
  intros ? [out [e|]] [-> Hr]; cbn [fst snd] in *; [apply emits_ret; by exists out, (Some e)|]. specialize (Hr eq_refl). rewrite windows_off, parse_abs by done.
  pose proof (proj1 (proj2 (proj2 (path_parse_spec quoted (trim_space (Stdout out)))))) as Hwf. rewrite Hr in Hwf. set (root := MkAbsPath (lexical_spec (trim_space (Stdout out)))) in *.
  eapply emits_bind; [by apply (emits_lift _ root (fun evs r => evs = [] /\ r = root))|]. intros ? ? [-> ->].
  unfold NewRootedFS. destruct (host_IsDir (AbsPath_String root)) as [[]|e] eqn:Hdir; cbn [negb].
  2,3: apply emits_ret; exists out, None; (split; [done|]); intros _ ws (Hws & Hd & _); rewrite Hws in Hd; fold root in Hd; congruence.
  destruct (loadWorkspaceConfig_spec root) as (r & Hload & Hcfg).
  eapply emits_bind; [by apply (emits_lift _ r (fun evs r' => evs = [] /\ r' = r))|]. intros ? ? [-> ->]. apply emits_ret. exists out, None. split; [done|].
  destruct r as [cfg|e].
  - split; [done|]. split; [|done]. split; [done|]. split; [done|exact Hcfg].
  - intros _ ws (Hws & _ & f & wc & Hf & Hd & Hc & _ & Hv). rewrite Hws in Hf. by apply (Hcfg f wc (wConfig ws)).
Qed.

(** What all actions share: without a workspace nothing more happens. *)
Lemma with_workspace_emits {A} (f : Workspace -> prog (E := E) A) (fail : kerror (E := E) -> prog (E := E) A) (Q : list ev -> A -> Prop) :
  (forall out err e, (err = None -> forall ws, ~ workspace_at out ws) -> emits (fail e) (fun evs => Q (Ran toplevel_cmd (WithCaptureStdout RunOptionsDefault) out err :: evs))) ->
  (forall out ws, workspace_at out ws -> (exists er tr, wf_abs (wRoot ws) er tr) -> emits (f ws) (fun evs => Q (Ran toplevel_cmd (WithCaptureStdout RunOptionsDefault) out None :: evs))) ->
  emits (r ← newWorkspaceFromGit; match r with inr e => fail e | inl ws => f ws end) Q.
Proof.
  intros Hfail Hok. eapply emits_bind; [apply newWorkspace_emits|]. intros ? [ws|e] (out & err & -> & Hr); [|by apply Hfail]. destruct Hr as (-> & Hws & Hwf). by apply Hok.
Qed.

Lemma selected_projects cfg wc (p : RelPath) : valid_config wc -> Validate false map_order le wc = Ret (inl cfg) ->
  match resolveProjects (E := E) quoted (inl cfg) (keys (ForkedFolders cfg)) p with
  | inr _ => RelPath_String p <> str "all" /\ ForkedFolders cfg !! p = None
  | inl (_, ps) => ps <> [] /\ Forall (fun p => is_Some (ForkedFolders cfg !! p)) ps /\
      if bool_decide (RelPath_String p = str "all") then StronglySorted path_le ps /\ ps ≡ₚ (map_to_list (ForkedFolders cfg)).*1 else ps = [p]
  end.
Proof.
  intros Hv Hval. destruct (Validate_cases map_order Horder le wc) as [[_ Hr]|[Hn _]]; [|done]. rewrite Hval in Hr. injection Hr as ->. unfold resolveProjects. cbn [ForkedFolders].
  set (m := folders_of (wjForkedFolders wc)). case_bool_decide.
  - assert (SortedMapKeysFunc path_le (keys m) ≡ₚ (map_to_list m).*1) as Hp.
    { unfold SortedMapKeysFunc. by rewrite merge_sort_Permutation. }
    assert (forall q, q ∈ SortedMapKeysFunc path_le (keys m) <-> is_Some (m !! q)) as Hin.
    { intros q. rewrite Hp, list_elem_of_fmap. split.
      - intros ([q' f] & -> & Hq%elem_of_map_to_list). by exists f.
      - intros [f Hf]. exists (q, f). split; [done|]. by apply elem_of_map_to_list. }
    split_and!; [|by apply Forall_forall; intros q Hq; apply Hin|unfold SortedMapKeysFunc; apply StronglySorted_merge_sort; apply _|done].
    intros Hnil. destruct Hv as [Hne _ Hnd _ _ _ _]. destruct (wjForkedFolders wc) as [|j l] eqn:Hl; [done|].
    assert (is_Some (m !! folder_path j)) as Hj.
    { exists (folder_of j). apply (insert_all_represents folder_path folder_of (j :: l)); [done|]. exists j. split; [left|done]. }
    apply Hin in Hj. rewrite Hnil in Hj. by apply elem_of_nil in Hj.
  - destruct (m !! p) as [f|] eqn:Hf; [|done]. split_and!; [done| |done]. constructor; [by exists f|done].
Qed.

#[local] Notation does_emits inv m := (forall tr, emits m (fun evs err => does tr inv evs (bool_decide (is_Some err)))).

(** The two actions that synchronize: [cmd] is what they do with the projects. *)
Lemma sync_action_emits inv project (cmd : Workspace -> list RelPath -> prog (E := E) (option (serror (E := E)))) :
  project_flag inv = Some project ->
  (forall ws, (forall p, ParseRelPath false project = Ret (inl p) -> RelPath_String p <> str "all" /\ ForkedFolders (wConfig ws) !! p = None) -> rejected ws inv) ->
  (forall ws ps, selects (wConfig ws) project ps -> (exists er tr, wf_abs (wRoot ws) er tr) ->
     forall tr, emits (cmd ws ps) (fun evs err => ran tr ws inv evs (bool_decide (is_Some err)))) ->
  does_emits inv (projectArg ← lift (project_arg (E := E) GOOS project);
    match projectArg with
    | inr err => mret (Some err)
    | inl projectArg =>
        r ← resolve o GOOS host_IsDir host_OpenFile host_Close Decode map_order le keys projectArg;
        match r with
        | inr err => mret (Some err)
        | inl (ws, projects) => err ← cmd ws projects; mret (KSync <$> err)
        end
    end).
Proof.
  intros Hflag Hrej Hcmd tr. unfold project_arg. rewrite windows_off. pose proof (ParseRelPath_unix project) as Hparse.
  assert (exists r, ParseRelPath false project = Ret r) as [r Hr] by (rewrite Hparse; by repeat case_match; eexists).
  rewrite Hr, bind_ret. destruct r as [p|e].
  2:{ eapply emits_bind; [by apply (emits_lift _ (inr (KWrap (str "in argument for --project") (KPath e))) (fun evs r => evs = [] /\ r = inr (KWrap (str "in argument for --project") (KPath e))))|].
      intros ? ? [-> ->]. apply emits_ret. apply (does_usage tr inv project Hflag). intros p Hp. congruence. }
  eapply emits_bind; [by apply (emits_lift _ (inl p) (fun evs r => evs = [] /\ r = inl p))|]. intros ? ? [-> ->].
  eapply (emits_bind _ _ (fun evs r => exists out err, evs = [Ran toplevel_cmd (WithCaptureStdout RunOptionsDefault) out err] /\
    match r with inl (ws, ps) => err = None /\ workspace_at out ws /\ (exists er tr, wf_abs (wRoot ws) er tr) /\ selects (wConfig ws) project ps
    | inr _ => err = None -> forall ws, workspace_at out ws -> rejected ws inv end)).
  { unfold resolve. eapply emits_bind; [apply newWorkspace_emits|]. intros ? [ws|e] (out & err & -> & Hws); apply emits_ret; exists out, err; (split; [done|]); [|by intros Herr ws ?%(Hws Herr)].
    destruct Hws as (-> & Hws & Hwf). pose proof Hws as (_ & _ & f & wc & _ & _ & _ & Hv & Hval). pose proof (selected_projects _ _ p Hv Hval) as Hps.
    destruct (resolveProjects _ _ _ p) as [[cfg ps]|e].
    - split_and!; [done..|]. exists p. by split.
    - intros _ ws' Hws'. rewrite (workspace_at_unique _ _ _ Hws Hws'). apply Hrej. intros p' Hp'. rewrite Hr in Hp'. by injection Hp' as <-. }
  intros ? [[ws ps]|e] (out & err & -> & Hws).
  2:{ apply emits_ret. apply does_nothing; [|done]. intros project' Hp'. rewrite Hflag in Hp'. injection Hp' as <-. by exists p. }
  destruct Hws as (-> & Hws & Hwf & Hsel).
  eapply emits_bind; [by apply (Hcmd ws ps Hsel Hwf (tr ++ [Ran toplevel_cmd (WithCaptureStdout RunOptionsDefault) out None]))|]. intros evs err Hran. apply emits_ret. rewrite app_nil_r. cbn [app].
  replace (bool_decide (is_Some (KSync <$> err))) with (bool_decide (is_Some err)) by (by destruct err). by apply (does_command tr _ out ws).
Qed.

Lemma sync_branch_emits project base push persist : does_emits (SyncBranchCmd project base push persist)
  (sync_branch_action o GOOS host_IsDir host_OpenFile host_Close Decode map_order le keys project base push persist).
Proof.
  apply sync_action_emits; [done|done|]. intros ws ps Hsel Hwf tr. rewrite windows_off. pose proof Hsel as (_ & _ & Hne & _).
  eapply emits_mono; [by apply runSyncBranch_emits|]. intros evs err Ht. by eapply ran_sync_branch.
Qed.
Lemma sync_pr_emits project base : does_emits (SyncPRCmd project base)
  (sync_pr_action o GOOS parsePRs parseLabels show clock grow lookup host_IsDir host_OpenFile host_Close Decode map_order le keys project base).
Proof.
  apply sync_action_emits; [done|done|]. intros ws ps Hsel Hwf tr. pose proof Hsel as (_ & _ & Hne & _).
  eapply emits_mono; [by apply runSyncPR_emits|]. intros evs err Ht. by eapply ran_sync_pr.
Qed.

Lemma list_options_spec type_ provenance :
  match list_options (E := E) type_ provenance with
  | inl opts => exists p, opts = MkListOptions ListType_GoModules p /\ lists type_ provenance p
  | inr _ => forall p, ~ lists type_ provenance p
  end.
Proof.
  unfold list_options. case_bool_decide as Ht; [|by intros p [? _]]. destruct provenance as [s|]; [|by exists ListProvenance_All].
  case_bool_decide as H1; [subst; by exists ListProvenance_FirstParty|]. case_bool_decide as H2; [subst; by exists ListProvenance_Forked|].
  intros [] [_ Hp]; congruence.
Qed.

Lemma print_folders_trace tr names : exists evs (err : option E),
  print_folders (Println host_Write) tr names = (tr ++ evs, WriteFailed <$> err) /\ prints tr names evs (bool_decide (is_Some err)).
Proof.
  revert tr. induction names as [|name names IH]; intros tr.
  { exists [], None. rewrite app_nil_r. split; [done|]. exists 0%nat. split_and!; [done|lia|done]. }
  cbn [print_folders]. unfold Println at 1. destruct (host_Write tr) as [e|] eqn:Hw.
  { exists [], (Some e). rewrite app_nil_r. split; [done|]. exists 0%nat. split_and!; [done|lia|]. rewrite app_nil_r, Hw. cbn [length bool_decide is_Some]. split; [lia|done]. }
  destruct (IH (tr ++ [Printed (Name_String name ++ [10])])) as (evs & err & -> & n & -> & Hk & Hn).
  exists (Printed (Name_String name ++ [10]) :: lines (take n names)), err. rewrite <- app_assoc. split; [done|]. exists (S n). split; [done|]. split.
  - intros [|k] Hlt; [by rewrite app_nil_r|]. specialize (Hk k ltac:(lia)). by rewrite <- app_assoc in Hk.
  - case_bool_decide; [|by rewrite Hn]. destruct Hn as [Hn Hf]. rewrite <- app_assoc in Hf. split; [cbn [length]; lia|done].
Qed.
Lemma list_stdout_trace ws type_ provenance p tr : lists type_ provenance p -> exists evs err,
  list_stdout GOOS host_FS host_Write ws (MkListOptions ListType_GoModules p) tr = Ret (tr ++ evs, err) /\ ran tr ws (ListCmd type_ provenance) evs (bool_decide (is_Some err)).
Proof.
  intros Hp. unfold list_stdout. rewrite windows_off. destruct (Hlist (wRoot ws)) as (es & failure & stop & Hes & Hread & Hstop).
  destruct (@kido_list_spec E (host_FS (wRoot ws)) (wConfig ws) _ (Println host_Write) tr p es failure stop Hes Hread Hstop) as [-> _].
  destruct stop as [e|].
  { eexists [], _. rewrite app_nil_r. split; [done|]. apply (ran_list_nothing _ _ _ _ p es failure Hp Hread). left. by destruct failure. }
  assert (failure = []) as -> by (destruct failure as [|? ?]; [done|by destruct Hstop]). rewrite app_nil_r in Hread.
  case_bool_decide as Hnil.
  { eexists [], _. rewrite app_nil_r. split; [done|]. apply (ran_list_nothing _ _ _ _ p es [] Hp); [by rewrite app_nil_r|by right]. }
  destruct (print_folders_trace tr (sort_Slice name_le (@modules E (host_FS (wRoot ws)) (wConfig ws) p es))) as (evs & err & -> & Hprints).
  eexists _, _. split; [done|]. replace (bool_decide (is_Some (WriteFailed <$> err))) with (bool_decide (is_Some err)) by (by destruct err).
  by apply (ran_list _ _ _ _ p es).
Qed.

#[local] Notation does_at inv m := (forall tr, exists evs err, m tr = Ret (tr ++ evs, err) /\ does tr inv evs (bool_decide (is_Some err))).
Lemma list_does type_ provenance : does_at (ListCmd type_ provenance)
  (list_action o GOOS host_IsDir host_OpenFile host_Close Decode host_FS host_Write map_order le type_ provenance).
Proof.
  intros tr. destruct (newWorkspace_emits tr) as (evs & r & E1 & out & err & -> & Hr). unfold list_action. rewrite (prog_bind_at _ _ _ _ _ E1).
  destruct r as [ws|e].
  2:{ eexists _, _. split; [done|]. apply does_nothing; [done|]. by intros Herr ws ?%(Hr Herr). }
  destruct Hr as (-> & Hws & _). pose proof (list_options_spec type_ provenance) as Hopts. destruct (list_options type_ provenance) as [opts|e].
  2:{ eexists _, _. split; [done|]. apply does_nothing; [done|]. intros _ ws' _. exact Hopts. }
  destruct Hopts as (p & -> & Hp). set (top := Ran toplevel_cmd (WithCaptureStdout RunOptionsDefault) out None) in *.
  destruct (list_stdout_trace ws type_ provenance p (tr ++ [top]) Hp) as (evs & err & E2 & Hran). rewrite (prog_bind_at _ _ _ _ _ E2).
  exists (top :: evs), (KList <$> err). split; [by rewrite <- app_assoc|].
  replace (bool_decide (is_Some (KList <$> err))) with (bool_decide (is_Some err)) by (by destruct err). by apply (does_command tr _ out ws).
Qed.

Lemma benchmark_emits f : does_emits (BenchmarkCmd f)
  (benchmark_action o GOOS GOARCH ToUpper host_IsDir host_OpenFile host_Close Decode map_order le f).
Proof.
  intros tr. unfold benchmark_action. apply with_workspace_emits; [intros out err e Hno; apply emits_ret, does_nothing; [done|by intros Herr ws ?%(Hno Herr)]|]. intros out ws Hws Hwf.
  destruct (benchmark_options_spec o GOOS GOARCH ToUpper quoted (wRoot ws) f) as (r & Hr & Hok).
  eapply emits_bind; [by apply (emits_lift _ r (fun evs r' => evs = [] /\ r' = r))|]. intros ? ? [-> ->]. destruct r as [options|e].
  2:{ apply emits_ret, does_nothing; [done|]. intros _ ws' Hws'. exact Hok. }
  assert (forall b, Baseline _ options = Some b -> rVCS b = JJ \/ rVCS b = Git) as Hvcs.
  { intros b Hb. destruct Hok as (_ & _ & _ & Hbase). rewrite Hb in Hbase. apply Hbase. }
  pose proof (@Benchmark_emits E o GOOS (wRoot ws) Hgoos Htemp MakeBashBenchmark (MakeBash_config o GOOS ToUpper (wRoot ws))
    (MakeBash_contract o GOOS ToUpper (wRoot ws) Hgoos Hwf) options eq_refl Hvcs) as Hem.
  eapply emits_bind; [exact Hem|]. intros evs err Ht. apply emits_ret. rewrite app_nil_r. cbn [app].
  replace (bool_decide (is_Some (KBench <$> err))) with (bool_decide (is_Some err)) by (by destruct err).
  eapply does_command; [exact Hws|]. by eapply ran_benchmark.
Qed.

Lemma action_does inv : does_at inv (action o GOOS GOARCH ToUpper parsePRs parseLabels show clock grow lookup
  host_IsDir host_OpenFile host_Close Decode host_FS host_Write map_order le keys inv).
Proof. destruct inv; intros tr; [apply sync_branch_emits|apply sync_pr_emits|apply list_does|apply benchmark_emits]. Qed.

(** C9: the command line of kido (Unix).  Whatever the flags, and whatever the commands, the file
    system and the clock answer within what they document (above), kido ends with status 0 or 1
    and without a panic.  A project that is no relative
    path is rejected before anything is done.  Otherwise the first thing done is to ask git for
    the root of the repository; if there is no directory there, its configuration cannot be
    opened, decoded, validated and closed, or the flags ask for nothing that kido does, that is
    all that is done, and the status is 1.  Otherwise what follows in that workspace is what was
    asked for: a synchronization, or pull requests, for projects that are forked folders of the
    configuration, at least one and all of them, sorted, for [all], with the trace allowed to
    these commands by the properties about them; the sorted names of the modules of the given
    provenance on lines of their own, up to the first write that fails, and none if there is none
    or they cannot be read; or the measurements for the target, the iterations and the baseline
    of the flags, in order up to the first failure, inside the commands that add and forget
    that baseline.  The status is 0 exactly when the command reports no failure. *)
Theorem kido_main_spec (inv : invocation) (tr : list ev) :
  exists evs (failed : bool), main o GOOS GOARCH ToUpper parsePRs parseLabels show clock grow lookup
    host_IsDir host_OpenFile host_Close Decode host_FS host_Write map_order le keys inv tr = Ret (tr ++ evs, if failed then 1 else 0) /\ does tr inv evs failed.
Proof.
  destruct (action_does inv tr) as (evs & err & E1 & Hdoes). exists evs, (bool_decide (is_Some err)). split; [|done].
  unfold main. rewrite (prog_bind_at _ _ _ _ _ E1). by destruct err.
Qed.
End contract.

(** ** Concrete runs *)

(** The repository's own configuration: one of its forks is only to be updated by hand. *)
Definition repo_config : WorkspaceConfigJSON :=
  MkWorkspaceConfigJSON
    [MkForkedFolderJSON (str "go") (str "golang/go") (None_ false); MkForkedFolderJSON (str "tools") (str "golang/tools") (None_ false);
     MkForkedFolderJSON (str "delve") (str "go-delve/delve") (None_ false); MkForkedFolderJSON (str "third_party/build-tools") (str "go-delve/build-tools") (Some_ false)]
    [MkBranchMappingJSON (str "main") [MkUpstreamRepoJSON (str "golang/go") (str "master"); MkUpstreamRepoJSON (str "golang/tools") (str "master");
      MkUpstreamRepoJSON (str "go-delve/delve") (str "master"); MkUpstreamRepoJSON (str "go-delve/build-tools") (str "master")]].
Definition sample_keys (m : gmap RelPath ForkedFolder) : list RelPath := (map_to_list m).*1.
(** [--project=all], which the scheduled workflow passes, selects that fork too. *)
Lemma all_selects_manual_forks : exists cfg, Validate false sample_order sample_le repo_config = Ret (inl cfg) /\
  fAutoSync <$> ForkedFolders cfg !! MkRelPath (str "third_party/build-tools") = Some false /\
  resolveProjects (E := unit) id (inl cfg) (sample_keys (ForkedFolders cfg)) (MkRelPath (str "all")) =
    inl (cfg, MkRelPath <$> [str "delve"; str "go"; str "third_party/build-tools"; str "tools"]).
Proof. eexists. vm_compute. split_and!; reflexivity. Qed.

(** Everything succeeds; git prints the root. *)
Definition main_oracle : oracle (E := unit) :=
  {| o_run := fun tr c opts => if bool_decide (head (cargs c) = Some (str "rev-parse")) then (MkRunOutput (str "/r") [], None) else o_run sample_oracle tr c opts;
     o_mkdirall := fun _ _ _ => None;
     o_mkdirtemp := o_mkdirtemp sample_oracle;
     o_removeall := fun _ _ => None;
     o_stat := fun _ _ _ => None;
     o_now := o_now sample_oracle |}.
#[local] Notation sample_main := (main main_oracle (str "linux") (str "amd64") id sample_parsePRs (fun _ => inl []) (fun _ => []) pr_clock (fun n => n) (fun _ _ => 0)
  (fun _ => inl true) (fun _ _ _ _ => inl tt) (fun _ => None) (fun _ => inl Config.sample_config) (fun _ => sample_repo) (fun _ => None) sample_order sample_le sample_keys).

Example main_runs :
  match sample_main (SyncBranchCmd (str "tools") None true false) [] with Ret (evs, status) => (omap subcommand evs, status) | _ => ([], 2) end =
    ([str "rev-parse"; str "fetch"; str "worktree"; str "checkout"; str "checkout"; str "reset"; str "clean"; str "branch"; str "checkout";
      str "subtree"; str "ls-remote"; str "push"; str "worktree"], 0) /\
  match sample_main (SyncBranchCmd (str "base") None true false) [] with Ret (evs, status) => (omap subcommand evs, status) | _ => ([], 2) end = ([str "rev-parse"], 1) /\
  match sample_main (SyncBranchCmd (str "/base") None true false) [] with Ret (evs, status) => (evs, status) | _ => ([], 2) end = ([], 1) /\
  match sample_main (ListCmd (str "go-module") (Some (str "forked"))) [] with Ret (evs, status) => (summary <$> evs, status) | _ => ([], 2) end =
    ([str "git rev-parse "; str "tools" ++ [10]], 0).
Proof. vm_compute. split_and!; reflexivity. Qed.

Lemma kido_main_spec_witness : exists evs (failed : bool),
  sample_main (ListCmd (str "go-module") None) [] = Ret ([] ++ evs, if failed then 1 else 0) /\ failed = false.
Proof.
  destruct (kido_main_spec main_oracle (str "linux") (str "amd64") id sample_parsePRs (fun _ => inl []) (fun _ => []) pr_clock (fun n => n) (fun _ _ => 0)
    (fun _ => inl true) (fun _ _ _ _ => inl tt) (fun _ => None) (fun _ => inl Config.sample_config) (fun _ => sample_repo) (fun _ => None) sample_order sample_le sample_keys
    not_windows) with (inv := ListCmd (str "go-module") None) (tr := @nil (event (E := unit))) as (evs & failed & E1 & _).
  - intros tr opts out H. injection H as <-. reflexivity.
  - intros tr c opts out H Hc. cbn [o_run main_oracle] in H. rewrite Hc in H. injection H as <-. vm_compute. discriminate.
  - exact sample_temp.
  - intros s. reflexivity.
  - intros m. reflexivity.
  - intros root. exists sample_entries, [], None. split; [|split; [rewrite app_nil_r; apply FromSlice_enumerates|reflexivity]].
    repeat first [apply List.Forall_cons | apply List.Forall_nil]; repeat split; vm_compute; done.
  - exists evs, failed. split; [exact E1|]. destruct failed; [|reflexivity]. vm_compute in E1. discriminate E1.
Defined.
