(* ===== verification/FsTemp.v ===== *)
(** * Temporary files ([fsx/fsx_temp/temp.go])

    Opening a file changes the file system: [fsOpenFile] takes and returns its
    state.  Errors are values of [E], inspected by [errorx].  The theorem is
    about file systems whose [OpenMode_CreateNew] does what its documentation
    says ([honest]). *)
From S2P Require Import Prelude Core Iterx Errorx GoFilepath CleanSpec Lexical PathComponents RelSpec PathTypes PathLaws FsOpt Config.
#[local] Open Scope Z_scope.

Inductive CreateFileErrorKind := CreateFileErrorKind_IOError | CreateFileErrorKind_OutOfNames | CreateFileErrorKind_Other (k : Z).

Section temp.
Context (windows : bool) {E : Type} `{EqDecision E} (methods : E -> method_set E) (zero_link : @ChainLink E) (ErrExist : E).
Context {St File : Type} (fsOpenFile : St -> RelPath -> OpenOptions -> St * (File + E)).

Record CreateFileError := MkCreateFileError { ckind : CreateFileErrorKind; cpath : RelPath; cerr : option E }.
Definition CreateFileError_Kind (e : CreateFileError) : CreateFileErrorKind := ckind e.
Definition CreateFileError_Path (e : CreateFileError) : go RelPath :=
  match ckind e with
  | CreateFileErrorKind_IOError => Ret (cpath e)
  | CreateFileErrorKind_OutOfNames => _ ← Precondition false; Ret (MkRelPath [])
  | CreateFileErrorKind_Other _ => PanicUnknownCase
  end.
(** [E_Error] formats a non-nil error with [%v]. *)
Definition CreateFileError_Error (E_Error : option E -> gostring) (e : CreateFileError) : go gostring :=
  match ckind e with
  | CreateFileErrorKind_IOError => Ret (str "create temporary file " ++ RelPath_String (cpath e) ++ str ": " ++ E_Error (cerr e))
  | CreateFileErrorKind_OutOfNames => Ret (str "no temporary file candidate name could be created")
  | CreateFileErrorKind_Other _ => PanicUnknownCase
  end.
Definition CreateFileError_Unwrap (e : CreateFileError) : option E := cerr e.

(** The loop body, on the file system and the value returned so far. *)
Definition create_state : Type := St * option (File + CreateFileError).
Definition create_body (dir : RelPath) (opts : OpenOptions) (name : Name) (st : create_state) : go (create_state * bool) :=
  let '(s, ret) := st in
  rel ← RelPath_JoinOne windows dir name;
  let '(s, r) := fsOpenFile s rel opts in
  match r with
  | inl f => Ret ((s, Some (inl f)), false)
  | inr err =>
      exist ← GetRootCauseAsValue methods zero_link (Some err) (Some ErrExist);
      if (exist : bool) then Ret ((s, ret), true)
      else Ret ((s, Some (inr (MkCreateFileError CreateFileErrorKind_IOError rel (Some err)))), false)
  end.
Definition CreateFile (s : St) (dir : RelPath) (names : Seq Name) (opts : OpenOptionsBuilder) : go (St * (File + CreateFileError)) :=
  b ← WithMode opts OpenMode_CreateNew;
  r ← Build b;
  match r with
  | inr _ => _ ← Precondition false; Ret (s, inr (MkCreateFileError CreateFileErrorKind_OutOfNames (MkRelPath []) None))
  | inl opts_ =>
      '(s, ret) ← for_range names (create_body dir opts_) (s, None);
      match ret with
      | Some r => Ret (s, r)
      | None => Ret (s, inr (MkCreateFileError CreateFileErrorKind_OutOfNames (MkRelPath []) None))
      end
  end.

(** The candidate names; the builder is empty at the start of each round. *)
Definition Names (prefix : gostring) (fragments : Seq gostring) (suffix : gostring) : Seq Name := fun T yield st =>
  for_range fragments (fun fragment st =>
    name ← Name_New windows (prefix ++ fragment ++ suffix);
    Ret (yield name st)) st.
End temp.

(** ** The candidate names *)
Lemma Names_enumerates prefix fragments suffix fs :
  Forall (fun f => elem (prefix ++ f ++ suffix)) fs -> Enumerates fragments fs ->
  Enumerates (Names false prefix fragments suffix) (map (fun f => MkName (prefix ++ f ++ suffix)) fs).
Proof.
  intros Hfs Henum St yield st. unfold Names. rewrite (for_range_spec _ _ _ _ Henum). clear Henum. revert st.
  induction Hfs as [|f fs Hf _ IH]; intros st; [done|]. cbn [for_list map range_yield].
  rewrite Name_New_elem, bind_ret by done. rewrite bind_ret. destruct (yield _ st) as [st1 []]; [apply IH|done].
Qed.

(** ** File creation (Unix) *)
Section creation.
Context {E : Type} `{EqDecision E} (methods : E -> method_set E) (zero_link : @ChainLink E) (ErrExist : E).
Context {St File : Type} (fsOpenFile : St -> RelPath -> OpenOptions -> St * (File + E)).
Context (is_exist : E -> bool) (Hexist : forall e, GetRootCauseAsValue methods zero_link (Some e) (Some ErrExist) = Ret (is_exist e)).

(** The paths in use; opening with [OpenMode_CreateNew] creates the file only if it does not
    exist already, and otherwise fails with [ErrExist]. *)
Context (files : St -> gset RelPath)
  (honest : forall s rel opts, mode opts = OpenMode_CreateNew ->
     match fsOpenFile s rel opts with
     | (s', inl _) => rel ∉ files s /\ files s' = {[rel]} ∪ files s
     | (s', inr e) => files s' = files s /\ (is_exist e = true <-> rel ∈ files s)
     end).

(** [CreateFile] goes past the names [pre], which are taken, and stops at [n], which is not. *)
Definition stops_at (s : St) (path : Name -> RelPath) (l pre : list Name) (n : Name) : Prop :=
  (exists post, l = pre ++ n :: post) /\ (forall m, m ∈ pre -> path m ∈ files s) /\ path n ∉ files s.

Definition created (s : St) (path : Name -> RelPath) (l : list Name) (s' : St) (ret : option (File + @CreateFileError E)) : Prop :=
  match ret with
  | Some (inl f) => exists pre n, stops_at s path l pre n /\ files s' = {[path n]} ∪ files s
  | Some (inr e) => exists pre n, stops_at s path l pre n /\ files s' = files s /\
      ckind e = CreateFileErrorKind_IOError /\ cpath e = path n /\ exists err, cerr e = Some err /\ is_exist err = false
  | None => files s' = files s /\ forall m, m ∈ l -> path m ∈ files s
  end.

Lemma JoinOne_plain m es tr n :
  Forall plain es -> plain (nvalue n) -> RelPath_JoinOne false (rel_path m es tr) n = Ret (rel_path m (es ++ [nvalue n]) false).
Proof.
  intros Hes Hn. rewrite <- (RelPath_JoinComponents_plain m es tr [nvalue n]) by (done || by constructor).
  unfold RelPath_JoinComponents. cbn [check_components]. by rewrite plain_separators.
Qed.

Lemma created_cons s s1 path n l s' ret :
  path n ∈ files s -> files s1 = files s -> created s1 path l s' ret -> created s path (n :: l) s' ret.
Proof.
  intros Hn Hf. unfold created, stops_at. rewrite Hf. destruct ret as [[f|e]|].
  - intros (pre & n' & ((post & ->) & Hpre & Hn') & Hs'). exists (n :: pre), n'. split_and!; [by exists post| |done..].
    intros k [->|Hin]%elem_of_cons; auto.
  - intros (pre & n' & ((post & ->) & Hpre & Hn') & Hs' & Hk & Hp & Herr). exists (n :: pre), n'. split_and!; [by exists post| |done..].
    intros k [->|Hin]%elem_of_cons; auto.
  - intros [Hs' Hall]. split; [done|]. intros k [->|Hin]%elem_of_cons; auto.
Qed.

Lemma create_body_plain m es tr opts n s :
  Forall plain es -> plain (nvalue n) ->
  create_body false methods zero_link ErrExist fsOpenFile (rel_path m es tr) opts n (s, None) =
    let rel := rel_path m (es ++ [nvalue n]) false in
    let '(s, r) := fsOpenFile s rel opts in
    Ret (match r with
         | inl f => ((s, Some (inl f)), false)
         | inr err => if is_exist err then ((s, None), true)
                      else ((s, Some (inr (MkCreateFileError CreateFileErrorKind_IOError rel (Some err)))), false)
         end).
Proof.
  intros Hes Hn. unfold create_body. rewrite JoinOne_plain, bind_ret by done. cbv zeta.
  destruct (fsOpenFile s _ opts) as [s1 [f|err]]; [done|]. rewrite Hexist, bind_ret. by destruct (is_exist err).
Qed.

Lemma create_loop m es tr opts l s :
  Forall plain es -> Forall (fun n => plain (nvalue n)) l -> mode opts = OpenMode_CreateNew ->
  exists s' ret, for_list l (create_body false methods zero_link ErrExist fsOpenFile (rel_path m es tr) opts) (s, None) = Ret (s', ret) /\
    created s (fun n => rel_path m (es ++ [nvalue n]) false) l s' ret.
Proof.
  intros Hes Hl Hm. revert s. induction Hl as [|n l Hn _ IH]; intros s.
  { exists s, None. split; [done|]. split; [done|]. by intros ? ?%elem_of_nil. }
  cbn [for_list]. rewrite create_body_plain by done.
  pose proof (honest s (rel_path m (es ++ [nvalue n]) false) opts Hm) as Hh.
  cbv zeta. destruct (fsOpenFile s _ opts) as [s1 [f|err]].
  - rewrite bind_ret. exists s1, (Some (inl f)). split; [done|]. exists [], n. destruct Hh as [Hno ->].
    split_and!; [|done]. split_and!; [by exists l|by intros ? ?%elem_of_nil|done].
  - destruct Hh as [Hf Hiff]. destruct (is_exist err) eqn:He; rewrite bind_ret; cbv iota beta.
    + destruct (IH s1) as (s' & ret & -> & Hc). exists s', ret. split; [done|]. by eapply created_cons; [apply Hiff|exact Hf|].
    + exists s1, (Some (inr (MkCreateFileError CreateFileErrorKind_IOError (rel_path m (es ++ [nvalue n]) false) (Some err)))).
      split; [done|]. exists [], n. split_and!; [|done..|by exists err].
      split_and!; [by exists l|by intros ? ?%elem_of_nil|]. intros Hin%Hiff. congruence.
Qed.

(** C33: [CreateFile] creates a temporary file without touching another.  Given a builder that
    allows writes and plain candidate names, and whatever mode the builder had, it returns a
    file exactly when it has created one that did not exist, at the first candidate that was
    not taken, and nothing else has changed; otherwise nothing has changed at all, and either
    every candidate was taken (out of names) or the first one that was not could not be
    created, and its path and error are reported.  (Unix.) *)
Theorem create_file_spec s m es tr (names : Seq Name) (l : list Name) (b : OpenOptionsBuilder)
  (Hes : Forall plain es) (Hl : Forall (fun n => plain (nvalue n)) l) (Hnames : Enumerates names l)
  (Hb : brw b = OpenRW_WriteOnly \/ brw b = OpenRW_ReadWrite) :
  exists s' r, CreateFile false methods zero_link ErrExist fsOpenFile s (rel_path m es tr) names b = Ret (s', r) /\
    let path n := rel_path m (es ++ [nvalue n]) false in
    match r with
    | inl f => exists pre n, stops_at s path l pre n /\ files s' = {[path n]} ∪ files s
    | inr e => files s' = files s /\
        match ckind e with
        | CreateFileErrorKind_OutOfNames => forall n, n ∈ l -> path n ∈ files s
        | CreateFileErrorKind_IOError => exists pre n, stops_at s path l pre n /\ CreateFileError_Path e = Ret (path n) /\
            exists err, CreateFileError_Unwrap e = Some err /\ is_exist err = false
        | CreateFileErrorKind_Other _ => False
        end
    end.
Proof.
  unfold CreateFile. change (WithMode b OpenMode_CreateNew) with (Ret (MkBuilder (brw b) OpenMode_CreateNew (bappend b) (btruncate b))). rewrite bind_ret.
  assert (Build (MkBuilder (brw b) OpenMode_CreateNew (bappend b) (btruncate b)) =
          Ret (inl (MkOpenOptions (brw b) OpenMode_CreateNew (bappend b) (btruncate b)))) as -> by (unfold Build; cbn; by destruct Hb as [-> | ->]).
  rewrite bind_ret, (for_range_spec _ _ _ _ Hnames).
  destruct (create_loop m es tr (MkOpenOptions (brw b) OpenMode_CreateNew (bappend b) (btruncate b)) l s Hes Hl eq_refl) as (s' & ret & -> & Hc).
  rewrite bind_ret. destruct ret as [[f|e]|]; cbn [created] in Hc.
  - by exists s', (inl f).
  - exists s', (inr e). split; [done|]. destruct Hc as (pre & n & Hs & Hf & Hk & Hp & err & He & Hx). split; [done|]. cbv zeta. rewrite Hk.
    exists pre, n. split_and!; [done|unfold CreateFileError_Path; by rewrite Hk, Hp|by exists err].
  - eexists s', _. split; [done|]. destruct Hc as [Hf Hall]. by split.
Qed.
End creation.

(** ** A concrete file system *)
Definition temp_methods (e : Z) : method_set Z := MkMethods Z None None None None.
Definition temp_open (s : gset RelPath) (rel : RelPath) (opts : OpenOptions) : gset RelPath * (RelPath + Z) :=
  if decide (rel ∈ s) then (s, inr 1) else ({[rel]} ∪ s, inl rel).
Definition temp_names : list Name := [MkName (str "t0"); MkName (str "t1"); MkName (str "t2")].

Lemma create_file_spec_witness :
  Forall (fun n => plain (nvalue n)) temp_names /\
  exists s' r, CreateFile false temp_methods (MkChainLink 0 linkNormal) 1 temp_open {[MkRelPath (str "d/t0")]} (rel_path 0 [str "d"] false)
    (FromSlice temp_names) (MkBuilder OpenRW_WriteOnly OpenMode_Existing false false) = Ret (s', r) /\
    match r with inl f => exists n, s' = {[rel_path 0 [str "d"; nvalue n] false]} ∪ {[MkRelPath (str "d/t0")]} | inr _ => True end.
Proof.
  assert (Forall plain [str "d"]) as Hd by (apply List.Forall_cons; [repeat split; vm_compute; done|apply List.Forall_nil]).
  assert (Forall (fun n => plain (nvalue n)) temp_names) as Hn.
  { repeat first [apply List.Forall_cons | apply List.Forall_nil]; repeat split; vm_compute; done. }
  split; [exact Hn|].
  destruct (create_file_spec temp_methods (MkChainLink 0 linkNormal) 1 temp_open (fun e => bool_decide (e = 1)) (fun e => eq_refl) (fun s => s))
    with (s := ({[MkRelPath (str "d/t0")]} : gset RelPath)) (m := 0%nat) (es := [str "d"]) (tr := false) (names := FromSlice temp_names) (l := temp_names)
         (b := MkBuilder OpenRW_WriteOnly OpenMode_Existing false false) as (s' & r & E1 & H).
  - intros s rel opts _. unfold temp_open. destruct (decide (rel ∈ s)) as [Hin|Hin]; [|done]. split; [done|]. by split.
  - exact Hd.
  - exact Hn.
  - apply FromSlice_enumerates.
  - by left.
  - exists s', r. split; [exact E1|]. destruct r as [f|e]; [|done]. destruct H as (pre & n & _ & Hs). exists n. exact Hs.
Defined.
