(* ===== verification/TempNames.v ===== *)
(** * Names of temporary files ([syscaps/temp_file.go])

    The text of a name around its wildcard is given by a pattern with escapes;
    the fragments in between are written into one array that every round reuses.
    Ambient inputs are arguments: the process id, the address the code seeds its
    generator with, and [rand seed k], the [k]-th [Uint32] of a generator with
    that seed ([math/rand] is not modelled). *)
From S2P Require Import Prelude Core Iterx Strconv GoFilepath CleanSpec Lexical PathComponents RelSpec PathTypes PathLaws FsOpt Errorx Config FsTemp.
#[local] Open Scope Z_scope.

Definition BACKSLASH : Z := 92.
Definition STAR : Z := 42.

(** ** Patterns *)

(** The two texts; [current] is the text being written, the suffix when true. *)
Fixpoint split_loop (fuel : nat) (pattern : gostring) (i : Z) (prefix suffix : gostring) (current : bool) (wildcards : Z) : go (gostring * gostring) :=
  if i <? zlen pattern then
    match fuel with
    | O => OutOfFuel
    | S fuel =>
        let write c := if current then (prefix, suffix ++ [c]) else (prefix ++ [c], suffix) in
        c ← index pattern i;
        if c =? BACKSLASH then
          _ ← (if i + 1 =? zlen pattern then Precondition false else Ret tt);
          escaped ← index pattern (i + 1);
          _ ← (if negb (escaped =? STAR) && negb (escaped =? BACKSLASH) then Precondition false else Ret tt);
          let '(prefix, suffix) := write escaped in
          split_loop fuel pattern (i + 2) prefix suffix current wildcards
        else if c =? STAR then
          let wildcards := wildcards + 1 in
          _ ← (if 1 <? wildcards then Precondition false else Ret tt);
          split_loop fuel pattern (i + 1) prefix suffix true wildcards
        else
          let '(prefix, suffix) := write c in
          split_loop fuel pattern (i + 1) prefix suffix current wildcards
    end
  else
    _ ← (if wildcards =? 0 then Precondition false else Ret tt);
    Ret (prefix, suffix).
Definition splitTempFileNamePattern (pattern : gostring) : go (gostring * gostring) :=
  split_loop (length pattern) pattern 0 [] [] false 0.

(** ** Fragments *)
Definition TempFileFragments_MaxIters : nat := 100.

Fixpoint zero_fill (fuel : nat) (out : gostring) (i stop : Z) : go gostring :=
  if i <? stop then
    match fuel with
    | O => OutOfFuel
    | S fuel => out ← store out i 48; zero_fill fuel out (i + 1) stop
    end
  else Ret out.
(** One round on the array [out]; [append] works in it when the digits fit. *)
Definition fragment_round (val : Z) (out : gostring) : go gostring :=
  dst ← slice out 0 3;
  digits ← AppendUint dst val 10;
  let out := if zlen digits <=? zlen out then digits ++ drop (length digits) out else out in
  let n := zlen digits - 3 in
  dst ← slice_from out (zlen out - n);
  src ← slice out 3 (3 + n);
  let out := take (Z.to_nat (zlen out - n)) out ++ copy_slice dst src in
  zero_fill (length out) out 3 (zlen out - n).

Section fragments.
Context (rand : Z -> nat -> Z) (pid addr : Z).
Definition seed : Z := Z.land (int64 (Z.shiftl addr 32)) pid.
Fixpoint fragments_loop {T} (k : nat) (i : nat) (out : gostring) (yield : yield_fn gostring T) (st : T) : go T :=
  match k with
  | O => Ret st
  | S k =>
      out ← fragment_round (rand seed i) out;
      let '(st, continue) := yield out st in
      if continue : bool then fragments_loop k (S i) out yield st else Ret st
  end.
Definition TempFileFragments : Seq gostring := fun T yield st =>
  fragments_loop TempFileFragments_MaxIters 0 (str "tmp0000000000") yield st.
Definition TempFileNames (windows : bool) (pattern : gostring) : go (Seq Name) :=
  '(prefix, suffix) ← splitTempFileNamePattern pattern;
  Ret (Names windows prefix TempFileFragments suffix).
End fragments.

Example split_samples :
  splitTempFileNamePattern (str "abc-*.txt") = Ret (str "abc-", str ".txt") /\ splitTempFileNamePattern (str "\**\\") = Ret (str "*", str "\") /\
  splitTempFileNamePattern (str "a**") = Panic PreconditionViolation /\ splitTempFileNamePattern (str "a\") = Panic PreconditionViolation.
Proof. by vm_compute. Qed.
Example fragment_sample : (out ← fragment_round 4294967295 (str "tmp0000000000"); fragment_round 35 out) = Ret (str "tmp0000000035").
Proof. by vm_compute. Qed.

(** ** What the patterns mean *)

(** A text as it is written in a pattern. *)
Definition escape (s : gostring) : gostring := concat (map (fun c => if (c =? STAR) || (c =? BACKSLASH) then [BACKSLASH; c] else [c]) s).
Definition split_text (rest p s : gostring) (current : bool) (t u : gostring) : Prop :=
  if current then t = p /\ exists u', rest = escape u' /\ u = s ++ u'
  else exists t' u', rest = escape t' ++ STAR :: escape u' /\ t = p ++ t' /\ u = s ++ u'.

Lemma escape_cons c s : escape (c :: s) = escape [c] ++ escape s.
Proof. unfold escape. cbn. by destruct (_ || _). Qed.

Definition special (c : Z) : Prop := c = STAR \/ c = BACKSLASH.
#[local] Instance special_dec c : Decision (special c).
Proof. apply _. Defined.
Lemma escape_special c u : special c -> escape (c :: u) = BACKSLASH :: c :: escape u.
Proof. by intros [-> | ->]. Qed.
Lemma escape_plain c u : c <> STAR -> c <> BACKSLASH -> escape (c :: u) = c :: escape u.
Proof. intros H1 H2. rewrite escape_cons. unfold escape at 1. cbn. apply Z.eqb_neq in H1 as ->, H2 as ->. done. Qed.

(** How an escaped text followed by [tl] begins. *)
Lemma escape_inv u tl c r : escape u ++ tl = c :: r ->
  (u = [] /\ tl = c :: r) \/
  (c <> STAR /\ c <> BACKSLASH /\ exists u', u = c :: u' /\ r = escape u' ++ tl) \/
  (c = BACKSLASH /\ exists e u', special e /\ u = e :: u' /\ r = e :: escape u' ++ tl).
Proof.
  intros H. destruct u as [|x u]; [by left|right]. destruct (decide (special x)) as [Hx|Hx].
  - rewrite escape_special in H by done. injection H as <- <-. right. split; [done|]. by exists x, u.
  - assert (x <> STAR /\ x <> BACKSLASH) as [H1 H2] by (split; intros ->; apply Hx; [by left|by right]).
    rewrite escape_plain in H by done. injection H as <- <-. left. split_and!; [done..|by exists u].
Qed.
Definition write_p (p : gostring) (current : bool) (c : Z) : gostring := if current then p else p ++ [c].
Definition write_s (s : gostring) (current : bool) (c : Z) : gostring := if current then s ++ [c] else s.

Lemma escape_strip c r u tl : match tl with [] => True | x :: _ => x = STAR end ->
  escape u ++ tl = escape [c] ++ r -> exists v, u = c :: v /\ r = escape v ++ tl.
Proof.
  intros Htl H. destruct (decide (special c)) as [Hc|Hc].
  - rewrite escape_special in H by done. cbn in H. apply escape_inv in H as [[-> ->]|[(_ & ? & _)|(_ & e & v & _ & -> & [= -> ->])]]; [done|done|by exists v].
  - assert (c <> STAR /\ c <> BACKSLASH) as [H1 H2] by (split; intros ->; apply Hc; [by left|by right]).
    rewrite escape_plain in H by done. cbn in H. apply escape_inv in H as [[-> ->]|[(_ & _ & v & -> & ->)|(-> & _)]]; [|by exists v|].
    + subst c. destruct Hc. by left.
    + destruct Hc. by right.
Qed.

Lemma split_text_step c r p s current t u :
  split_text (escape [c] ++ r) p s current t u <-> split_text r (write_p p current c) (write_s s current c) current t u.
Proof.
  unfold split_text, write_p, write_s. destruct current; split.
  - intros (-> & u' & H & ->). rewrite <- (app_nil_r (escape u')) in H. symmetry in H. apply escape_strip in H as (v & -> & ->); [|done].
    split; [done|]. exists v. by rewrite app_nil_r, <- app_assoc.
  - intros (-> & u' & -> & ->). split; [done|]. exists (c :: u'). by rewrite (escape_cons c u'), <- app_assoc.
  - intros (t' & u' & H & -> & ->). symmetry in H. apply escape_strip in H as (v & -> & ->); [|done]. exists v, u'. by rewrite <- app_assoc.
  - intros (t' & u' & -> & -> & ->). exists (c :: t'), u'. by rewrite (escape_cons c t'), <- !app_assoc.
Qed.

Lemma split_text_star r p s current t u :
  split_text (STAR :: r) p s current t u <-> current = false /\ split_text r p s true t u.
Proof.
  unfold split_text. destruct current; split.
  - intros (-> & u' & H & _). rewrite <- (app_nil_r (escape u')) in H. symmetry in H. apply escape_inv in H as [[_ ?]|[(? & _)|(? & _)]]; done.
  - by intros [? _].
  - intros (t' & u' & H & -> & ->). symmetry in H. apply escape_inv in H as [[-> [= <-]]|[(? & _)|(? & _)]]; [|done..]. rewrite app_nil_r. split_and!; [done..|by exists u'].
  - intros (_ & -> & u' & -> & ->). exists [], u'. by rewrite app_nil_r.
Qed.

(** A backslash that does not escape anything. *)
Lemma split_text_bad r p s current t u :
  match r with [] => True | e :: _ => ~ special e end -> ~ split_text (BACKSLASH :: r) p s current t u.
Proof.
  unfold split_text. intros Hr. assert (forall v tl, match tl with [] => True | x :: _ => x = STAR end -> BACKSLASH :: r <> escape v ++ tl) as Hno.
  { intros v tl Htl H. symmetry in H. apply escape_inv in H as [[_ ->]|[(_ & ? & _)|(_ & e & v' & He & _ & ->)]]; done. }
  destruct current; [intros (_ & u' & H & _); rewrite <- (app_nil_r (escape u')) in H; by apply (Hno u' [])|].
  intros (t' & u' & H & _). by apply (Hno t' (STAR :: escape u')).
Qed.

(** The loop at the byte after [pre]. *)
Definition count (current : bool) : Z := if current then 1 else 0.
Lemma index_here (pre rest : gostring) c : index (pre ++ c :: rest) (zlen pre) = Ret c.
Proof. rewrite <- (Z.add_0_r (zlen pre)), index_app_r by lia. done. Qed.

Lemma index_next (pre rest : gostring) c e : index (pre ++ c :: e :: rest) (zlen pre + 1) = Ret e.
Proof. by rewrite index_app_r by lia. Qed.

Lemma split_loop_end fuel pre p s current :
  (split_loop fuel (pre ++ []) (zlen pre) p s current (count current) = Panic PreconditionViolation /\ forall t u, ~ split_text [] p s current t u) \/
  (exists t u, split_loop fuel (pre ++ []) (zlen pre) p s current (count current) = Ret (t, u) /\ split_text [] p s current t u).
Proof.
  rewrite app_nil_r. unfold split_loop. destruct fuel; rewrite Z.ltb_irrefl; (destruct current; [right|left]; cbn [count Z.eqb]).
  1,3: exists p, s; split; [done|]; split; [done|]; exists []; by rewrite app_nil_r.
  all: split; [done|]; intros t u (t' & u' & H & _); by destruct (escape t').
Qed.

Lemma split_loop_spec fuel pre rest p s current :
  (length rest <= fuel)%nat ->
  (split_loop fuel (pre ++ rest) (zlen pre) p s current (count current) = Panic PreconditionViolation /\ forall t u, ~ split_text rest p s current t u) \/
  (exists t u, split_loop fuel (pre ++ rest) (zlen pre) p s current (count current) = Ret (t, u) /\ split_text rest p s current t u).
Proof.
  revert pre rest p s current. induction fuel as [|fuel IH]; intros pre rest p s current Hlen.
  { destruct rest; [|cbn in Hlen; lia]. apply split_loop_end. }
  destruct rest as [|c rest]; [apply split_loop_end|]. cbn [split_loop length] in *.
  replace (zlen pre <? zlen (pre ++ c :: rest)) with true by (rewrite zlen_app, zlen_cons; zlia). rewrite index_here, bind_ret.
  assert (forall c' rest', special c' \/ c' <> BACKSLASH -> escape [c'] ++ rest' = c :: rest -> (length rest' <= fuel)%nat ->
    let r := split_loop fuel (pre ++ c :: rest) (zlen (pre ++ escape [c'])) (write_p p current c') (write_s s current c') current (count current) in
    (r = Panic PreconditionViolation /\ forall t u, ~ split_text (c :: rest) p s current t u) \/
    (exists t u, r = Ret (t, u) /\ split_text (c :: rest) p s current t u)) as Hnext.
  { intros c' rest' _ Heq Hl. rewrite <- Heq, app_assoc. cbv zeta. destruct (IH (pre ++ escape [c']) rest' (write_p p current c') (write_s s current c') current Hl) as [[-> H]|(t & u & -> & H)].
    - left. split; [done|]. intros t u Ht%split_text_step. by apply H in Ht.
    - right. exists t, u. split; [done|]. by apply split_text_step. }
  destruct (Z.eqb_spec c BACKSLASH) as [->|Hbs].
  - destruct rest as [|e rest].
    { left. rewrite zlen_app. change (zlen [BACKSLASH]) with 1. rewrite Z.eqb_refl. split; [done|]. intros t u. by apply split_text_bad. }
    replace (zlen pre + 1 =? zlen (pre ++ BACKSLASH :: e :: rest)) with false by (rewrite zlen_app, !zlen_cons; pose proof (zlen_nonneg rest); lia).
    rewrite bind_ret, index_next, bind_ret. destruct (decide (special e)) as [He|He].
    + replace (negb (e =? STAR) && negb (e =? BACKSLASH)) with false by (by destruct He as [-> | ->]). rewrite bind_ret.
      destruct (Hnext e rest) as [[E H]|(t & u & E & H)]; [by left|by rewrite escape_special|cbn [length] in Hlen; lia|left|right; exists t, u];
        (split; [|done]); rewrite escape_special, zlen_app in E by done; destruct current; exact E.
    + left. split; [|intros t u; by apply split_text_bad]. assert (e <> STAR /\ e <> BACKSLASH) as [H1%Z.eqb_neq H2%Z.eqb_neq] by (split; intros ->; apply He; [by left|by right]).
      by rewrite H1, H2.
  - destruct (Z.eqb_spec c STAR) as [->|Hst].
    + destruct current; [left|].
      * split; [done|]. by intros t u [? _]%split_text_star.
      * change (1 <? count false + 1) with false. cbv iota. rewrite !bind_ret.
        destruct (IH (pre ++ [STAR]) rest p s true ltac:(lia)) as [[E H]|(t & u & E & H)]; [left|right; exists t, u];
          rewrite <- app_assoc, zlen_app in E; (split; [exact E|]); [intros t u [_ Ht]%split_text_star; by apply H in Ht|by apply split_text_star].
    + destruct (Hnext c rest) as [[E H]|(t & u & E & H)]; [by right|by rewrite escape_plain|lia|left|right; exists t, u];
        (split; [|done]); rewrite escape_plain, zlen_app in E by done; destruct current; exact E.
Qed.

(** ** What the fragments are *)
Lemma numeral_short v : 0 <= v < 10 ^ 10 -> exists m, (1 <= m <= 10)%nat /\ numeral 10 v = pad m v /\ v < 10 ^ Z.of_nat m.
Proof.
  intros Hv. destruct (Z.eq_dec v 0) as [->|Hne]; [exists 1%nat; split_and!; done || lia|].
  destruct (numDigits_spec v) as (n & Hn & _ & Hp); [lia|]. exists (S n). split_and!; [lia| |by apply repr_pad; [|lia]|lia].
  destruct (Nat.le_gt_cases (S n) 10); [done|]. assert (10 ^ 10 <= 10 ^ Z.of_nat n) by (apply Z.pow_le_mono_r; lia). lia.
Qed.

Lemma pad_0 n : pad n 0 = replicate n 48.
Proof. induction n as [|n IH]; [done|]. cbn [pad]. rewrite Z.div_0_l, IH by lia. by rewrite <- replicate_cons_app. Qed.

Lemma zero_fill_spec fuel (pre mid suf : gostring) :
  (length mid <= fuel)%nat -> zero_fill fuel (pre ++ mid ++ suf) (zlen pre) (zlen pre + zlen mid) = Ret (pre ++ replicate (length mid) 48 ++ suf).
Proof.
  revert pre mid. induction fuel as [|fuel IH]; intros pre [|c mid] Hl; cbn [zero_fill length] in *; try (rewrite zlen_nil, Z.add_0_r, Z.ltb_irrefl; done); [lia|].
  rewrite zlen_cons. pose proof (zlen_nonneg mid). replace (zlen pre <? zlen pre + (zlen mid + 1)) with true by lia.
  cbn [app]. rewrite store_mid, bind_ret. replace (pre ++ 48 :: mid ++ suf) with ((pre ++ [48]) ++ mid ++ suf) by by rewrite <- app_assoc.
  replace (zlen pre + 1) with (zlen (pre ++ [48])) by by rewrite zlen_app. replace (zlen pre + (zlen mid + 1)) with (zlen (pre ++ [48]) + zlen mid) by (rewrite zlen_app; change (zlen [48]) with 1; lia).
  rewrite IH by lia. by rewrite <- app_assoc.
Qed.

Definition fragment (val : Z) : gostring := str "tmp" ++ pad 10 val.

Lemma pad_inj n u v : 0 <= u < 10 ^ Z.of_nat n -> 0 <= v < 10 ^ Z.of_nat n -> pad n u = pad n v -> u = v.
Proof.
  revert u v. induction n as [|n IH]; intros u v Hu Hv H; [change (10 ^ Z.of_nat 0) with 1 in *; lia|].
  rewrite Nat2Z.inj_succ, Z.pow_succ_r in Hu, Hv by lia. cbn [pad] in H. apply app_inj_tail in H as [H Hd].
  apply IH in H; [|split; [apply Z.div_pos; lia|apply Z.div_lt_upper_bound; lia]..].
  rewrite (Z.div_mod u 10), (Z.div_mod v 10) by done. lia.
Qed.

(** The number in decimal, after zeros. *)
Lemma fragment_numeral v : 0 <= v < 2 ^ 32 -> exists z, fragment v = str "tmp" ++ replicate z 48 ++ numeral 10 v.
Proof.
  intros Hv. destruct (numeral_short v) as (m & Hm & Hnum & Hlt); [lia|]. exists (10 - m)%nat. unfold fragment. f_equal.
  replace 10%nat with (10 - m + m)%nat at 1 by lia. by rewrite pad_split, (Z.div_small v), pad_0, Hnum by lia.
Qed.
Lemma fragment_inj u v : 0 <= u < 2 ^ 32 -> 0 <= v < 2 ^ 32 -> fragment u = fragment v -> u = v.
Proof. intros Hu Hv H. apply app_inv_head in H. by apply (pad_inj 10) in H; [|lia..]. Qed.

Lemma fragment_round_spec val (z : gostring) : 0 <= val < 2 ^ 32 -> length z = 10%nat -> fragment_round val (str "tmp" ++ z) = Ret (fragment val).
Proof.
  intros Hv Hz. destruct (numeral_short val) as (m & Hm & Hnum & Hlt); [lia|]. unfold fragment_round. pose proof (pad_length m val) as Hlen.
  change (slice (str "tmp" ++ z) 0 3) with (slice ([] ++ str "tmp" ++ z) (zlen (@nil Z)) (zlen (@nil Z) + zlen (str "tmp"))).
  rewrite slice_app_mid, bind_ret, AppendUint_spec, bind_ret, Hnum by lia. unfold fragment. set (N := pad m val) in *.
  assert (zlen N = Z.of_nat m) as HN by (unfold zlen; lia). rewrite !zlen_app, HN. change (zlen (str "tmp")) with 3. replace (zlen z) with 10 by (unfold zlen; lia).
  replace (3 + Z.of_nat m <=? 3 + 10) with true by lia. cbv zeta iota.
  assert (drop (length (str "tmp" ++ N)) (str "tmp" ++ z) = drop m z) as -> by (rewrite length_app; change (length (str "tmp")) with 3%nat; rewrite Hlen; done).
  set (out := (str "tmp" ++ N) ++ drop m z). assert (zlen out = 13) as Hout.
  { unfold out, zlen. rewrite !length_app, length_drop. change (length (str "tmp")) with 3%nat. lia. }
  rewrite Hout. replace (3 + Z.of_nat m - 3) with (Z.of_nat m) by lia.
  rewrite slice_from_in_range, bind_ret by lia.
  replace (slice out 3 (3 + Z.of_nat m)) with (Ret N).
  2:{ symmetry. unfold out. rewrite <- app_assoc. change 3 with (zlen (str "tmp")). rewrite <- HN. apply slice_app_mid. }
  rewrite bind_ret, copy_slice_short by (unfold zlen in *; rewrite length_drop; lia).
  rewrite (drop_ge (drop _ _)) by (unfold zlen in Hout; rewrite length_drop; lia). rewrite app_nil_r.
  assert (take (Z.to_nat (13 - Z.of_nat m)) out = str "tmp" ++ take (10 - m) (N ++ drop m z)) as ->.
  { unfold out. rewrite <- app_assoc, take_app_ge by (change (length (str "tmp")) with 3%nat; lia). do 2 f_equal. change (length (str "tmp")) with 3%nat. lia. }
  set (mid := take (10 - m) (N ++ drop m z)). assert (length mid = (10 - m)%nat) as Hmid by (unfold mid; rewrite length_take, length_app, length_drop; lia).
  rewrite <- app_assoc, zlen_app, zlen_app, HN. change 3 with (zlen (str "tmp")). replace (zlen (str "tmp") + (zlen mid + Z.of_nat m) - Z.of_nat m) with (zlen (str "tmp") + zlen mid) by lia.
  rewrite zero_fill_spec by (rewrite !length_app; lia). do 2 f_equal. unfold N. rewrite Hmid.
  replace 10%nat with (10 - m + m)%nat at 2 by lia. rewrite pad_split, (Z.div_small val), pad_0 by lia. done.
Qed.

Lemma fragment_length val : length (fragment val) = 13%nat.
Proof. unfold fragment. by rewrite length_app, pad_length. Qed.

(** A pattern determines its two texts. *)
Definition ends (tl : gostring) : Prop := match tl with [] => True | x :: _ => x = STAR end.
Lemma escape_inj p p' tl tl' : ends tl -> ends tl' -> escape p ++ tl = escape p' ++ tl' -> p = p' /\ tl = tl'.
Proof.
  intros Htl Htl'. revert p'. induction p as [|c p IH]; intros p' H.
  - cbn in H. destruct p' as [|c' p']; [done|]. exfalso. destruct tl as [|x tl].
    + destruct (decide (special c')) as [Hc|Hc]; [by rewrite escape_special in H|]. rewrite escape_plain in H; [done|..]; intros ->; apply Hc; [by left|by right].
    + cbn in Htl. subst x. symmetry in H. apply escape_inv in H as [[? _]|[(? & _)|(? & _)]]; done.
  - rewrite escape_cons, <- app_assoc in H. symmetry in H. apply escape_strip in H as (v & -> & H); [|done]. by apply IH in H as [-> ->].
Qed.

Lemma split_pattern_spec pattern p s :
  splitTempFileNamePattern pattern = Ret (p, s) <-> pattern = escape p ++ STAR :: escape s.
Proof.
  unfold splitTempFileNamePattern. destruct (split_loop_spec (length pattern) [] pattern [] [] false (le_n _)) as [[E Hno]|(t & u & E & t' & u' & Hpat & -> & ->)];
    change (count false) with 0 in E; change (zlen (@nil Z)) with 0 in E; cbn [app] in *; rewrite E.
  - split; [done|]. intros Hpat. exfalso. apply (Hno p s). by exists p, s.
  - rewrite Hpat. split; [by intros [= -> ->]|]. intros [-> H]%escape_inj; [|done..]. injection H as H.
    rewrite <- (app_nil_r (escape u')), <- (app_nil_r (escape s)) in H. by apply escape_inj in H as [-> _].
Qed.
Lemma split_pattern_panics pattern :
  (forall p s, pattern <> escape p ++ STAR :: escape s) -> splitTempFileNamePattern pattern = Panic PreconditionViolation.
Proof.
  intros Hno. unfold splitTempFileNamePattern. destruct (split_loop_spec (length pattern) [] pattern [] [] false (le_n _)) as [[E _]|(t & u & _ & t' & u' & Hpat & _)];
    [exact E|by apply Hno in Hpat].
Qed.

(** A text without path separators. *)
Definition no_separators (s : gostring) : Prop := forallb (fun c => negb (sep c)) s = true.

Lemma temp_name_plain p s v : no_separators p -> no_separators s -> plain (p ++ fragment v ++ s).
Proof.
  intros Hp Hs. assert (length (p ++ fragment v ++ s) >= 13)%nat as Hlen by (rewrite !length_app, fragment_length; lia).
  split_and!; [split| |]; [by intros H; rewrite H in Hlen; cbn in Hlen; lia| |intros H; rewrite H in Hlen; cbn in Hlen; lia..].
  rewrite !forallb_app, Hp, Hs. rewrite andb_true_r. unfold fragment. rewrite forallb_app.
  change (forallb _ (str "tmp")) with true. cbn [andb]. clear Hlen. generalize 10%nat. intros n. revert v. induction n as [|n IH]; intros v; [done|].
  cbn [pad]. rewrite forallb_app, IH. cbn [andb forallb]. rewrite andb_true_r, sep_slash. pose proof (Z.mod_pos_bound v 10).
  apply negb_true_iff, Z.eqb_neq. unfold SLASH. lia.
Qed.

Section names.
Context (rand : Z -> nat -> Z) (Hrand : forall s k, 0 <= rand s k < 2 ^ 32) (pid addr : Z).
Abbreviation value_at k := (rand (seed pid addr) k).

Lemma fragments_loop_spec {T} n i (z : gostring) (yield : yield_fn gostring T) st :
  length z = 10%nat -> fragments_loop rand pid addr n i (str "tmp" ++ z) yield st = Ret (fst (range_yield (map (fun k => fragment (value_at k)) (List.seq i n)) yield st)).
Proof.
  revert i z st. induction n as [|n IH]; intros i z st Hz; [done|]. cbn [fragments_loop List.seq map range_yield].
  rewrite fragment_round_spec, bind_ret by done. destruct (yield (fragment (value_at i)) st) as [st' []]; [|done].
  unfold fragment at 1. rewrite IH by apply pad_length. done.
Qed.

Lemma TempFileFragments_enumerates :
  Enumerates (TempFileFragments rand pid addr) (map (fun k => fragment (value_at k)) (List.seq 0 TempFileFragments_MaxIters)).
Proof. intros T yield st. unfold TempFileFragments. by apply (fragments_loop_spec _ _ (str "0000000000")). Qed.

(** The seed is the bitwise conjunction of a shifted address and a process id. *)
Lemma seed_constant : 0 <= pid < 2 ^ 32 -> seed pid addr = 0.
Proof.
  intros Hp. unfold seed, int64, sint_wrap. rewrite Z.shiftl_mul_pow2 by lia.
  set (w := (addr * 2 ^ 32 + 2 ^ (64 - 1)) mod 2 ^ 64 - 2 ^ (64 - 1)).
  assert (w = Z.shiftl (addr - 2 ^ 32 * ((addr * 2 ^ 32 + 2 ^ (64 - 1)) / 2 ^ 64)) 32) as ->.
  { unfold w. rewrite Z.shiftl_mul_pow2, Z.mod_eq by lia. lia. }
  apply land_shiftl_low; lia.
Qed.

(** C34: a pattern is accepted exactly when it is a text, a wildcard and a text, written with
    escapes, and those two texts are what is read from it; any other pattern, with no or two
    wildcards or a bad escape, is a violated precondition.  The names made from an accepted
    pattern without path separators are one hundred valid names: the wildcard is replaced by
    "tmp" and a random number in decimal, which zeros may precede.  The array of the digits
    is reused, yet nothing of one number is left in the next name, so that different numbers
    give different names. *)
Theorem temp_file_names_spec (pattern : gostring) :
  (forall p s, splitTempFileNamePattern pattern = Ret (p, s) <-> pattern = escape p ++ STAR :: escape s) /\
  ((forall p s, pattern <> escape p ++ STAR :: escape s) -> TempFileNames rand pid addr false pattern = Panic PreconditionViolation) /\
  (forall p s, pattern = escape p ++ STAR :: escape s -> no_separators p -> no_separators s ->
     exists names name, TempFileNames rand pid addr false pattern = Ret names /\
       Enumerates names (map (fun k => MkName (name k)) (List.seq 0 100)) /\
       forall k, plain (name k) /\ (exists z, name k = p ++ str "tmp" ++ replicate z 48 ++ numeral 10 (value_at k) ++ s) /\
         forall j, name j = name k -> value_at j = value_at k).
Proof.
  split_and!.
  - intros p s. apply split_pattern_spec.
  - intros Hno. unfold TempFileNames. by rewrite split_pattern_panics.
  - intros p s Hpat%split_pattern_spec Hp Hs. unfold TempFileNames. rewrite Hpat, bind_ret.
    eexists _, (fun k => p ++ fragment (value_at k) ++ s). split; [done|]. split.
    + rewrite <- (map_map (fun k => fragment (value_at k)) (fun f => MkName (p ++ f ++ s))). apply (Names_enumerates); [|apply TempFileFragments_enumerates].
      apply Forall_forall. intros f (k & <- & _)%list_elem_of_In%in_map_iff. by apply temp_name_plain.
    + intros k. split; [by apply temp_name_plain|]. split.
      * destruct (fragment_numeral (value_at k)) as [z ->]; [done|]. exists z. by rewrite <- !app_assoc.
      * intros j Hj. apply app_inv_head, app_inv_tail in Hj. by apply fragment_inj in Hj.
Qed.
End names.

Lemma temp_file_names_spec_witness :
  no_separators (str "cache.") /\
  exists names name, TempFileNames (fun _ _ => 1035) 4711 140732 false (str "cache.*") = Ret names /\
    Enumerates names (map (fun k => MkName (name k)) (List.seq 0 100)) /\ forall k : nat, plain (name k).
Proof.
  split; [reflexivity|].
  destruct (temp_file_names_spec (fun _ _ => 1035) ltac:(intros; lia) 4711 140732 (str "cache.*")) as (_ & _ & H).
  destruct (H (str "cache.") []) as (names & name & H1 & H2 & H3); [reflexivity..|].
  exists names, name. split; [exact H1|]. split; [exact H2|]. intros k. apply H3.
Defined.
