(* ===== verification/Golden.v ===== *)
(** * Golden files ([check/golden/golden.go])

    The pruning of stale snapshots: a depth-first walk with an explicit stack
    over a file system that it changes.  The file system is a parameter:
    [impl_ReadDir] gives the entries that reading a directory delivers (entries
    deleted on the way have already been delivered) and [impl_RemoveAll]
    changes its state.  Not modelled: the registration of flags, [testing.M]
    and the mutex of [usedFiles], which is only read after all tests have
    finished.  Logging is reduced to the paths it computes. *)
From S2P Require Import Prelude Core Iterx HashSet Stack MonotoneMap GoFilepath CleanSpec Lexical PathComponents RelSpec PathTypes PathLaws Config.
#[local] Open Scope Z_scope.

Inductive fileCount := fileCount_0 | fileCount_1orMore.
#[export] Instance fileCount_eq_dec : EqDecision fileCount.
Proof. solve_decision. Defined.
Inductive Phase := Enter | Exit.
Record Frame := MkFrame { fdir : RelPath; fparent : option RelPath; fphase : Phase }.

(** [snapshotDir]; the mutex is not modelled. *)
Record snapshotDir := MkSnapshotDir { pkgRelPath : RelPath; usedFiles : Set_ RelPath }.
Definition markUsed (dir : snapshotDir) (path : RelPath) : snapshotDir :=
  MkSnapshotDir (pkgRelPath dir) (Insert (usedFiles dir) path).1.

(** The entries of this package also give their [Info], of which only the mode is used. *)
Record SnapEntry (E : Type) := MkSnapEntry { se_name : Name; se_IsDir : bool; se_Info : Z + E }.
Arguments MkSnapEntry {_} _ _ _.
Arguments se_name {_} _.
Arguments se_IsDir {_} _.
Arguments se_Info {_} _.
Definition ModeSymlink : Z := Z.shiftl 1 27.

Abbreviation counts := (gmap RelPath fileCount).

Section golden.
Context (windows : bool) {E St : Type} (impl_Root : AbsPath).
Context (impl_ReadDir : St -> RelPath -> list (Result (SnapEntry E) E)) (impl_RemoveAll : St -> RelPath -> St * option E).

Inductive prune_error := IOFailure (e : E) | SymlinkError (path : AbsPath) | InDirectory (dir : RelPath) (e : prune_error).

(** ** The file system of one snapshot directory *)
Definition snap_Root (fs : snapshotDir) : go AbsPath := AbsPath_Join windows impl_Root (pkgRelPath fs).
Definition snap_ReadDir (fs : snapshotDir) (s : St) (path : RelPath) : go (list (Result (SnapEntry E) E)) :=
  p ← RelPath_Join windows (pkgRelPath fs) path; Ret (impl_ReadDir s p).
Definition snap_RemoveAll (fs : snapshotDir) (s : St) (path : RelPath) : go (St * option E) :=
  p ← RelPath_Join windows (pkgRelPath fs) path; Ret (impl_RemoveAll s p).

(** ** Pruning *)
Record prune_state := MkPrune { ps_fs : St; ps_live : counts; ps_stack : Stack Frame; ps_ret : option prune_error }.

(** The body of the loop over the entries of [dir]. *)
Definition prune_entry (fs : snapshotDir) (dir : RelPath) (entryRes : Result (SnapEntry E) E) (st : prune_state) : go (prune_state * bool) :=
  let '(MkPrune s live stack ret) := st in
  let '(entry, err) := rGet entryRes in
  match err with
  | Some e => Ret (MkPrune s live stack (Some (IOFailure e)), false)
  | None =>
  match se_Info entry with
  | inr e => Ret (MkPrune s live stack (Some (IOFailure e)), false)
  | inl mode =>
      path ← RelPath_JoinComponents windows dir [Name_String (se_name entry)];
      if negb (Z.land mode ModeSymlink =? 0) then
        root ← snap_Root fs; p ← AbsPath_Join windows root path;
        Ret (MkPrune s live stack (Some (SymlinkError p)), false)
      else if se_IsDir entry then
        Ret (MkPrune s live (Stack.Push stack (MkFrame path (Some dir) Enter)) ret, true)
      else if Contains (usedFiles fs) path then
        Ret (MkPrune s (<[dir := fileCount_1orMore]> live) stack ret, true)
      else
        '(s, err) ← snap_RemoveAll fs s path;
        match err with
        | Some e => Ret (MkPrune s live stack (Some (IOFailure e)), false)
        | None => root ← snap_Root fs; _ ← AbsPath_Join windows root path; Ret (MkPrune s live stack ret, true)
        end
  end
  end.

Fixpoint prune_loop (fuel : nat) (fs : snapshotDir) (s : St) (live : counts) (stack : Stack Frame) : go (St * option prune_error) :=
  if Stack.IsEmpty stack then Ret (s, None)
  else
    match fuel with
    | O => OutOfFuel
    | S fuel =>
        '(frame, stack) ← Stack.Pop stack;
        match fphase frame with
        | Exit =>
            let count := default fileCount_0 (live !! fdir frame) in
            match fparent frame with
            | None => Ret (s, None)
            | Some parent =>
                if bool_decide (count = fileCount_0) then
                  '(s, err) ← snap_RemoveAll fs s (fdir frame);
                  match err with Some e => Ret (s, Some (IOFailure e)) | None => prune_loop fuel fs s live stack end
                else prune_loop fuel fs s (<[parent := fileCount_1orMore]> live) stack
            end
        | Enter =>
            let live := <[fdir frame := fileCount_0]> live in
            let stack := Stack.Push stack (MkFrame (fdir frame) (fparent frame) Exit) in
            entries ← snap_ReadDir fs s (fdir frame);
            '(MkPrune s live stack ret) ← for_list entries (prune_entry fs (fdir frame)) (MkPrune s live stack None);
            match ret with Some e => Ret (s, Some e) | None => prune_loop fuel fs s live stack end
        end
    end.
Definition pruneSnapshotDir (fuel : nat) (fs : snapshotDir) (s : St) (dir : RelPath) : go (St * option prune_error) :=
  prune_loop fuel fs s {[dir := fileCount_0]} (Stack.Push Stack.NewStack (MkFrame dir None Enter)).

Definition prune_key (fuel : nat) (subdirs : MonotoneMap RelPath snapshotDir) (key : RelPath) (st : St * option prune_error)
    : go (St * option prune_error * bool) :=
  dir ← match MonotoneMap.Lookup subdirs key with Some dir => Ret dir | None => Panic InvariantViolation end;
  '(s, err) ← pruneSnapshotDir fuel dir st.1 Dot;
  match err with
  | Some e => Ret ((s, Some (InDirectory (pkgRelPath dir) e)), false)
  | None => Ret ((s, None), true)
  end.
Definition pruneUnusedSnapshots (fuel : nat) (subdirs : MonotoneMap RelPath snapshotDir) (s : St) : go (St * option prune_error) :=
  for_list (MonotoneMap.keys subdirs) (prune_key fuel subdirs) (s, None).

(** ** Running the tests of a package *)

(** [code] is the result of [m.Run()]; [update] and [should] are what the flags say after it. *)
Definition Run (fuel : nat) (code : Z) (update : bool) (should : bool * gostring) (subdirs : MonotoneMap RelPath snapshotDir) (s : St) : go (St * Z) :=
  if negb (code =? 0) || negb update then Ret (s, code)
  else if negb should.1 then Ret (s, code)
  else
    '(s, err) ← pruneUnusedSnapshots fuel subdirs s;
    match err with Some _ => Ret (s, 1) | None => Ret (s, code) end.
End golden.

Fixpoint NewSnapshotDirSet_loop (windows : bool) (subdirs : list gostring) (set : MonotoneMap RelPath snapshotDir) : go (MonotoneMap RelPath snapshotDir) :=
  match subdirs with
  | [] => Ret set
  | subdir :: subdirs =>
      rootRel ← MustParseRelPath windows subdir;
      let '(set, res) := MonotoneMap.InsertOrKeep set rootRel (MkSnapshotDir rootRel NewSet) in
      _ ← Precondition (Bool.eqb res InsertedNew);
      NewSnapshotDirSet_loop windows subdirs set
  end.
(** The working directory and its file system are given by the caller here. *)
Definition NewSnapshotDirSet (windows : bool) (subdirs : list gostring) : go (MonotoneMap RelPath snapshotDir) :=
  NewSnapshotDirSet_loop windows subdirs NewMonotoneMap.

(** [strings.ReplaceAll] with an empty replacement and a non-empty [old]. *)
Fixpoint remove_all (fuel : nat) (s old : gostring) : gostring :=
  match fuel, s with
  | S fuel, c :: t => if bool_decide (take (length old) s = old) then remove_all fuel (drop (length old) s) old else c :: remove_all fuel t old
  | _, _ => []
  end.
Fixpoint set_flag (flagValue : gostring -> go gostring) (names : list gostring) : go (option (gostring * gostring)) :=
  match names with
  | [] => Ret None
  | name :: names =>
      value ← flagValue name;
      if negb (bool_decide (value = [])) then Ret (Some (remove_all (length name) name (str "test."), value)) else set_flag flagValue names
  end.
(** [flagValue[string]] and [flagValue[bool]] read the registered flags. *)
Definition shouldPruneSnapshots (flagString : gostring -> go gostring) (flagBool : gostring -> go bool) : go (bool * gostring) :=
  r ← set_flag flagString [str "test.run"; str "test.skip"; str "test.list"];
  match r with
  | Some (userFacingFlag, value) => Ret (false, str "-" ++ userFacingFlag ++ str "=" ++ value)
  | None => short ← flagBool (str "test.short"); if short : bool then Ret (false, str "-short") else Ret (true, [])
  end.

(** ** Comparing one snapshot

    The result says whether the test goes on; messages are not modelled, and so
    is not the question which of two messages a failed read gives. *)
Section snapshot.
Context (windows : bool) {E St : Type} (impl_ReadFile : St -> RelPath -> gostring + E).
Context (impl_WriteFile : St -> RelPath -> gostring -> Z -> St * option E) (impl_MkdirAll : St -> RelPath -> Z -> St * option E).
Definition snap_ReadFile (fs : snapshotDir) (s : St) (path : RelPath) : go (gostring + E) :=
  p ← RelPath_Join windows (pkgRelPath fs) path; Ret (impl_ReadFile s p).
Definition snap_WriteFile (fs : snapshotDir) (s : St) (path : RelPath) (data : gostring) (perm : Z) : go (St * option E) :=
  p ← RelPath_Join windows (pkgRelPath fs) path; Ret (impl_WriteFile s p data perm).
Definition snap_MkdirAll (fs : snapshotDir) (s : St) (path : RelPath) (perm : Z) : go (St * option E) :=
  p ← RelPath_Join windows (pkgRelPath fs) path; Ret (impl_MkdirAll s p perm).

(** [dirSet.FS]; the harness fails the test for an unknown directory. *)
Definition FS (update : bool) (subdirs : MonotoneMap RelPath snapshotDir) (root : gostring) (s : St) : go (St * option snapshotDir) :=
  rootRel ← MustParseRelPath windows root;
  match MonotoneMap.Lookup subdirs rootRel with
  | None => Ret (s, None)
  | Some dir =>
      if update then
        let '(s, err) := impl_MkdirAll s (pkgRelPath dir) 493 in
        match err with Some _ => Ret (s, None) | None => Ret (s, Some dir) end
      else Ret (s, Some dir)
  end.

Definition AssertMatch (update : bool) (fs : snapshotDir) (path : RelPath) (got : gostring) (s : St) : go (snapshotDir * St * bool) :=
  let fs := markUsed fs path in
  if update then
    dir ← RelPath_Dir windows path;
    '(s, err) ← match dir with Some dir => snap_MkdirAll fs s dir 493 | None => Ret (s, None) end;
    match err with
    | Some _ => Ret (fs, s, false)
    | None =>
        '(s, err) ← snap_WriteFile fs s path got 420;
        Ret (fs, s, bool_decide (err = None))
    end
  else
    r ← snap_ReadFile fs s path;
    match r with
    | inr _ => Ret (fs, s, false)
    | inl wantBytes => Ret (fs, s, bool_decide (wantBytes = got))
    end.
End snapshot.
