(* ===== verification/GoldenSpec.v ===== *)
(** * What pruning snapshots does (Unix)

    The contents of a snapshot directory are a tree of kinds by relative path.
    [keeps] says which paths lead to a used file; [pruned] relates a tree to the
    original one when a set of paths has been processed; [runs] composes the
    rounds of the loop, with the fuel they take. *)
From S2P Require Import Prelude Core Iterx HashSet Stack MonotoneMap GoFilepath CleanSpec Lexical PathComponents RelSpec PathTypes PathLaws Config Golden.
#[local] Open Scope Z_scope.

(** What a path is; a file is anything but a directory or a symbolic link. *)
Inductive kind := KFile | KDir | KLink.
#[export] Instance kind_eq_dec : EqDecision kind.
Proof. solve_decision. Defined.
Abbreviation path := (list gostring) (only parsing).

(** The contents of a snapshot directory, by path relative to it. *)
Section tree.
Context (used : path -> Prop) (m0 : gmap path kind).

Definition tree : Prop := forall q n k, m0 !! (q ++ [n]) = Some k -> m0 !! q = Some KDir.
(** A used file is [q] or below it. *)
Definition keeps (q : path) : Prop := exists f, q `prefix_of` f /\ used f /\ m0 !! f = Some KFile.
Definition below (p q : path) : Prop := exists n r, q = p ++ n :: r.

(** [m] is what is left when the paths of [Reg] have been processed: exactly what is not kept is gone. *)
Record pruned (Reg : path -> Prop) (m : gmap path kind) : Prop := {
  pruned_only : forall q, m !! q = m0 !! q \/ (m !! q = None /\ Reg q /\ ~ keeps q);
  pruned_all : forall q, Reg q -> ~ keeps q -> m !! q = None
}.
(** Every used file is still there. *)
Definition safe (m : gmap path kind) : Prop := forall f, used f -> m0 !! f = Some KFile -> m !! f = Some KFile.

Lemma keeps_prefix p q : p `prefix_of` q -> keeps q -> keeps p.
Proof. intros Hpq (f & Hf & Hu). exists f. split; [by etrans|done]. Qed.

Lemma tree_below p n r k : tree -> m0 !! (p ++ n :: r) = Some k -> m0 !! p = Some KDir /\ is_Some (m0 !! (p ++ [n])).
Proof.
  intros Ht. revert k. induction r as [|x r IH] using rev_ind; intros k H.
  - split; [by eapply Ht|done].
  - apply (IH KDir). rewrite app_comm_cons, app_assoc in H. by apply Ht in H.
Qed.

Lemma prefix_cases (p q : path) : p `prefix_of` q -> q = p \/ below p q.
Proof. intros [[|n r] ->]; [left; by rewrite app_nil_r|right; by exists n, r]. Qed.

Lemma keeps_file p : tree -> m0 !! p = Some KFile -> keeps p -> used p.
Proof.
  intros Ht Hp (f & [->|(n & r & ->)]%prefix_cases & Hu & Hf); [done|].
  apply tree_below in Hf as [Hd _]; [congruence|done].
Qed.

Lemma keeps_dir d : tree -> m0 !! d = Some KDir -> keeps d <-> exists n, is_Some (m0 !! (d ++ [n])) /\ keeps (d ++ [n]).
Proof.
  intros Ht Hd. split.
  - intros (f & [->|(n & r & ->)]%prefix_cases & Hu & Hf); [congruence|]. exists n.
    split; [by eapply tree_below|]. exists (d ++ n :: r). split; [|done]. exists r. by rewrite <- app_assoc.
  - intros (n & _ & Hk). eapply keeps_prefix; [|exact Hk]. by eexists.
Qed.

Lemma pruned_safe (Reg : path -> Prop) (m : gmap path kind) : pruned Reg m -> safe m.
Proof.
  intros [H _] f Hu Hf. destruct (H f) as [->|(_ & _ & Hk)]; [done|]. destruct Hk. by exists f.
Qed.

Lemma pruned_start : pruned (fun _ => False) m0.
Proof. split; [by left|done]. Qed.

Lemma pruned_weaken (Reg Reg' : path -> Prop) (m : gmap path kind) :
  (forall q, Reg q -> Reg' q) -> (forall q, Reg' q -> ~ keeps q -> Reg q \/ m0 !! q = None) -> pruned Reg m -> pruned Reg' m.
Proof.
  intros Hsub Hsup [H1 H2]. split.
  - intros q. destruct (H1 q) as [|(? & ? & ?)]; [by left|right; auto].
  - intros q Hq Hk. destruct (Hsup q Hq Hk) as [|Hn]; [by apply H2|]. destruct (H1 q) as [->|[? _]]; done.
Qed.

Lemma pruned_remove (Reg : path -> Prop) (m : gmap path kind) (p : path) (m' : gmap path kind) :
  ~ keeps p -> (forall q, m' !! q = if decide (p `prefix_of` q) then None else m !! q) ->
  pruned Reg m -> pruned (fun q => Reg q \/ p `prefix_of` q) m'.
Proof.
  intros Hp Hm' [H1 H2]. split.
  - intros q. rewrite Hm'. destruct (decide (p `prefix_of` q)) as [Hpq|].
    + right. split_and!; [done|by right|]. intros Hk. by eapply Hp, keeps_prefix.
    + destruct (H1 q) as [|(? & ? & ?)]; [by left|right; auto].
  - intros q Hq Hk. rewrite Hm'. destruct (decide (p `prefix_of` q)) as [|Hn]; [done|]. apply H2; [by destruct Hq|done].
Qed.

(** A removal that failed half-way has not hurt what is used. *)
Lemma pruned_broken (Reg : path -> Prop) (m : gmap path kind) (p : path) (m' : gmap path kind) :
  ~ keeps p -> (forall q, ~ p `prefix_of` q -> m' !! q = m !! q) -> pruned Reg m -> safe m'.
Proof.
  intros Hp Hm' Hpr f Hu Hf. rewrite Hm'; [by eapply pruned_safe|]. intros Hpf. apply Hp. by exists f.
Qed.

Lemma pruned_untouched (Reg : path -> Prop) (m : gmap path kind) (q : path) : pruned Reg m -> ~ Reg q -> m !! q = m0 !! q.
Proof. intros [H _] Hq. by destruct (H q) as [|(_ & ? & _)]. Qed.
End tree.

(** ** The walk *)
Abbreviation dp p := (rel_path 0 p false).

Lemma dp_inj p q : Forall plain p -> Forall plain q -> dp p = dp q -> p = q.
Proof.
  intros Hp Hq H. assert (lexical_spec (render false (climb 0 p)) = lexical_spec (render false (climb 0 q))) as Hl.
  { rewrite !lexical_render by done. injection H as H. by rewrite !app_nil_r in H. }
  rewrite !lexical_render in Hl by done.
  pose proof (fold_rel_path false 0 p false (MkPath 0 []) Hp) as Fp. pose proof (fold_rel_path false 0 q false (MkPath 0 []) Hq) as Fq.
  rewrite H in Fp. rewrite Fp in Fq. rewrite !fold_climb in Fq by done. injection Fq as Fq. apply (f_equal (@rev gostring)) in Fq.
  by rewrite !rev_involutive in Fq.
Qed.

Lemma stack_top {A} (vs : list A) v :
  Stack.IsEmpty (MkStack (vs ++ [v])) = false /\ Stack.Pop (MkStack (vs ++ [v])) = Ret (v, MkStack vs).
Proof.
  split.
  - unfold Stack.IsEmpty, Stack.Len, zlen. cbn [Stack.values]. rewrite length_app. cbn [length]. apply Z.eqb_neq. lia.
  - rewrite stack_pop_spec. unfold Stack.contents. cbn [Stack.values]. by rewrite reverse_snoc, reverse_involutive.
Qed.

Lemma finite_depth (m : gmap path kind) : exists N, forall q, is_Some (m !! q) -> (length q < N)%nat.
Proof.
  induction m as [|p k m _ [N IH]] using map_ind; [exists 0%nat; intros q [x H]; by rewrite lookup_empty in H|].
  exists (N + S (length p))%nat. intros q [x H]. destruct (decide (p = q)) as [->|]; [lia|].
  rewrite lookup_insert_ne in H by done. pose proof (IH q (ex_intro _ x H)). lia.
Qed.

(** A count is raised when [Q] and otherwise left as it is. *)
Definition marked (Q : Prop) (o o' : option fileCount) : Prop := (Q /\ o' = Some fileCount_1orMore) \/ (~ Q /\ o' = o).
Lemma marked_or Q1 Q2 o o1 o2 : marked Q1 o o1 -> marked Q2 o1 o2 -> marked (Q1 \/ Q2) o o2.
Proof. unfold marked. intros [[? ->]|[? ->]] [[? ->]|[? ->]]; tauto. Qed.
Lemma marked_iff Q1 Q2 o o' : Q1 <-> Q2 -> marked Q1 o o' -> marked Q2 o o'.
Proof. unfold marked. tauto. Qed.
Lemma marked_no (Q : Prop) o : ~ Q -> marked Q o o.
Proof. right. done. Qed.

(** ** What a file system promises *)
Section prune.
Context {E St : Type} (root : path) (troot : bool) (Hroot : Forall plain root).
Context (impl_ReadDir : St -> RelPath -> list (Result (SnapEntry E) E)) (impl_RemoveAll : St -> RelPath -> St * option E).
Context (fs : snapshotDir) (up : nat) (es : path) (tr0 : bool) (Hes : Forall plain es) (Hpkg : pkgRelPath fs = rel_path up es tr0).
(** What is below the snapshot directory. *)
Context (tree_of : St -> gmap path kind).

Abbreviation entry := (SnapEntry E).
Definition ename (e : entry) : gostring := nvalue (se_name e).
(** An entry tells the kind of what it names, unless its [Info] fails. *)
Definition describes (m : gmap path kind) (d : path) (e : entry) : Prop :=
  plain (ename e) /\ exists k, m !! (d ++ [ename e]) = Some k /\ se_IsDir e = bool_decide (k = KDir) /\
    match se_Info e with inl mode => Z.land mode ModeSymlink = 0 <-> k <> KLink | inr _ => True end.
(** Reading a directory lists each name in it once, or fails on the way. *)
Definition reads (m : gmap path kind) (d : path) (l : list (Result entry E)) : Prop :=
  exists ents fail, l = map Success ents ++ fail /\ NoDup (map ename ents) /\ Forall (describes m d) ents /\
    match fail with
    | [] => forall n, is_Some (m !! (d ++ [n])) -> n ∈ map ename ents
    | r :: _ => is_Some (err r)
    end.
Context (Hread : forall s d, Forall plain d -> tree_of s !! d = Some KDir ->
  reads (tree_of s) d (impl_ReadDir s (rel_path up (es ++ d) false))).
(** Removing a path changes nothing elsewhere; it removes all that is there unless it fails. *)
Context (Hremove : forall s p, Forall plain p -> let '(s', err) := impl_RemoveAll s (rel_path up (es ++ p) false) in
  (forall q, ~ p `prefix_of` q -> tree_of s' !! q = tree_of s !! q) /\
  (err = None -> forall q, p `prefix_of` q -> tree_of s' !! q = None)).

Context (m0 : gmap path kind) (Htree : tree m0).
Definition used (p : path) : Prop := dp p ∈ HashSet.values (usedFiles fs).
Abbreviation keeps := (keeps used m0).
Abbreviation pruned := (pruned used m0).
Abbreviation safe := (safe used m0).
Abbreviation loop := (prune_loop false (abs_path root troot) impl_ReadDir impl_RemoveAll).
Abbreviation body := (prune_entry false (abs_path root troot) impl_RemoveAll fs).

Lemma pkg_Join p : Forall plain p -> RelPath_Join false (pkgRelPath fs) (dp p) = Ret (rel_path up (es ++ p) false).
Proof.
  intros Hp. rewrite Hpkg, RelPath_Join_rel by done. by rewrite Nat.sub_0_l, Nat.add_0_r, Nat.sub_0_r, firstn_all.
Qed.

(** The path that a message shows always exists. *)
Lemma shown_path p : Forall plain p ->
  exists a b, snap_Root false (abs_path root troot) fs = Ret a /\ AbsPath_Join false a (dp p) = Ret b.
Proof.
  intros Hp. unfold snap_Root. rewrite Hpkg, AbsPath_Join_rel by done. eexists _, _. split; [done|].
  apply AbsPath_Join_rel; [|done]. apply Forall_app. split; [by apply Forall_take|done].
Qed.

(** ** The entries of one directory *)
Definition names_of (dirs : bool) (ents : list entry) : list gostring := map ename (List.filter (fun e => Bool.eqb (se_IsDir e) dirs) ents).
Abbreviation frame d n := (MkFrame (dp (d ++ [n])) (Some (dp d)) Enter).
(** [D] has been processed below [d]; the count of [d] is raised when [Q], other directories outside [D] keep theirs. *)
Definition walked (Reg D : path -> Prop) (d : path) (Q : Prop) (live : counts) (s' : St) (live' : counts) : Prop :=
  pruned (fun q => Reg q \/ D q) (tree_of s') /\
  (forall q, Forall plain q -> ~ D q -> q <> d -> live' !! dp q = live !! dp q) /\
  marked Q (live !! dp d) (live' !! dp d).

Lemma remove_spec s (p : path) (Reg : path -> Prop) : Forall plain p -> ~ keeps p -> pruned Reg (tree_of s) ->
  exists s' err, snap_RemoveAll false impl_RemoveAll fs s (dp p) = Ret (s', err) /\ safe (tree_of s') /\
    (err = None -> pruned (fun q => Reg q \/ p `prefix_of` q) (tree_of s')).
Proof.
  intros Hp Hk Hpr. unfold snap_RemoveAll. rewrite pkg_Join, bind_ret by done.
  pose proof (Hremove s p Hp) as Hr. destruct (impl_RemoveAll s _) as [s' err]. destruct Hr as [Hother Hgone].
  exists s', err. split_and!; [done|by eapply pruned_broken|]. intros ->. eapply pruned_remove; [done| |done].
  intros q. destruct (decide _); [by apply Hgone|by apply Hother].
Qed.

Lemma used_Contains p : Contains (usedFiles fs) (dp p) = bool_decide (used p).
Proof. done. Qed.

(** Keeping a file that is used. *)
Lemma pruned_keep (Reg : path -> Prop) (p : path) (m : gmap path kind) :
  m0 !! p = Some KFile -> keeps p -> pruned Reg m -> pruned (fun q => Reg q \/ p `prefix_of` q) m.
Proof.
  intros Hf Hk. apply pruned_weaken; [by left|]. intros q [Hq|[->|(n & r & ->)]%prefix_cases] Hn; [by left|done|].
  right. destruct (m0 !! (p ++ n :: r)) eqn:Hx; [|done]. apply tree_below in Hx as [Hd _]; [congruence|done].
Qed.

Lemma plain_snoc (d : path) n : Forall plain d -> plain n -> Forall plain (d ++ [n]).
Proof. intros Hd Hn. apply Forall_app. split; [done|]. by apply List.Forall_cons. Qed.

(** One entry: a file is kept and counted, or removed; a directory is pushed. *)
Lemma prune_entry_spec (d : path) (e : entry) (Reg : path -> Prop) s live vs :
  Forall plain d -> describes m0 d e -> pruned Reg (tree_of s) ->
  let p := d ++ [ename e] in
  (exists s' live' stack er, body (dp d) (Success e) (MkPrune s live (MkStack vs) None) = Ret (MkPrune s' live' stack (Some er), false) /\ safe (tree_of s')) \/
  (m0 !! p = Some KDir /\ se_IsDir e = true /\
    body (dp d) (Success e) (MkPrune s live (MkStack vs) None) = Ret (MkPrune s live (MkStack (vs ++ [frame d (ename e)])) None, true)) \/
  (exists s' live', m0 !! p <> Some KDir /\ se_IsDir e = false /\
    body (dp d) (Success e) (MkPrune s live (MkStack vs) None) = Ret (MkPrune s' live' (MkStack vs) None, true) /\
    walked Reg (prefix p) d (keeps p) live s' live').
Proof.
  intros Hd (Hn & k & Hk & Hdir & Hinfo) Hpr p. pose proof (plain_snoc d _ Hd Hn) as Hp. fold p in Hp, Hk.
  unfold prune_entry. cbn [rGet Success err rvalue]. change (se_Info (Core.rvalue (Success e))) with (se_Info e).
  destruct (se_Info e) as [mode|er]; [|left; eexists _, _, _, _; by eauto using pruned_safe].
  change (Name_String (se_name (Core.rvalue (Success e)))) with (ename e). change (se_IsDir (Core.rvalue (Success e))) with (se_IsDir e).
  rewrite (RelPath_JoinComponents_plain 0 d false [ename e]), bind_ret by (done || by apply List.Forall_cons). fold p.
  destruct (shown_path p Hp) as (a & b & Ha & Hb).
  destruct (Z.land mode ModeSymlink =? 0) eqn:Hm; cbn [negb].
  2:{ left. rewrite Ha, bind_ret, Hb, bind_ret. eexists _, _, _, _; eauto using pruned_safe. }
  apply Z.eqb_eq, Hinfo in Hm. rewrite Hdir. destruct k; [|right; left|done].
  - rewrite bool_decide_false, used_Contains by done. destruct (decide (used p)) as [Hu|Hu].
    + rewrite bool_decide_true by done. right; right. eexists s, _. split_and!; [congruence|done..|].
      assert (keeps p) as Hkp by (exists p; by split). split_and!.
      * by apply pruned_keep.
      * intros q Hq _ Hqd. apply lookup_insert_ne. by intros ?%dp_inj.
      * left. split; [done|]. apply lookup_insert_eq.
    + rewrite bool_decide_false by done. assert (~ keeps p) as Hkp by (intros ?; by apply Hu, (keeps_file used m0)).
      destruct (remove_spec s p Reg Hp Hkp Hpr) as (s' & er & -> & Hsafe & Hdone). rewrite bind_ret. destruct er as [er|].
      * left. by eexists _, _, _, _.
      * right; right. rewrite Ha, bind_ret, Hb, bind_ret. eexists s', live. split_and!; [congruence|done..|].
        split_and!; [by apply Hdone|done|by apply marked_no].
  - by split_and!.
Qed.

Lemma names_of_cons dirs (e : entry) ents :
  names_of dirs (e :: ents) = (if Bool.eqb (se_IsDir e) dirs then [ename e] else []) ++ names_of dirs ents.
Proof. unfold names_of. cbn [List.filter]. by destruct (Bool.eqb _ _). Qed.

(** The files [ns] below [d]. *)
Definition among (d : path) (ns : list gostring) (q : path) : Prop := exists n, n ∈ ns /\ (d ++ [n]) `prefix_of` q.
Lemma among_cons d n ns q : among d (n :: ns) q <-> (d ++ [n]) `prefix_of` q \/ among d ns q.
Proof. unfold among. setoid_rewrite elem_of_cons. naive_solver. Qed.
Lemma among_snoc d n ns q : among d (ns ++ [n]) q <-> among d ns q \/ (d ++ [n]) `prefix_of` q.
Proof. unfold among. setoid_rewrite elem_of_app. setoid_rewrite list_elem_of_singleton. naive_solver. Qed.
Definition some_kept (d : path) (ns : list gostring) : Prop := exists n, n ∈ ns /\ keeps (d ++ [n]).
Lemma some_kept_cons d n ns : some_kept d (n :: ns) <-> keeps (d ++ [n]) \/ some_kept d ns.
Proof. unfold some_kept. setoid_rewrite elem_of_cons. naive_solver. Qed.
Lemma some_kept_snoc d n ns : some_kept d (ns ++ [n]) <-> some_kept d ns \/ keeps (d ++ [n]).
Proof. unfold some_kept. setoid_rewrite elem_of_app. setoid_rewrite list_elem_of_singleton. naive_solver. Qed.

Lemma pruned_iff (R1 R2 : path -> Prop) (m : gmap path kind) : (forall q, R1 q <-> R2 q) -> pruned R1 m -> pruned R2 m.
Proof. intros H. apply pruned_weaken; intros q Hq; [by apply H|]. left. by apply H. Qed.

(** Working on [D1] and then on [D2]. *)
Lemma walked_trans (Reg D1 D2 : path -> Prop) d Q1 Q2 live s1 live1 s2 live2 :
  walked Reg D1 d Q1 live s1 live1 -> walked (fun q => Reg q \/ D1 q) D2 d Q2 live1 s2 live2 ->
  walked Reg (fun q => D1 q \/ D2 q) d (Q1 \/ Q2) live s2 live2.
Proof.
  intros (_ & Hl1 & Hm1) (Hp & Hl2 & Hm2). split_and!.
  - eapply pruned_iff; [|exact Hp]. intros q. tauto.
  - intros q Hq Hn Hd. rewrite Hl2 by tauto. apply Hl1; tauto.
  - by eapply marked_or.
Qed.
Lemma walked_weaken (Reg D1 D2 : path -> Prop) d Q1 Q2 live s' live' :
  (forall q, D1 q -> D2 q) -> (forall q, D2 q -> D1 q \/ keeps q \/ m0 !! q = None) -> (Q1 <-> Q2) ->
  walked Reg D1 d Q1 live s' live' -> walked Reg D2 d Q2 live s' live'.
Proof.
  intros HD HD' HQ (Hp & Hl & Hm). split_and!.
  - eapply pruned_weaken; [| |exact Hp]; intros q [Hq|Hq]; auto. intros Hk. destruct (HD' q Hq) as [|[?|?]]; [auto|done|auto].
  - intros q Hq Hn. apply Hl; [done|auto].
  - by eapply marked_iff.
Qed.
Lemma walked_iff (Reg D1 D2 : path -> Prop) d Q1 Q2 live s' live' :
  (forall q, D1 q <-> D2 q) -> (Q1 <-> Q2) -> walked Reg D1 d Q1 live s' live' -> walked Reg D2 d Q2 live s' live'.
Proof. intros HD. apply walked_weaken; intros q; [by apply HD|]. intros Hq. left. by apply HD. Qed.
Lemma walked_nil (Reg : path -> Prop) d live s : pruned Reg (tree_of s) -> walked Reg (among d []) d (some_kept d []) live s live.
Proof.
  intros Hp. split_and!; [|done|].
  - eapply pruned_iff; [|exact Hp]. intros q. split; [by left|]. intros [?|(n & ?%elem_of_nil & _)]; done.
  - apply marked_no. intros (n & ?%elem_of_nil & _). done.
Qed.

Lemma prune_entries_spec (d : path) ents fail (Reg : path -> Prop) s live vs :
  Forall plain d -> Forall (describes m0 d) ents -> match fail with [] => True | r :: _ => is_Some (err r) end -> pruned Reg (tree_of s) ->
  (exists s' live' stack er, for_list (map Success ents ++ fail) (body (dp d)) (MkPrune s live (MkStack vs) None) =
      Ret (MkPrune s' live' stack (Some er)) /\ safe (tree_of s')) \/
  (exists s' live', fail = [] /\ for_list (map Success ents ++ fail) (body (dp d)) (MkPrune s live (MkStack vs) None) =
      Ret (MkPrune s' live' (MkStack (vs ++ map (fun n => frame d n) (names_of true ents))) None) /\
    walked Reg (among d (names_of false ents)) d (some_kept d (names_of false ents)) live s' live').
Proof.
  intros Hd Hents Hfail. revert s live vs Reg. induction Hents as [|e ents He _ IH]; intros s live vs Reg Hpr; cbn [map app for_list].
  - destruct fail as [|r fail].
    + right. exists s, live. cbn [for_list names_of List.filter map]. rewrite app_nil_r. split_and!; [done..|by apply walked_nil].
    + left. destruct Hfail as [er Her]. cbn [for_list].
      assert (body (dp d) r (MkPrune s live (MkStack vs) None) = Ret (MkPrune s live (MkStack vs) (Some (IOFailure er)), false)) as ->
        by (unfold prune_entry, rGet; by rewrite Her). rewrite bind_ret.
      eexists _, _, _, _. split; [done|by eapply pruned_safe].
  - destruct (prune_entry_spec d e Reg s live vs Hd He Hpr) as [(s' & live' & stack & er & -> & Hs)|[(Hk & Hdir & ->)|(s1 & live1 & Hk & Hdir & -> & Hw)]];
      rewrite bind_ret; cbv iota beta; rewrite ?names_of_cons, ?Hdir; cbn [Bool.eqb app map].
    + left. by eexists _, _, _, _.
    + destruct (IH s live (vs ++ [frame d (ename e)]) Reg Hpr) as [H|(s' & live' & Hf & -> & Hw)]; [by left|right].
      exists s', live'. rewrite <- app_assoc. by split_and!.
    + destruct (IH s1 live1 vs _ (proj1 Hw)) as [H|(s' & live' & Hf & -> & Hw2)]; [by left|right].
      exists s', live'. split_and!; [done..|]. eapply walked_iff; [| |by eapply walked_trans].
      * intros q. symmetry. apply among_cons.
      * symmetry. apply some_kept_cons.
Qed.

(** ** Runs of the loop *)

(** From one stack the loop comes to another, or returns an error, with any larger fuel. *)
Definition runs (s : St) (live : counts) (vs vs' : list Frame) (post : St -> counts -> Prop) : Prop :=
  (exists k s' live', (forall fuel, loop (k + fuel) fs s live (MkStack vs) = loop fuel fs s' live' (MkStack vs')) /\ post s' live') \/
  (exists k s' er, (forall fuel, loop (k + fuel) fs s live (MkStack vs) = Ret (s', Some er)) /\ safe (tree_of s')).

Lemma runs_bind s live vs vs1 vs2 (P Q : St -> counts -> Prop) :
  runs s live vs vs1 P -> (forall s1 live1, P s1 live1 -> runs s1 live1 vs1 vs2 Q) -> runs s live vs vs2 Q.
Proof.
  intros [(k & s1 & live1 & H & HP)|H] HQ; [|by right].
  destruct (HQ s1 live1 HP) as [(k2 & s2 & live2 & H2 & HQ2)|(k2 & s2 & er & H2 & Hs)]; [left|right];
    exists (k + k2)%nat; eexists _, _; (split; [|done]); intros fuel; by rewrite <- Nat.add_assoc, H, H2.
Qed.
Lemma runs_ret s live vs (P : St -> counts -> Prop) : P s live -> runs s live vs vs P.
Proof. intros HP. left. by exists 0%nat, s, live. Qed.
Lemma runs_post s live vs vs' (P Q : St -> counts -> Prop) :
  (forall s1 live1, P s1 live1 -> Q s1 live1) -> runs s live vs vs' P -> runs s live vs vs' Q.
Proof. intros H Hr. eapply runs_bind; [exact Hr|]. intros s1 live1 HP. apply runs_ret. auto. Qed.

Lemma loop_exit fuel s live vs dir par :
  loop (S fuel) fs s live (MkStack (vs ++ [MkFrame dir (Some par) Exit])) =
    if bool_decide (default fileCount_0 (live !! dir) = fileCount_0) then
      '(s, err) ← snap_RemoveAll false impl_RemoveAll fs s dir;
      match err with Some e => Ret (s, Some (IOFailure e)) | None => loop fuel fs s live (MkStack vs) end
    else loop fuel fs s (<[par := fileCount_1orMore]> live) (MkStack vs).
Proof. cbn [prune_loop]. destruct (stack_top vs (MkFrame dir (Some par) Exit)) as [-> ->]. by rewrite bind_ret. Qed.

Lemma loop_enter fuel s live vs dir par l :
  snap_ReadDir false impl_ReadDir fs s dir = Ret l ->
  loop (S fuel) fs s live (MkStack (vs ++ [MkFrame dir par Enter])) =
    ('(MkPrune s live stack ret) ← for_list l (body dir) (MkPrune s (<[dir := fileCount_0]> live) (MkStack (vs ++ [MkFrame dir par Exit])) None);
     match ret with Some e => Ret (s, Some e) | None => loop fuel fs s live stack end).
Proof.
  intros Hl. cbn [prune_loop]. destruct (stack_top vs (MkFrame dir par Enter)) as [-> ->]. rewrite bind_ret. cbn [fphase fdir fparent].
  by rewrite Hl, bind_ret.
Qed.

(** ** Directories *)

(** What the walk of the directory [n] of [d] does. *)
Definition visits (d : path) (n : gostring) : Prop := forall (Reg : path -> Prop) s live vs,
  pruned Reg (tree_of s) -> (forall q, (d ++ [n]) `prefix_of` q -> ~ Reg q) ->
  runs s live (vs ++ [frame d n]) vs (walked Reg (prefix (d ++ [n])) d (keeps (d ++ [n])) live).

Lemma snoc_prefix_inj (d : path) n n' q : (d ++ [n]) `prefix_of` q -> (d ++ [n']) `prefix_of` q -> n = n'.
Proof. intros [r ->] [r' H]. rewrite <- !app_assoc in H. by apply app_inv_head in H as [= ->]. Qed.

Lemma siblings_run (d : path) ns (Reg : path -> Prop) s live vs :
  (forall n, n ∈ ns -> visits d n) -> NoDup ns -> pruned Reg (tree_of s) -> (forall q, among d ns q -> ~ Reg q) ->
  runs s live (vs ++ map (fun n => frame d n) ns) vs (walked Reg (among d ns) d (some_kept d ns) live).
Proof.
  intros Hv Hnd. revert Reg s live. induction ns as [|n ns IH] using rev_ind; intros Reg s live Hp Hdis.
  { cbn [map]. rewrite app_nil_r. by apply runs_ret, walked_nil. }
  apply NoDup_app in Hnd as (Hnd & Hnin & _). rewrite map_app, app_assoc. cbn [map].
  eapply runs_bind.
  - apply (Hv n); [apply elem_of_app; right; by left|done|]. intros q Hq. apply Hdis. exists n. split; [|done]. apply elem_of_app; right; by left.
  - intros s1 live1 Hw1. cbv beta. eapply runs_post; [|apply IH].
    + intros s2 live2 Hw2. eapply walked_iff; [| |by eapply walked_trans].
      * intros q. cbv beta. rewrite (among_snoc d n ns q). tauto.
      * rewrite (some_kept_snoc d n ns). tauto.
    + intros m Hm. apply Hv, elem_of_app. by left.
    + done.
    + apply Hw1.
    + intros q (m & Hm & Hq) [Hr|Hr]; [eapply Hdis; [|exact Hr]; exists m; split; [apply elem_of_app; by left|done]|].
      assert (m = n) as -> by (by eapply snoc_prefix_inj). eapply Hnin; [exact Hm|]. by left.
Qed.

Lemma names_of_elem dirs ents n : n ∈ names_of dirs ents <-> exists e, e ∈ ents /\ ename e = n /\ se_IsDir e = dirs.
Proof.
  unfold names_of. rewrite list_elem_of_In, in_map_iff. split.
  - intros (e & <- & [He Hd%eqb_prop]%filter_In). exists e. by rewrite list_elem_of_In.
  - intros (e & He & <- & Hd). exists e. split; [done|]. apply filter_In. rewrite <- list_elem_of_In, Hd. by rewrite eqb_reflx.
Qed.

Lemma names_of_kind (d : path) dirs ents n :
  Forall (describes m0 d) ents -> n ∈ names_of dirs ents ->
  plain n /\ exists k, m0 !! (d ++ [n]) = Some k /\ dirs = bool_decide (k = KDir).
Proof.
  rewrite Forall_forall, names_of_elem. intros Hd (e & He & <- & <-). destruct (Hd e He) as (Hp & k & Hk & Hdir & _).
  split; [done|]. by exists k.
Qed.

Lemma names_of_NoDup dirs ents : NoDup (map ename ents) -> NoDup (names_of dirs ents).
Proof.
  induction ents as [|e ents IH]; [done|]. cbn [map]. intros [Hn Hnd]%NoDup_cons. rewrite names_of_cons.
  destruct (Bool.eqb _ _); cbn [app]; [|by apply IH]. apply NoDup_cons. split; [|by apply IH].
  intros (e' & He' & Heq & _)%names_of_elem. apply Hn. rewrite <- Heq. apply list_elem_of_In, in_map. by apply list_elem_of_In.
Qed.

Lemma names_of_cover ents n : n ∈ map ename ents -> n ∈ names_of false ents \/ n ∈ names_of true ents.
Proof.
  intros (e & <- & He)%list_elem_of_In%in_map_iff.
  destruct (se_IsDir e) eqn:Hd; [right|left]; apply names_of_elem; exists e; by rewrite list_elem_of_In.
Qed.

Lemma below_among (d : path) ns q : among d ns q -> below d q.
Proof. intros (n & _ & r & ->). exists n, r. by rewrite <- app_assoc. Qed.

(** Reading and walking what is below a directory. *)
Lemma dir_runs (d : path) par (Reg : path -> Prop) s live vs :
  (forall n, plain n -> m0 !! (d ++ [n]) = Some KDir -> visits d n) -> Forall plain d -> m0 !! d = Some KDir ->
  pruned Reg (tree_of s) -> (forall q, d `prefix_of` q -> ~ Reg q) ->
  runs s live (vs ++ [MkFrame (dp d) par Enter]) (vs ++ [MkFrame (dp d) par Exit])
    (walked Reg (below d) d (keeps d) (<[dp d := fileCount_0]> live)).
Proof.
  intros Hkids Hd Hdir Hp Hdis.
  assert (forall n, tree_of s !! (d ++ [n]) = m0 !! (d ++ [n])) as Hsame.
  { intros n. eapply pruned_untouched; [done|]. apply Hdis. by eexists. }
  destruct (Hread s d Hd) as (ents & fail & Hl & Hnd & Hents & Hfail); [by erewrite pruned_untouched; [|done|apply Hdis]|].
  assert (Forall (describes m0 d) ents) as Hents0 by (eapply Forall_impl; [exact Hents|]; intros e (He & k & Hk & Hr); split; [done|]; exists k; by rewrite <- Hsame).
  assert (snap_ReadDir false impl_ReadDir fs s (dp d) = Ret (map Success ents ++ fail)) as Hread1
    by (unfold snap_ReadDir; by rewrite pkg_Join, bind_ret, Hl).
  destruct (prune_entries_spec d ents fail Reg s (<[dp d := fileCount_0]> live) (vs ++ [MkFrame (dp d) par Exit]) Hd Hents0) as
    [(s1 & live1 & stack & er & Heq & Hs)|(s1 & live1 & -> & Heq & Hw)]; [by destruct fail|done| |].
  - right. exists 1%nat, s1, er. split; [|done]. intros fuel. cbn [Nat.add]. by rewrite (loop_enter fuel s live vs _ par _ Hread1), Heq.
  - eapply (runs_bind _ _ _ ((vs ++ [MkFrame (dp d) par Exit]) ++ map (fun n => frame d n) (names_of true ents)) _
      (fun s' live' => s' = s1 /\ live' = live1)).
    { left. exists 1%nat, s1, live1. split; [|done]. intros fuel. cbn [Nat.add]. by rewrite (loop_enter fuel s live vs _ par _ Hread1), Heq. }
    intros ? ? [-> ->]. eapply runs_post; [|apply siblings_run].
    + intros s2 live2 Hw2. eapply walked_weaken; [| | |eapply walked_trans; [exact Hw|exact Hw2]].
      * intros q [?|?]; by eapply below_among.
      * intros q (n & r & ->). destruct (m0 !! (d ++ n :: r)) eqn:Hk; [left|by auto].
        apply tree_below in Hk as [_ Hk]; [|done]. rewrite <- Hsame in Hk.
        destruct (names_of_cover ents n (Hfail n Hk)) as [H|H]; [left|right]; exists n; (split; [done|]); exists r; by rewrite <- app_assoc.
      * rewrite (keeps_dir used m0 d Htree Hdir). split.
        -- intros [(n & Hn & Hk)|(n & Hn & Hk)]; exists n; (split; [|done]); (apply names_of_kind with (d := d) in Hn as (_ & k & Hk' & _); [by exists k|done]).
        -- intros (n & Hk & Hn). rewrite <- Hsame in Hk. destruct (names_of_cover ents n (Hfail n Hk)); [left|right]; by exists n.
    + intros n Hn. apply names_of_kind with (d := d) in Hn as (Hpl & k & Hk & Hb); [|done]. apply Hkids; [done|]. symmetry in Hb. apply bool_decide_eq_true in Hb. congruence.
    + by apply names_of_NoDup.
    + apply Hw.
    + intros q (n & Hn & Hq) [Hr|(n' & Hn' & Hq')].
      * eapply Hdis; [|exact Hr]. destruct Hq as [r ->]. exists (n :: r). by rewrite <- app_assoc.
      * assert (n = n') as -> by (by eapply snoc_prefix_inj). apply names_of_kind with (d := d) in Hn as (_ & k & Hk & Hb); [|done].
        apply names_of_kind with (d := d) in Hn' as (_ & k' & Hk' & Hb'); [|done].
        rewrite Hk in Hk'. injection Hk' as <-. rewrite <- Hb' in Hb. done.
Qed.

Lemma below_prefix (d q : path) : below d q -> d `prefix_of` q.
Proof. intros (n & r & ->). by eexists. Qed.
Lemma below_irrefl (d : path) n q : (d ++ [n]) `prefix_of` q -> q <> d.
Proof. intros [r ->] H. rewrite <- app_assoc in H. rewrite <- (app_nil_r d) in H at 2. by apply app_inv_head in H. Qed.

(** Leaving a directory: it is removed unless something below it is kept. *)
Lemma visit_exit (d : path) n (Reg : path -> Prop) s live live0 vs :
  Forall plain d -> plain n -> m0 !! (d ++ [n]) = Some KDir ->
  walked Reg (below (d ++ [n])) (d ++ [n]) (keeps (d ++ [n])) (<[dp (d ++ [n]) := fileCount_0]> live0) s live ->
  runs s live (vs ++ [MkFrame (dp (d ++ [n])) (Some (dp d)) Exit]) vs (walked Reg (prefix (d ++ [n])) d (keeps (d ++ [n])) live0).
Proof.
  intros Hd Hn Hdir (Hp & Hl & Hm). set (c := d ++ [n]) in *. pose proof (plain_snoc d n Hd Hn) as Hc. fold c in Hc.
  assert (forall q, Forall plain q -> ~ c `prefix_of` q -> live !! dp q = live0 !! dp q) as Hother.
  { intros q Hq Hcq. rewrite Hl; [|done|by intros ?%below_prefix|by intros ->].
    apply lookup_insert_ne. intros ->%dp_inj; [by apply Hcq|done..]. }
  assert (~ c `prefix_of` d) as Hcd by (intros H; by apply below_irrefl in H).
  destruct Hm as [[Hk Hcount]|[Hk Hcount]].
  - left. exists 1%nat, s, (<[dp d := fileCount_1orMore]> live). split.
    { intros fuel. cbn [Nat.add]. by rewrite loop_exit, Hcount. }
    split_and!.
    + eapply pruned_weaken; [| |exact Hp]; intros q [Hq|Hq]; auto using below_prefix.
      apply prefix_cases in Hq as [->|Hq]; [done|auto].
    + intros q Hq Hcq Hqd. etrans; [apply lookup_insert_ne; by intros ?%dp_inj|by apply Hother].
    + left. split; [done|]. apply lookup_insert_eq.
  - rewrite lookup_insert_eq in Hcount. destruct (remove_spec s c _ Hc Hk Hp) as (s' & er & Hrm & Hsafe & Hdone). destruct er as [er|].
    + right. exists 1%nat, s', (IOFailure er). split; [|done]. intros fuel. cbn [Nat.add]. by rewrite loop_exit, Hcount, Hrm.
    + left. exists 1%nat, s', live. split; [intros fuel; cbn [Nat.add]; by rewrite loop_exit, Hcount, Hrm|]. split_and!.
      * eapply pruned_iff; [|by apply Hdone]. intros q. pose proof (below_prefix c q). tauto.
      * intros q Hq Hcq _. by apply Hother.
      * right. split; [done|]. by apply Hother.
Qed.

Lemma visit_runs N (d : path) n :
  (forall q, is_Some (m0 !! q) -> (length q < N + length d)%nat) -> Forall plain d -> plain n -> m0 !! (d ++ [n]) = Some KDir -> visits d n.
Proof.
  revert d n. induction N as [|N IH]; intros d n HN Hd Hn Hdir.
  { specialize (HN (d ++ [n]) ltac:(by eexists)). rewrite length_app in HN. cbn in HN. lia. }
  intros Reg s live vs Hp Hdis. eapply runs_bind.
  - apply dir_runs; [|by apply plain_snoc|done..]. intros n' Hn' Hdir'. apply IH; [|by apply plain_snoc|done..].
    intros q Hq. specialize (HN q Hq). rewrite length_app. cbn. lia.
  - intros s1 live1 Hw. by apply visit_exit.
Qed.

(** C31: Pruning a snapshot directory ends, and never removes a file that a test used: not when
    reading, inspecting or removing something fails half-way, nor when it meets a symbolic
    link, which is an error.  When it succeeds, what is left is exactly the used files, the
    directories on the way to them and the snapshot directory itself; everything
    else, empty directories included, is gone.  (Unix; used paths are in normal form.) *)
Theorem prune_spec (s : St) (Hs : tree_of s = m0) (Hdir : m0 !! [] = Some KDir) :
  exists fuel0 s' ret,
    (forall fuel, pruneSnapshotDir false (abs_path root troot) impl_ReadDir impl_RemoveAll (fuel0 + fuel) fs s Dot = Ret (s', ret)) /\
    (forall f, used f -> m0 !! f = Some KFile -> tree_of s' !! f = Some KFile) /\
    (ret = None -> forall q,
      (q = [] \/ (exists f, q `prefix_of` f /\ used f /\ m0 !! f = Some KFile) -> tree_of s' !! q = m0 !! q) /\
      (q <> [] -> (forall f, q `prefix_of` f -> used f -> m0 !! f <> Some KFile) -> tree_of s' !! q = None)).
Proof.
  destruct (finite_depth m0) as [N HN]. change Dot with (dp (@nil gostring)).
  assert (pruned (fun _ => False) (tree_of s)) as Hstart by (rewrite Hs; apply pruned_start).
  destruct (dir_runs [] None (fun _ => False) s {[dp [] := fileCount_0]} []) as [(k & s1 & live1 & Hrun & Hp & _)|(k & s1 & er & Hrun & Hsafe)].
  - intros n Hn Hk. apply (visit_runs N); [|done..]. intros q Hq. specialize (HN q Hq). cbn. lia.
  - done.
  - done.
  - exact Hstart.
  - by intros q _ ?.
  - exists (k + 1)%nat, s1, None. split_and!.
    + intros fuel. rewrite <- Nat.add_assoc. etrans; [exact (Hrun _)|]. cbn [Nat.add prune_loop].
      destruct (stack_top [] (MkFrame (dp []) None Exit)) as [-> ->]. done.
    + by eapply pruned_safe.
    + intros _ q. destruct Hp as [H1 H2]. split.
      * intros Hq. destruct (H1 q) as [|(_ & [[]|(n & r & ->)] & Hk)]; [done|]. destruct Hq as [?|Hq]; done.
      * intros Hq Hk. apply H2; [right; destruct q as [|n r]; [done|by exists n, r]|]. intros (f & Hf & Hu & Hm). by eapply Hk.
  - exists k, s1, (Some er). split_and!; [intros fuel; exact (Hrun _)|exact Hsafe|done].
Qed.
End prune.

(** ** A concrete file system *)

(** Trees over a few names; [skip] is the number of elements of the snapshot directory's path. *)
Definition sample_names : path := [str "a"; str "b"; str "x"; str "y"].
Definition sample_entry (s : gmap path kind) (d : path) (n : gostring) : SnapEntry unit :=
  MkSnapEntry (MkName n) (bool_decide (s !! (d ++ [n]) = Some KDir)) (inl (if bool_decide (s !! (d ++ [n]) = Some KLink) then ModeSymlink else 0)).
Definition sample_ReadDir (skip : nat) (s : gmap path kind) (p : RelPath) : list (Result (SnapEntry unit) unit) :=
  let d := drop skip (parts (PathTypes.rvalue p)) in
  map Success (map (sample_entry s d) (List.filter (fun n => bool_decide (is_Some (s !! (d ++ [n])))) sample_names)).
Definition sample_RemoveAll (skip : nat) (s : gmap path kind) (p : RelPath) : gmap path kind * option unit :=
  let d := drop skip (parts (PathTypes.rvalue p)) in (filter (fun kv => ~ d `prefix_of` kv.1) s, None).
Definition sample_dir : snapshotDir := MkSnapshotDir (rel_path 0 [str "a"] false) (HashSet.MkSet {[dp [str "x"]]}).
Definition sample_tree : gmap path kind :=
  {[ [] := KDir; [str "x"] := KFile; [str "y"] := KFile; [str "b"] := KDir; [str "b"; str "x"] := KFile ]}.

Example sample_prune :
  pruneSnapshotDir false (abs_path [] false) (sample_ReadDir 1) (sample_RemoveAll 1) 5 sample_dir sample_tree Dot =
    Ret ({[ [] := KDir; [str "x"] := KFile ]}, None).
Proof. vm_compute. reflexivity. Qed.

(** Two nested snapshot directories are accepted, and pruning the outer one removes what is used in the inner one. *)
Definition nested_tree : gmap path kind :=
  {[ [] := KDir; [str "a"] := KDir; [str "a"; str "b"] := KDir; [str "a"; str "b"; str "x"] := KFile ]}.
Definition nested_run : go (list gostring * option (prune_error (E := unit)) * bool) :=
  set ← NewSnapshotDirSet false [str "a"; str "a/b"];
  let inner := MkRelPath (str "a/b") in
  dir ← match MonotoneMap.Lookup set inner with Some dir => Ret dir | None => Panic NilDereference end;
  let set := (MonotoneMap.InsertOrReplace set inner (markUsed dir (MkRelPath (str "x")))).1 in
  '(s, err) ← pruneUnusedSnapshots false (abs_path [] false) (sample_ReadDir 0) (sample_RemoveAll 0) 9 set nested_tree;
  Ret (map PathTypes.rvalue (MonotoneMap.keys set), err, bool_decide (is_Some (s !! [str "a"; str "b"; str "x"]))).
Lemma nested_snapshots_lose_files : exists err, nested_run = Ret ([str "a"; str "a/b"], err, false).
Proof. eexists. vm_compute. reflexivity. Qed.

Definition sample_tree_of (s : gmap path kind) : gmap path kind := filter (fun kv => Forall (.∈ sample_names) kv.1) s.

Lemma sample_tree_of_lookup s p : Forall (.∈ sample_names) p -> sample_tree_of s !! p = s !! p.
Proof.
  intros Hp. unfold sample_tree_of. destruct (s !! p) as [k|] eqn:Hk; [by apply map_lookup_filter_Some|].
  apply map_lookup_filter_None. by left.
Qed.
Lemma sample_tree_of_in s p : is_Some (sample_tree_of s !! p) -> Forall (.∈ sample_names) p.
Proof. intros [k [_ H]%map_lookup_filter_Some]. done. Qed.
Lemma sample_plain : Forall plain sample_names.
Proof. repeat first [apply List.Forall_cons | apply List.Forall_nil]; repeat split; vm_compute; done. Qed.

Lemma sample_path p : Forall plain p -> drop 1 (parts (PathTypes.rvalue (rel_path 0 ([str "a"] ++ p) false))) = p.
Proof.
  intros Hp. cbn [PathTypes.rvalue rel_path trail]. rewrite app_nil_r, parts_render; [done| |done].
  apply List.Forall_cons; [|done]. repeat split; vm_compute; done.
Qed.

Lemma sample_reads s d :
  Forall plain d -> sample_tree_of s !! d = Some KDir ->
  reads (sample_tree_of s) d (sample_ReadDir 1 s (rel_path 0 ([str "a"] ++ d) false)).
Proof.
  intros Hd Hdir. unfold sample_ReadDir. rewrite sample_path by done.
  set (ns := List.filter _ sample_names).
  assert (forall n, n ∈ ns <-> n ∈ sample_names /\ is_Some (s !! (d ++ [n]))) as Hns
    by (intros n; unfold ns; by rewrite !list_elem_of_In, filter_In, bool_decide_eq_true).
  assert (forall n, n ∈ sample_names -> sample_tree_of s !! (d ++ [n]) = s !! (d ++ [n])) as Hsame.
  { intros n Hn. apply sample_tree_of_lookup, Forall_app. split; [eapply sample_tree_of_in; by eexists|by apply List.Forall_cons]. }
  exists (map (sample_entry s d) ns), []. rewrite app_nil_r. assert (map ename (map (sample_entry s d) ns) = ns) as Hnames
    by (rewrite map_map; apply map_id).
  rewrite Hnames. split_and!; [done| | |].
  - apply NoDup_ListNoDup, List.NoDup_filter, NoDup_ListNoDup. apply (bool_decide_unpack (NoDup sample_names)). vm_compute. exact I.
  - apply Forall_forall. intros e (n & <- & Hn)%list_elem_of_In%in_map_iff. apply list_elem_of_In, Hns in Hn as [Hn [k Hk]].
    pose proof sample_plain as Hpl. rewrite Forall_forall in Hpl. split; [by apply Hpl|]. exists k. unfold sample_entry, ename. cbn.
    rewrite Hsame, Hk by done. split_and!; [done|by destruct k|by destruct k].
  - intros n Hn. apply Hns. assert (n ∈ sample_names) as Hin.
    { apply sample_tree_of_in in Hn. apply Forall_app in Hn as [_ Hn]. by inversion Hn. }
    split; [done|]. by rewrite <- Hsame.
Qed.

Lemma sample_removes s p :
  Forall plain p -> let '(s', err) := sample_RemoveAll 1 s (rel_path 0 ([str "a"] ++ p) false) in
  (forall q, ~ p `prefix_of` q -> sample_tree_of s' !! q = sample_tree_of s !! q) /\
  (err = None -> forall q, p `prefix_of` q -> sample_tree_of s' !! q = None).
Proof.
  intros Hp. unfold sample_RemoveAll. rewrite sample_path by done. cbv zeta. split.
  - intros q Hq. apply option_eq. intros k. unfold sample_tree_of. rewrite !map_lookup_filter_Some. naive_solver.
  - intros _ q Hq. apply eq_None_not_Some. intros [k [[_ Hn]%map_lookup_filter_Some _]%map_lookup_filter_Some]. done.
Qed.

Lemma prune_spec_witness :
  sample_tree_of sample_tree !! [] = Some KDir /\
  exists fuel0 s' ret,
    (forall fuel, pruneSnapshotDir false (abs_path [] false) (sample_ReadDir 1) (sample_RemoveAll 1) (fuel0 + fuel) sample_dir sample_tree Dot = Ret (s', ret)) /\
    sample_tree_of s' !! [str "x"] = Some KFile.
Proof.
  split; [vm_compute; reflexivity|].
  destruct (prune_spec (E := unit) [] false (List.Forall_nil _) (sample_ReadDir 1) (sample_RemoveAll 1) sample_dir 0 [str "a"] false)
    with (tree_of := sample_tree_of) (m0 := sample_tree_of sample_tree) (s := sample_tree) as (fuel0 & s' & ret & Hrun & Hsafe & _).
  - apply List.Forall_cons; [repeat split; vm_compute; done|apply List.Forall_nil].
  - reflexivity.
  - apply sample_reads.
  - apply sample_removes.
  - intros q n k Hq.
    assert (map_Forall (fun p _ => p = [] \/ sample_tree_of sample_tree !! removelast p = Some KDir) (sample_tree_of sample_tree)) as Hall
      by (apply (bool_decide_unpack _); vm_compute; exact I).
    destruct (Hall _ _ Hq) as [H|H]; [by destruct q|]. by rewrite removelast_last in H.
  - reflexivity.
  - vm_compute; reflexivity.
  - exists fuel0, s', ret. split; [exact Hrun|]. apply Hsafe; [|vm_compute; reflexivity]. unfold used. cbn. apply elem_of_singleton. reflexivity.
Defined.
